(* ===== verification/_CoqProject ===== *)
-Q . S2P
Prelude.v
Slice.v
FastVarint.v
HybridTime.v
DocHybridTime.v
ValueType.v
KvUtil.v
VarInt.v
Decimal.v
Uuid.v
Coding.v
Bitmap.v
Intent.v
InetAddress.v
PrimitiveValue.v
PrimitiveKeys.v
DocKey.v
DocKeyCodec.v
SubDocKeys.v
IntentKeys.v
HybridClock.v
Value.v
ValueCodec.v
IntentsDb.v
CompactionFilter.v
Compactions.v
WriteBatches.v
DocumentWrites.v
LockManager.v
LockBatches.v
KeyLocks.v
Mvcc.v
RaftConfig.v
Election.v
RaftElection.v
RetryableRequests.v
Retries.v
ClientRequests.v
PeerQueue.v
PeerWatermarks.v
PendingOperations.v
PendingRuns.v
Followers.v
FollowerRuns.v
Leases.v
