(* ===== verification/Prelude.v ===== *)
(** * A verification of the storage, clock, locking and replication core of ZNbase

    ZNbase is a distributed SQL database.  A table is split into tablets; a tablet
    is replicated by Raft; each replica keeps its rows as keys and values in a
    RocksDB store whose keys are ordered by bytes and end in the time of the write.
    A transaction first writes provisional records (intents), and moves them to
    the regular store when it commits.  This development models the parts all of
    this rests on, translated function by function from src/src/yb, and proves what
    the callers rely on.

    ** The program and the files

    Paths are relative to src/src/yb.

    Encodings:
    - Prelude.v: machine integers, the result type, byte strings and their order.
    - Slice.v: gutil/strings/fastmem.h, util/slice.h, util/slice.cc.
    - FastVarint.v: util/fast_varint.cc.  Coding.v: util/coding.h, coding-inl.h,
      coding.cc, util/memcmpable_varint.cc.  Bitmap.v: util/bitmap.h, util/bitmap.cc.
    - VarInt.v, Decimal.v, Uuid.v, InetAddress.v: util/varint.cc, util/decimal.cc,
      util/uuid.cc, util/net/inetaddress.cc.
    - HybridTime.v, DocHybridTime.v: common/hybrid_time.h, common/doc_hybrid_time.h
      and their .cc files.
    - ValueType.v, KvUtil.v: docdb/value_type.h, util/kv_util.h,
      docdb/doc_kv_util.cc, docdb/key_bytes.h.
    - PrimitiveValue.v, with its theorems in PrimitiveKeys.v: docdb/primitive_value.cc.
    - DocKey.v, with its theorems in DocKeyCodec.v and SubDocKeys.v:
      docdb/doc_key.h, docdb/doc_key.cc.
    - Value.v, with its theorems in ValueCodec.v: docdb/value.cc, util/monotime.cc,
      docdb/expiration.h, docdb/doc_ttl_util.cc.

    Storage and transactions:
    - Intent.v: util/enums.h (bit sets), common/row_mark.cc,
      util/strongly_typed_uuid.cc, docdb/intent.cc.
    - IntentKeys.v, IntentsDb.v, WriteBatches.v: the intents of a key, the writing
      and applying of intents, plain writes and transactions of other clusters in
      docdb/docdb.cc, docdb/bounded_rocksdb_iterator.cc.  DocumentWrites.v composes
      them for keys of documents.
    - CompactionFilter.v, with its theorems in Compactions.v:
      docdb/docdb_compaction_filter.cc and the caller in
      rocksdb/db/compaction_iterator.cc.
    - LockManager.v, LockBatches.v: docdb/shared_lock_manager.cc,
      docdb/lock_batch.cc, the choice of the keys to lock in docdb/docdb.cc.
      KeyLocks.v composes them for keys of documents.
    - HybridClock.v: server/hybrid_clock.cc and the physical clocks.
    - Mvcc.v: tablet/mvcc.cc.

    Replication:
    - RaftConfig.v: util/opid.cc, consensus/opid_util.cc, consensus/quorum_util.cc,
      consensus/consensus_meta.cc.
    - Election.v: consensus/leader_lease.h, consensus/leader_election.cc.
    - RaftElection.v: elections and leaders in consensus/replica_state.cc and
      consensus/raft_consensus.cc.  Leases.v: leases of leaders in the same files.
    - RetryableRequests.v, with its runs in Retries.v:
      consensus/retryable_requests.cc.  ClientRequests.v: the ids of requests in
      client/client.cc and client/meta_cache.cc.
    - PeerQueue.v, with its theorems in PeerWatermarks.v:
      consensus/consensus_queue.cc.
    - PendingOperations.v and Followers.v, with their runs in PendingRuns.v and
      FollowerRuns.v: the rounds of a replica and the updates of a follower in
      consensus/replica_state.cc and consensus/raft_consensus.cc.

    ** How the parts interact

    The encodings of the lower files build the keys of the upper ones: a document
    key is a sequence of primitive values, the end of a key is a document hybrid
    time, an intent key embeds both.  IntentKeys finds the keys above a document
    key; DocumentWrites feeds them to IntentsDb, and KeyLocks to the lock machine
    of LockManager.  The compaction filter runs on such keys and on the control
    fields of Value.  The clock gives the times the MVCC manager hands out: Mvcc
    states what it needs of a clock as a class, and HybridClock's laws discharge
    it.  A replica of RaftElection runs the election of Election on the metadata
    of RaftConfig; Leases runs a protocol of leases on the replicas and elections
    of these two files.  ClientRequests composes the ids of a client with the
    record of RetryableRequests; Retries assumes of its environment that it tells
    the record of the rounds in a certain way, and PendingRuns shows that the
    rounds of a replica do.  PeerWatermarks assumes that responses without an
    error are true of the log of the follower, and FollowerRuns shows that those
    of Followers are, unless a request from before a mismatch arrives after it.

    ** How code is modelled

    A definition keeps the name of the function it translates.  Integers are [Z],
    with the conversions of the source written out; bytes are [list Z].  A function
    returns [Ok], [Err] with the code of its [Status], [Fatal] for a failed
    [CHECK] or [LOG(FATAL)], or [UB] for undefined behaviour, so that "does not
    crash" and "reads inside its buffer" are statements.  The build is the release
    build: [DCHECK]s do nothing.  Methods that hold a mutex for their whole body
    are functions of the state; code with atomics or condition variables is a step
    per atomic access, run under any interleaving of sequentially consistent
    memory.  Messages of the cluster can be lost, repeated, delayed and reordered.
    In RaftElection replicas can crash between any two handlers and lose what they
    did not write.  Code outside the source tree (OpenSSL, Boost, the standard
    selection algorithm) is a class of operations with the class of its documented
    laws; code inside it that is not translated is an argument of the definitions
    that call it.

    ** What is shown

    - Encodings: every encoding used in keys round-trips, followed by any bytes,
      and orders as the values do, from integers to whole subdocument keys, so that
      the byte order of the store is the order of the data; word-at-a-time routines
      equal their byte-wise reference; truncated input is reported and not read
      past.  The order of keys leaves out some components, NaNs and identifiers of
      tables among them, and document keys of different shapes: where encoders,
      decoders and comparisons of the source disagree is shown too.
    - Clock: times returned by the clock strictly increase under any interleaving,
      and exceed those merged before; calls that run alone return.
    - MVCC: no operation will ever be replicated at or below a safe time that was
      returned; the manager implements an ascending queue of operations in flight.
    - Locks: conflicting holders exclude each other, wake-ups are not lost, entries
      are shared by equal keys and freed, ordered batches do not deadlock, and
      operations on a document and on one inside it meet at a lock.
    - Transactions: the strong intents of all batches of a transaction, beside its
      metadata, are exactly the writes applied to the regular store on commit, in
      any number of chunks; the same for transactions that arrive from another
      cluster.
    - Compaction: exactly the records overwritten at the history cutoff are dropped.
      The records have no time to live and no merge flags, and the table has no
      time to live.
    - Elections: at most one leader per term; an election decides once and, when
      all have answered, has decided; replicas of a term agree on its leader while
      their metadata files can be written, and what goes wrong when they cannot.
    - Leases: without revocation two leaders never report a lease at the same time,
      nor for the same hybrid time, when the coarse clocks move in steps of at most
      a millisecond; with revocation they can.
    - Replication: what the queue of a leader reports for a majority is stored by
      one; a follower commits only what its leader has, in order, and reports only
      what both have; rounds are committed once and in the order of the log.
    - Retried requests: a request is written once while the record of its client is
      kept, across restarts of the replica, and each round is answered once; a
      client that was marked as idle is forgotten too early.  The ids of a client
      are new to a tablet and to those it was split from.

    ** Bounds and fuel

    Loops over the bits of a word and over the bytes of a buffer use the width or
    the length, or one more, as fuel, which the loop cannot exceed.  The bit
    iterator and the application of a transaction in chunks return [None] when
    fuel runs out, and the theorems show that the given amount suffices.  Clocks
    are bounded by the 52 bits of a hybrid time; the bounds are hypotheses where
    overflow changes the result, and the overflow is shown where it can happen.
    Indexes and terms of the log, request ids and coarse times are [Z] without a
    bound: they grow by one or with the clock and stay far from 64 bits.

    ** Not modelled

    - RocksDB, PostgreSQL, protocol buffers and the network: external code bases,
      seen as an ordered map, as messages, and as delivery in any order.
    - Reads of documents, iterators over several stores and the resolution of
      conflicts between transactions: they run inside iterators of RocksDB.
    - The files and the cache of the log and the threads of the peers: arguments
      of the operations that ask them.
    - Changes of the configuration: the election and the queue are modelled for the
      configuration they are given.
    - Restarts of a replica in the protocol of leases: the source keeps the leases
      of old leaders in memory only.
    - Timers, the failure detector and the delays after a step down: an election
      may start at any time.
    - Weak memory orders, text forms, logging, metrics and tracing. *)

From stdpp Require Export prelude list strings gmap.
From Stdlib Require Export ZArith Lia.
Open Scope Z_scope.

(** ** Machine integers

    A C++ integer of width [w] is a [Z]; conversions to a fixed width are
    written out where the source performs them.  [uN] is the conversion to an
    unsigned type, [i64] the conversion to [int64_t] (two's complement). *)

Definition u8 (z : Z) : Z := z mod 2 ^ 8.
Definition u16 (z : Z) : Z := z mod 2 ^ 16.
Definition u32 (z : Z) : Z := z mod 2 ^ 32.
Definition u64 (z : Z) : Z := z mod 2 ^ 64.
Definition i64 (z : Z) : Z := (z + 2 ^ 63) mod 2 ^ 64 - 2 ^ 63.

(** [__builtin_clz] on a non-zero 32-bit argument. *)
Definition clz32 (z : Z) : Z := 31 - Z.log2 z.

Definition is_u8 (z : Z) : Prop := 0 <= z < 2 ^ 8.
Definition is_u16 (z : Z) : Prop := 0 <= z < 2 ^ 16.
Definition is_u32 (z : Z) : Prop := 0 <= z < 2 ^ 32.
Definition is_u64 (z : Z) : Prop := 0 <= z < 2 ^ 64.
Definition is_i64 (z : Z) : Prop := - 2 ^ 63 <= z < 2 ^ 63.

(** ** Results

    A modelled function returns [Ok], an error [Status] ([Err] with its code;
    the message text is not modelled), stops the process ([Fatal]: [CHECK],
    [LOG(FATAL)]), or has undefined behaviour ([UB]: reading outside an object,
    [top()] of an empty container, signed overflow).  [DCHECK] and
    [LOG(DFATAL)] do not stop the release build, which is the one modelled. *)

Inductive status_code :=
  | Corruption | NotFound | InvalidArgument | IllegalState | RuntimeError
  | TryAgain | AlreadyPresent | Expired | Aborted | IOError | Uninitialized | NotSupported | Incomplete.

Inductive outcome (A : Type) :=
  | Ok (a : A)
  | Err (c : status_code)
  | Fatal
  | UB.
Arguments Ok {A} _.
Arguments Err {A} _.
Arguments Fatal {A}.
Arguments UB {A}.

Definition obind {A B} (m : outcome A) (k : A → outcome B) : outcome B :=
  match m with
  | Ok a => k a
  | Err c => Err c
  | Fatal => Fatal
  | UB => UB
  end.

Declare Scope outcome_scope.
Delimit Scope outcome_scope with outcome.
Notation "'let!' x ':=' m 'in' k" := (obind m (λ x, k))
  (at level 10, x pattern, m at level 100, k at level 200,
   format "'[v' 'let!'  x  ':='  m  'in' '/' k ']'") : outcome_scope.
(** [CHECK(b)]. *)
Notation "'check!' b 'in' k" := (if b then k else Fatal)
  (at level 10, b at level 100, k at level 200) : outcome_scope.
Open Scope outcome_scope.

(** ** Automation *)

(** Split the boolean tests of a computed condition into propositions. *)
Ltac bool_tests :=
  repeat match goal with
  | H : (_ && _) = true |- _ => apply andb_true_iff in H; destruct H
  | H : (_ || _) = false |- _ => apply orb_false_iff in H; destruct H
  | H : negb _ = true |- _ => apply negb_true_iff in H
  | H : negb _ = false |- _ => apply negb_false_iff in H
  | H : (_ =? _) = true |- _ => apply Z.eqb_eq in H
  | H : (_ =? _) = false |- _ => apply Z.eqb_neq in H
  | H : (_ <? _) = true |- _ => apply Z.ltb_lt in H
  | H : (_ <? _) = false |- _ => apply Z.ltb_ge in H
  | H : (_ <=? _) = true |- _ => apply Z.leb_le in H
  | H : (_ <=? _) = false |- _ => apply Z.leb_gt in H
  | H : bool_decide _ = true |- _ => apply bool_decide_eq_true in H
  | H : bool_decide _ = false |- _ => apply bool_decide_eq_false in H
  end.

(** Case split on the outermost test or match of the goal. *)
Ltac case_test :=
  match goal with
  | |- context [if ?b then _ else _] => destruct b eqn:?; bool_tests
  end.

(** The same, for a hypothesis. *)
Ltac case_test_in H :=
  match type of H with
  | context [if ?b then _ else _] => destruct b eqn:?; bool_tests
  end.

Create HintDb ints.
#[export] Hint Unfold u8 u16 u32 u64 i64 is_u8 is_u16 is_u32 is_u64 is_i64 : ints.

(** [lia] after replacing powers of two by their values. *)
Ltac ilia := autounfold with ints in *; lia.

(** ** Integers *)

Lemma u64_small z : is_u64 z → u64 z = z.
Proof. unfold is_u64, u64. intros. by rewrite Z.mod_small. Qed.

Lemma u64_range z : is_u64 (u64 z).
Proof. unfold is_u64, u64. apply Z.mod_pos_bound. lia. Qed.

Lemma u8_range z : is_u8 (u8 z).
Proof. unfold is_u8, u8. apply Z.mod_pos_bound. lia. Qed.

Lemma u8_small z : is_u8 z → u8 z = z.
Proof. unfold is_u8, u8. intros. by rewrite Z.mod_small. Qed.

Lemma u32_small z : is_u32 z → u32 z = z.
Proof. unfold is_u32, u32. intros. by rewrite Z.mod_small. Qed.

Lemma i64_small z : is_i64 z → i64 z = z.
Proof. unfold is_i64, i64. intros. rewrite Z.mod_small; lia. Qed.

Lemma i64_u64 z : i64 (u64 z) = i64 z.
Proof. unfold i64, u64. f_equal. by rewrite Zplus_mod_idemp_l. Qed.

Lemma i64_range z : is_i64 (i64 z).
Proof.
  unfold is_i64, i64.
  pose proof (Z.mod_pos_bound (z + 2 ^ 63) (2 ^ 64) ltac:(lia)). lia.
Qed.

Lemma u64_i64 z : is_i64 z → u64 z = if z <? 0 then z + 2 ^ 64 else z.
Proof.
  unfold is_i64, u64. intros. destruct (Z.ltb_spec z 0).
  - rewrite <- (Z.mod_small (z + 2 ^ 64) (2 ^ 64)) by lia.
    rewrite <- (Z_mod_plus_full z 1 (2 ^ 64)). f_equal; lia.
  - rewrite Z.mod_small; lia.
Qed.

#[export] Hint Resolve u64_range u8_range i64_range : ints.

Lemma land_ones_mod a n : 0 <= n → Z.land a (2 ^ n - 1) = a mod 2 ^ n.
Proof. intros. rewrite <- Z.land_ones by done. by rewrite Z.ones_equiv, Z.sub_1_r. Qed.

(** [a lor b = a + b] when the low [n] bits of [a] are clear and [b] fits. *)
Lemma lor_disjoint a b n :
  0 <= n → 0 <= b < 2 ^ n → Z.lor (a * 2 ^ n) b = a * 2 ^ n + b.
Proof.
  intros Hn Hb. rewrite <- Z.shiftl_mul_pow2 by done.
  assert (Z.land (Z.shiftl a n) b = 0) as Hz.
  { rewrite <- (Z.mod_small b (2 ^ n)) by done. rewrite <- Z.land_ones by done.
    apply Z.bits_inj'. intros j Hj.
    rewrite !Z.land_spec, Z.shiftl_spec, Z.testbit_ones_nonneg, Z.bits_0 by lia.
    destruct (Z.ltb_spec j n).
    - by rewrite (Z.testbit_neg_r a) by lia.
    - by rewrite !andb_false_r. }
  by rewrite Z.add_nocarry_lxor, Z.lxor_lor by done.
Qed.

(** Masking one bit. *)
Lemma land_pow2 a k : 0 <= k → Z.land a (2 ^ k) = if Z.testbit a k then 2 ^ k else 0.
Proof.
  intros Hk. apply Z.bits_inj'. intros i Hi. rewrite Z.land_spec, Z.pow2_bits_eqb by lia.
  destruct (Z.eqb_spec k i) as [<-|].
  - rewrite andb_true_r. destruct (Z.testbit a k); [by rewrite Z.pow2_bits_true|by rewrite Z.bits_0].
  - rewrite andb_false_r. destruct (Z.testbit a k); [|by rewrite Z.bits_0].
    by rewrite Z.pow2_bits_false by lia.
Qed.

(** The top bit of a number of [k + 1] bits. *)
Lemma testbit_top a k : 0 <= k → 0 <= a < 2 ^ (k + 1) → Z.testbit a k = negb (a <? 2 ^ k).
Proof.
  intros Hk Ha. rewrite Z.pow_add_r in Ha by lia. rewrite Z.testbit_odd, Z.shiftr_div_pow2 by lia.
  destruct (Z.ltb_spec a (2 ^ k)).
  - by rewrite Z.div_small by lia.
  - by rewrite <- (Z.div_unique a (2 ^ k) 1 (a - 2 ^ k)) by lia.
Qed.

Lemma land_top_zero a k :
  0 <= k → 0 <= a < 2 ^ (k + 1) → (Z.land a (2 ^ k) =? 0) = (a <? 2 ^ k).
Proof.
  intros Hk Ha. rewrite land_pow2, testbit_top by lia.
  destruct (a <? 2 ^ k); simpl; [done|]. apply Z.eqb_neq. lia.
Qed.

(** ** Bytes

    A byte is a [Z] in [0, 256); a buffer, [std::string] or [Slice] is a list
    of bytes. *)

Abbreviation bytes := (list Z).

Definition bytes_ok (l : bytes) : Prop := Forall is_u8 l.

(** Close [bytes_ok] of an explicit list. *)
Ltac bytes_done :=
  repeat first [apply Forall_nil_2 | apply Forall_cons_2];
  first [apply u8_range | done | unfold is_u8; lia].

(** [p[i]]. *)
Definition byte_at (p : bytes) (i : nat) : outcome Z :=
  match p !! i with Some b => Ok b | None => UB end.

(** [p[i] = v]. *)
Definition store_at (p : bytes) (i : nat) (v : Z) : outcome bytes :=
  if decide (i < length p)%nat then Ok (<[i := v]> p) else UB.

(** The big-endian bytes of [v], [n] of them, and the value of such bytes. *)
Fixpoint be_bytes (n : nat) (v : Z) : bytes :=
  match n with
  | O => []
  | S k => u8 (Z.shiftr v (8 * Z.of_nat k)) :: be_bytes k v
  end.

Definition be_value (l : bytes) : Z := foldl (λ acc b, acc * 256 + b) 0 l.

(** [256 ^ length l]: the number of byte strings of the length of [l]. *)
Definition be_size (l : bytes) : Z := 256 ^ Z.of_nat (length l).

Lemma be_size_pos l : 0 < be_size l.
Proof. unfold be_size. lia. Qed.

Lemma be_size_cons b l : be_size (b :: l) = 256 * be_size l.
Proof.
  unfold be_size. rewrite length_cons, Nat2Z.inj_succ, Z.pow_succ_r; lia.
Qed.

Lemma be_value_acc l acc :
  foldl (λ acc b, acc * 256 + b) acc l = acc * be_size l + be_value l.
Proof.
  unfold be_value. revert acc. induction l as [|b l IH]; intros acc.
  - unfold be_size. simpl. lia.
  - cbn [foldl]. rewrite (IH (acc * 256 + b)), (IH (0 * 256 + b)), be_size_cons. lia.
Qed.

Lemma be_value_cons b l : be_value (b :: l) = b * be_size l + be_value l.
Proof. unfold be_value at 1. cbn [foldl]. by rewrite be_value_acc. Qed.

Lemma be_value_app l1 l2 :
  be_value (l1 ++ l2) = be_value l1 * be_size l2 + be_value l2.
Proof. unfold be_value at 1. rewrite foldl_app. by rewrite be_value_acc. Qed.

Lemma be_value_1 x : be_value [x] = x.
Proof. done. Qed.

Lemma be_value_2 x y : be_value [x; y] = x * 256 + y.
Proof. done. Qed.

Lemma be_value_range l : bytes_ok l → 0 <= be_value l < be_size l.
Proof.
  induction 1 as [|b l Hb _ IH].
  - done.
  - rewrite be_value_cons, be_size_cons. unfold is_u8 in Hb. nia.
Qed.

Lemma length_be_bytes n v : length (be_bytes n v) = n.
Proof. induction n; simpl; congruence. Qed.

Lemma be_bytes_ok n v : bytes_ok (be_bytes n v).
Proof. induction n; constructor; auto using u8_range. Qed.

Lemma be_size_be_bytes n v : be_size (be_bytes n v) = 2 ^ (8 * Z.of_nat n).
Proof.
  unfold be_size. rewrite length_be_bytes. change 256 with (2 ^ 8).
  rewrite <- Z.pow_mul_r; lia.
Qed.

Lemma be_value_be_bytes n v : be_value (be_bytes n v) = v mod 2 ^ (8 * Z.of_nat n).
Proof.
  induction n as [|n IH].
  - simpl. by rewrite Z.mod_1_r.
  - cbn [be_bytes]. rewrite be_value_cons, be_size_be_bytes, IH.
    unfold u8. rewrite Z.shiftr_div_pow2 by lia.
    replace (8 * Z.of_nat (S n)) with (8 * Z.of_nat n + 8) by lia.
    rewrite Z.pow_add_r by lia.
    rewrite (Z.rem_mul_r v (2 ^ (8 * Z.of_nat n))) by lia. lia.
Qed.

Lemma be_value_inj l1 l2 :
  bytes_ok l1 → bytes_ok l2 → length l1 = length l2 →
  be_value l1 = be_value l2 → l1 = l2.
Proof.
  intros H1. revert l2. induction H1 as [|b l Hb Hl IH]; intros [|b' l'] H2 Hlen Hv;
    try done; simplify_eq.
  inversion H2 as [|? ? Hb' Hl']; subst.
  rewrite !be_value_cons in Hv.
  assert (be_size l = be_size l') as Hs by (unfold be_size; congruence).
  pose proof (be_value_range l Hl). pose proof (be_value_range l' Hl').
  rewrite Hs in *. assert (b = b') as -> by nia.
  f_equal. apply IH; auto; lia.
Qed.

(** A byte string is determined by its length and value. *)
Lemma be_bytes_of_value l n v :
  bytes_ok l → length l = n → be_value l = v → be_bytes n v = l.
Proof.
  intros Hl <- <-. apply be_value_inj; auto using be_bytes_ok, length_be_bytes.
  rewrite be_value_be_bytes. apply Z.mod_small.
  rewrite <- (be_size_be_bytes (length l) 0).
  unfold be_size. rewrite length_be_bytes. by apply be_value_range.
Qed.

Lemma drop_be_bytes k n v : drop k (be_bytes n v) = be_bytes (n - k) v.
Proof. revert n. induction k as [|k IH]; intros [|n]; try done. apply IH. Qed.

(** Assembling bytes with [(acc << 8) | b] in a 64-bit accumulator. *)
Lemma foldl_shift_or acc l :
  is_u64 acc → bytes_ok l →
  foldl (λ acc b, Z.lor (u64 (Z.shiftl acc 8)) b) acc l = u64 (acc * be_size l + be_value l).
Proof.
  intros Ha Hl. revert acc Ha. induction Hl as [|b l Hb Hl IH]; intros acc Ha.
  - unfold be_size, be_value. simpl. symmetry. rewrite u64_small; [lia|].
    unfold is_u64 in *. lia.
  - cbn [foldl]. unfold is_u64, is_u8 in *.
    assert (Z.lor (u64 (Z.shiftl acc 8)) b = u64 (acc * 256 + b)) as ->.
    { unfold u64. rewrite Z.shiftl_mul_pow2 by lia.
      change (2 ^ 64) with (2 ^ 56 * 2 ^ 8). rewrite Zmult_mod_distr_r by lia.
      rewrite lor_disjoint by lia.
      apply (Z.mod_unique_pos _ _ (acc / 2 ^ 56)).
      - pose proof (Z.mod_pos_bound acc (2 ^ 56)). lia.
      - pose proof (Z.div_mod acc (2 ^ 56)). lia. }
    rewrite IH by apply u64_range. rewrite be_value_cons, be_size_cons. unfold u64.
    rewrite <- Zplus_mod_idemp_l, Zmult_mod_idemp_l, Zplus_mod_idemp_l. f_equal. lia.
Qed.

(** *** Lexicographic order

    [below a b]: every extension of [a] sorts before every extension of [b],
    which excludes that one is a prefix of the other. *)

Fixpoint bytes_compare (a b : bytes) : comparison :=
  match a, b with
  | [], [] => Eq
  | [], _ :: _ => Lt
  | _ :: _, [] => Gt
  | x :: a', y :: b' =>
      match x ?= y with Eq => bytes_compare a' b' | c => c end
  end.

Definition below (a b : bytes) : Prop :=
  (be_value a + 1) * be_size b <= be_value b * be_size a.

Lemma below_compare a b x y :
  bytes_ok a → bytes_ok b → below a b →
  bytes_compare (a ++ x) (b ++ y) = Lt.
Proof.
  unfold below. intros Ha. revert b. induction Ha as [|p a Hp Ha IH]; intros b Hb Hlt.
  - pose proof (be_value_range b Hb). unfold be_size, be_value in *. simpl in *. lia.
  - destruct Hb as [|q b Hq Hb].
    + pose proof (be_value_range (p :: a) ltac:(by constructor)).
      unfold be_size, be_value in *. simpl in *. lia.
    + simpl. rewrite !be_value_cons, !be_size_cons in Hlt.
      pose proof (be_value_range a Ha). pose proof (be_value_range b Hb).
      pose proof (be_size_pos a). pose proof (be_size_pos b).
      destruct (Z.compare_spec p q) as [->|?|?]; [|done|].
      * apply IH; [done|]. nia.
      * exfalso.
        assert ((q + 1) * (be_size a * be_size b) <= p * (be_size a * be_size b)) by nia.
        assert (be_value b * be_size a < be_size b * be_size a) by nia.
        assert (0 <= be_value a * be_size b) by nia. nia.
Qed.

Lemma bytes_compare_refl a : bytes_compare a a = Eq.
Proof. induction a; simpl; [done|]. by rewrite Z.compare_refl. Qed.

Lemma bytes_compare_eq a b : bytes_compare a b = Eq → a = b.
Proof.
  revert b. induction a as [|x a IH]; intros [|y b]; simpl; try done.
  destruct (Z.compare_spec x y); try done. intros. f_equal; auto.
Qed.

Lemma bytes_compare_antisym a b : bytes_compare b a = CompOpp (bytes_compare a b).
Proof.
  revert b. induction a as [|x a IH]; intros [|y b]; simpl; try done.
  rewrite (Z.compare_antisym x y). destruct (x ?= y); simpl; auto.
Qed.

Lemma bytes_compare_app_same a x y : bytes_compare (a ++ x) (a ++ y) = bytes_compare x y.
Proof. induction a; simpl; [done|]. by rewrite Z.compare_refl. Qed.

Lemma bytes_compare_lt_trans a b c :
  bytes_compare a b = Lt → bytes_compare b c = Lt → bytes_compare a c = Lt.
Proof.
  revert b c. induction a as [|x a IH]; intros [|y b] [|z c]; simpl; try done.
  destruct (Z.compare_spec x y) as [->|Hxy|]; [|intros _|done].
  - destruct (y ?= z); [apply IH|done..].
  - destruct (Z.compare_spec y z) as [->|Hyz|]; [intros _|intros _|done];
      by rewrite (proj2 (Z.compare_lt_iff _ _)) by lia.
Qed.

Lemma bytes_compare_lt_irrefl a : bytes_compare a a ≠ Lt.
Proof. by rewrite bytes_compare_refl. Qed.

(** A string that is not below [p] and does not extend it is above every
    extension of it. *)
Lemma bytes_compare_not_prefix p k x :
  bytes_compare k p ≠ Lt → ¬ p `prefix_of` k → bytes_compare k (p ++ x) = Gt.
Proof.
  revert k. induction p as [|y p IH]; intros k Hk Hp; [by destruct Hp; apply prefix_nil|].
  destruct k as [|z k]; [done|]. simpl in *. destruct (Z.compare_spec z y) as [->|?|?]; [|done..].
  apply IH; [done|]. intros Hp'. by apply Hp, prefix_cons.
Qed.

Lemma bytes_compare_prefix p x : bytes_compare (p ++ x) p ≠ Lt.
Proof. induction p as [|y p IH]; [by destruct x|]. simpl. by rewrite Z.compare_refl. Qed.

(** ** Lists *)

Lemma filter_ext_in {A} (P Q : A → Prop) `{!∀ x, Decision (P x), !∀ x, Decision (Q x)} (l : list A) :
  (∀ x, x ∈ l → P x ↔ Q x) → filter P l = filter Q l.
Proof.
  induction l as [|x l IH]; intros HP; [done|]. rewrite !filter_cons.
  assert (P x ↔ Q x) by (apply HP; constructor).
  rewrite IH by (intros y Hy; apply HP; by constructor).
  repeat case_decide; tauto.
Qed.

Lemma filter_none {A} (P : A → Prop) `{!∀ x, Decision (P x)} (l : list A) :
  (∀ x, x ∈ l → ¬ P x) → filter P l = [].
Proof.
  induction l as [|x l IH]; intros HP; [done|].
  rewrite filter_cons_False by (apply HP; constructor).
  apply IH. intros y Hy. apply HP. by constructor.
Qed.

Lemma filter_all {A} (P : A → Prop) `{!∀ x, Decision (P x)} (l : list A) :
  (∀ x, x ∈ l → P x) → filter P l = l.
Proof.
  induction l as [|x l IH]; intros HP; [done|].
  rewrite filter_cons_True by (apply HP; constructor). f_equal.
  apply IH. intros y Hy. apply HP. by constructor.
Qed.

Lemma filter_map_comm {A B} (f : A → B) (P : B → Prop) `{!∀ x, Decision (P x)} (l : list A) :
  filter P (f <$> l) = f <$> filter (λ x, P (f x)) l.
Proof.
  induction l as [|x l IH]; [done|]. rewrite fmap_cons, !filter_cons.
  case_decide; [|done]. by rewrite fmap_cons, IH.
Qed.
