(* ===== verification/Slice.v ===== *)
(** * Slices and the memory primitives below them

    Models gutil/strings/fastmem.h ([memeq], [fastmemcmp_inlined],
    [MemoryDifferencePos]) in [Module Fastmem] and util/slice.h, util/slice.cc
    in [Module Slice].  A pointer is the list of bytes readable from it on, so
    a load past the end of that list is [UB]; a [Slice] is the list of its
    bytes.  The word-at-a-time routines are proved equal to their byte-wise
    references, and [Slice::compare] to the lexicographic order. *)

From S2P Require Import Prelude.

Module Fastmem.

(** [UNALIGNED_LOAD64] / [UNALIGNED_LOAD32]: a little-endian load of [w] bytes. *)
Definition load (w : nat) (a : bytes) : outcome Z :=
  if decide (w ≤ length a)%nat then Ok (be_value (rev (take w a))) else UB.

(** [*a] *)
Definition load8 (a : bytes) : outcome Z :=
  match a with x :: _ => Ok x | [] => UB end.

(** libc [memcmp] on the first [n] bytes; only the sign of its result is
    specified. *)
Definition memcmp (a b : bytes) (n : nat) : outcome comparison :=
  if decide (n ≤ length a ∧ n ≤ length b)%nat
  then Ok (bytes_compare (take n a) (take n b)) else UB.

(** [while (a + 8 <= limit && LOAD64(a) == LOAD64(b)) a += 8, b += 8]; the
    result is the two pointers and the bytes left up to the limit. *)
Fixpoint skip64 (fuel : nat) (a b : bytes) (n : nat) : outcome (bytes * bytes * nat) :=
  match fuel with
  | O => Ok (a, b, n)
  | S fuel =>
      if decide (8 ≤ n)%nat then
        let! x := load 8 a in
        let! y := load 8 b in
        if x =? y then skip64 fuel (drop 8 a) (drop 8 b) (n - 8) else Ok (a, b, n)
      else Ok (a, b, n)
  end.

(** [if (a + 4 <= limit && LOAD32(a) == LOAD32(b)) a += 4, b += 4]. *)
Definition skip32 (a b : bytes) (n : nat) : outcome (bytes * bytes * nat) :=
  if decide (4 ≤ n)%nat then
    let! x := load 4 a in
    let! y := load 4 b in
    if x =? y then Ok (drop 4 a, drop 4 b, (n - 4)%nat) else Ok (a, b, n)
  else Ok (a, b, n).

(** [while (a < limit) { d = *a++ - *b++; if (d) return d; } return 0]. *)
Fixpoint cmp_tail (a b : bytes) (n : nat) : outcome comparison :=
  match n with
  | O => Ok Eq
  | S n =>
      let! x := load8 a in
      let! y := load8 b in
      match x - y ?= 0 with Eq => cmp_tail (drop 1 a) (drop 1 b) n | c => Ok c end
  end.

Definition fastmemcmp_inlined (a b : bytes) (n : nat) : outcome comparison :=
  if decide (64 ≤ n)%nat then memcmp a b n
  else
    let! (a, b, n) := skip64 n a b n in
    let! (a, b, n) := skip32 a b n in
    cmp_tail a b n.

(** The final byte loop of [MemoryDifferencePos]; [pos] is [a - a_void]. *)
Fixpoint diff_tail (a b : bytes) (n pos : nat) : outcome nat :=
  match n with
  | O => Ok pos
  | S n =>
      let! x := load8 a in
      let! y := load8 b in
      if negb (x =? y) then Ok pos else diff_tail (drop 1 a) (drop 1 b) n (S pos)
  end.

Definition MemoryDifferencePos (a b : bytes) (n : nat) : outcome nat :=
  let! (a1, b1, n1) := skip64 n a b n in
  let! (a2, b2, n2) := skip32 a1 b1 n1 in
  diff_tail a2 b2 n2 (n - n2).

(** The 16-byte loop of [memeq]: [for (; n >= 16; n -= 16)]. *)
Fixpoint memeq_loop (fuel : nat) (a b : bytes) (n : nat) : outcome bool :=
  match fuel with
  | O => Ok true
  | S fuel =>
      if decide (16 ≤ n)%nat then
        let! xa := load 8 a in
        let! xb := load 8 b in
        let! ya := load 8 (drop 8 a) in
        let! yb := load 8 (drop 8 b) in
        if negb (Z.lor (Z.lxor xa xb) (Z.lxor ya yb) =? 0) then Ok false
        else memeq_loop fuel (drop 16 a) (drop 16 b) (n - 16)
      else if decide (n = 0)%nat then Ok true
      else
        let! x := load 8 a in
        let! y := load 8 b in
        Ok (x =? y)
  end.

Definition memeq (a b : bytes) (n : nat) : outcome bool :=
  let n_rounded_down := (8 * (n / 8))%nat in
  if decide (n_rounded_down = 0)%nat then
    let! c := memcmp a b n in
    Ok (bool_decide (c = Eq))
  else
    let! ua := load 8 a in
    let! ub := load 8 b in
    let! va := load 8 (drop (n - 8) a) in
    let! vb := load 8 (drop (n - 8) b) in
    if negb (Z.lor (Z.lxor ua ub) (Z.lxor va vb) =? 0) then Ok false
    else
      let a := drop 8 a in
      let b := drop 8 b in
      let n := (n_rounded_down - 8)%nat in
      if decide (128 < n)%nat then
        let! c := memcmp a b n in
        Ok (bool_decide (c = Eq))
      else memeq_loop (S n) a b n.

(** ** Loads *)

Lemma load_ok w a : (w ≤ length a)%nat → load w a = Ok (be_value (rev (take w a))).
Proof. intros. unfold load. by rewrite decide_True. Qed.

Lemma load_eq w a b :
  bytes_ok a → bytes_ok b → (w ≤ length a)%nat → (w ≤ length b)%nat →
  be_value (rev (take w a)) = be_value (rev (take w b)) ↔ take w a = take w b.
Proof.
  intros Ha Hb Hla Hlb. split; [|by intros ->].
  intros Hv.
  assert (rev (take w a) = rev (take w b)) as Hr.
  { apply be_value_inj; try apply Hv.
    - apply Forall_rev. by apply Forall_take.
    - apply Forall_rev. by apply Forall_take.
    - rewrite !length_rev, !length_take. lia. }
  apply (f_equal (@rev Z)) in Hr. by rewrite !rev_involutive in Hr.
Qed.

(** Two words are equal iff the bytes under them are. *)
Lemma load_eqb w a b :
  bytes_ok a → bytes_ok b → (w ≤ length a)%nat → (w ≤ length b)%nat →
  (be_value (rev (take w a)) =? be_value (rev (take w b))) =
  bool_decide (take w a = take w b).
Proof.
  intros. destruct (Z.eqb_spec (be_value (rev (take w a))) (be_value (rev (take w b))))
    as [E|E]; symmetry.
  - apply bool_decide_eq_true. by apply load_eq.
  - apply bool_decide_eq_false. intros E'. apply E. by apply load_eq.
Qed.

Lemma lxor_pair x y z w :
  (Z.lor (Z.lxor x y) (Z.lxor z w) =? 0) = (x =? y) && (z =? w).
Proof.
  apply eq_iff_eq_true. rewrite andb_true_iff, !Z.eqb_eq, Z.lor_eq_0_iff.
  by rewrite !Z.lxor_eq_0_iff.
Qed.

Lemma take_eq_add (a b : bytes) i j :
  take (i + j) a = take (i + j) b ↔ take i a = take i b ∧ take j (drop i a) = take j (drop i b).
Proof.
  split.
  - intros E. split.
    + apply (f_equal (take i)) in E. rewrite !take_take in E.
      by rewrite !Nat.min_l in E by lia.
    + apply (f_equal (drop i)) in E. rewrite !skipn_firstn_comm in E.
      by replace (i + j - i)%nat with j in E by lia.
  - intros [E1 E2]. rewrite <- (take_drop i (take (i + j) a)), <- (take_drop i (take (i + j) b)).
    rewrite !take_take, !skipn_firstn_comm, !Nat.min_l by lia.
    replace (i + j - i)%nat with j by lia. by rewrite E1, E2.
Qed.

(** [skipped a b n r]: [r] is what is left after skipping an equal prefix. *)
Definition skipped (a b : bytes) (n : nat) (r : bytes * bytes * nat) : Prop :=
  ∃ k, (k ≤ n)%nat ∧ take k a = take k b ∧ r = (drop k a, drop k b, (n - k)%nat).

Lemma skipped_0 a b n : skipped a b n (a, b, n).
Proof. exists 0%nat. rewrite Nat.sub_0_r. repeat split; (done || lia). Qed.

Lemma skipped_add a b n k r :
  (k ≤ n)%nat → take k a = take k b →
  skipped (drop k a) (drop k b) (n - k) r → skipped a b n r.
Proof.
  intros Hk E (j & Hj & E' & ->). exists (k + j)%nat.
  rewrite take_eq_add, <- !drop_drop.
  repeat split; try (done || lia). f_equal. lia.
Qed.

Lemma skip64_spec fuel a b n :
  bytes_ok a → bytes_ok b → (n ≤ length a)%nat → (n ≤ length b)%nat →
  ∃ r, skip64 fuel a b n = Ok r ∧ skipped a b n r.
Proof.
  revert a b n. induction fuel as [|fuel IH]; intros a b n Ha Hb Hla Hlb.
  { eauto using skipped_0. }
  cbn [skip64]. destruct (decide (8 ≤ n)%nat) as [Hn|]; [|eauto using skipped_0].
  rewrite !load_ok by lia. cbn [obind]. rewrite load_eqb by (done || lia).
  case_bool_decide as E; [|eauto using skipped_0].
  destruct (IH (drop 8 a) (drop 8 b) (n - 8)%nat) as (r & -> & Hr);
    rewrite ?length_drop; try lia; try by apply Forall_drop.
  exists r. split; [done|]. by eapply skipped_add.
Qed.

Lemma skip32_spec a b n :
  bytes_ok a → bytes_ok b → (n ≤ length a)%nat → (n ≤ length b)%nat →
  ∃ r, skip32 a b n = Ok r ∧ skipped a b n r.
Proof.
  intros Ha Hb Hla Hlb. unfold skip32.
  destruct (decide (4 ≤ n)%nat) as [Hn|]; [|eauto using skipped_0].
  rewrite !load_ok by lia. cbn [obind]. rewrite load_eqb by (done || lia).
  case_bool_decide as E; [|eauto using skipped_0].
  eexists. split; [done|]. exists 4%nat. by repeat split.
Qed.

(** Both word loops together: they skip an equal prefix and read in bounds. *)
Lemma skip_spec a b n :
  bytes_ok a → bytes_ok b → (n ≤ length a)%nat → (n ≤ length b)%nat →
  ∃ r1 r2, skip64 n a b n = Ok r1 ∧ skip32 r1.1.1 r1.1.2 r1.2 = Ok r2 ∧ skipped a b n r2.
Proof.
  intros Ha Hb Hla Hlb.
  destruct (skip64_spec n a b n) as (r1 & E1 & k & Hk & Ek & ->); try done.
  destruct (skip32_spec (drop k a) (drop k b) (n - k)) as (r2 & E2 & H2);
    rewrite ?length_drop; try lia; try by apply Forall_drop.
  exists (drop k a, drop k b, (n - k)%nat), r2.
  repeat split; auto. by eapply skipped_add.
Qed.

Lemma cmp_tail_spec a b n :
  (n ≤ length a)%nat → (n ≤ length b)%nat →
  cmp_tail a b n = Ok (bytes_compare (take n a) (take n b)).
Proof.
  revert a b. induction n as [|n IH]; intros a b Ha Hb; [done|].
  destruct a as [|x a], b as [|y b]; simpl in Ha, Hb; try lia.
  cbn [cmp_tail load8 obind take bytes_compare drop].
  rewrite <- Z.compare_sub. destruct (x ?= y); [|done..]. apply IH; lia.
Qed.

Lemma compare_skip (a b : bytes) k n :
  (k ≤ n)%nat → take k a = take k b →
  bytes_compare (take n a) (take n b) =
  bytes_compare (take (n - k) (drop k a)) (take (n - k) (drop k b)).
Proof.
  intros Hk E.
  rewrite <- (take_drop k (take n a)), <- (take_drop k (take n b)).
  rewrite !take_take, !Nat.min_l, E by lia.
  by rewrite bytes_compare_app_same, !skipn_firstn_comm.
Qed.

(** The word-at-a-time comparison reads inside its buffers and agrees with the
    byte-wise one. *)
Lemma fastmemcmp_inlined_spec a b n :
  bytes_ok a → bytes_ok b → (n ≤ length a)%nat → (n ≤ length b)%nat →
  fastmemcmp_inlined a b n = Ok (bytes_compare (take n a) (take n b)).
Proof.
  intros Ha Hb Hla Hlb. unfold fastmemcmp_inlined, memcmp.
  destruct (decide (64 ≤ n)%nat); [by rewrite decide_True|].
  destruct (skip_spec a b n) as ([[a1 b1] n1] & r2 & -> & E2 & k & Hk & Ek & ->); try done.
  cbn in E2 |- *. rewrite E2. cbn [obind].
  rewrite cmp_tail_spec, <- compare_skip; rewrite ?length_drop; (done || lia).
Qed.

(** The length of the longest common prefix. *)
Fixpoint common_prefix (a b : bytes) : nat :=
  match a, b with
  | x :: a, y :: b => if x =? y then S (common_prefix a b) else O
  | _, _ => O
  end.

Lemma diff_tail_spec a b n pos :
  (n ≤ length a)%nat → (n ≤ length b)%nat →
  diff_tail a b n pos = Ok (pos + common_prefix (take n a) (take n b))%nat.
Proof.
  revert a b pos. induction n as [|n IH]; intros a b pos Ha Hb.
  { by rewrite Nat.add_0_r. }
  destruct a as [|x a], b as [|y b]; simpl in Ha, Hb; try lia.
  cbn [diff_tail load8 obind take common_prefix drop].
  destruct (x =? y); cbn [negb].
  - rewrite (IH a b) by lia. f_equal. lia.
  - f_equal. lia.
Qed.

Lemma common_prefix_app a x y : common_prefix (a ++ x) (a ++ y) = (length a + common_prefix x y)%nat.
Proof. induction a; simpl; [done|]. by rewrite Z.eqb_refl, IHa. Qed.

Lemma common_prefix_skip (a b : bytes) k n :
  (k ≤ n)%nat → (n ≤ length a)%nat → take k a = take k b →
  common_prefix (take n a) (take n b) =
  (k + common_prefix (take (n - k) (drop k a)) (take (n - k) (drop k b)))%nat.
Proof.
  intros Hk Ha E.
  rewrite <- (take_drop k (take n a)), <- (take_drop k (take n b)) at 1.
  rewrite !take_take, !Nat.min_l, <- E by lia.
  rewrite common_prefix_app, !skipn_firstn_comm, length_take. lia.
Qed.

Lemma MemoryDifferencePos_spec a b n :
  bytes_ok a → bytes_ok b → (n ≤ length a)%nat → (n ≤ length b)%nat →
  MemoryDifferencePos a b n = Ok (common_prefix (take n a) (take n b)).
Proof.
  intros Ha Hb Hla Hlb. unfold MemoryDifferencePos.
  destruct (skip_spec a b n) as ([[a1 b1] n1] & r2 & -> & E2 & k & Hk & Ek & ->); try done.
  cbn in E2 |- *. rewrite E2. cbn [obind].
  rewrite diff_tail_spec by (rewrite length_drop; lia).
  rewrite (common_prefix_skip a b k n) by done. f_equal. lia.
Qed.

(** Equality of two buffers up to [n], byte by byte. *)
Lemma take_eq_pointwise (a b : bytes) n :
  take n a = take n b ↔ ∀ i, (i < n)%nat → a !! i = b !! i.
Proof.
  split.
  - intros E i Hi. apply (f_equal (λ l, l !! i)) in E.
    by rewrite !lookup_take_lt in E by done.
  - intros H. apply list_eq. intros i. destruct (decide (i < n)%nat).
    + rewrite !lookup_take_lt by done. auto.
    + by rewrite !lookup_take_ge by lia.
Qed.

Lemma drop_eq_pointwise (a b : bytes) k n :
  take n (drop k a) = take n (drop k b) ↔
  ∀ i, (k ≤ i < k + n)%nat → a !! i = b !! i.
Proof.
  rewrite take_eq_pointwise. setoid_rewrite lookup_drop. split.
  - intros H i Hi. specialize (H (i - k)%nat).
    replace (k + (i - k))%nat with i in H by lia. apply H. lia.
  - intros H i Hi. apply H. lia.
Qed.

(** The value two xor-ed pairs of loads are tested for. *)
Lemma load_pair_eqb (a a' b b' : bytes) :
  bytes_ok a → bytes_ok b → bytes_ok a' → bytes_ok b' →
  (8 ≤ length a)%nat → (8 ≤ length b)%nat → (8 ≤ length a')%nat → (8 ≤ length b')%nat →
  (Z.lor (Z.lxor (be_value (rev (take 8 a))) (be_value (rev (take 8 b))))
     (Z.lxor (be_value (rev (take 8 a'))) (be_value (rev (take 8 b')))) =? 0) =
  bool_decide (take 8 a = take 8 b ∧ take 8 a' = take 8 b').
Proof.
  intros. rewrite lxor_pair, !load_eqb, bool_decide_and by done. done.
Qed.

Lemma memeq_loop_spec fuel a b n :
  bytes_ok a → bytes_ok b → (n ≤ length a)%nat → (n ≤ length b)%nat →
  (n < fuel)%nat → (n `mod` 8 = 0)%nat →
  memeq_loop fuel a b n = Ok (bool_decide (take n a = take n b)).
Proof.
  revert a b n. induction fuel as [|fuel IH]; intros a b n Ha Hb Hla Hlb Hf Hm; [lia|].
  assert (∀ k l, bytes_ok l → bytes_ok (drop k l)) as Hd by (intros; by apply Forall_drop).
  cbn [memeq_loop]. destruct (decide (16 ≤ n)%nat) as [Hn|Hn].
  - rewrite !load_ok by (rewrite ?length_drop; lia). cbn [obind].
    rewrite load_pair_eqb by (rewrite ?length_drop; auto; lia).
    assert (take n a = take n b ↔ (take 8 a = take 8 b ∧ take 8 (drop 8 a) = take 8 (drop 8 b))
      ∧ take (n - 16) (drop 16 a) = take (n - 16) (drop 16 b)) as Hiff.
    { rewrite <- (take_eq_add a b 8 8), <- (take_eq_add a b 16 (n - 16)).
      by replace (16 + (n - 16))%nat with n by lia. }
    case_bool_decide as E; simpl.
    + rewrite IH; rewrite ?length_drop; auto; try lia.
      { f_equal. apply bool_decide_ext. tauto. }
      replace n with ((n - 16) + 2 * 8)%nat in Hm by lia. by rewrite Nat.Div0.mod_add in Hm.
    + f_equal. symmetry. apply bool_decide_eq_false. tauto.
  - destruct (decide (n = 0)%nat) as [->|Hn0]; [done|].
    assert (n = 8)%nat as ->.
    { pose proof (Nat.div_mod_eq n 8). lia. }
    rewrite !load_ok by lia. cbn [obind]. by rewrite load_eqb by (done || lia).
Qed.

Lemma bool_decide_compare a b : bool_decide (bytes_compare a b = Eq) = bool_decide (a = b).
Proof.
  apply bool_decide_ext. split; [apply bytes_compare_eq|]. intros ->. apply bytes_compare_refl.
Qed.

Lemma memeq_spec a b n :
  bytes_ok a → bytes_ok b → (n ≤ length a)%nat → (n ≤ length b)%nat →
  memeq a b n = Ok (bool_decide (take n a = take n b)).
Proof.
  intros Ha Hb Hla Hlb. unfold memeq, memcmp.
  assert (∀ k l, bytes_ok l → bytes_ok (drop k l)) as Hd by (intros; by apply Forall_drop).
  pose proof (Nat.div_mod_eq n 8). pose proof (Nat.mod_upper_bound n 8).
  destruct (decide (8 * (n / 8) = 0)%nat).
  { rewrite decide_True by done. cbn [obind]. by rewrite bool_decide_compare. }
  rewrite !load_ok by (rewrite ?length_drop; lia). cbn [obind].
  rewrite load_pair_eqb by (rewrite ?length_drop; auto; lia).
  set (m := (8 * (n / 8) - 8)%nat).
  assert (take n a = take n b ↔
    (take 8 a = take 8 b ∧ take 8 (drop (n - 8) a) = take 8 (drop (n - 8) b)) ∧
    take m (drop 8 a) = take m (drop 8 b)) as Hiff.
  { rewrite !drop_eq_pointwise, !take_eq_pointwise. split.
    - intros E. repeat split; intros i Hi; apply E; lia.
    - intros [[E1 E2] E3] i Hi. destruct (decide (i < 8)%nat); [auto|].
      destruct (decide (i < 8 + m)%nat); [apply E3|apply E2]; lia. }
  case_bool_decide as E; cbn [negb].
  - assert (bool_decide (take m (drop 8 a) = take m (drop 8 b)) =
            bool_decide (take n a = take n b)) as <- by (apply bool_decide_ext; tauto).
    destruct (decide (128 < m)%nat).
    + rewrite decide_True by (rewrite !length_drop; lia). cbn [obind].
      by rewrite bool_decide_compare.
    + apply memeq_loop_spec; rewrite ?length_drop; auto; try lia.
      subst m. replace (8 * (n / 8) - 8)%nat with ((n / 8 - 1) * 8)%nat by lia.
      apply Nat.Div0.mod_mul.
  - f_equal. symmetry. apply bool_decide_eq_false. tauto.
Qed.

End Fastmem.

Module Slice.
Import Fastmem.

(** The result of [MemCompare] on [n] bytes, which are inside both slices at
    every call below. *)
Definition MemCompare (a b : bytes) (n : nat) : outcome comparison :=
  fastmemcmp_inlined a b n.

Definition MemEqual (a b : bytes) (n : nat) : outcome bool := memeq a b n.

Definition compare (self b : bytes) : outcome comparison :=
  let my_size := length self in
  let b_size := length b in
  let min_len := Nat.min my_size b_size in
  let! r := MemCompare self b min_len in
  Ok (match r with
      | Eq => if decide (my_size < b_size)%nat then Lt
              else if decide (b_size < my_size)%nat then Gt else Eq
      | c => c
      end).

Definition compare_prefix (self b : bytes) : outcome comparison :=
  compare (take (Nat.min (length self) (length b)) self) b.

Definition starts_with (self x : bytes) : outcome bool :=
  if decide (length x ≤ length self)%nat then MemEqual self x (length x) else Ok false.

Definition ends_with (self x : bytes) : outcome bool :=
  if decide (length x ≤ length self)%nat
  then MemEqual (drop (length self - length x) self) x (length x) else Ok false.

Definition operator_eq (x y : bytes) : outcome bool :=
  if decide (length x = length y) then MemEqual x y (length x) else Ok false.

Fixpoint difference_offset_loop (fuel : nat) (self b : bytes) (off len : nat) : outcome nat :=
  match fuel with
  | O => Ok off
  | S fuel =>
      if decide (off < len)%nat then
        match self !! off, b !! off with
        | Some x, Some y =>
            if negb (x =? y) then Ok off else difference_offset_loop fuel self b (S off) len
        | _, _ => UB
        end
      else Ok off
  end.

Definition difference_offset (self b : bytes) : outcome nat :=
  let len := Nat.min (length self) (length b) in
  difference_offset_loop len self b 0 len.

(** [DoLess(arg0, args...)], the parameter pack as a list. *)
Fixpoint DoLess (self : bytes) (args : list bytes) : outcome bool :=
  match args with
  | [] => Ok (negb (bool_decide (self = [])))
  | arg0 :: args =>
      let arg0_size := length arg0 in
      if decide (length self < arg0_size)%nat then
        let! c := compare self arg0 in
        Ok (bool_decide (c = Lt))
      else
        let! cmp := compare (take arg0_size self) arg0 in
        if bool_decide (cmp ≠ Eq) then Ok (bool_decide (cmp = Lt))
        else DoLess (drop arg0_size self) args
  end.

Definition Less := DoLess.

Definition GreaterOrEqual (self : bytes) (args : list bytes) : outcome bool :=
  let! b := Less self args in Ok (negb b).

(** [consume_byte()]: the first byte and the rest; no check in release mode. *)
Definition consume_byte (self : bytes) : outcome (Z * bytes) :=
  match self with x :: rest => Ok (x, rest) | [] => UB end.

(** [consume_byte(c)]. *)
Definition consume_byte_eq (self : bytes) (c : Z) : outcome bytes :=
  let! (consumed, rest) := consume_byte self in
  if negb (consumed =? c) then Err Corruption else Ok rest.

Definition TryConsumeByte (self : bytes) (c : Z) : bool * bytes :=
  match self with
  | [] => (false, self)
  | x :: rest => if negb (x =? c) then (false, self) else (true, rest)
  end.

Definition FirstByteOr (self : bytes) (def : Z) : Z :=
  match self with x :: _ => x | [] => def end.

(** [remove_prefix(n)], [remove_suffix(n)]: out of range moves the pointer out
    of the slice. *)
Definition remove_prefix (self : bytes) (n : nat) : outcome bytes :=
  if decide (n ≤ length self)%nat then Ok (drop n self) else UB.

Definition remove_suffix (self : bytes) (n : nat) : outcome bytes :=
  if decide (n ≤ length self)%nat then Ok (take (length self - n) self) else UB.

Definition check_size (self : bytes) (expected_size : nat) : outcome unit :=
  if negb (bool_decide (length self = expected_size)) then Err Corruption else Ok tt.

Definition kFnvOffset : Z := 14695981039346656037.
Definition kFnvPrime : Z := 1099511628211.

Definition hash (self : bytes) : Z :=
  foldl (λ result i, Z.lxor (u64 (result * kFnvPrime)) i) kFnvOffset self.

(** ** Comparison *)

Lemma bytes_compare_take a b :
  bytes_compare a b =
  match bytes_compare (take (Nat.min (length a) (length b)) a)
          (take (Nat.min (length a) (length b)) b) with
  | Eq => if decide (length a < length b)%nat then Lt
          else if decide (length b < length a)%nat then Gt else Eq
  | c => c
  end.
Proof.
  revert b. induction a as [|x a IH]; intros [|y b]; try done.
  cbn [length Nat.min take bytes_compare]. destruct (x ?= y); try done.
  rewrite IH. destruct (bytes_compare _ _); try done.
  repeat case_decide; (done || lia).
Qed.

Lemma compare_eq self b :
  bytes_ok self → bytes_ok b → compare self b = Ok (bytes_compare self b).
Proof.
  intros. unfold compare, MemCompare. rewrite fastmemcmp_inlined_spec by (done || lia).
  cbn [obind]. rewrite (bytes_compare_take self b). by destruct (bytes_compare _ _).
Qed.

Lemma starts_with_eq self x :
  bytes_ok self → bytes_ok x → starts_with self x = Ok (bool_decide (x `prefix_of` self)).
Proof.
  intros. unfold starts_with, MemEqual. case_decide.
  - rewrite memeq_spec by (done || lia). f_equal. apply bool_decide_ext.
    rewrite (take_ge x) by done. split.
    + intros <-. apply prefix_take.
    + intros [k ->]. by rewrite take_app_length.
  - f_equal. symmetry. apply bool_decide_eq_false. intros ?%prefix_length. lia.
Qed.

Lemma difference_offset_loop_spec fuel self b off :
  let len := Nat.min (length self) (length b) in
  (len ≤ off + fuel)%nat → (off ≤ len)%nat →
  difference_offset_loop fuel self b off len =
  Ok (off + common_prefix (drop off self) (drop off b))%nat.
Proof.
  cbv zeta. revert off. induction fuel as [|fuel IH]; intros off Hf Ho.
  - simpl. assert (drop off self = [] ∨ drop off b = []) as [->| ->].
    { destruct (decide (length self ≤ length b)%nat); [left|right]; apply drop_ge; lia. }
    + f_equal. simpl. lia.
    + f_equal. destruct (drop off self); simpl; lia.
  - cbn [difference_offset_loop]. case_decide as Hlt.
    + destruct (lookup_lt_is_Some_2 self off) as [x Hx]; [lia|].
      destruct (lookup_lt_is_Some_2 b off) as [y Hy]; [lia|].
      rewrite Hx, Hy. rewrite (drop_S _ _ _ Hx), (drop_S _ _ _ Hy). simpl.
      destruct (x =? y); simpl; [rewrite IH by lia|]; f_equal; lia.
    + assert (drop off self = [] ∨ drop off b = []) as [->| ->].
      { destruct (decide (length self ≤ length b)%nat); [left|right]; apply drop_ge; lia. }
      * f_equal. simpl. lia.
      * f_equal. destruct (drop off self); simpl; lia.
Qed.

(** ** [Less] *)

(** What [Less] decides: the concatenated arguments are a proper prefix of the
    slice, or sort after it. *)
Definition less_spec (self args : bytes) : bool :=
  bool_decide (self ≠ args) &&
  (bool_decide (args `prefix_of` self) || bool_decide (bytes_compare self args = Lt)).

Lemma compare_app_short a b c :
  (length a < length b)%nat → bytes_compare a (b ++ c) = bytes_compare a b.
Proof.
  revert b. induction a as [|x a IH]; intros [|y b] Hl; simpl in *; try (done || lia).
  destruct (x ?= y); try done. apply IH. lia.
Qed.

Lemma compare_app_eqlen a b x y :
  length a = length b →
  bytes_compare (a ++ x) (b ++ y) =
  match bytes_compare a b with Eq => bytes_compare x y | c => c end.
Proof.
  revert b. induction a as [|p a IH]; intros [|q b] Hl; simpl in *; try done.
  destruct (p ?= q); try done. apply IH. lia.
Qed.

Lemma prefix_app_eqlen (a b x y : bytes) :
  length a = length b → b ++ y `prefix_of` a ++ x ↔ a = b ∧ y `prefix_of` x.
Proof.
  intros Hl. split.
  - intros [k Hk]. rewrite <- app_assoc in Hk. apply app_inj_1 in Hk as [-> ->]; [|done].
    split; [done|]. by exists k.
  - intros [-> Hp]. by apply prefix_app.
Qed.

Lemma DoLess_eq self args :
  bytes_ok self → Forall bytes_ok args →
  DoLess self args = Ok (less_spec self (mjoin args)).
Proof.
  intros Hs Ha. revert self Hs. induction Ha as [|arg0 args H0 Ha IH]; intros self Hs.
  - simpl. unfold less_spec. rewrite (bool_decide_true ([] `prefix_of` self)) by apply prefix_nil.
    rewrite orb_true_l, andb_true_r. by destruct self.
  - cbn [DoLess mjoin list_join]. fold (mjoin args).
    case_decide as Hlen.
    + rewrite compare_eq by done. cbn [obind]. unfold less_spec.
      rewrite compare_app_short by done.
      rewrite (bool_decide_true (self ≠ _)) by (intros ->; rewrite length_app in Hlen; lia).
      rewrite (bool_decide_false (_ `prefix_of` _)); [done|].
      intros Hp%prefix_length. rewrite length_app in Hp. lia.
    + assert (length (take (length arg0) self) = length arg0) as Hl by (rewrite length_take; lia).
      rewrite compare_eq by first [done | by apply Forall_take]. cbn [obind].
      assert (bytes_ok (drop (length arg0) self)) as Hr by by apply Forall_drop.
      pose proof (take_drop (length arg0) self) as Hpr. revert Hl Hr Hpr.
      generalize (take (length arg0) self) (drop (length arg0) self).
      intros p r Hl Hr <-. unfold less_spec. rewrite compare_app_eqlen by done.
      setoid_rewrite (bool_decide_ext _ _ (prefix_app_eqlen p arg0 r (mjoin args) Hl)).
      assert (p ++ r = arg0 ++ mjoin args ↔ p = arg0 ∧ r = mjoin args) as Heq.
      { split; [by intros ?%app_inj_1|]. by intros [-> ->]. }
      case_bool_decide as Hc.
      * assert (p ≠ arg0) as Hne by (intros ->; apply Hc, bytes_compare_refl).
        rewrite (bool_decide_true (_ ≠ _)) by tauto.
        rewrite (bool_decide_false (p = arg0 ∧ _)) by tauto.
        by destruct (bytes_compare p arg0).
      * assert (bytes_compare p arg0 = Eq) as Hc' by (by destruct (bytes_compare p arg0)).
        apply bytes_compare_eq in Hc' as ->. rewrite bytes_compare_refl, IH by done.
        f_equal. unfold less_spec. f_equal; [|f_equal].
        -- apply bool_decide_ext. tauto.
        -- apply bool_decide_ext. tauto.
Qed.

Lemma less_spec_true self args :
  less_spec self args = true ↔
  Ok (bytes_compare self args) = Ok Lt ∨
  Ok (bool_decide (args `prefix_of` self)) = Ok true ∧ Ok (bytes_compare self args) = Ok Gt.
Proof.
  unfold less_spec. rewrite andb_true_iff, orb_true_iff, !bool_decide_eq_true.
  split.
  - intros [Hne [Hp|Hl]]; [right|by left; f_equal]. split; [by rewrite bool_decide_true|].
    destruct Hp as [k ->]. rewrite <- (app_nil_r args) at 2. rewrite bytes_compare_app_same.
    destruct k; [by rewrite app_nil_r in Hne|done].
  - intros [[= Hc]|[[= Hp%bool_decide_eq_true] [= Hc]]]; (split; [|by auto]);
      intros ->; by rewrite bytes_compare_refl in Hc.
Qed.

(** ** Properties *)

(** On the first [n] bytes of two buffers that hold at least [n] bytes, the
    word-at-a-time routines are defined and agree with the byte-wise ones:
    [memeq] decides equality, [fastmemcmp_inlined] has the sign of the
    lexicographic comparison, and [MemoryDifferencePos] is the length of the
    common prefix, which is also what the byte loop of [difference_offset]
    computes. *)
Theorem fastmem_bytewise (a b : bytes) (n : nat) :
  bytes_ok a → bytes_ok b → (n ≤ length a)%nat → (n ≤ length b)%nat →
  memeq a b n = Ok (bool_decide (take n a = take n b)) ∧
  fastmemcmp_inlined a b n = Ok (bytes_compare (take n a) (take n b)) ∧
  MemoryDifferencePos a b n = Ok (common_prefix (take n a) (take n b)) ∧
  difference_offset (take n a) (take n b) = MemoryDifferencePos a b n.
Proof.
  intros. rewrite memeq_spec, fastmemcmp_inlined_spec, MemoryDifferencePos_spec by done.
  do 3 (split; [done|]). unfold difference_offset.
  by rewrite difference_offset_loop_spec by lia.
Qed.

Definition word_sample : bytes := [9; 8; 7; 6; 5; 4; 3; 2; 1; 0; 255].
Definition word_sample' : bytes := [9; 8; 7; 6; 5; 4; 3; 2; 1; 1; 0; 3].

Lemma fastmem_bytewise_witness :
  memeq word_sample word_sample' 11 = Ok false ∧
  fastmemcmp_inlined word_sample word_sample' 11 = Ok Lt ∧
  MemoryDifferencePos word_sample word_sample' 11 = Ok 9%nat ∧
  difference_offset word_sample (take 11 word_sample') = Ok 9%nat.
Proof.
  destruct (fastmem_bytewise word_sample word_sample' 11) as (H1 & H2 & H3 & H4);
    [bytes_done | bytes_done | simpl; lia | simpl; lia |].
  exact (conj H1 (conj H2 (conj H3 (eq_trans H4 H3)))).
Defined.

(** [self.Less(args...)] holds when the concatenation of the arguments sorts
    after the slice, but also when it is a proper prefix of the slice, which
    [compare] orders the other way round. *)
Theorem less_characterised (self : bytes) (args : list bytes) :
  bytes_ok self → Forall bytes_ok args →
  (Less self args = Ok true ↔
     compare self (mjoin args) = Ok Lt ∨
     starts_with self (mjoin args) = Ok true ∧ compare self (mjoin args) = Ok Gt) ∧
  (Less self args ≠ Ok true → Less self args = Ok false).
Proof.
  intros Hs Ha. assert (bytes_ok (mjoin args)) as Hj.
  { clear Hs. induction Ha; [constructor|]. by apply Forall_app. }
  unfold Less. rewrite DoLess_eq, compare_eq, starts_with_eq by done.
  split; [|by destruct (less_spec _ _)].
  rewrite <- (less_spec_true self (mjoin args)). split; [intros [= H]; exact H|by intros ->].
Qed.

Lemma less_characterised_witness :
  Less [97; 98; 99] [[97]; [98]] = Ok true ∧ compare [97; 98; 99] [97; 98] = Ok Gt.
Proof.
  split; [|reflexivity].
  apply (less_characterised [97; 98; 99] [[97]; [98]]);
    [bytes_done | repeat constructor; bytes_done | right; split; reflexivity].
Defined.

End Slice.
