(* ===== verification/FastVarint.v ===== *)
(** * Variable-length integers

    Models util/fast_varint.h and util/fast_varint.cc: the memory-comparable
    encodings of [int64_t] and [uint64_t] used inside DocDB keys.  An encoder
    returns the [*size] bytes it writes to [dest]; a decoder takes the bytes of
    its slice and returns the value with the number of bytes consumed.

    The main facts: both encodings round-trip whatever follows them, the
    unaligned 64-bit read of the signed decoder agrees with its byte loop
    whatever bytes precede the buffer, and unsigned and signed byte-wise
    comparison of two encodings is the numeric comparison of the values. *)

From S2P Require Import Prelude.

(** ** Encoding *)

(** [while (v != 0) { v >>= 7; n += 1; }]; at most ten rounds for 64 bits. *)
Fixpoint varint_len_loop (fuel : nat) (v n : Z) : Z :=
  match fuel with
  | O => n
  | S fuel => if v =? 0 then n else varint_len_loop fuel (Z.shiftr v 7) (n + 1)
  end.

Definition SignedPositiveVarIntLength (v : Z) : Z :=
  varint_len_loop 10 (Z.shiftr v 6) 1.

(** [for (; i < n; ++i) dest[i] = uv >> (8 * (n - 1 - i))]. *)
Definition varint_tail (uv n i : Z) : bytes :=
  (λ i, u8 (Z.shiftr uv (8 * (n - 1 - i)))) <$> seqZ i (n - i).

(** The [n] bytes written for the magnitude [uv]. *)
Definition signed_dest (uv n : Z) : bytes :=
  if n =? 10 then [0xff; 0xc0] ++ varint_tail uv n 2
  else if n =? 9 then [0xff; u8 (Z.lor 0x80 (Z.shiftr uv 56))] ++ varint_tail uv n 2
  else [u8 (Z.lor (Z.lnot (Z.shiftl 1 (8 - n) - 1)) (Z.shiftr uv (8 * (n - 1))))]
         ++ varint_tail uv n 1.

Definition FastEncodeSignedVarInt (v : Z) : bytes :=
  let negative := v <? 0 in
  let uv := u64 v in
  let uv := if negative then u64 (1 + u64 (Z.lnot uv)) else uv in
  let dest := signed_dest uv (SignedPositiveVarIntLength uv) in
  if negative then (λ b, u8 (Z.lnot b)) <$> dest else dest.

(** [FastAppendSignedVarIntToBuffer], [FastEncodeSignedVarIntToStr]. *)
Definition FastAppendSignedVarIntToBuffer (v : Z) (dest : bytes) : bytes :=
  dest ++ FastEncodeSignedVarInt v.

Definition FastEncodeSignedVarIntToStr (v : Z) : bytes :=
  FastAppendSignedVarIntToBuffer v [].

(** The descending encoding of [v] is the encoding of [-v]; negating the least
    [int64_t] overflows. *)
Definition FastEncodeDescendingSignedVarInt (v : Z) : outcome bytes :=
  if v =? - 2 ^ 63 then UB else Ok (FastEncodeSignedVarInt (- v)).

Definition UnsignedVarIntLength (v : Z) : Z := varint_len_loop 10 (Z.shiftr v 7) 1.

Definition FastEncodeUnsignedVarInt (v : Z) : bytes :=
  let n := UnsignedVarIntLength v in
  if n =? 10 then [0xff; 0x80] ++ varint_tail v n 2
  else if n =? 9 then [0xff; u8 (Z.shiftr v 56)] ++ varint_tail v n 2
  else [u8 (Z.lor (Z.lnot (Z.shiftl 1 (9 - n) - 1)) (Z.shiftr v (8 * (n - 1))))]
         ++ varint_tail v n 1.

Definition FastAppendUnsignedVarIntToStr (v : Z) (dest : bytes) : bytes :=
  dest ++ FastEncodeUnsignedVarInt v.

(** ** Decoding *)

Definition kVarIntMasks : list Z :=
  [0; 0x3f; 0x1fff; 0xfffff; 0x7ffffff; 0x3ffffffff; 0x1ffffffffff; 0xffffffffffff;
   0x7fffffffffffff; 0x3fffffffffffffff; 0xffffffffffffffff].

(** Header of a signed varint: [negative] (all ones for a negative number) and
    the number of bytes. *)
Definition signed_header (src : bytes) : Z * Z :=
  let header := u16 (Z.lor (Z.shiftl (nth 0 src 0) 8)
                           (if (1 <? Z.of_nat (length src)) then nth 1 src 0 else 0)) in
  let negative := u64 (- (if Z.land header 0x8000 =? 0 then 1 else 0)) in
  let header := u16 (Z.lxor header negative) in
  (negative, clz32 (Z.lor (Z.land (Z.lnot header) 0x7fff) 0x20) - 16).

(** [FastDecodeSignedVarInt] up to the way the payload bytes are read, which
    differs between the two branches of its [#if]. *)
Definition decode_signed (read : Z → outcome Z) (src : bytes) : outcome (Z * Z) :=
  match src with
  | [] => Err Corruption
  | _ :: _ =>
      let '(negative, n_bytes) := signed_header src in
      if Z.of_nat (length src) <? n_bytes then Err Corruption
      else
        let mask := nth (Z.to_nat n_bytes) kVarIntMasks 0 in
        let! temp := read n_bytes in
        Ok (i64 (u64 (Z.lor (Z.land temp mask) (Z.land (u64 (Z.lnot mask)) negative)
                      - negative)), n_bytes)
  end.

(** The byte loop from [max(src - 8 + n_bytes, src)] to [src + n_bytes]. *)
Definition read_loop (src : bytes) (n_bytes : Z) : outcome Z :=
  let window := drop (Z.to_nat (Z.max (n_bytes - 8) 0)) (take (Z.to_nat n_bytes) src) in
  Ok (foldl (λ temp b, Z.lor (u64 (Z.shiftl temp 8)) b) 0 window).

(** [bswap64] of the 64-bit word that ends at [src + n_bytes]; [before] holds
    the bytes of memory that precede [src]. *)
Definition read_word (before src : bytes) (n_bytes : Z) : outcome Z :=
  let start := Z.of_nat (length before) - 8 + n_bytes in
  if (start <? 0) || (Z.of_nat (length (before ++ src)) <? start + 8) then UB
  else Ok (be_value (take 8 (drop (Z.to_nat start) (before ++ src)))).

Definition FastDecodeSignedVarInt (src : bytes) : outcome (Z * Z) :=
  decode_signed (read_loop src) src.

Definition FastDecodeSignedVarIntUnaligned (before src : bytes) : outcome (Z * Z) :=
  decode_signed (read_word before src) src.

(** [FastDecodeSignedVarInt on a slice pointer]: the value and the slice after it. *)
Definition FastDecodeSignedVarIntSlice (slice : bytes) : outcome (Z * bytes) :=
  let! (v, n) := FastDecodeSignedVarInt slice in
  Ok (v, drop (Z.to_nat n) slice).

(** [FastDecodeDescendingSignedVarInt on a slice pointer]. *)
Definition FastDecodeDescendingSignedVarInt (slice : bytes) : outcome (Z * bytes) :=
  let! (v, n) := FastDecodeSignedVarInt slice in
  if v =? - 2 ^ 63 then UB else Ok (- v, drop (Z.to_nat n) slice).

(** [MakeUnsignedVarIntSize()[i]]. *)
Definition kUnsignedVarIntSize (i : Z) : Z :=
  u8 (clz32 (Z.lxor (Z.shiftl i 1) 0x1ff) - 23 + 1).

(** [for (; i < n_bytes; ++i) result = (result << 8) | src[i]]. *)
Definition unsigned_tail (src : bytes) (result i n_bytes : Z) : Z :=
  foldl (λ result b, Z.lor (u64 (Z.shiftl result 8)) b) result
    (drop (Z.to_nat i) (take (Z.to_nat n_bytes) src)).

Definition FastDecodeUnsignedVarInt (src : bytes) : outcome (Z * Z) :=
  match src with
  | [] => Err Corruption
  | first_byte :: _ =>
      let n_bytes := kUnsignedVarIntSize first_byte in
      let src_size := Z.of_nat (length src) in
      if src_size <? n_bytes then Err Corruption
      else if n_bytes =? 1 then Ok (Z.land first_byte 0x7f, 1)
      else if n_bytes =? 9 then
        let b1 := nth 1 src 0 in
        if negb (Z.land b1 0x80 =? 0) then
          if src_size <? 10 then Err Corruption
          else Ok (unsigned_tail src (Z.land b1 0x3f) 2 10, 10)
        else
          if src_size <? 9 then Err Corruption
          else Ok (unsigned_tail src 0 0 9, 9)
      else
        Ok (unsigned_tail src (Z.land first_byte (Z.shiftl 1 (8 - n_bytes) - 1)) 1 n_bytes,
            n_bytes)
  end.

(** [FastDecodeUnsignedVarInt on a slice pointer] and [(const Slice&)]. *)
Definition FastDecodeUnsignedVarIntSlice (slice : bytes) : outcome (Z * bytes) :=
  let! (v, n) := FastDecodeUnsignedVarInt slice in
  Ok (v, drop (Z.to_nat n) slice).

Definition FastDecodeUnsignedVarIntFull (slice : bytes) : outcome Z :=
  let! (v, rest) := FastDecodeUnsignedVarIntSlice slice in
  if negb (bool_decide (rest = [])) then Err Corruption else Ok v.

Example enc_0 : FastEncodeSignedVarInt 0 = [0x80]. Proof. reflexivity. Qed.
Example enc_m1 : FastEncodeSignedVarInt (-1) = [0x7e]. Proof. reflexivity. Qed.
Example enc_64 : FastEncodeSignedVarInt 64 = [0xc0; 0x40]. Proof. reflexivity. Qed.
Example enc_min : FastEncodeSignedVarInt (- 2 ^ 63) =
  [0x00; 0x3f; 0x7f; 0xff; 0xff; 0xff; 0xff; 0xff; 0xff; 0xff].
Proof. reflexivity. Qed.
Example dec_min : FastDecodeSignedVarInt (FastEncodeSignedVarInt (- 2 ^ 63) ++ [1]) =
  Ok (- 2 ^ 63, 10).
Proof. vm_compute. reflexivity. Qed.
Example udec : (λ v, FastDecodeUnsignedVarInt (FastEncodeUnsignedVarInt v ++ [7])) <$>
  [0; 127; 128; 2 ^ 56; 2 ^ 63 - 1; 2 ^ 63; 2 ^ 64 - 1] =
  [Ok (0, 1); Ok (127, 1); Ok (128, 2); Ok (2 ^ 56, 9); Ok (2 ^ 63 - 1, 9); Ok (2 ^ 63, 10);
   Ok (2 ^ 64 - 1, 10)].
Proof. vm_compute. reflexivity. Qed.

(** ** Lengths *)

(** The loop stops at the least number of 7-bit groups that holds [u]. *)
Lemma varint_len_loop_spec c fuel u m :
  0 <= c <= 1 → 1 <= m → 0 <= u < 2 ^ (7 * (m + Z.of_nat fuel) - c) →
  let n := varint_len_loop fuel (Z.shiftr u (7 * m - c)) m in
  m <= n ∧ u < 2 ^ (7 * n - c) ∧ (n = m ∨ 2 ^ (7 * (n - 1) - c) <= u).
Proof.
  cbv zeta. revert m. induction fuel as [|fuel IH]; intros m Hc Hm Hu.
  - simpl. replace (m + Z.of_nat 0) with m in Hu by lia. lia.
  - cbn [varint_len_loop]. rewrite Z.shiftr_div_pow2 by lia.
    destruct (Z.eqb_spec (u / 2 ^ (7 * m - c)) 0) as [E|E].
    + apply Z.div_small_iff in E; lia.
    + assert (2 ^ (7 * m - c) <= u).
      { destruct (Z.le_gt_cases (2 ^ (7 * m - c)) u); [done|].
        contradict E. apply Z.div_small. lia. }
      rewrite <- Z.shiftr_div_pow2, Z.shiftr_shiftr by lia.
      replace (7 * m - c + 7) with (7 * (m + 1) - c) by lia.
      destruct (IH (m + 1)) as (H1 & H2 & H3); [lia|lia| |].
      { replace (m + 1 + Z.of_nat fuel) with (m + Z.of_nat (S fuel)) by lia. done. }
      repeat split; [lia|done|]. right. destruct H3 as [->|]; [|done].
      by replace (m + 1 - 1) with m by lia.
Qed.

(** A value of [n] bytes with [c] payload bits fewer than [7 * n]. *)
Definition fits (c n u : Z) : Prop :=
  1 <= n <= 10 ∧ 0 <= u < 2 ^ 64 ∧ u < 2 ^ (7 * n - c) ∧ (n = 1 ∨ 2 ^ (7 * (n - 1) - c) <= u).

Lemma signed_length_fits u : is_u64 u → fits 1 (SignedPositiveVarIntLength u) u.
Proof.
  unfold is_u64. intros Hu.
  pose proof (varint_len_loop_spec 1 10 u 1) as H.
  change (varint_len_loop 10 _ 1) with (SignedPositiveVarIntLength u) in H.
  destruct H as (H1 & H2 & H3); [lia..|]. unfold fits.
  assert (SignedPositiveVarIntLength u <= 10) by
    (destruct H3 as [|H3]; [lia|]; apply Z.le_ngt; intros Hn;
     pose proof (Z.pow_le_mono_r 2 64 (7 * (SignedPositiveVarIntLength u - 1) - 1)); lia).
  repeat split; (done || lia).
Qed.

Lemma unsigned_length_fits u : is_u64 u → fits 0 (UnsignedVarIntLength u) u.
Proof.
  unfold is_u64. intros Hu.
  pose proof (varint_len_loop_spec 0 10 u 1) as H.
  change (varint_len_loop 10 _ 1) with (UnsignedVarIntLength u) in H.
  destruct H as (H1 & H2 & H3); [lia..|]. unfold fits.
  assert (UnsignedVarIntLength u <= 10) by
    (destruct H3 as [|H3]; [lia|]; apply Z.le_ngt; intros Hn;
     pose proof (Z.pow_le_mono_r 2 64 (7 * (UnsignedVarIntLength u - 1) - 0)); lia).
  repeat split; (done || lia).
Qed.

(** Case analysis on the number of bytes, with the powers evaluated. *)
Ltac byte_count n :=
  let H := fresh in
  assert (n = 1 ∨ n = 2 ∨ n = 3 ∨ n = 4 ∨ n = 5 ∨ n = 6 ∨ n = 7 ∨ n = 8 ∨ n = 9 ∨ n = 10)
    as H by lia;
  destruct H as [->|[->|[->|[->|[->|[->|[->|[->|[->| ->]]]]]]]]].

Ltac eval_pow :=
  repeat match goal with
  | |- context [Z.pow 2 ?e] =>
      let v := eval vm_compute in (2 ^ e) in
      lazymatch v with Zpos _ => change (2 ^ e) with v end
  | H : context [Z.pow 2 ?e] |- _ =>
      let v := eval vm_compute in (2 ^ e) in
      lazymatch v with Zpos _ => change (2 ^ e) with v in H end
  end.

(** ** The encoded bytes as one number *)

Lemma varint_tail_be uv n (k : nat) :
  0 <= n → Z.of_nat k <= n → varint_tail uv n (n - Z.of_nat k) = be_bytes k uv.
Proof.
  unfold varint_tail. intros Hn. revert k. induction k as [|k IH]; intros Hk.
  - by replace (n - (n - Z.of_nat 0)) with 0 by lia.
  - replace (n - (n - Z.of_nat (S k))) with (Z.of_nat (S k)) by lia.
    rewrite seqZ_cons by lia. rewrite fmap_cons. cbn [be_bytes].
    f_equal; [do 2 f_equal; lia|].
    replace (Z.succ (n - Z.of_nat (S k))) with (n - Z.of_nat k) by lia.
    replace (Z.pred (Z.of_nat (S k))) with (n - (n - Z.of_nat k)) by lia. apply IH. lia.
Qed.

(** The positive signed encoding is [n] ones, a zero and [7 * n - 1] payload
    bits; the unsigned one has one leading one less. *)
Definition signed_code (n u : Z) : Z := (2 ^ n - 1) * 2 ^ (7 * n) + u.
Definition unsigned_code (n u : Z) : Z := (2 ^ (n - 1) - 1) * 2 ^ (7 * n + 1) + u.

(** The first byte of an encoding of at most 8 bytes: [k] clear low bits and
    [x] in them. *)
Lemma head_byte k x :
  0 <= k <= 8 → 0 <= x < 2 ^ k →
  u8 (Z.lor (Z.lnot (Z.shiftl 1 k - 1)) x) = (2 ^ 8 - 2 ^ k + x) mod 2 ^ 8.
Proof.
  intros Hk Hx. rewrite Z.shiftl_1_l.
  replace (Z.lnot (2 ^ k - 1)) with ((-1) * 2 ^ k) by (unfold Z.lnot; lia).
  rewrite lor_disjoint by lia. unfold u8.
  rewrite <- (Z_mod_plus_full (-1 * 2 ^ k + x) 1 (2 ^ 8)). f_equal. lia.
Qed.

(** Bytes [h ++ tail] with the right value are the big-endian bytes. *)
Lemma head_tail_be head uv n i code :
  bytes_ok head → 0 <= n → i = Z.of_nat (length head) → i <= n →
  be_value head * 2 ^ (8 * (n - i)) + uv mod 2 ^ (8 * (n - i)) = code →
  head ++ varint_tail uv n i = be_bytes (Z.to_nat n) code.
Proof.
  intros Hh Hn Hi Hin Hv. symmetry.
  replace i with (n - Z.of_nat (Z.to_nat (n - i))) at 1 by lia.
  rewrite varint_tail_be by lia. apply be_bytes_of_value.
  - apply Forall_app. split; [done|apply be_bytes_ok].
  - rewrite length_app, length_be_bytes. lia.
  - rewrite be_value_app, be_size_be_bytes, be_value_be_bytes.
    rewrite !Z2Nat.id by lia. done.
Qed.

Lemma signed_dest_be n u : fits 1 n u → signed_dest u n = be_bytes (Z.to_nat n) (signed_code n u).
Proof.
  intros (Hn & Hu & Hu' & _). unfold signed_dest, signed_code.
  destruct (Z.eqb_spec n 10) as [->|]; [|destruct (Z.eqb_spec n 9) as [->|]].
  - apply head_tail_be; try done; try lia.
    { bytes_done. }
    rewrite be_value_2, Z.mod_small by lia. lia.
  - change 128 with (2 * 2 ^ 6). rewrite Z.shiftr_div_pow2 by lia.
    assert (0 <= u / 2 ^ 56 < 2 ^ 6) as Hd.
    { split; [apply Z.div_pos; lia|]. apply Z.div_lt_upper_bound; lia. }
    rewrite lor_disjoint by lia.
    apply head_tail_be; try done; try lia.
    { bytes_done. }
    unfold u8. rewrite Z.mod_small by lia.
    rewrite be_value_2. change (8 * (9 - 2)) with 56. change (7 * 9) with 63.
    pose proof (Z.div_mod u (2 ^ 56)). lia.
  - assert (0 <= Z.shiftr u (8 * (n - 1)) < 2 ^ (8 - n)) as Hx.
    { rewrite Z.shiftr_div_pow2 by lia. split; [apply Z.div_pos; lia|].
      apply Z.div_lt_upper_bound; [lia|]. rewrite <- Z.pow_add_r by lia.
      pose proof (Z.pow_le_mono_r 2 (7 * n - 1) (8 * (n - 1) + (8 - n))). lia. }
    rewrite head_byte by lia.
    apply head_tail_be; try done; try lia.
    { bytes_done. }
    rewrite Z.mod_small.
    2:{ pose proof (Z.pow_le_mono_r 2 (8 - n) 8). pose proof (Z.pow_pos_nonneg 2 (8 - n)). lia. }
    rewrite Z.shiftr_div_pow2 in * by lia.
    pose proof (Z.div_mod u (2 ^ (8 * (n - 1)))).
    rewrite be_value_1.
    replace ((2 ^ n - 1) * 2 ^ (7 * n)) with ((2 ^ 8 - 2 ^ (8 - n)) * 2 ^ (8 * (n - 1))).
    { lia. }
    rewrite !Z.mul_sub_distr_r, Z.mul_1_l, <- !Z.pow_add_r by lia.
    f_equal; f_equal; lia.
Qed.

(** The complement of the bytes of a number. *)
Lemma be_bytes_lnot n v : (λ b, u8 (Z.lnot b)) <$> be_bytes n v = be_bytes n (- v - 1).
Proof.
  induction n as [|n IH]; [done|]. cbn [be_bytes]. rewrite fmap_cons, IH. f_equal.
  unfold u8. rewrite !Z.shiftr_div_pow2 by lia.
  assert ((- v - 1) / 2 ^ (8 * Z.of_nat n) = - (v / 2 ^ (8 * Z.of_nat n)) - 1) as ->.
  { symmetry. apply (Z.div_unique _ _ _ (2 ^ (8 * Z.of_nat n) - 1 - v mod 2 ^ (8 * Z.of_nat n))).
    - pose proof (Z.mod_pos_bound v (2 ^ (8 * Z.of_nat n))). lia.
    - pose proof (Z.div_mod v (2 ^ (8 * Z.of_nat n))). lia. }
  unfold Z.lnot. set (x := v / _).
  rewrite (Z.mod_eq x (2 ^ 8)) at 1 by lia.
  replace (Z.pred (- (x - 2 ^ 8 * (x / 2 ^ 8)))) with (- x - 1 + (x / 2 ^ 8) * 2 ^ 8) by lia.
  by rewrite Z_mod_plus_full.
Qed.

(** What is written for [v]: the magnitude, complemented for a negative [v]. *)
Lemma encode_signed_be v :
  is_i64 v →
  ∃ n, fits 1 n (Z.abs v) ∧ FastEncodeSignedVarInt v =
    be_bytes (Z.to_nat n)
      (if v <? 0 then - signed_code n (Z.abs v) - 1 else signed_code n (Z.abs v)).
Proof.
  intros Hv. unfold FastEncodeSignedVarInt. rewrite (u64_i64 v) by done. unfold is_i64 in Hv.
  destruct (Z.ltb_spec v 0).
  - replace (u64 (1 + u64 (Z.lnot (v + 2 ^ 64)))) with (Z.abs v).
    + exists (SignedPositiveVarIntLength (Z.abs v)).
      assert (fits 1 (SignedPositiveVarIntLength (Z.abs v)) (Z.abs v)) as Hf
        by (apply signed_length_fits; unfold is_u64; lia).
      split; [done|]. by rewrite signed_dest_be, be_bytes_lnot by done.
    + unfold u64 at 2, Z.lnot. rewrite <- (Z_mod_plus_full _ 1).
      rewrite (Z.mod_small (_ + _)) by lia. unfold u64. rewrite Z.mod_small; lia.
  - exists (SignedPositiveVarIntLength v). rewrite Z.abs_eq by lia.
    assert (fits 1 (SignedPositiveVarIntLength v) v) as Hf
      by (apply signed_length_fits; unfold is_u64; lia).
    split; [done|]. by rewrite signed_dest_be by done.
Qed.


(** ** Order *)

Lemma signed_code_range n u :
  fits 1 n u → 2 ^ (8 * n - 1) <= signed_code n u < 2 ^ (8 * n).
Proof.
  intros (Hn & Hu & Hu' & _). unfold signed_code. byte_count n; eval_pow; lia.
Qed.

Lemma unsigned_code_range n u :
  fits 0 n u → 0 <= unsigned_code n u < 2 ^ (8 * n).
Proof.
  intros (Hn & Hu & Hu' & _). unfold unsigned_code. byte_count n; eval_pow; lia.
Qed.

(** Of two magnitudes the smaller one has the smaller encoding, and no
    extension of it reaches the larger one's. *)
Lemma signed_code_below n1 u1 n2 u2 :
  fits 1 n1 u1 → fits 1 n2 u2 → u1 < u2 →
  (signed_code n1 u1 + 1) * 2 ^ (8 * n2) <= signed_code n2 u2 * 2 ^ (8 * n1).
Proof.
  intros (Hn1 & Hu1 & Hu1' & Hm1) (Hn2 & Hu2 & Hu2' & Hm2) Hlt. unfold signed_code.
  byte_count n1; byte_count n2; eval_pow; lia.
Qed.

Lemma unsigned_code_below n1 u1 n2 u2 :
  fits 0 n1 u1 → fits 0 n2 u2 → u1 < u2 →
  (unsigned_code n1 u1 + 1) * 2 ^ (8 * n2) <= unsigned_code n2 u2 * 2 ^ (8 * n1).
Proof.
  intros (Hn1 & Hu1 & Hu1' & Hm1) (Hn2 & Hu2 & Hu2' & Hm2) Hlt. unfold unsigned_code.
  byte_count n1; byte_count n2; eval_pow; lia.
Qed.

Lemma below_be_bytes n1 c1 n2 c2 :
  0 <= n1 → 0 <= n2 → 0 <= c1 < 2 ^ (8 * n1) → 0 <= c2 < 2 ^ (8 * n2) →
  (c1 + 1) * 2 ^ (8 * n2) <= c2 * 2 ^ (8 * n1) →
  below (be_bytes (Z.to_nat n1) c1) (be_bytes (Z.to_nat n2) c2).
Proof.
  intros. unfold below. rewrite !be_value_be_bytes, !be_size_be_bytes, !Z2Nat.id by lia.
  by rewrite !Z.mod_small by lia.
Qed.

Lemma be_bytes_neg n c :
  0 <= n → be_bytes (Z.to_nat n) (- c - 1) = be_bytes (Z.to_nat n) (2 ^ (8 * n) - 1 - c).
Proof.
  intros Hn. apply be_value_inj; auto using be_bytes_ok; rewrite ?length_be_bytes; [done|].
  rewrite !be_value_be_bytes, !Z2Nat.id by lia.
  rewrite <- (Z_mod_plus_full (- c - 1) 1). f_equal. lia.
Qed.

Lemma encode_signed_below v1 v2 :
  is_i64 v1 → is_i64 v2 → v1 < v2 →
  below (FastEncodeSignedVarInt v1) (FastEncodeSignedVarInt v2).
Proof.
  intros H1 H2 Hlt.
  destruct (encode_signed_be v1) as (n1 & Hf1 & ->); [done|].
  destruct (encode_signed_be v2) as (n2 & Hf2 & ->); [done|].
  pose proof (signed_code_range _ _ Hf1). pose proof (signed_code_range _ _ Hf2).
  assert (1 <= n1 ∧ 1 <= n2) as [Hn1 Hn2] by (unfold fits in *; lia).
  assert (2 ^ (8 * n1) = 2 * 2 ^ (8 * n1 - 1)) by
    (rewrite <- Z.pow_succ_r by lia; f_equal; lia).
  assert (2 ^ (8 * n2) = 2 * 2 ^ (8 * n2 - 1)) by
    (rewrite <- Z.pow_succ_r by lia; f_equal; lia).
  destruct (Z.ltb_spec v1 0), (Z.ltb_spec v2 0); rewrite ?be_bytes_neg by lia; [| |lia|].
  - apply below_be_bytes; try lia.
    pose proof (signed_code_below n2 (Z.abs v2) n1 (Z.abs v1) ltac:(done) ltac:(done) ltac:(lia)).
    lia.
  - apply below_be_bytes; try lia. nia.
  - apply below_be_bytes; try lia. apply signed_code_below; (done || lia).
Qed.

(** ** Round trip of the signed encoding *)

Lemma header_length h n :
  1 <= n <= 10 → 2 ^ 16 - 2 ^ (16 - n) <= h < 2 ^ 16 - 2 ^ (16 - n) + 2 ^ (15 - n) →
  clz32 (Z.lor (Z.land (Z.lnot h) 0x7fff) 0x20) - 16 = n.
Proof.
  intros Hn Hh. change 0x7fff with (2 ^ 15 - 1). rewrite land_ones_mod by lia.
  assert (2 ^ (15 - n) <= 65535 - h < 2 ^ (16 - n)) as Hx by (byte_count n; eval_pow; lia).
  assert (2 ^ (16 - n) <= 2 ^ 15) by (apply Z.pow_le_mono_r; lia).
  assert (Z.lnot h mod 2 ^ 15 = 65535 - h) as ->.
  { unfold Z.lnot. rewrite <- (Z_mod_plus_full _ 2). rewrite Z.mod_small; lia. }
  unfold clz32. rewrite Z.log2_lor by lia.
  rewrite (Z.log2_unique (65535 - h) (15 - n)).
  - change (Z.log2 0x20) with 5. lia.
  - lia.
  - by replace (Z.succ (15 - n)) with (16 - n) by lia.
Qed.

(** Complement of the low bits by xor with all ones. *)
Lemma lxor_ones_mod h m n :
  0 <= m <= n → Z.lxor h (2 ^ n - 1) mod 2 ^ m = (- h - 1) mod 2 ^ m.
Proof.
  intros Hmn. rewrite <- !Z.land_ones by lia.
  replace (2 ^ n - 1) with (Z.ones n) by (rewrite Z.ones_equiv; lia).
  replace (- h - 1) with (Z.lnot h) by (unfold Z.lnot; lia).
  apply Z.bits_inj'. intros i Hi.
  rewrite !Z.land_spec, Z.lxor_spec, Z.lnot_spec, !Z.testbit_ones_nonneg by lia.
  destruct (Z.ltb_spec i m), (Z.ltb_spec i n); try lia; by destruct (Z.testbit h i).
Qed.

(** The two header bytes bracket the encoded number. *)
Lemma header_value n c rest :
  1 <= n <= 10 → 0 <= c < 2 ^ (8 * n) → bytes_ok rest →
  let src := be_bytes (Z.to_nat n) c ++ rest in
  ∃ h, u16 (Z.lor (Z.shiftl (nth 0 src 0) 8)
              (if (1 <? Z.of_nat (length src)) then nth 1 src 0 else 0)) = h
    ∧ 0 <= h < 2 ^ 16 ∧ h * 2 ^ (8 * n) < (c + 1) * 2 ^ 16 ∧ c * 2 ^ 16 < (h + 1) * 2 ^ (8 * n).
Proof.
  intros Hn Hc Hr src.
  assert (∀ b0 b1, is_u8 b0 → is_u8 b1 → u16 (Z.lor (Z.shiftl b0 8) b1) = b0 * 2 ^ 8 + b1) as Hh.
  { unfold is_u8. intros b0 b1 H0 H1. rewrite Z.shiftl_mul_pow2, lor_disjoint by lia.
    unfold u16. rewrite Z.mod_small; lia. }
  destruct (decide (n = 1)) as [->|Hn1].
  - set (b1 := if (1 <? _) then _ else _).
    assert (is_u8 b1) as Hb1.
    { unfold b1, src. destruct (_ <? _); [|by unfold is_u8].
      change (be_bytes (Z.to_nat 1) c) with [u8 (Z.shiftr c 0)].
      destruct Hr as [|b rest Hb _]; [by unfold is_u8|done]. }
    change (nth 0 src 0) with (u8 (Z.shiftr c 0)). rewrite Z.shiftr_0_r.
    eexists. split; [done|]. rewrite Hh by auto with ints. unfold u8, is_u8 in *.
    rewrite Z.mod_small by lia. lia.
  - assert (∃ k, Z.to_nat n = S (S k)) as [k Hk] by (exists (Z.to_nat (n - 2)); lia).
    unfold src. rewrite Hk. cbn [be_bytes app nth].
    rewrite (proj2 (Z.ltb_lt _ _)) by (simpl; lia).
    eexists. split; [done|]. rewrite Hh by auto with ints. unfold u8.
    rewrite !Z.shiftr_div_pow2 by lia.
    replace (8 * Z.of_nat (S k)) with (8 * (n - 2) + 8) by lia.
    replace (8 * Z.of_nat k) with (8 * (n - 2)) by lia.
    rewrite Z.pow_add_r, <- Z.div_div by lia.
    assert (2 ^ (8 * n) = 2 ^ (8 * (n - 2)) * 2 ^ 16) as E
      by (rewrite <- Z.pow_add_r by lia; f_equal; lia).
    rewrite E in *. set (d := 2 ^ (8 * (n - 2))) in *. assert (0 < d) by (unfold d; lia).
    assert (0 <= c / d < 2 ^ 16) as Hcd.
    { split; [apply Z.div_pos; lia|]. apply Z.div_lt_upper_bound; lia. }
    assert ((c / d / 2 ^ 8) mod 2 ^ 8 = c / d / 2 ^ 8) as ->.
    { apply Z.mod_small. split; [apply Z.div_pos; lia|]. apply Z.div_lt_upper_bound; lia. }
    pose proof (Z.div_mod (c / d) (2 ^ 8)). pose proof (Z.div_mod c d).
    pose proof (Z.mod_pos_bound c d). set (q := c / d) in *.
    replace (q / 2 ^ 8 * 2 ^ 8 + q mod 2 ^ 8) with q by lia. nia.
Qed.

Lemma signed_header_spec n u rest (neg : bool) :
  fits 1 n u → bytes_ok rest →
  signed_header (be_bytes (Z.to_nat n)
    (if neg then 2 ^ (8 * n) - 1 - signed_code n u else signed_code n u) ++ rest) =
  (if neg then 2 ^ 64 - 1 else 0, n).
Proof.
  intros Hf Hr. pose proof (signed_code_range n u Hf) as Hc.
  destruct Hf as (Hn & Hu & Hu' & _).
  set (c := if neg then _ else _).
  destruct (header_value n c rest) as (h & Eh & Hh & Hlo & Hhi); [done| |done|].
  { unfold c. destruct neg; lia. }
  unfold signed_header. rewrite Eh.
  change 0x8000 with (2 ^ 15). rewrite land_top_zero by lia.
  assert ((h <? 2 ^ 15) = neg) as ->.
  { unfold c in *. clear Eh. destruct neg; [apply Z.ltb_lt|apply Z.ltb_ge];
      byte_count n; eval_pow; lia. }
  destruct neg; cbv beta iota.
  - change (u64 (- (1))) with (2 ^ 64 - 1). f_equal. apply header_length; [done|].
    unfold u16. rewrite lxor_ones_mod by lia. rewrite <- (Z_mod_plus_full _ 1).
    rewrite Z.mod_small by lia. unfold c, signed_code in *. byte_count n; eval_pow; lia.
  - change (u64 (- 0)) with 0. f_equal. apply header_length; [done|].
    rewrite Z.lxor_0_r. unfold u16. rewrite Z.mod_small by lia.
    unfold c, signed_code in *. byte_count n; eval_pow; lia.
Qed.

(** Payload bits kept by [kVarIntMasks]. *)
Definition payload_bits (n : Z) : Z := if n =? 10 then 64 else 7 * n - 1.

Lemma mask_eq n : 1 <= n <= 10 → nth (Z.to_nat n) kVarIntMasks 0 = 2 ^ payload_bits n - 1.
Proof. intros Hn. byte_count n; reflexivity. Qed.

(** The payload of an encoding, from the low bytes of the number. *)
Lemma payload_mod n u (neg : bool) :
  fits 1 n u →
  (if neg then 2 ^ (8 * n) - 1 - signed_code n u else signed_code n u) mod 2 ^ payload_bits n =
  (if neg then 2 ^ payload_bits n - 1 - u else u).
Proof.
  intros (Hn & Hu & Hu' & _). symmetry. unfold payload_bits, signed_code.
  destruct (Z.eqb_spec n 10) as [->|]; destruct neg.
  - apply (Z.mod_unique_pos _ _ (2 ^ 16 - 1 - (2 ^ 10 - 1) * 2 ^ 6)); eval_pow; lia.
  - apply (Z.mod_unique_pos _ _ ((2 ^ 10 - 1) * 2 ^ 6)); eval_pow; lia.
  - apply (Z.mod_unique_pos _ _ (2 ^ (n + 1) - 1 - (2 ^ n - 1) * 2)); byte_count n; eval_pow; lia.
  - apply (Z.mod_unique_pos _ _ ((2 ^ n - 1) * 2)); byte_count n; eval_pow; lia.
Qed.

(** The value rebuilt from the payload and the sign. *)
Lemma rebuild_value temp n u (neg : bool) :
  fits 1 n u → is_i64 (if neg then - u else u) →
  temp mod 2 ^ payload_bits n = (if neg then 2 ^ payload_bits n - 1 - u else u) →
  let mask := nth (Z.to_nat n) kVarIntMasks 0 in
  let negative := if neg then 2 ^ 64 - 1 else 0 in
  i64 (u64 (Z.lor (Z.land temp mask) (Z.land (u64 (Z.lnot mask)) negative) - negative)) =
  if neg then - u else u.
Proof.
  intros (Hn & Hu & Hu' & _) Hi Ht mask negative. unfold mask, negative.
  rewrite mask_eq by done. set (p := payload_bits n) in *.
  assert (0 <= p <= 64) as Hp by (unfold p, payload_bits; case_test; lia).
  rewrite land_ones_mod, Ht, i64_u64 by lia. destruct neg.
  - assert (0 <= u < 2 ^ p).
    { unfold p, payload_bits. case_test; lia. }
    assert (Z.land (u64 (Z.lnot (2 ^ p - 1))) (2 ^ 64 - 1) = (2 ^ (64 - p) - 1) * 2 ^ p) as ->.
    { rewrite land_ones_mod by lia. fold (u64 (u64 (Z.lnot (2 ^ p - 1)))).
      rewrite u64_small by apply u64_range. unfold u64, Z.lnot.
      rewrite <- (Z_mod_plus_full _ 1).
      rewrite Z.mul_sub_distr_r, <- Z.pow_add_r by lia. replace (64 - p + p) with 64 by lia.
      pose proof (Z.pow_le_mono_r 2 p 64). rewrite Z.mod_small; lia. }
    rewrite Z.lor_comm, lor_disjoint by lia.
    rewrite Z.mul_sub_distr_r, <- Z.pow_add_r by lia. replace (64 - p + p) with 64 by lia.
    rewrite <- (i64_small (- u)) by done. f_equal. lia.
  - rewrite Z.land_0_r, Z.lor_0_r, Z.sub_0_r. by apply i64_small.
Qed.

Lemma read_loop_be n c rest :
  1 <= n <= 10 → read_loop (be_bytes (Z.to_nat n) c ++ rest) n = Ok (c mod 2 ^ (8 * Z.min n 8)).
Proof.
  intros Hn. unfold read_loop. rewrite take_app_length' by (by rewrite length_be_bytes).
  rewrite drop_be_bytes. f_equal. rewrite foldl_shift_or; [|done|apply be_bytes_ok].
  rewrite be_value_be_bytes.
  replace (8 * Z.of_nat _) with (8 * Z.min n 8) by lia. apply u64_small. unfold is_u64.
  pose proof (Z.mod_pos_bound c (2 ^ (8 * Z.min n 8))).
  pose proof (Z.pow_le_mono_r 2 (8 * Z.min n 8) 64). lia.
Qed.

Lemma mod_mod_pow2 c a b : 0 <= b <= a → (c mod 2 ^ a) mod 2 ^ b = c mod 2 ^ b.
Proof.
  intros. rewrite <- !Z.land_ones, <- Z.land_assoc by lia. f_equal.
  rewrite (Z.land_comm (Z.ones a)), Z.land_ones by lia. apply Z.mod_small.
  rewrite Z.ones_equiv. pose proof (Z.pow_le_mono_r 2 b a). lia.
Qed.

(** Decoding with any payload reader that is right about the low bits. *)
Lemma decode_signed_spec read v rest :
  is_i64 v → bytes_ok rest →
  (∀ n c, 1 <= n <= 10 → FastEncodeSignedVarInt v = be_bytes (Z.to_nat n) c →
     ∃ t, read n = Ok t ∧ t mod 2 ^ payload_bits n = c mod 2 ^ payload_bits n) →
  decode_signed read (FastEncodeSignedVarInt v ++ rest) =
  Ok (v, Z.of_nat (length (FastEncodeSignedVarInt v))).
Proof.
  intros Hv Hr Hread. destruct (encode_signed_be v) as (n & Hf & E); [done|].
  assert (1 <= n <= 10) as Hn by (unfold fits in Hf; lia).
  assert ((if v <? 0 then - Z.abs v else Z.abs v) = v) as Hva by (destruct (Z.ltb_spec v 0); lia).
  assert (FastEncodeSignedVarInt v = be_bytes (Z.to_nat n)
    (if v <? 0 then 2 ^ (8 * n) - 1 - signed_code n (Z.abs v) else signed_code n (Z.abs v))) as E'.
  { rewrite E. destruct (v <? 0); [|done]. apply be_bytes_neg. lia. }
  destruct (Hread n _ Hn E') as (t & Et & Ht). rewrite payload_mod in Ht by done.
  rewrite E', length_be_bytes.
  unfold decode_signed. rewrite signed_header_spec by done.
  assert (∃ b l, be_bytes (Z.to_nat n)
    (if v <? 0 then 2 ^ (8 * n) - 1 - signed_code n (Z.abs v) else signed_code n (Z.abs v)) ++ rest
    = b :: l) as (b & l & Ebl).
  { destruct (Z.to_nat n) eqn:?; [lia|]. cbn. eauto. }
  rewrite Ebl at 1. rewrite (proj2 (Z.ltb_ge _ _)).
  2:{ rewrite length_app, length_be_bytes. lia. }
  rewrite Et. cbn [obind]. rewrite (rebuild_value t n (Z.abs v)) by (rewrite ?Hva; done).
  rewrite Hva. do 2 f_equal. lia.
Qed.

(** ** The unaligned read *)

Lemma signed_header_length src : 1 <= (signed_header src).2 <= 10.
Proof.
  unfold signed_header. cbn [snd]. set (h := u16 (Z.lxor _ _)).
  change 0x7fff with (2 ^ 15 - 1). rewrite land_ones_mod by lia.
  pose proof (Z.mod_pos_bound (Z.lnot h) (2 ^ 15)) as Hx. set (x := Z.lnot h mod 2 ^ 15) in *.
  unfold clz32. rewrite Z.log2_lor by lia. change (Z.log2 0x20) with 5.
  assert (Z.log2 x <= 14); [|lia].
  destruct (decide (x = 0)) as [->|]; [done|]. apply Z.lt_succ_r, Z.log2_lt_pow2; lia.
Qed.

(** The low bytes of a window do not depend on the bytes in front of them. *)
Lemma be_value_suffix a b :
  bytes_ok b → be_value (a ++ b) mod 2 ^ (8 * Z.of_nat (length b)) = be_value b.
Proof.
  intros Hb. rewrite be_value_app.
  replace (be_size b) with (2 ^ (8 * Z.of_nat (length b)))
    by (unfold be_size; change 256 with (2 ^ 8); rewrite <- Z.pow_mul_r; lia).
  rewrite Z.add_comm, Z_mod_plus_full. apply Z.mod_small.
  pose proof (be_value_range b Hb) as H. unfold be_size in H.
  change 256 with (2 ^ 8) in H. rewrite <- Z.pow_mul_r in H by lia. done.
Qed.

Lemma read_word_window before src n :
  (8 ≤ length before)%nat → bytes_ok before → bytes_ok src →
  1 <= n <= 10 → n <= Z.of_nat (length src) →
  ∃ t, read_word before src n = Ok t ∧
  read_loop src n = Ok (t mod 2 ^ (8 * Z.min n 8)).
Proof.
  intros Hb Hbok Hok Hn Hl. unfold read_word.
  rewrite (proj2 (Z.ltb_ge _ 0)), (proj2 (Z.ltb_ge _ _)) by (rewrite ?length_app; lia).
  eexists. split; [done|]. unfold read_loop.
  set (w := drop (Z.to_nat (Z.max (n - 8) 0)) (take (Z.to_nat n) src)).
  assert (bytes_ok w) as Hw by (by apply Forall_drop, Forall_take).
  assert (length w = Z.to_nat (Z.min n 8)) as Hlw.
  { unfold w. rewrite length_drop, length_take. lia. }
  assert (take 8 (drop (Z.to_nat (Z.of_nat (length before) - 8 + n)) (before ++ src)) =
    drop (length before - (8 - Z.to_nat (Z.min n 8))) before ++ w) as ->.
  { unfold w. destruct (decide (n <= 8)).
    - replace (Z.to_nat (Z.max (n - 8) 0)) with 0%nat by lia. rewrite drop_0.
      rewrite drop_app_le by lia.
      replace (length before - (8 - Z.to_nat (Z.min n 8)))%nat
        with (Z.to_nat (Z.of_nat (length before) - 8 + n)) by lia.
      rewrite take_app_ge by (rewrite length_drop; lia). f_equal. f_equal.
      rewrite length_drop. lia.
    - rewrite drop_app_ge by lia. rewrite (drop_ge before) by lia. cbn [app].
      rewrite skipn_firstn_comm. f_equal; [lia|]. f_equal. lia. }
  replace (8 * Z.min n 8) with (8 * Z.of_nat (length w)) by lia.
  rewrite be_value_suffix by done. f_equal.
  rewrite foldl_shift_or by done. cbn [Z.mul Z.add]. apply u64_small. unfold is_u64.
  pose proof (be_value_range w Hw) as Hv. unfold be_size in Hv. rewrite Hlw in Hv.
  pose proof (Z.pow_le_mono_r 256 (Z.of_nat (Z.to_nat (Z.min n 8))) 8).
  change (2 ^ 64) with (256 ^ 8). lia.
Qed.

Lemma decode_signed_ext read1 read2 src :
  (∀ n, 1 <= n <= 10 → n <= Z.of_nat (length src) →
     ∃ t1 t2, read1 n = Ok t1 ∧ read2 n = Ok t2 ∧
       t1 mod 2 ^ payload_bits n = t2 mod 2 ^ payload_bits n) →
  decode_signed read1 src = decode_signed read2 src.
Proof.
  intros H. unfold decode_signed. destruct src as [|b src]; [done|].
  pose proof (signed_header_length (b :: src)) as Hn.
  destruct (signed_header (b :: src)) as [negative n]. cbn [snd] in Hn.
  case_test; [done|]. destruct (H n) as (t1 & t2 & -> & -> & E); [done..|].
  cbn [obind]. rewrite mask_eq by done.
  rewrite !land_ones_mod by (unfold payload_bits; case_test; lia). by rewrite E.
Qed.

Lemma payload_bits_le n : 1 <= n <= 10 → 0 <= payload_bits n <= 8 * Z.min n 8.
Proof. intros. unfold payload_bits. case_test; lia. Qed.

(** ** Round trip of the unsigned encoding *)

Lemma unsigned_be u :
  is_u64 u →
  ∃ n, fits 0 n u ∧ FastEncodeUnsignedVarInt u = be_bytes (Z.to_nat n) (unsigned_code n u).
Proof.
  intros Hu0. pose proof (unsigned_length_fits u Hu0) as Hf.
  exists (UnsignedVarIntLength u). split; [done|]. unfold FastEncodeUnsignedVarInt.
  set (n := UnsignedVarIntLength u) in *. destruct Hf as (Hn & Hu & Hu' & _).
  unfold unsigned_code.
  destruct (Z.eqb_spec n 10) as [->|]; [|destruct (Z.eqb_spec n 9) as [->|]].
  - apply head_tail_be; try done; try lia.
    { bytes_done. }
    rewrite be_value_2, Z.mod_small by lia. lia.
  - assert (0 <= u / 2 ^ 56 < 2 ^ 8) as Hd.
    { split; [apply Z.div_pos; lia|]. apply Z.div_lt_upper_bound; lia. }
    apply head_tail_be; try done; try lia.
    { bytes_done. }
    unfold u8. rewrite Z.shiftr_div_pow2, (Z.mod_small (_ / _)) by lia.
    rewrite be_value_2. change (8 * (9 - 2)) with 56. change (7 * 9 + 1) with 64.
    change (9 - 1) with 8. pose proof (Z.div_mod u (2 ^ 56)). lia.
  - assert (0 <= Z.shiftr u (8 * (n - 1)) < 2 ^ (9 - n)) as Hx.
    { rewrite Z.shiftr_div_pow2 by lia. split; [apply Z.div_pos; lia|].
      apply Z.div_lt_upper_bound; [lia|]. rewrite <- Z.pow_add_r by lia.
      pose proof (Z.pow_le_mono_r 2 (7 * n - 0) (8 * (n - 1) + (9 - n))). lia. }
    rewrite head_byte by lia.
    apply head_tail_be; try done; try lia.
    { bytes_done. }
    rewrite Z.mod_small.
    2:{ pose proof (Z.pow_le_mono_r 2 (9 - n) 8). pose proof (Z.pow_pos_nonneg 2 (9 - n)). lia. }
    rewrite Z.shiftr_div_pow2 in * by lia.
    pose proof (Z.div_mod u (2 ^ (8 * (n - 1)))). rewrite be_value_1.
    replace ((2 ^ (n - 1) - 1) * 2 ^ (7 * n + 1))
      with ((2 ^ 8 - 2 ^ (9 - n)) * 2 ^ (8 * (n - 1))).
    { lia. }
    rewrite !Z.mul_sub_distr_r, Z.mul_1_l, <- !Z.pow_add_r by lia.
    f_equal; f_equal; lia.
Qed.

(** The size table, for a first byte with [n - 1] leading ones. *)
Lemma size_table b n :
  1 <= n <= 8 → 2 ^ 8 - 2 ^ (9 - n) <= b < 2 ^ 8 - 2 ^ (9 - n) + 2 ^ (8 - n) →
  kUnsignedVarIntSize b = n.
Proof.
  intros Hn Hb. unfold kUnsignedVarIntSize. rewrite Z.shiftl_mul_pow2 by lia.
  change 0x1ff with (2 ^ 9 - 1).
  assert (Z.lxor (b * 2 ^ 1) (2 ^ 9 - 1) = 511 - b * 2) as ->.
  { assert (0 <= b * 2 ^ 1 < 2 ^ 9) as Hr.
    { pose proof (Z.pow_le_mono_r 2 (9 - n) 8). pose proof (Z.pow_le_mono_r 2 (8 - n) (9 - n)). lia. }
    rewrite <- (Z.mod_small (Z.lxor _ _) (2 ^ 9)).
    - rewrite lxor_ones_mod by lia. rewrite <- (Z_mod_plus_full _ 1).
      rewrite Z.mod_small by lia. lia.
    - split; [by apply Z.lxor_nonneg; lia|].
      destruct (decide (Z.lxor (b * 2 ^ 1) (2 ^ 9 - 1) = 0)) as [->|]; [lia|].
      apply Z.log2_lt_pow2; [pose proof (proj2 (Z.lxor_nonneg (b * 2 ^ 1) (2 ^ 9 - 1))); lia|].
      eapply Z.le_lt_trans; [apply Z.log2_lxor; lia|].
      apply Z.max_lub_lt; [|done]. destruct (decide (b = 0)) as [->|]; [done|].
      apply Z.log2_lt_pow2; lia. }
  unfold clz32. rewrite (Z.log2_unique _ (9 - n)).
  - unfold u8. rewrite Z.mod_small; lia.
  - lia.
  - replace (Z.succ (9 - n)) with (10 - n) by lia. byte_count n; eval_pow; lia.
Qed.

Lemma size_table_255 : kUnsignedVarIntSize 255 = 9.
Proof. reflexivity. Qed.

Lemma unsigned_tail_be (src : bytes) k r i n v :
  src = k ++ be_bytes (Z.to_nat (n - i)) v ++ r → length k = Z.to_nat i → 0 <= i <= n →
  ∀ acc, is_u64 acc →
  unsigned_tail src acc i n = u64 (acc * 2 ^ (8 * (n - i)) + v mod 2 ^ (8 * (n - i))).
Proof.
  intros -> Hk Hi acc Ha. unfold unsigned_tail.
  assert (drop (Z.to_nat i) (take (Z.to_nat n) (k ++ be_bytes (Z.to_nat (n - i)) v ++ r)) =
    be_bytes (Z.to_nat (n - i)) v) as ->.
  { rewrite app_assoc, take_app_length' by (rewrite length_app, length_be_bytes; lia).
    by rewrite drop_app_length' by lia. }
  rewrite foldl_shift_or by first [done | apply be_bytes_ok].
  rewrite be_size_be_bytes, be_value_be_bytes, !Z2Nat.id by lia. done.
Qed.

(** The bytes in front of the last [k] of an [n]-byte number. *)
Lemma be_bytes_split (n k : nat) c :
  (k ≤ n)%nat → be_bytes n c = take (n - k) (be_bytes n c) ++ be_bytes k c.
Proof.
  intros Hk. rewrite <- (take_drop (n - k) (be_bytes n c)) at 1.
  rewrite drop_be_bytes. do 2 f_equal. lia.
Qed.

Lemma varint_tail_be' uv n i :
  0 <= i <= n → varint_tail uv n i = be_bytes (Z.to_nat (n - i)) uv.
Proof.
  intros. rewrite <- (varint_tail_be uv n) by lia. f_equal. lia.
Qed.

(** Decoding of each of the three layouts. *)
Lemma decode_unsigned_10 u rest :
  is_u64 u →
  FastDecodeUnsignedVarInt ([255; 128] ++ be_bytes 8 u ++ rest) = Ok (u, 10).
Proof.
  intros Hu. unfold FastDecodeUnsignedVarInt.
  cbn [app]. rewrite size_table_255. set (src := 255 :: _).
  assert (Z.of_nat (length src) = 10 + Z.of_nat (length rest)) as Hl.
  { unfold src. rewrite !length_cons, length_app, length_be_bytes. lia. }
  rewrite Hl, !(proj2 (Z.ltb_ge _ _)) by lia. cbn [Z.eqb Pos.eqb].
  change (nth 1 src 0) with 128. change (negb _) with true. cbv iota.
  do 2 f_equal. erewrite (unsigned_tail_be src [255; 128] rest 2 10 u); try done.
  change (8 * (10 - 2)) with 64. change (Z.land 128 63) with 0.
  rewrite Z.mul_0_l, Z.add_0_l, u64_small, Z.mod_small; try done.
  apply u64_range.
Qed.

Lemma decode_unsigned_9 u rest :
  0 <= u < 2 ^ 63 →
  FastDecodeUnsignedVarInt ([255; u8 (Z.shiftr u 56)] ++ be_bytes 7 u ++ rest) = Ok (u, 9).
Proof.
  intros Hu. rewrite Z.shiftr_div_pow2 by lia.
  assert (0 <= u / 2 ^ 56 < 2 ^ 7) as Hd.
  { split; [apply Z.div_pos; lia|]. apply Z.div_lt_upper_bound; lia. }
  unfold u8. rewrite (Z.mod_small (u / 2 ^ 56)) by lia. set (b1 := u / 2 ^ 56) in *.
  unfold FastDecodeUnsignedVarInt. cbn [app]. rewrite size_table_255. set (src := 255 :: _).
  assert (Z.of_nat (length src) = 9 + Z.of_nat (length rest)) as Hl.
  { unfold src. rewrite !length_cons, length_app, length_be_bytes. lia. }
  rewrite Hl, !(proj2 (Z.ltb_ge _ _)) by lia. cbn [Z.eqb Pos.eqb].
  change (nth 1 src 0) with b1. change 0x80 with (2 ^ 7). rewrite land_top_zero by lia.
  rewrite (proj2 (Z.ltb_lt _ _)) by lia. cbn [negb]. do 2 f_equal.
  unfold unsigned_tail. rewrite drop_0.
  assert (take (Z.to_nat 9) src = [255; b1] ++ be_bytes 7 u) as ->.
  { unfold src. change (Z.to_nat 9) with (S (S 7)). rewrite !firstn_cons.
    by rewrite take_app_length' by (symmetry; apply length_be_bytes). }
  rewrite foldl_shift_or; [|done|].
  2:{ apply Forall_app. split; [bytes_done|apply be_bytes_ok]. }
  rewrite Z.mul_0_l, Z.add_0_l, be_value_app, be_value_2, be_size_be_bytes, be_value_be_bytes.
  change (8 * Z.of_nat 7) with 56. pose proof (Z.div_mod u (2 ^ 56)). unfold u64.
  replace (_ * 2 ^ 56 + u mod 2 ^ 56) with (u + 255 * 2 ^ 64) by lia.
  rewrite Z_mod_plus_full. apply Z.mod_small. lia.
Qed.

Lemma decode_unsigned_small n u rest :
  1 <= n <= 8 → 0 <= u < 2 ^ (7 * n) →
  FastDecodeUnsignedVarInt
    ([u8 (Z.lor (Z.lnot (Z.shiftl 1 (9 - n) - 1)) (Z.shiftr u (8 * (n - 1))))]
       ++ be_bytes (Z.to_nat (n - 1)) u ++ rest) = Ok (u, n).
Proof.
  intros Hn Hu. assert (0 <= Z.shiftr u (8 * (n - 1)) < 2 ^ (8 - n)) as Hx.
  { rewrite Z.shiftr_div_pow2 by lia. split; [apply Z.div_pos; lia|].
    apply Z.div_lt_upper_bound; [lia|]. rewrite <- Z.pow_add_r by lia.
    replace (8 * (n - 1) + (8 - n)) with (7 * n) by lia. lia. }
  assert (2 ^ (9 - n) = 2 * 2 ^ (8 - n)) as E9
    by (rewrite <- Z.pow_succ_r by lia; f_equal; lia).
  pose proof (Z.pow_le_mono_r 2 (8 - n) 7).
  rewrite head_byte, Z.mod_small by lia. set (b := 2 ^ 8 - _ + _).
  unfold FastDecodeUnsignedVarInt. cbn [app].
  rewrite (size_table b n) by (unfold b; lia). set (src := b :: _).
  assert (Z.of_nat (length src) = n + Z.of_nat (length rest)) as Hl.
  { unfold src. rewrite length_cons, length_app, length_be_bytes. lia. }
  rewrite Hl, (proj2 (Z.ltb_ge _ _)), (proj2 (Z.eqb_neq n 9)) by lia.
  assert (Z.land b (2 ^ (8 - n) - 1) = Z.shiftr u (8 * (n - 1))) as Eb.
  { rewrite land_ones_mod by lia. symmetry.
    apply (Z.mod_unique_pos _ _ (2 ^ n - 2)); [done|].
    unfold b. rewrite E9. assert (2 ^ 8 = 2 ^ (8 - n) * 2 ^ n) as ->
      by (rewrite <- Z.pow_add_r by lia; f_equal; lia). lia. }
  destruct (Z.eqb_spec n 1) as [->|].
  - change 127 with (2 ^ (8 - 1) - 1). rewrite Eb. by rewrite Z.shiftr_0_r.
  - rewrite Z.shiftl_1_l, Eb. do 2 f_equal.
    erewrite (unsigned_tail_be src [b] rest 1 n u); try done; try lia.
    + rewrite Z.shiftr_div_pow2 by lia. pose proof (Z.div_mod u (2 ^ (8 * (n - 1)))).
      pose proof (Z.pow_le_mono_r 2 (7 * n) 64). rewrite u64_small; unfold is_u64; lia.
    + unfold is_u64. pose proof (Z.pow_le_mono_r 2 (8 - n) 64). lia.
Qed.

Lemma decode_unsigned_spec u rest :
  is_u64 u →
  FastDecodeUnsignedVarInt (FastEncodeUnsignedVarInt u ++ rest) =
  Ok (u, Z.of_nat (length (FastEncodeUnsignedVarInt u))).
Proof.
  intros Hu0. pose proof (unsigned_length_fits u Hu0) as (Hn & Hu & Hu' & _).
  rewrite Z.sub_0_r in Hu'.
  unfold FastEncodeUnsignedVarInt. set (n := UnsignedVarIntLength u) in *. clearbody n.
  destruct (Z.eqb_spec n 10) as [->|]; [|destruct (Z.eqb_spec n 9) as [->|]];
    rewrite varint_tail_be', <- app_assoc, length_app, length_be_bytes by lia.
  - by rewrite decode_unsigned_10.
  - rewrite decode_unsigned_9; [done|]. change (7 * 9) with 63 in Hu'. lia.
  - rewrite decode_unsigned_small by lia. do 2 f_equal. simpl. lia.
Qed.

Lemma encode_unsigned_below u1 u2 :
  is_u64 u1 → is_u64 u2 → u1 < u2 →
  below (FastEncodeUnsignedVarInt u1) (FastEncodeUnsignedVarInt u2).
Proof.
  intros H1 H2 Hlt.
  destruct (unsigned_be u1 H1) as (n1 & Hf1 & ->). destruct (unsigned_be u2 H2) as (n2 & Hf2 & ->).
  apply below_be_bytes; try (unfold fits in *; lia); auto using unsigned_code_range.
  by apply unsigned_code_below.
Qed.

Lemma encode_signed_ok v : is_i64 v → bytes_ok (FastEncodeSignedVarInt v).
Proof. intros Hv. destruct (encode_signed_be v Hv) as (n & _ & ->). apply be_bytes_ok. Qed.

Lemma encode_unsigned_ok u : is_u64 u → bytes_ok (FastEncodeUnsignedVarInt u).
Proof. intros Hu. destruct (unsigned_be u Hu) as (n & _ & ->). apply be_bytes_ok. Qed.

Lemma length_encode_signed v :
  is_i64 v → (1 ≤ length (FastEncodeSignedVarInt v) ≤ 10)%nat.
Proof.
  intros Hv. destruct (encode_signed_be v Hv) as (n & Hf & ->).
  rewrite length_be_bytes. unfold fits in Hf. lia.
Qed.

#[export] Hint Resolve encode_signed_ok encode_unsigned_ok be_bytes_ok : ints.

(** Round trip with any continuation, for use in the formats built on it. *)
Lemma decode_signed_encode v rest :
  is_i64 v → bytes_ok rest →
  FastDecodeSignedVarInt (FastEncodeSignedVarInt v ++ rest) =
  Ok (v, Z.of_nat (length (FastEncodeSignedVarInt v))).
Proof.
  intros Hv Hr. apply decode_signed_spec; [done..|].
  intros n c Hn E. rewrite E, read_loop_be by done. eexists. split; [done|].
  apply mod_mod_pow2. by apply payload_bits_le.
Qed.

Lemma decode_descending_encode v rest :
  is_i64 v → v ≠ - 2 ^ 63 → bytes_ok rest →
  FastDecodeDescendingSignedVarInt (FastEncodeSignedVarInt (- v) ++ rest) = Ok (v, rest).
Proof.
  intros Hv Hmin Hr. unfold FastDecodeDescendingSignedVarInt.
  rewrite decode_signed_encode by (done || unfold is_i64 in *; lia). cbn [obind].
  rewrite (proj2 (Z.eqb_neq _ _)) by (unfold is_i64 in *; lia).
  rewrite Nat2Z.id, drop_app_length. by rewrite Z.opp_involutive.
Qed.

(** Comparison of two encodings, with arbitrary bytes after them. *)
Lemma encode_signed_compare v1 v2 x y :
  is_i64 v1 → is_i64 v2 →
  bytes_compare (FastEncodeSignedVarInt v1 ++ x) (FastEncodeSignedVarInt v2 ++ y) =
  match v1 ?= v2 with Eq => bytes_compare x y | c => c end.
Proof.
  intros H1 H2. destruct (Z.compare_spec v1 v2) as [->|Hlt|Hgt].
  - apply bytes_compare_app_same.
  - apply below_compare; auto using encode_signed_below with ints.
  - rewrite bytes_compare_antisym, below_compare; auto using encode_signed_below with ints.
Qed.

(** ** Truncated input *)

Lemma signed_header_two b0 b1 r1 r2 :
  signed_header (b0 :: b1 :: r1) = signed_header (b0 :: b1 :: r2).
Proof.
  unfold signed_header. cbn [nth]. rewrite !(proj2 (Z.ltb_lt _ _)) by (simpl; lia). done.
Qed.

(** A first byte that announces more than one byte. *)
Lemma signed_header_one b0 :
  is_u8 b0 → (192 <= b0 ∨ b0 < 64) → 2 <= (signed_header [b0]).2.
Proof.
  intros Hb Hr. unfold is_u8 in Hb. unfold signed_header. cbn [nth length].
  change (1 <? Z.of_nat 1) with false. cbv iota. rewrite Z.lor_0_r, Z.shiftl_mul_pow2 by lia.
  assert (u16 (b0 * 2 ^ 8) = b0 * 2 ^ 8) as -> by (unfold u16; apply Z.mod_small; lia).
  change 0x8000 with (2 ^ 15). rewrite land_top_zero by lia. cbn [snd].
  set (h := u16 _).
  assert (192 * 2 ^ 8 <= h < 2 ^ 16) as Hh.
  { unfold h, u16. destruct (Z.ltb_spec (b0 * 2 ^ 8) (2 ^ 15)).
    - change (u64 (- (1))) with (2 ^ 64 - 1). rewrite lxor_ones_mod by lia.
      rewrite <- (Z_mod_plus_full _ 1), Z.mod_small by lia. lia.
    - change (u64 (- 0)) with 0. rewrite Z.lxor_0_r, Z.mod_small by lia. lia. }
  change 0x7fff with (2 ^ 15 - 1). rewrite land_ones_mod by lia.
  assert (Z.lnot h mod 2 ^ 15 = 65535 - h) as ->.
  { unfold Z.lnot. rewrite <- (Z_mod_plus_full _ 2). rewrite Z.mod_small; lia. }
  unfold clz32. rewrite Z.log2_lor by lia. change (Z.log2 0x20) with 5.
  assert (Z.log2 (65535 - h) <= 13); [|lia].
  destruct (decide (65535 - h = 0)) as [->|]; [done|]. apply Z.lt_succ_r, Z.log2_lt_pow2; lia.
Qed.

Lemma encode_first_byte v b0 b1 r :
  is_i64 v → FastEncodeSignedVarInt v = b0 :: b1 :: r → 192 <= b0 ∨ b0 < 64.
Proof.
  intros Hv E. destruct (encode_signed_be v Hv) as (n & Hf & Ebe).
  pose proof (signed_code_range n _ Hf) as Hc. destruct Hf as (Hn & Hu & Hu' & _).
  assert (2 <= n) as Hn2.
  { apply (f_equal length) in Ebe. rewrite E, length_be_bytes in Ebe. simpl in Ebe. lia. }
  rewrite Ebe in E. destruct (Z.to_nat n) as [|k] eqn:Hk; [lia|]. cbn [be_bytes] in E.
  injection E as E0 _. unfold u8 in E0. rewrite Z.shiftr_div_pow2 in E0 by lia.
  replace (8 * Z.of_nat k) with (8 * (n - 1)) in E0 by lia.
  set (d := 2 ^ (8 * (n - 1))) in *.
  assert (2 ^ (8 * n) = d * 2 ^ 8) as Ed
    by (unfold d; rewrite <- Z.pow_add_r by lia; f_equal; lia).
  assert (192 * d <= signed_code n (Z.abs v)) as Hlo.
  { unfold d, signed_code. clear - Hn Hn2 Hu. byte_count n; try lia; eval_pow; lia. }
  assert (0 < d) by (unfold d; lia).
  destruct (v <? 0).
  - right. rewrite <- E0.
    rewrite <- (Z_mod_plus_full _ 1), <- Z.div_add by lia.
    replace (- signed_code n (Z.abs v) - 1 + (1 * 2 ^ 8) * d)
      with (2 ^ (8 * n) - 1 - signed_code n (Z.abs v)) by lia.
    assert (0 <= (2 ^ (8 * n) - 1 - signed_code n (Z.abs v)) / d < 64) as Hq.
    { split; [apply Z.div_pos; lia|]. apply Z.div_lt_upper_bound; lia. }
    rewrite Z.mod_small; lia.
  - left. rewrite <- E0.
    assert (192 <= signed_code n (Z.abs v) / d < 256) as Hq.
    { split; [apply Z.div_le_lower_bound; lia|]. apply Z.div_lt_upper_bound; lia. }
    rewrite Z.mod_small; lia.
Qed.

Lemma decode_signed_truncated v l :
  is_i64 v → l `prefix_of` FastEncodeSignedVarInt v →
  (length l < length (FastEncodeSignedVarInt v))%nat →
  FastDecodeSignedVarInt l = Err Corruption.
Proof.
  intros Hv [k E] Hl. pose proof (encode_signed_ok v Hv) as Hok.
  unfold FastDecodeSignedVarInt, decode_signed. destruct l as [|b0 l]; [done|].
  assert (Z.of_nat (length (b0 :: l)) < (signed_header (b0 :: l)).2) as Hn.
  { destruct l as [|b1 l].
    - destruct k as [|b1 k]; [rewrite E in Hl; simpl in Hl; lia|].
      assert (2 <= (signed_header [b0]).2); [|cbn [length]; lia].
      apply signed_header_one; [|by apply (encode_first_byte v b0 b1 k)].
      rewrite E in Hok. by inversion Hok.
    - destruct (encode_signed_be v Hv) as (n & Hf & Ebe).
      assert (signed_header (b0 :: b1 :: l) = signed_header (FastEncodeSignedVarInt v ++ [])) as ->.
      { rewrite E. cbn [app]. apply signed_header_two. }
      rewrite Ebe in Hl |- *. rewrite length_be_bytes in Hl.
      assert (0 <= n) by (unfold fits in Hf; lia).
      assert (be_bytes (Z.to_nat n) (if v <? 0 then - signed_code n (Z.abs v) - 1
          else signed_code n (Z.abs v)) = be_bytes (Z.to_nat n) (if v <? 0
          then 2 ^ (8 * n) - 1 - signed_code n (Z.abs v) else signed_code n (Z.abs v))) as ->.
      { destruct (v <? 0); [|done]. by apply be_bytes_neg. }
      rewrite signed_header_spec by (done || constructor). cbn [snd]. lia. }
  destruct (signed_header (b0 :: l)) as [negative n]. cbn [snd] in Hn.
  by rewrite (proj2 (Z.ltb_lt _ _)) by done.
Qed.

(** ** Properties *)

(** Decoding the signed encoding of any [int64_t], whatever bytes follow it
    in the slice, returns the value and leaves exactly those bytes. *)
Theorem signed_varint_roundtrip v rest :
  is_i64 v → bytes_ok rest →
  FastDecodeSignedVarIntSlice (FastEncodeSignedVarIntToStr v ++ rest) = Ok (v, rest).
Proof.
  intros Hv Hr. unfold FastDecodeSignedVarIntSlice, FastEncodeSignedVarIntToStr,
    FastAppendSignedVarIntToBuffer. cbn [app].
  rewrite decode_signed_encode by done. cbn [obind].
  by rewrite Nat2Z.id, drop_app_length.
Qed.

Lemma signed_varint_roundtrip_witness :
  FastDecodeSignedVarIntSlice (FastEncodeSignedVarIntToStr (- 2 ^ 63) ++ [1; 255]) =
  Ok (- 2 ^ 63, [1; 255]).
Proof. apply signed_varint_roundtrip; [unfold is_i64; lia|bytes_done]. Defined.

(** Byte-wise comparison of two signed encodings, each followed by anything,
    is the numeric comparison of the values, and goes on to what follows only
    when the values are equal: the encoding is order preserving and prefix
    free. *)
Theorem signed_varint_order v1 v2 x y :
  is_i64 v1 → is_i64 v2 →
  bytes_compare (FastEncodeSignedVarInt v1 ++ x) (FastEncodeSignedVarInt v2 ++ y) =
  match v1 ?= v2 with Eq => bytes_compare x y | c => c end.
Proof. apply encode_signed_compare. Qed.

Lemma signed_varint_order_witness :
  bytes_compare (FastEncodeSignedVarInt (-8192) ++ [9]) (FastEncodeSignedVarInt (-8191) ++ [1]) =
  Lt.
Proof. rewrite signed_varint_order; [reflexivity|unfold is_i64; lia..]. Defined.

(** The release build's 64-bit load, which starts before [src] for short
    encodings, returns the same result as the byte loop of the sanitizer
    builds, on every input and whatever the eight bytes of memory in front of
    the buffer are. *)
Theorem signed_decode_unaligned before src :
  (8 ≤ length before)%nat → bytes_ok before → bytes_ok src →
  FastDecodeSignedVarIntUnaligned before src = FastDecodeSignedVarInt src.
Proof.
  intros Hb Hbok Hok. unfold FastDecodeSignedVarIntUnaligned, FastDecodeSignedVarInt.
  apply decode_signed_ext. intros n Hn Hl.
  destruct (read_word_window before src n) as (t & -> & ->); [done..|].
  do 2 eexists. repeat split. symmetry. apply mod_mod_pow2. by apply payload_bits_le.
Qed.

Lemma signed_decode_unaligned_witness :
  FastDecodeSignedVarIntUnaligned [1; 2; 3; 4; 5; 6; 7; 8] [0x7e; 0] =
  FastDecodeSignedVarInt [0x7e; 0].
Proof. apply signed_decode_unaligned; [simpl; lia|bytes_done..]. Defined.

(** A slice that ends inside a signed encoding is reported as corruption. *)
Theorem signed_decode_truncated v l :
  is_i64 v → l `prefix_of` FastEncodeSignedVarInt v →
  (length l < length (FastEncodeSignedVarInt v))%nat →
  FastDecodeSignedVarInt l = Err Corruption.
Proof. apply decode_signed_truncated. Qed.

Lemma signed_decode_truncated_witness : FastDecodeSignedVarInt [0xff] = Err Corruption.
Proof.
  apply (signed_decode_truncated (2 ^ 62));
    [unfold is_i64; lia|exists (tail (FastEncodeSignedVarInt (2 ^ 62))); reflexivity|].
  vm_compute. lia.
Defined.

(** The unsigned encoding round-trips for every [uint64_t] and whatever
    follows, and its byte-wise order is the numeric order. *)
Theorem unsigned_varint_roundtrip_order u1 u2 x y :
  is_u64 u1 → is_u64 u2 →
  FastDecodeUnsignedVarIntSlice (FastEncodeUnsignedVarInt u1 ++ x) = Ok (u1, x) ∧
  FastDecodeUnsignedVarIntFull (FastEncodeUnsignedVarInt u1) = Ok u1 ∧
  bytes_compare (FastEncodeUnsignedVarInt u1 ++ x) (FastEncodeUnsignedVarInt u2 ++ y) =
  match u1 ?= u2 with Eq => bytes_compare x y | c => c end.
Proof.
  intros H1 H2.
  assert (∀ z, FastDecodeUnsignedVarIntSlice (FastEncodeUnsignedVarInt u1 ++ z) = Ok (u1, z)) as Hd.
  { intros z. unfold FastDecodeUnsignedVarIntSlice. rewrite decode_unsigned_spec by done.
    cbn [obind]. by rewrite Nat2Z.id, drop_app_length. }
  split; [apply Hd|]. split.
  { unfold FastDecodeUnsignedVarIntFull. rewrite <- (app_nil_r (FastEncodeUnsignedVarInt u1)).
    by rewrite Hd. }
  destruct (Z.compare_spec u1 u2) as [->|Hlt|Hgt].
  - apply bytes_compare_app_same.
  - apply below_compare; auto using encode_unsigned_below with ints.
  - rewrite bytes_compare_antisym, below_compare; auto using encode_unsigned_below with ints.
Qed.

Lemma unsigned_varint_roundtrip_order_witness :
  FastDecodeUnsignedVarIntSlice (FastEncodeUnsignedVarInt (2 ^ 64 - 1) ++ [5]) =
    Ok (2 ^ 64 - 1, [5]) ∧
  FastDecodeUnsignedVarIntFull (FastEncodeUnsignedVarInt (2 ^ 64 - 1)) = Ok (2 ^ 64 - 1) ∧
  bytes_compare (FastEncodeUnsignedVarInt (2 ^ 64 - 1) ++ [5])
    (FastEncodeUnsignedVarInt 127 ++ []) = Gt.
Proof.
  apply (unsigned_varint_roundtrip_order (2 ^ 64 - 1) 127 [5] []); unfold is_u64; lia.
Defined.
