(* ===== verification/HybridTime.v ===== *)
(** * Hybrid times

    Models common/hybrid_time.h and common/hybrid_time.cc.  A [HybridTime] is
    its 64-bit representation [v]: 52 bits of microseconds above 12 bits of
    logical time, with four reserved values. *)

From S2P Require Import Prelude.

Module HybridTime.

(** ** Representation *)

Definition kMin : Z := 0.
Definition kMax : Z := 2 ^ 64 - 1.
Definition kInitial : Z := kMin + 1.
Definition kInvalid : Z := kMax - 1.

Definition kBitsForLogicalComponent : Z := 12.
Definition kLogicalBitMask : Z := Z.shiftl 1 kBitsForLogicalComponent - 1.

(** [HybridTime(micros, logical_value)]. *)
Definition FromMicrosecondsAndLogicalValue (micros logical_value : Z) : Z :=
  u64 (u64 (Z.shiftl micros kBitsForLogicalComponent) + logical_value).

Definition FromMicros (micros : Z) : Z := FromMicrosecondsAndLogicalValue micros 0.

Definition GetPhysicalValueMicros (v : Z) : Z := Z.shiftr v kBitsForLogicalComponent.
Definition GetLogicalValue (v : Z) : Z := Z.land v kLogicalBitMask.

Definition kMaxHybridTimePhysicalMicros : Z := Z.shiftr kMax kBitsForLogicalComponent.

(** [FromPB]: a zero field is an absent hybrid time. *)
Definition FromPB (value : Z) : Z := if negb (value =? 0) then value else kInvalid.

Definition is_valid (v : Z) : bool := negb (v =? kInvalid).
Definition is_special (v : Z) : bool := (v =? kMin) || (v =? kMax) || (v =? kInvalid).

(** ** Operations *)

(** The sign of [CompareTo]. *)
Definition CompareTo (v other : Z) : comparison :=
  if v <? other then Lt else if other <? v then Gt else Eq.

Definition Decremented (v : Z) : Z := if v =? 0 then v else v - 1.
Definition Incremented (v : Z) : Z := if kInvalid <=? v then v else v + 1.

Definition AddMicroseconds (v micros : Z) : Z :=
  if is_special v then v
  else u64 (v + u64 (Z.shiftl micros kBitsForLogicalComponent)).

(** The conversions of [int64_t] amounts; the multiplication may overflow. *)
Definition AddMilliseconds (v millis : Z) : outcome Z :=
  if bool_decide (is_i64 (millis * 1000)) then Ok (AddMicroseconds v (u64 (millis * 1000)))
  else UB.
Definition AddSeconds (v seconds : Z) : outcome Z :=
  if bool_decide (is_i64 (seconds * 1000000)) then Ok (AddMicroseconds v (u64 (seconds * 1000000)))
  else UB.

Definition CeilPhysicalValueMicros (v : Z) : Z :=
  if v =? kMin then 0
  else
    let result := GetPhysicalValueMicros v in
    if negb (GetLogicalValue v =? 0) then result + 1 else result.

Definition PhysicalDiff (v other : Z) : Z :=
  i64 (u64 (GetPhysicalValueMicros v - GetPhysicalValueMicros other)).

Definition MakeAtLeast (v rhs : Z) : Z :=
  if is_valid rhs then (if is_valid v then Z.max v rhs else rhs) else v.
Definition MakeAtMost (v rhs : Z) : Z :=
  if is_valid rhs then (if is_valid v then Z.min v rhs else rhs) else v.

(** ** Components *)

Lemma physical_eq v : GetPhysicalValueMicros v = v / 2 ^ 12.
Proof. unfold GetPhysicalValueMicros, kBitsForLogicalComponent. by rewrite Z.shiftr_div_pow2. Qed.

Lemma logical_eq v : GetLogicalValue v = v mod 2 ^ 12.
Proof. unfold GetLogicalValue. change kLogicalBitMask with (2 ^ 12 - 1). by apply land_ones_mod. Qed.

Lemma make_eq m l :
  0 <= m < 2 ^ 52 → 0 <= l < 2 ^ 12 →
  FromMicrosecondsAndLogicalValue m l = m * 2 ^ 12 + l.
Proof.
  intros. unfold FromMicrosecondsAndLogicalValue, kBitsForLogicalComponent.
  rewrite Z.shiftl_mul_pow2 by lia. rewrite (u64_small (m * _)), u64_small; unfold is_u64; lia.
Qed.

Lemma physical_range v : is_u64 v → 0 <= GetPhysicalValueMicros v < 2 ^ 52.
Proof.
  intros. rewrite physical_eq. unfold is_u64 in *.
  split; [apply Z.div_pos; lia|apply Z.div_lt_upper_bound; lia].
Qed.

Lemma logical_range v : 0 <= GetLogicalValue v < 2 ^ 12.
Proof. rewrite logical_eq. apply Z.mod_pos_bound. lia. Qed.

Lemma components v :
  v = GetPhysicalValueMicros v * 2 ^ 12 + GetLogicalValue v.
Proof. rewrite physical_eq, logical_eq. pose proof (Z.div_mod v (2 ^ 12)). lia. Qed.

Lemma make_components v :
  is_u64 v → FromMicrosecondsAndLogicalValue (GetPhysicalValueMicros v) (GetLogicalValue v) = v.
Proof.
  intros. rewrite make_eq by auto using physical_range, logical_range.
  symmetry. apply components.
Qed.

Lemma CompareTo_eq v w : CompareTo v w = (v ?= w).
Proof.
  unfold CompareTo. destruct (Z.ltb_spec v w) as [?%Z.compare_lt_iff|]; [done|].
  destruct (Z.ltb_spec w v) as [?|]; symmetry; [by apply Z.compare_gt_iff|].
  apply Z.compare_eq_iff. lia.
Qed.

(** The order of hybrid times is the lexicographic order of the components. *)
Lemma CompareTo_components v w :
  CompareTo v w =
  match GetPhysicalValueMicros v ?= GetPhysicalValueMicros w with
  | Eq => GetLogicalValue v ?= GetLogicalValue w
  | c => c
  end.
Proof.
  rewrite CompareTo_eq. pose proof (components v). pose proof (components w).
  pose proof (logical_range v). pose proof (logical_range w).
  destruct (Z.compare_spec (GetPhysicalValueMicros v) (GetPhysicalValueMicros w)).
  - destruct (Z.compare_spec (GetLogicalValue v) (GetLogicalValue w));
      [apply Z.compare_eq_iff|apply Z.compare_lt_iff|apply Z.compare_gt_iff]; lia.
  - apply Z.compare_lt_iff. lia.
  - apply Z.compare_gt_iff. lia.
Qed.

(** ** Properties *)

(** Neighbours.  Away from the reserved top values [Incremented] is the
    least representable hybrid time above [v] and [Decremented] undoes it, the
    ceiling in microseconds is the least one whose hybrid time is not below
    [v], and adding microseconds shifts the physical part only. *)
Theorem hybrid_time_arithmetic (v micros : Z) :
  is_u64 v → v < kInvalid → 0 < v → 0 <= micros →
  GetPhysicalValueMicros v + micros < kMaxHybridTimePhysicalMicros →
  (∀ w, CompareTo v w = Lt ↔ CompareTo (Incremented v) w ≠ Gt) ∧
  Decremented (Incremented v) = v ∧
  (∀ m, 0 <= m < 2 ^ 52 → CompareTo v (FromMicros m) ≠ Gt ↔ CeilPhysicalValueMicros v <= m) ∧
  GetPhysicalValueMicros (AddMicroseconds v micros) = GetPhysicalValueMicros v + micros ∧
  GetLogicalValue (AddMicroseconds v micros) = GetLogicalValue v.
Proof.
  intros Hv Hinv Hpos Hm Hmax. pose proof (physical_range v Hv). pose proof (components v). pose proof (logical_range v).
  change kInvalid with (2 ^ 64 - 2) in Hinv.
  change kMaxHybridTimePhysicalMicros with (2 ^ 52 - 1) in Hmax. unfold is_u64 in Hv.
  assert (Incremented v = v + 1) as Hi.
  { unfold Incremented. change kInvalid with (2 ^ 64 - 2). case_test; lia. }
  assert (AddMicroseconds v micros = v + micros * 2 ^ 12) as Ha.
  { unfold AddMicroseconds, is_special, kBitsForLogicalComponent.
    change kMin with 0. change kMax with (2 ^ 64 - 1). change kInvalid with (2 ^ 64 - 2).
    rewrite !(proj2 (Z.eqb_neq _ _)) by lia. cbn [orb].
    rewrite Z.shiftl_mul_pow2 by lia. rewrite (u64_small (micros * _)) by (unfold is_u64; lia).
    apply u64_small. unfold is_u64. lia. }
  repeat split.
  - rewrite Hi, !CompareTo_eq, Z.compare_lt_iff, Z.compare_gt_iff. lia.
  - rewrite Hi, !CompareTo_eq, Z.compare_lt_iff, Z.compare_gt_iff. lia.
  - rewrite Hi. unfold Decremented. case_test; lia.
  - unfold FromMicros. rewrite CompareTo_eq, make_eq, Z.compare_gt_iff by lia.
    unfold CeilPhysicalValueMicros. change kMin with 0. repeat case_test; lia.
  - unfold FromMicros. rewrite CompareTo_eq, make_eq, Z.compare_gt_iff by lia.
    unfold CeilPhysicalValueMicros. change kMin with 0. repeat case_test; lia.
  - rewrite Ha, !physical_eq. by rewrite Z.div_add by lia.
  - rewrite Ha, !logical_eq. by rewrite Z.mod_add by lia.
Qed.

Lemma hybrid_time_arithmetic_witness :
  Decremented (Incremented 8191) = 8191 ∧ CeilPhysicalValueMicros 8191 = 2 ∧
  GetPhysicalValueMicros (AddMicroseconds 8191 5) = 6.
Proof.
  destruct (hybrid_time_arithmetic 8191 5) as (_ & H1 & _ & H2 & _);
    [vm_compute; done ..|].
  split; [exact H1|]. split; [reflexivity|exact H2].
Defined.

End HybridTime.
