(* ===== verification/DocHybridTime.v ===== *)
(** * Document hybrid times

    Models common/doc_hybrid_time.h and common/doc_hybrid_time.cc: a hybrid
    time with the index of a write inside its batch, stored at the end of every
    DocDB key as four descending varints whose last byte carries the size of
    the whole encoding in its low five bits. *)

From S2P Require Import Prelude FastVarint HybridTime.

Module DocHybridTime.

(** ** Data *)

Record t := mk { hybrid_time_ : Z; write_id_ : Z }.

#[export] Instance t_eq_dec : EqDecision t.
Proof. solve_decision. Defined.

Definition kMinWriteId : Z := 0.
Definition kMaxWriteId : Z := 2 ^ 32 - 1.
Definition kInvalid : t := mk HybridTime.kInvalid kMaxWriteId.
Definition kMin : t := mk HybridTime.kMin 0.
Definition kMax : t := mk HybridTime.kMax kMaxWriteId.

Definition kMaxBytesPerEncodedHybridTime : Z := 30.
Definition kZNbaseMicrosecondEpoch : Z := 1500000000 * 1000000.
Definition kNumBitsForHybridTimeSize : Z := 5.
Definition kHybridTimeSizeMask : Z := Z.shiftl 1 kNumBitsForHybridTimeSize - 1.

(** A value the fields can hold. *)
Definition wf (d : t) : Prop := is_u64 (hybrid_time_ d) ∧ is_u32 (write_id_ d).

Definition is_valid (d : t) : bool := HybridTime.is_valid (hybrid_time_ d).

Definition CompareUsingLessThan (a b : Z) : comparison :=
  if a <? b then Lt else if b <? a then Gt else Eq.

Definition CompareTo (d other : t) : comparison :=
  let ht_cmp := HybridTime.CompareTo (hybrid_time_ d) (hybrid_time_ other) in
  if negb (bool_decide (ht_cmp = Eq)) then ht_cmp
  else CompareUsingLessThan (write_id_ d) (write_id_ other).

(** ** Encoding *)

(** [out[-1] = (last_byte & ~kHybridTimeSizeMask) | encoded_size]. *)
Definition store_size (out : bytes) : outcome bytes :=
  match last out with
  | None => UB
  | Some last_byte =>
      let encoded_size := u8 (Z.of_nat (length out)) in
      Ok (removelast out ++
          [u8 (Z.lor (Z.land last_byte (Z.lnot kHybridTimeSizeMask)) encoded_size)])
  end.

Definition EncodedInDocDbFormat (d : t) : outcome bytes :=
  let! generation := FastEncodeDescendingSignedVarInt 0 in
  let! micros := FastEncodeDescendingSignedVarInt
    (i64 (u64 (HybridTime.GetPhysicalValueMicros (hybrid_time_ d) - kZNbaseMicrosecondEpoch))) in
  let! logical := FastEncodeDescendingSignedVarInt (HybridTime.GetLogicalValue (hybrid_time_ d)) in
  let! write := FastEncodeDescendingSignedVarInt
    (Z.shiftl (write_id_ d + 1) kNumBitsForHybridTimeSize) in
  store_size (generation ++ micros ++ logical ++ write).

Definition AppendEncodedInDocDbFormat (d : t) (dest : bytes) : outcome bytes :=
  let! enc := EncodedInDocDbFormat d in Ok (dest ++ enc).

(** ** Decoding *)

(** The byte before the position a slice has been advanced to. *)
Definition byte_before (slice rest : bytes) : outcome Z :=
  match last (take (length slice - length rest) slice) with Some b => Ok b | None => UB end.

Definition DecodeFrom (slice : bytes) : outcome (t * bytes) :=
  let previous_size := length slice in
  let! (_, s1) := FastDecodeDescendingSignedVarInt slice in
  let! (micros, s2) := FastDecodeDescendingSignedVarInt s1 in
  let decoded_micros := i64 (u64 (kZNbaseMicrosecondEpoch + micros)) in
  let! (decoded_logical, s3) := FastDecodeDescendingSignedVarInt s2 in
  let hybrid_time :=
    HybridTime.FromMicrosecondsAndLogicalValue (u64 decoded_micros) (u32 decoded_logical) in
  let! (decoded_shifted_write_id, s4) := FastDecodeDescendingSignedVarInt s3 in
  if decoded_shifted_write_id <? 0 then Err Corruption
  else
    let write_id :=
      u32 (Z.shiftr decoded_shifted_write_id kNumBitsForHybridTimeSize - 1) in
    let bytes_decoded := Z.of_nat (previous_size - length s4) in
    let! b := byte_before slice s4 in
    let size_at_the_end := Z.land b kHybridTimeSizeMask in
    if negb (size_at_the_end =? bytes_decoded) then Err Corruption
    else Ok (mk hybrid_time write_id, s4).

Definition FullyDecodeFrom (encoded : bytes) : outcome t :=
  let! (d, s) := DecodeFrom encoded in
  if negb (bool_decide (s = [])) then Err Corruption else Ok d.

Definition CheckEncodedSize (encoded_ht_size encoded_key_size : Z) : outcome unit :=
  if encoded_key_size =? 0 then Err RuntimeError
  else if negb (1 <=? encoded_ht_size) then Err Corruption
  else if negb (encoded_ht_size <=? kMaxBytesPerEncodedHybridTime) then Err Corruption
  else if negb (encoded_ht_size <? encoded_key_size) then Err Corruption
  else Ok tt.

Definition GetEncodedSize (encoded_key : bytes) : Z :=
  match last encoded_key with None => 0 | Some b => Z.land b kHybridTimeSizeMask end.

Definition CheckAndGetEncodedSize (encoded_key : bytes) : outcome Z :=
  let encoded_ht_size := GetEncodedSize encoded_key in
  let! _ := CheckEncodedSize encoded_ht_size (Z.of_nat (length encoded_key)) in
  Ok encoded_ht_size.

(** [DecodeFromEnd on a slice pointer]: the time and the key without it. *)
Definition DecodeFromEnd (key : bytes) : outcome (t * bytes) :=
  let! encoded_size := CheckAndGetEncodedSize key in
  let n := (length key - Z.to_nat encoded_size)%nat in
  let! result := FullyDecodeFrom (drop n key) in
  Ok (result, take n key).

(** ** The size byte *)

Lemma be_bytes_snoc n c : be_bytes (S n) c = be_bytes n (c / 256) ++ [u8 c].
Proof.
  induction n as [|n IH].
  - cbn [be_bytes app]. by rewrite Z.shiftr_0_r.
  - change (be_bytes (S (S n)) c) with (u8 (Z.shiftr c (8 * Z.of_nat (S n))) :: be_bytes (S n) c).
    rewrite IH. cbn [be_bytes app]. f_equal. f_equal.
    change 256 with (2 ^ 8). rewrite <- (Z.shiftr_div_pow2 c 8) by lia.
    rewrite Z.shiftr_shiftr by lia. f_equal. lia.
Qed.

Lemma fits_unique c n n' u : 0 <= c <= 1 → fits c n u → fits c n' u → n = n'.
Proof.
  intros Hc (Hn & _ & Hu & Hl) (Hn' & _ & Hu' & Hl').
  destruct (Z.lt_trichotomy n n') as [H|[H|H]]; [|done|].
  - pose proof (Z.pow_le_mono_r 2 (7 * n - c) (7 * (n' - 1) - c)). lia.
  - pose proof (Z.pow_le_mono_r 2 (7 * n' - c) (7 * (n - 1) - c)). lia.
Qed.

(** Filling the five clear low bits does not change the length. *)
Lemma fits_low_bits n m r :
  fits 1 n (32 * m) → 0 <= r < 32 → fits 1 n (32 * m + r).
Proof.
  intros (Hn & Hu & Hb & Hl) Hr. assert (1 <= n <= 10) as Hn' by done.
  unfold fits. byte_count n; eval_pow; lia.
Qed.

Lemma land_size_mask b s :
  is_u8 b → 0 <= s < 32 →
  u8 (Z.lor (Z.land b (Z.lnot kHybridTimeSizeMask)) s) = b / 32 * 32 + s.
Proof.
  intros Hb Hs. change kHybridTimeSizeMask with (Z.ones 5).
  rewrite <- Z.ldiff_land, Z.ldiff_ones_r by lia.
  rewrite Z.shiftl_mul_pow2, Z.shiftr_div_pow2 by lia.
  rewrite lor_disjoint by lia. change (2 ^ 5) with 32. unfold u8, is_u8 in *.
  rewrite Z.mod_small; [done|]. pose proof (Z.div_mod b 32). pose proof (Z.mod_pos_bound b 32). lia.
Qed.

(** Writing a size [s] into the encoding of a write id yields the encoding of a
    number with the same upper bits. *)
Lemma store_size_encoded m s :
  0 < m <= 2 ^ 32 → 0 <= s < 32 →
  ∃ out b, FastEncodeSignedVarInt (- (32 * m)) = out ++ [b] ∧
    out ++ [u8 (Z.lor (Z.land b (Z.lnot kHybridTimeSizeMask)) s)] =
    FastEncodeSignedVarInt (- (32 * m + (31 - s))).
Proof.
  intros Hm Hs.
  destruct (encode_signed_be (- (32 * m))) as (n & Hf & ->); [unfold is_i64; lia|].
  destruct (encode_signed_be (- (32 * m + (31 - s)))) as (n' & Hf' & ->); [unfold is_i64; lia|].
  rewrite !(proj2 (Z.ltb_lt _ _)) by lia.
  replace (Z.abs (- (32 * m))) with (32 * m) in * by lia.
  replace (Z.abs (- (32 * m + (31 - s)))) with (32 * m + (31 - s)) in * by lia.
  assert (n' = n) as ->.
  { apply (fits_unique 1 _ _ (32 * m + (31 - s))); [lia|done|]. apply fits_low_bits; [done|lia]. }
  assert (1 <= n <= 10) as Hn by apply Hf.
  replace (Z.to_nat n) with (S (Z.to_nat (n - 1))) by lia. rewrite !be_bytes_snoc.
  eexists _, _. split; [done|]. rewrite land_size_mask by (lia || apply u8_range).
  assert (2 ^ (7 * n) = 256 * 2 ^ (7 * n - 8) ∨ 2 ^ (7 * n) = 128) as Hp.
  { destruct (Z.eq_dec n 1) as [->|]; [by right|left].
    change 256 with (2 ^ 8). rewrite <- Z.pow_add_r by lia. f_equal. lia. }
  unfold signed_code, u8. change (2 ^ 8) with 256.
  assert (∃ q, - ((2 ^ n - 1) * 2 ^ (7 * n) + 32 * m) - 1 = 32 * q + 31) as [q Hq].
  { destruct Hp as [Hp|Hp]; rewrite Hp;
      [exists (- (8 * (2 ^ n - 1) * 2 ^ (7 * n - 8) + m) - 1)
      |exists (- (4 * (2 ^ n - 1) + m) - 1)]; lia. }
  replace (- ((2 ^ n - 1) * 2 ^ (7 * n) + (32 * m + (31 - s))) - 1) with (32 * q + s) by lia.
  rewrite Hq. clear - Hs. assert (∃ k r, q = 8 * k + r ∧ 0 <= r < 8) as (k & r & -> & Hr).
  { exists (q / 8), (q mod 8). pose proof (Z.div_mod q 8). pose proof (Z.mod_pos_bound q 8). lia. }
  f_equal; [f_equal|f_equal].
  - replace (32 * (8 * k + r) + 31) with (32 * r + 31 + k * 256) by lia.
    replace (32 * (8 * k + r) + s) with (32 * r + s + k * 256) by lia.
    by rewrite !Z.div_add, !Z.div_small by lia.
  - replace (32 * (8 * k + r) + 31) with (32 * r + 31 + k * 256) by lia.
    replace (32 * (8 * k + r) + s) with (32 * r + s + k * 256) by lia.
    rewrite !Z.mod_add, !Z.mod_small by lia.
    replace (32 * r + 31) with (31 + r * 32) by lia. rewrite Z.div_add, Z.div_small by lia. lia.
Qed.

(** ** Normal form of the encoding *)

Lemma length_encode_le v k :
  is_i64 v → 1 <= k → Z.abs v < 2 ^ (7 * k - 1) →
  Z.of_nat (length (FastEncodeSignedVarInt v)) <= k.
Proof.
  intros Hv Hk Hb. destruct (encode_signed_be v Hv) as (n & Hf & ->).
  rewrite length_be_bytes. destruct Hf as (Hn & _ & _ & [->|Hl]); [lia|].
  rewrite Z2Nat.id by lia. destruct (Z.le_gt_cases n k); [done|].
  pose proof (Z.pow_le_mono_r 2 (7 * k - 1) (7 * (n - 1) - 1)). lia.
Qed.

(** Microseconds since the DocDB epoch. *)
Definition epoch_micros (d : t) : Z :=
  HybridTime.GetPhysicalValueMicros (hybrid_time_ d) - kZNbaseMicrosecondEpoch.

(** The number stored in place of the write id by an encoding of size [s]. *)
Definition stored_write_id (d : t) (s : Z) : Z := 32 * (write_id_ d + 1) + (31 - s).

(** The four varints of an encoding of size [s]. *)
Definition varints (d : t) (s : Z) : bytes :=
  FastEncodeSignedVarInt 0 ++ FastEncodeSignedVarInt (- epoch_micros d) ++
  FastEncodeSignedVarInt (- HybridTime.GetLogicalValue (hybrid_time_ d)) ++
  FastEncodeSignedVarInt (- stored_write_id d s).

Lemma field_ranges d :
  wf d →
  - 2 ^ 51 <= epoch_micros d < 2 ^ 52 ∧
  0 <= HybridTime.GetLogicalValue (hybrid_time_ d) < 2 ^ 12 ∧
  0 <= write_id_ d < 2 ^ 32.
Proof.
  intros [Hh Hw]. pose proof (HybridTime.physical_range _ Hh).
  pose proof (HybridTime.logical_range (hybrid_time_ d)).
  unfold epoch_micros, kZNbaseMicrosecondEpoch. unfold is_u32 in Hw. lia.
Qed.

(** The encodings of the fields before the size is stored. *)
Definition raw_varints (d : t) : bytes :=
  FastEncodeSignedVarInt 0 ++ FastEncodeSignedVarInt (- epoch_micros d) ++
  FastEncodeSignedVarInt (- HybridTime.GetLogicalValue (hybrid_time_ d)) ++
  FastEncodeSignedVarInt (- (32 * (write_id_ d + 1))).

Lemma length_raw_varints d : wf d → 4 <= Z.of_nat (length (raw_varints d)) <= 17.
Proof.
  intros Hd. destruct (field_ranges d Hd) as (He & Hl & Hw).
  assert (∀ v k, is_i64 v → 1 <= k → Z.abs v < 2 ^ (7 * k - 1) →
            1 <= Z.of_nat (length (FastEncodeSignedVarInt v)) <= k) as Hlen.
  { intros v k Hv ??. pose proof (length_encode_signed v Hv).
    pose proof (length_encode_le v k Hv). lia. }
  unfold raw_varints. rewrite !length_app.
  pose proof (Hlen 0 1). pose proof (Hlen (- epoch_micros d) 8).
  pose proof (Hlen (- HybridTime.GetLogicalValue (hybrid_time_ d)) 2).
  pose proof (Hlen (- (32 * (write_id_ d + 1))) 6). unfold is_i64 in *.
  change (2 ^ (7 * 1 - 1)) with 64 in *. change (2 ^ (7 * 8 - 1)) with (2 ^ 55) in *.
  change (2 ^ (7 * 2 - 1)) with (2 ^ 13) in *. change (2 ^ (7 * 6 - 1)) with (2 ^ 41) in *. lia.
Qed.

Lemma encode_descending_ok v :
  is_i64 (- v) → FastEncodeDescendingSignedVarInt v = Ok (FastEncodeSignedVarInt (- v)).
Proof.
  unfold is_i64. intros. unfold FastEncodeDescendingSignedVarInt.
  by rewrite (proj2 (Z.eqb_neq _ _)) by lia.
Qed.

Lemma encode_store_size d : wf d → EncodedInDocDbFormat d = store_size (raw_varints d).
Proof.
  intros Hd. destruct (field_ranges d Hd) as (He & Hl & Hw).
  unfold EncodedInDocDbFormat. fold (epoch_micros d).
  rewrite i64_u64, i64_small by (unfold is_i64; lia).
  rewrite Z.shiftl_mul_pow2 by done. change (2 ^ kNumBitsForHybridTimeSize) with 32.
  rewrite !encode_descending_ok by (unfold is_i64; lia). cbn [obind].
  unfold raw_varints. change (- 0) with 0. by rewrite (Z.mul_comm 32).
Qed.

Lemma size_mask b s :
  is_u8 b → 0 <= s < 32 →
  Z.land (u8 (Z.lor (Z.land b (Z.lnot kHybridTimeSizeMask)) s)) kHybridTimeSizeMask = s.
Proof.
  intros. rewrite land_size_mask by done. change kHybridTimeSizeMask with (2 ^ 5 - 1).
  rewrite land_ones_mod by lia. change (2 ^ 5) with 32. rewrite Z.add_comm, Z.mod_add by lia.
  by apply Z.mod_small.
Qed.

Lemma encoded_form d :
  wf d →
  ∃ s pre b, EncodedInDocDbFormat d = Ok (varints d s) ∧ 4 <= s <= 17 ∧
    s = Z.of_nat (length (varints d s)) ∧ varints d s = pre ++ [b] ∧
    Z.land b kHybridTimeSizeMask = s.
Proof.
  intros Hd. destruct (field_ranges d Hd) as (He & Hl & Hw).
  pose proof (length_raw_varints d Hd) as Hs. set (s := Z.of_nat (length (raw_varints d))) in Hs.
  destruct (store_size_encoded (write_id_ d + 1) s) as (out & b & Hb & Ho); [lia..|].
  set (front := FastEncodeSignedVarInt 0 ++ FastEncodeSignedVarInt (- epoch_micros d) ++
    FastEncodeSignedVarInt (- HybridTime.GetLogicalValue (hybrid_time_ d))).
  assert (raw_varints d = (front ++ out) ++ [b]) as Hr.
  { unfold raw_varints, front. rewrite Hb, <- !app_assoc. done. }
  assert (is_u8 b) as Hub.
  { assert (bytes_ok (out ++ [b])) as Hok by (rewrite <- Hb; apply encode_signed_ok; unfold is_i64; lia).
    apply Forall_app in Hok as [_ Hok]. by inversion Hok. }
  exists s, (front ++ out), (u8 (Z.lor (Z.land b (Z.lnot kHybridTimeSizeMask)) s)).
  assert (varints d s = (front ++ out)
            ++ [u8 (Z.lor (Z.land b (Z.lnot kHybridTimeSizeMask)) s)]) as Hv.
  { unfold varints, stored_write_id, front. rewrite <- Ho, <- !app_assoc. done. }
  split_and!; [|lia|lia| |done|].
  - rewrite encode_store_size by done. unfold store_size. fold s.
    rewrite (u8_small s) by (unfold is_u8; lia).
    rewrite Hr, last_snoc, removelast_last. by rewrite Hv.
  - rewrite Hv. unfold s. rewrite Hr, !length_app. cbn [length]. lia.
  - apply size_mask; [done|lia].
Qed.

(** ** Decoding and order *)

Lemma decode_micros d :
  wf d →
  HybridTime.FromMicrosecondsAndLogicalValue
    (u64 (i64 (u64 (kZNbaseMicrosecondEpoch + epoch_micros d))))
    (u32 (HybridTime.GetLogicalValue (hybrid_time_ d))) = hybrid_time_ d.
Proof.
  intros Hd. destruct (field_ranges d Hd) as (_ & Hl & _). destruct Hd as [Hh _].
  pose proof (HybridTime.physical_range _ Hh) as Hp. unfold epoch_micros.
  replace (_ + (_ - _)) with (HybridTime.GetPhysicalValueMicros (hybrid_time_ d)) by lia.
  rewrite i64_u64, i64_small by (unfold is_i64; lia). rewrite u64_small by (unfold is_u64; lia).
  rewrite u32_small by (unfold is_u32; lia). by apply HybridTime.make_components.
Qed.

Lemma decode_varints d s rest :
  wf d → 0 <= s < 32 → bytes_ok rest →
  ∃ s1 s2 s3, FastDecodeDescendingSignedVarInt (varints d s ++ rest) = Ok (0, s1) ∧
    FastDecodeDescendingSignedVarInt s1 = Ok (epoch_micros d, s2) ∧
    FastDecodeDescendingSignedVarInt s2 = Ok (HybridTime.GetLogicalValue (hybrid_time_ d), s3) ∧
    FastDecodeDescendingSignedVarInt s3 = Ok (stored_write_id d s, rest).
Proof.
  intros Hd Hs Hr. destruct (field_ranges d Hd) as (He & Hl & Hw).
  unfold varints. rewrite <- !app_assoc.
  change (FastEncodeSignedVarInt 0) with (FastEncodeSignedVarInt (- 0)).
  eexists _, _, _. unfold stored_write_id.
  split_and!; (rewrite decode_descending_encode; [reflexivity|unfold is_i64; lia|lia|]);
    repeat apply Forall_app_2; try done; apply encode_signed_ok; unfold is_i64; lia.
Qed.

Lemma decode_encoded d rest enc :
  wf d → bytes_ok rest → EncodedInDocDbFormat d = Ok enc →
  DecodeFrom (enc ++ rest) = Ok (d, rest).
Proof.
  intros Hd Hr Henc. destruct (field_ranges d Hd) as (He & Hl & Hw).
  destruct (encoded_form d Hd) as (s & pre & b & E & Hs & Hlen & Hsplit & Hb).
  rewrite Henc in E. injection E as ->.
  assert (byte_before (varints d s ++ rest) rest = Ok b) as Hbb.
  { unfold byte_before. rewrite length_app, Nat.add_sub, take_app_length, Hsplit.
    by rewrite last_snoc. }
  destruct (decode_varints d s rest) as (s1 & s2 & s3 & E1 & E2 & E3 & E4); [done|lia|done|].
  unfold DecodeFrom. rewrite E1; cbn [obind]. rewrite E2; cbn [obind]. rewrite E3; cbn [obind].
  rewrite E4; cbn [obind]. rewrite Hbb, decode_micros by done. cbn [obind].
  unfold stored_write_id. rewrite (proj2 (Z.ltb_ge _ _)) by lia.
  rewrite Hb, length_app. replace (Z.of_nat _) with s by lia. rewrite Z.eqb_refl. cbn [negb].
  rewrite Z.shiftr_div_pow2 by done. change (2 ^ kNumBitsForHybridTimeSize) with 32.
  replace (32 * (write_id_ d + 1) + (31 - s)) with (31 - s + (write_id_ d + 1) * 32) by lia.
  rewrite Z.div_add, Z.div_small by lia. rewrite u32_small by (unfold is_u32; lia).
  destruct d as [ht w]. cbn [hybrid_time_ write_id_]. do 3 f_equal. lia.
Qed.

Lemma encoded_ok d enc : wf d → EncodedInDocDbFormat d = Ok enc → bytes_ok enc.
Proof.
  intros Hd Henc. destruct (field_ranges d Hd) as (He & Hl & Hw).
  destruct (encoded_form d Hd) as (s & _ & _ & E & Hs & _). rewrite Henc in E. injection E as ->.
  unfold varints, stored_write_id, bytes_ok. rewrite !Forall_app.
  split_and!; apply encode_signed_ok; unfold is_i64; lia.
Qed.

Lemma doc_CompareTo_eq d d' :
  CompareTo d d' =
  match hybrid_time_ d ?= hybrid_time_ d' with
  | Eq => write_id_ d ?= write_id_ d'
  | c => c
  end.
Proof.
  unfold CompareTo. change CompareUsingLessThan with HybridTime.CompareTo.
  rewrite !HybridTime.CompareTo_eq. by destruct (hybrid_time_ d ?= hybrid_time_ d').
Qed.

(** The encoding is prefix free and sorts later times first. *)
Lemma encoded_compare d d' e e' x y :
  wf d → wf d' → EncodedInDocDbFormat d = Ok e → EncodedInDocDbFormat d' = Ok e' →
  bytes_compare (e ++ x) (e' ++ y) =
  match CompareTo d' d with Eq => bytes_compare x y | c => c end.
Proof.
  intros Hd Hd' He He'. destruct (field_ranges d Hd) as (R1 & R2 & R3).
  destruct (field_ranges d' Hd') as (R1' & R2' & R3').
  destruct (encoded_form d Hd) as (s & _ & _ & E & Hs & _ & _).
  destruct (encoded_form d' Hd') as (s' & _ & _ & E' & Hs' & _ & _).
  rewrite doc_CompareTo_eq, <- HybridTime.CompareTo_eq, HybridTime.CompareTo_components.
  destruct (decide (d = d')) as [<-|Hne].
  { rewrite He in He'. injection He' as <-. rewrite !Z.compare_refl. apply bytes_compare_app_same. }
  rewrite He in E. injection E as ->. rewrite He' in E'. injection E' as ->.
  unfold varints. rewrite <- !app_assoc.
  rewrite !encode_signed_compare by (unfold is_i64, stored_write_id; lia).
  rewrite Z.compare_refl, !Z.compare_opp. unfold epoch_micros.
  rewrite <- !Z.add_opp_r, !(Z.add_comm _ (- _)), Z.add_compare_mono_l.
  destruct (_ ?= _) eqn:Ep; try done. apply Z.compare_eq in Ep.
  destruct (HybridTime.GetLogicalValue (hybrid_time_ d') ?= _) eqn:El; try done.
  apply Z.compare_eq in El.
  assert (hybrid_time_ d = hybrid_time_ d') as Eh.
  { rewrite (HybridTime.components (hybrid_time_ d)), (HybridTime.components (hybrid_time_ d')).
    congruence. }
  assert (write_id_ d ≠ write_id_ d') as Hw.
  { intros Ew. apply Hne. destruct d, d'. simpl in *. congruence. }
  unfold stored_write_id. destruct (Z.compare_spec (write_id_ d') (write_id_ d)) as [?|Hlt|Hgt].
  - congruence.
  - by rewrite (proj2 (Z.compare_lt_iff _ _)) by lia.
  - by rewrite (proj2 (Z.compare_gt_iff _ _)) by lia.
Qed.

Lemma encoded_size_at_end d key enc :
  wf d → EncodedInDocDbFormat d = Ok enc → key ≠ [] →
  CheckAndGetEncodedSize (key ++ enc) = Ok (Z.of_nat (length enc)).
Proof.
  intros Hd E Hk. destruct (encoded_form d Hd) as (s & pre & b & E' & Hs & Hlen & Hsp & Hb).
  rewrite E in E'. injection E' as ->.
  assert (GetEncodedSize (key ++ varints d s) = s) as Hsz.
  { unfold GetEncodedSize. by rewrite Hsp, app_assoc, last_snoc, Hb. }
  assert (0 < length key)%nat by (destruct key; simpl; [done|lia]).
  unfold CheckAndGetEncodedSize, CheckEncodedSize. rewrite Hsz, length_app.
  change kMaxBytesPerEncodedHybridTime with 30.
  rewrite (proj2 (Z.eqb_neq _ _)), !(proj2 (Z.leb_le _ _)), (proj2 (Z.ltb_lt _ _)) by lia.
  by rewrite <- Hlen.
Qed.

Lemma fully_decode_encoded d enc :
  wf d → EncodedInDocDbFormat d = Ok enc → FullyDecodeFrom enc = Ok d.
Proof.
  intros Hd E. unfold FullyDecodeFrom. rewrite <- (app_nil_r enc).
  by rewrite (decode_encoded d []); [|done|constructor|done].
Qed.

Lemma decode_from_end_encoded d key enc :
  wf d → EncodedInDocDbFormat d = Ok enc → key ≠ [] →
  DecodeFromEnd (key ++ enc) = Ok (d, key).
Proof.
  intros Hd E Hk. unfold DecodeFromEnd. rewrite (encoded_size_at_end d) by done. cbn [obind].
  rewrite Nat2Z.id, length_app, Nat.add_sub, drop_app_length, take_app_length.
  by rewrite (fully_decode_encoded d).
Qed.

(** ** Properties *)

(** Every document hybrid time encodes to between 4 and 17 bytes, within
    the 30-byte buffer of [AppendEncodedInDocDbFormat]; [DecodeFrom] on the
    encoding followed by any bytes returns the time and those bytes. *)
Theorem doc_ht_roundtrip (d : t) (rest : bytes) :
  wf d → bytes_ok rest →
  ∃ enc, EncodedInDocDbFormat d = Ok enc ∧
    4 <= Z.of_nat (length enc) <= 17 ∧ Z.of_nat (length enc) < kMaxBytesPerEncodedHybridTime ∧
    DecodeFrom (enc ++ rest) = Ok (d, rest) ∧ FullyDecodeFrom enc = Ok d.
Proof.
  intros Hd Hr. destruct (encoded_form d Hd) as (s & _ & _ & E & Hs & Hlen & _).
  exists (varints d s). rewrite <- Hlen. unfold kMaxBytesPerEncodedHybridTime.
  split_and!; try done; try lia.
  - by apply decode_encoded.
  - by apply fully_decode_encoded.
Qed.

Definition sample : t := mk (HybridTime.FromMicrosecondsAndLogicalValue 1600000000000000 7) 3.

Lemma sample_wf : wf sample.
Proof. split; vm_compute; done. Qed.

Lemma doc_ht_roundtrip_witness :
  ∃ enc, EncodedInDocDbFormat sample = Ok enc ∧ DecodeFrom (enc ++ [1; 2]) = Ok (sample, [1; 2]).
Proof.
  destruct (doc_ht_roundtrip sample [1; 2]) as (enc & E & _ & _ & D & _);
    [exact sample_wf | bytes_done | exact (ex_intro _ enc (conj E D))].
Defined.

(** The encoding can be taken off the end of any non-empty key: [DecodeFromEnd]
    finds its size in the last byte, returns the time and strips it. *)
Theorem doc_ht_decode_from_end (d : t) (key enc : bytes) :
  wf d → EncodedInDocDbFormat d = Ok enc → key ≠ [] →
  DecodeFromEnd (key ++ enc) = Ok (d, key).
Proof. by apply decode_from_end_encoded. Qed.

Lemma doc_ht_decode_from_end_witness :
  ∃ enc, EncodedInDocDbFormat sample = Ok enc ∧ DecodeFromEnd ([35] ++ enc) = Ok (sample, [35]).
Proof.
  destruct (encoded_form sample sample_wf) as (s & _ & _ & E & _).
  refine (ex_intro _ (varints sample s) (conj E _)).
  exact (doc_ht_decode_from_end sample [35] (varints sample s) sample_wf E ltac:(discriminate)).
Defined.

(** C23: byte-wise comparison of two keys that end in encoded times after a common
    prefix orders the later time first: it is [CompareTo] with its arguments
    swapped, and the encodings are prefix free. *)
Theorem doc_ht_descending_order (d d' : t) (e e' key x y : bytes) :
  wf d → wf d' → EncodedInDocDbFormat d = Ok e → EncodedInDocDbFormat d' = Ok e' →
  bytes_compare (key ++ e ++ x) (key ++ e' ++ y) =
  match CompareTo d' d with Eq => bytes_compare x y | c => c end.
Proof. intros. rewrite bytes_compare_app_same. by apply encoded_compare. Qed.

Lemma doc_ht_descending_order_witness :
  ∃ e e', EncodedInDocDbFormat sample = Ok e ∧ EncodedInDocDbFormat kMax = Ok e' ∧
    bytes_compare ([7] ++ e ++ []) ([7] ++ e' ++ []) = Gt.
Proof.
  assert (wf kMax) as Hm by (split; vm_compute; done).
  destruct (encoded_form sample sample_wf) as (s & _ & _ & E & _).
  destruct (encoded_form kMax Hm) as (s' & _ & _ & E' & _).
  refine (ex_intro _ (varints sample s) (ex_intro _ (varints kMax s') (conj E (conj E' _)))).
  exact (doc_ht_descending_order sample kMax _ _ [7] [] [] sample_wf Hm E E').
Defined.

End DocHybridTime.
