(* ===== verification/ValueType.v ===== *)
(** * Value and intent types

    Models docdb/value_type.h: the byte that tags every component of a DocDB key
    and every value, and the intent types of the transaction layer.  A variable
    of the C++ enum is an [int] that may hold a byte outside the enum, hence a
    [Z]; the enumerators are the constructors of [ValueType], coerced to their
    codes. *)

From S2P Require Import Prelude.

Module ValueType.

Inductive t :=
  | kLowest | kTransactionApplyState | kExternalTransactionId | kObsoleteIntentPrefix
  | kIntentTypeSet | kObsoleteIntentTypeSet | kObsoleteIntentType | kGreaterThanIntentType
  | kGroupEnd | kHybridTime | kNullLow | kCounter | kSSForward | kSSReverse | kRedisSet
  | kRedisList | kRedisTS | kRedisSortedSet | kInetaddress | kInetaddressDescending
  | kPgTableOid | kJsonb | kFrozen | kFrozenDescending | kArray | kVarInt | kFloat | kDouble
  | kDecimal | kFalse | kUInt16Hash | kInt32 | kInt64 | kSystemColumnId | kColumnId
  | kDoubleDescending | kFloatDescending | kUInt32 | kString | kTrue | kUInt64 | kTombstone
  | kExternalIntents | kArrayIndex | kUuid | kUuidDescending | kStringDescending
  | kInt64Descending | kTimestampDescending | kDecimalDescending | kInt32Descending
  | kVarIntDescending | kUInt32Descending | kTrueDescending | kFalseDescending
  | kUInt64Descending | kMergeFlags | kRowLock | kBitSet | kTimestamp | kTtl | kUserTimestamp
  | kWriteId | kTransactionId | kTableId | kObject | kNullHigh | kGroupEndDescending | kHighest
  | kInvalid | kMaxByte.

(** The enumerator values; ['\xff'] is a negative [char]. *)
Definition code (v : t) : Z :=
  match v with
  | kLowest => 0 | kTransactionApplyState => 7 | kExternalTransactionId => 8
  | kObsoleteIntentPrefix => 10 | kIntentTypeSet => 13 | kObsoleteIntentTypeSet => 15
  | kObsoleteIntentType => 20 | kGreaterThanIntentType => 21 | kGroupEnd => 33
  | kHybridTime => 35 | kNullLow => 36 | kCounter => 37 | kSSForward => 38 | kSSReverse => 39
  | kRedisSet => 40 | kRedisList => 41 | kRedisTS => 43 | kRedisSortedSet => 44
  | kInetaddress => 45 | kInetaddressDescending => 46 | kPgTableOid => 48 | kJsonb => 50
  | kFrozen => 60 | kFrozenDescending => 62 | kArray => 65 | kVarInt => 66 | kFloat => 67
  | kDouble => 68 | kDecimal => 69 | kFalse => 70 | kUInt16Hash => 71 | kInt32 => 72
  | kInt64 => 73 | kSystemColumnId => 74 | kColumnId => 75 | kDoubleDescending => 76
  | kFloatDescending => 77 | kUInt32 => 79 | kString => 83 | kTrue => 84 | kUInt64 => 85
  | kTombstone => 88 | kExternalIntents => 90 | kArrayIndex => 91 | kUuid => 95
  | kUuidDescending => 96 | kStringDescending => 97 | kInt64Descending => 98
  | kTimestampDescending => 99 | kDecimalDescending => 100 | kInt32Descending => 101
  | kVarIntDescending => 102 | kUInt32Descending => 103 | kTrueDescending => 104
  | kFalseDescending => 105 | kUInt64Descending => 106 | kMergeFlags => 107 | kRowLock => 108
  | kBitSet => 109 | kTimestamp => 115 | kTtl => 116 | kUserTimestamp => 117 | kWriteId => 119
  | kTransactionId => 120 | kTableId => 121 | kObject => 123 | kNullHigh => 124
  | kGroupEndDescending => 125 | kHighest => 126 | kInvalid => 127 | kMaxByte => -1
  end.

Coercion code : t >-> Z.

(** The enumerator a variable holds, for a [switch] over it. *)
Definition all : list t :=
  [kLowest; kTransactionApplyState; kExternalTransactionId; kObsoleteIntentPrefix; kIntentTypeSet;
   kObsoleteIntentTypeSet; kObsoleteIntentType; kGreaterThanIntentType; kGroupEnd; kHybridTime; kNullLow;
   kCounter; kSSForward; kSSReverse; kRedisSet; kRedisList; kRedisTS; kRedisSortedSet; kInetaddress;
   kInetaddressDescending; kPgTableOid; kJsonb; kFrozen; kFrozenDescending; kArray; kVarInt; kFloat; kDouble;
   kDecimal; kFalse; kUInt16Hash; kInt32; kInt64; kSystemColumnId; kColumnId; kDoubleDescending;
   kFloatDescending; kUInt32; kString; kTrue; kUInt64; kTombstone; kExternalIntents; kArrayIndex; kUuid;
   kUuidDescending; kStringDescending; kInt64Descending; kTimestampDescending; kDecimalDescending;
   kInt32Descending; kVarIntDescending; kUInt32Descending; kTrueDescending; kFalseDescending;
   kUInt64Descending; kMergeFlags; kRowLock; kBitSet; kTimestamp; kTtl; kUserTimestamp; kWriteId;
   kTransactionId; kTableId; kObject; kNullHigh; kGroupEndDescending; kHighest; kInvalid; kMaxByte].

Definition enumerator (value_type : Z) : option t := List.find (λ v, code v =? value_type) all.

Lemma enumerator_code (v : t) : enumerator v = Some v.
Proof. by destruct v. Qed.

Lemma enumerator_some z (v : t) : enumerator z = Some v → z = v.
Proof. intros [_ H]%List.find_some. by apply Z.eqb_eq in H. Qed.

#[export] Instance t_eq_dec : EqDecision t.
Proof.
  intros v w. destruct (Z.eq_dec v w) as [E|E]; [left|right; congruence].
  apply (f_equal enumerator) in E. rewrite !enumerator_code in E. congruence.
Defined.

Lemma code_inj (v w : t) : code v = code w → v = w.
Proof. intros E. apply (f_equal enumerator) in E. rewrite !enumerator_code in E. congruence. Qed.

Definition IsObjectType (value_type : Z) : bool :=
  (value_type =? kRedisTS) || (value_type =? kObject) ||
  (value_type =? kRedisSet) || (value_type =? kRedisSortedSet) ||
  (value_type =? kSSForward) || (value_type =? kSSReverse) ||
  (value_type =? kRedisList).

Definition IsCollectionType (value_type : Z) : bool :=
  IsObjectType value_type || (value_type =? kArray).

Definition kMinPrimitiveValueType : t := kNullLow.
Definition kMaxPrimitiveValueType : t := kNullHigh.

Definition IsPrimitiveValueType (value_type : Z) : bool :=
  (kMinPrimitiveValueType <=? value_type) && (value_type <=? kMaxPrimitiveValueType) &&
  negb (IsCollectionType value_type) && negb (value_type =? kTombstone) ||
  (value_type =? kTransactionApplyState) || (value_type =? kExternalTransactionId).

Definition IsSpecialValueType (value_type : Z) : bool :=
  (value_type =? kLowest) || (value_type =? kHighest) || (value_type =? kMaxByte) ||
  (value_type =? kIntentTypeSet) || (value_type =? kGreaterThanIntentType).

Definition IsPrimitiveOrSpecialValueType (value_type : Z) : bool :=
  IsPrimitiveValueType value_type || IsSpecialValueType value_type.

(** [DecodeValueType] of a slice. *)
Definition DecodeValueType (value : bytes) : Z :=
  match value with [] => kInvalid | b :: _ => b end.

(** [DecodeValueType] of a [char], which is signed. *)
Definition DecodeValueTypeByte (b : Z) : Z := if b <? 128 then b else b - 256.

Definition ConsumeValueType (slice : bytes) : Z * bytes :=
  match slice with [] => (code kInvalid, []) | b :: rest => (b, rest) end.

Definition IsMergeRecord (value : bytes) : bool := DecodeValueType value =? kMergeFlags.

(** [static_cast<char>(value_type)] as the byte stored in a buffer. *)
Definition as_char (value_type : Z) : Z := u8 value_type.

End ValueType.

Export (coercions) ValueType.

(** ** Intent types *)

Module IntentType.

Definition kWeakIntentFlag : Z := 0.
Definition kStrongIntentFlag : Z := 2.
Definition kReadIntentFlag : Z := 0.
Definition kWriteIntentFlag : Z := 1.

Inductive t := kWeakRead | kWeakWrite | kStrongRead | kStrongWrite.

Definition code (i : t) : Z :=
  match i with
  | kWeakRead => Z.lor kWeakIntentFlag kReadIntentFlag
  | kWeakWrite => Z.lor kWeakIntentFlag kWriteIntentFlag
  | kStrongRead => Z.lor kStrongIntentFlag kReadIntentFlag
  | kStrongWrite => Z.lor kStrongIntentFlag kWriteIntentFlag
  end.

(** [kIntentTypeList], [kIntentTypeMapSize], [kIntentTypeSetMapSize]. *)
Definition kIntentTypeList : list t := [kWeakRead; kWeakWrite; kStrongRead; kStrongWrite].
Definition kIntentTypeMapSize : Z := 4.
Definition kIntentTypeSetMapSize : Z := Z.shiftl 1 kIntentTypeMapSize.

End IntentType.

(** ** Sorting of the tags *)

(** Every tag a key component may start with is above the end-of-group and
    hybrid-time tags, so a key sorts before its extensions. *)
Lemma terminators_sort_first (v : ValueType.t) :
  ValueType.IsPrimitiveValueType v = true → v ≠ ValueType.kTransactionApplyState →
  v ≠ ValueType.kExternalTransactionId →
  ValueType.kGroupEnd < ValueType.kHybridTime < v ∧ v < ValueType.kHighest.
Proof. by destruct v; simpl; (done || lia). Qed.

(** Intent records sort before the regular records of the same key. *)
Lemma intents_sort_first (v : ValueType.t) :
  ValueType.IsPrimitiveValueType v = true → v ≠ ValueType.kTransactionApplyState →
  v ≠ ValueType.kExternalTransactionId →
  ValueType.kObsoleteIntentPrefix < ValueType.kIntentTypeSet < ValueType.kGreaterThanIntentType ∧
  ValueType.kGreaterThanIntentType < v.
Proof. by destruct v; simpl; (done || lia). Qed.
