(* ===== verification/KvUtil.v ===== *)
(** * Key encodings

    Models util/kv_util.h (integers and floating-point numbers inside keys),
    docdb/doc_kv_util.h and docdb/doc_kv_util.cc (strings and hybrid times
    inside keys) and the appending operations of [KeyBytes] in
    docdb/key_bytes.h.  Every function that appends to a buffer takes the buffer
    and returns the longer one; a decoder returns what is left of its slice. *)

From S2P Require Import Prelude Slice FastVarint HybridTime DocHybridTime ValueType.

(** ** Fixed-width numbers *)

Module KvUtil.

(** [BigEndian::StoreN], [BigEndian::LoadN]: [n] bytes. *)
Definition Store (n : nat) (v : Z) : bytes := be_bytes n v.
Definition Load (n : nat) (p : bytes) : outcome Z :=
  if decide (n ≤ length p)%nat then Ok (be_value (take n p)) else UB.

Definition kInt64SignBitFlipMask : Z := 0x8000000000000000.
Definition kInt32SignBitFlipMask : Z := 0x80000000.

Definition AppendInt32ToKey (val : Z) (dest : bytes) : bytes :=
  dest ++ Store 4 (Z.lxor (u32 val) kInt32SignBitFlipMask).
Definition AppendInt64ToKey (val : Z) (dest : bytes) : bytes :=
  dest ++ Store 8 (Z.lxor (u64 val) kInt64SignBitFlipMask).
Definition AppendBigEndianUInt32 (u : Z) (dest : bytes) : bytes := dest ++ Store 4 u.
Definition AppendBigEndianUInt64 (u : Z) (dest : bytes) : bytes := dest ++ Store 8 u.

(** A [float] or [double] is its bit pattern. *)
Definition AppendFloatToKey (val : Z) (dest : bytes) (descending : bool) : bytes :=
  let v := val in
  let v := if negb (Z.shiftr v 31 =? 0) then u32 (Z.lnot v) else Z.lxor v kInt32SignBitFlipMask in
  let v := if descending then u32 (Z.lnot v) else v in
  dest ++ Store 4 v.
Definition AppendDoubleToKey (val : Z) (dest : bytes) (descending : bool) : bytes :=
  let v := val in
  let v := if negb (Z.shiftr v 63 =? 0) then u64 (Z.lnot v) else Z.lxor v kInt64SignBitFlipMask in
  let v := if descending then u64 (Z.lnot v) else v in
  dest ++ Store 8 v.

(** The result is [int64_t] although the key holds an [int32_t]; the callers
    convert it to [int32_t]. *)
Definition DecodeInt32FromKey (slice : bytes) : outcome Z :=
  let! v := Load 4 slice in Ok (Z.lxor v kInt32SignBitFlipMask).
Definition DecodeInt64FromKey (slice : bytes) : outcome Z :=
  let! v := Load 8 slice in Ok (i64 (Z.lxor v kInt64SignBitFlipMask)).

Definition DecodeFloatFromKey (slice : bytes) (descending : bool) : outcome Z :=
  let! v := Load 4 slice in
  let v := if descending then u32 (Z.lnot v) else v in
  Ok (if negb (Z.shiftr v 31 =? 0) then Z.lxor v kInt32SignBitFlipMask else u32 (Z.lnot v)).
Definition DecodeDoubleFromKey (slice : bytes) (descending : bool) : outcome Z :=
  let! v := Load 8 slice in
  let v := if descending then u64 (Z.lnot v) else v in
  Ok (if negb (Z.shiftr v 63 =? 0) then Z.lxor v kInt64SignBitFlipMask else u64 (Z.lnot v)).

End KvUtil.

(** ** Strings and hybrid times *)

Module DocKvUtil.
Import KvUtil.

Definition AppendUInt16ToKey (val : Z) (dest : bytes) : bytes := dest ++ Store 2 val.
Definition AppendUInt32ToKey (val : Z) (dest : bytes) : bytes := dest ++ Store 4 val.
Definition AppendUInt64ToKey (val : Z) (dest : bytes) : bytes := dest ++ Store 8 val.
Definition AppendColumnIdToKey (val : Z) (dest : bytes) : bytes :=
  FastAppendSignedVarIntToBuffer val dest.

(** The template parameter [END_OF_STRING] is [0] or [255]. *)
Definition AppendEncodedStrToKey (END_OF_STRING : Z) (s dest : bytes) : bytes :=
  if (END_OF_STRING =? 0) && negb (existsb (λ c, c =? 0) s) then dest ++ s
  else
    foldl (λ dest c,
      if c =? 0 then (dest ++ [END_OF_STRING]) ++ [Z.lxor END_OF_STRING 1]
      else dest ++ [Z.lxor END_OF_STRING c]) dest s.

Definition AppendZeroEncodedStrToKey := AppendEncodedStrToKey 0.
Definition AppendComplementZeroEncodedStrToKey := AppendEncodedStrToKey 255.

Definition TerminateEncodedKeyStr (A : Z) (dest : bytes) : bytes := (dest ++ [A]) ++ [A].
Definition TerminateZeroEncodedKeyStr := TerminateEncodedKeyStr 0.
Definition TerminateComplementZeroEncodedKeyStr := TerminateEncodedKeyStr 255.

Definition ZeroEncodeAndAppendStrToKey (s dest : bytes) : bytes :=
  TerminateZeroEncodedKeyStr (AppendZeroEncodedStrToKey s dest).
Definition ComplementZeroEncodeAndAppendStrToKey (s dest : bytes) : bytes :=
  TerminateComplementZeroEncodedKeyStr (AppendComplementZeroEncodedStrToKey s dest).
Definition ZeroEncodeStr (s : bytes) : bytes := ZeroEncodeAndAppendStrToKey s [].

(** The loop of [DecodeEncodedStr] over the rest of the slice; the result is the
    decoded string, in order, and the slice after it.  A slice that ends without
    a terminator is accepted. *)
Fixpoint DecodeEncodedStr (END_OF_STRING : Z) (slice result : bytes) : outcome (bytes * bytes) :=
  match slice with
  | [] => Ok (result, [])
  | c :: p =>
      if c =? END_OF_STRING then
        match p with
        | [] => Err Corruption
        | c' :: p' =>
            if c' =? END_OF_STRING then Ok (result, p')
            else if c' =? Z.lxor END_OF_STRING 1
            then DecodeEncodedStr END_OF_STRING p' (result ++ [0])
            else Err Corruption
        end
      else DecodeEncodedStr END_OF_STRING p (result ++ [Z.lxor c END_OF_STRING])
  end.

Definition DecodeZeroEncodedStrSlice (slice : bytes) := DecodeEncodedStr 0 slice [].
Definition DecodeComplementZeroEncodedStr (slice : bytes) := DecodeEncodedStr 255 slice [].

(** [DecodeZeroEncodedStr(string)]. *)
Definition DecodeZeroEncodedStr (encoded_str : bytes) : outcome bytes :=
  match DecodeZeroEncodedStrSlice encoded_str with
  | Ok (result, slice) => check! bool_decide (slice = []) in Ok result
  | Err _ => Fatal
  | Fatal => Fatal
  | UB => UB
  end.

Definition CheckHybridTimeSizeAndValueType (key : bytes) : outcome Z :=
  let! ht_byte_size := DocHybridTime.CheckAndGetEncodedSize key in
  let hybrid_time_value_type_offset := Z.of_nat (length key) - ht_byte_size - 1 in
  match key !! Z.to_nat hybrid_time_value_type_offset with
  | None => UB
  | Some b =>
      if negb (ValueType.DecodeValueTypeByte b =? ValueType.kHybridTime) then Err Corruption
      else Ok ht_byte_size
  end.

(** The bytes are inverted word by word in a buffer of whole words; the bytes
    after the slice are not read. *)
Definition DecodeInvertedDocHt (key_slice : bytes) : outcome DocHybridTime.t :=
  if bool_decide (key_slice = []) ||
     (DocHybridTime.kMaxBytesPerEncodedHybridTime + 1 <? Z.of_nat (length key_slice))
  then Err Corruption
  else
    let key_slice := (λ b, u8 (Z.lnot b)) <$> key_slice in
    match key_slice with
    | [] => UB
    | b :: rest =>
        if negb (b =? ValueType.kHybridTime) then Err Corruption
        else let! (doc_ht, _) := DocHybridTime.DecodeFrom rest in Ok doc_ht
    end.

End DocKvUtil.

(** ** [KeyBytes] *)

Module KeyBytes.
Import KvUtil DocKvUtil.

(** The state is the buffer [data_]; an operation returns the buffer after it. *)
Definition AppendValueType (value_type : Z) (data_ : bytes) : bytes :=
  data_ ++ [ValueType.as_char value_type].

Definition AppendValueTypeBeforeGroupEnd (value_type : Z) (data_ : bytes) : bytes :=
  match last data_ with
  | Some b =>
      if negb (b =? ValueType.kGroupEnd)
      then AppendValueType ValueType.kGroupEnd (AppendValueType value_type data_)
      else (removelast data_ ++ [ValueType.as_char value_type]) ++ [ValueType.code ValueType.kGroupEnd]
  | None => AppendValueType ValueType.kGroupEnd (AppendValueType value_type data_)
  end.

Definition AppendRawBytes (slice data_ : bytes) : bytes := data_ ++ slice.
Definition AppendString := ZeroEncodeAndAppendStrToKey.
Definition AppendDescendingString := ComplementZeroEncodeAndAppendStrToKey.
Definition AppendDecimal (encoded data_ : bytes) : bytes := data_ ++ encoded.

(** [encoded[0]] of an empty string is its terminating zero. *)
Definition AppendDecimalDescending (encoded data_ : bytes) : bytes :=
  if nth 0 encoded 0 =? 128 then data_ ++ [nth 0 encoded 0]
  else data_ ++ ((λ c, u8 (Z.lnot c)) <$> encoded).
Definition AppendVarInt (encoded data_ : bytes) : bytes := data_ ++ encoded.
Definition AppendVarIntDescending (encoded data_ : bytes) : bytes :=
  if nth 0 encoded 0 =? 128 then data_ ++ [nth 0 encoded 0]
  else data_ ++ ((λ c, u8 (Z.lnot c)) <$> encoded).

Definition AppendInt64 := AppendInt64ToKey.
Definition AppendInt32 := AppendInt32ToKey.
Definition AppendUInt64 := AppendUInt64ToKey.
Definition AppendUInt32 := AppendUInt32ToKey.
Definition AppendUInt16 (x : Z) := AppendUInt16ToKey (u16 x).
Definition AppendDescendingUInt64 (x : Z) := AppendUInt64ToKey (u64 (Z.lnot x)).
Definition AppendDescendingUInt32 (x : Z) := AppendUInt32ToKey (u32 (Z.lnot x)).
Definition AppendDescendingInt64 (x : Z) := AppendInt64ToKey (Z.lnot x).
Definition AppendDescendingInt32 (x : Z) := AppendInt32ToKey (Z.lnot x).
Definition AppendFloat (x : Z) (data_ : bytes) := AppendFloatToKey x data_ false.
Definition AppendDescendingFloat (x : Z) (data_ : bytes) := AppendFloatToKey x data_ true.
Definition AppendDouble (x : Z) (data_ : bytes) := AppendDoubleToKey x data_ false.
Definition AppendDescendingDouble (x : Z) (data_ : bytes) := AppendDoubleToKey x data_ true.
Definition AppendColumnId := AppendColumnIdToKey.
Definition AppendUInt64AsVarInt (value : Z) (data_ : bytes) : bytes :=
  AppendRawBytes (FastEncodeUnsignedVarInt value) data_.
Definition AppendHybridTime := DocHybridTime.AppendEncodedInDocDbFormat.

Definition RemoveValueTypeSuffix (value_type : Z) (data_ : bytes) : outcome bytes :=
  match last data_ with
  | None => Fatal
  | Some b => check! (b =? ValueType.as_char value_type) in Ok (removelast data_)
  end.

(** [AppendDocHybridTime(doc_ht, key)]. *)
Definition AppendDocHybridTime (doc_ht : DocHybridTime.t) (key : bytes) : outcome bytes :=
  DocHybridTime.AppendEncodedInDocDbFormat doc_ht (AppendValueType ValueType.kHybridTime key).

End KeyBytes.

(** ** Order of fixed-width numbers *)

(** Comparison of the big-endian bytes of two numbers followed by anything. *)
Lemma be_bytes_compare (n : nat) a b x y :
  0 <= a < 2 ^ (8 * Z.of_nat n) → 0 <= b < 2 ^ (8 * Z.of_nat n) →
  bytes_compare (be_bytes n a ++ x) (be_bytes n b ++ y) =
  match a ?= b with Eq => bytes_compare x y | c => c end.
Proof.
  intros Ha Hb. assert (∀ a b, 0 <= a < 2 ^ (8 * Z.of_nat n) → 0 <= b < 2 ^ (8 * Z.of_nat n) →
    a < b → below (be_bytes n a) (be_bytes n b)) as Hbelow.
  { intros a' b' Ha' Hb' Hlt. rewrite <- (Nat2Z.id n).
    apply below_be_bytes; try lia; rewrite ?Nat2Z.id; try done. nia. }
  destruct (Z.compare_spec a b) as [->|Hlt|Hgt].
  - apply bytes_compare_app_same.
  - apply below_compare; auto using be_bytes_ok.
  - rewrite bytes_compare_antisym, below_compare; auto using be_bytes_ok.
Qed.

Lemma lxor_top k v :
  0 <= k → 0 <= v < 2 ^ (k + 1) →
  Z.lxor v (2 ^ k) = if v <? 2 ^ k then v + 2 ^ k else v - 2 ^ k.
Proof.
  intros Hk Hv. rewrite Z.pow_add_r in Hv by lia.
  assert (∀ r, 0 <= r < 2 ^ k → Z.lxor r (2 ^ k) = r + 2 ^ k) as Hr.
  { intros r Hr. symmetry. apply Z.add_nocarry_lxor.
    rewrite land_pow2, testbit_top by (rewrite ?Z.pow_add_r; lia).
    by rewrite (proj2 (Z.ltb_lt _ _)) by lia. }
  destruct (Z.ltb_spec v (2 ^ k)); [apply Hr; lia|].
  replace v with (Z.lxor (v - 2 ^ k) (2 ^ k)) at 1 by (rewrite Hr; lia).
  by rewrite Z.lxor_assoc, Z.lxor_nilpotent, Z.lxor_0_r.
Qed.

Lemma lnot_wrap w v : 0 <= v < 2 ^ w → Z.lnot v mod 2 ^ w = 2 ^ w - 1 - v.
Proof.
  intros Hv. unfold Z.lnot. rewrite <- (Z_mod_plus_full _ 1), Z.mod_small; lia.
Qed.

(** Numbers of [w] bits: flipping the sign bit of a two's complement number adds
    half the range; the floating-point encoding maps a bit pattern to its rank
    in the order of sign and magnitude. *)
Definition sign_flip (w v : Z) : Z := Z.lxor (v mod 2 ^ w) (2 ^ (w - 1)).

Lemma sign_flip_eq w v :
  1 <= w → - 2 ^ (w - 1) <= v < 2 ^ (w - 1) → sign_flip w v = v + 2 ^ (w - 1).
Proof.
  intros Hw Hv. unfold sign_flip.
  assert (2 ^ w = 2 * 2 ^ (w - 1)) as Hp by (rewrite <- Z.pow_succ_r by lia; f_equal; lia).
  rewrite lxor_top; [|lia|rewrite Z.sub_add; apply Z.mod_pos_bound; lia].
  destruct (Z.ltb_spec v 0).
  - rewrite <- (Z_mod_plus_full v 1), Z.mod_small by lia. case_test; lia.
  - rewrite Z.mod_small by lia. case_test; lia.
Qed.

Lemma sign_flip_back w v :
  1 <= w → 0 <= v < 2 ^ w →
  Z.lxor v (2 ^ (w - 1)) = if v <? 2 ^ (w - 1) then v + 2 ^ (w - 1) else v - 2 ^ (w - 1).
Proof. intros. apply lxor_top; [lia|]. by rewrite Z.sub_add. Qed.

(** The position of a floating-point bit pattern in the order of its keys. *)
Definition float_key (w v : Z) : Z :=
  if v <? 2 ^ (w - 1) then v + 2 ^ (w - 1) else 2 ^ w - 1 - v.

(** Sign and magnitude as one number; [-0] is just below [+0]. *)
Definition float_rank (w v : Z) : Z :=
  if v <? 2 ^ (w - 1) then v else - (v - 2 ^ (w - 1)) - 1.

Lemma float_key_rank w v : 1 <= w → float_key w v = float_rank w v + 2 ^ (w - 1).
Proof.
  intros. assert (2 ^ w = 2 * 2 ^ (w - 1)) as Hp by (rewrite <- Z.pow_succ_r by lia; f_equal; lia).
  unfold float_key, float_rank. case_test; lia.
Qed.

Lemma float_key_range w v : 1 <= w → 0 <= v < 2 ^ w → 0 <= float_key w v < 2 ^ w.
Proof.
  intros. assert (2 ^ w = 2 * 2 ^ (w - 1)) as Hp by (rewrite <- Z.pow_succ_r by lia; f_equal; lia).
  unfold float_key. case_test; lia.
Qed.

(** The sign test of the code, [v >> (w - 1)]. *)
Lemma sign_test w v :
  1 <= w → 0 <= v < 2 ^ w → (Z.shiftr v (w - 1) =? 0) = (v <? 2 ^ (w - 1)).
Proof.
  intros. rewrite Z.shiftr_div_pow2 by lia. apply eq_iff_eq_true.
  rewrite Z.eqb_eq, Z.ltb_lt, Z.div_small_iff; lia.
Qed.

(** What [AppendFloatToKey] and [AppendDoubleToKey] compute, and its inverse. *)
Lemma float_key_code w v :
  1 <= w → 0 <= v < 2 ^ w →
  (if negb (Z.shiftr v (w - 1) =? 0) then Z.lnot v mod 2 ^ w else Z.lxor v (2 ^ (w - 1))) =
  float_key w v.
Proof.
  intros. rewrite sign_test, sign_flip_back, lnot_wrap by done. unfold float_key.
  by destruct (v <? 2 ^ (w - 1)).
Qed.

Lemma float_key_decode w v :
  1 <= w → 0 <= v < 2 ^ w →
  (let k := float_key w v in
   if negb (Z.shiftr k (w - 1) =? 0) then Z.lxor k (2 ^ (w - 1)) else Z.lnot k mod 2 ^ w) = v.
Proof.
  intros Hw Hv. cbv zeta. pose proof (float_key_range w v Hw Hv).
  assert (2 ^ w = 2 * 2 ^ (w - 1)) as Hp by (rewrite <- Z.pow_succ_r by lia; f_equal; lia).
  rewrite sign_test, sign_flip_back, lnot_wrap by done. unfold float_key in *.
  repeat (case_test; simpl); lia.
Qed.

(** ** Number keys *)

Module NumberKeys.
Import KvUtil KeyBytes.

Lemma int64_key v dest :
  is_i64 v → AppendInt64ToKey v dest = dest ++ be_bytes 8 (v + 2 ^ 63).
Proof.
  intros. unfold AppendInt64ToKey, Store, u64. change kInt64SignBitFlipMask with (2 ^ (64 - 1)).
  fold (sign_flip 64 v). by rewrite sign_flip_eq by (unfold is_i64 in *; lia).
Qed.

Lemma int32_key v dest :
  - 2 ^ 31 <= v < 2 ^ 31 → AppendInt32ToKey v dest = dest ++ be_bytes 4 (v + 2 ^ 31).
Proof.
  intros. unfold AppendInt32ToKey, Store, u32. change kInt32SignBitFlipMask with (2 ^ (32 - 1)).
  fold (sign_flip 32 v). by rewrite sign_flip_eq by lia.
Qed.

Lemma double_key v dest desc :
  is_u64 v →
  AppendDoubleToKey v dest desc =
  dest ++ be_bytes 8 (if desc then 2 ^ 64 - 1 - float_key 64 v else float_key 64 v).
Proof.
  intros Hv. unfold AppendDoubleToKey, u64, Store. change kInt64SignBitFlipMask with (2 ^ (64 - 1)).
  change 63 with (64 - 1). rewrite float_key_code by (done || lia).
  pose proof (float_key_range 64 v ltac:(lia) Hv). by destruct desc; rewrite ?lnot_wrap.
Qed.

Lemma float_key_bytes v dest desc :
  is_u32 v →
  AppendFloatToKey v dest desc =
  dest ++ be_bytes 4 (if desc then 2 ^ 32 - 1 - float_key 32 v else float_key 32 v).
Proof.
  intros Hv. unfold AppendFloatToKey, u32, Store. change kInt32SignBitFlipMask with (2 ^ (32 - 1)).
  change 31 with (32 - 1). rewrite float_key_code by (done || lia).
  pose proof (float_key_range 32 v ltac:(lia) Hv). by destruct desc; rewrite ?lnot_wrap.
Qed.

Lemma load_be_bytes n v rest :
  0 <= v < 2 ^ (8 * Z.of_nat n) → Load n (be_bytes n v ++ rest) = Ok v.
Proof.
  intros. unfold Load. rewrite decide_True by (rewrite length_app, length_be_bytes; lia).
  rewrite take_app_length' by (by rewrite length_be_bytes).
  by rewrite be_value_be_bytes, Z.mod_small.
Qed.

Lemma compare_add a b c : (a + c ?= b + c) = (a ?= b).
Proof. rewrite !(Z.add_comm _ c). apply Z.add_compare_mono_l. Qed.

Lemma compare_sub_rev a b c : (c - a ?= c - b) = (b ?= a).
Proof. rewrite <- !Z.add_opp_r, Z.add_compare_mono_l. apply Z.compare_opp. Qed.

(** Fixed-width signed integers.  Keys that agree up to a 64-bit (32-bit)
    integer and then hold different integers compare as the integers do, in
    reverse for the descending form, and decoding returns the integer. *)
Theorem integer_keys (a b : Z) (k x y : bytes) :
  (is_i64 a → is_i64 b →
     bytes_compare (AppendInt64 a k ++ x) (AppendInt64 b k ++ y) =
       match a ?= b with Eq => bytes_compare x y | c => c end ∧
     bytes_compare (AppendDescendingInt64 a k ++ x) (AppendDescendingInt64 b k ++ y) =
       match b ?= a with Eq => bytes_compare x y | c => c end ∧
     DecodeInt64FromKey (AppendInt64 a [] ++ x) = Ok a) ∧
  (- 2 ^ 31 <= a < 2 ^ 31 → - 2 ^ 31 <= b < 2 ^ 31 →
     bytes_compare (AppendInt32 a k ++ x) (AppendInt32 b k ++ y) =
       match a ?= b with Eq => bytes_compare x y | c => c end ∧
     bytes_compare (AppendDescendingInt32 a k ++ x) (AppendDescendingInt32 b k ++ y) =
       match b ?= a with Eq => bytes_compare x y | c => c end ∧
     DecodeInt32FromKey (AppendInt32 a [] ++ x) = Ok (u32 a)).
Proof.
  assert (∀ v, Z.lnot v = - 1 - v) as Hl by (intros; unfold Z.lnot; lia).
  unfold AppendInt64, AppendInt32, AppendDescendingInt64, AppendDescendingInt32. rewrite !Hl.
  split; intros Ha Hb; unfold is_i64 in *;
    rewrite ?int64_key, ?int32_key by (unfold is_i64; lia); rewrite <- !app_assoc;
    rewrite !bytes_compare_app_same, !be_bytes_compare by lia;
    rewrite !compare_add, compare_sub_rev; do 2 (split; [done|]);
    unfold DecodeInt64FromKey, DecodeInt32FromKey; cbn [app]; rewrite load_be_bytes by lia;
    cbn [obind]; f_equal.
  - change kInt64SignBitFlipMask with (2 ^ (64 - 1)). rewrite sign_flip_back by lia.
    transitivity (i64 a); [|by apply i64_small]. rewrite <- (i64_u64 a), <- i64_u64.
    f_equal. unfold u64. change (64 - 1) with 63. case_test.
    + rewrite <- (Z_mod_plus_full a 1).
      by replace (a + 2 ^ 63 + 2 ^ 63) with (a + 1 * 2 ^ 64) by lia.
    + by replace (a + 2 ^ 63 - 2 ^ 63) with a by lia.
  - change kInt32SignBitFlipMask with (2 ^ (32 - 1)). rewrite sign_flip_back by lia.
    unfold u32. change (32 - 1) with 31. case_test.
    + rewrite <- (Z_mod_plus_full a 1). symmetry. rewrite Z.mod_small; lia.
    + rewrite Z.mod_small; lia.
Qed.

Lemma integer_keys_witness :
  bytes_compare (AppendInt64 (-5) [1]) (AppendInt64 3 [1]) = Lt ∧
  bytes_compare (AppendDescendingInt32 (-5) [1]) (AppendDescendingInt32 3 [1]) = Gt ∧
  DecodeInt64FromKey (AppendInt64 (-5) [] ++ [9]) = Ok (-5).
Proof.
  destruct (integer_keys (-5) 3 [1] [] []) as [H64 H32].
  destruct (H64 ltac:(unfold is_i64; lia) ltac:(unfold is_i64; lia)) as (H1 & _ & _).
  destruct (H32 ltac:(lia) ltac:(lia)) as (_ & H2 & _).
  destruct (integer_keys (-5) (-5) [1] [9] []) as [H64' _].
  split_and!; [exact H1|exact H2|].
  apply H64'; unfold is_i64; lia.
Defined.

(** Floating-point numbers.  Keys compare as sign and magnitude do (the IEEE
    order of numbers, with [-0] just before [+0]), reversed for the descending
    form, and every bit pattern decodes to itself in both forms. *)
Theorem floating_point_keys (a b : Z) (k x y : bytes) (descending : bool) :
  (is_u64 a → is_u64 b →
     bytes_compare (AppendDoubleToKey a k descending ++ x) (AppendDoubleToKey b k descending ++ y) =
       match (if descending then float_rank 64 b ?= float_rank 64 a
              else float_rank 64 a ?= float_rank 64 b)
       with Eq => bytes_compare x y | c => c end ∧
     DecodeDoubleFromKey (AppendDoubleToKey a [] descending ++ x) descending = Ok a) ∧
  (is_u32 a → is_u32 b →
     bytes_compare (AppendFloatToKey a k descending ++ x) (AppendFloatToKey b k descending ++ y) =
       match (if descending then float_rank 32 b ?= float_rank 32 a
              else float_rank 32 a ?= float_rank 32 b)
       with Eq => bytes_compare x y | c => c end ∧
     DecodeFloatFromKey (AppendFloatToKey a [] descending ++ x) descending = Ok a).
Proof.
  split; intros Ha Hb; rewrite ?double_key, ?float_key_bytes by done.
  - pose proof (float_key_range 64 a ltac:(lia) Ha). pose proof (float_key_range 64 b ltac:(lia) Hb).
    split.
    + rewrite <- !app_assoc, bytes_compare_app_same, be_bytes_compare by (destruct descending; lia).
      rewrite !float_key_rank by lia.
      destruct descending; [rewrite compare_sub_rev|]; by rewrite compare_add.
    + unfold DecodeDoubleFromKey. cbn [app]. rewrite load_be_bytes by (destruct descending; lia).
      cbn [obind]. f_equal. etransitivity; [|by apply (float_key_decode 64 a); [lia|]].
      unfold u64. destruct descending; [|done].
      rewrite (lnot_wrap 64 (2 ^ 64 - 1 - _)) by lia.
      by replace (2 ^ 64 - 1 - (2 ^ 64 - 1 - float_key 64 a)) with (float_key 64 a) by lia.
  - pose proof (float_key_range 32 a ltac:(lia) Ha). pose proof (float_key_range 32 b ltac:(lia) Hb).
    split.
    + rewrite <- !app_assoc, bytes_compare_app_same, be_bytes_compare by (destruct descending; lia).
      rewrite !float_key_rank by lia.
      destruct descending; [rewrite compare_sub_rev|]; by rewrite compare_add.
    + unfold DecodeFloatFromKey. cbn [app]. rewrite load_be_bytes by (destruct descending; lia).
      cbn [obind]. f_equal. etransitivity; [|by apply (float_key_decode 32 a); [lia|]].
      unfold u32. destruct descending; [|done].
      rewrite (lnot_wrap 32 (2 ^ 32 - 1 - _)) by lia.
      by replace (2 ^ 32 - 1 - (2 ^ 32 - 1 - float_key 32 a)) with (float_key 32 a) by lia.
Qed.

(** The bits of [-1.5] and [2.0]. *)
Lemma floating_point_keys_witness :
  bytes_compare (AppendDoubleToKey 0xbff8000000000000 [1] false)
    (AppendDoubleToKey 0x4000000000000000 [1] false) = Lt ∧
  DecodeDoubleFromKey (AppendDoubleToKey 0xbff8000000000000 [] false ++ []) false =
    Ok 0xbff8000000000000.
Proof.
  destruct (floating_point_keys 0xbff8000000000000 0x4000000000000000 [1] [] [] false) as [H64 _].
  destruct H64 as [H1 H2]; [unfold is_u64; lia..|]. split; [exact H1|exact H2].
Defined.

End NumberKeys.

(** ** String keys *)

Module StringKeys.
Import KvUtil DocKvUtil KeyBytes.

(** The code of one character, and of a string. *)
Definition enc_char (e c : Z) : bytes := if c =? 0 then [e; Z.lxor e 1] else [Z.lxor e c].
Definition enc_str (e : Z) (s : bytes) : bytes := s ≫= enc_char e.

(** The two values of the template parameter. *)
Definition marker (e : Z) : Prop := e = 0 ∨ e = 255.

Lemma append_encoded e s dest :
  marker e → AppendEncodedStrToKey e s dest = dest ++ enc_str e s.
Proof.
  intros He. unfold AppendEncodedStrToKey. case_test.
  - subst e. f_equal. induction s as [|c s IH]; [done|].
    match goal with H : existsb _ _ = false |- _ => apply orb_false_iff in H as [Hc Hs] end.
    cbn [enc_str mbind list_bind]. unfold enc_char at 1. rewrite Hc, Z.lxor_0_l.
    cbn [app]. f_equal. by apply IH.
  - clear. revert dest. induction s as [|c s IH]; intros dest; [by rewrite app_nil_r|].
    cbn [foldl enc_str mbind list_bind]. rewrite IH. unfold enc_str.
    rewrite app_assoc. f_equal. unfold enc_char. case_test; [|done]. by rewrite <- app_assoc.
Qed.

Lemma lxor_255 c : is_u8 c → Z.lxor 255 c = 255 - c.
Proof.
  intros Hc. unfold is_u8 in Hc.
  rewrite <- (Z.mod_small (Z.lxor 255 c) (2 ^ 8)).
  - rewrite Z.lxor_comm. change 255 with (2 ^ 8 - 1) at 1.
    rewrite lxor_ones_mod by lia. rewrite <- (Z_mod_plus_full _ 1), Z.mod_small; lia.
  - split; [apply Z.lxor_nonneg; lia|].
    destruct (Z.eq_dec (Z.lxor 255 c) 0) as [->|]; [lia|].
    apply Z.log2_lt_pow2; [pose proof (proj2 (Z.lxor_nonneg 255 c)); lia|].
    pose proof (Z.log2_lxor 255 c). pose proof (Z.log2_le_mono c 255).
    change (Z.log2 255) with 7 in *. lia.
Qed.

(** Codes of non-zero characters differ from the marker and decode back. *)
Lemma enc_nonzero e c :
  marker e → is_u8 c → c ≠ 0 → Z.lxor e c ≠ e ∧ Z.lxor (Z.lxor e c) e = c ∧ is_u8 (Z.lxor e c).
Proof.
  intros [->| ->] Hc Hn.
  - rewrite Z.lxor_0_l, Z.lxor_0_r. done.
  - rewrite (lxor_255 c) by done. unfold is_u8 in *. split_and!; [lia| |lia..].
    rewrite Z.lxor_comm, lxor_255 by (unfold is_u8; lia). lia.
Qed.

Lemma decode_encoded_str e s rest acc :
  marker e → bytes_ok s →
  DecodeEncodedStr e (enc_str e s ++ [e; e] ++ rest) acc = Ok (acc ++ s, rest).
Proof.
  intros He Hs. revert acc. induction Hs as [|c s Hc Hs IH]; intros acc.
  - cbn [enc_str mbind list_bind app DecodeEncodedStr]. by rewrite Z.eqb_refl, app_nil_r.
  - cbn [enc_str mbind list_bind]. unfold enc_char at 1. case_test.
    + subst c. cbn [app DecodeEncodedStr]. rewrite !Z.eqb_refl.
      rewrite (proj2 (Z.eqb_neq _ _)) by (by destruct He as [->| ->]).
      change (list_bind _ _ (enc_char e) s) with (enc_str e s).
      rewrite IH. by rewrite <- app_assoc.
    + destruct (enc_nonzero e c) as (H1 & H2 & _); [done..|].
      cbn [app DecodeEncodedStr]. rewrite (proj2 (Z.eqb_neq _ _)), H2 by done.
      change (list_bind _ _ (enc_char e) s) with (enc_str e s).
      rewrite IH. by rewrite <- app_assoc.
Qed.
(** The order of two codes for different characters, or of a code and the
    terminator (which sorts below every character), whatever follows. *)
Definition oriented (e a b : Z) : comparison := if e =? 0 then a ?= b else b ?= a.

Lemma compare_head_ne a b x y : a ≠ b → bytes_compare (a :: x) (b :: y) = (a ?= b).
Proof. intros. cbn [bytes_compare]. by destruct (Z.compare_spec a b). Qed.

Lemma enc_char_order e c d x y :
  marker e → is_u8 c → is_u8 d → c ≠ d →
  bytes_compare (enc_char e c ++ x) (enc_char e d ++ y) = oriented e c d.
Proof.
  intros He Hc Hd Hne. unfold enc_char, oriented, is_u8 in *.
  destruct He as [->| ->]; rewrite ?Z.lxor_0_l, ?lxor_255 by done; cbn [Z.eqb].
  - repeat case_test; subst; cbn [app]; try done; by rewrite compare_head_ne.
  - repeat case_test; subst; cbn [app]; try done; rewrite compare_head_ne by lia;
      (etransitivity; [|apply (NumberKeys.compare_sub_rev _ _ 255)]); f_equal; lia.
Qed.

Lemma terminator_order e c x y :
  marker e → is_u8 c → bytes_compare ([e; e] ++ x) (enc_char e c ++ y) = oriented e 0 1.
Proof.
  intros He Hc. unfold enc_char, oriented, is_u8 in *.
  destruct He as [->| ->]; rewrite ?Z.lxor_0_l, ?lxor_255 by done;
    case_test; subst; cbn [app]; try done;
    (rewrite compare_head_ne by lia; first [apply Z.compare_lt_iff | apply Z.compare_gt_iff]); lia.
Qed.

Definition oriented_str (e : Z) (s t : bytes) : comparison :=
  if e =? 0 then bytes_compare s t else bytes_compare t s.

Lemma enc_str_order e s t x y :
  marker e → bytes_ok s → bytes_ok t →
  bytes_compare (enc_str e s ++ [e; e] ++ x) (enc_str e t ++ [e; e] ++ y) =
  match oriented_str e s t with Eq => bytes_compare x y | c => c end.
Proof.
  intros He Hs. revert t. induction Hs as [|c s Hc Hs IH]; intros t Ht.
  - destruct Ht as [|d t Hd Ht].
    + change (enc_str e []) with (@nil Z). rewrite !app_nil_l, bytes_compare_app_same.
      unfold oriented_str. by case_test.
    + change (enc_str e (d :: t)) with (enc_char e d ++ enc_str e t). rewrite <- app_assoc.
      change (enc_str e []) with (@nil Z). rewrite app_nil_l, terminator_order by done.
      by destruct He as [->| ->].
  - change (enc_str e (c :: s)) with (enc_char e c ++ enc_str e s). rewrite <- app_assoc.
    destruct Ht as [|d t Hd Ht].
    + change (enc_str e []) with (@nil Z).
      rewrite bytes_compare_antisym, app_nil_l, terminator_order by done.
      by destruct He as [->| ->].
    + change (enc_str e (d :: t)) with (enc_char e d ++ enc_str e t). rewrite <- app_assoc.
      destruct (decide (c = d)) as [->|Hne].
      * rewrite bytes_compare_app_same, IH by done. unfold oriented_str. cbn [bytes_compare].
        by rewrite Z.compare_refl.
      * rewrite enc_char_order by done. unfold oriented, oriented_str.
        rewrite !compare_head_ne by done.
        case_test; [destruct (Z.compare_spec c d)|destruct (Z.compare_spec d c)]; done.
Qed.

Lemma append_string s dest : AppendString s dest = dest ++ enc_str 0 s ++ [0; 0].
Proof.
  unfold AppendString, ZeroEncodeAndAppendStrToKey, TerminateZeroEncodedKeyStr.
  unfold TerminateEncodedKeyStr, AppendZeroEncodedStrToKey.
  rewrite append_encoded by (by left). by rewrite <- !app_assoc.
Qed.

Lemma append_descending_string s dest :
  AppendDescendingString s dest = dest ++ enc_str 255 s ++ [255; 255].
Proof.
  unfold AppendDescendingString, ComplementZeroEncodeAndAppendStrToKey.
  unfold TerminateComplementZeroEncodedKeyStr, TerminateEncodedKeyStr.
  unfold AppendComplementZeroEncodedStrToKey.
  rewrite append_encoded by (by right). by rewrite <- !app_assoc.
Qed.

(** Strings.  A string appended to a key, ascending or descending, decodes to
    itself whatever follows it, and leaves what follows. *)
Theorem string_key_roundtrip (s rest : bytes) :
  bytes_ok s →
  DecodeZeroEncodedStrSlice (AppendString s [] ++ rest) = Ok (s, rest) ∧
  DecodeComplementZeroEncodedStr (AppendDescendingString s [] ++ rest) = Ok (s, rest) ∧
  DecodeZeroEncodedStr (ZeroEncodeStr s) = Ok s.
Proof.
  intros Hs. unfold DecodeZeroEncodedStr, DecodeZeroEncodedStrSlice, DecodeComplementZeroEncodedStr.
  split_and!.
  { rewrite append_string, app_nil_l, <- app_assoc. by rewrite decode_encoded_str by (done || by left). }
  { rewrite append_descending_string, app_nil_l, <- app_assoc.
    by rewrite decode_encoded_str by (done || by right). }
  unfold ZeroEncodeStr. fold AppendString. rewrite append_string, app_nil_l.
  change [0; 0] with ([0; 0] ++ []). rewrite decode_encoded_str by (done || by left).
  cbn [app]. by rewrite bool_decide_true.
Qed.

Lemma string_key_roundtrip_witness :
  DecodeZeroEncodedStrSlice (AppendString [97; 0; 98] [] ++ [7]) = Ok ([97; 0; 98], [7]) ∧
  DecodeComplementZeroEncodedStr (AppendDescendingString [97; 0; 98] [] ++ [7]) =
    Ok ([97; 0; 98], [7]).
Proof.
  destruct (string_key_roundtrip [97; 0; 98] [7]) as (H1 & H2 & _); [bytes_done|].
  split; [exact H1|exact H2].
Defined.

(** Keys that agree up to a string compare as the strings do, in reverse for
    descending strings, and equal strings leave the decision to what follows:
    the terminated encodings are prefix free. *)
Theorem string_key_order (s t k x y : bytes) :
  bytes_ok s → bytes_ok t →
  bytes_compare (AppendString s k ++ x) (AppendString t k ++ y) =
    match bytes_compare s t with Eq => bytes_compare x y | c => c end ∧
  bytes_compare (AppendDescendingString s k ++ x) (AppendDescendingString t k ++ y) =
    match bytes_compare t s with Eq => bytes_compare x y | c => c end.
Proof.
  intros Hs Ht. rewrite !append_string, !append_descending_string, <- !app_assoc.
  rewrite !bytes_compare_app_same.
  split; [by rewrite (enc_str_order 0) by (done || by left)
         |by rewrite (enc_str_order 255) by (done || by right)].
Qed.

Lemma string_key_order_witness :
  bytes_compare (AppendString [97] [1] ++ [255]) (AppendString [97; 0] [1] ++ [0]) = Lt ∧
  bytes_compare (AppendDescendingString [97] [1] ++ [255])
    (AppendDescendingString [97; 0] [1] ++ [0]) = Gt.
Proof.
  destruct (string_key_order [97] [97; 0] [1] [255] [0]) as (H1 & H2); [bytes_done..|].
  split; [exact H1|exact H2].
Defined.

End StringKeys.

(** ** Hybrid times in keys *)

Module HybridTimeKeys.
Import KvUtil DocKvUtil KeyBytes.

Lemma complement_involutive (l : bytes) :
  bytes_ok l → (λ b, u8 (Z.lnot b)) <$> ((λ b, u8 (Z.lnot b)) <$> l) = l.
Proof.
  induction 1 as [|b l Hb Hl IH]; [done|]. cbn [fmap list_fmap]. f_equal; [|exact IH].
  unfold is_u8, u8 in *. rewrite (lnot_wrap 8 b), lnot_wrap by lia. lia.
Qed.

(** A non-empty key with a hybrid time appended passes the check of its size and
    tag, gives back the hybrid time and the key with its tag, sorts before
    every extension of the same key by a larger tag, and the inverted suffix
    stored in reverse intent records decodes to the same hybrid time. *)
Theorem hybrid_time_key (d : DocHybridTime.t) (key : bytes) :
  DocHybridTime.wf d → bytes_ok key →
  ∃ enc, AppendDocHybridTime d key = Ok (key ++ [35] ++ enc) ∧
    CheckHybridTimeSizeAndValueType (key ++ [35] ++ enc) = Ok (Z.of_nat (length enc)) ∧
    DocHybridTime.DecodeFromEnd (key ++ [35] ++ enc) = Ok (d, key ++ [35]) ∧
    (∀ tag x, ValueType.kHybridTime < tag →
       bytes_compare (key ++ [35] ++ enc) (key ++ tag :: x) = Lt) ∧
    DecodeInvertedDocHt ((λ b, u8 (Z.lnot b)) <$> 35 :: enc) = Ok d.
Proof.
  intros Hd Hk. destruct (DocHybridTime.encoded_form d Hd) as (s & _ & _ & E & Hs & Hlen & _).
  pose proof (DocHybridTime.encoded_ok d _ Hd E) as Hok.
  set (enc := DocHybridTime.varints d s) in *. exists enc.
  assert (key ++ [35] ≠ []) as Hne by (by destruct key).
  split_and!.
  - unfold AppendDocHybridTime, DocHybridTime.AppendEncodedInDocDbFormat. rewrite E. cbn [obind].
    unfold AppendValueType. by rewrite <- app_assoc.
  - unfold CheckHybridTimeSizeAndValueType. rewrite app_assoc.
    rewrite (DocHybridTime.encoded_size_at_end d) by done. cbn [obind].
    rewrite !length_app, !Nat2Z.inj_add. replace (Z.to_nat _) with (length key) by (cbn [length]; lia).
    rewrite <- app_assoc. change ([35] ++ enc) with (35 :: enc). by rewrite list_lookup_middle.
  - rewrite app_assoc. by apply DocHybridTime.decode_from_end_encoded.
  - intros tag x Ht. rewrite bytes_compare_app_same. cbn [app bytes_compare].
    by rewrite (proj2 (Z.compare_lt_iff 35 tag) Ht).
  - unfold DecodeInvertedDocHt. rewrite bool_decide_false by done.
    rewrite length_fmap, length_cons, (proj2 (Z.ltb_ge _ _)).
    2:{ change DocHybridTime.kMaxBytesPerEncodedHybridTime with 30. lia. }
    rewrite complement_involutive by (constructor; [unfold is_u8; lia|done]).
    cbn [orb negb]. change (35 =? ValueType.kHybridTime) with true. cbn [negb].
    rewrite <- (app_nil_r enc). by rewrite (DocHybridTime.decode_encoded d []); [|done|constructor|done].
Qed.

Lemma hybrid_time_key_witness :
  ∃ enc, AppendDocHybridTime DocHybridTime.sample [83; 97; 0; 0] =
           Ok ([83; 97; 0; 0] ++ [35] ++ enc) ∧
    DecodeInvertedDocHt ((λ b, u8 (Z.lnot b)) <$> 35 :: enc) = Ok DocHybridTime.sample.
Proof.
  destruct (hybrid_time_key DocHybridTime.sample [83; 97; 0; 0]) as (enc & H1 & _ & _ & _ & H2);
    [exact DocHybridTime.sample_wf | bytes_done | exact (ex_intro _ enc (conj H1 H2))].
Defined.

End HybridTimeKeys.
