(* ===== verification/VarInt.v ===== *)
(** * Arbitrary-precision integers

    Models util/varint.h and util/varint.cc: [VarInt] wraps a [BIGNUM] of
    OpenSSL and encodes it for keys ([EncodeToComparable]), with some leading bits
    kept free for the caller, and as two's complement bytes.  OpenSSL is not part
    of the source: its functions are the class [BigNum], their documentation is
    the class [BigNumSpec], and [ZNum] is one implementation. *)

From S2P Require Import Prelude FastVarint.

(** ** The functions of OpenSSL that are called

    [BN_dup] and [BN_free] do not appear: a [BIGNUM] is a value here. *)

Class BigNum := {
  BIGNUM : Type;
  BN_new : BIGNUM;
  BN_set_word : Z → BIGNUM;
  BN_get_word : BIGNUM → Z;
  BN_set_negative : BIGNUM → bool → BIGNUM;
  BN_is_negative : BIGNUM → bool;
  BN_is_zero : BIGNUM → bool;
  BN_num_bits : BIGNUM → nat;
  BN_bn2bin : BIGNUM → bytes;
  BN_bin2bn : bytes → BIGNUM;
  BN_cmp : BIGNUM → BIGNUM → comparison;
  BN_add : BIGNUM → BIGNUM → BIGNUM;
  BN_sub : BIGNUM → BIGNUM → BIGNUM;
}.

(** The number of bits and of bytes of the absolute value. *)
Definition num_bits (v : Z) : nat := if v =? 0 then 0%nat else Z.to_nat (Z.log2 (Z.abs v) + 1).
Definition num_bytes (v : Z) : nat := ((num_bits v + 7) / 8)%nat.

Class BigNumSpec (B : BigNum) := {
  BN_value : BIGNUM → Z;
  BN_new_spec : BN_value BN_new = 0;
  BN_set_word_spec w : is_u64 w → BN_value (BN_set_word w) = w;
  BN_get_word_spec n : BN_get_word n = Z.min (Z.abs (BN_value n)) (2 ^ 64 - 1);
  BN_set_negative_spec n b :
    BN_value (BN_set_negative n b) = if (b : bool) then - Z.abs (BN_value n) else Z.abs (BN_value n);
  BN_is_negative_spec n : BN_is_negative n = (BN_value n <? 0);
  BN_is_zero_spec n : BN_is_zero n = (BN_value n =? 0);
  BN_num_bits_spec n : BN_num_bits n = num_bits (BN_value n);
  BN_bn2bin_spec n : BN_bn2bin n = be_bytes (num_bytes (BN_value n)) (Z.abs (BN_value n));
  BN_bin2bn_spec l : bytes_ok l → BN_value (BN_bin2bn l) = be_value l;
  BN_cmp_spec a b : BN_cmp a b = (BN_value a ?= BN_value b);
  BN_add_spec a b : BN_value (BN_add a b) = BN_value a + BN_value b;
  BN_sub_spec a b : BN_value (BN_sub a b) = BN_value a - BN_value b;
}.

(** The integers themselves. *)
#[export] Instance ZNum : BigNum := {|
  BIGNUM := Z;
  BN_new := 0;
  BN_set_word w := w;
  BN_get_word n := Z.min (Z.abs n) (2 ^ 64 - 1);
  BN_set_negative n b := if b then - Z.abs n else Z.abs n;
  BN_is_negative n := n <? 0;
  BN_is_zero n := n =? 0;
  BN_num_bits n := num_bits n;
  BN_bn2bin n := be_bytes (num_bytes n) (Z.abs n);
  BN_bin2bn := be_value;
  BN_cmp := Z.compare;
  BN_add := Z.add;
  BN_sub := Z.sub;
|}.

#[export] Instance ZNum_spec : BigNumSpec ZNum.
Proof. by refine {| BN_value := λ n : @BIGNUM ZNum, n |}. Defined.

(** ** VarInt *)

Module VarInt.
Section Operations.
Context {B : BigNum}.

(** [VarInt(int64_t)]; the negation of the least value wraps around. *)
Definition VarInt (int64_val : Z) : BIGNUM :=
  if 0 <=? int64_val then BN_set_word int64_val
  else BN_set_negative (BN_set_word (u64 (- int64_val))) true.

Definition ToInt64 (v : BIGNUM) : outcome Z :=
  let value := BN_get_word v in
  let negative := BN_is_negative v in
  let bound := u64 (if negative then - 2 ^ 63 else 2 ^ 63 - 1) in
  if bound <? value then Err InvalidArgument
  else Ok (i64 (if negative then u64 (- value) else value)).

Definition CompareTo (v other : BIGNUM) : comparison := BN_cmp v other.
Definition Negate (v : BIGNUM) : BIGNUM := BN_set_negative v (negb (BN_is_negative v)).
Definition Sign (v : BIGNUM) : Z := if BN_is_zero v then 0 else if BN_is_negative v then -1 else 1.
Definition plus (lhs rhs : BIGNUM) : BIGNUM := BN_add lhs rhs.
Definition minus (lhs rhs : BIGNUM) : BIGNUM := BN_sub lhs rhs.

Definition FlipBits (data : bytes) : bytes := (λ b, u8 (Z.lnot b)) <$> data.

(** [BN_bn2bin(impl, data + offset)]. *)
Definition write_at (data : bytes) (offset : nat) (l : bytes) : outcome bytes :=
  if decide (offset + length l ≤ length data)%nat
  then Ok (take offset data ++ l ++ drop (offset + length l) data) else UB.

(** The loop over the complete bytes of the header, and its last byte. *)
Fixpoint fill_ones (fuel num_ones idx : nat) (data : bytes) : outcome bytes :=
  match fuel with
  | S fuel =>
      if (8 <? num_ones)%nat then
        let! data := store_at data idx 255 in
        fill_ones fuel (num_ones - 8) (S idx) data
      else
        let! b := byte_at data idx in
        store_at data idx (Z.lor b (Z.lxor 255 (Z.shiftl 1 (8 - Z.of_nat num_ones) - 1)))
  | O => UB
  end.

Definition EncodeToComparable (num_reserved_bits : nat) (v : BIGNUM) : outcome bytes :=
  if BN_is_zero v then Ok [Z.shiftr 128 (Z.of_nat num_reserved_bits)]
  else
    let num_bits := BN_num_bits v in
    let total_num_bits := (num_bits + 1 + num_reserved_bits)%nat in
    let num_bytes := ((total_num_bits + 6) / 7)%nat in
    let rounding_padding := (num_bytes * 7 - total_num_bits)%nat in
    let header_length := (1 + num_bytes + rounding_padding)%nat in
    let words_count := ((num_bits + header_length + 8 - 1) / 8)%nat in
    let offset := (words_count - (num_bits + 8 - 1) / 8)%nat in
    let! data := write_at (replicate words_count 0) offset (BN_bn2bin v) in
    let num_ones := (num_bytes + num_reserved_bits)%nat in
    let! data := fill_ones (S num_ones) num_ones 0 data in
    let data := if BN_is_negative v then FlipBits data else data in
    if (num_reserved_bits =? 0)%nat then Ok data
    else
      let! b := byte_at data 0 in
      store_at data 0 (Z.land b (Z.shiftl 1 (8 - Z.of_nat num_reserved_bits) - 1)).

(** [while (buffer[idx] == 0xff)]: the index and the number of ones. *)
Fixpoint skip_ones (fuel idx num_ones : nat) (buffer : bytes) : outcome (nat * nat) :=
  match fuel with
  | S fuel =>
      let! b := byte_at buffer idx in
      if b =? 255 then
        if (length buffer <=? S idx)%nat then Err Corruption
        else skip_ones fuel (S idx) (num_ones + 8) buffer
      else Ok (idx, num_ones)
  | O => UB
  end.

(** [while (buffer[idx] & temp)]: the byte without its leading ones, and the number of ones. *)
Fixpoint strip_ones (fuel : nat) (b temp : Z) (num_ones : nat) : Z * nat :=
  match fuel with
  | S fuel =>
      if negb (Z.land b temp =? 0) then strip_ones fuel (Z.lxor b temp) (Z.shiftr temp 1) (S num_ones)
      else (b, num_ones)
  | O => (b, num_ones)
  end.

Definition DecodeFromComparable (num_reserved_bits : nat) (slice : bytes) : outcome (BIGNUM * nat) :=
  let len := length slice in
  match slice with
  | [] => Err Corruption
  | first :: _ =>
      let negative := Z.land first (Z.shiftr 128 (Z.of_nat num_reserved_bits)) =? 0 in
      let buffer := if negative then FlipBits slice else slice in
      let! b0 := byte_at buffer 0 in
      let! buffer :=
        if (num_reserved_bits =? 0)%nat then Ok buffer
        else store_at buffer 0 (Z.lor b0 (u8 (Z.lnot (Z.shiftl 1 (8 - Z.of_nat num_reserved_bits) - 1)))) in
      let! (idx, num_ones) := skip_ones (S len) 0 0 buffer in
      let! b := byte_at buffer idx in
      let (b, num_ones) := strip_ones 8 b 128 num_ones in
      let! buffer := store_at buffer idx b in
      let num_ones := (num_ones - num_reserved_bits)%nat in
      if (len <? num_ones)%nat then Err Corruption
      else
        let value := BN_bin2bn (take (num_ones - idx) (drop idx buffer)) in
        Ok (if negative then BN_set_negative value true else value, num_ones)
  end.

(** [while (--back >= data && *back == 0xff) *back = 0; ++*back], with [k = back - data]: the
    new bytes and the final [back - data]. *)
Fixpoint carry (k : nat) (data : bytes) : outcome (bytes * nat) :=
  match k with
  | O => UB
  | S i =>
      let! b := byte_at data i in
      if b =? 255 then let! data := store_at data i 0 in carry i data
      else let! data := store_at data i (u8 (b + 1)) in Ok (data, i)
  end.

(** [while (--back >= data && *back == 0x00) *back = 0xff; --*back]. *)
Fixpoint borrow (k : nat) (data : bytes) : outcome bytes :=
  match k with
  | O => UB
  | S i =>
      let! b := byte_at data i in
      if b =? 0 then let! data := store_at data i 255 in borrow i data
      else store_at data i (u8 (b - 1))
  end.

Definition EncodeToTwosComplement (v : BIGNUM) : outcome bytes :=
  if BN_is_zero v then Ok [0]
  else
    let num_bits := BN_num_bits v in
    let offset := (if num_bits mod 8 =? 0 then 1 else 0)%nat in
    let count := ((num_bits + 8 - 1) / 8 + offset)%nat in
    let! data := write_at (replicate count 0) offset (BN_bn2bin v) in
    if BN_is_negative v then
      let! (data, back) := carry (length data) (FlipBits data) in
      if ((offset =? 1) && (0 <? back))%nat then
        let! b := byte_at data 1 in
        Ok (if negb (Z.land b 128 =? 0) then drop 1 data else data)
      else Ok data
    else Ok data.

Definition DecodeFromTwosComplement (input : bytes) : outcome BIGNUM :=
  match input with
  | [] => Err Corruption
  | first :: _ =>
      if Z.land first 128 =? 0 then Ok (BN_bin2bn input)
      else
        let! copy := borrow (length input) input in
        Ok (BN_set_negative (BN_bin2bn (FlipBits copy)) true)
  end.

End Operations.

(** ** The encoded bytes as one number *)

Lemma be_bytes_cons m b y :
  is_u8 b → 0 <= y < 2 ^ (8 * Z.of_nat m) → b :: be_bytes m y = be_bytes (S m) (b * 2 ^ (8 * Z.of_nat m) + y).
Proof.
  intros Hb Hy. symmetry. apply be_bytes_of_value.
  - constructor; [done|apply be_bytes_ok].
  - by rewrite length_cons, length_be_bytes.
  - by rewrite be_value_cons, be_size_be_bytes, be_value_be_bytes, Z.mod_small.
Qed.

Lemma be_bytes_head m x :
  0 <= x < 2 ^ (8 * Z.of_nat (S m)) → u8 (Z.shiftr x (8 * Z.of_nat m)) = x / 2 ^ (8 * Z.of_nat m).
Proof.
  intros Hx. rewrite Z.shiftr_div_pow2 by lia. apply u8_small. split.
  - apply Z.div_pos; lia.
  - apply Z.div_lt_upper_bound; [lia|]. rewrite <- Z.pow_add_r by lia.
    replace (8 * Z.of_nat m + 8) with (8 * Z.of_nat (S m)) by lia. lia.
Qed.

Lemma header_mask k : (k ≤ 8)%nat →
  Z.lxor 255 (Z.shiftl 1 (8 - Z.of_nat k) - 1) = (2 ^ Z.of_nat k - 1) * 2 ^ (8 - Z.of_nat k).
Proof.
  intros Hk. assert (k = 0 ∨ k = 1 ∨ k = 2 ∨ k = 3 ∨ k = 4 ∨ k = 5 ∨ k = 6 ∨ k = 7 ∨ k = 8)%nat as H by lia.
  by destruct H as [->|[->|[->|[->|[->|[->|[->|[->| ->]]]]]]]].
Qed.

(** [k] ones in front of [x]. *)
Definition with_ones (m k : nat) (x : Z) : Z :=
  x + (2 ^ Z.of_nat k - 1) * 2 ^ (8 * Z.of_nat m - Z.of_nat k).

Lemma store_at_app pre b l v : store_at (pre ++ b :: l) (length pre) v = Ok (pre ++ v :: l).
Proof.
  unfold store_at. rewrite decide_True by (rewrite length_app, length_cons; lia).
  by rewrite insert_app_r_alt, Nat.sub_diag by lia.
Qed.

Lemma byte_at_app pre b l : byte_at (pre ++ b :: l) (length pre) = Ok b.
Proof. unfold byte_at. by rewrite lookup_app_r, Nat.sub_diag by lia. Qed.

Lemma with_ones_range m k x :
  (k ≤ 8 * m)%nat → 0 <= x < 2 ^ (8 * Z.of_nat m - Z.of_nat k) → 0 <= with_ones m k x < 2 ^ (8 * Z.of_nat m).
Proof.
  intros Hk Hx. unfold with_ones.
  replace (2 ^ (8 * Z.of_nat m)) with (2 ^ Z.of_nat k * 2 ^ (8 * Z.of_nat m - Z.of_nat k))
    by (rewrite <- Z.pow_add_r by lia; f_equal; lia). nia.
Qed.

(** The first byte of [with_ones], and the rest. *)
Lemma with_ones_long m k x :
  (8 ≤ k ≤ 8 * S m)%nat → 0 <= x < 2 ^ (8 * Z.of_nat (S m) - Z.of_nat k) →
  be_bytes (S m) (with_ones (S m) k x) = 255 :: be_bytes m (with_ones m (k - 8) x).
Proof.
  intros Hk Hx. rewrite be_bytes_cons.
  - f_equal. unfold with_ones. rewrite Nat2Z.inj_sub by lia.
    replace (8 * Z.of_nat m - (Z.of_nat k - Z.of_nat 8)) with (8 * Z.of_nat (S m) - Z.of_nat k) by lia.
    replace (2 ^ Z.of_nat k) with (2 ^ 8 * 2 ^ (Z.of_nat k - Z.of_nat 8))
      by (rewrite <- Z.pow_add_r by lia; f_equal; lia).
    replace (2 ^ (8 * Z.of_nat m)) with (2 ^ (Z.of_nat k - Z.of_nat 8) * 2 ^ (8 * Z.of_nat (S m) - Z.of_nat k))
      by (rewrite <- Z.pow_add_r by lia; f_equal; lia). lia.
  - unfold is_u8. lia.
  - apply with_ones_range; [lia|]. rewrite Nat2Z.inj_sub by lia.
    by replace (8 * Z.of_nat m - (Z.of_nat k - Z.of_nat 8)) with (8 * Z.of_nat (S m) - Z.of_nat k) by lia.
Qed.

Lemma with_ones_short m k x :
  (k ≤ 8)%nat → 0 <= x < 2 ^ (8 * Z.of_nat (S m) - Z.of_nat k) →
  let b := x / 2 ^ (8 * Z.of_nat m) in
  0 <= b < 2 ^ (8 - Z.of_nat k) ∧
  be_bytes (S m) x = b :: be_bytes m x ∧
  be_bytes (S m) (with_ones (S m) k x) =
    Z.lor b (Z.lxor 255 (Z.shiftl 1 (8 - Z.of_nat k) - 1)) :: be_bytes m x.
Proof.
  intros Hk Hx b.
  assert (0 <= b < 2 ^ (8 - Z.of_nat k)) as Hb.
  { split; [apply Z.div_pos; lia|]. apply Z.div_lt_upper_bound; [lia|].
    rewrite <- Z.pow_add_r by lia.
    replace (8 * Z.of_nat m + (8 - Z.of_nat k)) with (8 * Z.of_nat (S m) - Z.of_nat k) by lia. lia. }
  assert (2 ^ (8 * Z.of_nat (S m) - Z.of_nat k) <= 2 ^ (8 * Z.of_nat (S m)))
    by (apply Z.pow_le_mono_r; lia).
  split_and!; [lia|lia| |].
  - cbn [be_bytes]. by rewrite be_bytes_head by lia.
  - rewrite header_mask, Z.lor_comm, lor_disjoint by lia.
    assert (be_bytes m x = be_bytes m (x mod 2 ^ (8 * Z.of_nat m))) as ->.
    { apply be_value_inj; auto using be_bytes_ok; rewrite ?length_be_bytes; [done|].
      by rewrite !be_value_be_bytes, Z.mod_mod by lia. }
    rewrite be_bytes_cons.
    + f_equal. unfold with_ones. rewrite (Z.div_mod x (2 ^ (8 * Z.of_nat m))) at 1 by lia. fold b.
      replace (2 ^ (8 * Z.of_nat (S m) - Z.of_nat k)) with (2 ^ (8 - Z.of_nat k) * 2 ^ (8 * Z.of_nat m))
        by (rewrite <- Z.pow_add_r by lia; f_equal; lia). lia.
    + assert (2 ^ Z.of_nat k * 2 ^ (8 - Z.of_nat k) = 2 ^ 8) by (rewrite <- Z.pow_add_r by lia; f_equal; lia).
      unfold is_u8. nia.
    + apply Z.mod_pos_bound. lia.
Qed.

Lemma fill_ones_spec fuel k m pre x :
  (1 ≤ k ≤ 8 * m)%nat → (k ≤ fuel)%nat → 0 <= x < 2 ^ (8 * Z.of_nat m - Z.of_nat k) →
  fill_ones fuel k (length pre) (pre ++ be_bytes m x) = Ok (pre ++ be_bytes m (with_ones m k x)).
Proof.
  revert k m pre. induction fuel as [|fuel IH]; intros k m pre Hk Hf Hx; [lia|].
  destruct m as [|m]; [lia|]. cbn [fill_ones]. destruct (Nat.ltb_spec 8 k).
  - cbn [be_bytes]. rewrite store_at_app. cbn [obind].
    specialize (IH (k - 8)%nat m (pre ++ [255])). rewrite length_app, Nat.add_1_r, <- !app_assoc in IH.
    cbn [app] in IH. rewrite IH; [|lia|lia|].
    + change (u8 _ :: be_bytes m _) with (be_bytes (S m) (with_ones (S m) k x)).
      by rewrite with_ones_long by lia.
    + by replace (8 * Z.of_nat m - Z.of_nat (k - 8)) with (8 * Z.of_nat (S m) - Z.of_nat k) by lia.
  - destruct (with_ones_short m k x) as (_ & -> & ->); [lia|done|].
    rewrite byte_at_app. cbn [obind]. by rewrite store_at_app.
Qed.

Lemma mask_head r m y :
  (r ≤ 8)%nat →
  Z.land (u8 (Z.shiftr y (8 * Z.of_nat m))) (Z.shiftl 1 (8 - Z.of_nat r) - 1) :: be_bytes m y =
  be_bytes (S m) (y mod 2 ^ (8 * Z.of_nat (S m) - Z.of_nat r)).
Proof.
  intros Hr. rewrite Z.shiftl_1_l, land_ones_mod by lia. unfold u8.
  rewrite mod_mod_pow2, Z.shiftr_div_pow2 by lia. symmetry. apply be_bytes_of_value.
  - constructor; [|apply be_bytes_ok].
    pose proof (Z.mod_pos_bound (y / 2 ^ (8 * Z.of_nat m)) (2 ^ (8 - Z.of_nat r))).
    assert (2 ^ (8 - Z.of_nat r) <= 2 ^ 8) by (apply Z.pow_le_mono_r; lia). unfold is_u8. lia.
  - by rewrite length_cons, length_be_bytes.
  - rewrite be_value_cons, be_size_be_bytes, be_value_be_bytes.
    replace (8 * Z.of_nat (S m) - Z.of_nat r) with (8 * Z.of_nat m + (8 - Z.of_nat r)) by lia.
    rewrite Z.pow_add_r, (Z.rem_mul_r y) by lia. lia.
Qed.

(** The number an encoding of [n] bytes stands for: [u] below [n] ones. *)
Definition fits (r n : nat) (u : Z) : Prop :=
  (1 ≤ n)%nat ∧ 0 <= 7 * Z.of_nat n - 1 - Z.of_nat r ∧ 0 <= u < 2 ^ (7 * Z.of_nat n - 1 - Z.of_nat r) ∧
  (n = 1%nat ∨ 2 ^ (7 * (Z.of_nat n - 1) - 1 - Z.of_nat r) <= u).

Definition ones_code (r n : nat) (u : Z) : Z :=
  (2 ^ Z.of_nat n - 1) * 2 ^ (7 * Z.of_nat n - Z.of_nat r) + u.

Definition code (r n : nat) (z : Z) : Z :=
  if z <? 0 then 2 ^ (8 * Z.of_nat n - Z.of_nat r) - 1 - ones_code r n (Z.abs z) else ones_code r n (Z.abs z).

Lemma fits_pow r n u : fits r n u →
  2 ^ (7 * Z.of_nat n - Z.of_nat r) = 2 * 2 ^ (7 * Z.of_nat n - 1 - Z.of_nat r) ∧
  2 ^ (8 * Z.of_nat n - Z.of_nat r) = 2 ^ Z.of_nat n * 2 ^ (7 * Z.of_nat n - Z.of_nat r) ∧
  2 <= 2 ^ Z.of_nat n.
Proof.
  intros (? & ? & _). split_and!.
  - rewrite <- Z.pow_succ_r by lia. f_equal. lia.
  - rewrite <- Z.pow_add_r by lia. f_equal. lia.
  - change 2 with (2 ^ 1) at 1. apply Z.pow_le_mono_r; lia.
Qed.

Lemma ones_code_range r n u : fits r n u →
  2 ^ (8 * Z.of_nat n - Z.of_nat r) <= 2 * ones_code r n u ∧ ones_code r n u < 2 ^ (8 * Z.of_nat n - Z.of_nat r).
Proof.
  intros Hf. destruct (fits_pow r n u Hf) as (E1 & E2 & H2). destruct Hf as (_ & _ & Hu & _).
  unfold ones_code. rewrite E2. nia.
Qed.

Lemma with_ones_code r n u : fits r n u →
  with_ones n (n + r) u mod 2 ^ (8 * Z.of_nat n - Z.of_nat r) = ones_code r n u.
Proof.
  intros Hf. destruct (ones_code_range r n u Hf) as [H1 H2]. destruct (fits_pow r n u Hf) as (_ & E & _).
  destruct Hf as (Hn & Hr & Hu & _). unfold with_ones.
  symmetry. apply Z.mod_unique_pos with (2 ^ Z.of_nat r - 1); [lia|].
  replace (8 * Z.of_nat n - Z.of_nat (n + r)) with (7 * Z.of_nat n - Z.of_nat r) by lia.
  rewrite Nat2Z.inj_add, Z.pow_add_r, E by lia. unfold ones_code. lia.
Qed.

(** ** The parts of the decoder *)

Lemma skip_ones_spec fuel k m num pre x rest :
  (k + 1 ≤ 8 * m)%nat → 0 <= x < 2 ^ (8 * Z.of_nat m - Z.of_nat k - 1) → (m ≤ fuel)%nat →
  ∃ j m' k', (m = j + m')%nat ∧ (k = 8 * j + k')%nat ∧ (k' < 8)%nat ∧
    skip_ones fuel (length pre) num (pre ++ be_bytes m (with_ones m k x) ++ rest) =
      Ok (length pre + j, num + 8 * j)%nat ∧
    be_bytes m (with_ones m k x) = replicate j 255 ++ be_bytes m' (with_ones m' k' x).
Proof.
  revert k m num pre. induction fuel as [|fuel IH]; intros k m num pre Hk Hx Hf; [lia|].
  destruct m as [|m]; [lia|]. assert (0 <= x < 2 ^ (8 * Z.of_nat (S m) - Z.of_nat k)).
  { pose proof (Z.pow_le_mono_r 2 (8 * Z.of_nat (S m) - Z.of_nat k - 1) (8 * Z.of_nat (S m) - Z.of_nat k)). lia. }
  destruct (decide (8 ≤ k)%nat) as [H8|H8].
  - rewrite with_ones_long by lia. cbn [skip_ones app]. rewrite byte_at_app. cbn [obind Z.eqb Pos.eqb].
    destruct (IH (k - 8)%nat m (num + 8)%nat (pre ++ [255])) as (j & m' & k' & -> & Ek & Hk' & E1 & E2); [lia| |lia|].
    { by replace (8 * Z.of_nat m - Z.of_nat (k - 8) - 1) with (8 * Z.of_nat (S m) - Z.of_nat k - 1) by lia. }
    exists (S j), m', k'. split_and!; [lia|lia|lia| |].
    + rewrite (proj2 (Nat.leb_gt _ _)) by (rewrite !length_app, length_cons, length_app, length_be_bytes; lia).
      rewrite <- app_assoc, length_app in E1. cbn [app length] in E1.
      replace (S (length pre)) with (length pre + 1)%nat by lia. rewrite E1. do 2 f_equal; lia.
    + rewrite E2. done.
  - exists 0%nat, (S m), k. split_and!; [lia|lia|lia| |done].
    destruct (with_ones_short m k x) as (Hb & _ & ->); [lia|done|].
    assert (x / 2 ^ (8 * Z.of_nat m) < 2 ^ (7 - Z.of_nat k)).
    { apply Z.div_lt_upper_bound; [lia|]. rewrite <- Z.pow_add_r by lia.
      replace (8 * Z.of_nat m + (7 - Z.of_nat k)) with (8 * Z.of_nat (S m) - Z.of_nat k - 1) by lia. lia. }
    cbn [skip_ones app]. rewrite byte_at_app. cbn [obind].
    rewrite header_mask, Z.lor_comm, lor_disjoint by lia.
    assert (2 ^ Z.of_nat k * 2 ^ (8 - Z.of_nat k) = 256) by (rewrite <- Z.pow_add_r by lia; by replace (Z.of_nat k + (8 - Z.of_nat k)) with 8 by lia).
    assert (2 ^ (8 - Z.of_nat k) = 2 * 2 ^ (7 - Z.of_nat k)) by (rewrite <- Z.pow_succ_r by lia; f_equal; lia).
    rewrite (proj2 (Z.eqb_neq _ _)) by nia. do 2 f_equal; lia.
Qed.

(** The byte after the leading ones, [k] of which are left in it. *)
Definition strip_ok (k : nat) (b : Z) : bool :=
  bool_decide (strip_ones 8 (Z.lor b (Z.lxor 255 (Z.shiftl 1 (8 - Z.of_nat k) - 1))) 128 0 = (b, k)).

Lemma strip_all_ok :
  forallb (λ k, forallb (strip_ok k) (seqZ 0 (2 ^ (7 - Z.of_nat k)))) (seq 0 8) = true.
Proof. vm_compute. reflexivity. Qed.

Lemma strip_ones_acc fuel b t n :
  strip_ones fuel b t n = ((strip_ones fuel b t 0).1, n + (strip_ones fuel b t 0).2)%nat.
Proof.
  revert b t n. induction fuel as [|fuel IH]; intros b t n; cbn [strip_ones]; [f_equal; simpl; lia|].
  case_test; [|simpl; f_equal; lia].
  rewrite IH, (IH _ _ 1%nat). cbn [fst snd]. f_equal. lia.
Qed.

Lemma strip_ones_spec k b n :
  (k < 8)%nat → 0 <= b < 2 ^ (7 - Z.of_nat k) →
  strip_ones 8 (Z.lor b (Z.lxor 255 (Z.shiftl 1 (8 - Z.of_nat k) - 1))) 128 n = (b, (n + k)%nat).
Proof.
  intros Hk Hb. pose proof strip_all_ok as H. rewrite forallb_forall in H.
  specialize (H k). rewrite in_seq, forallb_forall in H. specialize (H ltac:(lia) b).
  rewrite <- list_elem_of_In, elem_of_seqZ in H. specialize (H ltac:(lia)).
  apply bool_decide_eq_true in H. by rewrite strip_ones_acc, H.
Qed.

(** Setting the reserved bits of the first byte. *)
Definition set_head_ok (r : nat) (h : Z) : bool :=
  Z.lor h (u8 (Z.lnot (Z.shiftl 1 (8 - Z.of_nat r) - 1))) =?
  (2 ^ Z.of_nat r - 1) * 2 ^ (8 - Z.of_nat r) + h mod 2 ^ (8 - Z.of_nat r).

Lemma set_head_all_ok : forallb (λ r, forallb (set_head_ok r) (seqZ 0 256)) (seq 0 8) = true.
Proof. vm_compute. reflexivity. Qed.

Lemma set_head r m y :
  (r < 8)%nat →
  Z.lor (u8 (Z.shiftr y (8 * Z.of_nat m))) (u8 (Z.lnot (Z.shiftl 1 (8 - Z.of_nat r) - 1))) :: be_bytes m y =
  be_bytes (S m) (with_ones (S m) r (y mod 2 ^ (8 * Z.of_nat (S m) - Z.of_nat r))).
Proof.
  intros Hr. pose proof set_head_all_ok as H. rewrite forallb_forall in H. specialize (H r).
  rewrite in_seq, forallb_forall in H. specialize (H ltac:(lia) (u8 (Z.shiftr y (8 * Z.of_nat m)))).
  rewrite <- list_elem_of_In, elem_of_seqZ in H.
  pose proof (u8_range (Z.shiftr y (8 * Z.of_nat m))) as Hh. specialize (H ltac:(unfold is_u8 in Hh; lia)).
  apply Z.eqb_eq in H. rewrite H. clear H Hh. unfold u8.
  rewrite mod_mod_pow2, Z.shiftr_div_pow2 by lia. symmetry.
  assert (2 ^ Z.of_nat r * 2 ^ (8 - Z.of_nat r) = 2 ^ 8) by (rewrite <- Z.pow_add_r by lia; f_equal; lia).
  pose proof (Z.mod_pos_bound (y / 2 ^ (8 * Z.of_nat m)) (2 ^ (8 - Z.of_nat r))).
  apply be_bytes_of_value.
  - constructor; [|apply be_bytes_ok]. unfold is_u8. nia.
  - by rewrite length_cons, length_be_bytes.
  - rewrite be_value_cons, be_size_be_bytes, be_value_be_bytes. unfold with_ones.
    replace (8 * Z.of_nat (S m) - Z.of_nat r) with (8 * Z.of_nat m + (8 - Z.of_nat r)) by lia.
    rewrite Z.pow_add_r, (Z.rem_mul_r y) by lia. lia.
Qed.

(** ** Order *)

Lemma fits_mono r n1 u1 n2 u2 : fits r n1 u1 → fits r n2 u2 → u1 < u2 → (n1 ≤ n2)%nat.
Proof.
  intros (? & ? & ? & Hm) (? & ? & ? & _) Hlt. destruct Hm as [->|Hm]; [lia|].
  apply Nat.nlt_ge. intros Hn.
  pose proof (Z.pow_le_mono_r 2 (7 * Z.of_nat n2 - 1 - Z.of_nat r) (7 * (Z.of_nat n1 - 1) - 1 - Z.of_nat r)).
  lia.
Qed.

Lemma fits_size r n u : fits r n u →
  2 ^ (8 * Z.of_nat n) = 2 ^ Z.of_nat r * 2 ^ (8 * Z.of_nat n - Z.of_nat r).
Proof. intros (? & ? & _). rewrite <- Z.pow_add_r by lia. f_equal. lia. Qed.

Lemma ones_code_below r n1 u1 n2 u2 :
  fits r n1 u1 → fits r n2 u2 → u1 < u2 →
  (ones_code r n1 u1 + 1) * 2 ^ (8 * Z.of_nat n2) <= ones_code r n2 u2 * 2 ^ (8 * Z.of_nat n1).
Proof.
  intros H1 H2 Hlt. pose proof (fits_mono r n1 u1 n2 u2 H1 H2 Hlt) as Hn.
  destruct (decide (n1 = n2)) as [->|Hne].
  { apply Z.mul_le_mono_nonneg_r; [lia|]. unfold ones_code. lia. }
  rewrite (fits_size r n1 u1), (fits_size r n2 u2) by done.
  destruct (fits_pow r n1 u1 H1) as (E1 & -> & _), (fits_pow r n2 u2 H2) as (E2 & -> & _).
  assert (2 * 2 ^ Z.of_nat n1 <= 2 ^ Z.of_nat n2).
  { rewrite <- Z.pow_succ_r by lia. apply Z.pow_le_mono_r; lia. }
  destruct H1 as (_ & _ & Hu1 & _), H2 as (_ & _ & Hu2 & _). unfold ones_code. rewrite E1, E2.
  assert (0 < 2 ^ Z.of_nat r) by lia. assert (0 < 2 ^ Z.of_nat n1) by lia.
  revert Hu1 Hu2. generalize dependent (2 ^ Z.of_nat n1). generalize dependent (2 ^ Z.of_nat n2).
  generalize dependent (2 ^ Z.of_nat r). clear. generalize (2 ^ (7 * Z.of_nat n1 - 1 - Z.of_nat r)).
  generalize (2 ^ (7 * Z.of_nat n2 - 1 - Z.of_nat r)). intros b a R HR N2 N1 HN HN1 Hu1 Hu2.
  assert (0 <= R * (N2 * (2 * b))) by (repeat apply Z.mul_nonneg_nonneg; lia).
  assert (0 <= R * (N1 * (2 * a))) by (repeat apply Z.mul_nonneg_nonneg; lia).
  assert (0 <= a * (2 * b) * R) by (repeat apply Z.mul_nonneg_nonneg; lia).
  transitivity (((2 * N1 - 1) * N2) * (a * (2 * b) * R)).
  { transitivity ((2 * a * N1 - a) * (R * (N2 * (2 * b)))); [|lia].
    apply Z.mul_le_mono_nonneg_r; lia. }
  transitivity (((N2 - 1) * (2 * N1)) * (a * (2 * b) * R)).
  { apply Z.mul_le_mono_nonneg_r; lia. }
  transitivity (((N2 - 1) * (2 * b)) * (R * (N1 * (2 * a)))); [lia|].
  apply Z.mul_le_mono_nonneg_r; lia.
Qed.

Lemma code_range r n z : fits r n (Z.abs z) → 0 <= code r n z < 2 ^ (8 * Z.of_nat n).
Proof.
  intros Hf. destruct (ones_code_range r n _ Hf) as [H1 H2]. rewrite (fits_size r n _ Hf).
  assert (1 <= 2 ^ Z.of_nat r) by lia. unfold code. case_test; nia.
Qed.

Lemma code_below r n1 z1 n2 z2 :
  fits r n1 (Z.abs z1) → fits r n2 (Z.abs z2) → z1 < z2 →
  (code r n1 z1 + 1) * 2 ^ (8 * Z.of_nat n2) <= code r n2 z2 * 2 ^ (8 * Z.of_nat n1).
Proof.
  intros H1 H2 Hlt. unfold code. destruct (Z.ltb_spec z1 0), (Z.ltb_spec z2 0); [| |lia|].
  - pose proof (ones_code_below r n2 (Z.abs z2) n1 (Z.abs z1) H2 H1 ltac:(lia)) as H3. revert H3.
    rewrite (fits_size r n1 _ H1), (fits_size r n2 _ H2). nia.
  - destruct (ones_code_range r n1 _ H1) as [H3 H4], (ones_code_range r n2 _ H2) as [H5 H6].
    rewrite (fits_size r n1 _ H1), (fits_size r n2 _ H2).
    assert (0 < 2 ^ Z.of_nat r) by lia.
    set (t1 := 2 ^ (8 * Z.of_nat n1 - Z.of_nat r)) in *. set (t2 := 2 ^ (8 * Z.of_nat n2 - Z.of_nat r)) in *.
    replace (t1 - 1 - _ + 1) with (t1 - ones_code r n1 (Z.abs z1)) by lia.
    transitivity ((t1 - ones_code r n1 (Z.abs z1)) * t2 * 2 ^ Z.of_nat r); [lia|].
    transitivity (ones_code r n2 (Z.abs z2) * t1 * 2 ^ Z.of_nat r); [|lia].
    apply Z.mul_le_mono_nonneg_r; [lia|]. nia.
  - apply ones_code_below; (done || lia).
Qed.

(** ** The encoder *)

Section Facts.
Context {B : BigNum} {HB : BigNumSpec B}.

Lemma num_bits_bound z : z ≠ 0 →
  (1 ≤ num_bits z)%nat ∧ 2 ^ (Z.of_nat (num_bits z) - 1) <= Z.abs z < 2 ^ Z.of_nat (num_bits z).
Proof.
  intros Hz. unfold num_bits. case_test; [done|].
  pose proof (Z.log2_nonneg (Z.abs z)). pose proof (Z.log2_spec (Z.abs z) ltac:(lia)).
  rewrite Z2Nat.id by lia. split; [lia|].
  replace (Z.log2 (Z.abs z) + 1 - 1) with (Z.log2 (Z.abs z)) by lia.
  by replace (Z.log2 (Z.abs z) + 1) with (Z.succ (Z.log2 (Z.abs z))) by lia.
Qed.

(** The number of bytes of an encoding, as [EncodeToComparable] computes it. *)
Definition size_of (r : nat) (z : Z) : nat := ((num_bits z + 1 + r + 6) / 7)%nat.

Lemma size_fits r z : (r ≤ 6)%nat → fits r (size_of r z) (Z.abs z).
Proof.
  intros Hr. unfold fits, size_of. set (t := (num_bits z + 1 + r)%nat).
  pose proof (Nat.div_mod_eq (t + 6) 7). pose proof (Nat.mod_upper_bound (t + 6) 7).
  set (n := ((t + 6) / 7)%nat) in *.
  destruct (decide (z = 0)) as [->|Hz].
  - unfold num_bits in t. simpl in t. assert (n = 1%nat) as -> by lia. change (Z.abs 0) with 0.
    split_and!; try lia.
  - destruct (num_bits_bound z Hz) as (H1 & H2 & H3). split_and!; try lia.
    + eapply Z.lt_le_trans; [exact H3|]. apply Z.pow_le_mono_r; lia.
    + right. eapply Z.le_trans; [|exact H2]. apply Z.pow_le_mono_r; lia.
Qed.

(** [write_at] puts the number at the end of the zeroed buffer. *)
Lemma write_number n z :
  (num_bytes z ≤ n)%nat → Z.abs z < 2 ^ (8 * Z.of_nat (num_bytes z)) →
  write_at (replicate n 0) (n - num_bytes z) (be_bytes (num_bytes z) (Z.abs z)) = Ok (be_bytes n (Z.abs z)).
Proof.
  intros Hn Hz. unfold write_at. rewrite length_be_bytes, length_replicate, decide_True by lia.
  f_equal. rewrite (drop_ge (replicate n 0)), app_nil_r by (rewrite length_replicate; lia).
  rewrite take_replicate, Nat.min_l by lia. symmetry. apply be_bytes_of_value.
  - apply Forall_app. split; [|apply be_bytes_ok]. apply Forall_replicate. unfold is_u8. lia.
  - rewrite length_app, length_replicate, length_be_bytes. lia.
  - rewrite be_value_app, be_value_be_bytes, Z.mod_small by lia.
    assert (∀ k, be_value (replicate k 0) = 0) as ->; [|lia].
    induction k as [|k IH]; [done|]. cbn [replicate]. rewrite be_value_cons, IH. lia.
Qed.

Lemma num_bytes_bound z : Z.abs z < 2 ^ (8 * Z.of_nat (num_bytes z)).
Proof.
  unfold num_bytes. destruct (decide (z = 0)) as [->|Hz]; [simpl; lia|].
  destruct (num_bits_bound z Hz) as (_ & _ & H). eapply Z.lt_le_trans; [exact H|].
  apply Z.pow_le_mono_r; [lia|].
  pose proof (Nat.div_mod_eq (num_bits z + 7) 8). pose proof (Nat.mod_upper_bound (num_bits z + 7) 8). lia.
Qed.

(** The sizes [EncodeToComparable] computes on the way. *)
Lemma size_words r z :
  let n := size_of r z in
  z ≠ 0 → (r ≤ 6)%nat →
  ((num_bits z + (1 + n + (n * 7 - (num_bits z + 1 + r))) + 8 - 1) / 8 = n)%nat ∧
  ((num_bits z + 8 - 1) / 8 = num_bytes z)%nat ∧ (num_bytes z ≤ n)%nat.
Proof.
  intros n Hz Hr. destruct (num_bits_bound z Hz) as [Hb _].
  assert (num_bits z + 1 + r ≤ 7 * n ∧ 7 * n ≤ num_bits z + r + 7)%nat as [Ht1 Ht2].
  { unfold n, size_of. pose proof (Nat.div_mod_eq (num_bits z + 1 + r + 6) 7).
    pose proof (Nat.mod_upper_bound (num_bits z + 1 + r + 6) 7). lia. }
  split_and!.
  - symmetry. apply Nat.div_unique with (7 - r)%nat; lia.
  - unfold num_bytes. f_equal. lia.
  - unfold num_bytes. pose proof (Nat.div_mod_eq (num_bits z + 7) 8). lia.
Qed.

Lemma code_mod r n z :
  fits r n (Z.abs z) →
  let w := with_ones n (n + r) (Z.abs z) in
  code r n z = (if z <? 0 then - w - 1 else w) mod 2 ^ (8 * Z.of_nat n - Z.of_nat r).
Proof.
  intros Hf w. unfold code. rewrite <- (with_ones_code r n (Z.abs z)) by done. fold w. case_test; [|done].
  assert (0 < 2 ^ (8 * Z.of_nat n - Z.of_nat r)) by (destruct Hf; apply Z.pow_pos_nonneg; lia).
  pose proof (Z.mod_pos_bound w (2 ^ (8 * Z.of_nat n - Z.of_nat r))).
  apply Z.mod_unique_pos with (- (w / 2 ^ (8 * Z.of_nat n - Z.of_nat r)) - 1); [lia|].
  pose proof (Z.div_mod w (2 ^ (8 * Z.of_nat n - Z.of_nat r))). lia.
Qed.

Lemma encode_be r v :
  (r ≤ 6)%nat →
  let z := BN_value v in
  EncodeToComparable r v = Ok (be_bytes (size_of r z) (code r (size_of r z) z)).
Proof.
  intros Hr z. pose proof (size_fits r z Hr) as Hf. unfold EncodeToComparable.
  rewrite BN_is_zero_spec, BN_num_bits_spec, BN_bn2bin_spec, BN_is_negative_spec. fold z.
  destruct (Z.eqb_spec z 0) as [->|Hz].
  { unfold size_of. change (num_bits 0) with 0%nat.
    assert (r = 0 ∨ r = 1 ∨ r = 2 ∨ r = 3 ∨ r = 4 ∨ r = 5 ∨ r = 6)%nat as H by lia.
    by destruct H as [->|[->|[->|[->|[->|[->| ->]]]]]]. }
  destruct (size_words r z Hz Hr) as (E1 & E2 & Hle). fold (size_of r z). rewrite E1, E2.
  set (n := size_of r z) in *. rewrite write_number by (done || apply num_bytes_bound). cbn [obind].
  pose proof (fill_ones_spec (S (n + r)) (n + r) n [] (Z.abs z)) as E. cbn [length app] in E.
  pose proof Hf as (Hn & Hr7 & Hu & _). rewrite E; [|lia|lia|].
  2:{ replace (8 * Z.of_nat n - Z.of_nat (n + r)) with (7 * Z.of_nat n - Z.of_nat r) by lia.
      split; [lia|]. eapply Z.lt_le_trans; [apply Hu|]. apply Z.pow_le_mono_r; lia. }
  cbn [obind]. rewrite code_mod by done. set (w := with_ones n (n + r) (Z.abs z)).
  assert ((if z <? 0 then FlipBits (be_bytes n w) else be_bytes n w) =
          be_bytes n (if z <? 0 then - w - 1 else w)) as ->.
  { case_test; [apply be_bytes_lnot|done]. }
  set (y := if z <? 0 then _ else _). destruct (Nat.eqb_spec r 0) as [->|Hr0].
  - f_equal. apply be_value_inj; auto using be_bytes_ok; rewrite ?length_be_bytes; [done|].
    rewrite !be_value_be_bytes. replace (8 * Z.of_nat n - Z.of_nat 0) with (8 * Z.of_nat n) by lia.
    by rewrite Z.mod_mod by lia.
  - destruct n as [|m]; [lia|]. cbn [be_bytes byte_at lookup list_lookup obind].
    etrans; [apply (store_at_app [])|]. by rewrite mask_head by lia.
Qed.

Lemma varint_encode_below r a b x y :
  (r ≤ 6)%nat → EncodeToComparable r a = Ok x → EncodeToComparable r b = Ok y → BN_value a < BN_value b →
  below x y.
Proof.
  intros Hr. rewrite !encode_be by done. intros [= <-] [= <-] Hlt.
  pose proof (size_fits r (BN_value a) Hr). pose proof (size_fits r (BN_value b) Hr).
  rewrite <- (Nat2Z.id (size_of r (BN_value a))) at 1. rewrite <- (Nat2Z.id (size_of r (BN_value b))) at 1.
  apply below_be_bytes; try lia; auto using code_range, code_below.
Qed.

(** ** The decoder *)

Lemma FlipBits_app a b : FlipBits (a ++ b) = FlipBits a ++ FlipBits b.
Proof. apply fmap_app. Qed.

(** The sign is read off the first bit that is not reserved. *)
Lemma decode_sign r m z :
  (r ≤ 6)%nat → fits r (S m) (Z.abs z) →
  (Z.land (u8 (Z.shiftr (code r (S m) z) (8 * Z.of_nat m))) (Z.shiftr 128 (Z.of_nat r)) =? 0) = (z <? 0).
Proof.
  intros Hr Hf. destruct (ones_code_range r (S m) _ Hf) as [H1 H2].
  pose proof (code_range r (S m) z Hf) as Hc. rewrite be_bytes_head by done.
  set (h := code r (S m) z / 2 ^ (8 * Z.of_nat m)).
  replace (Z.shiftr 128 (Z.of_nat r)) with (2 ^ (7 - Z.of_nat r)).
  2:{ change 128 with (2 ^ 7). rewrite Z.shiftr_div_pow2, <- Z.pow_sub_r by lia. done. }
  replace (8 * Z.of_nat (S m) - Z.of_nat r) with (8 * Z.of_nat m + (7 - Z.of_nat r) + 1) in H1, H2 by lia.
  rewrite !Z.pow_add_r in H1, H2 by lia. change (2 ^ 1) with 2 in H1, H2.
  assert (0 <= code r (S m) z < 2 ^ (8 * Z.of_nat m) * (2 ^ (7 - Z.of_nat r) * 2)).
  { unfold code. replace (8 * Z.of_nat (S m) - Z.of_nat r) with (8 * Z.of_nat m + (7 - Z.of_nat r) + 1) by lia.
    rewrite !Z.pow_add_r by lia. case_test; lia. }
  assert (0 <= h < 2 ^ (7 - Z.of_nat r + 1)).
  { split; [apply Z.div_pos; lia|]. apply Z.div_lt_upper_bound; [lia|]. rewrite Z.pow_add_r by lia. lia. }
  rewrite land_pow2, testbit_top by lia.
  destruct (Z.ltb_spec z 0) as [Hz|Hz]; destruct (Z.ltb_spec h (2 ^ (7 - Z.of_nat r))) as [Hh|Hh]; cbn [negb];
    try (by apply Z.eqb_neq; lia); [done| |].
  - exfalso. apply Z.le_ngt in Hh. apply Hh. apply Z.div_lt_upper_bound; [lia|]. unfold code.
    rewrite (proj2 (Z.ltb_lt z 0)) by done.
    replace (8 * Z.of_nat (S m) - Z.of_nat r) with (8 * Z.of_nat m + (7 - Z.of_nat r) + 1) by lia.
    rewrite !Z.pow_add_r by lia. change (2 ^ 1) with 2. lia.
  - exfalso. apply Z.lt_nge in Hh. apply Hh. apply Z.div_le_lower_bound; [lia|]. unfold code.
    rewrite (proj2 (Z.ltb_ge z 0)) by done. lia.
Qed.

(** The buffer the decoder works on: as many ones as there are bytes and reserved
    bits, and the absolute value. *)
Lemma decode_buffer r m z rest :
  (r ≤ 6)%nat → fits r (S m) (Z.abs z) →
  let slice := be_bytes (S m) (code r (S m) z) ++ rest in
  let buffer := if z <? 0 then FlipBits slice else slice in
  ∃ b0 rest', byte_at buffer 0 = Ok b0 ∧
    (if (r =? 0)%nat then Ok buffer
     else store_at buffer 0 (Z.lor b0 (u8 (Z.lnot (Z.shiftl 1 (8 - Z.of_nat r) - 1))))) =
    Ok (be_bytes (S m) (with_ones (S m) (S m + r) (Z.abs z)) ++ rest') ∧ length rest' = length rest.
Proof.
  intros Hr Hf slice buffer. set (c := code r (S m) z) in *.
  set (y := if z <? 0 then - c - 1 else c).
  assert (∃ rest', buffer = be_bytes (S m) y ++ rest' ∧ length rest' = length rest) as (rest' & -> & Hl).
  { unfold buffer, y, slice. case_test; [|by exists rest].
    exists (FlipBits rest). rewrite FlipBits_app. unfold FlipBits at 1. rewrite be_bytes_lnot.
    split; [done|]. apply length_fmap. }
  assert (y mod 2 ^ (8 * Z.of_nat (S m) - Z.of_nat r) = ones_code r (S m) (Z.abs z)) as Ey.
  { pose proof (ones_code_range r (S m) _ Hf). unfold y, c, code. case_test.
    - symmetry. apply Z.mod_unique_pos with (-1); lia.
    - apply Z.mod_small. lia. }
  assert (with_ones (S m) r (ones_code r (S m) (Z.abs z)) = with_ones (S m) (S m + r) (Z.abs z)) as Ew.
  { destruct (fits_pow r (S m) _ Hf) as (_ & E & _). unfold with_ones, ones_code.
    replace (8 * Z.of_nat (S m) - Z.of_nat (S m + r)) with (7 * Z.of_nat (S m) - Z.of_nat r) by lia.
    rewrite Nat2Z.inj_add, Z.pow_add_r, E by lia. lia. }
  exists (u8 (Z.shiftr y (8 * Z.of_nat m))), rest'. split_and!; [done| |done].
  pose proof (set_head r m y ltac:(lia)) as E. rewrite Ey, Ew in E. rewrite <- E.
  destruct (Nat.eqb_spec r 0) as [->|Hr0].
  - cbn [app be_bytes]. do 3 f_equal. change (8 - Z.of_nat 0) with 8.
    change (u8 (Z.lnot (Z.shiftl 1 8 - 1))) with 0. by rewrite Z.lor_0_r.
  - cbn [be_bytes app]. apply (store_at_app []).
Qed.

(** The byte that holds the last of the ones. *)
Lemma decode_body j m k u rest :
  (k < 8)%nat → 0 <= u < 2 ^ (8 * Z.of_nat m + (7 - Z.of_nat k)) →
  let buffer := replicate j 255 ++ be_bytes (S m) (with_ones (S m) k u) ++ rest in
  ∃ b, byte_at buffer j = Ok b ∧ strip_ones 8 b 128 (8 * j) = (u / 2 ^ (8 * Z.of_nat m), (8 * j + k)%nat) ∧
    store_at buffer j (u / 2 ^ (8 * Z.of_nat m)) = Ok (replicate j 255 ++ be_bytes (S m) u ++ rest).
Proof.
  intros Hk Hu buffer. destruct (with_ones_short m k u) as (Hb & Eu & Ew); [lia| |].
  { pose proof (Z.pow_le_mono_r 2 (8 * Z.of_nat m + (7 - Z.of_nat k)) (8 * Z.of_nat (S m) - Z.of_nat k)). lia. }
  unfold buffer. rewrite Ew, Eu. cbn [app]. eexists. split_and!.
  { etrans; [|apply (byte_at_app (replicate j 255))]. by rewrite length_replicate. }
  2:{ etrans; [|apply (store_at_app (replicate j 255))]. by rewrite length_replicate. }
  apply strip_ones_spec; [done|]. split; [lia|].
  apply Z.div_lt_upper_bound; [lia|]. rewrite <- Z.pow_add_r by lia. lia.
Qed.

Lemma varint_decode_encode r v x rest :
  (r ≤ 6)%nat → EncodeToComparable r v = Ok x →
  ∃ w, DecodeFromComparable r (x ++ rest) = Ok (w, length x) ∧ BN_value w = BN_value v.
Proof.
  intros Hr. rewrite encode_be by done. intros [= <-]. set (z := BN_value v).
  pose proof (size_fits r z Hr) as Hf. rewrite length_be_bytes.
  destruct (size_of r z) as [|m]; [by destruct Hf; lia|]. set (u := Z.abs z) in *.
  unfold DecodeFromComparable. destruct (decode_buffer r m z rest Hr Hf) as (b0 & rest' & E0 & Eb & Hl).
  cbn [be_bytes app]. rewrite decode_sign by done.
  change (_ :: be_bytes m _ ++ rest) with (be_bytes (S m) (code r (S m) z) ++ rest).
  rewrite E0. cbn [obind]. rewrite Eb. cbn [obind]. clear E0 Eb.
  set (len := length (be_bytes (S m) _ ++ rest)).
  assert (len = S m + length rest)%nat as Hlen by (unfold len; by rewrite length_app, length_be_bytes).
  pose proof Hf as (_ & Hr7 & Hu & _).
  destruct (skip_ones_spec (S len) (S m + r) (S m) 0 [] u rest')
    as (j & m' & k' & Em & Ek & Hk' & E & Esplit); [lia| |lia|].
  { by replace (8 * Z.of_nat (S m) - Z.of_nat (S m + r) - 1) with (7 * Z.of_nat (S m) - 1 - Z.of_nat r) by lia. }
  cbn [app length] in E. rewrite !Nat.add_0_l in E. fold u. rewrite E, Esplit, <- app_assoc. clear E. cbn [obind].
  destruct m' as [|m']; [lia|]. destruct (decode_body j m' k' u rest') as (b & Eb & Es & Ew); [done| |].
  { by replace (8 * Z.of_nat m' + (7 - Z.of_nat k')) with (7 * Z.of_nat (S m) - 1 - Z.of_nat r) by lia. }
  rewrite Eb. cbn [obind]. rewrite Es, Ew. cbn [obind].
  rewrite (proj2 (Nat.ltb_ge _ _)), drop_app_length', take_app_length' by (rewrite ?length_replicate, ?length_be_bytes; lia).
  eexists. split; [do 2 f_equal; lia|].
  assert (BN_value (BN_bin2bn (be_bytes (S m') u)) = u) as Ev.
  { rewrite BN_bin2bn_spec by apply be_bytes_ok. rewrite be_value_be_bytes. apply Z.mod_small.
    pose proof (Z.pow_le_mono_r 2 (7 * Z.of_nat (S m) - 1 - Z.of_nat r) (8 * Z.of_nat (S m'))). lia. }
  destruct (Z.ltb_spec z 0); rewrite ?BN_set_negative_spec, Ev; unfold u; lia.
Qed.

(** Whatever the bytes, the decoder stays inside its buffer. *)
Lemma skip_ones_total fuel idx num buffer :
  (idx < length buffer)%nat → (length buffer ≤ fuel + idx)%nat →
  skip_ones fuel idx num buffer = Err Corruption ∨
  ∃ idx' num', skip_ones fuel idx num buffer = Ok (idx', num') ∧ (idx' < length buffer)%nat.
Proof.
  revert idx num. induction fuel as [|fuel IH]; intros idx num Hi Hf; [lia|]. cbn [skip_ones].
  unfold byte_at. destruct (lookup_lt_is_Some_2 buffer idx Hi) as [b ->]. cbn [obind].
  case_test; [|right; eauto]. destruct (Nat.leb_spec (length buffer) (S idx)); [by left|].
  apply IH; lia.
Qed.

Lemma decode_total r slice :
  match DecodeFromComparable r slice with
  | Ok (_, n) => (n ≤ length slice)%nat
  | Err c => c = Corruption
  | _ => False
  end.
Proof.
  destruct slice as [|first l]; [done|]. unfold DecodeFromComparable.
  set (slice := first :: l). set (negative := Z.land _ _ =? 0).
  set (buffer := if negative then FlipBits slice else slice).
  assert (length buffer = length slice) as Hl by (unfold buffer; case_test; [apply length_fmap|done]).
  assert (0 < length slice)%nat as Hs by (simpl; lia). unfold byte_at at 1.
  destruct (lookup_lt_is_Some_2 buffer 0 ltac:(lia)) as [b0 ->]. cbn [obind].
  set (m := if (r =? 0)%nat then _ else _).
  assert (∃ buf, m = Ok buf ∧ length buf = length slice) as (buf & -> & Hb).
  { unfold m. destruct (r =? 0)%nat; [by exists buffer|]. unfold store_at. rewrite decide_True by lia.
    eexists. split; [done|]. by rewrite length_insert. }
  cbn [obind]. destruct (skip_ones_total (S (length slice)) 0 0 buf) as [->|(idx & num & -> & Hi)]; [lia..|done|].
  cbn [obind]. unfold byte_at, store_at. destruct (lookup_lt_is_Some_2 buf idx Hi) as [b ->]. cbn [obind].
  destruct (strip_ones 8 b 128 num) as [b' num']. rewrite decide_True by done. cbn [obind].
  destruct (Nat.ltb_spec (length slice) (num' - r)); [done|lia].
Qed.

(** ** Two's complement *)

Definition twos_value (l : bytes) : Z :=
  be_value l - match l with b :: _ => if 128 <=? b then be_size l else 0 | [] => 0 end.

Lemma be_value_snoc l b : be_value (l ++ [b]) = be_value l * 256 + b.
Proof. rewrite be_value_app, be_value_1. unfold be_size. simpl. lia. Qed.

Lemma be_size_snoc l b : be_size (l ++ [b]) = be_size l * 256.
Proof. unfold be_size. rewrite length_app, Nat2Z.inj_add, Z.pow_add_r by lia. simpl. lia. Qed.

Lemma carry_spec p z :
  bytes_ok p → be_value p + 1 < be_size p →
  ∃ p' i, carry (length p) (p ++ z) = Ok (p' ++ z, i) ∧ bytes_ok p' ∧ length p' = length p ∧
    be_value p' = be_value p + 1 ∧ (i < length p)%nat.
Proof.
  revert z. induction p as [|b q IH] using rev_ind; intros z Hok Hv; [by change (1 < 1) in Hv; lia|].
  apply Forall_app in Hok as [Hq Hb]. inversion Hb as [|? ? Hb1 _]; subst. unfold is_u8 in Hb1.
  rewrite be_value_snoc, be_size_snoc in Hv. rewrite length_app, Nat.add_1_r, <- app_assoc. cbn [app carry].
  rewrite byte_at_app. cbn [obind]. destruct (Z.eqb_spec b 255) as [->|Hne].
  - rewrite store_at_app. cbn [obind]. destruct (IH (0 :: z)) as (q' & i & -> & Hq' & Hl & Hv' & Hi); [done|lia|].
    exists (q' ++ [0]), i. rewrite <- app_assoc. split_and!; [done| |rewrite length_app; simpl; lia| |lia].
    + apply Forall_app. split; [done|]. bytes_done.
    + rewrite !be_value_snoc. lia.
  - rewrite store_at_app. cbn [obind]. exists (q ++ [u8 (b + 1)]), (length q). rewrite <- app_assoc.
    split_and!; [done| |rewrite length_app; simpl; lia| |lia].
    + apply Forall_app. split; [done|]. bytes_done.
    + rewrite !be_value_snoc, u8_small by (unfold is_u8; lia). lia.
Qed.

Lemma borrow_spec p z :
  bytes_ok p → 0 < be_value p →
  ∃ p', borrow (length p) (p ++ z) = Ok (p' ++ z) ∧ bytes_ok p' ∧ length p' = length p ∧
    be_value p' = be_value p - 1.
Proof.
  revert z. induction p as [|b q IH] using rev_ind; intros z Hok Hv; [by change (0 < 0) in Hv; lia|].
  apply Forall_app in Hok as [Hq Hb]. inversion Hb as [|? ? Hb1 _]; subst. unfold is_u8 in Hb1.
  rewrite be_value_snoc in Hv. rewrite length_app, Nat.add_1_r, <- app_assoc. cbn [app borrow].
  rewrite byte_at_app. cbn [obind]. destruct (Z.eqb_spec b 0) as [->|Hne].
  - rewrite store_at_app. cbn [obind]. destruct (IH (255 :: z)) as (q' & -> & Hq' & Hl & Hv'); [done|lia|].
    exists (q' ++ [255]). rewrite <- app_assoc. split_and!; [done| |rewrite !length_app; simpl; lia|].
    + apply Forall_app. split; [done|]. bytes_done.
    + rewrite !be_value_snoc. lia.
  - rewrite store_at_app. exists (q ++ [u8 (b - 1)]). rewrite <- app_assoc.
    split_and!; [done| |rewrite !length_app; simpl; lia|].
    + apply Forall_app. split; [done|]. bytes_done.
    + rewrite !be_value_snoc, u8_small by (unfold is_u8; lia). lia.
Qed.

Lemma top_bit b : is_u8 b → (Z.land b 128 =? 0) = negb (128 <=? b).
Proof.
  intros Hb. change 128 with (2 ^ 7). unfold is_u8 in Hb. rewrite land_pow2, testbit_top by lia.
  change (2 ^ 7) with 128. destruct (Z.ltb_spec b 128), (Z.leb_spec 128 b); (done || lia).
Qed.

Lemma FlipBits_value l : bytes_ok l → bytes_ok (FlipBits l) ∧ length (FlipBits l) = length l ∧
  be_value (FlipBits l) = be_size l - 1 - be_value l.
Proof.
  intros Hl. split_and!.
  - apply Forall_fmap, Forall_true. intros b. apply u8_range.
  - apply length_fmap.
  - induction Hl as [|b l Hb Hl IH]; [done|]. unfold FlipBits in *. rewrite fmap_cons, !be_value_cons, be_size_cons, IH.
    unfold be_size at 1. rewrite length_fmap. fold (be_size l). unfold is_u8 in Hb.
    assert (u8 (Z.lnot b) = 255 - b) as ->; [|lia]. unfold u8, Z.lnot.
    symmetry. apply Z.mod_unique_pos with (-1); lia.
Qed.

Lemma decode_twos l :
  bytes_ok l → l ≠ [] → ∃ w, DecodeFromTwosComplement l = Ok w ∧ BN_value w = twos_value l.
Proof.
  intros Hl Hne. destruct l as [|b l]; [done|]. inversion Hl as [|? ? Hb Hl']; subst.
  unfold DecodeFromTwosComplement, twos_value. rewrite top_bit by done.
  destruct (Z.leb_spec 128 b); cbn [negb].
  - assert (0 < be_value (b :: l)).
    { rewrite be_value_cons. pose proof (be_size_pos l). pose proof (be_value_range l Hl'). nia. }
    destruct (borrow_spec (b :: l) [] Hl ltac:(lia)) as (p & E & Hp & Hlen & Hv).
    rewrite !app_nil_r in E. rewrite E. cbn [obind]. eexists. split; [done|].
    destruct (FlipBits_value p Hp) as (Hf & _ & Hfv).
    rewrite BN_set_negative_spec, BN_bin2bn_spec, Hfv, Hv by done.
    assert (be_size p = be_size (b :: l)) as -> by (unfold be_size; by rewrite Hlen).
    pose proof (be_value_range (b :: l) Hl). lia.
  - eexists. split; [done|]. rewrite BN_bin2bn_spec by done. lia.
Qed.

(** The buffer of [EncodeToTwosComplement] has a free bit in front. *)
Lemma twos_buffer z :
  z ≠ 0 →
  let offset := (if num_bits z mod 8 =? 0 then 1 else 0)%nat in
  let count := ((num_bits z + 8 - 1) / 8 + offset)%nat in
  (1 ≤ count)%nat ∧ 0 < Z.abs z < 2 ^ (8 * Z.of_nat count - 1) ∧
  (offset = 1%nat → (2 ≤ count)%nat ∧ Z.abs z < 2 ^ (8 * (Z.of_nat count - 1))) ∧
  write_at (replicate count 0) offset (be_bytes (num_bytes z) (Z.abs z)) = Ok (be_bytes count (Z.abs z)).
Proof.
  intros Hz offset count. destruct (num_bits_bound z Hz) as (Hb & _ & Hu).
  assert (count = num_bytes z + offset)%nat as Ec by (unfold count, num_bytes; f_equal; f_equal; lia).
  pose proof (Nat.div_mod_eq (num_bits z + 7) 8) as Hd. pose proof (Nat.mod_upper_bound (num_bits z + 7) 8).
  pose proof (Nat.div_mod_eq (num_bits z) 8) as Hd'. pose proof (Nat.mod_upper_bound (num_bits z) 8).
  fold (num_bytes z) in Hd.
  assert (num_bits z + 1 ≤ 8 * count)%nat.
  { unfold offset in Ec. destruct (Nat.eqb_spec (num_bits z mod 8) 0); lia. }
  split_and!; [lia|lia| | |].
  - eapply Z.lt_le_trans; [exact Hu|]. apply Z.pow_le_mono_r; lia.
  - intros Ho. split; [lia|]. eapply Z.lt_le_trans; [apply num_bytes_bound|]. apply Z.pow_le_mono_r; lia.
  - rewrite Ec. replace offset with (num_bytes z + offset - num_bytes z)%nat at 2 by lia.
    apply write_number; [lia|apply num_bytes_bound].
Qed.

Lemma twos_value_alt l :
  bytes_ok l → twos_value l = be_value l - (if be_size l <=? 2 * be_value l then be_size l else 0).
Proof.
  intros Hl. unfold twos_value. destruct l as [|b l]; [done|]. inversion Hl as [|? ? Hb Hl']; subst.
  pose proof (be_value_range l Hl'). unfold is_u8 in Hb. rewrite be_value_cons, be_size_cons.
  destruct (Z.leb_spec 128 b), (Z.leb_spec (256 * be_size l) (2 * (b * be_size l + be_value l))); nia.
Qed.

(** Dropping a redundant leading byte. *)
Lemma twos_drop b l u :
  bytes_ok (b :: l) → l ≠ [] → 0 < u <= be_size l → be_value (b :: l) = be_size (b :: l) - u →
  twos_value (b :: l) = - u ∧
  ∀ c l', l = c :: l' → 128 <= c → twos_value l = - u.
Proof.
  intros Hok Hne Hu Hv. rewrite (twos_value_alt _ Hok). pose proof (be_size_pos l).
  inversion Hok as [|? ? Hb Hl]; subst. pose proof (be_value_range l Hl) as Hr. unfold is_u8 in Hb.
  split.
  - rewrite Hv, be_size_cons. rewrite (proj2 (Z.leb_le _ _)) by lia. lia.
  - rewrite be_value_cons, (be_size_cons b) in Hv. intros c l' -> Hc.
    unfold twos_value. rewrite (proj2 (Z.leb_le 128 c)) by done.
    destruct (decide (b = 255)) as [->|]; [lia|].
    assert (b * be_size (c :: l') <= 254 * be_size (c :: l')) by (apply Z.mul_le_mono_nonneg_r; lia). lia.
Qed.

(** Complement and add one. *)
Lemma negate_bytes c u :
  0 < u < 2 ^ (8 * Z.of_nat c - 1) →
  ∃ p i, carry c (FlipBits (be_bytes c u)) = Ok (p, i) ∧ bytes_ok p ∧ length p = c ∧
    be_size p = 2 ^ (8 * Z.of_nat c) ∧ be_value p = be_size p - u ∧ twos_value p = - u.
Proof.
  intros Hu. destruct c as [|c]; [by simpl in Hu; lia|].
  assert (2 ^ (8 * Z.of_nat (S c)) = 2 * 2 ^ (8 * Z.of_nat (S c) - 1)) as Ep
    by (rewrite <- Z.pow_succ_r by lia; f_equal; lia).
  destruct (FlipBits_value (be_bytes (S c) u) (be_bytes_ok _ _)) as (Hf & Hl & Hv).
  rewrite be_value_be_bytes, Z.mod_small, be_size_be_bytes in Hv by lia. rewrite length_be_bytes in Hl.
  assert (∀ l : bytes, length l = S c → be_size l = 2 ^ (8 * Z.of_nat (S c))) as Hs.
  { intros l Hlen. rewrite <- (be_size_be_bytes (S c) 0). unfold be_size. by rewrite Hlen, length_be_bytes. }
  destruct (carry_spec (FlipBits (be_bytes (S c) u)) [] Hf) as (p & i & E & Hp & Hlp & Hvp & _).
  { rewrite (Hs _ Hl). lia. }
  rewrite !app_nil_r, Hl in E. rewrite Hl in Hlp. exists p, i.
  split_and!; [done|done|done|by apply Hs|rewrite (Hs p Hlp); lia|].
  rewrite twos_value_alt, (Hs p Hlp), Hvp, Hv by done. rewrite (proj2 (Z.leb_le _ _)) by lia. lia.
Qed.

Lemma encode_twos v :
  ∃ l, EncodeToTwosComplement v = Ok l ∧ bytes_ok l ∧ l ≠ [] ∧ twos_value l = BN_value v.
Proof.
  unfold EncodeToTwosComplement. rewrite BN_is_zero_spec, BN_num_bits_spec, BN_bn2bin_spec, BN_is_negative_spec.
  set (z := BN_value v). destruct (Z.eqb_spec z 0) as [->|Hz].
  { exists [0]. split_and!; [done|bytes_done|done|done]. }
  destruct (twos_buffer z Hz) as (Hc & Hu & Ho & ->). cbn [obind].
  set (offset := (if num_bits z mod 8 =? 0 then 1 else 0)%nat) in *.
  set (c := ((num_bits z + 8 - 1) / 8 + offset)%nat) in *. rewrite length_be_bytes.
  destruct (Z.ltb_spec z 0) as [Hneg|Hpos].
  2:{ exists (be_bytes c (Z.abs z)). split_and!; [done|apply be_bytes_ok|destruct c; [lia|done]|].
      assert (2 ^ (8 * Z.of_nat c) = 2 * 2 ^ (8 * Z.of_nat c - 1)) by (rewrite <- Z.pow_succ_r by lia; f_equal; lia).
      rewrite twos_value_alt, be_value_be_bytes, Z.mod_small, be_size_be_bytes by (apply be_bytes_ok || lia).
      rewrite (proj2 (Z.leb_gt _ _)) by lia. lia. }
  destruct (negate_bytes c (Z.abs z) Hu) as (p & i & -> & Hp & Hlp & Hsp & Hvp & Htp). cbn [obind].
  destruct ((offset =? 1) && (0 <? i))%nat eqn:Eo.
  2:{ exists p. split_and!; [done|done|destruct p; simpl in *; [lia|done]|lia]. }
  apply andb_true_iff in Eo as [Eo _]. apply Nat.eqb_eq in Eo. destruct (Ho Eo) as [Hc2 Hu2].
  destruct p as [|b [|b1 p]]; cbn [length] in Hlp; [lia|lia|]. cbn [byte_at lookup list_lookup obind].
  inversion Hp as [|? ? Hb Hp1]; subst. inversion Hp1 as [|? ? Hb1 _]; subst. rewrite top_bit, negb_involutive by done.
  eexists. split; [done|]. destruct (Z.leb_spec 128 b1) as [H128|]; [|split_and!; [done|done|lia]]. cbn [drop].
  split_and!; [done|done|].
  destruct (twos_drop b (b1 :: p) (Z.abs z)) as [_ H]; [done|done| |done|].
  - split; [lia|]. apply Z.lt_le_incl. eapply Z.lt_le_trans; [exact Hu2|]. unfold be_size. cbn [length].
    change 256 with (2 ^ 8). rewrite <- Z.pow_mul_r by lia. apply Z.pow_le_mono_r; lia.
  - rewrite (H b1 p eq_refl H128). lia.
Qed.

(** ** Conversions and arithmetic *)

Lemma ToInt64_spec v :
  ToInt64 v = if bool_decide (is_i64 (BN_value v)) then Ok (BN_value v) else Err InvalidArgument.
Proof.
  unfold ToInt64. rewrite BN_get_word_spec, BN_is_negative_spec. set (z := BN_value v).
  destruct (Z.ltb_spec z 0).
  - change (u64 (- 2 ^ 63)) with (2 ^ 63). case_bool_decide as Hz; unfold is_i64 in *.
    + rewrite (proj2 (Z.ltb_ge _ _)) by lia. f_equal. rewrite i64_u64. rewrite i64_small; unfold is_i64; lia.
    + rewrite (proj2 (Z.ltb_lt _ _)) by lia. done.
  - change (u64 (2 ^ 63 - 1)) with (2 ^ 63 - 1). case_bool_decide as Hz; unfold is_i64 in *.
    + rewrite (proj2 (Z.ltb_ge _ _)) by lia. f_equal. rewrite i64_small; unfold is_i64; lia.
    + rewrite (proj2 (Z.ltb_lt _ _)) by lia. done.
Qed.

Lemma VarInt_spec n : is_i64 n → BN_value (VarInt n) = n.
Proof.
  unfold is_i64, VarInt. intros Hn. case_test; [apply BN_set_word_spec; unfold is_u64; lia|].
  rewrite BN_set_negative_spec, BN_set_word_spec by apply u64_range. rewrite u64_small; unfold is_u64; lia.
Qed.

Lemma Negate_spec v : BN_value (Negate v) = - BN_value v.
Proof.
  unfold Negate. rewrite BN_set_negative_spec, BN_is_negative_spec. destruct (Z.ltb_spec (BN_value v) 0); cbn [negb]; lia.
Qed.

Lemma Sign_spec v : Sign v = Z.sgn (BN_value v).
Proof.
  unfold Sign. rewrite BN_is_zero_spec, BN_is_negative_spec.
  destruct (Z.eqb_spec (BN_value v) 0), (Z.ltb_spec (BN_value v) 0); lia.
Qed.

Lemma varint_encode_compare r a b x y s t :
  (r ≤ 6)%nat → EncodeToComparable r a = Ok x → EncodeToComparable r b = Ok y →
  bytes_compare (x ++ s) (y ++ t) =
  match BN_value a ?= BN_value b with Eq => bytes_compare s t | c => c end.
Proof.
  intros Hr Ea Eb. assert (bytes_ok x ∧ bytes_ok y) as [Hx Hy].
  { rewrite encode_be in Ea, Eb by done. simplify_eq. split; apply be_bytes_ok. }
  destruct (Z.compare_spec (BN_value a) (BN_value b)) as [E|Hlt|Hgt].
  - rewrite encode_be in Ea, Eb by done. rewrite E in Ea. simplify_eq. apply bytes_compare_app_same.
  - by apply below_compare, (varint_encode_below r a b).
  - rewrite bytes_compare_antisym. by rewrite (below_compare y x t s) by (done || by apply (varint_encode_below r b a)).
Qed.

End Facts.
(** ** Properties *)

(** With up to six reserved bits, every pair of numbers has encodings that,
    followed by any bytes, decode to the numbers with their own lengths, and that
    compare as the numbers do; and no bytes make the decoder read outside its slice. *)
Theorem varint_comparable {B : BigNum} {HB : BigNumSpec B} (r : nat) (a b : BIGNUM) :
  (r ≤ 6)%nat →
  ∃ x y, EncodeToComparable r a = Ok x ∧ EncodeToComparable r b = Ok y ∧
    (∀ rest, ∃ w, DecodeFromComparable r (x ++ rest) = Ok (w, length x) ∧ BN_value w = BN_value a) ∧
    (∀ s t, bytes_compare (x ++ s) (y ++ t) =
       match BN_value a ?= BN_value b with Eq => bytes_compare s t | c => c end) ∧
    ∀ slice, match DecodeFromComparable r slice with
             | Ok (_, n) => (n ≤ length slice)%nat
             | Err c => c = Corruption
             | _ => False
             end.
Proof.
  intros Hr. pose proof (encode_be r a Hr) as Ea. pose proof (encode_be r b Hr) as Eb. eexists _, _.
  split_and!; [exact Ea|exact Eb| | |]; intros.
  - by eapply varint_decode_encode.
  - by eapply varint_encode_compare.
  - apply decode_total.
Qed.

Lemma varint_comparable_witness :
  ∃ x y, EncodeToComparable (B := ZNum) 2 (-1000) = Ok x ∧ EncodeToComparable (B := ZNum) 2 70000 = Ok y ∧
    bytes_compare (x ++ [255]) (y ++ [0]) = Lt.
Proof.
  destruct (varint_comparable (B := ZNum) 2 (-1000) 70000 ltac:(lia)) as (x & y & Ex & Ey & _ & Hc & _).
  exists x, y. split; [exact Ex|]. split; [exact Ey|]. exact (Hc [255] [0]).
Defined.

(** The two's complement encoding of every number is that number in two's complement, and
    decodes to it; the decoder reads any non-empty bytes as two's complement. *)
Theorem varint_twos_complement {B : BigNum} {HB : BigNumSpec B} (v : BIGNUM) :
  ∃ l, EncodeToTwosComplement v = Ok l ∧ twos_value l = BN_value v ∧
    (∃ w, DecodeFromTwosComplement l = Ok w ∧ BN_value w = BN_value v) ∧
    ∀ l', bytes_ok l' → l' ≠ [] → ∃ w, DecodeFromTwosComplement l' = Ok w ∧ BN_value w = twos_value l'.
Proof.
  destruct (encode_twos v) as (l & E & Hl & Hne & Ht). exists l. split_and!; [done|done| |by apply decode_twos].
  rewrite <- Ht. by apply decode_twos.
Qed.

Lemma varint_twos_complement_witness :
  ∃ l, EncodeToTwosComplement (B := ZNum) (-128) = Ok l ∧ twos_value l = -128 ∧
    ∃ w, DecodeFromTwosComplement (B := ZNum) [255; 0] = Ok w ∧ w = -256.
Proof.
  destruct (varint_twos_complement (B := ZNum) (-128)) as (l & E & Ht & _ & Hd).
  exists l. split; [exact E|]. split; [exact Ht|]. apply (Hd [255; 0]); [bytes_done|discriminate].
Defined.

End VarInt.
