(* ===== verification/Decimal.v ===== *)
(** * Decimal numbers

    Models util/decimal.h and util/decimal.cc: numbers
    [± 0.d1 d2 ... dk * 10 ^ exponent], their canonical form, comparison and addition, and the encoding used
    inside keys, whose byte order is the numeric order.  The exponent is a
    [VarInt]; the conversions from and to text and [double] are left out. *)

From S2P Require Import Prelude FastVarint VarInt.

Module Decimal.
Section Operations.
Context {B : BigNum}.

Record t := mk { digits_ : list Z; exponent_ : BIGNUM; is_positive_ : bool }.

Definition clear : t := mk [] (VarInt.VarInt 0) true.

Definition is_canonical (d : t) : bool :=
  match digits_ d with
  | [] => is_positive_ d && bool_decide (VarInt.CompareTo (exponent_ d) (VarInt.VarInt 0) = Eq)
  | first :: _ => negb (first =? 0) && negb (default 0 (last (digits_ d)) =? 0)
  end.

(** [while (num_zeros < digits_.size() && digits_[num_zeros] == 0) num_zeros++]. *)
Fixpoint leading_zeros (digits : list Z) : nat :=
  match digits with
  | d :: digits => if d =? 0 then S (leading_zeros digits) else 0%nat
  | [] => 0%nat
  end.

(** The loop that moves the digits to the front, [n] rounds from [i] on. *)
Fixpoint shift_digits (n i num_zeros : nat) (digits : list Z) : list Z :=
  match n with
  | O => digits
  | S n =>
      shift_digits n (S i) num_zeros
        (<[(i - num_zeros)%nat := if (i <? length digits)%nat then nth i digits 0 else 0]> digits)
  end.

(** [while (!digits_.empty() && digits_.back() == 0) digits_.pop_back()]. *)
Definition pop_zeros (digits : list Z) : list Z := reverse (drop (leading_zeros (reverse digits)) (reverse digits)).

Definition make_canonical (d : t) : t :=
  if is_canonical d then d
  else
    let num_zeros := leading_zeros (digits_ d) in
    let exponent := VarInt.minus (exponent_ d) (VarInt.VarInt (Z.of_nat num_zeros)) in
    let digits := pop_zeros (shift_digits (length (digits_ d)) num_zeros num_zeros (digits_ d)) in
    if bool_decide (digits = []) then clear else mk digits exponent (is_positive_ d).

(** The constructor. *)
Definition Decimal (digits : list Z) (exponent : BIGNUM) (is_positive : bool) : t :=
  make_canonical (mk digits exponent is_positive).

Definition Negate (d : t) : t := mk (digits_ d) (exponent_ d) (negb (is_positive_ d)).

Definition is_integer (d : t) : bool :=
  bool_decide (digits_ d = []) ||
  bool_decide (VarInt.CompareTo (exponent_ d) (VarInt.VarInt (Z.of_nat (length (digits_ d)))) ≠ Lt).

(** The loop over the common digits: the first difference, as a number. *)
Fixpoint compare_digits (a b : list Z) : Z :=
  match a, b with
  | x :: a, y :: b => if x - y =? 0 then compare_digits a b else x - y
  | _, _ => 0
  end.

(** The sign of the result is what callers use. *)
Definition CompareTo (d other : t) : Z :=
  if negb (eqb (is_positive_ d) (is_positive_ other))
  then Z.b2z (is_positive_ d) - Z.b2z (is_positive_ other)
  else
    let signed comp := if is_positive_ d then comp else - comp in
    if bool_decide (digits_ d = []) || bool_decide (digits_ other = []) then
      let comp := Z.b2z (bool_decide (digits_ d = [])) - Z.b2z (bool_decide (digits_ other = [])) in
      if is_positive_ d then - comp else comp
    else
      match VarInt.CompareTo (exponent_ d) (exponent_ other) with
      | Lt => signed (-1)
      | Gt => signed 1
      | Eq =>
          let comp := compare_digits (digits_ d) (digits_ other) in
          if negb (comp =? 0) then signed comp
          else signed (Z.of_nat (length (digits_ d)) - Z.of_nat (length (digits_ other)))
      end.

(** Pairs of digits, one byte each; all but the last byte are odd. *)
Fixpoint EncodeToDigitPairs (digits : list Z) : bytes :=
  match digits with
  | [] => []
  | [a] => [u8 (u8 (a * 10) * 2)]
  | [a; b] => [u8 (u8 (u8 (a * 10) + b) * 2)]
  | a :: b :: digits => u8 ((a * 10 + b) * 2 + 1) :: EncodeToDigitPairs digits
  end.

Definition EncodeToComparable (d : t) : outcome bytes :=
  if bool_decide (digits_ d = []) then Ok [128]
  else
    let! exponent := VarInt.EncodeToComparable 2 (exponent_ d) in
    let output := exponent ++ EncodeToDigitPairs (digits_ d) in
    let! first := byte_at output 0 in
    let! output := store_at output 0 (Z.lor first 0xc0) in
    Ok (if is_positive_ d then output else VarInt.FlipBits output).

(** The loop over the bytes: the digits and the number of bytes up to an even one. *)
Fixpoint digit_pairs (slice : bytes) : option (list Z * nat) :=
  match slice with
  | [] => None
  | byte :: slice =>
      let half := byte / 2 in
      if Z.land byte 1 =? 0 then Some ([half / 10; half mod 10], 1%nat)
      else
        match digit_pairs slice with
        | Some (digits, n) => Some (half / 10 :: half mod 10 :: digits, S n)
        | None => None
        end
  end.

Definition DecodeFromDigitPairs (slice : bytes) : outcome (list Z * nat) :=
  match digit_pairs slice with
  | Some (digits, n) => Ok (pop_zeros digits, n)
  | None => Err Corruption
  end.

Definition DecodeFromComparable (slice : bytes) : outcome (t * nat) :=
  match slice with
  | [] => Err Corruption
  | first :: _ =>
      if first =? 128 then Ok (clear, 1%nat)
      else
        let is_positive := 128 <=? first in
        let encoded := if is_positive then slice else VarInt.FlipBits slice in
        let! (exponent, num_exponent_bytes) := VarInt.DecodeFromComparable 2 encoded in
        let! (digits, num_mantissa_bytes) := DecodeFromDigitPairs (drop num_exponent_bytes encoded) in
        Ok (mk digits exponent is_positive, (num_exponent_bytes + num_mantissa_bytes)%nat)
  end.

(** *** Addition *)

(** Zeros in front, so that the number has the larger exponent. *)
Definition align (max_exponent : BIGNUM) (d : t) : outcome t :=
  match VarInt.CompareTo (exponent_ d) max_exponent with
  | Lt =>
      match VarInt.ToInt64 (VarInt.minus max_exponent (exponent_ d)) with
      | Ok increase => Ok (mk (replicate (Z.to_nat increase) 0 ++ digits_ d) max_exponent (is_positive_ d))
      | _ => Fatal
      end
  | _ => Ok d
  end.

Definition pad (n : nat) (digits : list Z) : list Z := digits ++ replicate (n - length digits) 0.

(** The loops from the last digit to the first, on as many digits each: what is left over
    at the front, and the digits. *)
Fixpoint add_digits (a b : list Z) : bool * list Z :=
  match a, b with
  | x :: a, y :: b =>
      let (carry, s) := add_digits a b in
      let x := x + Z.b2z carry + y in
      if 9 <? x then (true, (x - 10) :: s) else (false, x :: s)
  | _, _ => (false, [])
  end.

Fixpoint sub_digits (a b : list Z) : bool * list Z :=
  match a, b with
  | x :: a, y :: b =>
      let (borrow, s) := sub_digits a b in
      let y := y + Z.b2z borrow in
      if y <=? x then (false, (x - y) :: s) else (true, (x + 10 - y) :: s)
  | _, _ => (false, [])
  end.

Definition plus (d other : t) : outcome t :=
  let decimal := Decimal (digits_ d) (exponent_ d) (is_positive_ d) in
  let other1 := Decimal (digits_ other) (exponent_ other) (is_positive_ other) in
  let max_exponent := match VarInt.CompareTo (exponent_ other1) (exponent_ decimal) with
                      | Lt => exponent_ decimal | _ => exponent_ other1 end in
  let! decimal := align max_exponent decimal in
  let! other1 := align max_exponent other1 in
  let max_digits := Nat.max (length (digits_ decimal)) (length (digits_ other1)) in
  let a := pad max_digits (digits_ decimal) in
  let b := pad max_digits (digits_ other1) in
  if eqb (is_positive_ decimal) (is_positive_ other1) then
    let (carry, s) := add_digits a b in
    Ok (make_canonical
          (if carry : bool then mk (1 :: s) (VarInt.plus (exponent_ decimal) (VarInt.VarInt 1)) (is_positive_ decimal)
           else mk s (exponent_ decimal) (is_positive_ decimal)))
  else
    let swap := compare_digits a b <? 0 in
    let (borrow, s) := if swap then sub_digits b a else sub_digits a b in
    if borrow : bool then UB
    else Ok (make_canonical (mk s (exponent_ decimal) (if swap then negb (is_positive_ decimal) else is_positive_ decimal))).

End Operations.
(** ** Strings that differ before either ends *)

Lemma below_cons_lt x y a b : x < y → bytes_ok a → bytes_ok b → below (x :: a) (y :: b).
Proof.
  intros Hxy Ha Hb. unfold below. rewrite !be_value_cons, !be_size_cons.
  pose proof (be_value_range a Ha). pose proof (be_value_range b Hb).
  transitivity (((x + 1) * be_size a) * (256 * be_size b)); [apply Z.mul_le_mono_nonneg_r; lia|].
  transitivity ((y * be_size b) * (256 * be_size a)); [|apply Z.mul_le_mono_nonneg_r; lia].
  pose proof (Z.mul_le_mono_nonneg_r (x + 1) y (be_size a * be_size b)). nia.
Qed.

Lemma below_cons x a b : below a b → below (x :: a) (x :: b).
Proof. unfold below. rewrite !be_value_cons, !be_size_cons. nia. Qed.

Lemma below_app_same c a b : below a b → below (c ++ a) (c ++ b).
Proof. intros H. induction c as [|x c IH]; [done|]. by apply below_cons. Qed.

Lemma below_app a b x y : bytes_ok x → bytes_ok y → below a b → below (a ++ x) (b ++ y).
Proof.
  intros Hx Hy H. unfold below in *. rewrite !be_value_app.
  pose proof (be_value_range x Hx). pose proof (be_value_range y Hy).
  assert (∀ l k : bytes, be_size (l ++ k) = be_size l * be_size k) as Hs.
  { intros l k. unfold be_size. rewrite length_app, Nat2Z.inj_add, Z.pow_add_r by lia. done. }
  rewrite !Hs. pose proof (be_size_pos a). pose proof (be_size_pos b).
  transitivity ((be_value a + 1) * be_size x * (be_size b * be_size y)).
  { apply Z.mul_le_mono_nonneg_r; [|lia]. apply Z.mul_nonneg_nonneg; lia. }
  transitivity (be_value b * be_size y * (be_size a * be_size x)).
  2:{ apply Z.mul_le_mono_nonneg_r; [apply Z.mul_nonneg_nonneg|]; lia. }
  pose proof (Z.mul_le_mono_nonneg_r _ _ (be_size x * be_size y) ltac:(apply Z.mul_nonneg_nonneg; lia) H). lia.
Qed.

(** Complementing reverses the order. *)
Lemma below_flip a b : bytes_ok a → bytes_ok b → below a b → below (VarInt.FlipBits b) (VarInt.FlipBits a).
Proof.
  intros Ha Hb H. unfold below in *.
  destruct (VarInt.FlipBits_value a Ha) as (_ & Hla & ->), (VarInt.FlipBits_value b Hb) as (_ & Hlb & ->).
  assert (be_size (VarInt.FlipBits a) = be_size a) as -> by (unfold be_size; by rewrite Hla).
  assert (be_size (VarInt.FlipBits b) = be_size b) as -> by (unfold be_size; by rewrite Hlb). lia.
Qed.

Lemma flip_flip l : bytes_ok l → VarInt.FlipBits (VarInt.FlipBits l) = l.
Proof.
  intros Hl. unfold VarInt.FlipBits. rewrite <- list_fmap_compose. rewrite <- (list_fmap_id l) at 2.
  apply list_fmap_ext. intros i b Hb. assert (is_u8 b) as Hb8 by (by eapply (Forall_lookup_1 is_u8)).
  unfold compose, is_u8 in *. assert (u8 (Z.lnot b) = 255 - b) as ->.
  { unfold u8, Z.lnot. symmetry. apply Z.mod_unique_pos with (-1); lia. }
  unfold u8, Z.lnot. symmetry. apply Z.mod_unique_pos with (-1); simpl; lia.
Qed.

(** ** Digits *)

Definition digits_ok (digits : list Z) : Prop := Forall (λ x, 0 <= x <= 9) digits.
(** The digits of a canonical number that is not zero end in another digit than zero. *)
Definition no_trailing (digits : list Z) : Prop := ∀ x, last digits = Some x → x ≠ 0.

Lemma pair_ind {A} (P : list A → Prop) :
  P [] → (∀ a, P [a]) → (∀ a b l, P l → P (a :: b :: l)) → ∀ l, P l.
Proof.
  intros H0 H1 H2. fix IH 1. intros [|a [|b l]]; [done|apply H1|apply H2, IH].
Qed.

Lemma EncodeToDigitPairs_cons a b c l :
  EncodeToDigitPairs (a :: b :: c :: l) = u8 ((a * 10 + b) * 2 + 1) :: EncodeToDigitPairs (c :: l).
Proof. done. Qed.

Lemma digit_pairs_ok l : bytes_ok (EncodeToDigitPairs l).
Proof.
  induction l as [|a|a b l IH] using pair_ind; [constructor|bytes_done|].
  destruct l as [|c l]; [bytes_done|]. rewrite EncodeToDigitPairs_cons. constructor; [apply u8_range|done].
Qed.

(** The digits a reader of the pairs gets, with a zero added to an odd number of them. *)
Fixpoint padded (digits : list Z) : list Z :=
  match digits with
  | [] => []
  | [a] => [a; 0]
  | a :: b :: digits => a :: b :: padded digits
  end.

Lemma leading_zeros_app x l : x ≠ 0 → leading_zeros (x :: l) = 0%nat.
Proof. intros Hx. cbn [leading_zeros]. by rewrite (proj2 (Z.eqb_neq x 0)). Qed.

Lemma pop_zeros_id l : no_trailing l → pop_zeros l = l.
Proof.
  intros Hl. unfold pop_zeros. destruct l as [|x l' _] using rev_ind; [done|].
  rewrite reverse_snoc, leading_zeros_app by (apply Hl, last_snoc). cbn [drop].
  by rewrite reverse_cons, reverse_involutive.
Qed.

Lemma pop_zeros_snoc l : pop_zeros (l ++ [0]) = pop_zeros l.
Proof. unfold pop_zeros. rewrite reverse_snoc. done. Qed.

Lemma padded_cases l : padded l = l ∨ padded l = l ++ [0].
Proof.
  induction l as [|a|a b l IH] using pair_ind; [by left|by right|]. cbn [padded].
  destruct IH as [->| ->]; [by left|by right].
Qed.

Lemma padded_pop l : no_trailing l → pop_zeros (padded l) = l.
Proof.
  intros Hl. destruct (padded_cases l) as [->| ->]; rewrite ?pop_zeros_snoc; by apply pop_zeros_id.
Qed.

Lemma odd_byte p : 0 <= p <= 99 →
  u8 (p * 2 + 1) = p * 2 + 1 ∧ Z.land (p * 2 + 1) 1 = 1 ∧ (p * 2 + 1) / 2 = p.
Proof.
  intros Hp. split_and!.
  - apply u8_small. unfold is_u8. lia.
  - change 1 with (2 ^ 1 - 1) at 2. rewrite land_ones_mod by lia. change (2 ^ 1) with 2.
    symmetry. apply Z.mod_unique_pos with p; lia.
  - symmetry. apply Z.div_unique_pos with 1; lia.
Qed.

Lemma even_byte p : 0 <= p <= 99 →
  u8 (p * 2) = p * 2 ∧ Z.land (p * 2) 1 = 0 ∧ p * 2 / 2 = p.
Proof.
  intros Hp. split_and!.
  - apply u8_small. unfold is_u8. lia.
  - change 1 with (2 ^ 1 - 1). rewrite land_ones_mod by lia. change (2 ^ 1) with 2.
    symmetry. apply Z.mod_unique_pos with p; lia.
  - symmetry. apply Z.div_unique_pos with 0; lia.
Qed.

Lemma pair_digits a b : 0 <= a <= 9 → 0 <= b <= 9 → (a * 10 + b) / 10 = a ∧ (a * 10 + b) mod 10 = b.
Proof.
  intros Ha Hb. split; symmetry; [apply Z.div_unique_pos with b|apply Z.mod_unique_pos with a]; lia.
Qed.

(** The three shapes of the encoding. *)
Lemma pairs_one a : 0 <= a <= 9 → EncodeToDigitPairs [a] = [(a * 10 + 0) * 2].
Proof.
  intros Ha. cbn [EncodeToDigitPairs]. rewrite (u8_small (a * 10)) by (unfold is_u8; lia).
  destruct (even_byte (a * 10)) as (-> & _); [lia|]. by rewrite Z.add_0_r.
Qed.

Lemma pairs_two a b : 0 <= a <= 9 → 0 <= b <= 9 → EncodeToDigitPairs [a; b] = [(a * 10 + b) * 2].
Proof.
  intros Ha Hb. cbn [EncodeToDigitPairs]. rewrite (u8_small (a * 10)), (u8_small (a * 10 + b)) by (unfold is_u8; lia).
  by destruct (even_byte (a * 10 + b)) as (-> & _); [lia|].
Qed.

Lemma pairs_more a b c l : 0 <= a <= 9 → 0 <= b <= 9 →
  EncodeToDigitPairs (a :: b :: c :: l) = ((a * 10 + b) * 2 + 1) :: EncodeToDigitPairs (c :: l).
Proof.
  intros Ha Hb. rewrite EncodeToDigitPairs_cons. by destruct (odd_byte (a * 10 + b)) as (-> & _); [lia|].
Qed.

Lemma digit_pairs_last a b rest : 0 <= a <= 9 → 0 <= b <= 9 →
  digit_pairs ((a * 10 + b) * 2 :: rest) = Some ([a; b], 1%nat).
Proof.
  intros Ha Hb. cbn [digit_pairs]. destruct (even_byte (a * 10 + b)) as (_ & -> & ->); [lia|].
  destruct (pair_digits a b Ha Hb) as [-> ->]. done.
Qed.

Lemma decode_digit_pairs l rest :
  digits_ok l → l ≠ [] →
  digit_pairs (EncodeToDigitPairs l ++ rest) = Some (padded l, length (EncodeToDigitPairs l)).
Proof.
  induction l as [|a|a b l IH] using pair_ind; intros Hl Hne; [done| |].
  - inversion Hl; subst. rewrite pairs_one by done. by apply digit_pairs_last.
  - inversion Hl as [|? ? Ha Hl1]; subst. inversion Hl1 as [|? ? Hb Hl2]; subst. destruct l as [|c l].
    + rewrite pairs_two by done. by apply digit_pairs_last.
    + rewrite pairs_more by done. cbn [app digit_pairs].
      destruct (odd_byte (a * 10 + b)) as (_ & -> & ->); [lia|]. cbn [Z.eqb].
      destruct (pair_digits a b Ha Hb) as [-> ->]. by rewrite IH by done.
Qed.

(** ** Order of the digits *)

Definition digits_lt (a b : list Z) : Prop :=
  compare_digits a b < 0 ∨ (compare_digits a b = 0 ∧ (length a < length b)%nat).

Lemma digits_lt_cons x y a b : digits_lt (x :: a) (y :: b) ↔ x < y ∨ (x = y ∧ digits_lt a b).
Proof.
  unfold digits_lt. cbn [compare_digits length]. destruct (Z.eqb_spec (x - y) 0); split; intros; intuition lia.
Qed.

Lemma digits_lt_nil_r a : ¬ digits_lt a [].
Proof. unfold digits_lt. destruct a; simpl; lia. Qed.

Lemma no_trailing_tail x y l : no_trailing (x :: y :: l) → no_trailing (y :: l).
Proof. done. Qed.

Lemma pairs_below a b :
  digits_ok a → digits_ok b → a ≠ [] → no_trailing b → digits_lt a b →
  below (EncodeToDigitPairs a) (EncodeToDigitPairs b).
Proof.
  revert b. induction a as [|x|x w a IH] using pair_ind; intros b Ha Hb Hne Ht Hlt; [done| |].
  - inversion Ha; subst. destruct b as [|y [|z [|c b]]]; [by apply digits_lt_nil_r in Hlt|..];
      apply digits_lt_cons in Hlt; rewrite pairs_one by done; inversion Hb as [|? ? Hy Hb1]; subst.
    + rewrite pairs_one by done. apply below_cons_lt; [|constructor..].
      destruct Hlt as [|[_ ?%digits_lt_nil_r]]; [lia|done].
    + inversion Hb1; subst. rewrite pairs_two by done. apply below_cons_lt; [|constructor..].
      specialize (Ht z eq_refl). lia.
    + inversion Hb1; subst. rewrite pairs_more by done. apply below_cons_lt; [lia|constructor|apply digit_pairs_ok].
  - inversion Ha as [|? ? Hx Ha1]; subst. inversion Ha1 as [|? ? Hw Ha2]; subst.
    destruct b as [|y b]; [by apply digits_lt_nil_r in Hlt|]. apply digits_lt_cons in Hlt.
    inversion Hb as [|? ? Hy Hb1]; subst. destruct b as [|z b].
    { assert (x < y) by (destruct Hlt as [|[_ ?%digits_lt_nil_r]]; [lia|done]). rewrite (pairs_one y) by done.
      destruct a as [|c a]; [rewrite pairs_two by done|rewrite pairs_more by done];
        apply below_cons_lt; try constructor; try apply digit_pairs_ok; lia. }
    inversion Hb1 as [|? ? Hz Hb2]; subst. rewrite digits_lt_cons in Hlt.
    destruct (decide (x * 10 + w < y * 10 + z)) as [Hp|Hp].
    { destruct a as [|c a]; [rewrite pairs_two by done|rewrite pairs_more by done];
      (destruct b as [|c' b]; [rewrite pairs_two by done|rewrite pairs_more by done]);
      apply below_cons_lt; try constructor; try apply digit_pairs_ok; lia. }
    assert (x = y ∧ w = z ∧ digits_lt a b) as (-> & -> & Hlt') by (intuition lia).
    destruct b as [|c' b]; [by apply digits_lt_nil_r in Hlt'|]. rewrite (pairs_more y z c') by done.
    destruct a as [|c a]; [rewrite pairs_two by done; apply below_cons_lt; [lia|constructor|apply digit_pairs_ok]|].
    rewrite pairs_more by done. apply below_cons, IH; try done.
Qed.

Lemma digits_trichotomy a b : digits_lt a b ∨ a = b ∨ digits_lt b a.
Proof.
  revert b. induction a as [|x a IH]; intros [|y b].
  - by right; left.
  - left. unfold digits_lt. simpl. lia.
  - right; right. unfold digits_lt. simpl. lia.
  - rewrite !digits_lt_cons. destruct (IH b) as [H|[->|H]]; destruct (Z.lt_trichotomy x y) as [?|[->|?]]; auto.
Qed.

Lemma digits_lt_irrefl a : ¬ digits_lt a a.
Proof. induction a as [|x a IH]; [by unfold digits_lt; simpl; lia|]. rewrite digits_lt_cons. intuition lia. Qed.

Lemma digits_lt_asym a b : digits_lt a b → ¬ digits_lt b a.
Proof.
  revert b. induction a as [|x a IH]; intros [|y b]; try by (unfold digits_lt; simpl; lia).
  rewrite !digits_lt_cons. specialize (IH b). intuition lia.
Qed.

(** ** The encoding *)

Section Facts.
Context {B : BigNum} {HB : BigNumSpec B}.

Definition wf (d : t) : Prop := digits_ok (digits_ d) ∧ is_canonical d = true.

(** The same number; a [BIGNUM] may have several representations. *)
Definition equiv (d d' : t) : Prop :=
  digits_ d = digits_ d' ∧ BN_value (exponent_ d) = BN_value (exponent_ d') ∧ is_positive_ d = is_positive_ d'.

Lemma wf_cases d : wf d →
  (digits_ d = [] ∧ is_positive_ d = true ∧ BN_value (exponent_ d) = 0) ∨
  (digits_ d ≠ [] ∧ no_trailing (digits_ d) ∧ ∃ x l, digits_ d = x :: l ∧ x ≠ 0).
Proof.
  intros [_ Hc]. unfold is_canonical in Hc. destruct (digits_ d) as [|x l] eqn:E.
  - left. bool_tests. split_and!; [done|done|]. unfold VarInt.CompareTo in *. rewrite BN_cmp_spec in *.
    rewrite VarInt.VarInt_spec in * by (unfold is_i64; lia). by apply Z.compare_eq_iff.
  - right. bool_tests. split_and!; [done| |by exists x, l].
    intros y Hy. by rewrite Hy in *.
Qed.

Lemma exponent_head v :
  ∃ h l, VarInt.EncodeToComparable 2 v = Ok (h :: l) ∧ 0 <= h < 64 ∧ bytes_ok l.
Proof.
  rewrite VarInt.encode_be by lia. set (z := BN_value v).
  pose proof (VarInt.size_fits 2 z ltac:(lia)) as Hf. destruct (VarInt.size_of 2 z) as [|m]; [by destruct Hf; lia|].
  eexists _, _. split; [done|]. split; [|apply be_bytes_ok].
  rewrite VarInt.be_bytes_head by (by apply VarInt.code_range).
  pose proof (VarInt.code_range 2 (S m) z Hf). destruct (VarInt.ones_code_range 2 (S m) _ Hf) as [H1 H2].
  assert (VarInt.code 2 (S m) z < 2 ^ (8 * Z.of_nat (S m) - Z.of_nat 2)) as Hc.
  { unfold VarInt.code. case_test; lia. }
  split; [apply Z.div_pos; lia|]. apply Z.div_lt_upper_bound; [lia|].
  replace (8 * Z.of_nat (S m) - Z.of_nat 2) with (8 * Z.of_nat m + 6) in Hc by lia.
  by rewrite Z.pow_add_r in Hc by lia.
Qed.

Lemma sign_bits h : 0 <= h < 64 → Z.lor h 192 = h + 192.
Proof.
  intros Hh. change 192 with (3 * 2 ^ 6) at 1. rewrite Z.lor_comm, lor_disjoint by (change (2 ^ 6) with 64; lia). lia.
Qed.

(** The bytes of a number that is not zero, before the sign is applied. *)
Lemma encode_nonzero d :
  digits_ d ≠ [] →
  ∃ h l, VarInt.EncodeToComparable 2 (exponent_ d) = Ok (h :: l) ∧ 0 <= h < 64 ∧ bytes_ok l ∧
    let output := (h + 192) :: l ++ EncodeToDigitPairs (digits_ d) in
    bytes_ok output ∧
    EncodeToComparable d = Ok (if is_positive_ d then output else VarInt.FlipBits output).
Proof.
  intros Hne. destruct (exponent_head (exponent_ d)) as (h & l & E & Hh & Hl). exists h, l.
  split_and!; [done|lia|lia|done|]. split.
  - constructor; [unfold is_u8; lia|]. apply Forall_app. split; [done|apply digit_pairs_ok].
  - unfold EncodeToComparable. rewrite bool_decide_false, E by done. cbn [obind app byte_at lookup list_lookup].
    change 0xc0 with 192. rewrite sign_bits by done. etrans; [|done].
    unfold store_at. by rewrite decide_True by (cbn [length]; lia).
Qed.

(** The reserved bits do not matter to the decoder of the exponent. *)
Definition reserved_ok (h : Z) : bool :=
  (Z.land (h + 192) 32 =? Z.land h 32) && (Z.lor (h + 192) 192 =? Z.lor h 192) &&
  (Z.lor (u8 (Z.lnot (h + 192))) 192 =? Z.lor (u8 (Z.lnot h)) 192).

Lemma reserved_all_ok : forallb reserved_ok (seqZ 0 64) = true.
Proof. vm_compute. reflexivity. Qed.

Lemma decode_reserved h l :
  0 <= h < 64 → VarInt.DecodeFromComparable 2 ((h + 192) :: l) = VarInt.DecodeFromComparable 2 (h :: l).
Proof.
  intros Hh. pose proof reserved_all_ok as H. rewrite forallb_forall in H. specialize (H h).
  rewrite <- list_elem_of_In, elem_of_seqZ in H. specialize (H ltac:(lia)).
  unfold reserved_ok in H. bool_tests. unfold VarInt.DecodeFromComparable.
  change (Z.shiftr 128 (Z.of_nat 2)) with 32. rewrite H. cbn [length].
  set (negative := Z.land h 32 =? 0). change (2 =? 0)%nat with false. cbv iota.
  change (u8 (Z.lnot (Z.shiftl 1 (8 - Z.of_nat 2) - 1))) with 192.
  destruct negative; unfold VarInt.FlipBits; rewrite ?fmap_cons; cbn [byte_at lookup list_lookup obind];
    unfold store_at; cbn [length]; rewrite !decide_True by lia; cbn [insert list_insert]; congruence.
Qed.

Lemma encode_zero d : digits_ d = [] → EncodeToComparable d = Ok [128].
Proof. intros E. unfold EncodeToComparable. by rewrite bool_decide_true. Qed.

Lemma flip_head h l : 0 <= h < 256 → VarInt.FlipBits (h :: l) = (255 - h) :: VarInt.FlipBits l.
Proof.
  intros Hh. unfold VarInt.FlipBits. rewrite fmap_cons. f_equal. unfold u8, Z.lnot.
  symmetry. apply Z.mod_unique_pos with (-1); lia.
Qed.

Lemma decimal_decode_encode d x rest :
  wf d → EncodeToComparable d = Ok x →
  ∃ d', DecodeFromComparable (x ++ rest) = Ok (d', length x) ∧ equiv d' d.
Proof.
  intros Hwf E. destruct (wf_cases d Hwf) as [(Ed & Ep & Ee)|(Hne & Ht & _)].
  { rewrite encode_zero in E by done. injection E as <-. exists clear. split; [done|].
    unfold equiv, clear. cbn [digits_ exponent_ is_positive_]. rewrite VarInt.VarInt_spec by (unfold is_i64; lia). by rewrite Ed, Ep, Ee. }
  destruct (encode_nonzero d Hne) as (h & l & Ev & Hh & Hl & Hok & Ee).
  set (output := (h + 192) :: l ++ EncodeToDigitPairs (digits_ d)) in *.
  assert (x = if is_positive_ d then output else VarInt.FlipBits output) as -> by congruence. clear E Ee.
  assert (∀ rest', ∃ w, VarInt.DecodeFromComparable 2 (output ++ rest') = Ok (w, S (length l)) ∧
            BN_value w = BN_value (exponent_ d)) as Hexp.
  { intros rest'. unfold output. cbn [app]. rewrite decode_reserved, <- app_assoc by done.
    by apply (VarInt.varint_decode_encode 2 (exponent_ d) (h :: l)); [lia|]. }
  assert (∀ rest', DecodeFromDigitPairs (drop (S (length l)) (output ++ rest')) =
            Ok (digits_ d, length (EncodeToDigitPairs (digits_ d)))) as Hdig.
  { intros rest'. unfold output. cbn [app drop]. rewrite <- app_assoc, drop_app_length.
    unfold DecodeFromDigitPairs. rewrite decode_digit_pairs by (apply Hwf || done). by rewrite padded_pop. }
  assert (length output = S (length l) + length (EncodeToDigitPairs (digits_ d)))%nat as Hlen
    by (unfold output; cbn [length]; rewrite length_app; lia).
  destruct (is_positive_ d) eqn:Ep.
  - destruct (Hexp rest) as (w & Ew & Hw). exists (mk (digits_ d) w true). split; [|by unfold equiv; cbn].
    unfold DecodeFromComparable. unfold output at 1. cbn [app].
    rewrite (proj2 (Z.eqb_neq (h + 192) 128)), (proj2 (Z.leb_le 128 (h + 192))) by lia.
    change (h + 192 :: _) with (output ++ rest). rewrite Ew. cbn [obind]. rewrite Hdig. cbn [obind].
    by rewrite Hlen.
  - destruct (Hexp (VarInt.FlipBits rest)) as (w & Ew & Hw). exists (mk (digits_ d) w false). split; [|by unfold equiv; cbn].
    assert (∃ t, VarInt.FlipBits output ++ rest = (255 - (h + 192)) :: t) as [t Et].
    { unfold output. rewrite flip_head by lia. by eexists. }
    rewrite Et. unfold DecodeFromComparable.
    rewrite (proj2 (Z.eqb_neq (255 - (h + 192)) 128)), (proj2 (Z.leb_gt 128 (255 - (h + 192)))) by lia.
    rewrite <- Et. assert (VarInt.FlipBits (VarInt.FlipBits output ++ rest) = output ++ VarInt.FlipBits rest) as ->.
    { by rewrite VarInt.FlipBits_app, flip_flip by done. }
    rewrite Ew. cbn [obind]. rewrite Hdig. cbn [obind]. unfold VarInt.FlipBits at 1. by rewrite length_fmap, Hlen.
Qed.

(** The encoding depends on the number only. *)
Lemma encode_equiv d d' : equiv d d' → EncodeToComparable d = EncodeToComparable d'.
Proof.
  intros (E1 & E2 & E3). unfold EncodeToComparable. rewrite E1, E3, !VarInt.encode_be by lia. by rewrite E2.
Qed.

(** ** Order *)

(** The order of the absolute values of numbers that are not zero. *)
Definition abs_lt (d d' : t) : Prop :=
  BN_value (exponent_ d) < BN_value (exponent_ d') ∨
  (BN_value (exponent_ d) = BN_value (exponent_ d') ∧ digits_lt (digits_ d) (digits_ d')).

Definition lt (d d' : t) : Prop :=
  match is_positive_ d, is_positive_ d' with
  | false, true => True
  | true, false => False
  | true, true => digits_ d' ≠ [] ∧ (digits_ d = [] ∨ abs_lt d d')
  | false, false => digits_ d ≠ [] ∧ (digits_ d' = [] ∨ abs_lt d' d)
  end.

Lemma compare_digits_opp a b : compare_digits b a = - compare_digits a b.
Proof.
  revert b. induction a as [|x a IH]; intros [|y b]; try done. cbn [compare_digits].
  destruct (Z.eqb_spec (x - y) 0), (Z.eqb_spec (y - x) 0); try lia. apply IH.
Qed.

Definition compare_abs (d d' : t) : Z :=
  match VarInt.CompareTo (exponent_ d) (exponent_ d') with
  | Lt => -1
  | Gt => 1
  | Eq =>
      let comp := compare_digits (digits_ d) (digits_ d') in
      if negb (comp =? 0) then comp else Z.of_nat (length (digits_ d)) - Z.of_nat (length (digits_ d'))
  end.

Lemma compare_abs_lt d d' : compare_abs d d' < 0 ↔ abs_lt d d'.
Proof.
  unfold compare_abs, VarInt.CompareTo, abs_lt, digits_lt. rewrite BN_cmp_spec.
  destruct (Z.compare_spec (BN_value (exponent_ d)) (BN_value (exponent_ d'))); try (split; intros; lia).
  cbv zeta. destruct (Z.eqb_spec (compare_digits (digits_ d) (digits_ d')) 0); cbn [negb]; split; intros; intuition lia.
Qed.

Lemma compare_abs_opp d d' : compare_abs d' d = - compare_abs d d'.
Proof.
  unfold compare_abs, VarInt.CompareTo. rewrite !BN_cmp_spec, (Z.compare_antisym (BN_value (exponent_ d))).
  rewrite (compare_digits_opp (digits_ d) (digits_ d')).
  destruct (BN_value (exponent_ d) ?= BN_value (exponent_ d')); cbn [CompOpp]; try lia.
  cbv zeta. set (c := compare_digits _ _). destruct (Z.eqb_spec c 0), (Z.eqb_spec (- c) 0); cbn [negb]; lia.
Qed.

(** [CompareTo] by cases on the signs and on zero. *)
Lemma CompareTo_alt d d' :
  CompareTo d d' =
  match is_positive_ d, is_positive_ d' with
  | true, false => 1
  | false, true => -1
  | p, _ =>
      let c := match digits_ d, digits_ d' with
               | [], [] => 0
               | [], _ => -1
               | _, [] => 1
               | _, _ => compare_abs d d'
               end in
      if p then c else - c
  end.
Proof.
  unfold CompareTo, compare_abs. destruct (is_positive_ d), (is_positive_ d'); cbn [eqb negb Z.b2z]; try done;
    destruct (digits_ d) as [|x l], (digits_ d') as [|x' l'];
    rewrite ?(bool_decide_true ([] = [])), ?(bool_decide_false (_ :: _ = [])) by done; cbn [orb Z.b2z]; try done;
    cbv zeta; destruct (VarInt.CompareTo (exponent_ d) (exponent_ d')); try done; by case_test.
Qed.

Lemma CompareTo_opp d d' : CompareTo d' d = - CompareTo d d'.
Proof.
  rewrite !CompareTo_alt, (compare_abs_opp d d').
  destruct (is_positive_ d), (is_positive_ d'), (digits_ d), (digits_ d'); cbv zeta; lia.
Qed.

Lemma CompareTo_lt d d' : CompareTo d d' < 0 ↔ lt d d'.
Proof.
  rewrite CompareTo_alt. pose proof (compare_abs_lt d d') as H1. pose proof (compare_abs_lt d' d) as H2.
  rewrite compare_abs_opp in H2. unfold lt.
  destruct (is_positive_ d), (is_positive_ d'), (digits_ d), (digits_ d'); cbv zeta;
    try (split; intros; (done || lia)); intuition (done || lia).
Qed.

Lemma below_raise h h' l l' : below (h :: l) (h' :: l') → below ((h + 192) :: l) ((h' + 192) :: l').
Proof. unfold below. rewrite !be_value_cons, !be_size_cons. lia. Qed.

Lemma body_below d d' h l h' l' :
  wf d → wf d' → digits_ d ≠ [] → digits_ d' ≠ [] → abs_lt d d' →
  VarInt.EncodeToComparable 2 (exponent_ d) = Ok (h :: l) →
  VarInt.EncodeToComparable 2 (exponent_ d') = Ok (h' :: l') →
  below ((h + 192) :: l ++ EncodeToDigitPairs (digits_ d)) ((h' + 192) :: l' ++ EncodeToDigitPairs (digits_ d')).
Proof.
  intros Hwf Hwf' Hne Hne' Hlt E E'. rewrite !app_comm_cons. destruct Hlt as [Hlt|[Heq Hlt]].
  - apply below_app; [apply digit_pairs_ok..|]. apply below_raise.
    by apply (VarInt.varint_encode_below 2 (exponent_ d) (exponent_ d')); [lia|..].
  - rewrite VarInt.encode_be, Heq, <- VarInt.encode_be, E' in E by lia. simplify_eq.
    apply below_app_same, pairs_below; try done; [apply Hwf|apply Hwf'|].
    by destruct (wf_cases d' Hwf') as [(? & _)|(_ & ? & _)].
Qed.

Lemma negative_nonzero d : wf d → is_positive_ d = false → digits_ d ≠ [].
Proof. intros Hwf Hp. destruct (wf_cases d Hwf) as [(_ & ? & _)|(? & _)]; congruence. Qed.

(** The first byte of an encoding gives the sign. *)
Lemma encode_first d x : wf d → EncodeToComparable d = Ok x →
  ∃ b l, x = b :: l ∧ bytes_ok l ∧ is_u8 b ∧
    (if is_positive_ d then if bool_decide (digits_ d = []) then b = 128 else 192 <= b else b < 64).
Proof.
  intros Hwf E. unfold is_u8. destruct (decide (digits_ d = [])) as [Ed|Hne].
  - rewrite encode_zero in E by done. injection E as <-. exists 128, []. rewrite bool_decide_true by done.
    destruct (is_positive_ d) eqn:Ep; [|by apply negative_nonzero in Ep]. split_and!; (done || lia || constructor).
  - destruct (encode_nonzero d Hne) as (h & l & _ & Hh & _ & Hok & Ee).
    set (l1 := l ++ _) in *. inversion Hok as [|? ? _ Hok1]; subst. rewrite bool_decide_false by done.
    rewrite E in Ee. destruct (is_positive_ d).
    + exists (h + 192), l1. split_and!; [congruence|done|lia..].
    + rewrite flip_head in Ee by lia. exists (255 - (h + 192)), (VarInt.FlipBits l1).
      split_and!; [congruence| |lia..]. by apply VarInt.FlipBits_value.
Qed.

Lemma decimal_encode_below d d' x y :
  wf d → wf d' → EncodeToComparable d = Ok x → EncodeToComparable d' = Ok y → lt d d' → below x y.
Proof.
  intros Hwf Hwf' Ex Ey Hlt.
  destruct (encode_first d x Hwf Ex) as (b & l & -> & Hl & Hb & Hs).
  destruct (encode_first d' y Hwf' Ey) as (b' & l' & -> & Hl' & Hb' & Hs').
  unfold lt in Hlt. destruct (is_positive_ d) eqn:Ep, (is_positive_ d') eqn:Ep'; [| | |].
  - destruct Hlt as [Hne' Hlt]. rewrite (bool_decide_false (digits_ d' = [])) in Hs' by done.
    destruct (decide (digits_ d = [])) as [Ed|Hne].
    { rewrite bool_decide_true in Hs by done. apply below_cons_lt; (done || lia). }
    destruct Hlt as [|Hlt]; [done|].
    destruct (encode_nonzero d Hne) as (h1 & l1 & E1 & _ & _ & _ & F1).
    destruct (encode_nonzero d' Hne') as (h2 & l2 & E2 & _ & _ & _ & F2).
    rewrite Ex, Ep in F1. rewrite Ey, Ep' in F2. simplify_eq. by apply body_below.
  - done.
  - apply below_cons_lt; [|done..]. case_test_in Hs'; lia.
  - pose proof (negative_nonzero d Hwf Ep) as Hne. pose proof (negative_nonzero d' Hwf' Ep') as Hne'.
    destruct Hlt as [_ [|Hlt]]; [done|].
    destruct (encode_nonzero d Hne) as (h1 & l1 & E1 & _ & _ & Hok1 & F1).
    destruct (encode_nonzero d' Hne') as (h2 & l2 & E2 & _ & _ & Hok2 & F2).
    rewrite Ex, Ep in F1. rewrite Ey, Ep' in F2.
    assert (b :: l = VarInt.FlipBits (h1 + 192 :: l1 ++ EncodeToDigitPairs (digits_ d))) as -> by congruence.
    assert (b' :: l' = VarInt.FlipBits (h2 + 192 :: l2 ++ EncodeToDigitPairs (digits_ d'))) as -> by congruence.
    apply below_flip; [done..|]. by apply body_below.
Qed.

Lemma abs_trichotomy d d' :
  abs_lt d d' ∨ (digits_ d = digits_ d' ∧ BN_value (exponent_ d) = BN_value (exponent_ d')) ∨ abs_lt d' d.
Proof.
  unfold abs_lt. destruct (Z.lt_trichotomy (BN_value (exponent_ d)) (BN_value (exponent_ d'))) as [?|[?|?]]; [tauto| |tauto].
  destruct (digits_trichotomy (digits_ d) (digits_ d')) as [?|[?|?]]; [tauto..|]. right; right; right. by split.
Qed.

Lemma compare_zero_equiv d d' : wf d → wf d' → CompareTo d d' = 0 → equiv d d'.
Proof.
  intros Hwf Hwf' Hc. assert (¬ lt d d' ∧ ¬ lt d' d) as [H1 H2].
  { rewrite <- !CompareTo_lt, (CompareTo_opp d d'). lia. }
  unfold lt, equiv in *. destruct (is_positive_ d) eqn:Ep, (is_positive_ d') eqn:Ep'; try tauto.
  - destruct (wf_cases d Hwf) as [(Ed & _ & Ee)|(Hne & _)], (wf_cases d' Hwf') as [(Ed' & _ & Ee')|(Hne' & _)];
      try tauto; [by rewrite Ed, Ee, Ed', Ee'|].
    destruct (abs_trichotomy d d') as [?|[?|?]]; tauto.
  - pose proof (negative_nonzero d Hwf Ep). pose proof (negative_nonzero d' Hwf' Ep').
    destruct (abs_trichotomy d d') as [?|[?|?]]; tauto.
Qed.

(** Byte order is numeric order. *)
Lemma decimal_encode_compare d d' x y s t :
  wf d → wf d' → EncodeToComparable d = Ok x → EncodeToComparable d' = Ok y →
  bytes_compare (x ++ s) (y ++ t) =
  match CompareTo d d' ?= 0 with Eq => bytes_compare s t | c => c end.
Proof.
  intros Hwf Hwf' Ex Ey.
  assert (bytes_ok x ∧ bytes_ok y) as [Hx Hy].
  { destruct (encode_first d x Hwf Ex) as (? & ? & -> & ? & ? & _), (encode_first d' y Hwf' Ey) as (? & ? & -> & ? & ? & _).
    split; by constructor. }
  destruct (Z.compare_spec (CompareTo d d') 0) as [E|Hlt|Hgt].
  - apply compare_zero_equiv in E; [|done..]. rewrite (encode_equiv d d' E), Ey in Ex. simplify_eq.
    apply bytes_compare_app_same.
  - apply below_compare, (decimal_encode_below d d'); try done. by apply CompareTo_lt.
  - rewrite bytes_compare_antisym. rewrite (below_compare y x); [done..|].
    apply (decimal_encode_below d' d); try done. apply CompareTo_lt. rewrite CompareTo_opp. lia.
Qed.

Lemma encode_total d : ∃ x, EncodeToComparable d = Ok x.
Proof.
  destruct (decide (digits_ d = [])); [exists [128]; by apply encode_zero|].
  destruct (encode_nonzero d) as (? & ? & _ & _ & _ & _ & ->); [done|by eexists].
Qed.

(** ** Numeric values

    [frac l K] is [0.l * 10 ^ K], a whole number when [K] is at least the length of [l]. *)

Definition dval (l : list Z) : Z := foldl (λ a x, a * 10 + x) 0 l.
Definition frac (l : list Z) (K : Z) : Z := dval l * 10 ^ (K - Z.of_nat (length l)).

Lemma dval_acc l a : foldl (λ a x, a * 10 + x) a l = a * 10 ^ Z.of_nat (length l) + dval l.
Proof.
  unfold dval. revert a. induction l as [|x l IH]; intros a; cbn [foldl length]; [simpl; lia|].
  rewrite IH, (IH (0 * 10 + x)), Nat2Z.inj_succ, Z.pow_succ_r by lia. lia.
Qed.

Lemma frac_nil K : frac [] K = 0.
Proof. done. Qed.

Lemma frac_cons x l K :
  Z.of_nat (length l) < K → frac (x :: l) K = x * 10 ^ (K - 1) + frac l (K - 1).
Proof.
  intros HK. unfold frac. unfold dval at 1. cbn [foldl length]. rewrite dval_acc.
  rewrite Z.mul_add_distr_r, Z.mul_0_l, Z.add_0_l, <- Z.mul_assoc, <- Z.pow_add_r by lia. f_equal; f_equal; f_equal; lia.
Qed.

Lemma frac_bounds l K : digits_ok l → Z.of_nat (length l) <= K → 0 <= frac l K < 10 ^ K.
Proof.
  intros Hl. revert K. induction Hl as [|x l Hx Hl IH]; intros K HK; [rewrite frac_nil; simpl in *; lia|].
  cbn [length] in HK. rewrite frac_cons by lia. specialize (IH (K - 1) ltac:(lia)).
  replace (10 ^ K) with (10 * 10 ^ (K - 1)) by (rewrite <- Z.pow_succ_r by lia; f_equal; lia). nia.
Qed.

Lemma frac_zero_cons l K : Z.of_nat (length l) < K → frac (0 :: l) K = frac l (K - 1).
Proof. intros. rewrite frac_cons by done. lia. Qed.

Lemma frac_zeros_l n l K :
  Z.of_nat (n + length l) <= K → frac (replicate n 0 ++ l) K = frac l (K - Z.of_nat n).
Proof.
  revert K. induction n as [|n IH]; intros K HK; cbn [replicate app]; [f_equal; lia|].
  rewrite frac_zero_cons by (rewrite length_app, length_replicate; lia). rewrite IH by lia. f_equal. lia.
Qed.

Lemma frac_zeros_r n l K :
  Z.of_nat (n + length l) <= K → frac (l ++ replicate n 0) K = frac l K.
Proof.
  revert K. induction l as [|x l IH]; intros K HK; cbn [app length] in *.
  - rewrite <- (app_nil_r (replicate n 0)), frac_zeros_l by (simpl; lia). done.
  - rewrite !frac_cons by (rewrite ?length_app, ?length_replicate; lia). rewrite IH by lia. done.
Qed.

Lemma add_digits_spec a b K :
  digits_ok a → digits_ok b → length a = length b → Z.of_nat (length a) <= K →
  let (carry, s) := add_digits a b in
  digits_ok s ∧ length s = length a ∧ frac s K + Z.b2z carry * 10 ^ K = frac a K + frac b K.
Proof.
  intros Ha. revert b K. induction Ha as [|x a Hx Ha IH]; intros [|y b] K Hb Hlen HK; try done.
  inversion Hb as [|? ? Hy Hb']; subst. cbn [length] in *. cbn [add_digits].
  specialize (IH b (K - 1) Hb' ltac:(lia) ltac:(lia)). destruct (add_digits a b) as [carry s].
  destruct IH as (Hs & Hl & E).
  assert (10 ^ K = 10 * 10 ^ (K - 1)) by (rewrite <- Z.pow_succ_r by lia; f_equal; lia).
  destruct carry; cbn [Z.b2z] in *; cbv zeta; case_test; split_and!; try (constructor; [lia|done]); try (cbn [length]; lia);
    rewrite !frac_cons by lia; cbn [Z.b2z]; lia.
Qed.

Lemma sub_digits_spec a b K :
  digits_ok a → digits_ok b → length a = length b → Z.of_nat (length a) <= K →
  let (borrow, s) := sub_digits a b in
  digits_ok s ∧ length s = length a ∧ frac s K = frac a K - frac b K + Z.b2z borrow * 10 ^ K.
Proof.
  intros Ha. revert b K. induction Ha as [|x a Hx Ha IH]; intros [|y b] K Hb Hlen HK; try done.
  inversion Hb as [|? ? Hy Hb']; subst. cbn [length] in *. cbn [sub_digits].
  specialize (IH b (K - 1) Hb' ltac:(lia) ltac:(lia)). destruct (sub_digits a b) as [borrow s].
  destruct IH as (Hs & Hl & E).
  assert (10 ^ K = 10 * 10 ^ (K - 1)) by (rewrite <- Z.pow_succ_r by lia; f_equal; lia).
  destruct borrow; cbn [Z.b2z] in *; cbv zeta; case_test; split_and!; try (constructor; [lia|done]); try (cbn [length]; lia);
    rewrite !frac_cons by lia; cbn [Z.b2z]; lia.
Qed.

(** *** The canonical form *)

Lemma shift_digits_loop z mid done_ i :
  i = (length done_ + z)%nat →
  shift_digits (length mid) i z (done_ ++ mid) = done_ ++ map (λ j, nth (j + z) mid 0) (seq 0 (length mid)).
Proof.
  revert done_ i. induction mid as [|x mid IH]; intros done_ i ->; [done|]. cbn [length shift_digits seq map].
  replace (length done_ + z - z)%nat with (length done_ + 0)%nat by lia. rewrite insert_app_r. cbn [insert list_insert].
  set (y := if (_ <? _)%nat then _ else 0).
  assert (y = nth (0 + z) (x :: mid) 0) as Ey.
  { unfold y. rewrite length_app, app_nth2 by lia. replace (length done_ + z - length done_)%nat with z by lia.
    destruct (Nat.ltb_spec (length done_ + z) (length done_ + length (x :: mid))); [done|].
    rewrite nth_overflow by lia. done. }
  specialize (IH (done_ ++ [y]) (S (length done_ + z))). rewrite <- app_assoc in IH. cbn [app] in IH.
  rewrite IH by (rewrite length_app; simpl; lia). rewrite <- app_assoc. f_equal. cbn [app]. f_equal; [done|].
  rewrite <- seq_shift, map_map. done.
Qed.

Lemma shift_digits_spec z l :
  (z ≤ length l)%nat → shift_digits (length l) z z l = drop z l ++ replicate z 0.
Proof.
  intros Hz. etrans; [exact (shift_digits_loop z l [] z eq_refl)|]. cbn [app].
  apply (nth_ext _ _ 0 0); rewrite length_map, length_seq; [rewrite length_app, length_drop, length_replicate; lia|].
  intros j Hj. rewrite (nth_indep _ 0 (nth (0 + z) l 0)), (map_nth (λ j, nth (j + z) l 0)), seq_nth by (rewrite ?length_map, ?length_seq; done).
  cbn [Nat.add]. destruct (decide (j + z < length l)%nat) as [H|H].
  - rewrite app_nth1 by (rewrite length_drop; lia). by rewrite nth_skipn, Nat.add_comm.
  - rewrite nth_overflow, app_nth2 by (rewrite ?length_drop; lia). symmetry.
    destruct (nth_in_or_default (j - length (drop z l)) (replicate z 0) 0) as [Hin|]; [|done].
    apply list_elem_of_In, elem_of_replicate in Hin. by destruct Hin.
Qed.

Definition num (k : Z) (d : t) : Z :=
  (if is_positive_ d then 1 else -1) * frac (digits_ d) (k + BN_value (exponent_ d)).

(** [10 ^ k] times the number is whole. *)
Definition scaled (k : Z) (d : t) : Prop := Z.of_nat (length (digits_ d)) <= k + BN_value (exponent_ d).

Lemma leading_zeros_split l :
  l = replicate (leading_zeros l) 0 ++ drop (leading_zeros l) l ∧
  ∀ x l', drop (leading_zeros l) l = x :: l' → x ≠ 0.
Proof.
  induction l as [|x l IH]; [done|]. cbn [leading_zeros]. destruct (Z.eqb_spec x 0) as [->|Hx]; cbn [replicate app drop].
  - destruct IH as [E H]. split; [by f_equal|done].
  - split; [done|]. by intros ? ? [= <- <-].
Qed.

Lemma pop_zeros_split l : ∃ n, l = pop_zeros l ++ replicate n 0 ∧ no_trailing (pop_zeros l).
Proof.
  destruct (leading_zeros_split (reverse l)) as [E H]. exists (leading_zeros (reverse l)). unfold pop_zeros. split.
  - rewrite <- (reverse_involutive l) at 1. rewrite E at 1. by rewrite reverse_app, reverse_replicate.
  - intros x Hx. rewrite last_reverse in Hx. destruct (drop _ _) as [|y l'] eqn:Ed; [done|].
    injection Hx as <-. by eapply H.
Qed.

Lemma pop_zeros_app l n : pop_zeros (l ++ replicate n 0) = pop_zeros l.
Proof.
  revert l. induction n as [|n IH]; intros l; [by rewrite app_nil_r|].
  rewrite replicate_S_end, app_assoc, pop_zeros_snoc. apply IH.
Qed.

Lemma digits_ok_app a b : digits_ok (a ++ b) ↔ digits_ok a ∧ digits_ok b.
Proof. apply Forall_app. Qed.

Lemma clear_wf : wf clear.
Proof.
  split; [constructor|]. unfold is_canonical, clear, VarInt.CompareTo. cbn [digits_ is_positive_ exponent_].
  rewrite BN_cmp_spec, Z.compare_refl. by rewrite bool_decide_true.
Qed.

Lemma make_canonical_spec d k :
  digits_ok (digits_ d) → is_i64 (Z.of_nat (length (digits_ d))) → 0 <= k → scaled k d →
  wf (make_canonical d) ∧ num k (make_canonical d) = num k d ∧ scaled k (make_canonical d).
Proof.
  intros Hd Hlen Hk Hs. unfold make_canonical. destruct (is_canonical d) eqn:Ec; [by split_and!|]. cbv zeta.
  destruct (leading_zeros_split (digits_ d)) as [El Hhd]. set (z := leading_zeros (digits_ d)) in *.
  assert (z ≤ length (digits_ d))%nat as Hz.
  { rewrite El, length_app, length_replicate. lia. }
  rewrite shift_digits_spec, pop_zeros_app by done.
  destruct (pop_zeros_split (drop z (digits_ d))) as (n & Ep & Ht). set (l := pop_zeros _) in *.
  rewrite Ep in El. assert (digits_ok l) as Hl.
  { rewrite El in Hd. apply digits_ok_app in Hd as [_ Hd]. by apply digits_ok_app in Hd as [Hd _]. }
  assert (length (digits_ d) = z + (length l + n))%nat as Hlens.
  { rewrite El at 1. by rewrite !length_app, !length_replicate. }
  assert (BN_value (VarInt.minus (exponent_ d) (VarInt.VarInt (Z.of_nat z))) = BN_value (exponent_ d) - Z.of_nat z) as Ee.
  { unfold VarInt.minus. rewrite BN_sub_spec, VarInt.VarInt_spec; [done|]. unfold is_i64 in *. lia. }
  assert (frac (digits_ d) (k + BN_value (exponent_ d)) = frac l (k + (BN_value (exponent_ d) - Z.of_nat z))) as Ef.
  { unfold scaled in Hs. rewrite El, frac_zeros_l by (rewrite length_app, length_replicate; lia).
    rewrite frac_zeros_r by lia. f_equal. lia. }
  case_bool_decide as Enil.
  - rewrite Enil, frac_nil in Ef. split_and!; [apply clear_wf| |].
    + unfold num. rewrite Ef. cbn [clear digits_ is_positive_]. rewrite frac_nil. lia.
    + unfold scaled, clear. cbn [digits_ exponent_ length]. rewrite VarInt.VarInt_spec by (unfold is_i64; lia). lia.
  - split_and!.
    + split; [done|]. unfold is_canonical. cbn [digits_]. destruct l as [|x l'] eqn:E; [done|].
      rewrite (proj2 (Z.eqb_neq x 0)) by (by eapply Hhd). destruct (last (x :: l')) as [y|] eqn:Ey; [|by apply last_None in Ey].
      change (default 0 (Some y)) with y. specialize (Ht y Ey). by rewrite (proj2 (Z.eqb_neq y 0)).
    + unfold num. cbn [digits_ exponent_ is_positive_]. by rewrite Ee, Ef.
    + unfold scaled in *. cbn [digits_ exponent_]. rewrite Ee. lia.
Qed.

(** *** Comparison *)

Lemma frac_pos l K :
  digits_ok l → no_trailing l → l ≠ [] → Z.of_nat (length l) <= K → 0 < frac l K.
Proof.
  intros Hl. revert K. induction Hl as [|x l Hx Hl IH]; intros K Ht Hne HK; [done|]. cbn [length] in HK.
  rewrite frac_cons by lia. assert (0 < 10 ^ (K - 1)) by lia. destruct l as [|y l].
  - specialize (Ht x eq_refl). rewrite frac_nil. nia.
  - specialize (IH (K - 1) (no_trailing_tail _ _ _ Ht) ltac:(done) ltac:(cbn [length] in *; lia)). nia.
Qed.

Lemma frac_digits_lt a b K :
  digits_ok a → digits_ok b → no_trailing b → Z.of_nat (length a) <= K → Z.of_nat (length b) <= K →
  digits_lt a b → frac a K < frac b K.
Proof.
  intros Ha. revert b K. induction Ha as [|x a Hx Ha IH]; intros [|y b] K Hb Ht Ka Kb Hlt;
    try by apply digits_lt_nil_r in Hlt.
  { rewrite frac_nil. by apply frac_pos. }
  inversion Hb as [|? ? Hy Hb']; subst. cbn [length] in *. apply digits_lt_cons in Hlt. rewrite !frac_cons by lia.
  pose proof (frac_bounds a (K - 1) Ha ltac:(lia)). pose proof (frac_bounds b (K - 1) Hb' ltac:(lia)).
  destruct Hlt as [Hlt|[-> Hlt]].
  - assert ((x + 1) * 10 ^ (K - 1) <= y * 10 ^ (K - 1)) by (apply Z.mul_le_mono_nonneg_r; lia). lia.
  - destruct b as [|z b]; [by apply digits_lt_nil_r in Hlt|].
    specialize (IH (z :: b) (K - 1) Hb' (no_trailing_tail _ _ _ Ht) ltac:(lia) ltac:(cbn [length] in *; lia) Hlt). lia.
Qed.

Lemma frac_canonical d K :
  wf d → digits_ d ≠ [] → Z.of_nat (length (digits_ d)) <= K → 10 ^ (K - 1) <= frac (digits_ d) K < 10 ^ K.
Proof.
  intros Hwf Hne HK. destruct (wf_cases d Hwf) as [(? & _)|(_ & _ & x & l & E & Hx)]; [done|].
  pose proof (frac_bounds (digits_ d) K (proj1 Hwf) HK) as Hb. split; [|lia]. destruct Hwf as [Hd _]. rewrite E in *.
  inversion Hd as [|? ? Hx' Hl]; subst. cbn [length] in HK. rewrite frac_cons by lia.
  pose proof (frac_bounds l (K - 1) Hl ltac:(lia)).
  assert (1 * 10 ^ (K - 1) <= x * 10 ^ (K - 1)) by (apply Z.mul_le_mono_nonneg_r; lia). lia.
Qed.

Lemma abs_lt_frac d d' k :
  wf d → wf d' → digits_ d ≠ [] → digits_ d' ≠ [] → scaled k d → scaled k d' → abs_lt d d' →
  frac (digits_ d) (k + BN_value (exponent_ d)) < frac (digits_ d') (k + BN_value (exponent_ d')).
Proof.
  intros Hwf Hwf' Hne Hne' Hs Hs' [Hlt|[Heq Hlt]].
  - pose proof (frac_canonical d _ Hwf Hne Hs). pose proof (frac_canonical d' _ Hwf' Hne' Hs').
    pose proof (Z.pow_le_mono_r 10 (k + BN_value (exponent_ d)) (k + BN_value (exponent_ d') - 1)). lia.
  - rewrite Heq. unfold scaled in *. apply frac_digits_lt; try (apply Hwf || apply Hwf' || lia || done).
    by destruct (wf_cases d' Hwf') as [(? & _)|(_ & ? & _)].
Qed.

Lemma num_nonneg d k : wf d → scaled k d → is_positive_ d = true → 0 <= num k d.
Proof.
  intros Hwf Hs Hp. unfold num. rewrite Hp. pose proof (frac_bounds _ _ (proj1 Hwf) Hs). lia.
Qed.

Lemma num_neg d k : wf d → scaled k d → is_positive_ d = false → num k d < 0.
Proof.
  intros Hwf Hs Hp. unfold num. rewrite Hp. pose proof (negative_nonzero d Hwf Hp) as Hne.
  pose proof (frac_canonical d _ Hwf Hne Hs) as [H _].
  assert (0 < 10 ^ (k + BN_value (exponent_ d) - 1)).
  { apply Z.pow_pos_nonneg; [lia|]. unfold scaled in Hs. destruct (digits_ d); [done|]. cbn [length] in Hs. lia. }
  lia.
Qed.

Lemma lt_num d d' k : wf d → wf d' → scaled k d → scaled k d' → lt d d' → num k d < num k d'.
Proof.
  intros Hwf Hwf' Hs Hs' Hlt. unfold lt in Hlt. destruct (is_positive_ d) eqn:Ep, (is_positive_ d') eqn:Ep'.
  - destruct Hlt as [Hne' Hlt]. unfold num. rewrite Ep, Ep'. destruct (decide (digits_ d = [])) as [E|Hne].
    + rewrite E, frac_nil. destruct (wf_cases d' Hwf') as [(? & _)|(_ & Ht & _)]; [done|].
      pose proof (frac_pos _ _ (proj1 Hwf') Ht Hne' Hs'). lia.
    + destruct Hlt as [|Hlt]; [done|]. pose proof (abs_lt_frac d d' k Hwf Hwf' Hne Hne' Hs Hs' Hlt). lia.
  - done.
  - pose proof (num_neg d k Hwf Hs Ep). pose proof (num_nonneg d' k Hwf' Hs' Ep'). lia.
  - pose proof (negative_nonzero d Hwf Ep) as Hne. pose proof (negative_nonzero d' Hwf' Ep') as Hne'.
    destruct Hlt as [_ [|Hlt]]; [done|]. unfold num. rewrite Ep, Ep'.
    pose proof (abs_lt_frac d' d k Hwf' Hwf Hne' Hne Hs' Hs Hlt). lia.
Qed.

Lemma CompareTo_num d d' k :
  wf d → wf d' → scaled k d → scaled k d' → (CompareTo d d' ?= 0) = (num k d ?= num k d').
Proof.
  intros Hwf Hwf' Hs Hs'. destruct (Z.compare_spec (CompareTo d d') 0) as [E|Hlt|Hgt]; symmetry.
  - destruct (compare_zero_equiv d d' Hwf Hwf' E) as (E1 & E2 & E3). apply Z.compare_eq_iff. unfold num. by rewrite E1, E2, E3.
  - apply Z.compare_lt_iff, lt_num; try done. by apply CompareTo_lt.
  - apply Z.compare_gt_iff, lt_num; try done. apply CompareTo_lt. rewrite CompareTo_opp. lia.
Qed.

(** *** Addition *)

Lemma Decimal_wf d : wf d → Decimal (digits_ d) (exponent_ d) (is_positive_ d) = d.
Proof. intros [_ Hc]. destruct d as [l e p]. unfold Decimal, make_canonical. cbn [digits_ exponent_ is_positive_] in *. by rewrite Hc. Qed.

Lemma align_spec max d k :
  digits_ok (digits_ d) → BN_value (exponent_ d) <= BN_value max → is_i64 (BN_value max - BN_value (exponent_ d)) →
  scaled k d →
  ∃ d', align max d = Ok d' ∧ digits_ok (digits_ d') ∧ BN_value (exponent_ d') = BN_value max ∧
    is_positive_ d' = is_positive_ d ∧ scaled k d' ∧
    Z.of_nat (length (digits_ d')) = Z.of_nat (length (digits_ d)) + (BN_value max - BN_value (exponent_ d)) ∧
    frac (digits_ d') (k + BN_value max) = frac (digits_ d) (k + BN_value (exponent_ d)).
Proof.
  intros Hd Hle H64 Hs. unfold align, VarInt.CompareTo. rewrite BN_cmp_spec.
  destruct (Z.compare_spec (BN_value (exponent_ d)) (BN_value max)) as [E|Hlt|Hgt]; [|clear Hle|lia].
  - exists d. rewrite <- E. split_and!; (done || lia).
  - rewrite VarInt.ToInt64_spec. unfold VarInt.minus. rewrite BN_sub_spec, bool_decide_true by done.
    eexists. split; [done|]. cbn [digits_ exponent_ is_positive_]. unfold scaled in *. cbn [digits_ exponent_].
    rewrite length_app, length_replicate. split_and!; try (done || lia).
    + apply digits_ok_app. split; [|done]. apply Forall_replicate. lia.
    + rewrite frac_zeros_l by lia. f_equal. lia.
Qed.

Lemma pad_spec n l K :
  digits_ok l → (length l ≤ n)%nat → Z.of_nat n <= K →
  digits_ok (pad n l) ∧ length (pad n l) = n ∧ frac (pad n l) K = frac l K.
Proof.
  intros Hl Hn HK. unfold pad. split_and!.
  - apply digits_ok_app. split; [done|]. apply Forall_replicate. lia.
  - rewrite length_app, length_replicate. lia.
  - apply frac_zeros_r. lia.
Qed.

(** With as many digits on both sides, the first difference decides. *)
Lemma compare_digits_frac a b K :
  digits_ok a → digits_ok b → length a = length b → Z.of_nat (length a) <= K →
  if compare_digits a b <? 0 then frac a K < frac b K else frac b K <= frac a K.
Proof.
  intros Ha. revert b K. induction Ha as [|x a Hx Ha IH]; intros [|y b] K Hb Hlen HK; try done.
  inversion Hb as [|? ? Hy Hb']; subst. cbn [length] in *. cbn [compare_digits]. rewrite !frac_cons by lia.
  pose proof (frac_bounds a (K - 1) Ha ltac:(lia)). pose proof (frac_bounds b (K - 1) Hb' ltac:(lia)).
  specialize (IH b (K - 1) Hb' ltac:(lia) ltac:(lia)). destruct (Z.eqb_spec (x - y) 0) as [E|Hne].
  - replace y with x by lia. case_test; lia.
  - destruct (Z.ltb_spec (x - y) 0).
    + assert ((x + 1) * 10 ^ (K - 1) <= y * 10 ^ (K - 1)) by (apply Z.mul_le_mono_nonneg_r; lia). lia.
    + assert ((y + 1) * 10 ^ (K - 1) <= x * 10 ^ (K - 1)) by (apply Z.mul_le_mono_nonneg_r; lia). lia.
Qed.

(** The two branches of the addition, on aligned digits. *)
Lemma plus_same a b K e p k :
  digits_ok a → digits_ok b → length a = length b → Z.of_nat (length a) <= K → K = k + BN_value e → 0 <= k →
  is_i64 (Z.of_nat (length a) + 1) →
  let (carry, s) := add_digits a b in
  let r := make_canonical (if carry then mk (1 :: s) (VarInt.plus e (VarInt.VarInt 1)) p else mk s e p) in
  wf r ∧ num k r = (if p then 1 else -1) * (frac a K + frac b K).
Proof.
  intros Ha Hb Hl HK -> Hk H64. pose proof (add_digits_spec a b _ Ha Hb Hl HK) as H.
  destruct (add_digits a b) as [carry s]. destruct H as (Hs & Hls & E). cbv zeta.
  set (d := if carry then _ else _).
  assert (digits_ok (digits_ d) ∧ Z.of_nat (length (digits_ d)) <= Z.of_nat (length a) + 1 ∧ scaled k d ∧
          num k d = (if p then 1 else -1) * (frac a (k + BN_value e) + frac b (k + BN_value e))) as (H1 & H2 & H3 & H4).
  { rewrite <- E. unfold d, scaled, num. destruct carry; cbn [digits_ exponent_ is_positive_ length Z.b2z].
    - unfold VarInt.plus. rewrite BN_add_spec, VarInt.VarInt_spec by (unfold is_i64; lia).
      split_and!; [constructor; [lia|done]|lia|lia|]. rewrite frac_cons by lia.
      replace (k + (BN_value e + 1) - 1) with (k + BN_value e) by lia. lia.
    - split_and!; [done|lia|lia|]. lia. }
  destruct (make_canonical_spec d k) as (Hw & -> & _); [done| |done|done|done]. unfold is_i64 in *. lia.
Qed.

Lemma plus_differ a b K e p k :
  digits_ok a → digits_ok b → length a = length b → Z.of_nat (length a) <= K → K = k + BN_value e → 0 <= k →
  is_i64 (Z.of_nat (length a)) →
  let swap := compare_digits a b <? 0 in
  let (borrow, s) := if swap then sub_digits b a else sub_digits a b in
  let r := make_canonical (mk s e (if swap then negb p else p)) in
  borrow = false ∧ wf r ∧ num k r = (if p then 1 else -1) * (frac a K - frac b K).
Proof.
  intros Ha Hb Hl HK -> Hk H64 swap. pose proof (compare_digits_frac a b _ Ha Hb Hl HK) as Hc. fold swap in Hc.
  assert (∀ s pos, digits_ok s → length s = length a → wf (make_canonical (mk s e pos)) ∧
    num k (make_canonical (mk s e pos)) = (if pos : bool then 1 else -1) * frac s (k + BN_value e)) as Hmk.
  { intros s pos Hs Hls. destruct (make_canonical_spec (mk s e pos) k) as (Hw & -> & _); cbn [digits_]; rewrite ?Hls; try done.
    unfold scaled. cbn [digits_ exponent_]. lia. }
  destruct swap.
  - pose proof (sub_digits_spec b a _ Hb Ha (eq_sym Hl) ltac:(rewrite <- Hl; exact HK)) as H.
    destruct (sub_digits b a) as [borrow s]. destruct H as (Hs & Hls & E). cbv zeta.
    pose proof (frac_bounds s _ Hs ltac:(rewrite Hls, <- Hl; exact HK)).
    destruct (Hmk s (negb p) Hs ltac:(lia)) as [Hw ->]. destruct borrow; cbn [Z.b2z] in E; [lia|].
    split_and!; [done|done|]. rewrite E. destruct p; cbn [negb]; lia.
  - pose proof (sub_digits_spec a b _ Ha Hb Hl HK) as H.
    destruct (sub_digits a b) as [borrow s]. destruct H as (Hs & Hls & E). cbv zeta.
    pose proof (frac_bounds s _ Hs ltac:(rewrite Hls; exact HK)).
    destruct (Hmk s p Hs ltac:(lia)) as [Hw ->]. destruct borrow; cbn [Z.b2z] in E; [lia|].
    split_and!; [done|done|]. rewrite E. lia.
Qed.

Lemma max_exponent_spec (e e' : BIGNUM) :
  BN_value (match VarInt.CompareTo e' e with Lt => e | _ => e' end) = Z.max (BN_value e) (BN_value e').
Proof.
  unfold VarInt.CompareTo. rewrite BN_cmp_spec. destruct (Z.compare_spec (BN_value e') (BN_value e)); lia.
Qed.

(** The digits of the aligned numbers can be counted. *)
Definition can_add (d d' : t) : Prop :=
  is_i64 (Z.of_nat (length (digits_ d)) + Z.of_nat (length (digits_ d')) +
          Z.abs (BN_value (exponent_ d) - BN_value (exponent_ d')) + 1).

Lemma plus_spec d d' k :
  wf d → wf d' → can_add d d' → 0 <= k → scaled k d → scaled k d' →
  ∃ r, plus d d' = Ok r ∧ wf r ∧ num k r = num k d + num k d'.
Proof.
  intros Hwf Hwf' H64 Hk Hs Hs'. unfold plus. rewrite !Decimal_wf by done. cbv zeta.
  set (max := match VarInt.CompareTo _ _ with Lt => _ | _ => _ end).
  assert (BN_value max = Z.max (BN_value (exponent_ d)) (BN_value (exponent_ d'))) as Em by apply max_exponent_spec.
  unfold can_add, is_i64 in H64.
  destruct (align_spec max d k) as (a & -> & Ha & Ea & Pa & Sa & La & Fa); [apply Hwf|lia|unfold is_i64; lia|done|].
  destruct (align_spec max d' k) as (b & -> & Hb & Eb & Pb & Sb & Lb & Fb); [apply Hwf'|lia|unfold is_i64; lia|done|].
  cbn [obind]. set (n := Nat.max _ _). unfold scaled in Sa, Sb. rewrite Ea in Sa. rewrite Eb in Sb.
  destruct (pad_spec n (digits_ a) (k + BN_value max)) as (Hpa & Lpa & Fpa); [done|lia|lia|].
  destruct (pad_spec n (digits_ b) (k + BN_value max)) as (Hpb & Lpb & Fpb); [done|lia|lia|].
  rewrite Pa, Pb. unfold num. rewrite <- Fa, <- Fb, <- Fpa, <- Fpb.
  set (x := pad n (digits_ a)) in *. set (y := pad n (digits_ b)) in *.
  destruct (is_positive_ d) eqn:Ep, (is_positive_ d') eqn:Ep'; cbn [eqb].
  1, 4: match goal with |- context [mk _ _ ?p] =>
          pose proof (plus_same x y (k + BN_value max) (exponent_ a) p k Hpa Hpb ltac:(lia) ltac:(lia) ltac:(lia) Hk
            ltac:(unfold is_i64; lia)) as H end;
        destruct (add_digits x y) as [carry s]; destruct H as [Hw Hn]; eexists; split_and!; [done|done|];
        unfold num in Hn; rewrite Hn; lia.
  all: match goal with |- context [make_canonical (mk _ _ (if _ then negb ?p else _))] =>
          pose proof (plus_differ x y (k + BN_value max) (exponent_ a) p k Hpa Hpb ltac:(lia) ltac:(lia) ltac:(lia) Hk
            ltac:(unfold is_i64; lia)) as H end;
        cbv zeta in H; destruct (if compare_digits x y <? 0 then _ else _) as [borrow s];
        destruct H as (-> & Hw & Hn); eexists; split_and!; [done|done|]; unfold num in Hn; rewrite Hn; lia.
Qed.

End Facts.

(** ** Properties *)

(** Canonical decimals have encodings that, followed by any bytes, decode to the same number with
    their own length, and whose byte order, whatever follows, is the order of [CompareTo], which is the numeric order. *)
Theorem decimal_comparable {B : BigNum} {HB : BigNumSpec B} (d d' : t) :
  wf d → wf d' →
  ∃ x y, EncodeToComparable d = Ok x ∧ EncodeToComparable d' = Ok y ∧
    (∀ rest, ∃ r, DecodeFromComparable (x ++ rest) = Ok (r, length x) ∧ equiv r d) ∧
    (∀ s t, bytes_compare (x ++ s) (y ++ t) = match CompareTo d d' ?= 0 with Eq => bytes_compare s t | c => c end) ∧
    ∀ k, scaled k d → scaled k d' → (CompareTo d d' ?= 0) = (num k d ?= num k d').
Proof.
  intros Hwf Hwf'. destruct (encode_total d) as [x Ex], (encode_total d') as [y Ey]. exists x, y.
  split_and!; [done|done| | |]; intros.
  - by apply decimal_decode_encode.
  - by apply decimal_encode_compare.
  - by apply CompareTo_num.
Qed.

Lemma decimal_comparable_witness :
  ∃ x y, EncodeToComparable (B := ZNum) (@mk ZNum [2; 3; 4] 2 false) = Ok x ∧
    EncodeToComparable (B := ZNum) (@mk ZNum [4; 3; 7; 2] (-3) true) = Ok y ∧ bytes_compare (x ++ [255]) (y ++ [0]) = Lt.
Proof.
  assert (∀ l e p, forallb (λ x, (0 <=? x) && (x <=? 9)) l = true → is_canonical (B := ZNum) (@mk ZNum l e p) = true →
    wf (B := ZNum) (@mk ZNum l e p)) as Hwf.
  { intros l e p Hl Hc. split; [|done]. apply Forall_forall. intros x Hx. rewrite forallb_forall in Hl.
    apply list_elem_of_In in Hx. specialize (Hl x Hx). bool_tests. lia. }
  destruct (decimal_comparable (B := ZNum) (@mk ZNum [2; 3; 4] 2 false) (@mk ZNum [4; 3; 7; 2] (-3) true)) as (x & y & Ex & Ey & _ & Hc & _).
  - by apply Hwf.
  - by apply Hwf.
  - exists x, y. split; [exact Ex|]. split; [exact Ey|]. exact (Hc [255] [0]).
Defined.

(** As long as the aligned digits can be counted, [operator+] of canonical decimals returns a canonical decimal whose value
    is the sum. *)
Theorem decimal_addition {B : BigNum} {HB : BigNumSpec B} (d d' : t) (k : Z) :
  wf d → wf d' → can_add d d' → 0 <= k → scaled k d → scaled k d' →
  ∃ r, plus d d' = Ok r ∧ wf r ∧ num k r = num k d + num k d'.
Proof. apply plus_spec. Qed.

Lemma decimal_addition_witness :
  ∃ r, plus (B := ZNum) (@mk ZNum [9; 9; 5] 2 true) (@mk ZNum [5] 0 true) = Ok r ∧ wf r ∧ num (B := ZNum) 5 r = 10000000.
Proof.
  destruct (decimal_addition (B := ZNum) (@mk ZNum [9; 9; 5] 2 true) (@mk ZNum [5] 0 true) 5) as (r & E & Hw & Hn).
  1, 2: by split; [repeat constructor; lia|].
  1: split; done.
  1, 2, 3: done.
  exists r. split; [exact E|]. split; [exact Hw|]. rewrite Hn. reflexivity.
Defined.

End Decimal.
