(* ===== verification/Uuid.v ===== *)
(** * Universally unique identifiers

    Models util/uuid.h and util/uuid.cc.  A [Uuid] is its sixteen bytes; the
    version is read by the Boost class it wraps, which is not part of the source:
    it is the class [UuidVersion], documented by [UuidVersionSpec]. *)

From S2P Require Import Prelude FastVarint VarInt Decimal.

(** [boost::uuids::uuid::version()], as the value of the enumerator. *)
Class UuidVersion := { version : bytes → Z }.

(** The high four bits of the seventh byte, for the versions Boost knows. *)
Class UuidVersionSpec (V : UuidVersion) := {
  version_spec u : version u =
    let v := nth 6 u 0 / 16 in if (1 <=? v) && (v <=? 5) then v else -1
}.

#[export] Instance nibble_version : UuidVersion :=
  {| version u := let v := nth 6 u 0 / 16 in if (1 <=? v) && (v <=? 5) then v else -1 |}.

#[export] Instance nibble_version_spec : UuidVersionSpec nibble_version.
Proof. by constructor. Defined.

Module Uuid.

Definition kUuidSize : nat := 16.
Definition kUuidMsbSize : nat := 8.
Definition version_time_based : Z := 1.
Definition kGregorianOffsetMillis : Z := -12219292800000.
Definition kMillisPerHundredNanos : Z := 10000.

Definition wf (u : bytes) : Prop := length u = kUuidSize ∧ bytes_ok u.
Definition nil_uuid : bytes := replicate 16 0.
Definition IsNil (u : bytes) : bool := bool_decide (u = nil_uuid).

(** [data[i]] of the sixteen bytes. *)
Definition at_ (u : bytes) (i : nat) : Z := nth i u 0.

Definition ToTimestampBytes (u : bytes) : bytes :=
  [at_ u 6; at_ u 7; at_ u 4; at_ u 5; at_ u 0; at_ u 1; at_ u 2; at_ u 3].

Definition FromTimestampBytes (i : bytes) : bytes :=
  [at_ i 4; at_ i 5; at_ i 6; at_ i 7; at_ i 2; at_ i 3; at_ i 0; at_ i 1].

(** The low half of [a] and the high half of [b]. *)
Definition nibbles (a b : Z) : Z :=
  u8 (Z.lor (Z.shiftl (Z.land a 0x0f) 4) (Z.shiftr (Z.land b 0xf0) 4)).

Definition ToVersionFirstBytes (u : bytes) : bytes :=
  [u8 (Z.lor (Z.land (at_ u 6) 0xf0) (Z.shiftr (Z.land (at_ u 0) 0xf0) 4));
   nibbles (at_ u 0) (at_ u 1); nibbles (at_ u 1) (at_ u 2); nibbles (at_ u 2) (at_ u 3);
   nibbles (at_ u 3) (at_ u 4); nibbles (at_ u 4) (at_ u 5);
   u8 (Z.lor (Z.shiftl (Z.land (at_ u 5) 0x0f) 4) (Z.land (at_ u 6) 0x0f));
   at_ u 7].

Definition FromVersionFirstBytes (i : bytes) : bytes :=
  [nibbles (at_ i 0) (at_ i 1); nibbles (at_ i 1) (at_ i 2); nibbles (at_ i 2) (at_ i 3);
   nibbles (at_ i 3) (at_ i 4); nibbles (at_ i 4) (at_ i 5); nibbles (at_ i 5) (at_ i 6);
   u8 (Z.lor (Z.land (at_ i 0) 0xf0) (Z.land (at_ i 6) 0x0f));
   at_ i 7].

(** [FromTimestamp] keeps the low half of the bytes. *)
Definition FromTimestamp (ts_hnanos : Z) (u : bytes) : bytes :=
  let ts_bytes := be_bytes 8 (u64 ts_hnanos) in
  let ts_bytes := <[0%nat := Z.lor (Z.land (at_ ts_bytes 0) 0x0f) 0x10]> ts_bytes in
  FromTimestampBytes ts_bytes ++ drop kUuidMsbSize u.

Definition FromSlice (slice : bytes) (size_hint : nat) : outcome bytes :=
  let expected_size := if (size_hint =? 0)%nat then length slice else size_hint in
  if (length slice <? expected_size)%nat then Err InvalidArgument
  else if negb (expected_size =? kUuidSize)%nat then Err InvalidArgument
  else Ok (take kUuidSize slice).

Definition DecodeFromComparableSlice (slice : bytes) (size_hint : nat) : outcome bytes :=
  let expected_size := if (size_hint =? 0)%nat then length slice else size_hint in
  if (length slice <? expected_size)%nat then Err InvalidArgument
  else if negb (expected_size =? kUuidSize)%nat then Err InvalidArgument
  else
    let! first := byte_at slice 0 in
    let msb := if Z.land first 0xf0 =? 0x10 then FromTimestampBytes slice else FromVersionFirstBytes slice in
    Ok (msb ++ take 8 (drop kUuidMsbSize slice)).

Definition DecodeFromComparable (l : bytes) : outcome bytes := DecodeFromComparableSlice l 0.

(** A signed 64-bit product; overflow is undefined. *)
Definition hundred_nanos (millis : Z) : outcome Z :=
  let p := millis * kMillisPerHundredNanos in
  if bool_decide (is_i64 millis ∧ is_i64 p) then Ok p else UB.

Definition MaxFromUnixTimestamp (timestamp_ms : Z) (u : bytes) : outcome bytes :=
  let! p := hundred_nanos (timestamp_ms + 1 - kGregorianOffsetMillis) in
  Ok (take kUuidMsbSize (FromTimestamp (p - 1) u) ++ replicate 8 0xff).

Definition MinFromUnixTimestamp (timestamp_ms : Z) (u : bytes) : outcome bytes :=
  let! timestamp := hundred_nanos (timestamp_ms - kGregorianOffsetMillis) in
  Ok (take kUuidMsbSize (FromTimestamp timestamp u) ++ replicate 8 0).

(** The bytes in the order given, compared until they differ: [Some] is the result of [<]. *)
Fixpoint compare_at (idx : list nat) (u v : bytes) : option bool :=
  match idx with
  | [] => None
  | i :: idx =>
      if at_ u i <? at_ v i then Some true
      else if at_ v i <? at_ u i then Some false
      else compare_at idx u v
  end.

Section Versioned.
Context {V : UuidVersion}.

Definition EncodeToComparable (u : bytes) : bytes :=
  (if version u =? version_time_based then ToTimestampBytes u else ToVersionFirstBytes u) ++ drop kUuidMsbSize u.

Definition IsTimeUuid (u : bytes) : outcome () :=
  if version u =? version_time_based then Ok () else Err InvalidArgument.

Definition ToUnixTimestamp (u : bytes) : outcome Z :=
  let! _ := IsTimeUuid u in
  let output := ToTimestampBytes u in
  let output := <[0%nat := Z.land (at_ output 0) 0x0f]> output in
  let timestamp := foldl (λ t b, i64 (Z.lor (Z.shiftl t 8) (Z.land b 0xff))) 0 output in
  Ok (Z.quot timestamp kMillisPerHundredNanos + kGregorianOffsetMillis).

(** [operator<]. *)
Definition lt (u other : bytes) : bool :=
  if version u <? version other then true
  else if version other <? version u then false
  else
    let msb := if version u =? version_time_based
               then [6; 7; 4; 5; 0; 1; 2; 3]%nat else [0; 1; 2; 3; 4; 5; 6; 7]%nat in
    default false (compare_at (msb ++ [8; 9; 10; 11; 12; 13; 14; 15]%nat) u other).

End Versioned.

(** ** Halves of bytes *)

Definition halves_ok (a : Z) : bool :=
  (Z.land a 0xf0 =? 16 * (a / 16)) && (Z.land a 0x0f =? a mod 16) && (Z.shiftr (Z.land a 0xf0) 4 =? a / 16).

Lemma halves_all_ok : forallb halves_ok (seqZ 0 256) = true.
Proof. vm_compute. reflexivity. Qed.

Lemma halves a : is_u8 a →
  Z.land a 0xf0 = 16 * (a / 16) ∧ Z.land a 0x0f = a mod 16 ∧ Z.shiftr (Z.land a 0xf0) 4 = a / 16.
Proof.
  intros Ha. pose proof halves_all_ok as H. rewrite forallb_forall in H. specialize (H a).
  rewrite <- list_elem_of_In, elem_of_seqZ in H. specialize (H ltac:(unfold is_u8 in Ha; lia)).
  unfold halves_ok in H. by bool_tests.
Qed.

Lemma join_halves x y : 0 <= x < 16 → 0 <= y < 16 → u8 (Z.lor (16 * x) y) = 16 * x + y.
Proof.
  intros Hx Hy. assert (Z.lor (x * 2 ^ 4) y = x * 2 ^ 4 + y) as H by (apply lor_disjoint; lia).
  change (2 ^ 4) with 16 in H. rewrite (Z.mul_comm 16), H. apply u8_small. unfold is_u8. lia.
Qed.

Lemma half_bounds a : is_u8 a → 0 <= a / 16 < 16 ∧ 0 <= a mod 16 < 16 ∧ a = 16 * (a / 16) + a mod 16.
Proof.
  unfold is_u8. intros Ha. pose proof (Z.div_mod a 16). pose proof (Z.mod_pos_bound a 16).
  split_and!; try lia.
Qed.

Lemma nibbles_spec a b : is_u8 a → is_u8 b → nibbles a b = 16 * (a mod 16) + b / 16.
Proof.
  intros Ha Hb. destruct (halves a Ha) as (_ & Ea & _), (halves b Hb) as (_ & _ & Eb).
  destruct (half_bounds a Ha) as (_ & ? & _), (half_bounds b Hb) as (? & _ & _).
  unfold nibbles. rewrite Ea, Eb, Z.shiftl_mul_pow2, Z.mul_comm by lia. by apply join_halves.
Qed.

Lemma high_low a b : is_u8 a → is_u8 b →
  u8 (Z.lor (Z.land a 0xf0) (Z.shiftr (Z.land b 0xf0) 4)) = 16 * (a / 16) + b / 16 ∧
  u8 (Z.lor (Z.shiftl (Z.land a 0x0f) 4) (Z.land b 0x0f)) = 16 * (a mod 16) + b mod 16 ∧
  u8 (Z.lor (Z.land a 0xf0) (Z.land b 0x0f)) = 16 * (a / 16) + b mod 16.
Proof.
  intros Ha Hb. destruct (halves a Ha) as (E1 & E2 & _), (halves b Hb) as (_ & E3 & E4).
  destruct (half_bounds a Ha) as (? & ? & _), (half_bounds b Hb) as (? & ? & _).
  rewrite E1, E2, E3, E4, Z.shiftl_mul_pow2, (Z.mul_comm (a mod 16)) by lia. change (2 ^ 4) with 16.
  split_and!; by apply join_halves.
Qed.

(** Halves put together and taken apart again. *)
Lemma half_parts x y : 0 <= x < 16 → 0 <= y < 16 →
  is_u8 (16 * x + y) ∧ (16 * x + y) / 16 = x ∧ (16 * x + y) mod 16 = y.
Proof.
  intros Hx Hy. split_and!; [unfold is_u8; lia| |].
  - symmetry. apply Z.div_unique_pos with y; lia.
  - symmetry. apply Z.mod_unique_pos with x; lia.
Qed.

(** A uuid by its bytes. *)
Lemma wf_bytes u : wf u →
  ∃ b0 b1 b2 b3 b4 b5 b6 b7 l, u = b0 :: b1 :: b2 :: b3 :: b4 :: b5 :: b6 :: b7 :: l ∧ length l = 8%nat ∧
    Forall is_u8 [b0; b1; b2; b3; b4; b5; b6; b7] ∧ bytes_ok l.
Proof.
  intros [Hl Hok]. unfold kUuidSize in Hl.
  do 8 (destruct u as [|? u]; [done|]; cbn [length] in Hl; injection Hl as Hl).
  eexists _, _, _, _, _, _, _, _, u. split_and!; [done|done| |].
  - change (bytes_ok ([z; z0; z1; z2; z3; z4; z5; z6] ++ u)) in Hok. by apply Forall_app in Hok as [? _].
  - change (bytes_ok ([z; z0; z1; z2; z3; z4; z5; z6] ++ u)) in Hok. by apply Forall_app in Hok as [_ ?].
Qed.

(** The first eight bytes, as a number of nibbles with the version in front. *)
Lemma version_first b0 b1 b2 b3 b4 b5 b6 b7 l :
  Forall is_u8 [b0; b1; b2; b3; b4; b5; b6; b7] →
  let o := ToVersionFirstBytes (b0 :: b1 :: b2 :: b3 :: b4 :: b5 :: b6 :: b7 :: l) in
  o = [16 * (b6 / 16) + b0 / 16; 16 * (b0 mod 16) + b1 / 16; 16 * (b1 mod 16) + b2 / 16;
       16 * (b2 mod 16) + b3 / 16; 16 * (b3 mod 16) + b4 / 16; 16 * (b4 mod 16) + b5 / 16;
       16 * (b5 mod 16) + b6 mod 16; b7] ∧ bytes_ok o.
Proof.
  intros H. repeat match goal with H : Forall is_u8 (_ :: _) |- _ => inversion_clear H end.
  unfold ToVersionFirstBytes. unfold at_. cbn [nth].
  rewrite !nibbles_spec by done. destruct (high_low b6 b0) as (-> & _); [done..|].
  destruct (high_low b5 b6) as (_ & -> & _); [done..|]. split; [done|].
  repeat match goal with H : is_u8 ?x |- _ => destruct (half_bounds x H) as (? & ? & ?); revert H end.
  intros. repeat first [apply Forall_cons_2 | apply Forall_nil_2]; try done; by apply half_parts.
Qed.

Lemma from_version_first b0 b1 b2 b3 b4 b5 b6 b7 l l' :
  Forall is_u8 [b0; b1; b2; b3; b4; b5; b6; b7] →
  FromVersionFirstBytes (ToVersionFirstBytes (b0 :: b1 :: b2 :: b3 :: b4 :: b5 :: b6 :: b7 :: l) ++ l') =
  [b0; b1; b2; b3; b4; b5; b6; b7].
Proof.
  intros H. destruct (version_first _ _ _ _ _ _ _ _ l H) as [-> _].
  repeat match goal with H : Forall is_u8 (_ :: _) |- _ => inversion_clear H end.
  repeat match goal with H : is_u8 ?x |- _ => destruct (half_bounds x H) as (? & ? & ?); revert H end. intros.
  unfold FromVersionFirstBytes, at_. cbn [app nth].
  rewrite !nibbles_spec by (apply half_parts; done).
  destruct (high_low (16 * (b6 / 16) + b0 / 16) (16 * (b5 mod 16) + b6 mod 16)) as (_ & _ & ->); [by apply half_parts..|].
  repeat match goal with
  | |- context [(16 * ?x + ?y) / 16] => destruct (half_parts x y) as (_ & -> & _); [done..|]
  | |- context [(16 * ?x + ?y) mod 16] => destruct (half_parts x y) as (_ & _ & ->); [done..|]
  end.
  by repeat f_equal.
Qed.

(** ** Order *)

Lemma bytes_compare_value a b x y :
  bytes_ok a → bytes_ok b → length a = length b →
  bytes_compare (a ++ x) (b ++ y) = match be_value a ?= be_value b with Eq => bytes_compare x y | c => c end.
Proof.
  intros Ha Hb Hl. assert (be_size a = be_size b) as Hs by (unfold be_size; by rewrite Hl).
  pose proof (be_size_pos b). destruct (Z.compare_spec (be_value a) (be_value b)) as [E|Hlt|Hgt].
  - rewrite (be_value_inj a b) by done. apply bytes_compare_app_same.
  - apply below_compare; [done..|]. unfold below. rewrite Hs. apply Z.mul_le_mono_nonneg_r; lia.
  - rewrite bytes_compare_antisym, (below_compare b a); [done..|]. unfold below. rewrite Hs.
    apply Z.mul_le_mono_nonneg_r; lia.
Qed.

(** The result of [compare_at] as a comparison of byte strings. *)
Lemma compare_at_bytes idx u v :
  compare_at idx u v =
  match bytes_compare (map (at_ u) idx) (map (at_ v) idx) with Lt => Some true | Gt => Some false | Eq => None end.
Proof.
  induction idx as [|i idx IH]; [done|]. cbn [compare_at map bytes_compare].
  destruct (Z.compare_spec (at_ u i) (at_ v i)) as [E|Hlt|Hgt].
  - rewrite E, Z.ltb_irrefl. done.
  - by rewrite (proj2 (Z.ltb_lt _ _)).
  - rewrite (proj2 (Z.ltb_ge _ _)) by lia. by rewrite (proj2 (Z.ltb_lt _ _)).
Qed.

(** With the same version, the bytes in the order of the encoding compare as in their own order. *)
Lemma version_first_value b0 b1 b2 b3 b4 b5 b6 b7 l :
  Forall is_u8 [b0; b1; b2; b3; b4; b5; b6; b7] →
  let P := be_value [b0; b1; b2; b3; b4; b5] in let r := b6 mod 16 * 256 + b7 in
  0 <= r < 2 ^ 12 ∧ be_value [b0; b1; b2; b3; b4; b5; b6; b7] = P * 2 ^ 16 + b6 / 16 * 2 ^ 12 + r ∧
  be_value (ToVersionFirstBytes (b0 :: b1 :: b2 :: b3 :: b4 :: b5 :: b6 :: b7 :: l)) =
    b6 / 16 * 2 ^ 60 + P * 2 ^ 12 + r.
Proof.
  intros H P r. destruct (version_first _ _ _ _ _ _ _ _ l H) as [-> _].
  repeat match goal with H : Forall is_u8 (_ :: _) |- _ => inversion_clear H end.
  repeat match goal with H : is_u8 ?x |- _ => destruct (half_bounds x H) as (? & ? & ?); unfold is_u8 in H; revert H end.
  intros. unfold P, r, be_value. cbn [foldl]. split_and!; [lia|lia|lia|lia].
Qed.

Lemma bytes_compare_app a b x y :
  length a = length b →
  bytes_compare (a ++ x) (b ++ y) = match bytes_compare a b with Eq => bytes_compare x y | c => c end.
Proof.
  revert b. induction a as [|p a IH]; intros [|q b] Hl; try done. cbn [app bytes_compare].
  destruct (p ?= q); [|done..]. apply IH. by injection Hl.
Qed.

Definition lsb_idx : list nat := [8; 9; 10; 11; 12; 13; 14; 15]%nat.

Lemma map_at_lsb b0 b1 b2 b3 b4 b5 b6 b7 l :
  length l = 8%nat → map (at_ (b0 :: b1 :: b2 :: b3 :: b4 :: b5 :: b6 :: b7 :: l)) lsb_idx = l.
Proof. intros Hl. do 9 (destruct l as [|? l]; try done). Qed.

(** ** Timestamps *)

Lemma timestamp_fold l acc :
  0 <= acc → bytes_ok l → acc * be_size l + be_value l < 2 ^ 63 →
  foldl (λ t b, i64 (Z.lor (Z.shiftl t 8) (Z.land b 0xff))) acc l = acc * be_size l + be_value l.
Proof.
  intros Ha Hl. revert acc Ha. induction Hl as [|b l Hb Hl IH]; intros acc Ha Hlt.
  { unfold be_size, be_value. simpl. lia. }
  cbn [foldl]. rewrite be_value_cons, be_size_cons in *. pose proof (be_value_range l Hl). unfold is_u8 in Hb.
  change 0xff with (2 ^ 8 - 1). rewrite land_ones_mod, Z.mod_small, Z.shiftl_mul_pow2, lor_disjoint by lia.
  change (2 ^ 8) with 256 in *.
  assert (acc * 256 + b < 2 ^ 63) by nia. rewrite i64_small by (unfold is_i64; lia). rewrite IH by lia. lia.
Qed.

(** The 60 bits of the timestamp of a version 1 uuid. *)
Definition ticks (u : bytes) : Z := be_value (ToTimestampBytes u) - 2 ^ 60.

Lemma time_bytes u : wf u → at_ u 6 / 16 = 1 →
  let o := ToTimestampBytes u in
  bytes_ok o ∧ length o = 8%nat ∧ 0 <= ticks u < 2 ^ 60 ∧
  bytes_ok (<[0%nat := Z.land (at_ o 0) 0x0f]> o) ∧ be_value (<[0%nat := Z.land (at_ o 0) 0x0f]> o) = ticks u.
Proof.
  intros Hu Hv. destruct (wf_bytes u Hu) as (b0 & b1 & b2 & b3 & b4 & b5 & b6 & b7 & l & -> & Hl & Hb & _).
  unfold at_ in Hv. cbn [nth] in Hv. unfold ticks, ToTimestampBytes, at_. cbn [nth insert list_insert].
  repeat match goal with H : Forall is_u8 (_ :: _) |- _ => inversion_clear H end.
  destruct (half_bounds b6) as (? & ? & E6); [done|]. destruct (halves b6) as (_ & -> & _); [done|].
  assert (bytes_ok [b7; b4; b5; b0; b1; b2; b3]) as Hr by (repeat first [apply Forall_nil_2 | apply Forall_cons_2; [done|]]).
  pose proof (be_value_range _ Hr) as Hrange. set (r := [b7; b4; b5; b0; b1; b2; b3]) in *.
  change (be_size r) with (2 ^ 56) in Hrange. rewrite !be_value_cons. change (be_size r) with (2 ^ 56).
  split; [by constructor|]. split; [done|]. split; [lia|]. split; [|lia].
  constructor; [unfold is_u8; lia|done].
Qed.

Section Facts.
Context {V : UuidVersion} {HV : UuidVersionSpec V}.

Lemma uuid_decode_encode u : wf u → DecodeFromComparable (EncodeToComparable u) = Ok u.
Proof.
  intros Hu. destruct (wf_bytes u Hu) as (b0 & b1 & b2 & b3 & b4 & b5 & b6 & b7 & l & -> & Hl & Hb & _).
  unfold EncodeToComparable, DecodeFromComparable. rewrite version_spec. change (nth 6 _ 0) with b6. cbv zeta.
  change (drop kUuidMsbSize _) with l. unfold DecodeFromComparableSlice. change (0 =? 0)%nat with true. cbv iota.
  rewrite Nat.ltb_irrefl.
  assert (is_u8 b6) as H6 by (do 6 apply Forall_inv_tail in Hb; by apply Forall_inv in Hb).
  set (t := _ =? version_time_based).
  assert (t = (b6 / 16 =? 1)) as ->.
  { unfold t, version_time_based. destruct (Z.eqb_spec (b6 / 16) 1) as [->|Hne]; [done|].
    apply Z.eqb_neq. case_test; lia. }
  destruct (halves b6 H6) as (E6 & _). destruct (Z.eqb_spec (b6 / 16) 1) as [E1|Hne].
  - rewrite length_app, Hl. change (length (ToTimestampBytes _)) with 8%nat.
    change (negb (8 + 8 =? kUuidSize)%nat) with false. cbv iota.
    unfold ToTimestampBytes, at_. cbn [nth app byte_at lookup list_lookup obind]. rewrite E6, E1. cbn [Z.mul Pos.mul Z.eqb Pos.eqb].
    unfold FromTimestampBytes, at_. cbn [nth app]. do 9 f_equal.
    change (drop kUuidMsbSize _) with l. by rewrite take_ge by lia.
  - rewrite length_app, Hl. change (length (ToVersionFirstBytes _)) with 8%nat.
    change (negb (8 + 8 =? kUuidSize)%nat) with false. cbv iota. rewrite from_version_first by done.
    destruct (version_first _ _ _ _ _ _ _ _ l Hb) as [-> _]. cbn [app byte_at lookup list_lookup obind].
    assert (is_u8 b0) as H0 by (by apply Forall_inv in Hb).
    destruct (half_bounds b6 H6) as (? & _), (half_bounds b0 H0) as (? & _).
    destruct (half_parts (b6 / 16) (b0 / 16)) as (Hp & Ed & _); [done..|]. destruct (halves _ Hp) as (-> & _).
    rewrite Ed. rewrite (proj2 (Z.eqb_neq _ 0x10)) by lia.
    change (drop kUuidMsbSize _) with l. rewrite take_ge by lia. done.
Qed.

(** The version as the comparison sees it, for the versions Boost knows and the nil uuid. *)
Lemma version_known u : 0 <= at_ u 6 / 16 <= 5 → version u = if at_ u 6 / 16 =? 0 then -1 else at_ u 6 / 16.
Proof.
  intros Hv. rewrite version_spec. unfold at_ in *. cbv zeta. destruct (Z.eqb_spec (nth 6 u 0 / 16) 0) as [->|]; [done|].
  by rewrite !(proj2 (Z.leb_le _ _)) by lia.
Qed.

Lemma encode_head u : wf u → ∃ x l, EncodeToComparable u = x :: l ∧ x / 16 = at_ u 6 / 16.
Proof.
  intros Hu. destruct (wf_bytes u Hu) as (b0 & b1 & b2 & b3 & b4 & b5 & b6 & b7 & l & -> & Hl & Hb & _).
  unfold EncodeToComparable. case_test; [by eexists _, _|].
  destruct (version_first _ _ _ _ _ _ _ _ l Hb) as [-> _]. eexists _, _. split; [done|].
  unfold at_. cbn [nth]. apply half_parts; apply half_bounds.
  - do 6 apply Forall_inv_tail in Hb; by apply Forall_inv in Hb.
  - by apply Forall_inv in Hb.
Qed.

(** The bytes in the order [operator<] looks at them. *)
Definition order_idx (u : bytes) : list nat :=
  (if version u =? version_time_based then [6; 7; 4; 5; 0; 1; 2; 3]%nat else [0; 1; 2; 3; 4; 5; 6; 7]%nat) ++ lsb_idx.

Lemma encode_same_version u w s t :
  wf u → wf w → at_ u 6 / 16 = at_ w 6 / 16 → version u = version w →
  bytes_compare (EncodeToComparable u ++ s) (EncodeToComparable w ++ t) =
  match bytes_compare (map (at_ u) (order_idx u)) (map (at_ w) (order_idx u)) with
  | Eq => bytes_compare s t
  | c => c
  end.
Proof.
  intros Hu Hw Hv Ev. unfold order_idx, EncodeToComparable. rewrite <- Ev. clear Ev.
  destruct (wf_bytes u Hu) as (b0 & b1 & b2 & b3 & b4 & b5 & b6 & b7 & l & -> & Hl & Hb & _).
  destruct (wf_bytes w Hw) as (c0 & c1 & c2 & c3 & c4 & c5 & c6 & c7 & l' & -> & Hl' & Hc & _).
  unfold at_ in Hv. cbn [nth] in Hv. rewrite !map_app, !map_at_lsb by done.
  change (drop kUuidMsbSize (b0 :: _)) with l. change (drop kUuidMsbSize (c0 :: _)) with l'.
  rewrite <- !app_assoc. case_test.
  - rewrite app_assoc, (app_assoc _ l'). rewrite bytes_compare_app by (rewrite !length_app, Hl, Hl'; done). done.
  - destruct (version_first_value b0 b1 b2 b3 b4 b5 b6 b7 l Hb) as (Hr & E1 & E2).
    destruct (version_first_value c0 c1 c2 c3 c4 c5 c6 c7 l' Hc) as (Hr' & E1' & E2').
    destruct (version_first _ _ _ _ _ _ _ _ l Hb) as [_ Hok], (version_first _ _ _ _ _ _ _ _ l' Hc) as [_ Hok'].
    rewrite (bytes_compare_value (ToVersionFirstBytes _) (ToVersionFirstBytes _)) by done.
    cbn [map]. unfold at_ at 1 2 3 4 5 6 7 8 9 10 11 12 13 14 15 16. cbn [nth app].
    assert (∀ x y, bytes_compare (b0 :: b1 :: b2 :: b3 :: b4 :: b5 :: b6 :: b7 :: x) (c0 :: c1 :: c2 :: c3 :: c4 :: c5 :: c6 :: c7 :: y) =
      match be_value [b0; b1; b2; b3; b4; b5; b6; b7] ?= be_value [c0; c1; c2; c3; c4; c5; c6; c7] with
      | Eq => bytes_compare x y | c => c end) as ->.
    { intros x y. by apply (bytes_compare_value [b0; b1; b2; b3; b4; b5; b6; b7] [c0; c1; c2; c3; c4; c5; c6; c7]). }
    rewrite E1, E2, E1', E2', Hv.
    set (P := be_value [b0; b1; b2; b3; b4; b5]) in *. set (P' := be_value [c0; c1; c2; c3; c4; c5]) in *.
    set (r := _ + b7) in *. set (r' := _ + c7) in *.
    replace (c6 / 16 * 2 ^ 60 + P * 2 ^ 12 + r ?= c6 / 16 * 2 ^ 60 + P' * 2 ^ 12 + r')
      with (P * 2 ^ 16 + c6 / 16 * 2 ^ 12 + r ?= P' * 2 ^ 16 + c6 / 16 * 2 ^ 12 + r').
    2:{ destruct (Z.compare_spec (P * 2 ^ 16 + c6 / 16 * 2 ^ 12 + r) (P' * 2 ^ 16 + c6 / 16 * 2 ^ 12 + r'));
        symmetry; [apply Z.compare_eq_iff|apply Z.compare_lt_iff|apply Z.compare_gt_iff]; lia. }
    destruct (_ ?= _); [|done..]. apply bytes_compare_app. lia.
Qed.

Lemma uuid_encode_compare u w s t :
  wf u → wf w → 0 <= at_ u 6 / 16 <= 5 → 0 <= at_ w 6 / 16 <= 5 →
  bytes_compare (EncodeToComparable u ++ s) (EncodeToComparable w ++ t) =
  if lt u w then Lt else if lt w u then Gt else bytes_compare s t.
Proof.
  intros Hu Hw Hv Hv'. unfold lt.
  assert (version u < version w ↔ at_ u 6 / 16 < at_ w 6 / 16) as H1.
  { rewrite !version_known by done. repeat case_test; lia. }
  assert (version w < version u ↔ at_ w 6 / 16 < at_ u 6 / 16) as H2.
  { rewrite !version_known by done. repeat case_test; lia. }
  destruct (encode_head u Hu) as (x & l & E & Ex), (encode_head w Hw) as (y & l' & E' & Ey).
  destruct (Z.ltb_spec (version u) (version w)) as [Hlt|Hge].
  { rewrite E, E'. cbn [app bytes_compare]. assert (x < y) as Hxy.
    { apply H1 in Hlt. apply Z.nle_gt. intros Hle. apply (Z.div_le_mono _ _ 16) in Hle; lia. }
    by apply Z.compare_lt_iff in Hxy as ->. }
  destruct (Z.ltb_spec (version w) (version u)) as [Hgt|Hge'].
  { rewrite E, E'. cbn [app bytes_compare]. assert (y < x) as Hxy.
    { apply H2 in Hgt. apply Z.nle_gt. intros Hle. apply (Z.div_le_mono _ _ 16) in Hle; lia. }
    by apply Z.compare_gt_iff in Hxy as ->. }
  assert (version u = version w) as Ev by lia. rewrite <- Ev. fold lsb_idx. fold (order_idx u).
  rewrite encode_same_version by (done || lia). rewrite !compare_at_bytes.
  rewrite (bytes_compare_antisym (map (at_ w) _)). by destruct (bytes_compare (map (at_ w) _) (map (at_ u) _)).
Qed.

Lemma version_time u : (version u =? version_time_based) = true ↔ at_ u 6 / 16 = 1.
Proof.
  rewrite version_spec. unfold at_, version_time_based. cbv zeta. rewrite Z.eqb_eq.
  destruct (Z.leb_spec 1 (nth 6 u 0 / 16)), (Z.leb_spec (nth 6 u 0 / 16) 5); cbn [andb]; lia.
Qed.

Lemma ToUnixTimestamp_spec u :
  wf u → at_ u 6 / 16 = 1 →
  ToUnixTimestamp u = Ok (ticks u / kMillisPerHundredNanos + kGregorianOffsetMillis).
Proof.
  intros Hu Hv. unfold ToUnixTimestamp, IsTimeUuid. rewrite (proj2 (version_time u) Hv). cbn [obind].
  destruct (time_bytes u Hu Hv) as (_ & Hl & Ht & Hok & Hval).
  rewrite timestamp_fold, Hval, Z.mul_0_l, Z.add_0_l by (done || lia).
  rewrite Z.quot_div_nonneg; [done|lia|]. unfold kMillisPerHundredNanos. lia.
Qed.

(** A uuid made from a timestamp. *)
Lemma FromTimestamp_spec ts u l :
  0 <= ts < 2 ^ 60 → length l = 8%nat → bytes_ok l →
  let w := take kUuidMsbSize (FromTimestamp ts u) ++ l in
  wf w ∧ at_ w 6 / 16 = 1 ∧ ticks w = ts ∧ drop kUuidMsbSize w = l.
Proof.
  intros Hts Hl Hok. unfold FromTimestamp. rewrite u64_small by (unfold is_u64; lia).
  pose proof (be_value_be_bytes 8 ts) as Hv. pose proof (be_bytes_ok 8 ts) as Hb. pose proof (length_be_bytes 8 ts) as Hlen.
  rewrite Z.mod_small in Hv by (change (8 * Z.of_nat 8) with 64; lia).
  destruct (be_bytes 8 ts) as [|t0 [|t1 [|t2 [|t3 [|t4 [|t5 [|t6 [|t7 [|]]]]]]]]]; try done. clear Hlen.
  assert (bytes_ok [t1; t2; t3; t4; t5; t6; t7] ∧ is_u8 t0) as [Hr H0] by (inversion Hb; by subst).
  rewrite be_value_cons in Hv. pose proof (be_value_range _ Hr) as Hrange. change (be_size [t1; t2; t3; t4; t5; t6; t7]) with (2 ^ 56) in *.
  assert (0 <= t0 < 16) as Ht0 by (unfold is_u8 in H0; lia).
  assert (Z.lor (Z.land t0 0x0f) 0x10 = t0 + 16) as E0.
  { destruct (halves t0 H0) as (_ & -> & _). rewrite Z.mod_small, Z.lor_comm by lia.
    assert (Z.lor (1 * 2 ^ 4) t0 = 1 * 2 ^ 4 + t0) as E by (apply lor_disjoint; lia).
    change (1 * 2 ^ 4) with 16 in E. rewrite E. lia. }
  unfold FromTimestampBytes, at_. cbn [insert list_insert nth app]. rewrite E0.
  change (take kUuidMsbSize (?a :: ?b :: ?c :: ?d :: ?e :: ?f :: ?g :: ?h :: _)) with [a; b; c; d; e; f; g; h].
  cbn [app]. split_and!.
  - split; [unfold kUuidSize; cbn [length]; lia|]. clear Hb. unfold bytes_ok in Hr.
    repeat match goal with H : Forall _ (_ :: _) |- _ => inversion_clear H end.
    repeat (apply Forall_cons_2; [unfold is_u8 in *; lia|]). done.
  - unfold at_. cbn [nth]. symmetry. apply Z.div_unique_pos with t0; lia.
  - unfold ticks, ToTimestampBytes, at_. cbn [nth]. rewrite be_value_cons.
    change (be_size [t1; t2; t3; t4; t5; t6; t7]) with (2 ^ 56). lia.
  - done.
Qed.

Lemma lt_bytes u w :
  wf u → wf w → 0 <= at_ u 6 / 16 <= 5 → 0 <= at_ w 6 / 16 <= 5 →
  lt u w = bool_decide (bytes_compare (EncodeToComparable u) (EncodeToComparable w) = Lt).
Proof.
  intros Hu Hw Hv Hv'. pose proof (uuid_encode_compare u w [] [] Hu Hw Hv Hv') as E. rewrite !app_nil_r in E. rewrite E.
  destruct (lt u w); [done|]. by destruct (lt w u).
Qed.

Lemma zeros_least l : bytes_ok l → bytes_compare l (replicate (length l) 0) ≠ Lt.
Proof.
  induction 1 as [|b l Hb Hl IH]; [done|]. cbn [length replicate bytes_compare]. unfold is_u8 in Hb.
  destruct (Z.compare_spec b 0); [done|lia|done].
Qed.

Lemma ones_greatest l : bytes_ok l → bytes_compare (replicate (length l) 255) l ≠ Lt.
Proof.
  induction 1 as [|b l Hb Hl IH]; [done|]. cbn [length replicate bytes_compare]. unfold is_u8 in Hb.
  destruct (Z.compare_spec 255 b); [done|lia|done].
Qed.

(** Version 1 uuids compare by their timestamps first. *)
Lemma time_compare u w :
  wf u → wf w → at_ u 6 / 16 = 1 → at_ w 6 / 16 = 1 →
  bytes_compare (EncodeToComparable u) (EncodeToComparable w) =
  match ticks u ?= ticks w with Eq => bytes_compare (drop kUuidMsbSize u) (drop kUuidMsbSize w) | c => c end.
Proof.
  intros Hu Hw Hv Hv'. unfold EncodeToComparable. rewrite !(proj2 (version_time _)) by done.
  destruct (time_bytes u Hu Hv) as (H1 & H2 & _), (time_bytes w Hw Hv') as (H3 & H4 & _).
  rewrite bytes_compare_value by (done || congruence). unfold ticks.
  destruct (Z.compare_spec (be_value (ToTimestampBytes u)) (be_value (ToTimestampBytes w))) as [E|?|?].
  - by rewrite E, Z.compare_refl.
  - by rewrite (proj2 (Z.compare_lt_iff _ _)) by lia.
  - by rewrite (proj2 (Z.compare_gt_iff _ _)) by lia.
Qed.

End Facts.

(** ** Properties *)

Lemma time_interval t ts :
  let a := (ts - -12219292800000) * 10000 in let b := (ts + 1 - -12219292800000) * 10000 - 1 in
  a <= t <= b ↔ t / 10000 + -12219292800000 = ts.
Proof.
  cbv zeta. pose proof (Z.div_mod t 10000). pose proof (Z.mod_pos_bound t 10000). split; intros; nia.
Qed.

(** A uuid decodes from its encoding, and the byte order of the encodings is [operator<], for
    the nil uuid and the versions 1 to 5. *)
Theorem uuid_comparable {V : UuidVersion} {HV : UuidVersionSpec V} (u w : bytes) :
  wf u → wf w → 0 <= at_ u 6 / 16 <= 5 → 0 <= at_ w 6 / 16 <= 5 →
  DecodeFromComparable (EncodeToComparable u) = Ok u ∧
  ∀ s t, bytes_compare (EncodeToComparable u ++ s) (EncodeToComparable w ++ t) =
         if lt u w then Lt else if lt w u then Gt else bytes_compare s t.
Proof. intros. split; [by apply uuid_decode_encode|]. intros. by apply uuid_encode_compare. Qed.

Definition sample (v : Z) : bytes := [1; 2; 3; 4; 5; 6; 16 * v + 7; 8] ++ replicate 8 9.

Lemma uuid_sample_wf v : 0 <= v < 16 → wf (sample v).
Proof.
  intros Hv. split; [done|]. unfold sample. cbn [app replicate].
  repeat (apply Forall_cons_2; [unfold is_u8; lia|]). constructor.
Qed.

Lemma uuid_comparable_witness :
  DecodeFromComparable (EncodeToComparable (sample 1)) = Ok (sample 1) ∧
  bytes_compare (EncodeToComparable (sample 1) ++ [255]) (EncodeToComparable (sample 4) ++ [0]) = Lt.
Proof.
  destruct (uuid_comparable (sample 1) (sample 4)) as [E Hc].
  - apply uuid_sample_wf. lia.
  - apply uuid_sample_wf. lia.
  - split; discriminate.
  - split; discriminate.
  - split; [exact E|]. exact (Hc [255] [0]).
Defined.

(** A uuid of a version Boost does not know compares below a random one, but its encoding is above. *)
Example uuid_unknown_version_order :
  wf (sample 7) ∧ wf (sample 4) ∧ lt (sample 7) (sample 4) = true ∧
  bytes_compare (EncodeToComparable (sample 7)) (EncodeToComparable (sample 4)) = Gt.
Proof. split_and!; [apply uuid_sample_wf; lia..|done|done]. Qed.

(** The least and the greatest uuid made for a millisecond have its timestamp, and a version 1 uuid
    lies between them exactly when it has that timestamp. *)
Theorem time_uuid_bounds {V : UuidVersion} {HV : UuidVersionSpec V} (ts : Z) (start u : bytes) :
  0 <= ts - kGregorianOffsetMillis → (ts + 1 - kGregorianOffsetMillis) * kMillisPerHundredNanos <= 2 ^ 60 →
  wf u → at_ u 6 / 16 = 1 →
  ∃ lo hi, MinFromUnixTimestamp ts start = Ok lo ∧ MaxFromUnixTimestamp ts start = Ok hi ∧
    ToUnixTimestamp lo = Ok ts ∧ ToUnixTimestamp hi = Ok ts ∧
    (lt u lo = false ∧ lt hi u = false ↔ ToUnixTimestamp u = Ok ts).
Proof.
  intros Hlo Hhi Hu Hv. pose proof (ToUnixTimestamp_spec u Hu Hv) as Hts. unfold kMillisPerHundredNanos, kGregorianOffsetMillis in *.
  unfold MinFromUnixTimestamp, MaxFromUnixTimestamp, hundred_nanos, kMillisPerHundredNanos, kGregorianOffsetMillis.
  rewrite !bool_decide_true by (unfold is_i64; lia). cbn [obind].
  set (a := (ts - -12219292800000) * 10000). set (b := (ts + 1 - -12219292800000) * 10000 - 1).
  destruct (FromTimestamp_spec a start (replicate 8 0)) as (W1 & V1 & T1 & D1); [lia|done|bytes_done|].
  destruct (FromTimestamp_spec b start (replicate 8 255)) as (W2 & V2 & T2 & D2); [lia|done|bytes_done|].
  eexists _, _. split; [done|]. split; [done|].
  rewrite (ToUnixTimestamp_spec _ W1 V1), (ToUnixTimestamp_spec _ W2 V2), Hts, !lt_bytes, !time_compare, T1, T2, D1, D2 by (done || lia).
  unfold kMillisPerHundredNanos, kGregorianOffsetMillis.
  split; [f_equal; unfold a; rewrite Z.div_mul by lia; lia|].
  split; [f_equal; assert (b / 10000 = ts + 12219292800000) as ->; [|lia]; symmetry; apply Z.div_unique_pos with 9999; lia|].
  pose proof (time_interval (ticks u) ts) as Hi. cbv zeta in Hi. fold a b in Hi.
  pose proof (zeros_least (drop kUuidMsbSize u)) as H0. pose proof (ones_greatest (drop kUuidMsbSize u)) as H1.
  assert (length (drop kUuidMsbSize u) = 8%nat) as Hl by (rewrite length_drop; destruct Hu as [-> _]; done).
  assert (bytes_ok (drop kUuidMsbSize u)) as Hd by (apply Forall_drop, Hu). rewrite Hl in H0, H1.
  specialize (H0 Hd). specialize (H1 Hd). rewrite !bool_decide_eq_false.
  destruct (Z.compare_spec (ticks u) a), (Z.compare_spec b (ticks u)); (split; [intros [??]|intros E; injection E as E]);
    try (f_equal; lia); try (exfalso; lia); try done; try (split; done).
Qed.

Lemma time_uuid_bounds_witness :
  ∃ lo hi, MinFromUnixTimestamp 38446755342403 nil_uuid = Ok lo ∧ MaxFromUnixTimestamp 38446755342403 nil_uuid = Ok hi ∧
    lt (sample 1) lo = false ∧ lt hi (sample 1) = false.
Proof.
  destruct (time_uuid_bounds 38446755342403 nil_uuid (sample 1)) as (lo & hi & E1 & E2 & _ & _ & H).
  - discriminate.
  - discriminate.
  - apply uuid_sample_wf. lia.
  - reflexivity.
  - exists lo, hi. split; [exact E1|]. split; [exact E2|]. apply H. reflexivity.
Defined.

End Uuid.
