(* ===== verification/Coding.v ===== *)
(** * Variable-length integers outside keys

    Models util/coding.h, coding-inl.h and coding.cc in [Module Coding]
    (little-endian fixed-width numbers, base-128 varints and length-prefixed
    slices) and util/memcmpable_varint.cc in [Module MemcmpableVarint] (the
    sqlite4 varints, whose byte order is the numeric order). *)

From S2P Require Import Prelude Slice FastVarint KvUtil.

Module Coding.

(** ** Encoders *)

(** [while (v >= B)] runs at most nine times for a 64-bit [v]. *)
Fixpoint EncodeVarint64_loop (fuel : nat) (v : Z) : bytes :=
  match fuel with
  | O => [u8 v]
  | S fuel =>
      if 128 <=? v
      then u8 (Z.lor (Z.land v 127) 128) :: EncodeVarint64_loop fuel (Z.shiftr v 7)
      else [u8 v]
  end.

Definition EncodeVarint64 (v : Z) : bytes := EncodeVarint64_loop 9 v.

Definition InlineEncodeVarint32 (v : Z) : bytes :=
  let B := 128 in
  if v <? 2 ^ 7 then [u8 v]
  else if v <? 2 ^ 14 then [u8 (Z.lor v B); u8 (Z.shiftr v 7)]
  else if v <? 2 ^ 21 then
    [u8 (Z.lor v B); u8 (Z.lor (Z.shiftr v 7) B); u8 (Z.shiftr v 14)]
  else if v <? 2 ^ 28 then
    [u8 (Z.lor v B); u8 (Z.lor (Z.shiftr v 7) B); u8 (Z.lor (Z.shiftr v 14) B);
     u8 (Z.shiftr v 21)]
  else
    [u8 (Z.lor v B); u8 (Z.lor (Z.shiftr v 7) B); u8 (Z.lor (Z.shiftr v 14) B);
     u8 (Z.lor (Z.shiftr v 21) B); u8 (Z.shiftr v 28)].

(** The little-endian bytes of the value, as [memcpy] stores them. *)
Definition InlineEncodeFixed32 (value : Z) : bytes := rev (be_bytes 4 value).
Definition InlineEncodeFixed64 (value : Z) : bytes := rev (be_bytes 8 value).

Definition PutVarint32 (dst : bytes) (v : Z) : bytes := dst ++ InlineEncodeVarint32 v.
Definition PutVarint64 (dst : bytes) (v : Z) : bytes := dst ++ EncodeVarint64 v.
Definition PutFixed32 (dst : bytes) (value : Z) : bytes := dst ++ InlineEncodeFixed32 value.
Definition PutFixed64 (dst : bytes) (value : Z) : bytes := dst ++ InlineEncodeFixed64 value.

(** The length is a [uint32_t] parameter. *)
Definition PutLengthPrefixedSlice (dst value : bytes) : bytes :=
  PutVarint32 dst (u32 (Z.of_nat (length value))) ++ value.
Definition PutFixed32LengthPrefixedSlice (dst value : bytes) : bytes :=
  PutFixed32 dst (u32 (Z.of_nat (length value))) ++ value.

Fixpoint VarintLength_loop (fuel : nat) (v len : Z) : Z :=
  match fuel with
  | O => len
  | S fuel => if 128 <=? v then VarintLength_loop fuel (Z.shiftr v 7) (len + 1) else len
  end.

Definition VarintLength (v : Z) : Z := VarintLength_loop 9 v 1.

(** ** Decoders

    A decoder is given the bytes from [p] to [limit] and returns the value and
    the bytes from the returned pointer on; [None] is the null pointer. *)

Definition DecodeFixed32 (ptr : bytes) : outcome Z := Fastmem.load 4 ptr.
Definition DecodeFixed64 (ptr : bytes) : outcome Z := Fastmem.load 8 ptr.

(** The loop of both varint decoders for an accumulator of [w] bits; [fuel] is
    the number of shifts up to the last allowed one. *)
Fixpoint GetVarint_loop (w : Z) (fuel : nat) (p : bytes) (shift result : Z) : option (Z * bytes) :=
  match fuel, p with
  | O, _ => None
  | S _, [] => None
  | S fuel, byte :: p =>
      if negb (Z.land byte 128 =? 0)
      then GetVarint_loop w fuel p (shift + 7)
             (Z.lor result (Z.shiftl (Z.land byte 127) shift mod 2 ^ w))
      else Some (Z.lor result (Z.shiftl byte shift mod 2 ^ w), p)
  end.

(** [shift <= 28]: five rounds. *)
Definition GetVarint32PtrFallback (p : bytes) : option (Z * bytes) := GetVarint_loop 32 5 p 0 0.

Definition GetVarint32Ptr (p : bytes) : option (Z * bytes) :=
  match p with
  | result :: p' => if Z.land result 128 =? 0 then Some (result, p') else GetVarint32PtrFallback p
  | [] => GetVarint32PtrFallback p
  end.

(** [shift <= 63]: ten rounds. *)
Definition GetVarint64Ptr (p : bytes) : option (Z * bytes) := GetVarint_loop 64 10 p 0 0.

(** [GetVarint32(&input, &value)]: false leaves the input alone. *)
Definition GetVarint32 (input : bytes) : option (Z * bytes) := GetVarint32Ptr input.
Definition GetVarint64 (input : bytes) : option (Z * bytes) := GetVarint64Ptr input.

Definition GetLengthPrefixedSlice (input : bytes) : option (bytes * bytes) :=
  match GetVarint32 input with
  | Some (len, input) =>
      if len <=? Z.of_nat (length input)
      then Some (take (Z.to_nat len) input, drop (Z.to_nat len) input) else None
  | None => None
  end.

(** ** Round trip *)

Lemma lor_continue v : 0 <= v → u8 (Z.lor (Z.land v 127) 128) = v mod 128 + 128.
Proof.
  intros Hv. change 127 with (2 ^ 7 - 1). rewrite land_ones_mod by lia.
  rewrite Z.lor_comm. change 128 with (1 * 2 ^ 7) at 1.
  pose proof (Z.mod_pos_bound v (2 ^ 7)). rewrite lor_disjoint by lia.
  rewrite u8_small; [change (2 ^ 7) with 128 in *; lia|]. unfold is_u8. lia.
Qed.

Lemma land_continue x : 0 <= x < 128 →
  (Z.land (x + 128) 128 =? 0) = false ∧ (Z.land x 128 =? 0) = true ∧ Z.land (x + 128) 127 = x.
Proof.
  intros Hx. change 128 with (2 ^ 7). rewrite !land_top_zero by lia. split_and!.
  - by apply Z.ltb_ge; lia.
  - by apply Z.ltb_lt; lia.
  - change 127 with (2 ^ 7 - 1). rewrite land_ones_mod by lia.
    rewrite <- (Z.mod_small x (2 ^ 7)) at 2 by lia. rewrite <- (Z_mod_plus_full x 1). f_equal.
Qed.

(** One more group of seven bits. *)
Lemma lor_group w result x shift :
  0 <= shift → 0 <= result < 2 ^ shift → 0 <= x → x * 2 ^ shift < 2 ^ w →
  Z.lor result (Z.shiftl x shift mod 2 ^ w) = result + x * 2 ^ shift.
Proof.
  intros Hs Hr Hx Hw. rewrite Z.shiftl_mul_pow2, Z.mod_small by nia.
  rewrite Z.lor_comm, lor_disjoint by lia. lia.
Qed.

Lemma get_encode w n fuel v rest shift result :
  0 <= shift → 0 <= result < 2 ^ shift → 0 <= v → v * 2 ^ shift < 2 ^ w →
  v < 2 ^ (7 * Z.of_nat (S n)) → (S n ≤ fuel)%nat →
  GetVarint_loop w fuel (EncodeVarint64_loop n v ++ rest) shift result =
  Some (result + v * 2 ^ shift, rest).
Proof.
  intros Hs Hr Hv Hw Hn Hf. revert v fuel shift result Hs Hr Hv Hw Hn Hf.
  induction n as [|n IH]; intros v [|fuel] shift result Hs Hr Hv Hw Hn Hf; try lia.
  - change (2 ^ (7 * Z.of_nat 1)) with 128 in Hn. cbn [EncodeVarint64_loop app GetVarint_loop].
    rewrite u8_small by (unfold is_u8; lia).
    rewrite (proj1 (proj2 (land_continue v ltac:(lia)))). cbn [negb]. by rewrite lor_group.
  - cbn [EncodeVarint64_loop]. destruct (Z.leb_spec 128 v).
    + cbn [app GetVarint_loop]. rewrite lor_continue by done.
      pose proof (Z.mod_pos_bound v 128 ltac:(lia)) as Hm.
      pose proof (Z.div_mod v 128 ltac:(lia)) as Hdm.
      destruct (land_continue (v mod 128) Hm) as (-> & _ & ->). cbn [negb].
      rewrite Z.shiftr_div_pow2 by lia. change (2 ^ 7) with 128.
      rewrite lor_group by nia.
      rewrite IH; rewrite ?Z.pow_add_r by lia; change (2 ^ 7) with 128; try nia; try lia.
      * f_equal. f_equal. nia.
      * apply Z.div_lt_upper_bound; [lia|]. replace (7 * Z.of_nat (S (S n))) with
          (7 + 7 * Z.of_nat (S n)) in Hn by lia. rewrite Z.pow_add_r in Hn by lia. lia.
    + cbn [app GetVarint_loop]. rewrite u8_small by (unfold is_u8; lia).
      rewrite (proj1 (proj2 (land_continue v ltac:(lia)))). cbn [negb]. by rewrite lor_group.
Qed.

Lemma get_varint64 v rest : is_u64 v → GetVarint64 (EncodeVarint64 v ++ rest) = Some (v, rest).
Proof.
  intros [??]. unfold GetVarint64, GetVarint64Ptr, EncodeVarint64.
  rewrite get_encode; cbn [Z.of_nat]; try lia. f_equal. f_equal. lia.
Qed.

(** The unrolled 32-bit encoder writes what the 64-bit loop does. *)
Lemma lor_high v : 0 <= v → u8 (Z.lor v 128) = u8 (Z.lor (Z.land v 127) 128).
Proof.
  intros Hv. apply Z.bits_inj'. intros i Hi. unfold u8.
  destruct (Z.ltb_spec i 8); [|by rewrite !Z.mod_pow2_bits_high by lia].
  rewrite !Z.mod_pow2_bits_low, !Z.lor_spec, Z.land_spec by lia.
  change 127 with (Z.ones 7). change 128 with (2 ^ 7).
  rewrite Z.testbit_ones_nonneg, Z.pow2_bits_eqb by lia.
  destruct (Z.ltb_spec i 7); [by rewrite andb_true_r|].
  rewrite (proj2 (Z.eqb_eq 7 i)) by lia. by rewrite !orb_true_r.
Qed.

Lemma varint32_step n v :
  128 <= v → EncodeVarint64_loop (S n) v = u8 (Z.lor v 128) :: EncodeVarint64_loop n (Z.shiftr v 7).
Proof.
  intros. cbn [EncodeVarint64_loop]. rewrite (proj2 (Z.leb_le 128 v)) by lia.
  by rewrite (lor_high v) by lia.
Qed.

Lemma varint_last n v : v < 128 → EncodeVarint64_loop n v = [u8 v].
Proof. intros. destruct n; [done|]. cbn. by rewrite (proj2 (Z.leb_gt 128 v)) by lia. Qed.

Lemma shiftr_7_bounds k v lo hi :
  0 <= k → lo * 2 ^ k <= v < hi * 2 ^ k → lo <= Z.shiftr v k < hi.
Proof.
  intros Hk Hv. rewrite Z.shiftr_div_pow2 by done. split.
  - apply Z.div_le_lower_bound; lia.
  - apply Z.div_lt_upper_bound; lia.
Qed.

Ltac shift_bounds v :=
  rewrite ?Z.shiftr_shiftr by lia; cbn [Z.add Pos.add Pos.add_carry Pos.succ];
  match goal with
  | |- 128 <= Z.shiftr v ?k => pose proof (shiftr_7_bounds k v 128 (2 ^ 32)); lia
  | |- Z.shiftr v ?k < 128 => pose proof (shiftr_7_bounds k v 0 128); lia
  | |- _ => lia
  end.

Lemma varint32_is_varint64 n v :
  is_u32 v → InlineEncodeVarint32 v = EncodeVarint64_loop (S (S (S (S n)))) v.
Proof.
  intros [??]. unfold InlineEncodeVarint32. cbv zeta. repeat case_test.
  - by rewrite varint_last by lia.
  - by rewrite varint32_step, varint_last by shift_bounds v.
  - rewrite 2!varint32_step, varint_last by shift_bounds v. by rewrite !Z.shiftr_shiftr by lia.
  - rewrite 3!varint32_step, varint_last by shift_bounds v. by rewrite !Z.shiftr_shiftr by lia.
  - rewrite 4!varint32_step, varint_last by shift_bounds v. by rewrite !Z.shiftr_shiftr by lia.
Qed.

Lemma get_varint32 v rest :
  is_u32 v → GetVarint32 (InlineEncodeVarint32 v ++ rest) = Some (v, rest).
Proof.
  intros Hv. pose proof Hv as [??].
  assert (GetVarint32PtrFallback (InlineEncodeVarint32 v ++ rest) = Some (v, rest)) as Hf.
  { unfold GetVarint32PtrFallback. rewrite (varint32_is_varint64 0) by done.
    rewrite get_encode; cbn [Z.of_nat]; try lia. f_equal. f_equal. lia. }
  unfold GetVarint32, GetVarint32Ptr. rewrite (varint32_is_varint64 0) in * by done.
  unfold GetVarint32PtrFallback in *. destruct (Z.ltb_spec v 128).
  - rewrite varint_last by done. cbn [app]. rewrite u8_small by (unfold is_u8; lia).
    by rewrite (proj1 (proj2 (land_continue v ltac:(lia)))).
  - cbn [EncodeVarint64_loop] in *. rewrite (proj2 (Z.leb_le 128 v)) in * by done.
    rewrite lor_continue in * by done. pose proof (Z.mod_pos_bound v 128 ltac:(lia)).
    cbn [app] in *. by rewrite (proj1 (land_continue (v mod 128) ltac:(lia))).
Qed.

Lemma get_length_prefixed s rest :
  is_u32 (Z.of_nat (length s)) →
  GetLengthPrefixedSlice (PutLengthPrefixedSlice [] s ++ rest) = Some (s, rest).
Proof.
  intros Hs. unfold GetLengthPrefixedSlice, PutLengthPrefixedSlice, PutVarint32. cbn [app].
  rewrite u32_small, <- app_assoc, get_varint32 by done.
  rewrite (proj2 (Z.leb_le _ _)) by (rewrite length_app; lia).
  by rewrite Nat2Z.id, take_app_length, drop_app_length.
Qed.

Lemma varint_length_loop n v len :
  VarintLength_loop n v len = len + Z.of_nat (length (EncodeVarint64_loop n v)) - 1.
Proof.
  revert v len. induction n as [|n IH]; intros v len; cbn [VarintLength_loop EncodeVarint64_loop];
    [cbn [length]; lia|].
  case_test; [rewrite IH, length_cons|cbn [length]]; lia.
Qed.

End Coding.

(** ** sqlite4 varints *)

Module MemcmpableVarint.

Definition varintWrite32 (y : Z) : bytes :=
  [u8 (Z.shiftr y 24); u8 (Z.shiftr y 16); u8 (Z.shiftr y 8); u8 y].

(** The bytes of [z] that are used. *)
Definition sqlite4PutVarint64 (x : Z) : bytes :=
  if x <=? 240 then [u8 x]
  else if x <=? 2287 then
    let y := x - 240 in [u8 (y / 256 + 241); u8 (y mod 256)]
  else if x <=? 67823 then
    let y := x - 2288 in [249; u8 (y / 256); u8 (y mod 256)]
  else
    let y := x in
    let w := Z.shiftr x 32 in
    if w =? 0 then
      if y <=? 16777215 then [250; u8 (Z.shiftr y 16); u8 (Z.shiftr y 8); u8 y]
      else 251 :: varintWrite32 (u32 y)
    else if w <=? 255 then [252; u8 w] ++ varintWrite32 (u32 y)
    else if w <=? 65535 then [253; u8 (Z.shiftr w 8); u8 w] ++ varintWrite32 (u32 y)
    else if w <=? 16777215 then
      [254; u8 (Z.shiftr w 16); u8 (Z.shiftr w 8); u8 w] ++ varintWrite32 (u32 y)
    else [255] ++ varintWrite32 (u32 w) ++ varintWrite32 (u32 y).

(** The value and the number of bytes used; zero bytes when [z] is too short.
    The sums are converted to [unsigned int] or [uint64_t] when stored. *)
Definition sqlite4GetVarint64 (z : bytes) : outcome (Z * nat) :=
  let n := Z.of_nat (length z) in
  if n <? 1 then Ok (0, 0%nat)
  else
    let! z0 := byte_at z 0 in
    if z0 <=? 240 then Ok (z0, 1%nat)
    else if z0 <=? 248 then
      if n <? 2 then Ok (0, 0%nat)
      else let! z1 := byte_at z 1 in Ok ((z0 - 241) * 256 + z1 + 240, 2%nat)
    else if n <? z0 - 246 then Ok (0, 0%nat)
    else
      let! z1 := byte_at z 1 in
      let! z2 := byte_at z 2 in
      if z0 =? 249 then Ok (2288 + 256 * z1 + z2, 3%nat)
      else
        let! z3 := byte_at z 3 in
        if z0 =? 250 then Ok (Z.shiftl z1 16 + Z.shiftl z2 8 + z3, 4%nat)
        else
          let! z4 := byte_at z 4 in
          let x := u32 (Z.shiftl z1 24 + Z.shiftl z2 16 + Z.shiftl z3 8 + z4) in
          if z0 =? 251 then Ok (x, 5%nat)
          else
            let! z5 := byte_at z 5 in
            if z0 =? 252 then Ok (u64 (u64 (Z.shiftl x 8) + z5), 6%nat)
            else
              let! z6 := byte_at z 6 in
              if z0 =? 253 then Ok (u64 (u64 (Z.shiftl x 16) + Z.shiftl z5 8 + z6), 7%nat)
              else
                let! z7 := byte_at z 7 in
                if z0 =? 254 then
                  Ok (u64 (u64 (Z.shiftl x 24) + (Z.shiftl z5 16 + Z.shiftl z6 8 + z7)), 8%nat)
                else
                  let! z8 := byte_at z 8 in
                  Ok (u64 (u64 (Z.shiftl x 32) +
                    Z.land 0xffffffff (Z.shiftl z5 24 + Z.shiftl z6 16 + Z.shiftl z7 8 + z8)),
                    9%nat).

Definition PutMemcmpableVarint64 (dst : bytes) (value : Z) : bytes :=
  dst ++ sqlite4PutVarint64 value.

Definition GetMemcmpableVarint64 (input : bytes) : outcome (Z * bytes) :=
  let! (value, size) := sqlite4GetVarint64 input in
  let! rest := Slice.remove_prefix input size in
  if decide (size ≤ 0)%nat then Err InvalidArgument else Ok (value, rest).

(** *** The encoding as a tag and a big-endian payload *)

(** The first byte, the number of bytes that follow and their value. *)
Definition shape (x : Z) : Z * nat * Z :=
  if x <=? 240 then (x, 0%nat, 0)
  else if x <=? 2287 then ((x - 240) / 256 + 241, 1%nat, (x - 240) mod 256)
  else if x <=? 67823 then (249, 2%nat, x - 2288)
  else if x <? 2 ^ 24 then (250, 3%nat, x)
  else if x <? 2 ^ 32 then (251, 4%nat, x)
  else if x <? 2 ^ 40 then (252, 5%nat, x)
  else if x <? 2 ^ 48 then (253, 6%nat, x)
  else if x <? 2 ^ 56 then (254, 7%nat, x)
  else (255, 8%nat, x).

Lemma write32_be y : varintWrite32 (u32 y) = be_bytes 4 y.
Proof.
  unfold varintWrite32. cbn [be_bytes Z.of_nat Z.mul Pos.mul Pos.of_succ_nat Pos.succ].
  assert (∀ k, 0 <= k <= 24 → u8 (Z.shiftr (u32 y) k) = u8 (Z.shiftr y k)) as H.
  { intros k Hk. unfold u8, u32. apply Z.bits_inj'. intros i Hi.
    destruct (Z.ltb_spec i 8); [|by rewrite !Z.mod_pow2_bits_high by lia].
    rewrite !Z.mod_pow2_bits_low, !Z.shiftr_spec, Z.mod_pow2_bits_low by lia. done. }
  rewrite <- (Z.shiftr_0_r (u32 y)) at 4. by rewrite !H by lia.
Qed.

Lemma shiftr_test x k m :
  0 <= k → (Z.shiftr x k <=? m) = (x <? (m + 1) * 2 ^ k).
Proof.
  intros Hk. rewrite Z.shiftr_div_pow2 by done. apply eq_iff_eq_true.
  rewrite Z.leb_le, Z.ltb_lt. rewrite <- Z.lt_succ_r, <- Z.add_1_r. split; intros H.
  - pose proof (Z.mul_succ_div_gt x (2 ^ k)). nia.
  - apply Z.div_lt_upper_bound; lia.
Qed.

Lemma be_bytes_app_high n m x :
  be_bytes n (Z.shiftr x (8 * Z.of_nat m)) ++ be_bytes m x = be_bytes (n + m) x.
Proof.
  induction n as [|n IH]; [done|]. cbn [be_bytes Nat.add app]. rewrite IH. f_equal.
  rewrite Z.shiftr_shiftr by lia. f_equal. f_equal. lia.
Qed.

Lemma put_shape x :
  is_u64 x →
  sqlite4PutVarint64 x = (shape x).1.1 :: be_bytes (shape x).1.2 (shape x).2.
Proof.
  intros [H0 H1]. unfold sqlite4PutVarint64, shape. cbv zeta.
  destruct (Z.leb_spec x 240); [cbn; by rewrite u8_small by (unfold is_u8; lia)|].
  destruct (Z.leb_spec x 2287).
  { cbn. rewrite Z.shiftr_0_r, u8_small; [done|]. unfold is_u8.
    pose proof (Z.div_mod (x - 240) 256). pose proof (Z.mod_pos_bound (x - 240) 256). lia. }
  destruct (Z.leb_spec x 67823).
  { cbn [be_bytes fst snd Z.of_nat Z.mul Pos.mul Pos.of_succ_nat]. rewrite Z.shiftr_0_r.
    rewrite Z.shiftr_div_pow2 by lia. unfold u8 at 2. change (2 ^ 8) with 256.
    rewrite Z.mod_mod by lia. done. }
  assert ((Z.shiftr x 32 =? 0) = (x <? 2 ^ 32)) as ->.
  { etransitivity; [|apply (shiftr_test x 32 0); lia]. apply eq_iff_eq_true. rewrite Z.eqb_eq, Z.leb_le.
    pose proof (proj2 (Z.shiftr_nonneg x 32) H0). lia. }
  rewrite !shiftr_test by lia. rewrite !write32_be.
  destruct (Z.leb_spec x 16777215) as [Hx|Hx].
  - rewrite !(proj2 (Z.ltb_lt x _)) by lia. cbn [fst snd be_bytes Z.of_nat Z.mul Pos.mul].
    by rewrite Z.shiftr_0_r.
  - rewrite (proj2 (Z.ltb_ge x (2 ^ 24))) by lia. case_test; [done|].
    change ((255 + 1) * 2 ^ 32) with (2 ^ 40). change ((65535 + 1) * 2 ^ 32) with (2 ^ 48).
    change ((16777215 + 1) * 2 ^ 32) with (2 ^ 56).
    repeat case_test; cbn [fst snd].
    + rewrite <- (be_bytes_app_high 1 4). cbn. by rewrite Z.shiftr_0_r.
    + rewrite <- (be_bytes_app_high 2 4). cbn. by rewrite Z.shiftr_0_r.
    + rewrite <- (be_bytes_app_high 3 4). cbn. by rewrite Z.shiftr_0_r.
    + by rewrite <- (be_bytes_app_high 4 4).
Qed.

(** *** Decoding *)

Lemma payload_bytes n x :
  0 <= x < 2 ^ (8 * Z.of_nat n) →
  ∃ l, be_bytes n x = l ∧ length l = n ∧ bytes_ok l ∧ be_value l = x.
Proof.
  intros. exists (be_bytes n x). split_and!; auto using length_be_bytes, be_bytes_ok.
  by rewrite be_value_be_bytes, Z.mod_small.
Qed.

Lemma shape_range x :
  is_u64 x → 0 <= (shape x).1.1 < 256 ∧ 0 <= (shape x).2 < 2 ^ (8 * Z.of_nat (shape x).1.2).
Proof.
  intros [??]. unfold shape. repeat case_test; cbn [fst snd Z.of_nat Z.mul Pos.mul Pos.of_succ_nat Pos.succ];
    try (split; lia).
  pose proof (Z.mod_pos_bound (x - 240) 256). pose proof (Z.div_mod (x - 240) 256). lia.
Qed.

(** Evaluate the decoder on a tag and the explicit list of payload bytes. *)
Ltac decode_payload x k :=
  let l := fresh "l" in let E := fresh "E" in let Hv := fresh "Hv" in
  destruct (payload_bytes k x ltac:(cbn; lia)) as (l & E & ? & Hok & Hv); rewrite E;
  repeat (let b := fresh "b" in destruct l as [|b l]; try discriminate);
  unfold be_value in Hv; cbn [foldl] in Hv;
  unfold bytes_ok, is_u8 in Hok; rewrite ?Forall_cons in Hok; clear E;
  unfold sqlite4GetVarint64, byte_at; cbn [app lookup list_lookup obind];
  rewrite !length_cons;
  rewrite ?(proj2 (Z.ltb_ge (Z.of_nat _) _)) by lia;
  cbn [Z.leb Z.compare Pos.compare Pos.compare_cont Z.eqb Pos.eqb];
  rewrite ?Z.shiftl_mul_pow2 by lia;
  f_equal; f_equal.

Lemma land_32 y : Z.land 0xffffffff y = u32 y.
Proof. rewrite Z.land_comm. apply (land_ones_mod y 32). lia. Qed.

Lemma get_shape x rest :
  is_u64 x →
  sqlite4GetVarint64 ((shape x).1.1 :: be_bytes (shape x).1.2 (shape x).2 ++ rest) =
  Ok (x, S (shape x).1.2).
Proof.
  intros [H0 H1]. unfold shape. repeat case_test; cbn [fst snd].
  - cbn [be_bytes app]. unfold sqlite4GetVarint64, byte_at. rewrite length_cons.
    rewrite (proj2 (Z.ltb_ge _ _)) by lia. cbn [lookup list_lookup obind].
    by rewrite (proj2 (Z.leb_le _ _)) by lia.
  - pose proof (Z.mod_pos_bound (x - 240) 256). pose proof (Z.div_mod (x - 240) 256).
    set (q := (x - 240) / 256) in *. set (r := (x - 240) mod 256) in *.
    change (be_bytes 1 r) with [u8 (Z.shiftr r 0)].
    rewrite Z.shiftr_0_r, u8_small by (unfold is_u8; lia).
    unfold sqlite4GetVarint64, byte_at. rewrite !length_cons. cbn [app lookup list_lookup obind].
    rewrite length_cons, !(proj2 (Z.ltb_ge (Z.of_nat _) _)) by lia.
    rewrite (proj2 (Z.leb_gt (q + 241) 240)), (proj2 (Z.leb_le (q + 241) 248)) by lia.
    f_equal. f_equal. lia.
  - decode_payload (x - 2288) 2%nat. lia.
  - decode_payload x 3%nat. lia.
  - decode_payload x 4%nat. rewrite u32_small by (unfold is_u32; lia). lia.
  - decode_payload x 5%nat. rewrite (u32_small (_ + _)) by (unfold is_u32; lia).
    unfold u64. rewrite Zplus_mod_idemp_l, Z.mod_small; lia.
  - decode_payload x 6%nat. rewrite (u32_small (_ + _)) by (unfold is_u32; lia).
    unfold u64. rewrite <- Z.add_assoc, Zplus_mod_idemp_l, Z.mod_small; lia.
  - decode_payload x 7%nat. rewrite (u32_small (_ + _)) by (unfold is_u32; lia).
    unfold u64. rewrite Zplus_mod_idemp_l, Z.mod_small; lia.
  - decode_payload x 8%nat. rewrite land_32, !(u32_small (_ + _)) by (unfold is_u32; lia).
    unfold u64. rewrite Zplus_mod_idemp_l, Z.mod_small; lia.
Qed.

Lemma shape_compare x y :
  is_u64 x → is_u64 y →
  match (shape x).1.1 ?= (shape y).1.1 with
  | Eq => (shape x).1.2 = (shape y).1.2 ∧ ((shape x).2 ?= (shape y).2) = (x ?= y)
  | c => (x ?= y) = c
  end.
Proof.
  intros [??] [??].
  pose proof (Z.mod_pos_bound (x - 240) 256). pose proof (Z.div_mod (x - 240) 256).
  pose proof (Z.mod_pos_bound (y - 240) 256). pose proof (Z.div_mod (y - 240) 256).
  unfold shape. repeat case_test; cbn [fst snd];
    match goal with |- context [match ?a ?= ?b with _ => _ end] => destruct (Z.compare_spec a b) end;
    try lia; try (split; [try done; lia|]);
    rewrite ?Z.compare_lt_iff, ?Z.compare_gt_iff; try lia;
    destruct (Z.compare_spec x y);
    rewrite ?Z.compare_eq_iff, ?Z.compare_lt_iff, ?Z.compare_gt_iff; (done || lia).
Qed.

Lemma get_put_memcmpable x rest :
  is_u64 x → GetMemcmpableVarint64 (PutMemcmpableVarint64 [] x ++ rest) = Ok (x, rest).
Proof.
  intros Hx. unfold GetMemcmpableVarint64, PutMemcmpableVarint64. cbn [app].
  rewrite put_shape by done. cbn [app]. rewrite get_shape by done. cbn [obind].
  unfold Slice.remove_prefix. rewrite length_cons, length_app, length_be_bytes.
  rewrite decide_True by lia. cbn [obind]. rewrite decide_False by lia. f_equal. f_equal.
  cbn [drop]. apply drop_app_length'. by rewrite length_be_bytes.
Qed.

Lemma memcmpable_compare x y a b :
  is_u64 x → is_u64 y →
  bytes_compare (PutMemcmpableVarint64 [] x ++ a) (PutMemcmpableVarint64 [] y ++ b) =
  match x ?= y with Eq => bytes_compare a b | c => c end.
Proof.
  intros Hx Hy. unfold PutMemcmpableVarint64. cbn [app]. rewrite !put_shape by done.
  cbn [app bytes_compare]. pose proof (shape_compare x y Hx Hy) as Hc.
  destruct ((shape x).1.1 ?= (shape y).1.1); [|by rewrite Hc..].
  destruct Hc as [Hn <-]. rewrite Hn. apply be_bytes_compare.
  - rewrite <- Hn. by apply shape_range.
  - by apply shape_range.
Qed.

End MemcmpableVarint.

(** ** Properties *)

(** A 64-bit number written in base 128 or as a sqlite4 varint, a 32-bit
    number written by the unrolled encoder and a slice with its length in
    front of it are read back by their decoders, which leave what follows;
    [VarintLength] is the length of the encoding; and sqlite4 varints compare
    byte by byte as the numbers do, whatever follows them. *)
Theorem varint_codecs (x y : Z) (s a b : bytes) :
  is_u64 x → is_u64 y → is_u32 (Z.of_nat (length s)) →
  Coding.GetVarint64 (Coding.EncodeVarint64 x ++ a) = Some (x, a) ∧
  Coding.VarintLength x = Z.of_nat (length (Coding.EncodeVarint64 x)) ∧
  (is_u32 x → Coding.GetVarint32 (Coding.InlineEncodeVarint32 x ++ a) = Some (x, a)) ∧
  Coding.GetLengthPrefixedSlice (Coding.PutLengthPrefixedSlice [] s ++ a) = Some (s, a) ∧
  MemcmpableVarint.GetMemcmpableVarint64
    (MemcmpableVarint.PutMemcmpableVarint64 [] x ++ a) = Ok (x, a) ∧
  bytes_compare (MemcmpableVarint.PutMemcmpableVarint64 [] x ++ a)
                (MemcmpableVarint.PutMemcmpableVarint64 [] y ++ b) =
  match x ?= y with Eq => bytes_compare a b | c => c end.
Proof.
  intros Hx Hy Hs. split_and!.
  - by apply Coding.get_varint64.
  - unfold Coding.VarintLength. rewrite Coding.varint_length_loop. unfold Coding.EncodeVarint64. lia.
  - apply Coding.get_varint32.
  - by apply Coding.get_length_prefixed.
  - by apply MemcmpableVarint.get_put_memcmpable.
  - by apply MemcmpableVarint.memcmpable_compare.
Qed.

Lemma varint_codecs_witness :
  Coding.GetVarint64 (Coding.EncodeVarint64 300 ++ [1]) = Some (300, [1]) ∧
  bytes_compare (MemcmpableVarint.PutMemcmpableVarint64 [] 300 ++ [1])
                (MemcmpableVarint.PutMemcmpableVarint64 [] 70000 ++ []) = Lt.
Proof.
  destruct (varint_codecs 300 70000 [5; 6] [1] []) as (H & _ & _ & _ & _ & C);
    [split; vm_compute; done..|]. split; [exact H|exact C].
Defined.
