(* ===== verification/Bitmap.v ===== *)
(** * Bitmaps

    Models util/bitmap.h and util/bitmap.cc: the free functions on an array of
    bytes in [Module Bitmap], the two iterators in [Module BitmapIterator] and
    [Module TrueBitIterator], and the set of replicated batches of a
    transaction in [Module OneWayBitmap].  Sizes and indices ([size_t]) are
    natural numbers: no index of an existing array comes near 2^64. *)

From S2P Require Import Prelude Slice FastVarint Coding.

Module Bitmap.

Definition BitmapSize (num_bits : nat) : nat := ((num_bits + 7) / 8)%nat.

(** [idx & 7], as a shift count. *)
Definition bit_of (idx : nat) : Z := Z.of_nat (idx mod 8).

Definition BitmapSet (bitmap : bytes) (idx : nat) : outcome bytes :=
  let! b := byte_at bitmap (idx / 8) in
  store_at bitmap (idx / 8) (u8 (Z.lor b (Z.shiftl 1 (bit_of idx)))).

Definition BitmapChange (bitmap : bytes) (idx : nat) (value : bool) : outcome bytes :=
  let! b := byte_at bitmap (idx / 8) in
  store_at bitmap (idx / 8)
    (u8 (Z.lor (Z.land b (Z.lnot (Z.shiftl 1 (bit_of idx))))
               (Z.shiftl (if value then 1 else 0) (bit_of idx)))).

Definition BitmapClear (bitmap : bytes) (idx : nat) : outcome bytes :=
  let! b := byte_at bitmap (idx / 8) in
  store_at bitmap (idx / 8) (u8 (Z.land b (Z.lnot (Z.shiftl 1 (bit_of idx))))).

Definition BitmapTest (bitmap : bytes) (idx : nat) : outcome bool :=
  let! b := byte_at bitmap (idx / 8) in
  Ok (negb (Z.land b (Z.shiftl 1 (bit_of idx)) =? 0)).

(** The loop [*dst++ |= *src++]. *)
Fixpoint merge_or (n_bytes : nat) (dst src : bytes) : outcome bytes :=
  match n_bytes with
  | O => Ok dst
  | S n =>
      match dst, src with
      | d :: dst, s :: src => let! rest := merge_or n dst src in Ok (Z.lor d s :: rest)
      | _, _ => UB
      end
  end.

Definition BitmapMergeOr (dst src : bytes) (n_bits : nat) : outcome bytes :=
  merge_or (BitmapSize n_bits) dst src.

(** [memset(p + start, v, n)]. *)
Definition memset (p : bytes) (start n : nat) (v : Z) : outcome bytes :=
  if decide (start + n ≤ length p)%nat
  then Ok (take start p ++ replicate n v ++ drop (start + n) p) else UB.

(** [bitmap[i] |= mask] or [bitmap[i] &= ~mask]. *)
Definition apply_mask (bitmap : bytes) (i : nat) (mask : Z) (value : bool) : outcome bytes :=
  let! b := byte_at bitmap i in
  store_at bitmap i (u8 (if value then Z.lor b mask else Z.land b (Z.lnot mask))).

Definition BitmapChangeBits (bitmap : bytes) (offset num_bits : nat) (value : bool)
    : outcome bytes :=
  let start_byte := (offset / 8)%nat in
  let end_byte := ((offset + num_bits - 1) / 8)%nat in
  let single_byte := bool_decide (start_byte = end_byte) in
  let left := (offset mod 8)%nat in
  let right := if single_byte then (left + num_bits)%nat else 8%nat in
  let mask := u8 (Z.land (Z.shiftl 255 (Z.of_nat left)) (Z.shiftr 255 (8 - Z.of_nat right))) in
  let! bitmap := apply_mask bitmap start_byte mask value in
  let start_byte := S start_byte in
  if single_byte then Ok bitmap
  else
    let! bitmap :=
      if decide (start_byte < end_byte)%nat
      then memset bitmap start_byte (end_byte - start_byte) (if value then 255 else 0)
      else Ok bitmap in
    let right := (offset + num_bits - 8 * end_byte)%nat in
    let mask := u8 (Z.shiftr 255 (8 - Z.of_nat right)) in
    apply_mask bitmap end_byte mask value.

(** [BitmapTest(p, bit)] with [p] the address of byte [p] of the bitmap. *)
Definition test_from (bitmap : bytes) (p bit : nat) : outcome bool :=
  BitmapTest (drop p bitmap) bit.

(** [for (; bit < 8 && num_bits > 0; ++bit)]: the position found, or the bits
    left to look at. *)
Fixpoint first_byte (fuel : nat) (bitmap : bytes) (p bit num_bits : nat) (value : bool)
    : outcome (nat + nat) :=
  match fuel with
  | O => Ok (inr num_bits)
  | S fuel =>
      if decide (bit < 8 ∧ 0 < num_bits)%nat then
        let! b := test_from bitmap p bit in
        if Bool.eqb b value then Ok (inl (8 * p + bit)%nat)
        else first_byte fuel bitmap p (S bit) (num_bits - 1) value
      else Ok (inr num_bits)
  end.

(** The two skipping loops, over words of [w] bytes equal to [pattern]. *)
Fixpoint skip_words (w : nat) (pattern : Z) (fuel : nat) (bitmap : bytes) (p num_bits : nat)
    : outcome (nat * nat) :=
  match fuel with
  | O => Ok (p, num_bits)
  | S fuel =>
      if decide (8 * w ≤ num_bits)%nat then
        let! x := Fastmem.load w (drop p bitmap) in
        if x =? pattern then skip_words w pattern fuel bitmap (p + w) (num_bits - 8 * w)
        else Ok (p, num_bits)
      else Ok (p, num_bits)
  end.

(** [for (bit = 0; num_bits > 0; ++bit)]. *)
Fixpoint last_bits (bitmap : bytes) (p bit num_bits : nat) (value : bool) : outcome (option nat) :=
  match num_bits with
  | O => Ok None
  | S n =>
      let! b := test_from bitmap p bit in
      if Bool.eqb b value then Ok (Some (8 * p + bit)%nat)
      else last_bits bitmap p (S bit) n value
  end.

Definition BitmapFindFirst (bitmap : bytes) (offset bitmap_size : nat) (value : bool)
    : outcome (option nat) :=
  let p := (offset / 8)%nat in
  let num_bits := (bitmap_size - offset)%nat in
  let bit := (offset mod 8)%nat in
  let! r := if decide (bit = 0)%nat then Ok (inr num_bits)
            else first_byte 8 bitmap p bit num_bits value in
  match r with
  | inl idx => Ok (Some idx)
  | inr num_bits =>
      let p := if decide (bit = 0)%nat then p else S p in
      let! (p, num_bits) :=
        skip_words 8 (if value then 0 else 2 ^ 64 - 1) num_bits bitmap p num_bits in
      let! (p, num_bits) := skip_words 1 (if value then 0 else 255) num_bits bitmap p num_bits in
      last_bits bitmap p 0 num_bits value
  end.

Definition BitmapFindFirstSet (bitmap : bytes) (offset bitmap_size : nat) :=
  BitmapFindFirst bitmap offset bitmap_size true.
Definition BitmapFindFirstZero (bitmap : bytes) (offset bitmap_size : nat) :=
  BitmapFindFirst bitmap offset bitmap_size false.
Definition BitMapIsAllSet (bitmap : bytes) (offset bitmap_size : nat) : outcome bool :=
  let! r := BitmapFindFirstZero bitmap offset bitmap_size in Ok (bool_decide (r = None)).
Definition BitmapIsAllZero (bitmap : bytes) (offset bitmap_size : nat) : outcome bool :=
  let! r := BitmapFindFirstSet bitmap offset bitmap_size in Ok (bool_decide (r = None)).

(** ** Bits *)

(** Bit [i] of an array of bytes. *)
Definition bit (bm : bytes) (i : nat) : bool := Z.testbit (nth (i / 8) bm 0) (Z.of_nat (i mod 8)).

Lemma byte_at_nth bm i : (i < length bm)%nat → byte_at bm i = Ok (nth i bm 0).
Proof. intros Hi. unfold byte_at.
  destruct (nth_lookup_or_length bm i 0) as [->|]; [done|lia].
Qed.

Lemma bit_split p j : (j < 8)%nat → ((8 * p + j) / 8 = p ∧ (8 * p + j) mod 8 = j)%nat.
Proof.
  intros Hj. rewrite (Nat.mul_comm 8). split.
  - rewrite Nat.div_add_l by lia. rewrite Nat.div_small; lia.
  - rewrite Nat.add_comm, Nat.Div0.mod_add. by apply Nat.mod_small.
Qed.

Lemma bit_join i : i = (8 * (i / 8) + i mod 8)%nat ∧ (i mod 8 < 8)%nat.
Proof. split; [apply Nat.div_mod_eq|apply Nat.mod_upper_bound; lia]. Qed.

Lemma BitmapTest_bit bm i : (i / 8 < length bm)%nat → BitmapTest bm i = Ok (bit bm i).
Proof.
  intros Hi. unfold BitmapTest, bit, bit_of. rewrite byte_at_nth by done. cbn [obind]. f_equal.
  rewrite Z.shiftl_1_l, land_pow2 by lia. case_match; [|done].
  apply negb_true_iff, Z.eqb_neq. lia.
Qed.

Lemma test_from_bit bm p j :
  (j < 8)%nat → (p < length bm)%nat → test_from bm p j = Ok (bit bm (8 * p + j)).
Proof.
  intros Hj Hp. unfold test_from. rewrite BitmapTest_bit.
  - unfold bit. destruct (bit_split p j Hj) as [-> ->].
    rewrite Nat.div_small, Nat.mod_small by done. by rewrite nth_skipn, Nat.add_0_r.
  - rewrite length_drop, Nat.div_small by done. lia.
Qed.

(** ** The first bit of a value *)

(** Reference: the least [i] in the [n] positions from [i] on. *)
Fixpoint find_from (bm : bytes) (value : bool) (n i : nat) : option nat :=
  match n with
  | O => None
  | S n => if Bool.eqb (bit bm i) value then Some i else find_from bm value n (S i)
  end.

Lemma find_from_skip bm value k n i :
  (k ≤ n)%nat → (∀ j, (i ≤ j < i + k)%nat → bit bm j ≠ value) →
  find_from bm value n i = find_from bm value (n - k) (i + k).
Proof.
  revert n i. induction k as [|k IH]; intros n i Hk Hj.
  - by rewrite Nat.sub_0_r, Nat.add_0_r.
  - destruct n as [|n]; [lia|]. cbn [find_from Nat.sub].
    rewrite (proj2 (Bool.eqb_false_iff _ _)) by (apply Hj; lia).
    rewrite IH; [by rewrite Nat.add_succ_comm|lia|]. intros j Hr. apply Hj. lia.
Qed.

(** Eight bits of a byte that is all zeros or all ones. *)
Lemma constant_byte bm p (value : bool) j :
  (p < length bm)%nat → nth p bm 0 = (if value then 0 else 255) →
  (8 * p ≤ j < 8 * p + 8)%nat → bit bm j ≠ value.
Proof.
  intros Hp Hb Hj. unfold bit. replace j with (8 * p + (j - 8 * p))%nat by lia.
  destruct (bit_split p (j - 8 * p)) as [-> ->]; [lia|]. rewrite Hb.
  destruct value; [by rewrite Z.testbit_0_l|].
  change 255 with (Z.ones 8). rewrite Z.testbit_ones_nonneg by lia.
  by rewrite (proj2 (Z.ltb_lt _ _)) by lia.
Qed.

(** A word equal to the repeated pattern byte consists of that byte. *)
Lemma load_constant bm p w v x :
  bytes_ok bm → is_u8 v → (p + w ≤ length bm)%nat →
  Fastmem.load w (drop p bm) = Ok x → x = be_value (rev (take w (replicate w v))) →
  ∀ q, (p ≤ q < p + w)%nat → nth q bm 0 = v.
Proof.
  intros Hok Hv Hl Hx -> q Hq. rewrite Fastmem.load_ok in Hx by (rewrite length_drop; lia).
  injection Hx as Hx. apply Fastmem.load_eq in Hx.
  - replace q with (p + (q - p))%nat by lia. rewrite <- nth_skipn.
    assert (take w (drop p bm) !! (q - p)%nat = Some v) as Hlk.
    { rewrite Hx, lookup_take_lt by lia. by apply lookup_replicate_2; lia. }
    rewrite lookup_take_lt in Hlk by lia. by apply nth_lookup_Some.
  - by apply Forall_drop.
  - by apply Forall_replicate.
  - rewrite length_drop. lia.
  - by rewrite length_replicate.
Qed.

Lemma skip_words_spec w pattern (value : bool) fuel bm p n :
  bytes_ok bm → (0 < w)%nat →
  pattern = be_value (rev (take w (replicate w (if value then 0 else 255)))) →
  (8 * p + n ≤ 8 * length bm)%nat →
  ∃ p' n', skip_words w pattern fuel bm p n = Ok (p', n') ∧
    (8 * p' + n' = 8 * p + n)%nat ∧ (n' ≤ n)%nat ∧
    find_from bm value n (8 * p) = find_from bm value n' (8 * p') ∧
    ((n ≤ fuel)%nat → (w = 1)%nat → (8 ≤ n')%nat → nth p' bm 0 ≠ pattern).
Proof.
  intros Hok Hw Hpat. revert p n. induction fuel as [|fuel IH]; intros p n Hl; cbn [skip_words].
  { exists p, n. split_and!; [done..|]. lia. }
  case_decide as Hn; [|exists p, n; split_and!; [done..|lia]].
  destruct (Fastmem.load w (drop p bm)) as [x| | |] eqn:Hx;
    try (rewrite Fastmem.load_ok in Hx by (rewrite length_drop; lia); done).
  cbn [obind]. destruct (Z.eqb_spec x pattern) as [->|Hne].
  - destruct (IH (p + w)%nat (n - 8 * w)%nat) as (p' & n' & -> & H1 & H2 & H3 & H4); [lia|].
    exists p', n'. split_and!; [done|lia|lia| |intros; apply H4; lia].
    rewrite <- H3. replace (8 * (p + w))%nat with (8 * p + 8 * w)%nat by lia.
    apply find_from_skip; [lia|]. intros j Hj.
    pose proof (bit_join j). refine (constant_byte bm (j / 8) value j _ _ _); [lia| |lia].
    apply (load_constant bm p w (if value then 0 else 255) pattern);
      [done|destruct value; unfold is_u8; lia|lia|done|done|lia].
  - exists p, n. split_and!; [done..|]. intros _ -> _ E. apply Hne. rewrite <- E.
    rewrite Fastmem.load_ok in Hx by (rewrite length_drop; lia). injection Hx as <-.
    destruct (drop p bm) as [|b l] eqn:Hd; [apply (f_equal length) in Hd; rewrite length_drop in Hd; simpl in Hd; lia|].
    cbn. rewrite <- (Nat.add_0_r p), <- nth_skipn, Hd. by cbn.
Qed.

Lemma first_byte_spec fuel bm p j n value :
  (8 - j ≤ fuel)%nat → (j ≤ 8)%nat → (p < length bm)%nat → (8 * p + j + n ≤ 8 * length bm)%nat →
  ∃ r, first_byte fuel bm p j n value = Ok r ∧
    match r with
    | inl i => find_from bm value n (8 * p + j) = Some i
    | inr n' => find_from bm value n (8 * p + j) = find_from bm value n' (8 * S p) ∧
                (8 * S p + n' ≤ 8 * length bm)%nat
    end.
Proof.
  intros Hf Hj Hp. revert j n Hf Hj. induction fuel as [|fuel IH]; intros j n Hf Hj Hl;
    cbn [first_byte].
  { exists (inr n). split; [done|]. replace (8 * S p)%nat with (8 * p + j)%nat by lia. split; [done|lia]. }
  case_decide as Hd.
  - rewrite test_from_bit by lia. cbn [obind]. destruct n as [|n]; [lia|]. cbn [find_from].
    case_match; [by eexists (inl _)|].
    destruct (IH (S j) n) as (r & E & Hr); [lia..|]. exists r. rewrite <- Nat.add_succ_r.
    by replace (S n - 1)%nat with n by lia.
  - exists (inr n). split; [done|]. split; [|lia].
    destruct (decide (n = 0)%nat) as [->|]; [done|]. f_equal. lia.
Qed.

Lemma last_bits_spec bm p j n value :
  (8 * p + j + n ≤ 8 * length bm)%nat →
  (j + n ≤ 8)%nat ∨ (∃ i, (j ≤ i < 8)%nat ∧ bit bm (8 * p + i) = value) →
  last_bits bm p j n value = Ok (find_from bm value n (8 * p + j)).
Proof.
  revert j. induction n as [|n IH]; intros j Hl Hj; [done|]. cbn [last_bits find_from].
  rewrite test_from_bit by (destruct Hj as [|(?&?&?)]; lia). cbn [obind].
  destruct (Bool.eqb (bit bm (8 * p + j)) value) eqn:E; [done|].
  rewrite IH; [by rewrite Nat.add_succ_r|lia|].
  destruct Hj as [|(i & Hi & Hb)]; [left; lia|]. right. exists i. split; [|done].
  destruct (decide (i = j)) as [->|]; [|lia]. by rewrite Hb, Bool.eqb_reflx in E.
Qed.

Lemma bits_constant b (value : bool) :
  is_u8 b → (∀ i, (i < 8)%nat → Z.testbit b (Z.of_nat i) ≠ value) → b = if value then 0 else 255.
Proof.
  intros Hb Hi. apply Z.bits_inj'. intros i H0.
  replace b with (b mod 2 ^ 8) by (by rewrite Z.mod_small).
  destruct (Z.ltb_spec i 8) as [Hlt|Hge].
  - rewrite Z.mod_pow2_bits_low by lia. specialize (Hi (Z.to_nat i) ltac:(lia)).
    rewrite Z2Nat.id in Hi by done. destruct value.
    + rewrite Z.testbit_0_l. by destruct (Z.testbit b i).
    + change 255 with (Z.ones 8). rewrite Z.testbit_ones_nonneg, (proj2 (Z.ltb_lt i 8)) by lia.
      by destruct (Z.testbit b i).
  - rewrite Z.mod_pow2_bits_high by lia. destruct value; [by rewrite Z.testbit_0_l|].
    change 255 with (Z.ones 8). by rewrite Z.testbit_ones_nonneg, (proj2 (Z.ltb_ge i 8)) by lia.
Qed.

(** A byte other than the pattern holds a bit of the value looked for. *)
Lemma bit_found bm p (value : bool) :
  bytes_ok bm → (p < length bm)%nat → nth p bm 0 ≠ (if value then 0 else 255) →
  ∃ i, (i < 8)%nat ∧ bit bm (8 * p + i) = value.
Proof.
  intros Hok Hp Hne.
  destruct (decide (Exists (λ i, bit bm (8 * p + i) = value) (seq 0 8))) as [He|He].
  - apply Exists_exists in He as (i & Hi & E). apply elem_of_seq in Hi. exists i. split; [lia|done].
  - exfalso. apply Hne, bits_constant.
    + destruct (nth_lookup_or_length bm p 0) as [E|]; [|lia].
      exact (Forall_lookup_1 _ _ _ _ Hok E).
    + intros i Hi E. apply He, Exists_exists. exists i. split; [apply elem_of_seq; lia|].
      unfold bit. by destruct (bit_split p i Hi) as [-> ->].
Qed.

Lemma BitmapFindFirst_spec bm offset size value :
  bytes_ok bm → (offset ≤ size ≤ 8 * length bm)%nat →
  BitmapFindFirst bm offset size value = Ok (find_from bm value (size - offset) offset).
Proof.
  intros Hok Hs. unfold BitmapFindFirst. cbv zeta. destruct (bit_join offset) as [Ho Hm].
  set (p := (offset / 8)%nat) in *. set (j := (offset mod 8)%nat) in *.
  assert (∀ p n, (8 * p + n ≤ 8 * length bm)%nat →
    (let! (p, n) := skip_words 8 (if value then 0 else 2 ^ 64 - 1) n bm p n in
     let! (p, n) := skip_words 1 (if value then 0 else 255) n bm p n in
     last_bits bm p 0 n value) = Ok (find_from bm value n (8 * p))) as Hrest.
  { clear -Hok. intros p n Hl.
    destruct (skip_words_spec 8 (if value then 0 else 2 ^ 64 - 1) value n bm p n)
      as (p1 & n1 & -> & H1 & _ & -> & _); [done|lia|by destruct value|done|]. cbn [obind].
    destruct (skip_words_spec 1 (if value then 0 else 255) value n1 bm p1 n1)
      as (p2 & n2 & -> & H2 & _ & -> & Hne); [done|lia|by destruct value|lia|]. cbn [obind].
    rewrite last_bits_spec; [by rewrite Nat.add_0_r|lia|].
    destruct (decide (n2 < 8)%nat); [left; lia|]. right.
    destruct (bit_found bm p2 value Hok) as (i & Hi & E); [lia|apply Hne; lia|].
    exists i. split; [lia|done]. }
  case_decide as Hj.
  - cbn [obind]. rewrite Hrest by lia. do 2 f_equal. lia.
  - destruct (first_byte_spec 8 bm p j (size - offset) value) as (r & -> & Hr); [lia..|].
    cbn [obind]. rewrite <- Ho in Hr. destruct r as [i|n']; [by rewrite Hr|].
    destruct Hr as [-> Hl]. by apply Hrest.
Qed.

(** ** Changing a range of bits *)

(** [bm'] is [bm] with the bits in [P] set to [value]. *)
Definition changed (bm bm' : bytes) (P : nat → Prop) `{!∀ i, Decision (P i)} (value : bool) : Prop :=
  length bm' = length bm ∧ bytes_ok bm' ∧
  ∀ i, (i < 8 * length bm)%nat → bit bm' i = if decide (P i) then value else bit bm i.

Lemma changed_trans bm1 bm2 bm3 (P Q R : nat → Prop)
    `{!∀ i, Decision (P i), !∀ i, Decision (Q i), !∀ i, Decision (R i)} value :
  changed bm1 bm2 P value → changed bm2 bm3 Q value →
  (∀ i, (i < 8 * length bm1)%nat → R i ↔ P i ∨ Q i) → changed bm1 bm3 R value.
Proof.
  intros (L1 & O1 & B1) (L2 & O2 & B2) HR. split_and!; [congruence|done|]. intros i Hi.
  rewrite B2, B1 by (rewrite ?L1; done). specialize (HR i Hi). repeat case_decide; tauto.
Qed.

Lemma changed_ext bm bm' (P Q : nat → Prop) `{!∀ i, Decision (P i), !∀ i, Decision (Q i)} value :
  changed bm bm' P value → (∀ i, (i < 8 * length bm)%nat → P i ↔ Q i) → changed bm bm' Q value.
Proof.
  intros (L & O & B) HPQ. split_and!; [done..|]. intros i Hi. rewrite B by done.
  specialize (HPQ i Hi). repeat case_decide; tauto.
Qed.

Lemma nth_ok bm i : bytes_ok bm → (i < length bm)%nat → is_u8 (nth i bm 0).
Proof.
  intros Hok Hi. destruct (nth_lookup_or_length bm i 0) as [E|]; [|lia].
  exact (Forall_lookup_1 _ _ _ _ Hok E).
Qed.

Lemma nth_insert (bm : bytes) i k v :
  (i < length bm)%nat → nth k (<[i := v]> bm) 0 = if decide (k = i) then v else nth k bm 0.
Proof.
  intros Hi. rewrite !nth_lookup. case_decide as Hk.
  - subst. by rewrite list_lookup_insert_eq by done.
  - by rewrite list_lookup_insert_ne by done.
Qed.

Lemma apply_mask_spec bm k mask value :
  bytes_ok bm → (k < length bm)%nat →
  ∃ bm', apply_mask bm k mask value = Ok bm' ∧
    changed bm bm' (λ i, (i / 8)%nat = k ∧ Z.testbit mask (Z.of_nat (i mod 8)) = true) value.
Proof.
  intros Hok Hk. unfold apply_mask. rewrite byte_at_nth by done. cbn [obind]. unfold store_at.
  rewrite decide_True by done. eexists. split; [done|]. split_and!.
  - apply length_insert.
  - apply Forall_insert; [done|]. apply u8_range.
  - intros i Hi. unfold bit. rewrite nth_insert by done.
    destruct (decide ((i / 8)%nat = k)) as [<-|]; [|by rewrite decide_False by tauto].
    pose proof (Nat.mod_upper_bound i 8 ltac:(lia)).
    unfold u8. rewrite Z.mod_pow2_bits_low by lia.
    destruct value; [rewrite Z.lor_spec|rewrite Z.land_spec, Z.lnot_spec by lia];
      destruct (Z.testbit mask _) eqn:E;
      [rewrite decide_True|rewrite decide_False|rewrite decide_True|rewrite decide_False];
      try done; try (by intros [_ ?]); cbn [negb];
      by rewrite ?orb_true_r, ?orb_false_r, ?andb_false_r, ?andb_true_r.
Qed.

Lemma memset_spec bm start n (value : bool) :
  bytes_ok bm → (start + n ≤ length bm)%nat →
  ∃ bm', memset bm start n (if value then 255 else 0) = Ok bm' ∧
    changed bm bm' (λ i, 8 * start ≤ i < 8 * (start + n))%nat value.
Proof.
  intros Hok Hl. unfold memset. rewrite decide_True by done. eexists. split; [done|].
  split_and!.
  - rewrite !length_app, length_take, length_replicate, length_drop. lia.
  - apply Forall_app_2; [by apply Forall_take|]. apply Forall_app_2; [|by apply Forall_drop].
    apply Forall_replicate. destruct value; unfold is_u8; lia.
  - intros i Hi. destruct (bit_join i) as [Hij Hm].
    set (k := (i / 8)%nat) in *. set (j := (i mod 8)%nat) in *. unfold bit. fold k j.
    assert (Z.testbit (if value then 255 else 0) (Z.of_nat j) = value) as Hv.
    { destruct value; [|apply Z.testbit_0_l]. change 255 with (Z.ones 8).
      rewrite Z.testbit_ones_nonneg by lia. apply Z.ltb_lt. lia. }
    destruct (decide (k < start)%nat) as [H1|H1].
    { rewrite app_nth1 by (rewrite length_take; lia). rewrite decide_False by lia.
      by rewrite !nth_lookup, lookup_take_lt by lia. }
    rewrite app_nth2 by (rewrite length_take; lia). rewrite length_take, Nat.min_l by lia.
    destruct (decide (k < start + n)%nat) as [H2|H2].
    + rewrite app_nth1 by (rewrite length_replicate; lia). rewrite decide_True by lia.
      by rewrite nth_lookup, lookup_replicate_2 by lia.
    + rewrite app_nth2 by (rewrite length_replicate; lia). rewrite decide_False by lia.
      rewrite length_replicate, nth_skipn. do 2 f_equal. lia.
Qed.

Lemma mask_bits left right j :
  (right ≤ 8)%nat → (j < 8)%nat →
  Z.testbit (u8 (Z.land (Z.shiftl 255 (Z.of_nat left)) (Z.shiftr 255 (8 - Z.of_nat right))))
    (Z.of_nat j) = true ↔ (left ≤ j < right)%nat.
Proof.
  intros Hr Hj. unfold u8. rewrite Z.mod_pow2_bits_low, Z.land_spec by lia.
  rewrite Z.shiftl_spec, Z.shiftr_spec by lia. change 255 with (Z.ones 8).
  rewrite andb_true_iff. rewrite (Z.testbit_ones_nonneg 8 (_ + _)), Z.ltb_lt by lia.
  destruct (decide (left ≤ j)%nat).
  - rewrite Z.testbit_ones_nonneg, Z.ltb_lt by lia. lia.
  - rewrite Z.testbit_neg_r by lia. split; [by intros []|lia].
Qed.

Lemma low_mask_bits right j :
  (right ≤ 8)%nat → (j < 8)%nat →
  Z.testbit (u8 (Z.shiftr 255 (8 - Z.of_nat right))) (Z.of_nat j) = true ↔ (j < right)%nat.
Proof.
  intros Hr Hj. unfold u8. rewrite Z.mod_pow2_bits_low, Z.shiftr_spec by lia.
  change 255 with (Z.ones 8). rewrite Z.testbit_ones_nonneg, Z.ltb_lt by lia. lia.
Qed.

Lemma BitmapChangeBits_spec bm offset num value :
  bytes_ok bm → (0 < num)%nat → (offset + num ≤ 8 * length bm)%nat →
  ∃ bm', BitmapChangeBits bm offset num value = Ok bm' ∧
    changed bm bm' (λ i, offset ≤ i < offset + num)%nat value.
Proof.
  intros Hok Hn Hl. unfold BitmapChangeBits. cbv zeta.
  destruct (bit_join offset) as [Ho Hom]. destruct (bit_join (offset + num - 1)) as [He Hem].
  set (s := (offset / 8)%nat) in *. set (e := ((offset + num - 1) / 8)%nat) in *.
  set (left := (offset mod 8)%nat) in *. set (r := ((offset + num - 1) mod 8)%nat) in *.
  destruct (decide (s = e)) as [Hse|Hse].
  - rewrite bool_decide_true by done.
    edestruct (apply_mask_spec bm s) as (bm' & -> & Hc); [done|lia|]. cbn [obind].
    exists bm'. split; [done|]. eapply changed_ext; [exact Hc|]. intros i Hi.
    destruct (bit_join i) as [Hij Hm]. rewrite mask_bits by lia. lia.
  - rewrite bool_decide_false by done.
    edestruct (apply_mask_spec bm s) as (bm1 & -> & Hc1); [done|lia|]. cbn [obind].
    pose proof Hc1 as (L1 & O1 & _).
    assert (∃ bm2, (if decide (S s < e)%nat then memset bm1 (S s) (e - S s) (if value then 255 else 0)
                    else Ok bm1) = Ok bm2 ∧
              changed bm1 bm2 (λ i, 8 * S s ≤ i < 8 * (S s + (e - S s)))%nat value)
      as (bm2 & -> & Hc2).
    { case_decide; [apply memset_spec; [done|lia]|]. exists bm1. split; [done|].
      split_and!; [done..|]. intros. by rewrite decide_False by lia. }
    cbn [obind]. pose proof Hc2 as (L2 & O2 & _).
    edestruct (apply_mask_spec bm2 e) as (bm3 & -> & Hc3); [done|lia|].
    exists bm3. split; [done|].
    eapply (changed_trans bm bm2 bm3 (λ i, offset ≤ i < 8 * e)%nat); [|exact Hc3|].
    + eapply changed_trans; [exact Hc1|exact Hc2|]. intros i Hi.
      destruct (bit_join i) as [Hij Hm]. rewrite mask_bits by lia. lia.
    + intros i Hi. destruct (bit_join i) as [Hij Hm]. cbv beta. rewrite low_mask_bits by lia. lia.
Qed.

End Bitmap.

(** ** Iterators *)

Module BitmapIterator.
Import Bitmap.

Definition done_ (num_bits_ offset_ : nat) : bool := bool_decide ((num_bits_ - offset_)%nat = 0%nat).

(** [Next]: the length of the run, its value and the new [offset_]. *)
Definition Next (map_ : bytes) (num_bits_ offset_ : nat) : outcome (nat * bool * nat) :=
  let len := (num_bits_ - offset_)%nat in
  if decide (len = 0)%nat then Ok (0%nat, false, offset_)
  else
    let! value := BitmapTest map_ offset_ in
    let! r := BitmapFindFirst map_ offset_ num_bits_ (negb value) in
    match r with
    | Some index => Ok ((index - offset_)%nat, value, index)
    | None => Ok (len, value, num_bits_)
    end.

End BitmapIterator.

Module TrueBitIterator.
Import Bitmap.

(** [cur_byte_idx_] is a [uint8_t]. *)
Record t := mk { cur_byte_ : Z; cur_byte_idx_ : Z; bit_idx_ : Z }.

Section Iterator.
Context (bitmap_ : bytes) (n_bits_ : nat).

Definition n_bytes_ : Z := Z.of_nat (BitmapSize n_bits_).

(** [Bits::FindLSBSetNonZero], the number of trailing zeros. *)
Definition FindLSBSetNonZero (n : Z) : Z := Z.log2 (Z.land n (- n)).

(** [None]: the loop is still running after [fuel] rounds. *)
Fixpoint AdvanceToNextOneBit (fuel : nat) (it : t) : option (outcome t) :=
  match fuel with
  | O => None
  | S fuel =>
      if cur_byte_ it =? 0 then
        let idx := u8 (cur_byte_idx_ it + 1) in
        if n_bytes_ <=? idx then Some (Ok (mk (cur_byte_ it) idx (bit_idx_ it)))
        else match byte_at bitmap_ (Z.to_nat idx) with
             | Ok b => AdvanceToNextOneBit fuel (mk b idx (idx * 8))
             | _ => Some UB
             end
      else
        let set_bit := FindLSBSetNonZero (cur_byte_ it) in
        Some (Ok (mk (Z.shiftr (cur_byte_ it) set_bit) (cur_byte_idx_ it) (bit_idx_ it + set_bit)))
  end.

Definition TrueBitIterator (fuel : nat) : option (outcome t) :=
  if decide (n_bits_ = 0)%nat then Some (Ok (mk 0 1 0))
  else match byte_at bitmap_ 0 with
       | Ok b => AdvanceToNextOneBit fuel (mk b 0 0)
       | _ => Some UB
       end.

Definition next (fuel : nat) (it : t) : option (outcome t) :=
  AdvanceToNextOneBit fuel (mk (Z.land (cur_byte_ it) (Z.lnot 1)) (cur_byte_idx_ it) (bit_idx_ it)).

Definition done_ (it : t) : bool := n_bytes_ <=? cur_byte_idx_ it.

(** [for (; !iter.done(); ++iter)]: the positions seen. *)
Fixpoint collect (rounds fuel : nat) (it : t) : option (list Z) :=
  match rounds with
  | O => None
  | S rounds =>
      if done_ it then Some []
      else match next fuel it with
           | Some (Ok it') => (bit_idx_ it ::.) <$> collect rounds fuel it'
           | _ => None
           end
  end.

Definition true_bits (rounds fuel : nat) : option (list Z) :=
  match TrueBitIterator fuel with Some (Ok it) => collect rounds fuel it | _ => None end.

(** *** What is left to visit *)

(** The set bits of a byte, from [base] on. *)
Definition byte_bits (c base : Z) : list Z :=
  (λ j, base + j) <$> filter (λ j, Z.testbit c j = true) (seqZ 0 8).

(** The set bits of the bytes from [k] on, [n] of them. *)
Fixpoint rest_bits (n : nat) (k : nat) : list Z :=
  match n with
  | O => []
  | S n => byte_bits (nth k bitmap_ 0) (8 * Z.of_nat k) ++ rest_bits n (S k)
  end.

(** The first set bit of a byte and what [++] leaves of it. *)
Definition step_ok (c : Z) : bool :=
  let l := FindLSBSetNonZero c in
  bool_decide (filter (λ j, Z.testbit c j = true) (seqZ 0 8) =
    l :: ((λ j, l + j) <$>
      filter (λ j, Z.testbit (Z.land (Z.shiftr c l) (Z.lnot 1)) j = true) (seqZ 0 8))) &&
  (0 <=? Z.land (Z.shiftr c l) (Z.lnot 1)) && (Z.land (Z.shiftr c l) (Z.lnot 1) <? 256).

Lemma steps_ok : forallb step_ok (seqZ 1 255) = true.
Proof. vm_compute. reflexivity. Qed.

Lemma byte_bits_step c base :
  is_u8 c → c ≠ 0 →
  let l := FindLSBSetNonZero c in
  let c' := Z.land (Z.shiftr c l) (Z.lnot 1) in
  is_u8 c' ∧ byte_bits c base = (base + l) :: byte_bits c' (base + l).
Proof.
  intros Hc Hne. assert (step_ok c = true) as H.
  { pose proof steps_ok as Hs. rewrite forallb_forall in Hs. apply Hs, list_elem_of_In.
    apply elem_of_seqZ. unfold is_u8 in Hc. lia. }
  unfold step_ok in H. bool_tests. cbv zeta. split; [done|].
  unfold byte_bits. rewrite H. cbn [fmap list_fmap]. f_equal.
  rewrite <- list_fmap_compose. apply list_fmap_ext. intros. simpl. lia.
Qed.

Lemma byte_bits_0 base : byte_bits 0 base = [].
Proof. done. Qed.

Definition remaining (it : t) : list Z :=
  byte_bits (cur_byte_ it) (bit_idx_ it) ++
  rest_bits (Z.to_nat (n_bytes_ - cur_byte_idx_ it - 1)) (S (Z.to_nat (cur_byte_idx_ it))).

Definition it_ok (it : t) : Prop := is_u8 (cur_byte_ it) ∧ 0 <= cur_byte_idx_ it < n_bytes_.

(** The state [++] continues from. *)
Definition cleared (it : t) : t :=
  mk (Z.land (cur_byte_ it) (Z.lnot 1)) (cur_byte_idx_ it) (bit_idx_ it).

Section Small.
Context (Hok : bytes_ok bitmap_) (Hlen : n_bytes_ <= Z.of_nat (length bitmap_)).
Context (Hsmall : n_bytes_ <= 255).

Lemma advance_spec fuel it :
  it_ok it → n_bytes_ - cur_byte_idx_ it < Z.of_nat fuel →
  ∃ it', AdvanceToNextOneBit fuel it = Some (Ok it') ∧
    match remaining it with
    | [] => done_ it' = true
    | x :: l => done_ it' = false ∧ bit_idx_ it' = x ∧ it_ok (cleared it') ∧
                remaining (cleared it') = l
    end.
Proof.
  revert it. induction fuel as [|fuel IH]; intros [c idx bi] [Hc Hi] Hf; simpl in *; [lia|].
  destruct (Z.eqb_spec c 0) as [->|Hne].
  - rewrite u8_small by (unfold is_u8; lia). unfold remaining at 1. cbn [cur_byte_ bit_idx_ cur_byte_idx_].
    rewrite byte_bits_0. cbn [app]. destruct (Z.leb_spec n_bytes_ (idx + 1)) as [Hd|Hd].
    + eexists. split; [done|]. replace (Z.to_nat (n_bytes_ - idx - 1)) with 0%nat by lia.
      cbn [rest_bits]. unfold done_. simpl. apply Z.leb_le. lia.
    + rewrite byte_at_nth by lia.
      set (b := nth (Z.to_nat (idx + 1)) bitmap_ 0).
      assert (rest_bits (Z.to_nat (n_bytes_ - idx - 1)) (S (Z.to_nat idx)) =
              remaining (mk b (idx + 1) ((idx + 1) * 8))) as ->.
      { unfold remaining. cbn [cur_byte_ bit_idx_ cur_byte_idx_].
        replace (Z.to_nat (n_bytes_ - idx - 1)) with (S (Z.to_nat (n_bytes_ - (idx + 1) - 1))) by lia.
        replace (S (Z.to_nat idx)) with (Z.to_nat (idx + 1)) by lia.
        cbn [rest_bits]. f_equal. f_equal. lia. }
      apply IH; [|simpl; lia]. split; [apply nth_ok; [done|lia]|simpl; lia].
  - destruct (byte_bits_step c bi Hc Hne) as [Hc' E].
    eexists. split; [done|]. unfold remaining at 1. cbn [cur_byte_ bit_idx_ cur_byte_idx_].
    rewrite E. cbn [app]. split_and!.
    + unfold done_. simpl. apply Z.leb_gt. lia.
    + done.
    + split; simpl; [done|lia].
    + done.
Qed.

Lemma collect_spec rounds fuel it r :
  n_bytes_ < Z.of_nat fuel → (length r < rounds)%nat →
  match r with
  | [] => done_ it = true
  | x :: l => done_ it = false ∧ bit_idx_ it = x ∧ it_ok (cleared it) ∧ remaining (cleared it) = l
  end →
  collect rounds fuel it = Some r.
Proof.
  intros Hf. revert rounds it. induction r as [|x l IH]; intros [|rounds] it Hr Hit;
    cbn [length] in Hr; try lia; cbn [collect].
  - by rewrite Hit.
  - destruct Hit as (-> & Hx & Hc & Hrem). unfold next. change (mk _ _ _) with (cleared it).
    destruct (advance_spec fuel (cleared it) Hc) as (it' & -> & Hit').
    { destruct Hc as [_ Hc]. lia. }
    rewrite Hrem in Hit'. rewrite (IH rounds it') by (done || lia). cbn. by rewrite Hx.
Qed.

Lemma byte_bits_seq k :
  byte_bits (nth k bitmap_ 0) (8 * Z.of_nat k) =
  Z.of_nat <$> filter (λ i, bit bitmap_ i = true) (seq (8 * k) 8).
Proof.
  unfold byte_bits.
  change (seqZ 0 8) with (Z.of_nat <$> seq 0 8).
  replace (seq (8 * k) 8) with ((λ j, (8 * k + j)%nat) <$> seq 0 8).
  2:{ rewrite fmap_add_seq. f_equal. lia. }
  rewrite !filter_map_comm, <- !list_fmap_compose.
  rewrite (filter_ext_in _ (λ j, bit bitmap_ (8 * k + j) = true)).
  - apply list_fmap_ext. intros ? j _. simpl. lia.
  - intros j Hj%elem_of_seq. cbv beta. unfold bit. by destruct (bit_split k j) as [-> ->]; [lia|].
Qed.

Lemma rest_bits_seq n k :
  rest_bits n k = Z.of_nat <$> filter (λ i, bit bitmap_ i = true) (seq (8 * k) (8 * n)).
Proof.
  revert k. induction n as [|n IH]; intros k; cbn [rest_bits].
  - by rewrite Nat.mul_0_r.
  - rewrite IH, byte_bits_seq. replace (8 * S n)%nat with (8 + 8 * n)%nat by lia.
    rewrite seq_app, filter_app, fmap_app. do 3 f_equal. f_equal. lia.
Qed.

Lemma true_bits_spec rounds fuel :
  n_bytes_ < Z.of_nat fuel → 8 * n_bytes_ < Z.of_nat rounds →
  true_bits rounds fuel =
  Some (Z.of_nat <$> filter (λ i, bit bitmap_ i = true) (seq 0 (8 * BitmapSize n_bits_))).
Proof.
  intros Hf Hr. unfold true_bits, TrueBitIterator. case_decide as Hn.
  - destruct rounds; [unfold n_bytes_ in Hr; lia|]. cbn [collect]. unfold done_, n_bytes_. by rewrite Hn.
  - assert (0 < BitmapSize n_bits_)%nat as Hp.
    { unfold BitmapSize. apply Nat.div_str_pos. lia. }
    unfold n_bytes_ in *. rewrite byte_at_nth by lia.
    destruct (advance_spec fuel (mk (nth 0 bitmap_ 0) 0 0)) as (it & -> & Hit).
    { split; [apply nth_ok; [done|lia]|unfold n_bytes_; simpl; lia]. }
    { unfold n_bytes_. simpl. lia. }
    assert (remaining (mk (nth 0 bitmap_ 0) 0 0) = rest_bits (BitmapSize n_bits_) 0) as E.
    { unfold remaining, n_bytes_. simpl.
      replace (BitmapSize n_bits_) with (S (BitmapSize n_bits_ - 1)) at 2 by lia.
      cbn [rest_bits]. f_equal. f_equal. lia. }
    rewrite <- (rest_bits_seq _ 0), <- E. apply collect_spec; [done| |done].
    rewrite E, rest_bits_seq, length_fmap.
    pose proof (length_filter (λ i, bit bitmap_ i = true) (seq (8 * 0) (8 * BitmapSize n_bits_))) as Hl.
    rewrite length_seq in Hl. lia.
Qed.

End Small.

(** With more than 255 bytes the byte index wraps around before it reaches the
    end: on a bitmap that starts with 256 zero bytes the search never ends. *)
Lemma advance_diverges fuel idx bi :
  256 <= n_bytes_ → (∀ k, (k < 256)%nat → bitmap_ !! k = Some 0) →
  AdvanceToNextOneBit fuel (mk 0 idx bi) = None.
Proof.
  intros Hn Hz. revert idx bi. induction fuel as [|fuel IH]; intros idx bi; [done|].
  cbn [AdvanceToNextOneBit cur_byte_ cur_byte_idx_ bit_idx_ Z.eqb].
  pose proof (u8_range (idx + 1)) as [Hl Hu]. change (2 ^ 8) with 256 in Hu.
  rewrite (proj2 (Z.leb_gt _ _)) by lia.
  unfold byte_at. rewrite Hz by lia. apply IH.
Qed.

End Iterator.
End TrueBitIterator.

(** ** A bitmap whose bits are only ever set *)

Module OneWayBitmap.

Record t := mk { ones_counter_ : nat; fully_filled_bits_ : nat; data_ : bytes }.

Definition kBitsPerElement : nat := 8.
Definition kAllOnes : Z := 255.
Definition empty : t := mk 0 0 [].

(** [while (i < data_.size() && data_[i] == kAllOnes) ++i]. *)
Fixpoint leading_ones (data : bytes) : nat :=
  match data with
  | b :: data => if b =? kAllOnes then S (leading_ones data) else 0%nat
  | [] => 0%nat
  end.

(** [data_.resize(n)] when it does not shrink. *)
Definition resize (data : bytes) (n : nat) : bytes := data ++ replicate (n - length data) 0.

Definition Set_ (s : t) (bit : nat) : t :=
  if decide (bit < fully_filled_bits_ s)%nat then s
  else
    let bit := (bit - fully_filled_bits_ s)%nat in
    let idx := (bit / kBitsPerElement)%nat in
    let data := resize (data_ s) (Nat.max (length (data_ s)) (idx + 1)) in
    let element := nth idx data 0 in
    let mask := Z.shiftl 1 (Z.of_nat (bit mod kBitsPerElement)) in
    if negb (Z.land element mask =? 0) then mk (ones_counter_ s) (fully_filled_bits_ s) data
    else
      let data := <[idx := Z.lor element mask]> data in
      let i := leading_ones data in
      mk (S (ones_counter_ s)) (fully_filled_bits_ s + kBitsPerElement * i)%nat (drop i data).

Definition Test (s : t) (bit : nat) : bool :=
  if decide (bit < fully_filled_bits_ s)%nat then true
  else
    let bit := (bit - fully_filled_bits_ s)%nat in
    let idx := (bit / kBitsPerElement)%nat in
    if decide (length (data_ s) ≤ idx)%nat then false
    else negb (Z.land (nth idx (data_ s) 0) (Z.shiftl 1 (Z.of_nat (bit mod kBitsPerElement))) =? 0).

Definition CountSet (s : t) : nat := ones_counter_ s.

Definition EncodeTo (s : t) (out : bytes) : bytes :=
  let buf := Coding.EncodeVarint64 (Z.of_nat (fully_filled_bits_ s / 8)) in
  let body_len := (length (data_ s) + length buf)%nat in
  Coding.PutVarint64 out (Z.of_nat body_len) ++ buf ++ data_ s.

(** [Slice(slice->data(), body_len)]: for a length of 2^63 or more the end of
    the body wraps around the address space. *)
Definition DecodeBody (slice : bytes) : outcome (bytes * bytes) :=
  match Coding.GetVarint64 slice with
  | None => Err Corruption
  | Some (body_len, slice) =>
      if 2 ^ 63 <=? body_len then UB
      else if Z.of_nat (length slice) <? body_len then Err Corruption
      else
        let! rest := Slice.remove_prefix slice (Z.to_nat body_len) in
        Ok (take (Z.to_nat body_len) slice, rest)
  end.

Definition Skip (slice : bytes) : outcome bytes :=
  let! (_, slice) := DecodeBody slice in Ok slice.

(** [__builtin_popcount] of a byte. *)
Definition popcount (v : Z) : nat := length (filter (λ j, Z.testbit v j = true) (seqZ 0 8)).
Definition total_popcount (data : bytes) : nat := foldr (λ v n, (popcount v + n)%nat) 0%nat data.

Definition Decode (slice : bytes) : outcome (t * bytes) :=
  let! (body, slice) := DecodeBody slice in
  match Coding.GetVarint64 body with
  | None => Err Corruption
  | Some (fully_filled_bytes, body) =>
      let fully_filled_bits := (Z.to_nat fully_filled_bytes * 8)%nat in
      let ones_counter := (fully_filled_bits + total_popcount body)%nat in
      if negb (bool_decide (body = [])) && (nth (length body - 1) body 0 =? 0)
      then Err Corruption
      else Ok (mk ones_counter fully_filled_bits body, slice)
  end.

(** *** Invariant *)

(** The first remaining byte has a clear bit, the last one a set bit; the
    counter is the number of set bits. *)
Definition inv (s : t) : Prop :=
  bytes_ok (data_ s) ∧ (8 | fully_filled_bits_ s)%nat ∧ head (data_ s) ≠ Some 255 ∧
  last (data_ s) ≠ Some 0 ∧
  ones_counter_ s = (fully_filled_bits_ s + total_popcount (data_ s))%nat.

Lemma inv_empty : inv empty.
Proof. split_and!; [constructor|by exists 0%nat|done..]. Qed.

(** Masking one bit of a byte of the data. *)
Lemma mask_test e k : (negb (Z.land e (Z.shiftl 1 (Z.of_nat k)) =? 0)) = Z.testbit e (Z.of_nat k).
Proof.
  rewrite Z.shiftl_1_l, land_pow2 by lia. case_match; [|done]. apply negb_true_iff, Z.eqb_neq. lia.
Qed.

Lemma Test_bit s i :
  Test s i = true ↔
  (i < fully_filled_bits_ s)%nat ∨ Bitmap.bit (data_ s) (i - fully_filled_bits_ s) = true.
Proof.
  unfold Test. case_decide; [split; [by left|done]|]. unfold kBitsPerElement, Bitmap.bit.
  rewrite mask_test. case_decide.
  - rewrite nth_overflow, Z.testbit_0_l by done. split; [done|]. intros [|]; [lia|done].
  - split; [by right|]. intros [|]; [lia|done].
Qed.

(** Setting a clear bit adds one to the number of set bits of a byte. *)
Definition set_ok (e : Z) : bool :=
  forallb (λ k, Z.testbit e (Z.of_nat k) ||
    (bool_decide (popcount (Z.lor e (Z.shiftl 1 (Z.of_nat k))) = S (popcount e)) &&
     bool_decide (is_u8 (Z.lor e (Z.shiftl 1 (Z.of_nat k)))) &&
     negb (Z.lor e (Z.shiftl 1 (Z.of_nat k)) =? 0))) (seq 0 8).

Lemma sets_ok : forallb set_ok (seqZ 0 256) = true.
Proof. vm_compute. reflexivity. Qed.

Lemma popcount_set e k :
  is_u8 e → (k < 8)%nat → Z.testbit e (Z.of_nat k) = false →
  let e' := Z.lor e (Z.shiftl 1 (Z.of_nat k)) in
  popcount e' = S (popcount e) ∧ is_u8 e' ∧ e' ≠ 0.
Proof.
  intros He Hk Hb. pose proof sets_ok as H. rewrite forallb_forall in H.
  specialize (H e). rewrite <- list_elem_of_In, elem_of_seqZ in H.
  specialize (H ltac:(unfold is_u8 in He; lia)). unfold set_ok in H. rewrite forallb_forall in H.
  specialize (H k). rewrite <- list_elem_of_In, elem_of_seq in H. specialize (H ltac:(lia)).
  rewrite Hb in H. cbn [orb] in H. bool_tests. done.
Qed.

Lemma nth_resize data n i : nth i (resize data n) 0 = nth i data 0.
Proof.
  unfold resize. rewrite !nth_lookup. destruct (decide (i < length data)%nat).
  - by rewrite lookup_app_l.
  - rewrite lookup_app_r by lia. rewrite (lookup_ge_None_2 data i) by lia. cbn [default].
    destruct (replicate _ 0 !! _) eqn:E; [|done]. by apply lookup_replicate_1 in E as [-> _].
Qed.

Lemma length_resize data n : length (resize data n) = Nat.max (length data) n.
Proof. unfold resize. rewrite length_app, length_replicate. lia. Qed.

Lemma total_popcount_app a b :
  total_popcount (a ++ b) = (total_popcount a + total_popcount b)%nat.
Proof. induction a as [|x a IH]; [done|]. cbn. unfold total_popcount in *. lia. Qed.

Lemma total_popcount_resize data n : total_popcount (resize data n) = total_popcount data.
Proof.
  unfold resize. rewrite total_popcount_app.
  assert (∀ k, total_popcount (replicate k 0) = 0%nat) as ->; [|lia].
  induction k as [|k IH]; [done|exact IH].
Qed.

Lemma total_popcount_insert data idx e' :
  (idx < length data)%nat → popcount e' = S (popcount (nth idx data 0)) →
  total_popcount (<[idx := e']> data) = S (total_popcount data).
Proof.
  intros Hi He. destruct (nth_lookup_or_length data idx 0) as [E|]; [|lia].
  rewrite insert_take_drop by done. rewrite <- (take_drop_middle data idx _ E) at 3.
  rewrite !total_popcount_app. cbn. fold (total_popcount (drop (S idx) data)). lia.
Qed.

(** *** Dropping the full bytes at the front *)

Lemma leading_ones_le d : (leading_ones d ≤ length d)%nat.
Proof. induction d as [|b d IH]; cbn; [lia|]. case_match; lia. Qed.

Lemma leading_ones_head d : head (drop (leading_ones d) d) ≠ Some 255.
Proof.
  induction d as [|b d IH]; [done|]. cbn [leading_ones].
  destruct (Z.eqb_spec b kAllOnes) as [->|Hb]; [done|]. cbn. unfold kAllOnes in Hb. congruence.
Qed.

Lemma leading_ones_popcount d :
  (8 * leading_ones d + total_popcount (drop (leading_ones d) d))%nat = total_popcount d.
Proof.
  induction d as [|b d IH]; [done|]. cbn [leading_ones].
  destruct (Z.eqb_spec b kAllOnes) as [->|Hb]; [|done]. cbn [drop]. cbn [total_popcount foldr].
  fold (total_popcount d). change (popcount kAllOnes) with 8%nat. lia.
Qed.

Lemma leading_ones_bits d j :
  ((j < 8 * leading_ones d)%nat ∨
   Bitmap.bit (drop (leading_ones d) d) (j - 8 * leading_ones d) = true) ↔ Bitmap.bit d j = true.
Proof.
  revert j. induction d as [|b d IH]; intros j.
  - cbn [leading_ones drop]. rewrite Nat.mul_0_r, Nat.sub_0_r. split; [intros [|]; [lia|done]|by right].
  - cbn [leading_ones]. destruct (Z.eqb_spec b kAllOnes) as [->|Hb].
    2:{ cbn [drop]. rewrite Nat.mul_0_r, Nat.sub_0_r. split; [intros [|]; [lia|done]|by right]. }
    cbn [drop]. destruct (decide (j < 8)%nat) as [Hj|Hj].
    + split; [|left; lia]. intros _. unfold Bitmap.bit. rewrite Nat.div_small, Nat.mod_small by done.
      change (nth 0 _ 0) with (Z.ones 8). rewrite Z.testbit_ones_nonneg by lia. apply Z.ltb_lt. lia.
    + assert (∀ l, Bitmap.bit (kAllOnes :: l) j = Bitmap.bit l (j - 8)) as Hs.
      { intros l. unfold Bitmap.bit. replace j with ((j - 8) + 1 * 8)%nat at 1 2 by lia.
        rewrite Nat.div_add, Nat.Div0.mod_add, Nat.add_1_r by lia. done. }
      rewrite Hs, <- IH. replace (j - 8 * S (leading_ones d))%nat
        with (j - 8 - 8 * leading_ones d)%nat by lia. split; intros [|]; [left; lia|by right|left; lia|by right].
Qed.

(** *** Setting a bit *)

Lemma Test_false s b :
  Test s b = false →
  (fully_filled_bits_ s ≤ b)%nat ∧ Bitmap.bit (data_ s) (b - fully_filled_bits_ s) = false.
Proof.
  intros H. assert (¬ Test s b = true) as Hn by congruence. rewrite Test_bit in Hn.
  split; [lia|]. destruct (Bitmap.bit _ _); [|done]. tauto.
Qed.

Lemma Set_present s b : Test s b = true → Set_ s b = s.
Proof.
  unfold Set_, Test. case_decide; [done|]. cbv zeta. case_decide as Hl; [done|]. intros Ht.
  rewrite nth_resize, Ht. unfold resize. rewrite Nat.max_l by lia.
  rewrite Nat.sub_diag, app_nil_r. by destruct s.
Qed.

(** The bytes after the bit is set and before the full ones are dropped. *)
Definition with_bit (s : t) (b : nat) : bytes :=
  let idx := (b / 8)%nat in
  let data := resize (data_ s) (Nat.max (length (data_ s)) (idx + 1)) in
  <[idx := Z.lor (nth idx data 0) (Z.shiftl 1 (Z.of_nat (b mod 8)))]> data.

Lemma Set_absent s b :
  Test s b = false →
  let d := with_bit s (b - fully_filled_bits_ s) in
  Set_ s b = mk (S (ones_counter_ s)) (fully_filled_bits_ s + 8 * leading_ones d)
               (drop (leading_ones d) d).
Proof.
  intros Ht. destruct (Test_false s b Ht) as [Hge Hb]. unfold Set_. rewrite decide_False by lia.
  cbv zeta. unfold kBitsPerElement. rewrite mask_test, nth_resize.
  unfold Bitmap.bit in Hb. rewrite Hb. unfold with_bit. cbv zeta. by rewrite nth_resize.
Qed.

Lemma with_bit_spec s b :
  inv s → Bitmap.bit (data_ s) b = false →
  let d := with_bit s b in
  bytes_ok d ∧ last d ≠ Some 0 ∧ total_popcount d = S (total_popcount (data_ s)) ∧
  (∀ j, Bitmap.bit d j = true ↔ j = b ∨ Bitmap.bit (data_ s) j = true).
Proof.
  intros (Hok & _ & _ & Hlast & _) Hb. cbv zeta. unfold with_bit. cbv zeta.
  set (idx := (b / 8)%nat). set (data := resize _ _).
  assert (length data = Nat.max (length (data_ s)) (idx + 1)) as Hlen
    by (unfold data; rewrite length_resize; lia).
  pose proof (Nat.mod_upper_bound b 8 ltac:(lia)) as Hm.
  assert (bytes_ok data) as Hokd.
  { unfold data, resize. apply Forall_app_2; [done|]. apply Forall_replicate. unfold is_u8. lia. }
  destruct (popcount_set (nth idx data 0) (b mod 8)) as (Hp & Hu & Hnz); [apply Bitmap.nth_ok; [done|lia]|done| |].
  { unfold data. by rewrite nth_resize. }
  split_and!.
  - by apply Forall_insert.
  - rewrite last_lookup, length_insert. destruct (decide (idx = pred (length data))) as [Heq|Hne].
    + rewrite <- Heq, list_lookup_insert_eq by lia. congruence.
    + rewrite list_lookup_insert_ne by done. unfold data in *. rewrite length_resize in *.
      unfold resize. rewrite lookup_app_l by lia. rewrite last_lookup in Hlast.
      by replace (pred (Nat.max (length (data_ s)) (Nat.max (length (data_ s)) (idx + 1))))
        with (pred (length (data_ s))) by lia.
  - rewrite total_popcount_insert; [|lia|done]. unfold data. by rewrite total_popcount_resize.
  - intros j. unfold Bitmap.bit. rewrite Bitmap.nth_insert by lia. unfold data at 2. rewrite nth_resize.
    destruct (decide ((j / 8)%nat = idx)) as [Hj|Hj].
    + rewrite Z.lor_spec, orb_true_iff, Z.shiftl_1_l, Z.pow2_bits_eqb, Z.eqb_eq by lia.
      unfold data. rewrite nth_resize, Hj. destruct (Bitmap.bit_join j), (Bitmap.bit_join b).
      assert (Z.of_nat (b mod 8) = Z.of_nat (j mod 8) ↔ j = b) as -> by (unfold idx in Hj; lia). tauto.
    + split; [by right|]. intros [->|]; [done|done].
Qed.

Lemma Set_spec s b :
  inv s →
  inv (Set_ s b) ∧ (∀ i, Test (Set_ s b) i = true ↔ i = b ∨ Test s i = true) ∧
  CountSet (Set_ s b) = if Test s b then CountSet s else S (CountSet s).
Proof.
  intros Hs. destruct (Test s b) eqn:Ht.
  { rewrite Set_present by done. split_and!; [done| |done]. intros i. split; [by right|].
    by intros [->|]. }
  destruct (Test_false s b Ht) as [Hge Hb]. pose proof (with_bit_spec s _ Hs Hb) as (Ho & Hl & Hp & Hbits).
  rewrite Set_absent by done. cbv zeta in *. set (d := with_bit s _) in *.
  destruct Hs as (_ & Hdiv & _ & _ & Hc). split_and!; [split_and!|..];
    cbn [ones_counter_ fully_filled_bits_ data_].
  - by apply Forall_drop.
  - apply Nat.divide_add_r; [done|]. by exists (leading_ones d); lia.
  - apply leading_ones_head.
  - rewrite last_lookup in Hl |- *. rewrite lookup_drop, length_drop.
    destruct (decide (leading_ones d < length d)%nat); [|by rewrite lookup_ge_None_2 by lia].
    by replace (leading_ones d + pred (length d - leading_ones d))%nat with (pred (length d)) by lia.
  - pose proof (leading_ones_popcount d). lia.
  - intros i. rewrite !Test_bit. cbn [fully_filled_bits_ data_]. specialize (Hbits (i - fully_filled_bits_ s)%nat).
    rewrite <- leading_ones_bits in Hbits.
    replace (i - (fully_filled_bits_ s + 8 * leading_ones d))%nat
      with (i - fully_filled_bits_ s - 8 * leading_ones d)%nat by lia.
    destruct (decide (i < fully_filled_bits_ s)%nat); [split; intros; [right|]; left; lia|].
    assert (i - fully_filled_bits_ s = b - fully_filled_bits_ s ↔ i = b)%nat as Hib by lia.
    assert (i < fully_filled_bits_ s + 8 * leading_ones d ↔
            i - fully_filled_bits_ s < 8 * leading_ones d)%nat as -> by lia.
    rewrite Hib in Hbits. tauto.
  - done.
Qed.

(** *** A sequence of calls *)

Definition set_all (l : list nat) : t := foldl Set_ empty l.

Lemma set_all_spec l :
  inv (set_all l) ∧ (∀ i, Test (set_all l) i = true ↔ i ∈ l) ∧
  CountSet (set_all l) = size (list_to_set l : gset nat).
Proof.
  induction l as [|b l IH] using rev_ind.
  { split_and!; [exact inv_empty| |done]. intros i. rewrite Test_bit. cbn.
    split; [|by intros ?%not_elem_of_nil]. intros [|Hb]; [lia|]. unfold Bitmap.bit in Hb.
    rewrite nth_overflow, Z.testbit_0_l in Hb by (cbn; lia). done. }
  unfold set_all in *. rewrite foldl_app. cbn [foldl]. destruct IH as (Hi & Ht & Hc).
  destruct (Set_spec _ b Hi) as (Hi' & Ht' & Hc'). split_and!; [done| |].
  - intros i. rewrite Ht', Ht, elem_of_app, list_elem_of_singleton. tauto.
  - rewrite Hc', list_to_set_app_L. cbn [list_to_set]. rewrite (right_id_L ∅ (∪) {[b]}).
    destruct (Test _ b) eqn:E.
    + apply Ht in E. rewrite Hc. f_equal. clear Ht Ht' Hc Hc'. set_solver.
    + rewrite size_union, size_singleton, Hc; [lia|].
      assert (b ∉ l) as Hb by (intros ?%Ht; congruence).
      clear Ht Ht'. set_solver.
Qed.

(** *** Encoding *)

Definition fits (s : t) : Prop :=
  Z.of_nat (fully_filled_bits_ s) < 2 ^ 64 ∧ Z.of_nat (length (data_ s)) < 2 ^ 62.

Lemma varint_length_bound n v : (length (Coding.EncodeVarint64_loop n v) ≤ S n)%nat.
Proof.
  revert v. induction n as [|n IH]; intros v; cbn [Coding.EncodeVarint64_loop]; [done|].
  case_test; cbn [length]; [|lia]. specialize (IH (Z.shiftr v 7)). lia.
Qed.

Lemma DecodeBody_encoded s rest :
  fits s →
  DecodeBody (EncodeTo s [] ++ rest) =
  Ok (Coding.EncodeVarint64 (Z.of_nat (fully_filled_bits_ s / 8)) ++ data_ s, rest).
Proof.
  intros [Hf Hd]. unfold DecodeBody, EncodeTo, Coding.PutVarint64. cbn [app].
  set (buf := Coding.EncodeVarint64 (Z.of_nat (fully_filled_bits_ s / 8))).
  pose proof (varint_length_bound 9 (Z.of_nat (fully_filled_bits_ s / 8))) as Hb.
  fold (Coding.EncodeVarint64 (Z.of_nat (fully_filled_bits_ s / 8))) in Hb. fold buf in Hb.
  rewrite <- app_assoc, Coding.get_varint64 by (unfold is_u64; lia).
  rewrite (proj2 (Z.leb_gt _ _)) by lia.
  rewrite (proj2 (Z.ltb_ge _ _)) by (rewrite !length_app; lia).
  unfold Slice.remove_prefix. rewrite Nat2Z.id, decide_True by (rewrite !length_app; lia).
  cbn [obind]. by rewrite take_app_length', drop_app_length' by (rewrite length_app; lia).
Qed.

Lemma Decode_encoded s rest :
  inv s → fits s →
  Decode (EncodeTo s [] ++ rest) = Ok (s, rest) ∧ Skip (EncodeTo s [] ++ rest) = Ok rest.
Proof.
  intros (Hok & [q Hq] & _ & Hlast & Hc) Hfit. unfold Decode, Skip.
  rewrite DecodeBody_encoded by done. cbn [obind]. split; [|done].
  destruct Hfit as [Hf _].
  rewrite Coding.get_varint64 by (split; [lia|pose proof (Nat.Div0.div_le_upper_bound (fully_filled_bits_ s) 8 (fully_filled_bits_ s)); lia]).
  rewrite Nat2Z.id, Hq, Nat.div_mul, <- Hq by lia.
  assert (negb (bool_decide (data_ s = [])) && (nth (length (data_ s) - 1) (data_ s) 0 =? 0) = false)
    as ->; [|by rewrite <- Hc; destruct s].
  apply andb_false_iff. destruct (decide (data_ s = [])) as [E|E].
  - left. by rewrite bool_decide_true.
  - right. apply Z.eqb_neq. intros Hz. apply Hlast. rewrite last_lookup.
    assert (0 < length (data_ s))%nat by (destruct (data_ s); [done|cbn; lia]).
    destruct (nth_lookup_or_length (data_ s) (length (data_ s) - 1) 0) as [Hn|]; [|lia].
    by rewrite <- Hz, <- Hn, Nat.sub_1_r.
Qed.

End OneWayBitmap.

(** ** Properties *)

(** [BitmapFindFirst], which skips eight bytes and then one byte at a time,
    returns the least position from [offset] on with the wanted bit, or none,
    and reads nothing behind the bitmap; [BitmapChangeBits] gives the bits of
    its range the value and leaves every other bit alone. *)
Theorem bitmap_ranges (bm : bytes) (offset size num : nat) (value : bool) :
  bytes_ok bm → (offset ≤ size ≤ 8 * length bm)%nat →
  (0 < num)%nat → (offset + num ≤ 8 * length bm)%nat →
  Bitmap.BitmapFindFirst bm offset size value =
    Ok (Bitmap.find_from bm value (size - offset) offset) ∧
  ∃ bm', Bitmap.BitmapChangeBits bm offset num value = Ok bm' ∧ length bm' = length bm ∧
    ∀ i, (i < 8 * length bm)%nat →
      Bitmap.BitmapTest bm' i =
      if decide (offset ≤ i < offset + num)%nat then Ok value else Bitmap.BitmapTest bm i.
Proof.
  intros Hok Hs Hn Hl. split; [by apply Bitmap.BitmapFindFirst_spec|].
  destruct (Bitmap.BitmapChangeBits_spec bm offset num value Hok Hn Hl) as (bm' & E & L & _ & Hb).
  exists bm'. split_and!; [done..|]. intros i Hi. destruct (Bitmap.bit_join i).
  rewrite !Bitmap.BitmapTest_bit, Hb by lia. by case_decide.
Qed.

Lemma bitmap_ranges_witness :
  Bitmap.BitmapFindFirst [0; 0; 64; 1] 3 32 true = Ok (Some 22%nat) ∧
  ∃ bm', Bitmap.BitmapChangeBits [0; 0; 64; 1] 3 17 true = Ok bm' ∧
    Bitmap.BitmapTest bm' 19 = Ok true.
Proof.
  destruct (bitmap_ranges [0; 0; 64; 1] 3 32 17 true) as (H1 & bm' & H2 & _ & H3);
    [bytes_done|cbn; lia..|]. split; [exact H1|]. exists bm'. split; [exact H2|].
  rewrite H3 by (cbn; lia). reflexivity.
Defined.

(** After any calls to [Set] the bitmap of replicated batches tests true on
    exactly the bits that were set and counts each once, although full bytes
    at its front are dropped; its encoding followed by anything decodes to
    the same bitmap, and [Skip] removes exactly the encoding. *)
Theorem one_way_bitmap_is_set (l : list nat) (rest : bytes) :
  let s := OneWayBitmap.set_all l in
  (∀ i, OneWayBitmap.Test s i = true ↔ i ∈ l) ∧
  OneWayBitmap.CountSet s = size (list_to_set l : gset nat) ∧
  (OneWayBitmap.fits s →
   OneWayBitmap.Decode (OneWayBitmap.EncodeTo s [] ++ rest) = Ok (s, rest) ∧
   OneWayBitmap.Skip (OneWayBitmap.EncodeTo s [] ++ rest) = Ok rest).
Proof.
  destruct (OneWayBitmap.set_all_spec l) as (Hi & Ht & Hc). cbv zeta. split_and!; [done..|].
  intros Hf. by apply OneWayBitmap.Decode_encoded.
Qed.

Lemma one_way_bitmap_is_set_witness :
  OneWayBitmap.Decode (OneWayBitmap.EncodeTo (OneWayBitmap.set_all [1; 0; 9; 1]%nat) [] ++ [7]) =
  Ok (OneWayBitmap.set_all [1; 0; 9; 1]%nat, [7]).
Proof.
  apply (one_way_bitmap_is_set [1; 0; 9; 1]%nat [7]). split; vm_compute; reflexivity.
Defined.

(** Up to 255 bytes [TrueBitIterator] visits the set bits of the bytes that
    hold the bitmap in ascending order and stops; with 256 bytes or more its
    8-bit byte index wraps around, and on a bitmap that starts with 256 zero
    bytes the constructor never returns. *)
Theorem true_bit_iterator (bm : bytes) (n_bits rounds fuel : nat) :
  bytes_ok bm → (Bitmap.BitmapSize n_bits ≤ length bm)%nat →
  (Z.of_nat (Bitmap.BitmapSize n_bits) <= 255 →
   Z.of_nat (Bitmap.BitmapSize n_bits) < Z.of_nat fuel →
   8 * Z.of_nat (Bitmap.BitmapSize n_bits) < Z.of_nat rounds →
   TrueBitIterator.true_bits bm n_bits rounds fuel =
   Some (Z.of_nat <$>
     filter (λ i, Bitmap.bit bm i = true) (seq 0 (8 * Bitmap.BitmapSize n_bits)))) ∧
  (256 <= Z.of_nat (Bitmap.BitmapSize n_bits) → take 256 bm = replicate 256 0 →
   TrueBitIterator.TrueBitIterator bm n_bits fuel = None).
Proof.
  intros Hok Hl. split.
  - intros. apply TrueBitIterator.true_bits_spec; unfold TrueBitIterator.n_bytes_; (done || lia).
  - intros Hn Hz. assert (∀ k, (k < 256)%nat → bm !! k = Some 0) as Hk.
    { intros k Hk. rewrite <- (lookup_take_lt _ 256), Hz by done. by apply lookup_replicate_2. }
    unfold TrueBitIterator.TrueBitIterator. rewrite decide_False by (intros ->; cbn in Hn; lia).
    unfold byte_at. rewrite Hk by lia. by apply TrueBitIterator.advance_diverges.
Qed.

Lemma true_bit_iterator_witness :
  TrueBitIterator.true_bits [5; 128] 16 17 3 = Some [0; 2; 15] ∧
  TrueBitIterator.TrueBitIterator (replicate 300 0) 2400 1000 = None.
Proof.
  split.
  - apply (true_bit_iterator [5; 128] 16 17 3); [bytes_done|cbn; lia..].
  - apply (true_bit_iterator (replicate 300 0) 2400 0 1000);
      [apply Forall_replicate; split; done|vm_compute; lia|vm_compute; discriminate|reflexivity].
Defined.
