(* ===== verification/Intent.v ===== *)
(** * Intents

    Models util/enums.h ([EnumBitSet], at the four intent types) in
    [Module IntentTypeSet], common/row_mark.h and row_mark.cc in
    [Module RowMark], util/strongly_typed_uuid.cc in [Module TransactionId] and
    docdb/intent.h, docdb/intent.cc and [ParseIntentKey] of
    docdb/conflict_resolution.cc in [Module Intent].  An intent is the record a
    transaction leaves in the intents database: its key is a document path,
    the set of intent types and the time of the write; its value names the
    transaction, the index of the write and the data to apply on commit. *)

From S2P Require Import Prelude Slice FastVarint HybridTime DocHybridTime ValueType KvUtil.

(** ** Sets of intent types *)

Module IntentTypeSet.
Import IntentType.

(** [std::bitset<4>] as the number of its bits. *)
Definition t := Z.

Definition of_value (value : Z) : t := value mod kIntentTypeSetMapSize.
Definition Set_ (impl_ : t) (value : IntentType.t) : t :=
  Z.lor impl_ (Z.shiftl 1 (IntentType.code value)).
Definition of_list (inp : list IntentType.t) : t := foldl Set_ 0 inp.
Definition Test (impl_ : t) (value : IntentType.t) : bool :=
  Z.testbit impl_ (IntentType.code value).
Definition ToUIntPtr (impl_ : t) : Z := impl_.
Definition None_ (impl_ : t) : bool := impl_ =? 0.
Definition Any (impl_ : t) : bool := negb (impl_ =? 0).
Definition All (impl_ : t) : bool := impl_ =? kIntentTypeSetMapSize - 1.
Definition or_ (lhs rhs : t) : t := Z.lor lhs rhs.
Definition and_ (lhs rhs : t) : t := Z.land lhs rhs.

(** The types of the set in the order of [EnumBitSetIterator]. *)
Definition elements (impl_ : t) : list IntentType.t :=
  filter (λ i, Test impl_ i) kIntentTypeList.

Definition wf (impl_ : t) : Prop := 0 <= impl_ < kIntentTypeSetMapSize.

(** All sixteen sets, to decide statements about sets by evaluation. *)
Definition all : list t := seqZ 0 16.

Lemma elem_of_all s : s ∈ all ↔ wf s.
Proof. unfold all, wf. change kIntentTypeSetMapSize with 16. rewrite elem_of_seqZ. lia. Qed.

End IntentTypeSet.

(** A boolean statement about sets holds if it does for the sixteen of them. *)
Lemma forall_sets (P : Z → bool) :
  forallb P IntentTypeSet.all = true → ∀ s, IntentTypeSet.wf s → P s = true.
Proof.
  rewrite forallb_forall. intros H s Hs. apply H, list_elem_of_In.
  by apply IntentTypeSet.elem_of_all.
Qed.

(** ** Row marks *)

Module RowMark.

Inductive RowMarkType :=
  | ROW_MARK_EXCLUSIVE | ROW_MARK_NOKEYEXCLUSIVE | ROW_MARK_SHARE | ROW_MARK_KEYSHARE
  | ROW_MARK_REFERENCE | ROW_MARK_COPY | ROW_MARK_ABSENT.

#[export] Instance RowMarkType_eq_dec : EqDecision RowMarkType.
Proof. solve_decision. Defined.

Definition value (m : RowMarkType) : Z :=
  match m with
  | ROW_MARK_EXCLUSIVE => 0 | ROW_MARK_NOKEYEXCLUSIVE => 1 | ROW_MARK_SHARE => 2
  | ROW_MARK_KEYSHARE => 3 | ROW_MARK_REFERENCE => 4 | ROW_MARK_COPY => 5
  | ROW_MARK_ABSENT => 15
  end.

Definition AreConflictingRowMarkTypes (a b : RowMarkType) : bool :=
  let kConflictThreshold := 4 in
  if (bool_decide (a = ROW_MARK_NOKEYEXCLUSIVE) && bool_decide (b = ROW_MARK_KEYSHARE)) ||
     (bool_decide (a = ROW_MARK_KEYSHARE) && bool_decide (b = ROW_MARK_NOKEYEXCLUSIVE))
  then true
  else value a + value b <? kConflictThreshold.

(** [std::min] on the enumerators keeps its first argument on a tie. *)
Definition GetStrongestRowMarkType (row_mark_types : list RowMarkType) : RowMarkType :=
  foldl (λ strongest m, if value strongest <? value m then strongest else m)
    ROW_MARK_ABSENT row_mark_types.

Definition IsValidRowMarkType (m : RowMarkType) : bool :=
  match m with
  | ROW_MARK_EXCLUSIVE | ROW_MARK_NOKEYEXCLUSIVE | ROW_MARK_SHARE | ROW_MARK_KEYSHARE => true
  | _ => false
  end.

Definition RowMarkNeedsPessimisticLock (m : RowMarkType) : bool :=
  IsValidRowMarkType m && negb (bool_decide (m = ROW_MARK_KEYSHARE)).

(** The optional field [row_mark_type] of a request. *)
Definition GetRowMarkTypeFromPB (row_mark_type : option RowMarkType) : RowMarkType :=
  match row_mark_type with
  | Some m => if IsValidRowMarkType m then m else ROW_MARK_ABSENT
  | None => ROW_MARK_ABSENT
  end.

End RowMark.

(** ** Transaction ids *)

Module TransactionId.

(** A UUID is the list of its sixteen bytes. *)
Definition t := bytes.
Definition StaticSize : nat := 16.
Definition wf (id : t) : Prop := length id = StaticSize ∧ bytes_ok id.

Definition DoDecodeUuid (slice : bytes) (check_exact_size : bool) : outcome t :=
  if (if check_exact_size then negb (bool_decide (length slice = StaticSize))
      else bool_decide (length slice < StaticSize)%nat)
  then Err Corruption else Ok (take StaticSize slice).

Definition FullyDecodeTransactionId (slice : bytes) : outcome t := DoDecodeUuid slice true.

Definition DecodeTransactionId (slice : bytes) : outcome (t * bytes) :=
  let! id := DoDecodeUuid slice false in
  let! rest := Slice.remove_prefix slice StaticSize in
  Ok (id, rest).

End TransactionId.

(** ** Intent keys and values *)

Module Intent.
Import IntentType RowMark.

Inductive IntentStrength := kWeak | kStrong.
Inductive OperationKind := kRead | kWrite.
Inductive IsolationLevel := NON_TRANSACTIONAL | SNAPSHOT_ISOLATION | SERIALIZABLE_ISOLATION.

#[export] Instance IntentStrength_eq_dec : EqDecision IntentStrength.
Proof. solve_decision. Defined.
#[export] Instance OperationKind_eq_dec : EqDecision OperationKind.
Proof. solve_decision. Defined.
#[export] Instance IsolationLevel_eq_dec : EqDecision IsolationLevel.
Proof. solve_decision. Defined.

Record DecodedIntentKey := {
  intent_prefix : bytes;
  intent_types : IntentTypeSet.t;
  doc_ht : DocHybridTime.t;
}.

Definition AllStrongIntents : IntentTypeSet.t :=
  IntentTypeSet.of_list [kStrongRead; kStrongWrite].

(** [LOG(DFATAL)] falls through in the release build. *)
Definition GetStrongIntentTypeSet
    (level : IsolationLevel) (operation_kind : OperationKind) (row_mark : RowMarkType)
    : IntentTypeSet.t :=
  let by_level :=
    match level with
    | SNAPSHOT_ISOLATION => IntentTypeSet.of_list [kStrongRead; kStrongWrite]
    | SERIALIZABLE_ISOLATION =>
        match operation_kind with
        | kRead => IntentTypeSet.of_list [kStrongRead]
        | kWrite => IntentTypeSet.of_list [kStrongWrite]
        end
    | NON_TRANSACTIONAL => 0
    end in
  if IsValidRowMarkType row_mark then
    match row_mark with
    | ROW_MARK_EXCLUSIVE | ROW_MARK_NOKEYEXCLUSIVE =>
        IntentTypeSet.of_list [kStrongRead; kStrongWrite]
    | ROW_MARK_SHARE | ROW_MARK_KEYSHARE => IntentTypeSet.of_list [kStrongRead]
    | _ => by_level
    end
  else by_level.

Definition HasStrong (inp : IntentTypeSet.t) : bool :=
  IntentTypeSet.Any (IntentTypeSet.and_ inp AllStrongIntents).

Definition StrongToWeak (inp : IntentTypeSet.t) : IntentTypeSet.t :=
  IntentTypeSet.of_value (Z.shiftr (IntentTypeSet.ToUIntPtr inp) kStrongIntentFlag).

Definition WeakToStrong (inp : IntentTypeSet.t) : IntentTypeSet.t :=
  IntentTypeSet.of_value (Z.shiftl (IntentTypeSet.ToUIntPtr inp) kStrongIntentFlag).

Definition ObsoleteIntentTypeToSet (obsolete_intent_type : Z) : IntentTypeSet.t :=
  let kWeakIntentFlag := 0 in
  let kStrongIntentFlag := 1 in
  let kWriteIntentFlag := 2 in
  let kSnapshotIntentFlag := 4 in
  if obsolete_intent_type =?
     Z.lor (Z.lor kStrongIntentFlag kWriteIntentFlag) kSnapshotIntentFlag
  then IntentTypeSet.of_list [kStrongRead; kStrongWrite]
  else if obsolete_intent_type =?
     Z.lor (Z.lor kWeakIntentFlag kWriteIntentFlag) kSnapshotIntentFlag
  then IntentTypeSet.of_list [kWeakRead; kWeakWrite]
  else 0.

(** [static_cast<IntentType>(((idx >> 1) | (idx << 1)) & 3)]. *)
Definition swapped_type (idx : Z) : Z :=
  Z.land (Z.lor (Z.shiftr idx 1) (Z.shiftl idx 1)) 3.

Definition ObsoleteIntentTypeSetToNew (obsolete_intent_type_set : Z) : IntentTypeSet.t :=
  foldl (λ result idx,
    if negb (Z.land obsolete_intent_type_set (Z.shiftl 1 idx) =? 0)
    then Z.lor result (Z.shiftl 1 (swapped_type idx)) else result) 0 [0; 1; 2; 3].

Definition IntentValueType (ch : Z) : bool :=
  (ch =? ValueType.kIntentTypeSet) || (ch =? ValueType.kObsoleteIntentTypeSet) ||
  (ch =? ValueType.kObsoleteIntentType).

(** [prefix_end[i]] is a byte behind the shortened slice, still in the key. *)
Definition DecodeIntentKey (encoded_intent_key : bytes) : outcome DecodedIntentKey :=
  let! doc_ht_size := DocHybridTime.CheckAndGetEncodedSize encoded_intent_key in
  if Z.of_nat (length encoded_intent_key) <? doc_ht_size + 3 then Err Corruption
  else
    let! intent_prefix := Slice.remove_suffix encoded_intent_key (Z.to_nat (doc_ht_size + 3)) in
    let prefix_end := length intent_prefix in
    let! doc_ht := DocHybridTime.FullyDecodeFrom
      (take (Z.to_nat doc_ht_size) (drop (prefix_end + 3) encoded_intent_key)) in
    let! b2 := byte_at encoded_intent_key (prefix_end + 2) in
    if negb (b2 =? ValueType.kHybridTime) then Err Corruption
    else
      let! b0 := byte_at encoded_intent_key prefix_end in
      let! b1 := byte_at encoded_intent_key (prefix_end + 1) in
      if negb (b0 =? ValueType.kIntentTypeSet) then
        if b0 =? ValueType.kObsoleteIntentType then
          Ok (Build_DecodedIntentKey intent_prefix (ObsoleteIntentTypeToSet b1) doc_ht)
        else if b0 =? ValueType.kObsoleteIntentTypeSet then
          Ok (Build_DecodedIntentKey intent_prefix (ObsoleteIntentTypeSetToNew b1) doc_ht)
        else Err Corruption
      else Ok (Build_DecodedIntentKey intent_prefix (IntentTypeSet.of_value b1) doc_ht).

(** [ParsedIntent] keeps the encoded time with its tag instead of decoding it. *)
Record ParsedIntent := {
  doc_path : bytes;
  types : IntentTypeSet.t;
  parsed_doc_ht : bytes;
}.

Definition ParseIntentKey (intent_key : bytes) : outcome ParsedIntent :=
  let! doc_ht_size := DocHybridTime.CheckAndGetEncodedSize intent_key in
  if negb (doc_ht_size + 3 <=? Z.of_nat (length intent_key)) then Err Corruption
  else
    let! doc_path := Slice.remove_suffix intent_key (Z.to_nat (doc_ht_size + 3)) in
    let e := length doc_path in
    let! b0 := byte_at intent_key e in
    let! b1 := byte_at intent_key (e + 1) in
    let! types :=
      if b0 =? ValueType.kObsoleteIntentType then Ok (ObsoleteIntentTypeToSet b1)
      else if b0 =? ValueType.kObsoleteIntentTypeSet then Ok (ObsoleteIntentTypeSetToNew b1)
      else if negb (b0 =? ValueType.kIntentTypeSet) then Err Corruption
      else Ok (IntentTypeSet.of_value b1) in
    let! b2 := byte_at intent_key (e + 2) in
    if negb (b2 =? ValueType.kHybridTime) then Err Corruption
    else Ok (Build_ParsedIntent doc_path types
               (take (Z.to_nat (doc_ht_size + 1)) (drop (e + 2) intent_key))).

Definition DecodeTransactionIdFromIntentValue (intent_value : bytes)
    : outcome (TransactionId.t * bytes) :=
  match intent_value with
  | [] => Err Corruption
  | b :: rest =>
      if negb (b =? ValueType.kTransactionId) then Err Corruption
      else TransactionId.DecodeTransactionId rest
  end.

(** The write id and the body, both of which every caller may decline. *)
Definition DecodeIntentValue (encoded_intent_value transaction_id_slice : bytes)
    : outcome (Z * bytes) :=
  let! intent_value := Slice.consume_byte_eq encoded_intent_value ValueType.kTransactionId in
  let! same := Slice.starts_with intent_value transaction_id_slice in
  if negb same then Err Corruption
  else
    let! intent_value := Slice.remove_prefix intent_value TransactionId.StaticSize in
    let! intent_value := Slice.consume_byte_eq intent_value ValueType.kWriteId in
    if (length intent_value <? 4)%nat then Err Corruption
    else
      let! write_id := KvUtil.Load 4 intent_value in
      let! body := Slice.remove_prefix intent_value 4 in
      Ok (write_id, body).

End Intent.

(** ** Decoding what the intent writer stores *)

Module IntentRecords.
Import Intent.

(** A key of the main intent record. *)
Definition intent_key (path : bytes) (tag b : Z) (enc : bytes) : bytes :=
  path ++ [tag; b; ValueType.code ValueType.kHybridTime] ++ enc.

(** What the decoders do with the byte behind each of the three tags. *)
Definition types_of_byte (tag b : Z) : outcome IntentTypeSet.t :=
  if tag =? ValueType.kObsoleteIntentType then Ok (ObsoleteIntentTypeToSet b)
  else if tag =? ValueType.kObsoleteIntentTypeSet then Ok (ObsoleteIntentTypeSetToNew b)
  else if tag =? ValueType.kIntentTypeSet then Ok (IntentTypeSet.of_value b)
  else Err Corruption.

Section Keys.
Context (d : DocHybridTime.t) (enc path : bytes) (tag b : Z).
Context (Hd : DocHybridTime.wf d) (Henc : DocHybridTime.EncodedInDocDbFormat d = Ok enc).

Lemma intent_key_size :
  DocHybridTime.CheckAndGetEncodedSize (intent_key path tag b enc) = Ok (Z.of_nat (length enc)).
Proof.
  unfold intent_key. rewrite app_assoc. apply (DocHybridTime.encoded_size_at_end d); [done..|].
  by destruct path.
Qed.

Lemma intent_key_length :
  length (intent_key path tag b enc) = (length path + (3 + length enc))%nat.
Proof. unfold intent_key. by rewrite !length_app. Qed.

Lemma intent_key_prefix :
  Slice.remove_suffix (intent_key path tag b enc) (Z.to_nat (Z.of_nat (length enc) + 3)) = Ok path.
Proof.
  unfold Slice.remove_suffix. rewrite intent_key_length, decide_True by lia.
  f_equal. unfold intent_key. apply take_app_length'. lia.
Qed.

Lemma intent_key_bytes i :
  byte_at (intent_key path tag b enc) (length path + i) =
  byte_at ([tag; b; ValueType.code ValueType.kHybridTime] ++ enc) i.
Proof. unfold byte_at, intent_key. by rewrite lookup_app_r, Nat.add_comm, Nat.add_sub by lia. Qed.

Lemma intent_key_suffix n :
  (n ≤ 3)%nat →
  take (length enc + (3 - n)) (drop (length path + n) (intent_key path tag b enc)) =
  drop n [tag; b; ValueType.code ValueType.kHybridTime] ++ enc.
Proof.
  intros Hn. unfold intent_key. rewrite Nat.add_comm, <- drop_drop, drop_app_length.
  rewrite drop_app_le by (cbn [length]; lia).
  apply take_ge. rewrite length_app, length_drop. cbn [length]. lia.
Qed.

Lemma DecodeIntentKey_key :
  DecodeIntentKey (intent_key path tag b enc) =
  (let! types := types_of_byte tag b in Ok (Build_DecodedIntentKey path types d)).
Proof.
  unfold DecodeIntentKey. rewrite intent_key_size. cbn [obind].
  rewrite (proj2 (Z.ltb_ge _ _)) by (rewrite intent_key_length; lia).
  rewrite intent_key_prefix. cbn [obind]. rewrite Nat2Z.id.
  pose proof (intent_key_suffix 3 ltac:(lia)) as Hs. rewrite Nat.add_0_r in Hs. rewrite Hs.
  change (drop 3 [_; _; _] ++ enc) with enc.
  rewrite (DocHybridTime.fully_decode_encoded d) by done. cbn [obind].
  pose proof (intent_key_bytes 0) as H0. rewrite Nat.add_0_r in H0.
  rewrite (intent_key_bytes 2), (intent_key_bytes 1), H0. cbn [byte_at lookup list_lookup app obind].
  rewrite Z.eqb_refl. cbn [negb]. unfold types_of_byte.
  destruct (Z.eqb_spec tag ValueType.kIntentTypeSet) as [->|]; cbn [negb]; [done|].
  by repeat case_match.
Qed.

Lemma ParseIntentKey_key :
  ParseIntentKey (intent_key path tag b enc) =
  (let! types := types_of_byte tag b in
   Ok (Build_ParsedIntent path types (ValueType.code ValueType.kHybridTime :: enc))).
Proof.
  unfold ParseIntentKey. rewrite intent_key_size. cbn [obind].
  rewrite (proj2 (Z.leb_le _ _)) by (rewrite intent_key_length; lia). cbn [negb].
  rewrite intent_key_prefix. cbn [obind].
  pose proof (intent_key_bytes 0) as H0. rewrite Nat.add_0_r in H0.
  rewrite (intent_key_bytes 2), (intent_key_bytes 1), H0. cbn [byte_at lookup list_lookup app obind].
  rewrite Z.eqb_refl. cbn [negb].
  replace (Z.to_nat (Z.of_nat (length enc) + 1)) with (length enc + (3 - 2))%nat by lia.
  rewrite intent_key_suffix by lia. unfold types_of_byte.
  destruct (tag =? ValueType.kObsoleteIntentType); [done|].
  destruct (tag =? ValueType.kObsoleteIntentTypeSet); [done|].
  by destruct (tag =? ValueType.kIntentTypeSet).
Qed.

End Keys.

(** A value as the writer stores it for a strong intent. *)
Definition intent_value (id : TransactionId.t) (write_id : Z) (body : bytes) : bytes :=
  [ValueType.code ValueType.kTransactionId] ++ id ++
  [ValueType.code ValueType.kWriteId] ++ be_bytes 4 write_id ++ body.

Lemma DecodeIntentValue_value id write_id body :
  TransactionId.wf id → is_u32 write_id → bytes_ok body →
  DecodeIntentValue (intent_value id write_id body) id = Ok (write_id, body).
Proof.
  intros [Hl Hid] Hw Hb. unfold DecodeIntentValue, intent_value, Slice.consume_byte_eq.
  cbn [app Slice.consume_byte obind]. rewrite Z.eqb_refl. cbn [negb obind].
  rewrite Slice.starts_with_eq; [| |done].
  2:{ apply Forall_app_2; [done|]. constructor; [vm_compute; done|].
      apply Forall_app_2; [apply be_bytes_ok|done]. }
  rewrite bool_decide_true by apply prefix_app_r, reflexivity. cbn [obind negb].
  unfold Slice.remove_prefix at 1. rewrite decide_True by (rewrite length_app; lia).
  rewrite drop_app_length' by done. cbn [obind Slice.consume_byte]. rewrite Z.eqb_refl.
  cbn [negb obind].
  rewrite length_app, length_be_bytes. cbn [Nat.add Nat.ltb Nat.leb].
  rewrite NumberKeys.load_be_bytes by done. cbn [obind].
  unfold Slice.remove_prefix. rewrite decide_True by (rewrite length_app, length_be_bytes; lia).
  cbn [obind]. by rewrite drop_app_length' by (by rewrite length_be_bytes).
Qed.

Lemma DecodeTransactionId_value id rest :
  TransactionId.wf id →
  DecodeTransactionIdFromIntentValue (ValueType.code ValueType.kTransactionId :: id ++ rest) =
  Ok (id, rest).
Proof.
  intros [Hl _]. unfold DecodeTransactionIdFromIntentValue. rewrite Z.eqb_refl. cbn [negb].
  unfold TransactionId.DecodeTransactionId, TransactionId.DoDecodeUuid, Slice.remove_prefix.
  rewrite bool_decide_false by (rewrite length_app; lia). cbn [obind].
  rewrite decide_True by (rewrite length_app; lia). cbn [obind].
  by rewrite take_app_length', drop_app_length' by done.
Qed.

End IntentRecords.
