(* ===== verification/InetAddress.v ===== *)
(** * Internet addresses

    Models util/net/inetaddress.h and util/net/inetaddress.cc: [InetAddress] wraps
    an address of Boost.Asio and turns it into the bytes kept in keys and values.
    Boost is not part of the source: what is called of it is the class
    [IpAddress], its documentation is [IpAddressSpec], and [BytesAddress] is one
    implementation. *)

From S2P Require Import Prelude.

Class IpAddress := {
  address : Type;
  is_v4 : address → bool;
  is_v6 : address → bool;
  v4_bytes : address → bytes;
  v6_bytes : address → bytes;
  address_v4 : bytes → address;
  address_v6 : bytes → address;
  address_eqb : address → address → bool;
}.

(** An address is of version 4 or 6, and made from and turned into its bytes. *)
Class IpAddressSpec (A : IpAddress) := {
  is_v6_spec a : is_v6 a = negb (is_v4 a);
  v4_of_bytes l : length l = 4%nat → is_v4 (address_v4 l) = true ∧ v4_bytes (address_v4 l) = l;
  v6_of_bytes l : length l = 16%nat → is_v4 (address_v6 l) = false ∧ v6_bytes (address_v6 l) = l;
  address_eqb_spec a b : address_eqb a b = true ↔ a = b;
}.

#[export] Instance BytesAddress : IpAddress := {|
  address := bytes;
  is_v4 l := (length l =? 4)%nat;
  is_v6 l := negb (length l =? 4)%nat;
  v4_bytes l := l;
  v6_bytes l := l;
  address_v4 l := l;
  address_v6 l := l;
  address_eqb a b := bool_decide (a = b);
|}.

#[export] Instance BytesAddress_spec : IpAddressSpec BytesAddress.
Proof.
  constructor; cbn; [done|by intros l ->|by intros l ->|].
  intros. apply bool_decide_eq_true.
Defined.

Module InetAddress.
Section Operations.
Context {A : IpAddress}.

Definition kInetAddressV4Size : nat := 4.
Definition kInetAddressV6Size : nat := 16.

(** The conversions of an address of the right version do not throw. *)
Definition ToBytes (boost_addr_ : address) : outcome bytes :=
  if is_v4 boost_addr_ then Ok (v4_bytes boost_addr_)
  else if is_v6 boost_addr_ then Ok (v6_bytes boost_addr_)
  else Err Uninitialized.

Definition FromSlice (slice : bytes) (size_hint : nat) : outcome address :=
  let expected_size := if (size_hint =? 0)%nat then length slice else size_hint in
  if (length slice <? expected_size)%nat then Err InvalidArgument
  else if (expected_size =? kInetAddressV4Size)%nat then Ok (address_v4 (take 4 slice))
  else if (expected_size =? kInetAddressV6Size)%nat then Ok (address_v6 (take 16 slice))
  else Err InvalidArgument.

Definition FromBytes (l : bytes) : outcome address := FromSlice l 0.

Definition eq (a other : address) : bool := address_eqb a other.

(** [operator<]; a failed conversion leaves the bytes empty. *)
Definition lt (a other : address) : bool :=
  let get a := match ToBytes a with Ok l => l | _ => [] end in
  bool_decide (bytes_compare (get a) (get other) = Lt).

End Operations.

Section Facts.
Context {A : IpAddress} {HA : IpAddressSpec A}.

Lemma FromBytes_ToBytes l a : FromBytes l = Ok a → ToBytes a = Ok l.
Proof.
  unfold FromBytes, FromSlice, ToBytes, kInetAddressV4Size, kInetAddressV6Size. cbn [Nat.eqb].
  rewrite Nat.ltb_irrefl. destruct (Nat.eqb_spec (length l) 4) as [H4|]; [|destruct (Nat.eqb_spec (length l) 16) as [H6|]; [|done]].
  - intros [= <-]. rewrite take_ge by lia. by destruct (v4_of_bytes l H4) as [-> ->].
  - intros [= <-]. rewrite take_ge by lia. rewrite is_v6_spec. by destruct (v6_of_bytes l H6) as [-> ->].
Qed.

Lemma FromBytes_ok l : length l = 4%nat ∨ length l = 16%nat → ∃ a, FromBytes l = Ok a.
Proof.
  unfold FromBytes, FromSlice, kInetAddressV4Size, kInetAddressV6Size. cbn [Nat.eqb]. rewrite Nat.ltb_irrefl.
  intros [->| ->]; by eexists.
Qed.

Lemma lt_bytes_of a b la lb :
  FromBytes la = Ok a → FromBytes lb = Ok b → lt a b = bool_decide (bytes_compare la lb = Lt).
Proof. intros Ha%FromBytes_ToBytes Hb%FromBytes_ToBytes. unfold lt. by rewrite Ha, Hb. Qed.

End Facts.
End InetAddress.
