(* ===== verification/PrimitiveValue.v ===== *)
(** * Primitive values

    Models docdb/primitive_value.h and docdb/primitive_value.cc, the tests on
    floating-point numbers of util/decimal.h, [CompareUsingLessThan] of
    util/compare_util.h and the range check of [ColumnId] in common/schema.h.  A
    [PrimitiveValue] is one component of a document key, or the value at the end
    of a path: a type tag and a union.  It is written into keys
    ([AppendToKey], [DecodeKey]) so that byte order is [CompareTo], and into
    values ([ToValue], [DecodeFromValue]).  Conversion from and to query-layer
    values and text is not modelled, nor are the attributes that are not stored
    (time to live, write time, order of extension). *)

From S2P Require Import Prelude Slice FastVarint HybridTime DocHybridTime ValueType KvUtil VarInt Decimal Uuid InetAddress Intent.

(** ** Floating-point numbers by their bits *)

Module FloatBits.

(** [BitMask(a, b)] and the fields of a number. *)
Definition BitMask (a b : Z) : Z := foldl (λ r i, Z.lor r (Z.shiftl 1 i)) 0 (seqZ a (b - a)).
Definition GetFloatFraction (f : Z) : Z := Z.land (BitMask 0 23) f.
Definition GetFloatExp (f : Z) : Z := Z.shiftr (Z.land (BitMask 23 31) f) 23.
Definition GetDoubleFraction (d : Z) : Z := Z.land (BitMask 0 52) d.
Definition GetDoubleExp (d : Z) : Z := Z.shiftr (Z.land (BitMask 52 63) d) 52.
Definition IsNanFloat (f : Z) : bool := (GetFloatExp f =? 255) && negb (GetFloatFraction f =? 0).
Definition IsNanDouble (d : Z) : bool := (GetDoubleExp d =? 2047) && negb (GetDoubleFraction d =? 0).
Definition CreateFloat (sign exponent fraction : Z) : Z :=
  u32 (Z.lor (Z.lor (Z.shiftl sign 31) (Z.shiftl exponent 23)) fraction).
Definition CreateDouble (sign exp fraction : Z) : Z :=
  u64 (Z.lor (Z.lor (Z.shiftl sign 63) (Z.shiftl exp 52)) fraction).
Definition CanonicalizeFloat (f : Z) : Z := if IsNanFloat f then CreateFloat 0 255 (Z.shiftl 1 22) else f.
Definition CanonicalizeDouble (d : Z) : Z := if IsNanDouble d then CreateDouble 0 2047 (Z.shiftl 1 51) else d.

(** The comparison operators of C++ on numbers of [w] bits given by their bits:
    sign and magnitude are ordered as the values are, the zeros are equal and a
    NaN is neither less than nor equal to anything. *)
Definition magnitude (w v : Z) : Z := if v <? 2 ^ (w - 1) then v else - (v - 2 ^ (w - 1)).
Definition float_lt (a b : Z) : bool :=
  negb (IsNanFloat a) && negb (IsNanFloat b) && (magnitude 32 a <? magnitude 32 b).
Definition float_eq (a b : Z) : bool :=
  negb (IsNanFloat a) && negb (IsNanFloat b) && (magnitude 32 a =? magnitude 32 b).
Definition double_lt (a b : Z) : bool :=
  negb (IsNanDouble a) && negb (IsNanDouble b) && (magnitude 64 a <? magnitude 64 b).
Definition double_eq (a b : Z) : bool :=
  negb (IsNanDouble a) && negb (IsNanDouble b) && (magnitude 64 a =? magnitude 64 b).

End FloatBits.

(** ** Column identifiers *)

Module ColumnId.

Definition FromInt64 (value : Z) : outcome Z :=
  if (2 ^ 31 - 1 <? value) || (value <? 0) then Err Corruption else Ok value.

End ColumnId.

(** [CompareUsingLessThan(a, b)], from the results of [a < b] and [b < a]. *)
Definition compare_using (lt gt : bool) : comparison := if lt then Lt else if gt then Gt else Eq.
Definition CompareUsingLessThan {T} (lt : T → T → bool) (a b : T) : comparison := compare_using (lt a b) (lt b a).

(** ** Values *)

Module PrimitiveValue.
Import ValueType FloatBits.

Section Operations.
Context {B : BigNum} {V : UuidVersion} {A : IpAddress}.

(** A type and the active member of the union; a [float] or [double] is its bit pattern. *)
#[local] Unset Elimination Schemes.
Inductive t :=
  | complex_data_structure_ (type_ : ValueType.t)
  | int32_val_ (type_ : ValueType.t) (v : Z)
  | uint32_val_ (type_ : ValueType.t) (v : Z)
  | int64_val_ (type_ : ValueType.t) (v : Z)
  | uint64_val_ (type_ : ValueType.t) (v : Z)
  | uint16_val_ (type_ : ValueType.t) (v : Z)
  | hybrid_time_val_ (type_ : ValueType.t) (v : DocHybridTime.t)
  | str_val_ (type_ : ValueType.t) (s : bytes)
  | float_val_ (type_ : ValueType.t) (v : Z)
  | double_val_ (type_ : ValueType.t) (v : Z)
  | timestamp_val_ (type_ : ValueType.t) (v : Z)
  | inetaddress_val_ (type_ : ValueType.t) (a : address)
  | uuid_val_ (type_ : ValueType.t) (u : bytes)
  | frozen_val_ (type_ : ValueType.t) (l : list t)
  | column_id_val_ (type_ : ValueType.t) (v : Z)
  | decimal_val_ (type_ : ValueType.t) (s : bytes)
  | varint_val_ (type_ : ValueType.t) (s : bytes)
  | json_val_ (type_ : ValueType.t) (s : bytes).
#[local] Set Elimination Schemes.

Definition value_type (v : t) : ValueType.t :=
  match v with
  | complex_data_structure_ ty | int32_val_ ty _ | uint32_val_ ty _ | int64_val_ ty _ | uint64_val_ ty _
  | uint16_val_ ty _ | hybrid_time_val_ ty _ | str_val_ ty _ | float_val_ ty _ | double_val_ ty _
  | timestamp_val_ ty _ | inetaddress_val_ ty _ | uuid_val_ ty _ | frozen_val_ ty _ | column_id_val_ ty _
  | decimal_val_ ty _ | varint_val_ ty _ | json_val_ ty _ => ty
  end.

(** [IGNORE_NON_PRIMITIVE_VALUE_TYPES_IN_SWITCH]: these end in a fatal error;
    reading a member of the union that is not the active one is undefined. *)
Definition ignored (ty : ValueType.t) : bool :=
  match ty with
  | kArray | kBitSet | kExternalIntents | kGreaterThanIntentType | kGroupEnd | kGroupEndDescending | kInvalid
  | kJsonb | kMergeFlags | kObject | kObsoleteIntentPrefix | kRedisList | kRedisSet | kRedisSortedSet | kRedisTS
  | kRowLock | kTombstone | kTtl | kUserTimestamp => true
  | _ => false
  end.
Definition invalid {T} (ty : ValueType.t) : outcome T := if ignored ty then Fatal else UB.

(** [CHECK_OK] of the conversion of an address. *)
Definition address_bytes (a : address) : outcome bytes :=
  match InetAddress.ToBytes a with Ok l => Ok l | Err _ => Fatal | Fatal => Fatal | UB => UB end.

(** The types without data in a key. *)
Definition bare (ty : ValueType.t) : bool :=
  match ty with
  | kLowest | kHighest | kMaxByte | kNullHigh | kNullLow | kCounter | kSSForward | kSSReverse | kFalse | kTrue
  | kFalseDescending | kTrueDescending => true
  | _ => false
  end.

Definition group_end (ty : ValueType.t) : ValueType.t :=
  match ty with kFrozenDescending => kGroupEndDescending | _ => kGroupEnd end.

Fixpoint AppendToKey (self : t) (key_bytes : bytes) : outcome bytes :=
  let key_bytes := KeyBytes.AppendValueType (value_type self) key_bytes in
  match self with
  | complex_data_structure_ ty => if bare ty then Ok key_bytes else invalid ty
  | str_val_ kString s => Ok (KeyBytes.AppendString s key_bytes)
  | str_val_ kStringDescending s => Ok (KeyBytes.AppendDescendingString s key_bytes)
  | int64_val_ (kInt64 | kArrayIndex) v => Ok (KeyBytes.AppendInt64 v key_bytes)
  | int32_val_ (kInt32 | kWriteId) v => Ok (KeyBytes.AppendInt32 v key_bytes)
  | uint32_val_ (kPgTableOid | kUInt32) v => Ok (KeyBytes.AppendUInt32 v key_bytes)
  | uint32_val_ kUInt32Descending v => Ok (KeyBytes.AppendDescendingUInt32 v key_bytes)
  | int32_val_ kInt32Descending v => Ok (KeyBytes.AppendDescendingInt32 v key_bytes)
  | int64_val_ kInt64Descending v => Ok (KeyBytes.AppendDescendingInt64 v key_bytes)
  | uint64_val_ kUInt64 v => Ok (KeyBytes.AppendUInt64 v key_bytes)
  | uint64_val_ kUInt64Descending v => Ok (KeyBytes.AppendDescendingUInt64 v key_bytes)
  | double_val_ kDouble v => Ok (KeyBytes.AppendDouble v key_bytes)
  | double_val_ kDoubleDescending v => Ok (KeyBytes.AppendDescendingDouble v key_bytes)
  | float_val_ kFloat v => Ok (KeyBytes.AppendFloat v key_bytes)
  | float_val_ kFloatDescending v => Ok (KeyBytes.AppendDescendingFloat v key_bytes)
  | frozen_val_ ((kFrozenDescending | kFrozen) as ty) l =>
      let! key_bytes := (fix go l key_bytes :=
        match l with [] => Ok key_bytes | pv :: l => let! key_bytes := AppendToKey pv key_bytes in go l key_bytes end)
        l key_bytes in
      Ok (KeyBytes.AppendValueType (group_end ty) key_bytes)
  | decimal_val_ kDecimal s => Ok (KeyBytes.AppendDecimal s key_bytes)
  | decimal_val_ kDecimalDescending s => Ok (KeyBytes.AppendDecimalDescending s key_bytes)
  | varint_val_ kVarInt s => Ok (KeyBytes.AppendVarInt s key_bytes)
  | varint_val_ kVarIntDescending s => Ok (KeyBytes.AppendVarIntDescending s key_bytes)
  | timestamp_val_ kTimestamp v => Ok (KeyBytes.AppendInt64 v key_bytes)
  | timestamp_val_ kTimestampDescending v => Ok (KeyBytes.AppendDescendingInt64 v key_bytes)
  | inetaddress_val_ kInetaddress a =>
      let! l := address_bytes a in Ok (KeyBytes.AppendString l key_bytes)
  | inetaddress_val_ kInetaddressDescending a =>
      let! l := address_bytes a in Ok (KeyBytes.AppendDescendingString l key_bytes)
  | uuid_val_ (kTransactionApplyState | kExternalTransactionId | kTransactionId | kTableId | kUuid) u =>
      Ok (KeyBytes.AppendString (Uuid.EncodeToComparable u) key_bytes)
  | uuid_val_ kUuidDescending u => Ok (KeyBytes.AppendDescendingString (Uuid.EncodeToComparable u) key_bytes)
  | hybrid_time_val_ kHybridTime v => DocHybridTime.AppendEncodedInDocDbFormat v key_bytes
  | uint16_val_ kUInt16Hash v => Ok (KeyBytes.AppendUInt16 v key_bytes)
  | column_id_val_ (kColumnId | kSystemColumnId) v => Ok (KeyBytes.AppendColumnId v key_bytes)
  | uint16_val_ kObsoleteIntentType v => Ok (key_bytes ++ [u8 (Intent.ObsoleteIntentTypeToSet v)])
  | uint16_val_ kObsoleteIntentTypeSet v => Ok (key_bytes ++ [u8 (Intent.ObsoleteIntentTypeSetToNew v)])
  | uint16_val_ kIntentTypeSet v => Ok (key_bytes ++ [u8 (IntentTypeSet.of_value v)])
  | _ => invalid (value_type self)
  end.

(** The loop over the elements of a frozen value. *)
Fixpoint AppendAllToKey (l : list t) (key_bytes : bytes) : outcome bytes :=
  match l with
  | [] => Ok key_bytes
  | pv :: l => let! key_bytes := AppendToKey pv key_bytes in AppendAllToKey l key_bytes
  end.

Definition ToKeyBytes (self : t) : outcome bytes := AppendToKey self [].

(** ** Values *)

(** The types without data in a value. *)
Definition bare_value (ty : ValueType.t) : bool :=
  match ty with
  | kNullHigh | kNullLow | kCounter | kSSForward | kSSReverse | kFalse | kTrue | kFalseDescending | kTrueDescending
  | kTombstone | kObject | kArray | kRedisTS | kRedisList | kRedisSortedSet | kRedisSet => true
  | _ => false
  end.

Definition kCompleteJsonb : Z := 1.

(** The types that have no encoding in a value: the function ends in a fatal error. *)
Definition not_in_value (ty : ValueType.t) : bool :=
  match ty with
  | kArrayIndex | kUInt16Hash | kIntentTypeSet | kObsoleteIntentTypeSet | kObsoleteIntentType | kMergeFlags | kRowLock
  | kBitSet | kGroupEnd | kGroupEndDescending | kObsoleteIntentPrefix | kGreaterThanIntentType | kTtl | kUserTimestamp
  | kColumnId | kSystemColumnId | kHybridTime | kExternalIntents | kInvalid | kLowest | kHighest | kMaxByte => true
  | _ => false
  end.

(** A [double] or [float] is written through [int64_val_] or [int32_val_], which have the same bits. *)
Definition ToValue (self : t) : outcome bytes :=
  let result := [as_char (value_type self)] in
  match self with
  | complex_data_structure_ ty => if bare_value ty then Ok result else if not_in_value ty then Fatal else UB
  | str_val_ (kStringDescending | kString) s => Ok (result ++ s)
  | int32_val_ (kInt32Descending | kInt32 | kWriteId) v => Ok (KvUtil.AppendBigEndianUInt32 (u32 v) result)
  | uint32_val_ (kPgTableOid | kUInt32Descending | kUInt32) v => Ok (KvUtil.AppendBigEndianUInt32 v result)
  | uint64_val_ (kUInt64Descending | kUInt64) v => Ok (KvUtil.AppendBigEndianUInt64 v result)
  | int64_val_ (kInt64Descending | kInt64) v => Ok (KvUtil.AppendBigEndianUInt64 (u64 v) result)
  | double_val_ (kDoubleDescending | kDouble) v => Ok (KvUtil.AppendBigEndianUInt64 v result)
  | float_val_ (kFloatDescending | kFloat) v => Ok (KvUtil.AppendBigEndianUInt32 v result)
  | frozen_val_ ((kFrozenDescending | kFrozen) as ty) l =>
      let! key := AppendAllToKey l result in Ok (KeyBytes.AppendValueType (group_end ty) key)
  | decimal_val_ (kDecimalDescending | kDecimal) s => Ok (result ++ s)
  | varint_val_ (kVarIntDescending | kVarInt) s => Ok (result ++ s)
  | timestamp_val_ (kTimestampDescending | kTimestamp) v => Ok (KvUtil.AppendBigEndianUInt64 (u64 v) result)
  | inetaddress_val_ (kInetaddressDescending | kInetaddress) a => let! l := address_bytes a in Ok (result ++ l)
  | json_val_ kJsonb s => Ok (KvUtil.AppendBigEndianUInt64 (u64 kCompleteJsonb) result ++ s)
  | uuid_val_ (kUuidDescending | kTransactionApplyState | kExternalTransactionId | kTransactionId | kTableId | kUuid) u =>
      Ok (result ++ Uuid.EncodeToComparable u)
  | _ => if not_in_value (value_type self) then Fatal else UB
  end.

(** ** Comparison *)

(** The result is the sign of the [int] returned. *)
Fixpoint CompareTo (self other : t) : outcome comparison :=
  let result := CompareUsingLessThan Z.ltb (value_type self) (value_type other) in
  if negb (bool_decide (result = Eq)) then Ok result
  else
    match self, other with
    | complex_data_structure_ ty, complex_data_structure_ _ => if bare ty then Ok Eq else invalid ty
    | str_val_ kStringDescending s, str_val_ _ s' => Ok (bytes_compare s' s)
    | str_val_ kString s, str_val_ _ s' => Ok (bytes_compare s s')
    | int64_val_ kInt64Descending v, int64_val_ _ v' => Ok (CompareUsingLessThan Z.ltb v' v)
    | int32_val_ kInt32Descending v, int32_val_ _ v' => Ok (CompareUsingLessThan Z.ltb v' v)
    | int32_val_ (kInt32 | kWriteId) v, int32_val_ _ v' => Ok (CompareUsingLessThan Z.ltb v v')
    | uint32_val_ kUInt32Descending v, uint32_val_ _ v' => Ok (CompareUsingLessThan Z.ltb v' v)
    | uint32_val_ (kPgTableOid | kUInt32) v, uint32_val_ _ v' => Ok (CompareUsingLessThan Z.ltb v v')
    | uint64_val_ kUInt64Descending v, uint64_val_ _ v' => Ok (CompareUsingLessThan Z.ltb v' v)
    | uint64_val_ kUInt64 v, uint64_val_ _ v' => Ok (CompareUsingLessThan Z.ltb v v')
    | int64_val_ (kInt64 | kArrayIndex) v, int64_val_ _ v' => Ok (CompareUsingLessThan Z.ltb v v')
    | double_val_ kDoubleDescending v, double_val_ _ v' => Ok (CompareUsingLessThan double_lt v' v)
    | double_val_ kDouble v, double_val_ _ v' => Ok (CompareUsingLessThan double_lt v v')
    | float_val_ kFloatDescending v, float_val_ _ v' => Ok (CompareUsingLessThan float_lt v' v)
    | float_val_ kFloat v, float_val_ _ v' => Ok (CompareUsingLessThan float_lt v v')
    | decimal_val_ kDecimalDescending s, decimal_val_ _ s' => Ok (bytes_compare s' s)
    | decimal_val_ kDecimal s, decimal_val_ _ s' => Ok (bytes_compare s s')
    | varint_val_ kVarIntDescending s, varint_val_ _ s' => Ok (bytes_compare s' s)
    | varint_val_ kVarInt s, varint_val_ _ s' => Ok (bytes_compare s s')
    | uint16_val_ (kIntentTypeSet | kObsoleteIntentTypeSet | kObsoleteIntentType | kUInt16Hash) v, uint16_val_ _ v' =>
        Ok (CompareUsingLessThan Z.ltb v v')
    | timestamp_val_ kTimestampDescending v, timestamp_val_ _ v' => Ok (CompareUsingLessThan Z.ltb v' v)
    | timestamp_val_ kTimestamp v, timestamp_val_ _ v' => Ok (CompareUsingLessThan Z.ltb v v')
    | inetaddress_val_ kInetaddress a, inetaddress_val_ _ a' => Ok (CompareUsingLessThan InetAddress.lt a a')
    | inetaddress_val_ kInetaddressDescending a, inetaddress_val_ _ a' => Ok (CompareUsingLessThan InetAddress.lt a' a)
    | frozen_val_ ((kFrozenDescending | kFrozen) as ty) l, frozen_val_ _ l' =>
        (fix go k k' :=
           match k, k' with
           | pv :: k, pv' :: k' =>
               let! result := CompareTo pv pv' in
               match result with Eq => go k k' | _ => Ok result end
           | _, _ =>
               Ok (if bool_decide (ty = kFrozenDescending)
                   then CompareUsingLessThan Nat.ltb (length l') (length l)
                   else CompareUsingLessThan Nat.ltb (length l) (length l'))
           end) l l'
    | uuid_val_ (kTransactionApplyState | kExternalTransactionId | kTransactionId | kTableId | kUuidDescending) u,
      uuid_val_ _ u' => Ok (CompareUsingLessThan Uuid.lt u' u)
    | uuid_val_ kUuid u, uuid_val_ _ u' => Ok (CompareUsingLessThan Uuid.lt u u')
    | column_id_val_ (kColumnId | kSystemColumnId) v, column_id_val_ _ v' => Ok (CompareUsingLessThan Z.ltb v v')
    | hybrid_time_val_ kHybridTime v, hybrid_time_val_ _ v' => Ok (CompOpp (DocHybridTime.CompareTo v v'))
    | _, _ => invalid (value_type self)
    end.

(** [operator==]. *)
Fixpoint eq (self other : t) : outcome bool :=
  if negb (bool_decide (value_type self = value_type other)) then Ok false
  else
    match self, other with
    | complex_data_structure_ ty, complex_data_structure_ _ => if bare ty then Ok true else invalid ty
    | str_val_ (kStringDescending | kString) s, str_val_ _ s' => Ok (bool_decide (s = s'))
    | frozen_val_ (kFrozenDescending | kFrozen) l, frozen_val_ _ l' =>
        if negb (length l =? length l')%nat then Ok false
        else (fix go k k' :=
                match k, k' with
                | pv :: k, pv' :: k' => let! b := eq pv pv' in if b then go k k' else Ok false
                | _, _ => Ok true
                end) l l'
    | int32_val_ (kInt32Descending | kWriteId | kInt32) v, int32_val_ _ v' => Ok (v =? v')
    | uint32_val_ (kPgTableOid | kUInt32Descending | kUInt32) v, uint32_val_ _ v' => Ok (v =? v')
    | uint64_val_ (kUInt64Descending | kUInt64) v, uint64_val_ _ v' => Ok (v =? v')
    | int64_val_ (kInt64Descending | kInt64 | kArrayIndex) v, int64_val_ _ v' => Ok (v =? v')
    | float_val_ (kFloatDescending | kFloat) v, float_val_ _ v' => Ok (IsNanFloat v && IsNanFloat v' || float_eq v v')
    | double_val_ (kDoubleDescending | kDouble) v, double_val_ _ v' => Ok (IsNanDouble v && IsNanDouble v' || double_eq v v')
    | decimal_val_ (kDecimalDescending | kDecimal) s, decimal_val_ _ s' => Ok (bool_decide (s = s'))
    | varint_val_ (kVarIntDescending | kVarInt) s, varint_val_ _ s' => Ok (bool_decide (s = s'))
    | uint16_val_ (kIntentTypeSet | kObsoleteIntentTypeSet | kObsoleteIntentType | kUInt16Hash) v, uint16_val_ _ v' => Ok (v =? v')
    | timestamp_val_ (kTimestampDescending | kTimestamp) v, timestamp_val_ _ v' => Ok (v =? v')
    | inetaddress_val_ (kInetaddressDescending | kInetaddress) a, inetaddress_val_ _ a' => Ok (InetAddress.eq a a')
    | uuid_val_ (kTransactionApplyState | kExternalTransactionId | kTransactionId | kTableId | kUuidDescending | kUuid) u,
      uuid_val_ _ u' => Ok (bool_decide (u = u'))
    | column_id_val_ (kColumnId | kSystemColumnId) v, column_id_val_ _ v' => Ok (v =? v')
    | hybrid_time_val_ kHybridTime v, hybrid_time_val_ _ v' => Ok (bool_decide (DocHybridTime.CompareTo v v' = Eq))
    | _, _ => invalid (value_type self)
    end.

(** ** Decoding keys *)

(** A decoder with [out] set returns the value; with a null pointer it only moves the slice. *)
Definition stored (out : bool) (v : t) : option t := if out then Some v else None.

Definition decode_str (out : bool) (ty : ValueType.t) (slice : bytes) : outcome (option t * bytes) :=
  let! (result, slice) :=
    if bool_decide (ty = kStringDescending) then DocKvUtil.DecodeComplementZeroEncodedStr slice
    else DocKvUtil.DecodeZeroEncodedStrSlice slice in
  Ok (stored out (str_val_ ty result), slice).

Definition decode_decimal (out : bool) (ty : ValueType.t) (slice : bytes) : outcome (option t * bytes) :=
  let! (decimal, num_decoded_bytes) := Decimal.DecodeFromComparable slice in
  let decimal := if bool_decide (ty = kDecimalDescending) then Decimal.Negate decimal else decimal in
  let! encoded := if out then Decimal.EncodeToComparable decimal else Ok [] in
  let! slice := Slice.remove_prefix slice num_decoded_bytes in
  Ok (stored out (decimal_val_ ty encoded), slice).

Definition decode_varint (out : bool) (ty : ValueType.t) (slice : bytes) : outcome (option t * bytes) :=
  let! (varint, num_decoded_bytes) := VarInt.DecodeFromComparable 0 slice in
  let varint := if bool_decide (ty = kVarIntDescending) then VarInt.Negate varint else varint in
  let! encoded := if out then VarInt.EncodeToComparable 0 varint else Ok [] in
  let! slice := Slice.remove_prefix slice num_decoded_bytes in
  Ok (stored out (varint_val_ ty encoded), slice).

(** Conversion to [int32_t]. *)
Definition i32 (z : Z) : Z := (z + 2 ^ 31) mod 2 ^ 32 - 2 ^ 31.

(** A number of [n] bytes that [load] reads and [store] keeps. *)
Definition decode_fixed (out : bool) (n : nat) (load : bytes → outcome Z) (store : Z → t) (slice : bytes) :
    outcome (option t * bytes) :=
  if (length slice <? n)%nat then Err Corruption
  else
    let! v := if out then load slice else Ok 0 in
    let! slice := Slice.remove_prefix slice n in
    Ok (stored out (store v), slice).

Definition load_int32 (descending : bool) (slice : bytes) : outcome Z :=
  let! v := KvUtil.Load 4 slice in
  let v := i32 (Z.lxor v KvUtil.kInt32SignBitFlipMask) in
  Ok (if descending then Z.lnot v else v).
Definition load_uint32 (descending : bool) (slice : bytes) : outcome Z :=
  let! v := KvUtil.Load 4 slice in Ok (if descending then u32 (Z.lnot v) else v).
Definition load_uint64 (descending : bool) (slice : bytes) : outcome Z :=
  let! v := KvUtil.Load 8 slice in Ok (if descending then u64 (Z.lnot v) else v).
Definition load_int64 (descending : bool) (slice : bytes) : outcome Z :=
  let! v := KvUtil.DecodeInt64FromKey slice in Ok (if descending then Z.lnot v else v).

Definition decode_inetaddress (out : bool) (ty : ValueType.t) (slice : bytes) : outcome (option t * bytes) :=
  let! (l, slice) :=
    if bool_decide (ty = kInetaddressDescending) then DocKvUtil.DecodeComplementZeroEncodedStr slice
    else DocKvUtil.DecodeZeroEncodedStrSlice slice in
  if out then let! a := InetAddress.FromBytes l in Ok (Some (inetaddress_val_ ty a), slice) else Ok (None, slice).

Definition decode_raw_uuid (out : bool) (ty : ValueType.t) (slice : bytes) : outcome (option t * bytes) :=
  if (length slice <? Uuid.kUuidSize)%nat then Err Corruption
  else
    let! u := if out then Uuid.FromSlice slice Uuid.kUuidSize else Ok [] in
    let! slice := Slice.remove_prefix slice Uuid.kUuidSize in
    Ok (stored out (uuid_val_ ty u), slice).

Definition decode_uuid (out : bool) (ty : ValueType.t) (slice : bytes) : outcome (option t * bytes) :=
  let! (l, slice) :=
    if bool_decide (ty = kUuidDescending) then DocKvUtil.DecodeComplementZeroEncodedStr slice
    else DocKvUtil.DecodeZeroEncodedStrSlice slice in
  if out then let! u := Uuid.DecodeFromComparable l in Ok (Some (uuid_val_ ty u), slice) else Ok (None, slice).

Definition decode_column_id (out : bool) (ty : ValueType.t) (slice : bytes) : outcome (option t * bytes) :=
  let! (column_id_as_int64, slice) := FastDecodeSignedVarIntSlice slice in
  let! v := ColumnId.FromInt64 column_id_as_int64 in
  Ok (stored out (column_id_val_ ty v), slice).

(** [*slice->data()] and [consume_byte()] are not guarded. *)
Definition decode_intent_types (out : bool) (ty : ValueType.t) (slice : bytes) : outcome (option t * bytes) :=
  let! (b, slice) := Slice.consume_byte slice in Ok (stored out (uint16_val_ ty b), slice).

(** The cases of [DecodeKey] other than frozen values, after the type byte. *)
Definition DecodeScalar (out : bool) (value_type : ValueType.t) (slice : bytes) : outcome (option t * bytes) :=
  match value_type with
  | kNullHigh | kNullLow | kCounter | kSSForward | kSSReverse | kFalse | kTrue | kFalseDescending | kTrueDescending
  | kHighest | kLowest => Ok (stored out (complex_data_structure_ value_type), slice)
  | kStringDescending | kString => decode_str out value_type slice
  | kDecimalDescending | kDecimal => decode_decimal out value_type slice
  | kVarIntDescending | kVarInt => decode_varint out value_type slice
  | kInt32Descending | kInt32 | kWriteId =>
      decode_fixed out 4 (load_int32 (bool_decide (value_type = kInt32Descending))) (int32_val_ value_type) slice
  | kPgTableOid | kUInt32Descending | kUInt32 =>
      decode_fixed out 4 (load_uint32 (bool_decide (value_type = kUInt32Descending))) (uint32_val_ value_type) slice
  | kUInt64Descending | kUInt64 =>
      decode_fixed out 8 (load_uint64 (bool_decide (value_type = kUInt64Descending))) (uint64_val_ value_type) slice
  | kInt64Descending | kInt64 | kArrayIndex =>
      decode_fixed out 8 (load_int64 (bool_decide (value_type = kInt64Descending))) (int64_val_ value_type) slice
  | kUInt16Hash => decode_fixed out 2 (KvUtil.Load 2) (uint16_val_ value_type) slice
  | kTimestampDescending | kTimestamp =>
      decode_fixed out 8 (load_int64 (bool_decide (value_type = kTimestampDescending))) (timestamp_val_ value_type) slice
  | kInetaddress | kInetaddressDescending => decode_inetaddress out value_type slice
  | kTransactionApplyState | kExternalTransactionId => decode_raw_uuid out value_type slice
  | kTransactionId | kTableId | kUuid | kUuidDescending => decode_uuid out value_type slice
  | kColumnId | kSystemColumnId => decode_column_id out value_type slice
  | kHybridTime =>
      let! (v, slice) := DocHybridTime.DecodeFrom slice in Ok (stored out (hybrid_time_val_ kHybridTime v), slice)
  | kIntentTypeSet | kObsoleteIntentTypeSet | kObsoleteIntentType => decode_intent_types out value_type slice
  | kFloatDescending | kFloat =>
      decode_fixed out 4 (λ s, KvUtil.DecodeFloatFromKey s (bool_decide (value_type = kFloatDescending)))
        (float_val_ value_type) slice
  | kDoubleDescending | kDouble =>
      decode_fixed out 8 (λ s, KvUtil.DecodeDoubleFromKey s (bool_decide (value_type = kDoubleDescending)))
        (double_val_ value_type) slice
  | _ => Err Corruption
  end.

(** [DecodeKey] and its loop over the elements of a frozen value; every call
    consumes a byte, so [2 * n + 1] calls are enough for [n] bytes. *)
Fixpoint DecodeKey (fuel : nat) (out : bool) (slice : bytes) : outcome (option t * bytes) :=
  match fuel with
  | O => Fatal
  | S fuel =>
      match slice with
      | [] => Err Corruption
      | b :: slice =>
          match enumerator b with
          | Some ((kFrozenDescending | kFrozen) as value_type) => DecodeFrozen fuel out value_type [] slice
          | Some value_type => DecodeScalar out value_type slice
          | None => Err Corruption
          end
      end
  end
with DecodeFrozen (fuel : nat) (out : bool) (value_type : ValueType.t) (frozen : list t) (slice : bytes) :
    outcome (option t * bytes) :=
  match fuel with
  | O => Fatal
  | S fuel =>
      match slice with
      | [] => Err Corruption
      | current :: rest =>
          if current =? group_end value_type then Ok (stored out (frozen_val_ value_type frozen), rest)
          else
            let! (pv, slice) := DecodeKey fuel out slice in
            DecodeFrozen fuel out value_type (frozen ++ match pv with Some v => [v] | None => [] end) slice
      end
  end.

Definition enough (slice : bytes) : nat := 2 * length slice + 1.
Definition DecodeFromKey (slice : bytes) : outcome (option t * bytes) := DecodeKey (enough slice) true slice.
Definition SkipKey (slice : bytes) : outcome (option t * bytes) := DecodeKey (enough slice) false slice.

(** ** Decoding values *)

Definition exactly (n : nat) (slice : bytes) (k : outcome t) : outcome t :=
  if negb (length slice =? n)%nat then Err Corruption else k.

Definition DecodeFromValue (rocksdb_slice : bytes) : outcome t :=
  match rocksdb_slice with
  | [] => Err Corruption
  | b :: slice =>
      match enumerator b with
      | Some ((kNullHigh | kNullLow | kCounter | kSSForward | kSSReverse | kFalse | kTrue | kFalseDescending
              | kTrueDescending | kObject | kArray | kRedisList | kRedisSet | kRedisTS | kRedisSortedSet | kTombstone) as ty) =>
          Ok (complex_data_structure_ ty)
      | Some ((kFrozenDescending | kFrozen) as ty) =>
          let! (v, _) := DecodeFrozen (enough slice + 1) true ty [] slice in
          match v with Some v => Ok v | None => UB end
      | Some kString => Ok (str_val_ kString slice)
      | Some ((kInt32 | kInt32Descending | kWriteId) as ty) =>
          exactly 4 slice (let! v := KvUtil.Load 4 slice in Ok (int32_val_ ty (i32 v)))
      | Some ((kFloatDescending | kFloat) as ty) =>
          exactly 4 slice (let! v := KvUtil.Load 4 slice in Ok (float_val_ ty v))
      | Some ((kPgTableOid | kUInt32 | kUInt32Descending) as ty) =>
          exactly 4 slice (let! v := KvUtil.Load 4 slice in Ok (uint32_val_ ty v))
      | Some ((kUInt64 | kUInt64Descending) as ty) =>
          exactly 8 slice (let! v := KvUtil.Load 8 slice in Ok (uint64_val_ ty v))
      | Some ((kInt64 | kInt64Descending | kArrayIndex) as ty) =>
          exactly 8 slice (let! v := KvUtil.Load 8 slice in Ok (int64_val_ ty (i64 v)))
      | Some ((kDoubleDescending | kDouble) as ty) =>
          exactly 8 slice (let! v := KvUtil.Load 8 slice in Ok (double_val_ ty v))
      | Some kDecimal =>
          let! (decimal, _) := Decimal.DecodeFromComparable slice in
          let! s := Decimal.EncodeToComparable decimal in Ok (decimal_val_ kDecimal s)
      | Some kVarInt =>
          let! (varint, _) := VarInt.DecodeFromComparable 0 slice in
          let! s := VarInt.EncodeToComparable 0 varint in Ok (varint_val_ kVarInt s)
      | Some kTimestamp => exactly 8 slice (let! v := KvUtil.Load 8 slice in Ok (timestamp_val_ kTimestamp (i64 v)))
      | Some kJsonb => if (length slice <? 8)%nat then Err Corruption else Ok (json_val_ kJsonb (drop 8 slice))
      | Some kInetaddress =>
          if negb (length slice =? InetAddress.kInetAddressV4Size)%nat && negb (length slice =? InetAddress.kInetAddressV6Size)%nat
          then Err Corruption
          else let! a := InetAddress.FromSlice slice 0 in Ok (inetaddress_val_ kInetaddress a)
      | Some ((kTransactionApplyState | kExternalTransactionId | kTransactionId | kTableId | kUuid) as ty) =>
          exactly Uuid.kUuidSize slice (let! u := Uuid.DecodeFromComparableSlice slice 0 in Ok (uuid_val_ ty u))
      | Some _ => Err Corruption
      | None => Fatal
      end
  end.

(** ** Construction *)

Inductive SortOrder := kAscending | kDescending.
Definition by_order (sort_order : SortOrder) (asc desc : ValueType.t) : ValueType.t :=
  match sort_order with kAscending => asc | kDescending => desc end.

(** The constructors, by the type of their argument. *)
Definition of_type (value_type : ValueType.t) : t := complex_data_structure_ value_type.
Definition of_string (s : bytes) (o : SortOrder) : t := str_val_ (by_order o kString kStringDescending) s.
Definition of_int64 (v : Z) (o : SortOrder) : t := int64_val_ (by_order o kInt64 kInt64Descending) v.
Definition of_timestamp (v : Z) (o : SortOrder) : t := timestamp_val_ (by_order o kTimestamp kTimestampDescending) v.
Definition of_inetaddress (a : address) (o : SortOrder) : t := inetaddress_val_ (by_order o kInetaddress kInetaddressDescending) a.
Definition of_uuid (u : bytes) (o : SortOrder) : t := uuid_val_ (by_order o kUuid kUuidDescending) u.
Definition of_hybrid_time (v : DocHybridTime.t) : t := hybrid_time_val_ kHybridTime v.
Definition of_column_id (v : Z) : t := column_id_val_ kColumnId v.

Definition Double (d : Z) (o : SortOrder) : t := double_val_ (by_order o kDouble kDoubleDescending) d.
Definition Float (f : Z) (o : SortOrder) : t := float_val_ (by_order o kFloat kFloatDescending) f.
Definition Decimal (encoded_decimal_str : bytes) (o : SortOrder) : t := decimal_val_ (by_order o kDecimal kDecimalDescending) encoded_decimal_str.
Definition VarInt (encoded_varint_str : bytes) (o : SortOrder) : t := varint_val_ (by_order o kVarInt kVarIntDescending) encoded_varint_str.
Definition ArrayIndex (index : Z) : t := int64_val_ kArrayIndex index.
Definition UInt16Hash (hash : Z) : t := uint16_val_ kUInt16Hash hash.
Definition SystemColumnId (column_id : Z) : t := column_id_val_ kSystemColumnId column_id.
Definition Int32 (v : Z) (o : SortOrder) : t := int32_val_ (by_order o kInt32 kInt32Descending) v.
Definition UInt32 (v : Z) (o : SortOrder) : t := uint32_val_ (by_order o kUInt32 kUInt32Descending) v.
Definition UInt64 (v : Z) (o : SortOrder) : t := uint64_val_ (by_order o kUInt64 kUInt64Descending) v.
Definition TransactionId (transaction_id : bytes) : t := uuid_val_ kTransactionId transaction_id.
Definition TableId (table_id : bytes) : t := uuid_val_ kTableId table_id.
Definition Jsonb (json : bytes) : t := json_val_ kJsonb json.

(** The constructor for [int64_t] stores the number; its low half is [uint32_val_]. *)
Definition PgTableOid (pgtable_id : Z) : t := uint32_val_ kPgTableOid pgtable_id.

Definition IsPrimitive (v : t) : bool := IsPrimitiveValueType (value_type v).
Definition IsTombstoneOrPrimitive (v : t) : bool := IsPrimitiveValueType (value_type v) || (value_type v =? kTombstone).
Definition IsInfinity (v : t) : bool := (value_type v =? kHighest) || (value_type v =? kLowest).

End Operations.
End PrimitiveValue.
