(* ===== verification/PrimitiveKeys.v ===== *)
(** * Primitive values in keys and values

    What the encodings of PrimitiveValue.v guarantee: a value is read back from a
    key or a value whatever follows it, keys sort as [CompareTo] sorts the values,
    and skipping a component of a key moves exactly as far as decoding it. *)

From S2P Require Import Prelude Slice FastVarint HybridTime DocHybridTime ValueType KvUtil VarInt Decimal Uuid InetAddress Intent PrimitiveValue.

(** ** Codes that decide a comparison *)

(** Whatever follows the codes [l] and [l'], they compare as [c], and leave the
    decision to what follows if [c] is [Eq]. *)
Definition follows (c : comparison) (l l' : bytes) : Prop :=
  ∀ s t, bytes_compare (l ++ s) (l' ++ t) = match c with Eq => bytes_compare s t | _ => c end.

Lemma follows_refl l : follows Eq l l.
Proof. intros s t. apply bytes_compare_app_same. Qed.

Lemma follows_bytes c l l' : follows c l l' → bytes_compare l l' = c.
Proof. intros H. specialize (H [] []). rewrite !app_nil_r in H. by destruct c. Qed.

Lemma follows_head a b l l' : a ≠ b → follows (a ?= b) (a :: l) (b :: l').
Proof.
  intros Hne s t. cbn [app]. rewrite StringKeys.compare_head_ne by done.
  destruct (Z.compare_spec a b); [lia|done|done].
Qed.

Lemma follows_cons a c l l' : follows c l l' → follows c (a :: l) (a :: l').
Proof. intros H s t. cbn [app bytes_compare]. by rewrite Z.compare_refl, H. Qed.

Lemma follows_app c d l l' m m' :
  follows c l l' → follows d m m' → follows (match c with Eq => d | _ => c end) (l ++ m) (l' ++ m').
Proof. intros H1 H2 s t. rewrite <- !app_assoc, H1. destruct c; [apply H2|done|done]. Qed.

Lemma follows_be n a b :
  0 <= a < 2 ^ (8 * Z.of_nat n) → 0 <= b < 2 ^ (8 * Z.of_nat n) → follows (a ?= b) (be_bytes n a) (be_bytes n b).
Proof. intros Ha Hb s t. rewrite be_bytes_compare by done. by destruct (a ?= b). Qed.

Lemma follows_str e s t :
  StringKeys.marker e → bytes_ok s → bytes_ok t →
  follows (StringKeys.oriented_str e s t) (StringKeys.enc_str e s ++ [e; e]) (StringKeys.enc_str e t ++ [e; e]).
Proof.
  intros He Hs Ht x y. rewrite <- !app_assoc, StringKeys.enc_str_order by done.
  by destruct (StringKeys.oriented_str e s t).
Qed.

Lemma compare_using_ltb a b : CompareUsingLessThan Z.ltb a b = (a ?= b).
Proof.
  unfold CompareUsingLessThan, compare_using. destruct (Z.ltb_spec a b), (Z.ltb_spec b a), (Z.compare_spec a b); lia || done.
Qed.

Lemma compare_using_nat a b : CompareUsingLessThan Nat.ltb a b = (Z.of_nat a ?= Z.of_nat b).
Proof.
  unfold CompareUsingLessThan, compare_using.
  destruct (Nat.ltb_spec a b), (Nat.ltb_spec b a), (Z.compare_spec (Z.of_nat a) (Z.of_nat b)); lia || done.
Qed.

(** [operator<] on byte strings as the comparison of [std::string::compare]. *)
Lemma compare_using_bytes a b :
  compare_using (bool_decide (bytes_compare a b = Lt)) (bool_decide (bytes_compare b a = Lt)) = bytes_compare a b.
Proof.
  unfold compare_using. rewrite (bytes_compare_antisym a b). by destruct (bytes_compare a b).
Qed.

(** ** Descending codes *)

Lemma be_bytes_wrap n v : be_bytes n (v mod 2 ^ (8 * Z.of_nat n)) = be_bytes n v.
Proof.
  apply be_value_inj; try apply be_bytes_ok; [by rewrite !length_be_bytes|].
  by rewrite !be_value_be_bytes, Z.mod_mod by lia.
Qed.

Section Descending.
Context {B : BigNum} {HB : BigNumSpec B}.

(** The first byte is 128 for zero only. *)
Lemma varint_first v x l :
  VarInt.EncodeToComparable 0 v = Ok x → x = 128 :: l → BN_value v = 0.
Proof.
  intros E ->. assert (VarInt.EncodeToComparable 0 (VarInt.VarInt 0) = Ok [128]) as E0.
  { rewrite VarInt.encode_be, VarInt.VarInt_spec by (unfold is_i64; lia). done. }
  pose proof (VarInt.varint_encode_compare 0 _ _ _ _ [] l ltac:(lia) E E0) as H.
  rewrite VarInt.VarInt_spec in H by (unfold is_i64; lia). rewrite app_nil_r in H. cbn [app] in H.
  rewrite bytes_compare_refl in H. destruct (Z.compare_spec (BN_value v) 0); done.
Qed.

Lemma varint_descending v x :
  VarInt.EncodeToComparable 0 v = Ok x →
  VarInt.EncodeToComparable 0 (VarInt.Negate v) = Ok (KeyBytes.AppendVarIntDescending x []).
Proof.
  intros E. unfold KeyBytes.AppendVarIntDescending. cbn [app].
  rewrite VarInt.encode_be, VarInt.Negate_spec in * by lia. cbv zeta in *. set (z := BN_value v) in *.
  destruct (decide (z = 0)) as [Hz|Hz].
  { rewrite Hz in *. assert (x = [128]) as -> by (vm_compute in E; congruence). done. }
  case_test.
  { destruct x as [|b l]; [done|]. cbn [nth] in *. subst b. exfalso. apply Hz.
    apply (varint_first v (128 :: l) l); [|done]. by rewrite VarInt.encode_be by lia. }
  assert (VarInt.size_of 0 (- z) = VarInt.size_of 0 z) as ->.
  { unfold VarInt.size_of, num_bits. rewrite Z.abs_opp. repeat case_test; lia || done. }
  assert (x = be_bytes (VarInt.size_of 0 z) (VarInt.code 0 (VarInt.size_of 0 z) z)) as -> by congruence.
  rewrite be_bytes_lnot. f_equal. pose proof (VarInt.size_fits 0 z ltac:(lia)) as Hf.
  set (n := VarInt.size_of 0 z) in *. pose proof (VarInt.code_range 0 n z Hf) as Hc.
  rewrite <- (be_bytes_wrap n (- _ - 1)). f_equal.
  unfold VarInt.code in *. rewrite Z.abs_opp, Z.sub_0_r in *.
  destruct (Z.ltb_spec z 0), (Z.ltb_spec (- z) 0); try lia.
  all: apply Z.mod_unique_pos with (-1); lia.
Qed.

Lemma varint_follows v w x y :
  VarInt.EncodeToComparable 0 v = Ok x → VarInt.EncodeToComparable 0 w = Ok y → follows (bytes_compare x y) x y.
Proof.
  intros Ex Ey. assert (follows (BN_value v ?= BN_value w) x y) as H.
  { intros s t. rewrite (VarInt.varint_encode_compare 0 v w) by (done || lia). by destruct (BN_value v ?= BN_value w). }
  by rewrite (follows_bytes _ _ _ H).
Qed.

Lemma varint_descending_follows v w x y :
  VarInt.EncodeToComparable 0 v = Ok x → VarInt.EncodeToComparable 0 w = Ok y →
  follows (bytes_compare y x) (KeyBytes.AppendVarIntDescending x []) (KeyBytes.AppendVarIntDescending y []).
Proof.
  intros Ex Ey s t.
  rewrite (VarInt.varint_encode_compare 0 _ _ _ _ s t ltac:(lia) (varint_descending v x Ex) (varint_descending w y Ey)).
  rewrite !VarInt.Negate_spec, Z.compare_opp.
  pose proof (VarInt.varint_encode_compare 0 w v y x [] [] ltac:(lia) Ey Ex) as H. rewrite !app_nil_r in H. rewrite H.
  by destruct (BN_value w ?= BN_value v).
Qed.

(** The decimal with the opposite sign; zero is its own. *)
Definition opposite (d : Decimal.t) : Decimal.t := if bool_decide (Decimal.digits_ d = []) then d else Decimal.Negate d.

Lemma opposite_wf d : Decimal.wf d → Decimal.wf (opposite d).
Proof.
  intros Hwf. unfold opposite. case_bool_decide as Hd; [done|]. destruct Hwf as [H1 H2]. split; [done|].
  unfold Decimal.is_canonical in *. cbn [Decimal.Negate Decimal.digits_]. by destruct (Decimal.digits_ d).
Qed.

Lemma opposite_num d k : Decimal.num k (opposite d) = - Decimal.num k d.
Proof.
  unfold opposite, Decimal.num. case_bool_decide as Hd.
  - rewrite Hd, Decimal.frac_nil. by destruct (Decimal.is_positive_ d).
  - cbn [Decimal.Negate Decimal.digits_ Decimal.exponent_ Decimal.is_positive_]. destruct (Decimal.is_positive_ d); cbn [negb]; lia.
Qed.

Lemma opposite_scaled d k : Decimal.scaled k (opposite d) ↔ Decimal.scaled k d.
Proof. unfold opposite, Decimal.scaled. by case_bool_decide. Qed.

Lemma decimal_descending d x :
  Decimal.wf d → Decimal.EncodeToComparable d = Ok x →
  Decimal.EncodeToComparable (opposite d) = Ok (KeyBytes.AppendDecimalDescending x []).
Proof.
  intros Hwf E. unfold KeyBytes.AppendDecimalDescending, opposite. cbn [app]. case_bool_decide as Hd.
  { rewrite Decimal.encode_zero in * by done. injection E as <-. done. }
  destruct (Decimal.encode_first d x Hwf E) as (b & l & -> & Hl & Hb & Hf). rewrite bool_decide_false in Hf by done.
  case_test; cbn [nth] in *; [destruct (Decimal.is_positive_ d); lia|].
  destruct (Decimal.encode_nonzero d Hd) as (h & m & Ev & Hh & Hm & Hok & Ed).
  destruct (Decimal.encode_nonzero (Decimal.Negate d) Hd) as (h' & m' & Ev' & _ & _ & _ & Ed').
  cbn [Decimal.Negate Decimal.exponent_ Decimal.digits_ Decimal.is_positive_] in *. rewrite Ev in Ev'. injection Ev' as <- <-.
  rewrite Ed'. f_equal. rewrite E in Ed. fold (VarInt.FlipBits (b :: l)). set (o := h + 192 :: _) in *.
  assert (b :: l = if Decimal.is_positive_ d then o else VarInt.FlipBits o) as -> by congruence.
  destruct (Decimal.is_positive_ d); cbn [negb]; [done|]. by rewrite Decimal.flip_flip.
Qed.

(** Two decimals have a common scale. *)
Lemma common_scale d d' : ∃ k, Decimal.scaled k d ∧ Decimal.scaled k d'.
Proof.
  exists (Z.max (Z.of_nat (length (Decimal.digits_ d)) - BN_value (Decimal.exponent_ d))
                (Z.of_nat (length (Decimal.digits_ d')) - BN_value (Decimal.exponent_ d'))).
  unfold Decimal.scaled. lia.
Qed.

Lemma decimal_follows d e x y :
  Decimal.wf d → Decimal.wf e → Decimal.EncodeToComparable d = Ok x → Decimal.EncodeToComparable e = Ok y →
  follows (bytes_compare x y) x y.
Proof.
  intros Hd He Ex Ey. assert (follows (Decimal.CompareTo d e ?= 0) x y) as H.
  { intros s t. rewrite (Decimal.decimal_encode_compare d e) by done. by destruct (Decimal.CompareTo d e ?= 0). }
  by rewrite (follows_bytes _ _ _ H).
Qed.

Lemma decimal_descending_follows d e x y :
  Decimal.wf d → Decimal.wf e → Decimal.EncodeToComparable d = Ok x → Decimal.EncodeToComparable e = Ok y →
  follows (bytes_compare y x) (KeyBytes.AppendDecimalDescending x []) (KeyBytes.AppendDecimalDescending y []).
Proof.
  intros Hd He Ex Ey s t. destruct (common_scale d e) as (k & Hk & Hk').
  rewrite (Decimal.decimal_encode_compare (opposite d) (opposite e))
    by (done || by apply opposite_wf || by apply decimal_descending).
  rewrite (Decimal.CompareTo_num (opposite d) (opposite e) k) by (by apply opposite_wf || by apply opposite_scaled).
  rewrite !opposite_num, Z.compare_opp, <- (Decimal.CompareTo_num e d k) by done.
  pose proof (Decimal.decimal_encode_compare e d y x [] [] He Hd Ey Ex) as H. rewrite !app_nil_r in H. rewrite H.
  by destruct (Decimal.CompareTo e d ?= 0).
Qed.

End Descending.

(** ** Well-formed components of keys *)

Module PrimitiveKeys.
Import ValueType PrimitiveValue FloatBits.

Section Values.
Context {B : BigNum} {V : UuidVersion} {A : IpAddress}.

Definition frozen (v : t) : bool := match v with frozen_val_ _ _ => true | _ => false end.

Lemma value_ind (P : t → Prop) :
  (∀ v, frozen v = false → P v) → (∀ ty l, Forall P l → P (frozen_val_ ty l)) → ∀ v, P v.
Proof.
  intros Hs Hf. fix IH 1. intros v. destruct v as [| | | | | | | | | | | | |ty l| | | |]; try by apply Hs.
  apply Hf. induction l; by constructor.
Qed.

Definition decimal_code (s : bytes) : Prop := ∃ d, Decimal.wf d ∧ Decimal.EncodeToComparable d = Ok s.
Definition varint_code (s : bytes) : Prop := ∃ n, VarInt.EncodeToComparable 0 n = Ok s.
Definition inet (a : address) : Prop := ∃ l, bytes_ok l ∧ InetAddress.FromBytes l = Ok a.
Definition is_i32 (z : Z) : Prop := - 2 ^ 31 <= z < 2 ^ 31.

(** A value other than a frozen one that has a type, the member of the union for
    the type and a value of the member's range; decimals and varints hold an
    encoded number.  Left out are the types that no key holds and those whose
    key does not decode to the value. *)
Definition wf_scalar (v : t) : Prop :=
  match v with
  | complex_data_structure_ ty => bare ty = true ∧ ty ≠ kMaxByte
  | str_val_ (kString | kStringDescending) s => bytes_ok s
  | int64_val_ (kInt64 | kInt64Descending | kArrayIndex) n => is_i64 n
  | int32_val_ (kInt32 | kInt32Descending | kWriteId) n => is_i32 n
  | uint32_val_ (kPgTableOid | kUInt32 | kUInt32Descending) n => is_u32 n
  | uint64_val_ (kUInt64 | kUInt64Descending) n => is_u64 n
  | double_val_ (kDouble | kDoubleDescending) n => is_u64 n
  | float_val_ (kFloat | kFloatDescending) n => is_u32 n
  | decimal_val_ (kDecimal | kDecimalDescending) s => decimal_code s
  | varint_val_ (kVarInt | kVarIntDescending) s => varint_code s
  | timestamp_val_ (kTimestamp | kTimestampDescending) n => is_i64 n
  | inetaddress_val_ (kInetaddress | kInetaddressDescending) a => inet a
  | uuid_val_ (kTransactionId | kTableId | kUuid | kUuidDescending) u => Uuid.wf u
  | hybrid_time_val_ kHybridTime d => DocHybridTime.wf d
  | uint16_val_ kUInt16Hash n => is_u16 n
  | uint16_val_ kIntentTypeSet n => IntentTypeSet.wf n
  | column_id_val_ (kColumnId | kSystemColumnId) n => 0 <= n < 2 ^ 31
  | _ => False
  end.

(** A component of a key: a scalar or a frozen list of components. *)
Fixpoint wf (v : t) : Prop :=
  match v with
  | frozen_val_ ty l =>
      (ty = kFrozen ∨ ty = kFrozenDescending) ∧ (fix all l := match l with [] => True | x :: l => wf x ∧ all l end) l
  | _ => wf_scalar v
  end.

Lemma wf_frozen ty l : wf (frozen_val_ ty l) ↔ (ty = kFrozen ∨ ty = kFrozenDescending) ∧ Forall wf l.
Proof.
  cbn [wf]. enough ((fix all l := match l with [] => True | x :: l => wf x ∧ all l end) l ↔ Forall wf l) as -> by done.
  induction l as [|x l IH]; [by split|]. by rewrite Forall_cons, <- IH.
Qed.

Lemma wf_not_frozen v : frozen v = false → wf v ↔ wf_scalar v.
Proof. by destruct v. Qed.

(** What the constructors make of arguments in range are components of keys. *)
Lemma constructed_wf (o : SortOrder) (s : bytes) (n : Z) (a : address) (d : DocHybridTime.t) :
  (bytes_ok s → wf (of_string s o)) ∧
  (is_i64 n → wf (of_int64 n o) ∧ wf (of_timestamp n o) ∧ wf (ArrayIndex n)) ∧
  (is_i32 n → wf (Int32 n o)) ∧
  (is_u32 n → wf (UInt32 n o) ∧ wf (Float n o) ∧ wf (PgTableOid n)) ∧
  (is_u64 n → wf (UInt64 n o) ∧ wf (Double n o)) ∧
  (is_u16 n → wf (UInt16Hash n)) ∧
  (inet a → wf (of_inetaddress a o)) ∧
  (Uuid.wf s → wf (of_uuid s o) ∧ wf (TransactionId s) ∧ wf (TableId s)) ∧
  (decimal_code s → wf (PrimitiveValue.Decimal s o)) ∧ (varint_code s → wf (PrimitiveValue.VarInt s o)) ∧
  (0 <= n < 2 ^ 31 → wf (of_column_id n) ∧ wf (SystemColumnId n)) ∧
  (DocHybridTime.wf d → wf (of_hybrid_time d)).
Proof. by destruct o. Qed.

End Values.

(** ** Scalars in keys *)

Section Scalars.
Context {B : BigNum} {HB : BigNumSpec B} {V : UuidVersion} {HV : UuidVersionSpec V} {A : IpAddress} {HA : IpAddressSpec A}.

(** [l] is the code of [v] after its type: it is appended to any key and decodes to [v]. *)
Definition coded (v : t) (l : bytes) : Prop :=
  bytes_ok l ∧
  (∀ key, AppendToKey v key = Ok (key ++ code (value_type v) :: l)) ∧
  ∀ out rest, bytes_ok rest → DecodeScalar out (value_type v) (l ++ rest) = Ok (stored out v, rest).

Lemma append_type (ty : ValueType.t) key : ty ≠ kMaxByte → KeyBytes.AppendValueType ty key = key ++ [code ty].
Proof. by destruct ty. Qed.

Lemma remove_prefix_app l rest : Slice.remove_prefix (l ++ rest) (length l) = Ok rest.
Proof.
  unfold Slice.remove_prefix. rewrite decide_True by (rewrite length_app; lia). by rewrite drop_app_length.
Qed.

Lemma decode_fixed_spec out n load store v l rest :
  length l = n → load (l ++ rest) = Ok v →
  decode_fixed out n load store (l ++ rest) = Ok (stored out (store v), rest).
Proof.
  intros <- Hv. unfold decode_fixed. rewrite (proj2 (Nat.ltb_ge _ _)) by (rewrite length_app; lia).
  rewrite Hv. destruct out; cbn [obind]; by rewrite remove_prefix_app.
Qed.

Lemma coded_bare ty : bare ty = true → ty ≠ kMaxByte → coded (complex_data_structure_ ty) [].
Proof.
  intros Hb Hm. split; [constructor|]. split.
  - intros key. cbn [AppendToKey value_type]. by rewrite Hb, append_type.
  - intros out rest _. by destruct ty.
Qed.

Lemma enc_str_ok e s : StringKeys.marker e → bytes_ok s → bytes_ok (StringKeys.enc_str e s ++ [e; e]).
Proof.
  intros He Hs. assert (is_u8 e ∧ is_u8 (Z.lxor e 1)) as [H1 H2] by (destruct He as [->| ->]; by split; vm_compute).
  apply Forall_app. split; [|repeat (constructor; [done|]); constructor].
  induction Hs as [|c s Hc Hs IH]; [constructor|]. change (StringKeys.enc_str e (c :: s)) with (StringKeys.enc_char e c ++ StringKeys.enc_str e s).
  apply Forall_app. split; [|done]. unfold StringKeys.enc_char. case_test.
  - repeat (constructor; [done|]). constructor.
  - constructor; [|constructor]. by apply StringKeys.enc_nonzero.
Qed.

Lemma coded_str s :
  bytes_ok s →
  coded (str_val_ kString s) (StringKeys.enc_str 0 s ++ [0; 0]) ∧
  coded (str_val_ kStringDescending s) (StringKeys.enc_str 255 s ++ [255; 255]).
Proof.
  intros Hs. split; (split; [apply enc_str_ok; [by (left + right)|done]|]); split; intros.
  - cbn [AppendToKey value_type]. by rewrite append_type, StringKeys.append_string, <- app_assoc.
  - unfold DecodeScalar, decode_str, DocKvUtil.DecodeZeroEncodedStrSlice. cbn [value_type].
    rewrite <- app_assoc, StringKeys.decode_encoded_str; [done|by left|done].
  - cbn [AppendToKey value_type]. by rewrite append_type, StringKeys.append_descending_string, <- app_assoc.
  - unfold DecodeScalar, decode_str, DocKvUtil.DecodeComplementZeroEncodedStr. cbn [value_type].
    rewrite <- app_assoc, StringKeys.decode_encoded_str; [done|by right|done].
Qed.

Lemma lnot_minus z : Z.lnot z = - 1 - z.
Proof. unfold Z.lnot. lia. Qed.

Lemma coded_fixed v l n load store x :
  bytes_ok l → length l = n → value_type v ≠ kMaxByte →
  (∀ key, AppendToKey v key = Ok (KeyBytes.AppendValueType (value_type v) key ++ l)) →
  (∀ rest, load (l ++ rest) = Ok x) → v = store x →
  (∀ out s, DecodeScalar out (value_type v) s = decode_fixed out n load store s) → coded v l.
Proof.
  intros Hl Hn Hm Ha Hx Hv Hd. split; [done|]. split.
  - intros key. rewrite Ha, append_type by done. by rewrite <- app_assoc.
  - intros out rest _. rewrite Hd. rewrite (decode_fixed_spec out n load store x l rest Hn (Hx rest)). by rewrite Hv.
Qed.

Lemma decode_int64_key n rest : is_i64 n → KvUtil.DecodeInt64FromKey (be_bytes 8 (n + 2 ^ 63) ++ rest) = Ok n.
Proof.
  intros Hn. destruct (NumberKeys.integer_keys n n [] rest rest) as [H _].
  destruct (H Hn Hn) as (_ & _ & Hd). unfold KeyBytes.AppendInt64 in Hd. by rewrite NumberKeys.int64_key in Hd.
Qed.

Lemma load_int32_key n rest : is_i32 n → load_int32 false (be_bytes 4 (n + 2 ^ 31) ++ rest) = Ok n.
Proof.
  unfold is_i32. intros Hn. unfold load_int32. rewrite NumberKeys.load_be_bytes by lia. cbn [obind]. f_equal.
  change KvUtil.kInt32SignBitFlipMask with (2 ^ (32 - 1)). rewrite sign_flip_back by lia. change (32 - 1) with 31.
  unfold i32. case_test.
  - replace (n + 2 ^ 31 + 2 ^ 31 + 2 ^ 31) with (n + 2 ^ 31 + 1 * 2 ^ 32) by lia. rewrite Z_mod_plus_full, Z.mod_small; lia.
  - rewrite Z.mod_small; lia.
Qed.

Lemma load_int32_descending l n : load_int32 false l = Ok n → load_int32 true l = Ok (Z.lnot n).
Proof. unfold load_int32. destruct (KvUtil.Load 4 l); try done. cbn [obind]. by intros [= ->]. Qed.

(** Numbers of fixed width: the code is the big-endian form of a number [f n], where [f] is increasing
    for the ascending types and decreasing for the descending ones. *)
Ltac fixed load store x :=
  eapply (coded_fixed _ _ _ load store x);
  [apply be_bytes_ok|apply length_be_bytes|done|intros key; cbn [AppendToKey value_type]; f_equal| |done|done].

Lemma coded_int64 (ty : ValueType.t) n :
  is_i64 n →
  (ty = kInt64 ∨ ty = kArrayIndex → coded (int64_val_ ty n) (be_bytes 8 (n + 2 ^ 63))) ∧
  coded (int64_val_ kInt64Descending n) (be_bytes 8 (- 1 - n + 2 ^ 63)) ∧
  coded (timestamp_val_ kTimestamp n) (be_bytes 8 (n + 2 ^ 63)) ∧
  coded (timestamp_val_ kTimestampDescending n) (be_bytes 8 (- 1 - n + 2 ^ 63)).
Proof.
  intros Hn. assert (is_i64 (- 1 - n)) as Hm by (unfold is_i64 in *; lia).
  assert (∀ rest, load_int64 false (be_bytes 8 (n + 2 ^ 63) ++ rest) = Ok n) as L1.
  { intros. unfold load_int64. by rewrite decode_int64_key. }
  assert (∀ rest, load_int64 true (be_bytes 8 (- 1 - n + 2 ^ 63) ++ rest) = Ok n) as L2.
  { intros. unfold load_int64. rewrite decode_int64_key by done. cbn [obind]. f_equal. rewrite lnot_minus. lia. }
  split_and!.
  - intros [-> | ->]; [fixed (load_int64 false) (int64_val_ kInt64) n|fixed (load_int64 false) (int64_val_ kArrayIndex) n];
      try done; by apply NumberKeys.int64_key.
  - fixed (load_int64 true) (int64_val_ kInt64Descending) n; [|done].
    unfold KeyBytes.AppendDescendingInt64. rewrite lnot_minus. by apply NumberKeys.int64_key.
  - fixed (load_int64 false) (timestamp_val_ kTimestamp) n; [|done]. by apply NumberKeys.int64_key.
  - fixed (load_int64 true) (timestamp_val_ kTimestampDescending) n; [|done].
    unfold KeyBytes.AppendDescendingInt64. rewrite lnot_minus. by apply NumberKeys.int64_key.
Qed.

Lemma coded_int32 (ty : ValueType.t) n :
  is_i32 n →
  (ty = kInt32 ∨ ty = kWriteId → coded (int32_val_ ty n) (be_bytes 4 (n + 2 ^ 31))) ∧
  coded (int32_val_ kInt32Descending n) (be_bytes 4 (- 1 - n + 2 ^ 31)).
Proof.
  intros Hn. assert (is_i32 (- 1 - n)) as Hm by (unfold is_i32 in *; lia). split.
  - intros [-> | ->]; [fixed (load_int32 false) (int32_val_ kInt32) n|fixed (load_int32 false) (int32_val_ kWriteId) n];
      try (by apply NumberKeys.int32_key); intros; by apply load_int32_key.
  - fixed (load_int32 true) (int32_val_ kInt32Descending) n.
    + unfold KeyBytes.AppendDescendingInt32. rewrite lnot_minus. by apply NumberKeys.int32_key.
    + intros rest. rewrite (load_int32_descending _ (- 1 - n)) by (by apply load_int32_key). f_equal. rewrite lnot_minus. lia.
Qed.

Lemma coded_uint32 (ty : ValueType.t) n :
  is_u32 n →
  (ty = kPgTableOid ∨ ty = kUInt32 → coded (uint32_val_ ty n) (be_bytes 4 n)) ∧
  coded (uint32_val_ kUInt32Descending n) (be_bytes 4 (2 ^ 32 - 1 - n)).
Proof.
  unfold is_u32. intros Hn. split.
  - intros [-> | ->]; [fixed (load_uint32 false) (uint32_val_ kPgTableOid) n|fixed (load_uint32 false) (uint32_val_ kUInt32) n];
      try done; intros; unfold load_uint32; by rewrite NumberKeys.load_be_bytes by lia.
  - fixed (load_uint32 true) (uint32_val_ kUInt32Descending) n.
    + unfold KeyBytes.AppendDescendingUInt32, DocKvUtil.AppendUInt32ToKey, KvUtil.Store, u32. by rewrite lnot_wrap.
    + intros. unfold load_uint32. rewrite NumberKeys.load_be_bytes by lia. cbn [obind]. f_equal. unfold u32. rewrite lnot_wrap; lia.
Qed.

Lemma coded_uint64 n :
  is_u64 n →
  coded (uint64_val_ kUInt64 n) (be_bytes 8 n) ∧
  coded (uint64_val_ kUInt64Descending n) (be_bytes 8 (2 ^ 64 - 1 - n)).
Proof.
  unfold is_u64. intros Hn. split.
  - fixed (load_uint64 false) (uint64_val_ kUInt64) n. intros; unfold load_uint64. by rewrite NumberKeys.load_be_bytes by lia.
  - fixed (load_uint64 true) (uint64_val_ kUInt64Descending) n.
    + unfold KeyBytes.AppendDescendingUInt64, DocKvUtil.AppendUInt64ToKey, KvUtil.Store, u64. by rewrite lnot_wrap.
    + intros. unfold load_uint64. rewrite NumberKeys.load_be_bytes by lia. cbn [obind]. f_equal. unfold u64. rewrite lnot_wrap; lia.
Qed.

Lemma coded_uint16 n : is_u16 n → coded (uint16_val_ kUInt16Hash n) (be_bytes 2 n).
Proof.
  unfold is_u16. intros Hn. fixed (KvUtil.Load 2) (uint16_val_ kUInt16Hash) n.
  - unfold KeyBytes.AppendUInt16, DocKvUtil.AppendUInt16ToKey, KvUtil.Store, u16. by rewrite Z.mod_small by lia.
  - intros. by rewrite NumberKeys.load_be_bytes by lia.
Qed.

Definition float_code (w : Z) (descending : bool) (n : Z) : Z :=
  if descending then 2 ^ w - 1 - float_key w n else float_key w n.

Lemma coded_double n :
  is_u64 n →
  coded (double_val_ kDouble n) (be_bytes 8 (float_code 64 false n)) ∧
  coded (double_val_ kDoubleDescending n) (be_bytes 8 (float_code 64 true n)).
Proof.
  intros Hn. assert (∀ desc rest, KvUtil.DecodeDoubleFromKey (be_bytes 8 (float_code 64 desc n) ++ rest) desc = Ok n) as Hd.
  { intros desc rest. destruct (NumberKeys.floating_point_keys n n [] rest rest desc) as [H _].
    destruct (H Hn Hn) as [_ Hd]. by rewrite NumberKeys.double_key in Hd. }
  split.
  - fixed (λ s, KvUtil.DecodeDoubleFromKey s false) (double_val_ kDouble) n; [|apply Hd]. by apply NumberKeys.double_key.
  - fixed (λ s, KvUtil.DecodeDoubleFromKey s true) (double_val_ kDoubleDescending) n; [|apply Hd]. by apply NumberKeys.double_key.
Qed.

Lemma coded_float n :
  is_u32 n →
  coded (float_val_ kFloat n) (be_bytes 4 (float_code 32 false n)) ∧
  coded (float_val_ kFloatDescending n) (be_bytes 4 (float_code 32 true n)).
Proof.
  intros Hn. assert (∀ desc rest, KvUtil.DecodeFloatFromKey (be_bytes 4 (float_code 32 desc n) ++ rest) desc = Ok n) as Hd.
  { intros desc rest. destruct (NumberKeys.floating_point_keys n n [] rest rest desc) as [_ H].
    destruct (H Hn Hn) as [_ Hd]. by rewrite NumberKeys.float_key_bytes in Hd. }
  split.
  - fixed (λ s, KvUtil.DecodeFloatFromKey s false) (float_val_ kFloat) n; [|apply Hd]. by apply NumberKeys.float_key_bytes.
  - fixed (λ s, KvUtil.DecodeFloatFromKey s true) (float_val_ kFloatDescending) n; [|apply Hd]. by apply NumberKeys.float_key_bytes.
Qed.

Lemma AppendDecimalDescending_app x key : KeyBytes.AppendDecimalDescending x key = key ++ KeyBytes.AppendDecimalDescending x [].
Proof. unfold KeyBytes.AppendDecimalDescending. by case_test. Qed.

Lemma AppendVarIntDescending_app x key : KeyBytes.AppendVarIntDescending x key = key ++ KeyBytes.AppendVarIntDescending x [].
Proof. unfold KeyBytes.AppendVarIntDescending. by case_test. Qed.

Lemma decimal_bytes d x : Decimal.wf d → Decimal.EncodeToComparable d = Ok x → bytes_ok x.
Proof. intros Hd E. destruct (Decimal.encode_first d x Hd E) as (? & ? & -> & ? & ? & _). by constructor. Qed.

Lemma varint_bytes v x : VarInt.EncodeToComparable 0 v = Ok x → bytes_ok x.
Proof. rewrite VarInt.encode_be by lia. intros [= <-]. apply be_bytes_ok. Qed.

(** Decoding the number in the key and changing its sign gives the number that was encoded. *)
Lemma decimal_back d d' x :
  Decimal.wf d → Decimal.EncodeToComparable d = Ok x → Decimal.equiv d' (opposite d) →
  Decimal.EncodeToComparable (Decimal.Negate d') = Ok x.
Proof.
  intros Hd E (E1 & E2 & E3). unfold opposite in *. case_bool_decide as Hz.
  - rewrite Decimal.encode_zero in * by (done || (cbn [Decimal.Negate Decimal.digits_]; congruence)). done.
  - rewrite <- E. apply Decimal.encode_equiv. unfold Decimal.equiv. cbn [Decimal.Negate Decimal.digits_ Decimal.exponent_ Decimal.is_positive_] in *.
    rewrite E3. by destruct (Decimal.is_positive_ d).
Qed.

Lemma coded_decimal s :
  decimal_code s →
  coded (decimal_val_ kDecimal s) s ∧ coded (decimal_val_ kDecimalDescending s) (KeyBytes.AppendDecimalDescending s []).
Proof.
  intros (d & Hd & E). pose proof (decimal_descending d s Hd E) as Ed. split.
  - split; [by eapply decimal_bytes|]. split; intros.
    + cbn [AppendToKey value_type]. unfold KeyBytes.AppendDecimal. by rewrite append_type, <- app_assoc.
    + destruct (Decimal.decimal_decode_encode d s rest Hd E) as (d' & E' & He). unfold DecodeScalar, decode_decimal. cbn [value_type].
      rewrite E'. cbn [obind]. rewrite bool_decide_false, (Decimal.encode_equiv d' d He), E by done.
      destruct out; cbn [obind]; by rewrite remove_prefix_app.
  - split; [by eapply decimal_bytes, Ed; apply opposite_wf|]. split; intros.
    + cbn [AppendToKey value_type]. by rewrite AppendDecimalDescending_app, append_type, <- app_assoc.
    + destruct (Decimal.decimal_decode_encode _ _ rest (opposite_wf d Hd) Ed) as (d' & E' & He).
      unfold DecodeScalar, decode_decimal. cbn [value_type].
      rewrite E'. cbn [obind]. rewrite bool_decide_true, (decimal_back d d' s) by done.
      destruct out; cbn [obind]; by rewrite remove_prefix_app.
Qed.

Lemma varint_encode_value v w : BN_value v = BN_value w → VarInt.EncodeToComparable 0 v = VarInt.EncodeToComparable 0 w.
Proof. intros E. rewrite !VarInt.encode_be by lia. by rewrite E. Qed.

Lemma coded_varint s :
  varint_code s →
  coded (varint_val_ kVarInt s) s ∧ coded (varint_val_ kVarIntDescending s) (KeyBytes.AppendVarIntDescending s []).
Proof.
  intros (n & E). pose proof (varint_descending n s E) as Ed. split.
  - split; [by eapply varint_bytes|]. split; intros.
    + cbn [AppendToKey value_type]. unfold KeyBytes.AppendVarInt. by rewrite append_type, <- app_assoc.
    + destruct (VarInt.varint_decode_encode 0 n s rest ltac:(lia) E) as (m & E' & He). unfold DecodeScalar, decode_varint. cbn [value_type].
      rewrite E'. cbn [obind]. rewrite bool_decide_false, (varint_encode_value m n He), E by done.
      destruct out; cbn [obind]; by rewrite remove_prefix_app.
  - split; [by eapply varint_bytes, Ed|]. split; intros.
    + cbn [AppendToKey value_type]. by rewrite AppendVarIntDescending_app, append_type, <- app_assoc.
    + destruct (VarInt.varint_decode_encode 0 _ _ rest ltac:(lia) Ed) as (m & E' & He). unfold DecodeScalar, decode_varint. cbn [value_type].
      rewrite E'. cbn [obind]. rewrite bool_decide_true, (varint_encode_value (VarInt.Negate m) n), E by (done || rewrite VarInt.Negate_spec in *; lia).
      destruct out; cbn [obind]; by rewrite remove_prefix_app.
Qed.

Lemma coded_inet a l :
  bytes_ok l → InetAddress.FromBytes l = Ok a →
  coded (inetaddress_val_ kInetaddress a) (StringKeys.enc_str 0 l ++ [0; 0]) ∧
  coded (inetaddress_val_ kInetaddressDescending a) (StringKeys.enc_str 255 l ++ [255; 255]).
Proof.
  intros Hl Ha. pose proof (InetAddress.FromBytes_ToBytes l a Ha) as Hb.
  split; (split; [apply enc_str_ok; [by (left + right)|done]|]); split; intros.
  - cbn [AppendToKey value_type]. unfold address_bytes. rewrite Hb. cbn [obind]. by rewrite append_type, StringKeys.append_string, <- app_assoc.
  - unfold DecodeScalar, decode_inetaddress, DocKvUtil.DecodeZeroEncodedStrSlice. cbn [value_type].
    rewrite <- app_assoc, bool_decide_false, StringKeys.decode_encoded_str by (done || by left). cbn [obind app].
    rewrite Ha. by destruct out.
  - cbn [AppendToKey value_type]. unfold address_bytes. rewrite Hb. cbn [obind]. by rewrite append_type, StringKeys.append_descending_string, <- app_assoc.
  - unfold DecodeScalar, decode_inetaddress, DocKvUtil.DecodeComplementZeroEncodedStr. cbn [value_type].
    rewrite <- app_assoc, bool_decide_true, StringKeys.decode_encoded_str by (done || by right). cbn [obind app].
    rewrite Ha. by destruct out.
Qed.

Lemma uuid_bytes u : Uuid.wf u → bytes_ok (Uuid.EncodeToComparable u).
Proof.
  intros Hu. destruct (Uuid.wf_bytes u Hu) as (b0 & b1 & b2 & b3 & b4 & b5 & b6 & b7 & l & -> & _ & Hb & Hl).
  apply Forall_app. split; [|done]. case_test; [|by apply Uuid.version_first].
  unfold Uuid.ToTimestampBytes, Uuid.at_. cbn [nth]. rewrite !Forall_cons in *. naive_solver.
Qed.

Lemma coded_uuid (ty : ValueType.t) u :
  Uuid.wf u →
  (ty = kTransactionId ∨ ty = kTableId ∨ ty = kUuid →
     coded (uuid_val_ ty u) (StringKeys.enc_str 0 (Uuid.EncodeToComparable u) ++ [0; 0])) ∧
  coded (uuid_val_ kUuidDescending u) (StringKeys.enc_str 255 (Uuid.EncodeToComparable u) ++ [255; 255]).
Proof.
  intros Hu. pose proof (uuid_bytes u Hu) as Hl. pose proof (Uuid.uuid_decode_encode u Hu) as Hd. split.
  - intros Hty. split; [apply enc_str_ok; [by left|done]|]. split; intros.
    + rewrite <- (app_nil_r key) at 1.
      transitivity (Ok (KeyBytes.AppendString (Uuid.EncodeToComparable u) (KeyBytes.AppendValueType ty key))).
      { rewrite app_nil_r. by destruct Hty as [->|[->| ->]]. }
      rewrite append_type by (by destruct Hty as [->|[->| ->]]). by rewrite StringKeys.append_string, <- app_assoc.
    + transitivity (decode_uuid out ty ((StringKeys.enc_str 0 (Uuid.EncodeToComparable u) ++ [0; 0]) ++ rest)).
      { by destruct Hty as [->|[->| ->]]. }
      unfold decode_uuid, DocKvUtil.DecodeZeroEncodedStrSlice.
      rewrite <- app_assoc, bool_decide_false, StringKeys.decode_encoded_str
        by (done || (by left) || (by destruct Hty as [->|[->| ->]])). cbn [obind app].
      rewrite Hd. by destruct out.
  - split; [apply enc_str_ok; [by right|done]|]. split; intros.
    + cbn [AppendToKey value_type]. by rewrite append_type, StringKeys.append_descending_string, <- app_assoc.
    + unfold DecodeScalar, decode_uuid, DocKvUtil.DecodeComplementZeroEncodedStr. cbn [value_type].
      rewrite <- app_assoc, bool_decide_true, StringKeys.decode_encoded_str by (done || by right). cbn [obind app].
      rewrite Hd. by destruct out.
Qed.

Lemma coded_column_id (ty : ValueType.t) n :
  0 <= n < 2 ^ 31 → ty = kColumnId ∨ ty = kSystemColumnId → coded (column_id_val_ ty n) (FastEncodeSignedVarInt n).
Proof.
  intros Hn Hty. assert (is_i64 n) as Hi by (unfold is_i64; lia). split; [by apply encode_signed_ok|]. split; intros.
  - transitivity (Ok (KeyBytes.AppendColumnId n (KeyBytes.AppendValueType ty key))); [by destruct Hty as [->| ->]|].
    rewrite append_type by (by destruct Hty as [->| ->]). unfold KeyBytes.AppendColumnId, DocKvUtil.AppendColumnIdToKey, FastAppendSignedVarIntToBuffer.
    by rewrite <- app_assoc.
  - transitivity (decode_column_id out ty (FastEncodeSignedVarInt n ++ rest)); [by destruct Hty as [->| ->]|].
    unfold decode_column_id, FastDecodeSignedVarIntSlice. rewrite decode_signed_encode by done. cbn [obind].
    rewrite Nat2Z.id, drop_app_length. unfold ColumnId.FromInt64.
    destruct (Z.ltb_spec (2 ^ 31 - 1) n), (Z.ltb_spec n 0); lia || done.
Qed.

Lemma coded_hybrid_time d enc :
  DocHybridTime.wf d → DocHybridTime.EncodedInDocDbFormat d = Ok enc → coded (hybrid_time_val_ kHybridTime d) enc.
Proof.
  intros Hd E. split; [by eapply DocHybridTime.encoded_ok|]. split; intros.
  - cbn [AppendToKey value_type]. unfold DocHybridTime.AppendEncodedInDocDbFormat. rewrite E. cbn [obind].
    by rewrite append_type, <- app_assoc.
  - unfold DecodeScalar. cbn [value_type]. by rewrite (DocHybridTime.decode_encoded d rest enc).
Qed.

Lemma coded_intent_types n : IntentTypeSet.wf n → coded (uint16_val_ kIntentTypeSet n) [n].
Proof.
  unfold IntentTypeSet.wf. change IntentType.kIntentTypeSetMapSize with 16. intros Hn.
  split; [constructor; [unfold is_u8; lia|constructor]|]. split; [|done]. intros.
  cbn [AppendToKey value_type]. rewrite append_type by done. unfold IntentTypeSet.of_value, u8.
  change IntentType.kIntentTypeSetMapSize with 16. by rewrite (Z.mod_small n 16), Z.mod_small, <- app_assoc by lia.
Qed.

(** The code of a value after its type. *)
Definition body (v : t) : bytes := match ToKeyBytes v with Ok (_ :: l) => l | _ => [] end.

Lemma body_coded v l : coded v l → body v = l.
Proof. intros (_ & H & _). unfold body, ToKeyBytes. by rewrite (H []). Qed.

Lemma scalar_coded v : wf_scalar v → coded v (body v).
Proof.
  intros Hv. enough (∃ l, coded v l) as [l Hl] by (by rewrite (body_coded v l)).
  destruct v as [ty|ty n|ty n|ty n|ty n|ty n|ty d|ty s|ty n|ty n|ty n|ty a|ty u|ty l|ty n|ty s|ty s|ty s]; cbn [wf_scalar] in Hv.
  - destruct Hv. eexists. by apply coded_bare.
  - destruct (coded_int32 ty n) as [H1 H2]; [by destruct ty|]. destruct ty; try done; eauto.
  - destruct (coded_uint32 ty n) as [H1 H2]; [by destruct ty|]. destruct ty; try done; eauto.
  - destruct (coded_int64 ty n) as (H1 & H2 & _); [by destruct ty|]. destruct ty; try done; eauto.
  - destruct (coded_uint64 n) as [H1 H2]; [by destruct ty|]. destruct ty; try done; eauto.
  - destruct ty; try done; eexists; [by apply coded_intent_types|by apply coded_uint16].
  - destruct ty; try done. destruct (DocHybridTime.encoded_form d Hv) as (s & _ & _ & E & _). eexists. by apply coded_hybrid_time.
  - destruct (coded_str s) as [H1 H2]; [by destruct ty|]. destruct ty; try done; eauto.
  - destruct (coded_float n) as [H1 H2]; [by destruct ty|]. destruct ty; try done; eauto.
  - destruct (coded_double n) as [H1 H2]; [by destruct ty|]. destruct ty; try done; eauto.
  - destruct (coded_int64 ty n) as (_ & _ & H1 & H2); [by destruct ty|]. destruct ty; try done; eauto.
  - assert (inet a) as (l & Hl & Ha) by (by destruct ty). destruct (coded_inet a l Hl Ha) as [H1 H2]. destruct ty; try done; eauto.
  - destruct (coded_uuid ty u) as [H1 H2]; [by destruct ty|]. destruct ty; try done; eauto.
  - by destruct ty.
  - eexists. apply coded_column_id; destruct ty; try done; auto.
  - destruct (coded_decimal s) as [H1 H2]; [by destruct ty|]. destruct ty; try done; eauto.
  - destruct (coded_varint s) as [H1 H2]; [by destruct ty|]. destruct ty; try done; eauto.
  - by destruct ty.
Qed.

(** ** Order of scalars *)

(** The values whose keys [CompareTo] orders: no NaN and no negative zero, no UUID of a version that
    Boost does not know, no table or transaction identifier. *)
Definition ordered_scalar (v : t) : Prop :=
  match v with
  | float_val_ _ n => IsNanFloat n = false ∧ n ≠ 2 ^ 31
  | double_val_ _ n => IsNanDouble n = false ∧ n ≠ 2 ^ 63
  | uuid_val_ ty u => (ty = kUuid ∨ ty = kUuidDescending) ∧ 0 <= Uuid.at_ u 6 / 16 <= 5
  | _ => True
  end.

Lemma float_order w a b :
  1 <= w → 0 <= a → 0 <= b → a ≠ 2 ^ (w - 1) → b ≠ 2 ^ (w - 1) →
  (float_key w a ?= float_key w b) = compare_using (magnitude w a <? magnitude w b) (magnitude w b <? magnitude w a).
Proof.
  intros Hw ? ? Ha Hb. rewrite !float_key_rank, NumberKeys.compare_add by done.
  transitivity (magnitude w a ?= magnitude w b); [|symmetry; apply compare_using_ltb].
  unfold float_rank, magnitude.
  repeat case_test; (match goal with |- (?x ?= ?y) = _ => destruct (Z.compare_spec x y) end); symmetry;
    first [done | (apply Z.compare_eq_iff || apply Z.compare_lt_iff || apply Z.compare_gt_iff); lia].
Qed.

Lemma follows_float w (n : nat) a b :
  w = 8 * Z.of_nat n → 1 <= w → 0 <= a < 2 ^ w → 0 <= b < 2 ^ w → a ≠ 2 ^ (w - 1) → b ≠ 2 ^ (w - 1) →
  let c a b := compare_using (magnitude w a <? magnitude w b) (magnitude w b <? magnitude w a) in
  follows (c a b) (be_bytes n (float_code w false a)) (be_bytes n (float_code w false b)) ∧
  follows (c b a) (be_bytes n (float_code w true a)) (be_bytes n (float_code w true b)).
Proof.
  intros -> Hw Ha Hb Hna Hnb. cbv zeta. pose proof (float_key_range _ a Hw Ha). pose proof (float_key_range _ b Hw Hb).
  split; rewrite <- float_order by (done || lia); unfold float_code.
  - by apply follows_be.
  - rewrite <- (NumberKeys.compare_sub_rev _ _ (2 ^ (8 * Z.of_nat n) - 1)). apply follows_be; lia.
Qed.

Lemma double_lt_magnitude a b :
  IsNanDouble a = false → IsNanDouble b = false →
  CompareUsingLessThan double_lt a b = compare_using (magnitude 64 a <? magnitude 64 b) (magnitude 64 b <? magnitude 64 a).
Proof. intros Ha Hb. unfold CompareUsingLessThan, double_lt. by rewrite Ha, Hb. Qed.

Lemma float_lt_magnitude a b :
  IsNanFloat a = false → IsNanFloat b = false →
  CompareUsingLessThan float_lt a b = compare_using (magnitude 32 a <? magnitude 32 b) (magnitude 32 b <? magnitude 32 a).
Proof. intros Ha Hb. unfold CompareUsingLessThan, float_lt. by rewrite Ha, Hb. Qed.

Lemma compare_type (a b : t) : value_type a = value_type b → CompareUsingLessThan Z.ltb (value_type a) (value_type b) = Eq.
Proof. intros ->. by rewrite compare_using_ltb, Z.compare_refl. Qed.

Lemma follows_inverted n a b c :
  0 <= c - a < 2 ^ (8 * Z.of_nat n) → 0 <= c - b < 2 ^ (8 * Z.of_nat n) →
  follows (b ?= a) (be_bytes n (c - a)) (be_bytes n (c - b)).
Proof. intros. rewrite <- (NumberKeys.compare_sub_rev a b c). by apply follows_be. Qed.

Lemma follows_shifted n a b c :
  0 <= a + c < 2 ^ (8 * Z.of_nat n) → 0 <= b + c < 2 ^ (8 * Z.of_nat n) →
  follows (a ?= b) (be_bytes n (a + c)) (be_bytes n (b + c)).
Proof. intros. rewrite <- (NumberKeys.compare_add a b c). by apply follows_be. Qed.

Lemma uuid_compare u w :
  Uuid.wf u → Uuid.wf w → 0 <= Uuid.at_ u 6 / 16 <= 5 → 0 <= Uuid.at_ w 6 / 16 <= 5 →
  CompareUsingLessThan Uuid.lt u w = bytes_compare (Uuid.EncodeToComparable u) (Uuid.EncodeToComparable w).
Proof.
  intros Hu Hw Hvu Hvw. pose proof (Uuid.uuid_encode_compare u w [] [] Hu Hw Hvu Hvw) as H. rewrite !app_nil_r in H. rewrite H.
  unfold CompareUsingLessThan, compare_using. by repeat case_test.
Qed.

Lemma inet_compare a b la lb :
  InetAddress.FromBytes la = Ok a → InetAddress.FromBytes lb = Ok b →
  CompareUsingLessThan InetAddress.lt a b = bytes_compare la lb.
Proof.
  intros Ha Hb. unfold CompareUsingLessThan. rewrite (InetAddress.lt_bytes_of a b la lb), (InetAddress.lt_bytes_of b a lb la) by done.
  apply compare_using_bytes.
Qed.

(** The type of a well-formed value determines the member of the union. *)
Definition member (v : t) : nat :=
  match v with
  | complex_data_structure_ _ => 0 | int32_val_ _ _ => 1 | uint32_val_ _ _ => 2 | int64_val_ _ _ => 3
  | uint64_val_ _ _ => 4 | uint16_val_ _ _ => 5 | hybrid_time_val_ _ _ => 6 | str_val_ _ _ => 7 | float_val_ _ _ => 8
  | double_val_ _ _ => 9 | timestamp_val_ _ _ => 10 | inetaddress_val_ _ _ => 11 | uuid_val_ _ _ => 12
  | frozen_val_ _ _ => 13 | column_id_val_ _ _ => 14 | decimal_val_ _ _ => 15 | varint_val_ _ _ => 16 | json_val_ _ _ => 17
  end.

Definition member_of_type (ty : ValueType.t) : nat :=
  match ty with
  | kInt32 | kInt32Descending | kWriteId => 1 | kPgTableOid | kUInt32 | kUInt32Descending => 2
  | kInt64 | kInt64Descending | kArrayIndex => 3 | kUInt64 | kUInt64Descending => 4 | kUInt16Hash | kIntentTypeSet => 5
  | kHybridTime => 6 | kString | kStringDescending => 7 | kFloat | kFloatDescending => 8 | kDouble | kDoubleDescending => 9
  | kTimestamp | kTimestampDescending => 10 | kInetaddress | kInetaddressDescending => 11
  | kTransactionId | kTableId | kUuid | kUuidDescending => 12 | kFrozen | kFrozenDescending => 13
  | kColumnId | kSystemColumnId => 14 | kDecimal | kDecimalDescending => 15 | kVarInt | kVarIntDescending => 16 | _ => 0
  end.

Lemma member_type v : wf_scalar v → member v = member_of_type (value_type v).
Proof. destruct v as [ty|ty|ty|ty|ty|ty|ty|ty|ty|ty|ty|ty|ty|ty|ty|ty|ty|ty]; cbn [wf_scalar]; destruct ty; try done; by intros [? ?]. Qed.

(** Two codes of the same type, by the codes and the comparison of the values. *)
Lemma order_of c v w l l' :
  coded v l → coded w l' → value_type v = value_type w → CompareTo v w = Ok c → follows c l l' →
  ∃ c, CompareTo v w = Ok c ∧ follows c (body v) (body w).
Proof. intros Hv Hw _ Hc Hf. exists c. by rewrite (body_coded v l Hv), (body_coded w l' Hw). Qed.

Ltac by_order := eapply order_of; [by eauto|by eauto|done|reflexivity|rewrite ?compare_using_ltb].

Ltac follows_signed n m :=
  first [apply follows_shifted; lia | rewrite <- (NumberKeys.compare_sub_rev n m (-1)); apply follows_shifted; lia].

Lemma integer_order v w :
  wf_scalar v → wf_scalar w → value_type v = value_type w → member v = member w → (1 ≤ member v ≤ 5 ∨ member v = 10 ∨ member v = 14)%nat →
  ∃ c, CompareTo v w = Ok c ∧ follows c (body v) (body w).
Proof.
  intros Hv Hw Hty Hm Hr. unfold is_i32, is_i64, is_u32, is_u64, is_u16 in *.
  destruct v as [ty|ty n|ty n|ty n|ty n|ty n|ty d|ty s|ty n|ty n|ty n|ty a|ty u|ty l|ty n|ty s|ty s|ty s]; cbn [member] in *; try (exfalso; lia);
    destruct w as [ty'|ty' m|ty' m|ty' m|ty' m|ty' m|ty' ?|ty' ?|ty' m|ty' m|ty' m|ty' ?|ty' ?|ty' ?|ty' m|ty' ?|ty' ?|ty' ?]; try done;
    cbn [value_type] in Hty; subst ty'; cbn [wf_scalar] in Hv, Hw.
  - destruct (coded_int32 ty n) as [H1 H2]; [by destruct ty|]. destruct (coded_int32 ty m) as [G1 G2]; [by destruct ty|].
    unfold is_i32 in *. destruct ty; try done; by_order; follows_signed n m.
  - destruct (coded_uint32 ty n) as [H1 H2]; [by destruct ty|]. destruct (coded_uint32 ty m) as [G1 G2]; [by destruct ty|].
    unfold is_u32 in *. destruct ty; try done; by_order; (apply follows_be || apply follows_inverted); lia.
  - destruct (coded_int64 ty n) as (H1 & H2 & _); [by destruct ty|]. destruct (coded_int64 ty m) as (G1 & G2 & _); [by destruct ty|].
    unfold is_i64 in *. destruct ty; try done; by_order; follows_signed n m.
  - destruct (coded_uint64 n) as [H1 H2]; [by destruct ty|]. destruct (coded_uint64 m) as [G1 G2]; [by destruct ty|].
    unfold is_u64 in *. destruct ty; try done; by_order; (apply follows_be || apply follows_inverted); lia.
  - destruct ty; try done.
    + pose proof (coded_intent_types n Hv). pose proof (coded_intent_types m Hw). by_order.
      unfold IntentTypeSet.wf in *. change IntentType.kIntentTypeSetMapSize with 16 in *.
      destruct (decide (n = m)) as [->|]; [rewrite Z.compare_refl; apply follows_refl|by apply follows_head].
    + pose proof (coded_uint16 n Hv). pose proof (coded_uint16 m Hw). by_order. unfold is_u16 in *. apply follows_be; lia.
  - destruct (coded_int64 ty n) as (_ & _ & H1 & H2); [by destruct ty|]. destruct (coded_int64 ty m) as (_ & _ & G1 & G2); [by destruct ty|].
    unfold is_i64 in *. destruct ty; try done; by_order; follows_signed n m.
  - pose proof (coded_column_id ty n) as H. pose proof (coded_column_id ty m) as G.
    destruct ty; try done; by_order; intros s t; rewrite encode_signed_compare by (unfold is_i64; lia); by destruct (n ?= m).
Qed.

Lemma string_order (e : Z) s t :
  StringKeys.marker e → bytes_ok s → bytes_ok t →
  follows (if e =? 0 then bytes_compare s t else bytes_compare t s)
    (StringKeys.enc_str e s ++ [e; e]) (StringKeys.enc_str e t ++ [e; e]).
Proof. intros He Hs Ht. exact (follows_str e s t He Hs Ht). Qed.

Lemma scalar_order v w :
  wf_scalar v → wf_scalar w → ordered_scalar v → ordered_scalar w → value_type v = value_type w →
  ∃ c, CompareTo v w = Ok c ∧ follows c (body v) (body w).
Proof.
  intros Hv Hw Ov Ow Hty. assert (member v = member w) as Hm by (rewrite !member_type by done; by rewrite Hty).
  destruct (decide (1 ≤ member v ≤ 5 ∨ member v = 10 ∨ member v = 14)%nat) as [Hr|Hr]; [by apply integer_order|].
  destruct v as [ty|ty n|ty n|ty n|ty n|ty n|ty d|ty s|ty n|ty n|ty n|ty a|ty u|ty l|ty n|ty s|ty s|ty s]; cbn [member] in *; try (exfalso; lia);
    destruct w as [ty'|ty' m|ty' m|ty' m|ty' m|ty' m|ty' d'|ty' s'|ty' m|ty' m|ty' m|ty' a'|ty' u'|ty' ?|ty' m|ty' s'|ty' s'|ty' ?]; try done;
    cbn [value_type] in Hty; subst ty'; cbn [wf_scalar ordered_scalar] in Hv, Hw, Ov, Ow.
  - destruct Hv. pose proof (coded_bare ty). exists Eq. rewrite !(body_coded _ [] (coded_bare ty ltac:(done) ltac:(done))).
    split; [|apply follows_refl]. by destruct ty.
  - destruct ty; try done. destruct (DocHybridTime.encoded_form d Hv) as (? & _ & _ & E & _), (DocHybridTime.encoded_form d' Hw) as (? & _ & _ & E' & _).
    pose proof (coded_hybrid_time d _ Hv E). pose proof (coded_hybrid_time d' _ Hw E'). by_order.
    intros s t. rewrite (DocHybridTime.encoded_compare d d') by done.
    rewrite !DocHybridTime.doc_CompareTo_eq, (Z.compare_antisym (DocHybridTime.hybrid_time_ d)), (Z.compare_antisym (DocHybridTime.write_id_ d)).
    by destruct (DocHybridTime.hybrid_time_ d ?= _), (DocHybridTime.write_id_ d ?= _).
  - destruct (coded_str s) as [H1 H2]; [by destruct ty|]. destruct (coded_str s') as [G1 G2]; [by destruct ty|].
    destruct ty; try done; by_order; [apply (string_order 0)|apply (string_order 255)]; (done || by left) || by right.
  - destruct (coded_float n) as [H1 H2]; [by destruct ty|]. destruct (coded_float m) as [G1 G2]; [by destruct ty|].
    assert (is_u32 n ∧ is_u32 m) as [? ?] by (by destruct ty). destruct Ov, Ow.
    destruct (follows_float 32 4 n m) as [F1 F2]; [done..|]. destruct ty; try done; by_order; by rewrite float_lt_magnitude.
  - destruct (coded_double n) as [H1 H2]; [by destruct ty|]. destruct (coded_double m) as [G1 G2]; [by destruct ty|].
    assert (is_u64 n ∧ is_u64 m) as [? ?] by (by destruct ty). destruct Ov, Ow.
    destruct (follows_float 64 8 n m) as [F1 F2]; [done..|]. destruct ty; try done; by_order; by rewrite double_lt_magnitude.
  - assert (inet a ∧ inet a') as [(la & Hl & Ha) (la' & Hl' & Ha')] by (by destruct ty).
    destruct (coded_inet a la Hl Ha) as [H1 H2], (coded_inet a' la' Hl' Ha') as [G1 G2].
    destruct ty; try done; by_order; erewrite inet_compare by done; [apply (string_order 0)|apply (string_order 255)]; (done || by left) || by right.
  - assert (Uuid.wf u ∧ Uuid.wf u') as [Hu Hu'] by (by destruct ty). destruct Ov as [[-> | ->] Ov], Ow as [_ Ow].
    + destruct (coded_uuid kUuid u Hu) as [H1 _], (coded_uuid kUuid u' Hu') as [G1 _]. by_order.
      rewrite uuid_compare by done. apply (string_order 0); auto using uuid_bytes. by left.
    + destruct (coded_uuid kUuid u Hu) as [_ H1], (coded_uuid kUuid u' Hu') as [_ G1]. by_order.
      rewrite uuid_compare by done. apply (string_order 255); auto using uuid_bytes. by right.
  - destruct (coded_decimal s) as [H1 H2]; [by destruct ty|]. destruct (coded_decimal s') as [G1 G2]; [by destruct ty|].
    destruct ty; try done; destruct Hv as (? & ? & ?), Hw as (? & ? & ?); by_order; eauto using decimal_follows, decimal_descending_follows.
  - destruct (coded_varint s) as [H1 H2]; [by destruct ty|]. destruct (coded_varint s') as [G1 G2]; [by destruct ty|].
    destruct ty; try done; destruct Hv as (? & ?), Hw as (? & ?); by_order; eauto using varint_follows, varint_descending_follows.
Qed.

End Scalars.

(** ** All values in keys *)

Section Keys.
Context {B : BigNum} {HB : BigNumSpec B} {V : UuidVersion} {HV : UuidVersionSpec V} {A : IpAddress} {HA : IpAddressSpec A}.

Definition key_code (v : t) : bytes := match ToKeyBytes v with Ok k => k | _ => [] end.
Definition all_codes (l : list t) : bytes := concat (key_code <$> l).

Definition is_frozen_type (ty : ValueType.t) : Prop := ty = kFrozen ∨ ty = kFrozenDescending.

Lemma AppendToKey_frozen ty l key :
  is_frozen_type ty →
  AppendToKey (frozen_val_ ty l) key =
  let! key := AppendAllToKey l (key ++ [code ty]) in Ok (key ++ [code (group_end ty)]).
Proof.
  intros Hty. assert (∀ l key, (fix go l key_bytes := match l with [] => Ok key_bytes | pv :: l => let! key_bytes := AppendToKey pv key_bytes in go l key_bytes end) l key
    = AppendAllToKey l key) as Hgo.
  { clear. intros l. induction l as [|x l IH]; intros key; [done|]. cbn [AppendAllToKey]. destruct (AppendToKey x key); [apply IH|done..]. }
  destruct Hty as [->| ->]; cbn [AppendToKey value_type]; by rewrite Hgo, append_type.
Qed.

(** The code of a well-formed value starts with its type and can be appended to any key. *)
Definition keyed (v : t) : Prop :=
  bytes_ok (key_code v) ∧ (∃ l, key_code v = code (value_type v) :: l) ∧ ∀ key, AppendToKey v key = Ok (key ++ key_code v).

Lemma keyed_scalar v : wf_scalar v → keyed v ∧ key_code v = code (value_type v) :: body v.
Proof.
  intros Hv. destruct (scalar_coded v Hv) as (Hb & Ha & _). pose proof (Ha []) as H0. cbn [app] in H0.
  assert (key_code v = code (value_type v) :: body v) as E by (unfold key_code, ToKeyBytes; by rewrite H0).
  split; [|done]. unfold keyed. rewrite E. split; [|split; [by eexists|done]]. constructor; [|done].
  assert (value_type v ≠ kMaxByte) as Hm.
  { clear -Hv. destruct v as [ty|ty|ty|ty|ty|ty|ty|ty|ty|ty|ty|ty|ty|ty|ty|ty|ty|ty]; cbn [wf_scalar value_type] in *; intros ->; try done. by destruct Hv. }
  unfold is_u8. by destruct (value_type v).
Qed.

Lemma append_all_keyed l key : Forall keyed l → AppendAllToKey l key = Ok (key ++ all_codes l).
Proof.
  intros Hl. revert key. induction Hl as [|x l (_ & _ & Hx) Hl IH]; intros key; [by rewrite app_nil_r|].
  cbn [AppendAllToKey]. rewrite Hx. cbn [obind]. rewrite IH. unfold all_codes. rewrite fmap_cons. cbn [concat]. by rewrite app_assoc.
Qed.

Lemma keyed_frozen ty l :
  is_frozen_type ty → Forall keyed l →
  keyed (frozen_val_ ty l) ∧ key_code (frozen_val_ ty l) = code ty :: all_codes l ++ [code (group_end ty)].
Proof.
  intros Hty Hl. assert (∀ key, AppendToKey (frozen_val_ ty l) key = Ok (key ++ code ty :: all_codes l ++ [code (group_end ty)])) as Ha.
  { intros key. rewrite AppendToKey_frozen, append_all_keyed by done. cbn [obind]. by rewrite <- !app_assoc. }
  assert (key_code (frozen_val_ ty l) = code ty :: all_codes l ++ [code (group_end ty)]) as E by (unfold key_code, ToKeyBytes; by rewrite Ha).
  split; [|done]. unfold keyed. rewrite E. split; [|split; [by eexists|done]].
  constructor; [by destruct Hty as [->| ->]|]. apply Forall_app. split; [|by destruct Hty as [->| ->]; bytes_done].
  clear -Hl. induction Hl as [|x l (Hx & _) Hl IH]; [constructor|]. unfold all_codes. rewrite fmap_cons. cbn [concat].
  by apply Forall_app.
Qed.

Lemma wf_keyed v : wf v → keyed v.
Proof.
  induction v as [v Hf|ty l IH] using value_ind.
  - rewrite wf_not_frozen by done. intros Hv. by apply keyed_scalar.
  - rewrite wf_frozen. intros [Hty Hl]. apply keyed_frozen; [done|]. rewrite Forall_forall in *. naive_solver.
Qed.

Lemma wf_tag v : wf v → value_type v ≠ kGroupEnd ∧ value_type v ≠ kGroupEndDescending.
Proof.
  intros Hv. destruct (frozen v) eqn:Ef.
  - destruct v; try done. apply wf_frozen in Hv as [Hty _]. cbn [value_type]. by destruct Hty as [->| ->].
  - apply wf_not_frozen in Hv; [|done]. clear Ef.
    destruct v as [ty|ty|ty|ty|ty|ty|ty|ty|ty|ty|ty|ty|ty|ty|ty|ty|ty|ty]; cbn [wf_scalar value_type] in *; split; intros ->; try done; by destruct Hv.
Qed.

(** ** Decoding *)

Definition decodes (v : t) : Prop :=
  ∀ fuel out rest, bytes_ok rest → (2 * length (key_code v) + 1 ≤ fuel)%nat →
    DecodeKey fuel out (key_code v ++ rest) = Ok (stored out v, rest).

Lemma decodes_scalar v : wf_scalar v → decodes v.
Proof.
  intros Hv fuel out rest Hr Hf. destruct (keyed_scalar v Hv) as [_ E]. rewrite E in *. destruct fuel as [|fuel]; [lia|].
  cbn [DecodeKey app]. rewrite enumerator_code. destruct (scalar_coded v Hv) as (_ & _ & Hd).
  specialize (Hd out rest Hr). assert (¬ is_frozen_type (value_type v)) as Hn.
  { clear -Hv. destruct v as [ty|ty|ty|ty|ty|ty|ty|ty|ty|ty|ty|ty|ty|ty|ty|ty|ty|ty]; cbn [wf_scalar value_type] in *; intros [->| ->]; try done; by destruct Hv. }
  destruct (value_type v); try done; exfalso; apply Hn; unfold is_frozen_type; auto.
Qed.

Lemma DecodeFrozen_step fuel out ty acc b rest :
  DecodeFrozen (S fuel) out ty acc (b :: rest) =
  if b =? group_end ty then Ok (stored out (frozen_val_ ty acc), rest)
  else let! (pv, slice) := DecodeKey fuel out (b :: rest) in
       DecodeFrozen fuel out ty (acc ++ match pv with Some v => [v] | None => [] end) slice.
Proof. done. Qed.

Lemma decode_elements ty l fuel out acc rest :
  Forall (λ v, wf v ∧ keyed v ∧ decodes v) l → is_frozen_type ty → bytes_ok rest → (2 * length (all_codes l) + 2 ≤ fuel)%nat →
  DecodeFrozen fuel out ty acc (all_codes l ++ code (group_end ty) :: rest) =
  Ok (stored out (frozen_val_ ty (acc ++ if out then l else [])), rest).
Proof.
  intros Hl Hty Hr. revert fuel acc. induction Hl as [|x l (Hw & (_ & [b Eb] & _) & Hx) Hl IH]; intros fuel acc Hf.
  - destruct fuel as [|fuel]; [lia|]. cbn [all_codes concat fmap list_fmap app]. rewrite DecodeFrozen_step, Z.eqb_refl.
    do 3 f_equal. destruct out; by rewrite ?app_nil_r.
  - assert (all_codes (x :: l) = key_code x ++ all_codes l) as Ec by done. rewrite Ec, length_app in *.
    assert (1 ≤ length (key_code x))%nat by (rewrite Eb; cbn [length]; lia).
    assert (bytes_ok (all_codes l ++ code (group_end ty) :: rest)) as Hrest.
    { apply Forall_app. split; [|constructor; [by destruct Hty as [->| ->]|done]]. clear -Hl.
      induction Hl as [|x l (_ & (Hx & _) & _) Hl IH]; [constructor|]. apply Forall_app. by split. }
    destruct fuel as [|fuel]; [lia|]. rewrite <- app_assoc.
    assert (DecodeKey fuel out (key_code x ++ all_codes l ++ code (group_end ty) :: rest) =
      Ok (stored out x, all_codes l ++ code (group_end ty) :: rest)) as Ed by (apply Hx; [done|lia]).
    rewrite Eb in Ed |- *. rewrite <- app_comm_cons in *. rewrite DecodeFrozen_step, (proj2 (Z.eqb_neq _ _)).
    + rewrite Ed. cbn [obind]. rewrite IH by lia. by destruct out; cbn [stored]; rewrite <- ?app_assoc, ?app_nil_r.
    + intros E%code_inj. destruct (wf_tag x Hw). destruct Hty as [->| ->]; done.
Qed.

Lemma wf_decodes v : wf v → decodes v.
Proof.
  induction v as [v Hf|ty l IH] using value_ind.
  - rewrite wf_not_frozen by done. apply decodes_scalar.
  - intros Hw. pose proof Hw as [Hty Hl]%wf_frozen. assert (Forall keyed l) as Hk by (eapply Forall_impl; [exact Hl|apply wf_keyed]).
    intros fuel out rest Hr Hf. destruct (keyed_frozen ty l Hty Hk) as [_ E]. rewrite E in *. cbn [length] in Hf. rewrite length_app in Hf.
    destruct fuel as [|fuel]; [lia|]. cbn [app DecodeKey]. rewrite enumerator_code.
    transitivity (DecodeFrozen fuel out ty [] ((all_codes l ++ [code (group_end ty)]) ++ rest)); [by destruct Hty as [->| ->]|].
    rewrite <- app_assoc. cbn [app]. rewrite decode_elements; [by destruct out| |done|done|lia].
    rewrite Forall_forall in *. naive_solver.
Qed.

(** ** Order *)

(** Elements of a frozen value have a type between the two end markers. *)
Fixpoint ordered (v : t) : Prop :=
  match v with
  | frozen_val_ ty l =>
      (fix all l := match l with [] => True | x :: l => (ordered x ∧ kGroupEnd < value_type x < kGroupEndDescending) ∧ all l end) l
  | _ => ordered_scalar v
  end.

Definition element (x : t) : Prop := ordered x ∧ kGroupEnd < value_type x < kGroupEndDescending.

Lemma ordered_frozen ty l : ordered (frozen_val_ ty l) ↔ Forall element l.
Proof. cbn [ordered]. induction l as [|x l IH]; [by split|]. by rewrite Forall_cons, <- IH. Qed.

(** The loop of [CompareTo] over two frozen values. *)
Fixpoint compare_all (last : comparison) (k k' : list t) : outcome comparison :=
  match k, k' with
  | pv :: k, pv' :: k' =>
      let! result := CompareTo pv pv' in match result with Eq => compare_all last k k' | _ => Ok result end
  | _, _ => Ok last
  end.

Definition compare_sizes (ty : ValueType.t) (l l' : list t) : comparison :=
  if bool_decide (ty = kFrozenDescending) then Z.of_nat (length l') ?= Z.of_nat (length l)
  else Z.of_nat (length l) ?= Z.of_nat (length l').

Lemma CompareTo_frozen ty l l' :
  is_frozen_type ty → CompareTo (frozen_val_ ty l) (frozen_val_ ty l') = compare_all (compare_sizes ty l l') l l'.
Proof.
  intros Hty. unfold compare_sizes. rewrite <- !compare_using_nat.
  assert (∀ last k k', (fix go k k' := match k, k' with
    | pv :: k, pv' :: k' => let! result := CompareTo pv pv' in match result with Eq => go k k' | _ => Ok result end
    | _, _ => Ok last end) k k' = compare_all last k k') as Hgo.
  { clear. intros last k. induction k as [|x k IH]; intros [|y k']; [done..|]. cbn [compare_all]. destruct (CompareTo x y) as [[]|?| |]; [apply IH|done..]. }
  destruct Hty as [->| ->]; cbn [CompareTo value_type]; rewrite compare_using_ltb, Z.compare_refl; apply Hgo.
Qed.

(** Two values of different types are decided by the types. *)
Lemma types_differ v w :
  keyed v → keyed w → value_type v ≠ value_type w →
  ∃ c, CompareTo v w = Ok c ∧ follows c (key_code v) (key_code w).
Proof.
  intros (_ & [l Ev] & _) (_ & [l' Ew] & _) Hne. assert (code (value_type v) ≠ code (value_type w)) as Hc by (by intros ?%code_inj).
  exists (code (value_type v) ?= code (value_type w)). rewrite Ev, Ew. split; [|by apply follows_head].
  assert (CompareUsingLessThan Z.ltb (code (value_type v)) (code (value_type w)) ≠ Eq) as Hx.
  { rewrite compare_using_ltb. by intros ?%Z.compare_eq. }
  rewrite <- (compare_using_ltb (value_type v)). destruct v; cbn [CompareTo]; by rewrite bool_decide_false.
Qed.

Definition comparable (v w : t) : Prop := ∃ c, CompareTo v w = Ok c ∧ follows c (key_code v) (key_code w).

(** A code of an element against the end marker. *)
Lemma marker_follows ty x l s :
  is_frozen_type ty → keyed x → element x →
  let m := code (group_end ty) in
  follows (if bool_decide (ty = kFrozenDescending) then Gt else Lt) [m] (key_code x ++ l) ∧
  follows (if bool_decide (ty = kFrozenDescending) then Lt else Gt) (key_code x ++ s) [m].
Proof.
  intros Hty (_ & [b Eb] & _) [_ Hx]. rewrite Eb. cbv zeta. rewrite <- !app_comm_cons. destruct Hty as [->| ->];
    [rewrite bool_decide_false by done|rewrite bool_decide_true by done]; cbn [group_end]; split.
  - rewrite <- (proj2 (Z.compare_lt_iff kGroupEnd (value_type x))) by lia. apply follows_head. lia.
  - rewrite <- (proj2 (Z.compare_gt_iff (value_type x) kGroupEnd)) by lia. apply follows_head. lia.
  - rewrite <- (proj2 (Z.compare_gt_iff kGroupEndDescending (value_type x))) by lia. apply follows_head. lia.
  - rewrite <- (proj2 (Z.compare_lt_iff (value_type x) kGroupEndDescending)) by lia. apply follows_head. lia.
Qed.

Lemma compare_sizes_cons ty x y l l' : compare_sizes ty (x :: l) (y :: l') = compare_sizes ty l l'.
Proof.
  unfold compare_sizes. cbn [length]. rewrite !Nat2Z.inj_succ, <- !Z.add_1_r. case_bool_decide; apply NumberKeys.compare_add.
Qed.

Lemma compare_elements ty l l' :
  is_frozen_type ty → Forall (λ x, keyed x ∧ element x ∧ ∀ y, wf y → ordered y → comparable x y) l →
  Forall (λ y, wf y ∧ element y) l' →
  ∃ c, compare_all (compare_sizes ty l l') l l' = Ok c ∧
    follows c (all_codes l ++ [code (group_end ty)]) (all_codes l' ++ [code (group_end ty)]).
Proof.
  intros Hty Hl. revert l'. induction Hl as [|x l (Hk & He & Hx) Hl IH]; intros l' [|y k' [Hw He'] Hl'].
  - eexists. split; [done|]. unfold compare_sizes. rewrite Z.compare_refl. case_bool_decide; apply follows_refl.
  - eexists. split; [done|]. cbn [all_codes concat fmap list_fmap]. rewrite <- app_assoc.
    pose proof (proj1 (marker_follows ty y (concat (key_code <$> k') ++ [code (group_end ty)]) [] Hty (wf_keyed y Hw) He')) as H.
    unfold compare_sizes. by case_bool_decide.
  - eexists. split; [done|]. cbn [all_codes concat fmap list_fmap]. rewrite <- app_assoc.
    pose proof (proj2 (marker_follows ty x [] (concat (key_code <$> l) ++ [code (group_end ty)]) Hty Hk He)) as H.
    unfold compare_sizes. by case_bool_decide.
  - rewrite compare_sizes_cons. cbn [all_codes concat fmap list_fmap]. rewrite <- !app_assoc. cbn [compare_all].
    destruct (Hx y Hw (proj1 He')) as (c & -> & Hc). cbn [obind]. destruct (IH k' Hl') as (d & Ed & Hd).
    pose proof (follows_app c d _ _ _ _ Hc Hd) as Hcd. destruct c; [exists d|exists Lt|exists Gt]; by split.
Qed.

Lemma key_order v w : wf v → wf w → ordered v → ordered w → comparable v w.
Proof.
  revert w. induction v as [v Hf|ty l IH] using value_ind; intros w Hv Hw Ov Ow.
  - destruct (decide (value_type v = value_type w)) as [Hty|Hty]; [|apply types_differ; auto using wf_keyed].
    assert (frozen w = false) as Hfw.
    { destruct w; try done. apply wf_frozen in Hw as [Hw _]. apply wf_not_frozen in Hv; [|done]. pose proof (member_type v Hv) as Hm.
      rewrite Hty in Hm. cbn [value_type] in Hm. destruct Hw as [->| ->]; by destruct v. }
    apply wf_not_frozen in Hv, Hw; [|done..]. destruct (keyed_scalar v Hv) as [_ Ev], (keyed_scalar w Hw) as [_ Ew].
    destruct (scalar_order v w) as (c & Hc & Hfo); [done|done|by destruct v|by destruct w|done|].
    exists c. split; [done|]. rewrite Ev, Ew, Hty. by apply follows_cons.
  - destruct (decide (ty = value_type w)) as [Hty|Hty]; [|apply types_differ; auto using wf_keyed].
    apply wf_frozen in Hv as [Hft Hl]. assert (frozen w = true) as Hfw.
    { destruct (frozen w) eqn:Efw; [done|]. apply wf_not_frozen in Hw; [|done]. pose proof (member_type w Hw) as Hm.
      rewrite <- Hty in Hm. destruct Hft as [->| ->]; by destruct w. }
    destruct w as [| | | | | | | | | | | | |ty' l'| | | |]; try done. cbn [value_type] in Hty. subst ty'.
    apply wf_frozen in Hw as [_ Hl']. apply ordered_frozen in Ov, Ow. unfold comparable. rewrite CompareTo_frozen by done.
    assert (Forall keyed l ∧ Forall keyed l') as [Hk Hk']
      by (split; [eapply Forall_impl, wf_keyed; exact Hl|eapply Forall_impl, wf_keyed; exact Hl']).
    destruct (keyed_frozen ty l Hft Hk) as [_ E], (keyed_frozen ty l' Hft Hk') as [_ E']. rewrite E, E'.
    destruct (compare_elements ty l l') as (c & Hc & Hfo); [done| | |].
    + rewrite Forall_forall in *. intros x Hx. split; [by apply Hk|]. split; [by apply Ov|]. intros y Hy Hoy.
      apply IH; auto. by apply Ov.
    + rewrite Forall_forall in *. auto.
    + exists c. split; [done|]. by apply follows_cons.
Qed.

(** ** Skipping *)

(** Split an outcome that is known to be [Ok] into its steps. *)
Ltac steps H :=
  repeat match type of H with
  | obind ?m _ = Ok _ => let E := fresh "E" in destruct m as [?|?| |] eqn:E; cbn [obind] in H; [|discriminate H..]
  | (let (_, _) := ?x in _) = Ok _ => destruct x
  end.

Lemma fixed_skip n load store slice v r :
  decode_fixed true n load store slice = Ok (v, r) →
  (∃ x, v = Some x) ∧ decode_fixed false n load store slice = Ok (None, r).
Proof.
  unfold decode_fixed. case_test; [done|]. intros H. steps H. injection H as <- <-. split; [by eexists|].
  done.
Qed.

Lemma scalar_skip ty slice v r :
  DecodeScalar true ty slice = Ok (v, r) → (∃ x, v = Some x) ∧ DecodeScalar false ty slice = Ok (None, r).
Proof.
  intros H. destruct ty; try done; cbn [DecodeScalar] in *;
    try (by apply fixed_skip in H);
    try (injection H as <- <-; split; [by eexists|done]);
    unfold decode_str, decode_decimal, decode_varint, decode_inetaddress, decode_raw_uuid, decode_uuid, decode_column_id,
      decode_intent_types in *; try case_test_in H; try done; steps H; injection H as <- <-; (split; [by eexists|]);
    cbn [obind]; repeat match goal with E : ?m = Ok _ |- context [obind ?m _] => rewrite E; cbn [obind] end; try done.
Qed.

(** ** Every slice *)

(** A step that returns, with what is left of its slice. *)
Definition leaves (slice : bytes) {T} (m : outcome (T * bytes)) : Prop :=
  m ≠ Fatal ∧ ∀ v r, m = Ok (v, r) → ∃ p, slice = p ++ r.

Lemma leaves_bind {T U} slice (m : outcome (T * bytes)) (k : T → bytes → outcome (U * bytes)) :
  leaves slice m → (∀ v r, leaves r (k v r)) → leaves slice (let! (v, r) := m in k v r).
Proof.
  intros [Hm Hl] Hk. destruct m as [[v r]|?| |]; [|done..]. cbn [obind]. destruct (Hk v r) as [Hn Hr]. split; [done|].
  intros v' r' E. destruct (Hr _ _ E) as [p ->]. destruct (Hl _ _ eq_refl) as [p' ->]. exists (p' ++ p). by rewrite app_assoc.
Qed.

Lemma leaves_same {T} slice (v : T) : leaves slice (Ok (v, slice)).
Proof. split; [done|]. intros ? ? [= <- <-]. by exists []. Qed.

Lemma leaves_err {T} slice c : leaves (T := T) slice (Err c).
Proof. by split. Qed.

Lemma leaves_drop {T U} slice (m : outcome T) (n : T → nat) (f : T → U) :
  m ≠ Fatal → leaves slice (let! x := m in let! r := Slice.remove_prefix slice (n x) in Ok (f x, r)).
Proof.
  intros Hm. destruct m as [x|?| |]; [|done..]. cbn [obind]. unfold Slice.remove_prefix. case_decide; [|done]. cbn [obind].
  split; [done|]. intros ? ? [= <- <-]. exists (take (n x) slice). by rewrite take_drop.
Qed.

Lemma leaves_string e slice acc : leaves slice (DocKvUtil.DecodeEncodedStr e slice acc).
Proof.
  remember (length slice) as n eqn:En. revert slice acc En. induction n as [n IH] using lt_wf_ind. intros slice acc ->.
  assert (∀ s p acc, slice = p ++ s → p ≠ [] → leaves slice (DocKvUtil.DecodeEncodedStr e s acc)) as Hrec.
  { intros s p acc' -> Hp. destruct (IH (length s)) with (slice := s) (acc := acc') as [H1 H2];
      [rewrite length_app; destruct p; [done|cbn [length]; lia]|done|]. split; [done|]. intros v r E.
    destruct (H2 v r E) as [p' ->]. exists (p ++ p'). by rewrite app_assoc. }
  destruct slice as [|c [|c' p]]; cbn [DocKvUtil.DecodeEncodedStr].
  - apply leaves_same.
  - case_test; [apply leaves_err|]. by apply (Hrec [] [c]).
  - case_test; [|by apply (Hrec (c' :: p) [c])]. case_test; [|case_test; [by apply (Hrec p [c; c'])|apply leaves_err]].
    split; [done|]. intros ? ? [= <- <-]. by exists [c; c'].
Qed.

Lemma leaves_signed_varint slice : leaves slice (FastDecodeSignedVarIntSlice slice).
Proof.
  unfold FastDecodeSignedVarIntSlice, FastDecodeSignedVarInt, decode_signed. destruct slice as [|b l]; [apply leaves_err|].
  destruct (signed_header (b :: l)) as [neg n]. case_test; [apply leaves_err|]. unfold read_loop. cbn [obind]. split; [done|].
  intros ? ? [= <- <-]. eexists. symmetry. apply take_drop.
Qed.

Lemma leaves_descending_varint slice : leaves slice (FastDecodeDescendingSignedVarInt slice).
Proof.
  unfold FastDecodeDescendingSignedVarInt, FastDecodeSignedVarInt, decode_signed. destruct slice as [|b l]; [apply leaves_err|].
  destruct (signed_header (b :: l)) as [neg n]. case_test; [apply leaves_err|]. unfold read_loop. cbn [obind]. case_test; [by split|]. split; [done|].
  intros ? ? [= <- <-]. eexists. symmetry. apply take_drop.
Qed.

Lemma leaves_hybrid_time slice : leaves slice (DocHybridTime.DecodeFrom slice).
Proof.
  unfold DocHybridTime.DecodeFrom. do 4 (apply leaves_bind; [apply leaves_descending_varint|intros]). case_test; [apply leaves_err|].
  unfold DocHybridTime.byte_before. destruct (last _); [|done]. cbn [obind]. case_test; [apply leaves_err|apply leaves_same].
Qed.

Lemma leaves_fixed out n load store slice : (∀ s, load s ≠ Fatal) → leaves slice (decode_fixed out n load store slice).
Proof.
  intros Hl. unfold decode_fixed. case_test; [apply leaves_err|].
  apply (leaves_drop slice (if out then load slice else Ok 0) (λ _, n) (λ v, stored out (store v))). by destruct out.
Qed.

Lemma varint_decode_ends r slice : VarInt.DecodeFromComparable r slice ≠ Fatal.
Proof. pose proof (VarInt.decode_total r slice) as H. by destruct (VarInt.DecodeFromComparable r slice). Qed.

Lemma decimal_decode_ends slice : Decimal.DecodeFromComparable slice ≠ Fatal.
Proof.
  unfold Decimal.DecodeFromComparable. destruct slice as [|first l]; [done|]. case_test; [done|]. cbv zeta.
  set (encoded := if 128 <=? first then _ else _).
  pose proof (varint_decode_ends 2 encoded) as H. destruct (VarInt.DecodeFromComparable 2 encoded) as [[e n]|?| |]; [|done..].
  cbn [obind]. unfold Decimal.DecodeFromDigitPairs. by destruct (Decimal.digit_pairs _) as [[??]|].
Qed.

Lemma leaves_decimal out ty slice : leaves slice (decode_decimal out ty slice).
Proof.
  unfold decode_decimal. pose proof (decimal_decode_ends slice). destruct (Decimal.DecodeFromComparable slice) as [[d n]|?| |]; [|done..].
  cbn [obind]. cbv zeta. set (d' := if bool_decide _ then _ else _). destruct (Decimal.encode_total d') as [x Ex].
  apply (leaves_drop slice (if out then Decimal.EncodeToComparable d' else Ok []) (λ _, n) (λ e, stored out (decimal_val_ ty e))).
  rewrite Ex. by destruct out.
Qed.

Lemma leaves_varint out ty slice : leaves slice (decode_varint out ty slice).
Proof.
  unfold decode_varint. pose proof (varint_decode_ends 0 slice). destruct (VarInt.DecodeFromComparable 0 slice) as [[d n]|?| |]; [|done..].
  cbn [obind]. cbv zeta. set (d' := if bool_decide _ then _ else _).
  apply (leaves_drop slice (if out then VarInt.EncodeToComparable 0 d' else Ok []) (λ _, n) (λ e, stored out (varint_val_ ty e))).
  rewrite VarInt.encode_be by lia. by destruct out.
Qed.

Lemma load_ends n s (f : Z → Z) : (let! v := KvUtil.Load n s in Ok (f v)) ≠ Fatal.
Proof. unfold KvUtil.Load. by case_decide. Qed.

(** Strings of either form, used as they are or turned into something else. *)
Lemma leaves_strings {U} b slice (k : bytes → bytes → outcome (U * bytes)) :
  (∀ s r, leaves r (k s r)) →
  leaves slice (let! (s, r) := if (b : bool) then DocKvUtil.DecodeComplementZeroEncodedStr slice else DocKvUtil.DecodeZeroEncodedStrSlice slice in k s r).
Proof. intros Hk. apply leaves_bind; [|done]. destruct b; apply leaves_string. Qed.

Lemma inet_ends l : InetAddress.FromBytes l ≠ Fatal.
Proof. unfold InetAddress.FromBytes, InetAddress.FromSlice. by repeat case_test. Qed.

Lemma uuid_ends l : Uuid.DecodeFromComparable l ≠ Fatal.
Proof.
  unfold Uuid.DecodeFromComparable, Uuid.DecodeFromComparableSlice. cbv zeta. repeat (case_test; [done|]). unfold byte_at. by destruct (l !! 0%nat).
Qed.

Lemma leaves_raw_uuid out ty slice : leaves slice (decode_raw_uuid out ty slice).
Proof.
  unfold decode_raw_uuid. case_test; [apply leaves_err|].
  apply (leaves_drop slice (if out then Uuid.FromSlice slice Uuid.kUuidSize else Ok []) (λ _, Uuid.kUuidSize) (λ u, stored out (uuid_val_ ty u))).
  destruct out; [|done]. unfold Uuid.FromSlice. by repeat case_test.
Qed.

Lemma leaves_column_id out ty slice : leaves slice (decode_column_id out ty slice).
Proof.
  apply leaves_bind; [apply leaves_signed_varint|]. intros n r. unfold ColumnId.FromInt64. case_test; [apply leaves_err|apply leaves_same].
Qed.

Lemma leaves_intent_types out ty slice : leaves slice (decode_intent_types out ty slice).
Proof. destruct slice as [|b l]; [done|]. split; [done|]. intros ? ? [= <- <-]. by exists [b]. Qed.

Lemma leaves_value {T} slice (m : outcome T) (f : T → option t) : m ≠ Fatal → leaves slice (let! x := m in Ok (f x, slice)).
Proof. intros Hm. destruct m; [|done..]. apply leaves_same. Qed.

Lemma leaves_scalar out ty slice : leaves slice (DecodeScalar out ty slice).
Proof.
  destruct ty; cbn [DecodeScalar];
    first
      [ apply leaves_err | apply leaves_same | apply leaves_decimal | apply leaves_varint | apply leaves_raw_uuid
      | apply leaves_column_id | apply leaves_intent_types
      | apply leaves_strings; intros; apply leaves_same
      | apply leaves_strings; intros; destruct out; [apply leaves_value, inet_ends|apply leaves_same]
      | apply leaves_strings; intros; destruct out; [apply leaves_value, uuid_ends|apply leaves_same]
      | apply leaves_bind; [apply leaves_hybrid_time|intros; apply leaves_same]
      | apply leaves_fixed; intros; unfold load_int64, KvUtil.DecodeInt64FromKey;
        first [apply load_ends | unfold KvUtil.Load; by case_decide] ].
Qed.

(** With [2 * n + 1] calls for a slice of [n] bytes decoding returns, having moved past a byte. *)
Lemma leaves_key fuel out slice :
  ((2 * length slice + 1 ≤ fuel)%nat →
   leaves slice (DecodeKey fuel out slice) ∧
   ∀ v r, DecodeKey fuel out slice = Ok (v, r) → (length r < length slice)%nat) ∧
  (∀ ty acc, (2 * length slice + 2 ≤ fuel)%nat → leaves slice (DecodeFrozen fuel out ty acc slice)).
Proof.
  revert slice. induction fuel as [|fuel IH]; intros slice; (split; [|intros ty acc]); intros Hf; [lia|lia| |].
  - destruct slice as [|b l]; [done|]. cbn [length] in *.
    assert (leaves l (DecodeKey (S fuel) out (b :: l))) as [H1 H2].
    { change (leaves l (match enumerator b with Some ((kFrozenDescending | kFrozen) as value_type) => DecodeFrozen fuel out value_type [] l
        | Some value_type => DecodeScalar out value_type l | None => Err Corruption end)).
      destruct (enumerator b) as [ty|]; [|done]. destruct ty; try apply leaves_scalar; apply (IH l); lia. }
    split.
    + split; [done|]. intros v r E. destruct (H2 v r E) as [p ->]. by exists (b :: p).
    + intros v r E. destruct (H2 v r E) as [p ->]. rewrite length_app. lia.
  - destruct slice as [|b l]; [done|]. rewrite DecodeFrozen_step. case_test.
    { split; [done|]. intros ? ? [= <- <-]. by exists [b]. }
    destruct (IH (b :: l)) as [IHk _]. destruct IHk as [Hk Hlen]; [lia|].
    destruct (DecodeKey fuel out (b :: l)) as [[v r]|?| |]; [|done..|by destruct Hk]. cbn [obind].
    destruct Hk as [_ Hk]. destruct (Hk v r eq_refl) as [p E]. specialize (Hlen v r eq_refl).
    destruct (IH r) as [_ IHf]. destruct (IHf ty (acc ++ match v with Some v => [v] | None => [] end)) as [H1 H2]; [lia|].
    split; [done|]. intros v' r' E'. destruct (H2 v' r' E') as [p' ->]. exists (p ++ p'). by rewrite E, app_assoc.
Qed.

(** Decoding with a null pointer moves as far as decoding into a value. *)
Lemma key_skip fuel slice :
  (∀ v r, DecodeKey fuel true slice = Ok (v, r) → (∃ x, v = Some x) ∧ DecodeKey fuel false slice = Ok (None, r)) ∧
  (∀ ty acc acc' v r, DecodeFrozen fuel true ty acc slice = Ok (v, r) → (∃ x, v = Some x) ∧ DecodeFrozen fuel false ty acc' slice = Ok (None, r)).
Proof.
  revert slice. induction fuel as [|fuel IH]; intros slice; [done|]. destruct slice as [|b l]; [done|]. split.
  - intros v r. cbn [DecodeKey]. destruct (enumerator b) as [ty|]; [|done]. destruct ty; first [apply scalar_skip | apply (IH l)].
  - intros ty acc acc' v r. rewrite !DecodeFrozen_step. case_test; [intros [= <- <-]; split; [by eexists|done]|].
    destruct (DecodeKey fuel true (b :: l)) as [[x s]|?| |] eqn:Ek; [|done..]. cbn [obind]. apply (IH (b :: l)) in Ek as [[y ->] ->].
    cbn [obind]. apply (IH s).
Qed.

(** ** Values *)

(** What a value may hold: the elements of a frozen value are components of keys. *)
Definition wf_value (v : t) : Prop :=
  match v with
  | complex_data_structure_ ty => bare_value ty = true
  | str_val_ kString _ => True
  | int32_val_ (kInt32 | kInt32Descending | kWriteId) n => is_i32 n
  | uint32_val_ (kPgTableOid | kUInt32 | kUInt32Descending) n => is_u32 n
  | int64_val_ (kInt64 | kInt64Descending) n => is_i64 n
  | uint64_val_ (kUInt64 | kUInt64Descending) n => is_u64 n
  | double_val_ (kDouble | kDoubleDescending) n => is_u64 n
  | float_val_ (kFloat | kFloatDescending) n => is_u32 n
  | frozen_val_ (kFrozen | kFrozenDescending) l => Forall wf l
  | decimal_val_ kDecimal s => decimal_code s
  | varint_val_ kVarInt s => varint_code s
  | timestamp_val_ kTimestamp n => is_i64 n
  | inetaddress_val_ kInetaddress a => inet a
  | json_val_ kJsonb _ => True
  | uuid_val_ (kTransactionApplyState | kExternalTransactionId | kTransactionId | kTableId | kUuid) u => Uuid.wf u
  | _ => False
  end.

Lemma load_exact n v : 0 <= v < 2 ^ (8 * Z.of_nat n) → KvUtil.Load n (be_bytes n v) = Ok v.
Proof. intros Hv. rewrite <- (app_nil_r (be_bytes n v)). by apply NumberKeys.load_be_bytes. Qed.

Lemma exactly_be n v k : exactly n (be_bytes n v) k = k.
Proof. unfold exactly. by rewrite length_be_bytes, Nat.eqb_refl. Qed.

Lemma i32_u32 n : is_i32 n → i32 (u32 n) = n.
Proof.
  unfold is_i32, i32, u32. intros Hn. rewrite <- Zplus_mod_idemp_l, Z.mod_mod, Zplus_mod_idemp_l by lia. rewrite Z.mod_small; lia.
Qed.

Lemma frozen_value ty l :
  is_frozen_type ty → Forall wf l →
  ∃ s, ToValue (frozen_val_ ty l) = Ok s ∧ DecodeFromValue s = Ok (frozen_val_ ty l).
Proof.
  intros Hty Hl. assert (Forall keyed l) as Hk by (eapply Forall_impl, wf_keyed; exact Hl).
  exists (code ty :: all_codes l ++ [code (group_end ty)]). split.
  - transitivity (let! key := AppendAllToKey l [code ty] in Ok (KeyBytes.AppendValueType (group_end ty) key)); [by destruct Hty as [->| ->]|].
    rewrite append_all_keyed by done. cbn [obind]. rewrite append_type by (by destruct Hty as [->| ->]). by rewrite <- app_assoc.
  - cbn [DecodeFromValue]. rewrite enumerator_code.
    assert (DecodeFrozen (enough (all_codes l ++ [code (group_end ty)]) + 1) true ty [] (all_codes l ++ [code (group_end ty)]) =
      Ok (Some (frozen_val_ ty l), [])) as E.
    { rewrite (decode_elements ty l _ true [] []); [done| |done|constructor|unfold enough; rewrite length_app; lia].
      eapply Forall_impl; [exact Hl|]. intros x Hx. auto using wf_keyed, wf_decodes. }
    destruct Hty as [->| ->]; by rewrite E.
Qed.

Lemma uuid_length u : Uuid.wf u → length (Uuid.EncodeToComparable u) = 16%nat.
Proof. intros [Hl _]. unfold Uuid.EncodeToComparable. rewrite length_app, length_drop, Hl. by case_test. Qed.

Ltac number w v :=
  match goal with |- ∃ s, ToValue ?x = _ ∧ _ => exists (code (value_type x) :: be_bytes w v) end;
  split; [reflexivity|]; cbn [value_type DecodeFromValue]; rewrite enumerator_code;
  rewrite exactly_be, load_exact by first [lia | by apply Z.mod_pos_bound]; cbn [obind].

Lemma value_decodes v : wf_value v → ∃ s, ToValue v = Ok s ∧ DecodeFromValue s = Ok v.
Proof.
  intros Hv. destruct v as [ty|ty n|ty n|ty n|ty n|ty n|ty d|ty s|ty n|ty n|ty n|ty a|ty u|ty l|ty n|ty s|ty s|ty s]; cbn [wf_value] in Hv.
  - eexists. split; [cbn [ToValue]; by rewrite Hv|]. by destruct ty.
  - destruct ty; try done; number 4%nat (u32 n); by rewrite i32_u32.
  - unfold is_u32 in *. destruct ty; try done; by number 4%nat n.
  - destruct ty; try done; number 8%nat (u64 n); by rewrite i64_u64, i64_small.
  - unfold is_u64 in *. destruct ty; try done; by number 8%nat n.
  - by destruct ty.
  - by destruct ty.
  - destruct ty; try done. by eexists.
  - unfold is_u32 in *. destruct ty; try done; by number 4%nat n.
  - unfold is_u64 in *. destruct ty; try done; by number 8%nat n.
  - destruct ty; try done. number 8%nat (u64 n). by rewrite i64_u64, i64_small.
  - destruct ty; try done. destruct Hv as (l & Hl & Ha). pose proof (InetAddress.FromBytes_ToBytes l a Ha) as Hb. exists (code kInetaddress :: l).
    cbn [ToValue]. unfold address_bytes. rewrite Hb. split; [done|]. cbn [DecodeFromValue]. rewrite enumerator_code.
    unfold InetAddress.FromBytes in Ha. rewrite Ha. unfold InetAddress.FromSlice in Ha. cbn [Nat.eqb] in Ha. rewrite Nat.ltb_irrefl in Ha.
    by destruct (length l =? InetAddress.kInetAddressV4Size)%nat, (length l =? InetAddress.kInetAddressV6Size)%nat.
  - pose proof (uuid_length u) as Hlen. pose proof (Uuid.uuid_decode_encode u) as Hd. unfold Uuid.DecodeFromComparable in Hd.
    destruct ty; try done; (match goal with |- ∃ s, ToValue ?x = _ ∧ _ => exists (code (value_type x) :: Uuid.EncodeToComparable u) end);
      (split; [reflexivity|]); cbn [value_type DecodeFromValue]; rewrite enumerator_code; unfold exactly;
      rewrite Hlen by done; cbn [Uuid.kUuidSize Nat.eqb negb]; by rewrite Hd.
  - apply frozen_value; destruct ty; try done; unfold is_frozen_type; auto.
  - by destruct ty.
  - destruct ty; try done. destruct Hv as (d & Hd & E). exists (code kDecimal :: s). split; [done|]. cbn [DecodeFromValue]. rewrite enumerator_code.
    destruct (Decimal.decimal_decode_encode d s [] Hd E) as (d' & E' & He). rewrite app_nil_r in E'. rewrite E'. cbn [obind].
    by rewrite (Decimal.encode_equiv d' d He), E.
  - destruct ty; try done. destruct Hv as (n & E). exists (code kVarInt :: s). split; [done|]. cbn [DecodeFromValue]. rewrite enumerator_code.
    destruct (VarInt.varint_decode_encode 0 n s [] ltac:(lia) E) as (m & E' & He). rewrite app_nil_r in E'. rewrite E'. cbn [obind].
    by rewrite (varint_encode_value m n He), E.
  - destruct ty; try done. eexists. by split; [reflexivity|].
Qed.

(** The descending types that a value cannot hold. *)
Definition refused_value (ty : ValueType.t) : bool :=
  match ty with
  | kStringDescending | kInetaddressDescending | kDecimalDescending | kVarIntDescending | kUuidDescending | kTimestampDescending => true
  | _ => false
  end.

Lemma value_refused v s : refused_value (value_type v) = true → ToValue v = Ok s → DecodeFromValue s = Err Corruption.
Proof.
  destruct v as [ty|ty n|ty n|ty n|ty n|ty n|ty d|ty x|ty n|ty n|ty n|ty a|ty u|ty l|ty n|ty x|ty x|ty x]; cbn [value_type ToValue]; destruct ty; try done;
    intros _ E; try (injection E as <-; done).
  destruct (address_bytes a); [|done..]. injection E as <-. done.
Qed.

(** ** Equality *)

Lemma magnitude_inj w a b :
  1 <= w → 0 <= a → 0 <= b → a ≠ 2 ^ (w - 1) → b ≠ 2 ^ (w - 1) → (magnitude w a =? magnitude w b) = true ↔ a = b.
Proof. intros Hw Ha Hb Hz Hz'. rewrite Z.eqb_eq. unfold magnitude. split; [|by intros ->]. repeat case_test; lia. Qed.

Definition decides (v w : t) : Prop := ∃ b, eq v w = Ok b ∧ (b = true ↔ v = w).

Lemma decides_eqb n n' (v w : t) : (n = n' ↔ v = w) → ∃ b, Ok (n =? n') = Ok b ∧ (b = true ↔ v = w).
Proof. intros H. eexists. split; [done|]. by rewrite Z.eqb_eq. Qed.

Lemma decides_bool {T} `{EqDecision T} (n n' : T) (v w : t) : (n = n' ↔ v = w) → ∃ b, Ok (bool_decide (n = n')) = Ok b ∧ (b = true ↔ v = w).
Proof. intros H. eexists. split; [done|]. by rewrite bool_decide_eq_true. Qed.

Lemma scalar_eq v w :
  wf_scalar v → wf_scalar w → ordered_scalar v → ordered_scalar w → value_type v = value_type w → decides v w.
Proof.
  intros Hv Hw Ov Ow Ety. assert (member v = member w) as Hm by (rewrite !member_type by done; by rewrite Ety).
  unfold decides. destruct v as [ty|ty n|ty n|ty n|ty n|ty n|ty d|ty s|ty n|ty n|ty n|ty a|ty u|ty l|ty n|ty s|ty s|ty s],
    w as [ty'|ty' n'|ty' n'|ty' n'|ty' n'|ty' n'|ty' d'|ty' s'|ty' n'|ty' n'|ty' n'|ty' a'|ty' u'|ty' l'|ty' n'|ty' s'|ty' s'|ty' s'];
    cbn [member] in Hm; try discriminate Hm; clear Hm; cbn [value_type] in Ety; subst ty'; cbn [eq value_type];
    rewrite bool_decide_true by done; cbn [negb wf_scalar ordered_scalar] in *.
  - destruct Hv as [-> _]. by exists true.
  - destruct ty; try done; apply decides_eqb; split; congruence.
  - destruct ty; try done; apply decides_eqb; split; congruence.
  - destruct ty; try done; apply decides_eqb; split; congruence.
  - destruct ty; try done; apply decides_eqb; split; congruence.
  - destruct ty; try done; apply decides_eqb; split; congruence.
  - destruct ty; try done. eexists. split; [done|]. rewrite bool_decide_eq_true, DocHybridTime.doc_CompareTo_eq. split.
    + destruct d, d'. cbn [DocHybridTime.hybrid_time_ DocHybridTime.write_id_]. destruct (_ ?= _) eqn:E; try done.
      intros ->%Z.compare_eq. by apply Z.compare_eq in E as ->.
    + intros [= ->]. by rewrite !Z.compare_refl.
  - destruct ty; try done; apply decides_bool; split; congruence.
  - destruct Ov as [H1 H2], Ow as [H3 H4].
    assert (is_u32 n ∧ is_u32 n') as [R R'] by (by destruct ty). unfold is_u32 in *.
    assert (IsNanFloat n && IsNanFloat n' || float_eq n n' = true ↔ n = n') as Hn.
    { unfold float_eq. rewrite H1, H3. apply (magnitude_inj 32); lia. }
    destruct ty; try done; (eexists; split; [reflexivity|]); rewrite Hn; split; congruence.
  - destruct Ov as [H1 H2], Ow as [H3 H4].
    assert (is_u64 n ∧ is_u64 n') as [R R'] by (by destruct ty). unfold is_u64 in *.
    assert (IsNanDouble n && IsNanDouble n' || double_eq n n' = true ↔ n = n') as Hn.
    { unfold double_eq. rewrite H1, H3. apply (magnitude_inj 64); lia. }
    destruct ty; try done; (eexists; split; [reflexivity|]); rewrite Hn; split; congruence.
  - destruct ty; try done; apply decides_eqb; split; congruence.
  - destruct ty; try done; (eexists; split; [reflexivity|]); unfold InetAddress.eq; rewrite address_eqb_spec; split; congruence.
  - destruct ty; try done; apply decides_bool; split; congruence.
  - done.
  - destruct ty; try done; apply decides_eqb; split; congruence.
  - destruct ty; try done; apply decides_bool; split; congruence.
  - destruct ty; try done; apply decides_bool; split; congruence.
  - done.
Qed.

(** The loop of [operator==] over two frozen values of one length. *)
Fixpoint eq_all (k k' : list t) : outcome bool :=
  match k, k' with
  | pv :: k, pv' :: k' => let! b := eq pv pv' in if b then eq_all k k' else Ok false
  | _, _ => Ok true
  end.

Lemma eq_all_spec l l' :
  Forall (λ x, ∀ y, wf y → ordered y → decides x y) l → Forall (λ y, wf y ∧ ordered y) l' → length l = length l' →
  ∃ b, eq_all l l' = Ok b ∧ (b = true ↔ l = l').
Proof.
  intros Hl. revert l'. induction Hl as [|x l Hx Hl IH]; intros l' [|y k' [Hw Ho] Hl'] Hlen; cbn [length] in Hlen; try lia.
  - by exists true.
  - cbn [eq_all]. destruct (Hx y Hw Ho) as (b & -> & Hb). cbn [obind]. destruct b.
    + destruct (IH k' Hl') as (b' & -> & Hb'); [lia|]. exists b'. split; [done|]. rewrite Hb'. destruct Hb as [-> _]; [|done]. split; congruence.
    + exists false. split; [done|]. split; [done|]. intros [= -> _]. by apply Hb.
Qed.

Lemma eq_frozen ty l l' :
  is_frozen_type ty → eq (frozen_val_ ty l) (frozen_val_ ty l') = if negb (length l =? length l')%nat then Ok false else eq_all l l'.
Proof.
  intros Hty. assert (∀ k k', (fix go k k' := match k, k' with
    | pv :: k, pv' :: k' => let! b := eq pv pv' in if b then go k k' else Ok false
    | _, _ => Ok true end) k k' = eq_all k k') as Hgo.
  { clear. intros k. induction k as [|x k IH]; intros [|y k']; [done..|]. cbn [eq_all]. destruct (eq x y) as [[]|?| |]; [apply IH|done..]. }
  destruct Hty as [->| ->]; cbn [eq value_type]; rewrite bool_decide_true by done; cbn [negb]; by rewrite Hgo.
Qed.

(** Two values of a type that has members of one kind. *)
Lemma same_member v w : wf v → wf w → value_type v = value_type w → frozen v = frozen w.
Proof.
  intros Hv Hw Hty. destruct (frozen v) eqn:Ev, (frozen w) eqn:Ew; try done; exfalso.
  - apply wf_not_frozen in Hw; [|done]. apply member_type in Hw. rewrite <- Hty in Hw. destruct v; try done. apply wf_frozen in Hv as [Hf _].
    cbn [value_type] in Hw. destruct Hf as [->| ->]; by destruct w.
  - apply wf_not_frozen in Hv; [|done]. apply member_type in Hv. rewrite Hty in Hv. destruct w; try done. apply wf_frozen in Hw as [Hf _].
    cbn [value_type] in Hv. destruct Hf as [->| ->]; by destruct v.
Qed.

Lemma types_decide v w : value_type v ≠ value_type w → decides v w.
Proof.
  intros Hty. exists false. split; [destruct v; cbn [eq]; by rewrite bool_decide_false by done|]. split; [done|congruence].
Qed.

Lemma value_eq v w : wf v → wf w → ordered v → ordered w → decides v w.
Proof.
  revert w. induction v as [v Hf|ty l IH] using value_ind; intros w Hv Hw Ov Ow.
  - destruct (decide (value_type v = value_type w)) as [Hty|Hty]; [|by apply types_decide].
    pose proof (same_member v w Hv Hw Hty) as Hfw. rewrite Hf in Hfw.
    apply wf_not_frozen in Hv, Hw; [|done..]. apply scalar_eq; [done|done|by destruct v|by destruct w|done].
  - destruct (decide (ty = value_type w)) as [Hty|Hty]; [|by apply types_decide].
    pose proof (same_member _ w Hv Hw Hty) as Hfw. destruct w as [| | | | | | | | | | | | |ty' l'| | | |]; try done. cbn [value_type] in Hty. subst ty'.
    apply wf_frozen in Hv as [Hft Hl], Hw as [_ Hl']. apply ordered_frozen in Ov, Ow. unfold decides. rewrite eq_frozen by done.
    destruct (Nat.eqb_spec (length l) (length l')) as [Hlen|Hlen]; cbn [negb]; [|exists false; split; [done|]; split; congruence].
    destruct (eq_all_spec l l') as (b & -> & Hb); [| |done|exists b; split; [done|]; rewrite Hb; split; congruence].
    + rewrite !Forall_forall in *. intros x Hx y Hy Hoy. apply IH; auto. by apply Ov.
    + rewrite !Forall_forall in *. intros x Hx. split; [auto|]. by apply Ow.
Qed.

End Keys.

(** ** Properties *)

(** C24: Keys sort as the values do.  Two components of keys, frozen lists of components included, have codes whose
    byte order is [CompareTo] whatever follows the codes, and what follows decides only between equal values.  The components are
    [ordered]: no NaN, no negative zero, no identifier of a table or of a transaction, no UUID of a version that Boost does not know, and
    the elements of a frozen list have types between the two markers of its end. *)
Theorem primitive_key_order
    {B : BigNum} {HB : BigNumSpec B} {V : UuidVersion} {HV : UuidVersionSpec V} {A : IpAddress} {HA : IpAddressSpec A} (v w : t) :
  wf v → wf w → ordered v → ordered w →
  ∃ k k' c, ToKeyBytes v = Ok k ∧ ToKeyBytes w = Ok k' ∧ CompareTo v w = Ok c ∧
    ∀ s t, bytes_compare (k ++ s) (k' ++ t) = match c with Eq => bytes_compare s t | _ => c end.
Proof.
  intros Hv Hw Ov Ow. destruct (key_order v w Hv Hw Ov Ow) as (c & Hc & Hf). exists (key_code v), (key_code w), c.
  destruct (wf_keyed v Hv) as (_ & _ & Ev), (wf_keyed w Hw) as (_ & _ & Ew). split_and!; [apply Ev|apply Ew|done|exact Hf].
Qed.

Definition sample (n : Z) : t :=
  frozen_val_ (A := BytesAddress) kFrozen [str_val_ kString [97; 0; 98]; int32_val_ kInt32Descending n; inetaddress_val_ (A := BytesAddress) kInetaddress [10; 0; 0; 1]].

Lemma sample_value n : is_i32 n → wf (sample n) ∧ ordered (sample n).
Proof.
  intros Hn. split; [|by repeat split]. apply wf_frozen. split; [by left|]. 
  apply Forall_cons_2; [change (bytes_ok [97; 0; 98]); bytes_done|]. apply Forall_cons_2; [done|]. apply Forall_cons_2; [|constructor].
  exists [10; 0; 0; 1]. split; [bytes_done|done].
Qed.

Lemma primitive_key_order_witness :
  ∃ k k', ToKeyBytes (sample 7) = Ok k ∧ ToKeyBytes (sample (-3)) = Ok k' ∧ bytes_compare (k ++ [255]) (k' ++ [0]) = Lt.
Proof.
  destruct (sample_value 7 ltac:(unfold is_i32; lia)) as [W O], (sample_value (-3) ltac:(unfold is_i32; lia)) as [W' O'].
  destruct (primitive_key_order (sample 7) (sample (-3)) W W' O O') as (k & k' & c & Ek & Ek' & Ec & Hc).
  exists k, k'. split; [exact Ek|]. split; [exact Ek'|]. rewrite Hc. vm_compute in Ec. injection Ec as <-. reflexivity.
Defined.

(** A component appended to any key decodes to itself whatever follows it and leaves what follows, and so does skipping it. *)
Theorem primitive_key_roundtrip
    {B : BigNum} {HB : BigNumSpec B} {V : UuidVersion} {HV : UuidVersionSpec V} {A : IpAddress} {HA : IpAddressSpec A} (v : t) :
  wf v →
  ∃ k, (∀ key, AppendToKey v key = Ok (key ++ k)) ∧
    ∀ rest, bytes_ok rest → DecodeFromKey (k ++ rest) = Ok (Some v, rest) ∧ SkipKey (k ++ rest) = Ok (None, rest).
Proof.
  intros Hv. exists (key_code v). split; [by apply wf_keyed|]. intros rest Hr.
  unfold DecodeFromKey, SkipKey, enough. rewrite length_app. split; apply (wf_decodes v Hv); (done || lia).
Qed.

Lemma primitive_key_roundtrip_witness :
  ∃ k, AppendToKey (sample 7) [1; 2] = Ok ([1; 2] ++ k) ∧ DecodeFromKey (k ++ [9; 9]) = Ok (Some (sample 7), [9; 9]).
Proof.
  destruct (primitive_key_roundtrip (sample 7) (proj1 (sample_value 7 ltac:(unfold is_i32; lia)))) as (k & Ha & Hd).
  exists k. split; [apply Ha|]. apply Hd. bytes_done.
Defined.

(** Decoding a component returns on every slice; when it succeeds it leaves a proper suffix of the slice, and
    skipping the component succeeds with the same suffix. *)
Theorem decode_key_total
    {B : BigNum} {HB : BigNumSpec B} {V : UuidVersion} {HV : UuidVersionSpec V} {A : IpAddress} {HA : IpAddressSpec A} (slice : bytes) :
  DecodeFromKey slice ≠ Fatal ∧ SkipKey slice ≠ Fatal ∧
  ∀ v r, DecodeFromKey slice = Ok (v, r) →
    (∃ x, v = Some x) ∧ (∃ p, p ≠ [] ∧ slice = p ++ r) ∧ SkipKey slice = Ok (None, r).
Proof.
  unfold DecodeFromKey, SkipKey, enough.
  destruct (leaves_key (2 * length slice + 1) true slice) as [H1 _]. destruct H1 as [[H1 Hs] Hl]; [lia|].
  destruct (leaves_key (2 * length slice + 1) false slice) as [H2 _]. destruct H2 as [[H2 _] _]; [lia|].
  split_and!; [done|done|]. intros v r E. destruct (key_skip (2 * length slice + 1) slice) as [Hk _]. destruct (Hk v r E) as [Hx Hskip].
  split; [done|]. split; [|done]. destruct (Hs v r E) as [p Ep]. exists p. split; [|done]. intros ->.
  specialize (Hl v r E). rewrite Ep in Hl. cbn [app] in Hl. lia.
Qed.

Lemma decode_key_total_witness : SkipKey (B := ZNum) (A := BytesAddress) [60; 83; 97; 0; 0; 33; 7] = Ok (None, [7]).
Proof. destruct (decode_key_total [60; 83; 97; 0; 0; 33; 7]) as (_ & _ & H). apply (H (Some (frozen_val_ kFrozen [str_val_ kString [97]]))). reflexivity. Defined.

(** A value that may be stored decodes from its bytes to itself; the six descending types that [DecodeFromValue] refuses
    are written by [ToValue] all the same. *)
Theorem primitive_value_roundtrip
    {B : BigNum} {HB : BigNumSpec B} {V : UuidVersion} {HV : UuidVersionSpec V} {A : IpAddress} {HA : IpAddressSpec A} (v : t) :
  (wf_value v → ∃ s, ToValue v = Ok s ∧ DecodeFromValue s = Ok v) ∧
  (refused_value (value_type v) = true → ∀ s, ToValue v = Ok s → DecodeFromValue s = Err Corruption).
Proof. split; [apply value_decodes|]. intros H s. by apply value_refused. Qed.

Lemma primitive_value_roundtrip_witness :
  (∃ s, ToValue (sample 7) = Ok s ∧ DecodeFromValue s = Ok (sample 7)) ∧
  DecodeFromValue (B := ZNum) (A := BytesAddress) [97; 1; 2] = Err Corruption.
Proof.
  split.
  - apply (primitive_value_roundtrip (sample 7)). apply (wf_frozen kFrozen). apply (sample_value 7). unfold is_i32. lia.
  - apply (primitive_value_roundtrip (str_val_ (A := BytesAddress) kStringDescending [1; 2])); reflexivity.
Defined.

(** *** Where keys and comparisons disagree *)


Section Disagreements.
Context {B : BigNum} {HB : BigNumSpec B} {V : UuidVersion} {HV : UuidVersionSpec V} {A : IpAddress} {HA : IpAddressSpec A}.






End Disagreements.



End PrimitiveKeys.
