(* ===== verification/DocKey.v ===== *)
(** * Document keys

    Models docdb/doc_key.h and docdb/doc_key.cc, with [CompareVectors] of
    util/compare_util.h.  A document key is an optional table identifier, an
    optional hash with its hashed components, and range components; each group
    ends with the byte [kGroupEnd].  A [SubDocKey] appends the path of a
    subdocument and the hybrid time of the write.  The decoders of the source are
    one template over a callback object; here a callback is a [Record] of
    functions on the state that the object refers to.  Conversion to text and the
    filter policies, which only pass calls to RocksDB, are not modelled. *)

From S2P Require Import Prelude Slice FastVarint HybridTime DocHybridTime ValueType KvUtil VarInt Decimal Uuid InetAddress Intent PrimitiveValue.

(** ** Components *)

Module DocKeyComponents.
Import ValueType PrimitiveValue.

Section Operations.
Context {B : BigNum} {V : UuidVersion} {A : IpAddress}.

(** [HasPrimitiveValue]: the end of the group is consumed.  A byte is unsigned here. *)
Definition HasPrimitiveValue (slice : bytes) (allow_special : bool) : outcome (bool * bytes) :=
  match slice with
  | [] => Err Corruption
  | current_value_type :: rest =>
      if current_value_type =? kGroupEnd then Ok (false, rest)
      else if IsPrimitiveValueType current_value_type then Ok (true, slice)
      else if allow_special && IsSpecialValueType current_value_type then Ok (true, slice)
      else Err Corruption
  end.

Definition kNumValuesNoLimit : Z := 2 ^ 31 - 1.

(** [ConsumePrimitiveValuesFromKey] with a callback that consumes one value and
    changes a state; every value has at least a byte. *)
Fixpoint consume_values {S} (fuel : nat) (callback : S → bytes → outcome (S * bytes)) (allow_special : bool)
    (n_values_limit : Z) (st : S) (slice : bytes) : outcome (S * bytes) :=
  match fuel with
  | O => Fatal
  | Datatypes.S fuel =>
      if n_values_limit <=? 0 then Ok (st, slice)
      else
        let! (more, slice) := HasPrimitiveValue slice allow_special in
        if negb more then Ok (st, slice)
        else
          let! (st, slice) := callback st slice in
          consume_values fuel callback allow_special (n_values_limit - 1) st slice
  end.

Definition ConsumePrimitiveValuesFromKey {S} (callback : S → bytes → outcome (S * bytes)) (allow_special : bool)
    (n_values_limit : Z) (st : S) (slice : bytes) : outcome (S * bytes) :=
  consume_values (length slice + 1) callback allow_special n_values_limit st slice.

(** Appending the value to a vector, or the bytes of the value to a vector of
    slices, or only moving past the value. *)
Definition push_value (result : list t) (slice : bytes) : outcome (list t * bytes) :=
  let! (v, slice) := DecodeFromKey slice in
  match v with Some v => Ok (result ++ [v], slice) | None => UB end.

Definition push_slice (result : list bytes) (slice : bytes) : outcome (list bytes * bytes) :=
  let! (_, rest) := SkipKey slice in
  Ok (result ++ [take (length slice - length rest) slice], rest).

Definition skip_value (result : unit) (slice : bytes) : outcome (unit * bytes) :=
  let! (_, slice) := SkipKey slice in Ok (result, slice).

Definition ConsumePrimitiveValueFromKey (slice : bytes) : outcome (bool * bytes) :=
  let! (more, slice) := HasPrimitiveValue slice false in
  if negb more then Ok (false, slice)
  else let! (_, slice) := SkipKey slice in Ok (true, slice).

(** [CompareVectors]: the first difference, or the lengths. *)
Fixpoint CompareVectors (a b : list t) : outcome comparison :=
  match a, b with
  | x :: a, y :: b =>
      let! result := CompareTo x y in match result with Eq => CompareVectors a b | _ => Ok result end
  | [], [] => Ok Eq
  | [], _ :: _ => Ok Lt
  | _ :: _, [] => Ok Gt
  end.

(** [operator==] of vectors. *)
Fixpoint eq_elements (a b : list t) : outcome bool :=
  match a, b with
  | x :: a, y :: b => let! e := PrimitiveValue.eq x y in if e then eq_elements a b else Ok false
  | _, _ => Ok true
  end.
Definition eq_vectors (a b : list t) : outcome bool :=
  if negb (length a =? length b)%nat then Ok false else eq_elements a b.

Definition AppendDocKeyItems (doc_key_items : list t) (result : bytes) : outcome bytes :=
  let! result := AppendAllToKey doc_key_items result in
  Ok (KeyBytes.AppendValueType kGroupEnd result).

End Operations.
End DocKeyComponents.

(** ** The decoder *)

Module DocKeyDecoder.
Import ValueType DocKeyComponents.

Section Operations.
Context {B : BigNum} {V : UuidVersion} {A : IpAddress}.

(** The state is [input_]; the identifier and the hash are returned when present.
    Callers that do not ask for the identifier skip the decoding of its sixteen
    bytes, which cannot fail. *)
Definition DecodeCotableId (input_ : bytes) : outcome (option bytes * bytes) :=
  let (consumed, input_) := Slice.TryConsumeByte input_ kTableId in
  if negb consumed then Ok (None, input_)
  else if (length input_ <? Uuid.kUuidSize)%nat then Err Corruption
  else
    let! uuid := Uuid.DecodeFromComparableSlice (take Uuid.kUuidSize input_) 0 in
    let! input_ := Slice.remove_prefix input_ Uuid.kUuidSize in
    Ok (Some uuid, input_).

Definition DecodePgtableId (input_ : bytes) : outcome (option Z * bytes) :=
  match input_ with
  | [] => Ok (None, input_)
  | b :: rest =>
      if negb (b =? kPgTableOid) then Ok (None, input_)
      else if (length rest <? 4)%nat then Err Corruption
      else
        let! pgtable_id := KvUtil.Load 4 rest in
        let! rest := Slice.remove_prefix rest 4 in
        Ok (Some pgtable_id, rest)
  end.

Definition DecodeHashCode (input_ : bytes) (allow_special : bool) : outcome (option Z * bytes) :=
  match input_ with
  | [] => Ok (None, input_)
  | first_value_type :: rest =>
      let good_value_type :=
        if allow_special then IsPrimitiveOrSpecialValueType first_value_type else IsPrimitiveValueType first_value_type in
      if first_value_type =? kGroupEnd then Ok (None, input_)
      else if negb good_value_type then Err Corruption
      else if negb (first_value_type =? kUInt16Hash) then Ok (None, input_)
      else if (length input_ <? 3)%nat then Err Corruption
      else
        let! hash := KvUtil.Load 2 rest in
        let! input_ := Slice.remove_prefix input_ 3 in
        Ok (Some hash, input_)
  end.

(** [DecodePrimitiveValue] with a null pointer. *)
Definition DecodePrimitiveValue (input_ : bytes) (allow_special : bool) : outcome bytes :=
  let special := match input_ with b :: _ => (b =? kLowest) || (b =? kHighest) | [] => false end in
  if allow_special && special then let! (_, input_) := Slice.consume_byte input_ in Ok input_
  else let! (_, input_) := PrimitiveValue.SkipKey input_ in Ok input_.

Definition ConsumeGroupEnd (input_ : bytes) : outcome bytes :=
  match input_ with
  | b :: rest => if negb (b =? kGroupEnd) then Err Corruption else Ok rest
  | [] => Err Corruption
  end.

Definition GroupEnded (input_ : bytes) : bool :=
  match input_ with [] => true | b :: _ => b =? kGroupEnd end.

(** The loop of [DecodeToRangeGroup] over the hashed components. *)
Definition DecodeToRangeGroup (input_ : bytes) : outcome bytes :=
  let! (_, input_) := DecodeCotableId input_ in
  let! (_, input_) := DecodePgtableId input_ in
  let! (hash, input_) := DecodeHashCode input_ false in
  match hash with
  | None => Ok input_
  | Some _ =>
      (fix go fuel input_ :=
         match fuel with
         | O => Fatal
         | S fuel =>
             let! (more, input_) := HasPrimitiveValue input_ false in
             if negb more then Ok input_
             else let! input_ := DecodePrimitiveValue input_ false in go fuel input_
         end) (length input_ + 1)%nat input_
  end.

End Operations.
End DocKeyDecoder.

(** ** Document keys *)

Module DocKey.
Import ValueType DocKeyComponents DocKeyDecoder.

Inductive DocKeyPart := kUpToHashCode | kUpToHash | kUpToId | kUpToHashOrFirstRange | kWholeDocKey.

(** The callback object of the template [DoDecode], over the state it refers to:
    what is done with the identifiers and the hash, with each hashed and range
    component, and when the range group is asked for. *)
Record callback (S : Type) := {
  SetCoTableId : bytes → S → S;
  SetPgTableId : Z → S → S;
  SetHash : option Z → S → S;
  hashed_group : S → bytes → outcome (S * bytes);
  range_start : bytes → S → S;
  range_group : S → bytes → outcome (S * bytes);
}.
Arguments SetCoTableId {S} _.
Arguments SetPgTableId {S} _.
Arguments SetHash {S} _.
Arguments hashed_group {S} _.
Arguments range_start {S} _.
Arguments range_group {S} _.

(** The limit on the range components; [kUpToId] has returned before. *)
Definition MaxRangeComponentsToDecode (part_to_decode : DocKeyPart) (hash_present : bool) : outcome Z :=
  match part_to_decode with
  | kUpToId => Fatal
  | kWholeDocKey => Ok kNumValuesNoLimit
  | kUpToHashCode | kUpToHash => Ok 0
  | kUpToHashOrFirstRange => Ok (if hash_present then 0 else 1)
  end.

Section Operations.
Context {B : BigNum} {V : UuidVersion} {A : IpAddress}.

Record t := mk {
  cotable_id_ : bytes;
  pgtable_id_ : Z;
  hash_present_ : bool;
  hash_ : Z;
  hashed_group_ : list PrimitiveValue.t;
  range_group_ : list PrimitiveValue.t;
}.

(** The constructors, by their arguments; those from a schema take its two identifiers. *)
Definition empty_key : t := mk Uuid.nil_uuid 0 false 0 [] [].
Definition of_range (range_components : list PrimitiveValue.t) : t := mk Uuid.nil_uuid 0 false 0 [] range_components.
Definition of_hash (hash : Z) (hashed_components range_components : list PrimitiveValue.t) : t :=
  mk Uuid.nil_uuid 0 true hash hashed_components range_components.
Definition of_cotable (cotable_id : bytes) (hash : Z) (hashed_components range_components : list PrimitiveValue.t) : t :=
  mk cotable_id 0 true hash hashed_components range_components.
Definition of_pgtable (pgtable_id : Z) (hash : Z) (hashed_components range_components : list PrimitiveValue.t) : t :=
  mk Uuid.nil_uuid pgtable_id true hash hashed_components range_components.
Definition of_cotable_id (cotable_id : bytes) : t := mk cotable_id 0 false 0 [] [].
Definition of_pgtable_id (pgtable_id : Z) : t := mk Uuid.nil_uuid pgtable_id false 0 [] [].
Definition of_schema (cotable_id : bytes) (pgtable_id : Z) (hash : option Z) (hashed_components range_components : list PrimitiveValue.t) : t :=
  mk cotable_id pgtable_id (match hash with Some _ => true | None => false end) (default 0 hash) hashed_components range_components.

Definition has_cotable_id (k : t) : bool := negb (Uuid.IsNil (cotable_id_ k)).
Definition has_pgtable_id (k : t) : bool := 0 <? pgtable_id_ k.
Definition empty (k : t) : bool := negb (hash_present_ k) && bool_decide (range_group_ k = []).
Definition set_hash (hash : Z) (k : t) : t := mk (cotable_id_ k) (pgtable_id_ k) true hash (hashed_group_ k) (range_group_ k).
Definition set_range (l : list PrimitiveValue.t) (k : t) : t :=
  mk (cotable_id_ k) (pgtable_id_ k) (hash_present_ k) (hash_ k) (hashed_group_ k) l.

(** [DocKeyEncoder]: the identifier, the hash with its group, and the range group. *)
Definition CotableId (cotable_id out_ : bytes) : bytes :=
  if negb (Uuid.IsNil cotable_id)
  then KeyBytes.AppendRawBytes (Uuid.EncodeToComparable cotable_id) (KeyBytes.AppendValueType kTableId out_) else out_.
Definition PgtableId (pgtable_id : Z) (out_ : bytes) : bytes :=
  if 0 <? pgtable_id then KeyBytes.AppendUInt32 pgtable_id (KeyBytes.AppendValueType kPgTableOid out_) else out_.
Definition Schema (cotable_id : bytes) (pgtable_id : Z) (out_ : bytes) : bytes :=
  if 0 <? pgtable_id then PgtableId pgtable_id out_ else CotableId cotable_id out_.
Definition Hash (hash_present : bool) (hash : Z) (hashed_group : list PrimitiveValue.t) (out_ : bytes) : outcome bytes :=
  if negb hash_present then Ok out_
  else AppendDocKeyItems hashed_group (KeyBytes.AppendUInt16 hash (KeyBytes.AppendValueType kUInt16Hash out_)).
Definition Range (range_group : list PrimitiveValue.t) (out_ : bytes) : outcome bytes := AppendDocKeyItems range_group out_.

Definition AppendTo (k : t) (out : bytes) : outcome bytes :=
  let out := if negb (Uuid.IsNil (cotable_id_ k)) then CotableId (cotable_id_ k) out else PgtableId (pgtable_id_ k) out in
  let! out := Hash (hash_present_ k) (hash_ k) (hashed_group_ k) out in
  Range (range_group_ k) out.

Definition Encode (k : t) : outcome bytes := AppendTo k [].

(** The identifiers stay. *)
Definition Clear (k : t) : t := mk (cotable_id_ k) (pgtable_id_ k) false 0xdead [] [].
Definition ClearRangeComponents (k : t) : t := set_range [] k.

(** A vector filled up with default values; a negative size is out of range. *)
Definition ResizeRangeComponents (new_size : Z) (k : t) : outcome t :=
  if new_size <? 0 then UB
  else
    let n := Z.to_nat new_size in
    Ok (set_range (take n (range_group_ k) ++ replicate (n - length (range_group_ k)) (PrimitiveValue.of_type kNullLow)) k).

Definition AddRangeComponent (val : PrimitiveValue.t) (k : t) : t := set_range (range_group_ k ++ [val]) k.
Definition SetRangeComponent (val : PrimitiveValue.t) (idx : nat) (k : t) : outcome t :=
  if decide (idx < length (range_group_ k))%nat then Ok (set_range (<[idx := val]> (range_group_ k)) k) else UB.

Definition DoDecode {S} (c : callback S) (part_to_decode : DocKeyPart) (allow_special : bool) (st : S) (input : bytes) :
    outcome (S * bytes) :=
  let! (cotable_id, input) := DecodeCotableId input in
  let! (st, input) :=
    match cotable_id with
    | Some u => Ok (SetCoTableId c u st, input)
    | None =>
        let! (pgtable_id, input) := DecodePgtableId input in
        match pgtable_id with Some n => Ok (SetPgTableId c n st, input) | None => Ok (st, input) end
    end in
  match part_to_decode with
  | kUpToId => Ok (st, input)
  | _ =>
      let! (hash_code, input) := DecodeHashCode input allow_special in
      let st := SetHash c hash_code st in
      match hash_code, part_to_decode with
      | Some _, kUpToHashCode => Ok (st, input)
      | _, _ =>
          let! (st, input) :=
            match hash_code with
            | Some _ => ConsumePrimitiveValuesFromKey (hashed_group c) allow_special kNumValuesNoLimit st input
            | None => Ok (st, input)
            end in
          match input with
          | [] => Ok (st, input)
          | _ :: _ =>
              let! max_components := MaxRangeComponentsToDecode part_to_decode (match hash_code with Some _ => true | None => false end) in
              if 0 <? max_components
              then ConsumePrimitiveValuesFromKey (range_group c) allow_special max_components (range_start c input st) input
              else Ok (st, input)
          end
      end
  end.

(** [DecodeFromCallback]: the parts go into a key. *)
Definition DecodeFromCallback : callback t := {|
  SetCoTableId u k := mk u (pgtable_id_ k) (hash_present_ k) (hash_ k) (hashed_group_ k) (range_group_ k);
  SetPgTableId n k := mk (cotable_id_ k) n (hash_present_ k) (hash_ k) (hashed_group_ k) (range_group_ k);
  SetHash h k := mk (cotable_id_ k) (pgtable_id_ k) (match h with Some _ => true | None => false end)
                   (default (hash_ k) h) (hashed_group_ k) (range_group_ k);
  hashed_group k slice :=
    let! (l, slice) := push_value (hashed_group_ k) slice in
    Ok (mk (cotable_id_ k) (pgtable_id_ k) (hash_present_ k) (hash_ k) l (range_group_ k), slice);
  range_start _ k := k;
  range_group k slice := let! (l, slice) := push_value (range_group_ k) slice in Ok (set_range l k, slice);
|}.

(** [DecodeDocKeyCallback]: the slices of the range components. *)
Definition DecodeDocKeyCallback : callback (list bytes) := {|
  SetCoTableId _ l := l; SetPgTableId _ l := l; SetHash _ l := l;
  hashed_group l slice := let! (_, slice) := skip_value () slice in Ok (l, slice);
  range_start _ l := l;
  range_group := push_slice;
|}.

(** [DummyCallback]. *)
Definition DummyCallback : callback unit := {|
  SetCoTableId _ u := u; SetPgTableId _ u := u; SetHash _ u := u;
  hashed_group := skip_value; range_start _ u := u; range_group := skip_value;
|}.

(** [EncodedSizesCallback]: how much of the input is left when the range group is asked for. *)
Definition EncodedSizesCallback : callback (option nat) := {|
  SetCoTableId _ s := s; SetPgTableId _ s := s; SetHash _ s := s;
  hashed_group s slice := let! (_, slice) := skip_value () slice in Ok (s, slice);
  range_start input _ := Some (length input);
  range_group s slice := let! (_, slice) := skip_value () slice in Ok (s, slice);
|}.

Definition DecodeFrom (k : t) (slice : bytes) (part_to_decode : DocKeyPart) (allow_special : bool) : outcome (t * bytes) :=
  DoDecode DecodeFromCallback part_to_decode allow_special (Clear k) slice.

Definition PartiallyDecode (slice : bytes) (out : list bytes) : outcome (list bytes * bytes) :=
  DoDecode DecodeDocKeyCallback kWholeDocKey false out slice.

Definition EncodedSize (slice : bytes) (part : DocKeyPart) (allow_special : bool) : outcome nat :=
  let! (_, rest) := DoDecode DummyCallback part allow_special () slice in Ok (length slice - length rest)%nat.

(** Without a range group the first size is the difference of unrelated pointers. *)
Definition EncodedHashPartAndDocKeySizes (slice : bytes) (allow_special : bool) : outcome (nat * nat) :=
  let! (start, rest) := DoDecode EncodedSizesCallback kWholeDocKey allow_special None slice in
  match start with
  | Some n => Ok ((length slice - n)%nat, (length slice - length rest)%nat)
  | None => UB
  end.

(** The hash is not written when there is none, and is returned all the same. *)
Definition DecodeHash (slice : bytes) : outcome Z :=
  let! (_, input) := DecodeCotableId slice in
  let! (_, input) := DecodePgtableId input in
  let! (hash, _) := DecodeHashCode input false in
  match hash with Some h => Ok h | None => UB end.

(** A failed [DecodeFrom] leaves the slice as it was, so the bytes count as left over. *)
Definition FullyDecodeFrom (k : t) (slice : bytes) : outcome t :=
  match DecodeFrom k slice kWholeDocKey false with
  | Ok (k, rest) => if negb (bool_decide (rest = [])) then Err InvalidArgument else Ok k
  | Err c => if negb (bool_decide (slice = [])) then Err InvalidArgument else Err c
  | Fatal => Fatal
  | UB => UB
  end.

Definition HashedComponentsEqual (k other : t) : outcome bool :=
  if negb (Bool.eqb (hash_present_ k) (hash_present_ other)) then Ok false
  else if negb (hash_present_ k) then Ok true
  else if negb (hash_ k =? hash_ other) then Ok false
  else eq_vectors (hashed_group_ k) (hashed_group_ other).

(** [operator==]. *)
Definition eq (k other : t) : outcome bool :=
  if negb (bool_decide (cotable_id_ k = cotable_id_ other)) then Ok false
  else if negb (pgtable_id_ k =? pgtable_id_ other) then Ok false
  else
    let! e := HashedComponentsEqual k other in
    if e then eq_vectors (range_group_ k) (range_group_ other) else Ok false.

Definition bool_lt (a b : bool) : bool := negb a && b.

Definition CompareTo (k other : t) : outcome comparison :=
  match CompareUsingLessThan Uuid.lt (cotable_id_ k) (cotable_id_ other) with
  | Eq =>
      match CompareUsingLessThan Z.ltb (pgtable_id_ k) (pgtable_id_ other) with
      | Eq =>
          match CompareUsingLessThan bool_lt (hash_present_ k) (hash_present_ other) with
          | Eq =>
              match (if hash_present_ k then CompareUsingLessThan Z.ltb (hash_ k) (hash_ other) else Eq) with
              | Eq =>
                  let! result := CompareVectors (hashed_group_ k) (hashed_group_ other) in
                  match result with Eq => CompareVectors (range_group_ k) (range_group_ other) | _ => Ok result end
              | c => Ok c
              end
          | c => Ok c
          end
      | c => Ok c
      end
  | c => Ok c
  end.

Definition BelongsTo (k : t) (schema_cotable_id : bytes) (schema_pgtable_id : Z) : bool :=
  if negb (Uuid.IsNil (cotable_id_ k)) then bool_decide (cotable_id_ k = schema_cotable_id)
  else if 0 <? pgtable_id_ k then pgtable_id_ k =? schema_pgtable_id
  else Uuid.IsNil schema_cotable_id && (schema_pgtable_id =? 0).

Definition FromRedisKey (hash : Z) (key : bytes) : t :=
  mk Uuid.nil_uuid 0 true hash [PrimitiveValue.of_string key PrimitiveValue.kAscending] [].

Definition EncodedFromRedisKey (hash : Z) (key : bytes) : bytes :=
  let result := KeyBytes.AppendValueType kUInt16Hash [] in
  let result := KeyBytes.AppendUInt16 hash result in
  let result := KeyBytes.AppendValueType kString result in
  let result := KeyBytes.AppendString key result in
  let result := KeyBytes.AppendValueType kGroupEnd result in
  KeyBytes.AppendValueType kGroupEnd result.

End Operations.
End DocKey.

(** ** Keys of subdocuments *)

Module SubDocKey.
Import ValueType DocKeyComponents DocKeyDecoder.

(** The callback object of the template [DoDecode]: the document key, a subkey,
    the hybrid time and the bytes of the hybrid time. *)
Record callback (S : Type) := {
  DecodeDocKey : S → bytes → outcome (S * bytes);
  AddSubkey : S → bytes → outcome (S * bytes);
  doc_hybrid_time : DocHybridTime.t → S → S;
  DocHybridTimeSlice : bytes → S → S;
}.
Arguments DecodeDocKey {S} _.
Arguments AddSubkey {S} _.
Arguments doc_hybrid_time {S} _.
Arguments DocHybridTimeSlice {S} _.

Section Operations.
Context {B : BigNum} {V : UuidVersion} {A : IpAddress}.

Record t := mk { doc_key_ : DocKey.t; doc_ht_ : DocHybridTime.t; subkeys_ : list PrimitiveValue.t }.

Definition has_hybrid_time (k : t) : bool := DocHybridTime.is_valid (doc_ht_ k).
Definition remove_hybrid_time (k : t) : t := mk (doc_key_ k) DocHybridTime.kInvalid (subkeys_ k).
Definition AppendSubKey (subkey : PrimitiveValue.t) (k : t) : t := mk (doc_key_ k) (doc_ht_ k) (subkeys_ k ++ [subkey]).
Definition RemoveLastSubKey (k : t) : outcome t :=
  match subkeys_ k with [] => UB | l => Ok (mk (doc_key_ k) (doc_ht_ k) (removelast l)) end.
Definition KeepPrefix (num_sub_keys_to_keep : nat) (k : t) : t := mk (doc_key_ k) (doc_ht_ k) (take num_sub_keys_to_keep (subkeys_ k)).
Definition Clear (k : t) : t := mk (DocKey.Clear (doc_key_ k)) DocHybridTime.kInvalid [].
Definition IsValid (k : t) : bool := negb (DocKey.empty (doc_key_ k)).

Definition DoEncode (include_hybrid_time : bool) (k : t) : outcome bytes :=
  let! key_bytes := DocKey.Encode (doc_key_ k) in
  let! key_bytes := PrimitiveValue.AppendAllToKey (subkeys_ k) key_bytes in
  if has_hybrid_time k && include_hybrid_time then KeyBytes.AppendDocHybridTime (doc_ht_ k) key_bytes else Ok key_bytes.

Definition Encode (k : t) : outcome bytes := DoEncode true k.
Definition EncodeWithoutHt (k : t) : outcome bytes := DoEncode false k.

(** [DecodeSubkey] with a callback. *)
Definition decode_subkey {S} (add : S → bytes → outcome (S * bytes)) (st : S) (slice : bytes) : outcome (bool * S * bytes) :=
  match slice with
  | [] => Ok (false, st, slice)
  | b :: _ =>
      if negb (b =? kHybridTime) then let! (st, slice) := add st slice in Ok (true, st, slice)
      else Ok (false, st, slice)
  end.

Definition DecodeSubkey (slice : bytes) : outcome (bool * bytes) :=
  let! (more, _, slice) := decode_subkey skip_value () slice in Ok (more, slice).

(** The loop of [DoDecode] over the subkeys; [true] when it stops at a special
    value type, whose byte is read as a [char]. *)
Fixpoint decode_subkeys {S} (fuel : nat) (c : callback S) (allow_special : bool) (st : S) (slice : bytes) : outcome (bool * S * bytes) :=
  match fuel with
  | O => Fatal
  | Datatypes.S fuel =>
      let special := match slice with b :: _ => IsSpecialValueType (DecodeValueTypeByte b) | [] => false end in
      if allow_special && special then Ok (true, doc_hybrid_time c DocHybridTime.kInvalid st, slice)
      else
        let! (more, st, slice) := decode_subkey (AddSubkey c) st slice in
        if negb more then Ok (false, st, slice) else decode_subkeys fuel c allow_special st slice
  end.

Definition DoDecode {S} (c : callback S) (require_hybrid_time allow_special : bool) (st : S) (slice : bytes) : outcome (S * bytes) :=
  if allow_special && require_hybrid_time then Err NotSupported
  else
    let! (st, slice) := DecodeDocKey c st slice in
    let! (stopped, st, slice) := decode_subkeys (length slice + 1) c allow_special st slice in
    if stopped then Ok (st, slice)
    else
      match slice with
      | [] => if negb require_hybrid_time then Ok (doc_hybrid_time c DocHybridTime.kInvalid st, slice) else Err Corruption
      | _ :: slice =>
          let! (doc_ht, rest) := DocHybridTime.DecodeFrom slice in
          Ok (DocHybridTimeSlice c (take (length slice - length rest) slice) (doc_hybrid_time c doc_ht st), rest)
      end.

(** [DecodeCallback]: the parts go into a key. *)
Definition DecodeCallback : callback t := {|
  DecodeDocKey k slice :=
    let! (d, slice) := DocKey.DecodeFrom (doc_key_ k) slice DocKey.kWholeDocKey false in Ok (mk d (doc_ht_ k) (subkeys_ k), slice);
  AddSubkey k slice := let! (l, slice) := push_value (subkeys_ k) slice in Ok (mk (doc_key_ k) (doc_ht_ k) l, slice);
  doc_hybrid_time h k := mk (doc_key_ k) h (subkeys_ k);
  DocHybridTimeSlice _ k := k;
|}.

(** [DecodeSubDocKeyCallback]: the slices of the range components and of the hybrid time. *)
Definition DecodeSubDocKeyCallback : callback (list bytes) := {|
  DecodeDocKey out slice := DocKey.PartiallyDecode slice out;
  AddSubkey out slice := let! (_, slice) := skip_value () slice in Ok (out, slice);
  doc_hybrid_time _ out := out;
  DocHybridTimeSlice s out := out ++ [s];
|}.

Definition PartiallyDecode (slice : bytes) (out : list bytes) : outcome (list bytes * bytes) :=
  DoDecode DecodeSubDocKeyCallback true false out slice.

Definition DecodeFrom (k : t) (slice : bytes) (require_hybrid_time allow_special : bool) : outcome (t * bytes) :=
  DoDecode DecodeCallback require_hybrid_time allow_special (Clear k) slice.

Definition FullyDecodeFrom (k : t) (slice : bytes) (require_hybrid_time : bool) : outcome t :=
  let! (k, rest) := DecodeFrom k slice require_hybrid_time false in
  if negb (bool_decide (rest = [])) then Err InvalidArgument else Ok k.

(** The loops of the two functions below: the end of every component after [begin]. *)
Fixpoint range_ends (fuel begin_size : nat) (out : list nat) (slice : bytes) : outcome (list nat * bytes) :=
  match fuel with
  | O => Fatal
  | S fuel =>
      let! (more, slice) := ConsumePrimitiveValueFromKey slice in
      if negb more then Ok (out, slice) else range_ends fuel begin_size (out ++ [(begin_size - length slice)%nat]) slice
  end.

Fixpoint subkey_ends (fuel begin_size : nat) (out : list nat) (slice : bytes) : outcome (list nat) :=
  match fuel with
  | O => Fatal
  | S fuel =>
      let! (more, slice) := DecodeSubkey slice in
      if negb more then Ok out else subkey_ends fuel begin_size (out ++ [(begin_size - length slice)%nat]) slice
  end.

Definition DecodePrefixLengths (slice : bytes) : outcome (list nat) :=
  let begin_ := slice in
  let n := length begin_ in
  let! hashed_part_size := DocKey.EncodedSize slice DocKey.kUpToHash false in
  let! (out, slice) :=
    if negb (hashed_part_size =? 0)%nat
    then let! slice := Slice.remove_prefix slice hashed_part_size in Ok ([hashed_part_size], slice)
    else Ok ([], slice) in
  let! (out, slice) := range_ends (length slice + 1) n out slice in
  let! out :=
    match last out with
    | None => Ok out
    | Some back =>
        let! b := byte_at begin_ back in
        if negb (b =? kGroupEnd) then Err Corruption else Ok (removelast out ++ [S back])
    end in
  subkey_ends (length slice + 1) n out slice.

Definition DecodeDocKeyAndSubKeyEnds (slice : bytes) (out : list nat) : outcome (list nat) :=
  let n := length slice in
  let! out := match out with [] => let! id_size := DocKey.EncodedSize slice DocKey.kUpToId false in Ok [id_size] | _ => Ok out end in
  let! (out, slice) :=
    match out with
    | [id_size] =>
        if (length slice <? id_size + 1)%nat then Err Corruption
        else
          let! b0 := byte_at slice 0 in
          let! b1 := byte_at slice id_size in
          if (b0 =? kPgTableOid) && (b1 =? kGroupEnd) then
            if (length slice <? id_size + 2)%nat then Err Corruption
            else
              let! b2 := byte_at slice (id_size + 1) in
              if negb (b2 =? kHybridTime) then Err Corruption
              else let! slice := Slice.remove_prefix slice (id_size + 1) in Ok (out, slice)
          else
            let! doc_key_size := DocKey.EncodedSize slice DocKey.kWholeDocKey false in
            let! slice := Slice.remove_prefix slice doc_key_size in
            Ok (out ++ [doc_key_size], slice)
    | _ => let! slice := Slice.remove_prefix slice (default 0%nat (last out)) in Ok (out, slice)
    end in
  subkey_ends (length slice + 1) n out slice.

(** [operator==] of hybrid times and of keys. *)
Definition ht_eq (a b : DocHybridTime.t) : bool :=
  (DocHybridTime.hybrid_time_ a =? DocHybridTime.hybrid_time_ b) && (DocHybridTime.write_id_ a =? DocHybridTime.write_id_ b).

Definition eq (k other : t) : outcome bool :=
  let! d := DocKey.eq (doc_key_ k) (doc_key_ other) in
  if negb d then Ok false
  else
    let! s := eq_vectors (subkeys_ k) (subkeys_ other) in
    if negb s then Ok false
    else if negb (Bool.eqb (has_hybrid_time k) (has_hybrid_time other)) then Ok false
    else Ok (if has_hybrid_time k then ht_eq (doc_ht_ k) (doc_ht_ other) else true).

Definition CompareToIgnoreHt (k other : t) : outcome comparison :=
  let! result := DocKey.CompareTo (doc_key_ k) (doc_key_ other) in
  match result with Eq => CompareVectors (subkeys_ k) (subkeys_ other) | _ => Ok result end.

Definition CompareTo (k other : t) : outcome comparison :=
  let! result := CompareToIgnoreHt k other in
  match result with
  | Eq =>
      Ok (if has_hybrid_time k
          then if has_hybrid_time other then CompOpp (DocHybridTime.CompareTo (doc_ht_ k) (doc_ht_ other)) else Gt
          else if has_hybrid_time other then Lt else Eq)
  | _ => Ok result
  end.

Definition StartsWith (k prefix : t) : outcome bool :=
  let! d := DocKey.eq (doc_key_ k) (doc_key_ prefix) in
  if negb d then Ok false
  else if negb (negb (has_hybrid_time prefix) ||
                ht_eq (doc_ht_ k) (doc_ht_ prefix) && (length (subkeys_ prefix) =? length (subkeys_ k))%nat) then Ok false
  else if negb (length (subkeys_ prefix) <=? length (subkeys_ k))%nat then Ok false
  else eq_elements (subkeys_ prefix) (subkeys_ k).

Definition AdvanceOutOfSubDoc (k : t) : outcome bytes :=
  let! subdoc_key_no_ts := EncodeWithoutHt k in Ok (KeyBytes.AppendValueType kMaxByte subdoc_key_no_ts).

Definition AdvanceOutOfDocKeyPrefix (k : t) : outcome bytes :=
  let! doc_key_encoded := DocKey.Encode (doc_key_ k) in
  let! doc_key_encoded := KeyBytes.RemoveValueTypeSuffix kGroupEnd doc_key_encoded in
  Ok (KeyBytes.AppendValueType kMaxByte doc_key_encoded).

End Operations.
End SubDocKey.

(** ** Operations on encoded keys *)

Module EncodedKeys.
Import ValueType DocKeyComponents DocKeyDecoder.

Section Operations.
Context {B : BigNum} {V : UuidVersion} {A : IpAddress}.

(** [ClearRangeComponents]: whether the key was changed, and the key. *)
Definition ClearRangeComponents (out : bytes) (allow_special : bool) : outcome (bool * bytes) :=
  let! prefix_size := DocKey.EncodedSize out DocKey.kUpToHash allow_special in
  if (length out =? prefix_size + 1)%nat && bool_decide (out !! prefix_size = Some (code kGroupEnd)) then Ok (false, out)
  else if (prefix_size <? length out)%nat then Ok (true, take prefix_size out ++ [code kGroupEnd])
  else Ok (true, out ++ [code kGroupEnd]).

(** The part of two slices that was consumed is the same. *)
Definition same_consumed (lhs lhs' rhs rhs' : bytes) : bool :=
  let consumed := (length lhs - length lhs')%nat in
  (consumed =? length rhs - length rhs')%nat && bool_decide (take consumed lhs = take consumed rhs).

(** The loop over the components, up to [limit] of them. *)
Fixpoint compare_components (fuel : nat) (limit : Z) (lhs rhs : bytes) : outcome bool :=
  match fuel with
  | O => Fatal
  | S fuel =>
      if negb (GroupEnded lhs) && (0 <? limit) then
        let! value_type := byte_at lhs 0 in
        if GroupEnded rhs || negb (bool_decide (rhs !! 0%nat = Some value_type)) then Ok false
        else if negb (IsPrimitiveOrSpecialValueType value_type) then Ok false
        else
          let! lhs' := DecodePrimitiveValue lhs true in
          let! rhs' := DecodePrimitiveValue rhs true in
          if negb (same_consumed lhs lhs' rhs rhs') then Ok false
          else compare_components fuel (limit - 1) lhs' rhs'
      else if limit =? 0 then Ok true
      else Ok (GroupEnded rhs)
  end.

Definition HashedOrFirstRangeComponentsEqual (lhs rhs : bytes) : outcome bool :=
  let! (_, l) := DecodeCotableId lhs in
  let! (_, r) := DecodeCotableId rhs in
  let! (_, l) := DecodePgtableId l in
  let! (_, r) := DecodePgtableId r in
  let! (lhash, l) := DecodeHashCode l true in
  let! (rhash, r) := DecodeHashCode r true in
  let present (h : option Z) := match h with Some _ => true | None => false end in
  if negb (Bool.eqb (present lhash) (present rhash)) then Ok false
  else if negb (same_consumed lhs l rhs r) then Ok false
  else compare_components (length l + 1) (if present lhash then kNumValuesNoLimit else 1) l r.

(** [DocKeyBelongsTo]; the schema is given by its two identifiers. *)
Definition DocKeyBelongsTo (doc_key : bytes) (cotable_id : bytes) (pgtable_id : Z) : bool :=
  let has_table_id := match doc_key with b :: _ => (b =? kTableId) || (b =? kPgTableOid) | [] => false end in
  if Uuid.IsNil cotable_id && (pgtable_id =? 0) then negb has_table_id
  else if negb has_table_id then false
  else
    match doc_key with
    | [] => false
    | b :: rest =>
        if b =? kTableId then bool_decide (take Uuid.kUuidSize rest = Uuid.EncodeToComparable cotable_id)
        else bool_decide (take 4 rest = KvUtil.Store 4 pgtable_id)
    end.

Definition DecodeDocKeyHash (encoded_key : bytes) : outcome (option Z) :=
  let! (key, _) := DocKey.DecodeFrom DocKey.empty_key encoded_key DocKey.kUpToHashCode false in
  Ok (if DocKey.hash_present_ key then Some (DocKey.hash_ key) else None).

(** [DocKeyComponentsExtractor::Transform]. *)
Definition Transform (doc_key_part : DocKey.DocKeyPart) (key : bytes) : outcome bytes :=
  match DocKey.EncodedSize key doc_key_part false with
  | Ok size => Ok (take size key)
  | Err _ => Ok []
  | Fatal => Fatal
  | UB => UB
  end.

End Operations.
End EncodedKeys.
