(* ===== verification/DocKeyCodec.v ===== *)
(** * The code of document keys

    The codes of [DocKey] and [SubDocKey] in closed form, the decoders of the
    source on these codes, and the order of the codes. *)

From S2P Require Import Prelude Slice FastVarint HybridTime DocHybridTime ValueType KvUtil VarInt Decimal Uuid InetAddress Intent PrimitiveValue PrimitiveKeys DocKey.

Module DocKeyCodec.
Import ValueType PrimitiveKeys DocKeyComponents DocKeyDecoder DocKey.

Section Codec.
Context {B : BigNum} {HB : BigNumSpec B} {V : UuidVersion} {HV : UuidVersionSpec V} {A : IpAddress} {HA : IpAddressSpec A}.

(** ** Components *)

(** A component of a key or of a path. *)
Definition item (v : PrimitiveValue.t) : Prop := wf v ∧ IsPrimitiveValueType (PrimitiveValue.value_type v) = true.

Definition group_code (l : list PrimitiveValue.t) : bytes := all_codes l ++ [code kGroupEnd].

Lemma item_keyed v : item v → keyed v.
Proof. intros [Hv _]. by apply wf_keyed. Qed.

Lemma items_keyed l : Forall item l → Forall keyed l.
Proof. intros Hl. eapply Forall_impl, item_keyed. exact Hl. Qed.

Lemma item_decodes v rest :
  item v → bytes_ok rest →
  PrimitiveValue.DecodeFromKey (key_code v ++ rest) = Ok (Some v, rest) ∧
  PrimitiveValue.SkipKey (key_code v ++ rest) = Ok (None, rest).
Proof.
  intros [Hv _] Hr. unfold PrimitiveValue.DecodeFromKey, PrimitiveValue.SkipKey, PrimitiveValue.enough. rewrite length_app.
  split; apply (wf_decodes v Hv); (done || lia).
Qed.

(** The first byte of a component is above the markers and below the special types. *)
Lemma item_tag v : item v → ∃ l, key_code v = code (PrimitiveValue.value_type v) :: l ∧ 36 <= PrimitiveValue.value_type v <= 124.
Proof.
  intros [Hv Hp]. destruct (wf_keyed v Hv) as (_ & [l E] & _). exists l. split; [done|].
  assert (PrimitiveValue.value_type v ≠ kTransactionApplyState ∧ PrimitiveValue.value_type v ≠ kExternalTransactionId) as [H1 H2].
  { destruct (frozen v) eqn:Ef.
    - destruct v; try done. apply wf_frozen in Hv as [Hty _]. cbn [PrimitiveValue.value_type]. by destruct Hty as [->| ->].
    - apply wf_not_frozen in Hv; [|done]. clear -Hv. destruct v as [ty|ty|ty|ty|ty|ty|ty|ty|ty|ty|ty|ty|ty|ty|ty|ty|ty|ty];
        cbn [wf_scalar PrimitiveValue.value_type] in *; split; intros ->; try done; by destruct Hv. }
  clear -Hp H1 H2. destruct (PrimitiveValue.value_type v); try done; cbn [code]; lia.
Qed.

Lemma codes_ok l : Forall item l → bytes_ok (all_codes l).
Proof.
  intros Hl. induction Hl as [|x l Hx Hl IH]; [constructor|]. apply Forall_app. split; [by apply item_keyed|done].
Qed.

Lemma group_ok l : Forall item l → bytes_ok (group_code l).
Proof. intros Hl. apply Forall_app. split; [by apply codes_ok|bytes_done]. Qed.

Lemma group_cons v l : group_code (v :: l) = key_code v ++ group_code l.
Proof. unfold group_code. cbn [all_codes concat fmap list_fmap]. by rewrite app_assoc. Qed.

Lemma append_items l out : Forall item l → AppendDocKeyItems l out = Ok (out ++ group_code l).
Proof.
  intros Hl. unfold AppendDocKeyItems. rewrite append_all_keyed by (by apply items_keyed). cbn [obind].
  unfold KeyBytes.AppendValueType, group_code. by rewrite app_assoc.
Qed.

Lemma has_value v rest sp : item v → HasPrimitiveValue (key_code v ++ rest) sp = Ok (true, key_code v ++ rest).
Proof.
  intros Hv. destruct (item_tag v Hv) as (l & -> & Ht). destruct Hv as [_ Hp]. cbn [HasPrimitiveValue app].
  rewrite (proj2 (Z.eqb_neq _ _)) by (change (code kGroupEnd) with 33; lia). by rewrite Hp.
Qed.

(** A callback that consumes a component and changes its state by [f]. *)
Definition consumes {S} (callback : S → bytes → outcome (S * bytes)) (f : S → PrimitiveValue.t → S) : Prop :=
  ∀ st v rest, item v → bytes_ok rest → callback st (key_code v ++ rest) = Ok (f st v, rest).

(** Up to a limit, the components of a group are consumed one after the other;
    the end of the group is consumed when the limit has not been reached. *)
Lemma consume_group {S} (cb : S → bytes → outcome (S * bytes)) f sp l limit st rest :
  consumes cb f → Forall item l → bytes_ok rest → 0 <= limit →
  ConsumePrimitiveValuesFromKey cb sp limit st (group_code l ++ rest) =
  Ok (foldl f st (take (Z.to_nat limit) l),
      if Z.of_nat (length l) <? limit then rest else group_code (drop (Z.to_nat limit) l) ++ rest).
Proof.
  intros Hcb Hl Hr. unfold ConsumePrimitiveValuesFromKey.
  assert (length l + 2 ≤ length (group_code l ++ rest) + 1)%nat as Hf.
  { clear -Hl HB HV HA. induction Hl as [|x l Hx Hl IH]; [cbn; lia|]. rewrite group_cons, <- app_assoc, length_app.
    destruct (item_tag x Hx) as (b & -> & _). cbn [length] in *. lia. }
  revert Hf. generalize (length (group_code l ++ rest) + 1)%nat as fuel. revert limit st.
  induction Hl as [|x l Hx Hl IH]; intros limit st fuel Hf Hlim; (destruct fuel as [|fuel]; [cbn [length] in Hf; lia|]); cbn [consume_values].
  - cbn [length]. destruct (Z.leb_spec limit 0); [by replace limit with 0 by lia|]. rewrite (proj2 (Z.ltb_lt _ _)) by lia.
    rewrite take_nil. done.
  - destruct (Z.leb_spec limit 0) as [Hz|Hz].
    { replace limit with 0 by lia. cbn [length]. by rewrite (proj2 (Z.ltb_ge _ _)) by lia. }
    rewrite group_cons, <- app_assoc, has_value by done. cbn [obind negb].
    rewrite (Hcb st x); [|done|by apply Forall_app_2; [apply group_ok|]]. cbn [obind length].
    rewrite IH by (cbn [length] in Hf; lia). replace (Z.to_nat limit) with (Datatypes.S (Z.to_nat (limit - 1))) by lia.
    cbn [take drop foldl]. do 2 f_equal. destruct (Z.ltb_spec (Z.of_nat (length l)) (limit - 1)), (Z.ltb_spec (Z.of_nat (Datatypes.S (length l))) limit); lia || done.
Qed.

(** ** Document keys *)

(** A type that cannot be taken for an identifier or a hash at the start of a key. *)
Definition plain (v : PrimitiveValue.t) : Prop :=
  PrimitiveValue.value_type v ≠ kUInt16Hash ∧ PrimitiveValue.value_type v ≠ kTableId ∧ PrimitiveValue.value_type v ≠ kPgTableOid.

(** A key with at most one identifier, with hashed components only under a hash,
    and fewer components in a group than [kNumValuesNoLimit]. *)
Record wf_key (k : t) : Prop := {
  wf_cotable : Uuid.wf (cotable_id_ k);
  wf_pgtable : is_u32 (pgtable_id_ k);
  wf_ids : cotable_id_ k = Uuid.nil_uuid ∨ pgtable_id_ k = 0;
  wf_hash : hash_present_ k = true → is_u16 (hash_ k);
  wf_no_hash : hash_present_ k = false → hashed_group_ k = [] ∧ ∀ v l, range_group_ k = v :: l → plain v;
  wf_hashed : Forall item (hashed_group_ k);
  wf_range : Forall item (range_group_ k);
  wf_hashed_count : Z.of_nat (length (hashed_group_ k)) < kNumValuesNoLimit;
  wf_range_count : Z.of_nat (length (range_group_ k)) < kNumValuesNoLimit;
}.

Definition id_code (k : t) : bytes :=
  if has_cotable_id k then code kTableId :: Uuid.EncodeToComparable (cotable_id_ k)
  else if has_pgtable_id k then code kPgTableOid :: be_bytes 4 (pgtable_id_ k) else [].
Definition hash_part (k : t) : bytes :=
  if hash_present_ k then code kUInt16Hash :: be_bytes 2 (hash_ k) ++ group_code (hashed_group_ k) else [].
Definition range_part (k : t) : bytes := group_code (range_group_ k).
Definition doc_code (k : t) : bytes := id_code k ++ hash_part k ++ range_part k.

Lemma append_key k out : wf_key k → AppendTo k out = Ok (out ++ doc_code k).
Proof.
  intros Hk. unfold AppendTo, CotableId, PgtableId, doc_code, id_code, has_cotable_id, has_pgtable_id.
  set (o := if negb _ then _ else _). assert (o = out ++ id_code k) as ->.
  { subst o. unfold id_code, has_cotable_id, has_pgtable_id. destruct (Uuid.IsNil _), (0 <? pgtable_id_ k);
      unfold KeyBytes.AppendRawBytes, KeyBytes.AppendValueType, KeyBytes.AppendUInt32, DocKvUtil.AppendUInt32ToKey; by rewrite <- ?app_assoc, ?app_nil_r. }
  fold (has_cotable_id k) (has_pgtable_id k) (id_code k). unfold Hash, Range, hash_part.
  destruct (hash_present_ k) eqn:Eh; cbn [negb obind].
  - rewrite append_items by apply Hk. cbn [obind]. rewrite append_items by apply Hk.
    unfold KeyBytes.AppendUInt16, DocKvUtil.AppendUInt16ToKey, KeyBytes.AppendValueType, KvUtil.Store, u16.
    pose proof (wf_hash k Hk Eh) as Hh. unfold is_u16 in Hh. rewrite Z.mod_small by done. by rewrite <- !app_assoc.
  - rewrite append_items by apply Hk. by rewrite <- app_assoc.
Qed.

Lemma range_ok k rest : wf_key k → bytes_ok rest → bytes_ok (range_part k ++ rest).
Proof. intros Hk Hr. apply Forall_app_2; [apply group_ok, Hk|done]. Qed.

Lemma hash_ok k rest : wf_key k → bytes_ok rest → bytes_ok (hash_part k ++ rest).
Proof.
  intros Hk Hr. apply Forall_app_2; [|done]. unfold hash_part. case_test; [|constructor].
  constructor; [done|]. apply Forall_app_2; [apply be_bytes_ok|apply group_ok, Hk].
Qed.

Lemma doc_code_ok k : wf_key k → bytes_ok (doc_code k).
Proof.
  intros Hk. apply Forall_app_2.
  - unfold id_code. destruct (has_cotable_id k); [|destruct (has_pgtable_id k); [|constructor]]; (constructor; [done|]).
    + apply uuid_bytes, Hk.
    + apply be_bytes_ok.
  - apply hash_ok; [done|]. apply group_ok, Hk.
Qed.

(** *** Identifiers and hash *)

Definition cotable_of (k : t) : option bytes := if has_cotable_id k then Some (cotable_id_ k) else None.
Definition pgtable_of (k : t) : option Z := if has_cotable_id k then None else if has_pgtable_id k then Some (pgtable_id_ k) else None.
Definition hash_of (k : t) : option Z := if hash_present_ k then Some (hash_ k) else None.

(** What follows the hash. *)
Definition after_hash (k : t) : bytes :=
  if hash_present_ k then group_code (hashed_group_ k) ++ range_part k else range_part k.

Lemma group_starts l rest : Forall item l → ∃ b s, group_code l ++ rest = b :: s ∧ (l = [] ∧ b = code kGroupEnd ∨
  ∃ v l', l = v :: l' ∧ b = code (PrimitiveValue.value_type v) ∧ item v).
Proof.
  intros [|x l' Hx Hl]; [eexists _, _; split; [done|by left]|]. destruct (item_tag x Hx) as (b & E & _).
  rewrite group_cons, E. eexists _, _. split; [done|]. right. eauto.
Qed.

(** The first byte after the identifier belongs to no identifier. *)
Lemma after_id k rest :
  wf_key k → ∃ b s, hash_part k ++ range_part k ++ rest = b :: s ∧ b ≠ code kTableId ∧ b ≠ code kPgTableOid.
Proof.
  intros Hk. unfold hash_part. destruct (hash_present_ k) eqn:Eh; [by eexists _, _|].
  destruct (group_starts (range_group_ k) rest) as (b & s & E & Hb); [apply Hk|]. exists b, s. split; [done|].
  destruct Hb as [[_ ->]|(v & l & El & -> & _)]; [done|].
  destruct (wf_no_hash k Hk Eh) as [_ Hp]. destruct (Hp v l El) as (_ & H1 & H2). by split; intros ?%code_inj.
Qed.

Lemma cotable_none b s : b ≠ code kTableId → DecodeCotableId (b :: s) = Ok (None, b :: s).
Proof. intros Hb. unfold DecodeCotableId, Slice.TryConsumeByte. by rewrite (proj2 (Z.eqb_neq _ _)). Qed.

Lemma pgtable_none b s : b ≠ code kPgTableOid → DecodePgtableId (b :: s) = Ok (None, b :: s).
Proof. intros Hb. unfold DecodePgtableId. by rewrite (proj2 (Z.eqb_neq _ _)). Qed.

Lemma cotable_some u s : Uuid.wf u → DecodeCotableId (code kTableId :: Uuid.EncodeToComparable u ++ s) = Ok (Some u, s).
Proof.
  intros Hu. pose proof (uuid_length u Hu) as Hl. unfold DecodeCotableId, Slice.TryConsumeByte. rewrite Z.eqb_refl. cbn [negb].
  rewrite (proj2 (Nat.ltb_ge _ _)) by (rewrite length_app, Hl; unfold Uuid.kUuidSize; lia).
  change Uuid.kUuidSize with 16%nat. rewrite <- Hl, take_app_length. fold (Uuid.DecodeFromComparable (Uuid.EncodeToComparable u)).
  rewrite Uuid.uuid_decode_encode by done. cbn [obind]. by rewrite remove_prefix_app.
Qed.

Lemma pgtable_some n s : is_u32 n → DecodePgtableId (code kPgTableOid :: be_bytes 4 n ++ s) = Ok (Some n, s).
Proof.
  intros Hn. unfold DecodePgtableId. rewrite Z.eqb_refl. cbn [negb].
  rewrite (proj2 (Nat.ltb_ge _ _)) by (rewrite length_app, length_be_bytes; lia). rewrite NumberKeys.load_be_bytes by done. cbn [obind].
  rewrite <- (length_be_bytes 4 n) at 1. by rewrite remove_prefix_app.
Qed.

Lemma decode_ids k rest :
  wf_key k →
  ∃ s, DecodeCotableId (doc_code k ++ rest) = Ok (cotable_of k, s) ∧
    DecodePgtableId s = Ok (pgtable_of k, hash_part k ++ range_part k ++ rest) ∧
    (has_cotable_id k = true → s = hash_part k ++ range_part k ++ rest).
Proof.
  intros Hk. destruct (after_id k rest Hk) as (b & s & E & H1 & H2).
  unfold doc_code. rewrite <- !app_assoc, E. unfold cotable_of, pgtable_of, id_code.
  destruct (has_cotable_id k); [|destruct (has_pgtable_id k)].
  - exists (b :: s). split; [apply cotable_some, Hk|]. split; [by apply pgtable_none|done].
  - rewrite <- app_comm_cons. eexists. split; [by apply cotable_none|]. split; [apply pgtable_some, Hk|done].
  - exists (b :: s). split; [by apply cotable_none|]. split; [by apply pgtable_none|done].
Qed.

Lemma decode_hash_present k s sp :
  wf_key k → hash_present_ k = true → DecodeHashCode (hash_part k ++ s) sp = Ok (Some (hash_ k), group_code (hashed_group_ k) ++ s).
Proof.
  intros Hk Eh. unfold hash_part. rewrite Eh. cbn [app]. rewrite <- !app_assoc. unfold DecodeHashCode.
  assert ((if sp then IsPrimitiveOrSpecialValueType kUInt16Hash else IsPrimitiveValueType kUInt16Hash) = true) as -> by (by destruct sp).
  cbv zeta. cbn [negb]. rewrite Z.eqb_refl. change (code kUInt16Hash =? code kGroupEnd) with false. cbn [negb].
  rewrite (proj2 (Nat.ltb_ge _ _)) by (cbn [length]; rewrite length_app, length_be_bytes; lia).
  rewrite NumberKeys.load_be_bytes by (by apply Hk). cbn [obind].
  change (code kUInt16Hash :: be_bytes 2 (hash_ k) ++ ?x) with ([code kUInt16Hash] ++ be_bytes 2 (hash_ k) ++ x).
  rewrite app_assoc. assert (length ([code kUInt16Hash] ++ be_bytes 2 (hash_ k)) = 3%nat) as <- by (by rewrite length_app, length_be_bytes).
  by rewrite remove_prefix_app.
Qed.

Lemma decode_hash_code k rest sp :
  wf_key k → DecodeHashCode (hash_part k ++ range_part k ++ rest) sp = Ok (hash_of k, after_hash k ++ rest).
Proof.
  intros Hk. unfold hash_of, after_hash. destruct (hash_present_ k) eqn:Eh.
  - rewrite decode_hash_present by done. by rewrite <- app_assoc.
  - unfold hash_part. rewrite Eh. cbn [app]. destruct (group_starts (range_group_ k) rest) as (b & s & E & Hb); [apply Hk|]. unfold range_part. rewrite E.
    cbn [DecodeHashCode]. destruct Hb as [[_ ->]|(v & l & El & -> & Hv)]; [done|]. destruct (item_tag v Hv) as (_ & _ & Ht).
    rewrite (proj2 (Z.eqb_neq _ kGroupEnd)) by (change (code kGroupEnd) with 33; lia).
    assert ((if sp then IsPrimitiveOrSpecialValueType (PrimitiveValue.value_type v) else IsPrimitiveValueType (PrimitiveValue.value_type v)) = true) as ->.
    { unfold IsPrimitiveOrSpecialValueType. rewrite (proj2 Hv). by destruct sp. }
    cbn [negb]. destruct (wf_no_hash k Hk Eh) as [_ Hp]. destruct (Hp v l El) as (H & _).
    rewrite (proj2 (Z.eqb_neq _ _)); [done|]. by intros ?%code_inj.
Qed.

(** *** The template [DoDecode] *)

Definition id_state {S} (c : callback S) (k : t) (st : S) : S :=
  match cotable_of k, pgtable_of k with
  | Some u, _ => SetCoTableId c u st
  | None, Some n => SetPgTableId c n st
  | None, None => st
  end.

Definition unread (part : DocKeyPart) (k : t) : bytes :=
  match part with
  | kUpToId => hash_part k ++ range_part k
  | kUpToHashCode => after_hash k
  | kUpToHash => range_part k
  | kUpToHashOrFirstRange =>
      if hash_present_ k then range_part k
      else match range_group_ k with [] => [] | _ :: l => group_code l end
  | kWholeDocKey => []
  end.

Section Callback.
Context {S : Type} (c : callback S) (h r : S → PrimitiveValue.t → S).
Hypothesis Hh : consumes (hashed_group c) h.
Hypothesis Hr : consumes (range_group c) r.

Definition part_state (part : DocKeyPart) (k : t) (rest : bytes) (st : S) : S :=
  let st := id_state c k st in
  let st_hash := SetHash c (hash_of k) st in
  let hashed := foldl h st_hash (hashed_group_ k) in
  let range l := foldl r (range_start c (range_part k ++ rest) hashed) l in
  match part with
  | kUpToId => st
  | kUpToHashCode => st_hash
  | kUpToHash => hashed
  | kUpToHashOrFirstRange => if hash_present_ k then hashed else range (take 1 (range_group_ k))
  | kWholeDocKey => range (range_group_ k)
  end.

Lemma decode_range_group k rest sp st limit :
  wf_key k → bytes_ok rest → 0 <= limit →
  ConsumePrimitiveValuesFromKey (range_group c) sp limit st (range_part k ++ rest) =
  Ok (foldl r st (take (Z.to_nat limit) (range_group_ k)),
      if Z.of_nat (length (range_group_ k)) <? limit then rest else group_code (drop (Z.to_nat limit) (range_group_ k)) ++ rest).
Proof. intros Hk Hrest Hl. by apply consume_group; [|apply Hk| |]. Qed.

Lemma take_all_values (l : list PrimitiveValue.t) :
  Z.of_nat (length l) < kNumValuesNoLimit → take (Z.to_nat kNumValuesNoLimit) l = l ∧ (Z.of_nat (length l) <? kNumValuesNoLimit) = true.
Proof. intros Hl. split; [apply take_ge; lia|by apply Z.ltb_lt]. Qed.

(** Every part of the key, for every callback. *)
Lemma do_decode part k rest sp st :
  wf_key k → bytes_ok rest →
  DoDecode c part sp st (doc_code k ++ rest) = Ok (part_state part k rest st, unread part k ++ rest).
Proof.
  intros Hk Hrest. destruct (decode_ids k rest Hk) as (s & E1 & E2 & Hs). unfold DoDecode. rewrite E1. cbn [obind].
  set (ids := match cotable_of k with Some u => _ | None => _ end).
  assert (ids = Ok (id_state c k st, hash_part k ++ range_part k ++ rest)) as ->.
  { subst ids. unfold id_state. destruct (cotable_of k) eqn:Ec.
    - rewrite Hs; [done|]. unfold cotable_of in Ec. by destruct (has_cotable_id k).
    - rewrite E2. cbn [obind]. by destruct (pgtable_of k). }
  cbn [obind]. destruct part; cbn [unread]; [| |by rewrite <- app_assoc| |]; rewrite decode_hash_code by done; cbn [obind];
    unfold part_state, after_hash, hash_of; cbv zeta; destruct (hash_present_ k) eqn:Eh;
    rewrite <- ?app_assoc; try done;
    try (destruct (wf_no_hash k Hk Eh) as [-> _]; cbn [obind foldl]);
    try (rewrite (consume_group _ h) by first [done | apply Hk | by apply range_ok]; cbn [obind];
         destruct (take_all_values (hashed_group_ k)) as [-> ->]; [apply Hk|]);
    destruct (group_starts (range_group_ k) rest) as (b & x & E & _); try apply Hk; unfold range_part; rewrite E; try done;
    rewrite <- E; fold (range_part k); unfold MaxRangeComponentsToDecode; cbn [obind];
    (rewrite (proj2 (Z.ltb_lt 0 _)) by (unfold kNumValuesNoLimit; lia)); (rewrite decode_range_group by done);
    try (destruct (take_all_values (range_group_ k)) as [-> ->]; [apply Hk|done]).
  destruct (range_group_ k) as [|v l]; [done|]. cbn [length]. rewrite (proj2 (Z.ltb_ge _ _)) by lia. done.
Qed.

End Callback.

(** *** The callbacks *)

Lemma consumes_value : consumes push_value (λ l v, l ++ [v]).
Proof. intros l v rest Hv Hr. unfold push_value. by rewrite (proj1 (item_decodes v rest Hv Hr)). Qed.

Lemma consumes_slice : consumes push_slice (λ l v, l ++ [key_code v]).
Proof.
  intros l v rest Hv Hr. unfold push_slice. rewrite (proj2 (item_decodes v rest Hv Hr)). cbn [obind].
  by rewrite length_app, Nat.add_sub, take_app_length.
Qed.

Lemma consumes_skip : consumes skip_value (λ u _, u).
Proof. intros l v rest Hv Hr. unfold skip_value. by rewrite (proj2 (item_decodes v rest Hv Hr)). Qed.

Lemma consumes_ignored {S} : consumes (λ (st : S) slice, let! (_, slice) := skip_value () slice in Ok (st, slice)) (λ st _, st).
Proof. intros st v rest Hv Hr. by rewrite (consumes_skip () v rest Hv Hr). Qed.

Lemma foldl_same {S} (st : S) (l : list PrimitiveValue.t) : foldl (λ st _, st) st l = st.
Proof. by induction l. Qed.

Lemma foldl_push {T U} (f : PrimitiveValue.t → U) (put : list U → T → T) (get : T → list U) l st :
  (∀ l st, get (put l st) = l) → (∀ l l' st, put l (put l' st) = put l st) → put (get st) st = st →
  foldl (λ st v, put (get st ++ [f v]) st) st l = put (get st ++ map f l) st.
Proof.
  intros H1 H2. revert st. induction l as [|v l IH]; intros st H3; cbn [foldl map]; [by rewrite app_nil_r|].
  rewrite IH by (by rewrite H1). by rewrite H1, H2, <- app_assoc.
Qed.

Definition set_hashed (l : list PrimitiveValue.t) (k : t) : t :=
  mk (cotable_id_ k) (pgtable_id_ k) (hash_present_ k) (hash_ k) l (range_group_ k).

Lemma consumes_hashed : consumes (hashed_group DecodeFromCallback) (λ k v, set_hashed (hashed_group_ k ++ [v]) k).
Proof. intros k v rest Hv Hr. cbn [hashed_group DecodeFromCallback]. by rewrite (consumes_value _ v rest Hv Hr). Qed.

Lemma consumes_range : consumes (range_group DecodeFromCallback) (λ k v, set_range (range_group_ k ++ [v]) k).
Proof. intros k v rest Hv Hr. cbn [range_group DecodeFromCallback]. by rewrite (consumes_value _ v rest Hv Hr). Qed.

(** *** Decoding into a key *)

(** The key that is read into [self]: an identifier that is not in the code is
    the one that [self] had. *)
Definition read_into (self k : t) : t :=
  mk (if has_cotable_id k then cotable_id_ k else cotable_id_ self)
     (match pgtable_of k with Some n => n | None => pgtable_id_ self end)
     (hash_present_ k) (if hash_present_ k then hash_ k else 0xdead) (hashed_group_ k) (range_group_ k).

Lemma decode_from self k rest sp :
  wf_key k → bytes_ok rest → DecodeFrom self (doc_code k ++ rest) kWholeDocKey sp = Ok (read_into self k, rest).
Proof.
  intros Hk Hr. unfold DecodeFrom. rewrite (do_decode _ _ _ consumes_hashed consumes_range) by done. do 2 f_equal.
  unfold part_state. cbn [unread]. cbv zeta. cbn [range_start DecodeFromCallback].
  rewrite (foldl_push id set_hashed hashed_group_) by done. rewrite (foldl_push id set_range range_group_) by done.
  rewrite !map_id. unfold id_state, read_into, hash_of, cotable_of, pgtable_of.
  destruct (has_cotable_id k), (has_pgtable_id k), (hash_present_ k); done.
Qed.

Lemma encoded_size part k rest sp :
  wf_key k → bytes_ok rest →
  EncodedSize (doc_code k ++ rest) part sp = Ok (length (doc_code k) - length (unread part k))%nat.
Proof.
  intros Hk Hr. unfold EncodedSize. rewrite (do_decode DummyCallback _ _ consumes_skip consumes_skip) by done. cbn [obind].
  rewrite !length_app. f_equal. lia.
Qed.

Lemma encoded_sizes k rest sp :
  wf_key k → bytes_ok rest →
  EncodedHashPartAndDocKeySizes (doc_code k ++ rest) sp = Ok (length (id_code k ++ hash_part k), length (doc_code k)).
Proof.
  intros Hk Hr. unfold EncodedHashPartAndDocKeySizes.
  rewrite (do_decode EncodedSizesCallback _ _ consumes_ignored consumes_ignored) by done. cbn [obind unread app].
  unfold part_state. cbv zeta. rewrite !foldl_same. cbn [range_start EncodedSizesCallback]. unfold doc_code. rewrite !length_app. f_equal. f_equal; lia.
Qed.

(** A code that ends after the hashed group has no start of the range group. *)
Lemma sizes_undefined k sp :
  wf_key k → hash_present_ k = true → EncodedHashPartAndDocKeySizes (id_code k ++ hash_part k) sp = UB.
Proof.
  intros Hk Eh. unfold EncodedHashPartAndDocKeySizes, DoDecode. cbv zeta.
  assert (∃ b s, hash_part k = b :: s ∧ b ≠ code kTableId ∧ b ≠ code kPgTableOid) as (b & s & E & H1 & H2) by (unfold hash_part; rewrite Eh; by eexists _, _).
  assert ((let! (cotable_id, input) := DecodeCotableId (id_code k ++ hash_part k) in
           match cotable_id with
           | Some u => Ok (None, input)
           | None => let! (pgtable_id, input) := DecodePgtableId input in match pgtable_id with Some n => Ok (@None nat, input) | None => Ok (None, input) end
           end) = Ok (None, hash_part k)) as Hids.
  { unfold id_code. destruct (has_cotable_id k); [|destruct (has_pgtable_id k)]; cbn [app].
    - rewrite cotable_some by apply Hk. done.
    - rewrite cotable_none by done. cbn [obind]. rewrite pgtable_some by apply Hk. done.
    - rewrite E, cotable_none by done. cbn [obind]. rewrite pgtable_none by done. done. }
  destruct (DecodeCotableId (id_code k ++ hash_part k)) as [[cotable input]|?| |]; [|done..]. cbn [obind] in Hids |- *.
  cbn [SetCoTableId SetPgTableId SetHash EncodedSizesCallback]. rewrite Hids. cbn [obind].
  rewrite <- (app_nil_r (hash_part k)), decode_hash_present by done. cbn [obind].
  rewrite (consume_group _ (λ st _, st)); [|exact consumes_ignored|apply Hk|constructor|done]. cbn [obind].
  destruct (take_all_values (hashed_group_ k)) as [-> ->]; [apply Hk|]. by rewrite foldl_same.
Qed.

Lemma partially_decode k rest out :
  wf_key k → bytes_ok rest → PartiallyDecode (doc_code k ++ rest) out = Ok (out ++ map key_code (range_group_ k), rest).
Proof.
  intros Hk Hr. unfold PartiallyDecode. rewrite (do_decode DecodeDocKeyCallback _ _ consumes_ignored consumes_slice) by done.
  unfold part_state. cbv zeta. rewrite foldl_same. rewrite (foldl_push key_code (λ l _, l) (λ l, l)) by done.
  unfold id_state. cbn [unread app]. by destruct (cotable_of k), (pgtable_of k).
Qed.

(** *** Order *)

Lemma compare_vectors l l' : CompareVectors l l' = compare_all (compare_sizes kFrozen l l') l l'.
Proof.
  revert l'. induction l as [|x l IH]; intros [|y l']; [done..|]. rewrite compare_sizes_cons. cbn [CompareVectors compare_all].
  destruct (PrimitiveValue.CompareTo x y) as [[]|?| |]; [|done..]. apply IH.
Qed.

Lemma item_element v : item v → ordered v → element v.
Proof. intros Hv Ho. destruct (item_tag v Hv) as (_ & _ & Ht). split; [done|]. change (code kGroupEnd) with 33. change (code kGroupEndDescending) with 125. lia. Qed.

Lemma compare_groups l l' :
  Forall item l → Forall item l' → Forall ordered l → Forall ordered l' →
  ∃ c, CompareVectors l l' = Ok c ∧ follows c (group_code l) (group_code l').
Proof.
  intros Hl Hl' Ho Ho'. rewrite compare_vectors. apply (compare_elements kFrozen); [by left| |].
  - rewrite !Forall_forall in *. intros x Hx. split; [by apply item_keyed, Hl|]. split; [apply item_element; auto|].
    intros y Hy Hoy. apply key_order; [|done|by apply Ho|done]. by apply Hl.
  - rewrite !Forall_forall in *. intros x Hx. split; [|apply item_element; auto]. by apply Hl'.
Qed.

(** Keys whose order is defined: the components are ordered and the version of
    the identifier is one that [Uuid] knows. *)
Record ordered_key (k : t) : Prop := {
  ordered_cotable : 0 <= Uuid.at_ (cotable_id_ k) 6 / 16 <= 5;
  ordered_hashed : Forall ordered (hashed_group_ k);
  ordered_range : Forall ordered (range_group_ k);
}.

(** Keys of one table have the same parts. *)
Definition same_shape (k k' : t) : Prop :=
  has_cotable_id k = has_cotable_id k' ∧ has_pgtable_id k = has_pgtable_id k' ∧ hash_present_ k = hash_present_ k'.

Lemma compare_uuids u w :
  Uuid.wf u → Uuid.wf w → 0 <= Uuid.at_ u 6 / 16 <= 5 → 0 <= Uuid.at_ w 6 / 16 <= 5 →
  follows (CompareUsingLessThan Uuid.lt u w) (Uuid.EncodeToComparable u) (Uuid.EncodeToComparable w).
Proof.
  intros Hu Hw Hv Hv' s t. rewrite Uuid.uuid_encode_compare by done. unfold CompareUsingLessThan, compare_using.
  destruct (Uuid.lt u w); [done|]. by destruct (Uuid.lt w u).
Qed.

Lemma nil_only k : has_cotable_id k = false → cotable_id_ k = Uuid.nil_uuid.
Proof. unfold has_cotable_id, Uuid.IsNil. intros H. by bool_tests. Qed.

Lemma nil_wf : Uuid.wf Uuid.nil_uuid.
Proof. split; [done|]. by apply Forall_replicate. Qed.

Lemma zero_only k : wf_key k → has_pgtable_id k = false → pgtable_id_ k = 0.
Proof. intros Hk H. pose proof (wf_pgtable k Hk). unfold has_pgtable_id, is_u32 in *. bool_tests. lia. Qed.

Lemma one_id k : wf_key k → has_cotable_id k = true → has_pgtable_id k = false.
Proof.
  intros Hk H. unfold has_cotable_id, has_pgtable_id, Uuid.IsNil in *. destruct (wf_ids k Hk) as [E|E]; rewrite E in *; [|done].
  by rewrite bool_decide_true in H.
Qed.

Lemma compare_self_uuid u : Uuid.wf u → 0 <= Uuid.at_ u 6 / 16 <= 5 → CompareUsingLessThan Uuid.lt u u = Eq.
Proof. intros Hu Hv. rewrite uuid_compare by done. apply bytes_compare_refl. Qed.

Lemma compare_ids k k' :
  wf_key k → wf_key k' → ordered_key k → ordered_key k' → same_shape k k' →
  follows (match CompareUsingLessThan Uuid.lt (cotable_id_ k) (cotable_id_ k') with
           | Eq => CompareUsingLessThan Z.ltb (pgtable_id_ k) (pgtable_id_ k')
           | c => c end) (id_code k) (id_code k').
Proof.
  intros Hk Hk' Ho Ho' (E1 & E2 & _). unfold id_code. rewrite <- E1, <- E2. destruct (has_cotable_id k) eqn:Ec.
  - pose proof (compare_uuids (cotable_id_ k) (cotable_id_ k') (wf_cotable k Hk) (wf_cotable k' Hk') (ordered_cotable k Ho) (ordered_cotable k' Ho')) as H.
    pose proof (one_id k Hk Ec) as Hp. rewrite (zero_only k), (zero_only k') by congruence.
    apply follows_cons. by destruct (CompareUsingLessThan _ _ _).
  - rewrite (nil_only k), (nil_only k'), compare_self_uuid by (done || apply nil_wf || congruence). rewrite compare_using_ltb.
    destruct (has_pgtable_id k) eqn:Ep.
    + apply follows_cons, follows_be; [apply Hk|apply Hk'].
    + rewrite (zero_only k), (zero_only k') by congruence. apply follows_refl.
Qed.

Lemma compare_hashes k k' :
  wf_key k → wf_key k' → ordered_key k → ordered_key k' → hash_present_ k = hash_present_ k' →
  ∃ c, CompareVectors (hashed_group_ k) (hashed_group_ k') = Ok c ∧
    follows (match (if hash_present_ k then CompareUsingLessThan Z.ltb (hash_ k) (hash_ k') else Eq) with Eq => c | c' => c' end)
      (hash_part k) (hash_part k').
Proof.
  intros Hk Hk' Ho Ho' E. unfold hash_part. rewrite <- E. destruct (hash_present_ k) eqn:Eh.
  - destruct (compare_groups (hashed_group_ k) (hashed_group_ k')) as (c & Hc & Hf); [apply Hk|apply Hk'|apply Ho|apply Ho'|].
    exists c. split; [done|]. rewrite compare_using_ltb. apply follows_cons.
    assert (follows (hash_ k ?= hash_ k') (be_bytes 2 (hash_ k)) (be_bytes 2 (hash_ k'))) as Hb by (apply follows_be; [by apply Hk|by apply Hk']).
    pose proof (follows_app _ _ _ _ _ _ Hb Hf) as H. by destruct (_ ?= _).
  - destruct (wf_no_hash k Hk Eh) as [-> _], (wf_no_hash k' Hk') as [-> _]; [congruence|]. exists Eq. split; [done|]. apply follows_refl.
Qed.

Lemma compare_keys k k' :
  wf_key k → wf_key k' → ordered_key k → ordered_key k' → same_shape k k' →
  ∃ c, CompareTo k k' = Ok c ∧ follows c (doc_code k) (doc_code k').
Proof.
  intros Hk Hk' Ho Ho' Hs. pose proof (compare_ids k k' Hk Hk' Ho Ho' Hs) as H1. destruct Hs as (_ & _ & E).
  destruct (compare_hashes k k' Hk Hk' Ho Ho' E) as (ch & Eh & H2).
  destruct (compare_groups (range_group_ k) (range_group_ k')) as (cr & Er & H3); [apply Hk|apply Hk'|apply Ho|apply Ho'|].
  pose proof (follows_app _ _ _ _ _ _ H1 (follows_app _ _ _ _ _ _ H2 H3)) as H. fold (doc_code k) (doc_code k') in H.
  unfold CompareTo. rewrite <- E, Eh, Er.
  assert (CompareUsingLessThan bool_lt (hash_present_ k) (hash_present_ k) = Eq) as -> by (by destruct (hash_present_ k)).
  set (ci := CompareUsingLessThan Uuid.lt (cotable_id_ k) (cotable_id_ k')) in *.
  set (cp := CompareUsingLessThan Z.ltb (pgtable_id_ k) (pgtable_id_ k')) in *.
  set (cx := if hash_present_ k then CompareUsingLessThan Z.ltb (hash_ k) (hash_ k') else Eq) in *.
  destruct ci, cp, cx; cbn [obind]; try destruct ch; eexists; (split; [reflexivity|exact H]).
Qed.

(** *** Equality *)

Lemma vectors_eq l l' :
  Forall item l → Forall item l' → Forall ordered l → Forall ordered l' → ∃ b, eq_vectors l l' = Ok b ∧ (b = true ↔ l = l').
Proof.
  intros Hl Hl' Ho Ho'. unfold eq_vectors. destruct (Nat.eqb_spec (length l) (length l')) as [Hlen|Hlen]; cbn [negb];
    [|exists false; split; [done|]; split; congruence].
  assert (∀ a b, eq_elements a b = eq_all a b) as -> by (intros a; induction a as [|x a IH]; intros [|y b]; [done..|];
    cbn [eq_elements eq_all]; destruct (PrimitiveValue.eq x y) as [[]|?| |]; [apply IH|done..]).
  apply eq_all_spec; [| |done]; rewrite !Forall_forall in *.
  - intros x Hx y Hy Hoy. apply value_eq; [|done|by apply Ho|done]. by apply Hl.
  - intros x Hx. split; [by apply Hl'|by apply Ho'].
Qed.

(** Keys with the same parts; the hash counts only when it is present. *)
Definition same_key (k k' : t) : Prop := read_into empty_key k = read_into empty_key k'.

Lemma read_ids k : wf_key k → cotable_id_ (read_into empty_key k) = cotable_id_ k ∧ pgtable_id_ (read_into empty_key k) = pgtable_id_ k.
Proof.
  intros Hk. unfold read_into, pgtable_of. cbn [cotable_id_ pgtable_id_ empty_key]. destruct (has_cotable_id k) eqn:Ec; split; try done.
  - by rewrite (zero_only k) by (done || by apply one_id).
  - by rewrite nil_only.
  - destruct (has_pgtable_id k) eqn:Ep; [done|]. by rewrite zero_only.
Qed.

Lemma same_key_parts k k' :
  wf_key k → wf_key k' → same_key k k' ↔
  cotable_id_ k = cotable_id_ k' ∧ pgtable_id_ k = pgtable_id_ k' ∧ hash_of k = hash_of k' ∧
  hashed_group_ k = hashed_group_ k' ∧ range_group_ k = range_group_ k'.
Proof.
  intros Hk Hk'. destruct (read_ids k Hk) as [E1 E2], (read_ids k' Hk') as [E3 E4]. unfold same_key, hash_of. split.
  - intros E. rewrite <- E1, <- E2, <- E3, <- E4, E. split_and!; [done|done| | |].
    + apply (f_equal (λ k, (hash_present_ k, hash_ k))) in E. cbn [read_into hash_present_ hash_] in E.
      destruct (hash_present_ k), (hash_present_ k'); congruence.
    + by apply (f_equal hashed_group_) in E.
    + by apply (f_equal range_group_) in E.
  - intros (F1 & F2 & F3 & F4 & F5). rewrite <- E1, <- E3 in F1. rewrite <- E2, <- E4 in F2. unfold read_into in *. cbn [cotable_id_ pgtable_id_] in *.
    rewrite F1, F2, F4, F5. destruct (hash_present_ k), (hash_present_ k'); congruence.
Qed.

Lemma same_key_code k k' : wf_key k → wf_key k' → same_key k k' ↔ doc_code k = doc_code k'.
Proof.
  intros Hk Hk'. split.
  - rewrite same_key_parts by done. intros (E1 & E2 & E3 & E4 & E5).
    unfold doc_code, id_code, hash_part, range_part, has_cotable_id, has_pgtable_id, hash_of in *. rewrite E1, E2, E4, E5.
    destruct (hash_present_ k), (hash_present_ k'); congruence.
  - intros E. pose proof (decode_from empty_key k [] false Hk ltac:(constructor)) as H1.
    pose proof (decode_from empty_key k' [] false Hk' ltac:(constructor)) as H2. rewrite E, H2 in H1. unfold same_key. congruence.
Qed.

Lemma key_eq k k' :
  wf_key k → wf_key k' → ordered_key k → ordered_key k' → ∃ b, eq k k' = Ok b ∧ (b = true ↔ same_key k k').
Proof.
  intros Hk Hk' Ho Ho'. setoid_rewrite (same_key_parts k k' Hk Hk'). unfold eq.
  destruct (bool_decide (cotable_id_ k = cotable_id_ k')) eqn:E1; bool_tests; cbn [negb]; [|exists false; split; [done|naive_solver]].
  destruct (pgtable_id_ k =? pgtable_id_ k') eqn:E2; bool_tests; cbn [negb]; [|exists false; split; [done|naive_solver]].
  destruct (vectors_eq (range_group_ k) (range_group_ k')) as (b & Eb & Hb); [apply Hk|apply Hk'|apply Ho|apply Ho'|].
  destruct (vectors_eq (hashed_group_ k) (hashed_group_ k')) as (b' & Eb' & Hb'); [apply Hk|apply Hk'|apply Ho|apply Ho'|].
  unfold HashedComponentsEqual, hash_of. rewrite Eb. destruct (hash_present_ k) eqn:Ep, (hash_present_ k') eqn:Ep'; cbn [Bool.eqb negb obind];
    try (exists false; split; [done|split; [done|naive_solver]]).
  - destruct (hash_ k =? hash_ k') eqn:E3; bool_tests; cbn [negb obind]; [|exists false; split; [done|naive_solver]].
    rewrite Eb', E3. cbn [obind]. destruct b'; [exists b|exists false]; (split; [done|naive_solver]).
  - destruct (wf_no_hash k Hk Ep) as [-> _], (wf_no_hash k' Hk' Ep') as [-> _]. exists b. split; [done|naive_solver].
Qed.

(** *** Parts of codes *)

Lemma unread_suffix part k : wf_key k → ∃ p, doc_code k = p ++ unread part k.
Proof.
  intros Hk. unfold doc_code. destruct part; cbn [unread]; unfold after_hash, hash_part.
  - destruct (hash_present_ k); [|by eexists (id_code k)]. exists (id_code k ++ code kUInt16Hash :: be_bytes 2 (hash_ k)).
    by rewrite <- !app_assoc, <- app_comm_cons, <- app_assoc.
  - rewrite app_assoc. by eexists.
  - by eexists.
  - destruct (hash_present_ k); [rewrite app_assoc; by eexists|]. unfold range_part. cbn [app].
    destruct (range_group_ k) as [|v l]; [eexists; by rewrite app_nil_r|]. rewrite group_cons, app_assoc. by eexists.
  - eexists. by rewrite app_nil_r.
Qed.

(** The part of the code that is read. *)
Definition read_part (part : DocKeyPart) (k : t) : bytes := take (length (doc_code k) - length (unread part k)) (doc_code k).

Lemma read_unread part k : wf_key k → doc_code k = read_part part k ++ unread part k.
Proof.
  intros Hk. destruct (unread_suffix part k Hk) as [p E]. unfold read_part. by rewrite E, length_app, Nat.add_sub, take_app_length.
Qed.

Lemma size_of_part part k rest sp :
  wf_key k → bytes_ok rest → EncodedSize (doc_code k ++ rest) part sp = Ok (length (read_part part k)).
Proof.
  intros Hk Hr. rewrite encoded_size by done. f_equal. pose proof (f_equal length (read_unread part k Hk)) as E. rewrite length_app in E. lia.
Qed.

Lemma take_part part k rest : wf_key k → take (length (read_part part k)) (doc_code k ++ rest) = read_part part k.
Proof. intros Hk. rewrite (read_unread part k Hk) at 1. by rewrite <- app_assoc, take_app_length. Qed.

Lemma hash_part_read k : wf_key k → read_part kUpToHash k = id_code k ++ hash_part k.
Proof.
  intros Hk. pose proof (read_unread kUpToHash k Hk) as E. cbn [unread] in E. unfold doc_code in E. rewrite app_assoc in E.
  by apply app_inv_tail in E.
Qed.

Lemma decode_doc_key_hash k rest : wf_key k → bytes_ok rest → EncodedKeys.DecodeDocKeyHash (doc_code k ++ rest) = Ok (hash_of k).
Proof.
  intros Hk Hr. unfold EncodedKeys.DecodeDocKeyHash, DecodeFrom. rewrite (do_decode _ _ _ consumes_hashed consumes_range) by done. cbn [obind].
  unfold part_state, hash_of. cbn [SetHash DecodeFromCallback hash_present_ hash_]. by destruct (hash_present_ k).
Qed.

Lemma range_group_of k rest : wf_key k → bytes_ok rest → DecodeToRangeGroup (doc_code k ++ rest) = Ok (range_part k ++ rest).
Proof.
  intros Hk Hr. unfold DecodeToRangeGroup. destruct (decode_ids k rest Hk) as (s & -> & E & _). cbn [obind]. rewrite E. cbn [obind].
  rewrite decode_hash_code by done. cbn [obind]. unfold hash_of, after_hash. destruct (hash_present_ k); [|done]. rewrite <- app_assoc.
  pose proof (wf_hashed k Hk) as Hl. pose proof (range_ok k rest Hk Hr) as Hok. revert Hok. generalize (range_part k ++ rest) as r. intros r Hok.
  assert (length (hashed_group_ k) + 1 ≤ length (group_code (hashed_group_ k) ++ r) + 1)%nat as Hf.
  { clear -Hl HB HV HA. induction Hl as [|x l Hx Hl IH]; [cbn; lia|]. rewrite group_cons, <- app_assoc, length_app.
    destruct (item_tag x Hx) as (b & -> & _). cbn [length] in *. lia. }
  revert Hf. generalize (length (group_code (hashed_group_ k) ++ r) + 1)%nat as fuel.
  induction Hl as [|x l Hx Hl IH]; intros fuel Hf; (destruct fuel as [|fuel]; [cbn [length] in Hf; lia|]).
  - done.
  - rewrite group_cons, <- app_assoc, has_value by done. cbn [obind negb]. unfold DecodePrimitiveValue. cbn [andb].
    rewrite (proj2 (item_decodes x _ Hx ltac:(apply Forall_app_2; [by apply group_ok|done]))). cbn [obind]. apply IH. cbn [length] in Hf. lia.
Qed.

(** Cutting off the range components of a code gives the code of the key without them. *)
Lemma clear_range k :
  wf_key k →
  EncodedKeys.ClearRangeComponents (doc_code k) false = Ok (negb (bool_decide (range_group_ k = [])), doc_code (ClearRangeComponents k)).
Proof.
  intros Hk. unfold EncodedKeys.ClearRangeComponents.
  pose proof (size_of_part kUpToHash k [] false Hk ltac:(constructor)) as E. rewrite app_nil_r in E. rewrite E. cbn [obind].
  pose proof (read_unread kUpToHash k Hk) as Er. cbn [unread] in Er. rewrite Er, length_app.
  assert (doc_code (ClearRangeComponents k) = read_part kUpToHash k ++ [code kGroupEnd]) as ->.
  { rewrite hash_part_read by done. unfold doc_code. by rewrite <- app_assoc. }
  unfold range_part. destruct (range_group_ k) as [|v l] eqn:El.
  - rewrite Nat.eqb_refl. rewrite lookup_app_r, Nat.sub_diag by lia. done.
  - assert (item v) as Hv by (pose proof (wf_range k Hk) as H; rewrite El in H; by inversion H).
    rewrite group_cons. destruct (item_tag v Hv) as (b & -> & _). rewrite <- app_comm_cons. cbn [length].
    assert (1 ≤ length (b ++ group_code l))%nat by (unfold group_code; rewrite !length_app; cbn [length]; lia).
    rewrite (proj2 (Nat.eqb_neq _ _)) by lia. rewrite (proj2 (Nat.ltb_lt _ _)) by lia. by rewrite take_app_length.
Qed.

(** *** Every slice *)

(** A step that returns and does not lengthen its slice, or shortens it. *)
Definition returns {T} (slice : bytes) (m : outcome (T * bytes)) : Prop :=
  m ≠ Fatal ∧ ∀ x r, m = Ok (x, r) → (length r ≤ length slice)%nat.
Definition advances {T} (slice : bytes) (m : outcome (T * bytes)) : Prop :=
  m ≠ Fatal ∧ ∀ x r, m = Ok (x, r) → (length r < length slice)%nat.

Lemma returns_bind {T U} slice (m : outcome (T * bytes)) (f : T → bytes → outcome (U * bytes)) :
  returns slice m → (∀ x r, returns r (f x r)) → returns slice (let! (x, r) := m in f x r).
Proof.
  intros [Hm Hl] Hf. destruct m as [[x r]|?| |]; [|done..]. cbn [obind]. destruct (Hf x r) as [H1 H2]. split; [done|].
  intros y s E. specialize (H2 y s E). specialize (Hl x r eq_refl). lia.
Qed.

Lemma returns_ok {T} slice (x : T) : returns slice (Ok (x, slice)).
Proof. split; [done|]. intros ? ? [= <- <-]. lia. Qed.

Lemma returns_drop {T U} slice (m : outcome T) n (f : T → U) :
  m ≠ Fatal → returns slice (let! x := m in let! r := Slice.remove_prefix slice n in Ok (f x, r)).
Proof.
  intros Hm. destruct m as [x|?| |]; [|done..]. cbn [obind]. unfold Slice.remove_prefix. case_decide; [|done]. cbn [obind].
  split; [done|]. intros ? ? [= <- <-]. rewrite length_drop. lia.
Qed.

Lemma returns_cons {T} b slice (m : outcome (T * bytes)) : returns slice m → returns (b :: slice) m.
Proof. intros [H1 H2]. split; [done|]. intros x r E. specialize (H2 x r E). cbn [length]. lia. Qed.

Lemma value_advances slice : advances slice (PrimitiveValue.DecodeFromKey slice) ∧ advances slice (PrimitiveValue.SkipKey slice).
Proof.
  unfold PrimitiveValue.DecodeFromKey, PrimitiveValue.SkipKey, PrimitiveValue.enough.
  split; [destruct (leaves_key (2 * length slice + 1) true slice) as [H _]|destruct (leaves_key (2 * length slice + 1) false slice) as [H _]];
    destruct H as [[H _] Hl]; (lia || by split).
Qed.

Lemma ids_return slice : returns slice (DecodeCotableId slice) ∧ returns slice (DecodePgtableId slice).
Proof.
  split; destruct slice as [|b l]; [apply returns_ok| |apply returns_ok|].
  - unfold DecodeCotableId, Slice.TryConsumeByte. case_test; cbn [negb]; [apply returns_ok|]. case_test; [done|].
    apply returns_cons, (returns_drop _ _ _ Some), uuid_ends.
  - cbn [DecodePgtableId]. case_test; [apply returns_ok|]. case_test; [done|]. apply returns_cons, (returns_drop _ _ _ Some).
    unfold KvUtil.Load. by case_decide.
Qed.

Lemma hash_returns slice sp : returns slice (DecodeHashCode slice sp).
Proof.
  destruct slice as [|b l]; [apply returns_ok|]. unfold DecodeHashCode. cbv zeta. case_test; [apply returns_ok|].
  case_test; [done|]. case_test; [apply returns_ok|]. case_test; [done|]. apply (returns_drop _ _ _ Some). unfold KvUtil.Load. by case_decide.
Qed.

Lemma has_returns slice sp : returns slice (HasPrimitiveValue slice sp).
Proof.
  destruct slice as [|b l]; [done|]. cbn [HasPrimitiveValue]. case_test; [apply returns_cons, returns_ok|].
  repeat (case_test; [apply returns_ok|]). done.
Qed.

Lemma consume_returns {S} (cb : S → bytes → outcome (S * bytes)) sp limit st slice :
  (∀ st slice, advances slice (cb st slice)) → returns slice (ConsumePrimitiveValuesFromKey cb sp limit st slice).
Proof.
  intros Hcb. unfold ConsumePrimitiveValuesFromKey. assert (length slice < length slice + 1)%nat as Hf by lia. revert Hf.
  generalize (length slice + 1)%nat as fuel. intros fuel. revert limit st slice.
  induction fuel as [|fuel IH]; intros limit st slice Hf; [lia|]. cbn [consume_values]. case_test; [apply returns_ok|].
  destruct (has_returns slice sp) as [H1 H2]. destruct (HasPrimitiveValue slice sp) as [[more r]|?| |]; [|done..]. cbn [obind].
  specialize (H2 more r eq_refl). destruct more; cbn [negb]; [|split; [done|by intros ? ? [= <- <-]]].
  destruct (Hcb st r) as [H3 H4]. destruct (cb st r) as [[st' r']|?| |]; [|done..]. cbn [obind]. specialize (H4 st' r' eq_refl).
  destruct (IH (limit - 1) st' r') as [H5 H6]; [lia|]. split; [done|]. intros x s E. specialize (H6 x s E). lia.
Qed.

Lemma range_returns {S} (c : callback S) part sp h st slice :
  (∀ st slice, advances slice (range_group c st slice)) → part ≠ kUpToId →
  returns slice match slice with
    | [] => Ok (st, slice)
    | _ :: _ =>
        let! max_components := MaxRangeComponentsToDecode part h in
        if 0 <? max_components then ConsumePrimitiveValuesFromKey (range_group c) sp max_components (range_start c slice st) slice
        else Ok (st, slice)
    end.
Proof.
  intros Hr Hp. destruct slice as [|b s]; [apply returns_ok|]. destruct part; try done; cbn [MaxRangeComponentsToDecode obind]; case_test;
    first [apply returns_ok | by apply consume_returns].
Qed.

Lemma decode_returns {S} (c : callback S) part sp st slice :
  (∀ st slice, advances slice (hashed_group c st slice)) → (∀ st slice, advances slice (range_group c st slice)) →
  returns slice (DoDecode c part sp st slice).
Proof.
  intros Hh Hr. unfold DoDecode. apply returns_bind; [apply ids_return|]. intros cot s.
  apply returns_bind; [destruct cot; [apply returns_ok|apply returns_bind; [apply ids_return|intros [] ?; apply returns_ok]]|].
  intros st1 s1. destruct part; try apply returns_ok; (apply returns_bind; [apply hash_returns|]); intros h s2;
    (destruct h; try apply returns_ok; (apply returns_bind; [first [apply returns_ok | by apply consume_returns]|]); intros st2 s3);
    (match goal with |- context [MaxRangeComponentsToDecode ?p ?b] => by apply (range_returns c p sp b) end).
Qed.

End Codec.

(** ** Properties *)

(** The codes of document keys of one shape sort as [CompareTo] says, whatever follows them, and [operator==] holds exactly
    for the keys that compare as equal. *)
Theorem doc_key_order
    {B : BigNum} {HB : BigNumSpec B} {V : UuidVersion} {HV : UuidVersionSpec V} {A : IpAddress} {HA : IpAddressSpec A} (k k' : t) :
  wf_key k → wf_key k' → ordered_key k → ordered_key k' → same_shape k k' →
  ∃ e e' c b, Encode k = Ok e ∧ Encode k' = Ok e' ∧ CompareTo k k' = Ok c ∧ eq k k' = Ok b ∧ (b = true ↔ c = Eq) ∧
    ∀ s t, bytes_compare (e ++ s) (e' ++ t) = match c with Eq => bytes_compare s t | _ => c end.
Proof.
  intros Hk Hk' Ho Ho' Hs. destruct (compare_keys k k' Hk Hk' Ho Ho' Hs) as (c & Hc & Hf), (key_eq k k' Hk Hk' Ho Ho') as (b & Hb & Heq).
  exists (doc_code k), (doc_code k'), c, b. unfold Encode. rewrite !append_key by done. split_and!; [done..| |exact Hf].
  rewrite Heq, same_key_code by done. apply follows_bytes in Hf. rewrite <- Hf. split; [intros ->; apply bytes_compare_refl|apply bytes_compare_eq].
Qed.

Definition sample_key (u : bytes) (s : bytes) (n : Z) : t :=
  of_cotable (A := BytesAddress) u 0x1234 [PrimitiveValue.of_string s PrimitiveValue.kAscending]
    [PrimitiveValue.Int32 n PrimitiveValue.kDescending; sample 7].

Lemma sample_key_wf s n :
  bytes_ok s → is_i32 n → let k := sample_key (Uuid.sample 4) s n in wf_key k ∧ ordered_key k.
Proof.
  intros Hs Hn. destruct (sample_value 7 ltac:(unfold is_i32; lia)) as [W O]. split; split; try done; try (by right);
    try (apply Uuid.uuid_sample_wf; lia); try (unfold is_u32; cbn; lia).
  - by repeat apply Forall_cons_2; try apply Forall_nil_2.
  - apply Forall_cons_2; [by split|]. by apply Forall_cons_2; [|apply Forall_nil_2].
Qed.

Lemma doc_key_order_witness :
  ∃ e e', Encode (sample_key (Uuid.sample 4) [97; 0] 7) = Ok e ∧ Encode (sample_key (Uuid.sample 4) [97; 0] 8) = Ok e' ∧
    bytes_compare (e ++ [0]) (e' ++ [255]) = Gt.
Proof.
  destruct (sample_key_wf [97; 0] 7) as [W O]; [bytes_done|unfold is_i32; lia|].
  destruct (sample_key_wf [97; 0] 8) as [W' O']; [bytes_done|unfold is_i32; lia|].
  destruct (doc_key_order (sample_key (Uuid.sample 4) [97; 0] 7) (sample_key (Uuid.sample 4) [97; 0] 8) W W' O O') as (e & e' & c & b & E & E' & Ec & _ & _ & Hc);
    [by repeat split|].
  exists e, e'. split; [exact E|]. split; [exact E'|]. rewrite Hc. vm_compute in Ec. injection Ec as <-. reflexivity.
Defined.

(** A document key decodes from its code, whatever follows it, into any key object [self]: to the key itself, with the identifiers
    of [self] where the key has none, because [Clear] leaves them.  Into an object without identifiers, the key itself is read;
    into one with the identifier of a table, a key without identifier is read as a key of that table. *)
Theorem doc_key_roundtrip
    {B : BigNum} {HB : BigNumSpec B} {V : UuidVersion} {HV : UuidVersionSpec V} {A : IpAddress} {HA : IpAddressSpec A} (k self : t) :
  wf_key k →
  ∃ e, Encode k = Ok e ∧
    (∀ rest allow_special, bytes_ok rest → DecodeFrom self (e ++ rest) kWholeDocKey allow_special = Ok (read_into self k, rest)) ∧
    FullyDecodeFrom self e = Ok (read_into self k) ∧
    (has_cotable_id self = false → pgtable_id_ self = 0 → hash_present_ k = true → read_into self k = k) ∧
    (id_code k = [] → has_cotable_id self = true →
     BelongsTo k Uuid.nil_uuid 0 = true ∧ BelongsTo (read_into self k) Uuid.nil_uuid 0 = false).
Proof.
  intros Hk. exists (doc_code k). split; [by apply (append_key k [])|]. split; [intros; by apply decode_from|]. split; [|split].
  - unfold FullyDecodeFrom. rewrite <- (app_nil_r (doc_code k)), decode_from by (done || constructor). done.
  - intros Hc Hp Hh. destruct (read_ids k Hk) as [E1 E2]. unfold read_into in *. cbn [cotable_id_ pgtable_id_ empty_key] in *.
    rewrite (nil_only self Hc), Hp, E1, E2. clear -Hh. destruct k. cbn [hash_present_] in Hh. by subst.
  - intros Hid Hs. unfold id_code in Hid. destruct (has_cotable_id k) eqn:Ec; [done|]. destruct (has_pgtable_id k) eqn:Ep; [done|].
    unfold BelongsTo, read_into, pgtable_of. cbn [cotable_id_ pgtable_id_]. rewrite Ec, Ep. unfold has_cotable_id, has_pgtable_id in *. bool_tests.
    rewrite Ec. rewrite Hs. cbn [negb]. split.
    + by rewrite (proj2 (Z.ltb_ge _ _)).
    + apply bool_decide_eq_false. intros E. by rewrite E in Hs.
Qed.

Lemma doc_key_roundtrip_witness :
  ∃ e, Encode (sample_key (Uuid.sample 4) [97; 0] 7) = Ok e ∧
    DecodeFrom empty_key (e ++ [9]) kWholeDocKey false = Ok (sample_key (Uuid.sample 4) [97; 0] 7, [9]).
Proof.
  destruct (sample_key_wf [97; 0] 7) as [W O]; [bytes_done|unfold is_i32; lia|].
  destruct (doc_key_roundtrip (sample_key (Uuid.sample 4) [97; 0] 7) empty_key W) as (e & E & Hd & _ & Hr & _).
  exists e. split; [exact E|]. rewrite Hd by bytes_done. rewrite Hr; reflexivity.
Defined.

(** C26: Every part of the code has the size that [EncodedSize] reports: the identifier, the hash, the hashed group, the first range
    component and the whole key; the range components are cut out and the hash is read from the code, and cutting off the range
    components gives the code of the key without them.  What [DecodeHash] returns for a key without a hash is undefined. *)
Theorem doc_key_parts
    {B : BigNum} {HB : BigNumSpec B} {V : UuidVersion} {HV : UuidVersionSpec V} {A : IpAddress} {HA : IpAddressSpec A} (k : t) (rest : bytes) :
  wf_key k → bytes_ok rest →
  ∃ e, Encode k = Ok e ∧
    (∀ part, ∃ p, e = p ++ unread part k ∧
       (∀ allow_special, EncodedSize (e ++ rest) part allow_special = Ok (length p)) ∧ EncodedKeys.Transform part (e ++ rest) = Ok p) ∧
    (∀ allow_special, EncodedHashPartAndDocKeySizes (e ++ rest) allow_special = Ok (length (id_code k ++ hash_part k), length e)) ∧
    (∀ out, PartiallyDecode (e ++ rest) out = Ok (out ++ map key_code (range_group_ k), rest)) ∧
    EncodedKeys.DecodeDocKeyHash (e ++ rest) = Ok (hash_of k) ∧
    DecodeHash (e ++ rest) = match hash_of k with Some h => Ok h | None => UB end ∧
    DecodeToRangeGroup (e ++ rest) = Ok (range_part k ++ rest) ∧
    EncodedKeys.ClearRangeComponents e false =
      (let! e' := Encode (ClearRangeComponents k) in Ok (negb (bool_decide (range_group_ k = [])), e')).
Proof.
  intros Hk Hr. exists (doc_code k). split; [by apply (append_key k [])|]. split_and!.
  - intros part. exists (read_part part k). split; [by apply read_unread|]. split; [intros; by apply size_of_part|].
    unfold EncodedKeys.Transform. rewrite size_of_part by done. by rewrite take_part.
  - intros. by apply encoded_sizes.
  - intros. by apply partially_decode.
  - by apply decode_doc_key_hash.
  - unfold DecodeHash. destruct (decode_ids k rest Hk) as (s & -> & E & _). cbn [obind]. rewrite E. cbn [obind]. by rewrite decode_hash_code.
  - by apply range_group_of.
  - rewrite clear_range by done. assert (wf_key (ClearRangeComponents k)) as Hc by (destruct Hk; split; try done; naive_solver).
    unfold Encode. rewrite append_key by done. done.
Qed.

Lemma doc_key_parts_witness :
  ∃ e, Encode (sample_key (Uuid.sample 4) [97; 0] 7) = Ok e ∧ EncodedKeys.DecodeDocKeyHash (e ++ [1]) = Ok (Some 0x1234).
Proof.
  destruct (sample_key_wf [97; 0] 7) as [W O]; [bytes_done|unfold is_i32; lia|].
  destruct (doc_key_parts (sample_key (Uuid.sample 4) [97; 0] 7) [1] W) as (e & E & _ & _ & _ & H & _); [bytes_done|].
  exists e. split; [exact E|exact H].
Defined.

End DocKeyCodec.
