(* ===== verification/SubDocKeys.v ===== *)
(** * The code of subdocument keys

    The code of [SubDocKey], its decoders, its order and its prefixes, and the
    operations on encoded keys. *)

From S2P Require Import Prelude Slice FastVarint HybridTime DocHybridTime ValueType KvUtil VarInt Decimal Uuid InetAddress Intent PrimitiveValue PrimitiveKeys DocKey DocKeyCodec.

Module SubDocKeys.
Import ValueType PrimitiveKeys DocKeyComponents DocKeyDecoder DocKeyCodec SubDocKey.

Section Codec.
Context {B : BigNum} {HB : BigNumSpec B} {V : UuidVersion} {HV : UuidVersionSpec V} {A : IpAddress} {HA : IpAddressSpec A}.

Record wf_sub (k : t) : Prop := {
  wf_doc_key : wf_key (doc_key_ k);
  wf_doc_ht : DocHybridTime.wf (doc_ht_ k);
  wf_subkeys : Forall item (subkeys_ k);
}.

Definition sub_code (k : t) : bytes := doc_code (doc_key_ k) ++ all_codes (subkeys_ k).
Definition ht_code (k : t) : bytes :=
  if has_hybrid_time k
  then match DocHybridTime.EncodedInDocDbFormat (doc_ht_ k) with Ok e => code kHybridTime :: e | _ => [] end else [].

Lemma ht_encoded d : DocHybridTime.wf d → ∃ e, DocHybridTime.EncodedInDocDbFormat d = Ok e ∧ bytes_ok e.
Proof.
  intros Hd. destruct (DocHybridTime.encoded_form d Hd) as (s & _ & _ & E & _). eexists. split; [exact E|]. by eapply DocHybridTime.encoded_ok.
Qed.

Lemma ht_code_some k : wf_sub k → has_hybrid_time k = true →
  ∃ e, DocHybridTime.EncodedInDocDbFormat (doc_ht_ k) = Ok e ∧ ht_code k = code kHybridTime :: e ∧ bytes_ok (ht_code k).
Proof.
  intros Hk Hh. destruct (ht_encoded (doc_ht_ k) (wf_doc_ht k Hk)) as (e & E & He). exists e. unfold ht_code. rewrite Hh, E.
  split_and!; [done|done|]. by constructor.
Qed.

Lemma ht_code_none k : has_hybrid_time k = false → ht_code k = [].
Proof. unfold ht_code. by intros ->. Qed.

Lemma encode_sub k ht : wf_sub k → DoEncode ht k = Ok (sub_code k ++ if ht then ht_code k else []).
Proof.
  intros Hk. unfold DoEncode, DocKey.Encode. rewrite append_key by apply Hk. cbn [obind].
  rewrite append_all_keyed by (apply items_keyed, Hk). cbn [obind app]. fold (sub_code k).
  destruct ht; [|by rewrite andb_false_r, app_nil_r]. rewrite andb_true_r. destruct (has_hybrid_time k) eqn:Eh.
  - destruct (ht_code_some k Hk Eh) as (e & E & -> & _). unfold KeyBytes.AppendDocHybridTime, DocHybridTime.AppendEncodedInDocDbFormat.
    rewrite E. cbn [obind]. unfold KeyBytes.AppendValueType. by rewrite <- app_assoc.
  - by rewrite ht_code_none, app_nil_r.
Qed.

(** ** Decoding *)

(** What may follow the subkeys: the end, or the hybrid time. *)
Definition tail (s : bytes) : Prop := s = [] ∨ ∃ s', s = code kHybridTime :: s'.

Lemma subkeys_decode {S} (c : callback S) f sp l st s :
  consumes (AddSubkey c) f → Forall item l → bytes_ok s → tail s →
  decode_subkeys (length (all_codes l ++ s) + 1) c sp st (all_codes l ++ s) = Ok (false, foldl f st l, s).
Proof.
  intros Hc Hl Hs Ht. assert (length l < length (all_codes l ++ s) + 1)%nat as Hf.
  { clear -Hl HB HV HA. induction Hl as [|x l Hx Hl IH]; [cbn; lia|]. cbn [all_codes concat fmap list_fmap]. rewrite <- app_assoc, length_app.
    destruct (item_tag x Hx) as (b & -> & _). unfold all_codes in IH. cbn [length] in *. lia. }
  revert Hf. generalize (length (all_codes l ++ s) + 1)%nat as fuel. revert st.
  induction Hl as [|x l Hx Hl IH]; intros st fuel Hf; (destruct fuel as [|fuel]; [lia|]).
  - cbn [all_codes concat fmap list_fmap app foldl]. destruct Ht as [->|[s' ->]]; cbn [decode_subkeys decode_subkey].
    + by rewrite andb_false_r.
    + change (IsSpecialValueType (DecodeValueTypeByte (code kHybridTime))) with false. by rewrite andb_false_r.
  - cbn [all_codes concat fmap list_fmap foldl]. fold (all_codes l). rewrite <- app_assoc.
    assert (bytes_ok (all_codes l ++ s)) as Hok by (apply Forall_app_2; [by apply codes_ok|done]).
    pose proof (Hc st x (all_codes l ++ s) Hx Hok) as E. destruct (item_tag x Hx) as (b & Eb & Hb). rewrite Eb in *. rewrite <- app_comm_cons in *.
    cbn [decode_subkeys]. assert (IsSpecialValueType (DecodeValueTypeByte (PrimitiveValue.value_type x)) = false) as ->.
    { unfold DecodeValueTypeByte. rewrite (proj2 (Z.ltb_lt _ _)) by lia. clear -Hb. by destruct (PrimitiveValue.value_type x); cbn [code] in Hb; try lia. }
    rewrite andb_false_r. unfold decode_subkey. rewrite (proj2 (Z.eqb_neq _ _)) by (change (code kHybridTime) with 35; lia). cbn [negb].
    rewrite E. cbn [obind negb]. apply IH. cbn [length] in Hf. lia.
Qed.

(** The template [DoDecode] on a code; with the hybrid time, whatever follows. *)
Lemma decode_sub {S} (c : callback S) f st st' k rest require sp :
  consumes (AddSubkey c) f → wf_sub k → bytes_ok rest → require && sp = false → (has_hybrid_time k = false → rest = []) →
  (∀ s, bytes_ok s → DecodeDocKey c st (doc_code (doc_key_ k) ++ s) = Ok (st', s)) →
  DoDecode c require sp st (sub_code k ++ ht_code k ++ rest) =
  if has_hybrid_time k then Ok (DocHybridTimeSlice c (drop 1 (ht_code k)) (doc_hybrid_time c (doc_ht_ k) (foldl f st' (subkeys_ k))), rest)
  else if require then Err Corruption else Ok (doc_hybrid_time c DocHybridTime.kInvalid (foldl f st' (subkeys_ k)), []).
Proof.
  intros Hc Hk Hr Hrs Hend Hd. unfold DoDecode. rewrite andb_comm, Hrs. unfold sub_code. rewrite <- app_assoc.
  assert (bytes_ok (ht_code k ++ rest) ∧ tail (ht_code k ++ rest)) as [Hok Htail].
  { destruct (has_hybrid_time k) eqn:Eh.
    - destruct (ht_code_some k Hk Eh) as (e & _ & E & Ho). split; [by apply Forall_app_2|]. right. rewrite E. by eexists.
    - rewrite ht_code_none, Hend by done. split; [constructor|by left]. }
  rewrite Hd by (apply Forall_app_2; [apply codes_ok, Hk|done]). cbn [obind]. rewrite (subkeys_decode c f); [|done|apply Hk|done|done]. cbn [obind].
  destruct (has_hybrid_time k) eqn:Eh.
  - destruct (ht_code_some k Hk Eh) as (e & E & -> & _). rewrite <- app_comm_cons.
    rewrite (DocHybridTime.decode_encoded (doc_ht_ k)); [|apply Hk|done|done]. cbn [obind drop].
    by rewrite length_app, Nat.add_sub, take_app_length.
  - rewrite ht_code_none, Hend by done. by destruct require.
Qed.

Lemma consumes_subkey : consumes (AddSubkey DecodeCallback) (λ k v, mk (doc_key_ k) (doc_ht_ k) (subkeys_ k ++ [v])).
Proof. intros k v rest Hv Hr. cbn [AddSubkey DecodeCallback]. by rewrite (consumes_value _ v rest Hv Hr). Qed.

(** The key that is read into [self], with the hybrid time or without. *)
Definition sub_into (self k : t) : t :=
  mk (read_into (doc_key_ self) (doc_key_ k)) (if has_hybrid_time k then doc_ht_ k else DocHybridTime.kInvalid) (subkeys_ k).

Lemma decode_from_sub self k rest require sp :
  wf_sub k → bytes_ok rest → require && sp = false → (has_hybrid_time k = false → rest = []) →
  DecodeFrom self (sub_code k ++ ht_code k ++ rest) require sp =
  if require && negb (has_hybrid_time k) then Err Corruption else Ok (sub_into self k, rest).
Proof.
  intros Hk Hr Hrs Hend. unfold DecodeFrom.
  rewrite (decode_sub DecodeCallback _ _ (mk (read_into (doc_key_ self) (doc_key_ k)) DocHybridTime.kInvalid []) k rest require sp consumes_subkey Hk Hr Hrs Hend).
  - rewrite (foldl_push id (λ l k, mk (doc_key_ k) (doc_ht_ k) l) subkeys_) by done. rewrite map_id. unfold sub_into.
    destruct (has_hybrid_time k) eqn:Eh; [by rewrite andb_false_r|]. rewrite Hend by done. by destruct require.
  - intros s Hs. cbn [DecodeDocKey DecodeCallback]. rewrite decode_from by (done || apply Hk). done.
Qed.

Lemma partially_decode_sub k rest out :
  wf_sub k → bytes_ok rest → has_hybrid_time k = true →
  PartiallyDecode (sub_code k ++ ht_code k ++ rest) out =
  Ok (out ++ map key_code (DocKey.range_group_ (doc_key_ k)) ++ [drop 1 (ht_code k)], rest).
Proof.
  intros Hk Hr Hh. unfold PartiallyDecode.
  rewrite (decode_sub DecodeSubDocKeyCallback _ out (out ++ map key_code (DocKey.range_group_ (doc_key_ k))) k rest true false consumes_ignored Hk Hr eq_refl).
  - rewrite Hh, foldl_same. cbn [DocHybridTimeSlice DecodeSubDocKeyCallback doc_hybrid_time]. by rewrite <- app_assoc.
  - by rewrite Hh.
  - intros s Hs. by apply partially_decode; [apply Hk|].
Qed.

(** ** Order *)

Record ordered_sub (k : t) : Prop := {
  ordered_doc_key : ordered_key (doc_key_ k);
  ordered_subkeys : Forall ordered (subkeys_ k);
}.

Lemma tail_below x v s : tail x → item v → bytes_compare x (key_code v ++ s) = Lt ∧ bytes_compare (key_code v ++ s) x = Gt.
Proof.
  intros Hx Hv. destruct (item_tag v Hv) as (b & -> & Ht). rewrite <- app_comm_cons. destruct Hx as [->|[x' ->]]; [done|].
  rewrite !StringKeys.compare_head_ne by (change (code kHybridTime) with 35; lia). change (code kHybridTime) with 35.
  by rewrite (proj2 (Z.compare_lt_iff _ _)), (proj2 (Z.compare_gt_iff _ _)) by lia.
Qed.

Lemma compare_paths l l' x y :
  Forall item l → Forall item l' → Forall ordered l → Forall ordered l' → tail x → tail y →
  ∃ c, CompareVectors l l' = Ok c ∧
    bytes_compare (all_codes l ++ x) (all_codes l' ++ y) = match c with Eq => bytes_compare x y | _ => c end.
Proof.
  intros Hl Hl' Ho Ho' Hx Hy. revert l' Hl' Ho Ho'. induction Hl as [|v l Hv Hl IH]; intros l' [|w k' Hw Hl'] Ho Ho';
    cbn [all_codes concat fmap list_fmap CompareVectors]; rewrite <- ?app_assoc.
  - by exists Eq.
  - exists Lt. split; [done|]. by apply tail_below.
  - exists Gt. split; [done|]. by apply tail_below.
  - inversion_clear Ho as [|? ? Ov Ol]. inversion_clear Ho' as [|? ? Ow Ok'].
    destruct (key_order v w) as (c & -> & Hf); [apply Hv|apply Hw|done|done|]. cbn [obind]. rewrite Hf.
    destruct c; [|by eexists|by eexists]. by apply IH.
Qed.

Lemma ht_tail k : wf_sub k → tail (ht_code k).
Proof.
  intros Hk. destruct (has_hybrid_time k) eqn:Eh; [|left; by apply ht_code_none]. destruct (ht_code_some k Hk Eh) as (e & _ & E & _).
  right. by exists e.
Qed.

Lemma ht_antisym d d' : CompOpp (DocHybridTime.CompareTo d d') = DocHybridTime.CompareTo d' d.
Proof.
  rewrite !DocHybridTime.doc_CompareTo_eq, (Z.compare_antisym (DocHybridTime.hybrid_time_ d)), (Z.compare_antisym (DocHybridTime.write_id_ d)).
  by destruct (DocHybridTime.hybrid_time_ d ?= DocHybridTime.hybrid_time_ d'), (DocHybridTime.write_id_ d ?= DocHybridTime.write_id_ d').
Qed.

Lemma compare_times k k' :
  wf_sub k → wf_sub k' →
  bytes_compare (ht_code k) (ht_code k') =
  if has_hybrid_time k
  then if has_hybrid_time k' then CompOpp (DocHybridTime.CompareTo (doc_ht_ k) (doc_ht_ k')) else Gt
  else if has_hybrid_time k' then Lt else Eq.
Proof.
  intros Hk Hk'. destruct (has_hybrid_time k) eqn:Eh, (has_hybrid_time k') eqn:Eh'.
  - destruct (ht_code_some k Hk Eh) as (e & E & -> & _), (ht_code_some k' Hk' Eh') as (e' & E' & -> & _).
    pose proof (DocHybridTime.encoded_compare (doc_ht_ k) (doc_ht_ k') e e' [] [] (wf_doc_ht k Hk) (wf_doc_ht k' Hk') E E') as H.
    rewrite !app_nil_r in H. cbn [bytes_compare]. rewrite Z.compare_refl, H, ht_antisym. by destruct (DocHybridTime.CompareTo _ _).
  - destruct (ht_code_some k Hk Eh) as (e & E & -> & _). by rewrite ht_code_none.
  - destruct (ht_code_some k' Hk' Eh') as (e' & E' & -> & _). by rewrite ht_code_none.
  - by rewrite !ht_code_none.
Qed.

Lemma compare_subs k k' :
  wf_sub k → wf_sub k' → ordered_sub k → ordered_sub k' → same_shape (doc_key_ k) (doc_key_ k') →
  ∃ c, CompareTo k k' = Ok c ∧ bytes_compare (sub_code k ++ ht_code k) (sub_code k' ++ ht_code k') = c.
Proof.
  intros Hk Hk' Ho Ho' Hs. destruct (compare_keys (doc_key_ k) (doc_key_ k')) as (c & Ec & Hf); [apply Hk|apply Hk'|apply Ho|apply Ho'|done|].
  destruct (compare_paths (subkeys_ k) (subkeys_ k') (ht_code k) (ht_code k')) as (d & Ed & Hd);
    [apply Hk|apply Hk'|apply Ho|apply Ho'|by apply ht_tail|by apply ht_tail|].
  unfold CompareTo, CompareToIgnoreHt. rewrite Ec. cbn [obind]. unfold sub_code. rewrite <- !app_assoc, Hf, Hd, compare_times by done.
  destruct c; cbn [obind]; [|by eexists|by eexists]. rewrite Ed. cbn [obind]. destruct d; by eexists.
Qed.

(** ** Prefixes *)

Lemma item_cut v w x y : item v → item w → bytes_ok x → bytes_ok y → key_code v ++ x = key_code w ++ y → v = w ∧ x = y.
Proof.
  intros Hv Hw Hx Hy E. pose proof (proj1 (item_decodes v x Hv Hx)) as H1. pose proof (proj1 (item_decodes w y Hw Hy)) as H2.
  rewrite E, H2 in H1. by simplify_eq.
Qed.

Lemma doc_cut k k' x y : wf_key k → wf_key k' → bytes_ok x → bytes_ok y → doc_code k ++ x = doc_code k' ++ y → same_key k k' ∧ x = y.
Proof.
  intros Hk Hk' Hx Hy E. pose proof (decode_from DocKey.empty_key k x false Hk Hx) as H1.
  pose proof (decode_from DocKey.empty_key k' y false Hk' Hy) as H2. rewrite E, H2 in H1. unfold same_key. split; congruence.
Qed.

(** A path is a prefix of another one when its code is a prefix of the other code. *)
Lemma path_prefix l l' s :
  Forall item l → Forall item l' → bytes_ok s → tail s → all_codes l `prefix_of` all_codes l' ++ s ↔ l `prefix_of` l'.
Proof.
  intros Hl Hl' Hs Ht. split.
  - revert l' Hl'. induction Hl as [|v l Hv Hl IH]; intros l' Hl'; [by intros; apply prefix_nil|]. intros [x E].
    cbn [all_codes concat fmap list_fmap] in E. rewrite <- app_assoc in E. fold (all_codes l) in E.
    assert (bytes_ok (all_codes l' ++ s)) as Hok by (apply Forall_app_2; [by apply codes_ok|done]).
    destruct Hl' as [|w k' Hw Hl'].
    + exfalso. destruct (item_tag v Hv) as (b & Eb & Hb). rewrite Eb in E. destruct Ht as [->|[s' ->]]; [done|]. cbn in E. injection E as E _. lia.
    + cbn [all_codes concat fmap list_fmap] in E, Hok. rewrite <- app_assoc in E, Hok. fold (all_codes k') in *.
      apply Forall_app in Hok as [Hkw Hok]. assert (bytes_ok (all_codes l ++ x)) as Hox.
      { assert (bytes_ok (key_code v ++ all_codes l ++ x)) as H by (rewrite <- E; by apply Forall_app_2). by apply Forall_app in H as [_ H]. }
      destruct (item_cut w v _ _ Hw Hv Hok Hox E) as [<- Ex]. apply prefix_cons, IH; [done|]. by exists x.
  - intros [x ->]. unfold all_codes. rewrite fmap_app, concat_app, <- app_assoc. by eexists.
Qed.

Lemma elements_prefix l l' :
  Forall item l → Forall item l' → Forall ordered l → Forall ordered l' → (length l ≤ length l')%nat →
  ∃ b, eq_elements l l' = Ok b ∧ (b = true ↔ l `prefix_of` l').
Proof.
  intros Hl Hl' Ho Ho'. revert l' Hl' Ho Ho'. induction Hl as [|v l Hv Hl IH]; intros l' Hl' Ho Ho' Hlen.
  - exists true. split; [by destruct l'|]. split; [intros _; apply prefix_nil|done].
  - destruct Hl' as [|w k' Hw Hl']; [cbn [length] in Hlen; lia|]. cbn [eq_elements].
    inversion_clear Ho as [|? ? Ov Ol]. inversion_clear Ho' as [|? ? Ow Ok'].
    destruct (value_eq v w) as (b & -> & Hb); [apply Hv|apply Hw|done|done|]. cbn [obind]. destruct b.
    + destruct Hb as [-> _]; [|done]. destruct (IH k' Hl' Ol Ok') as (b & -> & Hb'); [cbn [length] in Hlen; lia|]. exists b. split; [done|].
      rewrite Hb'. split; [apply prefix_cons|apply prefix_cons_inv_2].
    + exists false. split; [done|]. split; [done|]. intros E%prefix_cons_inv_1. by apply Hb.
Qed.

Lemma starts_with_code k p :
  wf_sub k → wf_sub p → ordered_sub k → ordered_sub p → has_hybrid_time p = false →
  ∃ b, StartsWith k p = Ok b ∧ (b = true ↔ sub_code p `prefix_of` sub_code k ++ ht_code k).
Proof.
  intros Hk Hp Ho Ho' Hh. assert (bytes_ok (ht_code k)) as Hok.
  { destruct (has_hybrid_time k) eqn:Eh; [by destruct (ht_code_some k Hk Eh) as (? & _ & _ & ?)|rewrite ht_code_none by done; constructor]. }
  assert (sub_code p `prefix_of` sub_code k ++ ht_code k ↔ same_key (doc_key_ k) (doc_key_ p) ∧ subkeys_ p `prefix_of` subkeys_ k) as Hpre.
  { rewrite <- (path_prefix (subkeys_ p) (subkeys_ k) (ht_code k)) by first [apply Hk | apply Hp | done | by apply ht_tail].
    unfold sub_code. rewrite <- app_assoc. split.
    - intros [x E]. rewrite <- app_assoc in E. assert (bytes_ok (all_codes (subkeys_ k) ++ ht_code k)) as H1 by (apply Forall_app_2; [apply codes_ok, Hk|done]).
      assert (bytes_ok (doc_code (doc_key_ p) ++ all_codes (subkeys_ p) ++ x)) as H2 by (rewrite <- E; apply Forall_app_2; [apply doc_code_ok, Hk|done]).
      apply Forall_app in H2 as [_ H2]. destruct (doc_cut _ _ _ _ (wf_doc_key k Hk) (wf_doc_key p Hp) H1 H2 E) as [Hs Ex]. split; [done|]. by exists x.
    - intros [Hs [x E]]. apply same_key_code in Hs as ->; [|apply Hk|apply Hp]. rewrite E. exists x. by rewrite <- app_assoc. }
  unfold StartsWith. destruct (key_eq (doc_key_ k) (doc_key_ p)) as (b & -> & Hb); [apply Hk|apply Hp|apply Ho|apply Ho'|]. cbn [obind].
  destruct b; cbn [negb]; [|exists false; split; [done|]; rewrite Hpre; naive_solver]. rewrite Hh. cbn [negb orb].
  destruct (Nat.leb_spec (length (subkeys_ p)) (length (subkeys_ k))) as [Hl|Hl]; cbn [negb].
  - destruct (elements_prefix (subkeys_ p) (subkeys_ k)) as (b & -> & Hb'); [apply Hp|apply Hk|apply Ho'|apply Ho|done|].
    exists b. split; [done|]. rewrite Hpre, Hb'. naive_solver.
  - exists false. split; [done|]. rewrite Hpre. split; [done|]. intros [_ H%prefix_length]. lia.
Qed.

(** ** Ends of components *)

(** The ends of the components of a path that starts at [start]. *)
Fixpoint ends (start : nat) (l : list PrimitiveValue.t) : list nat :=
  match l with [] => [] | v :: l => (start + length (key_code v))%nat :: ends (start + length (key_code v)) l end.

Lemma codes_cons v l : all_codes (v :: l) = key_code v ++ all_codes l.
Proof. done. Qed.

Lemma ends_take start l : ends start l = (λ i, start + length (all_codes (take i l)))%nat <$> seq 1 (length l).
Proof.
  revert start. induction l as [|v l IH]; intros start; [done|]. cbn [ends length seq]. rewrite fmap_cons, IH, <- (fmap_S_seq 1), <- list_fmap_compose.
  f_equal.
  - cbn [take all_codes concat fmap list_fmap]. by rewrite app_nil_r.
  - apply list_fmap_ext. intros _ i _. cbn [compose take]. rewrite codes_cons, length_app. lia.
Qed.

Lemma range_ends_spec n start out l s :
  Forall item l → bytes_ok s → n = (start + length (group_code l ++ s))%nat →
  range_ends (length (group_code l ++ s) + 1) n out (group_code l ++ s) = Ok (out ++ ends start l, s).
Proof.
  intros Hl Hs. assert (length l < length (group_code l ++ s) + 1)%nat as Hf.
  { clear -Hl HB HV HA. induction Hl as [|x l Hx Hl IH]; [cbn; lia|]. rewrite group_cons, <- app_assoc, length_app.
    destruct (item_tag x Hx) as (b & -> & _). cbn [length] in *. lia. }
  revert Hf. generalize (length (group_code l ++ s) + 1)%nat as fuel. intros fuel. revert fuel start out.
  induction Hl as [|x l Hx Hl IH]; intros fuel start out Hf Hn; (destruct fuel as [|fuel]; [lia|]); cbn [range_ends].
  - by rewrite app_nil_r.
  - rewrite group_cons, <- app_assoc in *. unfold ConsumePrimitiveValueFromKey. rewrite has_value by done. cbn [obind negb].
    rewrite (proj2 (item_decodes x _ Hx ltac:(apply Forall_app_2; [by apply group_ok|done]))). cbn [obind negb ends].
    rewrite length_app in Hn. rewrite (IH fuel (start + length (key_code x))%nat) by (cbn [length] in Hf; lia).
    rewrite <- app_assoc. cbn [app]. do 5 f_equal. lia.
Qed.

Lemma subkey_ends_spec n start out l s :
  Forall item l → bytes_ok s → tail s → n = (start + length (all_codes l ++ s))%nat →
  subkey_ends (length (all_codes l ++ s) + 1) n out (all_codes l ++ s) = Ok (out ++ ends start l).
Proof.
  intros Hl Hs Ht. assert (length l < length (all_codes l ++ s) + 1)%nat as Hf.
  { clear -Hl HB HV HA. induction Hl as [|x l Hx Hl IH]; [cbn; lia|]. cbn [all_codes concat fmap list_fmap]. rewrite <- app_assoc, length_app.
    destruct (item_tag x Hx) as (b & -> & _). unfold all_codes in IH. cbn [length] in *. lia. }
  revert Hf. generalize (length (all_codes l ++ s) + 1)%nat as fuel. intros fuel. revert fuel start out.
  induction Hl as [|x l Hx Hl IH]; intros fuel start out Hf Hn; (destruct fuel as [|fuel]; [lia|]); cbn [subkey_ends].
  - rewrite app_nil_r. cbn [all_codes concat fmap list_fmap app]. by destruct Ht as [->|[s' ->]].
  - cbn [all_codes concat fmap list_fmap] in *. fold (all_codes l) in *. rewrite <- app_assoc in *.
    assert (bytes_ok (all_codes l ++ s)) as Hok by (apply Forall_app_2; [by apply codes_ok|done]).
    pose proof (consumes_skip () x (all_codes l ++ s) Hx Hok) as E. destruct (item_tag x Hx) as (b & Eb & Hb).
    unfold DecodeSubkey, decode_subkey. assert (∃ y, key_code x ++ all_codes l ++ s = code (PrimitiveValue.value_type x) :: y) as [y Ey] by (rewrite Eb; by eexists).
    rewrite Ey in *. rewrite (proj2 (Z.eqb_neq _ kHybridTime)) by (change (code kHybridTime) with 35; lia). cbn [negb]. rewrite E. cbn [obind negb ends].
    rewrite <- Ey, length_app in Hn. rewrite (IH fuel (start + length (key_code x))%nat) by (cbn [length] in Hf; lia).
    rewrite <- app_assoc. cbn [app]. do 4 f_equal. lia.
Qed.

(** The hashed part of a document key, and after each range component. *)
Definition doc_prefixes (d : DocKey.t) : list bytes :=
  let hashed := id_code d ++ hash_part d in
  (if bool_decide (hashed = []) then [] else [hashed]) ++
  ((λ i, hashed ++ all_codes (take i (DocKey.range_group_ d))) <$> seq 1 (length (DocKey.range_group_ d))).

(** The prefixes of a key that are locked: those of the document key, of which
    the last one takes the end of the group as well, and the subdocuments above. *)
Definition prefixes (k : t) : list bytes :=
  match doc_prefixes (doc_key_ k) with [] => [] | l => removelast l ++ [doc_code (doc_key_ k)] end ++
  ((λ i, sub_code (KeepPrefix i k)) <$> seq 1 (length (subkeys_ k))).

Lemma last_prefix d :
  doc_prefixes d ≠ [] → last (doc_prefixes d) = Some (id_code d ++ hash_part d ++ all_codes (DocKey.range_group_ d)).
Proof.
  unfold doc_prefixes. cbv zeta. rewrite app_assoc. set (h := id_code d ++ hash_part d). destruct (DocKey.range_group_ d) as [|v l] eqn:E.
  - cbn [length seq fmap list_fmap]. case_bool_decide; [done|]. intros _. cbn. by rewrite app_nil_r.
  - intros _. rewrite <- E. assert (length (DocKey.range_group_ d) = S (length l)) as -> by (by rewrite E).
    rewrite seq_S, fmap_app. cbn [fmap list_fmap]. rewrite app_assoc, last_snoc. rewrite firstn_all2; [done|]. rewrite E. cbn [length]. lia.
Qed.

Lemma removelast_fmap {T U} (f : T → U) l : removelast (f <$> l) = f <$> removelast l.
Proof. induction l as [|x [|y l] IH]; [done..|]. cbn [removelast fmap list_fmap] in *. by f_equal. Qed.

Lemma prefix_lengths_doc d :
  (if negb (length (id_code d ++ hash_part d) =? 0)%nat then [length (id_code d ++ hash_part d)] else []) ++
  ends (length (id_code d ++ hash_part d)) (DocKey.range_group_ d) = length <$> doc_prefixes d.
Proof.
  unfold doc_prefixes. cbv zeta. rewrite fmap_app, ends_take, <- list_fmap_compose. set (h := id_code d ++ hash_part d). f_equal.
  - by destruct h.
  - apply list_fmap_ext. intros. cbn [compose]. by rewrite length_app.
Qed.

Lemma decode_prefix_lengths k : wf_sub k → DecodePrefixLengths (sub_code k ++ ht_code k) = Ok (length <$> prefixes k).
Proof.
  intros Hk. pose proof (wf_doc_key k Hk) as Hd. pose proof (wf_subkeys k Hk) as Hl.
  assert (bytes_ok (ht_code k)) as Hht.
  { destruct (has_hybrid_time k) eqn:Eh; [by destruct (ht_code_some k Hk Eh) as (? & _ & _ & ?)|rewrite ht_code_none by done; constructor]. }
  assert (bytes_ok (all_codes (subkeys_ k) ++ ht_code k)) as Hok by (apply Forall_app_2; [by apply codes_ok|done]).
  unfold DecodePrefixLengths, sub_code. cbv zeta. rewrite <- app_assoc. set (d := doc_key_ k) in *. set (s := all_codes (subkeys_ k) ++ ht_code k) in *.
  rewrite size_of_part, hash_part_read by done. cbn [obind]. set (h := id_code d ++ hash_part d).
  assert (doc_code d ++ s = h ++ range_part d ++ s) as Es by (unfold doc_code, h; by rewrite <- !app_assoc).
  match goal with |- obind ?m _ = _ => assert (m = Ok (if negb (length h =? 0)%nat then [length h] else [], range_part d ++ s)) as -> end.
  { rewrite Es. destruct h as [|x h']; [done|]. cbn [length Nat.eqb negb]. change (S (length h')) with (length (x :: h')). by rewrite remove_prefix_app. }
  cbn [obind]. unfold range_part. rewrite (range_ends_spec _ (length h)); [|apply Hd|done|rewrite Es, length_app; done].
  cbn [obind]. pose proof (prefix_lengths_doc d) as Eo. fold h in Eo. rewrite Eo, removelast_fmap, fmap_last.
  assert (∀ o, match doc_prefixes d with [] => [] | l => removelast l ++ [doc_code d] end = o →
    subkey_ends (length s + 1) (length (doc_code d ++ s)) (length <$> o) s = Ok (length <$> prefixes k)) as Hsub.
  { intros o Eq. unfold s. rewrite (subkey_ends_spec _ (length (doc_code d))); [|done|done|by apply ht_tail|by rewrite length_app].
    unfold prefixes. fold d. rewrite Eq, fmap_app, ends_take, <- list_fmap_compose. do 2 f_equal. apply list_fmap_ext. intros. cbn [compose].
    unfold sub_code, KeepPrefix. cbn [doc_key_ subkeys_]. by rewrite length_app. }
  destruct (doc_prefixes d) as [|p l] eqn:Ep; [apply (Hsub []); done|]. rewrite <- Ep in *.
  rewrite last_prefix by (by rewrite Ep). cbn [option_fmap option_map fmap obind].
  set (a := id_code d ++ hash_part d ++ all_codes (DocKey.range_group_ d)).
  assert (doc_code d = a ++ [code kGroupEnd]) as Ea by (unfold doc_code, a, range_part, group_code; by rewrite !app_assoc).
  unfold byte_at. rewrite Ea, <- app_assoc. cbn [app]. rewrite list_lookup_middle by done. cbn [obind]. rewrite Z.eqb_refl. cbn [negb obind].
  rewrite <- (Hsub (removelast (doc_prefixes d) ++ [doc_code d])) by (by rewrite Ep).
  rewrite fmap_app, Ea, <- app_assoc. cbn [fmap list_fmap app]. rewrite !length_app. cbn [length]. by replace (length a + 1)%nat with (S (length a)) by lia.
Qed.

Lemma keep_prefix k i : sub_code (KeepPrefix i k) `prefix_of` sub_code k.
Proof.
  unfold sub_code, KeepPrefix. cbn [doc_key_ subkeys_]. apply prefix_app. rewrite <- (take_drop i (subkeys_ k)) at 2.
  unfold all_codes. rewrite fmap_app, concat_app. by eexists.
Qed.

Lemma doc_prefix d p : p ∈ doc_prefixes d → p `prefix_of` doc_code d ∧ p ≠ doc_code d.
Proof.
  unfold doc_prefixes, doc_code, range_part, group_code. cbv zeta. rewrite app_assoc. set (h := id_code d ++ hash_part d).
  assert (∀ i, h ++ all_codes (take i (DocKey.range_group_ d)) `prefix_of` h ++ all_codes (DocKey.range_group_ d) ++ [code kGroupEnd] ∧
    h ++ all_codes (take i (DocKey.range_group_ d)) ≠ h ++ all_codes (DocKey.range_group_ d) ++ [code kGroupEnd]) as H.
  { intros i. rewrite <- (take_drop i (DocKey.range_group_ d)) at 2 4. unfold all_codes. rewrite fmap_app, concat_app, <- app_assoc. split.
    - apply prefix_app. by eexists.
    - intros E. apply (f_equal length) in E. rewrite !length_app in E. cbn [length] in E. lia. }
  intros [Hp|Hp]%elem_of_app.
  - case_bool_decide; [by apply not_elem_of_nil in Hp|]. apply list_elem_of_singleton in Hp as ->. specialize (H 0%nat). cbn [take all_codes fmap list_fmap concat] in H.
    by rewrite app_nil_r in H.
  - apply list_elem_of_fmap in Hp as (i & -> & _). apply H.
Qed.

Lemma removelast_elem {T} (x : T) l : x ∈ removelast l → x ∈ l.
Proof. induction l as [|y [|z l] IH]; [done|by intros ?%not_elem_of_nil|]. cbn [removelast] in *. rewrite !elem_of_cons in *. naive_solver. Qed.

(** Every prefix in the list is one of the code, and the code is the last one. *)
Lemma prefixes_of k p : p ∈ prefixes k → p `prefix_of` sub_code k.
Proof.
  unfold prefixes. intros [Hp|Hp]%elem_of_app.
  - assert (p = doc_code (doc_key_ k) ∨ p ∈ doc_prefixes (doc_key_ k)) as H.
    { destruct (doc_prefixes (doc_key_ k)) as [|x l]; [by apply not_elem_of_nil in Hp|]. apply elem_of_app in Hp as [Hp|Hp%list_elem_of_singleton]; [|by left].
      right. by apply removelast_elem. }
    unfold sub_code. apply prefix_app_r. destruct H as [->|H]; [done|]. by apply doc_prefix.
  - apply list_elem_of_fmap in Hp as (i & -> & _). apply keep_prefix.
Qed.

Lemma prefixes_last k : prefixes k ≠ [] → last (prefixes k) = Some (sub_code k).
Proof.
  unfold prefixes. destruct (subkeys_ k) as [|v l] eqn:E.
  - cbn [length seq fmap list_fmap]. rewrite app_nil_r. unfold sub_code. rewrite E. cbn [all_codes fmap list_fmap concat]. rewrite app_nil_r.
    destruct (doc_prefixes (doc_key_ k)); [done|]. intros _. by rewrite last_snoc.
  - intros _. rewrite <- E. assert (length (subkeys_ k) = S (length l)) as -> by (by rewrite E). rewrite seq_S, fmap_app. cbn [fmap list_fmap].
    rewrite app_assoc, last_snoc. f_equal. unfold sub_code, KeepPrefix. cbn [doc_key_ subkeys_]. rewrite firstn_all2; [done|]. rewrite E. cbn [length]. lia.
Qed.

(** ** Ends of the document key and of the subkeys *)

Lemma ends_app start l l' : ends start (l ++ l') = ends start l ++ ends (start + length (all_codes l)) l'.
Proof.
  revert start. induction l as [|v l IH]; intros start; cbn [app ends].
  - cbn [all_codes fmap list_fmap concat length]. by rewrite Nat.add_0_r.
  - rewrite IH, codes_cons, length_app, Nat.add_assoc. done.
Qed.

Lemma ends_last start l o : last (o ++ [start] ++ ends start l) = Some (start + length (all_codes l))%nat.
Proof.
  revert start o. induction l as [|v l IH]; intros start o; cbn [ends].
  - rewrite app_nil_r, last_snoc. cbn [all_codes fmap list_fmap concat length]. by rewrite Nat.add_0_r.
  - rewrite codes_cons, length_app, Nat.add_assoc, <- (IH _ (o ++ [start])), <- app_assoc. done.
Qed.

Lemma ht_code_ok k : wf_sub k → bytes_ok (ht_code k).
Proof.
  intros Hk. destruct (has_hybrid_time k) eqn:Eh; [by destruct (ht_code_some k Hk Eh) as (? & _ & _ & ?)|rewrite ht_code_none by done; constructor].
Qed.

(** The key of a tombstone of a table: the identifier, an empty range group and the hybrid time. *)
Definition table_tombstone (d : DocKey.t) : bool :=
  match pgtable_of d with Some _ => negb (DocKey.hash_present_ d) && bool_decide (DocKey.range_group_ d = []) | None => false end.

Definition key_ends (k : t) : outcome (list nat) :=
  let d := doc_key_ k in
  if table_tombstone d
  then if has_hybrid_time k && bool_decide (subkeys_ k = []) then Ok [length (id_code d)] else Err Corruption
  else Ok ([length (id_code d); length (doc_code d)] ++ ends (length (doc_code d)) (subkeys_ k)).

Lemma id_first d s :
  wf_key d → ∃ b, byte_at (doc_code d ++ s) 0 = Ok b ∧ (b =? kPgTableOid) = match pgtable_of d with Some _ => true | None => false end.
Proof.
  intros Hd. destruct (after_id d s Hd) as (b & x & E & _ & Hb). unfold doc_code. rewrite <- !app_assoc, E. unfold id_code, pgtable_of.
  destruct (DocKey.has_cotable_id d), (DocKey.has_pgtable_id d); cbn; eexists; (split; [reflexivity|]); try done. by apply Z.eqb_neq.
Qed.

Lemma after_id_first d s :
  wf_key d → ∃ b, byte_at (doc_code d ++ s) (length (id_code d)) = Ok b ∧
    (b =? kGroupEnd) = negb (DocKey.hash_present_ d) && bool_decide (DocKey.range_group_ d = []).
Proof.
  intros Hd. unfold doc_code, byte_at. rewrite <- app_assoc, lookup_app_r, Nat.sub_diag by lia. unfold hash_part.
  destruct (DocKey.hash_present_ d); [by eexists|]. destruct (group_starts (DocKey.range_group_ d) s (wf_range d Hd)) as (b & x & E & Hb).
  unfold range_part. cbn [app]. rewrite E. exists b. split; [done|]. destruct Hb as [[-> ->]|(v & l & -> & -> & Hv)]; [done|].
  destruct (item_tag v Hv) as (_ & _ & Ht). rewrite bool_decide_false by done. apply Z.eqb_neq. change (code kGroupEnd) with 33. lia.
Qed.

Lemma id_shorter d s : wf_key d → (length (id_code d) + 1 ≤ length (doc_code d ++ s))%nat.
Proof. intros Hd. unfold doc_code, range_part, group_code. rewrite !length_app. cbn [length]. lia. Qed.

Lemma decode_key_ends k : wf_sub k → DecodeDocKeyAndSubKeyEnds (sub_code k ++ ht_code k) [] = key_ends k.
Proof.
  intros Hk. pose proof (wf_doc_key k Hk) as Hd. pose proof (ht_code_ok k Hk) as Hht.
  assert (bytes_ok (all_codes (subkeys_ k) ++ ht_code k)) as Hok by (apply Forall_app_2; [apply codes_ok, Hk|done]).
  unfold DecodeDocKeyAndSubKeyEnds, key_ends, sub_code. cbv zeta. rewrite <- app_assoc. set (d := doc_key_ k) in *.
  set (s := all_codes (subkeys_ k) ++ ht_code k) in *. rewrite size_of_part by done. cbn [obind].
  assert (read_part DocKey.kUpToId d = id_code d) as ->.
  { pose proof (read_unread DocKey.kUpToId d Hd) as E. cbn [unread] in E. unfold doc_code in E. by apply app_inv_tail in E. }
  rewrite (proj2 (Nat.ltb_ge _ _)) by (by apply id_shorter).
  destruct (id_first d s Hd) as (b0 & -> & E0), (after_id_first d s Hd) as (b1 & -> & E1). cbn [obind]. rewrite E0, E1.
  assert (match pgtable_of d with Some _ => true | None => false end && (negb (DocKey.hash_present_ d) && bool_decide (DocKey.range_group_ d = [])) = table_tombstone d) as ->
    by (unfold table_tombstone; by destruct (pgtable_of d)).
  destruct (table_tombstone d) eqn:Et.
  - assert (doc_code d = id_code d ++ [code kGroupEnd]) as Edoc.
    { unfold table_tombstone in Et. destruct (pgtable_of d); [|done]. bool_tests. unfold doc_code, hash_part, range_part, group_code.
      rewrite H, H0. done. }
    rewrite Edoc, <- app_assoc. cbn [app].
    destruct (subkeys_ k) as [|v l] eqn:El.
    + rewrite bool_decide_true, andb_true_r by done. unfold s. cbn [all_codes fmap list_fmap concat app]. destruct (has_hybrid_time k) eqn:Eh.
      * destruct (ht_code_some k Hk Eh) as (e & _ & -> & _). rewrite length_app. cbn [length].
        rewrite (proj2 (Nat.ltb_ge _ _)) by lia. unfold byte_at. rewrite lookup_app_r by lia.
        replace (length (id_code d) + 1 - length (id_code d))%nat with 1%nat by lia. cbn [lookup list_lookup obind]. rewrite Z.eqb_refl. cbn [negb].
        change (id_code d ++ code kGroupEnd :: code kHybridTime :: e) with (id_code d ++ [code kGroupEnd] ++ code kHybridTime :: e).
        rewrite app_assoc. replace (length (id_code d) + 1)%nat with (length (id_code d ++ [code kGroupEnd])) by (rewrite length_app; done).
        rewrite remove_prefix_app. done.
      * rewrite ht_code_none by done. rewrite length_app. cbn [length]. by rewrite (proj2 (Nat.ltb_lt _ _)) by lia.
    + rewrite bool_decide_false, andb_false_r by done.
      assert (item v) as Hv by (pose proof (wf_subkeys k Hk) as H; rewrite El in H; by inversion H). destruct (item_tag v Hv) as (b & Eb & Ht).
      unfold s. rewrite codes_cons, Eb. rewrite <- !app_assoc, <- app_comm_cons, length_app. cbn [length].
      rewrite (proj2 (Nat.ltb_ge _ _)) by lia. unfold byte_at. rewrite lookup_app_r by lia.
      replace (length (id_code d) + 1 - length (id_code d))%nat with 1%nat by lia. cbn [lookup list_lookup obind].
      by rewrite (proj2 (Z.eqb_neq _ kHybridTime)) by (change (code kHybridTime) with 35; lia).
  - rewrite size_of_part by done. cbn [obind].
    assert (read_part DocKey.kWholeDocKey d = doc_code d) as ->.
    { pose proof (read_unread DocKey.kWholeDocKey d Hd) as E. cbn [unread] in E. by rewrite app_nil_r in E. }
    rewrite remove_prefix_app. cbn [obind]. unfold s. by rewrite (subkey_ends_spec _ (length (doc_code d)));
      [|apply Hk|done|by apply ht_tail|by rewrite length_app].
Qed.

(** Decoding may be resumed after any of the ends of the subkeys. *)
Lemma resume_key_ends k i :
  wf_sub k → let d := doc_key_ k in
  let found j := [length (id_code d); length (doc_code d)] ++ ends (length (doc_code d)) (take j (subkeys_ k)) in
  DecodeDocKeyAndSubKeyEnds (sub_code k ++ ht_code k) (found i) = Ok (found (length (subkeys_ k))).
Proof.
  intros Hk d found. pose proof (ht_code_ok k Hk) as Hht. unfold DecodeDocKeyAndSubKeyEnds.
  assert (last (found i) = Some (length (doc_code d ++ all_codes (take i (subkeys_ k))))) as El.
  { rewrite length_app. apply (ends_last _ _ [length (id_code d)]). }
  set (o := found i) in *. assert (∃ x y z, o = x :: y :: z) as (x & y & z & Eo) by (by eexists _, _, _). rewrite Eo. cbn [obind]. rewrite <- Eo, El.
  cbn [default from_option id].
  assert (sub_code k ++ ht_code k = (doc_code d ++ all_codes (take i (subkeys_ k))) ++ all_codes (drop i (subkeys_ k)) ++ ht_code k) as Es.
  { unfold sub_code. rewrite <- (take_drop i (subkeys_ k)) at 1. unfold all_codes. by rewrite fmap_app, concat_app, <- !app_assoc. }
  rewrite Es, remove_prefix_app. cbn [obind].
  rewrite (subkey_ends_spec _ (length (doc_code d ++ all_codes (take i (subkeys_ k)))));
    [|apply Forall_drop, Hk|done|by apply ht_tail|by rewrite length_app].
  f_equal. unfold o, found. rewrite (firstn_all (subkeys_ k)), <- app_assoc, length_app, <- ends_app, take_drop. done.
Qed.

(** ** Moving past subdocuments *)

Lemma compare_not_extension p b x : ¬ p `prefix_of` b → bytes_compare b (p ++ x) = bytes_compare b p.
Proof.
  revert b. induction p as [|c p IH]; intros b Hb; [by destruct Hb; apply prefix_nil|]. destruct b as [|c' b]; [done|]. cbn [app bytes_compare].
  destruct (c' ?= c) eqn:E; [|done..]. apply Z.compare_eq in E as ->. apply IH. intros H. by apply Hb, prefix_cons.
Qed.

(** The code with the greatest byte is above the extensions of the code and
    compares with other keys as the code does. *)
Lemma max_byte_bound p :
  (∀ b s, is_u8 b → b ≠ 255 → bytes_compare (p ++ b :: s) (p ++ [255]) = Lt) ∧ bytes_compare p (p ++ [255]) = Lt ∧
  ∀ b, ¬ p `prefix_of` b → bytes_compare b (p ++ [255]) = bytes_compare b p.
Proof.
  split_and!.
  - intros b s Hb Hne. rewrite bytes_compare_app_same. cbn [bytes_compare]. unfold is_u8 in Hb. by rewrite (proj2 (Z.compare_lt_iff _ _)) by lia.
  - rewrite <- (app_nil_r p) at 1. by rewrite bytes_compare_app_same.
  - intros b Hb. by apply compare_not_extension.
Qed.

Lemma advance_sub k : wf_sub k → AdvanceOutOfSubDoc k = Ok (sub_code k ++ [255]).
Proof. intros Hk. unfold AdvanceOutOfSubDoc, EncodeWithoutHt. rewrite encode_sub by done. cbn [obind]. by rewrite app_nil_r. Qed.

(** The code up to the end of the range components. *)
Definition range_prefix (d : DocKey.t) : bytes := id_code d ++ hash_part d ++ all_codes (DocKey.range_group_ d).

Lemma doc_code_range d : doc_code d = range_prefix d ++ [code kGroupEnd].
Proof. unfold doc_code, range_prefix, range_part, group_code. by rewrite <- !app_assoc. Qed.

Lemma advance_doc k : wf_sub k → AdvanceOutOfDocKeyPrefix k = Ok (range_prefix (doc_key_ k) ++ [255]).
Proof.
  intros Hk. unfold AdvanceOutOfDocKeyPrefix, DocKey.Encode. rewrite append_key by apply Hk. cbn [obind app].
  rewrite doc_code_range. unfold KeyBytes.RemoveValueTypeSuffix. rewrite last_snoc, removelast_last.
  change (ValueType.as_char kGroupEnd) with (code kGroupEnd). rewrite Z.eqb_refl. done.
Qed.

(** Keys inside a subdocument: the same document and a longer path. *)
Lemma inside_sub k k' :
  wf_sub k → wf_sub k' → same_key (doc_key_ k) (doc_key_ k') → subkeys_ k `prefix_of` subkeys_ k' →
  sub_code k' ++ ht_code k' = sub_code k ∨ ∃ b s, sub_code k' ++ ht_code k' = sub_code k ++ b :: s ∧ is_u8 b ∧ b ≠ 255.
Proof.
  intros Hk Hk' Hs [l E]. apply same_key_code in Hs; [|apply Hk|apply Hk']. unfold sub_code. rewrite Hs, E. unfold all_codes.
  rewrite fmap_app, concat_app. rewrite <- !app_assoc. destruct l as [|v l].
  - cbn [fmap list_fmap concat app]. destruct (ht_tail k' Hk') as [->|[s ->]]; [left; by rewrite app_nil_r|].
    right. eexists _, _. split; [by rewrite app_assoc|done].
  - right. assert (item v) as Hv by (pose proof (wf_subkeys k' Hk') as H; rewrite E in H; apply Forall_app in H as [_ H]; by inversion H).
    destruct (item_tag v Hv) as (b & Eb & Ht). cbn [fmap list_fmap concat]. rewrite Eb. eexists _, _. split; [by rewrite app_assoc, <- !app_comm_cons|].
    unfold is_u8. lia.
Qed.

(** Keys of the documents whose range components start with those of the key. *)
Definition inside_range (d d' : DocKey.t) : Prop :=
  id_code d = id_code d' ∧ hash_part d = hash_part d' ∧ DocKey.range_group_ d `prefix_of` DocKey.range_group_ d'.

Lemma inside_doc d k' :
  wf_sub k' → inside_range d (doc_key_ k') →
  ∃ b s, sub_code k' ++ ht_code k' = range_prefix d ++ b :: s ∧ is_u8 b ∧ b ≠ 255.
Proof.
  intros Hk' (E1 & E2 & [l E]). unfold sub_code, doc_code, range_part, range_prefix, group_code. rewrite E1, E2, E. unfold all_codes.
  rewrite fmap_app, concat_app. rewrite <- !app_assoc. destruct l as [|v l].
  - eexists _, _. split; [rewrite <- !app_assoc; reflexivity|]. done.
  - assert (item v) as Hv by (pose proof (wf_range _ (wf_doc_key k' Hk')) as H; rewrite E in H; apply Forall_app in H as [_ H]; by inversion H).
    destruct (item_tag v Hv) as (b & Eb & Ht). cbn [fmap list_fmap concat]. rewrite Eb. eexists _, _. split; [rewrite <- !app_assoc; reflexivity|]. unfold is_u8. lia.
Qed.

(** ** Operations on encoded keys *)

Lemma uuid_code_inj u w : Uuid.wf u → Uuid.wf w → Uuid.EncodeToComparable u = Uuid.EncodeToComparable w → u = w.
Proof.
  intros Hu Hw E. pose proof (Uuid.uuid_decode_encode u Hu) as H1. pose proof (Uuid.uuid_decode_encode w Hw) as H2.
  rewrite E, H2 in H1. by injection H1.
Qed.

Lemma be_bytes_inj n a b : 0 <= a < 2 ^ (8 * Z.of_nat n) → 0 <= b < 2 ^ (8 * Z.of_nat n) → be_bytes n a = be_bytes n b → a = b.
Proof. intros Ha Hb E. apply (f_equal be_value) in E. rewrite !be_value_be_bytes, !Z.mod_small in E by done. done. Qed.

(** Whether an encoded key belongs to a table, as for the decoded key. *)
Lemma belongs_to d s u n :
  wf_key d → Uuid.wf u → is_u32 n → EncodedKeys.DocKeyBelongsTo (doc_code d ++ s) u n = DocKey.BelongsTo d u n.
Proof.
  intros Hd Hu Hn. destruct (after_id d s Hd) as (b & x & E & H1 & H2).
  unfold doc_code. rewrite <- !app_assoc, E. unfold EncodedKeys.DocKeyBelongsTo, DocKey.BelongsTo, id_code.
  fold (DocKey.has_cotable_id d) (DocKey.has_pgtable_id d). destruct (DocKey.has_cotable_id d) eqn:Ec.
  - cbn [app]. rewrite Z.eqb_refl. cbn [orb negb]. pose proof (uuid_length (DocKey.cotable_id_ d) (wf_cotable d Hd)) as Hl.
    change Uuid.kUuidSize with 16%nat. rewrite <- Hl, take_app_length.
    assert (bool_decide (Uuid.EncodeToComparable (DocKey.cotable_id_ d) = Uuid.EncodeToComparable u) = bool_decide (DocKey.cotable_id_ d = u)) as ->
      by (apply bool_decide_ext; split; [apply uuid_code_inj; [apply Hd|done]|congruence]).
    destruct (Uuid.IsNil u && (n =? 0)) eqn:En; [|done]. bool_tests. symmetry. apply bool_decide_eq_false. intros Eu.
    unfold DocKey.has_cotable_id in Ec. by rewrite Eu, H in Ec.
  - destruct (DocKey.has_pgtable_id d) eqn:Ep.
    + cbn [app]. change (code kPgTableOid =? code kTableId) with false. rewrite Z.eqb_refl. cbn [orb negb].
      rewrite take_app_length' by (by rewrite length_be_bytes). unfold KvUtil.Store.
      assert (bool_decide (be_bytes 4 (DocKey.pgtable_id_ d) = be_bytes 4 n) = (DocKey.pgtable_id_ d =? n)) as ->.
      { destruct (Z.eqb_spec (DocKey.pgtable_id_ d) n) as [->|Hne]; [by apply bool_decide_eq_true|]. apply bool_decide_eq_false.
        intros Eb%be_bytes_inj; [done|apply Hd|done]. }
      unfold DocKey.has_pgtable_id in Ep. destruct (Uuid.IsNil u && (n =? 0)) eqn:En; [|done]. bool_tests. symmetry. apply Z.eqb_neq. lia.
    + cbn [app]. rewrite (proj2 (Z.eqb_neq b kTableId)), (proj2 (Z.eqb_neq b kPgTableOid)) by done. cbn [orb negb].
      by destruct (Uuid.IsNil u && (n =? 0)).
Qed.

Lemma group_ended l s : Forall item l → GroupEnded (group_code l ++ s) = bool_decide (l = []).
Proof.
  intros Hl. destruct (group_starts l s Hl) as (b & x & E & Hb). rewrite E. cbn [GroupEnded]. destruct Hb as [[-> ->]|(v & l' & -> & -> & Hv)]; [done|].
  destruct (item_tag v Hv) as (_ & _ & Ht). rewrite bool_decide_false by done. apply Z.eqb_neq. change (code kGroupEnd) with 33. lia.
Qed.

Lemma skip_special v s : item v → bytes_ok s → DecodePrimitiveValue (key_code v ++ s) true = Ok s.
Proof.
  intros Hv Hs. pose proof (proj2 (item_decodes v s Hv Hs)) as E. destruct (item_tag v Hv) as (b & Eb & Ht). unfold DecodePrimitiveValue. rewrite E.
  rewrite Eb, <- app_comm_cons. change (code kLowest) with 0. change (code kHighest) with 126.
  by rewrite (proj2 (Z.eqb_neq _ 0)), (proj2 (Z.eqb_neq _ 126)) by lia.
Qed.

Lemma consumed_same a b x y : EncodedKeys.same_consumed (a ++ x) x (b ++ y) y = bool_decide (a = b).
Proof.
  unfold EncodedKeys.same_consumed. rewrite !length_app, !Nat.add_sub, take_app_length. destruct (Nat.eqb_spec (length a) (length b)) as [E|E]; cbn [andb].
  - by rewrite E, take_app_length.
  - symmetry. apply bool_decide_eq_false. by intros ->.
Qed.

(** Up to a limit, the components of two groups are compared one by one. *)
Lemma components_equal l l' x y limit :
  Forall item l → Forall item l' → bytes_ok x → bytes_ok y → 0 <= limit →
  ∃ b, EncodedKeys.compare_components (length (group_code l ++ x) + 1) limit (group_code l ++ x) (group_code l' ++ y) = Ok b ∧
    (b = true ↔ take (Z.to_nat limit) l = take (Z.to_nat limit) l').
Proof.
  intros Hl Hl' Hx Hy Hlim. assert (length l < length (group_code l ++ x) + 1)%nat as Hf.
  { clear -Hl HB HV HA. induction Hl as [|v l Hv Hl IH]; [cbn; lia|]. rewrite group_cons, <- app_assoc, length_app.
    destruct (item_tag v Hv) as (b & -> & _). cbn [length] in *. lia. }
  revert Hf. generalize (length (group_code l ++ x) + 1)%nat as fuel. intros fuel. revert l' limit Hl' Hlim fuel.
  induction Hl as [|v l Hv Hl IH]; intros l' limit Hl' Hlim fuel Hf; (destruct fuel as [|fuel]; [lia|]); cbn [EncodedKeys.compare_components];
    rewrite !group_ended by (try constructor; done); destruct (Z.ltb_spec 0 limit) as [Hz|Hz];
    try (replace limit with 0 by lia; rewrite andb_false_r; by exists true).
  - rewrite bool_decide_true by done. cbn [negb andb]. rewrite (proj2 (Z.eqb_neq _ _)) by lia. eexists. split; [done|].
    rewrite bool_decide_eq_true, take_nil. destruct l' as [|w l']; [by rewrite take_nil|]. destruct (Z.to_nat limit) eqn:E; [lia|]. done.
  - rewrite bool_decide_false by done. cbn [negb andb].
    assert (∃ n, Z.to_nat limit = S n ∧ Z.to_nat (limit - 1) = n) as (n & En & En') by (exists (Z.to_nat (limit - 1)); lia).
    assert (bytes_ok (group_code l ++ x)) as Hok by (apply Forall_app_2; [by apply group_ok|done]).
    destruct (item_tag v Hv) as (b & Eb & Ht). assert (byte_at (group_code (v :: l) ++ x) 0 = Ok (code (PrimitiveValue.value_type v))) as ->
      by (by rewrite group_cons, Eb). cbn [obind].
    destruct Hl' as [|w k' Hw Hl']; [exists false; split; [done|]; by rewrite En|]. rewrite bool_decide_false by done. cbn [orb].
    destruct (item_tag w Hw) as (b' & Eb' & Ht').
    assert ((group_code (w :: k') ++ y) !! 0%nat = Some (code (PrimitiveValue.value_type w))) as -> by (by rewrite group_cons, Eb').
    case_bool_decide as Hty; cbn [negb].
    2: { exists false. split; [done|]. split; [done|]. rewrite En. cbn [take]. intros [= -> _]. done. }
    assert (IsPrimitiveOrSpecialValueType (PrimitiveValue.value_type v) = true) as -> by (unfold IsPrimitiveOrSpecialValueType; by rewrite (proj2 Hv)).
    cbn [negb]. rewrite !group_cons, <- !app_assoc.
    assert (bytes_ok (group_code k' ++ y)) as Hok' by (apply Forall_app_2; [by apply group_ok|done]).
    rewrite !skip_special by done. cbn [obind]. rewrite consumed_same. case_bool_decide as Ecode; cbn [negb].
    + destruct (IH k' (limit - 1) Hl' ltac:(lia) fuel ltac:(cbn [length] in Hf; lia)) as (r & -> & Hr). exists r. split; [done|].
      rewrite Hr, En, En'. cbn [take]. assert (v = w) as -> by (by apply (item_cut v w [] []); [..|constructor|constructor|rewrite Ecode]). split; congruence.
    + exists false. split; [done|]. split; [done|]. rewrite En. cbn [take]. intros [= -> _]. done.
Qed.

(** The identifier and the hash. *)
Definition hash_head (d : DocKey.t) : bytes := if DocKey.hash_present_ d then code kUInt16Hash :: be_bytes 2 (DocKey.hash_ d) else [].

Lemma up_to_hash d s : doc_code d ++ s = (id_code d ++ hash_head d) ++ after_hash d ++ s.
Proof. unfold doc_code, hash_part, hash_head, after_hash. destruct (DocKey.hash_present_ d); by rewrite <- ?app_assoc, <- ?app_comm_cons, <- ?app_assoc. Qed.

Lemma hash_head_eq d d' :
  wf_key d → wf_key d' → DocKey.hash_present_ d = DocKey.hash_present_ d' →
  id_code d ++ hash_head d = id_code d' ++ hash_head d' ↔ id_code d = id_code d' ∧ hash_of d = hash_of d'.
Proof.
  intros Hd Hd' Ep. unfold hash_head, hash_of. rewrite <- Ep. destruct (DocKey.hash_present_ d) eqn:E; [|rewrite !app_nil_r; naive_solver]. split.
  - intros [-> H]%app_inj_2; [|cbn [length]; by rewrite !length_be_bytes]. split; [done|]. apply (f_equal (drop 1)) in H. cbn [drop] in H.
    apply be_bytes_inj in H; [by rewrite H|by apply Hd|by apply Hd'].
  - by intros [-> [= ->]].
Qed.

Lemma hashed_or_first d d' x y :
  wf_key d → wf_key d' → bytes_ok x → bytes_ok y →
  ∃ b, EncodedKeys.HashedOrFirstRangeComponentsEqual (doc_code d ++ x) (doc_code d' ++ y) = Ok b ∧
    (b = true ↔ id_code d = id_code d' ∧ hash_of d = hash_of d' ∧ DocKey.hashed_group_ d = DocKey.hashed_group_ d' ∧
       (hash_of d = None → take 1 (DocKey.range_group_ d) = take 1 (DocKey.range_group_ d'))).
Proof.
  intros Hd Hd' Hx Hy. unfold EncodedKeys.HashedOrFirstRangeComponentsEqual.
  destruct (decode_ids d x Hd) as (s & -> & E & _), (decode_ids d' y Hd') as (s' & -> & E' & _). cbn [obind]. rewrite E, E'. cbn [obind].
  rewrite !decode_hash_code by done. cbn [obind]. cbv zeta.
  assert (∀ k, match hash_of k with Some _ => true | None => false end = DocKey.hash_present_ k) as Hp by (intros k; unfold hash_of; by destruct (DocKey.hash_present_ k)).
  rewrite !Hp. destruct (Bool.eqb _ _) eqn:Eb; cbn [negb].
  2: { apply eqb_false_iff in Eb. exists false. split; [done|]. split; [done|]. intros (_ & Eh & _). rewrite <- !Hp, Eh in Eb. done. }
  apply eqb_prop in Eb. pose proof (hash_head_eq d d' Hd Hd' Eb) as Hh. rewrite !up_to_hash, consumed_same.
  case_bool_decide as Eh; cbn [negb]; [|exists false; split; [done|naive_solver]]. apply Hh in Eh as [E1 E2].
  unfold after_hash. rewrite <- Eb. assert (bytes_ok (range_part d ++ x) ∧ bytes_ok (range_part d' ++ y)) as [Hrx Hry] by (split; by apply range_ok).
  destruct (DocKey.hash_present_ d) eqn:Ep.
  - rewrite <- !app_assoc. destruct (components_equal (DocKey.hashed_group_ d) (DocKey.hashed_group_ d') _ _ kNumValuesNoLimit (wf_hashed d Hd) (wf_hashed d' Hd') Hrx Hry ltac:(unfold kNumValuesNoLimit; lia))
      as (b & -> & Hb). exists b. split; [reflexivity|]. rewrite Hb. clear Hb.
    destruct (take_all_values (DocKey.hashed_group_ d) (wf_hashed_count d Hd)) as [-> _], (take_all_values (DocKey.hashed_group_ d') (wf_hashed_count d' Hd')) as [-> _].
    split; [intros E3; split_and!; [exact E1|exact E2|exact E3|unfold hash_of; rewrite Ep; discriminate]|by intros (_ & _ & ? & _)].
  - destruct (wf_no_hash d Hd Ep) as [-> _], (wf_no_hash d' Hd' ltac:(congruence)) as [-> _].
    destruct (components_equal (DocKey.range_group_ d) (DocKey.range_group_ d') x y 1 (wf_range d Hd) (wf_range d' Hd') Hx Hy ltac:(done)) as (b & H & Hb).
    unfold range_part. rewrite H. exists b. split; [reflexivity|]. change (Z.to_nat 1) with 1%nat in Hb. rewrite Hb.
    split; [intros E3; split_and!; [exact E1|exact E2|reflexivity|done]|intros (_ & _ & _ & H3); apply H3; unfold hash_of; by rewrite Ep].
Qed.

(** ** Every slice *)

Lemma push_advances l slice : advances slice (push_value l slice).
Proof.
  unfold push_value. destruct (value_advances slice) as [[H1 H2] _]. destruct (PrimitiveValue.DecodeFromKey slice) as [[[v|] r]|?| |]; try done.
  cbn [obind]. split; [done|]. intros ? ? [= <- <-]. by eapply H2.
Qed.

Lemma skip_advances slice : advances slice (skip_value () slice).
Proof.
  unfold skip_value. destruct (value_advances slice) as [_ [H1 H2]]. destruct (PrimitiveValue.SkipKey slice) as [[v r]|?| |]; try done.
  cbn [obind]. split; [done|]. intros ? ? [= <- <-]. by eapply H2.
Qed.

Lemma advances_map {T U} slice (m : outcome (T * bytes)) (f : T → U) :
  advances slice m → advances slice (let! (x, r) := m in Ok (f x, r)).
Proof. intros [H1 H2]. destruct m as [[x r]|?| |]; [|done..]. cbn [obind]. split; [done|]. intros ? ? [= <- <-]. by eapply H2. Qed.

Lemma doc_decode_ends self slice part sp : returns slice (DocKey.DecodeFrom self slice part sp).
Proof. apply decode_returns; intros; apply advances_map, push_advances. Qed.

Lemma size_ends slice part sp : DocKey.EncodedSize slice part sp ≠ Fatal.
Proof.
  unfold DocKey.EncodedSize. destruct (decode_returns DocKey.DummyCallback part sp () slice) as [H _]; [intros []; apply skip_advances..|].
  by destruct (DocKey.DoDecode _ _ _ _ _) as [[??]|?| |].
Qed.

Lemma subkeys_end {S} (c : callback S) fuel sp st slice :
  (∀ st slice, advances slice (AddSubkey c st slice)) → (length slice < fuel)%nat → decode_subkeys fuel c sp st slice ≠ Fatal.
Proof.
  intros Hc. revert st slice. induction fuel as [|fuel IH]; intros st slice Hf; [lia|]. cbn [decode_subkeys]. case_test; [done|].
  unfold decode_subkey. destruct slice as [|b l]; [done|]. case_test; [|done]. destruct (Hc st (b :: l)) as [H1 H2].
  destruct (AddSubkey c st (b :: l)) as [[st' r]|?| |]; [|done..]. cbn [obind negb]. specialize (H2 st' r eq_refl). apply IH. lia.
Qed.

Lemma sub_decode_ends self slice require sp : DecodeFrom self slice require sp ≠ Fatal.
Proof.
  unfold DecodeFrom, DoDecode. case_test; [done|]. cbn [DecodeDocKey DecodeCallback].
  destruct (doc_decode_ends (doc_key_ (Clear self)) slice DocKey.kWholeDocKey false) as [H _].
  destruct (DocKey.DecodeFrom _ _ _ _) as [[d r]|?| |]; [|done..]. cbn [obind].
  match goal with |- context [decode_subkeys ?n ?c ?sp ?st ?s] => pose proof (subkeys_end c n sp st s) as Hs; destruct (decode_subkeys n c sp st s) as [[[b st'] r']|?| |] end;
    try done; [|exfalso; apply Hs; [intros; apply advances_map, push_advances|lia|done]].
  cbn [obind]. destruct b; [done|]. destruct r'; [by destruct require|]. destruct (leaves_hybrid_time r') as [H' _].
  by destruct (DocHybridTime.DecodeFrom r') as [[??]|?| |].
Qed.

Lemma range_ends_end fuel n out slice : (length slice < fuel)%nat → range_ends fuel n out slice ≠ Fatal.
Proof.
  revert out slice. induction fuel as [|fuel IH]; intros out slice Hf; [lia|]. cbn [range_ends]. unfold ConsumePrimitiveValueFromKey.
  destruct (has_returns slice false) as [H1 H2]. destruct (HasPrimitiveValue slice false) as [[more r]|?| |]; [|done..]. cbn [obind].
  destruct more; cbn [negb obind]; [|done]. destruct (value_advances r) as [_ [H3 H4]]. destruct (PrimitiveValue.SkipKey r) as [[v r']|?| |]; [|done..].
  cbn [obind negb]. specialize (H2 true r eq_refl). specialize (H4 v r' eq_refl). apply IH. lia.
Qed.

Lemma subkey_ends_end fuel n out slice : (length slice < fuel)%nat → subkey_ends fuel n out slice ≠ Fatal.
Proof.
  revert out slice. induction fuel as [|fuel IH]; intros out slice Hf; [lia|]. cbn [subkey_ends]. unfold DecodeSubkey, decode_subkey.
  destruct slice as [|b l]; [done|]. case_test; [|done]. destruct (skip_advances (b :: l)) as [H1 H2].
  destruct (skip_value () (b :: l)) as [[[] r]|?| |]; [|done..]. cbn [obind negb]. specialize (H2 () r eq_refl). apply IH. lia.
Qed.

Lemma prefix_lengths_end slice : DecodePrefixLengths slice ≠ Fatal.
Proof.
  unfold DecodePrefixLengths. cbv zeta. pose proof (size_ends slice DocKey.kUpToHash false). destruct (DocKey.EncodedSize _ _ _) as [n|?| |]; [|done..]. cbn [obind].
  match goal with |- obind ?m _ ≠ _ => assert (m ≠ Fatal) as H1 by (case_test; [|done]; unfold Slice.remove_prefix; by case_decide); destruct m as [[o s]|?| |]; [|done..] end.
  cbn [obind]. pose proof (range_ends_end (length s + 1) (length slice) o s ltac:(lia)). destruct (range_ends _ _ _ _) as [[o' s']|?| |]; [|done..]. cbn [obind].
  destruct (last o') as [back|]; cbn [obind]; [|apply subkey_ends_end; lia]. unfold byte_at. destruct (slice !! back); [|done]. cbn [obind].
  case_test; [done|]. cbn [obind]. apply subkey_ends_end. lia.
Qed.

End Codec.

(** ** Properties *)

(** C25: Encoded subdocument keys sort as [CompareTo] says: by the document, the path, and then from the latest to the earliest time.
    The keys have components that are [ordered] and document keys of one shape, which have the same kind of identifier and both or
    neither a hash.  [StartsWith] a key without hybrid time means that its code is a prefix. *)
Theorem sub_doc_key_order
    {B : BigNum} {HB : BigNumSpec B} {V : UuidVersion} {HV : UuidVersionSpec V} {A : IpAddress} {HA : IpAddressSpec A} (k k' : t) :
  wf_sub k → wf_sub k' → ordered_sub k → ordered_sub k' → same_shape (doc_key_ k) (doc_key_ k') →
  ∃ e e' c, Encode k = Ok e ∧ Encode k' = Ok e' ∧ CompareTo k k' = Ok c ∧ bytes_compare e e' = c ∧
    (has_hybrid_time k' = false → ∃ b, StartsWith k k' = Ok b ∧ (b = true ↔ e' `prefix_of` e)).
Proof.
  intros Hk Hk' Ho Ho' Hs. destruct (compare_subs k k' Hk Hk' Ho Ho' Hs) as (c & Hc & Hb).
  exists (sub_code k ++ ht_code k), (sub_code k' ++ ht_code k'), c. unfold Encode. rewrite !encode_sub by done. split_and!; [done..|].
  intros Hh. rewrite (ht_code_none k' Hh), app_nil_r. by apply starts_with_code.
Qed.

Definition sample_sub (n : Z) (ht : DocHybridTime.t) : t :=
  mk (sample_key (Uuid.sample 4) [97; 0] 7) ht [PrimitiveValue.of_string [98] PrimitiveValue.kAscending; PrimitiveValue.ArrayIndex n].

Lemma sample_sub_wf n ht : is_i64 n → DocHybridTime.wf ht → wf_sub (sample_sub n ht) ∧ ordered_sub (sample_sub n ht).
Proof.
  intros Hn Hht. destruct (sample_key_wf [97; 0] 7) as [W O]; [bytes_done|unfold is_i32; lia|].
  split; split; try done; (apply Forall_cons_2; [|apply Forall_cons_2; [|apply Forall_nil_2]]); try done.
  split; [|done]. change (bytes_ok [98]). bytes_done.
Qed.

Lemma sub_doc_key_order_witness :
  ∃ e e', Encode (sample_sub 3 DocHybridTime.sample) = Ok e ∧ Encode (sample_sub 3 DocHybridTime.kMax) = Ok e' ∧ bytes_compare e e' = Gt.
Proof.
  destruct (sample_sub_wf 3 DocHybridTime.sample ltac:(unfold is_i64; lia) DocHybridTime.sample_wf) as [W O].
  destruct (sample_sub_wf 3 DocHybridTime.kMax ltac:(unfold is_i64; lia) ltac:(by repeat split)) as [W' O'].
  destruct (sub_doc_key_order (sample_sub 3 DocHybridTime.sample) (sample_sub 3 DocHybridTime.kMax) W W' O O') as (e & e' & c & E & E' & Ec & Hc & _);
    [by repeat split|].
  exists e, e'. split; [exact E|]. split; [exact E'|]. rewrite Hc. vm_compute in Ec. injection Ec as <-. reflexivity.
Defined.

(** C27: A subdocument key decodes from its code into any object [self], with the hybrid time whatever follows the code, and without it when
    none is required; the identifiers of [self] stay where the key has none.  The slices of its range components and of its
    hybrid time are cut out, and special types cannot be allowed when a hybrid time is required. *)
Theorem sub_doc_key_roundtrip
    {B : BigNum} {HB : BigNumSpec B} {V : UuidVersion} {HV : UuidVersionSpec V} {A : IpAddress} {HA : IpAddressSpec A}
    (k self : t) (rest : bytes) (require allow_special : bool) :
  wf_sub k → bytes_ok rest → (has_hybrid_time k = false → rest = []) →
  ∃ e, Encode k = Ok e ∧
    DecodeFrom self (e ++ rest) require allow_special =
      (if require && allow_special then Err NotSupported
       else if require && negb (has_hybrid_time k) then Err Corruption else Ok (sub_into self k, rest)) ∧
    FullyDecodeFrom self e (has_hybrid_time k) = Ok (sub_into self k) ∧
    (has_hybrid_time k = true → ∃ ht, DocHybridTime.EncodedInDocDbFormat (doc_ht_ k) = Ok ht ∧
       ∀ out, PartiallyDecode (e ++ rest) out = Ok (out ++ map key_code (DocKey.range_group_ (doc_key_ k)) ++ [ht], rest)).
Proof.
  intros Hk Hr Hend. exists (sub_code k ++ ht_code k). unfold Encode. rewrite encode_sub by done. split; [done|]. rewrite <- app_assoc. split_and!.
  - destruct (require && allow_special) eqn:E; [|by apply decode_from_sub]. unfold DecodeFrom, DoDecode. by rewrite andb_comm, E.
  - unfold FullyDecodeFrom. rewrite <- (app_nil_r (sub_code k ++ ht_code k)), <- app_assoc, decode_from_sub by (try done; (constructor || apply andb_false_r)).
    by destruct (has_hybrid_time k).
  - intros Hh. destruct (ht_code_some k Hk Hh) as (e & E & Ee & _). exists e. split; [done|]. intros out. rewrite partially_decode_sub by done. by rewrite Ee.
Qed.

Lemma sub_doc_key_roundtrip_witness :
  ∃ e, Encode (sample_sub 3 DocHybridTime.sample) = Ok e ∧
    DecodeFrom (mk DocKey.empty_key DocHybridTime.kInvalid []) (e ++ [1]) true false = Ok (sample_sub 3 DocHybridTime.sample, [1]).
Proof.
  destruct (sample_sub_wf 3 DocHybridTime.sample ltac:(unfold is_i64; lia) DocHybridTime.sample_wf) as [W O].
  destruct (sub_doc_key_roundtrip (sample_sub 3 DocHybridTime.sample) (mk DocKey.empty_key DocHybridTime.kInvalid []) [1] true false W) as (e & E & Hd & _);
    [bytes_done|discriminate|].
  exists e. split; [exact E|exact Hd].
Defined.

(** The prefixes of a key that [DecodePrefixLengths] reports are the hashed part, the document up to each range component, the
    document and every subdocument above the key, the key itself being the last; the ends of the document and of the subkeys are
    found by [DecodeDocKeyAndSubKeyEnds], from the start or from any end found before. *)
Theorem prefix_lengths
    {B : BigNum} {HB : BigNumSpec B} {V : UuidVersion} {HV : UuidVersionSpec V} {A : IpAddress} {HA : IpAddressSpec A} (k : t) (i : nat) :
  wf_sub k →
  let d := doc_key_ k in
  let found j := [length (id_code d); length (doc_code d)] ++ ends (length (doc_code d)) (take j (subkeys_ k)) in
  ∃ e e', Encode k = Ok e ∧ EncodeWithoutHt k = Ok e' ∧ DecodePrefixLengths e = Ok (length <$> prefixes k) ∧
    (∀ p, p ∈ prefixes k → p `prefix_of` e') ∧ (prefixes k ≠ [] → last (prefixes k) = Some e') ∧
    DecodeDocKeyAndSubKeyEnds e [] = key_ends k ∧ DecodeDocKeyAndSubKeyEnds e (found i) = Ok (found (length (subkeys_ k))).
Proof.
  intros Hk d found. exists (sub_code k ++ ht_code k), (sub_code k). unfold Encode, EncodeWithoutHt. rewrite !encode_sub, app_nil_r by done.
  split_and!; [done|done|by apply decode_prefix_lengths|apply prefixes_of|apply prefixes_last|by apply decode_key_ends|by apply resume_key_ends].
Qed.

Lemma prefix_lengths_witness :
  ∃ e, Encode (sample_sub 3 DocHybridTime.sample) = Ok e ∧ DecodePrefixLengths e = Ok [27; 32; 56; 60; 69]%nat.
Proof.
  destruct (sample_sub_wf 3 DocHybridTime.sample ltac:(unfold is_i64; lia) DocHybridTime.sample_wf) as [W O].
  destruct (prefix_lengths (sample_sub 3 DocHybridTime.sample) 0 W) as (e & e' & E & _ & Hp & _). exists e. split; [exact E|]. rewrite Hp. reflexivity.
Defined.

(** The key that [AdvanceOutOfSubDoc] returns separates the subdocument, at every time, from what follows: it is above all keys
    inside and compares with every other key as the subdocument itself; so does the key of [AdvanceOutOfDocKeyPrefix] for the
    documents whose range components start with those of the key. *)
Theorem advance_past
    {B : BigNum} {HB : BigNumSpec B} {V : UuidVersion} {HV : UuidVersionSpec V} {A : IpAddress} {HA : IpAddressSpec A} (k : t) :
  wf_sub k →
  ∃ e a p a', EncodeWithoutHt k = Ok e ∧ AdvanceOutOfSubDoc k = Ok a ∧
    DocKey.Encode (doc_key_ k) = Ok (p ++ [code kGroupEnd]) ∧ AdvanceOutOfDocKeyPrefix k = Ok a' ∧
    (∀ k' e', wf_sub k' → Encode k' = Ok e' →
       (same_key (doc_key_ k) (doc_key_ k') → subkeys_ k `prefix_of` subkeys_ k' → bytes_compare e' a = Lt) ∧
       (inside_range (doc_key_ k) (doc_key_ k') → bytes_compare e' a' = Lt)) ∧
    (∀ b, ¬ e `prefix_of` b → bytes_compare b a = bytes_compare b e) ∧
    (∀ b, ¬ p `prefix_of` b → bytes_compare b a' = bytes_compare b p).
Proof.
  intros Hk. exists (sub_code k), (sub_code k ++ [255]), (range_prefix (doc_key_ k)), (range_prefix (doc_key_ k) ++ [255]).
  destruct (max_byte_bound (sub_code k)) as (H1 & H2 & H3), (max_byte_bound (range_prefix (doc_key_ k))) as (H4 & _ & H6).
  unfold EncodeWithoutHt. rewrite encode_sub, app_nil_r by done. split_and!; [done|by apply advance_sub| |by apply advance_doc| |done|done].
  - unfold DocKey.Encode. rewrite append_key by apply Hk. cbn [app]. by rewrite doc_code_range.
  - intros k' e' Hk' E. unfold Encode in E. rewrite encode_sub in E by done. injection E as <-. split.
    + intros Hs Hp. destruct (inside_sub k k' Hk Hk' Hs Hp) as [->|(b & s & -> & Hb & Hne)]; [done|by apply H1].
    + intros Hi. destruct (inside_doc (doc_key_ k) k' Hk' Hi) as (b & s & -> & Hb & Hne). by apply H4.
Qed.

Lemma advance_past_witness :
  ∃ e a, Encode (sample_sub 3 DocHybridTime.sample) = Ok e ∧ AdvanceOutOfSubDoc (sample_sub 3 DocHybridTime.kInvalid) = Ok a ∧ bytes_compare e a = Lt.
Proof.
  destruct (sample_sub_wf 3 DocHybridTime.sample ltac:(unfold is_i64; lia) DocHybridTime.sample_wf) as [W O].
  destruct (sample_sub_wf 3 DocHybridTime.kInvalid ltac:(unfold is_i64; lia) ltac:(by repeat split)) as [W' O'].
  destruct (advance_past (sample_sub 3 DocHybridTime.kInvalid) W') as (e0 & a & p & a' & _ & Ea & _ & _ & H & _).
  assert (∃ e, Encode (sample_sub 3 DocHybridTime.sample) = Ok e) as [e E] by (eexists; vm_compute; reflexivity).
  exists e, a. split; [exact E|]. split; [exact Ea|]. apply (proj1 (H _ e W E)); reflexivity.
Defined.

(** Operations on encoded keys agree with those on keys: the code of a Redis key is written at once, an encoded key belongs to the
    table of its identifier, and the comparison of hashed or first range components compares the identifier, the hash, the
    hashed components and, without a hash, the first range component. *)
Theorem encoded_key_operations
    {B : BigNum} {HB : BigNumSpec B} {V : UuidVersion} {HV : UuidVersionSpec V} {A : IpAddress} {HA : IpAddressSpec A}
    (k k' : DocKey.t) (rest rest' u : bytes) (n : Z) :
  wf_key k → wf_key k' → bytes_ok rest → bytes_ok rest' → Uuid.wf u → is_u32 n →
  ∃ e e' b, DocKey.Encode k = Ok e ∧ DocKey.Encode k' = Ok e' ∧
    (∀ hash key, DocKey.Encode (DocKey.FromRedisKey hash key) = Ok (DocKey.EncodedFromRedisKey hash key)) ∧
    EncodedKeys.DocKeyBelongsTo (e ++ rest) u n = DocKey.BelongsTo k u n ∧
    EncodedKeys.HashedOrFirstRangeComponentsEqual (e ++ rest) (e' ++ rest') = Ok b ∧
    (b = true ↔ id_code k = id_code k' ∧ hash_of k = hash_of k' ∧ DocKey.hashed_group_ k = DocKey.hashed_group_ k' ∧
       (hash_of k = None → take 1 (DocKey.range_group_ k) = take 1 (DocKey.range_group_ k'))).
Proof.
  intros Hk Hk' Hr Hr' Hu Hn. destruct (hashed_or_first k k' rest rest' Hk Hk' Hr Hr') as (b & Hb & Hiff).
  exists (doc_code k), (doc_code k'), b. unfold DocKey.Encode. rewrite !append_key by done.
  split_and!; [done|done|done|by apply belongs_to|exact Hb|exact Hiff].
Qed.

Lemma encoded_key_operations_witness :
  ∃ e e', DocKey.Encode (sample_key (Uuid.sample 4) [97; 0] 7) = Ok e ∧ DocKey.Encode (sample_key (Uuid.sample 4) [97; 0] 8) = Ok e' ∧
    EncodedKeys.HashedOrFirstRangeComponentsEqual (e ++ []) (e' ++ [1]) = Ok true ∧ EncodedKeys.DocKeyBelongsTo (e ++ []) (Uuid.sample 4) 0 = true.
Proof.
  destruct (sample_key_wf [97; 0] 7) as [W O]; [bytes_done|unfold is_i32; lia|].
  destruct (sample_key_wf [97; 0] 8) as [W' O']; [bytes_done|unfold is_i32; lia|].
  destruct (encoded_key_operations (sample_key (Uuid.sample 4) [97; 0] 7) (sample_key (Uuid.sample 4) [97; 0] 8) [] [1] (Uuid.sample 4) 0 W W')
    as (e & e' & b & E & E' & _ & Hb & Hh & Hiff); [constructor|bytes_done|apply Uuid.uuid_sample_wf; lia|unfold is_u32; lia|].
  exists e, e'. split; [exact E|]. split; [exact E'|]. split.
  - rewrite Hh. f_equal. apply Hiff. split; [reflexivity|]. split; [reflexivity|]. split; [reflexivity|discriminate].
  - rewrite Hb. reflexivity.
Defined.

(** The decoders of document keys and of subdocument keys, of the sizes of their parts and of their prefixes return on every slice. *)
Theorem doc_key_decode_total
    {B : BigNum} {HB : BigNumSpec B} {V : UuidVersion} {HV : UuidVersionSpec V} {A : IpAddress} {HA : IpAddressSpec A} (slice : bytes) :
  (∀ self part allow_special, DocKey.DecodeFrom self slice part allow_special ≠ Fatal) ∧
  (∀ part allow_special, DocKey.EncodedSize slice part allow_special ≠ Fatal) ∧
  (∀ self require allow_special, DecodeFrom self slice require allow_special ≠ Fatal) ∧ DecodePrefixLengths slice ≠ Fatal.
Proof.
  split_and!; intros; [apply doc_decode_ends|apply size_ends|apply sub_decode_ends|apply prefix_lengths_end].
Qed.

Lemma doc_key_decode_total_witness : DecodePrefixLengths (B := ZNum) (A := BytesAddress) [71; 0; 1; 83; 97; 0; 0; 33; 33; 75] ≠ Fatal.
Proof. exact (proj2 (proj2 (proj2 (doc_key_decode_total (B := ZNum) (A := BytesAddress) [71; 0; 1; 83; 97; 0; 0; 33; 33; 75])))). Defined.


Section Disagreements.
Context {B : BigNum} {HB : BigNumSpec B} {V : UuidVersion} {HV : UuidVersionSpec V} {A : IpAddress} {HA : IpAddressSpec A}.






End Disagreements.



End SubDocKeys.
