(* ===== verification/IntentKeys.v ===== *)
(** * The intents of a key

    Models [IsEndOfSubKeys], [EnumerateWeakIntents] and [EnumerateIntents] of
    docdb/docdb.cc: for a key that is written or read, a callback is called with
    every key above it, which gets a weak intent, and with the key itself. *)

From S2P Require Import Prelude Slice FastVarint HybridTime DocHybridTime ValueType KvUtil VarInt Decimal Uuid InetAddress Intent PrimitiveValue PrimitiveKeys DocKey DocKeyCodec SubDocKeys.

Module EnumerateIntents.
Import ValueType Intent.Intent.

Definition IsEndOfSubKeys (key : bytes) : outcome bool :=
  let! b := byte_at key 0 in
  if negb (b =? kGroupEnd) then Ok false
  else if (length key =? 1)%nat then Ok true
  else let! b := byte_at key 1 in Ok (b =? kHybridTime).

Definition RemoveLastByte (buffer : bytes) : outcome bytes := match buffer with [] => UB | _ => Ok (removelast buffer) end.

Section Enumerate.
Context {B : BigNum} {V : UuidVersion} {A : IpAddress}.
(** The callback, as a function on its state. *)
Context {S : Type} (functor : S → IntentStrength → bool → bytes → bytes → bool → outcome S).

(** The identifier of the table goes into the buffer; whether nothing but the end of the group follows. *)
Definition table_part (key : bytes) : outcome (bytes * bool) :=
  match key with
  | [] => Err Corruption
  | b :: _ =>
      if b =? kTableId then
        if (length key <? Uuid.kUuidSize + 2)%nat then Err Corruption
        else let! e := byte_at key (Uuid.kUuidSize + 1) in Ok (take (Uuid.kUuidSize + 1) key, e =? kGroupEnd)
      else if b =? kPgTableOid then
        if (length key <? 4 + 2)%nat then Err Corruption
        else let! e := byte_at key (4 + 1) in Ok (take (4 + 1) key, e =? kGroupEnd)
      else Ok ([], b =? kGroupEnd)
  end.

Definition close (buffer : bytes) : bytes := buffer ++ [code kGroupEnd].

(** The loop over the range components; [true] when the key ends with one. *)
Fixpoint range_intents (fuel : nat) (partial_range_key_intents : bool) (st : S) (buffer key : bytes) : outcome (bool * S * bytes * bytes) :=
  match fuel with
  | O => Fatal
  | Datatypes.S fuel =>
      let start := key in
      let! (more, key) := DocKeyComponents.ConsumePrimitiveValueFromKey key in
      if negb more then Ok (false, st, buffer, key)
      else
        let buffer := close (buffer ++ take (length start - length key) start) in
        if bool_decide (key = []) then Err Corruption
        else
          let! end_of_sub_keys := IsEndOfSubKeys key in
          if end_of_sub_keys then Ok (true, st, buffer, key)
          else
            let! b := byte_at key 0 in
            let full_doc_key := b =? kGroupEnd in
            let! st := if partial_range_key_intents || full_doc_key then functor st kWeak full_doc_key [] buffer false else Ok st in
            let! buffer := RemoveLastByte buffer in
            range_intents fuel partial_range_key_intents st buffer key
  end.

(** The loop over the subkeys. *)
Fixpoint subkey_intents (fuel : nat) (st : S) (buffer key : bytes) : outcome (S * bytes) :=
  match fuel with
  | O => Fatal
  | Datatypes.S fuel =>
      let start := key in
      let! (more, key) := SubDocKey.DecodeSubkey key in
      if negb more then Err Corruption
      else
        let buffer := buffer ++ take (length start - length key) start in
        if match key with [] => true | b :: _ => b =? kHybridTime end then Ok (st, buffer)
        else
          let! st := functor st kWeak true [] buffer false in
          subkey_intents fuel st buffer key
  end.

(** From the range components on. *)
Definition after_hash_intents (partial_range_key_intents : bool) (st : S) (buffer key : bytes) : outcome (S * bytes) :=
  let! (done, st, buffer, key) := range_intents (length key + 1) partial_range_key_intents st buffer key in
  if done then Ok (st, buffer)
  else subkey_intents (length key + 1) st (close buffer) key.

Definition EnumerateWeakIntents (st : S) (key : bytes) (partial_range_key_intents : bool) : outcome (S * bytes) :=
  let! (buffer, is_table_root_key) := table_part key in
  let buffer := close buffer in
  if is_table_root_key then Ok (st, buffer)
  else
    let! st := functor st kWeak false [] buffer false in
    let! hashed_part_size := DocKey.EncodedSize key DocKey.kUpToHash false in
    let! buffer := RemoveLastByte buffer in
    if negb (hashed_part_size =? length buffer)%nat then
      if (hashed_part_size <? length buffer)%nat then UB else
      let buffer := buffer ++ take (hashed_part_size - length buffer) (drop (length buffer) key) in
      let! key := Slice.remove_prefix key hashed_part_size in
      if bool_decide (key = []) then Err Corruption
      else
        let buffer := close buffer in
        let! end_of_sub_keys := IsEndOfSubKeys key in
        if end_of_sub_keys then Ok (st, buffer)
        else
          let! b := byte_at key 0 in
          let! st := functor st kWeak (b =? kGroupEnd) [] buffer false in
          let! buffer := RemoveLastByte buffer in
          after_hash_intents partial_range_key_intents st buffer key
    else
      let! key := Slice.remove_prefix key hashed_part_size in
      after_hash_intents partial_range_key_intents st buffer key.

Definition EnumerateIntents (st : S) (key intent_value : bytes) (partial_range_key_intents last_key : bool) : outcome S :=
  let! (st, buffer) := EnumerateWeakIntents st key partial_range_key_intents in
  functor st kStrong true intent_value buffer last_key.

(** The pairs of a write batch; an empty key or value ends the process. *)
Fixpoint enumerate_pairs (st : S) (kv_pairs : list (bytes * bytes)) (partial_range_key_intents : bool) : outcome S :=
  match kv_pairs with
  | [] => Ok st
  | (key, value) :: kv_pairs =>
      if bool_decide (key = []) || bool_decide (value = []) then Fatal
      else
        let! st := EnumerateIntents st key value partial_range_key_intents (bool_decide (kv_pairs = [])) in
        enumerate_pairs st kv_pairs partial_range_key_intents
  end.

End Enumerate.
End EnumerateIntents.

(** ** The keys above a key *)

Module IntentLevels.
Import ValueType Intent.Intent SubDocKey DocKeyCodec SubDocKeys PrimitiveKeys EnumerateIntents.

Section Levels.
Context {B : BigNum} {HB : BigNumSpec B} {V : UuidVersion} {HV : UuidVersionSpec V} {A : IpAddress} {HA : IpAddressSpec A}.

(** Neither hash nor range components. *)
Definition root (d : DocKey.t) : bool := negb (DocKey.hash_present_ d) && bool_decide (DocKey.range_group_ d = []).

Definition table_level (d : DocKey.t) : t := mk (DocKey.mk (DocKey.cotable_id_ d) (DocKey.pgtable_id_ d) false 0 [] []) DocHybridTime.kInvalid [].
Definition range_level (d : DocKey.t) (l : list PrimitiveValue.t) : t := mk (DocKey.set_range l d) DocHybridTime.kInvalid [].

(** How many range components are reported one by one: the last one only if there are subkeys. *)
Definition range_count (k : t) : nat :=
  let n := length (DocKey.range_group_ (doc_key_ k)) in if bool_decide (subkeys_ k = []) then (n - 1)%nat else n.

(** The keys above a key: the table, the hashed part, the range components, for which
    the flag may ask for the whole document only, and the subdocuments. *)
Definition ancestors (partial_range_key_intents : bool) (k : t) : list (bool * t) :=
  let d := doc_key_ k in
  let r := DocKey.range_group_ d in
  if root d then []
  else
    [(false, table_level d)] ++
    (if DocKey.hash_present_ d && negb (bool_decide (r = []) && bool_decide (subkeys_ k = [])) then [(bool_decide (r = []), range_level d [])] else []) ++
    ((λ i, (bool_decide (i = length r), range_level d (take i r))) <$>
       filter (λ i, partial_range_key_intents = true ∨ i = length r) (seq 1 (range_count k))) ++
    ((λ i, (true, KeepPrefix i (remove_hybrid_time k))) <$> seq 1 (length (subkeys_ k) - 1)).

(** The key of the strong intent: subkeys of a key without components are ignored. *)
Definition strong_key (k : t) : t := if root (doc_key_ k) then table_level (doc_key_ k) else remove_hybrid_time k.

Section Calls.
Context {S : Type} (functor : S → IntentStrength → bool → bytes → bytes → bool → outcome S).

(** The callback for one weak intent after the other. *)
Fixpoint weak_calls (st : S) (l : list (bool * bytes)) : outcome S :=
  match l with
  | [] => Ok st
  | (full_doc_key, key) :: l => let! st := functor st kWeak full_doc_key [] key false in weak_calls st l
  end.

Lemma weak_calls_app st l l' : weak_calls st (l ++ l') = let! st := weak_calls st l in weak_calls st l'.
Proof. revert st. induction l as [|[b x] l IH]; intros st; [done|]. cbn [weak_calls app]. destruct (functor st kWeak b [] x false); [|done..]. cbn [obind]. apply IH. Qed.

Lemma remove_closed x : RemoveLastByte (close x) = Ok x.
Proof. unfold RemoveLastByte, close. destruct (x ++ [code kGroupEnd]) eqn:E; [by apply app_nil in E as [_ ?]|]. by rewrite <- E, removelast_last. Qed.

Lemma all_codes_app l l' : all_codes (l ++ l') = all_codes l ++ all_codes l'.
Proof. unfold all_codes. by rewrite fmap_app, concat_app. Qed.

Lemma all_codes_app1 l v : all_codes (l ++ [v]) = all_codes l ++ key_code v.
Proof. rewrite all_codes_app. unfold all_codes at 2. cbn [fmap list_fmap concat]. by rewrite app_nil_r. Qed.

Lemma codes_first l s : Forall item l → l ≠ [] → ∃ b x, all_codes l ++ s = b :: x ∧ 36 <= b.
Proof.
  intros Hl Hne. destruct Hl as [|v l Hv Hl]; [done|]. destruct (item_tag v Hv) as (x & E & Ht). rewrite codes_cons, E. eexists _, _. split; [done|lia].
Qed.

Lemma items_length l : Forall item l → (length l ≤ length (all_codes l))%nat.
Proof.
  intros Hl. induction Hl as [|v l Hv Hl IH]; [done|]. rewrite codes_cons, length_app. destruct (item_tag v Hv) as (x & -> & _). cbn [length]. lia.
Qed.

(** Whether a key ends after the range components that remain. *)
Lemma end_of_sub_keys l subs t :
  Forall item l → Forall item subs → tail t →
  IsEndOfSubKeys (group_code l ++ all_codes subs ++ t) = Ok (bool_decide (l = []) && bool_decide (subs = [])) ∧
  ∃ b x, group_code l ++ all_codes subs ++ t = b :: x ∧ (b =? kGroupEnd) = bool_decide (l = []).
Proof.
  intros Hl Hs Ht. unfold group_code. destruct l as [|v l].
  - split; [|by eexists _, _]. cbn [all_codes concat fmap list_fmap app]. unfold IsEndOfSubKeys, byte_at at 1. cbn [lookup list_lookup obind]. rewrite Z.eqb_refl. cbn [negb].
    rewrite (bool_decide_true ([] = [])) by done. cbn [andb]. destruct subs as [|w subs].
    + cbn [all_codes concat fmap list_fmap app]. destruct Ht as [->|[t' ->]]; [done|]. done.
    + destruct (codes_first (w :: subs) t Hs ltac:(done)) as (b & x & -> & Hb). cbn [length Nat.eqb]. unfold byte_at. cbn [lookup list_lookup obind].
      rewrite bool_decide_false by done. f_equal. apply Z.eqb_neq. change (code kHybridTime) with 35. lia.
  - rewrite <- app_assoc. destruct (codes_first (v :: l) ([code kGroupEnd] ++ all_codes subs ++ t) Hl ltac:(done)) as (b & x & -> & Hb).
    assert ((b =? kGroupEnd) = false) as E by (apply Z.eqb_neq; change (code kGroupEnd) with 33; lia).
    rewrite bool_decide_false by done. split; [|by exists b, x]. unfold IsEndOfSubKeys, byte_at. cbn [lookup list_lookup obind]. by rewrite E.
Qed.

Lemma consume_item v l s :
  item v → Forall item l → bytes_ok s →
  DocKeyComponents.ConsumePrimitiveValueFromKey (group_code (v :: l) ++ s) = Ok (true, group_code l ++ s) ∧
  take (length (group_code (v :: l) ++ s) - length (group_code l ++ s)) (group_code (v :: l) ++ s) = key_code v.
Proof.
  intros Hv Hl Hs. rewrite group_cons, <- app_assoc. split.
  - unfold DocKeyComponents.ConsumePrimitiveValueFromKey. rewrite has_value by done. cbn [obind negb].
    by rewrite (proj2 (item_decodes v _ Hv ltac:(apply Forall_app_2; [by apply group_ok|done]))).
  - rewrite length_app, Nat.add_sub. apply take_app_length.
Qed.

(** The loop over the range components [l] after [pre]. *)
Lemma range_loop partial h subs t l pre st fuel :
  Forall item l → Forall item subs → bytes_ok t → tail t → (length l < fuel)%nat →
  let leaf := bool_decide (subs = []) in
  let n := length (pre ++ l) in
  range_intents functor fuel partial st (h ++ all_codes pre) (group_code l ++ all_codes subs ++ t) =
  let! st := weak_calls st ((λ i, (bool_decide (i = n), close (h ++ all_codes (take i (pre ++ l))))) <$>
    filter (λ i, partial = true ∨ i = n) (seq (1 + length pre) (if leaf then length l - 1 else length l))) in
  Ok (if leaf && negb (bool_decide (l = [])) then (true, st, close (h ++ all_codes (pre ++ l)), group_code [] ++ all_codes subs ++ t)
      else (false, st, h ++ all_codes (pre ++ l), all_codes subs ++ t)).
Proof.
  intros Hl Hs Hok Ht. revert pre st fuel. induction Hl as [|v l Hv Hl IH]; intros pre st fuel Hf leaf n; (destruct fuel as [|fuel]; [cbn [length] in Hf; lia|]); cbn [range_intents].
  { rewrite app_nil_r, bool_decide_true, andb_false_r by done. by destruct leaf. }
  assert (bytes_ok (all_codes subs ++ t)) as Hst by (apply Forall_app_2; [by apply codes_ok|done]).
  destruct (consume_item v l (all_codes subs ++ t) Hv Hl Hst) as [E1 E2]. rewrite E1. cbn [obind negb]. rewrite E2, <- app_assoc, <- all_codes_app1.
  destruct (end_of_sub_keys l subs t Hl Hs Ht) as (Ee & b & x & Ex & Eb).
  rewrite Ee. cbn [obind]. rewrite bool_decide_false by (rewrite Ex; done).
  specialize (IH (pre ++ [v]) ). cbv zeta in IH. rewrite <- app_assoc in IH. cbn [app] in IH. fold n leaf in IH.
  assert (n = length pre + (1 + length l))%nat as En by (unfold n; rewrite length_app; done).
  assert (bool_decide (l = []) = bool_decide (1 + length pre = n)%nat) as Ei.
  { apply bool_decide_ext. rewrite En. split; [intros ->; cbn; lia|]. destruct l; [done|]. cbn [length]. lia. }
  assert (take (1 + length pre) (pre ++ v :: l) = pre ++ [v]) as Et.
  { rewrite take_app_ge by lia. by replace (1 + length pre - length pre)%nat with 1%nat by lia. }
  destruct (bool_decide (l = []) && bool_decide (subs = [])) eqn:Eend.
  { apply andb_true_iff in Eend as [El%bool_decide_eq_true Es]. subst l. unfold leaf. by rewrite Es. }
  assert (seq (1 + length pre) (if leaf then length (v :: l) - 1 else length (v :: l)) =
    (1 + length pre)%nat :: seq (1 + (1 + length pre)) (if leaf then length l - 1 else length l)) as ->.
  { cbn [length]. fold leaf in Eend. destruct leaf; [|done]. destruct l; [done|]. cbn [length]. cbn [Nat.sub]. by rewrite ?Nat.sub_0_r. }
  rewrite Ex. unfold byte_at. cbn [lookup list_lookup obind]. rewrite Eb, <- Ex. 
  assert (∀ st', range_intents functor fuel partial st' (h ++ all_codes (pre ++ [v])) (group_code l ++ all_codes subs ++ t) =
    let! st'0 := weak_calls st' ((λ i, (bool_decide (i = n), close (h ++ all_codes (take i (pre ++ v :: l))))) <$>
      filter (λ i, partial = true ∨ i = n) (seq (1 + (1 + length pre)) (if leaf then length l - 1 else length l))) in
    Ok (if leaf && negb (bool_decide (v :: l = [])) then (true, st'0, close (h ++ all_codes (pre ++ v :: l)), group_code [] ++ all_codes subs ++ t)
      else (false, st'0, h ++ all_codes (pre ++ v :: l), all_codes subs ++ t))) as IH'.
  { intros st'. rewrite IH by (cbn [length] in Hf; lia). rewrite length_app. cbn [length]. rewrite (Nat.add_comm (length pre)).
    rewrite (bool_decide_false (v :: l = [])) by done. fold leaf in Eend. destruct leaf; [|done]. rewrite andb_true_r in Eend. by rewrite Eend. }
  rewrite filter_cons. destruct (bool_decide_reflect (1 + length pre = n)%nat) as [E|E].
  - rewrite decide_True by (by right). rewrite Ei, orb_true_r, fmap_cons. cbn [weak_calls]. rewrite bool_decide_true, Et by done.
    destruct (functor st kWeak true [] _ false); [|done..]. cbn [obind]. rewrite remove_closed. apply IH'.
  - rewrite Ei, orb_false_r. destruct partial.
    + rewrite decide_True by (by left). rewrite fmap_cons. cbn [weak_calls]. rewrite bool_decide_false, Et by done.
      destruct (functor st kWeak false [] _ false); [|done..]. cbn [obind]. rewrite remove_closed. apply IH'.
    + rewrite decide_False by (by intros [?|?]). cbn [obind]. rewrite remove_closed. apply IH'.
Qed.

Lemma decode_item v l t :
  item v → Forall item l → bytes_ok t →
  DecodeSubkey (all_codes (v :: l) ++ t) = Ok (true, all_codes l ++ t) ∧
  take (length (all_codes (v :: l) ++ t) - length (all_codes l ++ t)) (all_codes (v :: l) ++ t) = key_code v.
Proof.
  intros Hv Hl Ht. rewrite codes_cons, <- app_assoc. split; [|rewrite length_app, Nat.add_sub; apply take_app_length].
  assert (bytes_ok (all_codes l ++ t)) as Hok by (apply Forall_app_2; [by apply codes_ok|done]).
  pose proof (consumes_skip () v (all_codes l ++ t) Hv Hok) as E. destruct (item_tag v Hv) as (x & Ex & Hb). unfold DecodeSubkey, decode_subkey.
  rewrite Ex in *. cbn [app] in *. rewrite (proj2 (Z.eqb_neq _ kHybridTime)) by (change (code kHybridTime) with 35; lia). cbn [negb]. by rewrite E.
Qed.

(** The loop over the subkeys [l] after [pre]. *)
Lemma subkey_loop b t l pre st fuel :
  Forall item l → l ≠ [] → bytes_ok t → tail t → (length l < fuel)%nat →
  subkey_intents functor fuel st (b ++ all_codes pre) (all_codes l ++ t) =
  let! st := weak_calls st ((λ i, (true, b ++ all_codes (take i (pre ++ l)))) <$> seq (1 + length pre) (length l - 1)) in
  Ok (st, b ++ all_codes (pre ++ l)).
Proof.
  intros Hl Hne Hok Ht. revert pre st fuel. induction Hl as [|v l Hv Hl IH]; intros pre st fuel Hf; [done|]. destruct fuel as [|fuel]; [cbn [length] in Hf; lia|].
  cbn [subkey_intents]. destruct (decode_item v l t Hv Hl Hok) as [E1 E2]. rewrite E1. cbn [obind negb]. rewrite E2, <- app_assoc, <- all_codes_app1.
  destruct (decide (l = [])) as [->|Hl'].
  - cbn [length seq fmap list_fmap weak_calls obind all_codes concat app]. by destruct Ht as [->|[t' ->]].
  - destruct (codes_first l t Hl Hl') as (c & x & Ec & Hc). rewrite Ec. rewrite (proj2 (Z.eqb_neq c kHybridTime)) by (change (code kHybridTime) with 35; lia). rewrite <- Ec.
    assert (take (1 + length pre) (pre ++ v :: l) = pre ++ [v]) as Et.
    { rewrite take_app_ge by lia. by replace (1 + length pre - length pre)%nat with 1%nat by lia. }
    assert (length (v :: l) - 1 = 1 + (length l - 1))%nat as -> by (destruct l; [done|]; cbn [length]; lia). cbn [seq Nat.add]. rewrite fmap_cons. cbn [weak_calls].
    change (Datatypes.S (length pre)) with (1 + length pre)%nat. rewrite Et. destruct (functor st kWeak true [] _ false); [|done..]. cbn [obind].
    rewrite IH by (done || cbn [length] in Hf; lia). rewrite <- app_assoc, length_app, (Nat.add_comm (length pre)). done.
Qed.

(** From the range components on. *)
Lemma after_hash_loop partial h r subs t st :
  Forall item r → Forall item subs → bytes_ok t → tail t → (r ≠ [] ∨ subs ≠ []) →
  let n := if bool_decide (subs = []) then (length r - 1)%nat else length r in
  after_hash_intents functor partial st h (group_code r ++ all_codes subs ++ t) =
  let! st := weak_calls st
    (((λ i, (bool_decide (i = length r), close (h ++ all_codes (take i r)))) <$> filter (λ i, partial = true ∨ i = length r) (seq 1 n)) ++
     ((λ i, (true, close (h ++ all_codes r) ++ all_codes (take i subs))) <$> seq 1 (length subs - 1))) in
  Ok (st, close (h ++ all_codes r) ++ all_codes subs).
Proof.
  intros Hr Hs Hok Ht Hne n. unfold after_hash_intents. pose proof (range_loop partial h subs t r [] st (length (group_code r ++ all_codes subs ++ t) + 1) Hr Hs Hok Ht) as E.
  cbv zeta in E. cbn [app length] in E. change (all_codes []) with (@nil Z) in E. rewrite app_nil_r in E.
  rewrite E by (rewrite length_app; unfold group_code; rewrite length_app; pose proof (items_length r Hr); lia). clear E. rewrite weak_calls_app. fold n.
  destruct (weak_calls st _) as [st'|?| |]; [|done..]. cbn [obind]. destruct (decide (subs = [])) as [->|Hs'].
  - rewrite !bool_decide_true by done. rewrite bool_decide_false by (by destruct Hne). cbn [andb negb length seq fmap list_fmap weak_calls obind all_codes concat].
    by rewrite app_nil_r.
  - rewrite !(bool_decide_false (subs = [])) by done. cbn [andb obind]. pose proof (subkey_loop (close (h ++ all_codes r)) t subs [] st' (length (all_codes subs ++ t) + 1) Hs Hs' Hok Ht) as E.
    cbn [app length] in E. change (all_codes []) with (@nil Z) in E. rewrite app_nil_r in E. rewrite E; [done|]. rewrite length_app. pose proof (items_length subs Hs). lia.
Qed.

End Calls.

Lemma table_part_code d rest : wf_key d → table_part (doc_code d ++ rest) = Ok (id_code d, root d).
Proof.
  intros Hd. destruct (after_id_first d rest Hd) as (b & Hb & Eb). fold (root d) in Eb. pose proof (id_shorter d rest Hd) as Hlen. revert Hb Hlen.
  destruct (after_id d rest Hd) as (c & x & Ec & Hc1 & Hc2). unfold doc_code. rewrite <- !app_assoc. intros Hb Hlen.
  assert (take (length (id_code d)) (id_code d ++ hash_part d ++ range_part d ++ rest) = id_code d) as Et by apply take_app_length.
  unfold id_code in *. destruct (DocKey.has_cotable_id d) eqn:E1; [|destruct (DocKey.has_pgtable_id d) eqn:E2].
  - cbn [length] in Hb, Hlen, Et. rewrite uuid_length in Hb, Hlen, Et by apply Hd. change Uuid.kUuidSize with 16%nat in *. unfold table_part. cbn [app]. rewrite Z.eqb_refl.
    change Uuid.kUuidSize with 16%nat. rewrite (proj2 (Nat.ltb_ge _ _)) by (cbn [app] in Hlen; lia).
    cbn [app] in Hb, Et. replace (16 + 1)%nat with 17%nat by done. rewrite Hb. cbn [obind]. by rewrite Et, Eb.
  - cbn [length] in Hb, Hlen, Et. rewrite length_be_bytes in Hb, Hlen, Et. unfold table_part. cbn [app]. rewrite (proj2 (Z.eqb_neq (code kPgTableOid) kTableId)) by done. rewrite Z.eqb_refl.
    rewrite (proj2 (Nat.ltb_ge _ _)) by (cbn [app] in Hlen; lia).
    cbn [app] in Hb, Et. replace (4 + 1)%nat with 5%nat by done. rewrite Hb. cbn [obind]. by rewrite Et, Eb.
  - cbn [app length] in *. rewrite Ec in *. unfold table_part. rewrite !(proj2 (Z.eqb_neq c _)) by done. unfold byte_at in Hb. cbn [lookup list_lookup] in Hb. injection Hb as <-. by rewrite Eb.
Qed.

Lemma table_code d : sub_code (table_level d) = close (id_code d).
Proof. unfold sub_code. change (all_codes (subkeys_ (table_level d))) with (@nil Z). by rewrite app_nil_r. Qed.

Lemma range_code d l : sub_code (range_level d l) = close ((id_code d ++ hash_part d) ++ all_codes l).
Proof. unfold sub_code, range_level, close. cbn [doc_key_ subkeys_]. unfold doc_code, range_part, group_code. cbn. by rewrite app_nil_r, <- !app_assoc. Qed.

Lemma prefix_code k i :
  sub_code (KeepPrefix i (remove_hybrid_time k)) =
  close ((id_code (doc_key_ k) ++ hash_part (doc_key_ k)) ++ all_codes (DocKey.range_group_ (doc_key_ k))) ++ all_codes (take i (subkeys_ k)).
Proof. unfold sub_code, close. cbn [doc_key_ subkeys_ KeepPrefix remove_hybrid_time]. unfold doc_code, range_part, group_code. by rewrite <- !app_assoc. Qed.

Definition coded (l : bool * t) : bool * bytes := (l.1, sub_code l.2).

Lemma after_hash_ancestors {S} (functor : S → IntentStrength → bool → bytes → bytes → bool → outcome S) st k partial :
  wf_sub k → let d := doc_key_ k in let r := DocKey.range_group_ d in
  (r ≠ [] ∨ subkeys_ k ≠ []) →
  after_hash_intents functor partial st (id_code d ++ hash_part d) (group_code r ++ all_codes (subkeys_ k) ++ ht_code k) =
  let! st := weak_calls functor st (coded <$> (((λ i, (bool_decide (i = length r), range_level d (take i r))) <$>
     filter (λ i, partial = true ∨ i = length r) (seq 1 (range_count k))) ++
    ((λ i, (true, KeepPrefix i (remove_hybrid_time k))) <$> seq 1 (length (subkeys_ k) - 1)))) in Ok (st, sub_code (remove_hybrid_time k)).
Proof.
  intros Hk d r Hne. rewrite after_hash_loop; [|apply Hk|apply Hk|by apply ht_code_ok|by apply ht_tail|done].
  assert (close ((id_code d ++ hash_part d) ++ all_codes r) ++ all_codes (subkeys_ k) = sub_code (remove_hybrid_time k)) as <-.
  { unfold sub_code, close. cbn [doc_key_ subkeys_ remove_hybrid_time]. unfold doc_code, range_part, group_code. by rewrite <- !app_assoc. }
  rewrite fmap_app, <- !list_fmap_compose. unfold range_count. fold d r. do 3 f_equal.
  - apply list_fmap_ext. intros ? i _. unfold compose, coded. cbn [fst snd]. by rewrite range_code.
  - apply list_fmap_ext. intros ? i _. unfold compose, coded. cbn [fst snd]. by rewrite prefix_code.
Qed.

(** The weak intents of a key are those of its ancestors. *)
Lemma weak_intents {S} (functor : S → IntentStrength → bool → bytes → bytes → bool → outcome S) st k partial :
  wf_sub k →
  EnumerateWeakIntents functor st (sub_code k ++ ht_code k) partial =
  let! st := weak_calls functor st (coded <$> ancestors partial k) in Ok (st, sub_code (strong_key k)).
Proof.
  intros Hk. pose proof (wf_doc_key k Hk) as Hd. pose proof (ht_code_ok k Hk) as Hht. set (d := doc_key_ k) in *. set (s := all_codes (subkeys_ k) ++ ht_code k).
  assert (bytes_ok s) as Hs by (apply Forall_app_2; [apply codes_ok, Hk|done]).
  set (r := DocKey.range_group_ d). set (h := id_code d ++ hash_part d).
  assert (sub_code k ++ ht_code k = doc_code d ++ s) as -> by (unfold sub_code, s; by rewrite <- app_assoc).
  unfold EnumerateWeakIntents. rewrite table_part_code by done. cbn [obind]. unfold ancestors, strong_key. fold d r.
  destruct (root d) eqn:Er; [by cbn [fmap list_fmap weak_calls obind]; rewrite table_code|]. rewrite size_of_part by done.
  assert (read_part DocKey.kUpToHash d = h) as ->.
  { pose proof (read_unread DocKey.kUpToHash d Hd) as E. cbn [unread] in E. unfold doc_code in E. rewrite app_assoc in E. by apply app_inv_tail in E. }
  assert (doc_code d ++ s = h ++ group_code r ++ s) as Ekey by (unfold doc_code, h, range_part; by rewrite <- !app_assoc).
  rewrite Ekey. cbn [app fmap list_fmap weak_calls coded fst snd]. rewrite table_code.
  destruct (functor st kWeak false [] (close (id_code d)) false) as [st'|?| |]; [|done..]. cbn [obind]. rewrite remove_closed. cbn [obind].
  pose proof (λ st, after_hash_ancestors functor st k partial Hk) as Hafter. cbv zeta in Hafter. fold d r h s in Hafter.
  assert (Slice.remove_prefix (h ++ group_code r ++ s) (length h) = Ok (group_code r ++ s)) as Hrem by apply remove_prefix_app.
  destruct (DocKey.hash_present_ d) eqn:Eh.
  - assert (length (hash_part d) ≠ 0%nat) as Hh by (unfold hash_part; rewrite Eh; done). assert (length h = length (id_code d) + length (hash_part d))%nat as Lh by apply length_app.
    rewrite (proj2 (Nat.eqb_neq _ _)) by lia. cbn [negb]. rewrite (proj2 (Nat.ltb_ge _ _)) by lia. rewrite Hrem. cbn [obind].
    assert (id_code d ++ take (length h - length (id_code d)) (drop (length (id_code d)) (h ++ group_code r ++ s)) = h) as ->.
    { unfold h at 2. rewrite <- app_assoc, drop_app_length, Lh, Nat.add_comm, Nat.add_sub, take_app_length. done. }
    destruct (end_of_sub_keys r (subkeys_ k) (ht_code k)) as (Ee & b & x & Ex & Eb); [apply Hk|apply Hk|by apply ht_tail|]. fold s in Ee, Ex.
    rewrite bool_decide_false by (by rewrite Ex). rewrite Ee. cbn [obind andb]. destruct (bool_decide (r = []) && bool_decide (subkeys_ k = [])) eqn:Eend.
    + apply andb_true_iff in Eend as [Er'%bool_decide_eq_true Es%bool_decide_eq_true]. rewrite Es. unfold range_count. fold d r. rewrite Er', Es.
      cbn [negb app length seq filter fmap list_fmap weak_calls obind]. do 2 f_equal. unfold sub_code. cbn [doc_key_ subkeys_ remove_hybrid_time]. fold d.
      unfold close, doc_code, range_part, group_code. fold r. rewrite Er', Es. unfold h. by rewrite <- !app_assoc.
    + rewrite Ex. unfold byte_at. cbn [lookup list_lookup obind]. rewrite Eb, <- Ex. cbn [negb app fmap list_fmap weak_calls coded fst snd].
      assert (sub_code (range_level d []) = close h) as -> by (rewrite range_code; change (all_codes []) with (@nil Z); by rewrite app_nil_r).
      destruct (functor st' kWeak _ [] (close h) false) as [st''|?| |]; [|done..]. cbn [obind]. rewrite remove_closed. cbn [obind]. rewrite Hafter; [done|].
      apply andb_false_iff in Eend as [?%bool_decide_eq_false|?%bool_decide_eq_false]; auto.
  - assert (hash_part d = []) as Hh by (unfold hash_part; by rewrite Eh). assert (h = id_code d) as Ehd by (unfold h; by rewrite Hh, app_nil_r).
    rewrite <- Ehd, Nat.eqb_refl. cbn [negb]. rewrite Hrem. cbn [obind andb app]. apply Hafter. left. unfold root in Er. rewrite Eh in Er. by apply bool_decide_eq_false in Er.
Qed.

Lemma without_ht k : wf_sub k → EncodeWithoutHt k = Ok (sub_code k).
Proof. intros Hk. unfold EncodeWithoutHt. rewrite encode_sub by done. by rewrite app_nil_r. Qed.

Lemma table_wf d : wf_key d → wf_sub (table_level d).
Proof. intros Hd. split; [|done|constructor]. destruct Hd. by split. Qed.

Lemma range_wf d n : wf_key d → wf_sub (range_level d (take n (DocKey.range_group_ d))).
Proof.
  intros Hd. split; [|done|constructor]. destruct Hd as [? ? ? ? Hno ? ? ? ?]. split; try done; cbn.
  - intros Hh. destruct (Hno Hh) as [H1 H2]. split; [done|]. intros v l E. destruct n as [|n]; [done|]. cbn [doc_key_ range_level DocKey.set_range DocKey.range_group_] in E.
    destruct (DocKey.range_group_ d) as [|w r] eqn:Er; [done|]. cbn [take] in E. injection E as <- _. by apply (H2 w r).
  - by apply Forall_take.
  - rewrite length_take. lia.
Qed.

Lemma keep_wf k n : wf_sub k → wf_sub (KeepPrefix n (remove_hybrid_time k)).
Proof. intros [Hd _ Hs]. split; [done|done|]. cbn. by apply Forall_take. Qed.

Lemma ancestors_wf partial k a : wf_sub k → a ∈ ancestors partial k → wf_sub a.2.
Proof.
  intros Hk Ha. pose proof (wf_doc_key k Hk) as Hd. unfold ancestors in Ha. destruct (root (doc_key_ k)); [by apply not_elem_of_nil in Ha|].
  rewrite !elem_of_app in Ha. destruct Ha as [->%list_elem_of_singleton|[Ha|[Ha|Ha]]].
  - by apply table_wf.
  - destruct (_ && _); [|by apply not_elem_of_nil in Ha]. apply list_elem_of_singleton in Ha as ->. apply (range_wf (doc_key_ k) 0 Hd).
  - apply list_elem_of_fmap in Ha as (i & -> & _). by apply range_wf.
  - apply list_elem_of_fmap in Ha as (i & -> & _). by apply keep_wf.
Qed.

Lemma strong_wf k : wf_sub k → wf_sub (strong_key k).
Proof. intros Hk. unfold strong_key. destruct (root _); [apply table_wf, Hk|]. destruct Hk. by split. Qed.

(** A document, and every subdocument, is an ancestor of what is below it. *)
Lemma above_ancestor partial k p :
  wf_sub k → wf_sub p → root (doc_key_ k) = false → same_key (doc_key_ p) (doc_key_ k) → subkeys_ p `prefix_of` subkeys_ k → subkeys_ p ≠ subkeys_ k →
  (true, sub_code p) ∈ coded <$> ancestors partial k.
Proof.
  intros Hk Hp Er Hs [x Ex] Hne. apply same_key_code in Hs; [|apply Hp|apply Hk].
  assert (subkeys_ p = take (length (subkeys_ p)) (subkeys_ k)) as Ep by (by rewrite Ex, take_app_length).
  assert (length (subkeys_ p) < length (subkeys_ k))%nat as Hlt.
  { rewrite Ex, length_app. destruct x; [by rewrite app_nil_r in Ex|]. cbn [length]. lia. }
  assert (subkeys_ k ≠ []) as Hk0 by (intros E; rewrite E in Hlt; cbn in Hlt; lia).
  unfold ancestors. rewrite Er, (bool_decide_false (subkeys_ k = [])), andb_false_r by done. cbn [negb]. rewrite andb_true_r, !fmap_app, !elem_of_app.
  unfold range_count. rewrite (bool_decide_false (subkeys_ k = [])) by done. set (d := doc_key_ k) in *. set (r := DocKey.range_group_ d) in *.
  destruct (subkeys_ p) as [|v l] eqn:El.
  - right. assert (sub_code p = doc_code d) as -> by (unfold sub_code; by rewrite El, app_nil_r).
    assert (∀ l, l = r → sub_code (range_level d l) = doc_code d) as Hr by (intros ? ->; unfold sub_code; by rewrite app_nil_r). destruct (decide (r = [])) as [E|E].
    + left. unfold root in Er. fold r in Er. rewrite (bool_decide_true (r = [])), andb_true_r in Er by done. apply negb_false_iff in Er. rewrite Er.
      apply list_elem_of_singleton. unfold coded. cbn [fst snd]. rewrite bool_decide_true by done. f_equal. symmetry. by apply Hr.
    + right. left. rewrite <- list_fmap_compose. apply list_elem_of_fmap. exists (length r). split.
      * unfold compose, coded. cbn [fst snd]. rewrite bool_decide_true, Hr by (done || apply firstn_all). done.
      * apply list_elem_of_filter. split; [by right|]. apply elem_of_seq. destruct r; [done|]. cbn [length]. lia.
  - right. right. right. rewrite <- list_fmap_compose. apply list_elem_of_fmap. exists (length (v :: l)). split.
    + unfold compose, coded. cbn [fst snd]. f_equal. unfold sub_code. cbn [doc_key_ subkeys_ KeepPrefix remove_hybrid_time]. by rewrite Hs, <- Ep, El.
    + apply elem_of_seq. cbn [length] in *. lia.
Qed.

End Levels.

(** For a key that is written or read, a weak intent is reported for every key above it: the table, the hashed part, the range
    components, all of them or with the whole document only, and the subdocuments; then a strong one for the key itself.  The
    strong intent of a subdocument is among the weak ones of everything below it. *)
Theorem intents_enumerated
    {B : BigNum} {HB : BigNumSpec B} {V : UuidVersion} {HV : UuidVersionSpec V} {A : IpAddress} {HA : IpAddressSpec A}
    {S : Type} (functor : S → IntentStrength → bool → bytes → bytes → bool → outcome S) (st : S) (k : t) (value : bytes) (partial last : bool) :
  wf_sub k →
  ∃ e s w, Encode k = Ok e ∧ EncodeWithoutHt (strong_key k) = Ok s ∧
    Forall2 (λ a x, x.1 = a.1 ∧ EncodeWithoutHt a.2 = Ok x.2) (ancestors partial k) w ∧
    EnumerateIntents functor st e value partial last = (let! st := weak_calls functor st w in functor st kStrong true value s last) ∧
    ∀ p, wf_sub p → root (doc_key_ k) = false → same_key (doc_key_ p) (doc_key_ k) → subkeys_ p `prefix_of` subkeys_ k → subkeys_ p ≠ subkeys_ k →
      ∃ x, EncodeWithoutHt (strong_key p) = Ok x ∧ (true, x) ∈ w.
Proof.
  intros Hk. exists (sub_code k ++ ht_code k), (sub_code (strong_key k)), (coded <$> ancestors partial k). split_and!.
  - unfold Encode. by rewrite encode_sub.
  - by apply without_ht, strong_wf.
  - apply Forall2_fmap_r, Forall_Forall2_diag, Forall_forall. intros a Ha. split; [done|]. by eapply without_ht, ancestors_wf.
  - unfold EnumerateIntents.EnumerateIntents. rewrite weak_intents by done. by destruct (weak_calls functor st _).
  - intros p Hp Er Hs Hpre Hne. exists (sub_code p). split; [|by apply above_ancestor].
    rewrite without_ht by (by apply strong_wf). unfold strong_key.
    assert (root (doc_key_ p) = false) as ->; [|done]. revert Er. apply same_key_parts in Hs as (_ & _ & E1 & _ & E2); [|apply Hp|apply Hk].
    unfold root, hash_of in *. rewrite E2. by destruct (DocKey.hash_present_ (doc_key_ p)), (DocKey.hash_present_ (doc_key_ k)).
Qed.

(** A callback that counts. *)
Definition count (n : nat) (_ : IntentStrength) (_ : bool) (_ _ : bytes) (_ : bool) : outcome nat := Ok (n + 1)%nat.

Lemma count_weak n w : weak_calls count n w = Ok (n + length w)%nat.
Proof. revert n. induction w as [|[b x] w IH]; intros n; cbn [weak_calls count obind length]; [by rewrite Nat.add_0_r|]. rewrite IH. f_equal. lia. Qed.

Lemma intents_enumerated_witness :
  ∃ e, Encode (sample_sub 3 DocHybridTime.sample) = Ok e ∧ EnumerateIntents (B := ZNum) count 0%nat e [1] true true = Ok 6%nat.
Proof.
  destruct (sample_sub_wf 3 DocHybridTime.sample ltac:(unfold is_i64; lia) DocHybridTime.sample_wf) as [Hk _].
  destruct (intents_enumerated (B := ZNum) count 0%nat (sample_sub 3 DocHybridTime.sample) [1] true true Hk) as (e & s & w & E & _ & Hw & Er & _).
  exists e. split; [exact E|]. rewrite Er, count_weak. apply Forall2_length in Hw. rewrite <- Hw. vm_compute. reflexivity.
Defined.

End IntentLevels.
