(* ===== verification/HybridClock.v ===== *)
(** * The hybrid clock

    Models server/hybrid_clock.h and server/hybrid_clock.cc.  The clock is one
    atomic cell of type [HybridClockComponents]; [NowWithError] and [Update] are
    compare-and-swap loops run by any number of threads.  A thread is a program
    counter with its local variables, [tstep] is one atomic action of a thread
    (at most one access to the cell), and a system interleaves the threads in
    any order.  [compare_exchange_weak] may fail spuriously.  The physical clock
    is an input of the step that reads it. *)

From S2P Require Import Prelude HybridTime.

Module HybridClock.

(** ** Data *)

Record PhysicalTime := { time_point : Z; max_error : Z }.

Record HybridClockComponents := { last_usec : Z; logical : Z }.

#[export] Instance components_eq_dec : EqDecision HybridClockComponents.
Proof. solve_decision. Defined.

(** [operator<]. *)
Definition components_lt (c o : HybridClockComponents) : bool :=
  (last_usec c <? last_usec o) ||
  ((last_usec c =? last_usec o) && (logical c <? logical o)).

Definition HandleLogicalComponentOverflow (c : HybridClockComponents)
    : outcome HybridClockComponents :=
  if HybridTime.kLogicalBitMask <? logical c then
    let kMaxOverflowValue := Z.shiftl 1 HybridTime.kBitsForLogicalComponent in
    if kMaxOverflowValue <? logical c then Fatal
    else Ok {| last_usec := u64 (last_usec c +
                 Z.shiftr (logical c) HybridTime.kBitsForLogicalComponent);
               logical := Z.land (logical c) HybridTime.kLogicalBitMask |}
  else Ok c.

(** The flags the code reads. *)
Record Flags := {
  max_clock_skew_usec : Z;
  fail_on_out_of_range_clock_skew : bool;
  clock_skew_control_enabled : bool }.

(** ** One thread *)

(** Where a thread is, with its local variables: outside a call, between the load
    and the reading of the physical clock, at the test of the inner [while] of
    [NowWithError], at the body of its [do] loop, at the test of the [while] of
    [Update]. *)
Inductive pc :=
  | Idle
  | NowLoaded (current : HybridClockComponents)
  | NowReset (now : PhysicalTime) (current : HybridClockComponents)
  | NowIncrement (now : PhysicalTime) (current : HybridClockComponents)
  | UpdateLoop (to_update : Z) (new_components current : HybridClockComponents).

(** What a step is given: the call made, the reading of the physical clock (or
    its failure), or whether a compare-and-swap fails spuriously. *)
Inductive input :=
  | CallNow
  | CallUpdate (to_update : Z)
  | ReadClock (now : option PhysicalTime)
  | Proceed (spurious : bool).

(** A completed call. *)
Inductive event :=
  | Returned (hybrid_time max_error_usec : Z)
  | Updated (to_update : Z).

(** Whether [compare_exchange_weak] succeeds; the caller stores the new value on
    success and reloads [current] on failure. *)
Definition compare_exchange_weak (spurious : bool)
    (cell current : HybridClockComponents) : bool :=
  negb spurious && bool_decide (cell = current).

Section Thread.
Context (flags : Flags).

Definition NowWithError_clock (now : PhysicalTime) (current : HybridClockComponents) : outcome pc :=
  if time_point now <? last_usec current then
    let delta_us := last_usec current - time_point now in
    if (max_clock_skew_usec flags <? delta_us) &&
       (fail_on_out_of_range_clock_skew flags && clock_skew_control_enabled flags)
    then Fatal else Ok (NowIncrement now current)
  else Ok (NowReset now current).

Definition NowWithError_reset (spurious : bool) (cell : HybridClockComponents)
    (now : PhysicalTime) (current : HybridClockComponents)
    : HybridClockComponents * pc * option event :=
  let new_components := {| last_usec := time_point now; logical := 1 |} in
  if last_usec current <? time_point now then
    if compare_exchange_weak spurious cell current
    then (new_components, Idle,
          Some (Returned (HybridTime.FromMicros (last_usec new_components)) (max_error now)))
    else (cell, NowReset now cell, None)
  else (cell, NowIncrement now current, None).

Definition NowWithError_increment (spurious : bool) (cell : HybridClockComponents)
    (now : PhysicalTime) (current : HybridClockComponents)
    : outcome (HybridClockComponents * pc * option event) :=
  let! new_components := HandleLogicalComponentOverflow
    {| last_usec := last_usec current; logical := u32 (logical current + 1) |} in
  if compare_exchange_weak spurious cell current
  then
    let max_error_usec :=
      u64 (last_usec new_components - u64 (time_point now - max_error now)) in
    let hybrid_time := HybridTime.Decremented
      (HybridTime.FromMicrosecondsAndLogicalValue
         (last_usec new_components) (logical new_components)) in
    Ok (new_components, Idle, Some (Returned hybrid_time max_error_usec))
  else Ok (cell, NowIncrement now cell, None).

(** The part of [Update] before its loop. *)
Definition Update_start (to_update : Z) : outcome HybridClockComponents :=
  HandleLogicalComponentOverflow
    {| last_usec := HybridTime.GetPhysicalValueMicros to_update;
       logical := u32 (HybridTime.GetLogicalValue to_update + 1) |}.

Definition Update_loop (spurious : bool) (cell : HybridClockComponents) (to_update : Z)
    (new_components current : HybridClockComponents)
    : HybridClockComponents * pc * option event :=
  if components_lt current new_components then
    if compare_exchange_weak spurious cell current
    then (new_components, Idle, Some (Updated to_update))
    else (cell, UpdateLoop to_update new_components cell, None)
  else (cell, Idle, Some (Updated to_update)).

(** One action of a thread; an input that does not fit leaves it where it is. *)
Definition tstep (i : input) (cell : HybridClockComponents) (p : pc)
    : outcome (HybridClockComponents * pc * option event) :=
  match p, i with
  | Idle, CallNow => Ok (cell, NowLoaded cell, None)
  | Idle, CallUpdate to_update =>
      if negb (HybridTime.is_valid to_update) then Ok (cell, Idle, None)
      else
        let! new_components := Update_start to_update in
        Ok (cell, UpdateLoop to_update new_components cell, None)
  | NowLoaded current, ReadClock None => Fatal
  | NowLoaded current, ReadClock (Some now) =>
      let! p' := NowWithError_clock now current in Ok (cell, p', None)
  | NowReset now current, Proceed spurious => Ok (NowWithError_reset spurious cell now current)
  | NowIncrement now current, Proceed spurious => NowWithError_increment spurious cell now current
  | UpdateLoop h new current, Proceed spurious => Ok (Update_loop spurious cell h new current)
  | _, _ => Ok (cell, p, None)
  end.

(** ** Other operations *)

(** util/physical_time.cc: [CheckClockSyncError] (the caller turns the error into
    a fatal one), [WallClockImpl::Now] for a reading of the system clock, and
    [WallClockImpl::MaxGlobalTime]. *)
Definition CheckClockSyncError (disable_clock_sync_error : bool) (max_clock_sync_error_usec : Z)
    (time : PhysicalTime) : option PhysicalTime :=
  if negb disable_clock_sync_error && (max_clock_sync_error_usec <? max_error time)
  then None else Some time.

Definition WallClock_Now (disable_clock_sync_error : bool) (max_clock_sync_error_usec : Z)
    (current_time_micros : Z) : option PhysicalTime :=
  CheckClockSyncError disable_clock_sync_error max_clock_sync_error_usec
    {| time_point := u64 current_time_micros; max_error := max_clock_skew_usec flags |}.

Definition WallClock_MaxGlobalTime (time : PhysicalTime) : Z :=
  u64 (time_point time + max_clock_skew_usec flags).

(** [NowRange], given what [NowWithError] returned. *)
Definition NowRange (MaxGlobalTime : PhysicalTime → Z) (now error : Z) : Z * Z :=
  (now, HybridTime.FromMicros
          (MaxGlobalTime {| time_point := HybridTime.GetPhysicalValueMicros now;
                            max_error := error |})).

Definition SkewForMetrics (cell : HybridClockComponents) (now : option PhysicalTime) : Z :=
  match now with
  | None => 0
  | Some now => Z.max 0 (i64 (u64 (last_usec cell - time_point now)))
  end.

Definition GetPhysicalValueNanos (hybrid_time : Z) : outcome Z :=
  let micros := Z.shiftr hybrid_time HybridTime.kBitsForLogicalComponent in
  check! (micros <=? (2 ^ 64 - 1) / 1000) in Ok (u64 (micros * 1000)).

(** [AddPhysicalTimeToHybridTime]; [MonoDelta::ToMicroseconds] as an argument. *)
Definition AddPhysicalTimeToHybridTime (original to_add_micros : Z) : Z :=
  HybridTime.FromMicrosecondsAndLogicalValue
    (u64 (HybridTime.GetPhysicalValueMicros original + u64 to_add_micros))
    (HybridTime.GetLogicalValue original).

(** The result as the sign of the returned [int]. *)
Definition CompareHybridClocksToDelta (begin end_ delta_ns : Z) : outcome comparison :=
  if bool_decide (HybridTime.CompareTo end_ begin = Lt) then Ok Lt
  else
    let! begin_nanos := GetPhysicalValueNanos begin in
    let! end_nanos := GetPhysicalValueNanos end_ in
    let delta_nanos := u64 delta_ns in
    let diff := u64 (end_nanos - begin_nanos) in
    if delta_nanos <? diff then Ok Gt
    else if diff =? delta_nanos then
      let begin_logical := HybridTime.GetLogicalValue begin in
      let end_logical := HybridTime.GetLogicalValue end_ in
      if begin_logical <? end_logical then Ok Gt
      else if end_logical <? begin_logical then Ok Lt else Ok Eq
    else Ok Lt.

(** ** The system *)

(** The cell, the threads that have taken a step, and the completed calls, latest
    first. *)
Record system := {
  components_ : HybridClockComponents;
  threads : gmap nat pc;
  history : list event }.

Definition init : system :=
  {| components_ := {| last_usec := 0; logical := 0 |}; threads := ∅; history := [] |}.

Definition thread (s : system) (tid : nat) : pc := default Idle (threads s !! tid).

Definition do_step (s : system) (tid : nat) (i : input) : outcome system :=
  let! (cell, p, ev) := tstep i (components_ s) (thread s tid) in
  Ok {| components_ := cell; threads := <[tid := p]> (threads s);
        history := option_list ev ++ history s |}.

(** The inputs a caller and a physical clock can supply. *)
Definition input_ok (i : input) : Prop :=
  match i with
  | CallUpdate h => is_u64 h
  | ReadClock (Some now) => is_u64 (time_point now) ∧ is_u64 (max_error now)
  | _ => True
  end.

(** States reached without a fatal error while the cell stays within what a
    hybrid time can represent. *)
Inductive reachable : system → Prop :=
  | reachable_init : reachable init
  | reachable_step s tid i s' :
      reachable s → input_ok i → do_step s tid i = Ok s' →
      last_usec (components_ s') < 2 ^ 52 →
      reachable s'.

(** A run given as a list of actions. *)
Fixpoint run (s : system) (acts : list (nat * input)) : outcome system :=
  match acts with
  | [] => Ok s
  | (tid, i) :: acts => let! s' := do_step s tid i in run s' acts
  end.

End Thread.

(** ** Invariant *)

(** The hybrid time the cell is about to hand out. *)
Definition next (c : HybridClockComponents) : Z := last_usec c * 2 ^ 12 + logical c.

Definition cell_ok (c : HybridClockComponents) : Prop :=
  0 <= last_usec c ∧ 0 <= logical c < 2 ^ 12.

Definition ev_time (e : event) : Z := match e with Returned h _ => h | Updated h => h end.

(** A local copy of the cell is never ahead of it. *)
Definition stale (cell current : HybridClockComponents) : Prop :=
  cell_ok current ∧ next current <= next cell.

Definition pc_ok (cell : HybridClockComponents) (p : pc) : Prop :=
  match p with
  | Idle => True
  | NowLoaded current => stale cell current
  | NowReset now current | NowIncrement now current => stale cell current ∧ is_u64 (time_point now)
  | UpdateLoop h new current => stale cell current ∧ cell_ok new ∧ next new = h + 1
  end.

(** Every time returned is above every time returned or merged before. *)
Fixpoint ordered (h : list event) : Prop :=
  match h with
  | [] => True
  | Returned t _ :: h => Forall (λ e, ev_time e < t) h ∧ ordered h
  | Updated _ :: h => ordered h
  end.

Definition Inv (s : system) : Prop :=
  cell_ok (components_ s) ∧ (∀ tid, pc_ok (components_ s) (thread s tid)) ∧
  Forall (λ e, ev_time e < next (components_ s)) (history s) ∧ ordered (history s).

Lemma overflow_spec c :
  0 <= last_usec c < 2 ^ 52 → 0 <= logical c <= 2 ^ 12 →
  ∃ c', HandleLogicalComponentOverflow c = Ok c' ∧ cell_ok c' ∧ next c' = next c.
Proof.
  intros Hu Hl. unfold HandleLogicalComponentOverflow.
  change HybridTime.kLogicalBitMask with (2 ^ 12 - 1).
  change (Z.shiftl 1 HybridTime.kBitsForLogicalComponent) with (2 ^ 12).
  unfold HybridTime.kBitsForLogicalComponent, cell_ok, next. case_test.
  - rewrite (proj2 (Z.ltb_ge _ _)) by lia. eexists. split; [done|]. cbn [last_usec logical].
    replace (logical c) with (2 ^ 12) by lia. change (Z.shiftr (2 ^ 12) 12) with 1.
    change (Z.land _ _) with 0. rewrite u64_small by (unfold is_u64; lia). lia.
  - exists c. repeat split; lia.
Qed.

Lemma components_lt_next c c' :
  cell_ok c → cell_ok c' → components_lt c c' = true ↔ next c < next c'.
Proof.
  unfold cell_ok, components_lt, next. intros.
  rewrite orb_true_iff, andb_true_iff, !Z.ltb_lt, Z.eqb_eq. lia.
Qed.

Lemma stale_refl c : cell_ok c → stale c c.
Proof. by split. Qed.

Lemma stale_mono cell cell' c : next cell <= next cell' → stale cell c → stale cell' c.
Proof. unfold stale. intuition lia. Qed.

Lemma pc_ok_mono cell cell' p : next cell <= next cell' → pc_ok cell p → pc_ok cell' p.
Proof. intros H. destruct p; simpl; intuition eauto using stale_mono. Qed.

Lemma next_value c :
  cell_ok c → last_usec c < 2 ^ 52 →
  HybridTime.FromMicrosecondsAndLogicalValue (last_usec c) (logical c) = next c.
Proof. unfold cell_ok. intros. unfold next. apply HybridTime.make_eq; lia. Qed.

(** What one action guarantees about the cell and the completed call. *)
Definition ev_ok (cell cell' : HybridClockComponents) (ev : option event) : Prop :=
  match ev with
  | None => True
  | Some (Returned t _) => next cell <= t < next cell'
  | Some (Updated h) => h < next cell'
  end.

Definition step_ok (cell cell' : HybridClockComponents) (p : pc) (ev : option event) : Prop :=
  cell_ok cell' ∧ next cell <= next cell' ∧ pc_ok cell' p ∧ ev_ok cell cell' ev.

Lemma cas_success spurious cell current :
  compare_exchange_weak spurious cell current = true → cell = current.
Proof. unfold compare_exchange_weak. intros H. bool_tests. done. Qed.

(** A failed attempt reloads the cell. *)
Lemma step_ok_reload cell p :
  cell_ok cell → pc_ok cell p → step_ok cell cell p None.
Proof. unfold step_ok. intros. split_and!; (done || lia). Qed.

Lemma reset_ok spurious cell now current cell' p ev :
  cell_ok cell → pc_ok cell (NowReset now current) →
  NowWithError_reset spurious cell now current = (cell', p, ev) →
  last_usec cell' < 2 ^ 52 → step_ok cell cell' p ev.
Proof.
  intros Hc [Hs Ht] Heq Hr. unfold NowWithError_reset in Heq. repeat case_test_in Heq; simplify_eq.
  - apply cas_success in Heqb0 as ->. cbn [last_usec] in *. unfold is_u64 in Ht.
    unfold step_ok, ev_ok, cell_ok, next in *. cbn [last_usec logical pc_ok] in *.
    unfold HybridTime.FromMicros. rewrite HybridTime.make_eq by lia. repeat split; lia.
  - apply step_ok_reload; [done|]. by split; [apply stale_refl|].
  - unfold step_ok. cbn [pc_ok ev_ok]. split_and!; (done || lia).
Qed.

Lemma increment_ok spurious cell now current cell' p ev :
  cell_ok cell → last_usec cell < 2 ^ 52 → pc_ok cell (NowIncrement now current) →
  NowWithError_increment spurious cell now current = Ok (cell', p, ev) →
  last_usec cell' < 2 ^ 52 → step_ok cell cell' p ev.
Proof.
  intros Hc Hb [Hs Ht] Heq Hr. unfold NowWithError_increment in Heq.
  assert (last_usec current < 2 ^ 52) as Hcur.
  { destruct Hs as [Hk Hs]. unfold cell_ok, next in *. lia. }
  assert (cell_ok current) as [Hk1 Hk2] by apply Hs.
  rewrite (u32_small (logical current + 1)) in Heq by (unfold is_u32; lia).
  destruct (overflow_spec {| last_usec := last_usec current; logical := logical current + 1 |})
    as (new & Hn & Hok & Hnext); [cbn; lia..|].
  rewrite Hn in Heq. cbn [obind] in Heq. repeat case_test_in Heq; simplify_eq.
  - apply cas_success in Heqb as ->. rewrite next_value by done. rewrite Hnext.
    unfold step_ok, ev_ok. cbn [pc_ok]. rewrite Hnext. unfold next. cbn [last_usec logical].
    unfold HybridTime.Decremented. rewrite (proj2 (Z.eqb_neq _ _)) by lia.
    repeat split; try apply Hok; lia.
  - apply step_ok_reload; [done|]. by split; [apply stale_refl|].
Qed.

Lemma update_start_ok h :
  is_u64 h → ∃ new, Update_start h = Ok new ∧ cell_ok new ∧ next new = h + 1.
Proof.
  intros Hh. unfold Update_start. pose proof (HybridTime.physical_range h Hh).
  pose proof (HybridTime.logical_range h). pose proof (HybridTime.components h).
  rewrite u32_small by (unfold is_u32; lia).
  destruct (overflow_spec {| last_usec := HybridTime.GetPhysicalValueMicros h;
    logical := HybridTime.GetLogicalValue h + 1 |}) as (new & Hn & Hok & Hnext); [cbn; lia..|].
  exists new. split_and!; [done..|]. rewrite Hnext. unfold next. cbn [last_usec logical]. lia.
Qed.

Lemma update_ok spurious cell h new current cell' p ev :
  cell_ok cell → pc_ok cell (UpdateLoop h new current) →
  Update_loop spurious cell h new current = (cell', p, ev) → step_ok cell cell' p ev.
Proof.
  intros Hc (Hs & Hn & Hnext) Heq. unfold Update_loop in Heq. repeat case_test_in Heq; simplify_eq.
  - apply cas_success in Heqb0 as ->. apply components_lt_next in Heqb; [|done..].
    unfold step_ok, ev_ok. cbn [pc_ok]. split_and!; (done || lia).
  - apply step_ok_reload; [done|]. split_and!; [by apply stale_refl|done..].
  - assert (next new <= next cell') as Hle.
    { destruct Hs as [Hcur Hle]. pose proof (components_lt_next current new Hcur Hn) as Hlt.
      destruct (Z.le_gt_cases (next new) (next current)) as [|Hgt]; [lia|].
      apply Hlt in Hgt. congruence. }
    unfold step_ok, ev_ok. cbn [pc_ok]. split_and!; (done || lia).
Qed.

Lemma tstep_ok flags i cell p cell' p' ev :
  cell_ok cell → last_usec cell < 2 ^ 52 → pc_ok cell p → input_ok i →
  tstep flags i cell p = Ok (cell', p', ev) → last_usec cell' < 2 ^ 52 →
  step_ok cell cell' p' ev.
Proof.
  intros Hc Hb Hp Hi Heq Hr. destruct p as [|current|now current|now current|h new current];
    destruct i as [|h'|[now'|]|spurious]; cbn [tstep] in Heq;
    try (simplify_eq; by apply step_ok_reload).
  - case_test_in Heq; [simplify_eq; by apply step_ok_reload|].
    destruct (update_start_ok h') as (new & Hn & Hok & Hnext); [done|].
    rewrite Hn in Heq. cbn [obind] in Heq. simplify_eq. apply step_ok_reload; [done|].
    split_and!; [by apply stale_refl|done..].
  - unfold NowWithError_clock in Heq. repeat case_test_in Heq; cbn [obind] in Heq; simplify_eq;
      (apply step_ok_reload; [done|]; split; [done|apply Hi]).
  - injection Heq as Heq. by eapply reset_ok.
  - by eapply increment_ok.
  - injection Heq as Heq. by eapply update_ok.
Qed.

Lemma inv_reachable flags s :
  reachable flags s → Inv s ∧ last_usec (components_ s) < 2 ^ 52.
Proof.
  induction 1 as [|s tid i s' _ [IH Hb] Hi Hstep Hr].
  - split; [|cbn; lia]. unfold Inv. split_and!; [split; cbn; lia|done|constructor|done].
  - split; [|done]. destruct IH as (Hc & Hp & Hh & Ho). unfold do_step in Hstep.
    destruct (tstep flags i (components_ s) (thread s tid)) as [[[cell p] ev]| | |] eqn:Ht;
      try done.
    cbn [obind] in Hstep. injection Hstep as <-. cbn [components_] in Hr.
    destruct (tstep_ok flags i _ _ _ _ _ Hc Hb (Hp tid) Hi Ht Hr) as (Hc' & Hle & Hp' & Hev).
    assert (Forall (λ e, ev_time e < next cell) (history s)) as Hh'.
    { eapply Forall_impl; [exact Hh|]. intros e He. simpl in He. lia. }
    unfold Inv. cbn [components_ history]. split_and!; [done| | |].
    + intros tid'. unfold thread. cbn [threads]. destruct (decide (tid' = tid)) as [->|Hne].
      * by rewrite lookup_insert_eq.
      * rewrite lookup_insert_ne by done. eapply pc_ok_mono; [exact Hle|apply Hp].
    + destruct ev as [[t e|h]|]; simpl in *; [constructor; [simpl; lia|done]..|done].
    + destruct ev as [[t e|h]|]; simpl in *; try done. split; [|done].
      eapply Forall_impl; [exact Hh|]. intros e' He. simpl in He. lia.
Qed.

(** One step of a reachable system. *)
Lemma do_step_ok flags s tid i s' :
  reachable flags s → input_ok i → do_step flags s tid i = Ok s' →
  last_usec (components_ s') < 2 ^ 52 →
  next (components_ s) <= next (components_ s') ∧
  ∃ ev, history s' = option_list ev ++ history s ∧ ev_ok (components_ s) (components_ s') ev.
Proof.
  intros Hs Hi Hstep Hr. destruct (inv_reachable flags s Hs) as [(Hc & Hp & _) Hb].
  unfold do_step in Hstep.
  destruct (tstep flags i (components_ s) (thread s tid)) as [[[cell p] ev]| | |] eqn:Ht; try done.
  injection Hstep as <-. cbn [components_ history] in *.
  destruct (tstep_ok flags i _ _ _ _ _ Hc Hb (Hp tid) Hi Ht Hr) as (_ & Hle & _ & Hev).
  split; [done|]. by exists ev.
Qed.

Lemma ordered_split l1 t e l2 :
  ordered (l1 ++ Returned t e :: l2) → Forall (λ ev, ev_time ev < t) l2.
Proof.
  induction l1 as [|ev l1 IH]; cbn [app ordered]; [by intros []|].
  destruct ev; [intros [_ H]|intros H]; auto.
Qed.

(** ** A call that runs alone *)

(** The conditions of [reachable] along a run. *)
Fixpoint run_in_range (flags : Flags) (s : system) (acts : list (nat * input)) : Prop :=
  match acts with
  | [] => True
  | (tid, i) :: acts =>
      match do_step flags s tid i with
      | Ok s' => input_ok i ∧ last_usec (components_ s') < 2 ^ 52 ∧ run_in_range flags s' acts
      | _ => False
      end
  end.

Lemma run_reachable flags s acts s' :
  reachable flags s → run_in_range flags s acts → run flags s acts = Ok s' → reachable flags s'.
Proof.
  revert s. induction acts as [|[tid i] acts IH]; intros s Hs Hr Hrun.
  - by injection Hrun as <-.
  - cbn [run run_in_range] in *. destruct (do_step flags s tid i) as [s1| | |] eqn:E; try done.
    destruct Hr as (Hi & Hl & Hr). apply (IH s1); [|done..]. by eapply reachable_step.
Qed.

Lemma run_app flags s a b :
  run flags s (a ++ b) = let! s' := run flags s a in run flags s' b.
Proof.
  revert s. induction a as [|[tid i] a IH]; intros s; [done|]. cbn [app run].
  destruct (do_step flags s tid i); cbn [obind]; [apply IH|done..].
Qed.

(** The four actions of an undisturbed [NowWithError] (the last one does nothing
    when the call has returned), and the two of [Update]. *)
Definition now_alone (tid : nat) (now : PhysicalTime) : list (nat * input) :=
  [(tid, CallNow); (tid, ReadClock (Some now)); (tid, Proceed false); (tid, Proceed false)].
Definition update_alone (tid : nat) (h : Z) : list (nat * input) :=
  [(tid, CallUpdate h); (tid, Proceed false)].

(** The process is stopped when the physical clock is too far behind. *)
Definition skew_fatal (flags : Flags) (now : PhysicalTime) (c : HybridClockComponents) : bool :=
  (time_point now <? last_usec c) &&
  ((max_clock_skew_usec flags <? last_usec c - time_point now) &&
   (fail_on_out_of_range_clock_skew flags && clock_skew_control_enabled flags)).

Lemma do_step_thread flags s tid i cell p ev p' :
  thread s tid = p → tstep flags i (components_ s) p = Ok (cell, p', ev) →
  ∃ s', do_step flags s tid i = Ok s' ∧ components_ s' = cell ∧ thread s' tid = p' ∧
    history s' = option_list ev ++ history s.
Proof.
  intros <- Ht. unfold do_step. rewrite Ht. eexists. split_and!; [done..| |done].
  unfold thread. cbn [threads]. by rewrite lookup_insert_eq.
Qed.

Lemma cas_alone c : compare_exchange_weak false c c = true.
Proof. unfold compare_exchange_weak. by rewrite bool_decide_true. Qed.

(** Where the call is after its load and its reading of the clock. *)
Lemma now_started flags s tid now :
  thread s tid = Idle → skew_fatal flags now (components_ s) = false →
  ∃ s', run flags s [(tid, CallNow); (tid, ReadClock (Some now))] = Ok s' ∧
    components_ s' = components_ s ∧ history s' = history s ∧
    thread s' tid = if time_point now <? last_usec (components_ s)
                    then NowIncrement now (components_ s) else NowReset now (components_ s).
Proof.
  intros Hi Hsk. cbn [run].
  destruct (do_step_thread flags s tid CallNow _ _ _ _ Hi eq_refl) as (s1 & -> & Hc1 & Hp1 & Hh1).
  cbn [obind]. assert (tstep flags (ReadClock (Some now)) (components_ s1)
    (NowLoaded (components_ s)) = Ok (components_ s,
      (if time_point now <? last_usec (components_ s)
       then NowIncrement now (components_ s) else NowReset now (components_ s)), None)) as Ht.
  { rewrite Hc1. cbn [tstep]. unfold NowWithError_clock. unfold skew_fatal in Hsk.
    destruct (_ <? _); [|done]. cbn [andb] in Hsk. by rewrite Hsk. }
  destruct (do_step_thread flags s1 tid _ _ _ _ _ Hp1 Ht) as (s2 & -> & Hc2 & Hp2 & Hh2).
  cbn [obind]. exists s2. split_and!; [done..| |done]. by rewrite Hh2, Hh1.
Qed.

(** The values of an increment that succeeds. *)
Lemma increment_alone flags s tid now :
  thread s tid = NowIncrement now (components_ s) → cell_ok (components_ s) →
  last_usec (components_ s) < 2 ^ 52 - 1 →
  ∃ s' e, do_step flags s tid (Proceed false) = Ok s' ∧ thread s' tid = Idle ∧
    next (components_ s') = next (components_ s) + 1 ∧
    last_usec (components_ s) <= last_usec (components_ s') <= last_usec (components_ s) + 1 ∧
    e = u64 (last_usec (components_ s') - u64 (time_point now - max_error now)) ∧
    history s' = Returned (next (components_ s)) e :: history s.
Proof.
  intros Hp [Hk1 Hk2] Hb. set (c := components_ s) in *.
  destruct (overflow_spec {| last_usec := last_usec c; logical := u32 (logical c + 1) |})
    as (new & Hn & Hok & Hnext); [cbn; lia|rewrite u32_small; cbn; unfold is_u32; lia|].
  rewrite u32_small in Hn, Hnext by (unfold is_u32; lia).
  unfold next in Hnext. cbn [last_usec logical] in Hnext. destruct Hok as [Ho1 Ho2].
  assert (tstep flags (Proceed false) c (NowIncrement now c) =
    Ok (new, Idle, Some (Returned (next c)
      (u64 (last_usec new - u64 (time_point now - max_error now)))))) as Ht.
  { cbn [tstep]. unfold NowWithError_increment. rewrite u32_small by (unfold is_u32; lia).
    rewrite Hn. cbn [obind]. rewrite cas_alone, next_value by (done || lia). unfold next.
    rewrite Hnext. unfold HybridTime.Decremented. rewrite (proj2 (Z.eqb_neq _ _)) by lia.
    do 5 f_equal. lia. }
  destruct (do_step_thread flags s tid _ _ _ _ _ Hp Ht) as (s' & E & Hc & Hpc & Hh).
  exists s'. rewrite Hc. eexists. split_and!; [done..|unfold next; lia|lia|lia|done|done].
Qed.

(** A thread outside a call is not moved by [Proceed]. *)
Lemma proceed_idle flags s tid :
  thread s tid = Idle →
  ∃ s', do_step flags s tid (Proceed false) = Ok s' ∧ thread s' tid = Idle ∧
    components_ s' = components_ s ∧ history s' = history s.
Proof.
  intros Hi. destruct (do_step_thread flags s tid (Proceed false) (components_ s) Idle None Idle Hi
    eq_refl) as (s' & E & Hc & Hp & Hh). by exists s'.
Qed.

(** The result of an undisturbed call: the time, the error bound, the cell. *)
Definition now_result (now : PhysicalTime) (s s' : system) : Prop :=
  ∃ t e, history s' = Returned t e :: history s ∧
    t = Z.max (next (components_ s)) (time_point now * 2 ^ 12) ∧
    next (components_ s') = t + 1 ∧
    (last_usec (components_ s) < time_point now ∧ e = max_error now ∨
     time_point now <= last_usec (components_ s) ∧
     ∃ u, last_usec (components_ s) <= u <= last_usec (components_ s) + 1 ∧
       e = u64 (u - u64 (time_point now - max_error now))).

Lemma increment_result flags s0 s tid now :
  thread s tid = NowIncrement now (components_ s) → cell_ok (components_ s) →
  last_usec (components_ s) < 2 ^ 52 - 1 → time_point now <= last_usec (components_ s) →
  components_ s = components_ s0 → history s = history s0 →
  ∃ s', do_step flags s tid (Proceed false) = Ok s' ∧ thread s' tid = Idle ∧ now_result now s0 s'.
Proof.
  intros Hp Hok Hb Hle Hc Hh.
  destruct (increment_alone flags s tid now Hp Hok Hb) as (s' & e & E & Hi & Hn & Hu & He & Hh').
  exists s'. split_and!; [done..|]. exists (next (components_ s0)), e. rewrite <- Hc, <- Hh.
  destruct Hok. unfold next in *. split_and!; [done|lia|lia|]. right. split; [done|]. eauto.
Qed.

Lemma now_alone_spec flags s tid now :
  thread s tid = Idle → cell_ok (components_ s) → last_usec (components_ s) < 2 ^ 52 - 1 →
  0 <= time_point now < 2 ^ 52 → skew_fatal flags now (components_ s) = false →
  ∃ s', run flags s (now_alone tid now) = Ok s' ∧ thread s' tid = Idle ∧ now_result now s s'.
Proof.
  intros Hi Hok Hb Ht Hsk.
  destruct (now_started flags s tid now Hi Hsk) as (s2 & Hrun & Hc2 & Hh2 & Hp2).
  change (now_alone tid now) with ([(tid, CallNow); (tid, ReadClock (Some now))] ++
    [(tid, Proceed false); (tid, Proceed false)]).
  rewrite run_app, Hrun. cbn [obind run]. revert Hp2.
  destruct (Z.ltb_spec (time_point now) (last_usec (components_ s))) as [Hlt|Hge]; intros Hp2.
  - destruct (increment_result flags s s2 tid now) as (s3 & -> & Hi3 & Hr);
      rewrite ?Hc2; try done; try lia.
    cbn [obind]. destruct (proceed_idle flags s3 tid Hi3) as (s4 & -> & Hi4 & Hc4 & Hh4).
    exists s4. unfold now_result in *. by rewrite Hc4, Hh4.
  - destruct (Z.eq_dec (time_point now) (last_usec (components_ s))) as [Heq|Hne].
    + destruct (do_step_thread flags s2 tid (Proceed false) (components_ s2)
        (NowReset now (components_ s)) None (NowIncrement now (components_ s)) Hp2)
        as (s3 & -> & Hc3 & Hp3 & Hh3).
      { cbn [tstep]. unfold NowWithError_reset. by rewrite (proj2 (Z.ltb_ge _ _)) by lia. }
      cbn [obind]. destruct (increment_result flags s s3 tid now) as (s4 & -> & Hi4 & Hr);
        rewrite ?Hc3, ?Hc2; try done; try lia. { by rewrite Hh3. }
      by exists s4.
    + destruct (do_step_thread flags s2 tid (Proceed false)
        {| last_usec := time_point now; logical := 1 |} (NowReset now (components_ s))
        (Some (Returned (HybridTime.FromMicros (time_point now)) (max_error now))) Idle Hp2)
        as (s3 & -> & Hc3 & Hp3 & Hh3).
      { cbn [tstep]. unfold NowWithError_reset. rewrite (proj2 (Z.ltb_lt _ _)) by lia.
        by rewrite Hc2, cas_alone. }
      cbn [obind]. destruct (proceed_idle flags s3 tid Hp3) as (s4 & -> & Hi4 & Hc4 & Hh4).
      exists s4. split_and!; [done..|]. eexists _, _. rewrite Hh4, Hh3, Hc4, Hc3, Hh2.
      unfold HybridTime.FromMicros. rewrite HybridTime.make_eq by lia.
      destruct Hok. unfold next in *. cbn [last_usec logical option_list app].
      split_and!; [done|lia|lia|]. left. split; [lia|done].
Qed.

(** An undisturbed [Update]. *)
Lemma update_alone_spec flags s tid h :
  thread s tid = Idle → cell_ok (components_ s) → is_u64 h → h ≠ HybridTime.kInvalid →
  ∃ s', run flags s (update_alone tid h) = Ok s' ∧ thread s' tid = Idle ∧
    history s' = Updated h :: history s ∧ cell_ok (components_ s') ∧
    next (components_ s') = Z.max (next (components_ s)) (h + 1).
Proof.
  intros Hi Hok Hh Hne. destruct (update_start_ok h Hh) as (new & Hn & Hnok & Hnext).
  unfold update_alone. cbn [run].
  destruct (do_step_thread flags s tid (CallUpdate h) (components_ s) Idle None
    (UpdateLoop h new (components_ s)) Hi) as (s1 & -> & Hc1 & Hp1 & Hh1).
  { cbn [tstep]. unfold HybridTime.is_valid. rewrite (proj2 (Z.eqb_neq _ _)) by done.
    cbn [negb]. by rewrite Hn. }
  cbn [obind]. pose proof (components_lt_next (components_ s) new Hok Hnok) as Hlt.
  destruct (do_step_thread flags s1 tid (Proceed false)
    (if components_lt (components_ s) new then new else components_ s)
    (UpdateLoop h new (components_ s)) (Some (Updated h)) Idle Hp1)
    as (s2 & -> & Hc2 & Hp2 & Hh2).
  { cbn [tstep]. unfold Update_loop. rewrite Hc1, cas_alone. by destruct (components_lt _ _). }
  cbn [obind]. exists s2. rewrite Hc2, Hh2, Hh1. split_and!; [done..| |].
  - by destruct (components_lt _ _).
  - destruct (components_lt _ _); [destruct Hlt as [Hlt _]; specialize (Hlt eq_refl); lia|].
    destruct (Z.le_gt_cases (next new) (next (components_ s))) as [|Hgt]; [lia|].
    apply Hlt in Hgt. done.
Qed.

Lemma error_interval u tp e tau :
  0 <= e <= tp → tp <= u < 2 ^ 53 → tp - e <= tau <= tp + e →
  ∀ p, p <= u <= p + 1 → tp <= p →
  Z.abs (p - tau) <= u64 (u - u64 (tp - e)).
Proof.
  intros He Hu Ht p Hp Htp. rewrite (u64_small (tp - e)) by (unfold is_u64; lia).
  rewrite u64_small by (unfold is_u64; lia). lia.
Qed.

(** The check in [GetPhysicalValueNanos] never fails: 52 bits of microseconds leave
    12 bits for a factor of 1000. *)
Lemma nanos_ok h :
  is_u64 h → GetPhysicalValueNanos h = Ok (HybridTime.GetPhysicalValueMicros h * 1000).
Proof.
  intros Hh. unfold GetPhysicalValueNanos. fold (HybridTime.GetPhysicalValueMicros h).
  pose proof (HybridTime.physical_range h Hh).
  change ((2 ^ 64 - 1) / 1000) with 18446744073709551. rewrite (proj2 (Z.leb_le _ _)) by lia.
  rewrite u64_small; [done|unfold is_u64; lia].
Qed.

(** [CompareHybridClocksToDelta] compares the distance with the delta, the logical
    parts deciding a tie. *)
Lemma compare_to_delta_spec begin end_ delta :
  is_u64 begin → is_u64 end_ → 0 <= delta < 2 ^ 63 →
  CompareHybridClocksToDelta begin end_ delta =
  Ok (if end_ <? begin then Lt else
      match (HybridTime.GetPhysicalValueMicros end_ - HybridTime.GetPhysicalValueMicros begin) * 1000
              ?= delta with
      | Eq => HybridTime.GetLogicalValue end_ ?= HybridTime.GetLogicalValue begin
      | c => c
      end).
Proof.
  intros Hb He Hd. unfold CompareHybridClocksToDelta. rewrite HybridTime.CompareTo_eq, !nanos_ok by done.
  pose proof (HybridTime.physical_range begin Hb). pose proof (HybridTime.physical_range end_ He).
  pose proof (HybridTime.components begin). pose proof (HybridTime.components end_).
  pose proof (HybridTime.logical_range begin). pose proof (HybridTime.logical_range end_).
  destruct (Z.ltb_spec end_ begin) as [Hlt|Hge].
  { by rewrite bool_decide_true by (by apply Z.compare_lt_iff). }
  rewrite bool_decide_false by (rewrite Z.compare_lt_iff; lia). cbn [obind].
  rewrite (u64_small delta), u64_small by (unfold is_u64; lia). rewrite <- Z.mul_sub_distr_r.
  destruct (Z.compare_spec ((HybridTime.GetPhysicalValueMicros end_ -
    HybridTime.GetPhysicalValueMicros begin) * 1000) delta).
  - rewrite (proj2 (Z.ltb_ge _ _)), (proj2 (Z.eqb_eq _ _)) by lia.
    rewrite <- HybridTime.CompareTo_eq. unfold HybridTime.CompareTo.
    destruct (Z.ltb_spec (HybridTime.GetLogicalValue begin) (HybridTime.GetLogicalValue end_));
      destruct (Z.ltb_spec (HybridTime.GetLogicalValue end_) (HybridTime.GetLogicalValue begin));
      done || lia.
  - by rewrite (proj2 (Z.ltb_ge _ _)), (proj2 (Z.eqb_neq _ _)) by lia.
  - by rewrite (proj2 (Z.ltb_lt _ _)) by lia.
Qed.

(** ** Properties *)

(** C5: under any interleaving of any number of threads, with spurious failures
    and any readings of the physical clock, a time returned by [NowWithError] is
    above every hybrid time returned by a call, or merged by an [Update], that
    completed before it. *)
Theorem clock_monotonic (flags : Flags) (s : system) (l1 l2 : list event) (t e : Z) :
  reachable flags s → history s = l1 ++ Returned t e :: l2 →
  Forall (λ ev, ev_time ev < t) l2.
Proof.
  intros Hr Hh. destruct (inv_reachable flags s Hr) as [(_ & _ & _ & Ho) _].
  rewrite Hh in Ho. by eapply ordered_split.
Qed.

Definition sample_flags : Flags :=
  {| max_clock_skew_usec := 500000; fail_on_out_of_range_clock_skew := true;
     clock_skew_control_enabled := false |}.

(** Two threads read the clock at the same time; the second one loses the race. *)
Definition race : list (nat * input) :=
  [(1%nat, CallNow); (2%nat, CallNow);
   (1%nat, ReadClock (Some {| time_point := 70; max_error := 5 |}));
   (2%nat, ReadClock (Some {| time_point := 60; max_error := 5 |}));
   (1%nat, Proceed false); (2%nat, Proceed false); (2%nat, Proceed false);
   (2%nat, Proceed false)].

Definition race_end : system :=
  match run sample_flags init race with Ok s => s | _ => init end.

Lemma clock_monotonic_witness :
  history race_end = [Returned (70 * 4096 + 1) 15; Returned (70 * 4096) 5] ∧
  Forall (λ ev, ev_time ev < 70 * 4096 + 1) [Returned (70 * 4096) 5].
Proof.
  split; [reflexivity|].
  apply (clock_monotonic sample_flags race_end [] _ (70 * 4096 + 1) 15); [|reflexivity].
  apply (run_reachable sample_flags init race); [apply reachable_init | | reflexivity].
  vm_compute. repeat split; done.
Defined.

(** A call that is not disturbed returns after at most four actions (no
    livelock), provided the clock skew check does not stop the process.  The
    time is the larger of the physical clock and the next time of the cell, the
    cell moves just above it, and if the true time is within [max_error] of the
    reading, it is within the returned error of the returned time. *)
Theorem now_alone_result (flags : Flags) (s : system) (tid : nat) (now : PhysicalTime) (tau : Z) :
  reachable flags s → thread s tid = Idle → last_usec (components_ s) < 2 ^ 52 - 1 →
  0 <= time_point now < 2 ^ 52 → 0 <= max_error now <= time_point now →
  skew_fatal flags now (components_ s) = false →
  time_point now - max_error now <= tau <= time_point now + max_error now →
  ∃ s' t e, run flags s (now_alone tid now) = Ok s' ∧ thread s' tid = Idle ∧
    history s' = Returned t e :: history s ∧
    t = Z.max (next (components_ s)) (time_point now * 2 ^ 12) ∧
    next (components_ s') = t + 1 ∧
    Z.abs (HybridTime.GetPhysicalValueMicros t - tau) <= e.
Proof.
  intros Hr Hi Hb Ht He Hsk Htau. destruct (inv_reachable flags s Hr) as [(Hok & _) _].
  destruct (now_alone_spec flags s tid now) as (s' & Hrun & Hi' & t & e & Hh & Htt & Hn & Hcase);
    [done..|].
  exists s', t, e. split_and!; [done..|]. rewrite HybridTime.physical_eq.
  destruct Hok as [Hk1 Hk2]. unfold next in Htt. destruct Hcase as [[Hlt ->]|[Hge (u & Hu & ->)]].
  - replace t with (time_point now * 2 ^ 12) by lia. rewrite Z.div_mul by lia. lia.
  - replace t with (logical (components_ s) + last_usec (components_ s) * 2 ^ 12) by lia.
    rewrite Z.div_add, Z.div_small by lia. apply error_interval; lia.
Qed.

Lemma now_alone_result_witness :
  ∃ s', run sample_flags init (now_alone 3 {| time_point := 90; max_error := 7 |}) = Ok s' ∧
    next (components_ s') = 90 * 4096 + 1.
Proof.
  destruct (now_alone_result sample_flags init 3 {| time_point := 90; max_error := 7 |} 91)
    as (s' & t & e & Hr & _ & _ & Ht & Hn & _); try (vm_compute; done).
  - apply reachable_init.
  - exists s'. split; [exact Hr|]. rewrite Hn, Ht. reflexivity.
Defined.

(** An undisturbed [Update] moves the cell just above the merged time unless
    it already was, so that it never moves back. *)
Theorem update_alone_result (flags : Flags) (s : system) (tid : nat) (h : Z) :
  reachable flags s → thread s tid = Idle → is_u64 h → h ≠ HybridTime.kInvalid →
  ∃ s', run flags s (update_alone tid h) = Ok s' ∧ thread s' tid = Idle ∧
    history s' = Updated h :: history s ∧
    next (components_ s') = Z.max (next (components_ s)) (h + 1).
Proof.
  intros Hr Hi Hh Hne. destruct (inv_reachable flags s Hr) as [(Hok & _) _].
  destruct (update_alone_spec flags s tid h) as (s' & H1 & H2 & H3 & _ & H4); [done..|].
  by exists s'.
Qed.

Lemma update_alone_result_witness :
  ∃ s', run sample_flags init (update_alone 3 8191) = Ok s' ∧ next (components_ s') = 8192.
Proof.
  destruct (update_alone_result sample_flags init 3 8191) as (s' & H1 & _ & _ & H2);
    [apply reachable_init | done | vm_compute; done | done |].
  by exists s'.
Defined.

(** Merging [HybridTime::kMax] (a value any request may carry) moves the cell
    out of the representable range, and the next call returns the minimal
    hybrid time, below the one returned before. *)
Theorem update_kmax_wraps :
  ∃ s, run sample_flags init
      (now_alone 1 {| time_point := 10; max_error := 1 |} ++ update_alone 1 HybridTime.kMax ++
       now_alone 1 {| time_point := 20; max_error := 1 |}) = Ok s ∧
    map ev_time (history s) = [HybridTime.kMin; HybridTime.kMax; 10 * 4096].
Proof. eexists. split; [vm_compute; reflexivity|]. reflexivity. Qed.

End HybridClock.

(** ** The interface offered to other components

    What a component that uses a clock may rely on: [floor c] bounds from below
    every hybrid time the clock will still hand out, [advance] is activity of
    other users, and a call of [Now] hands out a time that is not below the floor
    and lifts the floor above it. *)
Class Clock (C : Type) := {
  clock_ok : C → Prop;
  floor : C → Z;
  advance : C → C → Prop;
  Now : C → Z → C → Prop;
  advance_ok c c' : clock_ok c → advance c c' → clock_ok c' ∧ floor c <= floor c';
  Now_ok c t c' : clock_ok c → Now c t c' → clock_ok c' ∧ floor c <= t < floor c' }.

(** The hybrid clock implements the interface: its states are the reachable
    systems, [Now] is a step that completes a call. *)
#[export, refine] Instance HybridClock_Clock (flags : HybridClock.Flags)
    : Clock HybridClock.system := {|
  clock_ok := HybridClock.reachable flags;
  floor s := HybridClock.next (HybridClock.components_ s);
  advance s s' := ∃ tid i, HybridClock.input_ok i ∧ HybridClock.do_step flags s tid i = Ok s' ∧
    HybridClock.last_usec (HybridClock.components_ s') < 2 ^ 52;
  Now s t s' := ∃ tid i e, HybridClock.input_ok i ∧ HybridClock.do_step flags s tid i = Ok s' ∧
    HybridClock.last_usec (HybridClock.components_ s') < 2 ^ 52 ∧
    HybridClock.history s' = HybridClock.Returned t e :: HybridClock.history s |}.
Proof.
  - intros s s' Hs (tid & i & Hi & Hstep & Hr). split; [by eapply HybridClock.reachable_step|].
    by destruct (HybridClock.do_step_ok flags s tid i s') as [Hle _].
  - intros s t s' Hs (tid & i & e & Hi & Hstep & Hr & Hh).
    split; [by eapply HybridClock.reachable_step|].
    destruct (HybridClock.do_step_ok flags s tid i s') as (_ & ev & Hh' & Hev); [done..|].
    rewrite Hh in Hh'. destruct ev as [ev|]; cbn in Hh'.
    + injection Hh' as <-. exact Hev.
    + by apply (f_equal length) in Hh'; cbn in Hh'; lia.
Defined.
