(* ===== verification/Value.v ===== *)
(** * Values and expiration

    Models docdb/value.h and docdb/value.cc (a primitive value behind its control
    fields: merge flags, the hybrid time of the intent, a time to live and a user
    timestamp), the parts of util/monotime.cc they use, docdb/expiration.h and
    docdb/doc_ttl_util.cc. *)

From S2P Require Import Prelude Slice FastVarint HybridTime DocHybridTime ValueType KvUtil VarInt Decimal Uuid InetAddress Intent PrimitiveValue PrimitiveKeys HybridClock.

(** ** Durations *)

(** A [MonoDelta] is its number of nanoseconds, an [int64_t]; signed overflow is undefined. *)
Module MonoDelta.

Definition kNanosecondsPerMicrosecond : Z := 1000.
Definition kNanosecondsPerMillisecond : Z := 1000000.

Definition signed (n : Z) : outcome Z := if bool_decide (is_i64 n) then Ok n else UB.

Definition FromMilliseconds (ms : Z) : outcome Z :=
  check! (ms <=? (2 ^ 63 - 1) ÷ kNanosecondsPerMillisecond) in signed (ms * kNanosecondsPerMillisecond).
Definition FromMicroseconds (us : Z) : outcome Z :=
  check! (us <=? (2 ^ 63 - 1) ÷ kNanosecondsPerMicrosecond) in signed (us * kNanosecondsPerMicrosecond).

Definition ToMilliseconds (d : Z) : Z := d ÷ kNanosecondsPerMillisecond.
Definition IsNegative (d : Z) : bool := d <? 0.
Definition add (d rhs : Z) : outcome Z := signed (d + rhs).
Definition sub (d rhs : Z) : outcome Z := signed (d - rhs).

End MonoDelta.

(** ** Values *)

Module Value.
Import ValueType.

(** [kMaxTtl], [kResetTtl] and [kInvalidUserTimestamp]. *)
Definition kMaxTtl : Z := 2 ^ 63 - 1.
Definition kResetTtl : Z := 0.
Definition kInvalidUserTimestamp : Z := - 2 ^ 63.
Definition kBytesPerInt64 : nat := 8.

Section Operations.
Context {B : BigNum} {V : UuidVersion} {A : IpAddress}.

Record t := mk {
  primitive_value_ : PrimitiveValue.t;
  ttl_ : Z;
  user_timestamp_ : Z;
  merge_flags_ : Z;
  intent_doc_ht_ : DocHybridTime.t;
}.

(** The constructor; the hybrid time of the intent starts invalid. *)
Definition of_primitive (primitive_value : PrimitiveValue.t) (ttl user_timestamp merge_flags : Z) : t :=
  mk primitive_value ttl user_timestamp merge_flags (DocHybridTime.mk HybridTime.kInvalid 0).

Definition has_ttl (v : t) : bool := negb (ttl_ v =? kMaxTtl).
Definition set_ttl (ttl : Z) (v : t) : t := mk (primitive_value_ v) ttl (user_timestamp_ v) (merge_flags_ v) (intent_doc_ht_ v).
Definition ClearIntentDocHt (v : t) : t :=
  mk (primitive_value_ v) (ttl_ v) (user_timestamp_ v) (merge_flags_ v) DocHybridTime.kInvalid.

(** [DecodeType] followed by the decoder of the field. *)
Definition decode_field {T} (expected_value_type : Z) (default_value : T) (decode : bytes → outcome (T * bytes)) (slice : bytes) :
    outcome (T * bytes) :=
  let (consumed, slice) := Slice.TryConsumeByte slice (as_char expected_value_type) in
  if negb consumed then Ok (default_value, slice) else decode slice.

Definition DecodeMergeFlags : bytes → outcome (Z * bytes) :=
  decode_field kMergeFlags 0 (λ slice, let! (v, n) := FastDecodeUnsignedVarInt slice in Ok (v, drop (Z.to_nat n) slice)).
Definition DecodeIntentDocHT : bytes → outcome (DocHybridTime.t * bytes) :=
  decode_field kHybridTime DocHybridTime.kInvalid DocHybridTime.DecodeFrom.
Definition DecodeTTL : bytes → outcome (Z * bytes) :=
  decode_field kTtl kMaxTtl (λ slice,
    let! (ms, slice) := FastDecodeSignedVarIntSlice slice in
    let! ttl := MonoDelta.FromMilliseconds ms in Ok (ttl, slice)).
Definition DecodeUserTimestamp : bytes → outcome (Z * bytes) :=
  decode_field kUserTimestamp kInvalidUserTimestamp (λ slice,
    if (length slice <? kBytesPerInt64)%nat then Err Corruption
    else
      let! v := KvUtil.Load kBytesPerInt64 slice in
      let! slice := Slice.remove_prefix slice kBytesPerInt64 in
      Ok (i64 v, slice)).

(** The versions that do not change the slice: what they skip before the field is
    the merge flags in the one, the time to live in the other. *)
Definition DecodeTTL_const (rocksdb_value : bytes) : outcome Z :=
  let! (_, value_copy) := DecodeMergeFlags rocksdb_value in
  let! (ttl, _) := DecodeTTL value_copy in Ok ttl.
Definition DecodeUserTimestamp_const (rocksdb_value : bytes) : outcome Z :=
  let! (_, slice_copy) := DecodeTTL rocksdb_value in
  let! (user_timestamp, _) := DecodeUserTimestamp slice_copy in Ok user_timestamp.

(** The control fields go into [v]. *)
Definition DecodeControlFields (v : t) (slice : bytes) : outcome (t * bytes) :=
  if bool_decide (slice = []) then Err Corruption
  else
    let! (merge_flags, slice) := DecodeMergeFlags slice in
    let! (intent_doc_ht, slice) := DecodeIntentDocHT slice in
    let! (ttl, slice) := DecodeTTL slice in
    let! (user_timestamp, slice) := DecodeUserTimestamp slice in
    Ok (mk (primitive_value_ v) ttl user_timestamp merge_flags intent_doc_ht, slice).

Definition Decode (v : t) (rocksdb_value : bytes) : outcome t :=
  let! (v, slice) := DecodeControlFields v rocksdb_value in
  let! p := PrimitiveValue.DecodeFromValue slice in
  Ok (mk p (ttl_ v) (user_timestamp_ v) (merge_flags_ v) (intent_doc_ht_ v)).

Definition EncodeAndAppend (v : t) (value_bytes : bytes) (external_value : option bytes) : outcome bytes :=
  let value_bytes :=
    if negb (merge_flags_ v =? 0)
    then FastAppendUnsignedVarIntToStr (merge_flags_ v) (value_bytes ++ [as_char kMergeFlags]) else value_bytes in
  let! value_bytes :=
    if DocHybridTime.is_valid (intent_doc_ht_ v)
    then DocHybridTime.AppendEncodedInDocDbFormat (intent_doc_ht_ v) (value_bytes ++ [as_char kHybridTime]) else Ok value_bytes in
  let value_bytes :=
    if negb (ttl_ v =? kMaxTtl)
    then FastAppendSignedVarIntToBuffer (MonoDelta.ToMilliseconds (ttl_ v)) (value_bytes ++ [as_char kTtl]) else value_bytes in
  let value_bytes :=
    if negb (user_timestamp_ v =? kInvalidUserTimestamp)
    then value_bytes ++ [as_char kUserTimestamp] ++ be_bytes 8 (u64 (user_timestamp_ v)) else value_bytes in
  match external_value with
  | None => let! p := PrimitiveValue.ToValue (primitive_value_ v) in Ok (value_bytes ++ p)
  | Some e => Ok (value_bytes ++ e)
  end.

Definition Encode (v : t) (external_value : option bytes) : outcome bytes := EncodeAndAppend v [] external_value.

(** The type of the primitive value and the fields before it. *)
Definition DecodePrimitiveValueType (rocksdb_value : bytes) : outcome (Z * Z * Z * Z) :=
  let! (merge_flags, slice_copy) := DecodeMergeFlags rocksdb_value in
  let! (_, slice_copy) := DecodeIntentDocHT slice_copy in
  let! (ttl, slice_copy) := DecodeTTL slice_copy in
  let! (user_ts, slice_copy) := DecodeUserTimestamp slice_copy in
  Ok (DecodeValueType slice_copy, merge_flags, ttl, user_ts).

Definition Tombstone : t := of_primitive (PrimitiveValue.of_type kTombstone) kMaxTtl kInvalidUserTimestamp 0.
Definition EncodedTombstone : outcome bytes := Encode Tombstone None.

End Operations.
End Value.

(** ** Expiration *)

Module Expiration.

Record t := mk { ttl : Z; write_ht : Z; always_override : bool }.

(** [Expiration()] and [Expiration(new_write_ht, new_ttl)]. *)
Definition none : t := mk Value.kMaxTtl HybridTime.kMin false.
Definition at_time (new_write_ht new_ttl : Z) : t := mk new_ttl new_write_ht false.

Definition ComputeRelativeTtl (e : t) (input_time : Z) : outcome Z :=
  if bool_decide (HybridTime.CompareTo input_time (write_ht e) = Lt) then Err Corruption
  else if (ttl e =? Value.kMaxTtl) || MonoDelta.IsNegative (ttl e) then Ok (ttl e)
  else
    let! a := HybridClock.GetPhysicalValueNanos input_time in
    let! b := HybridClock.GetPhysicalValueNanos (write_ht e) in
    MonoDelta.sub (ttl e) (i64 (u64 (a - b))).

End Expiration.

Module DocTtl.

Definition HasExpiredTTL (key_hybrid_time ttl read_hybrid_time : Z) : outcome bool :=
  if (ttl =? Value.kMaxTtl) || (ttl =? Value.kResetTtl) then Ok false
  else
    let! c := HybridClock.CompareHybridClocksToDelta key_hybrid_time read_hybrid_time ttl in
    Ok (bool_decide (c = Gt)).

(** The default time to live of a schema, in milliseconds, if it has one. *)
Definition TableTTL (default_time_to_live : option Z) : outcome Z :=
  match default_time_to_live with
  | Some default_ttl => if default_ttl =? 0 then Ok Value.kMaxTtl else MonoDelta.FromMilliseconds (i64 default_ttl)
  | None => Ok Value.kMaxTtl
  end.

Definition ComputeTTL (value_ttl default_ttl : Z) : Z :=
  if negb (value_ttl =? Value.kMaxTtl)
  then if MonoDelta.ToMilliseconds value_ttl =? 0 then Value.kMaxTtl else value_ttl
  else default_ttl.

End DocTtl.
