(* ===== verification/ValueCodec.v ===== *)
(** * The code of values

    Control fields are written in one order, each behind its type, and read in
    the same order; a time to live is written in milliseconds. *)

From S2P Require Import Prelude Slice FastVarint HybridTime DocHybridTime ValueType KvUtil VarInt Decimal Uuid InetAddress Intent PrimitiveValue PrimitiveKeys HybridClock Value.

Module ValueCodec.
Import ValueType Value.

Section Codec.
Context {B : BigNum} {HB : BigNumSpec B} {V : UuidVersion} {HV : UuidVersionSpec V} {A : IpAddress} {HA : IpAddressSpec A}.

Record wf_fields (v : t) : Prop := {
  wf_ttl : is_i64 (ttl_ v);
  wf_user_timestamp : is_i64 (user_timestamp_ v);
  wf_merge_flags : is_u64 (merge_flags_ v);
  wf_intent_ht : DocHybridTime.wf (intent_doc_ht_ v);
}.

(** A field: nothing, or its type and its code. *)
Definition field (present : bool) (ty : ValueType.t) (l : bytes) : bytes := if present then code ty :: l else [].

Definition ht_bytes (d : DocHybridTime.t) : bytes := match DocHybridTime.EncodedInDocDbFormat d with Ok e => e | _ => [] end.

Definition flags_field (v : t) : bytes := field (negb (merge_flags_ v =? 0)) kMergeFlags (FastEncodeUnsignedVarInt (merge_flags_ v)).
Definition ht_field (v : t) : bytes := field (DocHybridTime.is_valid (intent_doc_ht_ v)) kHybridTime (ht_bytes (intent_doc_ht_ v)).
Definition ttl_field (v : t) : bytes := field (has_ttl v) kTtl (FastEncodeSignedVarInt (MonoDelta.ToMilliseconds (ttl_ v))).
Definition timestamp_field (v : t) : bytes :=
  field (negb (user_timestamp_ v =? kInvalidUserTimestamp)) kUserTimestamp (be_bytes 8 (u64 (user_timestamp_ v))).

Definition fields (v : t) : bytes := flags_field v ++ ht_field v ++ ttl_field v ++ timestamp_field v.

Lemma ht_bytes_ok d : DocHybridTime.wf d → DocHybridTime.EncodedInDocDbFormat d = Ok (ht_bytes d) ∧ bytes_ok (ht_bytes d).
Proof.
  intros Hd. destruct (DocHybridTime.encoded_form d Hd) as (s & _ & _ & E & _). unfold ht_bytes. rewrite E. split; [done|].
  by eapply DocHybridTime.encoded_ok.
Qed.

Lemma encode_value v out e :
  wf_fields v → EncodeAndAppend v out e =
  let! p := match e with Some e => Ok e | None => PrimitiveValue.ToValue (primitive_value_ v) end in Ok (out ++ fields v ++ p).
Proof.
  intros Hv. unfold EncodeAndAppend, fields, flags_field, ht_field, ttl_field, timestamp_field, field, has_ttl.
  destruct (ht_bytes_ok _ (wf_intent_ht v Hv)) as [Eh _].
  unfold DocHybridTime.AppendEncodedInDocDbFormat, FastAppendUnsignedVarIntToStr, FastAppendSignedVarIntToBuffer.
  change (as_char kMergeFlags) with (code kMergeFlags). change (as_char kHybridTime) with (code kHybridTime).
  change (as_char kTtl) with (code kTtl). change (as_char kUserTimestamp) with (code kUserTimestamp).
  destruct (merge_flags_ v =? 0), (DocHybridTime.is_valid (intent_doc_ht_ v)); cbn [negb obind]; rewrite ?Eh; cbn [obind];
    destruct (ttl_ v =? kMaxTtl), (user_timestamp_ v =? kInvalidUserTimestamp); cbn [negb];
    (destruct e as [e|]; [|destruct (PrimitiveValue.ToValue (primitive_value_ v)) as [p|?| |]; [|done..]]); cbn [obind];
    f_equal; repeat (rewrite <- ?app_assoc; cbn [app]); done.
Qed.

(** ** Decoding *)

(** The first byte is none of the types. *)
Definition not_first (tys : list ValueType.t) (s : bytes) : Prop :=
  match s with b :: _ => Forall (λ ty, b ≠ code ty) tys | [] => True end.

Lemma field_absent {T} (ty : ValueType.t) (d : T) dec s :
  as_char ty = code ty → not_first [ty] s → decode_field (code ty) d dec s = Ok (d, s).
Proof.
  intros Hc Hs. unfold decode_field, Slice.TryConsumeByte. rewrite Hc. destruct s as [|b s]; [done|]. apply Forall_cons in Hs as [Hs _].
  by rewrite (proj2 (Z.eqb_neq _ _)).
Qed.

Lemma field_read {T} present (ty : ValueType.t) (x d : T) dec l s :
  as_char ty = code ty → dec (l ++ s) = Ok (x, s) → not_first [ty] s →
  decode_field (code ty) d dec (field present ty l ++ s) = Ok (if present then x else d, s).
Proof.
  intros Hc Hd Hs. destruct present; cbn [field app]; [|by apply field_absent]. unfold decode_field, Slice.TryConsumeByte.
  by rewrite Hc, Z.eqb_refl.
Qed.

Lemma field_ok present (ty : ValueType.t) l : bytes_ok l → as_char ty = code ty → bytes_ok (field present ty l).
Proof. intros Hl Hc. destruct present; [|constructor]. constructor; [|done]. rewrite <- Hc. apply u8_range. Qed.

Lemma not_first_field present (ty : ValueType.t) l s (tys : list ValueType.t) :
  (∀ x, x ∈ tys → x ≠ ty) → not_first tys s → not_first tys (field present ty l ++ s).
Proof.
  intros Ht Hs. destruct present; [|done]. cbn. apply Forall_forall. intros x Hx E%code_inj. by apply (Ht x).
Qed.

Lemma not_first_sub tys tys' s : (∀ x, x ∈ tys' → x ∈ tys) → not_first tys s → not_first tys' s.
Proof. intros Hi. destruct s as [|b s]; [done|]. cbn. rewrite !Forall_forall. auto. Qed.

Definition control : list ValueType.t := [kMergeFlags; kHybridTime; kTtl; kUserTimestamp].

(** The time to live that is read back: the milliseconds. *)
Definition stored_ttl (ttl : Z) : Z := if ttl =? kMaxTtl then kMaxTtl else MonoDelta.ToMilliseconds ttl * 1000000.

Lemma quot_bounds z : is_i64 z → is_i64 (z ÷ 1000000) ∧ is_i64 (z ÷ 1000000 * 1000000) ∧ z ÷ 1000000 <= (2 ^ 63 - 1) ÷ 1000000.
Proof.
  unfold is_i64. intros Hz. pose proof (Z.quot_rem' z 1000000). change ((2 ^ 63 - 1) ÷ 1000000) with 9223372036854.
  destruct (Z.leb_spec 0 z).
  - pose proof (Z.rem_bound_pos z 1000000 ltac:(lia) ltac:(lia)). lia.
  - pose proof (Z.rem_bound_pos_neg z 1000000 ltac:(lia) ltac:(lia)). lia.
Qed.

Lemma ttl_decode ttl s :
  is_i64 ttl → bytes_ok s →
  (let! (ms, slice) := FastDecodeSignedVarIntSlice (FastEncodeSignedVarInt (MonoDelta.ToMilliseconds ttl) ++ s) in
   let! ttl := MonoDelta.FromMilliseconds ms in Ok (ttl, slice)) = Ok (MonoDelta.ToMilliseconds ttl * 1000000, s).
Proof.
  intros Ht Hs. unfold MonoDelta.ToMilliseconds, MonoDelta.kNanosecondsPerMillisecond. destruct (quot_bounds ttl Ht) as (H1 & H2 & H3).
  unfold FastDecodeSignedVarIntSlice. rewrite decode_signed_encode by done. cbn [obind]. rewrite Nat2Z.id, drop_app_length.
  unfold MonoDelta.FromMilliseconds, MonoDelta.signed, MonoDelta.kNanosecondsPerMillisecond. rewrite (proj2 (Z.leb_le _ _)) by done.
  by rewrite bool_decide_true.
Qed.

(** What is read back of a value. *)
Definition read_back (v : t) (p : PrimitiveValue.t) : t :=
  mk p (stored_ttl (ttl_ v)) (user_timestamp_ v) (merge_flags_ v)
    (if DocHybridTime.is_valid (intent_doc_ht_ v) then intent_doc_ht_ v else DocHybridTime.kInvalid).

Lemma rest_ok v p :
  wf_fields v → bytes_ok p →
  bytes_ok (timestamp_field v ++ p) ∧ bytes_ok (ttl_field v ++ timestamp_field v ++ p) ∧ bytes_ok (ht_field v ++ ttl_field v ++ timestamp_field v ++ p).
Proof.
  intros Hv Hp. assert (bytes_ok (timestamp_field v)) as H1 by (apply field_ok; [apply be_bytes_ok|done]).
  assert (bytes_ok (ttl_field v)) as H2 by (apply field_ok; [apply encode_signed_ok, quot_bounds, Hv|done]).
  assert (bytes_ok (ht_field v)) as H3 by (apply field_ok; [apply ht_bytes_ok, Hv|done]). split_and!; repeat apply Forall_app_2; done.
Qed.

(** The fields that follow, and then the value, do not start with the type of a field that was not written. *)
Ltac past_fields Hc :=
  repeat apply not_first_field; [by intros ? ->%list_elem_of_singleton..|];
  eapply not_first_sub; [|exact Hc]; intros ? ->%list_elem_of_singleton; set_solver.

Lemma read_flags v p :
  wf_fields v → bytes_ok p → not_first control p →
  DecodeMergeFlags (flags_field v ++ ht_field v ++ ttl_field v ++ timestamp_field v ++ p) = Ok (merge_flags_ v, ht_field v ++ ttl_field v ++ timestamp_field v ++ p).
Proof.
  intros Hv Hp Hc. destruct (rest_ok v p Hv Hp) as (H1 & H2 & H3). unfold DecodeMergeFlags, flags_field. rewrite (field_read _ _ (merge_flags_ v));
    [|done|by rewrite decode_unsigned_spec by apply Hv; cbn [obind]; rewrite Nat2Z.id, drop_app_length|by past_fields Hc].
  by destruct (Z.eqb_spec (merge_flags_ v) 0) as [->|].
Qed.

Lemma read_ttl v p :
  wf_fields v → bytes_ok p → not_first control p → DecodeTTL (ttl_field v ++ timestamp_field v ++ p) = Ok (stored_ttl (ttl_ v), timestamp_field v ++ p).
Proof.
  intros Hv Hp Hc. destruct (rest_ok v p Hv Hp) as (H1 & H2 & H3). unfold DecodeTTL, ttl_field.
  rewrite (field_read _ _ (MonoDelta.ToMilliseconds (ttl_ v) * 1000000)); [|done|apply ttl_decode; [apply Hv|done]|by past_fields Hc].
  unfold stored_ttl, has_ttl. by destruct (ttl_ v =? kMaxTtl).
Qed.

Lemma read_timestamp v p :
  wf_fields v → bytes_ok p → not_first control p → DecodeUserTimestamp (timestamp_field v ++ p) = Ok (user_timestamp_ v, p).
Proof.
  intros Hv Hp Hc. unfold DecodeUserTimestamp, timestamp_field. rewrite (field_read _ _ (user_timestamp_ v)); [|done| |by past_fields Hc].
  - by destruct (Z.eqb_spec (user_timestamp_ v) kInvalidUserTimestamp) as [->|].
  - rewrite (proj2 (Nat.ltb_ge _ _)) by (rewrite length_app, length_be_bytes; unfold kBytesPerInt64; lia). change kBytesPerInt64 with 8%nat.
    rewrite NumberKeys.load_be_bytes by apply u64_range. cbn [obind]. rewrite <- (length_be_bytes 8 (u64 (user_timestamp_ v))) at 1. rewrite PrimitiveKeys.remove_prefix_app. cbn [obind].
    rewrite i64_u64, i64_small by apply Hv. done.
Qed.

Lemma decode_fields v v0 p :
  wf_fields v → bytes_ok p → p ≠ [] → not_first control p →
  DecodeControlFields v0 (fields v ++ p) = Ok (read_back v (primitive_value_ v0), p).
Proof.
  intros Hv Hp Hne Hc. unfold DecodeControlFields. rewrite bool_decide_false.
  2: { intros E. apply (f_equal length) in E. rewrite length_app in E. destruct p; [done|]. cbn [length] in E. lia. }
  destruct (rest_ok v p Hv Hp) as (H1 & H2 & H3). unfold fields. rewrite <- !app_assoc. rewrite read_flags by done.
  cbn [obind]. unfold DecodeIntentDocHT, ht_field. rewrite (field_read _ _ (intent_doc_ht_ v));
    [|done|apply DocHybridTime.decode_encoded; [apply Hv|done|apply ht_bytes_ok, Hv]|by past_fields Hc].
  cbn [obind]. rewrite read_ttl by done. cbn [obind]. by rewrite read_timestamp.
Qed.

(** ** Primitive values *)

Lemma value_first p s :
  PrimitiveKeys.wf_value p → PrimitiveValue.ToValue p = Ok s → ∃ l, s = code (PrimitiveValue.value_type p) :: l.
Proof.
  intros Hp. destruct p as [ty|ty n|ty n|ty n|ty n|ty n|ty d|ty x|ty n|ty n|ty n|ty a|ty u|ty l|ty n|ty x|ty x|ty x];
    cbn [PrimitiveKeys.wf_value PrimitiveValue.ToValue PrimitiveValue.value_type] in *; destruct ty; try done;
    try (intros [= <-]; by eexists); try (rewrite Hp; intros [= <-]; by eexists).
  - destruct Hp as (l & _ & Ha). unfold PrimitiveValue.address_bytes. rewrite (InetAddress.FromBytes_ToBytes l a Ha). intros [= <-]. by eexists.
  - rewrite PrimitiveKeys.append_all_keyed by (eapply Forall_impl, PrimitiveKeys.wf_keyed; exact Hp). intros [= <-]. by eexists.
  - rewrite PrimitiveKeys.append_all_keyed by (eapply Forall_impl, PrimitiveKeys.wf_keyed; exact Hp). intros [= <-]. by eexists.
Qed.

Lemma value_not_control p s : PrimitiveKeys.wf_value p → PrimitiveValue.ToValue p = Ok s → s ≠ [] ∧ not_first control s.
Proof.
  intros Hp E. destruct (value_first p s Hp E) as [l ->]. split; [done|]. cbn. repeat (apply Forall_cons_2; [intros H%code_inj|]); [..|apply Forall_nil_2];
    destruct p as [ty|ty|ty|ty|ty|ty|ty|ty|ty|ty|ty|ty|ty|ty|ty|ty|ty|ty]; cbn [PrimitiveKeys.wf_value PrimitiveValue.value_type] in *; by subst.
Qed.

Lemma decode_value_type v v0 p r :
  wf_fields v → bytes_ok p → p ≠ [] → not_first control p → DecodeControlFields v0 (fields v ++ p) = Ok (r, p) →
  DecodePrimitiveValueType (fields v ++ p) = Ok (DecodeValueType p, merge_flags_ r, ttl_ r, user_timestamp_ r).
Proof.
  intros Hv Hp Hne Hc. unfold DecodeControlFields, DecodePrimitiveValueType. case_test; [done|].
  destruct (DecodeMergeFlags _) as [[f s1]|?| |]; [|done..]. cbn [obind]. destruct (DecodeIntentDocHT _) as [[h s2]|?| |]; [|done..]. cbn [obind].
  destruct (DecodeTTL _) as [[ttl s3]|?| |]; [|done..]. cbn [obind]. destruct (DecodeUserTimestamp _) as [[ts s4]|?| |]; [|done..]. cbn [obind].
  by intros [= <- <-].
Qed.

End Codec.

(** ** Properties *)

(** C29: A value decodes from its code to its primitive value and its control fields, a time to live being cut to milliseconds: one below a
    millisecond is read as [kResetTtl], which never expires.  The type of the value and its fields can be read without the value,
    and a replaced payload keeps the fields. *)
Theorem value_roundtrip
    {B : BigNum} {HB : BigNumSpec B} {V : UuidVersion} {HV : UuidVersionSpec V} {A : IpAddress} {HA : IpAddressSpec A} (v v0 : t) (p : bytes) :
  wf_fields v → PrimitiveKeys.wf_value (primitive_value_ v) → PrimitiveValue.ToValue (primitive_value_ v) = Ok p → bytes_ok p →
  ∃ s, Encode v None = Ok s ∧ Encode v (Some p) = Ok s ∧ Decode v0 s = Ok (read_back v (primitive_value_ v)) ∧
    DecodePrimitiveValueType s = Ok (code (PrimitiveValue.value_type (primitive_value_ v)), merge_flags_ v, stored_ttl (ttl_ v), user_timestamp_ v) ∧
    (Z.abs (ttl_ v) < 1000000 → stored_ttl (ttl_ v) = kResetTtl ∧ ∀ w t, DocTtl.HasExpiredTTL w (stored_ttl (ttl_ v)) t = Ok false).
Proof.
  intros Hv Hw Ep Hp. destruct (value_not_control _ p Hw Ep) as [Hne Hc]. exists (fields v ++ p). unfold Encode. rewrite !encode_value, Ep by done. cbn [obind].
  split; [done|]. split; [done|]. pose proof (decode_fields v v0 p Hv Hp Hne Hc) as Hd. split_and!.
  - unfold Decode. rewrite Hd. cbn [obind]. destruct (PrimitiveKeys.value_decodes _ Hw) as (s & Es & Ds). rewrite Ep in Es. injection Es as <-.
    by rewrite Ds.
  - rewrite (decode_value_type v v0 p _ Hv Hp Hne Hc Hd). destruct (value_first _ p Hw Ep) as [l ->]. done.
  - intros Hs. unfold stored_ttl. rewrite (proj2 (Z.eqb_neq _ _)) by (unfold kMaxTtl; lia). unfold MonoDelta.ToMilliseconds, MonoDelta.kNanosecondsPerMillisecond.
    assert (ttl_ v ÷ 1000000 = 0) as -> by (apply Z.quot_small_iff; lia). unfold DocTtl.HasExpiredTTL. done.
Qed.

Definition sample_full : t (A := BytesAddress) :=
  mk (PrimitiveValue.of_string [97] PrimitiveValue.kAscending) 5000000 (-7) 1 DocHybridTime.sample.

Lemma sample_full_wf : wf_fields sample_full.
Proof. split; [unfold is_i64; cbn; lia..|unfold is_u64; cbn; lia|exact DocHybridTime.sample_wf]. Qed.

Lemma value_roundtrip_witness : ∃ s, Encode sample_full None = Ok s ∧ Decode (B := ZNum) Tombstone s = Ok sample_full.
Proof.
  destruct (value_roundtrip sample_full Tombstone [83; 97] sample_full_wf) as (s & E & _ & D & _); [exact I|reflexivity|bytes_done|].
  exists s. split; [exact E|exact D].
Defined.

(** C35: What the decoders of one field that work on a copy of the slice read of an encoded value.  They do not skip all fields before
    theirs: the time to live is found unless the value has the hybrid time of an intent, which hides it, and the user timestamp is found
    only where the value has neither that nor merge flags; elsewhere they report that there is none, although [Decode] finds them. *)
Theorem partial_decoders
    {B : BigNum} {HB : BigNumSpec B} {V : UuidVersion} {HV : UuidVersionSpec V} {A : IpAddress} {HA : IpAddressSpec A} (v : t) (p : bytes) :
  wf_fields v → PrimitiveKeys.wf_value (primitive_value_ v) → PrimitiveValue.ToValue (primitive_value_ v) = Ok p → bytes_ok p →
  let intent := DocHybridTime.is_valid (intent_doc_ht_ v) in
  ∃ s, Encode v None = Ok s ∧
    DecodeTTL_const s = Ok (if intent then kMaxTtl else stored_ttl (ttl_ v)) ∧
    DecodeUserTimestamp_const s = Ok (if intent || negb (merge_flags_ v =? 0) then kInvalidUserTimestamp else user_timestamp_ v).
Proof.
  intros Hv Hw Ep Hp intent. destruct (value_not_control _ p Hw Ep) as [Hne Hc]. exists (fields v ++ p). unfold Encode. rewrite encode_value, Ep by done. split; [done|].
  destruct (rest_ok v p Hv Hp) as (H1 & H2 & H3). unfold fields. rewrite <- !app_assoc. split.
  - unfold DecodeTTL_const. rewrite read_flags by done. cbn [obind]. unfold ht_field. fold intent. destruct intent; cbn [field app]; [|by rewrite read_ttl].
    unfold DecodeTTL. by rewrite field_absent by (done || (constructor; [done|constructor])).
  - unfold DecodeUserTimestamp_const, flags_field, ht_field. fold intent. destruct (merge_flags_ v =? 0), intent; cbn [negb field app orb];
      [|by rewrite read_ttl by done; cbn [obind]; rewrite read_timestamp by done|..];
      unfold DecodeTTL, DecodeUserTimestamp; rewrite field_absent by (done || (constructor; [done|constructor])); cbn [obind];
      by rewrite field_absent by (done || (constructor; [done|constructor])).
Qed.

Lemma partial_decoders_witness :
  ∃ s, Encode sample_full None = Ok s ∧ DecodeTTL_const s = Ok kMaxTtl ∧ DecodeUserTimestamp_const s = Ok kInvalidUserTimestamp ∧
    DecodePrimitiveValueType s = Ok (code kString, 1, 5000000, -7).
Proof.
  destruct (partial_decoders sample_full [83; 97] sample_full_wf) as (s & E & T & U); [exact I|reflexivity|bytes_done|].
  exists s. split; [exact E|]. split; [exact T|]. split; [exact U|]. vm_compute in E. injection E as <-. reflexivity.
Defined.

End ValueCodec.
