(* ===== verification/IntentsDb.v ===== *)
(** * Writing and applying the intents of a transaction

    Models the part of docdb/docdb.cc that records the writes of a transaction
    in the intents database ([DocHybridTimeBuffer], [AddIntent],
    [PrepareTransactionWriteBatchHelper]) and moves them to the regular
    database when it commits, or deletes them ([IntentToWriteRequest],
    [PrepareApplyIntentsBatch]), with docdb/bounded_rocksdb_iterator.cc and
    [KeyBounds] of docdb/doc_key.h.

    The RocksDB store is the list of its entries in ascending byte order of
    the keys; an iterator is the list of the entries from its position on. *)

From stdpp Require Import sorting.
From S2P Require Import Prelude Slice FastVarint HybridTime DocHybridTime ValueType KvUtil Intent Coding Bitmap.

(** ** The ordered store *)

Module Store.

Abbreviation entry := (bytes * bytes)%type.
Abbreviation db := (list entry).

(** Operations of a [rocksdb::WriteBatch]. *)
Inductive op :=
  | Put (key value : bytes)
  | SingleDelete (key : bytes).

Fixpoint put (k v : bytes) (d : db) : db :=
  match d with
  | [] => [(k, v)]
  | (k', v') :: d' =>
      match bytes_compare k k' with
      | Lt => (k, v) :: d
      | Eq => (k, v) :: d'
      | Gt => (k', v') :: put k v d'
      end
  end.

Definition remove (k : bytes) (d : db) : db := filter (λ e, e.1 ≠ k) d.

Definition apply_op (d : db) (o : op) : db :=
  match o with Put k v => put k v d | SingleDelete k => remove k d end.
Definition apply_ops (d : db) (l : list op) : db := foldl apply_op d l.

(** [Iterator::Seek]. *)
Fixpoint seek (target : bytes) (d : db) : db :=
  match d with
  | [] => []
  | (k, v) :: d' => if bool_decide (bytes_compare k target = Lt) then seek target d' else d
  end.

(** *** Ascending lists *)

Definition before (a b : entry) : Prop := bytes_compare a.1 b.1 = Lt.
Definition sorted (d : db) : Prop := StronglySorted before d.

Lemma elem_of_put k v d e :
  sorted d → e ∈ put k v d ↔ e = (k, v) ∨ (e ∈ d ∧ e.1 ≠ k).
Proof.
  induction 1 as [|[k' v'] d Hs IH Hall]; simpl.
  - rewrite list_elem_of_singleton. split; [by left|]. intros [|[[]%not_elem_of_nil _]]; done.
  - rewrite Forall_forall in Hall. destruct (bytes_compare k k') eqn:E.
    + apply bytes_compare_eq in E as <-. rewrite !elem_of_cons. split.
      * intros [->|He]; [by left|]. right. split; [by right|]. intros Hk.
        specialize (Hall _ He). unfold before in Hall. simpl in Hall. rewrite Hk in Hall.
        by apply bytes_compare_lt_irrefl in Hall.
      * intros [->|[[->|He] Hk]]; [by left|done|by right].
    + rewrite elem_of_cons. assert (∀ e, e ∈ (k', v') :: d → e.1 ≠ k) as Hne.
      { intros e' [->|He]%elem_of_cons Hk; simpl in *; subst.
        - by apply bytes_compare_lt_irrefl in E.
        - specialize (Hall _ He). unfold before in Hall. simpl in Hall.
          apply (bytes_compare_lt_irrefl e'.1). by eapply bytes_compare_lt_trans. }
      split; [intros [->|He]; [by left|right]; split; [done|by apply Hne]|].
      intros [->|[He _]]; [by left|by right].
    + rewrite !elem_of_cons, IH. assert (k' ≠ k) as Hne.
      { intros ->. by rewrite bytes_compare_refl in E. }
      split; [intros [->|[->|[]]]; auto|intros [->|[[->|] ?]]; auto].
Qed.

Lemma put_sorted k v d : sorted d → sorted (put k v d).
Proof.
  induction 1 as [|[k' v'] d Hs IH Hall]; simpl; [repeat constructor|].
  destruct (bytes_compare k k') eqn:E.
  - apply bytes_compare_eq in E as <-. by constructor.
  - constructor; [by constructor|]. constructor; [done|]. eapply Forall_impl; [exact Hall|].
    intros e He. by eapply bytes_compare_lt_trans.
  - constructor; [done|]. apply Forall_forall. intros e He.
    apply elem_of_put in He as [->|[He _]]; [|by eapply Forall_forall in Hall|done].
    unfold before. simpl. by rewrite bytes_compare_antisym, E.
Qed.

Lemma sorted_ext l1 l2 : sorted l1 → sorted l2 → (∀ e, e ∈ l1 ↔ e ∈ l2) → l1 = l2.
Proof.
  intros H1. revert l2. induction H1 as [|a l1 H1 IH F1]; intros l2 H2 E.
  - destruct l2 as [|b l2]; [done|]. exfalso.
    by eapply not_elem_of_nil, E, elem_of_cons; left.
  - destruct H2 as [|b l2 H2 F2]; [exfalso; by eapply not_elem_of_nil, E, elem_of_cons; left|].
    rewrite Forall_forall in F1, F2.
    assert (∀ x y, before x y → before y x → False) as Hasym.
    { intros x y Hx Hy. by apply (bytes_compare_lt_irrefl x.1), (bytes_compare_lt_trans _ y.1). }
    assert (a = b) as ->.
    { destruct (proj1 (elem_of_cons _ _ _) (proj1 (E a) (list_elem_of_here _ _))) as [|Ha]; [done|].
      destruct (proj1 (elem_of_cons _ _ _) (proj2 (E b) (list_elem_of_here _ _))) as [|Hb]; [done|].
      exfalso. eauto. }
    f_equal. apply IH; [done|]. intros e. specialize (E e). rewrite !elem_of_cons in E.
    split; intros He.
    + destruct (proj1 E (or_intror He)) as [->|]; [|done]. exfalso.
      by apply (bytes_compare_lt_irrefl b.1), F1.
    + destruct (proj2 E (or_intror He)) as [->|]; [|done]. exfalso.
      by apply (bytes_compare_lt_irrefl b.1), F2.
Qed.

Lemma sorted_filter (P : entry → Prop) `{!∀ e, Decision (P e)} d : sorted d → sorted (filter P d).
Proof.
  induction 1 as [|e d Hs IH F]; [constructor|]. rewrite filter_cons. case_decide; [|done].
  constructor; [done|]. apply Forall_forall. intros e' [_ He]%list_elem_of_filter.
  by eapply Forall_forall in F.
Qed.

Lemma sorted_append a b : sorted a → sorted b → (∀ x y, x ∈ a → y ∈ b → before x y) → sorted (a ++ b).
Proof.
  induction 1 as [|x a Ha IH Hx]; intros Hb Hab; [done|]. cbn [app]. constructor.
  - apply IH; [done|]. intros y z Hy. apply Hab. by right.
  - apply Forall_app_2; [done|]. apply Forall_forall. intros y Hy. apply Hab; [left|done].
Qed.

Lemma seek_below target d :
  Forall (λ e, bytes_compare e.1 target = Lt) d → seek target d = [].
Proof. induction 1 as [|[k v] d Hk _ IH]; [done|]. simpl in *. by rewrite bool_decide_true. Qed.

Lemma seek_suffix target d : ∃ A, d = A ++ seek target d.
Proof.
  induction d as [|[k v] d [A IH]]; [by exists []|]. simpl. case_bool_decide; [|by exists []].
  exists ((k, v) :: A). simpl. congruence.
Qed.

Lemma seek_all target d :
  Forall (λ e, bytes_compare e.1 target ≠ Lt) d → seek target d = d.
Proof. destruct 1 as [|[k v] d Hk _]; [done|]. simpl in *. by rewrite bool_decide_false. Qed.

(** The keys with a common prefix are together, and [Seek] finds the first. *)
Lemma seek_prefix p d :
  sorted d →
  ∃ C, seek p d = filter (λ e, p `prefix_of` e.1) d ++ C ∧ ∀ e, e ∈ C → ¬ p `prefix_of` e.1.
Proof.
  induction 1 as [|[k v] d Hs (C & E & HC) F].
  { exists []. split; [done|]. by intros e ?%not_elem_of_nil. }
  rewrite Forall_forall in F. simpl. rewrite filter_cons. simpl. case_bool_decide as Hk.
  - rewrite decide_False; [by exists C|]. intros [x ->]. by apply bytes_compare_prefix in Hk.
  - assert (∀ e, e ∈ d → bytes_compare e.1 p ≠ Lt) as Hge.
    { intros e He Hlt. apply Hk. eapply bytes_compare_lt_trans; [by apply (F _ He)|done]. }
    case_decide as Hp.
    + exists C. split; [|done]. rewrite <- app_comm_cons, <- E. f_equal. symmetry.
      by apply seek_all, Forall_forall.
    + exists ((k, v) :: d). assert (∀ e, e ∈ d → ¬ p `prefix_of` e.1) as Hnp.
      { intros e He [x Hx]. specialize (F _ He). unfold before in F. simpl in F. rewrite Hx in F.
        by rewrite bytes_compare_not_prefix in F. }
      rewrite filter_none by done. split; [done|]. intros e [->|He]%elem_of_cons; auto.
Qed.

(** Seeking a key that is there. *)
Lemma seek_split target v l1 l2 :
  sorted (l1 ++ (target, v) :: l2) →
  seek target (l1 ++ (target, v) :: l2) = (target, v) :: l2.
Proof.
  induction l1 as [|[k w] l1 IH]; simpl.
  - intros _. by rewrite bool_decide_false by apply bytes_compare_lt_irrefl.
  - intros Hs. apply StronglySorted_inv in Hs as [Hs F].
    apply Forall_app in F as [_ F]. apply Forall_cons in F as [F _].
    rewrite bool_decide_true by done. by apply IH.
Qed.

End Store.

Module KeyBounds.

Record t := mk { lower : bytes; upper : bytes }.

Definition kNoBounds : t := mk [] [].

Definition IsWithinBounds (b : t) (key : bytes) : bool :=
  (bool_decide (lower b = []) || bool_decide (bytes_compare key (lower b) ≠ Lt)) &&
  (bool_decide (upper b = []) || bool_decide (bytes_compare key (upper b) = Lt)).

Definition IsInitialized (b : t) : bool :=
  negb (bool_decide (lower b = [])) || negb (bool_decide (upper b = [])).

End KeyBounds.

Module BoundedRocksDbIterator.

Definition Valid (b : KeyBounds.t) (it : Store.db) : bool :=
  match it with [] => false | (k, _) :: _ => KeyBounds.IsWithinBounds b k end.

Definition Seek (b : KeyBounds.t) (d : Store.db) (target : bytes) : Store.db :=
  if negb (bool_decide (KeyBounds.lower b = [])) &&
     bool_decide (bytes_compare target (KeyBounds.lower b) = Lt)
  then Store.seek (KeyBounds.lower b) d
  else if negb (bool_decide (KeyBounds.upper b = [])) &&
     bool_decide (bytes_compare target (KeyBounds.upper b) = Gt)
  then Store.seek (KeyBounds.upper b) d
  else Store.seek target d.

End BoundedRocksDbIterator.

(** ** Writing intents *)

Module IntentWriter.
Import IntentType RowMark Intent Store.

Definition EncodeWithValueType (doc_ht : DocHybridTime.t) : outcome bytes :=
  let! enc := DocHybridTime.EncodedInDocDbFormat doc_ht in
  Ok (ValueType.code ValueType.kHybridTime :: enc).

(** The words of the buffer are inverted; the slice covers the bytes written. *)
Definition InvertedDocHt (input : bytes) : bytes := (λ b, u8 (Z.lnot b)) <$> input.

(** The two records of an intent; [key_last] is the last part of the key. *)
Definition AddIntent (transaction_id key_front key_last value reverse_value_prefix : bytes)
    : list op :=
  let key := key_front ++ key_last in
  let reverse_key :=
    [ValueType.code ValueType.kTransactionId] ++ transaction_id ++ InvertedDocHt key_last in
  [Put key value;
   if bool_decide (reverse_value_prefix = []) then Put reverse_key key
   else Put reverse_key (reverse_value_prefix ++ key)].

(** [PrepareTransactionWriteBatchHelper]; [rocksdb_write_batch_] and
    [*intra_txn_write_id_] belong to the caller and are part of the state. *)
Record helper := Helper {
  row_mark_ : RowMarkType;
  hybrid_time_ : Z;
  rocksdb_write_batch_ : list op;
  transaction_id_ : TransactionId.t;
  replicated_batches_state_ : bytes;
  strong_intent_types_ : IntentTypeSet.t;
  weak_intents_ : gmap bytes IntentTypeSet.t;
  write_id_ : Z;
  intra_txn_write_id_ : Z;
}.

Definition Setup (h : helper) (isolation_level : IsolationLevel) (kind : OperationKind)
    (row_mark : RowMarkType) : helper :=
  Helper row_mark (hybrid_time_ h) (rocksdb_write_batch_ h) (transaction_id_ h)
    (replicated_batches_state_ h) (GetStrongIntentTypeSet isolation_level kind row_mark)
    (weak_intents_ h) (write_id_ h) (intra_txn_write_id_ h).

(** [operator()], called for every key of [EnumerateIntents];
    [FLAGS_enable_transaction_sealing] is a parameter. *)
Definition call (sealing : bool) (h : helper) (intent_strength : IntentStrength)
    (value_slice key : bytes) (last_key : bool) : outcome helper :=
  match intent_strength with
  | kWeak =>
      let types := IntentTypeSet.or_ (default 0 (weak_intents_ h !! key))
                     (StrongToWeak (strong_intent_types_ h)) in
      Ok (Helper (row_mark_ h) (hybrid_time_ h) (rocksdb_write_batch_ h) (transaction_id_ h)
            (replicated_batches_state_ h) (strong_intent_types_ h)
            (<[key := types]> (weak_intents_ h)) (write_id_ h) (intra_txn_write_id_ h))
  | kStrong =>
      let body := if IsValidRowMarkType (row_mark_ h)
                  then [ValueType.code ValueType.kRowLock] else value_slice in
      let value := [ValueType.code ValueType.kTransactionId] ++ transaction_id_ h ++
                   [ValueType.code ValueType.kWriteId] ++
                   KvUtil.Store 4 (intra_txn_write_id_ h) ++ body in
      let intent_type := [ValueType.code ValueType.kIntentTypeSet;
                          u8 (IntentTypeSet.ToUIntPtr (strong_intent_types_ h))] in
      let! doc_ht := EncodeWithValueType (DocHybridTime.mk (hybrid_time_ h) (write_id_ h)) in
      let reverse_value_prefix :=
        if last_key && sealing then replicated_batches_state_ h else [] in
      let puts := AddIntent (transaction_id_ h) (key ++ intent_type) doc_ht value
                    reverse_value_prefix in
      Ok (Helper (row_mark_ h) (hybrid_time_ h) (rocksdb_write_batch_ h ++ puts)
            (transaction_id_ h) (replicated_batches_state_ h) (strong_intent_types_ h)
            (weak_intents_ h) (u32 (write_id_ h + 1)) (u32 (intra_txn_write_id_ h + 1)))
  end.

Definition AddWeakIntent (h : helper) (intent_and_types : bytes * IntentTypeSet.t)
    : outcome helper :=
  let value := [ValueType.code ValueType.kTransactionId] ++ transaction_id_ h in
  let intent_type := [ValueType.code ValueType.kIntentTypeSet;
                      u8 (IntentTypeSet.ToUIntPtr intent_and_types.2)] in
  let! doc_ht := EncodeWithValueType (DocHybridTime.mk (hybrid_time_ h) (write_id_ h)) in
  let puts := AddIntent (transaction_id_ h) (intent_and_types.1 ++ intent_type) doc_ht value [] in
  Ok (Helper (row_mark_ h) (hybrid_time_ h) (rocksdb_write_batch_ h ++ puts)
        (transaction_id_ h) (replicated_batches_state_ h) (strong_intent_types_ h)
        (weak_intents_ h) (u32 (write_id_ h + 1)) (intra_txn_write_id_ h)).

(** The unordered map is visited in some order, given as a list. *)
Fixpoint add_weak_intents (h : helper) (order : list (bytes * IntentTypeSet.t)) : outcome helper :=
  match order with
  | [] => Ok h
  | e :: order => let! h := AddWeakIntent h e in add_weak_intents h order
  end.

Definition Finish (h : helper) (order : list (bytes * IntentTypeSet.t)) : outcome helper :=
  add_weak_intents h order.

Fixpoint calls (sealing : bool) (h : helper)
    (l : list (IntentStrength * bytes * bytes * bool)) : outcome helper :=
  match l with
  | [] => Ok h
  | (strength, value, key, last_key) :: l =>
      let! h := call sealing h strength value key last_key in calls sealing h l
  end.

(** [PrepareTransactionWriteBatch]: the keys [EnumerateIntents] reports for the
    write and the read pairs, and the order in which the weak intents are
    visited, are arguments. *)
Definition PrepareTransactionWriteBatch (sealing : bool) (hybrid_time : Z)
    (transaction_id : TransactionId.t) (isolation_level : IsolationLevel)
    (row_mark : option RowMarkType) (replicated_batches_state : bytes)
    (intra_txn_write_id : Z)
    (write_pairs read_pairs : list (IntentStrength * bytes * bytes * bool))
    (order : gmap bytes IntentTypeSet.t → list (bytes * IntentTypeSet.t)) : outcome helper :=
  let row_mark := GetRowMarkTypeFromPB row_mark in
  let h := Helper ROW_MARK_ABSENT hybrid_time [] transaction_id replicated_batches_state 0 ∅ 0
             intra_txn_write_id in
  let! h := if bool_decide (write_pairs = []) then Ok h
            else calls sealing (Setup h isolation_level kWrite row_mark) write_pairs in
  let! h := if bool_decide (read_pairs = []) then Ok h
            else calls sealing (Setup h isolation_level kRead row_mark) read_pairs in
  Finish h (order (weak_intents_ h)).

End IntentWriter.

(** ** Applying and removing intents *)

Module IntentApplier.
Import IntentType Intent Store IntentWriter.

(** [ApplyTransactionState]: where the next call continues. *)
Record ApplyTransactionState := mk_state { key : bytes; write_id : Z }.

Definition AppendTransactionKeyPrefix (transaction_id out : bytes) : bytes :=
  KeyBytes.AppendRawBytes transaction_id (KeyBytes.AppendValueType ValueType.kTransactionId out).

(** The operations added to the regular batch and the new [*write_id]. *)
Definition IntentToWriteRequest (transaction_id_slice : bytes) (commit_ht : Z)
    (reverse_index_value : bytes) (key_bounds : KeyBounds.t) (intents_db : db) (write_id : Z)
    : outcome (list op * Z) :=
  let intent_iter := BoundedRocksDbIterator.Seek key_bounds intents_db reverse_index_value in
  match intent_iter with
  | [] => Ok ([], write_id)
  | (intent_key, intent_value) :: _ =>
      if negb (BoundedRocksDbIterator.Valid key_bounds intent_iter) ||
         negb (bool_decide (intent_key = reverse_index_value))
      then Ok ([], write_id)
      else
        let! intent := ParseIntentKey intent_key in
        if IntentTypeSet.Test (types intent) kStrongWrite then
          let! (stored_write_id, body) := DecodeIntentValue intent_value transaction_id_slice in
          let write_id := stored_write_id in
          if bool_decide (head body = Some (ValueType.code ValueType.kRowLock))
          then Ok ([], write_id)
          else
            let! doc_ht := EncodeWithValueType (DocHybridTime.mk commit_ht write_id) in
            Ok ([Put (doc_path intent ++ doc_ht) (parsed_doc_ht intent ++ body)],
                u32 (write_id + 1))
        else Ok ([], write_id)
  end.

Definition PutApplyState (transaction_id_slice : bytes) (commit_ht write_id : Z) (value : bytes)
    : outcome (list op) :=
  let! enc := DocHybridTime.EncodedInDocDbFormat (DocHybridTime.mk commit_ht write_id) in
  Ok [Put ([ValueType.code ValueType.kTransactionApplyState] ++ transaction_id_slice ++
           [ValueType.code ValueType.kGroupEnd; ValueType.code ValueType.kHybridTime] ++ enc) value].

Section Apply.
(** The serialized [ApplyTransactionStatePB] with the key, the write id and
    the commit time (generated protobuf code). *)
Context (SerializeToString : bytes → Z → Z → bytes).

Definition StoreApplyState (transaction_id_slice key : bytes) (write_id commit_ht : Z)
    : outcome (ApplyTransactionState * list op) :=
  let! ops := PutApplyState transaction_id_slice commit_ht write_id
    (ValueType.code ValueType.kString :: SerializeToString key write_id commit_ht) in
  Ok (mk_state key write_id, ops).

Context (transaction_id : TransactionId.t) (commit_ht : Z).
(** Whether the regular and the intents batch are given, the bounds of the
    tablet, the intents database and [FLAGS_txn_max_apply_batch_records]. *)
Context (regular intents : bool) (key_bounds : option KeyBounds.t) (intents_db : db).
Context (max_records : Z).

Definition key_prefix : bytes := AppendTransactionKeyPrefix transaction_id [].
Definition txn_reverse_index_prefix : bytes :=
  KeyBytes.AppendValueType ValueType.kMaxByte key_prefix.

(** [reverse_index_value] without the state of replicated batches. *)
Definition strip_bitset (value : bytes) : outcome bytes :=
  if bool_decide (head value = Some (ValueType.code ValueType.kBitSet))
  then OneWayBitmap.Skip (drop 1 value) else Ok value.

(** What the body of the loop does with one record of the reverse index that
    belongs to the transaction: it continues with a new [write_id] and batch,
    or returns. *)
Definition apply_record (write_id_limit : Z) (key_slice value : bytes) (write_id : Z)
    (batch : list op) : outcome (Z * list op + ApplyTransactionState * list op) :=
  let! r :=
    if decide (length txn_reverse_index_prefix < length key_slice)%nat then
      let! reverse_index_value := strip_bitset value in
      let! r :=
        if regular && match key_bounds with
                      | None => true
                      | Some b => KeyBounds.IsWithinBounds b value
                      end
        then
          if write_id_limit <=? write_id then
            let! (state, ops) := StoreApplyState transaction_id key_slice write_id commit_ht in
            Ok (inr (state, batch ++ ops))
          else
            let! (ops, write_id) := IntentToWriteRequest transaction_id commit_ht
              reverse_index_value (default KeyBounds.kNoBounds key_bounds) intents_db write_id in
            Ok (inl (write_id, batch ++ ops))
        else Ok (inl (write_id, batch)) in
      match r with
      | inr ret => Ok (inr ret)
      | inl (write_id, batch) =>
          Ok (inl (write_id, if intents then batch ++ [SingleDelete reverse_index_value] else batch))
      end
    else Ok (inl (write_id, batch)) in
  match r with
  | inr ret => Ok (inr ret)
  | inl (write_id, batch) =>
      if intents then
        if max_records <=? Z.of_nat (length batch)
        then Ok (inr (mk_state key_slice write_id, batch))
        else Ok (inl (write_id, batch ++ [SingleDelete key_slice]))
      else Ok (inl (write_id, batch))
  end.

(** [while (reverse_index_iter.Valid())]; the state [None] is the default one. *)
Fixpoint apply_loop (write_id_limit : Z) (it : db) (write_id : Z) (batch : list op)
    : outcome (option ApplyTransactionState * Z * list op) :=
  match it with
  | [] => Ok (None, write_id, batch)
  | (key_slice, value) :: it =>
      let! mine := Slice.starts_with key_slice key_prefix in
      if negb mine then Ok (None, write_id, batch)
      else
        let! r := apply_record write_id_limit key_slice value write_id batch in
        match r with
        | inr (state, batch) => Ok (Some state, IntentApplier.write_id state, batch)
        | inl (write_id, batch) => apply_loop write_id_limit it write_id batch
        end
  end.

(** The entries the iterator with [iterate_upper_bound] can reach. *)
Definition reverse_index : db :=
  filter (λ e, bytes_compare e.1 txn_reverse_index_prefix = Lt) intents_db.

Definition PrepareApplyIntentsBatch (apply_state : option ApplyTransactionState)
    (batch : list op) : outcome (option ApplyTransactionState * list op) :=
  if negb ((if regular then 1 else 0) + (if intents then 1 else 0) =? 1) then Err InvalidArgument
  else if regular && bool_decide (key_bounds = None) then Fatal
  else
    let start := match apply_state with
                 | None => seek key_prefix reverse_index
                 | Some s => seek (key s) reverse_index
                 end in
    let write_id := match apply_state with None => 0 | Some s => write_id s end in
    let! (state, write_id, batch) := apply_loop (write_id + max_records) start write_id batch in
    match state with
    | Some s => Ok (Some s, batch)
    | None =>
        if negb (bool_decide (apply_state = None)) && regular then
          let! ops := PutApplyState transaction_id commit_ht write_id
            [ValueType.code ValueType.kTombstone] in
          Ok (None, batch ++ ops)
        else Ok (None, batch)
    end.

End Apply.
End IntentApplier.

(** ** The records of a transaction *)

Module TransactionRecords.
Import IntentType RowMark Intent Store IntentWriter IntentRecords.

(** The encoding of a time; it never fails on a time the fields can hold. *)
Definition enc (d : DocHybridTime.t) : bytes :=
  match DocHybridTime.EncodedInDocDbFormat d with Ok e => e | _ => [] end.

Lemma enc_ok d : DocHybridTime.wf d → DocHybridTime.EncodedInDocDbFormat d = Ok (enc d).
Proof.
  intros Hd. destruct (DocHybridTime.encoded_form d Hd) as (s & _ & _ & E & _).
  unfold enc. by rewrite E.
Qed.

(** An intent: its path, types, time, value and the prefix of its reverse value. *)
Record rec := Rec {
  r_path : bytes;
  r_types : IntentTypeSet.t;
  r_time : DocHybridTime.t;
  r_value : bytes;
  r_prefix : bytes;
}.

Definition rec_key (r : rec) : bytes :=
  intent_key (r_path r) (ValueType.code ValueType.kIntentTypeSet) (r_types r) (enc (r_time r)).
Definition time_bytes (r : rec) : bytes := ValueType.code ValueType.kHybridTime :: enc (r_time r).
Definition rev_key (id : TransactionId.t) (r : rec) : bytes :=
  ValueType.code ValueType.kTransactionId :: id ++ InvertedDocHt (time_bytes r).
Definition rev_entry (id : TransactionId.t) (r : rec) : entry :=
  (rev_key id r, r_prefix r ++ rec_key r).
Definition rec_entry (r : rec) : entry := (rec_key r, r_value r).
Definition rec_puts (id : TransactionId.t) (r : rec) : list op :=
  [Put (rec_key r) (r_value r); Put (rev_key id r) (r_prefix r ++ rec_key r)].

Lemma AddIntent_puts id path types d value prefix :
  AddIntent id (path ++ [ValueType.code ValueType.kIntentTypeSet; types])
    (ValueType.code ValueType.kHybridTime :: enc d) value prefix =
  rec_puts id (Rec path types d value prefix).
Proof.
  unfold AddIntent, rec_puts, rec_key, rev_key, time_bytes, intent_key. cbn [r_path r_types r_time r_value r_prefix].
  rewrite <- app_assoc. cbn [app]. case_bool_decide as E; [by subst|done].
Qed.

(** *** Reverse keys ascend with time *)

Lemma inverted_lt a b :
  bytes_ok a → bytes_ok b → (∀ x y, bytes_compare (a ++ x) (b ++ y) = Gt) →
  bytes_compare (InvertedDocHt a) (InvertedDocHt b) = Lt.
Proof.
  intros Ha. revert b. induction Ha as [|x a Hx Ha IH]; intros b Hb H.
  - specialize (H [] []). destruct b; discriminate.
  - destruct Hb as [|y b Hy Hb].
    + specialize (H [] ((x :: a) ++ [0])). rewrite app_nil_r in H. cbn [app] in H.
      exfalso. clear -H. revert H. change (x :: a ++ [0]) with ((x :: a) ++ [0]).
      generalize (x :: a). intros l. induction l as [|z l IHl]; simpl; [done|].
      by rewrite Z.compare_refl.
    + cbn. unfold is_u8 in *. unfold u8. rewrite !lnot_wrap by done.
      rewrite NumberKeys.compare_sub_rev, Z.compare_antisym.
      destruct (Z.compare_spec x y) as [->|Hlt|Hgt]; cbn [CompOpp].
      * apply IH; [done|]. intros p q. specialize (H p q).
        cbn in H. by rewrite Z.compare_refl in H.
      * specialize (H [] []). cbn in H. by rewrite (proj2 (Z.compare_lt_iff _ _) Hlt) in H.
      * done.
Qed.

Lemma rev_key_lt id r r' :
  DocHybridTime.wf (r_time r) → DocHybridTime.wf (r_time r') →
  DocHybridTime.CompareTo (r_time r) (r_time r') = Lt →
  bytes_compare (rev_key id r) (rev_key id r') = Lt.
Proof.
  intros H H' Hlt. unfold rev_key. cbn [bytes_compare]. rewrite Z.compare_refl.
  rewrite bytes_compare_app_same. apply inverted_lt.
  - constructor; [vm_compute; done|]. by eapply DocHybridTime.encoded_ok, enc_ok.
  - constructor; [vm_compute; done|]. by eapply DocHybridTime.encoded_ok, enc_ok.
  - intros x y. unfold time_bytes. cbn [app bytes_compare]. rewrite Z.compare_refl.
    rewrite (DocHybridTime.encoded_compare (r_time r) (r_time r')) by auto using enc_ok.
    rewrite DocHybridTime.doc_CompareTo_eq in Hlt |- *.
    rewrite (Z.compare_antisym (DocHybridTime.hybrid_time_ (r_time r))).
    rewrite (Z.compare_antisym (DocHybridTime.write_id_ (r_time r))).
    by destruct (_ ?= _); [destruct (_ ?= _)|..].
Qed.
(** *** The store after the records are written *)

(** A document path does not start with the tag of the reverse index, of a
    bitmap or of an apply state. *)
Definition rec_ok (r : rec) : Prop :=
  DocHybridTime.wf (r_time r) ∧ IntentTypeSet.wf (r_types r) ∧
  head (r_path r) ≠ Some (ValueType.code ValueType.kTransactionId) ∧
  head (r_path r) ≠ Some (ValueType.code ValueType.kBitSet) ∧
  head (r_path r) ≠ Some (ValueType.code ValueType.kTransactionApplyState).

Definition earlier (r r' : rec) : Prop := DocHybridTime.CompareTo (r_time r) (r_time r') = Lt.

Lemma rec_key_head r : rec_ok r → head (rec_key r) ≠ Some (ValueType.code ValueType.kTransactionId).
Proof.
  intros (_ & _ & Hh & _). unfold rec_key, intent_key. by destruct (r_path r).
Qed.

Lemma rec_key_inj r r' : rec_ok r → rec_ok r' → rec_key r = rec_key r' → r_time r = r_time r'.
Proof.
  intros (Hw & _) (Hw' & _) E. unfold rec_key in E.
  apply (f_equal DecodeIntentKey) in E.
  rewrite (DecodeIntentKey_key (r_time r)), (DecodeIntentKey_key (r_time r')) in E by auto using enc_ok.
  unfold types_of_byte in E. cbn in E. by injection E.
Qed.

Lemma keys_distinct id r r' :
  rec_ok r → rec_ok r' →
  rec_key r ≠ rev_key id r' ∧ (earlier r r' → rec_key r ≠ rec_key r' ∧ rev_key id r ≠ rev_key id r').
Proof.
  intros H H'. split.
  - intros E. apply (rec_key_head r H). by rewrite E.
  - intros He. assert (bytes_compare (rev_key id r) (rev_key id r') = Lt) as Hlt
      by (apply rev_key_lt; [apply H|apply H'|done]).
    split; intros E; [|rewrite E in Hlt; by apply bytes_compare_lt_irrefl in Hlt].
    apply rec_key_inj in E; [|done..]. unfold earlier in He. rewrite E in He.
    rewrite DocHybridTime.doc_CompareTo_eq, !Z.compare_refl in He. done.
Qed.

(** The entries of a list of records. *)
Definition entries (id : TransactionId.t) (l : list rec) (e : entry) : Prop :=
  ∃ r, r ∈ l ∧ (e = rec_entry r ∨ e = rev_entry id r).
Definition unrelated (id : TransactionId.t) (l : list rec) (e : entry) : Prop :=
  ∀ r, r ∈ l → e.1 ≠ rec_key r ∧ e.1 ≠ rev_key id r.

Lemma records_written id l d :
  sorted d → Forall rec_ok l → StronglySorted earlier l →
  let d' := apply_ops d (flat_map (rec_puts id) l) in
  sorted d' ∧ ∀ e, e ∈ d' ↔ entries id l e ∨ (e ∈ d ∧ unrelated id l e).
Proof.
  intros Hd Hl Ha. cbv zeta. revert d Hd Hl. induction Ha as [|r l Ha IH Hr]; intros d Hd Hl.
  { split; [done|]. intros e. split.
    - intros He. right. split; [done|]. by intros r ?%not_elem_of_nil.
    - intros [(r & []%not_elem_of_nil & _)|[He _]]. done. }
  apply Forall_cons in Hl as [Hrok Hl]. cbn [flat_map rec_puts app]. unfold apply_ops. cbn [foldl apply_op].
  set (d1 := put (rec_key r) (r_value r) d).
  assert (sorted d1) as Hd1 by by apply put_sorted.
  destruct (IH (put (rev_key id r) (r_prefix r ++ rec_key r) d1)) as [Hs He]; [by apply put_sorted|done|].
  split; [done|]. intros e. unfold apply_ops in He. rewrite He.
  rewrite elem_of_put by done. unfold d1. rewrite elem_of_put by done. clear He Hs IH.
  rewrite Forall_forall in Hl, Hr. destruct (keys_distinct id r r Hrok Hrok) as [Hself _].
  split.
  - intros [(r' & Hr' & E)|[[->|[[->|[He Hk]] Hv]] Hu]].
    + left. exists r'. split; [by right|done].
    + left. exists r. split; [left|by right].
    + left. exists r. split; [left|by left].
    + right. split; [done|]. intros r' [->|Hr']%elem_of_cons; [by split|by apply Hu].
  - intros [(r' & [->|Hr']%elem_of_cons & E)|[He Hu]].
    + right. destruct E as [->| ->].
      * split; [right; split; [by left|done]|]. intros r' Hr'. simpl.
        destruct (keys_distinct id r r' Hrok (Hl _ Hr')) as [? H']. split; [|done]. by apply H', Hr.
      * split; [by left|]. intros r' Hr'. simpl.
        destruct (keys_distinct id r r' Hrok (Hl _ Hr')) as [_ H'].
        destruct (keys_distinct id r' r (Hl _ Hr') Hrok) as [H'' _]. split; [by intros E; apply H''|].
        by apply H', Hr.
    + left. by exists r'.
    + right. split; [right; split; [right; split; [done|]|]|].
      * apply (Hu r). left.
      * apply (Hu r). left.
      * intros r' Hr'. apply Hu. by right.
Qed.

(** Behind the metadata, whose key is the prefix of the transaction, exactly the
    reverse records carry the prefix, in the order of their times. *)
Lemma reverse_records id l d :
  sorted d → Forall rec_ok l → StronglySorted earlier l →
  let p := ValueType.code ValueType.kTransactionId :: id in
  (∀ e, e ∈ d → p `prefix_of` e.1 → e.1 = p) →
  filter (λ e, p `prefix_of` e.1) (apply_ops d (flat_map (rec_puts id) l)) =
  filter (λ e, p `prefix_of` e.1) d ++ (rev_entry id <$> l).
Proof.
  intros Hd Hl Ha p Hp. destruct (records_written id l d Hd Hl Ha) as [Hs He].
  apply sorted_ext.
  - by apply sorted_filter.
  - apply sorted_append; [by apply sorted_filter| |].
    + clear He Hs Hp. induction Ha as [|r l Ha IH Hr]; [constructor|].
      apply Forall_cons in Hl as [Hrok Hl]. cbn. constructor; [by apply IH|].
      apply Forall_forall. intros e (r' & -> & Hr')%list_elem_of_fmap.
      apply rev_key_lt; [apply Hrok| |].
      * eapply Forall_forall in Hl as [Hw _]; [exact Hw|done].
      * by eapply Forall_forall in Hr.
    + intros e e' [Hpe He1]%list_elem_of_filter (r & -> & _)%list_elem_of_fmap. unfold before.
      rewrite (Hp e He1 Hpe). change (rev_entry id r).1 with (p ++ InvertedDocHt (time_bytes r)).
      rewrite <- (app_nil_r p) at 1. by rewrite bytes_compare_app_same.
  - intros e. rewrite elem_of_app, !list_elem_of_filter, He, list_elem_of_fmap. split.
    + intros [Hpre [(r & Hr & [->| ->])|[Hed _]]]; [|right; by exists r|by left].
      exfalso. destruct Hpre as [x E]. apply (rec_key_head r).
      * by eapply Forall_forall in Hl.
      * simpl in E. by rewrite E.
    + intros [[Hpe Hed]|(r & -> & Hr)].
      * split; [done|]. right. split; [done|]. unfold unrelated. rewrite (Hp e Hed Hpe). intros r Hr. split; intros E.
        -- apply (rec_key_head r); [by eapply Forall_forall in Hl|]. by rewrite <- E.
        -- apply (f_equal length) in E. change (rev_key id r) with (p ++ InvertedDocHt (time_bytes r)) in E.
           unfold InvertedDocHt, time_bytes in E. rewrite length_app, length_fmap in E. cbn [length] in E. lia.
      * split; [|left; exists r; by auto].
        simpl. unfold rev_key, p. by exists (InvertedDocHt (time_bytes r)).
Qed.

End TransactionRecords.

(** ** Applying the records *)

Module TransactionApply.
Import IntentType Intent Store IntentWriter IntentRecords IntentApplier TransactionRecords.

(** Operations other than the bookkeeping of the apply state. *)
Definition is_data (o : op) : Prop :=
  match o with
  | Put k _ => head k ≠ Some (ValueType.code ValueType.kTransactionApplyState)
  | SingleDelete _ => True
  end.

#[export] Instance is_data_dec o : Decision (is_data o).
Proof. destruct o; apply _. Defined.

Section Apply.
Context (SerializeToString : bytes → Z → Z → bytes).
Context (id : TransactionId.t) (commit_ht : Z).
Context (Hid : TransactionId.wf id) (Hcommit : is_u64 commit_ht).

(** The write id and the data of a strong intent. *)
Definition readable (r : rec) : Prop :=
  IntentTypeSet.Test (r_types r) kStrongWrite = true →
  ∃ w body, is_u32 w ∧ bytes_ok body ∧ r_value r = intent_value id w body.

Definition prefix_ok (r : rec) : Prop :=
  r_prefix r = [] ∨
  ∃ s, OneWayBitmap.inv s ∧ OneWayBitmap.fits s ∧
    r_prefix r = ValueType.code ValueType.kBitSet :: OneWayBitmap.EncodeTo s [].

(** What an intent contributes to the regular database, and the write id
    after it. *)
Definition applied (r : rec) : list op :=
  if IntentTypeSet.Test (r_types r) kStrongWrite then
    match DecodeIntentValue (r_value r) id with
    | Ok (w, body) =>
        if bool_decide (head body = Some (ValueType.code ValueType.kRowLock)) then []
        else [Put (r_path r ++ ValueType.code ValueType.kHybridTime ::
                   enc (DocHybridTime.mk commit_ht w)) (time_bytes r ++ body)]
    | _ => []
    end
  else [].

Definition id_after (r : rec) (write_id : Z) : Z :=
  if IntentTypeSet.Test (r_types r) kStrongWrite then
    match DecodeIntentValue (r_value r) id with
    | Ok (w, body) =>
        if bool_decide (head body = Some (ValueType.code ValueType.kRowLock)) then w else u32 (w + 1)
    | _ => write_id
    end
  else write_id.

Lemma of_value_small t : IntentTypeSet.wf t → IntentTypeSet.of_value t = t.
Proof. intros. unfold IntentTypeSet.of_value. by apply Z.mod_small. Qed.

Lemma parse_rec_key r :
  rec_ok r →
  ParseIntentKey (rec_key r) = Ok (Build_ParsedIntent (r_path r) (r_types r) (time_bytes r)).
Proof.
  intros (Hw & Ht & _). unfold rec_key. rewrite (ParseIntentKey_key (r_time r)) by auto using enc_ok.
  unfold types_of_byte. cbn [Z.eqb Pos.eqb ValueType.code obind].
  by rewrite of_value_small.
Qed.

Lemma seek_no_bounds d k : BoundedRocksDbIterator.Seek KeyBounds.kNoBounds d k = seek k d.
Proof. done. Qed.

Lemma request_record d r write_id :
  sorted d → rec_entry r ∈ d → rec_ok r → readable r →
  IntentToWriteRequest id commit_ht (rec_key r) KeyBounds.kNoBounds d write_id =
  Ok (applied r, id_after r write_id).
Proof.
  intros Hd He Hr Hread. apply list_elem_of_split in He as (l1 & l2 & ->).
  unfold IntentToWriteRequest. rewrite seek_no_bounds. unfold rec_entry in *.
  rewrite seek_split by done. cbn [BoundedRocksDbIterator.Valid].
  change (KeyBounds.IsWithinBounds KeyBounds.kNoBounds _) with true.
  rewrite bool_decide_true by done. cbn [negb orb]. rewrite parse_rec_key by done.
  cbn [obind types doc_path parsed_doc_ht]. unfold applied, id_after.
  destruct (IntentTypeSet.Test (r_types r) kStrongWrite) eqn:Ht; [|done].
  destruct (Hread Ht) as (w & body & Hw & Hb & ->).
  rewrite DecodeIntentValue_value by done. cbn [obind].
  case_bool_decide; [done|]. unfold EncodeWithValueType.
  rewrite enc_ok by (by split). done.
Qed.

Lemma strip_prefix r :
  rec_ok r → prefix_ok r → strip_bitset (r_prefix r ++ rec_key r) = Ok (rec_key r).
Proof.
  intros (_ & _ & _ & Hh & _) [->|(s & Hi & Hf & ->)]; unfold strip_bitset.
  - rewrite bool_decide_false; [done|]. unfold rec_key, intent_key. by destruct (r_path r).
  - rewrite bool_decide_true by done.
    change (OneWayBitmap.Skip (OneWayBitmap.EncodeTo s [] ++ rec_key r) = Ok (rec_key r)).
    by apply OneWayBitmap.Decode_encoded.
Qed.

Lemma key_prefix_eq : key_prefix id = ValueType.code ValueType.kTransactionId :: id.
Proof. done. Qed.

Lemma upper_bound_eq :
  txn_reverse_index_prefix id = (ValueType.code ValueType.kTransactionId :: id) ++ [255].
Proof. done. Qed.

Lemma rev_key_long r :
  DocHybridTime.wf (r_time r) →
  (length (txn_reverse_index_prefix id) < length (rev_key id r))%nat.
Proof.
  intros Hw. rewrite upper_bound_eq. unfold rev_key, InvertedDocHt, time_bytes.
  rewrite length_app, !length_cons, length_app, length_fmap, length_cons.
  destruct (DocHybridTime.encoded_form _ Hw) as (s & _ & _ & E & Hs & Hlen & _).
  unfold enc. rewrite E. cbn [length]. lia.
Qed.

(** *** The loop on the reverse index of a transaction *)

Context (D : db) (HD : sorted D) (max_records : Z).

Abbreviation loop limit it write_id batch :=
  (apply_loop SerializeToString id commit_ht true false (Some KeyBounds.kNoBounds) D max_records
     limit it write_id batch).

Definition good (r : rec) : Prop :=
  rec_ok r ∧ readable r ∧ prefix_ok r ∧ rec_entry r ∈ D.

(** The records handled before the limit is reached, the rest, the write id. *)
Fixpoint chunk (limit : Z) (l : list rec) (write_id : Z) : list rec * list rec * Z :=
  match l with
  | [] => ([], [], write_id)
  | r :: l' =>
      if limit <=? write_id then ([], l, write_id)
      else let '(a, b, w) := chunk limit l' (id_after r write_id) in (r :: a, b, w)
  end.

(** The record that remembers where to continue. *)
Definition state_ops (r : rec) (w : Z) : list op :=
  [Put ([ValueType.code ValueType.kTransactionApplyState] ++ id ++
        [ValueType.code ValueType.kGroupEnd; ValueType.code ValueType.kHybridTime] ++
        enc (DocHybridTime.mk commit_ht w))
     (ValueType.code ValueType.kString :: SerializeToString (rev_key id r) w commit_ht)].

Lemma id_after_u32 r w : readable r → is_u32 w → is_u32 (id_after r w).
Proof.
  intros Hr Hw. unfold id_after. destruct (IntentTypeSet.Test _ _) eqn:E; [|done].
  destruct (Hr E) as (w' & body & Hw' & Hb & ->). rewrite DecodeIntentValue_value by done.
  case_bool_decide; [done|]. unfold is_u32, u32. apply Z.mod_pos_bound. lia.
Qed.

Lemma rev_key_ok r : bytes_ok (rev_key id r).
Proof.
  unfold rev_key. constructor; [vm_compute; done|]. apply Forall_app_2; [apply Hid|].
  unfold InvertedDocHt. apply Forall_fmap, Forall_true. intros. apply u8_range.
Qed.

Lemma key_prefix_ok : bytes_ok (key_prefix id).
Proof. rewrite key_prefix_eq. constructor; [vm_compute; done|apply Hid]. Qed.

Lemma mine r : Slice.starts_with (rev_key id r) (key_prefix id) = Ok true.
Proof.
  rewrite Slice.starts_with_eq by auto using rev_key_ok, key_prefix_ok. f_equal.
  apply bool_decide_eq_true. rewrite key_prefix_eq. unfold rev_key.
  by exists (InvertedDocHt (time_bytes r)).
Qed.

Lemma loop_record limit r l C w batch :
  good r → is_u32 w →
  loop limit ((rev_entry id <$> r :: l) ++ C) w batch =
  if limit <=? w then Ok (Some (mk_state (rev_key id r) w), w, batch ++ state_ops r w)
  else loop limit ((rev_entry id <$> l) ++ C) (id_after r w) (batch ++ applied r).
Proof.
  intros (Hok & Hread & Hpre & He) Hw. cbn [fmap list_fmap app apply_loop]. unfold rev_entry at 1.
  rewrite mine. cbn [obind negb]. unfold apply_record.
  rewrite decide_True by (apply rev_key_long; apply Hok).
  rewrite strip_prefix by done. cbn [obind andb].
  change (KeyBounds.IsWithinBounds KeyBounds.kNoBounds _) with true.
  destruct (limit <=? w).
  - unfold StoreApplyState, PutApplyState. rewrite enc_ok by (by split). done.
  - change (default KeyBounds.kNoBounds (Some KeyBounds.kNoBounds)) with KeyBounds.kNoBounds. rewrite request_record by done. done.
Qed.

Lemma loop_chunk limit l C w batch :
  Forall good l → is_u32 w →
  (match C with [] => True | e :: _ => bytes_ok e.1 ∧ ¬ key_prefix id `prefix_of` e.1 end) →
  loop limit ((rev_entry id <$> l) ++ C) w batch =
  let '(a, b, w') := chunk limit l w in
  match b with
  | [] => Ok (None, w', batch ++ flat_map applied a)
  | r :: _ => Ok (Some (mk_state (rev_key id r) w'), w', batch ++ flat_map applied a ++ state_ops r w')
  end.
Proof.
  intros Hl Hw HC. revert w batch Hw. induction Hl as [|r l Hr Hl IH]; intros w batch Hw.
  - cbn [fmap list_fmap app chunk flat_map]. rewrite app_nil_r. destruct C as [|[k v] C]; [done|].
    destruct HC as [Hk Hp]. cbn [apply_loop]. simpl in Hk, Hp.
    rewrite Slice.starts_with_eq by auto using key_prefix_ok.
    rewrite bool_decide_false by done. done.
  - rewrite loop_record by done. cbn [chunk]. destruct (limit <=? w); [done|].
    rewrite IH by (apply id_after_u32; [apply Hr|done]).
    destruct (chunk limit l (id_after r w)) as [[a b] w']. cbn [flat_map].
    destruct b; by rewrite <- ?app_assoc.
Qed.

(** The metadata of the transaction is passed over. *)
Lemma loop_meta limit meta it w batch :
  Forall (λ e, e.1 = key_prefix id) meta → loop limit (meta ++ it) w batch = loop limit it w batch.
Proof.
  induction 1 as [|[k v] meta Hk _ IH]; [done|]. cbn [app apply_loop]. simpl in Hk. subst k.
  rewrite Slice.starts_with_eq by auto using key_prefix_ok. rewrite bool_decide_true by done. cbn [obind negb].
  unfold apply_record. rewrite decide_False by (rewrite upper_bound_eq, key_prefix_eq, length_app; cbn [length]; lia).
  cbn [obind]. apply IH.
Qed.

(** *** Calling until nothing is left *)

Context (l : list rec) (Hl : Forall good l).
Context (meta : db) (Hmeta : Forall (λ e, e.1 = key_prefix id) meta).
Context (Hrev : filter (λ e, key_prefix id `prefix_of` e.1) D = meta ++ (rev_entry id <$> l)).
Context (HDok : Forall (λ e, bytes_ok e.1) D) (Hmax : 0 < max_records).

Abbreviation prepare state :=
  (PrepareApplyIntentsBatch SerializeToString id commit_ht true false (Some KeyBounds.kNoBounds) D
     max_records state []).

(** The owner of the batch calls again with the returned state. *)
Fixpoint apply_until_done (fuel : nat) (state : option ApplyTransactionState) (acc : list op)
    : option (outcome (list op)) :=
  match fuel with
  | O => None
  | S fuel =>
      match prepare state with
      | Ok (None, ops) => Some (Ok (acc ++ ops))
      | Ok (Some s, ops) => apply_until_done fuel (Some s) (acc ++ ops)
      | Err c => Some (Err c)
      | Fatal => Some Fatal
      | UB => Some UB
      end
  end.

Lemma rev_below_upper r : bytes_compare (rev_key id r) (txn_reverse_index_prefix id) = Lt.
Proof.
  rewrite upper_bound_eq. unfold rev_key. rewrite app_comm_cons, bytes_compare_app_same.
  unfold InvertedDocHt, time_bytes. cbn [fmap list_fmap bytes_compare].
  by change (u8 (Z.lnot (ValueType.code ValueType.kHybridTime)) ?= 255) with Lt.
Qed.

Lemma prefix_below_upper : bytes_compare (key_prefix id) (txn_reverse_index_prefix id) = Lt.
Proof.
  rewrite upper_bound_eq, key_prefix_eq. rewrite <- (app_nil_r (_ :: id)) at 1. by rewrite bytes_compare_app_same.
Qed.

Lemma reverse_index_shape :
  ∃ A C, reverse_index id D = A ++ meta ++ (rev_entry id <$> l) ++ C ∧
    sorted (reverse_index id D) ∧
    seek (key_prefix id) (reverse_index id D) = meta ++ (rev_entry id <$> l) ++ C ∧
    match C with [] => True | e :: _ => bytes_ok e.1 ∧ ¬ key_prefix id `prefix_of` e.1 end.
Proof.
  assert (sorted (reverse_index id D)) as Hs by by apply sorted_filter.
  destruct (seek_prefix (key_prefix id) _ Hs) as (C & E & HC).
  destruct (seek_suffix (key_prefix id) (reverse_index id D)) as [A EA].
  assert (filter (λ e, key_prefix id `prefix_of` e.1) (reverse_index id D) = meta ++ (rev_entry id <$> l)) as Ef.
  { apply sorted_ext; [by apply sorted_filter|rewrite <- Hrev; by apply sorted_filter|].
    intros e. rewrite <- Hrev. unfold reverse_index. rewrite !list_elem_of_filter. split; [tauto|].
    intros [Hp He]. split_and!; [done| |done].
    assert (e ∈ meta ++ (rev_entry id <$> l)) as [Hm|(r & -> & _)%list_elem_of_fmap]%elem_of_app
      by (rewrite <- Hrev; by apply list_elem_of_filter); [|apply rev_below_upper].
    eapply Forall_forall in Hm; [|exact Hmeta]. rewrite Hm. apply prefix_below_upper. }
  exists A, C. rewrite !(app_assoc meta), <- Ef, <- E. split_and!; [done..|].
  destruct C as [|e C]; [done|]. split; [|apply HC; left].
  assert (e ∈ reverse_index id D) as He.
  { rewrite EA, E. apply elem_of_app. right. apply elem_of_app. right. left. }
  apply list_elem_of_filter in He as [_ He]. by eapply Forall_forall in HDok.
Qed.

Lemma chunk_spec limit m w :
  Forall good m → is_u32 w →
  let '(a, b, w') := chunk limit m w in
  m = a ++ b ∧ is_u32 w' ∧ (w < limit → m ≠ [] → a ≠ []).
Proof.
  intros Hm. revert w. induction Hm as [|r m Hr Hm IH]; intros w Hw; cbn [chunk]; [done|].
  destruct (Z.leb_spec limit w); [split_and!; [done..|lia]|].
  specialize (IH (id_after r w)). destruct (chunk _ _ _) as [[a b] w'].
  destruct IH as (-> & Hw' & _); [apply id_after_u32; [apply Hr|done]|]. done.
Qed.

Lemma applied_data m : Forall good m → filter is_data (flat_map applied m) = flat_map applied m.
Proof.
  intros Hm. apply filter_all. intros o Ho. induction Hm as [|r m Hr Hm IH]; [by apply not_elem_of_nil in Ho|].
  cbn [flat_map] in Ho. apply elem_of_app in Ho as [Ho|]; [|by apply IH].
  unfold applied in Ho. destruct (IntentTypeSet.Test _ _); [|by apply not_elem_of_nil in Ho].
  destruct (DecodeIntentValue _ _) as [[w body]| | |]; try by apply not_elem_of_nil in Ho.
  case_bool_decide; [by apply not_elem_of_nil in Ho|].
  apply list_elem_of_singleton in Ho as ->. destruct Hr as [(_ & _ & _ & _ & Hh) _].
  simpl. by destruct (r_path r).
Qed.

(** The state from which the suffix [m] of the records is left. *)
Definition from_state (state : option ApplyTransactionState) (m : list rec) (w : Z) : Prop :=
  (state = None ∧ m = l ∧ w = 0) ∨
  (∃ r m' l1, state = Some (mk_state (rev_key id r) w) ∧ m = r :: m' ∧ l = l1 ++ m).

Lemma prepare_chunk state m w :
  from_state state m w → is_u32 w →
  let '(a, b, w') := chunk (w + max_records) m w in
  ∃ extra, Forall (λ o, ¬ is_data o) extra ∧
    prepare state = Ok (match b with [] => None | r :: _ => Some (mk_state (rev_key id r) w') end,
                        flat_map applied a ++ extra).
Proof.
  intros Hst Hw. destruct reverse_index_shape as (A & C & EA & Hs & Ep & HC).
  assert (Forall good m) as Hm.
  { destruct Hst as [(_ & -> & _)|(r & m' & l1 & _ & _ & El)]; [done|].
    rewrite El in Hl. by apply Forall_app in Hl as [_ ?]. }
  assert (match state with
          | None => seek (key_prefix id) (reverse_index id D)
          | Some s => seek (key s) (reverse_index id D)
          end = (if state is Some _ then [] else meta) ++ (rev_entry id <$> m) ++ C) as Estart.
  { destruct Hst as [(-> & -> & _)|(r & m' & l1 & -> & -> & El)]; [done|]. cbn [key app].
    rewrite El, fmap_app, <- app_assoc, !app_assoc in EA. rewrite <- app_assoc in EA. cbn [fmap list_fmap app] in EA.
    rewrite EA in Hs |- *. unfold rev_entry at 2 in Hs. unfold rev_entry at 2.
    by apply seek_split. }
  assert (match state with None => 0 | Some s => write_id s end = w) as Ew.
  { destruct Hst as [(-> & _ & ->)|(? & ? & ? & -> & _)]; done. }
  pose proof (chunk_spec (w + max_records) m w Hm Hw) as Hc.
  unfold PrepareApplyIntentsBatch. cbn [negb Z.add Z.eqb Pos.eqb andb].
  rewrite bool_decide_false by done. rewrite Estart, Ew, loop_meta by (by destruct state). rewrite loop_chunk by done.
  destruct (chunk _ _ _) as [[a b] w']. destruct Hc as (_ & Hw' & _).
  destruct b as [|r b]; cbn [obind app].
  - case_bool_decide; cbn [negb andb]; [by exists []; rewrite app_nil_r|].
    unfold PutApplyState. rewrite enc_ok by (by split). cbn [obind]. eexists [_]. split; [|done].
    apply Forall_singleton. intros Hd. by apply Hd.
  - exists (state_ops r w'). split; [|done]. apply Forall_singleton. intros Hd. by apply Hd.
Qed.

Lemma apply_all_spec fuel state m w acc :
  from_state state m w → is_u32 w → (length m < fuel)%nat →
  ∃ ops, apply_until_done fuel state acc = Some (Ok ops) ∧
    filter is_data ops = filter is_data acc ++ flat_map applied m.
Proof.
  revert state m w acc. induction fuel as [|fuel IH]; intros state m w acc Hst Hw Hf; [lia|].
  cbn [apply_until_done]. pose proof (prepare_chunk state m w Hst Hw) as Hp.
  assert (Forall good m) as Hm.
  { destruct Hst as [(_ & -> & _)|(r & m' & l1 & _ & _ & El)]; [done|].
    rewrite El in Hl. by apply Forall_app in Hl as [_ ?]. }
  pose proof (chunk_spec (w + max_records) m w Hm Hw) as Hc.
  destruct (chunk _ _ _) as [[a b] w']. destruct Hc as (-> & Hw' & Hne).
  apply Forall_app in Hm as [Ha Hb]. destruct Hp as (extra & Hextra & ->).
  assert (filter is_data (flat_map applied a ++ extra) = flat_map applied a) as Ed.
  { rewrite filter_app, applied_data by done. rewrite (filter_none _ extra), app_nil_r; [done|].
    by apply Forall_forall. }
  destruct b as [|r b].
  - eexists. split; [done|]. by rewrite filter_app, Ed, app_nil_r.
  - destruct (IH (Some (mk_state (rev_key id r) w')) (r :: b) w'
      (acc ++ flat_map applied a ++ extra)) as (ops & E & Eops).
    + right. destruct Hst as [(_ & <- & _)|(r' & m' & l1 & _ & _ & El)].
      * by exists r, b, a.
      * exists r, b, (l1 ++ a). by rewrite <- app_assoc.
    + done.
    + rewrite length_app in Hf. assert (a ≠ []) by (apply Hne; [lia|by destruct a]).
      destruct a; [done|]. cbn [length] in *. lia.
    + exists ops. split; [done|]. rewrite Eops, filter_app, Ed, flat_map_app. by rewrite app_assoc.
Qed.

End Apply.
End TransactionApply.

(** ** What the writer leaves behind *)

Module TransactionWrites.
Import IntentType RowMark Intent Store IntentWriter IntentRecords TransactionRecords TransactionApply.

Definition is_strong (c : IntentStrength * bytes * bytes * bool) : bool :=
  match c with (kStrong, _, _, _) => true | _ => false end.

(** The record of call [c], the strong call number [j] of the helper [h]. *)
Definition strong_record (sealing : bool) (h : helper) (j : nat)
    (c : IntentStrength * bytes * bytes * bool) : rec :=
  let '(_, value, key, last_key) := c in
  Rec key (strong_intent_types_ h)
    (DocHybridTime.mk (hybrid_time_ h) (write_id_ h + Z.of_nat j))
    (intent_value (transaction_id_ h) (intra_txn_write_id_ h + Z.of_nat j)
       (if IsValidRowMarkType (row_mark_ h) then [ValueType.code ValueType.kRowLock] else value))
    (if last_key && sealing then replicated_batches_state_ h else []).

Definition weak_record (h : helper) (j : nat) (e : bytes * IntentTypeSet.t) : rec :=
  Rec e.1 e.2 (DocHybridTime.mk (hybrid_time_ h) (write_id_ h + Z.of_nat j))
    ([ValueType.code ValueType.kTransactionId] ++ transaction_id_ h) [].

(** A weak set holds no strong type. *)
Definition weak_set (t : IntentTypeSet.t) : Prop := 0 <= t < 4.

Lemma strong_to_weak_small t : IntentTypeSet.wf t → weak_set (StrongToWeak t).
Proof.
  intros Ht. pose proof (forall_sets (λ t, (0 <=? StrongToWeak t) && (StrongToWeak t <? 4))
    ltac:(vm_compute; reflexivity) t Ht) as H. simpl in H. bool_tests. done.
Qed.

Lemma or_weak a b : weak_set a → weak_set b → weak_set (IntentTypeSet.or_ a b).
Proof.
  unfold weak_set, IntentTypeSet.or_. intros.
  assert (a = 0 ∨ a = 1 ∨ a = 2 ∨ a = 3) as Ha by lia.
  assert (b = 0 ∨ b = 1 ∨ b = 2 ∨ b = 3) as Hb by lia.
  destruct Ha as [->|[->|[->| ->]]], Hb as [->|[->|[->| ->]]]; vm_compute; done.
Qed.

Lemma weak_not_strong t : weak_set t → IntentTypeSet.Test t kStrongWrite = false.
Proof.
  unfold weak_set. intros. assert (t = 0 ∨ t = 1 ∨ t = 2 ∨ t = 3) as Ha by lia.
  by destruct Ha as [->|[->|[->| ->]]].
Qed.

Definition helper_ok (h : helper) : Prop :=
  is_u64 (hybrid_time_ h) ∧ IntentTypeSet.wf (strong_intent_types_ h) ∧
  0 <= write_id_ h ∧ 0 <= intra_txn_write_id_ h ∧ map_Forall (λ _, weak_set) (weak_intents_ h).

(** The helper after calls that added [puts], with [n] strong ones among them. *)
Definition advanced (h h' : helper) (puts : list op) (n : nat) : Prop :=
  helper_ok h' ∧ row_mark_ h' = row_mark_ h ∧ hybrid_time_ h' = hybrid_time_ h ∧
  rocksdb_write_batch_ h' = rocksdb_write_batch_ h ++ puts ∧
  transaction_id_ h' = transaction_id_ h ∧
  replicated_batches_state_ h' = replicated_batches_state_ h ∧
  strong_intent_types_ h' = strong_intent_types_ h ∧
  write_id_ h' = write_id_ h + Z.of_nat n.

Lemma u8_types t : IntentTypeSet.wf t → u8 (IntentTypeSet.ToUIntPtr t) = t.
Proof.
  unfold IntentTypeSet.wf. change kIntentTypeSetMapSize with 16. intros.
  apply u8_small. unfold is_u8. lia.
Qed.

Lemma strong_call sealing h value key last_key :
  helper_ok h → write_id_ h + 1 < 2 ^ 32 → intra_txn_write_id_ h + 1 < 2 ^ 32 →
  ∃ h', call sealing h kStrong value key last_key = Ok h' ∧
    advanced h h' (rec_puts (transaction_id_ h)
                     (strong_record sealing h 0 (kStrong, value, key, last_key))) 1 ∧
    weak_intents_ h' = weak_intents_ h ∧ intra_txn_write_id_ h' = intra_txn_write_id_ h + 1.
Proof.
  intros (Hht & Ht & Hw & Hi & Hm) Hw' Hi'. unfold call, EncodeWithValueType.
  rewrite enc_ok by (split; [done|simpl; unfold is_u32; lia]). cbn [obind].
  eexists. split; [done|]. unfold advanced, helper_ok. cbn.
  rewrite u8_types, AddIntent_puts, !u32_small by (done || (unfold is_u32; lia)).
  unfold strong_record. rewrite !Z.add_0_r.
  split_and!; try done; lia.
Qed.

Lemma weak_call sealing h value key last_key :
  helper_ok h →
  ∃ h', call sealing h kWeak value key last_key = Ok h' ∧ advanced h h' [] 0 ∧
    weak_intents_ h' = <[key := IntentTypeSet.or_ (default 0 (weak_intents_ h !! key))
                                  (StrongToWeak (strong_intent_types_ h))]> (weak_intents_ h) ∧
    intra_txn_write_id_ h' = intra_txn_write_id_ h.
Proof.
  intros (Hht & Ht & Hw & Hi & Hm). eexists. split; [done|]. unfold advanced, helper_ok. cbn.
  rewrite app_nil_r, Z.add_0_r. split_and!; try done.
  apply map_Forall_insert_2; [|done]. apply or_weak; [|by apply strong_to_weak_small].
  destruct (weak_intents_ h !! key) as [t|] eqn:E; [by apply (Hm key)|]. unfold weak_set. cbn. lia.
Qed.

(** The tags a document path may start with. *)
Definition path_ok (path : bytes) : Prop :=
  bytes_ok path ∧ head path ≠ Some (ValueType.code ValueType.kTransactionId) ∧
  head path ≠ Some (ValueType.code ValueType.kBitSet) ∧
  head path ≠ Some (ValueType.code ValueType.kTransactionApplyState).

Definition call_key (c : IntentStrength * bytes * bytes * bool) : bytes := c.1.2.

Lemma calls_ok sealing h l :
  let strong := filter is_strong l in
  let n := Z.of_nat (length strong) in
  helper_ok h → write_id_ h + n < 2 ^ 32 → intra_txn_write_id_ h + n < 2 ^ 32 →
  map_Forall (λ k _, path_ok k) (weak_intents_ h) → Forall (path_ok ∘ call_key) l →
  ∃ h', calls sealing h l = Ok h' ∧
    advanced h h' (flat_map (rec_puts (transaction_id_ h)) (imap (strong_record sealing h) strong))
      (length strong) ∧
    (size (weak_intents_ h') + length strong ≤ size (weak_intents_ h) + length l)%nat ∧
    map_Forall (λ k _, path_ok k) (weak_intents_ h') ∧
    intra_txn_write_id_ h' = intra_txn_write_id_ h + n.
Proof.
  cbv zeta. revert h. induction l as [|[[[st value] key] last_key] l IH]; intros h Hh Hw Hi Hm Hl.
  { exists h. split; [done|]. split_and!; [|done..|cbn; lia]. unfold advanced. cbn.
    rewrite app_nil_r, Z.add_0_r. done. }
  apply Forall_cons in Hl as [Hk Hl]. cbn [calls]. destruct st.
  - change (filter is_strong ((kWeak, value, key, last_key) :: l)) with (filter is_strong l) in *.
    destruct (weak_call sealing h value key last_key Hh) as (h1 & -> & Ha & Ew & Ei). cbn [obind].
    pose proof Ha as (Hh1 & Er & Et & Eb & Ed & Es & Ety & Ewr).
    destruct (IH h1) as (h2 & -> & Ha2 & Hs & Hm2 & Hi2); [done|lia|lia| |done|].
    { rewrite Ew. by apply map_Forall_insert_2. }
    exists h2. split; [done|]. split_and!; [| |done|lia].
    2:{ rewrite Ew, map_size_insert in Hs. cbn [length].
        destruct (weak_intents_ h !! key); cbn [Datatypes.id] in Hs; lia. }
    assert (∀ j c, strong_record sealing h1 j c = strong_record sealing h j c) as Erec.
    { intros j [[[? ?] ?] ?]. unfold strong_record. by rewrite Er, Et, Ed, Es, Ety, Ewr, Ei, Z.add_0_r. }
    rewrite (imap_ext _ (strong_record sealing h)) in Ha2 by done.
    unfold advanced in *. rewrite Ed, Er, Et, Es, Ety, Ewr, Eb, Z.add_0_r, app_nil_r in Ha2.
    done.
  - change (filter is_strong ((kStrong, value, key, last_key) :: l))
      with ((kStrong, value, key, last_key) :: filter is_strong l) in *. cbn [length] in *.
    destruct (strong_call sealing h value key last_key Hh) as (h1 & -> & Ha & Ew & Ei); [lia..|].
    cbn [obind]. pose proof Ha as (Hh1 & Er & Et & Eb & Ed & Es & Ety & Ewr).
    destruct (IH h1) as (h2 & -> & Ha2 & Hs & Hm2 & Hi2); [done|lia|lia|by rewrite Ew|done|].
    exists h2. split; [done|]. split_and!; [|rewrite Ew in Hs; lia|done|lia].
    rewrite imap_cons. cbn [flat_map].
    assert (∀ j c, strong_record sealing h1 j c = (strong_record sealing h ∘ S) j c) as Erec.
    { intros j [[[? ?] ?] ?]. unfold strong_record, compose. rewrite Er, Et, Ed, Es, Ety, Ewr, Ei.
      replace (write_id_ h + Z.of_nat 1 + Z.of_nat j) with (write_id_ h + Z.of_nat (S j)) by lia.
      by replace (intra_txn_write_id_ h + 1 + Z.of_nat j)
        with (intra_txn_write_id_ h + Z.of_nat (S j)) by lia. }
    rewrite (imap_ext _ (strong_record sealing h ∘ S)) in Ha2 by done.
    unfold advanced in *. rewrite Ed, Er, Et, Es, Ety, Ewr, Eb, <- app_assoc in Ha2.
    destruct Ha2 as (? & ? & ? & ? & ? & ? & ? & Hwr). split_and!; try done. lia.
Qed.

Lemma add_weak_ok h order :
  helper_ok h → write_id_ h + Z.of_nat (length order) < 2 ^ 32 →
  Forall (λ e, weak_set e.2) order →
  ∃ h', add_weak_intents h order = Ok h' ∧
    rocksdb_write_batch_ h' = rocksdb_write_batch_ h ++
      flat_map (rec_puts (transaction_id_ h)) (imap (weak_record h) order) ∧
    intra_txn_write_id_ h' = intra_txn_write_id_ h.
Proof.
  revert h. induction order as [|[key t] order IH]; intros h Hh Hw Ho.
  { exists h. split; [done|]. cbn. by rewrite app_nil_r. }
  apply Forall_cons in Ho as [Ht Ho]. cbn [length] in Hw. simpl in Ht.
  cbn [add_weak_intents]. unfold AddWeakIntent, EncodeWithValueType. destruct Hh as (Hht & Hty & Hw0 & Hi & Hm).
  rewrite enc_ok by (split; [done|simpl; unfold is_u32; lia]). cbn [obind fst snd].
  rewrite u8_types, AddIntent_puts, u32_small by
    ((unfold IntentTypeSet.wf, weak_set in *; change kIntentTypeSetMapSize with 16; lia) || (unfold is_u32; lia)).
  set (h1 := Helper _ _ _ _ _ _ _ _ _).
  destruct (IH h1) as (h' & -> & E & Ei); [split_and!; cbn; try done; lia|cbn; lia|done|].
  exists h'. split; [done|]. split; [|done]. rewrite E. cbn [rocksdb_write_batch_ transaction_id_ h1].
  rewrite imap_cons. cbn [flat_map]. rewrite <- !app_assoc. do 2 f_equal.
  - unfold weak_record. cbn. by rewrite Z.add_0_r.
  - f_equal. apply imap_ext. intros j e _. unfold weak_record, h1, compose.
    cbn [hybrid_time_ write_id_ transaction_id_].
    by replace (write_id_ h + 1 + Z.of_nat j) with (write_id_ h + Z.of_nat (S j)) by lia.
Qed.

(** *** Times ascend in the order of the records *)

Definition times_from (ht i : Z) (l : list rec) : Prop :=
  ∀ j r, l !! j = Some r → r_time r = DocHybridTime.mk ht (i + Z.of_nat j).

Lemma times_ascend ht i l : times_from ht i l → StronglySorted earlier l.
Proof.
  revert i. induction l as [|r l IH]; intros i Ht; constructor.
  - apply (IH (i + 1)). intros j r' Hj. rewrite (Ht (S j) r' Hj). f_equal. lia.
  - apply Forall_lookup. intros j r' Hj. unfold earlier.
    rewrite (Ht 0%nat r eq_refl), (Ht (S j) r' Hj), DocHybridTime.doc_CompareTo_eq. cbn.
    rewrite Z.compare_refl. apply Z.compare_lt_iff. lia.
Qed.

Lemma times_app ht i l1 l2 :
  times_from ht i l1 → times_from ht (i + Z.of_nat (length l1)) l2 → times_from ht i (l1 ++ l2).
Proof.
  intros H1 H2 j r [Hj|[Hlen Hj]]%lookup_app_Some; [by apply H1|].
  rewrite (H2 _ _ Hj). f_equal. lia.
Qed.

Lemma times_imap {A} (f : nat → A → rec) ht i (l : list A) :
  (∀ j x, r_time (f j x) = DocHybridTime.mk ht (i + Z.of_nat j)) → times_from ht i (imap f l).
Proof. intros Hf j r. rewrite list_lookup_imap. intros (x & _ & ->)%fmap_Some. apply Hf. Qed.

(** *** Composition *)

(** A write: its key is a document path, its value is not a row lock. *)
Definition call_ok (c : IntentStrength * bytes * bytes * bool) : Prop :=
  path_ok (call_key c) ∧ bytes_ok c.1.1.2 ∧
  head c.1.1.2 ≠ Some (ValueType.code ValueType.kRowLock).

(** What write number [j] of the batch becomes in the regular database. *)
Definition regular_put (ht commit_ht w0 : Z) (j : nat) (c : IntentStrength * bytes * bytes * bool)
    : op :=
  Put (call_key c ++ ValueType.code ValueType.kHybridTime ::
         enc (DocHybridTime.mk commit_ht (w0 + Z.of_nat j)))
      ((ValueType.code ValueType.kHybridTime :: enc (DocHybridTime.mk ht (Z.of_nat j))) ++ c.1.1.2).

Definition state_ok (state : bytes) : Prop :=
  state = [] ∨ ∃ s, OneWayBitmap.inv s ∧ OneWayBitmap.fits s ∧
    state = ValueType.code ValueType.kBitSet :: OneWayBitmap.EncodeTo s [].

Lemma level_types level :
  level ≠ NON_TRANSACTIONAL →
  let t := GetStrongIntentTypeSet level kWrite ROW_MARK_ABSENT in
  IntentTypeSet.wf t ∧ IntentTypeSet.Test t kStrongWrite = true.
Proof. destruct level; [done|..]; by vm_compute. Qed.

Section Written.
Context (sealing : bool) (h : helper) (pairs : list (IntentStrength * bytes * bytes * bool)).
Context (Hrow : row_mark_ h = ROW_MARK_ABSENT).
Context (Htypes : IntentTypeSet.Test (strong_intent_types_ h) kStrongWrite = true).
Context (Hh : helper_ok h) (Hid : TransactionId.wf (transaction_id_ h)).
Context (Hstate : state_ok (replicated_batches_state_ h)).
Context (Hpairs : Forall call_ok pairs).

Lemma strong_record_good j c :
  call_ok c → is_u32 (write_id_ h + Z.of_nat j) → is_u32 (intra_txn_write_id_ h + Z.of_nat j) →
  let r := strong_record sealing h j c in
  rec_ok r ∧ readable (transaction_id_ h) r ∧ prefix_ok r ∧ bytes_ok (r_path r).
Proof.
  destruct c as [[[st value] key] last_key]. intros ((Hk & Hp) & Hv & _) Hw Hi.
  destruct Hh as (Hht & Ht & _). cbn in *. split_and!; [split_and!|..]; cbn; try done; try apply Hp.
  - intros _. rewrite Hrow. cbn. by eexists _, _.
  - unfold prefix_ok. cbn. destruct (last_key && sealing); [|by left].
    destruct Hstate as [->|?]; [by left|by right].
Qed.

Lemma strong_record_applied commit_ht j c :
  call_ok c → is_u32 (intra_txn_write_id_ h + Z.of_nat j) → write_id_ h = 0 →
  applied (transaction_id_ h) commit_ht (strong_record sealing h j c) =
  [regular_put (hybrid_time_ h) commit_ht (intra_txn_write_id_ h) j c].
Proof.
  destruct c as [[[st value] key] last_key]. intros (Hk & Hv & Hrl) Hi Hw0. cbn in Hv, Hrl.
  unfold applied, strong_record. cbn [r_types r_value r_path]. rewrite Htypes, Hrow.
  change (IsValidRowMarkType ROW_MARK_ABSENT) with false. cbv iota.
  rewrite DecodeIntentValue_value by done. rewrite bool_decide_false by done.
  unfold regular_put, time_bytes, call_key. cbn [r_time fst snd]. by rewrite Hw0.
Qed.

Lemma weak_record_good j e :
  path_ok e.1 → weak_set e.2 → is_u32 (write_id_ h + Z.of_nat j) →
  let r := weak_record h j e in
  rec_ok r ∧ readable (transaction_id_ h) r ∧ prefix_ok r ∧ bytes_ok (r_path r) ∧
  ∀ commit_ht, applied (transaction_id_ h) commit_ht r = [].
Proof.
  intros (Hk & Hp) Ht Hw. destruct Hh as (Hht & _). pose proof (weak_not_strong e.2 Ht) as Hns.
  cbn. split_and!; [split_and!|..]; cbn; try done; try apply Hp.
  - unfold IntentTypeSet.wf, weak_set in *. change kIntentTypeSetMapSize with 16. lia.
  - intros Ht'. by cbn in Ht'; rewrite Hns in Ht'.
  - by left.
  - intros. unfold applied. cbn. by rewrite Hns.
Qed.

End Written.

Lemma in_imap {A B} (f : nat → A → B) (l : list A) y :
  y ∈ imap f l → ∃ j x, (j < length l)%nat ∧ x ∈ l ∧ y = f j x.
Proof.
  intros (j & Hj)%list_elem_of_lookup. rewrite list_lookup_imap in Hj.
  apply fmap_Some in Hj as (x & Hx & ->). exists j, x.
  split_and!; [by eapply lookup_lt_Some|by eapply list_elem_of_lookup_2|done].
Qed.

Lemma flat_map_imap {A} (f : nat → A → rec) (g : rec → list op) (k : nat → A → op) (l : list A) :
  (∀ j x, l !! j = Some x → g (f j x) = [k j x]) → flat_map g (imap f l) = imap k l.
Proof.
  revert f k. induction l as [|x l IH]; intros f k Hf; [done|]. rewrite !imap_cons. cbn [flat_map].
  rewrite (Hf 0%nat x eq_refl). cbn [app]. f_equal. apply IH. intros j y Hy. by apply (Hf (S j)).
Qed.

Lemma flat_map_none {A B} (f : A → list B) (l : list A) :
  (∀ x, x ∈ l → f x = []) → flat_map f l = [].
Proof.
  induction l as [|x l IH]; intros Hf; [done|]. cbn [flat_map]. rewrite Hf by left.
  apply IH. intros y Hy. apply Hf. by right.
Qed.

(** A record as the writer makes it. *)
Definition written (id : TransactionId.t) (r : rec) : Prop :=
  rec_ok r ∧ readable id r ∧ prefix_ok r ∧ bytes_ok (r_path r).

Lemma written_records sealing ht id level state w0 pairs order :
  TransactionId.wf id → is_u64 ht → level ≠ NON_TRANSACTIONAL → state_ok state →
  pairs ≠ [] → Forall call_ok pairs → (∀ m, order m ≡ₚ map_to_list m) →
  0 <= w0 → w0 + Z.of_nat (length pairs) < 2 ^ 32 →
  ∃ h L, PrepareTransactionWriteBatch sealing ht id level None state w0 pairs [] order = Ok h ∧
    rocksdb_write_batch_ h = flat_map (rec_puts id) L ∧ Forall (written id) L ∧
    times_from ht 0 L ∧ (length L ≤ length pairs)%nat ∧
    intra_txn_write_id_ h = w0 + Z.of_nat (length (filter is_strong pairs)) ∧
    ∀ commit_ht, flat_map (applied id commit_ht) L =
      imap (regular_put ht commit_ht w0) (filter is_strong pairs).
Proof.
  intros Hid Hht Hlevel Hstate Hne Hpairs Hord Hw0 Hlen.
  destruct (level_types level Hlevel) as [Hwf Hsw].
  set (h0 := Setup (Helper ROW_MARK_ABSENT ht [] id state 0 ∅ 0 w0) level kWrite ROW_MARK_ABSENT).
  set (strong := filter is_strong pairs) in *.
  assert (length strong ≤ length pairs)%nat as Hsl by apply length_filter.
  assert (helper_ok h0) as Hh0 by (split_and!; try done; apply map_Forall_empty).
  destruct (calls_ok sealing h0 pairs) as (h1 & E1 & Ha & Hsize & Hpath & Ei);
    [done|cbn; fold strong; lia|cbn; fold strong; lia|apply map_Forall_empty| |].
  { eapply Forall_impl; [exact Hpairs|]. by intros c [Hc _]. }
  fold strong in Ha, Hsize, Ei. destruct Ha as (Hh1 & _ & Et & Eb & Ed & _ & _ & Ew).
  cbn in Et, Eb, Ed, Ew, Hsize. rewrite map_size_empty in Hsize.
  pose proof Hh1 as (_ & _ & _ & _ & Hweak).
  assert (∀ e, e ∈ order (weak_intents_ h1) → path_ok e.1 ∧ weak_set e.2) as Hord1.
  { intros [k t] He. rewrite Hord in He. apply elem_of_map_to_list in He.
    split; [by apply (Hpath k t)|by apply (Hweak k t)]. }
  assert (length (order (weak_intents_ h1)) = size (weak_intents_ h1)) as Hlo.
  { rewrite Hord. apply length_map_to_list. }
  destruct (add_weak_ok h1 (order (weak_intents_ h1))) as (h2 & E2 & Eb2 & Ei2); [done|lia| |].
  { apply Forall_forall. intros e He. by apply Hord1. }
  exists h2, (imap (strong_record sealing h0) strong ++ imap (weak_record h1) (order (weak_intents_ h1))).
  split_and!.
  - unfold PrepareTransactionWriteBatch. rewrite bool_decide_false by done.
    change (GetRowMarkTypeFromPB None) with ROW_MARK_ABSENT. fold h0. rewrite E1. cbn [obind].
    rewrite bool_decide_true by done. cbn [obind]. exact E2.
  - by rewrite Eb2, Eb, Ed, flat_map_app.
  - apply Forall_app. split; apply Forall_forall; intros r (j & x & Hj & Hx & ->)%in_imap.
    + apply strong_record_good; cbn; try done; try (unfold is_u32; lia).
      apply list_elem_of_filter in Hx as [_ Hx]. by eapply Forall_forall in Hpairs.
    + destruct (Hord1 x Hx) as [Hk Ht].
      destruct (weak_record_good h1 Hh1 j x) as (? & ? & ? & ? & _); [done..|rewrite Ew; unfold is_u32; lia|].
      rewrite Ed in *. done.
  - apply times_app.
    + apply times_imap. by intros j [[[? ?] ?] ?].
    + rewrite length_imap. apply times_imap. intros j e. unfold weak_record. cbn. by rewrite Et, Ew.
  - rewrite length_app, !length_imap. lia.
  - by rewrite Ei2, Ei.
  - intros commit_ht. rewrite flat_map_app, (flat_map_none _ (imap (weak_record h1) _)), app_nil_r.
    + apply flat_map_imap. intros j c Hc. pose proof (lookup_lt_Some _ _ _ Hc).
      apply list_elem_of_lookup_2, list_elem_of_filter in Hc as [_ Hc].
      apply (strong_record_applied sealing h0); cbn; try done; [|unfold is_u32; lia].
      by eapply Forall_forall in Hpairs.
    + intros r (j & x & Hj & Hx & ->)%in_imap. destruct (Hord1 x Hx) as [Hk Ht].
      destruct (weak_record_good h1 Hh1 j x) as (_ & _ & _ & _ & Hap); [done..|rewrite Ew; unfold is_u32; lia|].
      rewrite Ed in Hap. apply Hap.
Qed.

End TransactionWrites.

(** ** Properties *)

Module IntentsDbProperties.
Import Intent Store IntentWriter IntentApplier TransactionRecords TransactionApply TransactionWrites.

Lemma written_key_ok id r : written id r → bytes_ok (rec_key r).
Proof.
  intros ((Hw & Ht & _) & _ & _ & Hp). unfold rec_key, IntentRecords.intent_key.
  apply Forall_app_2; [done|]. apply Forall_app_2; [|by eapply DocHybridTime.encoded_ok, enc_ok].
  unfold IntentTypeSet.wf in Ht. change IntentType.kIntentTypeSetMapSize with 16 in Ht.
  apply Forall_cons_2; [vm_compute; done|]. apply Forall_cons_2; [unfold is_u8; lia|].
  by apply Forall_singleton; vm_compute.
Qed.

(** *** The batches of a transaction *)

(** One batch of writes: the time of its operation, the state of the batches that
    were replicated before, its pairs and the order of its weak intents. *)
Record batch {A} := Batch {
  b_sealing : bool; b_ht : Z; b_state : bytes; b_pairs : list A;
  b_order : gmap bytes IntentTypeSet.t → list (bytes * IntentTypeSet.t) }.
#[global] Arguments batch : clear implicits.
#[global] Arguments Batch {A}.

(** The batches of a transaction are written one after the other, each from the
    write id that the one before left ([TransactionalBatchData::next_write_id]). *)
Fixpoint write_batches {A} (prepare : batch A → Z → outcome helper) (d : db) (next_write_id : Z) (bs : list (batch A)) : outcome db :=
  match bs with
  | [] => Ok d
  | b :: bs =>
      let! h := prepare b next_write_id in
      write_batches prepare (apply_ops d (rocksdb_write_batch_ h)) (intra_txn_write_id_ h) bs
  end.

Definition prepare_batch (id : TransactionId.t) (level : IsolationLevel) (b : batch (IntentStrength * bytes * bytes * bool)) (next_write_id : Z) : outcome helper :=
  PrepareTransactionWriteBatch (b_sealing b) (b_ht b) id level None (b_state b) next_write_id (b_pairs b) [] (b_order b).

Definition batch_ok (b : batch (IntentStrength * bytes * bytes * bool)) : Prop :=
  is_u64 (b_ht b) ∧ state_ok (b_state b) ∧ b_pairs b ≠ [] ∧ Forall call_ok (b_pairs b) ∧ ∀ m, b_order b m ≡ₚ map_to_list m.

(** Operations are replicated in the order of their times. *)
Definition in_order {A} (bs : list (batch A)) : Prop := StronglySorted (λ a b, b_ht a < b_ht b) bs.

(** What the batches become in the regular database. *)
Fixpoint batch_puts (commit_ht w0 : Z) (bs : list (batch (IntentStrength * bytes * bytes * bool))) : list op :=
  match bs with
  | [] => []
  | b :: bs =>
      let strong := filter is_strong (b_pairs b) in
      imap (regular_put (b_ht b) commit_ht w0) strong ++ batch_puts commit_ht (w0 + Z.of_nat (length strong)) bs
  end.

Lemma earlier_batches l1 l2 :
  StronglySorted earlier l1 → StronglySorted earlier l2 →
  (∀ r r', r ∈ l1 → r' ∈ l2 → DocHybridTime.hybrid_time_ (r_time r) < DocHybridTime.hybrid_time_ (r_time r')) → StronglySorted earlier (l1 ++ l2).
Proof.
  induction 1 as [|r l1 Hl IH Hr]; intros H2 Hlt; [done|]. cbn [app]. constructor.
  - apply IH; [done|]. intros r1 r2 H1. apply Hlt. by right.
  - apply Forall_app_2; [done|]. apply Forall_forall. intros r' Hr'. specialize (Hlt r r' ltac:(left) Hr').
    unfold earlier. rewrite DocHybridTime.doc_CompareTo_eq. by rewrite (proj2 (Z.compare_lt_iff _ _) Hlt).
Qed.

Lemma batches_written id level bs :
  TransactionId.wf id → level ≠ NON_TRANSACTIONAL → Forall batch_ok bs → in_order bs →
  ∀ d w0, 0 <= w0 → w0 + Z.of_nat (length (flat_map b_pairs bs)) < 2 ^ 32 →
  ∃ L, write_batches (prepare_batch id level) d w0 bs = Ok (apply_ops d (flat_map (rec_puts id) L)) ∧
    Forall (written id) L ∧ StronglySorted earlier L ∧ (length L ≤ length (flat_map b_pairs bs))%nat ∧
    (∀ r, r ∈ L → ∃ b, b ∈ bs ∧ DocHybridTime.hybrid_time_ (r_time r) = b_ht b) ∧
    ∀ commit_ht, flat_map (applied id commit_ht) L = batch_puts commit_ht w0 bs.
Proof.
  intros Hid Hlevel Hbs Ho. induction Ho as [|b bs Ho IH Hb]; intros d w0 Hw0 Hn.
  { exists []. split_and!; try done; try constructor. by intros r []%not_elem_of_nil. }
  apply Forall_cons in Hbs as [(Hht & Hst & Hne & Hcalls & Hord) Hbs]. cbn [flat_map] in Hn |- *. rewrite length_app in Hn |- *.
  destruct (written_records (b_sealing b) (b_ht b) id level (b_state b) w0 (b_pairs b) (b_order b))
    as (h & L & E & Eb & HL & Ht & Hlen & Ei & Happ); [done..|lia|].
  pose proof (length_filter is_strong (b_pairs b)) as Hf.
  destruct (IH Hbs (apply_ops d (rocksdb_write_batch_ h)) (intra_txn_write_id_ h)) as (L' & E' & HL' & Hs' & Hlen' & Hr' & Happ'); [lia..|].
  assert (∀ r, r ∈ L → DocHybridTime.hybrid_time_ (r_time r) = b_ht b) as Hr by (intros r (j & Hj)%list_elem_of_lookup; by rewrite (Ht j r Hj)).
  exists (L ++ L'). split_and!.
  - cbn [write_batches]. unfold prepare_batch at 1. rewrite E. cbn [obind]. rewrite E', Eb, flat_map_app. unfold apply_ops. by rewrite foldl_app.
  - by apply Forall_app_2.
  - apply earlier_batches; [by apply (times_ascend (b_ht b) 0)|done|]. intros r r' H1 (b' & Hb' & ->)%Hr'. rewrite (Hr r H1). by eapply Forall_forall in Hb.
  - rewrite length_app. lia.
  - intros r [H1|(b' & Hb' & E1)%Hr']%elem_of_app; [exists b; split; [left|by apply Hr]|exists b'; split; [by right|done]].
  - intros commit_ht. rewrite flat_map_app, Happ, Happ', Ei. done.
Qed.

(** The records of the transaction that are there before: its metadata. *)
Definition only_metadata (id : TransactionId.t) (d : db) : Prop :=
  Forall (λ e, bytes_ok e.1 ∧ (key_prefix id `prefix_of` e.1 → e.1 = key_prefix id)) d.

(** All records that are written are applied. *)
Lemma writes_applied
    (Serialize : bytes → Z → Z → bytes) (id : TransactionId.t) (d : db) (commit_ht w0 max_records : Z) (level : IsolationLevel)
    (bs : list (batch (IntentStrength * bytes * bytes * bool))) (fuel : nat) :
  TransactionId.wf id → is_u64 commit_ht → 0 < max_records → level ≠ NON_TRANSACTIONAL →
  sorted d → only_metadata id d → Forall batch_ok bs → in_order bs →
  0 <= w0 → w0 + Z.of_nat (length (flat_map b_pairs bs)) < 2 ^ 32 → (length (flat_map b_pairs bs) < fuel)%nat →
  ∃ d' ops,
    write_batches (prepare_batch id level) d w0 bs = Ok d' ∧
    apply_until_done Serialize id commit_ht d' max_records fuel None [] = Some (Ok ops) ∧
    filter is_data ops = batch_puts commit_ht w0 bs.
Proof.
  intros Hid Hc Hmax Hlevel Hd Hmeta Hbs Ho Hw0 Hn Hfuel.
  destruct (batches_written id level bs Hid Hlevel Hbs Ho d w0 Hw0 Hn) as (L & E & HL & Hasc & HlenL & _ & Happ).
  assert (Forall rec_ok L) as Hok by (eapply Forall_impl; [exact HL|]; by intros r [? _]).
  destruct (records_written id L d Hd Hok Hasc) as [Hs He]. unfold only_metadata in Hmeta. rewrite Forall_forall in Hmeta.
  assert (∀ e, e ∈ d → key_prefix id `prefix_of` e.1 → e.1 = key_prefix id) as Hkey by (intros e ?; by apply Hmeta).
  pose proof (reverse_records id L d Hd Hok Hasc Hkey) as Hrev. set (D := apply_ops d (flat_map (rec_puts id) L)) in *.
  assert (Forall (good id D) L) as Hgood.
  { apply Forall_forall. intros r Hr. pose proof Hr as Hw. eapply Forall_forall in Hw; [|exact HL].
    destruct Hw as (? & ? & ? & _). split_and!; [done..|]. apply He. left. exists r. by auto. }
  assert (Forall (λ e, bytes_ok e.1) D) as HDok.
  { apply Forall_forall. intros e [(r & Hr & [->| ->])|[Hin _]]%He; [|by apply rev_key_ok|by apply Hmeta].
    simpl. eapply written_key_ok. by eapply Forall_forall in HL. }
  destruct (apply_all_spec Serialize id commit_ht Hid Hc D Hs max_records L Hgood (filter (λ e, key_prefix id `prefix_of` e.1) d)) with (fuel := fuel) (state := @None ApplyTransactionState) (m := L) (w := 0) (acc := @nil op) as (ops & Eops & Hops); try done; [|by left|lia|].
  - apply Forall_forall. intros e [Hp Hin]%list_elem_of_filter. by apply Hkey.
  - exists D, ops. split_and!; [done..|]. by rewrite Hops, Happ.
Qed.

(** C3: A transaction's writes reach the regular database exactly once and in
    order.  Any number of batches of writes, with ascending times, is put by
    [PrepareTransactionWriteBatch] into an intents database that holds at most the
    metadata record of the transaction; then calling [PrepareApplyIntentsBatch]
    until its state is inactive takes at most one call more than there are
    intents, whatever the batch limit.  Apart from its own apply state it produces
    one record per strong write of all batches, in the order of the writes: the
    key with the commit time and the write id, which goes on from batch to batch,
    and the value behind the time of the intent.  The metadata, weak intents, the
    state of replicated batches and the order in which the unordered map of weak
    intents is visited leave no trace. *)
Theorem committed_writes_applied
    (Serialize : bytes → Z → Z → bytes) (id : TransactionId.t) (d : db) (commit_ht w0 max_records : Z) (level : IsolationLevel)
    (bs : list (batch (IntentStrength * bytes * bytes * bool))) (fuel : nat) :
  TransactionId.wf id → is_u64 commit_ht → 0 < max_records → level ≠ NON_TRANSACTIONAL →
  sorted d → only_metadata id d → Forall batch_ok bs → in_order bs →
  0 <= w0 → w0 + Z.of_nat (length (flat_map b_pairs bs)) < 2 ^ 32 → (length (flat_map b_pairs bs) < fuel)%nat →
  ∃ d' ops,
    write_batches (prepare_batch id level) d w0 bs = Ok d' ∧
    apply_until_done Serialize id commit_ht d' max_records fuel None [] = Some (Ok ops) ∧
    filter is_data ops = batch_puts commit_ht w0 bs.
Proof. apply writes_applied. Qed.

Definition sample_id : TransactionId.t := replicate 16 7.
Definition sample_pairs : list (IntentStrength * bytes * bytes * bool) :=
  [(kWeak, [], [83; 97; 0; 0], false); (kStrong, [36; 1], [83; 97; 0; 0; 83; 98; 0; 0], false);
   (kWeak, [], [83; 97; 0; 0], false); (kStrong, [36; 2], [83; 97; 0; 0; 83; 99; 0; 0], true)].


(** Two batches behind the metadata, whose value looks like a bit set. *)
Definition sample_batches : list (batch (IntentStrength * bytes * bytes * bool)) :=
  [Batch false (2 ^ 62) [] sample_pairs map_to_list;
   Batch false (2 ^ 62 + 3) [] [(kStrong, [36; 3], [83; 100; 0; 0], true)] map_to_list].
Definition sample_meta : db := [(key_prefix sample_id, [ValueType.code ValueType.kBitSet])].

Lemma committed_writes_applied_witness :
  ∃ d' ops,
    write_batches (prepare_batch sample_id SNAPSHOT_ISOLATION) sample_meta 5 sample_batches = Ok d' ∧
    apply_until_done (λ k _ _, k) sample_id (2 ^ 62 + 9) d' 1 10 None [] = Some (Ok ops) ∧
    filter is_data ops =
    [Put ([83; 97; 0; 0; 83; 98; 0; 0] ++ 35 :: enc (DocHybridTime.mk (2 ^ 62 + 9) 5))
       ((35 :: enc (DocHybridTime.mk (2 ^ 62) 0)) ++ [36; 1]);
     Put ([83; 97; 0; 0; 83; 99; 0; 0] ++ 35 :: enc (DocHybridTime.mk (2 ^ 62 + 9) 6))
       ((35 :: enc (DocHybridTime.mk (2 ^ 62) 1)) ++ [36; 2]);
     Put ([83; 100; 0; 0] ++ 35 :: enc (DocHybridTime.mk (2 ^ 62 + 9) 7))
       ((35 :: enc (DocHybridTime.mk (2 ^ 62 + 3) 0)) ++ [36; 3])].
Proof.
  destruct (committed_writes_applied (λ k _ _, k) sample_id sample_meta (2 ^ 62 + 9) 5 1 SNAPSHOT_ISOLATION sample_batches 10)
    as (d' & ops & E1 & E2 & E3).
  - split; [reflexivity|]. apply Forall_replicate. split; done.
  - split; done.
  - done.
  - discriminate.
  - repeat constructor.
  - apply Forall_singleton. split; [|reflexivity]. vm_compute. repeat constructor; discriminate.
  - repeat (apply Forall_cons_2); [..|apply Forall_nil_2];
      (split_and!; [split; done|left; reflexivity|discriminate|repeat constructor; try discriminate; vm_compute; discriminate|intros m; reflexivity]).
  - repeat constructor.
  - done.
  - vm_compute. reflexivity.
  - cbn. lia.
  - exists d', ops. exact (conj E1 (conj E2 E3)).
Defined.

End IntentsDbProperties.
