(* ===== verification/CompactionFilter.v ===== *)
(** * The compaction filter

    Models docdb/docdb_compaction_filter.h and docdb/docdb_compaction_filter.cc:
    during a compaction every record of a RocksDB, in the order of the keys, goes
    through [Filter], which drops the history that no read at or after the
    history cutoff can see.  The filter keeps the previous key, the ends of its
    components and, for every component, the time it was last overwritten at or
    before the cutoff.  What the compaction does with a decision is the block of
    rocksdb/db/compaction_iterator.cc that calls the filter: a record that is
    discarded becomes a deletion of its key and is no longer read. *)

From S2P Require Import Prelude Slice FastVarint HybridTime DocHybridTime ValueType KvUtil VarInt Decimal Uuid InetAddress Intent PrimitiveValue PrimitiveKeys DocKey HybridClock Value IntentsDb.

Module DocDBCompactionFilter.
Import ValueType.

Inductive FilterDecision := kKeep | kDiscard.

Record HistoryRetentionDirective := {
  history_cutoff : Z;
  deleted_cols : list Z;
  table_ttl : Z;
  retain_delete_markers_in_major_compaction : bool;
}.

Record OverwriteData := mk_overwrite { doc_ht : DocHybridTime.t; expiration : Expiration.t }.

(** ** [ManualHistoryRetentionPolicy] *)

Record policy := { history_cutoff_ : Z; deleted_cols_ : list Z; table_ttl_ : Z }.
Definition new_policy : policy := {| history_cutoff_ := HybridTime.kMin; deleted_cols_ := []; table_ttl_ := Value.kMaxTtl |}.

Definition GetRetentionDirective (p : policy) : HistoryRetentionDirective :=
  {| history_cutoff := history_cutoff_ p; deleted_cols := deleted_cols_ p; table_ttl := table_ttl_ p;
     retain_delete_markers_in_major_compaction := false |}.
Definition SetHistoryCutoff (h : Z) (p : policy) : policy :=
  {| history_cutoff_ := h; deleted_cols_ := deleted_cols_ p; table_ttl_ := table_ttl_ p |}.
Definition AddDeletedColumn (col : Z) (p : policy) : policy :=
  {| history_cutoff_ := history_cutoff_ p;
     deleted_cols_ := if bool_decide (col ∈ deleted_cols_ p) then deleted_cols_ p else deleted_cols_ p ++ [col]; table_ttl_ := table_ttl_ p |}.
Definition SetTableTTLForTests (ttl : Z) (p : policy) : policy :=
  {| history_cutoff_ := history_cutoff_ p; deleted_cols_ := deleted_cols_ p; table_ttl_ := ttl |}.

(** ** The filter *)

(** The fields that change. *)
Record t := mk {
  prev_subdoc_key_ : bytes;
  sub_key_ends_ : list nat;
  overwrite_ : list OverwriteData;
  within_merge_block_ : bool;
}.

Definition init : t := mk [] [] [] false.

(** The result of a call: the decision, and the new value if it was changed. *)
Record verdict := { decision : FilterDecision; value_changed : bool; new_value : bytes }.
Definition discard : verdict := {| decision := kDiscard; value_changed := false; new_value := [] |}.
Definition keep : verdict := {| decision := kKeep; value_changed := false; new_value := [] |}.

(** [while (n > 0 && sub_key_ends_[n - 1] > same_bytes) --n]. *)
Fixpoint num_shared (ends : list nat) (same_bytes n : nat) : nat :=
  match n with
  | O => O
  | S m => if (same_bytes <? nth m ends 0)%nat then num_shared ends same_bytes m else n
  end.

Definition ht_lt (a b : DocHybridTime.t) : bool := bool_decide (DocHybridTime.CompareTo a b = Lt).
Definition ht_max (a b : DocHybridTime.t) : DocHybridTime.t := if ht_lt a b then b else a.

(** A vector resized to at least [n], filled up with [x]. *)
Definition fill {T} (l : list T) (n : nat) (x : T) : list T := l ++ replicate (n - length l) x.

Section Filter.
Context {B : BigNum} {V : UuidVersion} {A : IpAddress}.
Context (retention_ : HistoryRetentionDirective) (is_major_compaction_ : bool) (key_bounds_ : option KeyBounds.t).

Definition AssignPrevSubDocKey (st : t) (data : bytes) (same_bytes : nat) : outcome bytes :=
  match last (sub_key_ends_ st) with
  | None => UB
  | Some size =>
      if (size <? same_bytes)%nat then UB
      else Ok (take same_bytes (prev_subdoc_key_ st) ++ take (size - same_bytes) (drop same_bytes data))
  end.

(** Whether the key is in a deleted column, by the first component after the first end. *)
Definition in_deleted_column (ends : list nat) (key : bytes) : outcome bool :=
  match ends with
  | e0 :: e1 :: _ =>
      let! b := byte_at key e0 in
      if b =? as_char kColumnId then
        let! (column_id_as_int64, _) := FastDecodeSignedVarIntSlice (take (e1 - e0 - 1) (drop (e0 + 1) key)) in
        let! column_id := ColumnId.FromInt64 column_id_as_int64 in
        Ok (bool_decide (column_id ∈ deleted_cols retention_))
      else Ok false
  | _ => Ok false
  end.

(** The end of [DoFilter], for an entry at or below the cutoff whose expiration is known. *)
Definition filter_expired (st : t) (ht : DocHybridTime.t) (expiration : Expiration.t) (value : Value.t) (value_slice : bytes) :
    outcome (t * verdict) :=
  let major := is_major_compaction_ && negb (retain_delete_markers_in_major_compaction retention_) in
  let tombstone := match value_slice with b :: _ => b =? as_char kTombstone | [] => false end in
  let last_decision := if tombstone && major then kDiscard else kKeep in
  let true_ttl := DocTtl.ComputeTTL (Expiration.ttl expiration) (table_ttl retention_) in
  let! has_expired :=
    DocTtl.HasExpiredTTL (if true_ttl =? Expiration.ttl expiration then Expiration.write_ht expiration else DocHybridTime.hybrid_time_ ht)
      true_ttl (history_cutoff retention_) in
  if has_expired then
    if major then Ok (st, discard)
    else
      let! new_value := Value.EncodedTombstone in
      Ok (st, {| decision := last_decision; value_changed := true; new_value := new_value |})
  else if within_merge_block_ st then
    let! (expiration, overwrite) :=
      if negb (Expiration.ttl expiration =? Value.kMaxTtl) then
        match last (overwrite_ st) with
        | None => UB
        | Some top =>
            let! delta := MonoDelta.FromMicroseconds
              (HybridTime.PhysicalDiff (Expiration.write_ht (DocDBCompactionFilter.expiration top)) (DocHybridTime.hybrid_time_ ht)) in
            let! ttl := MonoDelta.add (Expiration.ttl expiration) delta in
            let set e := Expiration.mk ttl (Expiration.write_ht e) (Expiration.always_override e) in
            Ok (set expiration, removelast (overwrite_ st) ++ [mk_overwrite (doc_ht top) (set (DocDBCompactionFilter.expiration top))])
        end
      else Ok (expiration, overwrite_ st) in
    let! new_value := Value.EncodeAndAppend (Value.set_ttl (Expiration.ttl expiration) value) [] (Some value_slice) in
    Ok (mk (prev_subdoc_key_ st) (sub_key_ends_ st) overwrite false,
        {| decision := last_decision; value_changed := true; new_value := new_value |})
  else if DocHybridTime.is_valid (Value.intent_doc_ht_ value) && (DocHybridTime.hybrid_time_ ht <? history_cutoff retention_) then
    let! new_value := Value.EncodeAndAppend (Value.ClearIntentDocHt value) [] (Some value_slice) in
    Ok (st, {| decision := last_decision; value_changed := false; new_value := new_value |})
  else Ok (st, {| decision := last_decision; value_changed := false; new_value := [] |}).

Definition DoFilter (st : t) (key existing_value : bytes) : outcome (t * verdict) :=
  if match key_bounds_ with Some b => negb (KeyBounds.IsWithinBounds b key) | None => false end then Ok (st, discard)
  else if DecodeValueType key =? kObsoleteIntentPrefix then Ok (st, discard)
  else
    let! same_bytes := Fastmem.MemoryDifferencePos key (prev_subdoc_key_ st) (Nat.min (length key) (length (prev_subdoc_key_ st))) in
    let num_shared_components := num_shared (sub_key_ends_ st) same_bytes (length (sub_key_ends_ st)) in
    let! sub_key_ends := SubDocKey.DecodeDocKeyAndSubKeyEnds key (take num_shared_components (sub_key_ends_ st)) in
    let new_stack_size := length sub_key_ends in
    let overwrite := take (Nat.min (length (overwrite_ st)) num_shared_components) (overwrite_ st) in
    let! (ht, _) := DocHybridTime.DecodeFromEnd key in
    let prev_overwrite_ht := match last overwrite with Some o => doc_ht o | None => DocHybridTime.kMin end in
    let prev_exp := match last overwrite with Some o => expiration o | None => Expiration.none end in
    let isTtlRow := IsMergeRecord existing_value in
    if ht_lt ht prev_overwrite_ht && negb isTtlRow
    then Ok (mk (prev_subdoc_key_ st) sub_key_ends overwrite (within_merge_block_ st), discard)
    else
      match last sub_key_ends with
      | None => UB
      | Some back =>
          let overwrite :=
            if (length overwrite <? new_stack_size - 1)%nat
            then fill overwrite (new_stack_size - 1) (mk_overwrite prev_overwrite_ht prev_exp) else overwrite in
          let popped_exp := match last overwrite with Some o => expiration o | None => Expiration.none end in
          let overwrite := if (length overwrite =? new_stack_size)%nat then removelast overwrite else overwrite in
          let within_merge_block := if negb (same_bytes =? back)%nat then false else within_merge_block_ st in
          let st := mk (prev_subdoc_key_ st) sub_key_ends overwrite within_merge_block in
          if history_cutoff retention_ <? DocHybridTime.hybrid_time_ ht then
            let! prev_subdoc_key := AssignPrevSubDocKey st key same_bytes in
            Ok (mk prev_subdoc_key sub_key_ends (overwrite ++ [mk_overwrite prev_overwrite_ht prev_exp]) within_merge_block, keep)
          else
            let! deleted := in_deleted_column sub_key_ends key in
            if deleted then Ok (st, discard)
            else
              let overwrite_ht := if isTtlRow then prev_overwrite_ht else ht_max prev_overwrite_ht ht in
              let! (value, value_slice) := Value.DecodeControlFields
                (Value.of_primitive (PrimitiveValue.of_type kNullLow) Value.kMaxTtl Value.kInvalidUserTimestamp 0) existing_value in
              let curr_exp := Expiration.at_time (DocHybridTime.hybrid_time_ ht) (Value.ttl_ value) in
              let exp :=
                if within_merge_block then popped_exp
                else if (Expiration.write_ht prev_exp <=? DocHybridTime.hybrid_time_ ht) &&
                        (negb (Expiration.ttl curr_exp =? Value.kMaxTtl) || isTtlRow) then curr_exp
                else prev_exp in
              let overwrite := overwrite ++ [mk_overwrite overwrite_ht exp] in
              if negb (length overwrite =? new_stack_size)%nat then Err Corruption
              else
                let! prev_subdoc_key := AssignPrevSubDocKey st key same_bytes in
                let st := mk prev_subdoc_key sub_key_ends overwrite within_merge_block in
                if isTtlRow then Ok (mk prev_subdoc_key sub_key_ends overwrite true, discard)
                else filter_expired st ht exp value value_slice
      end.

(** An error ends the process. *)
Definition Filter (st : t) (key existing_value : bytes) : outcome (t * verdict) :=
  match DoFilter st key existing_value with Err _ => Fatal | r => r end.

(** The calls during a compaction: a record is dropped, or written with its value or the new one. *)
Definition apply_verdict (key value : bytes) (v : verdict) : list (bytes * bytes) :=
  match decision v with
  | kKeep => [(key, if value_changed v then new_value v else value)]
  | kDiscard => []
  end.

Fixpoint compact (st : t) (records : list (bytes * bytes)) : outcome (list (bytes * bytes)) :=
  match records with
  | [] => Ok []
  | (key, value) :: records =>
      let! (st, v) := Filter st key value in
      let! out := compact st records in
      Ok (apply_verdict key value v ++ out)
  end.

End Filter.
End DocDBCompactionFilter.
