(* ===== verification/Compactions.v ===== *)
(** * What a compaction keeps

    The filter of [CompactionFilter] on the records of a RocksDB: which records
    are kept, and that the records that count at the history cutoff or later stay. *)

From Stdlib Require Import Sorting.Sorted.
From S2P Require Import Prelude Slice FastVarint HybridTime DocHybridTime ValueType KvUtil VarInt Decimal Uuid InetAddress Intent PrimitiveValue PrimitiveKeys DocKey DocKeyCodec SubDocKeys HybridClock Value ValueCodec IntentsDb CompactionFilter.

(** ** Common prefixes *)

Module CommonPrefix.
Import Fastmem.

Lemma common_take a b : take (common_prefix a b) a = take (common_prefix a b) b.
Proof. revert b. induction a as [|x a IH]; intros [|y b]; [done..|]. cbn [common_prefix]. destruct (Z.eqb_spec x y) as [->|]; [|done]. cbn [take]. by rewrite IH. Qed.

Lemma common_le a b : (common_prefix a b ≤ length a)%nat ∧ (common_prefix a b ≤ length b)%nat.
Proof.
  revert b. induction a as [|x a IH]; intros [|y b]; cbn [common_prefix length]; [lia..|]. destruct (x =? y); [|lia]. destruct (IH b). lia.
Qed.

Lemma common_of_prefix p a b : p `prefix_of` a → p `prefix_of` b → (length p ≤ common_prefix a b)%nat.
Proof. intros [x ->] [y ->]. rewrite common_prefix_app. lia. Qed.

Lemma prefix_of_common p a b : p `prefix_of` a → (length p ≤ common_prefix a b)%nat → p `prefix_of` b.
Proof.
  intros [x ->] Hl. pose proof (common_take (p ++ x) b) as E. apply (f_equal (take (length p))) in E. rewrite !take_take, !Nat.min_l in E by lia.
  rewrite take_app_length in E. rewrite E. apply prefix_take.
Qed.

(** A key between two others shares their common prefix. *)
Lemma prefix_between p a b c :
  p `prefix_of` a → p `prefix_of` c → bytes_compare a b ≠ Gt → bytes_compare b c ≠ Gt → p `prefix_of` b.
Proof.
  revert a b c. induction p as [|x p IH]; intros a b c Ha Hc Hab Hbc; [apply prefix_nil|].
  destruct Ha as [a' ->], Hc as [c' ->]. destruct b as [|y b]; [by cbn in Hab|]. cbn [app bytes_compare] in *.
  destruct (Z.compare_spec x y), (Z.compare_spec y x); try done; try lia. subst y. apply prefix_cons, (IH (p ++ a') b (p ++ c')); [by eexists|by eexists|done|done].
Qed.

Lemma difference_pos a b :
  bytes_ok a → bytes_ok b → MemoryDifferencePos a b (Nat.min (length a) (length b)) = Ok (common_prefix a b).
Proof.
  intros Ha Hb. rewrite MemoryDifferencePos_spec by (done || lia). f_equal. clear Ha Hb. revert b. induction a as [|x a IH]; intros [|y b]; [done..|].
  cbn [length Nat.min take common_prefix]. by rewrite IH.
Qed.

End CommonPrefix.

(** ** Components of keys *)

Module Components.
Import ValueType SubDocKey DocKeyCodec SubDocKeys PrimitiveKeys CommonPrefix Fastmem.

Section Components.
Context {B : BigNum} {HB : BigNumSpec B} {V : UuidVersion} {HV : UuidVersionSpec V} {A : IpAddress} {HA : IpAddressSpec A}.

(** The identifier of the table, the rest of the document key, the subkeys; the
    tombstone of a table has only the first one. *)
Definition components (k : t) : list bytes :=
  id_code (doc_key_ k) ::
  if table_tombstone (doc_key_ k) then [] else (hash_part (doc_key_ k) ++ range_part (doc_key_ k)) :: (key_code <$> subkeys_ k).

(** What follows the components. *)
Definition after_components (k : t) : bytes := (if table_tombstone (doc_key_ k) then [code kGroupEnd] else []) ++ ht_code k.

Definition key_bytes (k : t) : bytes := sub_code k ++ ht_code k.

(** A key of the regular RocksDB: it has a time, a tombstone of a table has no
    subkeys and the first component after the table is not a column. *)
Record stored_key (k : t) : Prop := {
  stored_wf : wf_sub k;
  stored_ht : has_hybrid_time k = true;
  stored_tombstone : table_tombstone (doc_key_ k) = true → subkeys_ k = [];
  stored_column : ∀ v l, DocKey.range_group_ (doc_key_ k) = v :: l → PrimitiveValue.value_type v ≠ kColumnId;
}.

(** Whether keys have an identifier of the same kind. *)
Definition same_kind (k k' : t) : Prop :=
  DocKey.has_cotable_id (doc_key_ k) = DocKey.has_cotable_id (doc_key_ k') ∧
  DocKey.has_pgtable_id (doc_key_ k) = DocKey.has_pgtable_id (doc_key_ k').

Lemma tombstone_parts d :
  table_tombstone d = true → hash_part d = [] ∧ range_part d = [code kGroupEnd].
Proof.
  unfold table_tombstone, hash_part, range_part. destruct (pgtable_of d); [|done]. intros. bool_tests. by rewrite H, H0.
Qed.

Lemma bytes_components k : stored_key k → key_bytes k = concat (components k) ++ after_components k.
Proof.
  intros Hk. unfold key_bytes, components, after_components, sub_code, doc_code. destruct (table_tombstone (doc_key_ k)) eqn:Et.
  - destruct (tombstone_parts _ Et) as [-> ->]. rewrite (stored_tombstone k Hk Et). cbn. by rewrite !app_nil_r, <- !app_assoc.
  - cbn [concat]. fold (all_codes (subkeys_ k)). by rewrite <- !app_assoc.
Qed.

Lemma bytes_ok_key k : stored_key k → bytes_ok (key_bytes k).
Proof.
  intros Hk. pose proof (stored_wf k Hk) as Hw. apply Forall_app_2; [|by apply ht_code_ok].
  apply Forall_app_2; [apply doc_code_ok, Hw|apply codes_ok, Hw].
Qed.

Lemma id_length k k' : wf_sub k → wf_sub k' → same_kind k k' → length (id_code (doc_key_ k)) = length (id_code (doc_key_ k')).
Proof.
  intros Hk Hk' [E1 E2]. unfold id_code. rewrite <- E1, <- E2. destruct (DocKey.has_cotable_id (doc_key_ k)).
  - cbn [length]. by rewrite !uuid_length by (apply Hk || apply Hk').
  - destruct (DocKey.has_pgtable_id _); [|done]. cbn [length]. by rewrite !length_be_bytes.
Qed.

Lemma same_tombstone d d' : wf_key d → wf_key d' → same_key d d' → table_tombstone d = table_tombstone d'.
Proof.
  intros Hd Hd' (E1 & E2 & E3 & E4 & E5)%same_key_parts; [|done..]. unfold table_tombstone, pgtable_of, DocKey.has_cotable_id, DocKey.has_pgtable_id.
  rewrite E1, E2, E5. unfold hash_of in E3. by destruct (DocKey.hash_present_ d), (DocKey.hash_present_ d').
Qed.

Lemma take_components n k :
  take n (components k) =
  match n with
  | O => []
  | 1%nat => [id_code (doc_key_ k)]
  | S (S i) => id_code (doc_key_ k) ::
      if table_tombstone (doc_key_ k) then [] else (hash_part (doc_key_ k) ++ range_part (doc_key_ k)) :: (key_code <$> take i (subkeys_ k))
  end.
Proof.
  destruct n as [|[|i]]; [done..|]. unfold components. cbn [take]. destruct (table_tombstone _); [done|]. by rewrite fmap_take.
Qed.

(** Bytes decide about components: a key that starts with the first components of another one has them. *)
Lemma shared_components k k' n :
  stored_key k → stored_key k' → same_kind k k' → (n ≤ length (components k'))%nat →
  concat (take n (components k')) `prefix_of` key_bytes k → take n (components k) = take n (components k').
Proof.
  intros Hk Hk' Hs Hn Hp. pose proof (stored_wf k Hk) as Hw. pose proof (stored_wf k' Hk') as Hw'. pose proof (bytes_ok_key k Hk) as Hok.
  revert Hn Hp. rewrite !take_components. destruct n as [|[|i]]; [done| |]; intros Hn Hp.
  - f_equal. destruct Hp as [x E]. cbn [concat] in E. rewrite app_nil_r in E. unfold key_bytes, sub_code, doc_code in E. rewrite <- !app_assoc in E.
    by apply app_inj_1 in E as [E _]; [|by apply id_length].
  - assert (table_tombstone (doc_key_ k') = false) as Et'.
    { destruct (table_tombstone (doc_key_ k')) eqn:Et; [|done]. unfold components in Hn. rewrite Et in Hn. cbn [length] in Hn. lia. }
    rewrite Et' in Hp |- *. destruct Hp as [x E]. cbn [concat] in E. fold (all_codes (take i (subkeys_ k'))) in E.
    assert (doc_code (doc_key_ k) ++ all_codes (subkeys_ k) ++ ht_code k = doc_code (doc_key_ k') ++ all_codes (take i (subkeys_ k')) ++ x) as E'.
    { unfold key_bytes, sub_code in E. rewrite <- app_assoc in E. rewrite E. unfold doc_code. by rewrite <- !app_assoc. }
    assert (bytes_ok (all_codes (subkeys_ k) ++ ht_code k)) as H1 by (apply Forall_app_2; [apply codes_ok, Hw|by apply ht_code_ok]).
    assert (bytes_ok (all_codes (take i (subkeys_ k')) ++ x)) as H2.
    { unfold key_bytes, sub_code in Hok. rewrite <- app_assoc, E' in Hok. by apply Forall_app in Hok as [_ ?]. }
    destruct (doc_cut _ _ _ _ (wf_doc_key k Hw) (wf_doc_key k' Hw') H1 H2 E') as [Hsame Ex].
    rewrite (same_tombstone _ _ (wf_doc_key k Hw) (wf_doc_key k' Hw') Hsame), Et'.
    assert (take i (subkeys_ k') `prefix_of` subkeys_ k) as [y Ey].
    { apply (path_prefix _ _ (ht_code k)); [apply Forall_take, Hw'|apply Hw|by apply ht_code_ok|by apply ht_tail|]. by exists x. }
    assert (i ≤ length (subkeys_ k'))%nat as Hi.
    { unfold components in Hn. rewrite Et' in Hn. cbn [length] in Hn. rewrite length_fmap in Hn. lia. }
    rewrite Ey, take_app_le, take_take, Nat.min_id by (rewrite length_take; lia).
    apply same_key_parts in Hsame as (E1 & E2 & E3 & E4 & E5); [|apply Hw|apply Hw'].
    unfold id_code, hash_part, range_part, DocKey.has_cotable_id, DocKey.has_pgtable_id, hash_of in *. rewrite E1, E2, E4, E5.
    destruct (DocKey.hash_present_ (doc_key_ k)), (DocKey.hash_present_ (doc_key_ k')); congruence.
Qed.

(** Where the first components end. *)
Definition end_of (k : t) (i : nat) : nat := length (concat (take i (components k))).
Definition component_ends (k : t) : list nat := end_of k <$> seq 1 (length (components k)).

Lemma end_of_sub k i :
  table_tombstone (doc_key_ k) = false → end_of k (S (S i)) = (length (doc_code (doc_key_ k)) + length (all_codes (take i (subkeys_ k))))%nat.
Proof.
  intros Et. unfold end_of. rewrite take_components, Et. cbn [concat]. fold (all_codes (take i (subkeys_ k))). unfold doc_code. rewrite !length_app. lia.
Qed.

Lemma ends_normal k :
  table_tombstone (doc_key_ k) = false →
  component_ends k = [length (id_code (doc_key_ k)); length (doc_code (doc_key_ k))] ++ ends (length (doc_code (doc_key_ k))) (subkeys_ k).
Proof.
  intros Et. unfold component_ends, components. rewrite Et. cbn [length seq]. rewrite !fmap_cons, (end_of_sub k 0) by done. cbn [take all_codes fmap list_fmap concat length].
  rewrite Nat.add_0_r. unfold end_of at 1. rewrite take_components. cbn [concat]. rewrite app_nil_r. cbn [app]. do 2 f_equal. rewrite ends_take, length_fmap, <- (fmap_S_seq 2), <- (fmap_S_seq 1), <- !list_fmap_compose.
  apply list_fmap_ext. intros ? i _. unfold compose. by apply end_of_sub.
Qed.

Lemma key_ends_components k : stored_key k → key_ends k = Ok (component_ends k).
Proof.
  intros Hk. unfold key_ends. destruct (table_tombstone (doc_key_ k)) eqn:Et.
  - rewrite (stored_ht k Hk), (stored_tombstone k Hk Et), bool_decide_true by done. unfold component_ends, components. rewrite Et. cbn [andb length seq fmap list_fmap].
    unfold end_of. rewrite take_components. cbn [concat]. by rewrite app_nil_r.
  - by rewrite ends_normal.
Qed.

Lemma id_end k : wf_sub k → DocKey.EncodedSize (key_bytes k) DocKey.kUpToId false = Ok (length (id_code (doc_key_ k))).
Proof.
  intros Hk. pose proof (wf_doc_key k Hk) as Hd. unfold key_bytes, sub_code. rewrite <- app_assoc, size_of_part; [|done|].
  - pose proof (read_unread DocKey.kUpToId (doc_key_ k) Hd) as E. cbn [unread] in E. unfold doc_code in E. apply app_inv_tail in E. by rewrite E.
  - apply Forall_app_2; [apply codes_ok, Hk|by apply ht_code_ok].
Qed.

(** The ends are found from any of the first ones. *)
Lemma resume_ends k n : stored_key k → DecodeDocKeyAndSubKeyEnds (key_bytes k) (take n (component_ends k)) = Ok (component_ends k).
Proof.
  intros Hk. pose proof (stored_wf k Hk) as Hw. pose proof (decode_key_ends k Hw) as H0. rewrite key_ends_components in H0 by done. fold (key_bytes k) in H0.
  assert (component_ends k = length (id_code (doc_key_ k)) :: drop 1 (component_ends k)) as E1.
  { unfold component_ends, components at 1 2. cbn [length seq fmap list_fmap drop]. unfold end_of at 1. rewrite take_components. cbn [concat]. by rewrite app_nil_r. }
  assert (DecodeDocKeyAndSubKeyEnds (key_bytes k) [length (id_code (doc_key_ k))] = Ok (component_ends k)) as H1.
  { rewrite <- H0. unfold DecodeDocKeyAndSubKeyEnds. by rewrite id_end. }
  destruct n as [|[|i]]; [done|rewrite E1 at 1; exact H1|]. destruct (table_tombstone (doc_key_ k)) eqn:Et.
  - assert (component_ends k = [length (id_code (doc_key_ k))]) as E2 by (rewrite E1; unfold component_ends, components at 1; by rewrite Et).
    rewrite E2 at 1. by cbn [take].
  - rewrite ends_normal by done. pose proof (resume_key_ends k i Hw) as H. cbv beta zeta in H. rewrite firstn_all in H. rewrite <- H. unfold key_bytes. f_equal.
    cbn [take app]. do 2 f_equal. rewrite !ends_take, length_take, <- fmap_take, take_seq. 
    apply list_fmap_ext. intros j x Hx. apply lookup_seq in Hx as [-> Hx]. rewrite take_take. by rewrite Nat.min_l by lia.
Qed.

(** The first byte after the identifier. *)
Lemma body_first k rest :
  stored_key k → ∃ b s, hash_part (doc_key_ k) ++ range_part (doc_key_ k) ++ rest = b :: s ∧ b ≠ code kColumnId ∧ 33 <= b ∧
    (b = code kGroupEnd → DocKey.hash_present_ (doc_key_ k) = false ∧ DocKey.range_group_ (doc_key_ k) = []).
Proof.
  intros Hk. unfold hash_part. destruct (DocKey.hash_present_ (doc_key_ k)).
  { eexists _, _. split; [cbn [app]; reflexivity|]. split; [done|]. split; [|done]. change (code kUInt16Hash) with 71. lia. }
  destruct (group_starts (DocKey.range_group_ (doc_key_ k)) rest) as (b & s & E & Hb); [apply (stored_wf k Hk)|].
  exists b, s. split; [exact E|]. destruct Hb as [[-> ->]|(v & l & El & -> & Hv)]; [done|].
  destruct (item_tag v Hv) as (_ & _ & Ht). split_and!; [|lia|change (code kGroupEnd) with 33; lia]. intros ?%code_inj. by apply (stored_column k Hk v l).
Qed.

Lemma first_byte k : stored_key k → ∃ b s, key_bytes k = b :: s ∧ 33 <= b.
Proof.
  intros Hk. destruct (body_first k (all_codes (subkeys_ k) ++ ht_code k) Hk) as (b & s & E & _ & Hb & _).
  unfold key_bytes, sub_code, doc_code. rewrite <- !app_assoc, E. unfold id_code.
  destruct (DocKey.has_cotable_id _); [|destruct (DocKey.has_pgtable_id _)]; cbn [app]; eexists _, _; (split; [reflexivity|]); cbn [code]; lia.
Qed.

(** What follows the components of a key differs from the next component of a longer one. *)
Lemma next_component k k' x l :
  stored_key k → stored_key k' → same_kind k k' → drop (length (components k)) (components k') = x :: l →
  ∃ b s b' s', after_components k = b :: s ∧ x = b' :: s' ∧ b < b'.
Proof.
  intros Hk Hk' Hs El. destruct (ht_code_some k (stored_wf k Hk) (stored_ht k Hk)) as (e & _ & Eh & _).
  unfold after_components. rewrite Eh. unfold components in El. destruct (table_tombstone (doc_key_ k')) eqn:Et'.
  { destruct (table_tombstone (doc_key_ k)); by cbn in El. }
  destruct (table_tombstone (doc_key_ k)) eqn:Et; cbn [length drop app] in El |- *.
  - injection El as <- _. destruct (body_first k' [] Hk') as (b & s & E & _ & H33 & Hb). rewrite app_nil_r in E. rewrite E.
    eexists _, _, b, s. split_and!; [done|done|]. change (code kGroupEnd) with 33 in *. apply Z.le_neq. split; [done|]. intros Eb. destruct Hb as [Hh Hr]; [done|].
    unfold table_tombstone, pgtable_of in Et, Et'. rewrite Hh, Hr in Et'. destruct Hs as [E1 E2]. rewrite E1, E2 in Et.
    destruct (DocKey.has_cotable_id (doc_key_ k')); [done|]. by destruct (DocKey.has_pgtable_id (doc_key_ k')).
  - rewrite length_fmap, <- fmap_drop in El. destruct (drop (length (subkeys_ k)) (subkeys_ k')) as [|v l'] eqn:Ev; [done|].
    injection El as <- _. assert (item v) as Hv.
    { pose proof (Forall_drop item (length (subkeys_ k)) _ (wf_subkeys k' (stored_wf k' Hk'))) as H. rewrite Ev in H. by inversion H. }
    destruct (item_tag v Hv) as (y & -> & Ht). eexists _, _, _, _. split_and!; [done..|]. change (code kHybridTime) with 35. lia.
Qed.

(** The components of a key are not followed by the start of another component. *)
Lemma components_stop k k' :
  stored_key k → stored_key k' → same_kind k k' →
  (common_prefix (key_bytes k) (concat (components k')) ≤ length (concat (components k)))%nat.
Proof.
  intros Hk Hk' Hs. apply Nat.nlt_ge. intros Hc.
  assert (concat (components k) `prefix_of` concat (components k')) as Hp.
  { apply (prefix_of_common _ (key_bytes k)); [rewrite bytes_components by done; by eexists|lia]. }
  assert (take (length (components k)) (components k') = components k) as Ec.
  { rewrite <- (firstn_all (components k)) at 2. apply shared_components; [done..|by destruct Hs; split|done|].
    rewrite firstn_all, (bytes_components k') by done. etransitivity; [done|by eexists]. }
  pose proof (take_drop (length (components k)) (components k')) as Ed. rewrite Ec in Ed. rewrite <- Ed in Hc.
  rewrite bytes_components, concat_app, common_prefix_app in Hc by done.
  destruct (drop (length (components k)) (components k')) as [|x l] eqn:El; [destruct (after_components k); cbn in Hc; lia|].
  destruct (next_component k k' x l) as (b & s & b' & s' & Eb & -> & Hne); [done..|].
  rewrite Eb in Hc. cbn [concat app common_prefix] in Hc. rewrite (proj2 (Z.eqb_neq b b')) in Hc by lia. lia.
Qed.

Lemma same_ends k k' n :
  take n (components k) = take n (components k') → (n ≤ length (components k))%nat → (n ≤ length (components k'))%nat →
  take n (component_ends k) = take n (component_ends k').
Proof.
  intros E Hk Hk'. unfold component_ends. rewrite <- !fmap_take, !take_seq, !Nat.min_l by lia. apply list_fmap_ext.
  intros i x Hx. apply lookup_seq in Hx as [-> Hx]. unfold end_of. replace (1 + i)%nat with (Nat.min (1 + i) n) by lia. by rewrite <- !take_take, E.
Qed.

(** How many components two keys share. *)
Fixpoint shared (a b : list bytes) : nat :=
  match a, b with
  | x :: a, y :: b => if decide (x = y) then S (shared a b) else O
  | _, _ => O
  end.

Lemma shared_take a b : take (shared a b) a = take (shared a b) b.
Proof. revert b. induction a as [|x a IH]; intros [|y b]; [done..|]. cbn [shared]. case_decide as E; [|done]. cbn [take]. by rewrite E, IH. Qed.

Lemma shared_le a b : (shared a b ≤ length a)%nat ∧ (shared a b ≤ length b)%nat.
Proof.
  revert b. induction a as [|x a IH]; intros [|y b]; cbn [shared length]; [lia..|]. case_decide; [|lia]. destruct (IH b). lia.
Qed.

Lemma shared_most a b n : (n ≤ length a)%nat → (n ≤ length b)%nat → take n a = take n b → (n ≤ shared a b)%nat.
Proof.
  revert a b. induction n as [|n IH]; intros [|x a] [|y b] Ha Hb E; cbn [length] in *; try lia. cbn [take shared] in *. injection E as -> E.
  rewrite decide_True by done. specialize (IH a b ltac:(lia) ltac:(lia) E). lia.
Qed.

Lemma num_shared_spec l s n :
  let m := DocDBCompactionFilter.num_shared l s n in
  (m ≤ n)%nat ∧ (m = 0%nat ∨ (nth (m - 1) l 0 ≤ s)%nat) ∧ ∀ j, (m ≤ j < n)%nat → (s < nth j l 0)%nat.
Proof.
  cbv zeta. induction n as [|n IH]; cbn [DocDBCompactionFilter.num_shared]; [split_and!; [lia|by left|lia]|].
  destruct (Nat.ltb_spec s (nth n l 0%nat)) as [H|H].
  - destruct IH as (H1 & H2 & H3). split_and!; [lia|done|]. intros j Hj. destruct (decide (j = n)) as [->|]; [done|]. apply H3. lia.
  - split_and!; [lia|right; by replace (S n - 1)%nat with n by lia|lia].
Qed.

Lemma length_ends k : length (component_ends k) = length (components k).
Proof. unfold component_ends. by rewrite length_fmap, length_seq. Qed.

Lemma nth_end k j : (j < length (components k))%nat → nth j (component_ends k) 0%nat = end_of k (S j).
Proof.
  intros Hj. apply nth_lookup_Some. unfold component_ends. rewrite list_lookup_fmap. by rewrite lookup_seq_lt.
Qed.

Lemma take_prefix n k : stored_key k → concat (take n (components k)) `prefix_of` key_bytes k.
Proof.
  intros Hk. rewrite bytes_components by done. rewrite <- (take_drop n (components k)) at 2. rewrite concat_app, <- app_assoc. by eexists.
Qed.

(** The ends that are kept for a key: those it shares with the last key that was
    assigned, though they may be read from a key between them. *)
Lemma shared_count k0 k1 k :
  stored_key k0 → stored_key k1 → stored_key k → same_kind k k0 → same_kind k1 k0 → same_kind k k1 →
  bytes_compare (key_bytes k0) (key_bytes k1) ≠ Gt → bytes_compare (key_bytes k1) (key_bytes k) ≠ Gt →
  let n := shared (components k) (components k0) in
  DocDBCompactionFilter.num_shared (component_ends k1) (common_prefix (key_bytes k) (concat (components k0))) (length (component_ends k1)) = n ∧
  take n (components k1) = take n (components k).
Proof.
  intros H0 H1 Hk S0 S10 S1 L01 L1k n. set (s := common_prefix _ _).
  assert (∀ p, p `prefix_of` key_bytes k0 → p `prefix_of` key_bytes k → p `prefix_of` key_bytes k1) as Hmid
    by (intros p Hp Hp'; by apply (prefix_between p (key_bytes k0) (key_bytes k1) (key_bytes k))).
  assert (take n (components k0) = take n (components k)) as En by (symmetry; apply shared_take).
  destruct (shared_le (components k) (components k0)) as [Ln Ln0]. fold n in Ln, Ln0.
  assert (take n (components k1) = take n (components k0)) as E1.
  { apply shared_components; [done..|]. apply Hmid; [by apply take_prefix|]. rewrite En. by apply take_prefix. }
  assert (n ≤ length (components k1))%nat as Ln1.
  { apply (f_equal length) in E1. rewrite !length_take in E1. lia. }
  assert (end_of k1 n ≤ s)%nat as He.
  { unfold end_of. rewrite E1. apply common_of_prefix; [rewrite En; by apply take_prefix|].
    rewrite <- (take_drop n (components k0)) at 2. rewrite concat_app. by eexists. }
  split; [|by rewrite E1]. pose proof (num_shared_spec (component_ends k1) s (length (component_ends k1))) as (Hm & Hs & Hlast).
  set (m := DocDBCompactionFilter.num_shared _ _ _) in *. rewrite length_ends in Hm, Hlast. apply Nat.le_antisymm.
  - destruct (decide (m = 0%nat)) as [->|Hm0]; [lia|]. destruct Hs as [|Hs]; [done|]. rewrite nth_end in Hs by lia.
    replace (S (m - 1)) with m in Hs by lia.
    assert (take s (key_bytes k) `prefix_of` key_bytes k1) as Hc.
    { apply Hmid; [|apply prefix_take]. unfold s. rewrite common_take. etransitivity; [apply prefix_take|].
      rewrite (bytes_components k0) by done. by eexists. }
    assert (concat (take m (components k1)) `prefix_of` take s (key_bytes k)) as Hp.
    { destruct Hc as [y Ey]. pose proof (take_prefix m k1 H1) as [z Ez]. apply (f_equal (take (end_of k1 m))) in Ez as Ez'.
      unfold end_of in Ez' at 2. rewrite take_app_length in Ez'. rewrite <- Ez', Ey. rewrite take_app_le; [apply prefix_take|].
      rewrite length_take. destruct (common_le (key_bytes k) (concat (components k0))). unfold s in *. lia. }
    assert (take m (components k) = take m (components k1)) as Ek.
    { apply shared_components; [done..|]. etransitivity; [done|]. apply prefix_take. }
    assert (take m (components k0) = take m (components k1)) as Ek0.
    { apply shared_components; [done|done|by destruct S10|done|]. etransitivity; [done|]. unfold s. rewrite common_take. etransitivity; [apply prefix_take|].
      rewrite (bytes_components k0) by done. by eexists. }
    apply shared_most; [apply (f_equal length) in Ek; rewrite !length_take in Ek; lia|apply (f_equal length) in Ek0; rewrite !length_take in Ek0; lia|congruence].
  - apply Nat.nlt_ge. intros Hlt. specialize (Hlast (n - 1)%nat ltac:(lia)). rewrite nth_end in Hlast by lia. replace (S (n - 1)) with n in Hlast by lia. lia.
Qed.

End Components.
End Components.

(** ** Records of a compaction *)

Module Compactions.
Import ValueType SubDocKey SubDocKeys CommonPrefix Components DocDBCompactionFilter.

(** Times as numbers. *)
Definition rank (d : DocHybridTime.t) : Z := DocHybridTime.hybrid_time_ d * 2 ^ 32 + DocHybridTime.write_id_ d.

Lemma rank_lt a b : DocHybridTime.wf a → DocHybridTime.wf b → ht_lt a b = true ↔ rank a < rank b.
Proof.
  unfold DocHybridTime.wf, is_u64, is_u32. intros [_ Ha] [_ Hb]. unfold ht_lt, rank. rewrite bool_decide_eq_true, DocHybridTime.doc_CompareTo_eq.
  destruct (Z.compare_spec (DocHybridTime.hybrid_time_ a) (DocHybridTime.hybrid_time_ b)); rewrite ?Z.compare_lt_iff; split; intros; try done; lia.
Qed.

Section Compaction.
Context {B : BigNum} {HB : BigNumSpec B} {V : UuidVersion} {HV : UuidVersionSpec V} {A : IpAddress} {HA : IpAddressSpec A}.
(** A record: the key, the control fields of the value and the value itself. *)
Record record := mk_record { key : SubDocKey.t; control : Value.t; payload : bytes }.

Definition time (r : record) : DocHybridTime.t := doc_ht_ (key r).

Context (retention : HistoryRetentionDirective) (major : bool) (bounds : option KeyBounds.t).

Definition path (r : record) : list bytes := components (key r).
Definition stored (r : record) : bytes * bytes := (key_bytes (key r), ValueCodec.fields (control r) ++ payload r).

(** A record that is written for a value without a time to live or merge flags; it may have the time of its intent. *)
Record wf_record (r : record) : Prop := {
  wf_key_of : stored_key (key r);
  wf_control : ValueCodec.wf_fields (control r);
  wf_no_flags : Value.merge_flags_ (control r) = 0;
  wf_no_ttl : Value.ttl_ (control r) = Value.kMaxTtl;
  wf_payload : bytes_ok (payload r);
  wf_nonempty : payload r ≠ [];
  wf_no_control : ValueCodec.not_first ValueCodec.control (payload r);
}.

Definition tombstone (r : record) : bool := match payload r with b :: _ => b =? as_char kTombstone | [] => false end.
Definition old (r : record) : bool := DocHybridTime.hybrid_time_ (time r) <=? history_cutoff retention.

(** A record hides those that are written before it at its path or below. *)
Definition hides (r r' : record) : Prop := path r `prefix_of` path r' ∧ rank (time r') < rank (time r).

(** What a compaction drops: records hidden by one that is at or before the
    cutoff and, in a major compaction, the tombstones at or before it. *)
Definition overwritten (rs : list record) (r : record) : Prop := ∃ r', r' ∈ rs ∧ old r' = true ∧ hides r' r.
Definition collected (r : record) : bool :=
  tombstone r && (major && negb (retain_delete_markers_in_major_compaction retention)) && old r.

#[export] Instance hides_dec r r' : Decision (hides r r') := _.
#[export] Instance overwritten_dec rs r : Decision (overwritten rs r).
Proof.
  refine (cast_if (decide (Exists (λ r', old r' = true ∧ hides r' r) rs))); unfold overwritten; rewrite <- Exists_exists; done.
Defined.

Definition kept (rs : list record) (r : record) : Prop := ¬ overwritten rs r ∧ collected r = false.
#[export] Instance kept_dec rs r : Decision (kept rs r) := _.

Lemma time_wf r : wf_record r → DocHybridTime.wf (time r).
Proof. intros Hr. apply (stored_wf _ (wf_key_of r Hr)). Qed.

(** ** What one call reads *)

Lemma read_time r : wf_record r → DocHybridTime.DecodeFromEnd (key_bytes (key r)) = Ok (time r, sub_code (key r) ++ [code kHybridTime]).
Proof.
  intros Hr. destruct (wf_key_of r Hr) as [Hw Ht _ _]. destruct (ht_code_some _ Hw Ht) as (e & Ee & Eh & _). unfold key_bytes. rewrite Eh.
  change (code kHybridTime :: e) with ([code kHybridTime] ++ e). rewrite app_assoc. apply DocHybridTime.decode_from_end_encoded; [by apply time_wf|done|].
  by destruct (sub_code (key r)).
Qed.

Lemma no_merge r : wf_record r → IsMergeRecord (stored r).2 = false.
Proof.
  intros Hr. assert (ValueCodec.not_first [kMergeFlags] (stored r).2) as H.
  { cbn [stored snd]. unfold ValueCodec.fields, ValueCodec.flags_field. rewrite (wf_no_flags r Hr). cbn [negb Z.eqb ValueCodec.field app].
    rewrite <- !app_assoc. repeat apply ValueCodec.not_first_field; [by intros ? ->%list_elem_of_singleton..|].
    eapply ValueCodec.not_first_sub, (wf_no_control r Hr). intros ? ->%list_elem_of_singleton. set_solver. }
  unfold IsMergeRecord, DecodeValueType. destruct ((stored r).2) as [|b s]; [done|]. inversion_clear H. by apply Z.eqb_neq.
Qed.

Lemma no_column r : wf_record r → in_deleted_column retention (component_ends (key r)) (key_bytes (key r)) = Ok false.
Proof.
  intros Hr. pose proof (wf_key_of r Hr) as Hk. unfold in_deleted_column. destruct (component_ends (key r)) as [|e0 [|e1 l]] eqn:E; [done..|].
  assert (e0 = length (DocKeyCodec.id_code (doc_key_ (key r)))) as ->.
  { unfold component_ends, components at 1 in E. cbn [length seq fmap list_fmap] in E. injection E as <- _. unfold end_of. rewrite take_components. cbn [concat]. by rewrite app_nil_r. }
  destruct (body_first (key r) (PrimitiveKeys.all_codes (subkeys_ (key r)) ++ ht_code (key r)) Hk) as (b & s & Es & Hb & _).
  unfold byte_at, key_bytes, sub_code, DocKeyCodec.doc_code. rewrite <- !app_assoc, Es, lookup_app_r, Nat.sub_diag by lia. cbn [lookup list_lookup obind].
  by rewrite (proj2 (Z.eqb_neq b (as_char kColumnId))).
Qed.

(** ** One call of the filter *)

Definition no_expiry (h : DocHybridTime.t) : OverwriteData := mk_overwrite h Expiration.none.

Definition last_ht (ov : list OverwriteData) : DocHybridTime.t := match last ov with Some o => doc_ht o | None => DocHybridTime.kMin end.

(** The times for the components of a record that is not dropped: those that are
    shared, the last of them for the others, and for the record its own if it is old. *)
Definition pushed (ov : list OverwriteData) (r : record) : list OverwriteData :=
  take (length (path r) - 1) (fill ov (length (path r) - 1) (no_expiry (last_ht ov))) ++
  [no_expiry (if old r then ht_max (last_ht ov) (time r) else last_ht ov)].

Definition in_bounds (r : record) : bool :=
  match bounds with Some b => KeyBounds.IsWithinBounds b (key_bytes (key r)) | None => true end.

Lemma filter_expired_none st r v0 :
  wf_record r → old r = true → table_ttl retention = Value.kMaxTtl → within_merge_block_ st = false →
  ∃ v, filter_expired retention major st (time r) Expiration.none (ValueCodec.read_back (control r) v0) (payload r) = Ok (st, v) ∧
    decision v = (if collected r then kDiscard else kKeep) ∧ value_changed v = false.
Proof.
  intros Hr Ho Ht Hm. unfold filter_expired, DocTtl.ComputeTTL. cbn [Expiration.none Expiration.ttl]. rewrite Z.eqb_refl, Ht. cbn [negb].
  unfold DocTtl.HasExpiredTTL. rewrite Z.eqb_refl, Hm. cbn [orb obind]. unfold collected. rewrite Ho, andb_true_r. fold (tombstone r).
  set (d := if tombstone r && _ then kDiscard else kKeep).
  destruct (DocHybridTime.is_valid _ && _); [|by eexists]. pose proof (wf_control r Hr) as Hc. rewrite ValueCodec.encode_value; [by eexists|].
  split; cbn [Value.ClearIntentDocHt ValueCodec.read_back Value.ttl_ Value.user_timestamp_ Value.merge_flags_ Value.intent_doc_ht_]; [|apply Hc..|done].
  unfold ValueCodec.stored_ttl. by rewrite (wf_no_ttl r Hr), Z.eqb_refl.
Qed.

Lemma read_value r v0 :
  wf_record r → Value.DecodeControlFields v0 (stored r).2 = Ok (ValueCodec.read_back (control r) (Value.primitive_value_ v0), payload r).
Proof. intros Hr. by apply ValueCodec.decode_fields; apply Hr. Qed.

Lemma last_end r : last (component_ends (key r)) = Some (length (concat (path r))).
Proof.
  unfold component_ends, path. set (n := length (components (key r))). assert (n = S (n - 1)) as -> by (unfold n, components; cbn [length]; lia).
  rewrite seq_S, fmap_app. etransitivity; [apply last_snoc|]. f_equal. unfold end_of. replace (1 + (n - 1))%nat with n by (unfold n, components; cbn [length]; lia).
  unfold n. by rewrite firstn_all.
Qed.

Lemma assign_key st r s :
  sub_key_ends_ st = component_ends (key r) → stored_key (key r) → (s ≤ length (concat (path r)))%nat →
  take s (prev_subdoc_key_ st) = take s (key_bytes (key r)) → AssignPrevSubDocKey st (key_bytes (key r)) s = Ok (concat (path r)).
Proof.
  intros He Hk Hs Ht. unfold AssignPrevSubDocKey. rewrite He, last_end, (proj2 (Nat.ltb_ge _ _)), Ht by done. f_equal.
  rewrite firstn_skipn_comm, Nat.add_comm, Nat.sub_add by done.
  rewrite bytes_components by done. unfold path in *. rewrite take_app_le, take_app_length by lia. apply take_drop.
Qed.

Lemma path_length r : (1 ≤ length (path r))%nat.
Proof. unfold path, components. cbn [length]. lia. Qed.

Lemma stack_filled {T} (ov : list T) n x :
  (length ov ≤ S n)%nat →
  let ov' := if (length ov <? n)%nat then fill ov n x else ov in
  (if (length ov' =? S n)%nat then removelast ov' else ov') = take n (fill ov n x).
Proof.
  intros Hl. cbv zeta. unfold fill. destruct (Nat.ltb_spec (length ov) n).
  - rewrite length_app, length_replicate, (proj2 (Nat.eqb_neq _ _)) by lia. rewrite take_ge; [done|]. rewrite length_app, length_replicate. lia.
  - replace (n - length ov)%nat with 0%nat by lia. cbn [replicate]. rewrite app_nil_r. destruct (Nat.eqb_spec (length ov) (S n)) as [E|E].
    + rewrite removelast_firstn_len, E. done.
    + rewrite take_ge by lia. done.
Qed.

Lemma length_pushed ov r : (length ov ≤ length (path r))%nat → length (pushed ov r) = length (path r).
Proof.
  intros Hl. pose proof (path_length r). unfold pushed, fill. rewrite length_app, length_take, length_app, length_replicate. cbn [length]. lia.
Qed.

Definition plain_times (ov : list OverwriteData) : Prop := Forall (λ o, expiration o = Expiration.none ∧ DocHybridTime.wf (doc_ht o)) ov.

Lemma last_plain ov : plain_times ov → match last ov with Some o => expiration o | None => Expiration.none end = Expiration.none ∧ DocHybridTime.wf (last_ht ov).
Proof.
  intros Ho. unfold last_ht. destruct (last ov) as [o|] eqn:E; [|done]. rewrite last_lookup in E. apply list_elem_of_lookup_2 in E.
  by apply (proj1 (Forall_forall _ _) Ho).
Qed.

(** One call, from what it needs to know of the state. *)
Lemma filter_step st r s ov :
  wf_record r → table_ttl retention = Value.kMaxTtl → in_bounds r = true → within_merge_block_ st = false →
  bytes_ok (prev_subdoc_key_ st) → Fastmem.common_prefix (key_bytes (key r)) (prev_subdoc_key_ st) = s → (s ≤ length (concat (path r)))%nat →
  let n := num_shared (sub_key_ends_ st) s (length (sub_key_ends_ st)) in
  DecodeDocKeyAndSubKeyEnds (key_bytes (key r)) (take n (sub_key_ends_ st)) = Ok (component_ends (key r)) →
  take (Nat.min (length (overwrite_ st)) n) (overwrite_ st) = ov → (length ov ≤ length (path r))%nat → plain_times ov →
  if decide (rank (time r) < rank (last_ht ov))
  then DoFilter retention major bounds st (stored r).1 (stored r).2 =
         Ok (mk (prev_subdoc_key_ st) (component_ends (key r)) ov false, discard)
  else ∃ v, DoFilter retention major bounds st (stored r).1 (stored r).2 =
         Ok (mk (concat (path r)) (component_ends (key r)) (pushed ov r) false, v) ∧
         decision v = (if collected r then kDiscard else kKeep) ∧ value_changed v = false.
Proof.
  intros Hr Ht Hb Hm Hok Hs Hle n Hd Hov Hlen Hpl. pose proof (wf_key_of r Hr) as Hk. destruct (last_plain ov Hpl) as [Hexp Hwf].
  unfold DoFilter. change ((stored r).1) with (key_bytes (key r)). destruct (first_byte _ Hk) as (b & l & Eb & Hb33).
  assert (match bounds with Some b => negb (KeyBounds.IsWithinBounds b (key_bytes (key r))) | None => false end = false) as ->
    by (unfold in_bounds in Hb; destruct bounds; [by rewrite Hb|done]).
  assert ((DecodeValueType (key_bytes (key r)) =? kObsoleteIntentPrefix) = false) as ->
    by (rewrite Eb; cbn [DecodeValueType]; apply Z.eqb_neq; change (code kObsoleteIntentPrefix) with 10; lia).
  rewrite difference_pos by (done || by apply bytes_ok_key). cbn [obind]. rewrite Hs. fold n. rewrite Hd. cbn [obind]. rewrite Hov, read_time by done. cbn [obind].
  rewrite (no_merge r Hr), Hexp. fold (last_ht ov). pose proof (rank_lt (time r) (last_ht ov) (time_wf r Hr) Hwf) as Hlt. case_decide as E.
  { rewrite (proj2 Hlt E). cbn [andb negb]. by rewrite Hm. }
  destruct (ht_lt (time r) (last_ht ov)); [by destruct E; apply Hlt|]. cbn [andb negb]. rewrite last_end, length_ends. fold (path r).
  assert (length (path r) = S (length (path r) - 1)) as En by (pose proof (path_length r); lia).
  pose proof (stack_filled ov (length (path r) - 1) (no_expiry (last_ht ov)) ltac:(lia)) as Hst. cbv zeta in Hst. rewrite <- En in Hst.
  unfold no_expiry in Hst. rewrite Hst, Hm. clear Hst. assert (∀ c : bool, (if c then false else false) = false) as Hf by (by intros []). rewrite Hf.
  set (ov' := take _ (fill _ _ _)). assert (pushed ov r = ov' ++ [no_expiry (if old r then ht_max (last_ht ov) (time r) else last_ht ov)]) as Ep by done.
  pose proof (length_pushed ov r Hlen) as Hpl'. rewrite Ep in Hpl' |- *. unfold old in *. rewrite Z.ltb_antisym.
  assert (∀ o, AssignPrevSubDocKey (mk (prev_subdoc_key_ st) (component_ends (key r)) o false) (key_bytes (key r)) s = Ok (concat (path r))) as Ha.
  { intros o. apply assign_key; [done|done|done|]. cbn [prev_subdoc_key_]. rewrite <- Hs. symmetry. apply common_take. }
  destruct (_ <=? _) eqn:Eo; cbn [negb].
  - rewrite no_column by done. cbn [obind]. rewrite read_value by done. cbn [obind ValueCodec.read_back Value.ttl_ Expiration.at_time Expiration.ttl]. unfold ValueCodec.stored_ttl.
    rewrite (wf_no_ttl r Hr), !Z.eqb_refl, andb_false_r. fold (no_expiry (ht_max (last_ht ov) (time r))). rewrite Hpl', Nat.eqb_refl. cbn [negb]. rewrite Ha. cbn [obind].
    by apply filter_expired_none.
  - rewrite Ha. cbn [obind]. exists keep. split; [done|]. unfold collected, old. by rewrite Eo, andb_false_r.
Qed.

(** ** The times of the components *)

(** The last time at or before the cutoff when the path or one above it was written, among the records [Q]. *)
Record overwrite_time (Q : list record) (p : list bytes) (h : DocHybridTime.t) : Prop := {
  overwrite_wf : DocHybridTime.wf h;
  overwrite_found : h = DocHybridTime.kMin ∨ ∃ r, r ∈ Q ∧ old r = true ∧ path r `prefix_of` p ∧ time r = h;
  overwrite_last : ∀ r, r ∈ Q → old r = true → path r `prefix_of` p → rank (time r) <= rank h;
}.

Lemma overwrite_same Q p p' h :
  (∀ r, r ∈ Q → path r `prefix_of` p ↔ path r `prefix_of` p') → overwrite_time Q p h → overwrite_time Q p' h.
Proof.
  intros Hp [Hw Hf Hl]. split; [done| |].
  - destruct Hf as [|(r & Hr & Ho & Hpre & Ht)]; [by left|]. right. exists r. naive_solver.
  - intros r Hr Ho Hpre. apply Hl; naive_solver.
Qed.

Lemma found_more Q p h r :
  (h = DocHybridTime.kMin ∨ ∃ q, q ∈ Q ∧ old q = true ∧ path q `prefix_of` p ∧ time q = h) →
  h = DocHybridTime.kMin ∨ ∃ q, q ∈ Q ++ [r] ∧ old q = true ∧ path q `prefix_of` p ∧ time q = h.
Proof. intros [|(q & Hq & H)]; [by left|]. right. exists q. split; [|done]. apply elem_of_app. by left. Qed.

Lemma overwrite_above Q p h r : (old r = true → ¬ path r `prefix_of` p) → overwrite_time Q p h → overwrite_time (Q ++ [r]) p h.
Proof.
  intros Hr [Hw Hf Hl]. split; [done|by apply found_more|]. intros q [Hq| ->%list_elem_of_singleton]%elem_of_app; [by apply Hl|naive_solver].
Qed.

Lemma overwrite_at Q p h r :
  wf_record r → old r = true → path r `prefix_of` p → overwrite_time Q p h → overwrite_time (Q ++ [r]) p (ht_max h (time r)).
Proof.
  intros Hr Ho Hp [Hw Hf Hl]. pose proof (rank_lt h (time r) Hw (time_wf r Hr)) as Hlt. unfold ht_max. destruct (ht_lt h (time r)).
  - assert (rank h < rank (time r)) by (by apply Hlt). split; [by apply time_wf|right; exists r; split_and!; [apply elem_of_app; right; by apply list_elem_of_singleton|done..]|].
    intros q [Hq| ->%list_elem_of_singleton]%elem_of_app Hqo Hqp; [|lia]. specialize (Hl q Hq Hqo Hqp). lia.
  - assert (¬ rank h < rank (time r)) by (intros ?%Hlt; done). split; [done|by apply found_more|].
    intros q [Hq| ->%list_elem_of_singleton]%elem_of_app Hqo Hqp; [by apply Hl|lia].
Qed.

(** A record is overwritten when it is older than the time for its path. *)
Lemma overwritten_time Q r h :
  wf_record r → overwrite_time Q (path r) h → overwritten Q r ↔ rank (time r) < rank h.
Proof.
  intros Hr [Hw Hf Hl]. split.
  - intros (q & Hq & Ho & Hp & Hlt). specialize (Hl q Hq Ho Hp). lia.
  - intros Hlt. destruct Hf as [->|(q & Hq & Ho & Hp & <-)]; [|by exists q].
    destruct (time_wf r Hr) as [H1 H2]. unfold is_u64, is_u32 in *. change (rank DocHybridTime.kMin) with 0 in Hlt. unfold rank in Hlt. lia.
Qed.

(** The state after some records: [Q] are those that were not dropped as
    overwritten, [k0] is the last of them and [k1] the last record of all. *)
Definition before (r r' : record) : Prop := bytes_compare (key_bytes (key r)) (key_bytes (key r')) ≠ Gt.

Record invariant (Q : list record) (k0 k1 : record) (st : t) : Prop := {
  inv_prev : prev_subdoc_key_ st = concat (path k0);
  inv_ends : sub_key_ends_ st = component_ends (key k1);
  inv_merge : within_merge_block_ st = false;
  inv_length : length (overwrite_ st) = shared (path k1) (path k0);
  inv_times : ∀ i o, overwrite_ st !! i = Some o → expiration o = Expiration.none ∧ overwrite_time Q (take (S i) (path k0)) (doc_ht o);
  inv_order : before k0 k1;
  inv_last : ∀ r, r ∈ Q → before r k0;
}.

Lemma shared_self a : shared a a = length a.
Proof. induction a as [|x a IH]; [done|]. cbn [shared length]. by rewrite decide_True, IH. Qed.

Lemma prefix_longer (p q : list bytes) : p `prefix_of` q → take (length p) q = p.
Proof. intros [x ->]. by rewrite take_app_length. Qed.

Lemma prefix_shorter (p q : list bytes) n : p `prefix_of` q → (length p ≤ n)%nat → p `prefix_of` take n q.
Proof. intros [x ->] Hn. rewrite take_app_ge by done. by eexists. Qed.

Lemma before_refl r : before r r.
Proof. unfold before. by rewrite bytes_compare_refl. Qed.

Lemma before_trans a b c : before a b → before b c → before a c.
Proof.
  unfold before. intros Hab Hbc. destruct (bytes_compare (key_bytes (key a)) (key_bytes (key b))) eqn:E1; [|destruct (bytes_compare (key_bytes (key b)) (key_bytes (key c))) eqn:E2|done].
  - by rewrite (bytes_compare_eq _ _ E1).
  - by rewrite <- (bytes_compare_eq _ _ E2), E1.
  - by rewrite (bytes_compare_lt_trans _ _ _ E1 E2).
  - done.
Qed.

(** The times that a call leaves behind. *)
Lemma pushed_times Q r ov :
  wf_record r → (length ov ≤ length (path r))%nat →
  (∀ q, q ∈ Q → path q `prefix_of` path r → (length (path q) ≤ length ov)%nat) →
  (∀ i o, ov !! i = Some o → expiration o = Expiration.none ∧ overwrite_time Q (take (S i) (path r)) (doc_ht o)) →
  overwrite_time Q (path r) (last_ht ov) →
  ∀ i o, pushed ov r !! i = Some o → expiration o = Expiration.none ∧ overwrite_time (Q ++ [r]) (take (S i) (path r)) (doc_ht o).
Proof.
  intros Hr Hlen Hq Hov Hlast i o. pose proof (path_length r) as HL. unfold pushed.
  assert (length (take (length (path r) - 1) (fill ov (length (path r) - 1) (no_expiry (last_ht ov)))) = length (path r) - 1)%nat as El
    by (unfold fill; rewrite length_take, length_app, length_replicate; lia).
  intros [Hi|[Hi Ho]]%lookup_app_Some.
  - pose proof (lookup_lt_Some _ _ _ Hi) as Hlt. rewrite El in Hlt. rewrite lookup_take_lt in Hi by lia.
    assert (¬ path r `prefix_of` take (S i) (path r)) as Hn by (intros H%prefix_length; rewrite length_take in H; lia).
    unfold fill in Hi. apply lookup_app_Some in Hi as [Hi|[Hge [-> _]%lookup_replicate]].
    + destruct (Hov i o Hi) as [He Ht]. split; [done|]. by apply overwrite_above.
    + split; [done|]. apply overwrite_above; [done|]. revert Hlast. apply overwrite_same. intros q HQ. split.
      * intros H. apply prefix_shorter; [done|]. specialize (Hq q HQ H). lia.
      * intros H. etransitivity; [done|apply prefix_take].
  - rewrite El in Hi, Ho. destruct (i - (length (path r) - 1))%nat as [|j] eqn:Ej; [|by destruct j]. injection Ho as <-. split; [done|].
    rewrite take_ge by lia. cbn [no_expiry doc_ht]. destruct (old r) eqn:Eo; [by apply overwrite_at|]. apply overwrite_above; [by rewrite Eo|done].
Qed.

(** Records that are not dropped before [r]: those above it share their components with the last one. *)
Lemma above_shared Q k0 k1 r st q :
  invariant Q k0 k1 st → stored_key (key q) → stored_key (key k0) → stored_key (key r) → same_kind (key k0) (key q) →
  before k1 r → q ∈ Q → path q `prefix_of` path r → (length (path q) ≤ shared (path r) (path k0))%nat.
Proof.
  intros Hi Hq H0 Hr Hs Hb HQ Hp. assert (take (length (path q)) (path k0) = path q) as E.
  { rewrite <- (firstn_all (path q)) at 2. apply shared_components; [done..|]. rewrite firstn_all.
    apply (prefix_between _ (key_bytes (key q)) _ (key_bytes (key r))).
    - rewrite bytes_components by done. by eexists.
    - destruct Hp as [x E]. rewrite bytes_components by done. fold (path r). rewrite E, concat_app, <- app_assoc. by eexists.
    - by apply (inv_last _ _ _ _ Hi).
    - by apply (before_trans k0 k1 r); [apply (inv_order _ _ _ _ Hi)|]. }
  apply shared_most; [by apply prefix_length| |by rewrite E, prefix_longer]. apply (f_equal length) in E. rewrite length_take in E. lia.
Qed.

(** Records of one RocksDB: their keys have identifiers of one kind. *)
Definition good (k : SubDocKey.t) (r : record) : Prop := wf_record r ∧ same_kind (key r) k ∧ in_bounds r = true.

Lemma good_kind k r r' : good k r → good k r' → same_kind (key r) (key r').
Proof. unfold good, same_kind. intros (_ & [-> ->] & _) (_ & [-> ->] & _). done. Qed.

(** What a call needs to know of the state. *)
Lemma call_inputs Q k0 k1 r st k :
  invariant Q k0 k1 st → Forall (good k) Q → good k k0 → good k k1 → good k r → before k1 r →
  let s := Fastmem.common_prefix (key_bytes (key r)) (prev_subdoc_key_ st) in
  let n := num_shared (sub_key_ends_ st) s (length (sub_key_ends_ st)) in
  let ov := take (Nat.min (length (overwrite_ st)) n) (overwrite_ st) in
  n = shared (path r) (path k0) ∧ length ov = n ∧ take n (path k0) = take n (path r) ∧
  DecodeDocKeyAndSubKeyEnds (key_bytes (key r)) (take n (sub_key_ends_ st)) = Ok (component_ends (key r)) ∧
  (∀ i o, ov !! i = Some o → expiration o = Expiration.none ∧ overwrite_time Q (take (S i) (path r)) (doc_ht o)) ∧
  overwrite_time Q (path r) (last_ht ov).
Proof.
  intros Hi HQ H0 H1 Hr Hb s n ov. pose proof (wf_key_of _ (proj1 H0)) as S0. pose proof (wf_key_of _ (proj1 H1)) as S1. pose proof (wf_key_of _ (proj1 Hr)) as Sr.
  destruct (shared_count (key k0) (key k1) (key r)) as [En E1]; [done..|by eapply good_kind|by eapply good_kind|by eapply good_kind|apply Hi|done|].
  fold (path r) (path k0) (path k1) in En, E1.
  assert (n = shared (path r) (path k0)) as Hn by (unfold n, s; rewrite (inv_prev _ _ _ _ Hi), (inv_ends _ _ _ _ Hi); exact En).
  rewrite <- Hn in E1. assert (take n (path k0) = take n (path r)) as E0 by (rewrite Hn; symmetry; apply shared_take).
  destruct (shared_le (path r) (path k0)) as [Lr L0]. rewrite <- Hn in Lr, L0.
  assert (n ≤ length (path k1))%nat as L1 by (apply (f_equal length) in E1; rewrite !length_take in E1; lia).
  assert (length ov = n) as Lov.
  { pose proof (shared_most (path k1) (path k0) n L1 L0 ltac:(congruence)) as H. unfold ov. rewrite length_take, (inv_length _ _ _ _ Hi). lia. }
  assert (∀ i o, ov !! i = Some o → expiration o = Expiration.none ∧ overwrite_time Q (take (S i) (path r)) (doc_ht o)) as Hov.
  { intros i o Ho. pose proof (lookup_lt_Some _ _ _ Ho) as Hlt. unfold ov in Ho. apply lookup_take_Some in Ho as [Ho _].
    destruct (inv_times _ _ _ _ Hi i o Ho) as [He Ht]. split; [done|]. replace (S i) with (Nat.min (S i) n) by lia. rewrite <- take_take, <- E0, take_take.
    by replace (Nat.min (S i) n) with (S i) by lia. }
  split_and!; [done|done|done| |done|].
  - rewrite (inv_ends _ _ _ _ Hi), (same_ends (key k1) (key r) n) by done. apply resume_ends, Sr.
  - assert (∀ q, q ∈ Q → path q `prefix_of` path r → (length (path q) ≤ n)%nat) as Hq.
    { intros q HQq Hp. rewrite Hn. pose proof (proj1 (Forall_forall _ _) HQ q HQq) as Hg.
      by apply (above_shared Q k0 k1 r st q); [|apply wf_key_of, Hg| | |eapply good_kind| | |]. }
    unfold last_ht. rewrite last_lookup, Lov. destruct n as [|m] eqn:Em.
    + apply length_zero_iff_nil in Lov. rewrite Lov. cbn. split; [done|by left|]. intros q HQq _ Hp. specialize (Hq q HQq Hp). pose proof (path_length q). lia.
    + cbn [pred]. destruct (lookup_lt_is_Some_2 ov m) as [o Ho]; [lia|]. rewrite Ho. destruct (Hov m o Ho) as [_ Ht]. revert Ht. apply overwrite_same.
      intros q HQq. split; [intros H; etransitivity; [done|apply prefix_take]|]. intros H. apply prefix_shorter; [done|]. by apply Hq.
Qed.

Lemma prev_ok Q k0 k1 st : invariant Q k0 k1 st → stored_key (key k0) → bytes_ok (prev_subdoc_key_ st).
Proof.
  intros Hi Hk. rewrite (inv_prev _ _ _ _ Hi). pose proof (bytes_ok_key _ Hk) as H. rewrite bytes_components in H by done. by apply Forall_app in H as [H _].
Qed.

(** A record comes after those that hide it. *)
Lemma hides_before q r :
  wf_record q → wf_record r → same_kind (key q) (key r) → hides q r → bytes_compare (key_bytes (key q)) (key_bytes (key r)) = Lt.
Proof.
  intros Hq Hr Hs [Hp Hlt]. pose proof (wf_key_of q Hq) as Sq. pose proof (wf_key_of r Hr) as Sr.
  assert (drop (length (path q)) (path r) = [] ∨ ∃ x l, drop (length (path q)) (path r) = x :: l) as [E|(x & l & E)]
    by (destruct (drop _ _); eauto).
  all: destruct Hp as [z Ez]; rewrite Ez, drop_app_length in E; subst z; rewrite !bytes_components by done; fold (path q) (path r); rewrite Ez, concat_app, <- ?app_assoc, bytes_compare_app_same.
  - cbn [concat app]. assert (table_tombstone (doc_key_ (key q)) = table_tombstone (doc_key_ (key r))) as Et.
    { apply (f_equal length) in Ez. rewrite app_nil_r in Ez. unfold path, components in Ez.
      destruct (table_tombstone (doc_key_ (key q))), (table_tombstone (doc_key_ (key r))); done. }
    unfold after_components. rewrite Et, bytes_compare_app_same, compare_times, (stored_ht _ Sq), (stored_ht _ Sr) by apply stored_wf, Sq || apply stored_wf, Sr.
    rewrite ht_antisym. fold (time q) (time r). apply rank_lt in Hlt; [|by apply time_wf..]. unfold ht_lt in Hlt. by apply bool_decide_eq_true in Hlt.
  - destruct (next_component (key q) (key r) x l) as (b & s & b' & s' & -> & -> & Hb); [done..| |].
    + fold (path q) (path r). by rewrite Ez, drop_app_length.
    + cbn [concat app bytes_compare]. by rewrite (proj2 (Z.compare_lt_iff b b')).
Qed.

(** One call keeps the invariant. *)
Lemma call_step Q k0 k1 r st k :
  table_ttl retention = Value.kMaxTtl → invariant Q k0 k1 st → Forall (good k) Q → good k k0 → good k k1 → good k r → before k1 r →
  ∃ st' v, DoFilter retention major bounds st (stored r).1 (stored r).2 = Ok (st', v) ∧
    if decide (overwritten Q r) then decision v = kDiscard ∧ invariant Q k0 r st'
    else decision v = (if collected r then kDiscard else kKeep) ∧ value_changed v = false ∧ invariant (Q ++ [r]) r r st'.
Proof.
  intros Ht Hi HQ H0 H1 Hr Hb. destruct (call_inputs Q k0 k1 r st k Hi HQ H0 H1 Hr Hb) as (Hn & Lov & E0 & Hd & Hov & Hlast).
  set (s := Fastmem.common_prefix _ _) in *. set (n := num_shared _ _ _) in *. set (ov := take _ (overwrite_ st)) in *.
  pose proof (wf_key_of _ (proj1 H0)) as S0. pose proof (wf_key_of _ (proj1 Hr)) as Sr.
  destruct (shared_le (path r) (path k0)) as [Lr L0]. rewrite <- Hn in Lr, L0.
  assert (s ≤ length (concat (path r)))%nat as Hs by (unfold s; rewrite (inv_prev _ _ _ _ Hi); apply components_stop; [done..|by eapply good_kind]).
  assert (plain_times ov) as Hpl by (apply Forall_lookup; intros i o Ho; destruct (Hov i o Ho) as [He Hw]; split; [done|apply Hw]).
  pose proof (filter_step st r s ov (proj1 Hr) Ht (proj2 (proj2 Hr)) (inv_merge _ _ _ _ Hi) (prev_ok _ _ _ _ Hi S0) eq_refl Hs Hd eq_refl ltac:(by rewrite Lov) Hpl) as H.
  pose proof (overwritten_time Q r (last_ht ov) (proj1 Hr) Hlast) as How. destruct (decide (rank (time r) < rank (last_ht ov))) as [E|E].
  - eexists _, _. split; [exact H|]. rewrite decide_True by (by apply How). split; [done|]. destruct Hi. split; [done|done|done|exact (eq_trans Lov Hn)| |by eapply before_trans|done].
    intros i o Ho. change (ov !! i = Some o) in Ho. pose proof (lookup_lt_Some _ _ _ Ho) as Hlt. destruct (Hov i o Ho) as [He Hw]. split; [done|].
    rewrite Lov in Hlt. replace (S i) with (Nat.min (S i) n) by lia. rewrite <- take_take, E0, take_take. by replace (Nat.min (S i) n) with (S i) by lia.
  - destruct H as (v & H & Hdec & Hval). eexists _, _. split; [exact H|]. rewrite decide_False by (by rewrite How). split; [done|]. split; [done|].
    split; [done|done|done|by cbn [overwrite_]; rewrite shared_self, length_pushed by lia| |apply before_refl|].
    + apply pushed_times; [apply Hr|by rewrite Lov| |done|done]. intros q HQq Hp. rewrite Lov, Hn.
      pose proof (proj1 (Forall_forall _ _) HQ q HQq) as Hg. by apply (above_shared Q k0 k1 r st q); [|apply wf_key_of, Hg| | |eapply good_kind| | |].
    + intros q [HQq| ->%list_elem_of_singleton]%elem_of_app; [|apply before_refl].
      eapply before_trans; [by apply (inv_last _ _ _ _ Hi)|]. eapply before_trans; [apply (inv_order _ _ _ _ Hi)|done].
Qed.

Lemma first_call r k :
  table_ttl retention = Value.kMaxTtl → good k r →
  ∃ st v, DoFilter retention major bounds init (stored r).1 (stored r).2 = Ok (st, v) ∧
    decision v = (if collected r then kDiscard else kKeep) ∧ value_changed v = false ∧ invariant [r] r r st.
Proof.
  intros Ht Hr. pose proof (wf_key_of _ (proj1 Hr)) as Sr. assert (Fastmem.common_prefix (key_bytes (key r)) [] = 0)%nat as Hs by (by destruct (key_bytes (key r))).
  pose proof (filter_step init r 0 [] (proj1 Hr) Ht (proj2 (proj2 Hr)) eq_refl (Forall_nil_2 _) Hs ltac:(lia) (resume_ends (key r) 0 Sr) eq_refl ltac:(cbn; lia) (Forall_nil_2 _)) as H.
  assert (overwrite_time [] (path r) DocHybridTime.kMin) as H0 by (split; [done|by left|by intros ? ?%not_elem_of_nil]).
  rewrite decide_False in H.
  2: { intros Hlt. apply (overwritten_time [] r _ (proj1 Hr) H0) in Hlt as (q & Hq & _). by apply not_elem_of_nil in Hq. }
  destruct H as (v & H & Hdec & Hval). eexists _, _. split; [exact H|]. split; [done|]. split; [done|].
  split; [done|done|done|by cbn [overwrite_]; rewrite shared_self, length_pushed by (cbn; lia)| |apply before_refl|].
  - apply (pushed_times [] r []); [apply Hr|cbn; lia|by intros ? ?%not_elem_of_nil|done|done].
  - intros q ->%list_elem_of_singleton. apply before_refl.
Qed.

Definition later (r r' : record) : Prop := bytes_compare (key_bytes (key r)) (key_bytes (key r')) = Lt.

(** Of all records, the ones before it decide about a record, and of these the ones that were not overwritten. *)
Lemma overwritten_so_far D Q r rest k :
  Forall (good k) (D ++ r :: rest) → Forall (later r) rest → (∀ q, q ∈ Q → q ∈ D) → (∀ d, d ∈ D → d ∈ Q ∨ overwritten Q d) →
  overwritten (D ++ r :: rest) r ↔ overwritten Q r.
Proof.
  intros Hg Hl HQ HD. rewrite Forall_forall in Hg, Hl. split.
  - intros (q & Hq & Ho & Hh). assert (q ∈ D) as HqD.
    { apply elem_of_app in Hq as [?|Hq]; [done|exfalso]. apply elem_of_cons in Hq as [->|Hq]; [destruct Hh; lia|].
      assert (good k q) as Gq by (apply Hg; apply elem_of_app; right; by apply list_elem_of_further).
      assert (good k r) as Gr by (apply Hg; apply elem_of_app; right; by apply list_elem_of_here).
      pose proof (hides_before q r (proj1 Gq) (proj1 Gr) (good_kind k q r Gq Gr) Hh) as H. specialize (Hl q Hq). unfold later in Hl.
      rewrite bytes_compare_antisym, Hl in H. done. }
    destruct (HD q HqD) as [|(q' & Hq' & Ho' & Hp' & Hlt')]; [by exists q|]. destruct Hh as [Hp Hlt]. exists q'. split_and!; [done|done|].
    split; [by etransitivity|lia].
  - intros (q & Hq & H). exists q. split; [|done]. apply elem_of_app. left. by apply HQ.
Qed.

Lemma compact_cons st st' v r rest out :
  DoFilter retention major bounds st (stored r).1 (stored r).2 = Ok (st', v) →
  compact retention major bounds st' (stored <$> rest) = Ok out →
  compact retention major bounds st (stored <$> r :: rest) = Ok (apply_verdict (stored r).1 (stored r).2 v ++ out).
Proof. intros H1 H2. rewrite fmap_cons. cbn [compact]. unfold Filter. destruct (stored r) as [x y]. cbn [fst snd] in H1. rewrite H1. cbn [obind]. by rewrite H2. Qed.

Lemma verdict_kept D r v :
  ¬ overwritten D r → decision v = (if collected r then kDiscard else kKeep) → value_changed v = false →
  ∀ l, apply_verdict (stored r).1 (stored r).2 v ++ (stored <$> filter (kept D) l) = stored <$> filter (kept D) (r :: l).
Proof.
  intros Hn Hd Hv l. rewrite filter_cons. unfold apply_verdict. rewrite Hd, Hv. case_decide as E; destruct (collected r) eqn:Ec; [|done|done|].
  - destruct E. congruence.
  - by destruct E.
Qed.

(** The calls for the rest of the records. *)
Lemma compact_rest k rest st Q k0 k1 D :
  table_ttl retention = Value.kMaxTtl → invariant Q k0 k1 st → Forall (good k) (D ++ rest) → k0 ∈ D → k1 ∈ D →
  (∀ q, q ∈ Q → q ∈ D) → (∀ d, d ∈ D → d ∈ Q ∨ overwritten Q d) → StronglySorted later (k1 :: rest) →
  compact retention major bounds st (stored <$> rest) = Ok (stored <$> filter (kept (D ++ rest)) rest).
Proof.
  intros Ht. revert st Q k0 k1 D. induction rest as [|r rest IH]; intros st Q k0 k1 D Hi Hg H0 H1 HQ HD Hs; [done|].
  apply StronglySorted_inv in Hs as [Hs Hk1]. apply Forall_cons in Hk1 as [Hk1 _]. pose proof (StronglySorted_inv Hs) as [_ Hr].
  pose proof (overwritten_so_far D Q r rest k Hg Hr HQ HD) as How. pose proof (proj1 (Forall_forall _ _) Hg) as Hg'.
  assert (∀ x, x ∈ D → good k x) as HgD by (intros x Hx; apply Hg', elem_of_app; by left).
  assert (Forall (good k) Q) as HgQ by (apply Forall_forall; auto).
  assert (good k r) as Gr by (apply Hg', elem_of_app; right; by apply list_elem_of_here).
  destruct (call_step Q k0 k1 r st k Ht Hi HgQ (HgD _ H0) (HgD _ H1) Gr) as (st' & v & Ec & Hv); [unfold before; by rewrite Hk1|].
  assert (D ++ r :: rest = (D ++ [r]) ++ rest) as Ea by (by rewrite <- app_assoc).
  assert (∀ x, x ∈ D ++ [r] ↔ x ∈ D ∨ x = r) as Hx by (intros x; by rewrite elem_of_app, list_elem_of_singleton).
  destruct (decide (overwritten Q r)) as [Hov|Hov].
  - destruct Hv as [Hd Hi']. assert (compact retention major bounds st' (stored <$> rest) = Ok (stored <$> filter (kept (D ++ r :: rest)) rest)) as E.
    { rewrite Ea in Hg |- *. apply (IH st' Q k0 r (D ++ [r])); try done; [apply Hx; by left|apply Hx; by right| |].
      - intros q Hq. apply Hx. left. by apply HQ.
      - intros d [Hd'| ->]%Hx; [by apply HD|by right]. }
    rewrite (compact_cons _ _ _ _ _ _ Ec E). unfold apply_verdict. rewrite Hd, filter_cons, decide_False; [done|]. intros [Hn _]. by apply Hn, How.
  - destruct Hv as (Hd & Hval & Hi'). rewrite <- (verdict_kept (D ++ r :: rest) r v) by (done || by rewrite How).
    apply (compact_cons st st' v r rest); [done|]. rewrite Ea in Hg |- *. apply (IH st' (Q ++ [r]) r r (D ++ [r])); try done.
    + apply Hx. by right.
    + apply Hx. by right.
    + intros q [Hq| ->%list_elem_of_singleton]%elem_of_app; apply Hx; [left; by apply HQ|by right].
    + intros d [Hd'| ->]%Hx; [|left; apply elem_of_app; right; by apply list_elem_of_singleton].
      destruct (HD d Hd') as [Hq|(q & Hq & H)]; [left; apply elem_of_app; by left|]. right. exists q. split; [|done]. apply elem_of_app. by left.
Qed.

(** Records outside of the bounds of the tablet are dropped and leave no trace. *)
Lemma compact_bounds st rs :
  compact retention major bounds st (stored <$> rs) = compact retention major bounds st (stored <$> filter (λ r, in_bounds r = true) rs).
Proof.
  revert st. induction rs as [|r rs IH]; intros st; [done|]. rewrite filter_cons. unfold stored at 1 2. rewrite !fmap_cons. case_decide as E.
  - rewrite fmap_cons. cbn [compact]. destruct (Filter _ _ _ _ _ _) as [[st' v]|?| |]; [|done..]. cbn [obind]. by rewrite IH.
  - cbn [compact]. unfold Filter, DoFilter. unfold in_bounds in E. destruct bounds as [b|]; [|done]. destruct (KeyBounds.IsWithinBounds b _); [done|].
    cbn [negb obind discard decision apply_verdict app]. rewrite <- IH. unfold stored. by destruct (compact _ _ _ _ _).
Qed.

(** The records of a RocksDB in the order of their keys. *)
Record wf_db (rs : list record) : Prop := {
  wf_records : Forall wf_record rs;
  wf_kinds : ∀ r r', r ∈ rs → r' ∈ rs → same_kind (key r) (key r');
  wf_sorted : StronglySorted later rs;
}.

Definition live (rs : list record) : list record := filter (λ r, in_bounds r = true) rs.

Lemma strongly_sorted_filter {T} (R : T → T → Prop) (P : T → Prop) `{!∀ x, Decision (P x)} l : StronglySorted R l → StronglySorted R (filter P l).
Proof.
  intros Hs. induction Hs as [|x l Hs IH Hx]; [constructor|]. rewrite filter_cons. case_decide; [|done]. constructor; [done|].
  apply Forall_forall. intros y [_ Hy]%list_elem_of_filter. by apply (proj1 (Forall_forall _ _) Hx).
Qed.

Lemma compact_live rs :
  table_ttl retention = Value.kMaxTtl → wf_db rs → compact retention major bounds init (stored <$> rs) = Ok (stored <$> filter (kept (live rs)) (live rs)).
Proof.
  intros Ht [Hw Hk Hs]. rewrite compact_bounds. fold (live rs). pose proof (strongly_sorted_filter later (λ r, in_bounds r = true) rs Hs) as Hl. fold (live rs) in Hl.
  assert (∀ x, x ∈ live rs → in_bounds x = true ∧ x ∈ rs) as Hin by (intros x Hx; by apply list_elem_of_filter in Hx).
  destruct (live rs) as [|r l] eqn:El; [done|]. assert (Forall (good (key r)) (r :: l)) as Hg.
  { apply Forall_forall. intros x Hx. destruct (Hin x Hx) as [Hb Hx']. split_and!; [by apply (proj1 (Forall_forall _ _) Hw)| |done].
    apply Hk; [done|]. apply Hin, list_elem_of_here. }
  destruct (first_call r (key r) Ht) as (st & v & Ec & Hd & Hv & Hi); [by apply Forall_cons in Hg as [? _]|].
  assert (¬ overwritten (r :: l) r) as Hn.
  { pose proof (proj2 (StronglySorted_inv Hl)) as Hr. intros H. apply (overwritten_so_far [] [] r l (key r)) in H as (q & Hq & _); [by apply not_elem_of_nil in Hq|done|done|done|by intros ? ?%not_elem_of_nil]. }
  rewrite <- (verdict_kept (r :: l) r v Hn Hd Hv). apply (compact_cons init st v r l); [done|].
  apply (compact_rest (key r) l st [r] r r [r]); try done; [by apply list_elem_of_singleton..|]. intros d Hd'. by left.
Qed.

(** ** What is left for later times *)

(** The records that count at the time [T]: a record that is not a tombstone and that no record up to the time hides. *)
Definition visible (T : Z) (rs : list record) (r : record) : Prop :=
  DocHybridTime.hybrid_time_ (time r) <= T ∧ tombstone r = false ∧
  ¬ Exists (λ r', DocHybridTime.hybrid_time_ (time r') <= T ∧ hides r' r) rs.
#[export] Instance visible_dec T rs r : Decision (visible T rs r) := _.

(** Among the records that hide one up to a time, the latest. *)
Lemma latest_hider (P : record → Prop) `{!∀ x, Decision (P x)} rs :
  Exists P rs → ∃ r, r ∈ rs ∧ P r ∧ ∀ r', r' ∈ rs → P r' → rank (time r') <= rank (time r).
Proof.
  induction rs as [|x rs IH]; [by intros ?%Exists_nil|]. intros HE. destruct (decide (Exists P rs)) as [E|E].
  - destruct (IH E) as (r & Hr & HP & Hmax). destruct (decide (P x ∧ rank (time r) < rank (time x))) as [[Hx Hlt]|Hx].
    + exists x. split_and!; [apply list_elem_of_here|done|]. intros r' [->|Hr']%elem_of_cons HP'; [lia|]. specialize (Hmax r' Hr' HP'). lia.
    + exists r. split_and!; [by apply list_elem_of_further|done|]. intros r' [->|Hr']%elem_of_cons HP'; [|by apply Hmax].
      destruct (Z.le_gt_cases (rank (time x)) (rank (time r))); [done|]. by destruct Hx.
  - apply Exists_cons in HE as [HE|HE]; [|done]. exists x. split_and!; [apply list_elem_of_here|done|].
    intros r' [->|Hr']%elem_of_cons HP'; [lia|]. destruct E. apply Exists_exists. eauto.
Qed.

Lemma old_le r T : history_cutoff retention <= T → old r = true → DocHybridTime.hybrid_time_ (time r) <= T.
Proof. unfold old. intros HT Ho%Z.leb_le. lia. Qed.

(** A record that is kept is hidden among those that are kept if it is hidden at all. *)
Lemma hidden_kept T rs r :
  history_cutoff retention <= T → kept rs r →
  Exists (λ r', DocHybridTime.hybrid_time_ (time r') <= T ∧ hides r' r) rs →
  Exists (λ r', DocHybridTime.hybrid_time_ (time r') <= T ∧ hides r' r) (filter (kept rs) rs).
Proof.
  intros HT [Hn Hc] (q & Hq & [HqT Hh] & Hmax)%latest_hider; [|apply _]. apply Exists_exists. exists q. split; [|done].
  apply list_elem_of_filter. split; [|done]. split.
  - intros (q' & Hq' & Ho & Hp & Hlt). destruct Hh as [Hp' Hlt']. specialize (Hmax q' Hq').
    assert (rank (time q') <= rank (time q)); [|lia]. apply Hmax. split; [by apply old_le|]. split; [by etransitivity|lia].
  - destruct (collected q) eqn:E; [|done]. destruct Hn. exists q. unfold collected in E. bool_tests. done.
Qed.

Lemma visible_kept T rs : history_cutoff retention <= T → filter (visible T (filter (kept rs) rs)) (filter (kept rs) rs) = filter (visible T rs) rs.
Proof.
  intros HT. rewrite list_filter_filter. apply list_filter_iff. intros r. split.
  - intros [(H1 & H2 & H3) Hk]. split_and!; [done|done|]. intros H. by apply H3, hidden_kept.
  - intros (H1 & H2 & H3). split; [split_and!; [done|done|]|split].
    + intros (q & [_ Hq]%list_elem_of_filter & H)%Exists_exists. apply H3, Exists_exists. eauto.
    + intros (q & Hq & Ho & Hh). apply H3, Exists_exists. exists q. split; [done|]. split; [by apply old_le|done].
    + unfold collected. by rewrite H2.
Qed.

End Compaction.

(** ** A document that is deleted and written again *)

Definition sample_key (l : list PrimitiveValue.t) (ht : Z) : SubDocKey.t := SubDocKey.mk (doc_key_ (sample_sub 3 DocHybridTime.sample)) (DocHybridTime.mk ht 0) l.
Definition sample_record (l : list PrimitiveValue.t) (ht : Z) (p : bytes) : record :=
  mk_record (sample_key l ht) (Value.of_primitive (PrimitiveValue.of_type kNullLow) Value.kMaxTtl Value.kInvalidUserTimestamp 0) p.

Definition sample_path : list PrimitiveValue.t := [PrimitiveValue.ArrayIndex 3].
Definition sample_db : list record :=
  [sample_record [] 20 [code kTombstone]; sample_record sample_path 30 [83; 98]; sample_record sample_path 10 [83; 97]].

Lemma sample_record_wf l ht p :
  l = [] ∨ l = sample_path → 0 <= ht < 100 → p = [code kTombstone] ∨ p = [83; 98] ∨ p = [83; 97] → wf_record (sample_record l ht p).
Proof.
  intros Hl Hht Hp. destruct (sample_sub_wf 3 DocHybridTime.sample ltac:(unfold is_i64; lia) DocHybridTime.sample_wf) as [[Hd _ Hs] _].
  assert (Forall DocKeyCodec.item l) as Hi.
  { destruct Hl as [->| ->]; [constructor|]. cbn [sample_sub SubDocKey.subkeys_] in Hs. by apply Forall_cons in Hs as [_ Hs]. }
  split; [|split; cbn; unfold is_i64, is_u64; try done; lia|done|done| |by destruct Hp as [->|[->| ->]]|].
  - split; [|unfold has_hybrid_time, DocHybridTime.is_valid, HybridTime.is_valid; apply negb_true_iff, Z.eqb_neq; cbn [sample_record sample_key key doc_ht_ DocHybridTime.hybrid_time_]; unfold HybridTime.kInvalid, HybridTime.kMax; lia|done|].
    + split; [done| |done]. split; cbn; unfold is_u64, is_u32; lia.
    + intros v l' E. vm_compute in E. by injection E as <- _.
  - destruct Hp as [->|[->| ->]]; bytes_done.
  - destruct Hp as [->|[->| ->]]; repeat constructor; done.
Qed.

Lemma sample_db_wf : wf_db sample_db.
Proof.
  split.
  - repeat (apply Forall_cons_2); [..|constructor]; apply sample_record_wf; auto; lia.
  - intros r r' Hr Hr'. assert (∀ x, x ∈ sample_db → doc_key_ (key x) = doc_key_ (sample_sub 3 DocHybridTime.sample)) as H.
    { intros x. unfold sample_db. rewrite !elem_of_cons. intros [->|[->|[->|[]%not_elem_of_nil]]]; done. }
    unfold same_kind. by rewrite (H r Hr), (H r' Hr').
  - repeat constructor; vm_compute; reflexivity.
Qed.

Definition sample_retention : HistoryRetentionDirective :=
  {| history_cutoff := 25; deleted_cols := []; table_ttl := Value.kMaxTtl; retain_delete_markers_in_major_compaction := false |}.

(** ** Theorems *)

(** C15: In a table without a time to live, and of records without a time to live of their own and without merge flags, a compaction writes
    every record within the bounds of the tablet as it is, but for those that a record at or before the history cutoff overwrites, at the
    same path, above it or for the whole table, and, in a major compaction that does not retain delete markers, for tombstones at or before
    the cutoff; the times of intents and the columns that were deleted from the schema make no difference. *)
Theorem compaction_drops_history
    {B : BigNum} {HB : BigNumSpec B} {V : UuidVersion} {HV : UuidVersionSpec V} {A : IpAddress} {HA : IpAddressSpec A}
    (retention : HistoryRetentionDirective) (major : bool) (bounds : option KeyBounds.t) (rs : list record) :
  wf_db rs → table_ttl retention = Value.kMaxTtl →
  (∀ r, r ∈ rs → SubDocKey.Encode (key r) = Ok (stored r).1 ∧ Value.EncodeAndAppend (control r) [] (Some (payload r)) = Ok (stored r).2) ∧
  compact retention major bounds init (stored <$> rs) =
    Ok (stored <$> filter (kept retention major (live bounds rs)) (live bounds rs)).
Proof.
  intros Hw Ht. split; [|by apply compact_live]. intros r Hr. destruct (proj1 (Forall_forall _ _) (wf_records _ Hw) r Hr) as [Hk Hc _ _ _ _ _]. split.
  - unfold Encode. by rewrite encode_sub by apply Hk.
  - by rewrite ValueCodec.encode_value.
Qed.

Lemma compaction_drops_history_witness :
  compact (B := ZNum) sample_retention true None init (stored <$> sample_db) = Ok [stored (sample_record sample_path 30 [83; 98])].
Proof.
  destruct (compaction_drops_history (B := ZNum) sample_retention true None sample_db sample_db_wf eq_refl) as [_ ->]. vm_compute. reflexivity.
Defined.

(** Of tables and records as above, the records that are not overwritten or deleted up to a time, which is the history cutoff or
    later, are the same, in the same order, before and after a compaction, minor or major. *)
Theorem compaction_keeps_latest
    {B : BigNum} {HB : BigNumSpec B} {V : UuidVersion} {HV : UuidVersionSpec V} {A : IpAddress} {HA : IpAddressSpec A}
    (retention : HistoryRetentionDirective) (major : bool) (bounds : option KeyBounds.t) (rs : list record) (T : Z) :
  wf_db rs → table_ttl retention = Value.kMaxTtl → history_cutoff retention <= T →
  ∃ rs', compact retention major bounds init (stored <$> rs) = Ok (stored <$> rs') ∧
    filter (visible T rs') rs' = filter (visible T (live bounds rs)) (live bounds rs).
Proof.
  intros Hw Ht HT. eexists. split; [by apply compact_live|]. by apply visible_kept.
Qed.

Lemma compaction_keeps_latest_witness :
  ∃ rs', compact (B := ZNum) sample_retention false None init (stored <$> sample_db) = Ok (stored <$> rs') ∧ filter (visible 25 rs') rs' = [].
Proof.
  destruct (compaction_keeps_latest (B := ZNum) sample_retention false None sample_db 25 sample_db_wf eq_refl (Z.le_refl 25)) as (rs' & E & Ev).
  exists rs'. split; [exact E|]. rewrite Ev. vm_compute. reflexivity.
Defined.

End Compactions.
