(* ===== verification/WriteBatches.v ===== *)
(** * Write batches outside of transactions

    Models of docdb/docdb.cc what turns the pairs of a replicated write into
    operations on the two RocksDBs ([AddPairToWriteBatch],
    [PrepareNonTransactionWriteBatch]) and the intents of transactions of another
    cluster, which arrive combined into one value, are stored, and are applied
    when the transaction is ([CombineExternalIntents],
    [PrepareApplyExternalIntentsBatch], [PrepareApplyExternalIntents],
    [ProcessApplyExternalTransactions]). *)

From S2P Require Import Prelude Slice FastVarint HybridTime DocHybridTime ValueType KvUtil Uuid Intent IntentsDb.

Module WriteBatches.
Import ValueType Store IntentWriter.

(** ** External intents *)

Definition append_sized (x buffer : bytes) : bytes := KeyBytes.AppendRawBytes x (KeyBytes.AppendUInt64AsVarInt (Z.of_nat (length x)) buffer).

(** The key and the value that the provider gets for its intents. *)
Definition CombineExternalIntents (txn_id involved_tablet : bytes) (intents : list (bytes * bytes)) : bytes * bytes :=
  (KeyBytes.AppendRawBytes txn_id (KeyBytes.AppendValueType kExternalTransactionId []),
   let buffer := KeyBytes.AppendValueType kUuid [] in
   let buffer := KeyBytes.AppendRawBytes involved_tablet buffer in
   let buffer := KeyBytes.AppendValueType kExternalIntents buffer in
   let buffer := foldl (λ buffer i, append_sized i.2 (append_sized i.1 buffer)) buffer intents in
   KeyBytes.AppendUInt64AsVarInt 0 buffer).

(** A size and that many bytes. *)
Definition take_sized (size : Z) (input_value : bytes) : outcome (bytes * bytes) :=
  if Z.of_nat (length input_value) <? size then Err Corruption
  else Ok (take (Z.to_nat size) input_value, drop (Z.to_nat size) input_value).

Fixpoint apply_intents (fuel : nat) (commit_ht : Z) (input_value : bytes) (regular_batch : list op) (write_id : Z) : outcome (list op * Z) :=
  match fuel with
  | O => Fatal
  | S fuel =>
      let! (key_size, input_value) := FastDecodeUnsignedVarIntSlice input_value in
      if key_size =? 0 then Ok (regular_batch, write_id)
      else
        let! (output_key, input_value) := take_sized key_size input_value in
        let! (value_size, input_value) := FastDecodeUnsignedVarIntSlice input_value in
        let! (output_value, input_value) := take_sized value_size input_value in
        let! doc_ht := EncodeWithValueType (DocHybridTime.mk commit_ht write_id) in
        apply_intents fuel commit_ht input_value (regular_batch ++ [Put (output_key ++ doc_ht) output_value]) (u32 (write_id + 1))
  end.

Definition PrepareApplyExternalIntentsBatch (commit_ht : Z) (original_input_value : bytes) (regular_batch : list op) (write_id : Z) :
    outcome (list op * Z) :=
  let! input_value := Slice.consume_byte_eq original_input_value kUuid in
  if (length input_value <? Uuid.kUuidSize)%nat then UB
  else
    let! _ := Uuid.FromSlice (take Uuid.kUuidSize input_value) 0 in
    let! input_value := Slice.remove_prefix input_value Uuid.kUuidSize in
    let! input_value := Slice.consume_byte_eq input_value kExternalIntents in
    apply_intents (length input_value + 1) commit_ht input_value regular_batch write_id.

(** [ExternalTxnApplyState]: commit time and next write id, ordered by transaction. *)
Definition ExternalTxnApplyState := list (TransactionId.t * (Z * Z)).

Fixpoint emplace (id : TransactionId.t) (data : Z * Z) (state : ExternalTxnApplyState) : ExternalTxnApplyState :=
  match state with
  | [] => [(id, data)]
  | (id', data') :: rest =>
      match bytes_compare id id' with
      | Lt => (id, data) :: state
      | Eq => state
      | Gt => (id', data') :: emplace id data rest
      end
  end.

Fixpoint find (id : TransactionId.t) (state : ExternalTxnApplyState) : option (Z * Z) :=
  match state with
  | [] => None
  | (id', data) :: rest => if bool_decide (id = id') then Some data else find id rest
  end.

Definition set_write_id (id : TransactionId.t) (write_id : Z) (state : ExternalTxnApplyState) : ExternalTxnApplyState :=
  (λ e, if bool_decide (e.1 = id) then (e.1, (e.2.1, write_id)) else e) <$> state.

Fixpoint ProcessApplyExternalTransactions (applies : list (bytes * Z)) (result : ExternalTxnApplyState) : outcome ExternalTxnApplyState :=
  match applies with
  | [] => Ok result
  | (transaction_id, commit_hybrid_time) :: applies =>
      match TransactionId.FullyDecodeTransactionId transaction_id with
      | Ok id => ProcessApplyExternalTransactions applies (emplace id (commit_hybrid_time, 0) result)
      | _ => Fatal
      end
  end.

(** The two batches; one that is missing is a null pointer. *)
Record batches := Batches { regular : option (list op); intents : option (list op) }.
Definition put_regular (l : list op) (b : batches) : batches := Batches ((.++ l) <$> regular b) (intents b).
Definition put_intents (l : list op) (b : batches) : batches := Batches (regular b) ((.++ l) <$> intents b).

(** The entries the iterator visits for one transaction. *)
Definition key_prefix (id : TransactionId.t) : bytes := KeyBytes.AppendRawBytes id (KeyBytes.AppendValueType kExternalTransactionId []).

Fixpoint while_prefix (p : bytes) (d : db) : db :=
  match d with
  | [] => []
  | e :: d => if bool_decide (p `prefix_of` e.1) then e :: while_prefix p d else []
  end.

Definition stored_intents (intents_db : db) (id : TransactionId.t) : db :=
  let upperbound := KeyBytes.AppendValueType kMaxByte (key_prefix id) in
  while_prefix (key_prefix id) (seek (key_prefix id) (filter (λ e, bytes_compare e.1 upperbound = Lt) intents_db)).

Fixpoint apply_stored (commit_ht : Z) (entries : db) (b : batches) (write_id : Z) : outcome (batches * Z) :=
  match entries with
  | [] => Ok (b, write_id)
  | (input_key, value) :: entries =>
      let! (b, write_id) :=
        match regular b with
        | Some l => let! (l, write_id) := PrepareApplyExternalIntentsBatch commit_ht value l write_id in Ok (Batches (Some l) (intents b), write_id)
        | None => Ok (b, write_id)
        end in
      apply_stored commit_ht entries (put_intents [SingleDelete input_key] b) write_id
  end.

Fixpoint PrepareApplyExternalIntents (state : ExternalTxnApplyState) (intents_db : db) (b : batches) : outcome (ExternalTxnApplyState * batches) :=
  match state with
  | [] => Ok ([], b)
  | (id, (commit_ht, write_id)) :: state =>
      let! (b, write_id) := apply_stored commit_ht (stored_intents intents_db id) b write_id in
      let! (state, b) := PrepareApplyExternalIntents state intents_db b in
      Ok ((id, (commit_ht, write_id)) :: state, b)
  end.

(** ** The pairs of a write *)

Record KeyValuePairPB := { key : bytes; value : bytes; external_hybrid_time : option Z }.

(** Any error of a checked call ends the process. *)
Definition checked {T} (m : outcome T) : outcome T := match m with Err _ => Fatal | m => m end.

Definition AddPairToWriteBatch (kv_pair : KeyValuePairPB) (hybrid_time write_id : Z) (state : ExternalTxnApplyState) (b : batches) :
    outcome (ExternalTxnApplyState * batches) :=
  if bool_decide (key kv_pair = []) then Fatal
  else if bool_decide (value kv_pair = []) then Fatal
  else
    let! first := byte_at (key kv_pair) 0 in
    let hybrid_time := default hybrid_time (external_hybrid_time kv_pair) in
    let! doc_ht := EncodeWithValueType (DocHybridTime.mk hybrid_time (u32 write_id)) in
    if negb (first =? as_char kExternalTransactionId) then
      match regular b with
      | None => UB
      | Some _ => Ok (state, put_regular [Put (key kv_pair ++ doc_ht) (value kv_pair)] b)
      end
    else
      let! (txn_id, _) := checked (TransactionId.DecodeTransactionId (drop 1 (key kv_pair))) in
      match find txn_id state with
      | Some (commit_ht, id) =>
          match regular b with
          | None => UB
          | Some l =>
              let! (l, id) := checked (PrepareApplyExternalIntentsBatch commit_ht (value kv_pair) l id) in
              Ok (set_write_id txn_id id state, Batches (Some l) (intents b))
          end
      | None =>
          match intents b with
          | None => UB
          | Some _ => Ok (state, put_intents [Put (key kv_pair ++ InvertedDocHt doc_ht) (value kv_pair)] b)
          end
      end.

Fixpoint add_pairs (write_pairs : list KeyValuePairPB) (hybrid_time write_id : Z) (state : ExternalTxnApplyState) (b : batches) : outcome batches :=
  match write_pairs with
  | [] => Ok b
  | p :: write_pairs =>
      let! (state, b) := AddPairToWriteBatch p hybrid_time write_id state b in
      add_pairs write_pairs hybrid_time (write_id + 1) state b
  end.

Record KeyValueWriteBatchPB := { write_pairs : list KeyValuePairPB; read_pairs : list KeyValuePairPB; apply_external_transactions : list (bytes * Z) }.

Definition PrepareNonTransactionWriteBatch (put_batch : KeyValueWriteBatchPB) (hybrid_time : Z) (intents_db : db) (b : batches) : outcome batches :=
  if negb (bool_decide (read_pairs put_batch = [])) then Fatal
  else
    let! state := ProcessApplyExternalTransactions (apply_external_transactions put_batch) [] in
    let! (state, b) := checked (PrepareApplyExternalIntents state intents_db b) in
    add_pairs (write_pairs put_batch) hybrid_time 0 state b.

End WriteBatches.

(** ** Applying external intents *)

Module ExternalIntents.
Import ValueType Store IntentWriter TransactionRecords WriteBatches.

Definition sized (x : bytes) : bytes := FastEncodeUnsignedVarInt (Z.of_nat (length x)) ++ x.
Definition sized_pairs (l : list (bytes * bytes)) : bytes := concat ((λ i, sized i.1 ++ sized i.2) <$> l).

(** Intents that can be combined: an empty key would end the list. *)
Definition intent_ok (i : bytes * bytes) : Prop :=
  i.1 ≠ [] ∧ Z.of_nat (length i.1) < 2 ^ 64 ∧ Z.of_nat (length i.2) < 2 ^ 64.

Lemma combined_pairs l buffer :
  foldl (λ buffer i, append_sized i.2 (append_sized i.1 buffer)) buffer l = buffer ++ sized_pairs l.
Proof.
  revert buffer. induction l as [|i l IH]; intros buffer; cbn [foldl]; [by rewrite app_nil_r|]. rewrite IH.
  unfold append_sized, KeyBytes.AppendUInt64AsVarInt, KeyBytes.AppendRawBytes, sized_pairs, sized. cbn [fmap list_fmap concat].
  by rewrite <- !app_assoc.
Qed.

Lemma decode_size n rest :
  0 <= n < 2 ^ 64 → FastDecodeUnsignedVarIntSlice (FastEncodeUnsignedVarInt n ++ rest) = Ok (n, rest).
Proof. intros Hn. unfold FastDecodeUnsignedVarIntSlice. rewrite decode_unsigned_spec by done. cbn [obind]. by rewrite Nat2Z.id, drop_app_length. Qed.

Lemma take_sized_app x rest : take_sized (Z.of_nat (length x)) (x ++ rest) = Ok (x, rest).
Proof.
  unfold take_sized. rewrite (proj2 (Z.ltb_ge _ _)) by (rewrite length_app; lia). by rewrite Nat2Z.id, take_app_length, drop_app_length.
Qed.

(** The record of an intent in the regular database. *)
Definition applied_put (commit_ht w0 : Z) (j : nat) (i : bytes * bytes) : op :=
  Put (i.1 ++ code kHybridTime :: enc (DocHybridTime.mk commit_ht (w0 + Z.of_nat j))) i.2.

Lemma encode_time commit_ht w : is_u64 commit_ht → is_u32 w → EncodeWithValueType (DocHybridTime.mk commit_ht w) = Ok (code kHybridTime :: enc (DocHybridTime.mk commit_ht w)).
Proof. intros Hc Hw. unfold EncodeWithValueType. rewrite enc_ok; [done|]. by split. Qed.

Lemma apply_pairs commit_ht l fuel batch w rest :
  is_u64 commit_ht → Forall intent_ok l → 0 <= w → w + Z.of_nat (length l) < 2 ^ 32 → (length l < fuel)%nat →
  apply_intents fuel commit_ht (sized_pairs l ++ FastEncodeUnsignedVarInt 0 ++ rest) batch w =
  Ok (batch ++ imap (applied_put commit_ht w) l, w + Z.of_nat (length l)).
Proof.
  intros Hc Hl. revert fuel batch w. induction Hl as [|[k v] l (Hne & Hk & Hv) Hl IH]; intros fuel batch w Hw Hb Hf; (destruct fuel as [|fuel]; [cbn [length] in Hf; lia|]); cbn [apply_intents].
  - cbn [sized_pairs fmap list_fmap concat app]. rewrite decode_size by done. cbn. by rewrite app_nil_r, Z.add_0_r.
  - unfold sized_pairs. cbn [fmap list_fmap concat fst snd] in *. fold (sized_pairs l). unfold sized. rewrite <- !app_assoc.
    rewrite decode_size by lia. cbn [obind]. rewrite (proj2 (Z.eqb_neq _ 0)) by (destruct k; [done|cbn [length]; lia]).
    rewrite take_sized_app. cbn [obind]. rewrite decode_size by lia. cbn [obind]. rewrite take_sized_app. cbn [obind].
    cbn [length] in Hb, Hf. rewrite encode_time by (done || unfold is_u32; lia). cbn [obind]. rewrite (u32_small (w + 1)) by (unfold is_u32; lia).
    rewrite IH by lia. rewrite imap_cons, <- app_assoc. cbn [app]. f_equal. f_equal; [|cbn [length]; lia]. f_equal. f_equal.
    + unfold applied_put. cbn [fst snd]. by rewrite Z.add_0_r.
    + apply imap_ext. intros j i _. unfold applied_put, compose. by replace (w + 1 + Z.of_nat j) with (w + Z.of_nat (S j)) by lia.
Qed.

Lemma combined_value id tablet l :
  (CombineExternalIntents id tablet l).2 = code kUuid :: tablet ++ code kExternalIntents :: sized_pairs l ++ FastEncodeUnsignedVarInt 0.
Proof.
  unfold CombineExternalIntents. cbn [snd]. rewrite combined_pairs. unfold KeyBytes.AppendUInt64AsVarInt, KeyBytes.AppendRawBytes, KeyBytes.AppendValueType.
  rewrite <- !app_assoc. done.
Qed.

Lemma pairs_length l : Forall intent_ok l → (length l ≤ length (sized_pairs l))%nat.
Proof.
  intros Hl. induction Hl as [|[k v] l (Hne & _) Hl IH]; [done|]. unfold sized_pairs in *. cbn [fmap list_fmap concat length fst snd] in *. unfold sized at 1.
  rewrite !length_app. destruct k; [done|]. cbn [length]. lia.
Qed.

(** What was combined is applied. *)
Lemma apply_combined commit_ht id tablet l batch w :
  is_u64 commit_ht → length tablet = Uuid.kUuidSize → Forall intent_ok l → 0 <= w → w + Z.of_nat (length l) < 2 ^ 32 →
  PrepareApplyExternalIntentsBatch commit_ht (CombineExternalIntents id tablet l).2 batch w =
  Ok (batch ++ imap (applied_put commit_ht w) l, w + Z.of_nat (length l)).
Proof.
  intros Hc Ht Hl Hw Hb. rewrite combined_value. unfold PrepareApplyExternalIntentsBatch, Slice.consume_byte_eq. cbn [Slice.consume_byte obind]. rewrite Z.eqb_refl. cbn [negb obind].
  rewrite (proj2 (Nat.ltb_ge _ _)) by (rewrite length_app; lia). rewrite <- Ht, take_app_length. unfold Uuid.FromSlice. cbn [Nat.eqb].
  rewrite Nat.ltb_irrefl, Ht, Nat.eqb_refl. cbn [negb obind]. rewrite <- Ht. unfold Slice.remove_prefix. rewrite decide_True by (rewrite length_app; lia). rewrite drop_app_length. cbn [obind].
  cbn [Slice.consume_byte obind]. rewrite Z.eqb_refl. cbn [negb obind]. rewrite <- (app_nil_r (FastEncodeUnsignedVarInt 0)) at 2. apply apply_pairs; [done..|].
  rewrite length_app. pose proof (pairs_length l Hl). lia.
Qed.

(** ** Stored intents *)

Lemma while_all p l c : Forall (λ e, p `prefix_of` e.1) l → (∀ e, e ∈ c → ¬ p `prefix_of` e.1) → while_prefix p (l ++ c) = l.
Proof.
  intros Hl Hc. induction Hl as [|e l He _ IH]; [|cbn [while_prefix app]; by rewrite bool_decide_true, IH].
  destruct c as [|e c]; [done|]. cbn [while_prefix app]. rewrite bool_decide_false; [done|]. apply Hc, list_elem_of_here.
Qed.

(** The iterator visits the records that start with the prefix. *)
Lemma stored_all d id :
  sorted d → Forall (λ e, ∀ x, e.1 = key_prefix id ++ x → bytes_compare x [255] = Lt) d →
  stored_intents d id = filter (λ e, key_prefix id `prefix_of` e.1) d.
Proof.
  intros Hs Hd. unfold stored_intents. cbv zeta. change (KeyBytes.AppendValueType kMaxByte (key_prefix id)) with (key_prefix id ++ [255]).
  set (u := filter _ d). destruct (seek_prefix (key_prefix id) u) as (c & -> & Hc); [by apply sorted_filter|].
  rewrite while_all; [|apply Forall_forall; by intros e [He _]%list_elem_of_filter|done]. unfold u. clear -Hd. rewrite list_filter_filter.
  induction Hd as [|e d He Hd IH]; [done|]. rewrite !filter_cons, IH. apply decide_ext. split; [by intros [? _]|].
  intros [x Ex]. split; [by exists x|]. rewrite Ex, bytes_compare_app_same. by apply He.
Qed.

(** A stored value, or the value of a pair, with its intents. *)
Definition combined (id : TransactionId.t) (v : bytes) (l : list (bytes * bytes)) : Prop :=
  Forall intent_ok l ∧ ∃ tablet, length tablet = Uuid.kUuidSize ∧ v = (CombineExternalIntents id tablet l).2.

Lemma puts_app commit_ht w l l' :
  imap (applied_put commit_ht w) (l ++ l') = imap (applied_put commit_ht w) l ++ imap (applied_put commit_ht (w + Z.of_nat (length l))) l'.
Proof.
  rewrite imap_app. f_equal. apply imap_ext. intros j i _. unfold applied_put, compose. by replace (w + Z.of_nat (length l + j)) with (w + Z.of_nat (length l) + Z.of_nat j) by lia.
Qed.

Lemma apply_stored_all commit_ht id entries ls rb ib w :
  is_u64 commit_ht → Forall2 (λ e l, combined id e.2 l) entries ls → 0 <= w → w + Z.of_nat (length (concat ls)) < 2 ^ 32 →
  apply_stored commit_ht entries (Batches (Some rb) (Some ib)) w =
  Ok (Batches (Some (rb ++ imap (applied_put commit_ht w) (concat ls))) (Some (ib ++ (SingleDelete <$> entries.*1))), w + Z.of_nat (length (concat ls))).
Proof.
  intros Hc Hl. revert rb ib w. induction Hl as [|[k v] l entries ls (Hok & tablet & Ht & Ev) Hl IH]; intros rb ib w Hw Hb.
  - cbn. by rewrite !app_nil_r, Z.add_0_r.
  - cbn [apply_stored concat fst snd regular] in *. rewrite length_app in Hb. subst v. rewrite apply_combined by (done || lia). cbn [obind]. unfold put_intents. cbn [regular intents fmap option_fmap option_map].
    rewrite IH by lia. rewrite puts_app, length_app, <- !app_assoc. cbn [fmap list_fmap app]. do 2 f_equal. lia.
Qed.

Lemma decode_id (id x : bytes) : TransactionId.wf id → TransactionId.DecodeTransactionId (id ++ x) = Ok (id, x).
Proof.
  intros [Hl _]. unfold TransactionId.DecodeTransactionId, TransactionId.DoDecodeUuid, Slice.remove_prefix.
  rewrite bool_decide_false by (rewrite length_app; lia). cbn [obind]. rewrite decide_True by (rewrite length_app; lia). by rewrite <- Hl, take_app_length, drop_app_length.
Qed.

(** A pair with intents of the transaction. *)
Definition external_pair (id : TransactionId.t) (p : KeyValuePairPB) (l : list (bytes * bytes)) : Prop :=
  key_prefix id `prefix_of` key p ∧ combined id (value p) l ∧ match external_hybrid_time p with Some ht => is_u64 ht | None => True end.

Lemma add_external commit_ht id ps ls ht n rb ib w :
  TransactionId.wf id → is_u64 commit_ht → is_u64 ht → Forall2 (external_pair id) ps ls → 0 <= w → w + Z.of_nat (length (concat ls)) < 2 ^ 32 →
  add_pairs ps ht n [(id, (commit_ht, w))] (Batches (Some rb) ib) = Ok (Batches (Some (rb ++ imap (applied_put commit_ht w) (concat ls))) ib).
Proof.
  intros Hid Hc Hht Hl. revert n rb w. induction Hl as [|p l ps ls ([x Ek] & (Hok & tablet & Ht & Ev) & He) Hl IH]; intros n rb w Hw Hb; cbn [add_pairs].
  { cbn. by rewrite app_nil_r. }
  cbn [concat] in *. rewrite length_app in Hb. unfold AddPairToWriteBatch. change (key_prefix id) with (code kExternalTransactionId :: id) in Ek.
  rewrite Ek, Ev, !bool_decide_false by (done || by rewrite combined_value). cbn [app]. unfold byte_at. cbn [lookup list_lookup obind].
  rewrite encode_time; [|by revert He; destruct (external_hybrid_time p)|apply Z.mod_pos_bound; done]. cbn [obind]. change (code kExternalTransactionId =? as_char kExternalTransactionId) with true. cbn [negb drop].
  rewrite drop_0, decode_id by done. cbn [obind checked find]. rewrite bool_decide_true by done. cbn [regular].
  rewrite apply_combined by (done || lia). cbn [checked obind set_write_id fmap list_fmap fst snd intents]. rewrite bool_decide_true by done.
  rewrite IH by lia. by rewrite puts_app, <- app_assoc.
Qed.

(** C28: When a write tells to apply a transaction of another cluster, every intent of it, first those stored in the intents database and
    then those in the pairs of the write, is put into the regular database exactly once and in order, with the commit time and
    consecutive write ids, and the stored records are deleted; combining intents into one value loses nothing. *)
Theorem external_transactions_applied
    (id : TransactionId.t) (commit_ht ht : Z) (d : db) (ps : list KeyValuePairPB) (stored written : list (list (bytes * bytes))) :
  TransactionId.wf id → is_u64 commit_ht → is_u64 ht → sorted d →
  Forall (λ e, ∀ x, e.1 = key_prefix id ++ x → bytes_compare x [255] = Lt) d →
  Forall2 (λ e l, combined id e.2 l) (filter (λ e, key_prefix id `prefix_of` e.1) d) stored → Forall2 (external_pair id) ps written →
  Z.of_nat (length (concat stored ++ concat written)) < 2 ^ 32 →
  PrepareNonTransactionWriteBatch {| write_pairs := ps; read_pairs := []; apply_external_transactions := [(id, commit_ht)] |} ht d
    (Batches (Some []) (Some [])) =
  Ok (Batches (Some (imap (applied_put commit_ht 0) (concat stored ++ concat written)))
        (Some (SingleDelete <$> (filter (λ e, key_prefix id `prefix_of` e.1) d).*1))).
Proof.
  intros Hid Hc Hht Hs Hd Hst Hw Hlen. rewrite length_app in Hlen. unfold PrepareNonTransactionWriteBatch. cbn [read_pairs write_pairs apply_external_transactions].
  rewrite bool_decide_true by done. cbn [negb ProcessApplyExternalTransactions]. unfold TransactionId.FullyDecodeTransactionId, TransactionId.DoDecodeUuid. destruct Hid as [Hl Hb].
  rewrite bool_decide_true by done. cbn [negb emplace obind PrepareApplyExternalIntents]. rewrite <- Hl, firstn_all, stored_all by done.
  rewrite (apply_stored_all commit_ht id _ stored) by (done || lia). cbn [obind checked app]. rewrite (add_external commit_ht id ps written) by (done || lia).
  by rewrite puts_app.
Qed.

Definition sample_external : list (bytes * bytes) := [([83; 97], [36]); ([83; 98], [88])].

Lemma external_transactions_applied_witness :
  ∃ b, PrepareNonTransactionWriteBatch
    {| write_pairs := [{| key := key_prefix (replicate 16 7); value := (CombineExternalIntents (replicate 16 7) (replicate 16 1) sample_external).2; external_hybrid_time := None |}];
       read_pairs := []; apply_external_transactions := [(replicate 16 7, 9)] |} 5
    [(key_prefix (replicate 16 7) ++ [220], (CombineExternalIntents (replicate 16 7) (replicate 16 1) [([83; 99], [36])]).2)]
    (Batches (Some []) (Some [])) = Ok b ∧ length (default [] (regular b)) = 3%nat.
Proof.
  eexists. split.
  - apply (external_transactions_applied (replicate 16 7) 9 5 _ _ [[([83; 99], [36])]] [sample_external]).
    + split; [reflexivity|]. apply Forall_replicate. split; done.
    + split; done.
    + split; done.
    + repeat constructor.
    + repeat constructor. intros x E. apply app_inv_head in E. subst x. reflexivity.
    + constructor; [|constructor]. split; [|exists (replicate 16 1); split; reflexivity]. repeat constructor; discriminate.
    + constructor; [|constructor]. split; [by exists []|]. split; [|exact I]. split; [|exists (replicate 16 1); split; reflexivity]. repeat constructor; discriminate.
    + reflexivity.
  - reflexivity.
Defined.

End ExternalIntents.
