(* ===== verification/DocumentWrites.v ===== *)
(** * Writes of documents

    What the pairs of a write become in the regular database when their keys
    are keys of documents: outside of transactions the key with the time of the
    write, and in a transaction, by way of the intents of the key and of all keys
    above it, the key with the commit time. *)

From S2P Require Import Prelude Slice FastVarint HybridTime DocHybridTime ValueType KvUtil VarInt Decimal Uuid InetAddress Intent Coding Bitmap PrimitiveValue PrimitiveKeys DocKey DocKeyCodec SubDocKeys IntentKeys IntentsDb WriteBatches.

Module DocumentWrites.
Import ValueType SubDocKey DocKeyCodec SubDocKeys PrimitiveKeys Store IntentWriter TransactionRecords.

Section Writes.
Context {B : BigNum} {HB : BigNumSpec B} {V : UuidVersion} {HV : UuidVersionSpec V} {A : IpAddress} {HA : IpAddressSpec A}.

(** The key at a time. *)
Definition at_time (k : t) (ht write_id : Z) : t := mk (doc_key_ k) (DocHybridTime.mk ht write_id) (subkeys_ k).

Lemma encode_at k ht w :
  wf_sub k → is_u64 ht → is_u32 w → ht ≠ HybridTime.kInvalid →
  Encode (at_time k ht w) = Ok (sub_code k ++ code kHybridTime :: enc (DocHybridTime.mk ht w)).
Proof.
  intros Hk Hht Hw Hv. assert (DocHybridTime.wf (DocHybridTime.mk ht w)) as Hwf by done.
  unfold Encode. rewrite encode_sub by (by destruct Hk). change (sub_code (at_time k ht w)) with (sub_code k). f_equal. f_equal.
  unfold ht_code, has_hybrid_time, at_time, DocHybridTime.is_valid, HybridTime.is_valid. cbn [doc_ht_ DocHybridTime.hybrid_time_].
  rewrite (proj2 (Z.eqb_neq _ _)) by done. cbn [negb]. by rewrite enc_ok.
Qed.

(** Keys start with the identifier of a table or with a component. *)
Lemma key_first k : wf_sub k → ∃ b s, sub_code k = b :: s ∧
  (b = code kTableId ∨ b = code kPgTableOid ∨ b = code kUInt16Hash ∨ b = code kGroupEnd ∨
   ∃ v l, DocKey.range_group_ (doc_key_ k) = v :: l ∧ item v ∧ b = code (PrimitiveValue.value_type v)).
Proof.
  intros Hk. pose proof (wf_doc_key k Hk) as Hd. unfold sub_code, doc_code, id_code, hash_part. rewrite <- !app_assoc.
  destruct (DocKey.has_cotable_id _); [eexists _, _; split; [cbn [app]; reflexivity|auto]|].
  destruct (DocKey.has_pgtable_id _); [eexists _, _; split; [cbn [app]; reflexivity|auto]|].
  destruct (DocKey.hash_present_ _); [eexists _, _; split; [cbn [app]; reflexivity|auto]|]. cbn [app].
  destruct (group_starts (DocKey.range_group_ (doc_key_ k)) (all_codes (subkeys_ k)) (wf_range _ Hd)) as (b & s & E & Hb). exists b, s. split; [exact E|].
  destruct Hb as [[_ ->]|(v & l & E1 & E2 & Hv)]; [auto|]. do 4 right. eauto.
Qed.

Lemma key_not_external k : wf_sub k → ∃ b s, sub_code k = b :: s ∧ b ≠ code kExternalTransactionId.
Proof.
  intros Hk. destruct (key_first k Hk) as (b & s & E & Hb). exists b, s. split; [done|].
  destruct Hb as [->|[->|[->|[->|(v & l & _ & Hv & ->)]]]]; [done..|]. destruct (item_tag v Hv) as (_ & _ & Ht). change (code kExternalTransactionId) with 8. lia.
Qed.

(** A write: the key, the value and the time it had elsewhere. *)
Definition write := (t * bytes * option Z)%type.
Definition pair_of (w : write) : WriteBatches.KeyValuePairPB :=
  {| WriteBatches.key := sub_code w.1.1; WriteBatches.value := w.1.2; WriteBatches.external_hybrid_time := w.2 |}.

Definition write_ok (w : write) : Prop :=
  wf_sub w.1.1 ∧ w.1.2 ≠ [] ∧ match w.2 with Some ht => is_u64 ht ∧ ht ≠ HybridTime.kInvalid | None => True end.

Definition write_put (ht : Z) (i : nat) (w : write) : op :=
  Put (sub_code w.1.1 ++ code kHybridTime :: enc (DocHybridTime.mk (default ht w.2) (Z.of_nat i))) w.1.2.

Lemma add_writes ws ht n state rb ib :
  is_u64 ht → Forall write_ok ws → Z.of_nat n + Z.of_nat (length ws) < 2 ^ 32 →
  WriteBatches.add_pairs (pair_of <$> ws) ht (Z.of_nat n) state (WriteBatches.Batches (Some rb) ib) =
  Ok (WriteBatches.Batches (Some (rb ++ imap (λ i, write_put ht (n + i)) ws)) ib).
Proof.
  intros Hht Hw. revert n rb. induction Hw as [|[[k v] e] ws (Hk & Hv & He) Hw IH]; intros n rb Hn; [cbn; by rewrite app_nil_r|].
  rewrite fmap_cons. cbn [WriteBatches.add_pairs]. unfold WriteBatches.AddPairToWriteBatch. cbn [pair_of WriteBatches.key WriteBatches.value WriteBatches.external_hybrid_time fst snd] in *.
  destruct (key_not_external k Hk) as (b & s & Eb & Hb). rewrite (bool_decide_false (sub_code k = [])) by (by rewrite Eb). rewrite (bool_decide_false (v = [])) by done.
  cbn [length] in Hn. rewrite Eb at 1. unfold byte_at. cbn [lookup list_lookup obind].
  rewrite ExternalIntents.encode_time; [|by destruct e as [x|]; [apply He|]|apply Z.mod_pos_bound; done]. cbn [obind].
  rewrite (proj2 (Z.eqb_neq b (as_char kExternalTransactionId))) by done. cbn [negb WriteBatches.regular]. unfold WriteBatches.put_regular. cbn [obind WriteBatches.regular WriteBatches.intents fmap option_fmap option_map].
  replace (Z.of_nat n + 1) with (Z.of_nat (S n)) by lia. rewrite IH by lia. rewrite imap_cons, <- app_assoc. cbn [app]. do 4 f_equal. f_equal.
  - unfold write_put. cbn [fst snd]. rewrite Nat.add_0_r, u32_small by (unfold is_u32; lia). done.
  - apply imap_ext. intros i w _. unfold compose. by rewrite Nat.add_succ_r.
Qed.

(** ** Writes in a transaction *)

Import Intent.Intent IntentType RowMark EnumerateIntents IntentLevels.

(** [PrepareTransactionWriteBatch] with the enumeration of the intents; an error ends the process. *)
Definition PrepareTransactionWriteBatch (sealing : bool) (hybrid_time : Z) (transaction_id : TransactionId.t) (isolation_level : IsolationLevel)
    (row_mark : option RowMarkType) (replicated_batches_state : bytes) (intra_txn_write_id : Z) (partial_range_key_intents : bool)
    (write_pairs read_pairs : list (bytes * bytes)) (order : gmap bytes IntentTypeSet.t → list (bytes * IntentTypeSet.t)) : outcome helper :=
  let functor h strength (_ : bool) value key last_key := call sealing h strength value key last_key in
  let row_mark := GetRowMarkTypeFromPB row_mark in
  let h := Helper ROW_MARK_ABSENT hybrid_time [] transaction_id replicated_batches_state 0 ∅ 0 intra_txn_write_id in
  let! h := if bool_decide (write_pairs = []) then Ok h
            else WriteBatches.checked (enumerate_pairs functor (Setup h isolation_level kWrite row_mark) write_pairs partial_range_key_intents) in
  let! h := if bool_decide (read_pairs = []) then Ok h
            else WriteBatches.checked (enumerate_pairs functor (Setup h isolation_level kRead row_mark) read_pairs partial_range_key_intents) in
  Finish h (order (weak_intents_ h)).

(** The calls for a pair, and for all pairs. *)
Definition pair_calls (partial last : bool) (w : SubDocKey.t * bytes) : list (IntentStrength * bytes * bytes * bool) :=
  ((λ a, (kWeak, [], sub_code a.2, false)) <$> ancestors partial w.1) ++ [(kStrong, w.2, sub_code (strong_key w.1), last)].

Fixpoint all_calls (partial : bool) (ws : list (SubDocKey.t * bytes)) : list (IntentStrength * bytes * bytes * bool) :=
  match ws with [] => [] | w :: ws => pair_calls partial (bool_decide (ws = [])) w ++ all_calls partial ws end.

Lemma calls_app sealing h l l' : calls sealing h (l ++ l') = let! h := calls sealing h l in calls sealing h l'.
Proof. revert h. induction l as [|[[[s v] k] b] l IH]; intros h; [done|]. cbn [calls app]. destruct (call sealing h s v k b); [|done..]. cbn [obind]. apply IH. Qed.

Lemma weak_calls_list sealing h l :
  weak_calls (λ h s (_ : bool) v key b, call sealing h s v key b) h (coded <$> l) = calls sealing h ((λ a, (kWeak, [], sub_code a.2, false)) <$> l).
Proof. revert h. induction l as [|a l IH]; intros h; [done|]. cbn [fmap list_fmap weak_calls calls coded]. destruct (call sealing h kWeak [] (sub_code a.2) false); [|done..]. cbn [obind]. apply IH. Qed.

Definition doc_pair (w : SubDocKey.t * bytes) : bytes * bytes := (sub_code w.1, w.2).

Lemma enumerate_calls sealing h ws partial :
  Forall (λ w, wf_sub w.1 ∧ w.2 ≠ []) ws →
  enumerate_pairs (λ h s (_ : bool) v key b, call sealing h s v key b) h (doc_pair <$> ws) partial = calls sealing h (all_calls partial ws).
Proof.
  intros Hw. revert h. induction Hw as [|[k v] ws [Hk Hv] Hw IH]; intros h; [done|]. rewrite fmap_cons. unfold doc_pair at 1. cbn [enumerate_pairs all_calls fst snd] in *.
  destruct (key_not_external k Hk) as (b & s & Eb & _). rewrite (bool_decide_false (sub_code k = [])), (bool_decide_false (v = [])) by (done || by rewrite Eb). cbn [orb].
  unfold pair_calls. cbn [fst snd]. rewrite !calls_app. unfold EnumerateIntents.EnumerateIntents.
  assert (sub_code k = sub_code (remove_hybrid_time k) ++ ht_code (remove_hybrid_time k)) as -> by (rewrite ht_code_none by done; by rewrite app_nil_r).
  rewrite weak_intents by (by destruct Hk). rewrite weak_calls_list. change (ancestors partial (remove_hybrid_time k)) with (ancestors partial k).
  change (strong_key (remove_hybrid_time k)) with (strong_key k). destruct (calls sealing h _) as [h'|?| |]; [|done..]. cbn [obind calls].
  assert (bool_decide (doc_pair <$> ws = []) = bool_decide (ws = [])) as -> by (apply bool_decide_ext; split; [apply fmap_nil_inv|by intros ->]).
  destruct (call sealing h' kStrong v _ _); [|done..]. cbn [obind]. apply IH.
Qed.

Import TransactionApply TransactionWrites.

(** A key of a document: its first range component is not of a type that the intents database uses for itself. *)
Definition other_type (v : PrimitiveValue.t) : Prop :=
  PrimitiveValue.value_type v ≠ kTransactionId ∧ PrimitiveValue.value_type v ≠ kBitSet ∧ PrimitiveValue.value_type v ≠ kTransactionApplyState.

Record doc_write (w : SubDocKey.t * bytes) : Prop := {
  doc_wf : wf_sub w.1;
  doc_not_root : root (doc_key_ w.1) = false;
  doc_first : ∀ v l, DocKey.range_group_ (doc_key_ w.1) = v :: l → other_type v;
  doc_value : w.2 ≠ [] ∧ bytes_ok w.2 ∧ head w.2 ≠ Some (ValueType.code kRowLock);
}.

Lemma level_path_ok a : wf_sub a → (∀ v l, DocKey.range_group_ (doc_key_ a) = v :: l → other_type v) → path_ok (sub_code a).
Proof.
  intros Ha Hf. split; [apply Forall_app_2; [apply doc_code_ok, Ha|apply codes_ok, Ha]|]. destruct (key_first a Ha) as (b & s & -> & Hb). cbn [head].
  destruct Hb as [->|[->|[->|[->|(v & l & E & _ & ->)]]]]; [done..|]. destruct (Hf v l E) as (H1 & H2 & H3). split_and!; intros H%(inj Some)%code_inj; done.
Qed.

Lemma ancestor_range partial k a v l :
  a ∈ ancestors partial k → DocKey.range_group_ (doc_key_ a.2) = v :: l → ∃ l', DocKey.range_group_ (doc_key_ k) = v :: l'.
Proof.
  intros Ha E. unfold ancestors in Ha. destruct (root (doc_key_ k)); [by apply not_elem_of_nil in Ha|].
  rewrite !elem_of_app in Ha. destruct Ha as [->%list_elem_of_singleton|[Ha|[Ha|Ha]]]; [done|..].
  - destruct (_ && _); [|by apply not_elem_of_nil in Ha]. by apply list_elem_of_singleton in Ha as ->.
  - apply list_elem_of_fmap in Ha as (i & -> & _). cbn [snd range_level doc_key_ DocKey.set_range DocKey.range_group_] in E.
    destruct i as [|i]; [done|]. destruct (DocKey.range_group_ (doc_key_ k)) as [|x r]; [done|]. cbn [take] in E. injection E as <- _. by exists r.
  - apply list_elem_of_fmap in Ha as (i & -> & _). by exists l.
Qed.

Lemma doc_calls_ok partial last w : doc_write w → Forall call_ok (pair_calls partial last w).
Proof.
  intros [Hk Hr Hf (_ & Hv & Hh)]. apply Forall_app_2.
  - apply Forall_fmap, Forall_forall. intros a Ha. split; [|split; [constructor|done]]. unfold call_key. cbn. apply level_path_ok; [by eapply ancestors_wf|].
    intros v l E. destruct (ancestor_range _ _ _ _ _ Ha E) as [l' E']. by eapply Hf.
  - apply Forall_cons_2; [|apply Forall_nil_2]. split; [|by split]. unfold call_key, strong_key. cbn. rewrite Hr. apply level_path_ok; [by destruct Hk|exact Hf].
Qed.

(** The strong calls are the writes. *)
Lemma strong_calls partial ws :
  (λ c, (call_key c, c.1.1.2)) <$> filter is_strong (all_calls partial ws) = (λ w, (sub_code (strong_key w.1), w.2)) <$> ws.
Proof.
  induction ws as [|w ws IH]; [done|]. cbn [all_calls]. rewrite filter_app, fmap_app, IH. unfold pair_calls. rewrite filter_app, fmap_app.
  assert (∀ l : list (bool * SubDocKey.t), filter is_strong ((λ a, (kWeak, [], sub_code a.2, false)) <$> l) = []) as -> by (induction l; [done|]; by rewrite fmap_cons, filter_cons).
  done.
Qed.

Lemma regular_puts ht commit_ht w0 l (ws : list (SubDocKey.t * bytes)) :
  (λ c, (call_key c, c.1.1.2)) <$> l = (λ w, (sub_code (strong_key w.1), w.2)) <$> ws →
  imap (regular_put ht commit_ht w0) l = imap (λ j w, Put (sub_code (strong_key w.1) ++ ValueType.code kHybridTime :: enc (DocHybridTime.mk commit_ht (w0 + Z.of_nat j)))
    ((ValueType.code kHybridTime :: enc (DocHybridTime.mk ht (Z.of_nat j))) ++ w.2)) ws.
Proof.
  intros E. apply list_eq. intros i. rewrite !list_lookup_imap. apply (f_equal (λ l, l !! i)) in E. rewrite !list_lookup_fmap in E.
  destruct (l !! i) as [c|], (ws !! i) as [w|]; try done. cbn in E |- *. injection E as E1 E2. unfold regular_put. by rewrite E1, E2.
Qed.

Lemma calls_length partial ws : (length ws ≤ length (all_calls partial ws))%nat.
Proof. induction ws as [|w ws IH]; [done|]. cbn [all_calls length]. unfold pair_calls. rewrite !length_app. cbn [length]. lia. Qed.

Lemma all_calls_ok partial ws : Forall doc_write ws → Forall call_ok (all_calls partial ws).
Proof. induction 1 as [|w ws Hw _ IH]; [constructor|]. cbn [all_calls]. apply Forall_app_2; [by apply doc_calls_ok|done]. Qed.

(** *** The batches of a transaction *)

Import IntentsDbProperties.
Abbreviation doc_batch := (batch (SubDocKey.t * bytes)).

Definition prepare_documents (id : TransactionId.t) (level : IsolationLevel) (partial : bool) (b : doc_batch) (next_write_id : Z) : outcome helper :=
  PrepareTransactionWriteBatch (b_sealing b) (b_ht b) id level None (b_state b) next_write_id partial (doc_pair <$> b_pairs b) [] (b_order b).

Definition doc_batch_ok (b : doc_batch) : Prop :=
  is_u64 (b_ht b) ∧ state_ok (b_state b) ∧ b_pairs b ≠ [] ∧ Forall doc_write (b_pairs b) ∧ ∀ m, b_order b m ≡ₚ map_to_list m.

(** The batch of calls for a batch of documents. *)
Definition expand (partial : bool) (b : doc_batch) : batch (IntentStrength * bytes * bytes * bool) :=
  Batch (b_sealing b) (b_ht b) (b_state b) (all_calls partial (b_pairs b)) (b_order b).

Lemma expand_ok partial b : doc_batch_ok b → batch_ok (expand partial b).
Proof.
  intros (Hht & Hst & Hne & Hw & Hord). split_and!; [done..| |by apply all_calls_ok|done]. cbn [expand b_pairs].
  intros E. pose proof (calls_length partial (b_pairs b)) as H. rewrite E in H. destruct (b_pairs b); [done|cbn in H; lia].
Qed.

Lemma expand_order partial bs : in_order bs → in_order (expand partial <$> bs).
Proof. induction 1 as [|b bs _ IH Hb]; [constructor|]. rewrite fmap_cons. constructor; [done|]. by apply Forall_fmap. Qed.

Lemma prepare_expanded id level partial b w h :
  doc_batch_ok b → prepare_batch id level (expand partial b) w = Ok h → prepare_documents id level partial b w = Ok h.
Proof.
  intros Hb E. pose proof (expand_ok partial b Hb) as (_ & _ & Hcalls & _). destruct Hb as (_ & _ & Hne & Hw & _). rewrite <- E.
  unfold prepare_documents, prepare_batch, PrepareTransactionWriteBatch, IntentWriter.PrepareTransactionWriteBatch in *. cbn [expand b_sealing b_ht b_state b_pairs b_order] in *.
  rewrite (bool_decide_false (all_calls partial (b_pairs b) = [])) in E |- * by done. rewrite bool_decide_false by (by intros ?%fmap_nil_inv).
  rewrite enumerate_calls by (eapply Forall_impl; [exact Hw|]; intros x [? _ _ [? _]]; done).
  by destruct (calls (b_sealing b) _ (all_calls partial (b_pairs b))) in E |- *.
Qed.

Lemma write_expanded id level partial bs d w d' :
  Forall doc_batch_ok bs → write_batches (prepare_batch id level) d w (expand partial <$> bs) = Ok d' →
  write_batches (prepare_documents id level partial) d w bs = Ok d'.
Proof.
  intros Hbs. revert d w. induction Hbs as [|b bs Hb Hbs IH]; intros d w; [done|]. rewrite fmap_cons. cbn [write_batches].
  destruct (prepare_batch id level (expand partial b) w) as [h|?| |] eqn:E; [|done..]. rewrite (prepare_expanded _ _ _ _ _ h) by done. apply IH.
Qed.

(** What a pair becomes in the regular database. *)
Definition document_put (ht commit_ht : Z) (j : nat) (n : Z) (w : SubDocKey.t * bytes) : op :=
  Put (sub_code (strong_key w.1) ++ ValueType.code kHybridTime :: enc (DocHybridTime.mk commit_ht n))
    ((ValueType.code kHybridTime :: enc (DocHybridTime.mk ht (Z.of_nat j))) ++ w.2).

Lemma document_puts partial commit_ht bs w0 :
  length (batch_puts commit_ht w0 (expand partial <$> bs)) = length (flat_map b_pairs bs) ∧
  ∀ i b j w, bs !! i = Some b → b_pairs b !! j = Some w →
    batch_puts commit_ht w0 (expand partial <$> bs) !! (length (flat_map b_pairs (take i bs)) + j)%nat =
    Some (document_put (b_ht b) commit_ht j (w0 + Z.of_nat (length (flat_map b_pairs (take i bs)) + j)) w).
Proof.
  revert w0. induction bs as [|b bs IH]; intros w0; [done|]. rewrite fmap_cons. cbn [batch_puts flat_map].
  pose proof (f_equal length (strong_calls partial (b_pairs b))) as Hl. rewrite !length_fmap in Hl. cbn [expand b_pairs b_ht].
  rewrite Hl, (regular_puts _ commit_ht w0 _ _ (strong_calls partial (b_pairs b))). destruct (IH (w0 + Z.of_nat (length (b_pairs b)))) as [Hn Hi].
  split; [by rewrite !length_app, length_imap, Hn|]. intros [|i] b' j w Hb Hj.
  - injection Hb as <-. cbn [take flat_map length Nat.add]. rewrite lookup_app_l by (rewrite length_imap; by eapply lookup_lt_Some).
    by rewrite list_lookup_imap, Hj.
  - cbn [take flat_map]. rewrite length_app, <- Nat.add_assoc. rewrite lookup_app_r by (rewrite length_imap; lia). rewrite length_imap.
    rewrite Nat.add_sub_swap, Nat.sub_diag by lia. cbn [Nat.add]. rewrite (Hi i b' j w) by done. do 2 f_equal. lia.
Qed.

End Writes.

(** ** Theorems *)

(** Outside of transactions every pair of a write whose key is that of a document is put into the regular database, in order, under the
    key with the time of the write, or the time that came with the pair, and its position as the write id; nothing goes to the
    intents database. *)
Theorem plain_writes_stored
    {B : BigNum} {HB : BigNumSpec B} {V : UuidVersion} {HV : UuidVersionSpec V} {A : IpAddress} {HA : IpAddressSpec A}
    (ws : list write) (ht : Z) (d : db) :
  is_u64 ht → ht ≠ HybridTime.kInvalid → Forall write_ok ws → Z.of_nat (length ws) < 2 ^ 32 →
  ∃ ops, WriteBatches.PrepareNonTransactionWriteBatch
      {| WriteBatches.write_pairs := pair_of <$> ws; WriteBatches.read_pairs := []; WriteBatches.apply_external_transactions := [] |} ht d
      (WriteBatches.Batches (Some []) (Some [])) = Ok (WriteBatches.Batches (Some ops) (Some [])) ∧ length ops = length ws ∧
    ∀ i k v e, ws !! i = Some (k, v, e) →
      ∃ key, Encode (at_time k (default ht e) (Z.of_nat i)) = Ok key ∧ ops !! i = Some (Put key v).
Proof.
  intros Hht Hv Hw Hn. exists (imap (write_put ht) ws). split; [|split; [apply length_imap|]].
  - unfold WriteBatches.PrepareNonTransactionWriteBatch. cbn. apply (add_writes ws ht 0 [] [] (Some [])); [done..|lia].
  - intros i k v e E. assert (i < length ws)%nat as Hi by (by eapply lookup_lt_Some). destruct (proj1 (Forall_lookup _ _) Hw i _ E) as (Hk & _ & He). cbn [fst snd] in Hk, He.
    eexists. split; [apply encode_at; [done|by destruct e as [x|]; [apply He|]|unfold is_u32; lia|by destruct e as [x|]; [apply He|]]|].
    rewrite list_lookup_imap. transitivity (write_put ht i <$> Some (k, v, e)); [by f_equal|done].
Qed.

Lemma plain_writes_stored_witness :
  ∃ ops, WriteBatches.PrepareNonTransactionWriteBatch
      {| WriteBatches.write_pairs := pair_of <$> [(sample_sub 3 DocHybridTime.kInvalid, [36], None); (sample_sub 4 DocHybridTime.kInvalid, [36], Some 7)];
         WriteBatches.read_pairs := []; WriteBatches.apply_external_transactions := [] |} 5 []
      (WriteBatches.Batches (Some []) (Some [])) = Ok (WriteBatches.Batches (Some ops) (Some [])) ∧ length ops = 2%nat.
Proof.
  destruct (plain_writes_stored (B := ZNum) [(sample_sub 3 DocHybridTime.kInvalid, [36], None); (sample_sub 4 DocHybridTime.kInvalid, [36], Some 7)] 5 [])
    as (ops & E & El & _); [split; done|discriminate| |reflexivity|exists ops; split; [exact E|exact El]].
  assert (∀ n, is_i64 n → wf_sub (B := ZNum) (sample_sub n DocHybridTime.kInvalid)) as Hs by (intros n Hn; by apply sample_sub_wf).
  repeat (apply Forall_cons_2); [split_and!; [by apply Hs|done|done]..|apply Forall_nil_2].
Defined.

Import Intent.Intent IntentType RowMark EnumerateIntents IntentLevels TransactionApply TransactionWrites IntentsDbProperties.

(** C16: The writes of documents in a transaction reach the regular database exactly once and in order.  The intents of all pairs of any
    number of batches with ascending times, weak for the keys above and strong for the keys themselves, are written into an intents
    database that holds at most the metadata record of the transaction; applying it until nothing is left puts every pair under its key
    with the commit time and consecutive write ids, the value behind the time of the intent. *)
Theorem document_writes_applied
    {B : BigNum} {HB : BigNumSpec B} {V : UuidVersion} {HV : UuidVersionSpec V} {A : IpAddress} {HA : IpAddressSpec A}
    (Serialize : bytes → Z → Z → bytes) (id : TransactionId.t) (d : db) (partial : bool) (commit_ht w0 max_records : Z)
    (level : IsolationLevel) (bs : list (batch (SubDocKey.t * bytes))) :
  TransactionId.wf id → is_u64 commit_ht → commit_ht ≠ HybridTime.kInvalid → 0 < max_records → level ≠ NON_TRANSACTIONAL →
  sorted d → only_metadata id d → Forall doc_batch_ok bs → in_order bs →
  let records := length (flat_map (all_calls partial ∘ b_pairs) bs) in 0 <= w0 → w0 + Z.of_nat records < 2 ^ 32 →
  ∃ d' ops, write_batches (prepare_documents id level partial) d w0 bs = Ok d' ∧
    apply_until_done Serialize id commit_ht d' max_records (S records) None [] = Some (Ok ops) ∧
    length (filter is_data ops) = length (flat_map b_pairs bs) ∧
    ∀ i b j k v, bs !! i = Some b → b_pairs b !! j = Some (k, v) →
      let n := (length (flat_map b_pairs (take i bs)) + j)%nat in
      ∃ key, Encode (at_time k commit_ht (w0 + Z.of_nat n)) = Ok key ∧
        filter is_data ops !! n = Some (Put key ((ValueType.code kHybridTime :: enc (DocHybridTime.mk (b_ht b) (Z.of_nat j))) ++ v)).
Proof.
  intros Hid Hc Hv Hmax Hlevel Hd Hmeta Hbs Ho records Hw0 Hn.
  assert (length (flat_map b_pairs (expand partial <$> bs)) = records) as Hr by (unfold records; f_equal; clear; induction bs as [|b bs IH]; [done|]; cbn; by rewrite IH).
  destruct (writes_applied Serialize id d commit_ht w0 max_records level (expand partial <$> bs) (S records)) as (d' & ops & E1 & E2 & E3);
    [done..| |by apply expand_order|done|by rewrite Hr|rewrite Hr; lia|].
  { apply Forall_fmap. eapply Forall_impl; [exact Hbs|]. intros b. apply expand_ok. }
  destruct (document_puts partial commit_ht bs w0) as [Hl Hp]. exists d', ops. rewrite E3. split_and!; [by apply write_expanded|done..|].
  intros i b j k v Hb Hj n. pose proof (Hp i b j (k, v) Hb Hj) as Hlook. destruct (proj1 (Forall_lookup _ _) Hbs i b Hb) as (_ & _ & _ & Hw & _).
  destruct (proj1 (Forall_lookup _ _) Hw j _ Hj) as [Hk Hroot _ _]. cbn [fst] in Hk, Hroot. eexists. split; [apply encode_at; [done|done| |done]|].
  - apply lookup_lt_Some in Hlook. rewrite Hl in Hlook. assert (length (flat_map b_pairs bs) ≤ records)%nat.
    { unfold records. clear. induction bs as [|b bs IH]; [done|]. cbn [flat_map]. rewrite !length_app. pose proof (calls_length partial (b_pairs b)). unfold compose in *. lia. }
    unfold is_u32. lia.
  - unfold n. rewrite Hlook. unfold document_put, strong_key. cbn [fst snd]. by rewrite Hroot.
Qed.

Definition sample_writes : list (SubDocKey.t * bytes) := [(sample_sub 3 DocHybridTime.kInvalid, [36]); (sample_sub 4 DocHybridTime.kInvalid, [36])].

Lemma sample_writes_ok : Forall (doc_write (B := ZNum)) sample_writes.
Proof.
  assert (∀ n, is_i64 n → doc_write (B := ZNum) (sample_sub n DocHybridTime.kInvalid, [36])) as H.
  { intros n Hn. split; cbn [fst snd]; [by apply sample_sub_wf|done| |split_and!; [done|bytes_done|done]]. intros v l E. vm_compute in E. injection E as <- _. split_and!; discriminate. }
  repeat (apply Forall_cons_2); [by apply H..|apply Forall_nil_2].
Qed.


(** Both writes in one batch and one of them again in the next. *)
Definition sample_batches : list (batch (SubDocKey.t * bytes)) := [Batch false 40 [] sample_writes map_to_list; Batch false 42 [] (take 1 sample_writes) map_to_list].

Lemma document_writes_applied_witness :
  ∃ d' ops, write_batches (prepare_documents (B := ZNum) (replicate 16 7) SNAPSHOT_ISOLATION true) [(IntentApplier.key_prefix (replicate 16 7), [9])] 0 sample_batches = Ok d' ∧
    apply_until_done (λ k _ _, k) (replicate 16 7) 50 d' 3 19 None [] = Some (Ok ops) ∧ length (filter is_data ops) = 3%nat.
Proof.
  destruct (document_writes_applied (B := ZNum) (λ k _ _, k) (replicate 16 7) [(IntentApplier.key_prefix (replicate 16 7), [9])] true 50 0 3 SNAPSHOT_ISOLATION sample_batches)
    as (d' & ops & E1 & E2 & E3 & _).
  - split; [reflexivity|]. apply Forall_replicate. split; done.
  - split; done.
  - discriminate.
  - reflexivity.
  - discriminate.
  - repeat constructor.
  - apply Forall_singleton. split; [|reflexivity]. vm_compute. repeat constructor; discriminate.
  - pose proof sample_writes_ok as Hs. repeat (apply Forall_cons_2); [..|apply Forall_nil_2];
      (split_and!; [split; done|left; reflexivity|discriminate|exact Hs || apply Forall_take, Hs|intros m; reflexivity]).
  - repeat constructor.
  - done.
  - vm_compute. reflexivity.
  - exists d', ops. split; [exact E1|]. split; [|exact E3]. rewrite <- E2. f_equal.
Defined.

End DocumentWrites.
