(* ===== verification/LockManager.v ===== *)
(** * In-memory locks of document keys

    Models docdb/shared_lock_manager.cc: the conflict tables in
    [Module LockTables] and the lock of one key with its compare-and-swap loops,
    mutex and condition variable in [Module LockedBatchEntry], under any
    interleaving of threads.  The table of keys is in LockBatches. *)

From stdpp Require Import sorting.
From S2P Require Import Prelude ValueType Intent.

(** ** Conflict tables *)

Module LockTables.
Import IntentType.

(** [LockState] is a 128-bit unsigned integer; the four counters of 16 bits use
    the low half of it. *)
Definition kIntentTypeBits : Z := 16.
Definition kSingleIntentMask : Z := Z.shiftl 1 kIntentTypeBits - 1.

Definition flag_set (value flag : Z) : bool := negb (Z.land value flag =? 0).

Definition IntentTypesConflict (lhs rhs : IntentType.t) : bool :=
  let lhs_value := IntentType.code lhs in
  let rhs_value := IntentType.code rhs in
  (flag_set lhs_value kStrongIntentFlag || flag_set rhs_value kStrongIntentFlag) &&
  negb (Z.land lhs_value kWriteIntentFlag =? Z.land rhs_value kWriteIntentFlag).

Definition IntentTypeMask (intent_type : IntentType.t) : Z :=
  Z.shiftl kSingleIntentMask (IntentType.code intent_type * kIntentTypeBits).

(** The entry [idx] of the array [GenerateConflicts] computes. *)
Definition GenerateConflicts (idx : Z) : Z :=
  foldl (λ r intent_type,
    foldl (λ r other_intent_type,
      if IntentTypesConflict intent_type other_intent_type
      then Z.lor r (IntentTypeMask other_intent_type) else r) r kIntentTypeList)
    0 (IntentTypeSet.elements (IntentTypeSet.of_value idx)).

(** The entry [idx] of the array [GenerateByMask] computes. *)
Definition GenerateByMask (single_intent_mask idx : Z) : Z :=
  foldl (λ r intent_type,
    Z.lor r (Z.shiftl single_intent_mask (IntentType.code intent_type * kIntentTypeBits)))
    0 (IntentTypeSet.elements (IntentTypeSet.of_value idx)).

Definition kIntentTypeSetAdd (idx : Z) : Z := GenerateByMask 1 idx.
Definition kIntentTypeSetMask (idx : Z) : Z := GenerateByMask kSingleIntentMask idx.
Definition kIntentTypeSetConflicts (idx : Z) : Z := GenerateConflicts idx.

Definition IntentTypeSetsConflict (lhs rhs : IntentTypeSet.t) : bool :=
  existsb (λ intent1, existsb (IntentTypesConflict intent1) (IntentTypeSet.elements rhs))
    (IntentTypeSet.elements lhs).

(** *** Counters *)

(** The counter of a type, as the comment at the top of the file reads it. *)
Definition count (state : Z) (i : IntentType.t) : Z :=
  Z.shiftr state (IntentType.code i * kIntentTypeBits) mod 2 ^ kIntentTypeBits.

Lemma code_nonneg i : 0 <= IntentType.code i.
Proof. by destruct i. Qed.

Lemma land_type_mask state i : Z.land state (IntentTypeMask i) = 0 ↔ count state i = 0.
Proof.
  unfold IntentTypeMask, count. set (k := IntentType.code i * kIntentTypeBits).
  assert (0 <= k) as Hk by (unfold k, kIntentTypeBits; pose proof (code_nonneg i); lia).
  change kSingleIntentMask with (Z.ones 16). change kIntentTypeBits with 16.
  rewrite <- Z.land_ones by lia. split; intros H; apply Z.bits_inj'; intros n Hn.
  - apply (f_equal (λ z, Z.testbit z (n + k))) in H. rewrite Z.bits_0 in H |- *.
    rewrite Z.land_spec, Z.shiftr_spec by lia. rewrite Z.land_spec, Z.shiftl_spec in H by lia.
    by rewrite Z.add_simpl_r in H.
  - rewrite Z.land_spec, Z.shiftl_spec, Z.bits_0 by lia.
    destruct (Z.ltb_spec n k); [rewrite (Z.testbit_neg_r _ (n - k)) by lia; apply andb_false_r|].
    apply (f_equal (λ z, Z.testbit z (n - k))) in H. rewrite Z.bits_0, Z.land_spec, Z.shiftr_spec in H by lia.
    by rewrite Z.sub_simpl_r in H.
Qed.

(** The types that conflict with one of a set. *)
Definition conflicting (s : IntentTypeSet.t) (i : IntentType.t) : bool :=
  existsb (λ j, IntentTypesConflict j i) (IntentTypeSet.elements s).

(** Both tables, in closed form. *)
Definition union_of (f : IntentType.t → bool) (value : Z) : Z :=
  foldl (λ r i, if f i then Z.lor r (Z.shiftl value (IntentType.code i * kIntentTypeBits)) else r)
    0 kIntentTypeList.

Definition tables_ok (s : Z) : bool :=
  (kIntentTypeSetConflicts s =? union_of (conflicting s) kSingleIntentMask) &&
  (kIntentTypeSetMask s =? union_of (IntentTypeSet.Test s) kSingleIntentMask) &&
  (kIntentTypeSetAdd s =? (if IntentTypeSet.Test s kWeakRead then 1 else 0) +
     (if IntentTypeSet.Test s kWeakWrite then 2 ^ 16 else 0) +
     (if IntentTypeSet.Test s kStrongRead then 2 ^ 32 else 0) +
     (if IntentTypeSet.Test s kStrongWrite then 2 ^ 48 else 0)).

Lemma tables_closed_form s : IntentTypeSet.wf s → tables_ok s = true.
Proof. apply forall_sets. vm_compute. reflexivity. Qed.

Lemma land_union state f :
  Z.land state (union_of f kSingleIntentMask) = 0 ↔ ∀ i, f i = true → count state i = 0.
Proof.
  assert (∀ l r, Z.land state (foldl (λ r i, if f i then
      Z.lor r (Z.shiftl kSingleIntentMask (IntentType.code i * kIntentTypeBits)) else r) r l) = 0 ↔
    Z.land state r = 0 ∧ ∀ i, i ∈ l → f i = true → count state i = 0) as H.
  { induction l as [|i l IH]; intros r; cbn [foldl].
    - split; [|tauto]. intros Hr. split; [done|]. by intros i ?%not_elem_of_nil.
    - rewrite IH. destruct (f i) eqn:Hf.
      + rewrite Z.land_lor_distr_r, Z.lor_eq_0_iff. change (Z.shiftl _ _) with (IntentTypeMask i).
        rewrite land_type_mask. setoid_rewrite elem_of_cons.
        split; [intros [[Hr Hi] Hl]|intros [Hr Hl]]; (split; [auto|]).
        * intros j [->|Hj]; auto.
        * intros j Hj. apply Hl. by right.
      + setoid_rewrite elem_of_cons. split; intros [Hr Hl]; (split; [done|]).
        * intros j [->|Hj]; [congruence|auto].
        * intros j Hj. apply Hl. by right. }
  unfold union_of. rewrite H, Z.land_0_r. split; [|auto]. intros [_ Hi] i Hf. apply Hi; [|done].
  unfold kIntentTypeList. rewrite !elem_of_cons. destruct i; auto.
Qed.

(** The test at the head of the loop of [Lock]. *)
Lemma free_iff state s :
  IntentTypeSet.wf s →
  Z.land state (kIntentTypeSetConflicts s) = 0 ↔ ∀ i, conflicting s i = true → count state i = 0.
Proof.
  intros Hs. pose proof (tables_closed_form s Hs) as H. unfold tables_ok in H. bool_tests.
  rewrite H. apply land_union.
Qed.

End LockTables.

(** ** The lock of one key *)

Module LockedBatchEntry.
Import IntentType LockTables.

(** Where a thread is inside [Lock] or [Unlock]; each constructor is followed
    by one atomic action on the shared members.  [old] is the local
    [old_value] or [old_state]. *)
Inductive pc :=
  | Idle
  | LLoad                     (* about to load num_holding *)
  | LLoop (old : Z)           (* head of the loop *)
  | LMutex                    (* counted as a waiter, about to lock the mutex *)
  | LReload                   (* holds the mutex, about to load num_holding again *)
  | LDecided (old : Z)        (* holds the mutex, about to wait *)
  | LWait (old : Z)           (* blocked on the condition variable *)
  | LWoken (old : Z) (timeout : bool)     (* woken, has to lock the mutex again *)
  | LUnlock (old : Z) (timeout : bool)    (* holds the mutex, leaves the scope *)
  | LLeave (old : Z) (timeout : bool)     (* about to decrement num_waiters *)
  | Held                      (* Lock returned true *)
  | Failed                    (* Lock returned false *)
  | ULoad                     (* Unlock: about to load num_holding *)
  | ULoop (old : Z)
  | UWaiters (new : Z)        (* about to read num_waiters *)
  | UBarrier                  (* about to lock the mutex *)
  | UBarrierHeld              (* about to unlock it *)
  | UNotify.                  (* about to notify_all *)

#[export] Instance pc_eq_dec : EqDecision pc.
Proof. solve_decision. Defined.

(** A thread works on the entry with one set of intent types. *)
Record thread := Thread { types : IntentTypeSet.t; at_ : pc }.

(** [num_holding], [num_waiters], the owner of [mutex] and the threads. *)
Record state := State {
  num_holding : Z;
  num_waiters : Z;
  mutex : option nat;
  threads : list thread;
}.

Definition conflict (value : Z) (s : IntentTypeSet.t) : bool :=
  negb (Z.land value (kIntentTypeSetConflicts s) =? 0).

(** The loop over [lock_types] in [Unlock]. *)
Definition has_zero (lock_types : IntentTypeSet.t) (new_state : Z) : bool :=
  existsb (λ i, Z.land new_state (IntentTypeMask i) =? 0) (IntentTypeSet.elements lock_types).

(** What the environment decides: whether a weak compare-and-swap fails
    spuriously, and for a blocked thread whether it wakes up spuriously or its
    deadline passes.  [Call] starts [Lock] on an idle thread and [Unlock] on a
    holder. *)
Inductive event :=
  | Step | SpuriousFailure | SpuriousWakeup | Timeout | Call.

Definition set_pc (st : state) (t : nat) (th : thread) (p : pc) : list thread :=
  <[t := Thread (types th) p]> (threads st).

Definition wake (th : thread) : thread :=
  match at_ th with LWait old => Thread (types th) (LWoken old false) | _ => th end.

(** [lock(mutex)] succeeds only when nobody owns it. *)
Definition lock_mutex (st : state) (t : nat) (th : thread) (p : pc) : option state :=
  match mutex st with
  | None => Some (State (num_holding st) (num_waiters st) (Some t) (set_pc st t th p))
  | Some _ => None
  end.

(** One atomic action of thread [t]; [None] when it is blocked or the event does
    not apply. *)
Definition tstep (ev : event) (t : nat) (st : state) : option state :=
  match threads st !! t with
  | None => None
  | Some th =>
      let go p := Some (State (num_holding st) (num_waiters st) (mutex st) (set_pc st t th p)) in
      match ev, at_ th with
      | Call, Idle | Call, Failed => go LLoad
      | Call, Held => go ULoad
      | Step, LLoad => go (LLoop (num_holding st))
      | Step, LLoop old =>
          if negb (conflict old (types th)) then
            if num_holding st =? old then
              Some (State (old + kIntentTypeSetAdd (types th)) (num_waiters st) (mutex st)
                      (set_pc st t th Held))
            else go (LLoop (num_holding st))
          else Some (State (num_holding st) (num_waiters st + 1) (mutex st) (set_pc st t th LMutex))
      | SpuriousFailure, LLoop old =>
          if negb (conflict old (types th)) then go (LLoop (num_holding st)) else None
      | Step, LMutex => lock_mutex st t th LReload
      | Step, LReload =>
          let old := num_holding st in
          if conflict old (types th) then go (LDecided old) else go (LUnlock old false)
      | Step, LDecided old =>
          Some (State (num_holding st) (num_waiters st) None (set_pc st t th (LWait old)))
      | SpuriousWakeup, LWait old => go (LWoken old false)
      | Timeout, LWait old => go (LWoken old true)
      | Step, LWoken old timeout => lock_mutex st t th (LUnlock old timeout)
      | Step, LUnlock old timeout =>
          Some (State (num_holding st) (num_waiters st) None (set_pc st t th (LLeave old timeout)))
      | Step, LLeave old timeout =>
          Some (State (num_holding st) (num_waiters st - 1) (mutex st)
                  (set_pc st t th (if timeout then Failed else LLoop old)))
      | Step, ULoad => go (ULoop (num_holding st))
      | Step, ULoop old =>
          if num_holding st =? old then
            let new_state := old - kIntentTypeSetAdd (types th) in
            Some (State new_state (num_waiters st) (mutex st) (set_pc st t th (UWaiters new_state)))
          else go (ULoop (num_holding st))
      | SpuriousFailure, ULoop old => go (ULoop (num_holding st))
      | Step, UWaiters new_state =>
          if num_waiters st =? 0 then go Idle
          else if negb (has_zero (types th) new_state) then go Idle else go UBarrier
      | Step, UBarrier => lock_mutex st t th UBarrierHeld
      | Step, UBarrierHeld =>
          Some (State (num_holding st) (num_waiters st) None (set_pc st t th UNotify))
      | Step, UNotify =>
          Some (State (num_holding st) (num_waiters st) (mutex st)
                  (<[t := Thread (types th) Idle]> (wake <$> threads st)))
      | _, _ => None
      end
  end.

Definition init (sets : list IntentTypeSet.t) : state :=
  State 0 0 None ((λ s, Thread s Idle) <$> sets).

(** The states any interleaving leads to. *)
Inductive reachable (sets : list IntentTypeSet.t) : state → Prop :=
  | reachable_init : reachable sets (init sets)
  | reachable_step st st' ev t :
      reachable sets st → tstep ev t st = Some st' → reachable sets st'.

(** *** Counting threads *)

(** Threads whose types are in the counters. *)
Definition holds (p : pc) : bool :=
  match p with Held | ULoad | ULoop _ => true | _ => false end.
(** Threads counted in [num_waiters]. *)
Definition waits (p : pc) : bool :=
  match p with
  | LMutex | LReload | LDecided _ | LWait _ | LWoken _ _ | LUnlock _ _ | LLeave _ _ => true
  | _ => false
  end.
(** Threads that own the mutex. *)
Definition owns (p : pc) : bool :=
  match p with LReload | LDecided _ | LUnlock _ _ | UBarrierHeld => true | _ => false end.

Definition number (f : thread → bool) (l : list thread) : Z :=
  Z.of_nat (length (filter (λ th, f th = true) l)).

Lemma number_cons f th l : number f (th :: l) = (if f th then 1 else 0) + number f l.
Proof.
  unfold number. rewrite filter_cons. destruct (f th); [rewrite decide_True by done|rewrite decide_False by done];
    cbn [length]; lia.
Qed.

Lemma number_app f l1 l2 : number f (l1 ++ l2) = number f l1 + number f l2.
Proof. unfold number. rewrite filter_app, length_app. lia. Qed.

Lemma number_set f l t th th' :
  l !! t = Some th →
  number f (<[t := th']> l) =
  number f l - (if f th then 1 else 0) + (if f th' then 1 else 0).
Proof.
  intros Ht. rewrite insert_take_drop by (by eapply lookup_lt_Some).
  assert (number f l = number f (take t l ++ th :: drop (S t) l)) as -> by (by rewrite take_drop_middle).
  rewrite !number_app, !number_cons. lia.
Qed.

Lemma number_pos f l t th : l !! t = Some th → f th = true → 1 <= number f l.
Proof.
  intros Ht Hf. unfold number.
  assert (th ∈ filter (λ th, f th = true) l) as Hin
    by (apply list_elem_of_filter; split; [done|by eapply list_elem_of_lookup_2]).
  destruct (filter _ l); [by apply not_elem_of_nil in Hin|]. cbn [length]. lia.
Qed.

Lemma number_le f l : 0 <= number f l <= Z.of_nat (length l).
Proof. unfold number. pose proof (length_filter (λ th, f th = true) l). lia. Qed.

(** *** Invariants *)

Definition holds_type (i : IntentType.t) (th : thread) : bool :=
  holds (at_ th) && IntentTypeSet.Test (types th) i.
Definition holders (st : state) (i : IntentType.t) : Z := number (holds_type i) (threads st).

Definition types_ok (st : state) : Prop := Forall (λ th, IntentTypeSet.wf (types th)) (threads st).

(** The counters count the holders of each type. *)
Definition cell_ok (st : state) : Prop :=
  num_holding st = holders st kWeakRead + 2 ^ 16 * holders st kWeakWrite +
                   2 ^ 32 * holders st kStrongRead + 2 ^ 48 * holders st kStrongWrite.

Definition waiters_ok (st : state) : Prop :=
  num_waiters st = number (λ th, waits (at_ th)) (threads st).

Definition mutex_ok (st : state) : Prop :=
  ∀ t th, threads st !! t = Some th → owns (at_ th) = true ↔ mutex st = Some t.

(** Split a step into its transitions. *)
Ltac step_cases H :=
  unfold tstep, lock_mutex in H;
  match type of H with context [threads ?st !! ?t] =>
    destruct (threads st !! t) as [[s p]|] eqn:Ht; [|discriminate H] end;
  match type of H with context [match ?ev with _ => _ end] => destruct ev end;
  match goal with _ : threads _ !! _ = Some (Thread _ ?q) |- _ => destruct q end;
  cbn [at_ types] in H; try discriminate H;
  repeat (let b := fresh "b" in
          match type of H with context [if ?c then _ else _] => destruct c eqn:b end);
  try (match type of H with context [match mutex ?st with _ => _ end] =>
         destruct (mutex st) eqn:Hmutex end; try discriminate H);
  first [discriminate H | injection H as <-].

Lemma wake_types th : types (wake th) = types th.
Proof. unfold wake. by destruct (at_ th). Qed.

Lemma wake_pc f th : (∀ old, f (LWait old) = f (LWoken old false)) → f (at_ (wake th)) = f (at_ th) :> bool.
Proof. intros Hf. unfold wake. by destruct (at_ th) eqn:E; rewrite ?E. Qed.

Lemma number_wake f l :
  (∀ th, f (wake th) = f th) → number f (wake <$> l) = number f l.
Proof.
  intros Hf. induction l as [|th l IH]; [done|]. cbn [fmap list_fmap]. by rewrite !number_cons, Hf, IH.
Qed.

(** After [notify_all] followed by the return of the notifier. *)
Lemma number_notify f l t th th' :
  l !! t = Some th → (∀ th, f (wake th) = f th) →
  number f (<[t := th']> (wake <$> l)) = number f l - (if f th then 1 else 0) + (if f th' then 1 else 0).
Proof.
  intros Ht Hf. rewrite (number_set f _ t (wake th)); [|by rewrite list_lookup_fmap, Ht].
  by rewrite number_wake, Hf.
Qed.

Lemma holds_type_wake i th : holds_type i (wake th) = holds_type i th.
Proof. unfold holds_type. rewrite wake_types. f_equal. by apply wake_pc. Qed.

Lemma waits_wake th : waits (at_ (wake th)) = waits (at_ th).
Proof. by apply wake_pc. Qed.

Lemma step_types ev t st st' : tstep ev t st = Some st' → types_ok st → types_ok st'.
Proof.
  intros H Hok. unfold types_ok in *.
  step_cases H; cbn [threads]; unfold set_pc; apply Forall_insert; try done;
    try (by eapply Forall_lookup_1 in Ht; [|exact Hok]).
  apply Forall_fmap. eapply Forall_impl; [exact Hok|]. intros th Hth. cbn. by rewrite wake_types.
Qed.

Lemma add_closed s :
  IntentTypeSet.wf s →
  kIntentTypeSetAdd s = (if IntentTypeSet.Test s kWeakRead then 1 else 0) +
     2 ^ 16 * (if IntentTypeSet.Test s kWeakWrite then 1 else 0) +
     2 ^ 32 * (if IntentTypeSet.Test s kStrongRead then 1 else 0) +
     2 ^ 48 * (if IntentTypeSet.Test s kStrongWrite then 1 else 0).
Proof.
  intros Hs. pose proof (tables_closed_form s Hs) as H. unfold tables_ok in H. bool_tests.
  etransitivity; [eassumption|]. repeat case_match; lia.
Qed.

Lemma step_cell ev t st st' :
  types_ok st → tstep ev t st = Some st' → cell_ok st → cell_ok st'.
Proof.
  intros Hty H Hok. unfold cell_ok, holders in *.
  step_cases H; cbn [num_holding threads]; unfold set_pc;
    first [rewrite !(number_notify _ _ _ _ _ Ht) by apply holds_type_wake
          |rewrite !(number_set _ _ _ _ _ Ht)];
    cbn [holds_type holds at_ types andb]; try lia.
  all: assert (IntentTypeSet.wf s) as Hs by (by eapply Forall_lookup_1 in Ht; [|exact Hty]).
  all: rewrite (add_closed s Hs); bool_tests; lia.
Qed.

Lemma step_waiters ev t st st' : tstep ev t st = Some st' → waiters_ok st → waiters_ok st'.
Proof.
  intros H Hok. unfold waiters_ok in *.
  step_cases H; cbn [num_waiters threads]; unfold set_pc;
    first [rewrite !(number_notify _ _ _ _ _ Ht) by apply waits_wake
          |rewrite !(number_set _ _ _ _ _ Ht)]; cbn [waits at_]; lia.
Qed.

Lemma step_length ev t st st' :
  tstep ev t st = Some st' → length (threads st') = length (threads st).
Proof.
  intros H. step_cases H; cbn [threads]; unfold set_pc; by rewrite length_insert, ?length_fmap.
Qed.

(** A thread of the new state is the one that moved or an old one, which
    [notify_all] may have woken. *)
Lemma lookup_moved (l : list thread) t th th' t' x :
  l !! t = Some th → <[t := th']> l !! t' = Some x → (t' = t ∧ x = th') ∨ (t' ≠ t ∧ l !! t' = Some x).
Proof.
  intros Ht Hx. destruct (decide (t' = t)) as [->|Hne].
  - rewrite list_lookup_insert_eq in Hx by (by eapply lookup_lt_Some). left. naive_solver.
  - rewrite list_lookup_insert_ne in Hx by done. by right.
Qed.

Lemma step_mutex ev t st st' : tstep ev t st = Some st' → mutex_ok st → mutex_ok st'.
Proof.
  intros H Hok. unfold mutex_ok in *. intros t' x Hx.
  step_cases H; cbn [mutex threads] in *; unfold set_pc in Hx;
    try (destruct (lookup_moved _ _ _ _ _ _ Ht Hx) as [[-> ->]|[Hne Hx']];
         [|pose proof (Hok _ _ Hx')]; pose proof (Hok _ _ Ht) as Hself;
         cbn [owns at_] in *; rewrite ?Hmutex in *; naive_solver).
  assert ((wake <$> threads st) !! t = Some (wake (Thread s UNotify))) as Hw
    by by rewrite list_lookup_fmap, Ht.
  destruct (lookup_moved _ _ _ _ _ _ Hw Hx) as [[-> ->]|[Hne Hx']]; [exact (Hok _ _ Ht)|].
  rewrite list_lookup_fmap in Hx'. apply fmap_Some in Hx' as (y & Hy & ->).
  rewrite <- (Hok _ _ Hy). by rewrite (wake_pc owns y).
Qed.

(** *** Counters and holders *)

Lemma digit k lo x hi :
  0 <= k → 0 <= lo < 2 ^ k → 0 <= x < 2 ^ 16 →
  (lo + 2 ^ k * (x + 2 ^ 16 * hi)) / 2 ^ k mod 2 ^ 16 = x.
Proof.
  intros Hk Hlo Hx. rewrite (Z.mul_comm (2 ^ k)), Z.div_add, Z.div_small, Z.add_0_l by lia.
  by rewrite (Z.mul_comm (2 ^ 16)), Z_mod_plus_full, Z.mod_small.
Qed.

Lemma count_holders st i :
  cell_ok st → Z.of_nat (length (threads st)) < 2 ^ 16 → count (num_holding st) i = holders st i.
Proof.
  intros Hc Hl. rewrite Hc. unfold count, kIntentTypeBits, holders.
  pose proof (number_le (holds_type kWeakRead) (threads st)).
  pose proof (number_le (holds_type kWeakWrite) (threads st)).
  pose proof (number_le (holds_type kStrongRead) (threads st)).
  pose proof (number_le (holds_type kStrongWrite) (threads st)).
  set (a := number (holds_type kWeakRead) _) in *. set (b := number (holds_type kWeakWrite) _) in *.
  set (c := number (holds_type kStrongRead) _) in *. set (d := number (holds_type kStrongWrite) _) in *.
  rewrite Z.shiftr_div_pow2 by (destruct i; done). destruct i.
  - etransitivity; [|apply (digit 0 0 a (b + 2 ^ 16 * c + 2 ^ 32 * d)); lia].
    f_equal. f_equal. lia.
  - etransitivity; [|apply (digit 16 a b (c + 2 ^ 16 * d)); lia]. f_equal. f_equal. lia.
  - etransitivity; [|apply (digit 32 (a + 2 ^ 16 * b) c d); lia]. f_equal. f_equal. lia.
  - etransitivity; [|apply (digit 48 (a + 2 ^ 16 * b + 2 ^ 32 * c) d 0); lia].
    f_equal. f_equal. lia.
Qed.

Lemma conflict_holders st s :
  cell_ok st → Z.of_nat (length (threads st)) < 2 ^ 16 → IntentTypeSet.wf s →
  conflict (num_holding st) s = false ↔ ∀ i, conflicting s i = true → holders st i = 0.
Proof.
  intros Hc Hl Hs. unfold conflict. rewrite negb_false_iff, Z.eqb_eq, free_iff by done.
  by setoid_rewrite count_holders.
Qed.

Lemma elements_test s i : i ∈ IntentTypeSet.elements s ↔ IntentTypeSet.Test s i = true.
Proof.
  unfold IntentTypeSet.elements. rewrite list_elem_of_filter, Is_true_true. split; [tauto|].
  intros Hi. split; [done|]. unfold kIntentTypeList. rewrite !elem_of_cons. destruct i; auto.
Qed.

Lemma sets_conflict s s' :
  IntentTypeSetsConflict s s' = false ↔
  ∀ i, IntentTypeSet.Test s' i = true → conflicting s i = false.
Proof.
  unfold IntentTypeSetsConflict, conflicting. rewrite <- not_true_iff_false, existsb_exists. split.
  - intros H i Hi. rewrite <- not_true_iff_false, existsb_exists. intros (j & Hj & Hc). apply H.
    exists j. split; [done|]. apply existsb_exists. exists i. split; [|done].
    by apply list_elem_of_In, elements_test.
  - intros H (j & Hj & Hex). apply existsb_exists in Hex as (i & Hi & Hc).
    apply list_elem_of_In, elements_test in Hi. specialize (H i Hi).
    rewrite <- not_true_iff_false, existsb_exists in H. apply H. by exists j.
Qed.

Lemma sets_conflict_sym s s' :
  IntentTypeSet.wf s → IntentTypeSet.wf s' →
  IntentTypeSetsConflict s s' = IntentTypeSetsConflict s' s.
Proof.
  intros Hs Hs'.
  pose proof (forall_sets (λ s, forallb (λ s', Bool.eqb (IntentTypeSetsConflict s s')
    (IntentTypeSetsConflict s' s)) IntentTypeSet.all) ltac:(vm_compute; reflexivity) s Hs) as H.
  cbv beta in H. apply eqb_prop. exact (forall_sets _ H s' Hs').
Qed.

(** *** Mutual exclusion *)

Definition excl_ok (st : state) : Prop :=
  ∀ t t' th th', t ≠ t' → threads st !! t = Some th → threads st !! t' = Some th' →
    holds (at_ th) = true → holds (at_ th') = true →
    IntentTypeSetsConflict (types th) (types th') = false.

(** A thread that passes the test conflicts with no holder. *)
Lemma free_no_conflict st s t' th' :
  cell_ok st → Z.of_nat (length (threads st)) < 2 ^ 16 → IntentTypeSet.wf s →
  conflict (num_holding st) s = false →
  threads st !! t' = Some th' → holds (at_ th') = true →
  IntentTypeSetsConflict s (types th') = false.
Proof.
  intros Hc Hl Hs Hfree Ht' Hh. apply sets_conflict. intros i Hi.
  apply not_true_iff_false. intros Hconf.
  pose proof (proj1 (conflict_holders st s Hc Hl Hs) Hfree i Hconf) as H0.
  assert (1 <= holders st i); [|lia]. apply (number_pos _ _ t' th' Ht').
  unfold holds_type. by rewrite Hh.
Qed.

(** A step that does not enter [Held] does not make a new holder. *)
Lemma step_holders ev t st st' t' x :
  tstep ev t st = Some st' → threads st' !! t' = Some x → holds (at_ x) = true →
  (∃ y, threads st !! t' = Some y ∧ holds (at_ y) = true ∧ types y = types x) ∨
  (t' = t ∧ ∃ y, threads st !! t = Some y ∧ types y = types x ∧
   conflict (num_holding st) (types x) = false).
Proof.
  intros H Hx Hh.
  step_cases H; cbn [threads] in Hx; unfold set_pc in Hx;
    try (destruct (lookup_moved _ _ _ _ _ _ Ht Hx) as [[-> ->]|[Hne Hx']];
         [cbn [holds at_] in Hh; try discriminate Hh;
          first [left; by eexists|right; split; [done|]; eexists; split_and!; [done|done|];
                 cbn [types]; bool_tests; congruence]
         |left; by eexists]).
  assert ((wake <$> threads st) !! t = Some (wake (Thread s UNotify))) as Hw
    by by rewrite list_lookup_fmap, Ht.
  destruct (lookup_moved _ _ _ _ _ _ Hw Hx) as [[-> ->]|[Hne Hx']]; [discriminate Hh|].
  rewrite list_lookup_fmap in Hx'. apply fmap_Some in Hx' as (y & Hy & ->). left. exists y.
  rewrite wake_pc in Hh by done. by rewrite wake_types.
Qed.

Lemma lookup_types st t th : types_ok st → threads st !! t = Some th → IntentTypeSet.wf (types th).
Proof. intros Hty Ht. by eapply Forall_lookup_1 in Ht; [|exact Hty]. Qed.

Lemma step_excl ev t st st' :
  types_ok st → cell_ok st → Z.of_nat (length (threads st)) < 2 ^ 16 →
  tstep ev t st = Some st' → excl_ok st → excl_ok st'.
Proof.
  intros Hty Hc Hl H Hok t1 t2 x1 x2 Hne H1 H2 Hh1 Hh2.
  destruct (step_holders _ _ _ _ _ _ H H1 Hh1) as [(y1 & E1 & K1 & T1)|(-> & y1 & E1 & T1 & F1)],
    (step_holders _ _ _ _ _ _ H H2 Hh2) as [(y2 & E2 & K2 & T2)|(-> & y2 & E2 & T2 & F2)].
  - rewrite <- T1, <- T2. by eapply Hok.
  - rewrite sets_conflict_sym by (rewrite <- ?T1, <- ?T2; by eapply lookup_types).
    rewrite <- T1. apply (free_no_conflict st (types x2) t1); try done.
    rewrite <- T2. by eapply lookup_types.
  - rewrite <- T2. apply (free_no_conflict st (types x1) t2); try done.
    rewrite <- T1. by eapply lookup_types.
  - done.
Qed.

(** *** Wake-ups *)

Definition blocked (p : pc) : bool := match p with LDecided _ | LWait _ => true | _ => false end.
Definition decided (p : pc) : bool := match p with LDecided _ => true | _ => false end.

(** A thread inside [Unlock] that will notify; for a thread that has not
    started to wait yet it must not be past the mutex. *)
Definition pending (before_wait : bool) (th : thread) : bool :=
  match at_ th with
  | UWaiters new_state => has_zero (types th) new_state
  | UBarrier => true
  | UBarrierHeld | UNotify => negb before_wait
  | _ => false
  end.

Definition wake_ok (st : state) : Prop :=
  ∀ t th, threads st !! t = Some th → blocked (at_ th) = true →
    conflict (num_holding st) (types th) = false →
    ∃ u thu, threads st !! u = Some thu ∧ pending (decided (at_ th)) thu = true.

Lemma pending_weaken b th : pending true th = true → pending b th = true.
Proof. unfold pending. by destruct (at_ th), b. Qed.

Lemma pending_other (l : list thread) t th th' u thu b :
  l !! t = Some th → pending b th = false → l !! u = Some thu → pending b thu = true →
  ∃ u thu, <[t := th']> l !! u = Some thu ∧ pending b thu = true.
Proof.
  intros Ht Hp Hu Hpu. exists u, thu. split; [|done].
  rewrite list_lookup_insert_ne; [done|]. intros ->. congruence.
Qed.

Lemma has_zero_true s new i :
  IntentTypeSet.Test s i = true → count new i = 0 → has_zero s new = true.
Proof.
  intros Hi Hc. unfold has_zero. apply existsb_exists. exists i. split.
  - by apply list_elem_of_In, elements_test.
  - by apply Z.eqb_eq, land_type_mask.
Qed.

(** A step of [t] that leaves [num_holding] alone. *)
Lemma quiet_wake st t th p w m :
  threads st !! t = Some th → wake_ok st →
  (blocked p = true →
     (decided p = false ∧ decided (at_ th) = true) ∨ conflict (num_holding st) (types th) = true) →
  (∀ t2 th2, threads st !! t2 = Some th2 → blocked (at_ th2) = true →
     pending (decided (at_ th2)) th = true →
     pending (decided (at_ th2)) (Thread (types th) p) = true) →
  wake_ok (State (num_holding st) w m (<[t := Thread (types th) p]> (threads st))).
Proof.
  intros Ht Hok Hself Hpend t2 th2 H2 Hb Hf. cbn [num_holding threads] in *.
  assert (∃ u thu, threads st !! u = Some thu ∧ pending (decided (at_ th2)) thu = true ∧
            (u = t → ∃ t3 th3, threads st !! t3 = Some th3 ∧ blocked (at_ th3) = true ∧
                       decided (at_ th3) = decided (at_ th2)))
    as (u & thu & Hu & Hpu & Hut).
  { destruct (lookup_moved _ _ _ _ _ _ Ht H2) as [[-> ->]|[Hne H2']]; cbn [at_ types] in *.
    - destruct (Hself Hb) as [[Hd Hd']|Hc]; [|congruence].
      destruct (Hok t th Ht) as (u & thu & Hu & Hpu); [by destruct (at_ th)|done|].
      rewrite Hd' in Hpu. exists u, thu. split_and!; [done|by apply pending_weaken|].
      intros ->. rewrite Ht in Hu. injection Hu as <-. by destruct (at_ th) eqn:E; unfold pending in Hpu; rewrite E in Hpu.
    - destruct (Hok t2 th2 H2' Hb Hf) as (u & thu & Hu & Hpu). exists u, thu. split_and!; [done..|].
      intros _. by exists t2, th2. }
  destruct (decide (u = t)) as [->|Hut'].
  - destruct (Hut eq_refl) as (t3 & th3 & H3 & Hb3 & Hd3). rewrite Ht in Hu. injection Hu as <-.
    exists t, (Thread (types th) p). split; [by apply list_lookup_insert_eq; eapply lookup_lt_Some|].
    rewrite <- Hd3 in *. by eapply Hpend.
  - exists u, thu. split; [|done]. by rewrite list_lookup_insert_ne.
Qed.

Definition inv (st : state) : Prop :=
  types_ok st ∧ Z.of_nat (length (threads st)) < 2 ^ 16 ∧ cell_ok st ∧ waiters_ok st ∧
  mutex_ok st ∧ excl_ok st ∧ wake_ok st.

(** Somebody blocked is counted as a waiter, and before the wait owns the
    mutex. *)
Lemma blocked_facts st t th :
  inv st → threads st !! t = Some th → blocked (at_ th) = true →
  num_waiters st ≠ 0 ∧ (decided (at_ th) = true → mutex st = Some t).
Proof.
  intros (_ & _ & _ & Hw & Hm & _) Ht Hb. split.
  - rewrite Hw. assert (1 <= number (λ th, waits (at_ th)) (threads st)); [|lia].
    apply (number_pos _ _ t th Ht). by destruct (at_ th).
  - intros Hd. apply (Hm t th Ht). by destruct (at_ th).
Qed.

(** Taking a lock only adds conflicts. *)
Lemma wake_lock st t s old :
  inv st → threads st !! t = Some (Thread s (LLoop old)) → num_holding st = old →
  let st' := State (old + kIntentTypeSetAdd s) (num_waiters st) (mutex st)
               (<[t := Thread s Held]> (threads st)) in
  cell_ok st' → wake_ok st'.
Proof.
  intros (Hty & Hl & Hc & _ & _ & _ & Hok) Ht Hold st' Hc' t2 th2 H2 Hb Hf. cbn [threads st'] in H2.
  destruct (lookup_moved _ _ _ _ _ _ Ht H2) as [[-> ->]|[Hne H2']]; [discriminate Hb|].
  destruct (Hok t2 th2 H2' Hb) as (u & thu & Hu & Hpu); [|by eapply pending_other; [exact Ht| |exact Hu|exact Hpu]].
  pose proof (lookup_types _ _ _ Hty H2') as Hs2.
  apply (conflict_holders st); [done..|]. intros i Hi.
  assert (holders st' i = 0) as H0.
  { apply (conflict_holders st' (types th2)); try done. unfold st'. cbn [threads]. by rewrite length_insert. }
  unfold holders, st' in H0. cbn [threads] in H0. rewrite (number_set _ _ _ _ _ Ht) in H0.
  cbn [holds_type holds at_ types andb] in H0. pose proof (number_le (holds_type i) (threads st)).
  unfold holders. case_match; lia.
Qed.

(** The holder whose release clears the last conflict of a blocked thread sees
    a counter of its own at zero. *)
Lemma wake_unlock st t s old :
  inv st → threads st !! t = Some (Thread s (ULoop old)) → num_holding st = old →
  let new_state := old - kIntentTypeSetAdd s in
  let st' := State new_state (num_waiters st) (mutex st)
               (<[t := Thread s (UWaiters new_state)]> (threads st)) in
  cell_ok st' → wake_ok st'.
Proof.
  intros (Hty & Hl & Hc & _ & _ & _ & Hok) Ht Hold new_state st' Hc' t2 th2 H2 Hb Hf.
  cbn [threads st'] in H2.
  destruct (lookup_moved _ _ _ _ _ _ Ht H2) as [[-> ->]|[Hne H2']]; [discriminate Hb|].
  destruct (conflict (num_holding st) (types th2)) eqn:Hconf.
  2:{ destruct (Hok t2 th2 H2' Hb Hconf) as (u & thu & Hu & Hpu).
      by eapply pending_other; [exact Ht| |exact Hu|exact Hpu]. }
  pose proof (lookup_types _ _ _ Hty H2') as Hs2.
  assert (Z.of_nat (length (threads st')) < 2 ^ 16) as Hl'
    by (unfold st'; cbn [threads]; by rewrite length_insert).
  exists t, (Thread s (UWaiters new_state)).
  split; [by apply list_lookup_insert_eq; eapply lookup_lt_Some|]. cbn [pending at_ types].
  destruct (decide (has_zero s new_state = true)) as [|Hz]; [done|]. exfalso.
  assert (conflict (num_holding st) (types th2) = false); [|congruence].
  apply (conflict_holders st); [done..|]. intros i Hi.
  pose proof (proj1 (conflict_holders st' (types th2) Hc' Hl' Hs2) Hf i Hi) as H0.
  assert (holders st' i = holders st i - (if IntentTypeSet.Test s i then 1 else 0)) as E.
  { unfold holders, st'. cbn [threads]. rewrite (number_set _ _ _ _ _ Ht).
    cbn [holds_type holds at_ types andb]. lia. }
  destruct (IntentTypeSet.Test s i) eqn:Hti; [|lia]. exfalso. apply Hz, (has_zero_true s _ i Hti).
  change new_state with (num_holding st'). by rewrite count_holders.
Qed.

(** Notifying leaves nobody blocked on the condition variable; a thread about
    to wait has a notifier that is still before the mutex. *)
Lemma wake_notify st t s m w :
  inv st → threads st !! t = Some (Thread s UNotify) →
  wake_ok (State (num_holding st) w m (<[t := Thread s Idle]> (wake <$> threads st))).
Proof.
  intros (_ & _ & _ & _ & _ & _ & Hok) Ht t2 th2 H2 Hb Hf. cbn [num_holding threads] in *.
  assert ((wake <$> threads st) !! t = Some (wake (Thread s UNotify))) as Hw
    by by rewrite list_lookup_fmap, Ht.
  destruct (lookup_moved _ _ _ _ _ _ Hw H2) as [[-> ->]|[Hne H2']]; [discriminate Hb|].
  rewrite list_lookup_fmap in H2'. apply fmap_Some in H2' as (y & Hy & ->).
  assert (decided (at_ y) = true ∧ wake y = y) as [Hd Hwy].
  { unfold wake in *. destruct y as [s2 p2]; destruct p2; cbn in *; try discriminate; done. }
  rewrite Hwy in *. destruct (Hok t2 y Hy) as (u & thu & Hu & Hpu); [by destruct (at_ y)|done|].
  rewrite Hd in *. assert (u ≠ t) as Hut.
  { intros ->. rewrite Ht in Hu. by injection Hu as <-. }
  exists u, thu. split; [|done]. rewrite list_lookup_insert_ne, list_lookup_fmap, Hu by done. cbn.
  f_equal. unfold pending in Hpu. unfold wake. by destruct (at_ thu).
Qed.

Lemma step_wake ev t st st' : inv st → cell_ok st' → tstep ev t st = Some st' → wake_ok st'.
Proof.
  intros Hinv Hc' H. pose proof Hinv as (Hty & Hl & Hc & Hw & Hm & Hx & Hok).
  step_cases H; unfold set_pc in *.
  all: try (by apply wake_notify).
  all: try (bool_tests; by eapply wake_lock).
  all: try (bool_tests; by eapply wake_unlock).
  all: apply (quiet_wake st t (Thread s _)); [exact Ht|exact Hok| |]; cbn [at_ types blocked decided pending];
    try (intros; discriminate); try (intros _; left; done); try (intros _; right; done); try done.
  all: intros t2 th2 H2 Hb2 Hp; destruct (blocked_facts st t2 th2 Hinv H2 Hb2) as [Hnw Hmx];
    bool_tests; try congruence.
  all: destruct (decided (at_ th2)) eqn:Hd; [|done]; specialize (Hmx eq_refl); congruence.
Qed.

Lemma number_none f l : (∀ th, th ∈ l → f th = false) → number f l = 0.
Proof.
  induction l as [|th l IH]; intros Hf; [done|]. rewrite number_cons, (Hf th) by left.
  rewrite IH; [done|]. intros th' Hth. apply Hf. by right.
Qed.

Lemma lock_init_inv sets :
  Forall IntentTypeSet.wf sets → Z.of_nat (length sets) < 2 ^ 16 → inv (init sets).
Proof.
  intros Hs Hl.
  assert (∀ t th, threads (init sets) !! t = Some th → at_ th = Idle) as Hidle.
  { intros t th. cbn. rewrite list_lookup_fmap. by intros (x & _ & ->)%fmap_Some. }
  assert (∀ th, th ∈ threads (init sets) → at_ th = Idle) as Hin.
  { intros th (t & Ht)%list_elem_of_lookup. by eapply Hidle. }
  split_and!.
  - unfold types_ok. cbn. apply Forall_fmap. eapply Forall_impl; [exact Hs|done].
  - cbn. by rewrite length_fmap.
  - unfold cell_ok, holders. rewrite !number_none; [done|..];
      intros th Hth; unfold holds_type; by rewrite Hin.
  - unfold waiters_ok. rewrite number_none; [done|]. intros th Hth. by rewrite Hin.
  - intros t th Ht. rewrite (Hidle t th Ht). done.
  - intros t t' th th' _ Ht _ Hh. by rewrite (Hidle t th Ht) in Hh.
  - intros t th Ht Hb. by rewrite (Hidle t th Ht) in Hb.
Qed.

Lemma step_inv ev t st st' : inv st → tstep ev t st = Some st' → inv st'.
Proof.
  intros Hinv H. pose proof Hinv as (Hty & Hl & Hc & Hw & Hm & Hx & _).
  assert (cell_ok st') as Hc' by by eapply step_cell.
  split_and!; [by eapply step_types|by erewrite step_length|done|by eapply step_waiters|
    by eapply step_mutex|by eapply step_excl|by eapply step_wake].
Qed.

Lemma lock_reachable_inv sets st :
  Forall IntentTypeSet.wf sets → Z.of_nat (length sets) < 2 ^ 16 → reachable sets st → inv st.
Proof. intros Hs Hl. induction 1; [by apply lock_init_inv|by eapply step_inv]. Qed.

(** *** Runs *)

(** A concrete schedule. *)
Fixpoint run (l : list (event * nat)) (st : state) : option state :=
  match l with
  | [] => Some st
  | (ev, t) :: l => match tstep ev t st with Some st' => run l st' | None => None end
  end.

Lemma lock_run_reachable sets l st st' : reachable sets st → run l st = Some st' → reachable sets st'.
Proof.
  revert st. induction l as [|[ev t] l IH]; intros st Hst E; cbn in E; [by injection E as <-|].
  destruct (tstep ev t st) as [st1|] eqn:H1; [|done]. eapply IH; [|done]. by eapply reachable_step.
Qed.

End LockedBatchEntry.

(** ** Properties of the lock of one key *)

Module LockProperties.
Import IntentType RowMark Intent LockTables LockedBatchEntry.

(** The masks [Lock] tests, precomputed from pairs of single types, decide
    the same relation as [IntentTypeSetsConflict]: two sets conflict iff the
    mask of all counters of one meets the conflict mask of the other.  The
    relation is symmetric, and the intents two row marks are stored as
    conflict iff [AreConflictingRowMarkTypes] says the marks do. *)
Theorem conflict_tables (s s' : IntentTypeSet.t) (level level' : IsolationLevel)
    (kind kind' : OperationKind) (m m' : RowMarkType) :
  IntentTypeSet.wf s → IntentTypeSet.wf s' →
  IntentTypeSetsConflict s s' =
    negb (Z.land (kIntentTypeSetMask s) (kIntentTypeSetConflicts s') =? 0) ∧
  IntentTypeSetsConflict s s' = IntentTypeSetsConflict s' s ∧
  (IsValidRowMarkType m = true → IsValidRowMarkType m' = true →
   AreConflictingRowMarkTypes m m' =
   IntentTypeSetsConflict (GetStrongIntentTypeSet level kind m)
                          (GetStrongIntentTypeSet level' kind' m')).
Proof.
  intros Hs Hs'. split_and!.
  - pose proof (forall_sets (λ s, forallb (λ s', Bool.eqb (IntentTypeSetsConflict s s')
      (negb (Z.land (kIntentTypeSetMask s) (kIntentTypeSetConflicts s') =? 0))) IntentTypeSet.all)
      ltac:(vm_compute; reflexivity) s Hs) as H.
    cbv beta in H. apply eqb_prop. exact (forall_sets _ H s' Hs').
  - by apply sets_conflict_sym.
  - by destruct m, m', level, level', kind, kind'.
Qed.

Lemma conflict_tables_witness :
  IntentTypeSetsConflict 4 8 = true ∧
  AreConflictingRowMarkTypes ROW_MARK_SHARE ROW_MARK_KEYSHARE = false.
Proof.
  destruct (conflict_tables 4 8 SNAPSHOT_ISOLATION SNAPSHOT_ISOLATION kWrite kWrite
    ROW_MARK_SHARE ROW_MARK_KEYSHARE) as (H & _ & R); [split; done..|].
  split; [rewrite H; reflexivity|rewrite R; reflexivity].
Defined.

(** C4: under any interleaving of the atomic actions of up to 65535 threads,
    with spurious failures, wake-ups and timeouts, no two threads that hold
    the lock hold conflicting sets of intent types, and each counter of
    [num_holding] is the number of holders of its type. *)
Theorem lock_mutual_exclusion (sets : list IntentTypeSet.t) (st : state) (t t' : nat)
    (th th' : thread) (i : IntentType.t) :
  Forall IntentTypeSet.wf sets → Z.of_nat (length sets) < 2 ^ 16 → reachable sets st →
  threads st !! t = Some th → threads st !! t' = Some th' → t ≠ t' →
  at_ th = Held → at_ th' = Held →
  IntentTypeSetsConflict (types th) (types th') = false ∧
  count (num_holding st) i = holders st i.
Proof.
  intros Hs Hl Hr Ht Ht' Hne Hh Hh'.
  pose proof (lock_reachable_inv sets st Hs Hl Hr) as (_ & Hlen & Hc & _ & _ & Hx & _).
  split; [|by apply count_holders]. apply (Hx t t'); try done; by rewrite ?Hh, ?Hh'.
Qed.

(** Two readers take the lock. *)
Definition two_readers : list (event * nat) :=
  [(Call, 0%nat); (Call, 1%nat); (Step, 0%nat); (Step, 1%nat); (Step, 0%nat); (Step, 1%nat);
   (Step, 1%nat)].
Definition two_readers_end : state :=
  State (2 ^ 33) 0 None [Thread 4 Held; Thread 4 Held].

Lemma two_readers_run : run two_readers (init [4; 4]) = Some two_readers_end.
Proof. vm_compute. reflexivity. Qed.

Lemma lock_mutual_exclusion_witness :
  IntentTypeSetsConflict 4 4 = false ∧ count (num_holding two_readers_end) kStrongRead = 2.
Proof.
  apply (lock_mutual_exclusion [4; 4] two_readers_end 0 1 (Thread 4 Held) (Thread 4 Held) kStrongRead);
    try reflexivity; try discriminate.
  - repeat constructor; done.
  - eapply lock_run_reachable; [apply reachable_init|exact two_readers_run].
Defined.

(** C30: no wake-up is lost: in every reachable state a thread that is blocked
    on the condition variable, or holds the mutex and is about to wait, still
    conflicts with the holders, or some thread inside [Unlock] has yet to
    notify it, and before the mutex if the wait has not begun.  So once no
    thread is between the release and the end of [Unlock], every blocked
    thread waits for a holder that conflicts with it. *)
Theorem no_lost_wakeup (sets : list IntentTypeSet.t) (st : state) (t : nat) (th : thread) :
  Forall IntentTypeSet.wf sets → Z.of_nat (length sets) < 2 ^ 16 → reachable sets st →
  threads st !! t = Some th → blocked (at_ th) = true →
  (∀ u thu, threads st !! u = Some thu → pending (decided (at_ th)) thu = false) →
  ∃ u thu, threads st !! u = Some thu ∧ holds (at_ thu) = true ∧
    IntentTypeSetsConflict (types th) (types thu) = true.
Proof.
  intros Hs Hl Hr Ht Hb Hnone.
  pose proof (lock_reachable_inv sets st Hs Hl Hr) as (Hty & Hlen & Hc & _ & _ & _ & Hw).
  pose proof (lookup_types _ _ _ Hty Ht) as Hth.
  destruct (decide (Exists (λ thu, holds (at_ thu) = true ∧
    IntentTypeSetsConflict (types th) (types thu) = true) (threads st))) as [He|He].
  { apply Exists_exists in He as (thu & (u & Hu)%list_elem_of_lookup & ? & ?). by exists u, thu. }
  exfalso. destruct (Hw t th Ht Hb) as (u & thu & Hu & Hp); [|by rewrite (Hnone u thu Hu) in Hp].
  apply (conflict_holders st); [done..|]. intros i Hi. apply number_none. intros thu Hin.
  apply not_true_iff_false. intros Hh. apply He, Exists_exists. exists thu.
  unfold holds_type in Hh. apply andb_true_iff in Hh as [Hh Htest].
  split_and!; [done..|]. apply not_false_iff_true. intros Hc0.
  by rewrite (proj1 (sets_conflict _ _) Hc0 i Htest) in Hi.
Qed.

(** A reader holds the lock, a writer waits for it. *)
Definition writer_waits : list (event * nat) :=
  [(Call, 0%nat); (Step, 0%nat); (Step, 0%nat); (Call, 1%nat); (Step, 1%nat); (Step, 1%nat);
   (Step, 1%nat); (Step, 1%nat); (Step, 1%nat)].
Definition writer_waits_end : state :=
  State (2 ^ 32) 1 None [Thread 4 Held; Thread 8 (LWait (2 ^ 32))].

Lemma writer_waits_run : run writer_waits (init [4; 8]) = Some writer_waits_end.
Proof. vm_compute. reflexivity. Qed.

Lemma no_lost_wakeup_witness :
  ∃ u thu, threads writer_waits_end !! u = Some thu ∧ holds (at_ thu) = true ∧
    IntentTypeSetsConflict 8 (types thu) = true.
Proof.
  apply (no_lost_wakeup [4; 8] writer_waits_end 1 (Thread 8 (LWait (2 ^ 32)))); try reflexivity.
  - repeat constructor; done.
  - eapply lock_run_reachable; [apply reachable_init|exact writer_waits_run].
  - intros [|[|u]] thu Hu; cbn in Hu; try discriminate; injection Hu as <-; reflexivity.
Defined.

End LockProperties.
