(* ===== verification/LockBatches.v ===== *)
(** * Batches of key locks

    Models the table of lock entries of docdb/shared_lock_manager.cc
    ([Reserve], [Cleanup], [Impl::Lock], [Impl::Unlock]) in
    [Module SharedLockManager], docdb/lock_batch.h and lock_batch.cc in
    [Module LockBatch], and the computation of the keys an operation locks
    ([ApplyIntent], [DetermineKeysToLock], [FilterKeysToLock],
    [PrepareDocWriteOperation] of docdb/docdb.cc) in [Module KeysToLock].
    Keys ([RefCntPrefix]) are the bytes they cover. *)

From stdpp Require Import sorting relations.
From S2P Require Import Prelude ValueType Intent LockManager.

(** ** The table of entries *)

(** [LockBatchEntry]; a pointer to a [LockedBatchEntry] is the index of the
    entry in [lock_entries_]. *)
Module LockBatchData.
Record LockBatchEntry := mk_entry {
  key : bytes;
  intent_types : IntentTypeSet.t;
  locked : nat;
}.
#[export] Instance LockBatchEntry_eq_dec : EqDecision LockBatchEntry.
Proof. solve_decision. Defined.
End LockBatchData.
Import LockBatchData.

Module SharedLockManager.

(** [lock_entries_] is the list of the [ref_count]s of all entries allocated. *)
Record table := Table {
  locks_ : gmap bytes nat;
  lock_entries_ : list Z;
  free_lock_entries_ : list nat;
}.

Definition empty : table := Table ∅ [] [].

(** The entry of a key, allocated when the key has none. *)
Definition find_entry (tb : table) (k : bytes) : nat * table :=
  match locks_ tb !! k with
  | Some value => (value, tb)
  | None =>
      match last (free_lock_entries_ tb) with
      | Some value =>
          (value, Table (<[k := value]> (locks_ tb)) (lock_entries_ tb)
                    (removelast (free_lock_entries_ tb)))
      | None =>
          let value := length (lock_entries_ tb) in
          (value, Table (<[k := value]> (locks_ tb)) (lock_entries_ tb ++ [0])
                    (free_lock_entries_ tb))
      end
  end.

(** [value->ref_count += delta], a [size_t]. *)
Definition add_ref (tb : table) (value : nat) (delta : Z) : table :=
  Table (locks_ tb) (alter (λ r, u64 (r + delta)) value (lock_entries_ tb)) (free_lock_entries_ tb).

Definition Reserve_one (tb : table) (e : LockBatchEntry) : table * LockBatchEntry :=
  let '(value, tb) := find_entry tb (key e) in
  (add_ref tb value 1, mk_entry (key e) (intent_types e) value).

Fixpoint Reserve (tb : table) (batch : list LockBatchEntry) : table * list LockBatchEntry :=
  match batch with
  | [] => (tb, [])
  | e :: batch =>
      let '(tb, e) := Reserve_one tb e in
      let '(tb, batch) := Reserve tb batch in
      (tb, e :: batch)
  end.

Definition Cleanup_one (tb : table) (item : LockBatchEntry) : table :=
  let tb := add_ref tb (locked item) (-1) in
  match lock_entries_ tb !! locked item with
  | Some r =>
      if r =? 0
      then Table (delete (key item) (locks_ tb)) (lock_entries_ tb)
             (free_lock_entries_ tb ++ [locked item])
      else tb
  | None => tb
  end.

Definition Cleanup (tb : table) (batch : list LockBatchEntry) : table := foldl Cleanup_one tb batch.

(** Calls on the entries of a batch, in order. *)
Inductive action :=
  | LockEntry (entry : nat) (types : IntentTypeSet.t)
  | UnlockEntry (entry : nat) (types : IntentTypeSet.t).

Definition unlock_all (batch : list LockBatchEntry) : list action :=
  (λ e, UnlockEntry (locked e) (intent_types e)) <$> rev batch.

(** The loop of [Impl::Lock]; [result] says whether [LockedBatchEntry::Lock] on
    the entry at a position returns true before the deadline. *)
Fixpoint lock_loop (result : nat → bool) (done todo : list LockBatchEntry) : bool * list action :=
  match todo with
  | [] => (true, [])
  | e :: todo =>
      if result (length done) then
        let '(ok, acts) := lock_loop result (done ++ [e]) todo in
        (ok, LockEntry (locked e) (intent_types e) :: acts)
      else (false, unlock_all done)
  end.

Definition Lock (result : nat → bool) (tb : table) (batch : list LockBatchEntry)
    : bool * list action * table * list LockBatchEntry :=
  let '(tb, batch) := Reserve tb batch in
  match lock_loop result [] batch with
  | (true, acts) => (true, acts, tb, batch)
  | (false, acts) => (false, acts, Cleanup tb batch, batch)
  end.

Definition Unlock (tb : table) (batch : list LockBatchEntry) : list action * table :=
  (unlock_all batch, Cleanup tb batch).

(** *** The table and the reservations outstanding *)

(** Keys with the entry they were given, one for every reservation that has not
    been cleaned up. *)
Definition pairs (batch : list LockBatchEntry) : list (bytes * nat) :=
  (λ e, (key e, locked e)) <$> batch.

Definition refs (out : list (bytes * nat)) (e : nat) : Z :=
  Z.of_nat (length (filter (λ p, p.2 = e) out)).

Record tinv (tb : table) (out : list (bytes * nat)) : Prop := {
  tinv_locks k e : (k, e) ∈ out ↔ locks_ tb !! k = Some e;
  tinv_inj k k' e : locks_ tb !! k = Some e → locks_ tb !! k' = Some e → k = k';
  tinv_refs e r : lock_entries_ tb !! e = Some r → r = refs out e;
  tinv_bound k e : locks_ tb !! k = Some e → (e < length (lock_entries_ tb))%nat;
  tinv_free_nodup : NoDup (free_lock_entries_ tb);
  tinv_free e : e ∈ free_lock_entries_ tb →
    (e < length (lock_entries_ tb))%nat ∧ ∀ k, locks_ tb !! k ≠ Some e;
}.

Lemma tinv_empty : tinv empty [].
Proof.
  split.
  - intros k e. split; [by intros ?%not_elem_of_nil|]. cbn. by rewrite lookup_empty.
  - intros k k' e. cbn. by rewrite lookup_empty.
  - intros e r. cbn. by rewrite lookup_nil.
  - intros k e. cbn. by rewrite lookup_empty.
  - constructor.
  - by intros e ?%not_elem_of_nil.
Qed.

Lemma refs_perm out out' e : out ≡ₚ out' → refs out e = refs out' e.
Proof. intros H. unfold refs. by rewrite H. Qed.

Lemma refs_cons k e e' out : refs ((k, e) :: out) e' = refs out e' + (if decide (e = e') then 1 else 0).
Proof. unfold refs. rewrite filter_cons. cbn. case_decide; cbn [length]; lia. Qed.

Lemma refs_none out e : (∀ k, (k, e) ∉ out) → refs out e = 0.
Proof.
  intros H. unfold refs. rewrite filter_none; [done|]. intros [k e'] Hin Heq. cbn in Heq. subst.
  by apply (H k).
Qed.

Lemma refs_zero out e k : refs out e = 0 → (k, e) ∉ out.
Proof.
  unfold refs. intros H0 Hin.
  assert ((k, e) ∈ filter (λ p : bytes * nat, p.2 = e) out) as Hf by by apply list_elem_of_filter.
  destruct (filter _ out); [by apply not_elem_of_nil in Hf|]. cbn [length] in H0. lia.
Qed.

Lemma refs_le out e : 0 <= refs out e <= Z.of_nat (length out).
Proof. unfold refs. pose proof (length_filter (λ p : bytes * nat, p.2 = e) out). lia. Qed.

Lemma tinv_perm tb out out' : out ≡ₚ out' → tinv tb out → tinv tb out'.
Proof.
  intros Hp []. split; try done.
  - intros k e. by rewrite <- Hp.
  - intros e r Hr. rewrite <- (refs_perm out out') by done. auto.
Qed.

(** Counting one more reservation of an entry. *)
Lemma refs_add out k v e r :
  r = refs out e → Z.of_nat (length out) + 1 < 2 ^ 64 →
  (if decide (v = e) then u64 (r + 1) else r) = refs ((k, v) :: out) e.
Proof.
  intros -> Hl. rewrite refs_cons. pose proof (refs_le out e). case_decide; [|lia].
  rewrite u64_small; [done|]. unfold is_u64. lia.
Qed.

Lemma lookup_add_ref (l : list Z) (v : nat) d (e : nat) r' :
  alter (λ r, u64 (r + d)) v l !! e = Some r' →
  ∃ r, l !! e = Some r ∧ r' = if decide (v = e) then u64 (r + d) else r.
Proof.
  destruct (decide (v = e)) as [->|Hne].
  - rewrite list_lookup_alter_eq. intros (r & Hr & ->)%fmap_Some. by exists r.
  - rewrite list_lookup_alter_ne by done. intros Hr. by exists r'.
Qed.

Lemma Reserve_one_tinv tb out e tb' e' :
  tinv tb out → Z.of_nat (length out) + 1 < 2 ^ 64 → Reserve_one tb e = (tb', e') →
  tinv tb' ((key e', locked e') :: out) ∧ key e' = key e ∧ intent_types e' = intent_types e.
Proof.
  intros [Hl Hi Hr Hb Hn Hf] Hlen. unfold Reserve_one, find_entry.
  destruct (locks_ tb !! key e) as [v|] eqn:Ek; [|destruct (last (free_lock_entries_ tb)) as [v|] eqn:Ev];
    intros E; injection E as <- <-; cbn; (split; [|done]); split; cbn.
  - intros k e'. rewrite elem_of_cons, Hl. naive_solver.
  - done.
  - intros e' r' (r & Hlk & ->)%lookup_add_ref. by apply refs_add; [apply Hr|].
  - intros k e' Hk. rewrite length_alter. by eapply Hb.
  - done.
  - intros e' He. rewrite length_alter. by apply Hf.
  - intros k e'. rewrite elem_of_cons, lookup_insert_Some, Hl. naive_solver.
  - assert (v ∈ free_lock_entries_ tb) as Hv by by eapply last_Some_elem_of.
    intros k k' e'. rewrite !lookup_insert_Some. intros [[<- <-]|[? ?]] [[<- ?]|[? ?]]; try done; [|by subst; destruct (proj2 (Hf _ Hv) k)|by eapply Hi].
    by destruct (proj2 (Hf _ Hv) k').
  - intros e' r' (r & Hlk & ->)%lookup_add_ref. by apply refs_add; [apply Hr|].
  - assert (v ∈ free_lock_entries_ tb) as Hv by by eapply last_Some_elem_of.
    intros k e'. rewrite length_alter, lookup_insert_Some. intros [[<- <-]|[? ?]]; [by apply Hf|by eapply Hb].
  - apply last_Some in Ev as [l' El]. rewrite El, removelast_last in *. by apply NoDup_app in Hn as (? & _ & _).
  - apply last_Some in Ev as [l' El]. rewrite El in *. rewrite removelast_last.
    apply NoDup_app in Hn as (_ & Hdis & _). intros e' He. rewrite length_alter.
    destruct (Hf e') as [? Hk]; [apply elem_of_app; by left|]. split; [done|]. intros k.
    rewrite lookup_insert_Some. intros [[<- <-]|[? ?]]; [|by eapply Hk].
    apply (Hdis v He). by apply list_elem_of_singleton.
  - intros k e'. rewrite elem_of_cons, lookup_insert_Some, Hl. naive_solver.
  - intros k k' e'. rewrite !lookup_insert_Some.
    intros [[<- <-]|[? H1]] [[<- E2]|[? H2]]; try done; [|subst|by eapply Hi].
    + apply Hb in H2. lia.
    + apply Hb in H1. lia.
  - intros e' r' (r & Hlk & ->)%lookup_add_ref. apply refs_add; [|done].
    apply lookup_app_Some in Hlk as [Hlk|[Hge Hlk]]; [by apply Hr|].
    apply list_lookup_singleton_Some in Hlk as [? <-]. symmetry. apply refs_none. intros k Hin.
    apply Hl, Hb in Hin. lia.
  - intros k e'. rewrite length_alter, length_app, lookup_insert_Some. cbn [length].
    intros [[<- <-]|[? H2]]; [lia|]. apply Hb in H2. lia.
  - done.
  - intros e' He. rewrite length_alter, length_app. destruct (Hf e' He) as [? Hk]. split; [lia|].
    intros k. rewrite lookup_insert_Some. intros [[<- <-]|[? ?]]; [lia|by eapply Hk].
Qed.

Lemma Reserve_tinv batch tb out tb' batch' :
  tinv tb out → Z.of_nat (length out) + Z.of_nat (length batch) < 2 ^ 64 →
  Reserve tb batch = (tb', batch') →
  tinv tb' (pairs batch' ++ out) ∧ (key <$> batch') = (key <$> batch) ∧
  (intent_types <$> batch') = (intent_types <$> batch).
Proof.
  revert tb out tb' batch'. induction batch as [|e batch IH]; intros tb out tb' batch' Ht Hl E;
    cbn [Reserve length] in *.
  { by injection E as <- <-. }
  destruct (Reserve_one tb e) as [tb1 e1] eqn:E1. destruct (Reserve tb1 batch) as [tb2 b2] eqn:E2.
  injection E as <- <-.
  destruct (Reserve_one_tinv tb out e tb1 e1 Ht ltac:(lia) E1) as (Ht1 & Hk & Hty).
  destruct (IH _ _ _ _ Ht1 ltac:(cbn [length]; lia) E2) as (Ht2 & Hks & Htys).
  cbn. rewrite Hk, Hty, Hks, Htys. split_and!; [|done..].
  eapply tinv_perm; [|exact Ht2]. symmetry. rewrite <- Hk. apply Permutation_middle.
Qed.

(** One reservation fewer. *)
Lemma Cleanup_one_tinv tb item out :
  tinv tb ((key item, locked item) :: out) → Z.of_nat (length out) + 1 < 2 ^ 64 →
  tinv (Cleanup_one tb item) out.
Proof.
  intros [Hl Hi Hr Hb Hn Hf] Hlen. set (k := key item) in *. set (v := locked item) in *.
  assert (locks_ tb !! k = Some v) as Hk by (apply Hl; left).
  assert (∀ e r, alter (λ r, u64 (r + -1)) v (lock_entries_ tb) !! e = Some r → r = refs out e) as Hr'.
  { intros e r (r0 & Hlk & ->)%lookup_add_ref. apply Hr in Hlk as ->. rewrite refs_cons.
    pose proof (refs_le out e). case_decide; [|lia]. rewrite u64_small; [lia|]. unfold is_u64. lia. }
  assert (v < length (lock_entries_ tb))%nat as Hv by by eapply Hb.
  assert (∀ k' e', (k', e') ∈ out → locks_ tb !! k' = Some e') as Hout
    by (intros k' e' Hin; apply Hl; by right).
  unfold Cleanup_one, add_ref. fold k v. cbn [lock_entries_ locks_ free_lock_entries_].
  destruct (alter _ v (lock_entries_ tb) !! v) as [r|] eqn:Ev.
  2:{ apply lookup_ge_None in Ev. rewrite length_alter in Ev. lia. }
  destruct (Z.eqb_spec r 0) as [->|Hne]; split; cbn [lock_entries_ locks_ free_lock_entries_]; try done.
  - apply Hr' in Ev. symmetry in Ev. intros k' e'. rewrite lookup_delete_Some, <- Hl, elem_of_cons. split.
    + intros Hin. split; [|by right]. intros <-. assert (e' = v) as -> by (apply Hout in Hin; congruence).
      by apply (refs_zero out v k).
    + naive_solver.
  - intros k1 k2 e'. rewrite !lookup_delete_Some. intros [_ ?] [_ ?]. by eapply Hi.
  - intros k' e'. rewrite lookup_delete_Some, length_alter. intros [_ ?]. by eapply Hb.
  - apply NoDup_app. split_and!; [done| |apply NoDup_singleton].
    intros e He ->%list_elem_of_singleton. by destruct (proj2 (Hf _ He) k).
  - intros e. rewrite elem_of_app, list_elem_of_singleton, length_alter. setoid_rewrite lookup_delete_Some.
    intros [He| ->]; [destruct (Hf e He) as [? Hno]|]; (split; [done|]).
    + intros k' [_ ?]. by eapply Hno.
    + intros k' [Hne' Hk']. apply Hne'. by eapply Hi.
  - intros k' e'. split; [apply Hout|]. intros Hk'. apply Hl, elem_of_cons in Hk' as [E|]; [|done].
    injection E as -> ->. apply Hr' in Ev. fold v k in Hr', Ev |- *.
    destruct (decide ((k, v) ∈ out)) as [|Hno]; [done|]. exfalso. apply Hne. rewrite Ev.
    apply refs_none. intros k2 Hin. pose proof (Hout _ _ Hin). assert (k2 = k) as -> by (by eapply Hi). done.
  - intros k' e' Hk'. rewrite length_alter. by eapply Hb.
  - intros e He. rewrite length_alter. by apply Hf.
Qed.

Lemma Cleanup_tinv batch tb out :
  tinv tb (pairs batch ++ out) → Z.of_nat (length batch) + Z.of_nat (length out) < 2 ^ 64 →
  tinv (Cleanup tb batch) out.
Proof.
  revert tb. induction batch as [|item batch IH]; intros tb Ht Hl; [done|]. cbn in Ht |- *.
  cbn [length] in Hl. apply IH; [|lia]. apply Cleanup_one_tinv; [done|].
  rewrite length_app. unfold pairs. rewrite length_fmap. lia.
Qed.

(** The tables calls of [Reserve] and [Cleanup] lead to, with what is
    outstanding. *)
Inductive reach : table → list (bytes * nat) → Prop :=
  | reach_empty : reach empty []
  | reach_reserve tb out batch tb' batch' :
      reach tb out → Reserve tb batch = (tb', batch') →
      Z.of_nat (length (pairs batch' ++ out)) < 2 ^ 64 → reach tb' (pairs batch' ++ out)
  | reach_cleanup tb out batch rest :
      reach tb out → out ≡ₚ pairs batch ++ rest → reach (Cleanup tb batch) rest.

Lemma Reserve_length tb batch tb' batch' :
  Reserve tb batch = (tb', batch') → length batch' = length batch.
Proof.
  revert tb tb' batch'. induction batch as [|e batch IH]; intros tb tb' batch' E; cbn in E.
  { by injection E as _ <-. }
  destruct (Reserve_one tb e) as [tb1 e1]. destruct (Reserve tb1 batch) as [tb2 b2] eqn:E2.
  injection E as _ <-. cbn. f_equal. by eapply IH.
Qed.

Lemma reach_tinv tb out : reach tb out → tinv tb out ∧ Z.of_nat (length out) < 2 ^ 64.
Proof.
  induction 1 as [|tb out batch tb' batch' _ [Ht Hl] E Hlen|tb out batch rest _ [Ht Hl] Hp].
  - split; [apply tinv_empty|done].
  - split; [|done]. eapply Reserve_tinv; [done| |done].
    rewrite length_app in Hlen. unfold pairs in Hlen. rewrite length_fmap in Hlen.
    rewrite (Reserve_length _ _ _ _ E) in Hlen. lia.
  - assert (length out = length batch + length rest)%nat as El.
    { rewrite Hp, length_app. unfold pairs. by rewrite length_fmap. }
    split; [|lia]. apply Cleanup_tinv; [by eapply tinv_perm|lia].
Qed.

(** *** Locking the entries of a batch *)

Definition lock_all (batch : list LockBatchEntry) : list action :=
  (λ e, LockEntry (locked e) (intent_types e)) <$> batch.

Lemma lock_loop_spec result pre todo :
  match lock_loop result pre todo with
  | (true, acts) => acts = lock_all todo
  | (false, acts) => ∃ n, (n < length todo)%nat ∧ result (length pre + n)%nat = false ∧
      acts = lock_all (take n todo) ++ unlock_all (pre ++ take n todo)
  end.
Proof.
  revert pre. induction todo as [|e todo IH]; intros pre; cbn [lock_loop]; [done|].
  destruct (result (length pre)) eqn:Hr.
  - specialize (IH (pre ++ [e])). destruct (lock_loop _ _ _) as [[] acts]; [by rewrite IH|].
    destruct IH as (n & Hn & Hres & ->). exists (S n). cbn [length]. split_and!; [lia| |].
    + rewrite length_app in Hres. cbn [length] in Hres. by rewrite <- Nat.add_assoc in Hres.
    + cbn. by rewrite <- app_assoc.
  - exists 0%nat. cbn. split_and!; [lia|by rewrite Nat.add_0_r|by rewrite app_nil_r].
Qed.

End SharedLockManager.

(** ** Lock batches *)

Module LockBatch.
Import SharedLockManager.

(** [Data]; a null [shared_lock_manager] is [false]. *)
Record t := mk { key_to_type : list LockBatchEntry; manager : bool; status : option status_code }.

Definition empty (b : t) : bool := bool_decide (length (key_to_type b) = 0%nat).

(** The constructor: the batch, the actions on the entries and the table. *)
Definition LockBatch (result : nat → bool) (tb : table) (entries : list LockBatchEntry)
    : t * list action * table :=
  if bool_decide (entries = []) then (mk [] true None, [], tb)
  else
    match Lock result tb entries with
    | (true, acts, tb, entries) => (mk entries true None, acts, tb)
    | (false, acts, tb, _) => (mk [] false (Some TryAgain), acts, tb)
    end.

Definition Reset (tb : table) (b : t) : t * list action * table :=
  if empty b then (b, [], tb)
  else let '(acts, tb) := Unlock tb (key_to_type b) in (mk [] (manager b) (status b), acts, tb).

(** [MoveFrom]: the target, the source, the actions and the table. *)
Definition MoveFrom (tb : table) (b other : t) : t * t * list action * table :=
  let '(_, acts, tb) := Reset tb b in
  (other, mk [] (manager other) (status other), acts, tb).

End LockBatch.

(** ** The locks of an operation *)

Module KeysToLock.
Import IntentType RowMark Intent LockBatchData.

(** [while (key.data()[size - 1] == kGroupEnd) --size]. *)
Fixpoint strip_group_ends (k : bytes) (size : nat) : outcome nat :=
  match size with
  | O => UB
  | S n =>
      let! b := byte_at k n in
      if b =? ValueType.kGroupEnd then strip_group_ends k n else Ok size
  end.

Definition ApplyIntent (k : bytes) (types : IntentTypeSet.t) (keys_locked : list LockBatchEntry)
    : outcome (list LockBatchEntry) :=
  let! size :=
    if decide (0 < length k)%nat then
      let! b := byte_at k 0 in
      if b =? ValueType.kGroupEnd then
        if negb (bool_decide (length k = 1%nat)) then Err Corruption else Ok 0%nat
      else strip_group_ends k (length k)
    else Ok 0%nat in
  Ok (keys_locked ++ [mk_entry (take size k) types 0]).

Fixpoint apply_intents (l : list (bytes * IntentTypeSet.t)) (keys_locked : list LockBatchEntry)
    : outcome (list LockBatchEntry) :=
  match l with
  | [] => Ok keys_locked
  | (k, types) :: l => let! keys_locked := ApplyIntent k types keys_locked in apply_intents l keys_locked
  end.

(** What [DetermineKeysToLock] uses of a [DocOperation]. *)
Record DocOperation := {
  GetDocPaths : outcome (list bytes * IsolationLevel);
  RequireReadSnapshot : bool;
}.

Section Determine.
(** [SubDocKey::DecodePrefixLengths]. *)
Context (DecodePrefixLengths : bytes → outcome (list nat)).

(** The body of the loop over [doc_paths]. *)
Definition lock_doc_path (transactional_table : bool) (strong_intent_types : IntentTypeSet.t)
    (doc_path : bytes) (batch : list LockBatchEntry) : outcome (list LockBatchEntry) :=
  let! key_prefix_lengths := DecodePrefixLengths doc_path in
  if bool_decide (key_prefix_lengths = []) then Err Corruption
  else
    let weak := StrongToWeak strong_intent_types in
    let! batch := if bool_decide (0 < length doc_path)%nat && transactional_table
                  then ApplyIntent [] weak batch else Ok batch in
    let! batch := apply_intents ((λ n, (take n doc_path, weak)) <$> removelast key_prefix_lengths)
                    batch in
    ApplyIntent doc_path strong_intent_types batch.

Fixpoint lock_doc_paths (transactional_table : bool) (strong_intent_types : IntentTypeSet.t)
    (doc_paths : list bytes) (batch : list LockBatchEntry) : outcome (list LockBatchEntry) :=
  match doc_paths with
  | [] => Ok batch
  | p :: doc_paths =>
      let! batch := lock_doc_path transactional_table strong_intent_types p batch in
      lock_doc_paths transactional_table strong_intent_types doc_paths batch
  end.

Fixpoint lock_doc_ops (isolation_level : IsolationLevel) (operation_kind : OperationKind)
    (row_mark_type : RowMarkType) (transactional_table : bool) (ops : list DocOperation)
    (batch : list LockBatchEntry) (need_read_snapshot : bool)
    : outcome (list LockBatchEntry * bool) :=
  match ops with
  | [] => Ok (batch, need_read_snapshot)
  | doc_op :: ops =>
      let! (doc_paths, level) := GetDocPaths doc_op in
      let level := if bool_decide (isolation_level ≠ NON_TRANSACTIONAL)
                   then isolation_level else level in
      let strong_intent_types :=
        if bool_decide (isolation_level = SERIALIZABLE_ISOLATION) &&
           bool_decide (operation_kind = kWrite) && RequireReadSnapshot doc_op
        then IntentTypeSet.of_list [kStrongRead; kStrongWrite]
        else GetStrongIntentTypeSet level operation_kind row_mark_type in
      let! batch := lock_doc_paths transactional_table strong_intent_types doc_paths batch in
      lock_doc_ops isolation_level operation_kind row_mark_type transactional_table ops batch
        (need_read_snapshot || RequireReadSnapshot doc_op)
  end.

(** [read_pairs] are the keys [EnumerateIntents] reports for the read pairs. *)
Definition DetermineKeysToLock (isolation_level : IsolationLevel) (operation_kind : OperationKind)
    (row_mark_type : RowMarkType) (transactional_table : bool) (ops : list DocOperation)
    (read_pairs : list (IntentStrength * bytes)) : outcome (list LockBatchEntry * bool) :=
  let! (batch, need_read_snapshot) := lock_doc_ops isolation_level operation_kind row_mark_type
    transactional_table ops [] false in
  let! batch := apply_intents
    ((λ p, (p.2, if bool_decide (p.1 = kStrong) then IntentTypeSet.of_list [kStrongRead]
                 else IntentTypeSet.of_list [kWeakRead])) <$> read_pairs) batch in
  Ok (batch, need_read_snapshot).

End Determine.

(** [std::sort] by key. *)
Definition key_le (a b : LockBatchEntry) : Prop := bytes_compare (key a) (key b) ≠ Gt.

#[export] Instance key_le_dec a b : Decision (key_le a b).
Proof. unfold key_le. apply _. Defined.

(** The in-place loop: [w] is the last entry kept. *)
Fixpoint merge_equal (w : LockBatchEntry) (rest : list LockBatchEntry) : list LockBatchEntry :=
  match rest with
  | [] => [w]
  | it :: rest =>
      if bool_decide (key it = key w)
      then merge_equal (mk_entry (key w) (IntentTypeSet.or_ (intent_types w) (intent_types it)) (locked w)) rest
      else w :: merge_equal it rest
  end.

Definition FilterKeysToLock (keys_locked : list LockBatchEntry) : list LockBatchEntry :=
  match merge_sort key_le keys_locked with
  | [] => []
  | w :: rest => merge_equal w rest
  end.

(** The locks taken, the actions on them and whether a snapshot is needed. *)
Definition PrepareDocWriteOperation (DecodePrefixLengths : bytes → outcome (list nat))
    (result : nat → bool) (tb : SharedLockManager.table) (isolation_level : IsolationLevel)
    (operation_kind : OperationKind) (row_mark_type : RowMarkType) (transactional_table : bool)
    (ops : list DocOperation) (read_pairs : list (IntentStrength * bytes))
    : outcome (LockBatch.t * list SharedLockManager.action * SharedLockManager.table * bool) :=
  let! (batch, need_read_snapshot) := DetermineKeysToLock DecodePrefixLengths isolation_level
    operation_kind row_mark_type transactional_table ops read_pairs in
  if bool_decide (batch = []) then Err Corruption
  else
    let '(lock_batch, acts, tb) := LockBatch.LockBatch result tb (FilterKeysToLock batch) in
    match LockBatch.status lock_batch with
    | Some c => Err c
    | None => Ok (lock_batch, acts, tb, need_read_snapshot)
    end.

(** *** Group ends *)

(** On a key that starts with something else the loop stops inside it. *)
Lemma strip_group_ends_spec k size b :
  (0 < size ≤ length k)%nat → byte_at k 0 = Ok b → b ≠ ValueType.kGroupEnd →
  ∃ n, strip_group_ends k size = Ok n ∧ (0 < n ≤ size)%nat ∧
    last (take n k) ≠ Some (ValueType.code ValueType.kGroupEnd) ∧
    take size k = take n k ++ replicate (size - n) (ValueType.code ValueType.kGroupEnd).
Proof.
  intros Hs Hb0 Hb. induction size as [|size IH]; [lia|]. cbn [strip_group_ends].
  destruct (lookup_lt_is_Some_2 k size) as [c Hc]; [lia|]. unfold byte_at at 1. rewrite Hc. cbn [obind].
  pose proof (take_S_r k size c Hc) as Ht.
  destruct (Z.eqb_spec c ValueType.kGroupEnd) as [->|Hne].
  - destruct (decide (size = 0)%nat) as [->|Hs0].
    { unfold byte_at in Hb0. rewrite Hc in Hb0. by injection Hb0. }
    destruct IH as (n & -> & Hn & Hl & E); [lia|]. exists n. split_and!; [done|lia..|done|].
    rewrite Ht, E. replace (S size - n)%nat with (S (size - n)) by lia.
    by rewrite replicate_S_end, app_assoc.
  - exists (S size). split_and!; [done|lia|lia| |].
    + rewrite Ht, last_snoc. congruence.
    + by rewrite Nat.sub_diag, app_nil_r.
Qed.

(** *** Sorting and merging *)

Definition key_lt (a b : LockBatchEntry) : Prop := bytes_compare (key a) (key b) = Lt.

#[export] Instance key_le_trans : Transitive key_le.
Proof.
  intros a b c. unfold key_le. intros Hab Hbc Hac.
  apply (bytes_compare_lt_irrefl (key c)).
  assert (bytes_compare (key c) (key a) = Lt) as Hca by (by rewrite bytes_compare_antisym, Hac).
  destruct (bytes_compare (key a) (key b)) eqn:E1; [|..|done].
  - apply bytes_compare_eq in E1. rewrite E1 in Hca. by rewrite bytes_compare_antisym, Hca in Hbc.
  - pose proof (bytes_compare_lt_trans _ _ _ Hca E1) as H. by rewrite bytes_compare_antisym, H in Hbc.
Qed.

#[export] Instance key_le_total : Total key_le.
Proof.
  intros a b. unfold key_le. rewrite (bytes_compare_antisym (key a)).
  destruct (bytes_compare (key a) (key b)); auto.
Qed.

(** The union of the types a list of entries asks for on a key. *)
Definition types_at (k : bytes) (l : list LockBatchEntry) : IntentTypeSet.t :=
  foldr (λ e acc, if bool_decide (key e = k) then IntentTypeSet.or_ (intent_types e) acc else acc) 0 l.

Lemma types_at_perm k l l' : l ≡ₚ l' → types_at k l = types_at k l'.
Proof.
  induction 1 as [|x l l' _ IH|x y l|l l' l'' _ IH _ IH']; [done| | |congruence]; cbn.
  { unfold types_at in IH. by rewrite IH. }
  unfold IntentTypeSet.or_. repeat case_bool_decide; try done.
  by rewrite !Z.lor_assoc, (Z.lor_comm (intent_types y)).
Qed.

Lemma types_at_none k l : (∀ e, e ∈ l → key e ≠ k) → types_at k l = 0.
Proof.
  induction l as [|e l IH]; intros H; [done|]. cbn. rewrite bool_decide_false by (apply H; left).
  apply IH. intros e' He. apply H. by right.
Qed.

Lemma merge_equal_spec w rest :
  StronglySorted key_le (w :: rest) →
  StronglySorted key_lt (merge_equal w rest) ∧
  (∀ k, k ∈ (key <$> merge_equal w rest) ↔ k ∈ (key <$> w :: rest)) ∧
  (∀ k, types_at k (merge_equal w rest) = types_at k (w :: rest)).
Proof.
  revert w. induction rest as [|it rest IH]; intros w Hs; cbn [merge_equal].
  { split_and!; [by repeat constructor|done..]. }
  apply StronglySorted_inv in Hs as [Hs Hw]. apply Forall_cons in Hw as [Hwi Hwr].
  pose proof (StronglySorted_inv Hs) as [Hr Hi]. case_bool_decide as Ek.
  - set (w' := mk_entry _ _ _). destruct (IH w') as (H1 & H2 & H3).
    { by constructor. }
    split_and!; [done|..]; intros k.
    + rewrite H2. cbn. rewrite !elem_of_cons. rewrite Ek. tauto.
    + rewrite H3. cbn. unfold IntentTypeSet.or_. rewrite Ek. case_bool_decide; [|done]. by rewrite Z.lor_assoc.
  - destruct (IH it Hs) as (H1 & H2 & H3).
    assert (bytes_compare (key w) (key it) = Lt) as Hlt.
    { unfold key_le in Hwi. destruct (bytes_compare (key w) (key it)) eqn:E; [|done..].
      by apply bytes_compare_eq in E. }
    split_and!.
    + constructor; [done|]. apply Forall_forall. intros e He. unfold key_lt.
      assert (key e ∈ (key <$> it :: rest)) as Hin by (apply H2; by apply list_elem_of_fmap_2).
      apply elem_of_cons in Hin as [->|(e' & -> & He')%list_elem_of_fmap]; [done|].
      rewrite Forall_forall in Hi. specialize (Hi e' He'). unfold key_le in Hi.
      destruct (bytes_compare (key it) (key e')) eqn:E; [|by eapply bytes_compare_lt_trans|done].
      apply bytes_compare_eq in E. by rewrite <- E.
    + intros k. cbn in H2 |- *. rewrite !elem_of_cons, H2, elem_of_cons. done.
    + intros k. specialize (H3 k). unfold types_at in *. cbn in H3 |- *. by rewrite H3.
Qed.

Lemma filter_keys_spec l :
  StronglySorted key_lt (FilterKeysToLock l) ∧
  (∀ k, k ∈ (key <$> FilterKeysToLock l) ↔ k ∈ (key <$> l)) ∧
  (∀ k, types_at k (FilterKeysToLock l) = types_at k l).
Proof.
  unfold FilterKeysToLock. pose proof (merge_sort_Permutation key_le l) as Hp.
  pose proof (StronglySorted_merge_sort key_le l) as Hs.
  destruct (merge_sort key_le l) as [|w rest] eqn:E.
  - apply Permutation_nil in Hp as ->. by repeat constructor.
  - destruct (merge_equal_spec w rest Hs) as (H1 & H2 & H3). split_and!; [done|..]; intros k.
    + rewrite H2. by rewrite Hp.
    + rewrite H3. by apply types_at_perm.
Qed.

(** In a list with distinct keys the union is the entry's own set. *)
Lemma types_at_sorted l e : StronglySorted key_lt l → e ∈ l → types_at (key e) l = intent_types e.
Proof.
  induction 1 as [|x l Hs IH Hx]; [by intros ?%not_elem_of_nil|]. rewrite Forall_forall in Hx.
  intros [->|He]%elem_of_cons; cbn.
  - rewrite bool_decide_true by done. fold (types_at (key x) l).
    rewrite types_at_none; [apply Z.lor_0_r|].
    intros e' He' Ek. specialize (Hx e' He'). unfold key_lt in Hx. rewrite Ek in Hx.
    by apply bytes_compare_lt_irrefl in Hx.
  - rewrite bool_decide_false; [by apply IH|]. intros Ek. specialize (Hx e He).
    unfold key_lt in Hx. rewrite Ek in Hx. by apply bytes_compare_lt_irrefl in Hx.
Qed.

End KeysToLock.

(** ** Properties *)

Module LockBatchProperties.
Import SharedLockManager LockBatch KeysToLock.

Lemma reach_shares tb out k e k' e' :
  reach tb out → (k, e) ∈ out → (k', e') ∈ out → k = k' ↔ e = e'.
Proof.
  intros [[Hl Hi _ _ _ _] _]%reach_tinv H1%Hl H2%Hl. split; [intros <-; congruence|].
  intros <-. by eapply Hi.
Qed.

Lemma reach_quiet tb : reach tb [] → locks_ tb = ∅ ∧ Forall (eq 0) (lock_entries_ tb).
Proof.
  intros [[Hl _ Hr _ _ _] _]%reach_tinv. split.
  - apply map_empty. intros k. destruct (locks_ tb !! k) as [e|] eqn:E; [|done].
    by apply Hl, not_elem_of_nil in E.
  - apply Forall_lookup. intros e r Hlk. by apply Hr in Hlk.
Qed.

(** [Lock] takes every lock of the batch or none. *)
Lemma Lock_spec result tb out entries ok acts tb' batch :
  reach tb out → Z.of_nat (length out) + Z.of_nat (length entries) < 2 ^ 64 →
  Lock result tb entries = (ok, acts, tb', batch) →
  (key <$> batch) = (key <$> entries) ∧ (intent_types <$> batch) = (intent_types <$> entries) ∧
  if (ok : bool) then reach tb' (pairs batch ++ out) ∧ acts = lock_all batch
  else reach tb' out ∧ ∃ n, (n < length batch)%nat ∧ result n = false ∧
    acts = lock_all (take n batch) ++ unlock_all (take n batch).
Proof.
  intros Hr Hl E. unfold Lock in E. destruct (Reserve tb entries) as [tb1 b1] eqn:E1.
  destruct (reach_tinv tb out Hr) as [Ht _].
  destruct (Reserve_tinv _ _ _ _ _ Ht Hl E1) as (_ & Hk & Hty).
  assert (reach tb1 (pairs b1 ++ out)) as Hr1.
  { eapply reach_reserve; [done..|]. rewrite length_app. unfold pairs.
    rewrite length_fmap, (Reserve_length _ _ _ _ E1). lia. }
  pose proof (lock_loop_spec result [] b1) as Hloop.
  destruct (lock_loop result [] b1) as [[] acts1]; injection E as <- <- <- <-.
  - by split_and!.
  - split_and!; [done..| |by destruct Hloop as (n & ? & ? & ->); eauto].
    by eapply reach_cleanup.
Qed.

(** The table of lock entries.  After any sequence of reservations and
    releases, two outstanding reservations use the same [LockedBatchEntry] exactly
    when they are for the same key, so that locks on a key meet and locks on
    different keys never do.  Constructing a [LockBatch] in such a state gives a
    batch holding an entry for every key asked for, in the order asked for, or
    fails with TryAgain having unlocked exactly what it locked, in reverse order,
    and leaving the reservations as they were; releasing the batch gives back all
    it reserved, with one [Unlock] of the same types for each [Lock].  With nothing
    outstanding no key has an entry and every reference count is zero. *)
Theorem lock_batches tb out result entries b acts tb' :
  reach tb out → Z.of_nat (length out) + Z.of_nat (length entries) < 2 ^ 64 →
  LockBatch.LockBatch result tb entries = (b, acts, tb') →
  (∀ k e k' e', (k, e) ∈ out → (k', e') ∈ out → k = k' ↔ e = e') ∧
  (out = [] → locks_ tb = ∅ ∧ Forall (eq 0) (lock_entries_ tb)) ∧
  match status b with
  | None =>
      (key <$> key_to_type b) = (key <$> entries) ∧
      (intent_types <$> key_to_type b) = (intent_types <$> entries) ∧
      reach tb' (pairs (key_to_type b) ++ out) ∧ acts = lock_all (key_to_type b) ∧
      ∃ b0 tb0, Reset tb' b = (b0, unlock_all (key_to_type b), tb0) ∧ reach tb0 out ∧ empty b0 = true
  | Some c =>
      c = TryAgain ∧ empty b = true ∧ reach tb' out ∧
      ∃ n batch, (n < length entries)%nat ∧ result n = false ∧ (key <$> batch) = (key <$> entries) ∧
        acts = lock_all (take n batch) ++ unlock_all (take n batch)
  end.
Proof.
  intros Hr Hl E. split; [intros; by eapply reach_shares|]. split; [intros ->; by apply reach_quiet|].
  unfold LockBatch.LockBatch in E. case_bool_decide as Hnil.
  { injection E as <- <- <-. subst entries. cbn. split_and!; [done..|]. by eexists _, _. }
  destruct (Lock result tb entries) as [[[ok acts1] tb1] batch] eqn:EL.
  destruct (Lock_spec _ _ _ _ _ _ _ _ Hr Hl EL) as (Hk & Hty & Hok).
  assert (length batch = length entries) as Hlen
    by (rewrite <- (length_fmap key batch), Hk; apply length_fmap).
  destruct ok; injection E as <- <- <-; cbn [status key_to_type].
  - destruct Hok as [Hr1 ->]. split_and!; [done..|].
    unfold Reset, empty. cbn [key_to_type]. rewrite bool_decide_false.
    2:{ destruct entries; [done|]. cbn [length] in Hlen. lia. }
    eexists _, _. split_and!; [done| |done]. by eapply reach_cleanup.
  - destruct Hok as (Hr1 & n & Hn & Hres & ->). split_and!; [done..|].
    exists n, batch. rewrite <- Hlen. by split_and!.
Qed.

Lemma lock_batches_witness :
  ∃ b acts tb', LockBatch.LockBatch (λ n, (n <? 1)%nat) SharedLockManager.empty
    [mk_entry [1] 3 0; mk_entry [2] 12 0] = (b, acts, tb') ∧ status b = Some TryAgain ∧
    acts = [LockEntry 0 3; UnlockEntry 0 3] ∧ reach tb' [].
Proof.
  destruct (LockBatch.LockBatch (λ n, (n <? 1)%nat) SharedLockManager.empty
    [mk_entry [1] 3 0; mk_entry [2] 12 0]) as [[b acts] tb'] eqn:E.
  exists b, acts, tb'. split; [reflexivity|].
  destruct (lock_batches SharedLockManager.empty [] (λ n, (n <? 1)%nat)
    [mk_entry [1] 3 0; mk_entry [2] 12 0] b acts tb' reach_empty eq_refl E) as (_ & _ & H).
  assert (status b = Some TryAgain) as Hb by (injection E as <- _ _; reflexivity).
  rewrite Hb in H. split; [exact Hb|]. split; [|apply H]. injection E as _ <- _. reflexivity.
Defined.

(** *** Operations that lock in key order *)

Section deadlock.

(** The entries each operation asks for and the number of them it has locked. *)
Context (entries : nat → list LockBatchEntry) (pos : nat → nat).

(** Operation [i] is at an entry whose key [j] has locked. *)
Definition waits_for (i j : nat) : Prop :=
  ∃ e e', FilterKeysToLock (entries i) !! pos i = Some e ∧
    e' ∈ take (pos j) (FilterKeysToLock (entries j)) ∧ key e' = key e.

Lemma sorted_lookup_lt (l : list LockBatchEntry) n e e' :
  StronglySorted key_lt l → e' ∈ take n l → l !! n = Some e → key_lt e' e.
Proof.
  intros Hs. revert n. induction Hs as [|x l Hs IH Hx]; intros [|n] Hin He; cbn in *; try done.
  { by apply not_elem_of_nil in Hin. }
  rewrite Forall_forall in Hx.
  apply elem_of_cons in Hin as [->|Hin]; [by apply Hx; eapply list_elem_of_lookup_2|by eapply IH].
Qed.

Lemma waiting_next i j : tc waits_for i j → ∃ e, FilterKeysToLock (entries i) !! pos i = Some e.
Proof. destruct 1 as [? ? (e & ? & He & _)|? ? ? (e & ? & He & _)]; by exists e. Qed.

(** Along a chain of waits the key waited for grows. *)
Lemma waits_for_grows i j e e' :
  tc waits_for i j → FilterKeysToLock (entries i) !! pos i = Some e →
  FilterKeysToLock (entries j) !! pos j = Some e' → key_lt e e'.
Proof.
  intros H. revert e e'. induction H as [i j H|i j l H Htc IH]; intros e e' He He'.
  - destruct H as (a & a' & Ha & Hin & Hk). assert (a = e) as -> by congruence.
    unfold key_lt. rewrite <- Hk. by eapply sorted_lookup_lt; [apply filter_keys_spec|..].
  - destruct H as (a & a' & Ha & Hin & Hk). assert (a = e) as -> by congruence.
    destruct (waiting_next j l) as [m Hm]; [done|].
    unfold key_lt. eapply bytes_compare_lt_trans; [|by apply (IH m e')].
    rewrite <- Hk. by eapply sorted_lookup_lt; [apply filter_keys_spec|..].
Qed.

(** C13: Locks are taken in one order.  [FilterKeysToLock] turns any list of
    entries into one with strictly ascending keys that covers exactly the keys
    asked for, each with the union of the intent types asked for on it.  So when
    every operation locks the entries of its filtered batch in order, no circular
    wait exists: whatever the requests and however far each operation has got, no
    operation waits, directly or through others, for a key it holds itself. *)
Theorem ordered_locking_no_deadlock :
  (∀ l, StronglySorted key_lt (FilterKeysToLock l) ∧
    (∀ k, k ∈ (key <$> FilterKeysToLock l) ↔ k ∈ (key <$> l)) ∧
    (∀ e, e ∈ FilterKeysToLock l → intent_types e = types_at (key e) l)) ∧
  (∀ i, ¬ tc waits_for i i).
Proof.
  split.
  - intros l. destruct (filter_keys_spec l) as (H1 & H2 & H3). split_and!; [done..|].
    intros e He. by rewrite <- H3, types_at_sorted.
  - intros i Hc. destruct (waiting_next i i Hc) as [e He].
    by apply (bytes_compare_lt_irrefl (key e)), (waits_for_grows i i e e).
Qed.

End deadlock.
End LockBatchProperties.
