(* ===== verification/KeyLocks.v ===== *)
(** * Locks of documents

    The in-memory locks of [LockBatches] with the prefixes of document keys of
    [SubDocKeys]: an operation on a document locks it and, weakly, everything
    above, so that operations on a document and on one inside meet. *)

From stdpp Require Import sorting.
From S2P Require Import Prelude Slice FastVarint HybridTime DocHybridTime ValueType KvUtil VarInt Decimal Uuid InetAddress Intent PrimitiveValue PrimitiveKeys DocKey DocKeyCodec SubDocKeys IntentKeys LockManager LockBatches.

Module KeyLocks.
Import ValueType SubDocKey DocKeyCodec SubDocKeys PrimitiveKeys LockBatchData KeysToLock IntentLevels.

(** The key of a lock: without the ends of groups at the end. *)
Definition stripped (x y : bytes) : Prop := y ≠ [] ∧ last y ≠ Some (code kGroupEnd) ∧ ∃ n, x = y ++ replicate n (code kGroupEnd).

Lemma stripped_more x y : stripped x y → stripped (x ++ [code kGroupEnd]) y.
Proof. intros (H1 & H2 & n & ->). split_and!; [done..|]. exists (S n). by rewrite <- app_assoc, replicate_S_end. Qed.

Lemma stripped_unique x y y' : stripped x y → stripped x y' → y = y'.
Proof.
  intros (H1 & H2 & n & ->) (H1' & H2' & n' & E). revert n' E. induction n as [|n IH]; intros n' E.
  - change (replicate 0 (code kGroupEnd)) with (@nil Z) in *. rewrite app_nil_r in E. destruct n' as [|n']; [by rewrite app_nil_r in E|]. by rewrite E, replicate_S_end, app_assoc, last_snoc in H2.
  - destruct n' as [|n']; [change (replicate 0 (code kGroupEnd)) with (@nil Z) in E; rewrite app_nil_r in E; by rewrite <- E, replicate_S_end, app_assoc, last_snoc in H2'|].
    rewrite !replicate_S_end, !app_assoc in E. apply app_inj_2 in E as [E _]; [|done]. by eapply IH.
Qed.

(** Applying an intent to a key that starts with a component. *)
Lemma apply_intent x types l :
  x ≠ [] → head x ≠ Some (code kGroupEnd) → ∃ y, stripped x y ∧ ApplyIntent x types l = Ok (l ++ [mk_entry y types 0]).
Proof.
  intros Hx Hh. destruct x as [|b x]; [done|]. cbn [head] in Hh.
  destruct (strip_group_ends_spec (b :: x) (length (b :: x)) b) as (n & E & Hn & Hl & Et); [cbn [length]; lia|done|congruence|].
  exists (take n (b :: x)). split.
  - split_and!; [destruct n; [lia|done]|done|]. exists (length (b :: x) - n)%nat. by rewrite <- Et, firstn_all.
  - unfold ApplyIntent. rewrite decide_True by (cbn [length]; lia). unfold byte_at at 1. cbn [lookup list_lookup obind]. rewrite (proj2 (Z.eqb_neq b kGroupEnd)) by congruence. by rewrite E.
Qed.

Lemma apply_all (xs : list bytes) types l :
  Forall (λ x, x ≠ [] ∧ head x ≠ Some (code kGroupEnd)) xs →
  ∃ ys, Forall2 stripped xs ys ∧ apply_intents ((λ x, (x, types)) <$> xs) l = Ok (l ++ ((λ y, mk_entry y types 0) <$> ys)).
Proof.
  intros Hx. revert l. induction Hx as [|x xs [H1 H2] Hx IH]; intros l; [exists []; split; [constructor|cbn; by rewrite app_nil_r]|].
  destruct (apply_intent x types l H1 H2) as (y & Hy & E). destruct (IH (l ++ [mk_entry y types 0])) as (ys & Hys & Es).
  exists (y :: ys). split; [by constructor|]. rewrite fmap_cons. cbn [apply_intents]. rewrite E. cbn [obind]. rewrite Es, <- app_assoc. done.
Qed.

Section Locks.
Context {B : BigNum} {HB : BigNumSpec B} {V : UuidVersion} {HV : UuidVersionSpec V} {A : IpAddress} {HA : IpAddressSpec A}.

Lemma not_group_end k : wf_sub k → root (doc_key_ k) = false → ∃ b s, sub_code k = b :: s ∧ b ≠ code kGroupEnd.
Proof.
  intros Hk Hr. pose proof (wf_doc_key k Hk) as Hd. unfold sub_code, doc_code, id_code. rewrite <- !app_assoc.
  destruct (DocKey.has_cotable_id _); [eexists _, _; split; [cbn [app]; reflexivity|done]|].
  destruct (DocKey.has_pgtable_id _); [eexists _, _; split; [cbn [app]; reflexivity|done]|]. unfold root, hash_part in *.
  destruct (DocKey.hash_present_ _); [eexists _, _; split; [cbn [app]; reflexivity|done]|]. cbn [app negb andb] in *.
  destruct (group_starts (DocKey.range_group_ (doc_key_ k)) (all_codes (subkeys_ k)) (wf_range _ Hd)) as (b & s & E & Hb). exists b, s. split; [exact E|].
  destruct Hb as [[E' _]|(v & l & _ & -> & Hv)]; [by rewrite bool_decide_true in Hr|]. destruct (item_tag v Hv) as (_ & _ & Ht). change (code kGroupEnd) with 33. lia.
Qed.

(** Every prefix that is locked starts as the key does. *)
Lemma prefix_starts k p : wf_sub k → root (doc_key_ k) = false → p ∈ prefixes k → p ≠ [] → head p ≠ Some (code kGroupEnd).
Proof.
  intros Hk Hr Hp Hne. destruct (not_group_end k Hk Hr) as (b & s & E & Hb). destruct (prefixes_of k p Hp) as [x Ex]. rewrite E in Ex.
  destruct p as [|c p]; [done|]. injection Ex as <- _. cbn [head]. by intros H%(inj Some).
Qed.

Lemma codes_nonempty l : Forall item l → l ≠ [] → all_codes l ≠ [].
Proof. intros Hl Hne. destruct Hl as [|v l Hv Hl]; [done|]. rewrite codes_cons. by destruct (item_tag v Hv) as (x & -> & _). Qed.

Lemma doc_nonempty d : doc_code d ≠ [].
Proof. unfold doc_code, range_part, group_code. rewrite !app_assoc. intros [_ H]%app_nil. done. Qed.

Lemma prefix_nonempty k p : wf_sub k → p ∈ prefixes k → p ≠ [].
Proof.
  intros Hk Hp. pose proof (wf_doc_key k Hk) as Hd. unfold prefixes in Hp. apply elem_of_app in Hp as [Hp|Hp].
  - assert (p = doc_code (doc_key_ k) ∨ p ∈ doc_prefixes (doc_key_ k)) as [->|H].
    { destruct (doc_prefixes (doc_key_ k)) as [|x l]; [by apply not_elem_of_nil in Hp|]. apply elem_of_app in Hp as [Hp|Hp%list_elem_of_singleton]; [|by left]. right. by apply removelast_elem. }
    + apply doc_nonempty.
    + unfold doc_prefixes in H. cbv zeta in H. apply elem_of_app in H as [H|H].
      * case_bool_decide as E; [by apply not_elem_of_nil in H|]. by apply list_elem_of_singleton in H as ->.
      * apply list_elem_of_fmap in H as (i & -> & Hi%elem_of_seq). intros [_ E]%app_nil. revert E. apply codes_nonempty; [apply Forall_take, Hd|].
        intros E%(f_equal length). rewrite length_take in E. cbn [length] in E. lia.
  - apply list_elem_of_fmap in Hp as (i & -> & _). unfold sub_code. intros [E _]%app_nil. by apply doc_nonempty in E.
Qed.

Lemma prefixes_some k : root (doc_key_ k) = false → prefixes k ≠ [].
Proof.
  intros Hr. unfold prefixes. destruct (doc_prefixes (doc_key_ k)) as [|x l] eqn:E; [exfalso|by intros [[_ ?]%app_nil _]%app_nil].
  unfold doc_prefixes in E. cbv zeta in E. apply app_nil in E as [E1 E2]. case_bool_decide as Eh; [|done]. apply app_nil in Eh as [_ Eh].
  apply fmap_nil_inv in E2. unfold root, hash_part in *. destruct (DocKey.hash_present_ _); [done|]. apply bool_decide_eq_false in Hr. by destruct (DocKey.range_group_ _).
Qed.

(** The entries of an operation on a key: weak ones for the prefixes above, a strong one for the key. *)
Lemma document_entries transactional strong k :
  wf_sub k → root (doc_key_ k) = false →
  ∃ ys y, Forall2 stripped (removelast (prefixes k)) ys ∧ stripped (sub_code k) y ∧
    lock_doc_path DecodePrefixLengths transactional strong (sub_code k) [] =
    Ok ((if transactional then [mk_entry [] (Intent.Intent.StrongToWeak strong) 0] else []) ++
        ((λ y, mk_entry y (Intent.Intent.StrongToWeak strong) 0) <$> ys) ++ [mk_entry y strong 0]).
Proof.
  intros Hk Hr. destruct (not_group_end k Hk Hr) as (b & s & Eb & Hb). unfold lock_doc_path.
  assert (DecodePrefixLengths (sub_code k) = Ok (length <$> prefixes k)) as ->.
  { pose proof (decode_prefix_lengths (remove_hybrid_time k)) as E. rewrite ht_code_none, app_nil_r in E by done. apply E. by destruct Hk. }
  cbn [obind]. rewrite bool_decide_false by (intros E%fmap_nil_inv; by apply prefixes_some in Hr). rewrite bool_decide_true by (rewrite Eb; cbn [length]; lia). cbn [andb].
  set (weak := Intent.Intent.StrongToWeak strong). assert (((λ n, (take n (sub_code k), weak)) <$> removelast (length <$> prefixes k)) = (λ x, (x, weak)) <$> removelast (prefixes k)) as ->.
  { rewrite removelast_fmap, <- list_fmap_compose. apply list_fmap_ext. intros i x Hx. unfold compose. f_equal.
    destruct (prefixes_of k x) as [z ->]; [eapply removelast_elem, list_elem_of_lookup_2, Hx|]. by rewrite take_app_length. }
  set (l0 := if transactional then [mk_entry [] weak 0] else []).
  assert ((if transactional then ApplyIntent [] weak [] else Ok []) = Ok l0) as -> by (by destruct transactional). cbn [obind].
  destruct (apply_all (removelast (prefixes k)) weak l0) as (ys & Hys & ->).
  { apply Forall_forall. intros x Hx%removelast_elem. split; [by eapply prefix_nonempty|]. eapply prefix_starts; [done..|]. by eapply prefix_nonempty. }
  cbn [obind]. destruct (apply_intent (sub_code k) strong (l0 ++ ((λ y, mk_entry y weak 0) <$> ys))) as (y & Hy & ->); [by rewrite Eb| |].
  { rewrite Eb. cbn [head]. by intros H%(inj Some). }
  exists ys, y. split_and!; [done..|]. by rewrite <- app_assoc.
Qed.

(** A document and the subdocuments above a key are among its prefixes. *)
Lemma above_prefix p k :
  wf_sub p → wf_sub k → root (doc_key_ k) = false → same_key (doc_key_ p) (doc_key_ k) → subkeys_ p `prefix_of` subkeys_ k → sub_code p ∈ prefixes k.
Proof.
  intros Hp Hk Hr Hs [x Ex]. apply same_key_code in Hs; [|apply Hp|apply Hk]. unfold prefixes, sub_code at 1. rewrite Hs. apply elem_of_app.
  assert (subkeys_ p = take (length (subkeys_ p)) (subkeys_ k)) as Ep by (by rewrite Ex, take_app_length).
  destruct (subkeys_ p) as [|v l] eqn:El.
  - left. pose proof (prefixes_some k Hr) as H. unfold prefixes in H. change (all_codes []) with (@nil Z). rewrite app_nil_r.
    assert (doc_prefixes (doc_key_ k) ≠ []) as Hd.
    { unfold doc_prefixes. cbv zeta. intros [E1 E2%fmap_nil_inv]%app_nil. case_bool_decide as Eh; [|done]. apply app_nil in Eh as [_ Eh]. unfold root, hash_part in *.
      destruct (DocKey.hash_present_ _); [done|]. apply bool_decide_eq_false in Hr. by destruct (DocKey.range_group_ _). }
    destruct (doc_prefixes (doc_key_ k)); [done|]. apply elem_of_app. right. by apply list_elem_of_singleton.
  - right. apply list_elem_of_fmap. exists (length (v :: l)). split.
    + unfold sub_code, KeepPrefix. cbn [doc_key_ subkeys_]. by rewrite <- Ep.
    + apply elem_of_seq. rewrite Ex, length_app. cbn [length]. lia.
Qed.

Lemma removelast_other {T} (l : list T) x y : last l = Some y → x ∈ l → x ≠ y → x ∈ removelast l.
Proof.
  intros Hl Hx Hne. induction l as [|z l0 _] using rev_ind; [done|]. rewrite last_snoc in Hl. injection Hl as ->. rewrite removelast_last.
  apply elem_of_app in Hx as [?|?%list_elem_of_singleton]; done.
Qed.

End Locks.

(** C17: Operations on a document and on one inside it meet at a lock: the key that the first one locks with its strong types is one that the
    second one locks with the weak types, or with the strong ones if both are the same; for writes of snapshot isolation these
    conflict, so that at most one of them holds it. *)
Theorem nested_documents_lock
    {B : BigNum} {HB : BigNumSpec B} {V : UuidVersion} {HV : UuidVersionSpec V} {A : IpAddress} {HA : IpAddressSpec A}
    (p k : t) (transactional : bool) (strong : Intent.IntentTypeSet.t) :
  wf_sub p → wf_sub k → root (doc_key_ k) = false → same_key (doc_key_ p) (doc_key_ k) → subkeys_ p `prefix_of` subkeys_ k →
  ∃ ep ek bp bk y, EncodeWithoutHt p = Ok ep ∧ EncodeWithoutHt k = Ok ek ∧
    lock_doc_path DecodePrefixLengths transactional strong ep [] = Ok bp ∧ lock_doc_path DecodePrefixLengths transactional strong ek [] = Ok bk ∧
    mk_entry y strong 0 ∈ bp ∧ mk_entry y (if decide (length (subkeys_ p) = length (subkeys_ k)) then strong else Intent.Intent.StrongToWeak strong) 0 ∈ bk ∧
    (strong = Intent.Intent.GetStrongIntentTypeSet Intent.Intent.SNAPSHOT_ISOLATION Intent.Intent.kWrite Intent.RowMark.ROW_MARK_ABSENT →
     LockTables.IntentTypeSetsConflict (if decide (length (subkeys_ p) = length (subkeys_ k)) then strong else Intent.Intent.StrongToWeak strong) strong = true).
Proof.
  intros Hp Hk Hr Hs Hpre. assert (root (doc_key_ p) = false) as Hrp.
  { revert Hr. pose proof Hs as Hs'. apply same_key_parts in Hs' as (_ & _ & E1 & _ & E2); [|apply Hp|apply Hk]. unfold root, hash_of in *. rewrite E2.
    by destruct (DocKey.hash_present_ (doc_key_ p)), (DocKey.hash_present_ (doc_key_ k)). }
  destruct (document_entries transactional strong p Hp Hrp) as (yp & y & _ & Hy & Ep), (document_entries transactional strong k Hk Hr) as (yk & z & Hyk & Hz & Ek).
  eexists _, _, _, _, y. split_and!; [by apply without_ht|by apply without_ht|exact Ep|exact Ek| | |].
  - rewrite !elem_of_app. right. right. by apply list_elem_of_singleton.
  - rewrite !elem_of_app. destruct Hpre as [x Ex]. case_decide as E.
    + right. right. apply list_elem_of_singleton. apply same_key_code in Hs; [|apply Hp|apply Hk]. f_equal. eapply stripped_unique; [exact Hy|].
      rewrite Ex, length_app in E. assert (x = []) as -> by (apply length_zero_iff_nil; lia). unfold sub_code in *. by rewrite Ex, app_nil_r, <- Hs in Hz.
    + right. left. apply list_elem_of_fmap. exists y. split; [done|].
      assert (sub_code p ∈ removelast (prefixes k)) as Hin.
      { apply (removelast_other _ _ (sub_code k)); [by apply prefixes_last, prefixes_some|apply above_prefix; [done..|by exists x]|]. intros Ec. apply E.
        apply same_key_code in Hs; [|apply Hp|apply Hk]. unfold sub_code in Ec. rewrite Hs in Ec. apply app_inv_head in Ec. rewrite Ex, all_codes_app in Ec.
        apply (f_equal length) in Ec. rewrite length_app in Ec. destruct x as [|v x]; [by rewrite Ex, app_nil_r|exfalso].
        assert (Forall item (v :: x)) as Hx by (pose proof (wf_subkeys k Hk) as H; rewrite Ex in H; by apply Forall_app in H as [_ H]).
        pose proof (items_length _ Hx). cbn [length] in *. lia. }
      apply list_elem_of_lookup in Hin as [i Hi]. destruct (Forall2_lookup_l _ _ _ _ _ Hyk Hi) as (y' & Hy' & Hst). rewrite (stripped_unique _ _ _ Hy Hst).
      by eapply list_elem_of_lookup_2.
  - intros ->. by case_decide.
Qed.

Lemma nested_documents_lock_witness :
  ∃ ep ek bp bk y, EncodeWithoutHt (KeepPrefix 1 (sample_sub 3 DocHybridTime.kInvalid)) = Ok ep ∧ EncodeWithoutHt (sample_sub 3 DocHybridTime.kInvalid) = Ok ek ∧
    lock_doc_path (DecodePrefixLengths (B := ZNum)) true 12 ep [] = Ok bp ∧ lock_doc_path (DecodePrefixLengths (B := ZNum)) true 12 ek [] = Ok bk ∧
    mk_entry y 12 0 ∈ bp ∧ mk_entry y 3 0 ∈ bk.
Proof.
  destruct (sample_sub_wf 3 DocHybridTime.kInvalid ltac:(unfold is_i64; lia) ltac:(done)) as [Hk _].
  destruct (nested_documents_lock (B := ZNum) (KeepPrefix 1 (sample_sub 3 DocHybridTime.kInvalid)) (sample_sub 3 DocHybridTime.kInvalid) true 12)
    as (ep & ek & bp & bk & y & E1 & E2 & E3 & E4 & H1 & H2 & _).
  - destruct Hk as [Hd Ht Hs]. split; [exact Hd|exact Ht|]. apply (Forall_take _ 1), Hs.
  - exact Hk.
  - reflexivity.
  - reflexivity.
  - eexists. reflexivity.
  - exists ep, ek, bp, bk, y. split; [exact E1|]. split; [exact E2|]. split; [exact E3|]. split; [exact E4|]. split; [exact H1|exact H2].
Defined.

End KeyLocks.
