(* ===== verification/Mvcc.v ===== *)
(** * The MVCC manager

    Models tablet/mvcc.h and tablet/mvcc.cc: the queue of hybrid times of the
    operations a tablet has in flight, and the safe times at which it may serve
    reads.  Every public method holds [mutex_] for its whole body, so a method is
    one function of the state; a method that waits on [cond_] is evaluated at the
    moment its predicate is tested, and reports whether it goes on waiting.
    [clock_->Now()] is an argument of the methods that call it.  Tracing and
    logging are left out. *)

From stdpp Require Import sorting.
From S2P Require Import Prelude HybridTime HybridClock.

Module Mvcc.

(** ** Data *)

Inductive SafeTimeSource :=
  | kUnknown | kNow | kNextInQueue | kHybridTimeLease | kPropagated | kLastReplicated.

Record SafeTimeWithSource := { safe_time : Z; source : SafeTimeSource }.

Record FixedHybridTimeLease := { time : Z; lease : Z }.

Definition lease_empty (l : FixedHybridTimeLease) : bool :=
  HybridTime.kMaxHybridTimePhysicalMicros <=? HybridTime.GetPhysicalValueMicros (lease l).

(** [FixedHybridTimeLease()]. *)
Definition no_lease : FixedHybridTimeLease :=
  {| time := HybridTime.kInvalid; lease := HybridTime.kMax |}.

(** [aborted_], a priority queue with its least element on top, as the ascending
    list of its elements. *)
Record state := {
  queue_ : list Z;
  aborted_ : list Z;
  last_replicated_ : Z;
  propagated_safe_time_ : Z;
  leader_only_mode_ : bool;
  max_safe_time_returned_with_lease_ : SafeTimeWithSource;
  max_safe_time_returned_without_lease_ : SafeTimeWithSource;
  max_safe_time_returned_for_follower_ : SafeTimeWithSource }.

Definition init : state :=
  let none := {| safe_time := HybridTime.kMin; source := kUnknown |} in
  {| queue_ := []; aborted_ := []; last_replicated_ := HybridTime.kMin;
     propagated_safe_time_ := HybridTime.kMin; leader_only_mode_ := false;
     max_safe_time_returned_with_lease_ := none;
     max_safe_time_returned_without_lease_ := none;
     max_safe_time_returned_for_follower_ := none |}.

(** Updates of one field. *)
Definition set_queues (q a : list Z) (st : state) : state :=
  {| queue_ := q; aborted_ := a; last_replicated_ := last_replicated_ st;
     propagated_safe_time_ := propagated_safe_time_ st;
     leader_only_mode_ := leader_only_mode_ st;
     max_safe_time_returned_with_lease_ := max_safe_time_returned_with_lease_ st;
     max_safe_time_returned_without_lease_ := max_safe_time_returned_without_lease_ st;
     max_safe_time_returned_for_follower_ := max_safe_time_returned_for_follower_ st |}.
Definition set_last_replicated (ht : Z) (st : state) : state :=
  {| queue_ := queue_ st; aborted_ := aborted_ st; last_replicated_ := ht;
     propagated_safe_time_ := propagated_safe_time_ st;
     leader_only_mode_ := leader_only_mode_ st;
     max_safe_time_returned_with_lease_ := max_safe_time_returned_with_lease_ st;
     max_safe_time_returned_without_lease_ := max_safe_time_returned_without_lease_ st;
     max_safe_time_returned_for_follower_ := max_safe_time_returned_for_follower_ st |}.
Definition set_propagated (ht : Z) (st : state) : state :=
  {| queue_ := queue_ st; aborted_ := aborted_ st; last_replicated_ := last_replicated_ st;
     propagated_safe_time_ := ht;
     leader_only_mode_ := leader_only_mode_ st;
     max_safe_time_returned_with_lease_ := max_safe_time_returned_with_lease_ st;
     max_safe_time_returned_without_lease_ := max_safe_time_returned_without_lease_ st;
     max_safe_time_returned_for_follower_ := max_safe_time_returned_for_follower_ st |}.
Definition set_returned (w wo f : SafeTimeWithSource) (st : state) : state :=
  {| queue_ := queue_ st; aborted_ := aborted_ st; last_replicated_ := last_replicated_ st;
     propagated_safe_time_ := propagated_safe_time_ st;
     leader_only_mode_ := leader_only_mode_ st;
     max_safe_time_returned_with_lease_ := w;
     max_safe_time_returned_without_lease_ := wo;
     max_safe_time_returned_for_follower_ := f |}.

(** ** Completion of operations *)

(** [aborted_.push(ht)]. *)
Fixpoint push (ht : Z) (a : list Z) : list Z :=
  match a with
  | [] => [ht]
  | t :: a' => if ht <? t then ht :: a else t :: push ht a'
  end.

(** The loop of [PopFront]; [front()] of an empty queue is undefined. *)
Fixpoint pop_aborted (a q : list Z) : outcome (list Z * list Z) :=
  match a with
  | [] => Ok (q, [])
  | top :: a' =>
      match q with
      | [] => UB
      | front :: q' =>
          if negb (front =? top) then check! (front <? top) in Ok (q, a)
          else pop_aborted a' q'
      end
  end.

Definition PopFront (st : state) : outcome state :=
  match queue_ st with
  | [] => UB
  | _ :: q =>
      check! bool_decide (length (aborted_ st) ≤ length q)%nat in
      let! (q, a) := pop_aborted (aborted_ st) q in
      Ok (set_queues q a st)
  end.

Definition Replicated (ht : Z) (st : state) : outcome state :=
  match queue_ st with
  | [] => Fatal
  | front :: _ =>
      check! (front =? ht) in
      let! st := PopFront st in
      Ok (set_last_replicated ht st)
  end.

Definition Aborted (ht : Z) (st : state) : outcome state :=
  match queue_ st with
  | [] => Fatal
  | front :: _ =>
      if front =? ht then PopFront st
      else Ok (set_queues (queue_ st) (push ht (aborted_ st)) st)
  end.

(** ** New operations *)

(** [std::lower_bound] on the (ascending) queue: the elements before the position
    it returns and those from it on. *)
Fixpoint lower_bound (q : list Z) (x : Z) : list Z * list Z :=
  match q with
  | [] => ([], [])
  | y :: q' =>
      if y <? x then let '(before, from) := lower_bound q' x in (y :: before, from)
      else ([], q)
  end.

(** [while (iter != queue_.end() && *iter == aborted_.top()) ...]: what is left of
    the queue from [iter] on, and of the aborted operations. *)
Fixpoint drop_aborted_tail (from a : list Z) : outcome (list Z * list Z) :=
  match from with
  | [] => Ok ([], a)
  | x :: from' =>
      match a with
      | [] => UB
      | top :: a' => if x =? top then drop_aborted_tail from' a' else Ok (from, a)
      end
  end.

(** The truncation of the queue at the start of [AddPending]. *)
Definition truncate_aborted (ht : Z) (st : state) : outcome state :=
  match last (queue_ st), aborted_ st with
  | Some back, top :: _ =>
      if ht <=? back then
        let '(before, from) := lower_bound (queue_ st) top in
        check! negb (bool_decide (from = [])) in
        let! (from, a) := drop_aborted_tail from (aborted_ st) in
        Ok (set_queues (before ++ from) a st)
      else Ok st
  | _, _ => Ok st
  end.

Definition sanity_check_lower_bound (st : state) : Z :=
  let last_ht_in_queue := default HybridTime.kMin (last (queue_ st)) in
  Z.max (safe_time (max_safe_time_returned_with_lease_ st))
    (Z.max (safe_time (max_safe_time_returned_without_lease_ st))
       (Z.max (safe_time (max_safe_time_returned_for_follower_ st))
          (Z.max (propagated_safe_time_ st)
             (Z.max (last_replicated_ st) last_ht_in_queue)))).

(** [AddPending(ht)] with [now] the clock reading used when [*ht] is invalid; the
    final [*ht] and the state.  The release build is the one modelled. *)
Definition AddPending (ht now : Z) (st : state) : outcome (Z * state) :=
  let is_follower_side := HybridTime.is_valid ht in
  let ht := if is_follower_side then ht else now in
  let! st := truncate_aborted ht st in
  let bound := sanity_check_lower_bound st in
  let! ht :=
    if ht <=? bound then
      let ht := if negb is_follower_side && HybridTime.is_valid bound &&
                   negb (bound =? HybridTime.kMax)
                then HybridTime.Incremented bound else ht in
      if ht <=? bound then Fatal else Ok ht
    else Ok ht in
  Ok (ht, set_queues (queue_ st ++ [ht]) (aborted_ st) st).

(** ** Safe time *)

Definition SetLastReplicated (ht : Z) (st : state) : state := set_last_replicated ht st.

Definition SetPropagatedSafeTimeOnFollower (ht : Z) (st : state) : state :=
  if propagated_safe_time_ st <=? ht then set_propagated ht st else st.

Definition SetLeaderOnlyMode (leader_only : bool) (st : state) : state :=
  {| queue_ := queue_ st; aborted_ := aborted_ st; last_replicated_ := last_replicated_ st;
     propagated_safe_time_ := propagated_safe_time_ st;
     leader_only_mode_ := leader_only;
     max_safe_time_returned_with_lease_ := max_safe_time_returned_with_lease_ st;
     max_safe_time_returned_without_lease_ := max_safe_time_returned_without_lease_ st;
     max_safe_time_returned_for_follower_ := max_safe_time_returned_for_follower_ st |}.

Definition LastReplicatedHybridTime (st : state) : Z := last_replicated_ st.

(** The predicate of [DoGetSafeTime]: [result] and [source]. *)
Definition safe_time_candidate (l : FixedHybridTimeLease) (now : Z) (st : state)
    : SafeTimeWithSource :=
  let with_lease := safe_time (max_safe_time_returned_with_lease_ st) in
  let r := match queue_ st with
           | [] => {| safe_time := if HybridTime.is_valid (time l)
                                   then Z.max with_lease (time l) else now;
                      source := kNow |}
           | front :: _ => {| safe_time := HybridTime.Decremented front; source := kNextInQueue |}
           end in
  let r := if negb (lease_empty l) then
             let used_lease := Z.max (lease l) with_lease in
             if used_lease <? safe_time r
             then {| safe_time := used_lease; source := kHybridTimeLease |} else r
           else r in
  {| safe_time := Z.max (safe_time r) (last_replicated_ st); source := source r |}.

(** [DoGetSafeTime]: [None] while the call waits, the invalid hybrid time when its
    deadline has passed. *)
Definition DoGetSafeTime (min_allowed : Z) (deadline_passed : bool) (l : FixedHybridTimeLease)
    (now : Z) (st : state) : outcome (option Z * state) :=
  check! HybridTime.is_valid (lease l) in
  check! (min_allowed <=? lease l) in
  let has_lease := negb (lease_empty l) in
  let result := safe_time_candidate l now st in
  if negb (min_allowed <=? safe_time result) then
    Ok (if deadline_passed then Some HybridTime.kInvalid else None, st)
  else
    let enforced_min_time :=
      safe_time (if has_lease then max_safe_time_returned_with_lease_ st
                 else max_safe_time_returned_without_lease_ st) in
    check! (enforced_min_time <=? safe_time result) in
    Ok (Some (safe_time result),
        if has_lease
        then set_returned result (max_safe_time_returned_without_lease_ st)
               (max_safe_time_returned_for_follower_ st) st
        else set_returned (max_safe_time_returned_with_lease_ st) result
               (max_safe_time_returned_for_follower_ st) st).

Definition SafeTime := DoGetSafeTime.

(** The predicate of [SafeTimeForFollower]. *)
Definition follower_candidate (st : state) : SafeTimeWithSource :=
  if last_replicated_ st <? propagated_safe_time_ st then
    match queue_ st with
    | [] => {| safe_time := propagated_safe_time_ st; source := kPropagated |}
    | front :: _ =>
        if propagated_safe_time_ st <? front
        then {| safe_time := propagated_safe_time_ st; source := kPropagated |}
        else {| safe_time := HybridTime.Decremented front; source := kNextInQueue |}
    end
  else {| safe_time := last_replicated_ st; source := kLastReplicated |}.

Definition SafeTimeForFollower (min_allowed : Z) (deadline_passed : bool) (now : Z) (st : state)
    : outcome (option Z * state) :=
  if leader_only_mode_ st then DoGetSafeTime min_allowed deadline_passed no_lease now st
  else
    let result := follower_candidate st in
    if negb (min_allowed <=? safe_time result) then
      Ok (if deadline_passed then Some HybridTime.kInvalid else None, st)
    else
      check! (safe_time (max_safe_time_returned_for_follower_ st) <=? safe_time result) in
      Ok (Some (safe_time result),
          set_returned (max_safe_time_returned_with_lease_ st)
            (max_safe_time_returned_without_lease_ st) result st).

(** [DoGetSafeTime(kMin, max, ht_lease)] does not wait. *)
Definition UpdatePropagatedSafeTimeOnLeader (l : FixedHybridTimeLease) (now : Z) (st : state)
    : outcome state :=
  let! (r, st) := DoGetSafeTime HybridTime.kMin false l now st in
  match r with
  | None => Ok st
  | Some t => Ok (if t <? propagated_safe_time_ st then st else set_propagated t st)
  end.

(** ** Calls *)

Inductive op :=
  | OpAddPending (ht now : Z)
  | OpReplicated (ht : Z)
  | OpAborted (ht : Z)
  | OpSetLastReplicated (ht : Z)
  | OpSetPropagatedSafeTimeOnFollower (ht : Z)
  | OpUpdatePropagatedSafeTimeOnLeader (l : FixedHybridTimeLease) (now : Z)
  | OpSetLeaderOnlyMode (leader_only : bool)
  | OpSafeTimeForFollower (min_allowed : Z) (deadline_passed : bool) (now : Z)
  | OpSafeTime (min_allowed : Z) (deadline_passed : bool) (l : FixedHybridTimeLease) (now : Z).

(** One call: the hybrid time it assigns or returns, if any, and the state. *)
Definition exec (o : op) (st : state) : outcome (option Z * state) :=
  match o with
  | OpAddPending ht now => let! (ht, st) := AddPending ht now st in Ok (Some ht, st)
  | OpReplicated ht => let! st := Replicated ht st in Ok (None, st)
  | OpAborted ht => let! st := Aborted ht st in Ok (None, st)
  | OpSetLastReplicated ht => Ok (None, SetLastReplicated ht st)
  | OpSetPropagatedSafeTimeOnFollower ht => Ok (None, SetPropagatedSafeTimeOnFollower ht st)
  | OpUpdatePropagatedSafeTimeOnLeader l now =>
      let! st := UpdatePropagatedSafeTimeOnLeader l now st in Ok (None, st)
  | OpSetLeaderOnlyMode b => Ok (None, SetLeaderOnlyMode b st)
  | OpSafeTimeForFollower m d now => SafeTimeForFollower m d now st
  | OpSafeTime m d l now => SafeTime m d l now st
  end.

Fixpoint run (ops : list op) (st : state) : outcome state :=
  match ops with
  | [] => Ok st
  | o :: ops => let! (_, st) := exec o st in run ops st
  end.

(** The largest safe time handed out so far. *)
Definition returned (st : state) : Z :=
  Z.max (safe_time (max_safe_time_returned_with_lease_ st))
    (Z.max (safe_time (max_safe_time_returned_without_lease_ st))
       (safe_time (max_safe_time_returned_for_follower_ st))).

(** The operations in flight: those in the queue that are not aborted. *)
Definition pending (st : state) : list Z := filter (λ h, h ∉ aborted_ st) (queue_ st).

(** What the callers guarantee: an operation is aborted at most once, while it is
    in flight, and bootstrap sets the last replicated time before any operation
    above it is in flight. *)
Definition contract (o : op) (st : state) : Prop :=
  match o with
  | OpAborted ht => ht ∈ queue_ st ∧ ht ∉ aborted_ st
  | OpSetLastReplicated ht => 0 <= ht ∧ Forall (λ h, ht < h) (queue_ st)
  | _ => True
  end.

(** ** Invariant *)

(** Ascending queue and aborted times; an aborted operation is still in the queue,
    not at its front; what has been replicated or returned as safe is below
    everything in the queue. *)
Record Inv (st : state) : Prop := {
  inv_queue : StronglySorted Z.lt (queue_ st);
  inv_aborted : StronglySorted Z.lt (aborted_ st);
  inv_incl : ∀ h, h ∈ aborted_ st → h ∈ tail (queue_ st);
  inv_replicated : Forall (λ h, last_replicated_ st < h) (queue_ st);
  inv_returned : Forall (λ h, returned st < h) (queue_ st);
  inv_nonneg : 0 <= last_replicated_ st }.

(** Calls that respect the contract and return. *)
Definition step (st st' : state) : Prop :=
  ∃ o r, contract o st ∧ exec o st = Ok (r, st').

Definition reachable (st : state) : Prop := rtc step init st.

(** *** Sorted lists *)

Lemma sorted_cons_lt x (l : list Z) y : StronglySorted Z.lt (x :: l) → y ∈ l → x < y.
Proof. intros [_ H]%StronglySorted_inv Hy. by eapply Forall_forall in H. Qed.

Lemma sorted_nodup (l : list Z) : StronglySorted Z.lt l → NoDup l.
Proof.
  induction 1 as [|x l Hl IH Hx]; constructor; [|done].
  intros Hin. eapply Forall_forall in Hx; [|done]. lia.
Qed.

Lemma sorted_app (l k : list Z) :
  StronglySorted Z.lt (l ++ k) ↔
  StronglySorted Z.lt l ∧ StronglySorted Z.lt k ∧ ∀ x y, x ∈ l → y ∈ k → x < y.
Proof.
  induction l as [|a l IH]; cbn [app].
  - split; [intros H; split_and!; [constructor|done|intros ?? []%elem_of_nil]|tauto].
  - split.
    + intros [H1 H2]%StronglySorted_inv. apply IH in H1 as (H1 & H3 & H4).
      apply Forall_app in H2 as [H2 H5]. split_and!; [by constructor|done|].
      intros x y [->|Hx]%elem_of_cons Hy; [by eapply Forall_forall in H5|by apply H4].
    + intros (H1 & H2 & H3). apply StronglySorted_inv in H1 as [H1 H4]. constructor.
      * apply IH. split_and!; [done..|]. intros x y Hx. apply H3. by constructor.
      * apply Forall_app. split; [done|]. apply Forall_forall. intros y Hy. apply H3; [constructor|done].
Qed.

Lemma sorted_length (a q : list Z) :
  StronglySorted Z.lt a → (∀ h, h ∈ a → h ∈ q) → (length a ≤ length q)%nat.
Proof.
  intros Ha Hi. apply submseteq_length, NoDup_submseteq; [by apply sorted_nodup|done].
Qed.

Lemma last_sorted_max (l : list Z) b : StronglySorted Z.lt l → last l = Some b → ∀ h, h ∈ l → h <= b.
Proof.
  intros Hs Hl h Hh. apply last_Some in Hl as [l' ->].
  apply sorted_app in Hs as (_ & _ & Hs). apply elem_of_app in Hh as [Hh|Hh%list_elem_of_singleton].
  - pose proof (Hs h b Hh ltac:(by constructor)). lia.
  - lia.
Qed.

(** *** Completion *)

(** The elements of [q] that are not in [a]. *)
Definition remaining (a q : list Z) : list Z := filter (λ h, h ∉ a) q.

Lemma remaining_common k a q :
  NoDup (k ++ q) → remaining (k ++ a) (k ++ q) = remaining a q.
Proof.
  intros Hnd. apply NoDup_app in Hnd as (_ & Hdis & _). unfold remaining. rewrite filter_app.
  rewrite (filter_none _ k) by (intros x Hx Hn; apply Hn, elem_of_app; by left).
  apply filter_ext_in. intros x Hx. rewrite elem_of_app. split; [tauto|].
  intros Ha [Hk|?]; [|done]. by apply (Hdis x).
Qed.

Lemma pop_aborted_spec a q :
  StronglySorted Z.lt a → StronglySorted Z.lt q → (∀ h, h ∈ a → h ∈ q) →
  ∃ k q' a', q = k ++ q' ∧ a = k ++ a' ∧ pop_aborted a q = Ok (q', a') ∧
    ∀ h, h ∈ a' → h ∈ tail q'.
Proof.
  intros Ha. revert q. induction Ha as [|t a Ha IH Hta]; intros q Hq Hin.
  - exists [], q, []. split_and!; [done..|]. intros h []%elem_of_nil.
  - destruct q as [|x q]; [exfalso; eapply not_elem_of_nil, Hin; constructor|].
    cbn [pop_aborted]. destruct (Z.eqb_spec x t) as [->|Hne]; cbn [negb].
    + apply StronglySorted_inv in Hq as [Hq Hx].
      destruct (IH q Hq) as (k & q' & a' & -> & -> & E & Htl).
      { intros h Hh. eapply Forall_forall in Hta as Hlt; [|done].
        assert (h ∈ t :: q) as [->|?]%elem_of_cons by (apply Hin; by constructor); [lia|done]. }
      by exists (t :: k), q', a'.
    + assert (t ∈ q) as Htq.
      { assert (t ∈ x :: q) as [->|?]%elem_of_cons by (apply Hin; constructor); done. }
      pose proof (sorted_cons_lt _ _ _ Hq Htq) as Hlt.
      rewrite (proj2 (Z.ltb_lt _ _)) by done.
      exists [], (x :: q), (t :: a). split_and!; [done..|]. intros h Hh. cbn [tail].
      assert (h ∈ x :: q) as [->|?]%elem_of_cons by (by apply Hin); [|done].
      apply elem_of_cons in Hh as [->|Hh]; [done|]. eapply Forall_forall in Hta; [|done]. lia.
Qed.

(** [PopFront] succeeds, removes the front and the aborted operations behind it,
    and so keeps the other operations in flight. *)
Lemma PopFront_spec st x q :
  Inv st → queue_ st = x :: q →
  ∃ k q' a', PopFront st = Ok (set_queues q' a' st) ∧ q = k ++ q' ∧ aborted_ st = k ++ a' ∧
    (∀ h, h ∈ a' → h ∈ tail q') ∧ remaining (aborted_ st) q = remaining a' q'.
Proof.
  intros [Hq Ha Hin _ _ _] E. rewrite E in *. cbn [tail] in Hin.
  apply StronglySorted_inv in Hq as [Hq Hx].
  destruct (pop_aborted_spec (aborted_ st) q) as (k & q' & a' & Eq & Ea & Ep & Htl); [done..|].
  exists k, q', a'. unfold PopFront. rewrite E, Ep, bool_decide_true by (by apply sorted_length).
  split_and!; [done..|]. rewrite Ea, Eq. apply remaining_common.
  rewrite <- Eq. by apply sorted_nodup.
Qed.

Lemma front_not_aborted st x q : Inv st → queue_ st = x :: q → x ∉ aborted_ st.
Proof.
  intros [Hq _ Hin _ _ _] E Hx. rewrite E in *. apply Hin in Hx. cbn [tail] in Hx.
  pose proof (sorted_cons_lt _ _ _ Hq Hx). lia.
Qed.

(** The front of the queue is the first operation in flight. *)
Lemma pending_front st x q :
  Inv st → queue_ st = x :: q → pending st = x :: remaining (aborted_ st) q.
Proof.
  intros HI E. pose proof (front_not_aborted st x q HI E). unfold pending. rewrite E.
  by rewrite filter_cons_True.
Qed.

Lemma elem_of_push h t a : h ∈ push t a ↔ h = t ∨ h ∈ a.
Proof.
  induction a as [|x a IH]; cbn [push]; [by rewrite list_elem_of_singleton, elem_of_nil; tauto|].
  case_test; rewrite !elem_of_cons; [done|]. rewrite IH. tauto.
Qed.

Lemma push_sorted t a : StronglySorted Z.lt a → t ∉ a → StronglySorted Z.lt (push t a).
Proof.
  induction 1 as [|x a Ha IH Hx]; intros Ht; cbn [push]; [by repeat constructor|].
  apply not_elem_of_cons in Ht as [Hne Ht]. case_test.
  - constructor; [by constructor|]. constructor; [done|].
    eapply Forall_impl; [exact Hx|]. intros y Hy. simpl in Hy. lia.
  - constructor; [by apply IH|]. apply Forall_forall. intros y [->|Hy]%elem_of_push; [lia|].
    by eapply Forall_forall in Hx.
Qed.

(** *** Truncation *)

Lemma lower_bound_spec q x b f :
  StronglySorted Z.lt q → lower_bound q x = (b, f) →
  q = b ++ f ∧ (∀ y, y ∈ b → y < x) ∧ (∀ y, y ∈ f → x <= y).
Proof.
  intros Hq. revert b f. induction Hq as [|y q Hq IH Hy]; intros b f E; cbn [lower_bound] in E.
  - injection E as <- <-. split_and!; [done|intros ? []%elem_of_nil..].
  - destruct (Z.ltb_spec y x) as [Hlt|Hge].
    + destruct (lower_bound q x) as [b' f']. injection E as <- <-.
      destruct (IH b' f' eq_refl) as (-> & H1 & H2). split_and!; [done| |done].
      intros z [->|Hz]%elem_of_cons; auto.
    + injection E as <- <-. split_and!; [done|intros ? []%elem_of_nil|].
      intros z [->|Hz]%elem_of_cons; [done|]. eapply Forall_forall in Hy; [|done]. lia.
Qed.

Lemma drop_aborted_tail_inv from a from' a' :
  drop_aborted_tail from a = Ok (from', a') → ∃ k, from = k ++ from' ∧ a = k ++ a'.
Proof.
  revert a. induction from as [|x from IH]; intros a E; cbn [drop_aborted_tail] in E.
  - injection E as <- <-. by exists [].
  - destruct a as [|t a]; [done|]. destruct (Z.eqb_spec x t) as [->|].
    + destruct (IH a E) as (k & -> & ->). by exists (t :: k).
    + injection E as <- <-. by exists [].
Qed.

(** What a truncation may remove: a stretch of aborted operations behind the front. *)
Definition cut (st : state) (q' a' : list Z) : Prop :=
  ∃ b k f, queue_ st = b ++ k ++ f ∧ aborted_ st = k ++ a' ∧ q' = b ++ f ∧
    (aborted_ st = [] ∨ ∃ x b', b = x :: b') ∧ (∀ h, h ∈ b → h ∉ aborted_ st).

Lemma truncate_spec ht st st' :
  Inv st → truncate_aborted ht st = Ok st' →
  ∃ q' a', st' = set_queues q' a' st ∧ (st' = st ∨ cut st q' a').
Proof.
  intros HI E. pose proof HI as [Hq Ha Hin _ _ _]. unfold truncate_aborted in E.
  assert (st' = st → ∃ q' a', st' = set_queues q' a' st ∧ (st' = st ∨ cut st q' a')) as Hid.
  { intros ->. exists (queue_ st), (aborted_ st). split; [by destruct st|by left]. }
  destruct (last (queue_ st)) as [back|]; [|by injection E as <-; apply Hid].
  destruct (aborted_ st) as [|top a] eqn:Ea; [by injection E as <-; apply Hid|].
  destruct (ht <=? back); [|by injection E as <-; apply Hid].
  destruct (lower_bound (queue_ st) top) as [b f] eqn:El.
  destruct (lower_bound_spec _ _ _ _ Hq El) as (Eq & Hb & Hf). case_test_in E; [|done].
  destruct (drop_aborted_tail f (top :: a)) as [[f' a']| | |] eqn:Ed; try done.
  apply drop_aborted_tail_inv in Ed as (k & -> & Ek). injection E as <-.
  exists (b ++ f'), a'. split; [done|right]. exists b, k, f'. rewrite Ea. split_and!; try done.
  - right. assert (top ∈ tail (queue_ st)) as Ht by (apply Hin; constructor).
    destruct b as [|x b]; [exfalso|by eauto]. rewrite app_nil_l in Eq.
    destruct (queue_ st) as [|x q]; [by apply elem_of_nil in Ht|]. cbn [tail] in Ht.
    pose proof (sorted_cons_lt _ _ _ Hq Ht). assert (top <= x) by (apply Hf; rewrite <- Eq; constructor).
    lia.
  - intros h Hh Ht. apply Hb in Hh. apply elem_of_cons in Ht as [->|Ht]; [lia|].
    pose proof (sorted_cons_lt _ _ _ Ha Ht). lia.
Qed.

(** A cut keeps the operations in flight and the invariant. *)
Lemma cut_pending st q' a' :
  Inv st → cut st q' a' → remaining a' q' = pending st.
Proof.
  intros [Hq _ _ _ _ _] (b & k & f & Eq & Ea & -> & _ & Hb).
  unfold pending. fold (remaining (aborted_ st) (queue_ st)). rewrite Eq, Ea.
  unfold remaining. rewrite !filter_app. f_equal.
  - apply filter_ext_in. intros x Hx. specialize (Hb x Hx). rewrite Ea, elem_of_app in Hb.
    rewrite elem_of_app. tauto.
  - rewrite <- filter_app. symmetry. apply remaining_common.
    apply sorted_nodup. rewrite Eq in Hq. by apply sorted_app in Hq as (_ & ? & _).
Qed.

Lemma cut_inv st q' a' : Inv st → cut st q' a' → Inv (set_queues q' a' st).
Proof.
  intros HI Hcut. pose proof HI as [Hq Ha Hin Hr Hret Hn].
  destruct Hcut as (b & k & f & Eq & Ea & -> & Hbne & Hb).
  rewrite Eq in Hq, Hr, Hret. rewrite Ea in Ha.
  apply sorted_app in Ha as (_ & Ha' & Hka). apply sorted_app in Hq as (Hqb & Hq & Hbq).
  apply sorted_app in Hq as (_ & Hqf & _).
  rewrite !Forall_app in Hr, Hret. split; cbn [queue_ aborted_ set_queues last_replicated_].
  - apply sorted_app. split_and!; [done..|]. intros x y Hx Hy. apply Hbq; [done|].
    apply elem_of_app. by right.
  - done.
  - intros h Hh. assert (h ∈ aborted_ st) as Hab by (rewrite Ea; apply elem_of_app; by right).
    destruct Hbne as [En|(x & b' & ->)]; [rewrite En in Hab; by apply elem_of_nil in Hab|].
    cbn [app tail]. apply elem_of_app. right.
    assert (h ∈ queue_ st) as Hh'.
    { apply Hin in Hab. rewrite Eq in *. cbn [app tail] in *. by apply list_elem_of_further. }
    rewrite Eq in Hh'. apply elem_of_app in Hh' as [Hh'|[Hk|?]%elem_of_app]; [|exfalso|done].
    + by destruct (Hb h).
    + pose proof (Hka h h Hk Hh). lia.
  - apply Forall_app. tauto.
  - change (returned (set_queues (b ++ f) a' st)) with (returned st). apply Forall_app. tauto.
  - done.
Qed.

(** *** Preservation *)

Lemma add_pending_spec ht now st ht' st' :
  Inv st → AddPending ht now st = Ok (ht', st') →
  ∃ st1, truncate_aborted (if HybridTime.is_valid ht then ht else now) st = Ok st1 ∧
    sanity_check_lower_bound st1 < ht' ∧
    st' = set_queues (queue_ st1 ++ [ht']) (aborted_ st1) st1 ∧
    (HybridTime.is_valid ht = true → ht' = ht).
Proof.
  intros HI E. unfold AddPending in E.
  destruct (truncate_aborted _ st) as [st1| | |] eqn:Et; try done. cbn [obind] in E.
  exists st1. split; [done|]. destruct (HybridTime.is_valid ht) eqn:Ev; cbn [negb andb] in E;
    repeat case_test_in E; cbn [obind] in E; try done; injection E as <- <-;
    (split_and!; [lia|done|done]).
Qed.

Lemma lower_bound_returned st : returned st <= sanity_check_lower_bound st.
Proof. unfold returned, sanity_check_lower_bound. lia. Qed.

Lemma lower_bound_queue st h :
  Inv st → h ∈ queue_ st → h <= sanity_check_lower_bound st.
Proof.
  intros [Hq _ _ _ _ _] Hh. unfold sanity_check_lower_bound.
  destruct (last (queue_ st)) as [b|] eqn:El.
  - pose proof (last_sorted_max _ _ Hq El h Hh). simpl. lia.
  - apply last_None in El. rewrite El in Hh. by apply elem_of_nil in Hh.
Qed.

Lemma push_back_inv st h :
  Inv st → sanity_check_lower_bound st < h →
  Inv (set_queues (queue_ st ++ [h]) (aborted_ st) st).
Proof.
  intros HI Hlt. pose proof HI as [Hq Ha Hin Hr Hret Hn].
  pose proof (lower_bound_returned st). assert (last_replicated_ st <= sanity_check_lower_bound st)
    by (unfold sanity_check_lower_bound; lia).
  split; cbn [queue_ aborted_ set_queues last_replicated_]; try done.
  - apply sorted_app. split_and!; [done|by repeat constructor|].
    intros x y Hx ->%list_elem_of_singleton. pose proof (lower_bound_queue st x HI Hx). lia.
  - intros x Hx. apply Hin in Hx. destruct (queue_ st); [by apply elem_of_nil in Hx|].
    cbn [app tail] in *. apply elem_of_app. by left.
  - apply Forall_app. split; [done|]. constructor; [lia|constructor].
  - apply Forall_app. split; [done|]. constructor; [|constructor].
    change (returned (set_queues _ _ st)) with (returned st). lia.
Qed.

(** A state whose queue is at least as good. *)
Lemma pop_inv st x q k q' a' lr :
  Inv st → queue_ st = x :: q → q = k ++ q' → aborted_ st = k ++ a' →
  (∀ h, h ∈ a' → h ∈ tail q') → lr = last_replicated_ st ∨ lr = x →
  Inv (set_last_replicated lr (set_queues q' a' st)).
Proof.
  intros [Hq Ha Hin Hr Hret Hn] E -> Ea Htl Hlr. rewrite E in Hq, Hr, Hret.
  assert (last_replicated_ st < x) by (by inversion Hr).
  apply StronglySorted_inv in Hq as [Hq Hx]. apply sorted_app in Hq as (_ & Hq & _).
  rewrite Ea in Ha. apply sorted_app in Ha as (_ & Ha & _).
  apply Forall_cons in Hr as [_ Hr]. apply Forall_cons in Hret as [_ Hret].
  rewrite Forall_app in Hr, Hret, Hx.
  split; cbn [queue_ aborted_ set_queues set_last_replicated last_replicated_]; try done.
  - destruct Hlr as [->| ->]; tauto.
  - change (returned (set_last_replicated _ _)) with (returned st). tauto.
  - destruct Hlr as [->| ->]; lia.
Qed.

(** Returning a safe time below the queue. *)
Lemma set_returned_inv w wo f st :
  Inv st →
  Forall (λ h, Z.max (safe_time w) (Z.max (safe_time wo) (safe_time f)) < h) (queue_ st) →
  Inv (set_returned w wo f st).
Proof. by intros [Hq Ha Hin Hr Hret Hn] Hb; split. Qed.

Lemma decremented_lt h : 0 < h → HybridTime.Decremented h = h - 1.
Proof. intros. unfold HybridTime.Decremented. case_test; lia. Qed.

(** A candidate safe time is below the front, hence below the queue. *)
Lemma below_front st x q t :
  Inv st → queue_ st = x :: q → t < x → Forall (λ h, t < h) (queue_ st).
Proof.
  intros [Hq _ _ _ _ _] E Ht. rewrite E in *. apply StronglySorted_inv in Hq as [_ Hx].
  constructor; [done|]. eapply Forall_impl; [exact Hx|]. intros y Hy. simpl in Hy. lia.
Qed.

Lemma candidate_below l now st :
  Inv st → Forall (λ h, safe_time (safe_time_candidate l now st) < h) (queue_ st).
Proof.
  intros HI. destruct (queue_ st) as [|x q] eqn:E; [constructor|]. rewrite <- E.
  eapply below_front; [done|exact E|]. pose proof HI as [_ _ _ Hr Hret Hn].
  rewrite E in Hr, Hret. inversion Hr; inversion Hret; subst. unfold safe_time_candidate. rewrite E.
  rewrite decremented_lt by lia. unfold returned in *.
  repeat case_test; cbn [safe_time] in *; lia.
Qed.

Lemma follower_candidate_below st :
  Inv st → Forall (λ h, safe_time (follower_candidate st) < h) (queue_ st).
Proof.
  intros HI. destruct (queue_ st) as [|x q] eqn:E; [constructor|]. rewrite <- E.
  eapply below_front; [done|exact E|]. pose proof HI as [_ _ _ Hr Hret Hn].
  rewrite E in Hr, Hret. inversion Hr; inversion Hret; subst. unfold follower_candidate. rewrite E.
  rewrite decremented_lt by lia. repeat case_test; cbn [safe_time] in *; lia.
Qed.

(** What a call that asks for a safe time guarantees: the queue is untouched, the
    largest returned safe time does not decrease, and a time it returns (rather
    than the mark of a timeout) is at least [min_allowed], covered by the largest
    returned safe time, and below every operation in the queue. *)
Definition served (m : Z) (r : option Z) (st st' : state) : Prop :=
  Inv st' ∧ queue_ st' = queue_ st ∧ aborted_ st' = aborted_ st ∧
  last_replicated_ st' = last_replicated_ st ∧
  returned st <= returned st' ∧
  match r with
  | None => st' = st
  | Some t => (t = HybridTime.kInvalid ∧ st' = st) ∨
              (m <= t ∧ t <= returned st' ∧ Forall (λ h, t < h) (queue_ st))
  end.

Lemma served_refl m d st :
  Inv st → served m (if d : bool then Some HybridTime.kInvalid else None) st st.
Proof. intros. split_and!; try done. destruct d; [by left|done]. Qed.

Lemma served_result m st t w wo f :
  Inv st → Forall (λ h, t < h) (queue_ st) → m <= t →
  returned st <= Z.max (safe_time w) (Z.max (safe_time wo) (safe_time f)) →
  Z.max (safe_time w) (Z.max (safe_time wo) (safe_time f)) <= Z.max (returned st) t →
  t <= Z.max (safe_time w) (Z.max (safe_time wo) (safe_time f)) →
  served m (Some t) st (set_returned w wo f st).
Proof.
  intros HI Ht Hm Hlo Hhi Htr. pose proof HI as [_ _ _ _ Hret _]. split_and!; try done.
  - apply set_returned_inv; [done|]. rewrite Forall_forall in *. intros h Hh.
    specialize (Ht h Hh). specialize (Hret h Hh). lia.
  - right. split_and!; done.
Qed.

Lemma do_get_served m d l now st r st' :
  Inv st → DoGetSafeTime m d l now st = Ok (r, st') → served m r st st'.
Proof.
  intros HI E. unfold DoGetSafeTime in E. do 2 (case_test_in E; [|done]).
  destruct (negb (m <=? _)) eqn:Em; [injection E as <- <-; by apply served_refl|].
  bool_tests. pose proof (candidate_below l now st HI).
  set (c := safe_time_candidate l now st) in *. clearbody c.
  destruct (lease_empty l); cbn [negb] in E; case_test_in E; try done; injection E as <- <-;
    (apply served_result; unfold returned; [done|done|done|lia..]).
Qed.

Lemma follower_served m d now st r st' :
  Inv st → SafeTimeForFollower m d now st = Ok (r, st') → served m r st st'.
Proof.
  intros HI E. unfold SafeTimeForFollower in E. case_test_in E; [by eapply do_get_served|].
  destruct (negb (m <=? _)) eqn:Em; [injection E as <- <-; by apply served_refl|].
  bool_tests. pose proof (follower_candidate_below st HI).
  set (c := follower_candidate st) in *. clearbody c.
  case_test_in E; [|done]. injection E as <- <-.
  apply served_result; unfold returned; [done|done|done|lia..].
Qed.

Lemma update_propagated_spec l now st st' :
  Inv st → UpdatePropagatedSafeTimeOnLeader l now st = Ok st' →
  Inv st' ∧ queue_ st' = queue_ st ∧ aborted_ st' = aborted_ st ∧ returned st <= returned st'.
Proof.
  intros HI E. unfold UpdatePropagatedSafeTimeOnLeader in E.
  destruct (DoGetSafeTime _ _ l now st) as [[r st1]| | |] eqn:Ed; try done. cbn [obind] in E.
  destruct (do_get_served _ _ _ _ _ _ _ HI Ed) as (HI1 & Hq & Ha & _ & Hret & _).
  destruct r as [t|]; injection E as <-; [|done].
  case_test; [done|]. split_and!; try done. by destruct HI1; split.
Qed.

Lemma replicated_spec ht st st' :
  Inv st → Replicated ht st = Ok st' →
  Inv st' ∧ (∃ q, queue_ st = ht :: q) ∧ last_replicated_ st' = ht ∧ returned st' = returned st ∧
  pending st = ht :: pending st'.
Proof.
  intros HI E. unfold Replicated in E. destruct (queue_ st) as [|x q] eqn:Eq; [done|].
  case_test_in E; [|done]. subst x.
  destruct (PopFront_spec st ht q HI Eq) as (k & q' & a' & Ep & -> & Ea & Htl & Hrem).
  rewrite Ep in E. injection E as <-. split_and!; try done.
  - eapply pop_inv; eauto.
  - by eexists.
  - rewrite (pending_front st ht _ HI Eq). f_equal. by rewrite Hrem.
Qed.

Lemma remaining_push h a q : remaining (push h a) q = filter (λ x, x ≠ h) (remaining a q).
Proof.
  unfold remaining. induction q as [|x q IH]; [done|].
  destruct (decide (x ∈ push h a)) as [Hx|Hx]; rewrite elem_of_push in Hx.
  - rewrite filter_cons_False by (rewrite elem_of_push; tauto).
    destruct (decide (x ∈ a)); [by rewrite (filter_cons_False (λ y, y ∉ a)) by tauto|].
    rewrite (filter_cons_True (λ y, y ∉ a)), filter_cons_False by tauto. done.
  - rewrite filter_cons_True by (rewrite elem_of_push; tauto).
    rewrite (filter_cons_True (λ y, y ∉ a)), filter_cons_True by tauto. by rewrite IH.
Qed.

Lemma aborted_spec ht st st' :
  Inv st → ht ∈ queue_ st → ht ∉ aborted_ st → Aborted ht st = Ok st' →
  Inv st' ∧ last_replicated_ st' = last_replicated_ st ∧ returned st' = returned st ∧
  pending st' = filter (λ h, h ≠ ht) (pending st).
Proof.
  intros HI Hin Hna E. unfold Aborted in E. destruct (queue_ st) as [|x q] eqn:Eq; [done|].
  destruct (Z.eqb_spec x ht) as [->|Hne].
  - destruct (PopFront_spec st ht q HI Eq) as (k & q' & a' & Ep & -> & Ea & Htl & Hrem).
    rewrite Ep in E. injection E as <-. split_and!; try done.
    + change (Inv (set_last_replicated (last_replicated_ st) (set_queues q' a' st))).
      eapply pop_inv; eauto.
    + rewrite (pending_front st ht _ HI Eq), filter_cons_False by tauto. rewrite Hrem.
      change (pending (set_queues q' a' st)) with (remaining a' q'). symmetry. apply filter_all.
      intros y [_ Hy]%list_elem_of_filter ->. destruct HI as [Hq _ _ _ _ _]. rewrite Eq in Hq.
      assert (ht < ht); [|lia]. eapply sorted_cons_lt; [exact Hq|]. apply elem_of_app. by right.
  - injection E as <-. pose proof HI as [Hq Ha Hi Hr Hret Hn]. split_and!; try done.
    + split; cbn [queue_ aborted_ set_queues last_replicated_]; rewrite <- ?Eq; try done.
      * by apply push_sorted.
      * intros h [->|Hh]%elem_of_push; [|by apply Hi].
        rewrite Eq. cbn [tail]. by apply elem_of_cons in Hin as [?|?]; [congruence|].
    + unfold pending. cbn [queue_ aborted_ set_queues]. rewrite Eq.
      fold (remaining (push ht (aborted_ st)) (x :: q)). by rewrite remaining_push.
Qed.

Lemma truncate_effect ht st st1 :
  Inv st → truncate_aborted ht st = Ok st1 →
  Inv st1 ∧ pending st1 = pending st ∧ returned st1 = returned st ∧
  last_replicated_ st1 = last_replicated_ st ∧ propagated_safe_time_ st1 = propagated_safe_time_ st.
Proof.
  intros HI Ht. destruct (truncate_spec _ _ _ HI Ht) as (q' & a' & -> & [E|Hcut]).
  - by rewrite E.
  - split_and!; try done; [by apply cut_inv|]. by apply (cut_pending st q' a').
Qed.

Lemma add_pending_effect ht now st ht' st' :
  Inv st → AddPending ht now st = Ok (ht', st') →
  Inv st' ∧ pending st' = pending st ++ [ht'] ∧ returned st' = returned st ∧ returned st < ht' ∧
  last_replicated_ st' = last_replicated_ st ∧ last_replicated_ st < ht' ∧
  Forall (λ h, h < ht') (pending st).
Proof.
  intros HI E. destruct (add_pending_spec _ _ _ _ _ HI E) as (st1 & Ht & Hlt & -> & _).
  destruct (truncate_effect _ _ _ HI Ht) as (HI1 & Hp & Hr & Hl & _).
  pose proof (lower_bound_returned st1).
  assert (last_replicated_ st1 <= sanity_check_lower_bound st1)
    by (unfold sanity_check_lower_bound; lia).
  assert (∀ h, h ∈ queue_ st1 → h < ht') as Hall.
  { intros h Hh. pose proof (lower_bound_queue st1 h HI1 Hh). lia. }
  split_and!; try lia.
  - by apply push_back_inv.
  - rewrite <- Hp. unfold pending. cbn [queue_ aborted_ set_queues]. rewrite filter_app.
    f_equal. rewrite filter_cons_True; [done|]. intros Hab. destruct HI1 as [_ _ Hin _ _ _].
    apply Hin in Hab. destruct (queue_ st1) as [|x q]; [by apply elem_of_nil in Hab|].
    assert (ht' < ht'); [|lia]. apply Hall. by constructor.
  - by rewrite <- Hr.
  - by rewrite <- Hl.
  - rewrite <- Hp. apply Forall_forall. intros h [_ Hh]%list_elem_of_filter. by apply Hall.
Qed.

(** ** An abstract view

    The operations in flight as one ascending list: what the manager promises to
    the rest of the tablet, without the bookkeeping of aborted operations. *)
Inductive abs_step : op → option Z → list Z → list Z → Prop :=
  | abs_add ht now ht' l :
      (HybridTime.is_valid ht = true → ht' = ht) → Forall (λ h, h < ht') l →
      abs_step (OpAddPending ht now) (Some ht') l (l ++ [ht'])
  | abs_replicated ht l : abs_step (OpReplicated ht) None (ht :: l) l
  | abs_aborted ht l : ht ∈ l →
      abs_step (OpAborted ht) None l (filter (λ h, h ≠ ht) l)
  | abs_safe_time m d L now r l :
      (∀ t, r = Some t → t ≠ HybridTime.kInvalid → m <= t ∧ Forall (λ h, t < h) l) →
      abs_step (OpSafeTime m d L now) r l l
  | abs_follower m d now r l :
      (∀ t, r = Some t → t ≠ HybridTime.kInvalid → m <= t ∧ Forall (λ h, t < h) l) →
      abs_step (OpSafeTimeForFollower m d now) r l l
  | abs_set_last ht l : abs_step (OpSetLastReplicated ht) None l l
  | abs_set_propagated ht l : abs_step (OpSetPropagatedSafeTimeOnFollower ht) None l l
  | abs_update_propagated L now l : abs_step (OpUpdatePropagatedSafeTimeOnLeader L now) None l l
  | abs_leader_only b l : abs_step (OpSetLeaderOnlyMode b) None l l.

Lemma served_abs m r st st' :
  served m r st st' →
  ∀ t, r = Some t → t ≠ HybridTime.kInvalid → m <= t ∧ Forall (λ h, t < h) (pending st).
Proof.
  intros (_ & _ & _ & _ & _ & Hr) t -> Hne. destruct Hr as [[? _]|(Hm & _ & Hq)]; [done|].
  split; [done|]. unfold pending. apply Forall_forall. intros h [_ Hh]%list_elem_of_filter.
  by eapply Forall_forall in Hq.
Qed.

(** The invariant, the abstract step and monotonicity of the returned safe times,
    for every call. *)
Lemma exec_spec o st r st' :
  Inv st → contract o st → exec o st = Ok (r, st') →
  Inv st' ∧ abs_step o r (pending st) (pending st') ∧ returned st <= returned st'.
Proof.
  intros HI Hc E. destruct o as [ht now|ht|ht|ht|ht|l now|b|m d now|m d l now]; cbn [exec] in E.
  - destruct (AddPending ht now st) as [[ht' st1]| | |] eqn:Ea; try done. injection E as <- <-.
    destruct (add_pending_effect _ _ _ _ _ HI Ea) as (HI' & -> & -> & _ & _ & _ & Hall).
    destruct (add_pending_spec _ _ _ _ _ HI Ea) as (_ & _ & _ & _ & Hv).
    split_and!; [done|by constructor|lia].
  - destruct (Replicated ht st) as [st1| | |] eqn:Ea; try done. injection E as <- <-.
    destruct (replicated_spec _ _ _ HI Ea) as (HI' & _ & _ & -> & ->).
    split_and!; [done|by constructor|lia].
  - destruct (Aborted ht st) as [st1| | |] eqn:Ea; try done. injection E as <- <-.
    destruct Hc as [Hin Hna]. destruct (aborted_spec _ _ _ HI Hin Hna Ea) as (HI' & _ & -> & ->).
    split_and!; [done| |lia]. constructor. by apply list_elem_of_filter.
  - injection E as <- <-. split_and!; [|by constructor|done].
    destruct HI as [Hq Ha Hin Hr Hret Hn]. destruct Hc. by split.
  - injection E as <- <-. unfold SetPropagatedSafeTimeOnFollower.
    case_test; (split_and!; [|by constructor|done]); [|done].
    by destruct HI as [Hq Ha Hin Hr Hret Hn]; split.
  - destruct (UpdatePropagatedSafeTimeOnLeader l now st) as [st1| | |] eqn:Ea; try done.
    injection E as <- <-. destruct (update_propagated_spec _ _ _ _ HI Ea) as (HI' & Hq & Ha & Hret).
    split_and!; [done| |done]. unfold pending. rewrite Hq, Ha. constructor.
  - injection E as <- <-. split_and!; [|by constructor|done].
    by destruct HI as [Hq Ha Hin Hr Hret Hn]; split.
  - pose proof (follower_served _ _ _ _ _ _ HI E) as Hs. pose proof (served_abs _ _ _ _ Hs).
    destruct Hs as (HI' & Hq & Ha & _ & Hret & _). split_and!; [done| |done].
    unfold pending at 2. rewrite Hq, Ha. by constructor.
  - pose proof (do_get_served _ _ _ _ _ _ _ HI E) as Hs. pose proof (served_abs _ _ _ _ Hs).
    destruct Hs as (HI' & Hq & Ha & _ & Hret & _). split_and!; [done| |done].
    unfold pending at 2. rewrite Hq, Ha. by constructor.
Qed.

Lemma init_inv : Inv init.
Proof. split; try constructor; try done. Qed.

Lemma steps_inv st st' :
  rtc step st st' → Inv st → Inv st' ∧ returned st <= returned st'.
Proof.
  induction 1 as [st|st st1 st' (o & r & Hc & E) _ IH]; intros HI; [done|].
  destruct (exec_spec o st r st1 HI Hc E) as (HI1 & _ & Hret). destruct (IH HI1). split; [done|lia].
Qed.

Lemma reachable_inv st : reachable st → Inv st.
Proof. intros H. by apply (steps_inv init st H init_inv). Qed.

(** A call that may return a safe time. *)
Definition asks_safe_time (o : op) : Prop :=
  match o with OpSafeTime _ _ _ _ | OpSafeTimeForFollower _ _ _ => True | _ => False end.

Lemma asked o st r st' :
  Inv st → asks_safe_time o → exec o st = Ok (r, st') → ∃ m, served m r st st'.
Proof.
  destruct o; try done; intros HI _ E; cbn [exec] in E;
    [apply follower_served in E|apply do_get_served in E]; eauto.
Qed.

(** *** When nothing fails *)

Lemma replicated_ok st h l :
  Inv st → pending st = h :: l → ∃ st', Replicated h st = Ok st'.
Proof.
  intros HI Hp. destruct (queue_ st) as [|x q] eqn:Eq; [by unfold pending in Hp; rewrite Eq in Hp|].
  pose proof (pending_front st x q HI Eq) as Hf. rewrite Hp in Hf. injection Hf as -> _.
  destruct (PopFront_spec st x q HI Eq) as (k & q' & a' & Ep & _).
  eexists. unfold Replicated. by rewrite Eq, Z.eqb_refl, Ep.
Qed.

Lemma aborted_ok st h : Inv st → h ∈ queue_ st → ∃ st', Aborted h st = Ok st'.
Proof.
  intros HI Hh. unfold Aborted. destruct (queue_ st) as [|x q] eqn:Eq; [by apply elem_of_nil in Hh|].
  destruct (PopFront_spec st x q HI Eq) as (k & q' & a' & Ep & _). rewrite Ep. case_test; eauto.
Qed.

Lemma drop_aborted_tail_all a : drop_aborted_tail a a = Ok ([], []).
Proof. induction a as [|x a IH]; [done|]. cbn [drop_aborted_tail]. by rewrite Z.eqb_refl. Qed.

Lemma lower_bound_app b t a :
  (∀ y, y ∈ b → y < t) → lower_bound (b ++ t :: a) t = (b, t :: a).
Proof.
  induction b as [|x b IH]; intros Hb; cbn [app lower_bound].
  - by rewrite (proj2 (Z.ltb_ge _ _)) by lia.
  - rewrite (proj2 (Z.ltb_lt _ _)) by (apply Hb; constructor).
    rewrite IH; [done|]. intros y Hy. apply Hb. by constructor.
Qed.

(** The truncation is defined when the aborted operations are the tail of the
    queue. *)
Lemma truncate_ok st ht b :
  Inv st → queue_ st = b ++ aborted_ st → ∃ st1, truncate_aborted ht st = Ok st1.
Proof.
  intros [Hq _ _ _ _ _] E. unfold truncate_aborted. destruct (last (queue_ st)) as [back|]; [|eauto].
  destruct (aborted_ st) as [|t a]; [eauto|]. case_test; [|eauto].
  rewrite E in Hq |- *. apply sorted_app in Hq as (_ & _ & Hlt).
  rewrite lower_bound_app by (intros y Hy; apply Hlt; [done|constructor]).
  rewrite bool_decide_false by done. cbn [negb]. rewrite drop_aborted_tail_all. cbn [obind]. eauto.
Qed.

Lemma add_pending_ok st now b :
  Inv st → queue_ st = b ++ aborted_ st → is_u64 now → now < HybridTime.kInvalid →
  (∀ st1, truncate_aborted now st = Ok st1 → sanity_check_lower_bound st1 < HybridTime.kInvalid) →
  ∃ ht' st', AddPending HybridTime.kInvalid now st = Ok (ht', st').
Proof.
  intros HI Eq Hn Hlt Hb. destruct (truncate_ok st now b HI Eq) as [st1 Ht].
  specialize (Hb st1 Ht). unfold AddPending. change (HybridTime.is_valid HybridTime.kInvalid) with false.
  cbv iota zeta. rewrite Ht. cbn [obind negb andb]. destruct (now <=? _) eqn:El; [|by cbn [obind]; eauto].
  change HybridTime.kInvalid with (2 ^ 64 - 2) in *.
  assert (HybridTime.is_valid (sanity_check_lower_bound st1) = true) as ->.
  { unfold HybridTime.is_valid. change HybridTime.kInvalid with (2 ^ 64 - 2).
    by rewrite (proj2 (Z.eqb_neq _ _)) by lia. }
  change HybridTime.kMax with (2 ^ 64 - 1). rewrite (proj2 (Z.eqb_neq _ _)) by lia. cbn [negb andb].
  assert (HybridTime.Incremented (sanity_check_lower_bound st1) =
          sanity_check_lower_bound st1 + 1) as ->.
  { unfold HybridTime.Incremented. change HybridTime.kInvalid with (2 ^ 64 - 2). case_test; lia. }
  rewrite (proj2 (Z.leb_gt _ _)) by lia. cbn [obind]. eauto.
Qed.

(** ** Properties *)

(** C2: safe times are safe.  When a call returns a safe time [t], every operation
    in flight is above [t], and every operation added later, after any calls in
    between, is assigned a hybrid time above [t]. *)
Theorem safe_time_is_safe (st st1 st2 st3 : state) (o : op) (t ht now ht' : Z) :
  reachable st → asks_safe_time o → exec o st = Ok (Some t, st1) → t ≠ HybridTime.kInvalid →
  rtc step st1 st2 → AddPending ht now st2 = Ok (ht', st3) →
  Forall (λ h, t < h) (pending st) ∧ t < ht'.
Proof.
  intros Hr Ho E Hne Hsteps Ha. pose proof (reachable_inv st Hr) as HI.
  destruct (asked o st _ st1 HI Ho E) as (m & Hs). pose proof (served_abs _ _ _ _ Hs t eq_refl Hne).
  destruct Hs as (HI1 & _ & _ & _ & _ & Hcase). split; [tauto|].
  destruct (steps_inv st1 st2 Hsteps HI1) as [HI2 Hmono].
  destruct (add_pending_effect _ _ _ _ _ HI2 Ha) as (_ & _ & _ & Hlt & _).
  destruct Hcase as [[? _]|(_ & Hle & _)]; [done|lia].
Qed.

(** Two operations are added, the first one is aborted, a safe time is asked for
    without a lease, the second one is replicated and a third one is added. *)
Definition sample_before : outcome state :=
  run [OpAddPending HybridTime.kInvalid 100; OpAddPending HybridTime.kInvalid 200;
       OpAborted 100] init.
Definition sample_st : state := match sample_before with Ok st => st | _ => init end.
Definition sample_st1 : state :=
  match exec (OpSafeTime 0 false no_lease 300) sample_st with Ok (_, st) => st | _ => init end.
Definition sample_st2 : state :=
  match Replicated 200 sample_st1 with Ok st => st | _ => init end.

Lemma sample_reachable : reachable sample_st.
Proof.
  eapply rtc_l; [exists (OpAddPending HybridTime.kInvalid 100), (Some 100); split; [done|reflexivity]|].
  eapply rtc_l; [exists (OpAddPending HybridTime.kInvalid 200), (Some 200); split; [done|reflexivity]|].
  eapply rtc_l; [exists (OpAborted 100), None; split; [|reflexivity]|apply rtc_refl].
  split; [constructor|intros []%elem_of_nil].
Qed.

Lemma safe_time_is_safe_witness :
  Forall (λ h, 199 < h) (pending sample_st) ∧ 199 < 301.
Proof.
  apply (safe_time_is_safe sample_st sample_st1 sample_st2
           (set_queues [301] [] sample_st2)
           (OpSafeTime 0 false no_lease 300) 199 HybridTime.kInvalid 301 301).
  - exact sample_reachable.
  - exact I.
  - reflexivity.
  - done.
  - apply rtc_once. exists (OpReplicated 200), None. split; [done|reflexivity].
  - reflexivity.
Defined.

(** C22: refinement.  Every call that returns acts on the operations in flight as
    the abstract machine says: an addition goes to the end above all others, a
    replication takes the first one, an abort removes one from anywhere, and
    nothing else changes them. *)
Theorem mvcc_refines (st st' : state) (o : op) (r : option Z) :
  reachable st → contract o st → exec o st = Ok (r, st') →
  abs_step o r (pending st) (pending st').
Proof.
  intros Hr Hc E. by destruct (exec_spec o st r st' (reachable_inv st Hr) Hc E) as (_ & H & _).
Qed.

Lemma mvcc_refines_witness :
  abs_step (OpReplicated 200) None (pending sample_st)
    (pending (match Replicated 200 sample_st with Ok st => st | _ => init end)).
Proof.
  apply (mvcc_refines sample_st _ (OpReplicated 200) None);
    [exact sample_reachable | exact I | reflexivity].
Defined.

(** No check fails in normal operation.  The first operation in flight can be
    replicated and any operation in the queue aborted without hitting a [CHECK]
    or undefined behaviour, and the leader can add an operation when the aborted
    ones are the tail of the queue, as long as hybrid times are not exhausted. *)
Theorem mvcc_no_failure (st : state) :
  reachable st →
  (∀ h l, pending st = h :: l → ∃ st', Replicated h st = Ok st') ∧
  (∀ h, h ∈ queue_ st → ∃ st', Aborted h st = Ok st') ∧
  (∀ now b, queue_ st = b ++ aborted_ st → is_u64 now → now < HybridTime.kInvalid →
     (∀ st1, truncate_aborted now st = Ok st1 →
        sanity_check_lower_bound st1 < HybridTime.kInvalid) →
     ∃ ht' st', AddPending HybridTime.kInvalid now st = Ok (ht', st')).
Proof.
  intros Hr%reachable_inv. split_and!.
  - intros. by eapply replicated_ok.
  - intros. by eapply aborted_ok.
  - intros. by eapply add_pending_ok.
Qed.

Lemma mvcc_no_failure_witness : ∃ st', Replicated 200 sample_st = Ok st'.
Proof. apply (proj1 (mvcc_no_failure sample_st sample_reachable) 200 []). reflexivity. Defined.

(** When the aborted operation is not at the tail of the queue, adding an
    operation that is not above the back of the queue reads the top of the empty
    priority queue of aborted operations. *)
Theorem add_pending_reads_empty_top :
  ∃ st, reachable st ∧ contract (OpAddPending 25 0) st ∧ AddPending 25 0 st = UB.
Proof.
  exists (match run [OpAddPending 10 0; OpAddPending 20 0; OpAddPending 30 0; OpAborted 20] init
          with Ok st => st | _ => init end).
  split_and!; [|done|reflexivity].
  eapply rtc_l; [exists (OpAddPending 10 0), (Some 10); split; [done|reflexivity]|].
  eapply rtc_l; [exists (OpAddPending 20 0), (Some 20); split; [done|reflexivity]|].
  eapply rtc_l; [exists (OpAddPending 30 0), (Some 30); split; [done|reflexivity]|].
  eapply rtc_l; [exists (OpAborted 20), None; split; [|reflexivity]|apply rtc_refl].
  split; [right; left|intros []%elem_of_nil].
Qed.

End Mvcc.

(** ** With a clock

    A leader takes its times from a clock that keeps the [Clock] laws.  As long as
    everything the manager has seen is below the clock, an operation gets exactly
    the time the clock hands out, a safe time asked for without a lease passes the
    manager's checks, and both leave everything below the clock again. *)
Section Leader.
Context {C : Type} `{Clock C}.
Import Mvcc.

Definition below_clock (c : C) (st : state) : Prop := sanity_check_lower_bound st < floor c.

Lemma truncate_above ht st :
  sanity_check_lower_bound st < ht → truncate_aborted ht st = Ok st.
Proof.
  intros Hlt. unfold truncate_aborted. destruct (last (queue_ st)) as [b|] eqn:El; [|done].
  destruct (aborted_ st); [done|]. unfold sanity_check_lower_bound in Hlt. rewrite El in Hlt.
  cbn [default] in Hlt. unfold default, id in Hlt. by rewrite (proj2 (Z.leb_gt _ _)) by lia.
Qed.

Lemma below_push c h st :
  below_clock c st → h < floor c →
  below_clock c (set_queues (queue_ st ++ [h]) (aborted_ st) st).
Proof.
  unfold below_clock, sanity_check_lower_bound. cbn. rewrite last_snoc. unfold default, id.
  destruct (last (queue_ st)); lia.
Qed.

Lemma no_lease_candidate now st :
  safe_time (safe_time_candidate no_lease now st) =
  Z.max (match queue_ st with [] => now | x :: _ => HybridTime.Decremented x end)
    (last_replicated_ st).
Proof. unfold safe_time_candidate. change (lease_empty no_lease) with true. by destruct (queue_ st). Qed.

Lemma front_below st x q : queue_ st = x :: q → Inv st → x <= sanity_check_lower_bound st.
Proof. intros E HI. apply lower_bound_queue; [done|]. rewrite E. constructor. Qed.

(** Against any clock with the [Clock] laws, a leader whose times are below the
    clock assigns the clock's time as it is, and a request for a safe time without
    a lease returns a time, without any check failing; both keep the manager below
    the clock. *)
Theorem leader_follows_clock (c c' : C) (t : Z) (st : state) :
  clock_ok c → Mvcc.reachable st → below_clock c st → Now c t c' → t ≠ HybridTime.kInvalid →
  (∃ st', AddPending HybridTime.kInvalid t st = Ok (t, st') ∧ below_clock c' st') ∧
  (∃ r st', SafeTime HybridTime.kMin false no_lease t st = Ok (Some r, st') ∧ r < floor c' ∧
     below_clock c' st').
Proof.
  intros Hok Hr%reachable_inv Hb HN Hne. destruct (Now_ok c t c' Hok HN) as [_ Ht].
  unfold below_clock in *. split.
  - exists (set_queues (queue_ st ++ [t]) (aborted_ st) st). split.
    + unfold AddPending. change (HybridTime.is_valid HybridTime.kInvalid) with false. cbv iota zeta.
      rewrite truncate_above by lia. cbn [obind]. by rewrite (proj2 (Z.leb_gt _ _)) by lia.
    + apply below_push; unfold below_clock; lia.
  - set (r := safe_time (safe_time_candidate no_lease t st)).
    assert (safe_time (max_safe_time_returned_without_lease_ st) <= r < floor c') as Hrr.
    { unfold r. rewrite no_lease_candidate. pose proof (lower_bound_returned st) as Hlr.
      assert (last_replicated_ st <= sanity_check_lower_bound st)
        by (unfold sanity_check_lower_bound; lia).
      unfold returned in Hlr. destruct (queue_ st) as [|x q] eqn:E; [lia|].
      pose proof (front_below st x q E Hr). destruct Hr as [_ _ _ Hrep Hret Hn].
      rewrite E in Hrep, Hret. inversion Hrep; inversion Hret; subst. unfold returned in *.
      rewrite decremented_lt; lia. }
    assert (HybridTime.kMin <= r) as Hm.
    { unfold r. rewrite no_lease_candidate. destruct Hr as [_ _ _ _ _ Hn]. unfold HybridTime.kMin. lia. }
    eexists r, _. split_and!.
    + unfold SafeTime, DoGetSafeTime. change (HybridTime.is_valid (lease no_lease)) with true.
      change (HybridTime.kMin <=? lease no_lease) with true. fold r.
      rewrite (proj2 (Z.leb_le HybridTime.kMin r)) by done. cbn [negb].
      change (lease_empty no_lease) with true. cbn [negb].
      rewrite (proj2 (Z.leb_le (safe_time (max_safe_time_returned_without_lease_ st)) r)) by lia.
      reflexivity.
    + lia.
    + unfold sanity_check_lower_bound in *.
      cbn [queue_ set_returned propagated_safe_time_ last_replicated_
           max_safe_time_returned_with_lease_ max_safe_time_returned_without_lease_
           max_safe_time_returned_for_follower_]. fold r. lia.
Qed.

End Leader.

(** The hybrid clock in the middle of a race, just before a thread gets its time. *)
Definition clock_before : HybridClock.system :=
  match HybridClock.run HybridClock.sample_flags HybridClock.init (take 7 HybridClock.race) with
  | Ok s => s | _ => HybridClock.init end.

Lemma leader_follows_clock_witness :
  ∃ st', Mvcc.AddPending HybridTime.kInvalid (70 * 4096 + 1) Mvcc.init = Ok (70 * 4096 + 1, st').
Proof.
  destruct (leader_follows_clock (H := HybridClock_Clock HybridClock.sample_flags)
              clock_before HybridClock.race_end (70 * 4096 + 1) Mvcc.init)
    as [(st' & E & _) _].
  - apply (HybridClock.run_reachable _ HybridClock.init (take 7 HybridClock.race));
      [apply HybridClock.reachable_init | vm_compute; repeat split; done | reflexivity].
  - apply rtc_refl.
  - vm_compute. done.
  - exists 2%nat, (HybridClock.Proceed false), 15. repeat split; done.
  - done.
  - by exists st'.
Defined.
