(* ===== verification/RaftConfig.v ===== *)
(** * Raft configurations and consensus metadata

    Models util/opid.h and consensus/opid_util.cc in [Module OpId],
    consensus/quorum_util.cc (with the messages of consensus/metadata.proto) in
    [Module QuorumUtil], and the in-memory state of consensus/consensus_meta.cc in
    [Module ConsensusMetadata].  Uuids are byte strings; the unset optional fields
    of a message are [None] and read as their default. *)

From S2P Require Import Prelude.

(** ** Operation ids *)

Module OpId.

Record t := mk { term : Z; index : Z }.
#[export] Instance t_eq_dec : EqDecision t.
Proof. solve_decision. Defined.

Definition kUnknownTerm : Z := -1.
Definition Invalid : t := mk kUnknownTerm (-1).
Definition Min : t := mk 0 0.
Definition Max : t := mk (2 ^ 63 - 1) (2 ^ 63 - 1).

Definition valid (o : t) : bool := (0 <=? term o) && (0 <=? index o).
Definition empty (o : t) : bool := (term o =? 0) && (index o =? 0).

Definition operator_lt (lhs rhs : t) : bool :=
  (term lhs <? term rhs) || ((term lhs =? term rhs) && (index lhs <? index rhs)).

Definition MakeAtLeast (o rhs : t) : t :=
  if empty rhs then o
  else if empty o then rhs
  else if (term o <? term rhs) || ((term rhs =? term o) && (index o <? index rhs)) then rhs
  else o.

Definition MakeAtMost (o rhs : t) : t :=
  if empty rhs then o
  else if empty o then rhs
  else if (term rhs <? term o) || ((term rhs =? term o) && (index rhs <? index o)) then rhs
  else o.

Definition OpIdCompare (first second : t) : Z :=
  if term first =? term second then
    if index first <? index second then -1 else if index first =? index second then 0 else 1
  else if term first <? term second then -1 else 1.

Definition OpIdLessThan (left right : t) : bool :=
  if term left <? term right then true
  else if term right <? term left then false
  else index left <? index right.

Definition OpIdBiggerThan (left right : t) : bool :=
  if term right <? term left then true
  else if term left <? term right then false
  else index right <? index left.

(** An id that is not initialized is [None]. *)
Definition CopyIfOpIdLessThan (to_compare target : option t) : bool * option t :=
  match to_compare, target with
  | Some c, None => (true, Some c)
  | Some c, Some o => if OpIdLessThan c o then (true, Some c) else (false, target)
  | None, _ => (false, target)
  end.

(** The comparisons agree with the order of terms, then indexes. *)
Lemma comparisons_agree a b :
  OpIdLessThan a b = operator_lt a b ∧ OpIdBiggerThan a b = operator_lt b a ∧
  OpIdCompare a b = (if operator_lt a b then -1 else if operator_lt b a then 1 else 0).
Proof.
  destruct a as [ta ia], b as [tb ib]. unfold OpIdLessThan, OpIdBiggerThan, OpIdCompare, operator_lt. cbn.
  destruct (Z.ltb_spec ta tb), (Z.ltb_spec tb ta), (Z.eqb_spec ta tb), (Z.eqb_spec tb ta),
    (Z.ltb_spec ia ib), (Z.ltb_spec ib ia), (Z.eqb_spec ia ib); try lia; cbn; done.
Qed.

End OpId.

(** ** Configurations *)

Module QuorumUtil.

Inductive Role := FOLLOWER | LEADER | LEARNER | NON_PARTICIPANT | READ_REPLICA | UNKNOWN_ROLE.
Inductive MemberType := UNKNOWN_MEMBER_TYPE | PRE_VOTER | VOTER | PRE_OBSERVER | OBSERVER.

#[export] Instance Role_eq_dec : EqDecision Role.
Proof. solve_decision. Defined.
#[export] Instance MemberType_eq_dec : EqDecision MemberType.
Proof. solve_decision. Defined.

Record HostPortPB := { host : bytes; port : Z }.
#[export] Instance HostPortPB_eq_dec : EqDecision HostPortPB.
Proof. solve_decision. Defined.

Record RaftPeerPB := Peer {
  permanent_uuid_ : option bytes;
  member_type_ : option MemberType;
  last_known_private_addr : list HostPortPB;
  last_known_broadcast_addr : list HostPortPB;
}.
#[export] Instance RaftPeerPB_eq_dec : EqDecision RaftPeerPB.
Proof. solve_decision. Defined.

Record RaftConfigPB := Config { opid_index : option Z; peers : list RaftPeerPB }.
#[export] Instance RaftConfigPB_eq_dec : EqDecision RaftConfigPB.
Proof. solve_decision. Defined.

Record ConsensusStatePB := CState {
  current_term : option Z;
  leader_uuid_ : option bytes;
  config : option RaftConfigPB;
}.

(** Accessors of optional fields. *)
Definition permanent_uuid (p : RaftPeerPB) : bytes := default [] (permanent_uuid_ p).
Definition member_type (p : RaftPeerPB) : MemberType := default UNKNOWN_MEMBER_TYPE (member_type_ p).
Definition leader_uuid (c : ConsensusStatePB) : bytes := default [] (leader_uuid_ c).
Definition cstate_config (c : ConsensusStatePB) : RaftConfigPB := default (Config None []) (config c).

(** [for (peer : config.peers()) if (peer.permanent_uuid() == uuid) ...]. *)
Fixpoint find_peer (uuid : bytes) (l : list RaftPeerPB) : option RaftPeerPB :=
  match l with
  | [] => None
  | p :: l => if bool_decide (permanent_uuid p = uuid) then Some p else find_peer uuid l
  end.

Definition IsRaftConfigMember (uuid : bytes) (c : RaftConfigPB) : bool :=
  match find_peer uuid (peers c) with Some _ => true | None => false end.

Definition IsRaftConfigVoter (uuid : bytes) (c : RaftConfigPB) : bool :=
  match find_peer uuid (peers c) with Some p => bool_decide (member_type p = VOTER) | None => false end.

Definition GetRaftConfigMember (c : RaftConfigPB) (uuid : bytes) : outcome RaftPeerPB :=
  match find_peer uuid (peers c) with Some p => Ok p | None => Err NotFound end.

Definition GetRaftConfigLeader (c : ConsensusStatePB) : outcome RaftPeerPB :=
  match leader_uuid_ c with
  | None | Some [] => Err NotFound
  | Some uuid => GetRaftConfigMember (cstate_config c) uuid
  end.

Definition HasHostPortPB (l : list HostPortPB) (hp : HostPortPB) : bool :=
  existsb (λ i, bool_decide (host i = host hp ∧ port i = port hp)) l.

(** What [RemoveFromRaftConfig] reads of the request. *)
Record ChangeConfigRequestPB := { use_host : option bool; server : RaftPeerPB }.

Definition remove_matches (req : ChangeConfigRequestPB) (hp : option HostPortPB) (p : RaftPeerPB) : bool :=
  match hp with
  | Some hp => HasHostPortPB (last_known_private_addr p) hp || HasHostPortPB (last_known_broadcast_addr p) hp
  | None => bool_decide (permanent_uuid p = permanent_uuid (server req))
  end.

(** The loop over the peers: the kept ones and whether one was removed. *)
Fixpoint remove_peers (req : ChangeConfigRequestPB) (hp : option HostPortPB) (l : list RaftPeerPB)
    : list RaftPeerPB * bool :=
  match l with
  | [] => ([], false)
  | p :: l =>
      let '(kept, removed) := remove_peers req hp l in
      if remove_matches req hp p then (kept, true) else (p :: kept, removed)
  end.

Definition RemoveFromRaftConfig (c : RaftConfigPB) (req : ChangeConfigRequestPB) : bool * RaftConfigPB :=
  let run hp :=
    let '(kept, removed) := remove_peers req hp (peers c) in
    if removed then (true, Config (opid_index c) kept) else (false, c) in
  if default false (use_host req) then
    match last_known_private_addr (server req) with
    | [hp] => run (Some hp)
    | _ => (false, c)
    end
  else run None.

Definition CountMemberType (c : RaftConfigPB) (ty : MemberType) (ignore_uuid : bytes) : Z :=
  Z.of_nat (length (filter (λ p, member_type p = ty ∧ permanent_uuid p ≠ ignore_uuid) (peers c))).

Definition CountVoters (c : RaftConfigPB) : Z := CountMemberType c VOTER [].
Definition CountVotersInTransition (c : RaftConfigPB) : Z := CountMemberType c PRE_VOTER [].
Definition CountServersInTransition (c : RaftConfigPB) (ignore_uuid : bytes) : Z :=
  CountMemberType c PRE_VOTER ignore_uuid + CountMemberType c PRE_OBSERVER ignore_uuid.

Definition MajoritySize (num_voters : Z) : Z := Z.quot num_voters 2 + 1.

Definition GetConsensusMemberType (uuid : bytes) (c : ConsensusStatePB) : MemberType :=
  match find_peer uuid (peers (cstate_config c)) with
  | Some p => member_type p
  | None => UNKNOWN_MEMBER_TYPE
  end.

Definition GetConsensusRole (uuid : bytes) (c : ConsensusStatePB) : Role :=
  if bool_decide (leader_uuid c = uuid) then
    if IsRaftConfigVoter uuid (cstate_config c) then LEADER else NON_PARTICIPANT
  else
    match find_peer uuid (peers (cstate_config c)) with
    | Some p =>
        match member_type p with
        | VOTER => FOLLOWER
        | PRE_VOTER | PRE_OBSERVER => LEARNER
        | OBSERVER => READ_REPLICA
        | UNKNOWN_MEMBER_TYPE => UNKNOWN_ROLE
        end
    | None => NON_PARTICIPANT
    end.

Inductive RaftConfigState := UNCOMMITTED_QUORUM | COMMITTED_QUORUM.

(** The loop of [VerifyRaftConfig]. *)
Fixpoint verify_peers (num_peers : nat) (uuids : list bytes) (l : list RaftPeerPB) : outcome () :=
  match l with
  | [] => Ok ()
  | p :: l =>
      if bool_decide (permanent_uuid p = []) then Err IllegalState
      else if bool_decide (permanent_uuid p ∈ uuids) then Err IllegalState
      else if bool_decide (1 < num_peers)%nat && bool_decide (last_known_private_addr p = [])
      then Err IllegalState
      else if bool_decide (member_type_ p = None) then Err IllegalState
      else verify_peers num_peers (permanent_uuid p :: uuids) l
  end.

Definition VerifyRaftConfig (c : RaftConfigPB) (type : RaftConfigState) : outcome () :=
  if bool_decide (peers c = []) then Err IllegalState
  else
    match type, opid_index c with
    | COMMITTED_QUORUM, None => Err IllegalState
    | UNCOMMITTED_QUORUM, Some _ => Err IllegalState
    | _, _ => verify_peers (length (peers c)) [] (peers c)
    end.

Definition VerifyConsensusState (c : ConsensusStatePB) (type : RaftConfigState) : outcome () :=
  match current_term c, config c with
  | None, _ => Err IllegalState
  | _, None => Err IllegalState
  | Some _, Some cfg =>
      let! _ := VerifyRaftConfig cfg type in
      if bool_decide (leader_uuid c ≠ []) && negb (IsRaftConfigVoter (leader_uuid c) cfg)
      then Err IllegalState else Ok ()
  end.

End QuorumUtil.

(** ** Consensus metadata *)

Module ConsensusMetadata.
Import QuorumUtil.

(** [ConsensusMetadataPB], the part kept on disk. *)
Record ConsensusMetadataPB := PB {
  committed_config_ : option RaftConfigPB;
  current_term_ : option Z;
  voted_for_ : option bytes;
}.
#[export] Instance ConsensusMetadataPB_eq_dec : EqDecision ConsensusMetadataPB.
Proof. solve_decision. Defined.

Record t := mk {
  peer_uuid_ : bytes;
  pb_ : ConsensusMetadataPB;
  pending_config_ : option RaftConfigPB;
  leader_uuid_ : bytes;
  active_role_ : Role;
  role_and_term_cache_ : Z;
}.

Definition kBitsPerPackedRole : Z := 3.

Definition role_code (r : Role) : Z :=
  match r with
  | FOLLOWER => 0 | LEADER => 1 | LEARNER => 2 | NON_PARTICIPANT => 3 | READ_REPLICA => 4 | UNKNOWN_ROLE => 7
  end.

Definition PackRoleAndTerm (role : Role) (term : Z) : outcome Z :=
  check! u64 term <? Z.shiftl 1 (64 - kBitsPerPackedRole) in
  Ok (Z.lor (role_code role) (u64 (Z.shiftl term kBitsPerPackedRole))).

Definition UnpackTerm (v : Z) : Z := Z.shiftr v kBitsPerPackedRole.

Definition UnpackRole (v : Z) : option Role :=
  let c := Z.land v (Z.shiftl 1 kBitsPerPackedRole - 1) in
  find (λ r, role_code r =? c) [FOLLOWER; LEADER; LEARNER; NON_PARTICIPANT; READ_REPLICA; UNKNOWN_ROLE].

Definition current_term (m : t) : Z := default 0 (current_term_ (pb_ m)).
Definition has_voted_for (m : t) : bool := bool_decide (voted_for_ (pb_ m) ≠ None).
Definition voted_for (m : t) : bytes := default [] (voted_for_ (pb_ m)).
Definition committed_config (m : t) : RaftConfigPB := default (Config None []) (committed_config_ (pb_ m)).
Definition has_pending_config (m : t) : bool := bool_decide (pending_config_ m ≠ None).
Definition pending_config (m : t) : RaftConfigPB := default (Config None []) (pending_config_ m).
Definition active_config (m : t) : RaftConfigPB :=
  if has_pending_config m then pending_config m else committed_config m.

(** [ToConsensusStatePB] for the active and for the committed configuration. *)
Definition ToConsensusStatePB (active : bool) (m : t) : ConsensusStatePB :=
  if active then CState (Some (current_term m)) (Some (leader_uuid_ m)) (Some (active_config m))
  else
    CState (Some (current_term m))
      (if IsRaftConfigVoter (leader_uuid_ m) (committed_config m) then Some (leader_uuid_ m) else None)
      (Some (committed_config m)).

Definition UpdateRoleAndTermCache (m : t) : outcome t :=
  let! v := PackRoleAndTerm (active_role_ m) (current_term m) in
  Ok (mk (peer_uuid_ m) (pb_ m) (pending_config_ m) (leader_uuid_ m) (active_role_ m) v).

Definition UpdateActiveRole (m : t) : outcome t :=
  UpdateRoleAndTermCache
    (mk (peer_uuid_ m) (pb_ m) (pending_config_ m) (leader_uuid_ m)
       (GetConsensusRole (peer_uuid_ m) (ToConsensusStatePB true m)) (role_and_term_cache_ m)).

Definition with_pb (m : t) (pb : ConsensusMetadataPB) : t :=
  mk (peer_uuid_ m) pb (pending_config_ m) (leader_uuid_ m) (active_role_ m) (role_and_term_cache_ m).

Definition set_current_term (m : t) (term : Z) : outcome t :=
  UpdateRoleAndTermCache (with_pb m (PB (committed_config_ (pb_ m)) (Some term) (voted_for_ (pb_ m)))).

Definition clear_voted_for (m : t) : t :=
  with_pb m (PB (committed_config_ (pb_ m)) (current_term_ (pb_ m)) None).

Definition set_voted_for (m : t) (uuid : bytes) : t :=
  with_pb m (PB (committed_config_ (pb_ m)) (current_term_ (pb_ m)) (Some uuid)).

Definition set_committed_config (m : t) (c : RaftConfigPB) : outcome t :=
  let m := with_pb m (PB (Some c) (current_term_ (pb_ m)) (voted_for_ (pb_ m))) in
  if has_pending_config m then Ok m else UpdateActiveRole m.

Definition set_pending (m : t) (c : option RaftConfigPB) : t :=
  mk (peer_uuid_ m) (pb_ m) c (leader_uuid_ m) (active_role_ m) (role_and_term_cache_ m).

Definition clear_pending_config (m : t) : outcome t := UpdateActiveRole (set_pending m None).
Definition set_pending_config (m : t) (c : RaftConfigPB) : outcome t := UpdateActiveRole (set_pending m (Some c)).

Definition set_leader_uuid (m : t) (uuid : bytes) : outcome t :=
  UpdateActiveRole
    (mk (peer_uuid_ m) (pb_ m) (pending_config_ m) uuid (active_role_ m) (role_and_term_cache_ m)).

Definition clear_leader_uuid (m : t) : outcome t := set_leader_uuid m [].

Definition MergeCommittedConsensusStatePB (m : t) (committed_cstate : ConsensusStatePB) : outcome t :=
  let term := default 0 (QuorumUtil.current_term committed_cstate) in
  let! m := if current_term m <? term then
      let! m := set_current_term m term in Ok (clear_voted_for m)
    else Ok m in
  let! m := set_leader_uuid m [] in
  let! m := set_committed_config m (cstate_config committed_cstate) in
  clear_pending_config m.

(** The constructor. *)
Definition new (peer_uuid : bytes) : outcome t :=
  UpdateRoleAndTermCache (mk peer_uuid (PB None None None) None [] UNKNOWN_ROLE 0).

(** [Create] before the flush. *)
Definition Create (peer_uuid : bytes) (c : RaftConfigPB) (term : Z) : outcome t :=
  let! m := new peer_uuid in
  let! m := set_committed_config m c in
  set_current_term m term.

(** [Load] of a message read from disk. *)
Definition Load (peer_uuid : bytes) (pb : ConsensusMetadataPB) : outcome t :=
  let! m := new peer_uuid in
  UpdateActiveRole (with_pb m pb).

Definition GetRoleAndTerm (m : t) : option Role * Z :=
  (UnpackRole (role_and_term_cache_ m), UnpackTerm (role_and_term_cache_ m)).

End ConsensusMetadata.

(** ** Facts about configurations *)

Module QuorumFacts.
Import QuorumUtil.

Definition uuids (c : RaftConfigPB) : list bytes := permanent_uuid <$> peers c.
Definition voters (c : RaftConfigPB) : list bytes :=
  permanent_uuid <$> filter (λ p, member_type p = VOTER) (peers c).

(** What [VerifyRaftConfig] promises. *)
Record config_ok (c : RaftConfigPB) : Prop := {
  config_nonempty : peers c ≠ [];
  config_nodup : NoDup (uuids c);
  config_uuids : [] ∉ uuids c;
  config_types p : p ∈ peers c → member_type_ p ≠ None;
  config_addresses p : (1 < length (peers c))%nat → p ∈ peers c → last_known_private_addr p ≠ [];
}.

Lemma verify_peers_spec n seen l :
  verify_peers n seen l = Ok () ↔
  NoDup (permanent_uuid <$> l) ∧ (∀ u : bytes, u ∈ (permanent_uuid <$> l) → (u ∉ seen) ∧ u ≠ []) ∧
  (∀ p, p ∈ l → member_type_ p ≠ None ∧ ((1 < n)%nat → last_known_private_addr p ≠ [])).
Proof.
  revert seen. induction l as [|p l IH]; intros seen; cbn [verify_peers fmap list_fmap].
  { split; [|done]. intros _. split_and!; [constructor|by intros ? ?%not_elem_of_nil..]. }
  rewrite NoDup_cons. setoid_rewrite elem_of_cons.
  case_bool_decide as H1.
  { split; [done|]. intros (_ & Hu & _). by destruct (Hu (permanent_uuid p)); [left|]. }
  case_bool_decide as H2.
  { split; [done|]. intros (_ & Hu & _). by destruct (Hu (permanent_uuid p)); [left|]. }
  destruct (bool_decide (1 < n)%nat && _) eqn:E.
  { bool_tests. split; [done|]. intros (_ & _ & Hp). destruct (Hp p) as [_ Ha]; [by left|]. by destruct Ha. }
  assert ((1 < n)%nat → last_known_private_addr p ≠ []) as Ha.
  { intros ?. apply andb_false_iff in E as [E|E]; by apply bool_decide_eq_false in E. }
  clear E. case_bool_decide as H4.
  { split; [done|]. intros (_ & _ & Hp). by destruct (Hp p); [left|]. }
  rewrite IH. clear IH. split.
  - intros (Hn & Hu & Hp). split_and!; [|done| |].
    + intros Hin. by apply Hu in Hin as [[? _]%not_elem_of_cons _].
    + intros u [->|Hin]; [done|]. by destruct (Hu u Hin) as [[_ ?]%not_elem_of_cons ?].
    + intros q [->|Hin]; [done|by apply Hp].
  - intros ((Hno & Hn) & Hu & Hp). split_and!; [done| |].
    + intros u Hin. destruct (Hu u); [by right|]. split; [|done]. apply not_elem_of_cons.
      split; [|done]. by intros ->.
    + intros q Hin. apply Hp. by right.
Qed.

Lemma verify_config_spec c type :
  VerifyRaftConfig c type = Ok () ↔
  config_ok c ∧ (type = COMMITTED_QUORUM ↔ opid_index c ≠ None).
Proof.
  unfold VerifyRaftConfig. case_bool_decide as Hnil.
  { split; [done|]. intros [[] _]. done. }
  destruct type, (opid_index c); try (split; [done|]; intros [_ [? ?]]; naive_solver);
    rewrite verify_peers_spec; (split; [intros (H1 & H2 & H3)|intros [[? ? ? ? ?] _]]).
  all: try (split; [|by split]; split; [done|done| | |]; [intros Hin; by apply H2 in Hin as [_ ?]|intros p Hp; by apply H3|intros p ? Hp; by apply H3]).
  all: split_and!; [done| |]; [|by auto]; intros u Hu; (split; [by apply not_elem_of_nil|by intros ->]).
Qed.

Lemma find_peer_Some uuid l p : find_peer uuid l = Some p → p ∈ l ∧ permanent_uuid p = uuid.
Proof.
  induction l as [|q l IH]; cbn [find_peer]; [done|]. case_bool_decide.
  - intros [= <-]. split; [left|done].
  - intros Hf. destruct (IH Hf). split; [by right|done].
Qed.

Lemma find_peer_None uuid l : find_peer uuid l = None ↔ uuid ∉ (permanent_uuid <$> l).
Proof.
  induction l as [|q l IH]; cbn [find_peer fmap list_fmap]; [split; [by intros _ ?%not_elem_of_nil|done]|].
  rewrite not_elem_of_cons. case_bool_decide; naive_solver.
Qed.

Lemma member_spec uuid c : IsRaftConfigMember uuid c = true ↔ uuid ∈ uuids c.
Proof.
  unfold IsRaftConfigMember, uuids. destruct (find_peer uuid (peers c)) as [p|] eqn:E.
  - split; [|done]. intros _. apply find_peer_Some in E as [Hp <-]. by apply list_elem_of_fmap_2.
  - apply find_peer_None in E. by split.
Qed.

Lemma voters_nodup c : config_ok c → NoDup (voters c).
Proof.
  intros [_ Hn _ _ _]. unfold voters, uuids in *. induction (peers c) as [|p l IH]; [constructor|].
  rewrite filter_cons. apply NoDup_cons in Hn as [Hp Hn]. case_decide; [|by apply IH].
  cbn. constructor; [|by apply IH]. intros (q & Hq & Hin)%list_elem_of_fmap. apply Hp.
  apply list_elem_of_filter in Hin as [_ Hin]. rewrite Hq. by apply list_elem_of_fmap_2.
Qed.

Lemma voter_spec uuid c : config_ok c → IsRaftConfigVoter uuid c = true ↔ uuid ∈ voters c.
Proof.
  intros [_ Hn _ _ _]. unfold IsRaftConfigVoter, voters, uuids in *.
  induction (peers c) as [|p l IH]; cbn [find_peer]; [split; [done|by intros ?%not_elem_of_nil]|].
  apply NoDup_cons in Hn as [Hp Hn]. rewrite filter_cons.
  assert (permanent_uuid p ∉ (permanent_uuid <$> filter (λ p, member_type p = VOTER) l)) as Hno.
  { intros (q & Hq & [_ Hin]%list_elem_of_filter)%list_elem_of_fmap. apply Hp. rewrite Hq.
    by apply list_elem_of_fmap_2. }
  case_bool_decide as Hu.
  - subst. rewrite bool_decide_eq_true. case_decide; cbn; [|naive_solver]. split; [left|done].
  - rewrite IH by done. case_decide; cbn; [|done]. rewrite elem_of_cons. naive_solver.
Qed.

Lemma count_voters c : config_ok c → CountVoters c = Z.of_nat (length (voters c)).
Proof.
  intros [_ _ Hu _ _]. unfold CountVoters, CountMemberType, voters, uuids in *. rewrite length_fmap.
  f_equal. f_equal. apply filter_ext_in. intros p Hp. split; [tauto|]. intros Ht. split; [done|].
  intros E. apply Hu. rewrite <- E. by apply list_elem_of_fmap_2.
Qed.

(** Two majorities of the same voters have a voter in common. *)
Lemma majorities_intersect c (s s' : list bytes) :
  config_ok c → NoDup s → NoDup s' → (∀ u, u ∈ s → u ∈ voters c) → (∀ u, u ∈ s' → u ∈ voters c) →
  MajoritySize (CountVoters c) <= Z.of_nat (length s) →
  MajoritySize (CountVoters c) <= Z.of_nat (length s') → ∃ u, u ∈ s ∧ u ∈ s'.
Proof.
  intros Hc Hn Hn' Hs Hs' Hl Hl'. unfold MajoritySize in *. rewrite (count_voters c Hc) in *.
  destruct (decide (Exists (λ u, u ∈ s') s)) as [He|Hno]; [by apply Exists_exists|]. exfalso.
  assert (NoDup (s ++ s')) as Happ.
  { apply NoDup_app. split_and!; [done| |done]. intros u H1 H2. apply Hno, Exists_exists. by exists u. }
  assert (length (s ++ s') ≤ length (voters c))%nat as Hlen.
  2:{ rewrite length_app in Hlen. Z.to_euclidean_division_equations. lia. }
  apply submseteq_length, NoDup_submseteq; [done|]. intros u [?|?]%elem_of_app; auto.
Qed.

(** The peers [RemoveFromRaftConfig] keeps. *)
Lemma remove_peers_spec req hp l :
  remove_peers req hp l =
  (filter (λ p, remove_matches req hp p = false) l, existsb (remove_matches req hp) l).
Proof.
  induction l as [|p l IH]; [done|]. cbn [remove_peers existsb]. rewrite IH, filter_cons.
  destruct (remove_matches req hp p) eqn:E; cbn; by rewrite ?decide_True, ?decide_False by congruence.
Qed.

End QuorumFacts.

(** ** The role cache *)

Module RoleCache.
Import QuorumUtil ConsensusMetadata.

(** The operations on the metadata. *)
Inductive op :=
  | SetCurrentTerm (term : Z)
  | ClearVotedFor
  | SetVotedFor (uuid : bytes)
  | SetCommittedConfig (c : RaftConfigPB)
  | ClearPendingConfig
  | SetPendingConfig (c : RaftConfigPB)
  | SetLeaderUuid (uuid : bytes)
  | MergeCommitted (c : ConsensusStatePB).

Definition exec (m : t) (o : op) : outcome t :=
  match o with
  | SetCurrentTerm term => set_current_term m term
  | ClearVotedFor => Ok (clear_voted_for m)
  | SetVotedFor uuid => Ok (set_voted_for m uuid)
  | SetCommittedConfig c => set_committed_config m c
  | ClearPendingConfig => clear_pending_config m
  | SetPendingConfig c => set_pending_config m c
  | SetLeaderUuid uuid => set_leader_uuid m uuid
  | MergeCommitted c => MergeCommittedConsensusStatePB m c
  end.

Fixpoint exec_all (m : t) (l : list op) : outcome t :=
  match l with [] => Ok m | o :: l => let! m := exec m o in exec_all m l end.

(** The role follows from the configuration and the leader, and the packed word
    holds the role and the term. *)
Record consistent (m : t) : Prop := {
  role_ok : active_role_ m = GetConsensusRole (peer_uuid_ m) (ToConsensusStatePB true m);
  cache_ok : GetRoleAndTerm m = (Some (active_role_ m), current_term m);
}.

Lemma pack_unpack role term v :
  is_i64 term → PackRoleAndTerm role term = Ok v →
  0 <= term < 2 ^ 61 ∧ UnpackRole v = Some role ∧ UnpackTerm v = term.
Proof.
  intros Ht. unfold PackRoleAndTerm. case_test; [|done]. intros [= <-].
  change (Z.shiftl 1 (64 - kBitsPerPackedRole)) with (2 ^ 61) in *.
  assert (0 <= term < 2 ^ 61) as Hr by (unfold u64, is_i64 in *; Z.to_euclidean_division_equations; lia).
  split; [done|]. unfold UnpackTerm, UnpackRole, kBitsPerPackedRole.
  rewrite (u64_small (Z.shiftl term 3)) by (unfold is_u64; rewrite Z.shiftl_mul_pow2; lia).
  change (Z.shiftl 1 3 - 1) with (Z.ones 3).
  assert (0 <= role_code role < 2 ^ 3) as Hc by by destruct role.
  rewrite Z.land_lor_distr_l, Z.shiftr_lor, (Z.land_ones (Z.shiftl term 3)) by done.
  rewrite Z.shiftl_mul_pow2, Z_mod_mult by done. rewrite Z.lor_0_r, Z.land_ones, Z.mod_small by done.
  split; [by destruct role|].
  rewrite (Z.shiftr_div_pow2 (role_code role)), Z.div_small by done.
  rewrite Z.shiftr_div_pow2 by done. by rewrite Z.div_mul.
Qed.

Lemma update_cache_ok m m' :
  is_i64 (current_term m) → UpdateRoleAndTermCache m = Ok m' →
  GetRoleAndTerm m' = (Some (active_role_ m'), current_term m') ∧
  peer_uuid_ m' = peer_uuid_ m ∧ pb_ m' = pb_ m ∧ pending_config_ m' = pending_config_ m ∧
  leader_uuid_ m' = leader_uuid_ m ∧ active_role_ m' = active_role_ m.
Proof.
  unfold UpdateRoleAndTermCache. intros Ht.
  destruct (PackRoleAndTerm _ _) as [v| | |] eqn:E; [|done..]. cbn. intros [= <-].
  apply pack_unpack in E as (_ & E1 & E2); [|done]. unfold GetRoleAndTerm. cbn [role_and_term_cache_]. by rewrite E1, E2.
Qed.

Lemma role_depends m m' :
  peer_uuid_ m' = peer_uuid_ m → leader_uuid_ m' = leader_uuid_ m → active_config m' = active_config m →
  GetConsensusRole (peer_uuid_ m') (ToConsensusStatePB true m') =
  GetConsensusRole (peer_uuid_ m) (ToConsensusStatePB true m).
Proof. intros E1 E2 E3. unfold GetConsensusRole, ToConsensusStatePB. cbn. by rewrite E1, E2, E3. Qed.

(** The metadata between operations. *)
Definition good (m : t) : Prop := consistent m ∧ is_i64 (current_term m).

Lemma update_active_role_good m m' :
  is_i64 (current_term m) → UpdateActiveRole m = Ok m' →
  good m' ∧ peer_uuid_ m' = peer_uuid_ m ∧ pb_ m' = pb_ m ∧ pending_config_ m' = pending_config_ m ∧
  leader_uuid_ m' = leader_uuid_ m.
Proof.
  unfold UpdateActiveRole. intros Ht (Hc & Hp & Hpb & Hpe & Hl & Hr)%update_cache_ok; [|done].
  cbn in Hp, Hpb, Hpe, Hl, Hr. assert (current_term m' = current_term m) as Et by (unfold current_term; by rewrite Hpb).
  split_and!; [|done..]. split; [|by rewrite Et]. split; [|done]. rewrite Hr. symmetry.
  apply role_depends; [done..|]. unfold active_config, has_pending_config, pending_config, committed_config.
  by rewrite Hpe, Hpb.
Qed.

Lemma set_current_term_good m term m' :
  good m → is_i64 term → set_current_term m term = Ok m' →
  good m' ∧ current_term m' = term ∧ peer_uuid_ m' = peer_uuid_ m ∧ leader_uuid_ m' = leader_uuid_ m ∧
  pending_config_ m' = pending_config_ m ∧ active_role_ m' = active_role_ m ∧
  pb_ m' = PB (committed_config_ (pb_ m)) (Some term) (voted_for_ (pb_ m)).
Proof.
  intros [[Hr Hc] Ht] Hterm (Hc' & Hp & Hpb & Hpe & Hl & Hr')%update_cache_ok; [|done].
  cbn in Hp, Hpb, Hpe, Hl, Hr'. assert (current_term m' = term) as Et by (unfold current_term; by rewrite Hpb).
  split_and!; try done. split; [|by rewrite Et]. split; [|done]. rewrite Hr', Hr. symmetry.
  apply role_depends; [done..|]. unfold active_config, has_pending_config, pending_config, committed_config.
  by rewrite Hpe, Hpb.
Qed.

(** Changing the vote concerns neither. *)
Lemma with_vote_good m v :
  good m → good (with_pb m (PB (committed_config_ (pb_ m)) (current_term_ (pb_ m)) v)).
Proof. intros [[Hr Hc] Ht]. by split; [split|]. Qed.

Lemma set_committed_config_good m c m' :
  good m → set_committed_config m c = Ok m' → good m' ∧ current_term m' = current_term m.
Proof.
  intros [[Hr Hc] Ht]. unfold set_committed_config. destruct (has_pending_config (with_pb _ _)) eqn:Ep.
  - intros [= <-]. split; [|done]. split; [split|done]; [|done]. cbn [with_pb active_role_]. rewrite Hr. symmetry.
    apply role_depends; [done..|]. unfold active_config. change (has_pending_config m) with (has_pending_config (with_pb m (pb_ m))).
    unfold has_pending_config in *. cbn in Ep |- *. by rewrite Ep.
  - intros (Hg & _ & Hpb & _)%update_active_role_good; [|done]. split; [done|].
    unfold current_term. by rewrite Hpb.
Qed.

Definition op_ok (o : op) : Prop :=
  match o with
  | SetCurrentTerm term => is_i64 term
  | MergeCommitted c => is_i64 (default 0 (QuorumUtil.current_term c))
  | _ => True
  end.

Lemma exec_good m o m' : good m → op_ok o → exec m o = Ok m' → good m'.
Proof.
  intros Hg Ho. pose proof Hg as [_ Ht]. destruct o; cbn [exec op_ok] in *.
  - by intros [? _]%set_current_term_good.
  - intros [= <-]. by apply with_vote_good.
  - intros [= <-]. by apply with_vote_good.
  - by intros [? _]%set_committed_config_good.
  - by intros [? _]%update_active_role_good.
  - by intros [? _]%update_active_role_good.
  - by intros [? _]%update_active_role_good.
  - unfold MergeCommittedConsensusStatePB. set (term := default 0 _) in *.
    destruct (if current_term m <? term then _ else _) as [m1| | |] eqn:E1; cbn [obind]; [|done..].
    assert (good m1) as Hg1.
    { case_test_in E1; [|by injection E1 as <-].
      destruct (set_current_term m term) as [m0| | |] eqn:E0; cbn [obind] in E1; [|done..].
      injection E1 as <-. apply with_vote_good. by apply set_current_term_good in E0 as [? _]. }
    destruct (set_leader_uuid m1 []) as [m2| | |] eqn:E2; cbn [obind]; [|done..].
    apply update_active_role_good in E2 as [Hg2 _]; [|by apply Hg1].
    destruct (set_committed_config m2 _) as [m3| | |] eqn:E3; cbn [obind]; [|done..].
    apply set_committed_config_good in E3 as [Hg3 _]; [|done].
    intros E4. apply (update_active_role_good (set_pending m3 None)) in E4 as [? _]; [done|apply Hg3].
Qed.

Lemma exec_all_good m l m' : good m → Forall op_ok l → exec_all m l = Ok m' → good m'.
Proof.
  revert m. induction l as [|o l IH]; intros m Hg Hl E; cbn in E; [by injection E as <-|].
  apply Forall_cons in Hl as [Ho Hl]. destruct (exec m o) as [m1| | |] eqn:E1; [|done..]. cbn in E.
  eapply IH; [by eapply exec_good|done..].
Qed.

Lemma new_ok uuid : ∃ v, new uuid = Ok (mk uuid (PB None None None) None [] UNKNOWN_ROLE v).
Proof. by eexists. Qed.

Lemma load_good uuid pb m :
  is_i64 (default 0 (current_term_ pb)) → Load uuid pb = Ok m →
  good m ∧ peer_uuid_ m = uuid ∧ pb_ m = pb ∧ pending_config_ m = None ∧ leader_uuid_ m = [].
Proof.
  intros Ht. unfold Load. destruct (new_ok uuid) as [v ->]. cbn [obind].
  intros (Hg & Hp & Hpb & Hpe & Hl)%update_active_role_good; [|done]. by split_and!.
Qed.

Lemma create_good uuid c term m :
  is_i64 term → Create uuid c term = Ok m → good m.
Proof.
  intros Ht. unfold Create. destruct (new_ok uuid) as [v ->]. cbn [obind].
  destruct (set_committed_config _ c) as [m1| | |] eqn:E; cbn [obind]; [|done..].
  unfold set_committed_config in E. cbn in E. apply update_active_role_good in E as [Hg _]; [|done].
  by intros [? _]%set_current_term_good.
Qed.

End RoleCache.

(** ** Properties *)

Module RaftConfigProperties.
Import QuorumUtil QuorumFacts ConsensusMetadata RoleCache.

Lemma leader_role uuid c :
  GetConsensusRole uuid c = LEADER ↔
  leader_uuid c = uuid ∧ IsRaftConfigVoter uuid (cstate_config c) = true.
Proof.
  unfold GetConsensusRole. case_bool_decide as E.
  - destruct (IsRaftConfigVoter _ _); naive_solver.
  - split; [|naive_solver]. destruct (find_peer _ _) as [p|]; [|done]. by destruct (member_type p).
Qed.

(** The role and term other threads read.  However the metadata of a replica
    is changed after it was created or loaded (terms, votes, committed and pending
    configurations, leaders, merged remote states), the packed atomic word always
    unpacks to the current term and to the role that follows from the active
    configuration and the known leader; the role is LEADER exactly when the replica
    itself is the known leader and a voter of the active configuration.  A
    configuration accepted by [VerifyRaftConfig] has distinct non-empty uuids, its
    voters are those [IsRaftConfigVoter] names, and two majorities of them share a
    voter. *)
Theorem role_and_term_cache uuid pb c term m0 ops m :
  is_i64 (default 0 (current_term_ pb)) → is_i64 term → Forall op_ok ops →
  Load uuid pb = Ok m0 ∨ Create uuid c term = Ok m0 → exec_all m0 ops = Ok m →
  GetRoleAndTerm m = (Some (GetConsensusRole (peer_uuid_ m) (ToConsensusStatePB true m)), current_term m) ∧
  ((GetRoleAndTerm m).1 = Some LEADER ↔
    leader_uuid_ m = peer_uuid_ m ∧ IsRaftConfigVoter (peer_uuid_ m) (active_config m) = true) ∧
  (∀ cfg type, VerifyRaftConfig cfg type = Ok () →
    NoDup (uuids cfg) ∧ ([] ∉ uuids cfg) ∧ (∀ u, IsRaftConfigVoter u cfg = true ↔ u ∈ voters cfg) ∧
    ∀ s s', NoDup s → NoDup s' → (∀ u, u ∈ s ++ s' → u ∈ voters cfg) →
      MajoritySize (CountVoters cfg) <= Z.of_nat (length s) →
      MajoritySize (CountVoters cfg) <= Z.of_nat (length s') → ∃ u, u ∈ s ∧ u ∈ s').
Proof.
  intros Hpb Hterm Hops H0 E.
  assert (good m0) as Hg0 by by destruct H0 as [[? _]%load_good|?%create_good].
  destruct (exec_all_good m0 ops m Hg0 Hops E) as [[Hr Hc] _]. rewrite Hr in Hc. clear H0 E. split_and!; [done| |].
  - rewrite Hc. cbn [fst]. rewrite <- (leader_role (peer_uuid_ m) (ToConsensusStatePB true m)). split; congruence.
  - intros cfg type [Hok _]%verify_config_spec. pose proof Hok as [_ ? ? _ _]. split_and!; [done..| |].
    + intros u. by apply voter_spec.
    + intros s s' ? ? Hin ? ?. apply (majorities_intersect cfg); try done; intros; apply Hin, elem_of_app; tauto.
Qed.

Definition sample_peer (u : Z) : RaftPeerPB :=
  Peer (Some [u]) (Some VOTER) [{| host := [u]; port := 7100 |}] [].
Definition sample_config : RaftConfigPB := Config (Some 1) [sample_peer 1; sample_peer 2; sample_peer 3].

Lemma role_and_term_cache_witness :
  ∃ m0 m, Load [1] (PB (Some sample_config) (Some 4) None) = Ok m0 ∧
    exec_all m0 [SetCurrentTerm 5; SetLeaderUuid [1]] = Ok m ∧ GetRoleAndTerm m = (Some LEADER, 5) ∧
    ∃ u, u ∈ ([[1]; [2]] : list bytes) ∧ u ∈ ([[2]; [3]] : list bytes).
Proof.
  destruct (Load [1] (PB (Some sample_config) (Some 4) None)) as [m0| | |] eqn:E0; [|done..].
  destruct (exec_all m0 [SetCurrentTerm 5; SetLeaderUuid [1]]) as [m| | |] eqn:E.
  2-4: injection E0 as <-; done.
  exists m0, m. split; [done|]. split; [done|].
  destruct (role_and_term_cache [1] (PB (Some sample_config) (Some 4) None) sample_config 0 m0
    [SetCurrentTerm 5; SetLeaderUuid [1]] m) as (H1 & _ & H2).
  - done.
  - done.
  - repeat constructor; done.
  - left. exact E0.
  - exact E.
  - split; [vm_compute in E0; injection E0 as <-; vm_compute in E; injection E as <-; reflexivity|].
    destruct (H2 sample_config COMMITTED_QUORUM eq_refl) as (_ & _ & _ & H).
    apply H; [by apply (bool_decide_unpack _); vm_compute|by apply (bool_decide_unpack _); vm_compute| |done|done].
    intros u Hu. change (voters sample_config) with ([[1]; [2]; [3]] : list bytes).
    cbn [app] in Hu. rewrite !elem_of_cons in *. tauto.
Defined.

End RaftConfigProperties.
