(* ===== verification/Election.v ===== *)
(** * Leader election: the candidate

    Models consensus/leader_lease.h in [Module Lease], and the vote counter and
    the driver of an election of consensus/leader_election.cc in
    [Module VoteCounter] and [Module LeaderElection].  [Module ElectionFacts] has
    the invariant of an election, [Module ElectionRun] the theorem about every
    order of responses and checks.  The voters' side and the cluster are in
    RaftElection. *)

From S2P Require Import Prelude RaftConfig.

(** ** Leases *)

Module Lease.

(** [LeaseData<Time>]; [none] is [NoneValue()] of the time type. *)
Record t := mk { holder_uuid : bytes; expiration : Z }.

Definition kCoarseNone : Z := - 2 ^ 63.
Definition kMicrosNone : Z := 0.

Definition none (none_value : Z) : t := mk [] none_value.
Definition TryUpdate (l rhs : t) : t := if expiration l <? expiration rhs then rhs else l.
Definition has_value (none_value : Z) (l : t) : bool := negb (expiration l =? none_value).

End Lease.

(** ** Counting votes *)

Module VoteCounter.

Inductive ElectionVote := kDenied | kGranted | kUnknown.
#[export] Instance ElectionVote_eq_dec : EqDecision ElectionVote.
Proof. solve_decision. Defined.

Record t := mk {
  num_voters_ : Z;
  majority_size_ : Z;
  votes_ : gmap bytes ElectionVote;
  yes_votes_ : Z;
  no_votes_ : Z;
}.

Definition VoteCounter (num_voters majority_size : Z) : outcome t :=
  check! majority_size <=? num_voters in
  check! 0 <? num_voters in
  check! 0 <? majority_size in
  Ok (mk num_voters majority_size ∅ 0 0).

(** The result is [is_duplicate]. *)
Definition RegisterVote (c : t) (voter_uuid : bytes) (vote : ElectionVote) : outcome bool * t :=
  match votes_ c !! voter_uuid with
  | Some prior_vote => if decide (prior_vote = vote) then (Ok true, c) else (Err InvalidArgument, c)
  | None =>
      if yes_votes_ c + no_votes_ c =? num_voters_ c then (Err InvalidArgument, c)
      else
        let votes := <[voter_uuid := vote]> (votes_ c) in
        match vote with
        | kGranted => (Ok false, mk (num_voters_ c) (majority_size_ c) votes (yes_votes_ c + 1) (no_votes_ c))
        | kDenied => (Ok false, mk (num_voters_ c) (majority_size_ c) votes (yes_votes_ c) (no_votes_ c + 1))
        | kUnknown =>
            (Err InvalidArgument, mk (num_voters_ c) (majority_size_ c) votes (yes_votes_ c) (no_votes_ c))
        end
  end.

Definition GetDecision (c : t) : ElectionVote :=
  if majority_size_ c <=? yes_votes_ c then kGranted
  else if num_voters_ c - majority_size_ c <? no_votes_ c then kDenied
  else kUnknown.

Definition GetTotalVotesCounted (c : t) : Z := yes_votes_ c + no_votes_ c.
Definition GetTotalExpectedVotes (c : t) : Z := num_voters_ c.
Definition AreAllVotesIn (c : t) : bool := GetTotalVotesCounted c =? num_voters_ c.

(** *** The tallies *)

Definition tally (c : t) (v : ElectionVote) : nat := length (filter (λ p, p.2 = v) (map_to_list (votes_ c))).

Record counted (c : t) : Prop := {
  counted_yes : yes_votes_ c = Z.of_nat (tally c kGranted);
  counted_no : no_votes_ c = Z.of_nat (tally c kDenied);
  counted_sizes : 0 < majority_size_ c <= num_voters_ c;
  counted_bound : yes_votes_ c + no_votes_ c <= num_voters_ c;
  counted_known v : v ∈ map_to_list (votes_ c) → v.2 ≠ kUnknown;
}.

Lemma counted_new n m c : VoteCounter n m = Ok c → counted c ∧ votes_ c = ∅ ∧ num_voters_ c = n ∧ majority_size_ c = m.
Proof.
  unfold VoteCounter. repeat case_test; try done. intros [= <-]. split_and!; [|done..].
  split; unfold tally; cbn; try (rewrite map_to_list_empty; done || lia); try lia.
  intros v. rewrite map_to_list_empty. by intros ?%not_elem_of_nil.
Qed.

Lemma tally_insert (c : t) n m y no u w v :
  votes_ c !! u = None →
  tally (mk n m (<[u := w]> (votes_ c)) y no) v = (tally c v + if decide (w = v) then 1 else 0)%nat.
Proof.
  intros Hu. unfold tally. cbn [votes_]. rewrite map_to_list_insert by done. rewrite filter_cons. cbn [snd].
  repeat case_decide; try done; cbn [length]; lia.
Qed.

(** A vote other than [kUnknown] changes the tallies as it should. *)
Lemma RegisterVote_spec c u w r c' :
  counted c → w ≠ kUnknown → RegisterVote c u w = (r, c') →
  counted c' ∧ num_voters_ c' = num_voters_ c ∧ majority_size_ c' = majority_size_ c ∧
  (votes_ c' = votes_ c ∨ votes_ c !! u = None ∧ votes_ c' = <[u := w]> (votes_ c) ∧ r = Ok false).
Proof.
  intros [Hy Hn Hs Hb Hk] Hw. unfold RegisterVote. destruct (votes_ c !! u) as [p|] eqn:Eu.
  { case_decide; intros [= <- <-]; (split_and!; [by split|done..|by left]). }
  destruct (Z.eqb_spec (yes_votes_ c + no_votes_ c) (num_voters_ c)) as [|Hne].
  { intros [= <- <-]. split_and!; [by split|done..|by left]. }
  destruct w; [| |done]; intros [= <- <-]; (split_and!; [|done..|by right]);
    (split; [rewrite tally_insert by done; cbn [yes_votes_ no_votes_]; case_decide; done || lia
      |rewrite tally_insert by done; cbn [yes_votes_ no_votes_]; case_decide; done || lia|done|cbn; lia|]);
    intros v; cbn [votes_]; rewrite map_to_list_insert by done; intros [->|Hv]%elem_of_cons; auto.
Qed.

(** The decision is a majority, a majority out of reach, or still open. *)
Lemma GetDecision_spec c :
  counted c →
  match GetDecision c with
  | kGranted => majority_size_ c <= Z.of_nat (tally c kGranted)
  | kDenied => num_voters_ c - Z.of_nat (tally c kDenied) < majority_size_ c
  | kUnknown => yes_votes_ c + no_votes_ c < num_voters_ c
  end.
Proof. intros [Hy Hn Hs Hb _]. unfold GetDecision. repeat case_test; lia. Qed.

End VoteCounter.

(** ** The candidate's side *)

Module LeaderElection.
Import QuorumUtil VoteCounter.

Record VoteRequestPB := {
  candidate_uuid : bytes;
  candidate_term : Z;
  last_received : OpId.t;
  ignore_live_leader : bool;
  req_preelection : bool;
}.

(** [error] stands for the presence of a tablet error. *)
Record VoteResponsePB := {
  responder_uuid : bytes;
  responder_term : Z;
  vote_granted : bool;
  remaining_leader_lease_duration_ms : option Z;
  leader_lease_uuid : bytes;
  leader_ht_lease_expiration : option Z;
  leader_ht_lease_uuid : bytes;
  resp_preelection : bool;
  has_error : bool;
}.

(** [ElectionResult] without the text of its message. *)
Record ElectionResult := Result_ {
  preelection : bool;
  preelections_not_supported_by_uuid : bytes;
  election_term : Z;
  decision : ElectionVote;
  higher_term : option Z;
  old_leader_lease : Lease.t;
  old_leader_ht_lease : Lease.t;
}.

Definition decided (r : ElectionResult) : bool := bool_decide (decision r ≠ kUnknown).

(** The keys of [voter_state_] are [voting_follower_uuids_]. *)
Record t := mk {
  request_ : VoteRequestPB;
  result_ : ElectionResult;
  vote_counter_ : VoteCounter.t;
  has_responded_ : bool;
  voting_follower_uuids_ : list bytes;
}.

(** The loop of the constructor. *)
Fixpoint add_followers (candidate : bytes) (l : list RaftPeerPB) (acc : list bytes) : outcome (list bytes) :=
  match l with
  | [] => Ok acc
  | p :: l =>
      if bool_decide (candidate = permanent_uuid p) then add_followers candidate l acc
      else if bool_decide (member_type p ≠ VOTER) then add_followers candidate l acc
      else
        check! bool_decide (permanent_uuid p ∉ acc) in
        add_followers candidate l (acc ++ [permanent_uuid p])
  end.

Definition LeaderElection (config : RaftConfigPB) (request : VoteRequestPB) (counter : VoteCounter.t)
    : outcome t :=
  let! followers := add_followers (candidate_uuid request) (peers config) [] in
  check! GetTotalVotesCounted counter =? 1 in
  check! GetTotalVotesCounted counter + Z.of_nat (length followers) =? GetTotalExpectedVotes counter in
  Ok (mk request
        (Result_ (req_preelection request) [] (candidate_term request) kUnknown None
           (Lease.none Lease.kCoarseNone) (Lease.none Lease.kMicrosNone))
        counter false followers).

Definition consensus_term (e : t) : Z :=
  candidate_term (request_ e) - (if preelection (result_ e) then 1 else 0).

Definition with_result (e : t) (r : ElectionResult) : t :=
  mk (request_ e) r (vote_counter_ e) (has_responded_ e) (voting_follower_uuids_ e).

(** A failed registration is only logged. *)
Definition RecordVoteUnlocked (e : t) (voter_uuid : bytes) (vote : ElectionVote) : t :=
  mk (request_ e) (result_ e) (RegisterVote (vote_counter_ e) voter_uuid vote).2
    (has_responded_ e) (voting_follower_uuids_ e).

Definition HandleHigherTermUnlocked (e : t) (response : VoteResponsePB) : t :=
  if decided (result_ e) then e
  else
    let r := result_ e in
    with_result e
      (Result_ (preelection r) (preelections_not_supported_by_uuid r) (election_term r) kDenied
         (Some (responder_term response)) (old_leader_lease r) (old_leader_ht_lease r)).

Definition kNanosPerMilli : Z := 1000000.

Definition HandleVoteGrantedUnlocked (e : t) (voter_uuid : bytes) (now : Z) (response : VoteResponsePB) : t :=
  let r := result_ e in
  let lease :=
    match remaining_leader_lease_duration_ms response with
    | Some ms => Lease.TryUpdate (old_leader_lease r)
        (Lease.mk (leader_lease_uuid response) (now + ms * kNanosPerMilli))
    | None => old_leader_lease r
    end in
  let ht_lease :=
    match leader_ht_lease_expiration response with
    | Some expiration => Lease.TryUpdate (old_leader_ht_lease r) (Lease.mk (leader_ht_lease_uuid response) expiration)
    | None => old_leader_ht_lease r
    end in
  RecordVoteUnlocked
    (with_result e
       (Result_ (preelection r) (preelections_not_supported_by_uuid r) (election_term r) (decision r)
          (higher_term r) lease ht_lease))
    voter_uuid kGranted.

Definition HandleVoteDeniedUnlocked (e : t) (voter_uuid : bytes) (response : VoteResponsePB) : t :=
  if consensus_term e <? responder_term response then HandleHigherTermUnlocked e response
  else RecordVoteUnlocked e voter_uuid kDenied.

(** The part of [VoteResponseRpcCallback] under the lock.  [None] is a failed
    remote call, [now] the clock when the response is handled. *)
Definition VoteResponseRpcCallback (e : t) (voter_uuid : bytes) (now : Z) (response : option VoteResponsePB)
    : outcome t :=
  if has_responded_ e then Ok e
  else
    check! bool_decide (voter_uuid ∈ voting_follower_uuids_ e) in
    match response with
    | None => Ok (RecordVoteUnlocked e voter_uuid kDenied)
    | Some response =>
        if has_error response then Ok (RecordVoteUnlocked e voter_uuid kDenied)
        else if bool_decide (voter_uuid ≠ responder_uuid response)
        then Ok (RecordVoteUnlocked e voter_uuid kDenied)
        else if preelection (result_ e) && negb (resp_preelection response) then
          let r := result_ e in
          Ok (HandleVoteDeniedUnlocked
                (with_result e
                   (Result_ (preelection r) voter_uuid (election_term r) (decision r) (higher_term r)
                      (old_leader_lease r) (old_leader_ht_lease r)))
                voter_uuid response)
        else if vote_granted response then Ok (HandleVoteGrantedUnlocked e voter_uuid now response)
        else Ok (HandleVoteDeniedUnlocked e voter_uuid response)
    end.

(** The new state and the result handed to the callback, if it is called. *)
Definition CheckForDecision (e : t) : t * option ElectionResult :=
  let d := GetDecision (vote_counter_ e) in
  let r := result_ e in
  let r :=
    if negb (decided r) && bool_decide (d ≠ kUnknown)
    then Result_ (preelection r) (preelections_not_supported_by_uuid r) (election_term r) d
           (higher_term r) (old_leader_lease r) (old_leader_ht_lease r)
    else r in
  if decided r && negb (has_responded_ e)
  then (mk (request_ e) r (vote_counter_ e) true (voting_follower_uuids_ e), Some r)
  else (with_result e r, None).

End LeaderElection.

(** ** Invariants of an election *)

Module ElectionFacts.
Import QuorumUtil QuorumFacts VoteCounter LeaderElection.

(** A majority of the voters of [cfg], each of them in [G]. *)
Definition majority_of (cfg : RaftConfigPB) (G : bytes → Prop) : Prop :=
  ∃ s, NoDup s ∧ (∀ u, u ∈ s → u ∈ voters cfg ∧ G u) ∧ MajoritySize (CountVoters cfg) <= Z.of_nat (length s).

Lemma majority_mono cfg (G G' : bytes → Prop) :
  (∀ u, G u → G' u) → majority_of cfg G → majority_of cfg G'.
Proof. intros Hm (s & Hn & Hs & Hl). exists s. naive_solver. Qed.

(** The votes recorded as granted come from [G]. *)
Record election_ok (cfg : RaftConfigPB) (G : bytes → Prop) (e : t) : Prop := {
  eo_counted : counted (vote_counter_ e);
  eo_num : num_voters_ (vote_counter_ e) = CountVoters cfg;
  eo_majority : majority_size_ (vote_counter_ e) = MajoritySize (CountVoters cfg);
  eo_electorate u : u ∈ voters cfg ↔ u = candidate_uuid (request_ e) ∨ u ∈ voting_follower_uuids_ e;
  eo_votes u w : votes_ (vote_counter_ e) !! u = Some w → u ∈ voters cfg;
  eo_granted u : votes_ (vote_counter_ e) !! u = Some kGranted → G u;
  eo_self : votes_ (vote_counter_ e) !! candidate_uuid (request_ e) = Some kGranted;
  eo_won : decision (result_ e) = kGranted → majority_of cfg G;
  eo_pre : preelection (result_ e) = req_preelection (request_ e);
  eo_term : election_term (result_ e) = candidate_term (request_ e);
  eo_responded : has_responded_ e = true → decided (result_ e) = true;
}.

Lemma election_ok_mono cfg (G G' : bytes → Prop) e :
  (∀ u, G u → G' u) → election_ok cfg G e → election_ok cfg G' e.
Proof. intros Hm []. split; eauto using majority_mono. Qed.

Lemma add_followers_spec candidate l acc followers :
  add_followers candidate l acc = Ok followers →
  ∀ u, u ∈ followers ↔ u ∈ acc ∨ u ≠ candidate ∧ u ∈ (permanent_uuid <$> filter (λ p, member_type p = VOTER) l).
Proof.
  revert acc. induction l as [|p l IH]; intros acc; cbn [add_followers].
  { intros [= <-] u. cbn. rewrite elem_of_nil. tauto. }
  rewrite filter_cons. case_bool_decide as H1; [|case_bool_decide as H2; [|case_bool_decide as H3; [|done]]].
  - intros E u. rewrite (IH acc E u). subst. case_decide; [|tauto]. cbn. rewrite elem_of_cons. naive_solver.
  - intros E u. rewrite (IH acc E u). rewrite decide_False by done. tauto.
  - intros E u. rewrite (IH _ E u). rewrite decide_True by (destruct (decide (member_type p = VOTER)); done || tauto).
    cbn. rewrite elem_of_app, list_elem_of_singleton, elem_of_cons. naive_solver.
Qed.

Lemma add_followers_length candidate l acc followers :
  add_followers candidate l acc = Ok followers →
  candidate ∉ (permanent_uuid <$> filter (λ p, member_type p = VOTER) l) →
  length followers = (length acc + length (filter (λ p, member_type p = VOTER) l))%nat.
Proof.
  revert acc. induction l as [|p l IH]; intros acc; cbn [add_followers]; [intros [= <-] _; cbn; lia|].
  rewrite filter_cons. case_bool_decide as H1; [|case_bool_decide as H2; [|case_bool_decide as H3; [|done]]].
  - case_decide; cbn; [|by auto]. rewrite not_elem_of_cons. naive_solver.
  - rewrite decide_False by done. by auto.
  - rewrite decide_True by (destruct (decide (member_type p = VOTER)); done || tauto). cbn.
    rewrite not_elem_of_cons. intros E [_ Hn]. rewrite (IH _ E Hn), length_app. cbn. lia.
Qed.

Lemma add_followers_no_ub candidate l acc : add_followers candidate l acc ≠ UB.
Proof.
  revert acc. induction l as [|p l IH]; intros acc; cbn [add_followers]; [done|]. by repeat case_test.
Qed.

(** A new election, with the candidate's vote for itself. *)
Lemma new_election_ok cfg (G : bytes → Prop) request c0 b c e :
  config_ok cfg → VoteCounter (CountVoters cfg) (MajoritySize (CountVoters cfg)) = Ok c0 →
  RegisterVote c0 (candidate_uuid request) kGranted = (b, c) → LeaderElection.LeaderElection cfg request c = Ok e →
  G (candidate_uuid request) → election_ok cfg G e ∧ request_ e = request ∧ result_ e = Result_ (req_preelection request) []
    (candidate_term request) kUnknown None (Lease.none Lease.kCoarseNone) (Lease.none Lease.kMicrosNone) ∧
  votes_ (vote_counter_ e) = {[candidate_uuid request := kGranted]} ∧ has_responded_ e = false.
Proof.
  intros Hc (Hc0 & Hv0 & Hn0 & Hm0)%counted_new Hr He Hg.
  destruct (RegisterVote_spec c0 (candidate_uuid request) kGranted b c Hc0 ltac:(done) Hr) as (Hc1 & Hn1 & Hm1 & Hv1).
  unfold LeaderElection.LeaderElection in He.
  destruct (add_followers _ _ _) as [followers| | |] eqn:Ef; cbn [obind] in He; [|done..].
  case_test_in He; [|done]. case_test_in He; [|done]. injection He as <-. cbn.
  unfold GetTotalVotesCounted, GetTotalExpectedVotes in *.
  assert (votes_ c = {[candidate_uuid request := kGranted]}) as Hv.
  { destruct Hv1 as [E|(_ & E & _)]; [|by rewrite E, Hv0].
    destruct Hc1 as [Hy Hno _ _ _]. unfold tally in *. rewrite E, Hv0, map_to_list_empty in Hy, Hno. cbn in Hy, Hno. lia. }
  pose proof (add_followers_spec _ _ _ _ Ef) as Hf. setoid_rewrite elem_of_nil in Hf.
  assert (candidate_uuid request ∈ voters cfg) as Hcand.
  { destruct (decide (candidate_uuid request ∈ voters cfg)) as [|Hno]; [done|]. exfalso.
    pose proof (add_followers_length _ _ _ _ Ef Hno) as Hl. cbn in Hl.
    pose proof (count_voters cfg Hc) as Hcv. unfold voters in Hcv. rewrite length_fmap in Hcv. lia. }
  split_and!; [|done..]. split; cbn; try done.
  - congruence.
  - congruence.
  - intros u. rewrite Hf. unfold voters in *. split.
    + intros Hu. destruct (decide (u = candidate_uuid request)) as [->|]; [by left|]. right. right. done.
    + intros [->|[[]|[_ ?]]]; done.
  - intros u w. rewrite Hv, lookup_singleton_Some. by intros [<- _].
  - intros u. rewrite Hv, lookup_singleton_Some. by intros [<- _].
  - by rewrite Hv, lookup_singleton_eq.
Qed.

(** Enough granted votes are a majority of voters in [G]. *)
Lemma tally_majority cfg (G : bytes → Prop) e :
  election_ok cfg G e → majority_size_ (vote_counter_ e) <= Z.of_nat (tally (vote_counter_ e) kGranted) →
  majority_of cfg G.
Proof.
  intros [_ _ Hm _ Hv Hg _ _ _ _ _] Hl. set (c := vote_counter_ e) in *.
  exists ((filter (λ p, p.2 = kGranted) (map_to_list (votes_ c))).*1). split_and!.
  - apply (NoDup_fmap_fst _).
    + intros x y1 y2 [_ H1%elem_of_map_to_list]%list_elem_of_filter [_ H2%elem_of_map_to_list]%list_elem_of_filter.
      congruence.
    + apply NoDup_filter, NoDup_map_to_list.
  - intros u ([u' w] & -> & [Hw Hin%elem_of_map_to_list]%list_elem_of_filter)%list_elem_of_fmap.
    cbn in Hw |- *. subst w. split; [by eapply Hv|by apply Hg].
  - rewrite <- Hm, length_fmap. done.
Qed.

Lemma record_vote_ok cfg (G : bytes → Prop) e v w :
  election_ok cfg G e → v ∈ voting_follower_uuids_ e → w ≠ kUnknown → (w = kGranted → G v) →
  election_ok cfg G (RecordVoteUnlocked e v w).
Proof.
  intros [Hc Hn Hm Hel Hv Hg Hs Hw Hp Ht Hr] Hin Hne HG. unfold RecordVoteUnlocked.
  destruct (RegisterVote (vote_counter_ e) v w) as [b c'] eqn:E. cbn [snd].
  destruct (RegisterVote_spec _ v w b c' Hc Hne E) as (Hc' & Hn' & Hm' & [Ev|(Hno & Ev & _)]);
    split; cbn; try done; try congruence; try (rewrite Ev; eauto; done).
  - intros u w'. rewrite Ev, lookup_insert_Some. intros [[<- _]|[_ ?]]; [apply Hel; by right|by eapply Hv].
  - intros u. rewrite Ev, lookup_insert_Some. intros [[<- ->]|[_ ?]]; [by apply HG|by apply Hg].
  - rewrite Ev, lookup_insert_ne; [done|]. intros ->. congruence.
Qed.

(** Changing parts of the result other than the decision. *)
Lemma with_result_ok cfg (G : bytes → Prop) e r :
  election_ok cfg G e → preelection r = preelection (result_ e) → election_term r = election_term (result_ e) →
  (decision r = decision (result_ e) ∨ decision r = kDenied) → election_ok cfg G (with_result e r).
Proof.
  intros [Hc Hn Hm Hel Hv Hg Hs Hw Hp Ht Hr] E1 E2 E3. split; cbn; try done; try congruence.
  - intros E. destruct E3 as [E3|E3]; [|congruence]. apply Hw. congruence.
  - intros E. unfold decided in *. destruct E3 as [E3|E3]; rewrite E3; [by apply Hr|done].
Qed.

Lemma handle_denied_ok cfg (G : bytes → Prop) e v r :
  election_ok cfg G e → v ∈ voting_follower_uuids_ e → election_ok cfg G (HandleVoteDeniedUnlocked e v r).
Proof.
  intros He Hv. unfold HandleVoteDeniedUnlocked, HandleHigherTermUnlocked.
  repeat case_test; [done| |by apply record_vote_ok]. apply with_result_ok; try done. by right.
Qed.

(** A response counts as granted. *)
Definition grants (pre : bool) (v : bytes) (r : VoteResponsePB) : Prop :=
  has_error r = false ∧ responder_uuid r = v ∧ vote_granted r = true ∧ (pre = true → resp_preelection r = true).

Lemma callback_ok cfg (G : bytes → Prop) e v now resp e' :
  election_ok cfg G e → (∀ r, resp = Some r → grants (preelection (result_ e)) v r → G v) →
  VoteResponseRpcCallback e v now resp = Ok e' →
  election_ok cfg G e' ∧ request_ e' = request_ e ∧ has_responded_ e' = has_responded_ e ∧
  voting_follower_uuids_ e' = voting_follower_uuids_ e.
Proof.
  intros He HG. unfold VoteResponseRpcCallback. destruct (has_responded_ e) eqn:Eh.
  { intros [= <-]. by rewrite Eh. }
  case_bool_decide as Hin; [|done].
  destruct resp as [r|]; [|intros [= <-]; split_and!; [by apply record_vote_ok|done..]].
  destruct (has_error r) eqn:E1; [intros [= <-]; split_and!; [by apply record_vote_ok|done..]|].
  case_bool_decide as E2; [intros [= <-]; split_and!; [by apply record_vote_ok|done..]|].
  destruct (preelection (result_ e) && negb (resp_preelection r)) eqn:E3.
  { intros [= <-]. split_and!; [apply handle_denied_ok; [by apply with_result_ok; [..|left]|done]|..];
      unfold HandleVoteDeniedUnlocked, HandleHigherTermUnlocked; by repeat case_test. }
  destruct (vote_granted r) eqn:E4; intros [= <-].
  - split_and!; [|done..]. apply record_vote_ok; [by apply with_result_ok; [..|left]|done..|].
    intros _. apply (HG r eq_refl). unfold grants. split_and!; [done..|].
    intros Ep. rewrite Ep in E3. by destruct (resp_preelection r).
  - split_and!; [by apply handle_denied_ok|..];
      unfold HandleVoteDeniedUnlocked, HandleHigherTermUnlocked; by repeat case_test.
Qed.

Lemma check_for_decision_ok cfg (G : bytes → Prop) e e' r :
  election_ok cfg G e → CheckForDecision e = (e', r) →
  election_ok cfg G e' ∧ request_ e' = request_ e ∧ vote_counter_ e' = vote_counter_ e ∧
  (∀ x, r = Some x → has_responded_ e = false ∧ has_responded_ e' = true ∧ x = result_ e' ∧ decided x = true) ∧
  (r = None → has_responded_ e' = has_responded_ e) ∧
  (decided (result_ e) = true → result_ e' = result_ e) ∧
  (GetDecision (vote_counter_ e) ≠ kUnknown → decided (result_ e') = true).
Proof.
  intros He. pose proof He as [Hc Hn Hm Hel Hv Hg Hs Hw Hp Ht Hr]. unfold CheckForDecision.
  set (d := GetDecision (vote_counter_ e)).
  match goal with |- context [decided ?x && negb (has_responded_ e)] => set (r' := x) end.
  assert (decision r' = kGranted → majority_of cfg G) as Hw'.
  { subst r'. case_test; [cbn|done]. intros Ed. eapply tally_majority; [done|].
    pose proof (GetDecision_spec _ Hc) as Hd. fold d in Hd. by rewrite Ed in Hd. }
  assert (preelection r' = req_preelection (request_ e) ∧ election_term r' = candidate_term (request_ e)) as [E1 E2]
    by (subst r'; case_test; done).
  assert (decided (result_ e) = true → r' = result_ e) as E3 by (intros Hd; subst r'; by rewrite Hd).
  assert (d ≠ kUnknown → decided r' = true) as E4.
  { intros Hd. subst r'. destruct (decided (result_ e)) eqn:Ed; [done|]. cbn [negb andb].
    rewrite bool_decide_true by done. by apply bool_decide_true. }
  destruct (decided r' && negb (has_responded_ e)) eqn:Ed; intros [= <- <-].
  - bool_tests. split_and!; try done; try by intros x [= <-].
  - split_and!; try done. split; cbn; try done. intros Hh. by rewrite E3 by (by apply Hr); apply Hr.
Qed.

(** *** Deciding *)

Lemma votes_split (l : list (bytes * ElectionVote)) :
  (∀ v, v ∈ l → v.2 ≠ kUnknown) →
  (length (filter (λ p, p.2 = kGranted) l) + length (filter (λ p, p.2 = kDenied) l) = length l)%nat.
Proof.
  induction l as [|[u w] l IH]; intros Hk; [done|].
  specialize (IH (λ v Hv, Hk v (list_elem_of_further _ _ _ Hv))).
  rewrite !filter_cons. cbn [snd]. destruct w; [rewrite decide_False, decide_True by done
    |rewrite decide_True, decide_False by done|by destruct (Hk (u, kUnknown) (list_elem_of_here _ _))];
    cbn [length]; lia.
Qed.

Lemma tallies_total c : counted c → yes_votes_ c + no_votes_ c = Z.of_nat (length (map_to_list (votes_ c))).
Proof. intros [-> -> _ _ Hk]. unfold tally. rewrite <- (votes_split _ Hk). lia. Qed.

Lemma keys_nodup (m : gmap bytes ElectionVote) : NoDup (map_to_list m).*1.
Proof. apply NoDup_fst_map_to_list. Qed.

(** A follower without a vote leaves room for it. *)
Lemma room cfg (G : bytes → Prop) e v :
  config_ok cfg → election_ok cfg G e → v ∈ voting_follower_uuids_ e →
  votes_ (vote_counter_ e) !! v = None →
  yes_votes_ (vote_counter_ e) + no_votes_ (vote_counter_ e) < num_voters_ (vote_counter_ e).
Proof.
  intros Hcfg [Hc Hn _ Hel Hv _ _ _ _ _ _] Hin Hno. rewrite (tallies_total _ Hc), Hn, (count_voters _ Hcfg).
  rewrite <- (length_fmap fst). set (ks := (map_to_list _).*1).
  assert (length (v :: ks) ≤ length (voters cfg))%nat; [|cbn [length] in *; lia].
  apply submseteq_length, NoDup_submseteq.
  - constructor; [|apply keys_nodup]. intros ([u w] & -> & Hw%elem_of_map_to_list)%list_elem_of_fmap. cbn in Hno. congruence.
  - intros u [->|([u' w] & -> & Hw%elem_of_map_to_list)%list_elem_of_fmap]%elem_of_cons; [apply Hel; by right|by eapply Hv].
Qed.

(** With the votes of all followers the outcome is known. *)
Lemma all_in_decides cfg (G : bytes → Prop) e :
  config_ok cfg → election_ok cfg G e →
  (∀ v, v ∈ voting_follower_uuids_ e → votes_ (vote_counter_ e) !! v ≠ None) →
  GetDecision (vote_counter_ e) ≠ kUnknown.
Proof.
  intros Hcfg [Hc Hn _ Hel _ _ Hs _ _ _ _] Hall Ed. pose proof (GetDecision_spec _ Hc) as Hd. rewrite Ed in Hd.
  rewrite (tallies_total _ Hc), Hn, (count_voters _ Hcfg), <- (length_fmap fst) in Hd.
  assert (length (voters cfg) ≤ length (map_to_list (votes_ (vote_counter_ e))).*1)%nat; [|lia].
  apply submseteq_length, NoDup_submseteq; [by apply voters_nodup|].
  intros u [->|Hu]%Hel.
  - apply list_elem_of_fmap. eexists (_, kGranted). split; [done|]. by apply elem_of_map_to_list.
  - apply Hall in Hu. destruct (votes_ (vote_counter_ e) !! u) as [w|] eqn:E; [|done].
    apply list_elem_of_fmap. exists (u, w). split; [done|]. by apply elem_of_map_to_list.
Qed.

(** A follower has answered: its vote is recorded or the election is decided. *)
Definition answered (e : t) (v : bytes) : Prop :=
  decided (result_ e) = true ∨ votes_ (vote_counter_ e) !! v ≠ None.

Lemma record_vote_answered cfg (G : bytes → Prop) e v w u :
  config_ok cfg → election_ok cfg G e → v ∈ voting_follower_uuids_ e → w ≠ kUnknown →
  u = v ∨ answered e u → answered (RecordVoteUnlocked e v w) u.
Proof.
  intros Hcfg He Hin Hw Hu. pose proof (room cfg G e v Hcfg He Hin) as Hroom. pose proof He as [Hc _ _ _ _ _ _ _ _ _ _].
  unfold answered, RecordVoteUnlocked in *. cbn [result_ vote_counter_].
  destruct (RegisterVote (vote_counter_ e) v w) as [b c'] eqn:E. cbn [snd].
  destruct (RegisterVote_spec _ v w b c' Hc Hw E) as (_ & _ & _ & [Ev|(_ & Ev & _)]); rewrite Ev.
  - destruct Hu as [->|Hu]; [|done]. right. intros Hno. specialize (Hroom Hno).
    unfold RegisterVote in E. rewrite Hno in E. case_test_in E; [lia|]. clear -E Ev Hno Hw.
    destruct w; [| |done]; injection E as _ <-; cbn in Ev;
      assert (<[v := _]> (votes_ (vote_counter_ e)) !! v = None) as Hx by (rewrite Ev; exact Hno);
      by rewrite lookup_insert_eq in Hx.
  - destruct (decide (u = v)) as [->|Hne]; [right; by rewrite lookup_insert_eq|].
    destruct Hu as [?|[?|?]]; [done|by left|]. right. by rewrite lookup_insert_ne.
Qed.

Lemma handle_denied_answered cfg (G : bytes → Prop) e v r u :
  config_ok cfg → election_ok cfg G e → v ∈ voting_follower_uuids_ e →
  u = v ∨ answered e u → answered (HandleVoteDeniedUnlocked e v r) u.
Proof.
  intros Hcfg He Hv Hu. unfold HandleVoteDeniedUnlocked, HandleHigherTermUnlocked.
  repeat case_test; [by left|by left|by eapply record_vote_answered].
Qed.

Lemma callback_answered cfg (G : bytes → Prop) e v now resp e' u :
  config_ok cfg → election_ok cfg G e → VoteResponseRpcCallback e v now resp = Ok e' →
  u = v ∨ answered e u → answered e' u.
Proof.
  intros Hcfg He. unfold VoteResponseRpcCallback. destruct (has_responded_ e) eqn:Eh.
  { intros [= <-] _. left. by apply He. }
  case_bool_decide as Hin; [|done].
  destruct resp as [r|]; [|intros [= <-]; by eapply record_vote_answered].
  destruct (has_error r) eqn:E1; [intros [= <-]; by eapply record_vote_answered|].
  case_bool_decide as E2; [intros [= <-]; by eapply record_vote_answered|].
  destruct (preelection (result_ e) && negb (resp_preelection r)) eqn:E3.
  { intros [= <-] Hu. eapply (handle_denied_answered cfg G); [done|by apply with_result_ok; [..|left]|done..]. }
  destruct (vote_granted r) eqn:E4; intros [= <-] Hu; [|by eapply handle_denied_answered].
  unfold HandleVoteGrantedUnlocked. eapply (record_vote_answered cfg G); [done|by apply with_result_ok; [..|left]|done..].
Qed.

End ElectionFacts.

(** ** Runs of an election *)

Module ElectionRun.
Import QuorumUtil QuorumFacts VoteCounter LeaderElection ElectionFacts.

(** The response of a voter is handled under the lock, or some thread looks for
    a decision. *)
Inductive event :=
  | Respond (v : bytes) (now : Z) (response : option VoteResponsePB)
  | Check.

(** The final state and the results handed to the callback. *)
Fixpoint run (e : t) (l : list event) : outcome (t * list ElectionResult) :=
  match l with
  | [] => Ok (e, [])
  | Respond v now response :: l => let! e := VoteResponseRpcCallback e v now response in run e l
  | Check :: l =>
      let '(e, r) := CheckForDecision e in
      let! (e, rs) := run e l in
      Ok (e, match r with Some r => r :: rs | None => rs end)
  end.

(** How often the callback has been called. *)
Definition calls (e : t) : nat := if has_responded_ e then 1 else 0.

Section Run.
Context (cfg : RaftConfigPB) (G : bytes → Prop) (Hcfg : config_ok cfg).

Definition responses_ok (e : t) (l : list event) : Prop :=
  ∀ v now resp, Respond v now resp ∈ l → v ∈ voting_follower_uuids_ e ∧
    ∀ r, resp = Some r → grants (req_preelection (request_ e)) v r → G v.

Lemma callback_total e v now resp :
  v ∈ voting_follower_uuids_ e → ∃ e', VoteResponseRpcCallback e v now resp = Ok e'.
Proof.
  intros Hv. unfold VoteResponseRpcCallback. destruct (has_responded_ e); [by eexists|].
  rewrite bool_decide_true by done. destruct resp as [r|]; [|by eexists]. repeat case_test; by eexists.
Qed.

Lemma check_followers e : voting_follower_uuids_ (CheckForDecision e).1 = voting_follower_uuids_ e.
Proof. unfold CheckForDecision. by case_test. Qed.

Lemma run_spec e l :
  election_ok cfg G e → responses_ok e l →
  ∃ e' rs, run e l = Ok (e', rs) ∧ election_ok cfg G e' ∧
    voting_follower_uuids_ e' = voting_follower_uuids_ e ∧ (length rs + calls e = calls e')%nat ∧
    (∀ r, r ∈ rs → decided r = true ∧ (decision r = kGranted → majority_of cfg G)) ∧
    (∀ u, answered e u ∨ (∃ now resp, Respond u now resp ∈ l) → answered e' u).
Proof.
  revert e. induction l as [|[v now resp|] l IH]; intros e He Hr; cbn [run].
  - exists e, []. split_and!; [done..|by intros ? ?%not_elem_of_nil|].
    intros u [?|(? & ? & ?%not_elem_of_nil)]; done.
  - destruct (Hr v now resp) as [Hv HG]; [left|].
    destruct (callback_total e v now resp Hv) as [e1 E1]. rewrite E1. cbn [obind].
    destruct (callback_ok cfg G e v now resp e1 He) as (He1 & Eq & Eh & Ef); [|done|].
    { rewrite (eo_pre _ _ _ He). exact HG. }
    destruct (IH e1 He1) as (e' & rs & -> & He' & Ef' & Ec & Hrs & Ha).
    { intros v' now' resp' Hin. rewrite Eq, Ef. apply (Hr v' now'). by right. }
    exists e', rs. unfold calls in *. rewrite Eh in Ec. split_and!; try done; [congruence|].
    intros u Hu. apply Ha. destruct Hu as [Hu|(n & r & [E|Hin]%elem_of_cons)]; [left| |right; eauto].
    + apply (callback_answered cfg G e v now resp e1 u Hcfg He E1). by right.
    + injection E as -> -> ->. left. apply (callback_answered cfg G e v now resp e1 v Hcfg He E1). by left.
  - pose proof (check_followers e) as Ef. destruct (CheckForDecision e) as [e1 r] eqn:E1. cbn [fst] in Ef.
    destruct (check_for_decision_ok cfg G e e1 r He E1) as (He1 & Eq & Ev & Hsome & Hnone & Hdec & _).
    destruct (IH e1 He1) as (e' & rs & -> & He' & Ef' & Ec & Hrs & Ha).
    { intros v' now' resp' Hin. rewrite Eq, Ef. apply (Hr v' now'). by right. }
    cbn [obind]. eexists e', _. split; [done|]. split; [done|]. split; [congruence|]. unfold calls in *. split_and!.
    + destruct r as [x|]; [destruct (Hsome x eq_refl) as (-> & E & _); rewrite E in Ec|rewrite Hnone in Ec by done];
        cbn [length]; lia.
    + destruct r as [x|]; [|done]. destruct (Hsome x eq_refl) as (_ & _ & -> & Hd).
      intros r0 [->|Hin]%elem_of_cons; [|by apply Hrs]. split; [done|apply He1].
    + intros u Hu. apply Ha. destruct Hu as [Hu|(n & r0 & [E|Hin]%elem_of_cons)]; [left|done|right; eauto].
      unfold answered in *. rewrite Ev. destruct Hu as [Hu|Hu]; [left; by rewrite Hdec|by right].
Qed.

(** A check after all followers have answered calls the callback. *)
Lemma check_after_all e e1 r :
  election_ok cfg G e → (∀ v, v ∈ voting_follower_uuids_ e → answered e v) →
  CheckForDecision e = (e1, r) → calls e1 = 1%nat.
Proof.
  intros He Hall E. destruct (check_for_decision_ok cfg G e e1 r He E) as (_ & _ & _ & Hsome & _ & Hdec & Hd).
  assert (decided (result_ e1) = true) as Hd1.
  { destruct (decided (result_ e)) eqn:Ed; [by rewrite Hdec|]. apply Hd, (all_in_decides cfg G e Hcfg He).
    intros v Hv. destruct (Hall v Hv) as [?|?]; [congruence|done]. }
  unfold CheckForDecision in E. unfold calls. case_test_in E; injection E as <- <-; cbn in Hd1 |- *; [done|].
  rewrite Hd1 in *. by destruct (has_responded_ e).
Qed.

End Run.

Lemma run_check e l e' rs :
  run e l = Ok (e', rs) →
  run e (l ++ [Check]) =
    Ok ((CheckForDecision e').1, rs ++ match (CheckForDecision e').2 with Some r => [r] | None => [] end).
Proof.
  revert e rs. induction l as [|[v now resp|] l IH]; intros e rs E; cbn [run app] in *.
  - injection E as -> <-. by destruct (CheckForDecision e') as [e1 [r|]].
  - destruct (VoteResponseRpcCallback e v now resp) as [e1| | |]; [|done..]. cbn [obind] in *. by apply IH.
  - destruct (CheckForDecision e) as [e1 r]. destruct (run e1 l) as [[e2 rs1]| | |] eqn:E1; [|done..].
    cbn [obind] in E. injection E as -> <-. rewrite (IH e1 rs1 E1). cbn [obind]. by destruct r.
Qed.

(** C21: An election is decided once and rightly.  Take the election a candidate
    starts in a configuration accepted by [VerifyRaftConfig], with its own vote
    counted.  Whatever the responses of the other voters (votes, failed calls,
    errors, higher terms, wrong uuids), in whatever order and however often they are
    handled and decisions looked for, no check fails and the decision callback is
    called at most once, with a decision; a granted decision means that a majority
    of the voters of the configuration did grant their vote, the candidate included.
    Once every other voter has answered, the next check makes sure that the callback
    has been called. *)
Theorem election_decides cfg type request c0 b c e events :
  VerifyRaftConfig cfg type = Ok () →
  VoteCounter.VoteCounter (CountVoters cfg) (MajoritySize (CountVoters cfg)) = Ok c0 →
  RegisterVote c0 (candidate_uuid request) kGranted = (b, c) →
  LeaderElection.LeaderElection cfg request c = Ok e →
  (∀ v now resp, Respond v now resp ∈ events → v ∈ voting_follower_uuids_ e) →
  ∃ e' rs, run e events = Ok (e', rs) ∧ (length rs ≤ 1)%nat ∧
    (∀ r, r ∈ rs → decided r = true ∧
      (decision r = kGranted → majority_of cfg (λ u, u = candidate_uuid request ∨
        ∃ now resp, Respond u now (Some resp) ∈ events ∧ grants (req_preelection request) u resp))) ∧
    ((∀ v, v ∈ voting_follower_uuids_ e → ∃ now resp, Respond v now resp ∈ events) →
      ∃ e1 r, run e (events ++ [Check]) = Ok (e1, [r])).
Proof.
  intros [Hcfg _]%verify_config_spec Hc0 Hc He Hev. set (G := λ u, u = candidate_uuid request ∨ _).
  destruct (new_election_ok cfg G request c0 b c e Hcfg Hc0 Hc He (or_introl eq_refl)) as (Hok & Eq & _ & _ & Eh).
  destruct (run_spec cfg G Hcfg e events Hok) as (e' & rs & E & He' & Ef & Ec & Hrs & Ha).
  { intros v now resp Hin. split; [by eapply Hev|]. rewrite Eq. intros r -> Hg. right. by exists now, r. }
  unfold calls in Ec. rewrite Eh in Ec.
  exists e', rs. split_and!; [done|destruct (has_responded_ e'); lia|done|].
  intros Hall. rewrite (run_check e events e' rs E).
  assert (∀ v, v ∈ voting_follower_uuids_ e' → answered e' v) as Hans.
  { intros v Hv. apply Ha. right. apply Hall. by rewrite <- Ef. }
  destruct (CheckForDecision e') as [e1 r] eqn:E1. cbn [fst snd].
  pose proof (check_after_all cfg G Hcfg e' e1 r He' Hans E1) as Hcalls. unfold calls in Hcalls.
  destruct (check_for_decision_ok cfg G e' e1 r He' E1) as (_ & _ & _ & Hsome & Hnone & _ & _).
  destruct r as [x|].
  - destruct (Hsome x eq_refl) as (Eh' & _ & _). rewrite Eh' in Ec. destruct rs; [|cbn in Ec; lia]. by exists e1, x.
  - rewrite (Hnone eq_refl) in Hcalls. destruct (has_responded_ e'); [|done].
    destruct rs as [|x [|]]; cbn in Ec; try lia. by exists e1, x.
Qed.

(** Two granted responses in a configuration of three, handled before anyone
    looks for a decision. *)
Definition sample_request : VoteRequestPB := Build_VoteRequestPB [1] 5 OpId.Min false false.
Definition sample_yes (u : Z) : VoteResponsePB := Build_VoteResponsePB [u] 5 true None [] None [] false false.
Definition sample_events : list event := [Respond [2] 0 (Some (sample_yes 2)); Respond [3] 0 None].

Lemma election_decides_witness :
  ∃ c0 c e e1 r, VoteCounter.VoteCounter (CountVoters RaftConfigProperties.sample_config)
      (MajoritySize (CountVoters RaftConfigProperties.sample_config)) = Ok c0 ∧
    RegisterVote c0 [1] kGranted = (Ok false, c) ∧
    LeaderElection.LeaderElection RaftConfigProperties.sample_config sample_request c = Ok e ∧
    run e (sample_events ++ [Check]) = Ok (e1, [r]).
Proof.
  destruct (VoteCounter.VoteCounter (CountVoters RaftConfigProperties.sample_config)
      (MajoritySize (CountVoters RaftConfigProperties.sample_config))) as [c0| | |] eqn:E0; [|done..].
  destruct (RegisterVote c0 [1] kGranted) as [b c] eqn:E1.
  destruct (LeaderElection.LeaderElection RaftConfigProperties.sample_config sample_request c) as [e| | |] eqn:E2.
  2-4: vm_compute in E0; injection E0 as <-; vm_compute in E1; injection E1 as <- <-; vm_compute in E2; discriminate E2.
  assert (voting_follower_uuids_ e = [[2]; [3]]) as Ef.
  { vm_compute in E0; injection E0 as <-; vm_compute in E1; injection E1 as <- <-; vm_compute in E2.
    injection E2 as <-. reflexivity. }
  assert (b = Ok false) as -> by (vm_compute in E0; injection E0 as <-; vm_compute in E1; by injection E1 as <- <-).
  destruct (election_decides RaftConfigProperties.sample_config COMMITTED_QUORUM sample_request c0 (Ok false) c e
    sample_events eq_refl E0 E1 E2) as (_ & _ & _ & _ & _ & H).
  - intros v now resp. rewrite Ef. unfold sample_events. rewrite !elem_of_cons.
    intros [H|[H|H]]; [injection H as -> -> ->|injection H as -> -> ->|by apply not_elem_of_nil in H]; tauto.
  - destruct H as (e1 & r & H).
    + intros v. rewrite Ef, !elem_of_cons. unfold sample_events. intros [->|[->|H]]; [| |by apply not_elem_of_nil in H];
        eexists _, _; rewrite !elem_of_cons; [left|right; left]; reflexivity.
    + by exists c0, c, e, e1, r.
Defined.

End ElectionRun.
