(* ===== verification/RaftElection.v ===== *)
(** * Leader election: the replicas

    Models the parts of consensus/replica_state.cc and
    consensus/raft_consensus.cc that change terms, votes and leaders
    ([Module Replica]), in an error and state monad whose state holds the replica,
    its metadata file and the results of the next writes of that file.
    [Module Cluster] runs replicas against each other under any interleaving, with
    loss, duplication and delay of messages, crashes and failed writes, in a
    configuration that does not change; [Module RaftElectionProperties] holds the
    theorems: at most one leader per term, and who a replica takes for the leader.

    Timers (failure detector, backoff, the delays after a step down) only decide
    when an election starts; here one may start at any time.  The queue, the peers
    and the replicated operations are not part of this state. *)

From S2P Require Import Prelude RaftConfig Election.

(** ** Replicas *)

Module Replica.
Import QuorumUtil ConsensusMetadata VoteCounter LeaderElection.

(** [disk_] is the metadata file, [log_op_id_] the last id in the log. *)
Record node := Node {
  cmeta_ : ConsensusMetadata.t;
  disk_ : ConsensusMetadataPB;
  running_ : bool;
  pending_election_opid_ : option OpId.t;
  last_received_op_id_ : OpId.t;
  last_received_op_id_current_leader_ : OpId.t;
  log_op_id_ : OpId.t;
  old_leader_lease_ : Lease.t;
  old_leader_ht_lease_ : Lease.t;
  majority_replicated_lease_expiration_ : Z;
  majority_replicated_ht_lease_expiration_ : Z;
  leader_no_op_committed_ : bool;
  withhold_votes_until_ : Z;
}.

Definition set_cmeta (n : node) (m : ConsensusMetadata.t) : node :=
  Node m (disk_ n) (running_ n) (pending_election_opid_ n) (last_received_op_id_ n)
    (last_received_op_id_current_leader_ n) (log_op_id_ n) (old_leader_lease_ n) (old_leader_ht_lease_ n)
    (majority_replicated_lease_expiration_ n) (majority_replicated_ht_lease_expiration_ n)
    (leader_no_op_committed_ n) (withhold_votes_until_ n).

Definition set_disk (n : node) (pb : ConsensusMetadataPB) : node :=
  Node (cmeta_ n) pb (running_ n) (pending_election_opid_ n) (last_received_op_id_ n)
    (last_received_op_id_current_leader_ n) (log_op_id_ n) (old_leader_lease_ n) (old_leader_ht_lease_ n)
    (majority_replicated_lease_expiration_ n) (majority_replicated_ht_lease_expiration_ n)
    (leader_no_op_committed_ n) (withhold_votes_until_ n).

Definition set_pending_election (n : node) (o : option OpId.t) : node :=
  Node (cmeta_ n) (disk_ n) (running_ n) o (last_received_op_id_ n)
    (last_received_op_id_current_leader_ n) (log_op_id_ n) (old_leader_lease_ n) (old_leader_ht_lease_ n)
    (majority_replicated_lease_expiration_ n) (majority_replicated_ht_lease_expiration_ n)
    (leader_no_op_committed_ n) (withhold_votes_until_ n).

Definition set_received_current (n : node) (o : OpId.t) : node :=
  Node (cmeta_ n) (disk_ n) (running_ n) (pending_election_opid_ n) (last_received_op_id_ n)
    o (log_op_id_ n) (old_leader_lease_ n) (old_leader_ht_lease_ n)
    (majority_replicated_lease_expiration_ n) (majority_replicated_ht_lease_expiration_ n)
    (leader_no_op_committed_ n) (withhold_votes_until_ n).

Definition set_leases (n : node) (l ht : Lease.t) (own own_ht : Z) : node :=
  Node (cmeta_ n) (disk_ n) (running_ n) (pending_election_opid_ n) (last_received_op_id_ n)
    (last_received_op_id_current_leader_ n) (log_op_id_ n) l ht own own_ht
    (leader_no_op_committed_ n) (withhold_votes_until_ n).

Definition set_no_op_committed (n : node) (b : bool) : node :=
  Node (cmeta_ n) (disk_ n) (running_ n) (pending_election_opid_ n) (last_received_op_id_ n)
    (last_received_op_id_current_leader_ n) (log_op_id_ n) (old_leader_lease_ n) (old_leader_ht_lease_ n)
    (majority_replicated_lease_expiration_ n) (majority_replicated_ht_lease_expiration_ n)
    b (withhold_votes_until_ n).

Definition set_withhold (n : node) (w : Z) : node :=
  Node (cmeta_ n) (disk_ n) (running_ n) (pending_election_opid_ n) (last_received_op_id_ n)
    (last_received_op_id_current_leader_ n) (log_op_id_ n) (old_leader_lease_ n) (old_leader_ht_lease_ n)
    (majority_replicated_lease_expiration_ n) (majority_replicated_ht_lease_expiration_ n)
    (leader_no_op_committed_ n) w.

(** *** The monad *)

(** A write of the metadata file succeeds, or fails with or without the new
    contents on disk.  When the list of results is used up, writes succeed. *)
Inductive flush_result := Flushed | NotFlushed (written : bool).

Definition world : Type := list flush_result * node.
Definition M (A : Type) : Type := world → outcome A * world.

Definition ret {A} (a : A) : M A := λ w, (Ok a, w).
Definition fail {A} (c : status_code) : M A := λ w, (Err c, w).
Definition fatal {A} : M A := λ w, (Fatal, w).
Definition bind {A B} (m : M A) (k : A → M B) : M B :=
  λ w, match m w with
       | (Ok a, w) => k a w
       | (Err c, w) => (Err c, w)
       | (Fatal, w) => (Fatal, w)
       | (UB, w) => (UB, w)
       end.
Definition get : M node := λ w, (Ok w.2, w).
Definition modify (f : node → node) : M () := λ w, (Ok (), (w.1, f w.2)).
Definition lift {A} (o : outcome A) : M A := λ w, (o, w).

(** The status of [m], errors included. *)
Definition try_ {A} (m : M A) : M (option status_code) :=
  λ w, match m w with
       | (Ok _, w) => (Ok None, w)
       | (Err c, w) => (Ok (Some c), w)
       | (Fatal, w) => (Fatal, w)
       | (UB, w) => (UB, w)
       end.

Declare Scope replica_scope.
Notation "'do!' x <- m ; k" := (bind m (λ x, k))
  (at level 10, x pattern, m at level 100, k at level 200) : replica_scope.
Notation "'run!' m ; k" := (bind m (λ _, k))
  (at level 10, m at level 100, k at level 200) : replica_scope.
Open Scope replica_scope.

(** *** ReplicaState *)

Definition kMonoMin : Z := - 2 ^ 63.
Definition kMonoMax : Z := 2 ^ 63 - 1.

Definition LockForConfigChange : M () :=
  do! n <- get; if running_ n then ret () else fail IllegalState.

(** [ConsensusMetadata::Flush]. *)
Definition Flush : M () :=
  do! n <- get;
  run! lift (VerifyRaftConfig (committed_config (cmeta_ n)) COMMITTED_QUORUM);
  λ w, match w.1 with
       | [] => (Ok (), ([], set_disk w.2 (pb_ (cmeta_ w.2))))
       | Flushed :: io => (Ok (), (io, set_disk w.2 (pb_ (cmeta_ w.2))))
       | NotFlushed written :: io =>
           (Err IOError, (io, if written then set_disk w.2 (pb_ (cmeta_ w.2)) else w.2))
       end.

Definition update_cmeta (f : ConsensusMetadata.t → outcome ConsensusMetadata.t) : M () :=
  do! n <- get;
  do! m <- lift (f (cmeta_ n));
  modify (λ n, set_cmeta n m).

Definition GetCurrentTermUnlocked : M Z := do! n <- get; ret (current_term (cmeta_ n)).
Definition GetActiveRoleUnlocked : M Role := do! n <- get; ret (active_role_ (cmeta_ n)).
Definition GetLeaderUuidUnlocked : M bytes := do! n <- get; ret (leader_uuid_ (cmeta_ n)).
Definition HasLeaderUnlocked : M bool := do! l <- GetLeaderUuidUnlocked; ret (bool_decide (l ≠ [])).
Definition GetPeerUuid : M bytes := do! n <- get; ret (peer_uuid_ (cmeta_ n)).
Definition GetActiveConfigUnlocked : M RaftConfigPB := do! n <- get; ret (active_config (cmeta_ n)).

Definition SetLeaderUuidUnlocked (uuid : bytes) : M () := update_cmeta (λ m, set_leader_uuid m uuid).
Definition ClearLeaderUnlocked : M () := SetLeaderUuidUnlocked [].

Definition SetCurrentTermUnlocked (new_term : Z) : M () :=
  do! term <- GetCurrentTermUnlocked;
  if new_term <=? term then fail IllegalState
  else
    run! update_cmeta (λ m, set_current_term m new_term);
    run! update_cmeta (λ m, Ok (clear_voted_for m));
    run! Flush;
    run! ClearLeaderUnlocked;
    modify (λ n, set_received_current n OpId.Min).

(** [CHECK_OK(cmeta_->Flush())]. *)
Definition SetVotedForCurrentTermUnlocked (uuid : bytes) : M () :=
  run! update_cmeta (λ m, Ok (set_voted_for m uuid));
  do! s <- try_ Flush;
  match s with None => ret () | Some _ => fatal end.

(** The remaining duration in nanoseconds. *)
Definition RemainingOldLeaderLeaseDuration (now : Z) : M (option Z) :=
  do! n <- get;
  if Lease.has_value Lease.kCoarseNone (old_leader_lease_ n) then
    if Lease.expiration (old_leader_lease_ n) <? now then
      run! modify (λ n, set_leases n (Lease.none Lease.kCoarseNone) (old_leader_ht_lease_ n)
                         (majority_replicated_lease_expiration_ n) (majority_replicated_ht_lease_expiration_ n));
      ret None
    else ret (Some (Lease.expiration (old_leader_lease_ n) - now))
  else ret None.

Definition UpdateOldLeaderLeaseExpirationOnNonLeaderUnlocked (lease ht_lease : Lease.t) : M () :=
  modify (λ n, set_leases n (Lease.TryUpdate (old_leader_lease_ n) lease)
                 (Lease.TryUpdate (old_leader_ht_lease_ n) ht_lease) Lease.kCoarseNone Lease.kMicrosNone).

(** *** RaftConsensus *)

(** The queue, the observers and the peers are not part of this state, and the
    failure detector is left out; [UnRegisterObserver] reports no error but
    [NotFound], which is ignored. *)
Definition BecomeReplicaUnlocked : M () :=
  run! ClearLeaderUnlocked;
  modify (λ n, set_withhold n kMonoMin).

(** The first NO_OP of the term is left to the replicated log. *)
Definition BecomeLeaderUnlocked : M () := modify (λ n, set_withhold n kMonoMax).

Definition HandleTermAdvanceUnlocked (new_term : Z) : M () :=
  do! term <- GetCurrentTermUnlocked;
  if new_term <=? term then fail IllegalState
  else
    do! role <- GetActiveRoleUnlocked;
    run! (if bool_decide (role = LEADER) then BecomeReplicaUnlocked else ret ());
    SetCurrentTermUnlocked new_term.

Definition IncrementTermUnlocked : M () :=
  do! term <- GetCurrentTermUnlocked; HandleTermAdvanceUnlocked (term + 1).

(** A response with the fields every response has. *)
Definition response (uuid : bytes) (pre granted : bool) (term : Z) : VoteResponsePB :=
  Build_VoteResponsePB uuid term granted None [] None [] pre false.

Definition with_leases (r : VoteResponsePB) (remaining : option Z) (holder : bytes) (ht : Lease.t) : VoteResponsePB :=
  Build_VoteResponsePB (responder_uuid r) (responder_term r) (vote_granted r)
    (match remaining with Some d => Some (Z.quot d kNanosPerMilli) | None => None end)
    (match remaining with Some _ => holder | None => [] end)
    (if Lease.has_value Lease.kMicrosNone ht then Some (Lease.expiration ht) else None)
    (if Lease.has_value Lease.kMicrosNone ht then Lease.holder_uuid ht else [])
    (resp_preelection r) (has_error r).

Definition FillVoteResponseVoteGranted (request : VoteRequestPB) (uuid : bytes) : VoteResponsePB :=
  response uuid (req_preelection request) true (candidate_term request).

Definition FillVoteResponseVoteDenied (request : VoteRequestPB) (uuid : bytes) : M VoteResponsePB :=
  do! term <- GetCurrentTermUnlocked; ret (response uuid (req_preelection request) false term).

Definition RequestVoteRespondVoteGranted (request : VoteRequestPB) (uuid : bytes) : M VoteResponsePB :=
  run! SetVotedForCurrentTermUnlocked (candidate_uuid request);
  ret (FillVoteResponseVoteGranted request uuid).

(** [busy]: the update lock is held by another request.  [now] and
    [coarse_now] are the two clocks. *)
Definition RequestVote (busy : bool) (now coarse_now : Z) (request : VoteRequestPB) : M VoteResponsePB :=
  do! uuid <- GetPeerUuid;
  run! LockForConfigChange;
  if busy then FillVoteResponseVoteDenied request uuid
  else
    do! n <- get;
    let m := cmeta_ n in
    if bool_decide (candidate_uuid request ≠ leader_uuid_ m) && negb (ignore_live_leader request) &&
       (now <? withhold_votes_until_ n)
    then FillVoteResponseVoteDenied request uuid
    else if candidate_term request <? current_term m then FillVoteResponseVoteDenied request uuid
    else if (candidate_term request =? current_term m) && has_voted_for m then
      if bool_decide (voted_for m = candidate_uuid request)
      then ret (FillVoteResponseVoteGranted request uuid)
      else FillVoteResponseVoteDenied request uuid
    else
      run! (if (current_term m <? candidate_term request) && negb (req_preelection request)
            then HandleTermAdvanceUnlocked (candidate_term request) else ret ());
      do! n <- get;
      if OpId.OpIdLessThan (last_received request) (log_op_id_ n)
      then FillVoteResponseVoteDenied request uuid
      else
        run! (if req_preelection request then ret () else modify (λ n, set_pending_election n None));
        do! remaining <- RemainingOldLeaderLeaseDuration coarse_now;
        do! n <- get;
        let leases r := with_leases r remaining (Lease.holder_uuid (old_leader_lease_ n)) (old_leader_ht_lease_ n) in
        if req_preelection request then ret (leases (FillVoteResponseVoteGranted request uuid))
        else do! r <- RequestVoteRespondVoteGranted request uuid; ret (leases r).

(** [ignore_live] is [ELECT_EVEN_IF_LEADER_IS_ALIVE]. *)
Definition CreateElectionUnlocked (ignore_live preelection : bool) : M LeaderElection.t :=
  run! (if preelection then ret () else IncrementTermUnlocked);
  do! term <- GetCurrentTermUnlocked;
  let new_term := if preelection then term + 1 else term in
  do! active_config <- GetActiveConfigUnlocked;
  let num_voters := CountVoters active_config in
  let majority_size := MajoritySize num_voters in
  do! uuid <- GetPeerUuid;
  run! (if preelection then ret () else SetVotedForCurrentTermUnlocked uuid);
  do! counter <- lift (VoteCounter.VoteCounter num_voters majority_size);
  let '(s, counter) := RegisterVote counter uuid kGranted in
  do! duplicate <- lift s;
  run! (if duplicate : bool then fatal else ret ());
  do! n <- get;
  let request := Build_VoteRequestPB uuid new_term (last_received_op_id_ n) ignore_live preelection in
  do! e <- lift (LeaderElection.LeaderElection active_config request counter);
  run! (if preelection then ret () else modify (λ n, set_pending_election n None));
  ret e.

(** [LeaderElectionData], with the committed index after the attempt to advance it
    to the required id. *)
Record LeaderElectionData := {
  ignore_live : bool;
  initial_election : bool;
  pending_commit : bool;
  must_be_committed_opid : option OpId.t;
  committed_index : Z;
}.

(** [preelections]: pre-elections are enabled and not suspended. *)
Definition DoStartElection (data : LeaderElectionData) (preelections preelected : bool)
    : M (option LeaderElection.t) :=
  let preelection := preelections && negb preelected in
  run! LockForConfigChange;
  do! n <- get;
  if initial_election data && negb (current_term (cmeta_ n) =? 0) then ret None
  else
    match active_role_ (cmeta_ n) with
    | LEADER | LEARNER | READ_REPLICA => ret None
    | NON_PARTICIPANT => fail IllegalState
    | FOLLOWER | UNKNOWN_ROLE =>
        let required_id :=
          match must_be_committed_opid data with
          | Some o => o
          | None => default OpId.Min (pending_election_opid_ n)
          end in
        let start_now := negb (pending_commit data) || (OpId.index required_id <=? committed_index data) in
        if start_now then do! e <- CreateElectionUnlocked (ignore_live data) preelection; ret (Some e)
        else
          match must_be_committed_opid data with
          | Some o => run! modify (λ n, set_pending_election n (Some o)); ret None
          | None => ret None
          end
    end.

(** Whether a won pre-election starts the election. *)
Definition DoElectionCallback (result : ElectionResult) : M bool :=
  if bool_decide (decision result = kDenied) then
    match higher_term result with
    | Some term => run! try_ (run! LockForConfigChange; HandleTermAdvanceUnlocked term); ret false
    | None => ret false
    end
  else
    do! s <- try_ LockForConfigChange;
    match s with
    | Some _ => ret false
    | None =>
        do! n <- get;
        let m := cmeta_ n in
        let desired_term := current_term m + (if preelection result then 1 else 0) in
        if negb (election_term result =? desired_term) then ret false
        else if negb (IsRaftConfigVoter (peer_uuid_ m) (active_config m)) then ret false
        else if preelection result then ret true
        else if bool_decide (active_role_ m = LEADER) then ret false
        else
          run! UpdateOldLeaderLeaseExpirationOnNonLeaderUnlocked (old_leader_lease result) (old_leader_ht_lease result);
          run! modify (λ n, set_no_op_committed n false);
          run! SetLeaderUuidUnlocked (peer_uuid_ m);
          run! BecomeLeaderUnlocked;
          ret false
    end.

(** Whether the request is rejected with INVALID_TERM. *)
Definition HandleLeaderRequestTermUnlocked (caller_term : Z) : M bool :=
  do! term <- GetCurrentTermUnlocked;
  if negb (caller_term =? term) then
    if caller_term <? term then ret true
    else run! HandleTermAdvanceUnlocked caller_term; ret false
  else ret false.

(** [sequence_ok] is the result of the checks before the term is looked at
    (deduplication, operation ids in sequence), [log_ok] that of the checks on the
    log after it; both concern the replicated operations. *)
Definition CheckLeaderRequestUnlocked (caller_uuid : bytes) (caller_term : Z) (sequence_ok log_ok : bool) : M () :=
  run! LockForConfigChange;
  if negb sequence_ok then fail IllegalState
  else
    do! rejected <- HandleLeaderRequestTermUnlocked caller_term;
    if rejected : bool then ret ()
    else if negb log_ok then ret ()
    else
      do! has_leader <- HasLeaderUnlocked;
      do! leader <- GetLeaderUuidUnlocked;
      if has_leader && bool_decide (leader ≠ caller_uuid) then fatal
      else if has_leader then ret ()
      else SetLeaderUuidUnlocked caller_uuid.

End Replica.

(** ** What handlers keep *)


Module ReplicaFacts.
Import QuorumUtil QuorumFacts ConsensusMetadata VoteCounter LeaderElection ElectionFacts Replica.

(** *** Votes *)

Definition term_of (pb : ConsensusMetadataPB) : Z := default 0 (current_term_ pb).

(** Terms grow, and the vote of a term is given once. *)
Definition vote_le (p q : ConsensusMetadataPB) : Prop :=
  term_of p < term_of q ∨ term_of p = term_of q ∧ (voted_for_ p = None ∨ voted_for_ p = voted_for_ q).

#[export] Instance vote_le_preorder : PreOrder vote_le.
Proof.
  split.
  - intros p. right. auto.
  - intros p q r [?|[? [Hp|Hp]]] [?|[? [Hq|Hq]]]; unfold vote_le; try (left; lia); right; split; try lia;
      rewrite ?Hp; auto.
Qed.

(** The vote [c] in term [t] is on record. *)
Definition voted (pb : ConsensusMetadataPB) (t : Z) (c : bytes) : Prop :=
  t < term_of pb ∨ term_of pb = t ∧ voted_for_ pb = Some c.

(** The same, of the current term. *)
Definition voted_now (pb : ConsensusMetadataPB) (t : Z) (c : bytes) : Prop :=
  term_of pb = t ∧ voted_for_ pb = Some c.

Lemma voted_le p q t c : voted p t c → vote_le p q → voted q t c.
Proof.
  intros [?|[? Hv]] [?|[? [Hn|Hn]]]; unfold voted; try (left; lia); right; split; try lia; congruence.
Qed.

Section Facts.
Context (cfg : RaftConfigPB) (Hcfg : VerifyRaftConfig cfg COMMITTED_QUORUM = Ok ()).

(** *** A replica between two handlers *)

(** Memory is ahead of the file only by a term without a vote. *)
Definition synced (mem file : ConsensusMetadataPB) : Prop :=
  term_of file < term_of mem ∧ voted_for_ mem = None ∨
  term_of file = term_of mem ∧ voted_for_ file = voted_for_ mem.

(** The role of [u] when [l] is known as leader. *)
Definition role_in (u l : bytes) : Role := GetConsensusRole u (CState None (Some l) (Some cfg)).

Record meta_ok (u : bytes) (m : ConsensusMetadata.t) : Prop := {
  mo_uuid : peer_uuid_ m = u;
  mo_config : committed_config_ (pb_ m) = Some cfg;
  mo_pending : pending_config_ m = None;
  mo_role : active_role_ m = role_in u (leader_uuid_ m);
}.

Record node_ok (u : bytes) (n : node) : Prop := {
  no_uuid : u ≠ [];
  no_meta : meta_ok u (cmeta_ n);
  no_disk : committed_config_ (disk_ n) = Some cfg;
  no_synced : synced (pb_ (cmeta_ n)) (disk_ n);
}.

(** From [n] to [n'] without becoming leader; [calm] when no write failed. *)
Record evolves (calm : Prop) (n n' : node) : Prop := {
  ev_running : running_ n' = running_ n;
  ev_disk : vote_le (disk_ n) (disk_ n');
  ev_mem : vote_le (pb_ (cmeta_ n)) (pb_ (cmeta_ n'));
  ev_leader : active_role_ (cmeta_ n') = LEADER →
    active_role_ (cmeta_ n) = LEADER ∧ term_of (pb_ (cmeta_ n')) = term_of (pb_ (cmeta_ n));
  ev_known : calm → leader_uuid_ (cmeta_ n') = [] ∨
    leader_uuid_ (cmeta_ n') = leader_uuid_ (cmeta_ n) ∧
    term_of (pb_ (cmeta_ n')) = term_of (pb_ (cmeta_ n));
}.

#[export] Instance evolves_preorder calm : PreOrder (evolves calm).
Proof.
  split.
  - intros n. split; try done. by right.
  - intros a b c [R1 D1 M1 L1 K1] [R2 D2 M2 L2 K2]. split.
    + congruence.
    + by etrans.
    + by etrans.
    + intros H. destruct (L2 H) as [H2 E2]. destruct (L1 H2) as [H1 E1]. split; [done|congruence].
    + intros Hc. destruct (K2 Hc) as [?|[E2 T2]]; [by left|]. destruct (K1 Hc) as [E1|[E1 T1]].
      * left. congruence.
      * right. split; congruence.
Qed.

(** The worlds handlers reach from [w0], and what is left of them when the process
    dies. *)
Definition reached (u : bytes) (w0 w : world) : Prop :=
  (w0.1 = [] → w.1 = []) ∧ node_ok u w.2 ∧ evolves (w0.1 = []) w0.2 w.2.

Definition crashed (w0 w : world) : Prop :=
  vote_le (disk_ w0.2) (disk_ w.2) ∧ committed_config_ (disk_ w.2) = Some cfg.

(** *** Weakest preconditions *)

Definition wp {A} (u : bytes) (w0 : world) (m : M A) (Q : A → world → Prop) (w : world) : Prop :=
  match m w with
  | (Ok a, w') => Q a w'
  | (Err _, w') => reached u w0 w'
  | (Fatal, w') => crashed w0 w'
  | (UB, _) => False
  end.

Section Rules.
Context (u : bytes) (w0 : world).

Lemma wp_bind {A B} (m : M A) (k : A → M B) Q w :
  wp u w0 m (λ a, wp u w0 (k a) Q) w → wp u w0 (bind m k) Q w.
Proof. unfold wp, bind. by destruct (m w) as [[a|c| |] w']. Qed.

Lemma wp_mono {A} (m : M A) (Q Q' : A → world → Prop) w :
  wp u w0 m Q w → (∀ a w', Q a w' → Q' a w') → wp u w0 m Q' w.
Proof. unfold wp. destruct (m w) as [[a|c| |] w']; auto. Qed.

Lemma wp_get (Q : node → world → Prop) w : Q w.2 w → wp u w0 get Q w.
Proof. done. Qed.

Lemma wp_ret {A} (a : A) (Q : A → world → Prop) w : Q a w → wp u w0 (ret a) Q w.
Proof. done. Qed.

Lemma wp_modify f (Q : () → world → Prop) w : Q () (w.1, f w.2) → wp u w0 (modify f) Q w.
Proof. done. Qed.

Lemma wp_fail {A} c (Q : A → world → Prop) w : reached u w0 w → wp u w0 (fail c) Q w.
Proof. done. Qed.

Lemma wp_fatal {A} (Q : A → world → Prop) w : crashed w0 w → wp u w0 fatal Q w.
Proof. done. Qed.

Lemma wp_lift {A} (o : outcome A) (Q : A → world → Prop) w :
  o ≠ UB → reached u w0 w → (∀ a, o = Ok a → Q a w) → wp u w0 (lift o) Q w.
Proof.
  intros Ho (Hio & Hn & He) HQ. unfold wp, lift. destruct o; [by apply HQ|done| |done].
  split; [apply He|apply Hn].
Qed.

Lemma reached_refl : node_ok u w0.2 → reached u w0 w0.
Proof. intros H. by split_and!. Qed.

Lemma reached_crashed w : reached u w0 w → crashed w0 w.
Proof. intros (_ & Hn & He). split; [apply He|apply Hn]. Qed.

(** Changes outside the metadata. *)
Lemma reached_same w n' :
  reached u w0 w → cmeta_ n' = cmeta_ w.2 → disk_ n' = disk_ w.2 → running_ n' = running_ w.2 →
  reached u w0 (w.1, n').
Proof.
  intros (Hio & [Hu Hm Hd Hs] & [R D M L K]) E1 E2 E3.
  split_and!; [done|split; cbn; by rewrite ?E1, ?E2|split; cbn; by rewrite ?E1, ?E2, ?E3].
Qed.

(** *** Metadata *)

Lemma cache_fields m m' :
  UpdateRoleAndTermCache m = Ok m' →
  peer_uuid_ m' = peer_uuid_ m ∧ pb_ m' = pb_ m ∧ pending_config_ m' = pending_config_ m ∧
  leader_uuid_ m' = leader_uuid_ m ∧ active_role_ m' = active_role_ m.
Proof. unfold UpdateRoleAndTermCache. destruct (PackRoleAndTerm _ _); [|done..]. by intros [= <-]. Qed.

Lemma cache_no_ub m : UpdateRoleAndTermCache m ≠ UB.
Proof. unfold UpdateRoleAndTermCache, PackRoleAndTerm. by case_test. Qed.

Lemma role_eq m :
  peer_uuid_ m = u → committed_config_ (pb_ m) = Some cfg → pending_config_ m = None →
  GetConsensusRole (peer_uuid_ m) (ToConsensusStatePB true m) = role_in u (leader_uuid_ m).
Proof.
  intros Hu Hc Hp. unfold role_in, GetConsensusRole, ToConsensusStatePB, active_config, has_pending_config, committed_config.
  by rewrite Hu, Hp, Hc.
Qed.

Lemma set_leader_spec m x m' :
  meta_ok u m → set_leader_uuid m x = Ok m' → meta_ok u m' ∧ leader_uuid_ m' = x ∧ pb_ m' = pb_ m.
Proof.
  intros [Hu Hc Hp Hr] (E1 & E2 & E3 & E4 & E5)%cache_fields. cbn [peer_uuid_ pb_ pending_config_ leader_uuid_] in E1, E2, E3, E4.
  cbn [active_role_] in E5. rewrite (role_eq (ConsensusMetadata.mk _ _ _ x _ _)) in E5 by done. cbn [leader_uuid_] in E5.
  split_and!; [|done..]. split; [congruence|by rewrite E2|congruence|by rewrite E5, E4].
Qed.

Lemma set_term_spec m t m' :
  meta_ok u m → set_current_term m t = Ok m' →
  meta_ok u m' ∧ leader_uuid_ m' = leader_uuid_ m ∧ active_role_ m' = active_role_ m ∧
  pb_ m' = PB (Some cfg) (Some t) (voted_for_ (pb_ m)).
Proof.
  intros [Hu Hc Hp Hr] (E1 & E2 & E3 & E4 & E5)%cache_fields. cbn in E1, E2, E3, E4, E5. rewrite Hc in E2.
  split_and!; [|done..]. split; try congruence. by rewrite E2.
Qed.

Lemma with_vote_spec m v :
  meta_ok u m → meta_ok u (with_pb m (PB (committed_config_ (pb_ m)) (current_term_ (pb_ m)) v)).
Proof. intros [Hu Hc Hp Hr]. by split. Qed.

Lemma leader_empty m : meta_ok u m → u ≠ [] → leader_uuid_ m = [] → active_role_ m ≠ LEADER.
Proof.
  intros [Hu Hc Hp Hr] Hne Hl. rewrite Hr, Hl. unfold role_in. rewrite RaftConfigProperties.leader_role. cbn.
  naive_solver.
Qed.

(** *** Setting terms, votes and leaders *)

Lemma flush_spec io n :
  committed_config_ (pb_ (cmeta_ n)) = Some cfg →
  Flush (io, n) =
  match io with
  | [] => (Ok (), ([], set_disk n (pb_ (cmeta_ n))))
  | Flushed :: io => (Ok (), (io, set_disk n (pb_ (cmeta_ n))))
  | NotFlushed written :: io => (Err IOError, (io, if written then set_disk n (pb_ (cmeta_ n)) else n))
  end.
Proof.
  intros Hc. unfold Flush, bind, get, lift. cbn [snd]. unfold committed_config. rewrite Hc.
  change (default (Config None []) (Some cfg)) with cfg. by rewrite Hcfg.
Qed.

Lemma wp_update f (Q : () → world → Prop) w :
  (∀ m, f (cmeta_ w.2) = Ok m → Q () (w.1, set_cmeta w.2 m)) →
  (f (cmeta_ w.2) = Fatal ∨ ∃ m, f (cmeta_ w.2) = Ok m) → crashed w0 w → wp u w0 (update_cmeta f) Q w.
Proof.
  intros HQ Hf Hc. apply wp_bind, wp_get, wp_bind. unfold wp at 1, lift.
  destruct Hf as [E|[m E]]; rewrite E; [done|]. apply wp_modify. by apply HQ.
Qed.

Lemma cache_cases m : UpdateRoleAndTermCache m = Fatal ∨ ∃ m', UpdateRoleAndTermCache m = Ok m'.
Proof. unfold UpdateRoleAndTermCache, PackRoleAndTerm. case_test; [right; by eexists|by left]. Qed.

(** A world that is reached once the leader is cleared. *)
Definition stale (w : world) : Prop :=
  (w0.1 = [] → w.1 = []) ∧ node_ok u w.2 ∧ running_ w.2 = running_ w0.2 ∧
  vote_le (disk_ w0.2) (disk_ w.2) ∧ vote_le (pb_ (cmeta_ w0.2)) (pb_ (cmeta_ w.2)).

Lemma reached_stale w : reached u w0 w → stale w.
Proof. intros (Hio & Hn & [R D M L K]). by split_and!. Qed.

Lemma wp_clear_leader w :
  stale w →
  wp u w0 ClearLeaderUnlocked (λ _ w', reached u w0 w' ∧ leader_uuid_ (cmeta_ w'.2) = [] ∧
    active_role_ (cmeta_ w'.2) ≠ LEADER ∧ pb_ (cmeta_ w'.2) = pb_ (cmeta_ w.2) ∧ disk_ w'.2 = disk_ w.2) w.
Proof.
  intros (Hio & [Hu Hm Hd Hs] & R & D & M).
  apply wp_update; [|apply cache_cases|done]. intros m (Hm' & El & Ep)%set_leader_spec; [|done].
  cbn. pose proof (leader_empty m Hm' Hu El) as Hrole.
  split_and!; try done. split_and!; [done|split; cbn; by rewrite ?Ep|].
  split; cbn; rewrite ?Ep; try done. intros _. by left.
Qed.

Lemma disk_behind n : synced (pb_ (cmeta_ n)) (disk_ n) → term_of (disk_ n) <= term_of (pb_ (cmeta_ n)).
Proof. intros [[? _]|[? _]]; lia. Qed.

Lemma wp_set_current_term t w :
  reached u w0 w → active_role_ (cmeta_ w.2) ≠ LEADER →
  wp u w0 (SetCurrentTermUnlocked t) (λ _ w', reached u w0 w' ∧ active_role_ (cmeta_ w'.2) ≠ LEADER ∧
    leader_uuid_ (cmeta_ w'.2) = [] ∧ pb_ (cmeta_ w'.2) = PB (Some cfg) (Some t) None ∧
    disk_ w'.2 = PB (Some cfg) (Some t) None) w.
Proof.
  intros Hw Hrole. pose proof Hw as (Hio & [Hu Hm Hd Hs] & [R D M L K]).
  apply wp_bind, wp_bind, wp_get, wp_ret. case_test; [by apply wp_fail|].
  change (current_term (cmeta_ w.2)) with (term_of (pb_ (cmeta_ w.2))) in *.
  pose proof (disk_behind _ Hs) as Hle.
  apply wp_bind, wp_update; [|apply cache_cases|by eapply reached_crashed].
  intros m (Hm1 & El & Er & Ep)%set_term_spec; [|done].
  apply wp_bind, wp_update; [|by right; eexists|split; [apply D|done]]. intros m2 [= <-].
  pose proof (with_vote_spec m None Hm1) as Hm2. rewrite Ep in Hm2. cbn [committed_config_ current_term_] in Hm2.
  cbn [fst snd set_cmeta cmeta_]. unfold clear_voted_for. rewrite Ep. cbn [committed_config_ current_term_].
  set (pb := PB (Some cfg) (Some t) None) in *.
  assert (vote_le (disk_ w.2) pb) as D1 by (left; cbn; lia).
  assert (vote_le (pb_ (cmeta_ w.2)) pb) as M1 by (left; cbn; lia).
  set (n1 := set_cmeta _ _).
  assert (∀ d, committed_config_ d = Some cfg → (d = disk_ w.2 ∨ d = pb) → w0.1 ≠ [] →
    ∀ io, reached u w0 (io, set_disk n1 d)) as Hfail.
  { intros d Hcd Hd' Hne io. split_and!; [done|split; cbn; try done|split; cbn; try done].
    - destruct Hd' as [->| ->]; [left; cbn; split; [lia|done]|by right].
    - destruct Hd' as [->| ->]; [done|by etrans].
    - by etrans.
    - intros Hl. by rewrite Er in Hl. }
  apply wp_bind. unfold wp at 1. rewrite flush_spec by done.
  assert (∀ io, (w0.1 = [] → io = []) → wp u w0 (bind ClearLeaderUnlocked (λ _, modify (λ n, set_received_current n OpId.Min)))
    (λ _ w', reached u w0 w' ∧ active_role_ (cmeta_ w'.2) ≠ LEADER ∧ leader_uuid_ (cmeta_ w'.2) = [] ∧
      pb_ (cmeta_ w'.2) = pb ∧ disk_ w'.2 = pb) (io, set_disk n1 pb)) as Hok.
  { intros io Hio'. apply wp_bind. eapply wp_mono; [apply wp_clear_leader|].
    - split_and!; [done|split; cbn; try done; by right|done|by etrans|by etrans].
    - intros _ w' (Hw' & El' & Er' & Ep' & Ed'). apply wp_modify. cbn [fst snd] in *.
      split_and!; [by apply (reached_same w')|done..]. }
  destruct w.1 as [|[|written] io] eqn:Ew; cbn [fst]; [by apply Hok|apply Hok; by intros ?%Hio|].
  destruct written.
  - apply Hfail; [done|by right|by intros ?%Hio].
  - apply (Hfail (disk_ w.2)); [done|by left|by intros ?%Hio].
Qed.

Lemma wp_set_voted_for c w :
  reached u w0 w → voted_for_ (pb_ (cmeta_ w.2)) = None →
  wp u w0 (SetVotedForCurrentTermUnlocked c) (λ _ w', reached u w0 w' ∧
    pb_ (cmeta_ w'.2) = PB (Some cfg) (current_term_ (pb_ (cmeta_ w.2))) (Some c) ∧
    disk_ w'.2 = pb_ (cmeta_ w'.2)) w.
Proof.
  intros Hw Hv. pose proof Hw as (Hio & [Hu Hm Hd Hs] & [R D M L K]).
  apply wp_bind, wp_update; [|by right; eexists|by eapply reached_crashed]. intros m [= <-].
  pose proof (with_vote_spec (cmeta_ w.2) (Some c) Hm) as Hm1. unfold set_voted_for.
  set (pb := PB _ _ (Some c)) in *. set (n1 := set_cmeta w.2 _).
  assert (vote_le (pb_ (cmeta_ w.2)) pb) as M1 by (right; auto).
  assert (vote_le (disk_ w.2) pb) as D1.
  { destruct Hs as [[? _]|[? Hv']]; [by left|]. right. split; [done|left; congruence]. }
  apply wp_bind. unfold try_ at 1, wp at 1. rewrite flush_spec by apply Hm1.
  assert (∀ io, (w0.1 = [] → io = []) → reached u w0 (io, set_disk n1 pb)) as Hok.
  { intros io Hio'. split_and!; [done|split; cbn; try done; [apply Hm|by right]|].
    split; cbn; try done; by etrans. }
  assert (pb = PB (Some cfg) (current_term_ (pb_ (cmeta_ w.2))) (Some c)) as Epb by (unfold pb; by rewrite (mo_config _ _ Hm)).
  destruct w.1 as [|[|written] io] eqn:Ew; cbn [fst snd].
  - apply wp_ret. split_and!; [by apply Hok|done..].
  - apply wp_ret. split_and!; [apply Hok; by intros ?%Hio|done..].
  - apply wp_fatal. destruct written; (split; cbn; [by etrans|]); [apply Hm|done].
Qed.

Lemma wp_term_advance t w :
  reached u w0 w →
  wp u w0 (HandleTermAdvanceUnlocked t) (λ _ w', reached u w0 w' ∧
    leader_uuid_ (cmeta_ w'.2) = [] ∧ pb_ (cmeta_ w'.2) = PB (Some cfg) (Some t) None ∧
    disk_ w'.2 = PB (Some cfg) (Some t) None) w.
Proof.
  intros Hw. apply wp_bind, wp_bind, wp_get, wp_ret. case_test; [by apply wp_fail|].
  apply wp_bind, wp_bind, wp_get, wp_ret, wp_bind. case_bool_decide.
  - apply wp_bind. eapply wp_mono; [by apply wp_clear_leader, reached_stale|].
    intros _ w1 (Hw1 & _ & Hr1 & _). apply wp_modify. cbn beta.
    eapply wp_mono; [apply wp_set_current_term|]; [|done|naive_solver].
    by apply (reached_same w1).
  - apply wp_ret. eapply wp_mono; [by apply wp_set_current_term|naive_solver].
Qed.

(** *** Handlers *)

Lemma wp_denied request x w :
  reached u w0 w →
  wp u w0 (FillVoteResponseVoteDenied request x) (λ r w', reached u w0 w' ∧ responder_uuid r = x ∧
    vote_granted r = false) w.
Proof. intros Hw. by apply wp_bind, wp_bind, wp_get, wp_ret. Qed.

(** The vote in memory is on disk. *)
Lemma voted_on_disk n t c :
  synced (pb_ (cmeta_ n)) (disk_ n) → term_of (pb_ (cmeta_ n)) = t →
  voted_for_ (pb_ (cmeta_ n)) = Some c → voted_now (disk_ n) t c.
Proof. intros [[_ ?]|[? ?]] Ht Hv; [congruence|]. split; congruence. Qed.

Lemma wp_remaining now w (Q : option Z → world → Prop) :
  reached u w0 w →
  (∀ r w', reached u w0 w' → cmeta_ w'.2 = cmeta_ w.2 → disk_ w'.2 = disk_ w.2 → Q r w') →
  wp u w0 (RemainingOldLeaderLeaseDuration now) Q w.
Proof.
  intros Hw HQ. apply wp_bind, wp_get. repeat case_test; [|by apply wp_ret, HQ..].
  apply wp_bind, wp_modify, wp_ret, HQ; [|done..]. by apply (reached_same w).
Qed.

Definition granted_post (request : VoteRequestPB) (r : VoteResponsePB) (w : world) : Prop :=
  reached u w0 w ∧ responder_uuid r = u ∧
  (vote_granted r = true → req_preelection request = false →
    voted_now (disk_ w.2) (candidate_term request) (candidate_uuid request)).

Lemma denied_post request w :
  reached u w0 w → wp u w0 (FillVoteResponseVoteDenied request u) (granted_post request) w.
Proof.
  intros Hw. eapply wp_mono; [by apply wp_denied|]. intros r w' (? & ? & E). split_and!; [done..|congruence].
Qed.

(** Granting the vote in the current term. *)
Lemma wp_grant coarse_now request w :
  reached u w0 w →
  (req_preelection request = false →
    voted_for_ (pb_ (cmeta_ w.2)) = None ∧ term_of (pb_ (cmeta_ w.2)) = candidate_term request) →
  wp u w0
    (bind (if req_preelection request then ret () else modify (λ n, set_pending_election n None)) (λ _,
     bind (RemainingOldLeaderLeaseDuration coarse_now) (λ remaining,
     bind get (λ n,
     let leases r := with_leases r remaining (Lease.holder_uuid (old_leader_lease_ n)) (old_leader_ht_lease_ n) in
     if req_preelection request then ret (leases (FillVoteResponseVoteGranted request u))
     else bind (RequestVoteRespondVoteGranted request u) (λ r, ret (leases r))))))
    (granted_post request) w.
Proof.
  intros Hw Hreal. destruct (req_preelection request) eqn:Epre.
  - apply wp_bind, wp_ret, wp_bind, wp_remaining; [done|]. intros r w1 Hw1 _ _.
    apply wp_bind, wp_get, wp_ret. split_and!; [done..|congruence].
  - destruct (Hreal eq_refl) as [Hv Ht]. apply wp_bind, wp_modify, wp_bind, wp_remaining.
    { by apply (reached_same w). }
    intros r w1 Hw1 Em Ed. cbn in Em, Ed. apply wp_bind, wp_get, wp_bind, wp_bind.
    eapply wp_mono; [apply wp_set_voted_for; [done|by rewrite Em]|].
    intros _ w2 (Hw2 & Ep & Edisk). do 2 apply wp_ret. split_and!; [done..|].
    intros _ _. rewrite Edisk, Ep, Em. split; [exact Ht|done].
Qed.

Lemma wp_request_vote busy now coarse_now request :
  node_ok u w0.2 → wp u w0 (RequestVote busy now coarse_now request) (granted_post request) w0.
Proof.
  intros Hn. pose proof (reached_refl Hn) as Hw. pose proof Hn as [Hu Hm Hd Hs].
  apply wp_bind, wp_bind, wp_get, wp_ret. rewrite (mo_uuid _ _ Hm).
  apply wp_bind, wp_bind, wp_get. case_test; [apply wp_ret|by apply wp_fail].
  destruct busy; [by apply denied_post|]. apply wp_bind, wp_get. cbv zeta. case_test; [by apply denied_post|].
  change (current_term (cmeta_ w0.2)) with (term_of (pb_ (cmeta_ w0.2))).
  case_test; [by apply denied_post|]. case_test.
  - apply bool_decide_eq_true in H0 as Hv. destruct (bool_decide (voted_for _ = _)) eqn:Hc; bool_tests; [|by apply denied_post].
    apply wp_ret. split_and!; [done..|]. intros _ _. apply voted_on_disk; [done..|].
    unfold voted_for in Hc. destruct (voted_for_ (pb_ (cmeta_ w0.2))); [|done]. cbn in Hc. congruence.
  - apply wp_bind. destruct ((_ <? _) && _) eqn:Eadv.
    + eapply wp_mono; [by apply wp_term_advance|]. intros _ w1 (Hw1 & _ & Ep & _). cbn beta.
      apply wp_bind, wp_get. case_test; [by apply denied_post|]. apply wp_grant; [done|]. by rewrite Ep.
    + apply wp_ret, wp_bind, wp_get. case_test; [by apply denied_post|]. apply wp_grant; [done|]. intros Epre.
      rewrite Epre, andb_true_r in Eadv. bool_tests.
      match goal with H : _ && has_voted_for _ = false |- _ => apply andb_false_iff in H as [E|E] end; bool_tests; [lia|].
      unfold has_voted_for in E. bool_tests. apply dec_stable in E. split; [done|lia].
Qed.

(** A new election: its candidate's vote is on disk, unless it is a
    pre-election, and it is sound for all voters the candidate may believe. *)
Definition created_post (e : LeaderElection.t) (w : world) : Prop :=
  reached u w0 w ∧ candidate_uuid (request_ e) = u ∧
  (req_preelection (request_ e) = false → voted_now (disk_ w.2) (candidate_term (request_ e)) u) ∧
  (∀ G : bytes → Prop, G u → election_ok cfg G e).

Lemma active_config_ok n : node_ok u n → active_config (cmeta_ n) = cfg.
Proof.
  intros [_ [_ Hc Hp _] _ _]. unfold active_config, has_pending_config, committed_config. by rewrite Hp, Hc.
Qed.

Lemma lift_no_ub {A} (o : outcome A) : (∃ a, o = Ok a) ∨ o = Fatal → o ≠ UB.
Proof. by intros [[a ->]| ->]. Qed.

Lemma wp_new_election ignore_live preelection new_term w :
  reached u w0 w → (preelection = false → voted_now (disk_ w.2) new_term u) →
  wp u w0
    (bind (lift (VoteCounter.VoteCounter (CountVoters cfg) (MajoritySize (CountVoters cfg)))) (λ counter,
     let '(s, counter) := RegisterVote counter u kGranted in
     bind (lift s) (λ duplicate : bool,
     bind (if duplicate then fatal else ret ()) (λ _,
     bind get (λ n,
     let request := Build_VoteRequestPB u new_term (last_received_op_id_ n) ignore_live preelection in
     bind (lift (LeaderElection.LeaderElection cfg request counter)) (λ e,
     bind (if preelection then ret () else modify (λ n, set_pending_election n None)) (λ _,
     ret e)))))))
    created_post w.
Proof.
  intros Hw Hv. apply verify_config_spec in Hcfg as [Hcok _].
  apply wp_bind, wp_lift; [unfold VoteCounter.VoteCounter; by repeat case_test|done|]. intros c0 E0.
  destruct (RegisterVote c0 u kGranted) as [s c] eqn:E1.
  apply wp_bind, wp_lift; [|done|].
  { unfold RegisterVote in E1. intros ->. repeat (case_match; simplify_eq). }
  intros duplicate ->. apply wp_bind. destruct duplicate; [by apply wp_fatal, reached_crashed|].
  apply wp_ret, wp_bind, wp_get. cbv zeta. set (request := Build_VoteRequestPB _ _ _ _ _).
  apply wp_bind, wp_lift; [|done|].
  { unfold LeaderElection.LeaderElection. destruct (add_followers _ _ _) as [f| | |] eqn:Ef; cbn [obind]; repeat case_test; try done.
    by apply add_followers_no_ub in Ef. }
  intros e E2. apply wp_bind.
  assert (∀ G : bytes → Prop, G u → election_ok cfg G e) as Hok
    by (intros G HG; by apply (new_election_ok cfg G request c0 (Ok false) c e)).
  destruct (new_election_ok cfg (λ _, True) request c0 (Ok false) c e Hcok E0 E1 E2 I) as (_ & Er & _).
  destruct preelection; [apply wp_ret, wp_ret|apply wp_modify, wp_ret]; (split_and!; rewrite ?Er; try done).
  by apply (reached_same w).
Qed.

Lemma wp_create_election ignore_live preelection w :
  reached u w0 w → wp u w0 (CreateElectionUnlocked ignore_live preelection) created_post w.
Proof.
  intros Hw. apply wp_bind. destruct preelection.
  - apply wp_ret, wp_bind, wp_bind, wp_get, wp_ret, wp_bind, wp_bind, wp_get, wp_ret. cbv zeta.
    pose proof Hw as (_ & Hn & _). rewrite (active_config_ok _ Hn).
    apply wp_bind, wp_bind, wp_get, wp_ret, wp_bind, wp_ret. rewrite (mo_uuid _ _ (no_meta _ _ Hn)).
    by apply wp_new_election.
  - apply wp_bind, wp_bind, wp_get, wp_ret. eapply wp_mono; [by apply wp_term_advance|].
    intros _ w1 (Hw1 & _ & Ep & _). cbn beta. pose proof Hw1 as (_ & Hn & _).
    apply wp_bind, wp_bind, wp_get, wp_ret, wp_bind, wp_bind, wp_get, wp_ret. cbv zeta.
    rewrite (active_config_ok _ Hn).
    apply wp_bind, wp_bind, wp_get, wp_ret. rewrite (mo_uuid _ _ (no_meta _ _ Hn)).
    apply wp_bind. eapply wp_mono; [apply wp_set_voted_for; [done|by rewrite Ep]|].
    intros _ w2 (Hw2 & Ep2 & Ed2). cbn beta. apply wp_new_election; [done|]. intros _.
    rewrite Ed2, Ep2. unfold current_term. by rewrite Ep.
Qed.

Lemma wp_start_election data preelections preelected :
  node_ok u w0.2 →
  wp u w0 (DoStartElection data preelections preelected)
    (λ r w, reached u w0 w ∧ ∀ e, r = Some e → created_post e w) w0.
Proof.
  intros Hn. pose proof (reached_refl Hn) as Hw.
  apply wp_bind, wp_bind, wp_get. case_test; [apply wp_ret|by apply wp_fail].
  apply wp_bind, wp_get. case_test; [by apply wp_ret|].
  destruct (active_role_ _); try (by apply wp_ret); try (by apply wp_fail); cbv zeta; case_test.
  all: try (apply wp_bind; eapply wp_mono; [by apply wp_create_election|]; intros e w He; apply wp_ret;
    (split; [apply He|]); by intros e' [= <-]).
  all: destruct (must_be_committed_opid data); [|by apply wp_ret]; apply wp_bind, wp_modify, wp_ret; (split; [|done]);
    by apply (reached_same w0).
Qed.

(** [l] is taken for the leader of term [t]. *)
Definition follows (l : bytes) (t : Z) (w : world) : Prop :=
  stale w ∧ leader_uuid_ (cmeta_ w.2) = l ∧ term_of (pb_ (cmeta_ w.2)) = t.

Lemma wp_set_leader l w :
  stale w → wp u w0 (SetLeaderUuidUnlocked l) (λ _, follows l (term_of (pb_ (cmeta_ w.2)))) w.
Proof.
  intros (Hio & [Hu Hm Hd Hs] & R & D & M).
  apply wp_update; [|apply cache_cases|done]. intros m (Hm' & El & Ep)%set_leader_spec; [|done].
  split_and!; cbn; [|done|by rewrite Ep]. split_and!; cbn; rewrite ?Ep; try done. split; cbn; by rewrite ?Ep.
Qed.

Lemma wp_try {A} (m : M A) (Q : option status_code → world → Prop) w :
  wp u w0 m (λ _, Q None) w → (∀ c w', reached u w0 w' → Q (Some c) w') → wp u w0 (try_ m) Q w.
Proof. unfold wp, try_. destruct (m w) as [[a|c| |] w']; auto. Qed.

Lemma wp_election_callback result :
  node_ok u w0.2 → decision result ≠ kUnknown →
  wp u w0 (DoElectionCallback result) (λ _ w, reached u w0 w ∨
    decision result = kGranted ∧ preelection result = false ∧ running_ w0.2 = true ∧ follows u (election_term result) w) w0.
Proof.
  intros Hn Hdec. pose proof (reached_refl Hn) as Hw. pose proof Hn as [Hu Hm Hd Hs].
  unfold DoElectionCallback. case_bool_decide as Hden.
  { destruct (higher_term result) as [t|]; [|apply wp_ret; by left]. apply wp_bind, wp_try.
    - apply wp_bind, wp_bind, wp_get. case_test; [apply wp_ret|by apply wp_fail].
      eapply wp_mono; [by apply wp_term_advance|]. intros _ w (? & _). apply wp_ret. by left.
    - intros c w Hw'. apply wp_ret. by left. }
  assert (decision result = kGranted) as Hg by by destruct (decision result).
  apply wp_bind, wp_try; [|by intros c w Hw'; apply wp_ret; left].
  apply wp_bind, wp_get. destruct (running_ w0.2) eqn:Erun; [apply wp_ret|by apply wp_fail].
  apply wp_bind, wp_get. cbv zeta. case_test; [apply wp_ret; by left|].
  case_test; [apply wp_ret; by left|]. case_test; [apply wp_ret; by left|]. case_test; [apply wp_ret; by left|].
  apply wp_bind, wp_modify, wp_bind, wp_modify, wp_bind. rewrite (mo_uuid _ _ Hm).
  eapply wp_mono; [apply wp_set_leader|].
  { apply reached_stale, (reached_same w0); done. }
  intros _ w (Hst & El & Et). cbn beta. apply wp_bind, wp_modify, wp_ret. right.
  do 3 (split; [done|]). split; [|split; [exact El|]].
  - destruct Hst as (? & [? ? ? ?] & ? & ? & ?). split_and!; try done; by split.
  - cbn in Et |- *. rewrite Et. symmetry.
    match goal with H : election_term result = _ |- _ => rewrite H end. apply Z.add_0_r.
Qed.

Lemma wp_leader_request caller t sequence_ok log_ok :
  node_ok u w0.2 →
  wp u w0 (CheckLeaderRequestUnlocked caller t sequence_ok log_ok)
    (λ _ w, reached u w0 w ∨ running_ w0.2 = true ∧ follows caller t w) w0.
Proof.
  intros Hn. pose proof (reached_refl Hn) as Hw.
  apply wp_bind, wp_bind, wp_get. destruct (running_ w0.2) eqn:Erun; [apply wp_ret|by apply wp_fail].
  case_test; [by apply wp_fail|]. apply wp_bind.
  assert (∀ w, reached u w0 w → term_of (pb_ (cmeta_ w.2)) = t →
    wp u w0 (if negb log_ok then ret () else
      bind HasLeaderUnlocked (λ has_leader, bind GetLeaderUuidUnlocked (λ leader,
      if has_leader && bool_decide (leader ≠ caller) then fatal
      else if has_leader then ret () else SetLeaderUuidUnlocked caller)))
      (λ _ w, reached u w0 w ∨ true = true ∧ follows caller t w) w) as Hrest.
  { intros w Hr Ht. case_test; [apply wp_ret; by left|].
    apply wp_bind, wp_bind, wp_bind, wp_get, wp_ret, wp_ret, wp_bind, wp_bind, wp_get, wp_ret.
    case_test; [by apply wp_fatal, reached_crashed|]. case_test; [apply wp_ret; by left|].
    eapply wp_mono; [by apply wp_set_leader, reached_stale|]. rewrite Ht. intros _ w' ?. by right. }
  apply wp_bind, wp_bind, wp_get, wp_ret. case_test.
  - case_test; [apply wp_ret, wp_ret; by left|]. apply wp_bind. eapply wp_mono; [by apply wp_term_advance|].
    intros _ w (Hr & _ & Ep & _). apply wp_ret, Hrest; [done|]. by rewrite Ep.
  - apply wp_ret, Hrest; [done|]. symmetry. by bool_tests.
Qed.

End Rules.
End Facts.
End ReplicaFacts.

(** ** Clusters *)

Module Cluster.
Import QuorumUtil ConsensusMetadata VoteCounter LeaderElection Replica.

(** [responses] holds the answers of voters with the index of the election,
    [results] the results handed to the candidates' callbacks, and [messages] the
    sender and the term of the requests leaders have sent. *)
Record cluster := Cluster {
  nodes : gmap bytes node;
  elections : list LeaderElection.t;
  responses : list (nat * bytes * VoteResponsePB);
  results : list (bytes * ElectionResult);
  messages : list (bytes * Z);
}.

Definition stop (n : node) : node :=
  Node (cmeta_ n) (disk_ n) false (pending_election_opid_ n) (last_received_op_id_ n)
    (last_received_op_id_current_leader_ n) (log_op_id_ n) (old_leader_lease_ n) (old_leader_ht_lease_ n)
    (majority_replicated_lease_expiration_ n) (majority_replicated_ht_lease_expiration_ n)
    (leader_no_op_committed_ n) (withhold_votes_until_ n).

(** The replica after a handler: a failed check stops the process. *)
Definition after {A} (r : outcome A * world) : node :=
  match r.1 with Ok _ | Err _ => r.2.2 | Fatal | UB => stop r.2.2 end.

(** A process started from the metadata file, with [log] the last id of its log. *)
Definition restarted (m : ConsensusMetadata.t) (disk : ConsensusMetadataPB) (log : OpId.t) : node :=
  Node m disk true None log OpId.Min log (Lease.none Lease.kCoarseNone) (Lease.none Lease.kMicrosNone)
    Lease.kCoarseNone Lease.kMicrosNone false kMonoMin.

(** Writes of the metadata file fail only in a [faulty] cluster. *)
Definition io_ok (faulty : bool) (io : list flush_result) : Prop := faulty = true ∨ io = [].

Definition set_node (c : cluster) (u : bytes) (n : node) : cluster :=
  Cluster (<[u := n]> (nodes c)) (elections c) (responses c) (results c) (messages c).

Definition set_election (c : cluster) (i : nat) (e : LeaderElection.t) : cluster :=
  Cluster (nodes c) (<[i := e]> (elections c)) (responses c) (results c) (messages c).

Definition live (c : cluster) (u : bytes) (n : node) : Prop := nodes c !! u = Some n ∧ running_ n = true.

Inductive step (faulty : bool) (c : cluster) : cluster → Prop :=
  | step_start u n io data preelections preelected r :
      live c u n → io_ok faulty io → DoStartElection data preelections preelected (io, n) = r →
      step faulty c
        (Cluster (<[u := after r]> (nodes c))
           (elections c ++ match r.1 with Ok (Some e) => [e] | _ => [] end)
           (responses c) (results c) (messages c))
  | step_vote i e v n io busy now coarse_now r :
      elections c !! i = Some e → live c v n → io_ok faulty io →
      RequestVote busy now coarse_now (request_ e) (io, n) = r →
      step faulty c
        (Cluster (<[v := after r]> (nodes c)) (elections c)
           (match r.1 with Ok a => (i, v, a) :: responses c | _ => responses c end)
           (results c) (messages c))
  | step_response i e v now a e' :
      elections c !! i = Some e → (a = None ∨ ∃ r, a = Some r ∧ (i, v, r) ∈ responses c) →
      VoteResponseRpcCallback e v now a = Ok e' → step faulty c (set_election c i e')
  | step_check i e e' r :
      elections c !! i = Some e → CheckForDecision e = (e', r) →
      step faulty c
        (Cluster (nodes c) (<[i := e']> (elections c)) (responses c)
           (match r with Some r => (candidate_uuid (request_ e), r) :: results c | None => results c end)
           (messages c))
  | step_callback u n io res r :
      (u, res) ∈ results c → live c u n → io_ok faulty io → DoElectionCallback res (io, n) = r →
      step faulty c (set_node c u (after r))
  | step_send u n :
      live c u n → active_role_ (cmeta_ n) = LEADER →
      step faulty c
        (Cluster (nodes c) (elections c) (responses c) (results c) ((u, current_term (cmeta_ n)) :: messages c))
  | step_update u n io caller t sequence_ok log_ok r :
      (caller, t) ∈ messages c → live c u n → io_ok faulty io →
      CheckLeaderRequestUnlocked caller t sequence_ok log_ok (io, n) = r →
      step faulty c (set_node c u (after r))
  | step_crash u n : nodes c !! u = Some n → step faulty c (set_node c u (stop n))
  | step_restart u n m log :
      nodes c !! u = Some n → running_ n = false → Load u (disk_ n) = Ok m →
      step faulty c (set_node c u (restarted m (disk_ n) log))
  | step_log u n n' :
      live c u n → cmeta_ n' = cmeta_ n → disk_ n' = disk_ n → running_ n' = true →
      step faulty c (set_node c u n').

(** Replicas that were created with the configuration and are not started yet. *)
Definition initial (cfg : RaftConfigPB) (c : cluster) : Prop :=
  (∀ u n, nodes c !! u = Some n →
    u ≠ [] ∧ running_ n = false ∧ disk_ n = PB (Some cfg) (Some 0) None) ∧
  elections c = [] ∧ responses c = [] ∧ results c = [] ∧ messages c = [].

Inductive reachable (cfg : RaftConfigPB) (faulty : bool) : cluster → Prop :=
  | reachable_initial c : initial cfg c → reachable cfg faulty c
  | reachable_step c c' : reachable cfg faulty c → step faulty c c' → reachable cfg faulty c'.

(** A running replica that holds itself for the leader. *)
Definition leads (c : cluster) (u : bytes) (t : Z) : Prop :=
  ∃ n, live c u n ∧ active_role_ (cmeta_ n) = LEADER ∧ current_term (cmeta_ n) = t.

End Cluster.

(** ** The invariant of a cluster *)

Module ClusterFacts.
Import QuorumUtil QuorumFacts ConsensusMetadata VoteCounter LeaderElection ElectionFacts Replica ReplicaFacts Cluster.

(** Voter [v] has granted its vote of term [t] to [x], its own as a candidate
    included. *)
Definition granted (c : cluster) (v : bytes) (t : Z) (x : bytes) : Prop :=
  ∃ i e, elections c !! i = Some e ∧ req_preelection (request_ e) = false ∧
    candidate_uuid (request_ e) = x ∧ candidate_term (request_ e) = t ∧
    (v = x ∨ ∃ r, (i, v, r) ∈ responses c ∧ vote_granted r = true).

(** The votes the election [e] may count. *)
Definition may_count (c : cluster) (e : LeaderElection.t) (v : bytes) : Prop :=
  req_preelection (request_ e) = true ∨ granted c v (candidate_term (request_ e)) (candidate_uuid (request_ e)).

Section Invariant.
Context (cfg : RaftConfigPB) (Hcfg : VerifyRaftConfig cfg COMMITTED_QUORUM = Ok ()) (faulty : bool).

Definition won (c : cluster) (x : bytes) (t : Z) : Prop := majority_of cfg (λ v, granted c v t x).

Abbreviation mem n := (pb_ (cmeta_ n)).

Record inv (c : cluster) : Prop := {
  i_disk u n : nodes c !! u = Some n → u ≠ [] ∧ committed_config_ (disk_ n) = Some cfg;
  i_live u n : live c u n → node_ok cfg u n;
  i_voted v t x : granted c v t x → ∃ n, nodes c !! v = Some n ∧ voted (disk_ n) t x;
  i_once v t x y : granted c v t x → granted c v t y → x = y;
  i_elections i e : elections c !! i = Some e → election_ok cfg (may_count c e) e;
  i_responses i v r : (i, v, r) ∈ responses c → responder_uuid r = v ∧ is_Some (elections c !! i);
  i_results u r : (u, r) ∈ results c →
    decision r ≠ kUnknown ∧ (decision r = kGranted → preelection r = false → won c u (election_term r));
  i_messages u t : (u, t) ∈ messages c → u ≠ [] ∧ won c u t;
  i_leader u n : live c u n → active_role_ (cmeta_ n) = LEADER → won c u (term_of (mem n));
  i_known u n : faulty = false → live c u n → leader_uuid_ (cmeta_ n) ≠ [] →
    won c (leader_uuid_ (cmeta_ n)) (term_of (mem n));
}.

(** Two winners of a term are one. *)
Lemma won_once c x y t : inv c → won c x t → won c y t → x = y.
Proof.
  intros Hi (s & Hn & Hs & Hl) (s' & Hn' & Hs' & Hl'). pose proof Hcfg as Hv. apply verify_config_spec in Hv as [Hok _].
  destruct (majorities_intersect cfg s s') as (v & H1 & H2); try done; [by intros ? [? _]%Hs|by intros ? [? _]%Hs'|].
  apply (i_once c Hi v t); [by apply Hs|by apply Hs'].
Qed.

(** What the election of index [i] is not changed in. *)
Definition same_request (c c' : cluster) : Prop :=
  ∀ i e, elections c !! i = Some e → ∃ e', elections c' !! i = Some e' ∧ request_ e' = request_ e.

Lemma granted_mono c c' v t x :
  same_request c c' → (∀ a, a ∈ responses c → a ∈ responses c') → granted c v t x → granted c' v t x.
Proof.
  intros Hs Hr (i & e & He & Hp & Hc & Ht & Hv). destruct (Hs i e He) as (e' & He' & Eq).
  exists i, e'. rewrite Eq. split_and!; try done. destruct Hv as [?|(r & Hin & Hg)]; [by left|right; eauto].
Qed.

Lemma won_mono c c' x t :
  (∀ v t x, granted c v t x → granted c' v t x) → won c x t → won c' x t.
Proof. intros Hm. apply majority_mono. auto. Qed.

Lemma may_count_mono c c' e e' v :
  (∀ v t x, granted c v t x → granted c' v t x) → request_ e' = request_ e →
  may_count c e v → may_count c' e' v.
Proof. intros Hm Eq [?|?]; [left; by rewrite Eq|right; rewrite Eq; auto]. Qed.

(** A replica after a handler, seen from the cluster. *)
Record changed (c' : cluster) (u : bytes) (n n' : node) : Prop := {
  ch_disk : vote_le (disk_ n) (disk_ n');
  ch_config : committed_config_ (disk_ n') = Some cfg;
  ch_ok : running_ n' = true → node_ok cfg u n';
  ch_leader : running_ n' = true → active_role_ (cmeta_ n') = LEADER →
    running_ n = true ∧ active_role_ (cmeta_ n) = LEADER ∧ term_of (mem n') = term_of (mem n) ∨
    won c' u (term_of (mem n'));
  ch_known : faulty = false → running_ n' = true → leader_uuid_ (cmeta_ n') ≠ [] →
    running_ n = true ∧ leader_uuid_ (cmeta_ n') = leader_uuid_ (cmeta_ n) ∧ term_of (mem n') = term_of (mem n) ∨
    won c' (leader_uuid_ (cmeta_ n')) (term_of (mem n'));
}.

Lemma changed_refl c c' u n : inv c → nodes c !! u = Some n → changed c' u n n.
Proof.
  intros Hi Hu. split; [done|by eapply i_disk|intros; by eapply i_live|by left|by left].
Qed.

(** The invariant after a step, from what the step does. *)
Lemma inv_step c c' :
  inv c → same_request c c' → (∀ a, a ∈ responses c → a ∈ responses c') →
  (∀ v t x, granted c' v t x → granted c v t x ∨ ∃ n', nodes c' !! v = Some n' ∧ voted_now (disk_ n') t x) →
  (∀ u n, nodes c !! u = Some n → ∃ n', nodes c' !! u = Some n') →
  (∀ u n', nodes c' !! u = Some n' → ∃ n, nodes c !! u = Some n ∧ changed c' u n n') →
  (∀ i e', elections c' !! i = Some e' → election_ok cfg (may_count c' e') e') →
  (∀ i v r, (i, v, r) ∈ responses c' → (i, v, r) ∈ responses c ∨ responder_uuid r = v ∧ is_Some (elections c !! i)) →
  (∀ u r, (u, r) ∈ results c' → (u, r) ∈ results c ∨
    decision r ≠ kUnknown ∧ (decision r = kGranted → preelection r = false → won c' u (election_term r))) →
  (∀ u t, (u, t) ∈ messages c' → (u, t) ∈ messages c ∨ u ≠ [] ∧ won c' u t) →
  inv c'.
Proof.
  intros Hi Hsame Hresp Hnew Hdom Hnodes Hel Hr Hres Hmsg.
  assert (∀ v t x, granted c v t x → granted c' v t x) as Hm by (intros; by eapply granted_mono).
  assert (∀ v t x n', granted c' v t x → nodes c' !! v = Some n' → granted c v t x ∨ voted_now (disk_ n') t x) as Hnew'.
  { intros v t x n' Hg Hn'. destruct (Hnew v t x Hg) as [?|(n1 & Hn1 & ?)]; [by left|right; congruence]. }
  assert (∀ v t x n', granted c v t x → nodes c' !! v = Some n' → voted (disk_ n') t x) as Hold.
  { intros v t x n' Hg Hn'. destruct (i_voted c Hi v t x Hg) as (n & Hn & Hv).
    destruct (Hnodes v n' Hn') as (n1 & Hn1 & Hch). assert (n1 = n) as -> by congruence.
    by eapply voted_le; [|apply Hch]. }
  split.
  - intros u n' Hu. destruct (Hnodes u n' Hu) as (n & Hn & Hch). split; [by eapply (i_disk c Hi)|apply Hch].
  - intros u n' [Hu Hrun]. destruct (Hnodes u n' Hu) as (n & Hn & Hch). by apply Hch.
  - intros v t x Hg. destruct (Hnew v t x Hg) as [Hg0|(n' & Hn' & Hv)].
    + destruct (i_voted c Hi v t x Hg0) as (n & Hn & _). destruct (Hdom v n Hn) as (n' & Hn'). exists n'. eauto.
    + exists n'. split; [done|]. by right.
  - intros v t x y Hx Hy.
    assert (∃ n', nodes c' !! v = Some n') as (n' & Hn').
    { destruct (Hnew v t x Hx) as [Hx0|(n' & ? & _)]; [|eauto].
      destruct (i_voted c Hi v t x Hx0) as (n & Hn & _). eauto. }
    destruct (Hnew' v t x n' Hx Hn') as [Hx0|[Tx Vx]], (Hnew' v t y n' Hy Hn') as [Hy0|[Ty Vy]].
    + by eapply (i_once c Hi).
    + destruct (Hold v t x n' Hx0 Hn') as [?|[_ ?]]; [lia|congruence].
    + destruct (Hold v t y n' Hy0 Hn') as [?|[_ ?]]; [lia|congruence].
    + congruence.
  - done.
  - intros i v r Hin. destruct (Hr i v r Hin) as [Hin0|[? Hs]].
    + destruct (i_responses c Hi i v r Hin0) as [? [e He]]. destruct (Hsame i e He) as (e' & He' & _). eauto.
    + destruct Hs as [e He]. destruct (Hsame i e He) as (e' & He' & _). eauto.
  - intros u r Hin. destruct (Hres u r Hin) as [Hin0|?]; [|done].
    destruct (i_results c Hi u r Hin0) as [? Hw]. split; [done|]. intros. eapply won_mono; eauto.
  - intros u t Hin. destruct (Hmsg u t Hin) as [Hin0|?]; [|done].
    destruct (i_messages c Hi u t Hin0). split; [done|]. by eapply won_mono.
  - intros u n' [Hu Hrun] Hl. destruct (Hnodes u n' Hu) as (n & Hn & Hch).
    destruct (ch_leader _ _ _ _ Hch Hrun Hl) as [(Hrn & Hln & Et)|?]; [|done]. rewrite Et.
    eapply won_mono; [done|]. by eapply (i_leader c Hi).
  - intros u n' Hf [Hu Hrun] Hl. destruct (Hnodes u n' Hu) as (n & Hn & Hch).
    destruct (ch_known _ _ _ _ Hch Hf Hrun Hl) as [(Hrn & Eln & Et)|?]; [|done]. rewrite Et, Eln.
    eapply won_mono; [done|]. eapply (i_known c Hi); [done..|]. congruence.
Qed.

(** *** Handlers in a cluster *)

Lemma changed_reached c' u io n w :
  io_ok faulty io → reached cfg u (io, n) w → changed c' u n w.2.
Proof.
  intros Hio (_ & Hn & [R D M L K]). cbn in *. split; [done|apply Hn|done| |].
  - intros Hr Hl. left. destruct (L Hl). split_and!; [congruence|done..].
  - intros Hf Hr Hl. left. destruct Hio as [?|Hio]; [congruence|].
    destruct (K Hio) as [?|[? ?]]; [done|]. split_and!; [congruence|done..].
Qed.

Lemma changed_follows c' u io n l t w :
  follows cfg u (io, n) l t w → won c' l t → changed c' u n w.2.
Proof.
  intros [(_ & Hn & R & D & M) [El Et]] Hw. cbn in *. split; [done|apply Hn|done| |].
  - intros _ Hl. right. pose proof (no_meta _ _ _ Hn) as [_ _ _ Hr]. rewrite Hr in Hl. unfold role_in in Hl.
    apply RaftConfigProperties.leader_role in Hl as [Hl _]. cbn in Hl. rewrite <- Hl, El, Et. done.
  - intros _ _ _. right. by rewrite El, Et.
Qed.

Lemma changed_stop c' u n n' :
  vote_le (disk_ n) (disk_ n') → committed_config_ (disk_ n') = Some cfg → changed c' u n (stop n').
Proof. intros Hd Hc. by split. Qed.

Lemma after_changed {A} c' u io n (m : M A) Q :
  io_ok faulty io → wp cfg u (io, n) m Q (io, n) →
  (∀ a w, Q a w → reached cfg u (io, n) w ∨ ∃ l t, follows cfg u (io, n) l t w ∧ won c' l t) →
  changed c' u n (after (m (io, n))).
Proof.
  intros Hio Hwp HQ. unfold wp, after in *. destruct (m (io, n)) as [[a|e| |] w]; cbn [fst snd]; [|..|done].
  - destruct (HQ a w Hwp) as [?|(l & t & Hf & Hw)]; [by eapply changed_reached|by eapply changed_follows].
  - by eapply changed_reached.
  - destruct Hwp. by apply changed_stop.
Qed.

Lemma nodes_insert c u n n' c' :
  inv c → nodes c !! u = Some n → nodes c' = <[u := n']> (nodes c) → changed c' u n n' →
  (∀ v m, nodes c !! v = Some m → ∃ m', nodes c' !! v = Some m') ∧
  (∀ v m', nodes c' !! v = Some m' → ∃ m, nodes c !! v = Some m ∧ changed c' v m m').
Proof.
  intros Hi Hu E Hch. rewrite E. split.
  - intros v m Hv. destruct (decide (v = u)) as [->|Hne]; [rewrite lookup_insert_eq; eauto|].
    rewrite lookup_insert_ne by done. eauto.
  - intros v m'. rewrite lookup_insert_Some. intros [[<- <-]|[Hne Hv]]; [eauto|].
    exists m'. split; [done|]. by eapply changed_refl.
Qed.

(** A step of one replica. *)
Lemma inv_node c u n n' :
  inv c → nodes c !! u = Some n → changed (set_node c u n') u n n' → inv (set_node c u n').
Proof.
  intros Hi Hu Hch. destruct (nodes_insert c u n n' (set_node c u n') Hi Hu eq_refl Hch) as [H1 H2].
  apply (inv_step c); try done; try by auto.
  - intros i e He. by exists e.
  - intros i e He. by apply (i_elections c Hi i).
Qed.

Lemma inv_callback c u n io res :
  inv c → (u, res) ∈ results c → live c u n → io_ok faulty io →
  inv (set_node c u (after (DoElectionCallback res (io, n)))).
Proof.
  intros Hi Hin Hl Hio. destruct (i_results c Hi u res Hin) as [Hd Hw].
  apply (inv_node c u n); [done|apply Hl|]. eapply after_changed; [done| |].
  - apply (wp_election_callback cfg Hcfg u (io, n) res); [by apply (i_live c Hi)|done].
  - intros _ w [?|(Hg & Hp & _ & Hf)]; [by left|right]. eexists _, _. split; [done|]. by apply Hw.
Qed.

Lemma inv_update c u n io caller t sequence_ok log_ok :
  inv c → (caller, t) ∈ messages c → live c u n → io_ok faulty io →
  inv (set_node c u (after (CheckLeaderRequestUnlocked caller t sequence_ok log_ok (io, n)))).
Proof.
  intros Hi Hin Hl Hio. destruct (i_messages c Hi caller t Hin) as [Hne Hw].
  apply (inv_node c u n); [done|apply Hl|]. eapply after_changed; [done| |].
  - apply (wp_leader_request cfg Hcfg u (io, n)). by apply (i_live c Hi).
  - intros _ w [?|[_ Hf]]; [by left|right]. by eexists _, _.
Qed.

Lemma metadata_load_ok u pb m :
  committed_config_ pb = Some cfg → Load u pb = Ok m → meta_ok cfg u m ∧ pb_ m = pb ∧ leader_uuid_ m = [].
Proof.
  intros Hc. unfold Load. destruct (RoleCache.new_ok u) as [v ->]. cbn [obind].
  intros (E1 & E2 & E3 & E4 & E5)%cache_fields. cbn [peer_uuid_ pb_ pending_config_ leader_uuid_ with_pb] in E1, E2, E3, E4.
  cbn [active_role_] in E5. rewrite (role_eq cfg u (with_pb _ pb)) in E5 by done. cbn [leader_uuid_ with_pb] in E5.
  split_and!; [|done..]. split; [done|by rewrite E2|done|by rewrite E5, E4].
Qed.

Lemma inv_restart c u n m log :
  inv c → nodes c !! u = Some n → Load u (disk_ n) = Ok m → inv (set_node c u (restarted m (disk_ n) log)).
Proof.
  intros Hi Hu Hl. destruct (i_disk c Hi u n Hu) as [Hne Hc]. destruct (metadata_load_ok u (disk_ n) m Hc Hl) as (Hm & Ep & El).
  apply (inv_node c u n); [done..|]. split; cbn.
  - done.
  - done.
  - intros _. split; cbn; try done. right. by rewrite Ep.
  - intros _ Hlead. by apply (leader_empty cfg u m Hm Hne El) in Hlead.
  - intros _ _ Hne'. done.
Qed.

(** *** Elections in a cluster *)

Lemma inv_election c i e e' rs :
  inv c → elections c !! i = Some e → request_ e' = request_ e → election_ok cfg (may_count c e) e' →
  (∀ u r, (u, r) ∈ rs → (u, r) ∈ results c ∨
    decision r ≠ kUnknown ∧ (decision r = kGranted → preelection r = false → won c u (election_term r))) →
  inv (Cluster (nodes c) (<[i := e']> (elections c)) (responses c) rs (messages c)).
Proof.
  intros Hi He Eq Hok Hrs. set (c' := Cluster _ _ _ _ _).
  assert (same_request c c') as Hs.
  { intros j f Hj. cbn. destruct (decide (j = i)) as [->|Hne].
    - exists e'. rewrite list_lookup_insert_eq by (by eapply lookup_lt_Some). split; congruence.
    - exists f. by rewrite list_lookup_insert_ne. }
  assert (∀ v t x, granted c v t x → granted c' v t x) as Hm by (intros; by eapply granted_mono).
  apply (inv_step c); try done; try by auto.
  - intros v t x (j & f & Hj & H). left. apply list_lookup_insert_Some in Hj as [(<- & <- & _)|[_ Hj]].
    + exists i, e. by rewrite <- Eq.
    + by exists j, f.
  - intros u n Hu. by exists n.
  - intros u n Hu. exists n. split; [done|by apply (changed_refl c)].
  - intros j f Hj. apply list_lookup_insert_Some in Hj as [(<- & <- & _)|[_ Hj]];
      (eapply election_ok_mono; [|by first [apply Hok|apply (i_elections c Hi j)]]).
    + intros v. by apply may_count_mono.
    + intros v. by apply may_count_mono.
  - intros u r Hin. destruct (Hrs u r Hin) as [?|[? Hw]]; [by left|right]. split; [done|].
    intros. eapply won_mono; eauto.
Qed.

Lemma inv_response c i e v now a e' :
  inv c → elections c !! i = Some e → (a = None ∨ ∃ r, a = Some r ∧ (i, v, r) ∈ responses c) →
  VoteResponseRpcCallback e v now a = Ok e' → inv (set_election c i e').
Proof.
  intros Hi He Ha E. destruct (callback_ok cfg (may_count c e) e v now a e') as (Hok & Eq & _); [by apply (i_elections c Hi i)| |done|].
  - intros r -> (_ & _ & Hg & _). destruct Ha as [?|(r' & [= <-] & Hin)]; [done|].
    unfold may_count. destruct (req_preelection (request_ e)) eqn:Ep; [by left|right].
    exists i, e. split_and!; try done. right. by exists r.
  - eapply inv_election; eauto.
Qed.

Lemma inv_check c i e e' r :
  inv c → elections c !! i = Some e → CheckForDecision e = (e', r) →
  inv (Cluster (nodes c) (<[i := e']> (elections c)) (responses c)
    (match r with Some r => (candidate_uuid (request_ e), r) :: results c | None => results c end) (messages c)).
Proof.
  intros Hi He E. destruct (check_for_decision_ok cfg (may_count c e) e e' r) as (Hok & Eq & _ & Hsome & _);
    [by apply (i_elections c Hi i)|done|].
  eapply inv_election; eauto. intros u x. destruct r as [y|]; [|by left].
  intros [[= -> ->]|?]%elem_of_cons; [right|by left]. destruct (Hsome y eq_refl) as (_ & _ & -> & Hd).
  unfold decided in Hd. apply bool_decide_eq_true in Hd. split; [done|]. intros Hg Hp.
  pose proof (eo_won _ _ _ Hok Hg) as Hw. eapply majority_mono; [|done]. intros v [Hpre|?].
  - rewrite (eo_pre _ _ _ Hok), Eq in Hp. congruence.
  - by rewrite (eo_term _ _ _ Hok), Eq.
Qed.

Lemma inv_start c u n io data preelections preelected r :
  inv c → live c u n → io_ok faulty io → DoStartElection data preelections preelected (io, n) = r →
  inv (Cluster (<[u := after r]> (nodes c)) (elections c ++ match r.1 with Ok (Some e) => [e] | _ => [] end)
    (responses c) (results c) (messages c)).
Proof.
  intros Hi Hl Hio <-. pose proof (wp_start_election cfg Hcfg u (io, n) data preelections preelected (i_live c Hi u n Hl)) as Hwp.
  set (r := DoStartElection _ _ _ _) in *. set (es := match r.1 with Ok (Some e) => [e] | _ => [] end).
  set (c' := Cluster _ _ _ _ _).
  assert (changed c' u n (after r)) as Hch by (eapply after_changed; [done..|]; intros ? ? [? _]; by left).
  assert (∀ e, e ∈ es → created_post cfg u (io, n) e (r.2)) as Hes.
  { intros e. unfold es, wp in *. fold r in Hwp. destruct r as [[[e0|]| | |] w]; cbn; try by intros ?%not_elem_of_nil.
    intros ->%list_elem_of_singleton. by apply Hwp. }
  assert (∀ e, e ∈ es → after r = r.2.2) as Haft.
  { intros e. unfold es, after. destruct r as [[[e0|]| | |] w]; cbn; try by intros ?%not_elem_of_nil. done. }
  destruct (nodes_insert c u n (after r) c' Hi (proj1 Hl) eq_refl Hch) as [H1 H2].
  assert (same_request c c') as Hs by (intros j f Hj; exists f; split; [by apply lookup_app_l_Some|done]).
  assert (∀ v t x, granted c v t x → granted c' v t x) as Hm by (intros; by eapply granted_mono).
  assert (∀ j f, elections c' !! j = Some f → elections c !! j = Some f ∨ f ∈ es ∧ elections c !! j = None) as Hlook.
  { intros j f [?|[Hge Hf]]%lookup_app_Some; [by left|right]. split; [by eapply list_elem_of_lookup_2|by apply lookup_ge_None]. }
  apply (inv_step c); try done; try by auto.
  - intros v t x (j & f & Hj & Hp & Hc & Ht & Hv). destruct (Hlook j f Hj) as [Hj0|[Hf Hno]].
    + left. exists j, f. by split_and!.
    + right. destruct (Hes f Hf) as (_ & Ec & Hvote & _). exists (after r). rewrite <- Hc, <- Ht, Ec in *. cbn.
      destruct Hv as [->|(a & Hin & _)].
      * rewrite lookup_insert_eq, (Haft f Hf). split; [done|]. by apply Hvote.
      * destruct (i_responses c Hi j v a Hin) as [_ [? ?]]. congruence.
  - intros j f Hj. destruct (Hlook j f Hj) as [Hj0|[Hf _]].
    + eapply election_ok_mono; [|by apply (i_elections c Hi j)]. intros v. by apply may_count_mono.
    + destruct (Hes f Hf) as (_ & Ec & _ & Hok). apply Hok. unfold may_count.
      destruct (req_preelection (request_ f)) eqn:Ep; [by left|right]. exists j, f. rewrite Ec. split_and!; try done. by left.
Qed.

Lemma inv_vote c i e v n io busy now coarse_now r :
  inv c → elections c !! i = Some e → live c v n → io_ok faulty io →
  RequestVote busy now coarse_now (request_ e) (io, n) = r →
  inv (Cluster (<[v := after r]> (nodes c)) (elections c)
    (match r.1 with Ok a => (i, v, a) :: responses c | _ => responses c end) (results c) (messages c)).
Proof.
  intros Hi He Hl Hio <-.
  pose proof (wp_request_vote cfg Hcfg v (io, n) busy now coarse_now (request_ e) (i_live c Hi v n Hl)) as Hwp.
  set (r := RequestVote _ _ _ _ _) in *. set (c' := Cluster _ _ _ _ _).
  assert (changed c' v n (after r)) as Hch by (eapply after_changed; [done..|]; intros ? ? [? _]; by left).
  assert (∀ a, a ∈ responses c' → a ∈ responses c ∨ ∃ b, r.1 = Ok b ∧ a = (i, v, b)) as Hresp.
  { intros a. unfold c'. destruct r as [[b| | |] w]; cbn; try by left. intros [->|?]%elem_of_cons; [right; eauto|by left]. }
  assert (∀ b, r.1 = Ok b → granted_post cfg v (io, n) (request_ e) b r.2 ∧ after r = r.2.2) as Hpost.
  { intros b. unfold wp, after in *. fold r in Hwp. destruct r as [[b0| | |] w]; cbn; try done. by intros [= <-]. }
  destruct (nodes_insert c v n (after r) c' Hi (proj1 Hl) eq_refl Hch) as [H1 H2].
  assert (same_request c c') as Hs by (intros j f Hj; by exists f).
  assert (∀ a, a ∈ responses c → a ∈ responses c') as Hin.
  { intros a Ha. unfold c'. destruct r as [[b| | |] w]; cbn; try done. by right. }
  assert (∀ v t x, granted c v t x → granted c' v t x) as Hm by (intros; by eapply granted_mono).
  apply (inv_step c); try done; try by auto.
  - intros v' t x (j & f & Hj & Hp & Hc & Ht & Hv). cbn in Hj. destruct Hv as [->|(a & Ha & Hg)].
    { left. exists j, f. split_and!; try done. by left. }
    destruct (Hresp _ Ha) as [Ha0|(b & Hb & [= -> -> ->])].
    { left. exists j, f. split_and!; try done. right. by exists a. }
    right. assert (f = e) as -> by congruence. destruct (Hpost b Hb) as [(_ & _ & Hvote) Haft].
    exists (after r). change (nodes c') with (<[v := after r]> (nodes c)). rewrite lookup_insert_eq.
    split; [done|]. rewrite Haft, <- Hc, <- Ht. by apply Hvote.
  - intros j f Hj. eapply election_ok_mono; [|by apply (i_elections c Hi j)]. intros w. by apply may_count_mono.
  - intros j v' a Ha. destruct (Hresp _ Ha) as [?|(b & Hb & [= -> -> ->])]; [by left|right].
    destruct (Hpost b Hb) as [(_ & ? & _) _]. by split.
Qed.

Lemma inv_initial c : initial cfg c → inv c.
Proof.
  intros (Hn & He & Hr & Hres & Hm).
  assert (∀ v t x, ¬ granted c v t x) as Hno by (intros v t x (i & e & Hi & _); by rewrite He in Hi).
  split.
  - intros u n Hu. destruct (Hn u n Hu) as (? & _ & ->). done.
  - intros u n [Hu Hrun]. destruct (Hn u n Hu) as (_ & ? & _). congruence.
  - intros v t x Hg. by apply Hno in Hg.
  - intros v t x y Hg. by apply Hno in Hg.
  - intros i e. by rewrite He.
  - intros i v r. rewrite Hr. by intros ?%not_elem_of_nil.
  - intros u r. rewrite Hres. by intros ?%not_elem_of_nil.
  - intros u t. rewrite Hm. by intros ?%not_elem_of_nil.
  - intros u n [Hu Hrun]. destruct (Hn u n Hu) as (_ & ? & _). congruence.
  - intros u n _ [Hu Hrun]. destruct (Hn u n Hu) as (_ & ? & _). congruence.
Qed.

Lemma inv_send c u n :
  inv c → live c u n → active_role_ (cmeta_ n) = LEADER →
  inv (Cluster (nodes c) (elections c) (responses c) (results c) ((u, current_term (cmeta_ n)) :: messages c)).
Proof.
  intros Hi Hl Hr. destruct (i_disk c Hi u n (proj1 Hl)) as [Hu _].
  apply (inv_step c); try done; try by auto.
  - intros i e He. by exists e.
  - intros v m Hv. by exists m.
  - intros v m Hv. exists m. split; [done|by apply (changed_refl c)].
  - intros i e He. by apply (i_elections c Hi i).
  - intros v t [[= -> ->]|?]%elem_of_cons; [right|by left]. split; [done|]. by apply (i_leader c Hi u n).
Qed.

Lemma cluster_step_inv c c' : inv c → step faulty c c' → inv c'.
Proof.
  intros Hi. destruct 1 as [u n io data pre pre' r Hl Hio E|i e v n io busy now coarse r He Hl Hio E
    |i e v now a e' He Ha E|i e e' r He E|u n io res r Hin Hl Hio E|u n Hl Hr
    |u n io caller t sq lg r Hin Hl Hio E|u n Hu|u n m log Hu Hr Hload|u n n' Hl E1 E2 E3].
  - by eapply inv_start.
  - by eapply inv_vote.
  - by eapply inv_response.
  - by eapply inv_check.
  - subst r. by eapply inv_callback.
  - by eapply inv_send.
  - subst r. by eapply inv_update.
  - apply (inv_node c u n); [done..|]. apply changed_stop; [done|]. by eapply (i_disk c Hi).
  - by eapply inv_restart.
  - apply (inv_node c u n); [done|apply Hl|]. pose proof (i_live c Hi u n Hl) as Hok.
    apply (changed_reached _ u [] n ([], n')); [by right|].
    apply (reached_same cfg u ([], n) ([], n)); [by apply reached_refl|done..|]. rewrite E3. symmetry. apply Hl.
Qed.

Lemma cluster_inv c : reachable cfg faulty c → inv c.
Proof. induction 1; [by apply inv_initial|by eapply cluster_step_inv]. Qed.

End Invariant.
End ClusterFacts.

(** ** Properties *)

Module RaftElectionProperties.
Import QuorumUtil QuorumFacts ConsensusMetadata VoteCounter LeaderElection ElectionFacts Replica ReplicaFacts Cluster ClusterFacts.

(** C1: Election safety.  In a cluster with an accepted configuration that does
    not change, at most one replica is leader of a term, whatever the interleaving
    of elections, pre-elections, votes, responses and requests of leaders, whichever
    messages are lost, delayed or handled twice, whenever processes crash and restart
    from their metadata file, and whichever writes of that file fail. *)
Theorem election_safety cfg faulty c u v t :
  VerifyRaftConfig cfg COMMITTED_QUORUM = Ok () → reachable cfg faulty c →
  leads c u t → leads c v t → u = v.
Proof.
  intros Hcfg Hc%cluster_inv (n & Hn & Hrn & <-) (m & Hm & Hrm & Ht); [|done].
  apply (won_once cfg Hcfg faulty c u v (current_term (cmeta_ n)) Hc).
  - by apply (i_leader _ _ _ Hc).
  - rewrite <- Ht. by apply (i_leader _ _ _ Hc).
Qed.

(** C14: Replicas agree on who leads a term.  As long as writes of the metadata file
    succeed, two running replicas in the same term that know a leader know the same
    one, and a request sent by a leader of a replica's current term comes from the
    leader that replica knows, if it knows one: the conflict that
    [CheckLeaderRequestUnlocked] treats as fatal does not arise. *)
Theorem leaders_known_agree cfg c u n :
  VerifyRaftConfig cfg COMMITTED_QUORUM = Ok () → reachable cfg false c →
  live c u n → leader_uuid_ (cmeta_ n) ≠ [] →
  (∀ v m, live c v m → leader_uuid_ (cmeta_ m) ≠ [] → current_term (cmeta_ m) = current_term (cmeta_ n) →
    leader_uuid_ (cmeta_ m) = leader_uuid_ (cmeta_ n)) ∧
  (∀ caller, (caller, current_term (cmeta_ n)) ∈ messages c → caller = leader_uuid_ (cmeta_ n)).
Proof.
  intros Hcfg Hc%cluster_inv Hn Hl; [|done]. pose proof (i_known _ _ _ Hc u n eq_refl Hn Hl) as Hw. split.
  - intros v m Hm Hlm Ht. apply (won_once cfg Hcfg false c _ _ (current_term (cmeta_ n)) Hc); [|done].
    rewrite <- Ht. by apply (i_known _ _ _ Hc v m).
  - intros caller Hin. apply (won_once cfg Hcfg false c _ _ (current_term (cmeta_ n)) Hc); [|done].
    by apply (i_messages _ _ _ Hc).
Qed.

(** The metadata of a follower after a new term could not be written. *)
Lemma term_write_failed cfg u n t written io :
  VerifyRaftConfig cfg COMMITTED_QUORUM = Ok () → node_ok cfg u n → active_role_ (cmeta_ n) ≠ LEADER →
  current_term (cmeta_ n) < t < 2 ^ 61 → 0 <= current_term (cmeta_ n) →
  ∃ n', HandleTermAdvanceUnlocked t (NotFlushed written :: io, n) = (Err IOError, (io, n')) ∧
    running_ n' = running_ n ∧ current_term (cmeta_ n') = t ∧ leader_uuid_ (cmeta_ n') = leader_uuid_ (cmeta_ n).
Proof.
  intros Hcfg Hok Hrole Ht H0. pose proof (no_meta _ _ _ Hok) as [Hu Hc Hp Hr].
  unfold HandleTermAdvanceUnlocked, GetCurrentTermUnlocked, GetActiveRoleUnlocked, bind, get, ret. cbn [snd fst].
  destruct (Z.leb_spec t (current_term (cmeta_ n))); [lia|]. rewrite bool_decide_false by done. cbn [snd fst].
  unfold SetCurrentTermUnlocked, GetCurrentTermUnlocked, update_cmeta, bind, get, lift, modify, ret. cbn [snd fst].
  destruct (Z.leb_spec t (current_term (cmeta_ n))); [lia|].
  destruct (cache_cases (with_pb (cmeta_ n) (PB (committed_config_ (pb_ (cmeta_ n))) (Some t) (voted_for_ (pb_ (cmeta_ n)))))) as [E|[m E]].
  { exfalso. unfold UpdateRoleAndTermCache, PackRoleAndTerm in E. case_test_in E; [done|].
    unfold current_term in *. cbn in *. change (Z.shiftl 1 (64 - kBitsPerPackedRole)) with (2 ^ 61) in *.
    rewrite u64_small in * by (unfold is_u64; lia). lia. }
  change (set_current_term (cmeta_ n) t = Ok m) in E. cbn [snd fst]. rewrite E. cbn [snd fst].
  destruct (set_term_spec cfg u (cmeta_ n) t m (no_meta _ _ _ Hok) E) as (_ & El & _ & Ep).
  rewrite (flush_spec cfg Hcfg) by (cbn; by rewrite Ep).
  eexists. split; [reflexivity|]. unfold current_term. destruct written; cbn; rewrite Ep; done.
Qed.

(** C32: A failed write of a new term.  When a follower that knows a leader is asked
    for its vote in a later term and the metadata file cannot be written, the request
    fails but the replica stays in the new term with the old leader; the first
    request of the leader elected in that term then stops the process, although the
    cluster is sound. *)
Theorem failed_term_write_fatal cfg u n request now coarse_now written b :
  VerifyRaftConfig cfg COMMITTED_QUORUM = Ok () → node_ok cfg u n → running_ n = true →
  active_role_ (cmeta_ n) ≠ LEADER → leader_uuid_ (cmeta_ n) ≠ [] → b ≠ leader_uuid_ (cmeta_ n) →
  0 <= current_term (cmeta_ n) < candidate_term request → candidate_term request < 2 ^ 61 →
  req_preelection request = false → withhold_votes_until_ n <= now →
  ∃ n', RequestVote false now coarse_now request ([NotFlushed written], n) = (Err IOError, ([], n')) ∧
    current_term (cmeta_ n') = candidate_term request ∧ leader_uuid_ (cmeta_ n') = leader_uuid_ (cmeta_ n) ∧
    (CheckLeaderRequestUnlocked b (candidate_term request) true true ([], n')).1 = Fatal.
Proof.
  intros Hcfg Hok Hrun Hrole Hl Hb Ht Hmax Hpre Hnow.
  destruct (term_write_failed cfg u n (candidate_term request) written [] Hcfg Hok Hrole) as (n' & E & Er & Et & El); [lia..|].
  exists n'. split_and!; try done.
  - unfold RequestVote, GetPeerUuid, LockForConfigChange, bind, get, ret. cbn [snd fst]. rewrite Hrun. cbn [snd fst].
    destruct (Z.ltb_spec now (withhold_votes_until_ n)); [lia|]. rewrite andb_false_r.
    destruct (Z.ltb_spec (candidate_term request) (current_term (cmeta_ n))); [lia|].
    destruct (Z.eqb_spec (candidate_term request) (current_term (cmeta_ n))); [lia|]. cbn [andb].
    destruct (Z.ltb_spec (current_term (cmeta_ n)) (candidate_term request)); [|lia].
    rewrite Hpre. cbn [andb negb]. by rewrite E.
  - unfold CheckLeaderRequestUnlocked, LockForConfigChange, HandleLeaderRequestTermUnlocked, HasLeaderUnlocked,
      GetLeaderUuidUnlocked, GetCurrentTermUnlocked, bind, get, ret. cbn [snd fst negb]. rewrite Er, Hrun. cbn [snd fst].
    rewrite Et, Z.eqb_refl. cbn [negb snd fst]. rewrite El, bool_decide_true by done.
    by rewrite bool_decide_true.
Qed.

(** *** A sample run

    Replicas 1 and 2 of three start, 1 stands for election in term 1, 2 votes for
    it, 1 wins and sends a request. *)

Definition sample_disk : ConsensusMetadataPB := PB (Some RaftConfigProperties.sample_config) (Some 0) None.
Definition sample_meta (u : bytes) : ConsensusMetadata.t :=
  match Load u sample_disk with
  | Ok m => m
  | _ => ConsensusMetadata.mk u sample_disk None [] UNKNOWN_ROLE 0
  end.
Definition sample_up (u : bytes) : node := restarted (sample_meta u) sample_disk OpId.Min.
Definition sample_cluster0 : cluster :=
  Cluster (<[[1] := stop (sample_up [1])]> {[ [2] := stop (sample_up [2]) ]}) [] [] [] [].
Definition sample_cluster1 : cluster := set_node sample_cluster0 [1] (sample_up [1]).
Definition sample_cluster2 : cluster := set_node sample_cluster1 [2] (sample_up [2]).

Definition sample_data : LeaderElectionData := Build_LeaderElectionData false false false None 0.
Definition sample_start := DoStartElection sample_data true true ([], sample_up [1]).
Definition sample_candidate : node := after sample_start.
Definition sample_vote_request : VoteRequestPB := Build_VoteRequestPB [1] 1 OpId.Min false false.
Definition sample_result : ElectionResult :=
  Result_ false [] 1 kUnknown None (Lease.none Lease.kCoarseNone) (Lease.none Lease.kMicrosNone).
Definition sample_election0 : LeaderElection.t :=
  LeaderElection.mk sample_vote_request sample_result (VoteCounter.mk 3 2 {[ [1] := kGranted ]} 1 0) false [[2]; [3]].
Definition sample_cluster3 : cluster :=
  Cluster (<[[1] := sample_candidate]> (nodes sample_cluster2)) [sample_election0] [] [] [].

Definition sample_vote := RequestVote false 0 0 sample_vote_request ([], sample_up [2]).
Definition sample_answer : VoteResponsePB := response [2] false true 1.
Definition sample_cluster4 : cluster :=
  Cluster (<[[2] := after sample_vote]> (nodes sample_cluster3)) [sample_election0] [(0%nat, [2], sample_answer)] [] [].

Definition sample_election1 : LeaderElection.t :=
  LeaderElection.mk sample_vote_request sample_result
    (VoteCounter.mk 3 2 (<[[2] := kGranted]> {[ [1] := kGranted ]}) 2 0) false [[2]; [3]].
Definition sample_cluster5 : cluster := set_election sample_cluster4 0 sample_election1.

Definition sample_won : ElectionResult :=
  Result_ false [] 1 kGranted None (Lease.none Lease.kCoarseNone) (Lease.none Lease.kMicrosNone).
Definition sample_election2 : LeaderElection.t :=
  LeaderElection.mk sample_vote_request sample_won
    (VoteCounter.mk 3 2 (<[[2] := kGranted]> {[ [1] := kGranted ]}) 2 0) true [[2]; [3]].
Definition sample_cluster6 : cluster :=
  Cluster (nodes sample_cluster5) [sample_election2] (responses sample_cluster5) [([1], sample_won)] [].

Definition sample_leader : node := after (DoElectionCallback sample_won ([], sample_candidate)).
Definition sample_cluster7 : cluster := set_node sample_cluster6 [1] sample_leader.
Definition sample_cluster8 : cluster :=
  Cluster (nodes sample_cluster7) (elections sample_cluster7) (responses sample_cluster7) (results sample_cluster7)
    [([1], 1)].

Lemma sample_voted : reachable RaftConfigProperties.sample_config false sample_cluster4.
Proof.
  assert (reachable RaftConfigProperties.sample_config false sample_cluster2) as H2.
  { apply (reachable_step _ _ sample_cluster1); [apply (reachable_step _ _ sample_cluster0); [apply reachable_initial|]|].
    - split; [|by split_and!]. intros u n. unfold sample_cluster0. cbn [nodes].
      rewrite lookup_insert_Some, lookup_singleton_Some. intros [[<- <-]|[_ [<- <-]]]; done.
    - apply (step_restart _ sample_cluster0 [1] (stop (sample_up [1])) (sample_meta [1]) OpId.Min);
        [apply lookup_insert_eq|done|reflexivity].
    - apply (step_restart _ sample_cluster1 [2] (stop (sample_up [2])) (sample_meta [2]) OpId.Min); [|done|reflexivity].
      unfold sample_cluster1, sample_cluster0, set_node. cbn [nodes].
      rewrite !lookup_insert_ne by done. apply lookup_singleton_eq. }
  apply (reachable_step _ _ sample_cluster3); [apply (reachable_step _ _ sample_cluster2); [exact H2|]|].
  - refine (step_start _ sample_cluster2 [1] (sample_up [1]) [] sample_data true true sample_start _ (or_intror eq_refl) eq_refl).
    split; [|done]. unfold sample_cluster2, sample_cluster1, set_node. cbn [nodes].
    rewrite lookup_insert_ne by done. apply lookup_insert_eq.
  - refine (step_vote _ sample_cluster3 0 sample_election0 [2] (sample_up [2]) [] false 0 0 sample_vote eq_refl _ (or_intror eq_refl) eq_refl).
    split; [|done]. unfold sample_cluster3, sample_cluster2, set_node. cbn [nodes].
    rewrite lookup_insert_ne by done. apply lookup_insert_eq.
Qed.

Lemma sample_leads : leads sample_cluster8 [1] 1.
Proof.
  exists sample_leader. split; [split; [apply lookup_insert_eq|]|]; vm_compute; done.
Qed.

Lemma cluster_sample_reachable : reachable RaftConfigProperties.sample_config false sample_cluster8.
Proof.
  assert (nodes sample_cluster6 !! [1] = Some sample_candidate) as H1.
  { unfold sample_cluster6, sample_cluster5, set_election, sample_cluster4, sample_cluster3. cbn [nodes].
    rewrite lookup_insert_ne by done. apply lookup_insert_eq. }
  apply (reachable_step _ _ sample_cluster7); [apply (reachable_step _ _ sample_cluster6);
    [apply (reachable_step _ _ sample_cluster5); [apply (reachable_step _ _ sample_cluster4); [apply sample_voted|]|]|]|].
  - apply (step_response _ sample_cluster4 0 sample_election0 [2] 0 (Some sample_answer) sample_election1);
      [done|right; exists sample_answer; split; [done|left]|reflexivity].
  - apply (step_check _ sample_cluster5 0 sample_election1 sample_election2 (Some sample_won)); reflexivity.
  - refine (step_callback _ sample_cluster6 [1] sample_candidate [] sample_won _ _ _ (or_intror eq_refl) eq_refl).
    + left.
    + split; [exact H1|reflexivity].
  - destruct sample_leads as (n & Hl & Hr & Ht).
    assert (nodes sample_cluster7 !! [1] = Some n) as Hn by apply Hl.
    pose proof (step_send false sample_cluster7 [1] n (conj Hn (proj2 Hl)) Hr) as Hstep. by rewrite Ht in Hstep.
Qed.

Lemma election_safety_witness :
  reachable RaftConfigProperties.sample_config false sample_cluster8 ∧ leads sample_cluster8 [1] 1 ∧
  ([1] : bytes) = [1].
Proof.
  split; [exact cluster_sample_reachable|]. split; [exact sample_leads|].
  apply (election_safety RaftConfigProperties.sample_config false sample_cluster8 [1] [1] 1).
  - reflexivity.
  - exact cluster_sample_reachable.
  - exact sample_leads.
  - exact sample_leads.
Defined.

Lemma leaders_known_agree_witness :
  ∃ n, live sample_cluster8 [1] n ∧ leader_uuid_ (cmeta_ n) = [1] ∧
    (∀ caller, (caller, 1) ∈ messages sample_cluster8 → caller = leader_uuid_ (cmeta_ n)).
Proof.
  destruct sample_leads as (n & Hl & Hr & Ht). exists n. split; [exact Hl|].
  assert (leader_uuid_ (cmeta_ n) = [1]) as El.
  { destruct Hl as [Hl _]. unfold sample_cluster8, sample_cluster7, set_node in Hl. cbn [nodes] in Hl.
    rewrite lookup_insert_eq in Hl. apply (inj Some) in Hl as <-. vm_compute. reflexivity. }
  split; [exact El|]. rewrite <- Ht.
  apply (leaders_known_agree RaftConfigProperties.sample_config sample_cluster8 [1] n).
  - reflexivity.
  - exact cluster_sample_reachable.
  - exact Hl.
  - by rewrite El.
Defined.

(** Replica 2 in term 1, with 1 as leader. *)
Definition sample_pb : ConsensusMetadataPB := PB (Some RaftConfigProperties.sample_config) (Some 1) (Some [1]).
Definition sample_follower : node :=
  restarted (ConsensusMetadata.mk [2] sample_pb None [1] FOLLOWER 8) sample_pb OpId.Min.

Lemma sample_follower_ok : node_ok RaftConfigProperties.sample_config [2] sample_follower.
Proof. split; [done|by split|done|by right]. Qed.

Lemma failed_term_write_fatal_witness :
  ∃ n', RequestVote false 0 0 (Build_VoteRequestPB [3] 2 OpId.Min false false) ([NotFlushed false], sample_follower) =
      (Err IOError, ([], n')) ∧ (CheckLeaderRequestUnlocked [3] 2 true true ([], n')).1 = Fatal.
Proof.
  destruct (failed_term_write_fatal RaftConfigProperties.sample_config [2] sample_follower
    (Build_VoteRequestPB [3] 2 OpId.Min false false) 0 0 false [3]) as (n' & E & _ & _ & F).
  - reflexivity.
  - exact sample_follower_ok.
  - reflexivity.
  - discriminate.
  - discriminate.
  - discriminate.
  - vm_compute. split; congruence.
  - reflexivity.
  - reflexivity.
  - vm_compute. discriminate.
  - exists n'. split; [exact E|exact F].
Defined.

End RaftElectionProperties.
