(* ===== verification/RetryableRequests.v ===== *)
(** * Retryable requests

    Models consensus/retryable_requests.cc: the record a replica keeps of the
    write requests of its clients, so that a request sent again is not written
    again.  The requests in flight are a list; the ranges of replicated requests
    are a list in the order of [last_id], the index the operations walk, with the
    uniqueness of both indexes of the container written out where it is changed.
    Times are counts of clock ticks, the default time point is 0; ids and times
    stay far from the ends of their 64 bits. *)

From stdpp Require Import sorting.
From S2P Require Import Prelude RaftConfig.

Module RetryableRequests.
#[local] Existing Instance OpId.t_eq_dec.

(** ** Messages, rounds and statuses *)

(** The two words of a client id. *)
Definition ClientId : Type := Z * Z.
Definition IsNil (c : ClientId) : bool := (c.1 =? 0) && (c.2 =? 0).

Record WriteRequest := { client_id : ClientId; request_id : Z; min_running_id : Z }.
Record ReplicateMsg := { id : OpId.t; write_request : option WriteRequest }.

Record Round := { round_number : Z; bound_term : Z; replicate_msg : ReplicateMsg }.

Inductive Status := OK | Expired (min_running : Z) | AlreadyPresent | Failed (code : Z).
#[export] Instance Status_eq_dec : EqDecision Status.
Proof. solve_decision. Defined.

Definition ok (s : Status) : bool := match s with OK => true | _ => false end.

(** A call of [NotifyReplicationFinished]: the round, its status and the term. *)
Definition Notification : Type := Round * Status * Z.

(** [ReplicateData::FromMsg]: nothing for other messages and for clients that did
    not identify themselves. *)
Definition FromMsg (m : ReplicateMsg) : option (WriteRequest * OpId.t) :=
  match write_request m with
  | None => None
  | Some w => if IsNil (client_id w) then None else Some (w, id m)
  end.

(** ** Records *)

Record Running := mk_running { run_id : Z; run_op : OpId.t; run_time : Z; duplicate_rounds : list Round }.

Record Range := mk_range { first_id : Z; last_id : Z; min_op_id : OpId.t; min_time : Z; max_time : Z }.

Definition new_range (i : Z) (op : OpId.t) (time : Z) : Range := mk_range i i op time time.

Definition InsertTime (r : Range) (time : Z) : Range :=
  mk_range (first_id r) (last_id r) (min_op_id r) (Z.min (min_time r) time) (Z.max (max_time r) time).

Definition PrepareJoinWithPrev (r prev : Range) : Range :=
  mk_range (first_id prev) (last_id r) (min_op_id r) (Z.min (min_time r) (min_time prev)) (Z.max (max_time r) (max_time prev)).

Definition set_first (r : Range) (i : Z) : Range := mk_range i (last_id r) (min_op_id r) (min_time r) (max_time r).
Definition set_last (r : Range) (i : Z) : Range := mk_range (first_id r) i (min_op_id r) (min_time r) (max_time r).
Definition set_min_op (r : Range) (op : OpId.t) : Range := mk_range (first_id r) (last_id r) op (min_time r) (max_time r).

Record Client := mk_client { running : list Running; replicated : list Range; min_running_request_id : Z; empty_since : Z }.

Definition no_requests : Client := mk_client [] [] 0 0.
Definition set_replicated (c : Client) (l : list Range) : Client := mk_client (running c) l (min_running_request_id c) (empty_since c).
Definition set_running (c : Client) (l : list Running) : Client := mk_client l (replicated c) (min_running_request_id c) (empty_since c).

(** The record of all clients. *)
Abbreviation state := (gmap ClientId Client).

(** [std::min] of two operation ids. *)
Definition op_min (a b : OpId.t) : OpId.t := if OpId.operator_lt b a then b else a.

(** ** Operations on the ranges of a client *)

(** The ranges before, and from, the first with [last_id >= i]. *)
Fixpoint lower_bound (i : Z) (l : list Range) : list Range * list Range :=
  match l with
  | [] => ([], [])
  | r :: l' => if last_id r <? i then let p := lower_bound i l' in (r :: p.1, p.2) else ([], l)
  end.

Definition op_taken (op : OpId.t) (l : list Range) : bool := existsb (λ r, bool_decide (min_op_id r = op)) l.

(** [modify] of the container erases an element that would share its key in the
    other index. *)
Definition modify_min_op (a : list Range) (r : Range) (b : list Range) (op : OpId.t) : list Range :=
  if op_taken op (a ++ b) then a ++ b else a ++ set_min_op r op :: b.

Definition UpdateMinOpId (a : list Range) (r : Range) (b : list Range) (op : OpId.t) : list Range :=
  if OpId.operator_lt op (min_op_id r) then modify_min_op a r b op else a ++ r :: b.

Section Limits.
(** The flags: the spread of the times of a range, and the age at which ranges
    and clients are forgotten. *)
Context (range_time_limit timeout : Z).

(** [None] when the ranges are not joined. *)
Definition TryJoinRanges (a : list Range) (r : Range) (b : list Range) (op : OpId.t) : option (list Range) :=
  match rev a with
  | [] => None
  | prev :: a' =>
      if negb (last_id prev + 2 =? first_id r) then None
      else if min_time prev + range_time_limit <? max_time r then None
      else Some (UpdateMinOpId (rev a') (PrepareJoinWithPrev r prev) b (op_min op (min_op_id prev)))
  end.

Definition TryJoinToEndOfRange (a b : list Range) (op : OpId.t) (i time : Z) : option (list Range) :=
  match rev a with
  | [] => None
  | prev :: a' =>
      if negb (last_id prev + 1 =? i) then None
      else if min_time prev + range_time_limit <? time then None
      else
        let op := op_min (min_op_id prev) op in
        let prev := InsertTime prev time in
        Some (UpdateMinOpId (rev a') (set_last prev (last_id prev + 1)) b op)
  end.

(** [emplace] does nothing when a key is taken in either index. *)
Definition emplace_range (a b : list Range) (r : Range) : list Range :=
  if existsb (λ x, last_id x =? last_id r) (a ++ b) || op_taken (min_op_id r) (a ++ b) then a ++ b else a ++ r :: b.

Definition AddReplicated (op : OpId.t) (i time : Z) (l : list Range) : list Range :=
  let (a, b) := lower_bound i l in
  let attach_or_insert :=
    match TryJoinToEndOfRange a b op i time with
    | Some l' => l'
    | None => emplace_range a b (new_range i op time)
    end in
  match b with
  | r :: b' =>
      if first_id r <=? i then l
      else if first_id r =? i + 1 then
        let op := op_min (min_op_id r) op in
        let r := InsertTime r time in
        match TryJoinRanges a r b' op with
        | Some l' => l'
        | None => UpdateMinOpId a (set_first r (first_id r - 1)) b' op
        end
      else attach_or_insert
  | [] => attach_or_insert
  end.

Definition CleanupReplicatedRequests (new_min : Z) (c : Client) : Client :=
  if min_running_request_id c <? new_min then
    let b := (lower_bound new_min (replicated c)).2 in
    let b :=
      match b with
      | r :: b' => if first_id r <? new_min then set_first r new_min :: b' else b
      | [] => []
      end in
    mk_client (running c) b new_min (empty_since c)
  else c.

Definition is_replicated (i : Z) (l : list Range) : bool :=
  match (lower_bound i l).2 with
  | r :: _ => first_id r <=? i
  | [] => false
  end.

(** ** Requests in flight *)

Definition find_running (i : Z) (l : list Running) : option Running := List.find (λ q, run_id q =? i) l.

(** The request that keeps [emplace] from inserting. *)
Definition blocking (i : Z) (op : OpId.t) (l : list Running) : option Running :=
  match find_running i l with
  | Some q => Some q
  | None => List.find (λ q, bool_decide (run_op q = op)) l
  end.

Definition add_duplicate (i : Z) (round : Round) (l : list Running) : list Running :=
  (λ q, if run_id q =? i then mk_running (run_id q) (run_op q) (run_time q) (duplicate_rounds q ++ [round]) else q) <$> l.

Definition erase_running (i : Z) (l : list Running) : list Running := List.filter (λ q, negb (run_id q =? i)) l.

(** ** The operations of the class *)

Definition client_of (s : state) (c : ClientId) : Client := default no_requests (s !! c).

Definition Register (round : Round) (entry_time now : Z) (s : state) : bool * list Notification * state :=
  match FromMsg (replicate_msg round) with
  | None => (true, [], s)
  | Some (w, op) =>
      let entry_time := if entry_time =? 0 then now else entry_time in
      let c := CleanupReplicatedRequests (min_running_id w) (client_of s (client_id w)) in
      let put c := <[client_id w := c]> s in
      if request_id w <? min_running_request_id c then
        (false, [(round, Expired (min_running_request_id c), bound_term round)], put c)
      else if is_replicated (request_id w) (replicated c) then
        (false, [(round, AlreadyPresent, bound_term round)], put c)
      else
        match blocking (request_id w) op (running c) with
        | Some q => (false, [], put (set_running c (add_duplicate (run_id q) round (running c))))
        | None => (true, [], put (set_running c (mk_running (request_id w) op entry_time [] :: running c)))
        end
  end.

Definition ReplicationFinished (m : ReplicateMsg) (status : Status) (leader_term : Z) (s : state) : list Notification * state :=
  match FromMsg m with
  | None => ([], s)
  | Some (w, op) =>
      let c := client_of s (client_id w) in
      let put c := <[client_id w := c]> s in
      match find_running (request_id w) (running c) with
      | None => ([], put c)
      | Some q =>
          let status_for_duplicate := if ok status then AlreadyPresent else status in
          let notes := (λ d, (d, status_for_duplicate, leader_term)) <$> duplicate_rounds q in
          let c := set_running c (erase_running (request_id w) (running c)) in
          if ok status then (notes, put (set_replicated c (AddReplicated op (request_id w) (run_time q) (replicated c))))
          else (notes, put c)
      end
  end.

Definition Bootstrap (m : ReplicateMsg) (entry_time : Z) (s : state) : state :=
  match FromMsg m with
  | None => s
  | Some (w, op) =>
      let c := client_of s (client_id w) in
      match find_running (request_id w) (running c) with
      | Some _ => <[client_id w := c]> s
      | None =>
          let c := CleanupReplicatedRequests (min_running_id w) c in
          <[client_id w := set_replicated c (AddReplicated op (request_id w) entry_time (replicated c))]> s
      end
  end.

(** The index by operation id. *)
Definition op_le (a b : Range) : Prop := OpId.operator_lt (min_op_id b) (min_op_id a) = false.
#[export] Instance op_le_dec a b : Decision (op_le a b).
Proof. unfold op_le. apply _. Defined.

Fixpoint skip_expired (clean_start : Z) (l : list Range) : list Range * list Range :=
  match l with
  | [] => ([], [])
  | r :: l' => if max_time r <? clean_start then let p := skip_expired clean_start l' in (r :: p.1, p.2) else ([], l)
  end.

(** The cleaning of the ranges of a client: the least operation id that is still
    needed, and the ranges left. *)
Definition clean_ranges (clean_start : Z) (l : list Range) : OpId.t * list Range :=
  let (gone, kept) := skip_expired clean_start (merge_sort op_le l) in
  match kept with
  | r :: _ => (min_op_id r, List.filter (λ x, negb (op_taken (min_op_id x) gone)) l)
  | [] => (OpId.Max, [])
  end.

Definition no_ranges (c : Client) : bool := match replicated c with [] => true | _ => false end.
Definition no_running (c : Client) : bool := match running c with [] => true | _ => false end.

(** The round of the loop for a client; [None] when it is forgotten. *)
Definition clean_client (now : Z) (c : Client) : OpId.t * option Client :=
  let clean_start := now - timeout in
  let (result, left) := clean_ranges clean_start (replicated c) in
  let c := set_replicated c left in
  if no_ranges c && no_running c then
    if empty_since c =? 0 then (result, Some (mk_client (running c) (replicated c) (min_running_request_id c) now))
    else if empty_since c <? clean_start then (result, None)
    else (result, Some c)
  else (result, Some c).

Definition CleanExpiredReplicatedAndGetMinOpId (now : Z) (s : state) : OpId.t * state :=
  (foldl (λ res kc, op_min res (clean_client now kc.2).1) OpId.Max (map_to_list s), omap (λ c, (clean_client now c).2) s).

Definition MinRunningRequestId (c : ClientId) (s : state) : option Z := min_running_request_id <$> s !! c.

End Limits.

(** ** Order of operation ids *)

Lemma op_lt_spec a b :
  OpId.operator_lt a b = true ↔ OpId.term a < OpId.term b ∨ (OpId.term a = OpId.term b ∧ OpId.index a < OpId.index b).
Proof. unfold OpId.operator_lt. rewrite orb_true_iff, andb_true_iff, !Z.ltb_lt, Z.eqb_eq. done. Qed.

Lemma op_nlt_spec a b :
  OpId.operator_lt a b = false ↔ OpId.term b < OpId.term a ∨ (OpId.term a = OpId.term b ∧ OpId.index b <= OpId.index a).
Proof. rewrite <- not_true_iff_false, op_lt_spec. lia. Qed.

(** [a] is not after [b]. *)
Definition ole (a b : OpId.t) : Prop := OpId.operator_lt b a = false.

#[export] Instance ole_preorder : PreOrder ole.
Proof. split; [intros a|intros a b c]; unfold ole; rewrite !op_nlt_spec; lia. Qed.

Lemma op_min_cases a b : (op_min a b = a ∧ ole a b) ∨ (op_min a b = b ∧ ole b a ∧ OpId.operator_lt b a = true).
Proof.
  unfold op_min, ole. destruct (OpId.operator_lt b a) eqn:E; [right|by left]. split_and!; [done| |done].
  rewrite op_lt_spec in E. rewrite op_nlt_spec. lia.
Qed.

Lemma op_min_l a b : ole (op_min a b) a.
Proof. destruct (op_min_cases a b) as [[-> ?]|(-> & ? & _)]; [reflexivity|done]. Qed.

Lemma op_min_r a b : ole (op_min a b) b.
Proof. destruct (op_min_cases a b) as [[-> ?]|(-> & ? & _)]; [done|reflexivity]. Qed.

(** ** The ranges of a client *)

Definition in_range (r : Range) (i : Z) : Prop := first_id r <= i <= last_id r.
Definition covers (l : list Range) (i : Z) : Prop := ∃ r, r ∈ l ∧ in_range r i.

(** A replicated request: its id, its place in the log, its time. *)
Record Entry := mk_entry { e_id : Z; e_op : OpId.t; e_time : Z }.

Definition holds1 (r : Range) (e : Entry) : Prop :=
  in_range r (e_id e) ∧ ole (min_op_id r) (e_op e) ∧ min_time r <= e_time e <= max_time r.
Definition holds (l : list Range) (e : Entry) : Prop := ∃ r, r ∈ l ∧ holds1 r e.

(** Ranges in order, without overlaps, each with its own operation id. *)
Record wf_ranges (l : list Range) : Prop := {
  wf_sorted : StronglySorted (λ r r', last_id r < first_id r') l;
  wf_nonempty : Forall (λ r, first_id r <= last_id r) l;
  wf_ops : NoDup (min_op_id <$> l);
}.

Lemma wf_nil : wf_ranges [].
Proof. split; constructor. Qed.

Lemma covers_app l1 l2 i : covers (l1 ++ l2) i ↔ covers l1 i ∨ covers l2 i.
Proof. unfold covers. setoid_rewrite elem_of_app. naive_solver. Qed.

Lemma covers_cons r l i : covers (r :: l) i ↔ in_range r i ∨ covers l i.
Proof. unfold covers. setoid_rewrite elem_of_cons. naive_solver. Qed.

Lemma covers_nil i : ¬ covers [] i.
Proof. intros (r & Hr & _). by apply elem_of_nil in Hr. Qed.

Lemma holds_covers l e : holds l e → covers l (e_id e).
Proof. intros (r & ? & ? & _). by exists r. Qed.

Lemma op_taken_spec op l : op_taken op l = true ↔ op ∈ min_op_id <$> l.
Proof.
  unfold op_taken. rewrite existsb_exists, list_elem_of_fmap. split; intros (r & H1 & H2); exists r.
  - split; [by apply bool_decide_eq_true in H2|by apply list_elem_of_In].
  - split; [by apply list_elem_of_In|by apply bool_decide_eq_true].
Qed.

Lemma wf_app l1 l2 :
  wf_ranges (l1 ++ l2) ↔
  (∀ r1 r2, r1 ∈ l1 → r2 ∈ l2 → last_id r1 < first_id r2 ∧ min_op_id r1 ≠ min_op_id r2) ∧ wf_ranges l1 ∧ wf_ranges l2.
Proof.
  split.
  - intros [H1 H2 H3]. apply StronglySorted_app in H1 as (Hx & S1 & S2). apply Forall_app in H2 as [F1 F2].
    rewrite fmap_app in H3. apply NoDup_app in H3 as (N1 & N & N2). split_and!; [|by split..].
    intros r1 r2 Hr1 Hr2. split; [by apply Hx|]. intros E. apply (N (min_op_id r1)); [by apply list_elem_of_fmap_2|]. rewrite E. by apply list_elem_of_fmap_2.
  - intros (Hx & [S1 F1 N1] & [S2 F2 N2]). split.
    + apply StronglySorted_app. split_and!; [|done..]. intros r1 r2 ? ?. by apply Hx.
    + by apply Forall_app.
    + rewrite fmap_app. apply NoDup_app. split_and!; [done| |done]. intros o (r1 & -> & ?)%list_elem_of_fmap (r2 & E & ?)%list_elem_of_fmap. by eapply Hx.
Qed.

Lemma wf_single r : first_id r <= last_id r → wf_ranges [r].
Proof. intros H. split; [repeat constructor|by repeat constructor|cbn; apply NoDup_singleton]. Qed.

(** Where the walk over the index stops. *)
Lemma lower_bound_splits i l :
  l = (lower_bound i l).1 ++ (lower_bound i l).2 ∧ (∀ r, r ∈ (lower_bound i l).1 → last_id r < i) ∧
  (∀ r b, (lower_bound i l).2 = r :: b → i <= last_id r).
Proof.
  induction l as [|r l (IH1 & IH2 & IH3)]; cbn [lower_bound]; [split_and!; [done|intros ? []%elem_of_nil|done]|].
  destruct (Z.ltb_spec (last_id r) i) as [H|H]; cbn [fst snd app].
  - split_and!; [by rewrite <- IH1| |done]. intros r' [->|Hr]%elem_of_cons; [done|by apply IH2].
  - split_and!; [done|intros ? []%elem_of_nil|by intros ? ? [= <- <-]].
Qed.

Lemma wf_in r l : wf_ranges l → r ∈ l → first_id r <= last_id r.
Proof. intros [_ H _]. rewrite Forall_forall in H. apply H. Qed.

(** The ranges after the first with [last_id >= i] are past [i]. *)
Lemma lower_bound_rest i l r b r' :
  wf_ranges l → (lower_bound i l).2 = r :: b → r' ∈ b → i < first_id r'.
Proof.
  intros Hl E Hr. destruct (lower_bound_splits i l) as (El & _ & H). specialize (H _ _ E). rewrite El, E in Hl.
  apply wf_app in Hl as (_ & _ & Hb). change (r :: b) with ([r] ++ b) in Hb. apply wf_app in Hb as (Hx & _ & _).
  destruct (Hx r r' ltac:(constructor) Hr) as [? _]; lia.
Qed.

Lemma is_replicated_spec i l : wf_ranges l → is_replicated i l = true ↔ covers l i.
Proof.
  intros Hl. unfold is_replicated. destruct (lower_bound_splits i l) as (El & Ha & Hb). pose proof (lower_bound_rest i l) as Hr.
  rewrite El at 2. rewrite covers_app. assert (¬ covers (lower_bound i l).1 i) by (intros (r & Hin & ?); specialize (Ha r Hin); unfold in_range in *; lia).
  destruct (lower_bound i l).2 as [|r b]; [split; [done|by intros [?|?%covers_nil]]|].
  rewrite Z.leb_le, covers_cons. specialize (Hb _ _ eq_refl). unfold in_range. split; [intros ?; right; left; lia|]. intros [?|[?|(r' & Hin & Hi)]]; [done|lia|].
  specialize (Hr r b r' Hl eq_refl Hin). unfold in_range in Hi. lia.
Qed.

(** ** Adding a replicated request *)

(** [l'] has the requests of [l] and one more. *)
Record added (op : OpId.t) (i t : Z) (l l' : list Range) : Prop := {
  added_wf : wf_ranges l';
  added_covers x : covers l' x ↔ x = i ∨ covers l x;
  added_new : holds l' (mk_entry i op t);
  added_holds e : holds l e → holds l' e;
  added_ops o : o ∈ min_op_id <$> l' → o = op ∨ o ∈ min_op_id <$> l;
}.

(** Ranges in the middle are replaced by one that has their requests and [i]. *)
Lemma replace_added a old b n op i t :
  wf_ranges (a ++ old ++ b) → op ∉ min_op_id <$> (a ++ old ++ b) →
  (∀ r, r ∈ a → last_id r < first_id n) → (∀ r, r ∈ b → last_id n < first_id r) →
  (∀ x, in_range n x ↔ x = i ∨ covers old x) → min_op_id n ∈ op :: (min_op_id <$> old) →
  holds1 n (mk_entry i op t) → (∀ e, holds old e → holds1 n e) →
  added op i t (a ++ old ++ b) (a ++ n :: b).
Proof.
  intros Hwf Hop Ha Hb Hn Hmin Hnew Hold. rewrite !fmap_app in Hop. pose proof Hwf as Hwf'. apply wf_app in Hwf' as (X1 & W1 & W2). apply wf_app in W2 as (X2 & W2 & W3).
  assert (D : ∀ r, r ∈ a ∨ r ∈ b → min_op_id r ≠ min_op_id n).
  { intros r Hr E. apply elem_of_cons in Hmin as [Hmin|(r' & Hmin & Hr')%list_elem_of_fmap].
    - apply Hop. rewrite !elem_of_app, <- Hmin, <- E. destruct Hr; [left|right; right]; by apply list_elem_of_fmap_2.
    - rewrite Hmin in E. destruct Hr as [Hr|Hr]; [destruct (X1 r r'); [done|apply elem_of_app; by left|done]|]. destruct (X2 r' r); [done..|congruence]. }
  split.
  - apply wf_app. split_and!; [|done|].
    + intros r1 r2 Hr1 [->|Hr2]%elem_of_cons; [split; [by apply Ha|apply D; by left]|]. apply X1; [done|]. apply elem_of_app. by right.
    + change (n :: b) with ([n] ++ b). apply wf_app. split_and!; [|apply wf_single|done].
      * intros r1 r2 ->%list_elem_of_singleton Hr. split; [by apply Hb|]. apply not_eq_sym, D. by right.
      * destruct (proj2 (Hn i) (or_introl eq_refl)). lia.
  - intros x. rewrite !covers_app, covers_cons, Hn. tauto.
  - exists n. split; [set_solver|done].
  - intros e (r & Hr & He). rewrite !elem_of_app in Hr. destruct Hr as [Hr|[Hr|Hr]]; [exists r; set_solver| |exists r; set_solver].
    exists n. split; [set_solver|]. apply Hold. by exists r.
  - intros o. rewrite !fmap_app, fmap_cons, !elem_of_app, elem_of_cons. intros [?|[->|?]]; [tauto| |tauto]. apply elem_of_cons in Hmin. tauto.
Qed.

Lemma UpdateMinOpId_eq a r b op :
  op ∉ min_op_id <$> (a ++ b) → UpdateMinOpId a r b op = a ++ set_min_op r (op_min (min_op_id r) op) :: b.
Proof.
  intros Hop. unfold UpdateMinOpId, modify_min_op, op_min. destruct (OpId.operator_lt op (min_op_id r)); [|by destruct r].
  destruct (op_taken op (a ++ b)) eqn:E; [by apply op_taken_spec in E|done].
Qed.

Lemma rev_last {X} (a : list X) p a' : rev a = p :: a' → a = rev a' ++ [p].
Proof. intros E. by rewrite <- (rev_involutive a), E. Qed.

Lemma op_min_elem a b (l : list OpId.t) : a ∈ l → b ∈ l → op_min a b ∈ l.
Proof. by destruct (op_min_cases a b) as [[-> _]|[-> _]]. Qed.

Lemma holds_single r e : holds [r] e ↔ holds1 r e.
Proof. unfold holds. setoid_rewrite list_elem_of_singleton. naive_solver. Qed.

Lemma covers_single r i : covers [r] i ↔ in_range r i.
Proof. unfold covers. setoid_rewrite list_elem_of_singleton. naive_solver. Qed.

(** Operation ids of the new request and of the ranges replaced are free. *)
Lemma ops_free a old b op o :
  wf_ranges (a ++ old ++ b) → op ∉ min_op_id <$> (a ++ old ++ b) → o ∈ op :: (min_op_id <$> old) → o ∉ min_op_id <$> (a ++ b).
Proof.
  intros [_ _ N] Hop Ho Hin. rewrite !fmap_app in *. apply NoDup_app in N as (_ & N1 & N2). apply NoDup_app in N2 as (_ & N2 & _). apply elem_of_app in Hin. apply elem_of_cons in Ho as [->|Ho].
  - apply Hop. rewrite !elem_of_app. tauto.
  - destruct Hin as [Hin|Hin]; [apply (N1 o Hin), elem_of_app; by left|by apply (N2 o)].
Qed.

Lemma holds1_weaken r n e :
  holds1 r e → first_id n <= first_id r → last_id r <= last_id n → ole (min_op_id n) (min_op_id r) →
  min_time n <= min_time r → max_time r <= max_time n → holds1 n e.
Proof. intros ([? ?] & ? & ? & ?) ? ? ? ? ?. unfold holds1, in_range. split_and!; try lia. by etrans. Qed.

Section Adding.
Context (lim : Z) (op : OpId.t) (i t : Z).

Lemma end_of_range_added a b l' :
  TryJoinToEndOfRange lim a b op i t = Some l' → wf_ranges (a ++ b) → op ∉ min_op_id <$> (a ++ b) → (∀ r, r ∈ b → i < first_id r) → added op i t (a ++ b) l'.
Proof.
  unfold TryJoinToEndOfRange. destruct (rev a) as [|p a'] eqn:E; [done|]. apply rev_last in E as ->. destruct (Z.eqb_spec (last_id p + 1) i) as [Hi|]; [|done]. cbn [negb].
  destruct (_ <? t); [done|]. rewrite <- app_assoc. intros [= <-] Hwf Hop Hb.
  assert (Hfree : op_min (min_op_id p) op ∉ min_op_id <$> (rev a' ++ b)) by (eapply ops_free; [done..|]; apply op_min_elem; set_solver).
  rewrite UpdateMinOpId_eq by done. cbn [min_op_id set_last InsertTime].
  assert (Hm : op_min (min_op_id p) (op_min (min_op_id p) op) ∈ op :: (min_op_id <$> [p])) by (repeat apply op_min_elem; set_solver).
  pose proof (wf_in p _ Hwf ltac:(set_solver)). apply wf_app in Hwf as Hwf'. destruct Hwf' as (X & _ & _).
  apply replace_added; [done..| | | |exact Hm| |]; cbn [first_id last_id set_min_op set_last InsertTime].
  - intros r Hr. apply X; [done|set_solver].
  - intros r Hr. specialize (Hb r Hr). lia.
  - intros x. rewrite covers_single. unfold in_range. cbn. lia.
  - unfold holds1, in_range. cbn. split_and!; try lia. etrans; [apply op_min_r|apply op_min_r].
  - intros e He%holds_single. apply (holds1_weaken p); [done|cbn; try lia..]. apply op_min_l.
Qed.

Lemma join_ranges_added a r b l' :
  TryJoinRanges lim a (InsertTime r t) b (op_min (min_op_id r) op) = Some l' → first_id r = i + 1 →
  wf_ranges (a ++ r :: b) → op ∉ min_op_id <$> (a ++ r :: b) → added op i t (a ++ r :: b) l'.
Proof.
  unfold TryJoinRanges. destruct (rev a) as [|p a'] eqn:E; [done|]. apply rev_last in E as ->. cbn [first_id InsertTime]. destruct (Z.eqb_spec (last_id p + 2) (first_id r)) as [Hi|]; [|done]. cbn [negb].
  destruct (_ <? max_time _); [done|]. rewrite <- app_assoc. change ([p] ++ r :: b) with ([p; r] ++ b). intros [= <-] Hfirst Hwf Hop.
  rewrite UpdateMinOpId_eq by (eapply ops_free; [done..|]; repeat apply op_min_elem; set_solver). cbn [min_op_id PrepareJoinWithPrev InsertTime].
  set (o := op_min (min_op_id r) _). assert (Hm : o ∈ op :: (min_op_id <$> [p; r])) by (subst o; repeat apply op_min_elem; set_solver).
  assert (O1 : ole o (min_op_id r)) by apply op_min_l. assert (O2 : ole o (min_op_id p)) by (etrans; [apply op_min_r|apply op_min_r]).
  assert (O3 : ole o op) by (etrans; [apply op_min_r|]; etrans; [apply op_min_l|apply op_min_r]). clearbody o.
  pose proof (wf_in p _ Hwf ltac:(set_solver)). pose proof (wf_in r _ Hwf ltac:(set_solver)).
  apply wf_app in Hwf as Hwf'. destruct Hwf' as (X & _ & Hwf'). apply wf_app in Hwf' as (Y & _ & _).
  apply replace_added; [done..| | | |exact Hm| |]; cbn [first_id last_id set_min_op PrepareJoinWithPrev InsertTime].
  - intros r' Hr. apply X; [done|set_solver].
  - intros r' Hr. apply Y; [set_solver|done].
  - intros x. rewrite covers_cons, covers_single. unfold in_range. cbn. lia.
  - unfold holds1, in_range. cbn. split_and!; try lia; done.
  - intros e (r' & Hr & He). apply (holds1_weaken r'); [done|..]; rewrite elem_of_cons, list_elem_of_singleton in Hr; destruct Hr as [->| ->]; cbn; try lia; done.
Qed.

Lemma front_added a r b :
  first_id r = i + 1 → (∀ x, x ∈ a → last_id x < i) → wf_ranges (a ++ r :: b) → op ∉ min_op_id <$> (a ++ r :: b) →
  added op i t (a ++ r :: b) (UpdateMinOpId a (set_first (InsertTime r t) (first_id r - 1)) b (op_min (min_op_id r) op)).
Proof.
  change (r :: b) with ([r] ++ b). intros Hfirst Ha Hwf Hop.
  rewrite UpdateMinOpId_eq by (eapply ops_free; [done..|]; apply op_min_elem; set_solver). cbn [min_op_id set_first InsertTime].
  set (o := op_min (min_op_id r) _). assert (Hm : o ∈ op :: (min_op_id <$> [r])) by (subst o; repeat apply op_min_elem; set_solver).
  assert (O1 : ole o (min_op_id r)) by apply op_min_l. assert (O2 : ole o op) by (etrans; [apply op_min_r|apply op_min_r]). clearbody o.
  pose proof (wf_in r _ Hwf ltac:(set_solver)). apply wf_app in Hwf as Hwf'. destruct Hwf' as (X & _ & Hwf'). apply wf_app in Hwf' as (Y & _ & _).
  apply replace_added; [done..| | | |exact Hm| |]; cbn [first_id last_id set_min_op set_first InsertTime].
  - intros r' Hr. specialize (Ha r' Hr). lia.
  - intros r' Hr. apply Y; [set_solver|done].
  - intros x. rewrite covers_single. unfold in_range. cbn. lia.
  - unfold holds1, in_range. cbn. split_and!; try lia; done.
  - intros e He%holds_single. apply (holds1_weaken r); [done|cbn; try lia..]. done.
Qed.

Lemma emplace_added a b :
  wf_ranges (a ++ b) → op ∉ min_op_id <$> (a ++ b) → (∀ r, r ∈ a → last_id r < i) → (∀ r, r ∈ b → i < first_id r) →
  added op i t (a ++ b) (emplace_range a b (new_range i op t)).
Proof.
  intros Hwf Hop Ha Hb. unfold emplace_range. cbn [last_id min_op_id new_range].
  destruct (op_taken op (a ++ b)) eqn:E; [by apply op_taken_spec in E|].
  destruct (existsb _ _) eqn:E'.
  { apply existsb_exists in E' as (r & Hr%list_elem_of_In & El%Z.eqb_eq). pose proof (wf_in r _ Hwf Hr). apply elem_of_app in Hr as [Hr|Hr]; [specialize (Ha r Hr)|specialize (Hb r Hr)]; lia. }
  apply (replace_added a [] b); cbn [first_id last_id new_range app]; [done..| | | |].
  - intros x. unfold in_range. cbn. split; [lia|]. intros [?|?%covers_nil]; [lia|done].
  - set_solver.
  - unfold holds1, in_range. cbn. split_and!; try lia. reflexivity.
  - intros e (r & Hr & _). by apply elem_of_nil in Hr.
Qed.

(** A request that is not there is added, and nothing is lost. *)
Lemma AddReplicated_added l :
  wf_ranges l → op ∉ min_op_id <$> l → ¬ covers l i → added op i t l (AddReplicated lim op i t l).
Proof.
  intros Hwf Hop Hi. unfold AddReplicated. destruct (lower_bound_splits i l) as (El & Ha & Hb). pose proof (lower_bound_rest i l) as Hr.
  destruct (lower_bound i l) as [a b]. cbn [fst snd] in *. subst l.
  assert (Hrest : (∀ r, r ∈ b → i < first_id r) → added op i t (a ++ b) match TryJoinToEndOfRange lim a b op i t with Some l' => l' | None => emplace_range a b (new_range i op t) end).
  { intros Hlt. destruct (TryJoinToEndOfRange _ _ _ _ _ _) eqn:E; [by eapply end_of_range_added|by apply emplace_added]. }
  destruct b as [|r b]; [apply Hrest; intros ? []%elem_of_nil|]. specialize (Hb r b eq_refl).
  destruct (Z.leb_spec (first_id r) i); [destruct Hi; apply covers_app; right; apply covers_cons; left; unfold in_range; lia|].
  destruct (Z.eqb_spec (first_id r) (i + 1)) as [Hf|Hf].
  - destruct (TryJoinRanges _ _ _ _ _) eqn:E; [by eapply join_ranges_added|]. change (first_id (InsertTime r t)) with (first_id r). by apply front_added.
  - apply Hrest. intros r' [->|Hr']%elem_of_cons; [lia|by eapply Hr].
Qed.

(** A request that is there changes nothing. *)
Lemma AddReplicated_present l : wf_ranges l → covers l i → AddReplicated lim op i t l = l.
Proof.
  intros Hwf Hi. apply is_replicated_spec in Hi; [|done]. unfold AddReplicated, is_replicated in *. destruct (lower_bound_splits i l) as (El & _). destruct (lower_bound i l) as [a b]. cbn [fst snd] in *.
  destruct b as [|r b]; [done|]. by rewrite Hi.
Qed.

End Adding.

(** ** Forgetting requests *)

(** Ids below the least running request are dropped, and nothing else. *)
Record trimmed (m : Z) (l l' : list Range) : Prop := {
  trimmed_wf : wf_ranges l';
  trimmed_covers x : covers l' x ↔ covers l x ∧ m <= x;
  trimmed_holds e : holds l e → m <= e_id e → holds l' e;
  trimmed_ops o : o ∈ min_op_id <$> l' → o ∈ min_op_id <$> l;
}.

Lemma suffix_trimmed m a b :
  wf_ranges (a ++ b) → (∀ r, r ∈ a → last_id r < m) → (∀ r, r ∈ b → m <= first_id r) → trimmed m (a ++ b) b.
Proof.
  intros (X & W1 & W2)%wf_app Ha Hb. split; [done| | |].
  - intros x. rewrite covers_app. split; [intros Hx; split; [by right|]; destruct Hx as (r & Hr & ? & _); specialize (Hb r Hr); lia|].
    intros [[(r & Hr & _ & ?)|?] ?]; [specialize (Ha r Hr); lia|done].
  - intros e (r & Hr & He) Hm. apply elem_of_app in Hr as [Hr|Hr]; [|by exists r]. specialize (Ha r Hr). destruct He as [[? ?] _]. lia.
  - intros o Ho. rewrite fmap_app. apply elem_of_app. by right.
Qed.

Lemma cut_trimmed m r b :
  wf_ranges (r :: b) → first_id r < m <= last_id r → (∀ x, x ∈ b → m < first_id x) → trimmed m (r :: b) (set_first r m :: b).
Proof.
  change (r :: b) with ([r] ++ b). change (set_first r m :: b) with ([set_first r m] ++ b). intros (X & W1 & W2)%wf_app Hm Hb. split.
  - apply wf_app. split_and!; [|apply wf_single; cbn; lia|done]. intros r1 r2 ->%list_elem_of_singleton Hr. apply (X r r2); [by apply list_elem_of_singleton|done].
  - intros x. rewrite !covers_app, !covers_single. unfold in_range. cbn. split; [|intros [[?|?] ?]; [left; lia|by right]].
    intros [?|Hx]; [split; [left; lia|lia]|]. split; [by right|]. destruct Hx as (r' & Hr & ? & _). specialize (Hb r' Hr). lia.
  - intros e (r' & Hr & He) Hle. apply elem_of_app in Hr as [->%list_elem_of_singleton|Hr]; [|exists r'; set_solver].
    exists (set_first r m). split; [set_solver|]. destruct He as ([? ?] & ? & ?). unfold holds1, in_range. cbn. split_and!; try lia; done.
  - done.
Qed.

Lemma Cleanup_trimmed m c :
  wf_ranges (replicated c) →
  CleanupReplicatedRequests m c = c ∧ m <= min_running_request_id c ∨
  trimmed m (replicated c) (replicated (CleanupReplicatedRequests m c)) ∧
  min_running_request_id (CleanupReplicatedRequests m c) = m ∧ min_running_request_id c < m.
Proof.
  intros Hwf. unfold CleanupReplicatedRequests. destruct (Z.ltb_spec (min_running_request_id c) m); [right|by left]. cbn [replicated min_running_request_id]. split; [|done].
  destruct (lower_bound_splits m (replicated c)) as (El & Ha & Hb). pose proof (lower_bound_rest m (replicated c)) as Hr. destruct (lower_bound m (replicated c)) as [a b]. cbn [fst snd] in *. rewrite El in Hwf, Hr |- *.
  destruct b as [|r b]; [apply suffix_trimmed; [done..|]; intros ? []%elem_of_nil|]. specialize (Hb r b eq_refl).
  assert (Hrest : ∀ x, x ∈ b → m < first_id x) by (intros x Hx; by eapply Hr).
  destruct (Z.ltb_spec (first_id r) m).
  - pose proof Hwf as (X & W1 & W2)%wf_app. destruct (cut_trimmed m r b) as [C1 C2 C3 C4]; [done|lia|done|]. split; [done| | |].
    + intros x. rewrite C2, covers_app. split; [naive_solver|]. intros [[(r' & Hr' & _ & ?)|?] ?]; [specialize (Ha r' Hr'); lia|done].
    + intros e (r' & Hr' & He) Hm. apply elem_of_app in Hr' as [Hr'|Hr']; [specialize (Ha r' Hr'); destruct He as [[? ?] _]; lia|]. apply C3; [by exists r'|done].
    + intros o Ho%C4. rewrite fmap_app. apply elem_of_app. by right.
  - apply suffix_trimmed; [done..|]. intros x [->|Hx]%elem_of_cons; [done|]. specialize (Hrest x Hx). lia.
Qed.

Lemma Cleanup_same m c : running (CleanupReplicatedRequests m c) = running c ∧ empty_since (CleanupReplicatedRequests m c) = empty_since c.
Proof. unfold CleanupReplicatedRequests. by destruct (_ <? m). Qed.

(** The ranges passed over are the expired ones at the front of the index. *)
Lemma skip_expired_spec start l :
  l = (skip_expired start l).1 ++ (skip_expired start l).2 ∧ (∀ r, r ∈ (skip_expired start l).1 → max_time r < start).
Proof.
  induction l as [|r l (IH1 & IH2)]; cbn [skip_expired]; [split; [done|intros ? []%elem_of_nil]|].
  destruct (Z.ltb_spec (max_time r) start); cbn [fst snd app]; [|split; [done|intros ? []%elem_of_nil]]. split; [by rewrite <- IH1|]. intros r' [->|Hr]%elem_of_cons; [done|by apply IH2].
Qed.

#[local] Instance op_le_total : Total op_le.
Proof. intros a b. unfold op_le. rewrite !op_nlt_spec. lia. Qed.
#[local] Instance op_le_trans : Transitive op_le.
Proof. intros a b c. unfold op_le. rewrite !op_nlt_spec. lia. Qed.

Lemma clean_ranges_spec start l :
  wf_ranges l →
  wf_ranges (clean_ranges start l).2 ∧
  (∀ r, r ∈ (clean_ranges start l).2 → r ∈ l ∧ ole (clean_ranges start l).1 (min_op_id r)) ∧
  (∀ r, r ∈ l → start <= max_time r → r ∈ (clean_ranges start l).2).
Proof.
  intros Hwf. unfold clean_ranges. pose proof (StronglySorted_merge_sort op_le l) as Hs. pose proof (merge_sort_Permutation op_le l) as Hp.
  destruct (skip_expired_spec start (merge_sort op_le l)) as (E & Hg). destruct (skip_expired _ _) as [gone kept]. cbn [fst snd] in *. rewrite E in Hp, Hs. clear E.
  destruct kept as [|k kept]; cbn [fst snd].
  { split_and!; [apply wf_nil|intros ? []%elem_of_nil|]. intros r Hr Hm. rewrite <- Hp, app_nil_r in Hr. specialize (Hg r Hr). lia. }
  apply StronglySorted_app in Hs as (_ & _ & Hs). apply StronglySorted_inv in Hs as [_ Hs]. rewrite Forall_forall in Hs. pose proof (wf_ops _ Hwf) as Hnd. split_and!.
  - destruct Hwf as [W1 W2 W3]. clear -W1 W2 W3. induction l as [|r l IH]; [apply wf_nil|]. apply StronglySorted_inv in W1 as [W1 W1']. apply Forall_cons in W2 as [W2 W2']. rewrite fmap_cons in W3. apply NoDup_cons in W3 as [W3 W3'].
    cbn [List.filter]. destruct (negb _); [|by apply IH]. destruct (IH W1 W2' W3') as [I1 I2 I3].
    assert (Hsub : ∀ x, x ∈ List.filter (λ x, negb (op_taken (min_op_id x) gone)) l → x ∈ l) by (intros x Hx; apply list_elem_of_In in Hx; apply List.filter_In in Hx as [Hx _]; by apply list_elem_of_In).
    split; [constructor; [done|]|by constructor|rewrite fmap_cons; constructor; [|done]].
    + rewrite Forall_forall in W1' |- *. intros x Hx. by apply W1', Hsub.
    + intros (x & Ex & Hx)%list_elem_of_fmap. apply W3. rewrite Ex. by apply list_elem_of_fmap_2, Hsub.
  - intros r Hr. apply list_elem_of_In, List.filter_In in Hr as [Hr%list_elem_of_In Ht]. split; [done|]. pose proof Hr as Hr'. rewrite <- Hp in Hr'. apply elem_of_app in Hr' as [Hr'|Hr'].
    + apply negb_true_iff in Ht. rewrite (proj2 (op_taken_spec _ _)) in Ht; [done|by apply list_elem_of_fmap_2].
    + apply elem_of_cons in Hr' as [->|Hr']; [reflexivity|by apply Hs].
  - intros r Hr Hm. apply list_elem_of_In, List.filter_In. split; [by apply list_elem_of_In|]. apply negb_true_iff, not_true_iff_false. intros (g & Eg & Hgone)%op_taken_spec%list_elem_of_fmap.
    specialize (Hg g Hgone). assert (Hgl : g ∈ l) by (rewrite <- Hp; apply elem_of_app; by left).
    apply list_elem_of_lookup in Hr as [n Hr]. apply list_elem_of_lookup in Hgl as [n' Hgl].
    assert (n = n') as -> by (eapply (NoDup_lookup (min_op_id <$> l) n n' (min_op_id r)); [done|by rewrite list_lookup_fmap, Hr|by rewrite list_lookup_fmap, Hgl, Eg]).
    rewrite Hr in Hgl. injection Hgl as ->. lia.
Qed.

(** ** Invariant of a client *)

Record wf_client (c : Client) : Prop := {
  wc_ranges : wf_ranges (replicated c);
  wc_ids : NoDup (run_id <$> running c);
  wc_ops : NoDup (run_op <$> running c);
  wc_apart q : q ∈ running c → ¬ covers (replicated c) (run_id q) ∧ run_op q ∉ min_op_id <$> replicated c;
}.

(** A place in the log that no request of the client has. *)
Definition free (op : OpId.t) (c : Client) : Prop := (op ∉ run_op <$> running c) ∧ op ∉ min_op_id <$> replicated c.

Lemma wf_no_requests : wf_client no_requests.
Proof. split; [apply wf_nil|constructor..|intros q []%elem_of_nil]. Qed.

Lemma find_running_Some i l q : find_running i l = Some q → q ∈ l ∧ run_id q = i.
Proof. intros [H1 H2%Z.eqb_eq]%find_some. by apply list_elem_of_In in H1. Qed.

Lemma find_running_None i l : find_running i l = None → i ∉ run_id <$> l.
Proof. intros H (q & -> & Hq%list_elem_of_In)%list_elem_of_fmap. eapply find_none in H; [|done]. by rewrite Z.eqb_refl in H. Qed.

Lemma find_running_is i l : i ∈ run_id <$> l → ∃ q, find_running i l = Some q.
Proof. intros H. destruct (find_running i l) eqn:E; [eauto|]. by apply find_running_None in E. Qed.

Lemma elem_of_erase i l q : q ∈ erase_running i l ↔ q ∈ l ∧ run_id q ≠ i.
Proof. unfold erase_running. rewrite !list_elem_of_In, List.filter_In, negb_true_iff, Z.eqb_neq. done. Qed.

Lemma erase_NoDup {X} (f : Running → X) i l : NoDup (f <$> l) → NoDup (f <$> erase_running i l).
Proof.
  induction l as [|q l IH]; [done|]. rewrite fmap_cons, NoDup_cons. intros [H1 H2]. unfold erase_running. cbn [List.filter]. destruct (negb _); [|by apply IH].
  rewrite fmap_cons. constructor; [|by apply IH]. intros (q' & E & [Hq _]%elem_of_erase)%list_elem_of_fmap. apply H1. rewrite E. by apply list_elem_of_fmap_2.
Qed.

Lemma add_duplicate_same i round l : run_id <$> add_duplicate i round l = run_id <$> l ∧ (run_op <$> add_duplicate i round l) = run_op <$> l.
Proof. unfold add_duplicate. rewrite <- !list_fmap_compose. split; apply list_fmap_ext; intros ? q _; cbn; by destruct (run_id q =? i). Qed.

(** Only the ids and places of the requests in flight matter. *)
Lemma wf_running_same c l :
  wf_client c → run_id <$> l = run_id <$> running c → run_op <$> l = run_op <$> running c → wf_client (set_running c l).
Proof.
  intros [W1 W2 W3 W4] E1 E2. split; cbn [replicated running set_running]; [done|by rewrite E1|by rewrite E2|]. intros q Hq. split.
  - intros Hc. assert (Hi : run_id q ∈ run_id <$> running c) by (rewrite <- E1; by apply list_elem_of_fmap_2). apply list_elem_of_fmap in Hi as (q' & Ei & Hq'). rewrite Ei in Hc. by apply W4 in Hq' as [? _].
  - intros Hc. assert (Hi : run_op q ∈ run_op <$> running c) by (rewrite <- E2; by apply list_elem_of_fmap_2). apply list_elem_of_fmap in Hi as (q' & Ei & Hq'). rewrite Ei in Hc. by apply W4 in Hq' as [_ ?].
Qed.

Lemma wf_cleanup m c : wf_client c → wf_client (CleanupReplicatedRequests m c).
Proof.
  intros [W1 W2 W3 W4]. destruct (Cleanup_same m c) as [Er _]. destruct (Cleanup_trimmed m c W1) as [[-> _]|([T1 T2 _ T4] & _)]; [by split|]. split; rewrite ?Er; [done..|].
  intros q Hq. destruct (W4 q Hq) as [H1 H2]. split; [rewrite T2; tauto|]. intros H. by apply H2, T4.
Qed.

Lemma unreplicated_cleanup op m c : wf_client c → op ∉ min_op_id <$> replicated c → op ∉ min_op_id <$> replicated (CleanupReplicatedRequests m c).
Proof. intros [W1 _ _ _] F. destruct (Cleanup_trimmed m c W1) as [[-> _]|([_ _ _ T4] & _)]; [done|]. intros H. by apply F, T4. Qed.

Lemma free_cleanup op m c : wf_client c → free op c → free op (CleanupReplicatedRequests m c).
Proof.
  intros [W1 _ _ _] [F1 F2]. destruct (Cleanup_same m c) as [Er _]. destruct (Cleanup_trimmed m c W1) as [[-> _]|([_ _ _ T4] & _)]; [done|].
  split; [by rewrite Er|]. intros H. by apply F2, T4.
Qed.

Lemma wf_new_running c i op t : wf_client c → free op c → ¬ covers (replicated c) i → find_running i (running c) = None → wf_client (set_running c (mk_running i op t [] :: running c)).
Proof.
  intros [W1 W2 W3 W4] [F1 F2] Hi Hf%find_running_None. split; cbn [replicated running set_running]; rewrite ?fmap_cons; [done|by constructor..|].
  intros q [->|Hq]%elem_of_cons; [done|by apply W4].
Qed.

Lemma wf_erase c i : wf_client c → wf_client (set_running c (erase_running i (running c))).
Proof. intros [W1 W2 W3 W4]. split; cbn [replicated running set_running]; [done|by apply erase_NoDup..|]. intros q [Hq _]%elem_of_erase. by apply W4. Qed.

(** Adding a request that is not in flight. *)
Lemma wf_add lim c op i t :
  wf_client c → op ∉ min_op_id <$> replicated c → i ∉ run_id <$> running c → op ∉ run_op <$> running c →
  wf_client (set_replicated c (AddReplicated lim op i t (replicated c))).
Proof.
  intros [W1 W2 W3 W4] Hop Hi Ho. destruct (is_replicated i (replicated c)) eqn:E.
  { apply is_replicated_spec in E; [|done]. rewrite AddReplicated_present by done. by destruct c. }
  assert (Hc : ¬ covers (replicated c) i) by (intros Hc; apply is_replicated_spec in Hc; [congruence|done]).
  destruct (AddReplicated_added lim op i t (replicated c) W1 Hop Hc) as [A1 A2 _ _ A5]. split; cbn [replicated running set_replicated]; [done..|].
  intros q Hq. destruct (W4 q Hq) as [H1 H2]. split.
  - rewrite A2. intros [E'|?]; [|done]. apply Hi. rewrite <- E'. by apply list_elem_of_fmap_2.
  - intros [E'|?]%A5; [|done]. apply Ho. rewrite <- E'. by apply list_elem_of_fmap_2.
Qed.

End RetryableRequests.
