(* ===== verification/Retries.v ===== *)
(** * Requests that are sent again

    Runs of the record of [RetryableRequests]: any interleaving of registrations,
    completions, replays at the start of a replica and cleanings, for any number
    of clients. *)

From S2P Require Import Prelude RaftConfig RetryableRequests.

Module Retries.
Import RetryableRequests.

Inductive event :=
  | Registered (round : Round) (entry_time now : Z)
  | Finished (m : ReplicateMsg) (status : Status) (leader_term : Z)
  | Bootstrapped (m : ReplicateMsg) (entry_time : Z)
  | Cleaned (now : Z).

Section Runs.
Context (range_time_limit timeout : Z).

Definition run_event (e : event) (s : state) : list Notification * state :=
  match e with
  | Registered round entry_time now => let r := Register round entry_time now s in (r.1.2, r.2)
  | Finished m status leader_term => ReplicationFinished range_time_limit m status leader_term s
  | Bootstrapped m entry_time => ([], Bootstrap range_time_limit m entry_time s)
  | Cleaned now => ([], (CleanExpiredReplicatedAndGetMinOpId timeout now s).2)
  end.

(** What the log gives: a new round has a place that no replicated request has,
    and a round that completes is the one that was registered for its request. *)
Definition allowed (e : event) (s : state) : Prop :=
  match e with
  | Registered round _ _ =>
      match FromMsg (replicate_msg round) with Some (w, op) => op ∉ min_op_id <$> replicated (client_of s (client_id w)) | None => True end
  | Bootstrapped m _ => match FromMsg m with Some (w, op) => free op (client_of s (client_id w)) | None => True end
  | Finished m _ _ =>
      match FromMsg m with
      | Some (w, op) => match find_running (request_id w) (running (client_of s (client_id w))) with Some q => run_op q = op | None => True end
      | None => True
      end
  | Cleaned _ => True
  end.

(** States after a list of events. *)
Inductive runs : state → list event → state → Prop :=
  | runs_nil s : runs s [] s
  | runs_cons s e l s' : allowed e s → runs (run_event e s).2 l s' → runs s (e :: l) s'.

Definition wf_state (s : state) : Prop := ∀ c, wf_client (client_of s c).

Lemma client_of_insert s c k x : client_of (<[k := x]> s) c = if decide (c = k) then x else client_of s c.
Proof. unfold client_of. case_decide as E; [subst; by rewrite lookup_insert_eq|by rewrite lookup_insert_ne]. Qed.

Lemma wf_insert s k x : wf_state s → wf_client x → wf_state (<[k := x]> s).
Proof. intros Hs Hx c. rewrite client_of_insert. by case_decide. Qed.

Lemma is_replicated_false i c : wf_client c → is_replicated i (replicated c) = false → ¬ covers (replicated c) i.
Proof. intros [W _ _ _] E Hc. apply is_replicated_spec in Hc; [congruence|done]. Qed.

Lemma register_wf round entry_time now s : wf_state s → allowed (Registered round entry_time now) s → wf_state (Register round entry_time now s).2.
Proof.
  intros Hs Ha. cbn in Ha. unfold Register. destruct (FromMsg _) as [[w op]|]; [|done]. specialize (Hs (client_id w)) as Hc.
  apply unreplicated_cleanup with (m := min_running_id w) in Ha; [|done]. apply (wf_cleanup (min_running_id w)) in Hc. set (c := CleanupReplicatedRequests _ _) in *. clearbody c.
  destruct (_ <? _); [by apply wf_insert|]. destruct (is_replicated _ _) eqn:Er; [by apply wf_insert|]. apply is_replicated_false in Er; [|done].
  unfold blocking. destruct (find_running _ _) as [q|] eqn:Ef.
  { apply wf_insert; [done|]. destruct (add_duplicate_same (run_id q) round (running c)). by apply wf_running_same. }
  destruct (List.find _ _) as [q|] eqn:Eo; cbn [snd]; (apply wf_insert; [done|]).
  2: { apply wf_new_running; [done| |done..]. split; [|done]. intros (q & -> & Hq%list_elem_of_In)%list_elem_of_fmap. eapply find_none in Eo; [|exact Hq]. by rewrite bool_decide_true in Eo. }
  destruct (add_duplicate_same (run_id q) round (running c)). by apply wf_running_same.
Qed.

Lemma erased_id i l : i ∉ run_id <$> erase_running i l.
Proof. intros (q & E & [_ Hq]%elem_of_erase)%list_elem_of_fmap. congruence. Qed.

Lemma erased_op c q : wf_client c → q ∈ running c → run_op q ∉ run_op <$> erase_running (run_id q) (running c).
Proof.
  intros [_ _ Hn _] Hq (q' & E & [Hq' Hd]%elem_of_erase)%list_elem_of_fmap. apply list_elem_of_lookup in Hq as [n Hq]. apply list_elem_of_lookup in Hq' as [n' Hq'].
  assert (n = n') as -> by (eapply (NoDup_lookup (run_op <$> running c) n n' (run_op q)); [done|by rewrite list_lookup_fmap, Hq|by rewrite list_lookup_fmap, Hq', E]). congruence.
Qed.

Lemma finished_wf m status leader_term s : wf_state s → allowed (Finished m status leader_term) s → wf_state (ReplicationFinished range_time_limit m status leader_term s).2.
Proof.
  intros Hs Ha. cbn in Ha. unfold ReplicationFinished. destruct (FromMsg m) as [[w op]|]; [|done]. specialize (Hs (client_id w)) as Hc. set (c := client_of _ _) in *. clearbody c.
  destruct (find_running _ _) as [q|] eqn:Ef; [|by apply wf_insert]. apply find_running_Some in Ef as [Hq Ei]. subst op. rewrite <- Ei in *.
  destruct (ok status); (apply wf_insert; [done|]); [|by apply wf_erase].
  apply (wf_add _ (set_running c (erase_running (run_id q) (running c)))); [by apply wf_erase|by apply (wc_apart c Hc)|apply erased_id|by apply erased_op].
Qed.

Lemma bootstrap_wf m entry_time s : wf_state s → allowed (Bootstrapped m entry_time) s → wf_state (Bootstrap range_time_limit m entry_time s).
Proof.
  intros Hs Ha. cbn in Ha. unfold Bootstrap. destruct (FromMsg m) as [[w op]|]; [|done]. specialize (Hs (client_id w)) as Hc.
  apply free_cleanup with (m := min_running_id w) in Ha; [|done].
  destruct (find_running _ _) as [q|] eqn:Ef; [by apply wf_insert|]. apply find_running_None in Ef. destruct (Cleanup_same (min_running_id w) (client_of s (client_id w))) as [Er _].
  rewrite <- Er in Ef. destruct Ha as [? ?]. apply wf_insert; [done|]. apply wf_add; [by apply wf_cleanup|done..].
Qed.

Lemma clean_wf now c c' : wf_client c → (clean_client timeout now c).2 = Some c' → wf_client c'.
Proof.
  intros [W1 W2 W3 W4]. unfold clean_client. destruct (clean_ranges_spec (now - timeout) _ W1) as (C1 & C2 & _). destruct (clean_ranges _ _) as [res l]. cbn [fst snd] in *.
  assert (Hw : ∀ k, wf_client (mk_client (running c) l (min_running_request_id c) k)).
  { intros k. split; cbn [replicated running]; [done..|]. intros q Hq. destruct (W4 q Hq) as [H1 H2]. split.
    - intros (r & Hr & Hi). apply H1. exists r. split; [by apply C2|done].
    - intros (r & E & Hr)%list_elem_of_fmap. apply H2. rewrite E. by apply list_elem_of_fmap_2, C2. }
  repeat case_match; intros [= <-]; apply Hw.
Qed.

Lemma cleaned_lookup now s c : (CleanExpiredReplicatedAndGetMinOpId timeout now s).2 !! c = s !! c ≫= λ x, (clean_client timeout now x).2.
Proof. cbn [CleanExpiredReplicatedAndGetMinOpId snd]. by rewrite lookup_omap. Qed.

Lemma event_wf e s : wf_state s → allowed e s → wf_state (run_event e s).2.
Proof.
  intros Hs Ha. destruct e; [by apply register_wf|by apply finished_wf|by apply bootstrap_wf|]. intros c. specialize (Hs c). unfold client_of in *. cbn [run_event snd]. rewrite cleaned_lookup.
  destruct (s !! c) as [x|]; [|done]. cbn. destruct (clean_client timeout now x).2 eqn:E; [|apply wf_no_requests]. by eapply clean_wf.
Qed.

Lemma runs_wf s l s' : runs s l s' → wf_state s → wf_state s'.
Proof. induction 1; [done|]. intros. by apply IHruns, event_wf. Qed.

(** ** What is remembered of a client *)

(** Nothing known is lost, except ids the client is done with. *)
Record keeps (x x' : Client) : Prop := {
  keeps_since : empty_since x' = empty_since x;
  keeps_min : min_running_request_id x <= min_running_request_id x';
  keeps_holds e : holds (replicated x) e → e_id e < min_running_request_id x' ∨ holds (replicated x') e;
  keeps_covers i : covers (replicated x) i → i < min_running_request_id x' ∨ covers (replicated x') i;
}.

#[local] Instance keeps_preorder : PreOrder keeps.
Proof.
  split; [intros x; split; [done|lia|tauto..]|]. intros x y z [A1 A2 A3 A4] [B1 B2 B3 B4]. split; [congruence|lia| |].
  - intros e He. destruct (A3 e He) as [?|H]; [left; lia|by apply B3].
  - intros i Hi. destruct (A4 i Hi) as [?|H]; [left; lia|by apply B4].
Qed.

Lemma keeps_cleanup m x : wf_client x → keeps x (CleanupReplicatedRequests m x).
Proof.
  intros Hx. destruct (Cleanup_trimmed m x (wc_ranges x Hx)) as [[-> _]|([_ T2 T3 _] & Em & Hm)]; [reflexivity|]. split.
  - apply Cleanup_same.
  - lia.
  - intros e He. rewrite Em. destruct (Z.lt_ge_cases (e_id e) m); [by left|right; by apply T3].
  - intros i Hi. rewrite Em. destruct (Z.lt_ge_cases i m); [by left|right; by apply T2].
Qed.

Lemma keeps_running x l : keeps x (set_running x l).
Proof. split; [done|cbn; lia|tauto..]. Qed.

Lemma keeps_add x op i t : wf_client x → op ∉ min_op_id <$> replicated x → keeps x (set_replicated x (AddReplicated range_time_limit op i t (replicated x))).
Proof.
  intros Hx Hop. destruct (is_replicated i (replicated x)) eqn:E.
  { apply is_replicated_spec in E; [|apply Hx]. rewrite AddReplicated_present by (done || apply Hx). split; [done|cbn; lia|tauto..]. }
  destruct (AddReplicated_added range_time_limit op i t (replicated x) (wc_ranges x Hx) Hop (is_replicated_false i x Hx E)) as [_ A2 _ A4 _].
  split; cbn [empty_since min_running_request_id replicated set_replicated]; [done|lia| |]; [intros e He; right; by apply A4|intros j Hj; right; apply A2; by right].
Qed.

Lemma keeps_insert s k x c y : s !! c = Some y → keeps (client_of s k) x → ∃ y', <[k := x]> s !! c = Some y' ∧ keeps y y'.
Proof.
  intros Hc Hk. destruct (decide (k = c)) as [->|Hd]; [|exists y; split; [by rewrite lookup_insert_ne|reflexivity]].
  exists x. split; [by rewrite lookup_insert_eq|]. unfold client_of in Hk. by rewrite Hc in Hk.
Qed.

(** Every operation but the cleaning keeps what is known of a client. *)
Lemma event_keeps e s c y :
  wf_state s → allowed e s → (∀ now, e ≠ Cleaned now) → s !! c = Some y → ∃ y', (run_event e s).2 !! c = Some y' ∧ keeps y y'.
Proof.
  intros Hs Ha He Hc. assert (Hy : ∃ y', s !! c = Some y' ∧ keeps y y') by (exists y; split; [done|reflexivity]).
  destruct e as [round et now|m st lt|m et|now]; cbn [run_event fst snd] in *; [| | |by destruct (He now)].
  - unfold Register. destruct (FromMsg _) as [[w op]|]; [|done]. pose proof (keeps_cleanup (min_running_id w) _ (Hs (client_id w))) as Hk.
    destruct (_ <? _); [by apply keeps_insert|]. destruct (is_replicated _ _); [by apply keeps_insert|]. destruct (blocking _ _ _); (apply keeps_insert; [done|]; by etrans; [|apply keeps_running]).
  - cbn [allowed] in Ha. unfold ReplicationFinished. destruct (FromMsg _) as [[w op]|]; [|done]. destruct (find_running _ _) as [q|] eqn:Ef; [|by apply keeps_insert].
    apply find_running_Some in Ef as [Hq Ei]. subst op. pose proof (wc_apart _ (Hs (client_id w)) q Hq) as [_ Hop].
    destruct (ok st); (apply keeps_insert; [done|]); [|apply keeps_running]. etrans; [apply keeps_running|]. apply (keeps_add (set_running _ _)); [by apply wf_erase|done].
  - cbn [allowed] in Ha. unfold Bootstrap. destruct (FromMsg _) as [[w op]|]; [|done]. destruct (find_running _ _); [by apply keeps_insert|]. apply keeps_insert; [done|].
    etrans; [by apply keeps_cleanup|]. apply keeps_add; [by apply wf_cleanup|]. by apply free_cleanup.
Qed.

(** What the cleaning leaves of a client. *)
Lemma clean_keeps now x :
  wf_client x →
  match (clean_client timeout now x).2 with
  | Some x' =>
      (empty_since x' = empty_since x ∨ empty_since x = 0 ∧ empty_since x' = now) ∧ min_running_request_id x' = min_running_request_id x ∧
      running x' = running x ∧ (∀ e, holds (replicated x) e → now - timeout <= e_time e → holds (replicated x') e)
  | None =>
      empty_since x ≠ 0 ∧ empty_since x < now - timeout ∧ running x = [] ∧ (∀ e, holds (replicated x) e → e_time e < now - timeout)
  end.
Proof.
  intros [W1 _ _ _]. unfold clean_client. destruct (clean_ranges_spec (now - timeout) _ W1) as (_ & _ & C3). destruct (clean_ranges _ _) as [res l]. cbn [fst snd] in *.
  assert (Hh : ∀ e, holds (replicated x) e → now - timeout <= e_time e → holds l e).
  { intros e (r & Hr & He) Ht. exists r. split; [|done]. apply C3; [done|]. destruct He as (_ & _ & ?). lia. }
  destruct (no_ranges _ && no_running _) eqn:E; [|cbn; split_and!; [by left|done..]]. cbn [empty_since set_replicated].
  destruct (Z.eqb_spec (empty_since x) 0); [cbn; split_and!; [by right|done..]|]. destruct (Z.ltb_spec (empty_since x) (now - timeout)); [|cbn; split_and!; [by left|done..]].
  apply andb_true_iff in E as [E1 E2]. unfold no_ranges, no_running in *. cbn in E1, E2. destruct l; [|done]. cbn [snd]. split_and!; [done..|by destruct (running x)|].
  intros e He. destruct (Z.lt_ge_cases (e_time e) (now - timeout)); [done|]. destruct (Hh e He) as (r & Hr & _); [lia|]. by apply elem_of_nil in Hr.
Qed.

(** ** Rejecting a request *)

(** The record knows request [i] of client [c]. *)
Definition knows (c : ClientId) (i : Z) (s : state) : Prop := ∃ x, s !! c = Some x ∧ (i < min_running_request_id x ∨ covers (replicated x) i).

Definition rejection (round : Round) (r : bool * list Notification) : Prop :=
  ∃ st, r = (false, [(round, st, bound_term round)]) ∧ (st = AlreadyPresent ∨ ∃ k, st = Expired k).

Lemma knows_rejects round entry_time now w op s :
  wf_state s → FromMsg (replicate_msg round) = Some (w, op) → knows (client_id w) (request_id w) s → rejection round (Register round entry_time now s).1.
Proof.
  intros Hs E (x & Hx & Hk). unfold Register. rewrite E. specialize (Hs (client_id w)) as Hw. unfold client_of in *. rewrite Hx in *. cbn [from_option Datatypes.id] in *.
  destruct (keeps_cleanup (min_running_id w) x Hw) as [_ K2 _ K4]. apply (wf_cleanup (min_running_id w)) in Hw. set (x' := CleanupReplicatedRequests _ x) in *. clearbody x'.
  destruct (Z.ltb_spec (request_id w) (min_running_request_id x')) as [|Hge]; [eexists; split; [done|]; right; eauto|].
  assert (Hc : covers (replicated x') (request_id w)) by (destruct Hk as [?|Hk]; [lia|]; destruct (K4 _ Hk); [lia|done]).
  apply is_replicated_spec in Hc; [|apply Hw]. rewrite Hc. eexists; split; [done|by left].
Qed.

(** A replicated request whose client is not on the way to be forgotten. *)
Definition remembered (c : ClientId) (e : Entry) (s : state) : Prop :=
  ∃ x, s !! c = Some x ∧ (empty_since x = 0 ∨ e_time e <= empty_since x) ∧ (e_id e < min_running_request_id x ∨ holds (replicated x) e).

(** Cleanings at most [timeout] after a time. *)
Definition within (t : Z) (e : event) : Prop := match e with Cleaned now => t <= now <= t + timeout | _ => True end.

Lemma event_remembers e s c en : wf_state s → allowed e s → within (e_time en) e → remembered c en s → remembered c en (run_event e s).2.
Proof.
  intros Hs Ha Hin (x & Hx & Hsince & Hk). destruct e as [| | |now]; [edestruct event_keeps as (y & Hy & [K1 K2 K3 _]); [exact Hs|exact Ha|congruence|exact Hx|]..|].
  4: { cbn [run_event snd within] in *. specialize (Hs c) as Hw. unfold client_of in Hw. rewrite Hx in Hw. pose proof (clean_keeps now x Hw) as Hc. unfold remembered. rewrite cleaned_lookup, Hx. cbn [mbind option_bind].
    destruct (clean_client timeout now x).2 as [x'|]; [destruct Hc as (C1 & C2 & _ & C3)|lia]. exists x'. split; [done|]. split; [lia|]. rewrite C2. destruct Hk; [by left|right; apply C3; [done|lia]]. }
  all: exists y; rewrite K1; (split_and!; [done..|]); destruct Hk as [?|Hk]; [left; lia|by apply K3].
Qed.

Lemma runs_remember s l s' c en : runs s l s' → wf_state s → Forall (within (e_time en)) l → remembered c en s → remembered c en s'.
Proof. induction 1; [done|]. intros Hs [? ?]%Forall_cons Hr. apply IHruns; [by apply event_wf|done|by apply event_remembers]. Qed.

Lemma remembered_knows c e s : remembered c e s → knows c (e_id e) s.
Proof. intros (x & Hx & _ & Hk). exists x. split; [done|]. destruct Hk; [by left|right; by apply holds_covers]. Qed.

(** Completing a request writes it down. *)
Lemma finished_remembers m leader_term s w op q :
  wf_state s → allowed (Finished m OK leader_term) s → FromMsg m = Some (w, op) →
  find_running (request_id w) (running (client_of s (client_id w))) = Some q →
  empty_since (client_of s (client_id w)) = 0 ∨ run_time q <= empty_since (client_of s (client_id w)) →
  remembered (client_id w) (mk_entry (request_id w) op (run_time q)) (ReplicationFinished range_time_limit m OK leader_term s).2.
Proof.
  intros Hs Ha E Ef Hsince. cbn [allowed] in Ha. unfold ReplicationFinished. rewrite E, Ef in *. subst op. cbn [ok snd]. eexists. split; [apply lookup_insert_eq|]. split; [done|]. right.
  cbn [replicated set_replicated set_running]. apply find_running_Some in Ef as [Hq Ei]. pose proof (wc_apart _ (Hs (client_id w)) q Hq) as [Hc Hop]. rewrite Ei in Hc.
  by apply (AddReplicated_added range_time_limit (run_op q) (request_id w) (run_time q)); [apply Hs|..].
Qed.

(** ** Restarts *)

Lemma fold_min_start {X} (f : X → OpId.t) l o : ole (foldl (λ res k, op_min res (f k)) o l) o.
Proof. revert o. induction l as [|k l IH]; intros o; [reflexivity|]. cbn [foldl]. etrans; [apply IH|apply op_min_l]. Qed.

Lemma fold_min {X} (f : X → OpId.t) l o k : k ∈ l → ole (foldl (λ res k, op_min res (f k)) o l) (f k).
Proof.
  revert o. induction l as [|k' l IH]; intros o; [by intros []%elem_of_nil|]. intros [<-|Hin]%elem_of_cons; cbn [foldl]; [|by apply IH].
  etrans; [apply fold_min_start|apply op_min_r].
Qed.

(** The operation id that the log must be kept from is not after any request that is left. *)
Lemma clean_needs now s c x r :
  wf_state s → (CleanExpiredReplicatedAndGetMinOpId timeout now s).2 !! c = Some x → r ∈ replicated x →
  ole (CleanExpiredReplicatedAndGetMinOpId timeout now s).1 (min_op_id r).
Proof.
  rewrite cleaned_lookup. intros Hs Hx Hr. destruct (s !! c) as [y|] eqn:Hy; [|done]. cbn [mbind option_bind] in Hx. specialize (Hs c) as [W1 _ _ _]. unfold client_of in W1. rewrite Hy in W1. cbn [from_option Datatypes.id] in W1.
  trans (clean_client timeout now y).1.
  - unfold CleanExpiredReplicatedAndGetMinOpId. cbn [fst]. apply elem_of_map_to_list in Hy. by apply (fold_min (λ kc, (clean_client timeout now kc.2).1) _ _ (c, y)).
  - revert Hx. unfold clean_client. destruct (clean_ranges_spec (now - timeout) _ W1) as (_ & C2 & _). destruct (clean_ranges _ _) as [res l]. cbn [fst snd] in *.
    repeat case_match; intros [= <-]; by apply C2.
Qed.

(** Messages of the log and the times of their entries, replayed. *)
Definition replay (log : list (ReplicateMsg * Z)) : list event := (λ mt, Bootstrapped mt.1 mt.2) <$> log.

(** What is left of a log that is kept from an operation id. *)
Definition log_from (o : OpId.t) (log : list (ReplicateMsg * Z)) : list (ReplicateMsg * Z) := List.filter (λ mt, negb (OpId.operator_lt (id mt.1) o)) log.

Lemma bootstrap_knows m t s w op :
  wf_state s → free op (client_of s (client_id w)) → running (client_of s (client_id w)) = [] → FromMsg m = Some (w, op) → knows (client_id w) (request_id w) (Bootstrap range_time_limit m t s).
Proof.
  intros Hs Hf Hr E. unfold Bootstrap. rewrite E, Hr. cbn [find_running List.find]. eexists. split; [apply lookup_insert_eq|]. right. cbn [replicated set_replicated].
  apply free_cleanup with (m := min_running_id w) in Hf as [_ Hf]; [|done]. specialize (Hs (client_id w)) as Hw. apply (wf_cleanup (min_running_id w)) in Hw. set (x := CleanupReplicatedRequests _ _) in *. clearbody x.
  destruct (is_replicated (request_id w) (replicated x)) eqn:Er.
  - apply is_replicated_spec in Er; [|apply Hw]. by rewrite AddReplicated_present by (done || apply Hw).
  - apply is_replicated_false in Er; [|done]. apply (AddReplicated_added range_time_limit op (request_id w) t); [apply Hw|done|done|by left].
Qed.

Lemma bootstrap_no_running m t s : (∀ c, running (client_of s c) = []) → ∀ c, running (client_of (Bootstrap range_time_limit m t s) c) = [].
Proof.
  intros Hr c. unfold Bootstrap. destruct (FromMsg m) as [[w op]|]; [|done]. rewrite Hr. cbn [find_running List.find]. rewrite client_of_insert. case_decide; [|done].
  cbn [running set_replicated]. destruct (Cleanup_same (min_running_id w) (client_of s (client_id w))) as [-> _]. done.
Qed.

Lemma event_knows e s c i : wf_state s → allowed e s → (∀ now, e ≠ Cleaned now) → knows c i s → knows c i (run_event e s).2.
Proof.
  intros Hs Ha He (x & Hx & Hk). destruct (event_keeps e s c x Hs Ha He Hx) as (y & Hy & [_ K2 _ K4]). exists y. split; [done|]. destruct Hk as [?|Hk]; [left; lia|by apply K4].
Qed.

Lemma replay_keeps_known log s s' c i : runs s (replay log) s' → wf_state s → knows c i s → knows c i s'.
Proof. revert s. induction log as [|[m t] log IH]; intros s Hr Hs Hk; inversion Hr; subst; [done|]. eapply IH; [done|by apply event_wf|by apply event_knows]. Qed.

Lemma replay_knows log s s' m t w op :
  runs s (replay log) s' → wf_state s → (∀ c, running (client_of s c) = []) → (m, t) ∈ log → FromMsg m = Some (w, op) → knows (client_id w) (request_id w) s'.
Proof.
  revert s. induction log as [|[m' t'] log IH]; intros s Hr Hs Hn Hin E; [by apply elem_of_nil in Hin|]. inversion Hr as [|? ? ? ? Ha Hr']; subst.
  apply elem_of_cons in Hin as [[= <- <-]|Hin]; [|eapply IH; [done|by apply event_wf|by apply bootstrap_no_running|done..]].
  eapply replay_keeps_known; [done|by apply event_wf|]. cbn [fst snd allowed run_event] in *. rewrite E in Ha. by eapply bootstrap_knows.
Qed.

End Runs.

(** ** Rounds that are turned away *)

(** The rounds of a client that wait for the end of another round. *)
Definition waiting (c : ClientId) (s : state) : list Round := running (client_of s c) ≫= duplicate_rounds.

Definition event_client (e : event) : option ClientId :=
  match e with
  | Registered round _ _ => (λ p, client_id p.1) <$> FromMsg (replicate_msg round)
  | Finished m _ _ | Bootstrapped m _ => (λ p, client_id p.1) <$> FromMsg m
  | Cleaned _ => None
  end.

(** The round an event turns away. *)
Definition turned_away (e : event) (s : state) : list Round :=
  match e with
  | Registered round entry_time now => if (Register round entry_time now s).1.1 then [] else [round]
  | _ => []
  end.

Definition answered (notes : list Notification) : list Round := (λ n, n.1.1) <$> notes.

Lemma duplicate_waits l q round :
  NoDup (run_id <$> l) → q ∈ l → add_duplicate (run_id q) round l ≫= duplicate_rounds ≡ₚ round :: (l ≫= duplicate_rounds).
Proof.
  induction l as [|x l IH]; [by intros _ []%elem_of_nil|]. rewrite fmap_cons, NoDup_cons. intros [Hx Hn] Hq. unfold add_duplicate in *. rewrite fmap_cons, !bind_cons. destruct (Z.eqb_spec (run_id x) (run_id q)) as [E|E].
  - assert (H : (λ q0, if run_id q0 =? run_id q then mk_running (run_id q0) (run_op q0) (run_time q0) (duplicate_rounds q0 ++ [round]) else q0) <$> l = l).
    { transitivity (Datatypes.id <$> l); [|apply list_fmap_id]. apply list_fmap_ext. intros n y Hy. destruct (Z.eqb_spec (run_id y) (run_id q)); [|done]. destruct Hx. rewrite E, <- e. apply list_elem_of_fmap_2. by eapply list_elem_of_lookup_2. }
    rewrite H. cbn [duplicate_rounds]. rewrite <- app_assoc. symmetry. apply Permutation_middle.
  - apply elem_of_cons in Hq as [->|Hq]; [done|]. rewrite IH by done. symmetry. apply Permutation_middle.
Qed.

Lemma erased_waits l q : NoDup (run_id <$> l) → q ∈ l → (erase_running (run_id q) l ≫= duplicate_rounds) ++ duplicate_rounds q ≡ₚ l ≫= duplicate_rounds.
Proof.
  induction l as [|x l IH]; [by intros _ []%elem_of_nil|]. rewrite fmap_cons, NoDup_cons. intros [Hx Hn] Hq. unfold erase_running in *. cbn [List.filter]. destruct (Z.eqb_spec (run_id x) (run_id q)) as [E|E]; cbn [negb]; rewrite !bind_cons.
  - assert (q = x) as -> by (apply elem_of_cons in Hq as [->|Hq]; [done|]; destruct Hx; rewrite E; by apply list_elem_of_fmap_2).
    assert (H : List.filter (λ q0, negb (run_id q0 =? run_id x)) l = l); [|rewrite H; apply Permutation_app_comm].
    clear -Hx. induction l as [|y l IH]; [done|]. rewrite fmap_cons, not_elem_of_cons in Hx. destruct Hx as [Hy Hx]. cbn [List.filter]. rewrite (proj2 (Z.eqb_neq (run_id y) (run_id x))) by congruence. cbn [negb]. by rewrite IH.
  - apply elem_of_cons in Hq as [->|Hq]; [done|]. rewrite <- app_assoc, IH by done. done.
Qed.

Section Rounds.
Context (range_time_limit timeout : Z).

Lemma waiting_insert s k x c : waiting c (<[k := x]> s) = if decide (c = k) then running x ≫= duplicate_rounds else waiting c s.
Proof. unfold waiting. rewrite client_of_insert. by case_decide. Qed.

Lemma register_rounds round entry_time now s w op :
  wf_state s → FromMsg (replicate_msg round) = Some (w, op) →
  let e := Registered round entry_time now in
  waiting (client_id w) (run_event range_time_limit timeout e s).2 ++ answered (run_event range_time_limit timeout e s).1 ≡ₚ turned_away e s ++ waiting (client_id w) s.
Proof.
  intros Hs E. cbn [run_event turned_away fst snd]. unfold Register. rewrite E. destruct (Cleanup_same (min_running_id w) (client_of s (client_id w))) as [Er _].
  specialize (Hs (client_id w)) as Hw. apply (wf_cleanup (min_running_id w)) in Hw. unfold waiting at 2. rewrite <- Er. set (x := CleanupReplicatedRequests _ _) in *. clearbody x.
  destruct (_ <? _); [|destruct (is_replicated _ _)]; cbn [fst snd].
  1,2: rewrite waiting_insert, decide_True by done; cbn; apply Permutation_app_comm.
  unfold blocking. destruct (find_running _ _) as [q|] eqn:Ef; [apply find_running_Some in Ef as [Hq _]|destruct (List.find _ _) as [q|] eqn:Ef'; [apply find_some in Ef' as [Hq%list_elem_of_In _]|]]; cbn [fst snd];
    rewrite waiting_insert, decide_True by done; cbn [running set_running answered fmap list_fmap app]; rewrite app_nil_r; [by apply duplicate_waits; [apply Hw|]..|done].
Qed.

Lemma finished_rounds m status leader_term s w op :
  wf_state s → FromMsg m = Some (w, op) →
  let e := Finished m status leader_term in
  waiting (client_id w) (run_event range_time_limit timeout e s).2 ++ answered (run_event range_time_limit timeout e s).1 ≡ₚ waiting (client_id w) s.
Proof.
  intros Hs E. cbn [run_event]. unfold ReplicationFinished. rewrite E. destruct (find_running _ _) as [q|] eqn:Ef; cbn [fst snd].
  - apply find_running_Some in Ef as [Hq <-]. unfold waiting at 2. rewrite <- (erased_waits _ q (wc_ids _ (Hs _)) Hq). destruct (ok status); cbn [fst snd]; rewrite waiting_insert, decide_True by done; unfold answered; rewrite <- list_fmap_compose; cbn [running set_running set_replicated];
      (apply Permutation_app_head; unfold compose; cbn; by rewrite list_fmap_id).
  - rewrite waiting_insert, decide_True by done. by rewrite app_nil_r.
Qed.

Lemma bootstrap_rounds m entry_time s c : waiting c (Bootstrap range_time_limit m entry_time s) = waiting c s.
Proof.
  unfold Bootstrap. destruct (FromMsg m) as [[w op]|]; [|done]. destruct (Cleanup_same (min_running_id w) (client_of s (client_id w))) as [Er _].
  destruct (find_running _ _); rewrite waiting_insert; case_decide; subst; [done..| |done]. cbn [running set_replicated]. by rewrite Er.
Qed.

Lemma cleaned_rounds now s c : wf_state s → waiting c (CleanExpiredReplicatedAndGetMinOpId timeout now s).2 = waiting c s.
Proof.
  intros Hs. specialize (Hs c). unfold waiting, client_of in *. rewrite cleaned_lookup. destruct (s !! c) as [x|]; [|done]. cbn [mbind option_bind from_option Datatypes.id] in *.
  pose proof (clean_keeps timeout now x Hs) as Hc. destruct (clean_client timeout now x).2 as [x'|]; cbn [from_option Datatypes.id]; destruct Hc as (_ & _ & -> & _); done.
Qed.

(** The rounds of other clients are not touched. *)
Lemma other_rounds e s c : wf_state s → event_client e ≠ Some c → waiting c (run_event range_time_limit timeout e s).2 = waiting c s.
Proof.
  intros Hs Hc. destruct e as [round et now|m st lt|m et|now]; cbn [run_event event_client snd] in *; [| |by apply bootstrap_rounds|by apply cleaned_rounds].
  - unfold Register. destruct (FromMsg _) as [[w op]|]; [|done]. cbn in Hc. repeat case_match; cbn [fst snd]; rewrite waiting_insert; case_decide; congruence.
  - unfold ReplicationFinished. destruct (FromMsg _) as [[w op]|]; [|done]. cbn in Hc. repeat case_match; cbn [fst snd]; rewrite waiting_insert; case_decide; congruence.
Qed.

Lemma notes_not_ok e s n : n ∈ (run_event range_time_limit timeout e s).1 → n.1.2 ≠ OK.
Proof.
  destruct e as [round et now|m st lt|m et|now]; cbn [run_event fst]; [| |by intros []%elem_of_nil..].
  - unfold Register. repeat case_match; cbn [fst snd]; rewrite ?list_elem_of_singleton; try (by intros []%elem_of_nil); by intros ->.
  - unfold ReplicationFinished. repeat case_match; cbn [fst snd]; try (by intros []%elem_of_nil); intros (d & -> & _)%list_elem_of_fmap; cbn [fst snd]; destruct st; done.
Qed.

(** A round waits for the end of request [i] of client [c]. *)
Definition waits (c : ClientId) (i : Z) (round : Round) (s : state) : Prop := ∃ q, q ∈ running (client_of s c) ∧ run_id q = i ∧ round ∈ duplicate_rounds q.

(** The end of request [i] of client [c]. *)
Definition ends (c : ClientId) (i : Z) (e : event) : Prop :=
  match e with Finished m _ _ => ∃ w op, FromMsg m = Some (w, op) ∧ client_id w = c ∧ request_id w = i | _ => False end.

Lemma waits_insert k x c i round s : waits c i round (<[k := x]> s) ↔ if decide (c = k) then ∃ q, q ∈ running x ∧ run_id q = i ∧ round ∈ duplicate_rounds q else waits c i round s.
Proof. unfold waits. rewrite client_of_insert. by case_decide. Qed.

Lemma duplicate_added j r l i round :
  (∃ q, q ∈ l ∧ run_id q = i ∧ round ∈ duplicate_rounds q) → ∃ q, q ∈ add_duplicate j r l ∧ run_id q = i ∧ round ∈ duplicate_rounds q.
Proof.
  intros (q & Hq & Ei & Hd). unfold add_duplicate. eexists. split; [by apply list_elem_of_fmap_2|]. cbn. destruct (_ =? j); cbn; [|done]. split; [done|]. apply elem_of_app. by left.
Qed.

(** A round waits until the request it waits for ends. *)
Lemma event_waits e s c i round : wf_state s → ¬ ends c i e → waits c i round s → waits c i round (run_event range_time_limit timeout e s).2.
Proof.
  intros Hs He Hw. destruct e as [r et now|m st lt|m et|now]; cbn [run_event snd ends] in *.
  - unfold Register. destruct (FromMsg _) as [[w op]|]; [|done]. destruct (Cleanup_same (min_running_id w) (client_of s (client_id w))) as [Er _]. destruct (decide (c = client_id w)) as [->|Hc].
    + unfold waits in Hw. rewrite <- Er in Hw. destruct (_ <? _); [|destruct (is_replicated _ _); [|destruct (blocking _ _ _)]]; cbn [snd]; rewrite waits_insert, decide_True by done; cbn [running set_running]; [done|done|by apply duplicate_added|].
      destruct Hw as (q & Hq & Hr). exists q. split; [by right|done].
    + repeat case_match; cbn [snd]; by rewrite waits_insert, decide_False.
  - unfold ReplicationFinished. destruct (FromMsg m) as [[w op]|] eqn:E; [|done]. destruct (decide (c = client_id w)) as [->|Hc].
    + destruct (find_running _ _); [|cbn [snd]; by rewrite waits_insert, decide_True]. destruct Hw as (q & Hq & Ei & Hr).
      assert (Hk : ∃ q, q ∈ erase_running (request_id w) (running (client_of s (client_id w))) ∧ run_id q = i ∧ round ∈ duplicate_rounds q).
      { exists q. split; [|done]. apply elem_of_erase. split; [done|]. intros Eq. apply He. exists w, op. split; [done|]. split; [done|congruence]. }
      destruct (ok st); cbn [snd]; by rewrite waits_insert, decide_True.
    + repeat case_match; cbn [snd]; by rewrite waits_insert, decide_False.
  - unfold Bootstrap. destruct (FromMsg m) as [[w op]|]; [|done]. destruct (Cleanup_same (min_running_id w) (client_of s (client_id w))) as [Er _].
    destruct (find_running _ _); rewrite waits_insert; case_decide as Hc; subst; [done..| |done]. cbn [running set_replicated]. by rewrite Er.
  - specialize (Hs c). unfold waits, client_of in *. rewrite cleaned_lookup. destruct (s !! c) as [x|]; [|done]. cbn [mbind option_bind from_option Datatypes.id] in *.
    pose proof (clean_keeps timeout now x Hs) as Hk. destruct (clean_client timeout now x).2 as [x'|]; cbn [from_option Datatypes.id]; destruct Hk as (_ & _ & E & _); by rewrite E in *.
Qed.

Lemma runs_wait s l s' c i round : runs range_time_limit timeout s l s' → wf_state s → Forall (λ e, ¬ ends c i e) l → waits c i round s → waits c i round s'.
Proof. induction 1; [done|]. intros Hs [? ?]%Forall_cons Hw. apply IHruns; [by apply event_wf|done|by apply event_waits]. Qed.

Lemma find_running_this l q : NoDup (run_id <$> l) → q ∈ l → find_running (run_id q) l = Some q.
Proof.
  intros Hn Hq. destruct (find_running_is (run_id q) l) as [q' E]; [by apply list_elem_of_fmap_2|]. rewrite E. apply find_running_Some in E as [Hq' Ei]. f_equal.
  apply list_elem_of_lookup in Hq as [n Hq]. apply list_elem_of_lookup in Hq' as [n' Hq']. assert (n' = n) as ->; [|congruence].
  eapply (NoDup_lookup (run_id <$> l) n' n (run_id q)); [done|rewrite list_lookup_fmap, Hq'; cbn; by rewrite Ei|by rewrite list_lookup_fmap, Hq].
Qed.

(** The end of the request answers it. *)
Lemma finished_answers m status leader_term s w op round :
  wf_state s → FromMsg m = Some (w, op) → waits (client_id w) (request_id w) round s →
  (round, (if ok status then AlreadyPresent else status), leader_term) ∈ (ReplicationFinished range_time_limit m status leader_term s).1 ∧
  ∀ r, ¬ waits (client_id w) (request_id w) r (ReplicationFinished range_time_limit m status leader_term s).2.
Proof.
  intros Hs E (q & Hq & Ei & Hd). unfold ReplicationFinished. rewrite E, <- Ei. rewrite (find_running_this _ q) by (done || apply Hs).
  assert (Hn : ∀ r x, running x = erase_running (run_id q) (running (client_of s (client_id w))) → ¬ waits (client_id w) (run_id q) r (<[client_id w := x]> s)).
  { intros r x Ex. rewrite waits_insert, decide_True by done. rewrite Ex. intros (q' & [_ Hne]%elem_of_erase & ? & _). congruence. }
  destruct (ok status); cbn [fst snd]; (split; [|intros r; by apply Hn]); by apply (list_elem_of_fmap_2 (λ d, (d, _, leader_term))).
Qed.

Lemma register_turned_away round entry_time now s w op :
  wf_state s → FromMsg (replicate_msg round) = Some (w, op) → (Register round entry_time now s).1.1 = false →
  rejection round (Register round entry_time now s).1 ∨
  (Register round entry_time now s).1.2 = [] ∧ ∃ i, waits (client_id w) i round (Register round entry_time now s).2.
Proof.
  intros Hs E. unfold Register. rewrite E. set (x := CleanupReplicatedRequests _ _). destruct (_ <? _); [intros _; left; eexists; split; [done|right; eauto]|].
  destruct (is_replicated _ _); [intros _; left; eexists; split; [done|by left]|]. assert (Hb : ∀ q, blocking (request_id w) op (running x) = Some q → q ∈ running x).
  { intros q. unfold blocking. destruct (find_running _ _) eqn:Ef; [intros [= <-]; by apply find_running_Some in Ef as [? _]|]. intros [Hq _]%find_some. by apply list_elem_of_In. }
  destruct (blocking _ _ _) as [q|]; [|done]. intros _. right. split; [done|]. specialize (Hb q eq_refl). exists (run_id q). cbn [snd]. rewrite waits_insert, decide_True by done. cbn [running set_running]. unfold add_duplicate.
  eexists. split; [by apply list_elem_of_fmap_2|]. cbn. rewrite Z.eqb_refl. cbn. split; [done|]. apply elem_of_app. right. by apply list_elem_of_singleton.
Qed.

End Rounds.

(** ** Running a list of events *)

#[local] Existing Instance OpId.t_eq_dec.

#[export] Instance allowed_dec e s : Decision (allowed e s).
Proof. unfold allowed, free. destruct e; repeat case_match; apply _. Defined.

Fixpoint run (range_time_limit timeout : Z) (l : list event) (s : state) : option state :=
  match l with
  | [] => Some s
  | e :: l' => if decide (allowed e s) then run range_time_limit timeout l' (run_event range_time_limit timeout e s).2 else None
  end.

Lemma run_runs range_time_limit timeout l s s' : run range_time_limit timeout l s = Some s' → runs range_time_limit timeout s l s'.
Proof. revert s. induction l as [|e l IH]; intros s; cbn [run]; [intros [= ->]; constructor|]. case_decide; [|done]. constructor; [done|by apply IH]. Qed.

(** A client is known at every point of a run. *)
Fixpoint kept (range_time_limit timeout : Z) (c : ClientId) (l : list event) (s : state) : bool :=
  bool_decide (is_Some (s !! c)) && match l with [] => true | e :: l' => kept range_time_limit timeout c l' (run_event range_time_limit timeout e s).2 end.

Lemma kept_prefix range_time_limit timeout c l s l1 s1 :
  kept range_time_limit timeout c l s = true → l1 `prefix_of` l → runs range_time_limit timeout s l1 s1 → is_Some (s1 !! c).
Proof.
  intros Hk [k ->] Hr. revert Hk. induction Hr as [s|s e l s' Ha Hr IH]; intros Hk.
  - destruct k; cbn [app kept] in Hk; apply andb_true_iff in Hk as [H _]; by apply bool_decide_eq_true in H.
  - cbn [app kept] in Hk. apply andb_true_iff in Hk as [_ Hk]. by apply IH.
Qed.

(** ** The mark of an idle client *)

Lemma event_mark range_time_limit timeout e s c x y :
  wf_state s → allowed e s → s !! c = Some x → empty_since x ≠ 0 → (run_event range_time_limit timeout e s).2 !! c = Some y → empty_since y = empty_since x.
Proof.
  intros Hs Ha Hx H0 Hy. assert (Hcases : (∃ now, e = Cleaned now) ∨ ∀ now, e ≠ Cleaned now) by (destruct e; eauto). destruct Hcases as [[now ->]|Hn].
  2: { destruct (event_keeps range_time_limit timeout e s c x Hs Ha) as (y' & Hy' & [K1 _ _ _]); [done|done|congruence]. }
  cbn [run_event snd] in Hy. rewrite cleaned_lookup, Hx in Hy. cbn in Hy. specialize (Hs c). unfold client_of in Hs. rewrite Hx in Hs. pose proof (clean_keeps timeout now x Hs) as Hc. rewrite Hy in Hc. destruct Hc as ([?|[? _]] & _); done.
Qed.

Lemma runs_mark range_time_limit timeout s l s' c x :
  runs range_time_limit timeout s l s' → wf_state s → s !! c = Some x → empty_since x ≠ 0 →
  (∀ l1 s1, l1 `prefix_of` l → runs range_time_limit timeout s l1 s1 → is_Some (s1 !! c)) → ∃ x', s' !! c = Some x' ∧ empty_since x' = empty_since x.
Proof.
  intros Hr. revert x. induction Hr as [s|s e l s' Ha Hr IH]; intros x Hs Hx H0 Hk; [by exists x|].
  destruct (Hk [e] (run_event range_time_limit timeout e s).2) as [y Hy]; [by apply prefix_cons, prefix_nil|repeat constructor; done|]. pose proof (event_mark _ _ _ _ _ _ _ Hs Ha Hx H0 Hy) as Ey.
  destruct (IH y) as (x' & Hx' & E); [by apply event_wf|done|congruence| |exists x'; split; [done|congruence]].
  intros l1 s1 Hl H1. apply (Hk (e :: l1)); [by apply prefix_cons|by constructor].
Qed.

(** A client without requests that was idle longer ago than the timeout is forgotten. *)
Lemma clean_forgets timeout now x : running x = [] → replicated x = [] → empty_since x ≠ 0 → empty_since x + timeout < now → (clean_client timeout now x).2 = None.
Proof.
  intros Hr Hl H0 Hn. unfold clean_client. rewrite Hl. cbn. unfold no_running. cbn. rewrite (proj2 (Z.eqb_neq _ _) H0), (proj2 (Z.ltb_lt _ _)) by lia. by rewrite Hr.
Qed.

Lemma forgotten_accepts round entry_time now w op s :
  s !! client_id w = None → FromMsg (replicate_msg round) = Some (w, op) → 0 <= request_id w → min_running_id w <= request_id w → (Register round entry_time now s).1 = (true, []).
Proof.
  intros Hs E H0 Hm. unfold Register, client_of. rewrite E, Hs. unfold CleanupReplicatedRequests. cbn. destruct (Z.ltb_spec 0 (min_running_id w)); cbn; rewrite (proj2 (Z.ltb_ge _ _)) by lia; done.
Qed.

(** ** Requests are written once *)

(** C12: A write request that was replicated is rejected when it arrives again,
    whatever happened in between, as long as the record was cleaned only within
    the timeout after the time of the request, and provided the client had not
    been marked as idle before: the new round is answered at once with
    [AlreadyPresent] or [Expired] and is not replicated. *)
Theorem retried_request_rejected range_time_limit timeout before s m leader_term w op q after s' round entry_time now w' op' :
  runs range_time_limit timeout ∅ before s → allowed (Finished m OK leader_term) s →
  FromMsg m = Some (w, op) → find_running (request_id w) (running (client_of s (client_id w))) = Some q →
  empty_since (client_of s (client_id w)) = 0 ∨ run_time q <= empty_since (client_of s (client_id w)) →
  runs range_time_limit timeout (ReplicationFinished range_time_limit m OK leader_term s).2 after s' →
  Forall (within timeout (run_time q)) after →
  FromMsg (replicate_msg round) = Some (w', op') → client_id w' = client_id w → request_id w' = request_id w →
  rejection round (Register round entry_time now s').1.
Proof.
  intros Hb Ha E Ef Hsince Hr Hin E' Ec Ei. assert (Hs : wf_state s) by (eapply runs_wf; [exact Hb|intros c; apply wf_no_requests]).
  pose proof (event_wf range_time_limit timeout _ s Hs Ha) as Hs1. eapply knows_rejects; [by eapply runs_wf|exact E'|]. rewrite Ec, Ei.
  apply (remembered_knows _ (mk_entry (request_id w) op (run_time q))). eapply runs_remember; [exact Hr|exact Hs1|done|]. by apply finished_remembers.
Qed.

Definition sample_msg (i m : Z) (op : OpId.t) : ReplicateMsg := {| id := op; write_request := Some {| client_id := (1, 1); request_id := i; min_running_id := m |} |}.
Definition sample_round (n i m : Z) (op : OpId.t) : Round := {| round_number := n; bound_term := 1; replicate_msg := sample_msg i m op |}.

(** Request 5 is replicated at time 100; request 6 follows, its completion says
    that the client is done with 5. *)
Definition sample_before : list event := [Registered (sample_round 1 5 5 (OpId.mk 1 1)) 100 100].
Definition sample_after : list event :=
  [Registered (sample_round 2 6 6 (OpId.mk 1 2)) 101 101; Finished (sample_msg 6 6 (OpId.mk 1 2)) OK 1; Cleaned 210].

(** The state after events, with the default flags of 30 and 120 seconds. *)
Definition after (l : list event) (s : state) : state := default ∅ (run 30 120 l s).

Definition sample_state : state :=
  after sample_after (ReplicationFinished 30 (sample_msg 5 5 (OpId.mk 1 1)) OK 1 (after sample_before ∅)).2.

Lemma retried_request_rejected_witness :
  rejection (sample_round 3 5 5 (OpId.mk 1 3)) (Register (sample_round 3 5 5 (OpId.mk 1 3)) 0 211 sample_state).1.
Proof.
  eapply (retried_request_rejected 30 120 sample_before (after sample_before ∅) (sample_msg 5 5 (OpId.mk 1 1)) 1 _ _ _ sample_after sample_state).
  - apply run_runs. vm_compute. reflexivity.
  - apply (bool_decide_unpack _). vm_compute. exact I.
  - reflexivity.
  - vm_compute. reflexivity.
  - left. vm_compute. reflexivity.
  - apply run_runs. vm_compute. reflexivity.
  - repeat constructor; vm_compute; congruence.
  - reflexivity.
  - reflexivity.
  - reflexivity.
Defined.

(** An idle client that comes back: request 1 at time 1 expires and the client is
    marked as idle at 200; request 5 is replicated at 300, a cleaning leaves it;
    request 6, sent after the answer to 5, is aborted. *)
Definition idle_before : list event :=
  [Registered (sample_round 1 1 1 (OpId.mk 1 1)) 1 1; Finished (sample_msg 1 1 (OpId.mk 1 1)) OK 1; Cleaned 200].
Definition idle_after : list event :=
  [Registered (sample_round 2 5 5 (OpId.mk 1 2)) 300 300; Finished (sample_msg 5 5 (OpId.mk 1 2)) OK 1; Cleaned 400;
   Registered (sample_round 3 6 6 (OpId.mk 1 3)) 401 401; Finished (sample_msg 6 6 (OpId.mk 1 3)) (Failed 1) 2].

(** C36: The mark of an idle client is never removed while the client is kept, whatever it does later.  So when nothing of an active client is left at a cleaning, more than the timeout after it was idle once, the client is forgotten at once, and a request that the record refuses, because the client was done with it, is accepted and written a second time. *)
Theorem idle_mark_kept range_time_limit timeout before s c x after s' now round entry_time now' w op :
  runs range_time_limit timeout ∅ before s → s !! c = Some x → empty_since x ≠ 0 →
  runs range_time_limit timeout s after s' → (∀ l s1, l `prefix_of` after → runs range_time_limit timeout s l s1 → is_Some (s1 !! c)) →
  ∃ x', s' !! c = Some x' ∧ empty_since x' = empty_since x ∧
  (running x' = [] → replicated x' = [] → empty_since x + timeout < now →
   FromMsg (replicate_msg round) = Some (w, op) → client_id w = c → 0 <= request_id w → min_running_id w <= request_id w < min_running_request_id x' →
   rejection round (Register round entry_time now' s').1 ∧
   (Register round entry_time now' (CleanExpiredReplicatedAndGetMinOpId timeout now s').2).1 = (true, [])).
Proof.
  intros Hb Hx H0 Hr Hkept. assert (Hs : wf_state s) by (eapply runs_wf; [exact Hb|intros k; apply wf_no_requests]).
  destruct (runs_mark _ _ _ _ _ _ _ Hr Hs Hx H0 Hkept) as (x' & Hx' & E). exists x'. split; [done|]. split; [done|]. intros Hrun Hrep Hnow Hm Hc Hz Hi. split.
  - eapply knows_rejects; [by eapply runs_wf|exact Hm|]. rewrite Hc. exists x'. split; [done|]. left. lia.
  - eapply forgotten_accepts; [|exact Hm|done|lia]. rewrite Hc, cleaned_lookup, Hx'. cbn. apply clean_forgets; [done|done|congruence|lia].
Qed.

Lemma idle_mark_kept_witness :
  let s' := default ∅ (run 30 120 idle_after (after idle_before ∅)) in
  rejection (sample_round 4 5 5 (OpId.mk 2 4)) (Register (sample_round 4 5 5 (OpId.mk 2 4)) 0 403 s').1 ∧
  (Register (sample_round 4 5 5 (OpId.mk 2 4)) 0 403 (CleanExpiredReplicatedAndGetMinOpId 120 402 s').2).1 = (true, []).
Proof.
  cbn zeta. edestruct (idle_mark_kept 30 120 idle_before (after idle_before ∅) (1, 1) (mk_client [] [] 1 200) idle_after (default ∅ (run 30 120 idle_after (after idle_before ∅))) 402 (sample_round 4 5 5 (OpId.mk 2 4)) 0 403) as (x' & Hx' & _ & H).
  - apply run_runs. vm_compute. reflexivity.
  - vm_compute. reflexivity.
  - done.
  - apply run_runs. vm_compute. reflexivity.
  - intros l s1. apply kept_prefix. vm_compute. reflexivity.
  - vm_compute in Hx'. injection Hx' as <-. apply H; [reflexivity|reflexivity|reflexivity|reflexivity|reflexivity|done|vm_compute; split; congruence].
Defined.

(** C31: A round that is turned away is answered exactly once, and never with success: at once, or when the request it waits for ends, with its status, whatever happens in between.  At every operation the rounds of a client that were waiting, and the one turned away now, are those answered and those that still wait. *)
Theorem rounds_answered_once range_time_limit timeout before s :
  runs range_time_limit timeout ∅ before s →
  (∀ e c, let r := run_event range_time_limit timeout e s in
    (if decide (event_client e = Some c) then waiting c r.2 ++ answered r.1 ≡ₚ turned_away e s ++ waiting c s else waiting c r.2 = waiting c s) ∧
    (∀ n, n ∈ r.1 → n.1.2 ≠ OK)) ∧
  (∀ round entry_time now w op, FromMsg (replicate_msg round) = Some (w, op) → allowed (Registered round entry_time now) s →
    let r := Register round entry_time now s in r.1.1 = false →
    rejection round r.1 ∨
    r.1.2 = [] ∧ ∃ i, waits (client_id w) i round r.2 ∧ ∀ later s' m status leader_term w' op',
      runs range_time_limit timeout r.2 later s' → Forall (λ e, ¬ ends (client_id w) i e) later →
      FromMsg m = Some (w', op') → client_id w' = client_id w → request_id w' = i →
      (round, (if ok status then AlreadyPresent else status), leader_term) ∈ (ReplicationFinished range_time_limit m status leader_term s').1 ∧
      ¬ waits (client_id w) i round (ReplicationFinished range_time_limit m status leader_term s').2).
Proof.
  intros Hb. assert (Hs : wf_state s) by (eapply runs_wf; [exact Hb|intros k; apply wf_no_requests]). split.
  - intros e c r. split; [|apply notes_not_ok]. subst r. case_decide as Hc; [|by apply other_rounds]. destruct e as [round et now|m st lt|m et|now]; cbn [event_client] in Hc; [| | |done];
      destruct (FromMsg _) as [[w op]|] eqn:E; cbn in Hc; simplify_eq; [by eapply register_rounds|by eapply finished_rounds|]. cbn [run_event turned_away fst snd]. rewrite bootstrap_rounds. cbn. by rewrite app_nil_r.
  - intros round et now w op E Ha r Hf. destruct (register_turned_away round et now s w op Hs E Hf) as [?|[Hn [i Hw]]]; [by left|right]. split; [done|]. exists i. split; [done|]. intros later s' m st lt w' op' Hr Hno Em Ec Ei.
    apply (register_wf round et now) in Ha; [|done]. eapply runs_wait in Hw; [|exact Hr|exact Ha|done]. rewrite <- Ec, <- Ei in Hw. rewrite <- Ec, <- Ei.
    destruct (finished_answers range_time_limit m st lt s' w' op' round) as [H1 H2]; [by eapply runs_wf|done..|by split].
Qed.

Lemma rounds_answered_once_witness :
  let s := after sample_before ∅ in let round := sample_round 2 5 5 (OpId.mk 1 2) in
  (Register round 0 101 s).1 = (false, []) ∧
  (round, AlreadyPresent, 1) ∈ (ReplicationFinished 30 (sample_msg 5 5 (OpId.mk 1 1)) OK 1 (after [Cleaned 102] (Register round 0 101 s).2)).1.
Proof.
  cbn zeta. split; [vm_compute; reflexivity|]. destruct (rounds_answered_once 30 120 sample_before (after sample_before ∅)) as [_ H]; [apply run_runs; vm_compute; reflexivity|].
  destruct (H (sample_round 2 5 5 (OpId.mk 1 2)) 0 101 _ _ eq_refl) as [[st [Hr _]]|(_ & i & (q & Hq & Ei & _) & Hi)]; [apply (bool_decide_unpack _); vm_compute; exact I|vm_compute; reflexivity|vm_compute in Hr; congruence|].
  assert (i = 5) as -> by (rewrite <- Ei; vm_compute in Hq; by apply list_elem_of_singleton in Hq as ->).
  eapply (Hi [Cleaned 102] (after [Cleaned 102] (Register (sample_round 2 5 5 (OpId.mk 1 2)) 0 101 (after sample_before ∅)).2) (sample_msg 5 5 (OpId.mk 1 1)) OK 1); [apply run_runs; vm_compute; reflexivity|repeat constructor; by intros []|reflexivity|reflexivity|reflexivity].
Defined.

(** C19: A replica that restarts from the log kept by its last cleaning rejects
    the requests the cleaning left: the operation id returned by the cleaning is
    not after any of them, so their messages are replayed. *)
Theorem restarted_replica_rejects range_time_limit timeout before s now c x e log m t w s' round entry_time now' w' op' :
  runs range_time_limit timeout ∅ before s →
  (CleanExpiredReplicatedAndGetMinOpId timeout now s).2 !! c = Some x → holds (replicated x) e →
  (m, t) ∈ log → FromMsg m = Some (w, e_op e) → client_id w = c → request_id w = e_id e →
  runs range_time_limit timeout ∅ (replay (log_from (CleanExpiredReplicatedAndGetMinOpId timeout now s).1 log)) s' →
  FromMsg (replicate_msg round) = Some (w', op') → client_id w' = c → request_id w' = e_id e →
  rejection round (Register round entry_time now' s').1.
Proof.
  intros Hb Hx (r & Hr & _ & Ho & _) Hin E Ec Ei Hrun E' Ec' Ei'. assert (H0 : wf_state ∅) by (intros k; apply wf_no_requests).
  assert (Hs : wf_state s) by (by eapply runs_wf). pose proof (clean_needs timeout now s c x r Hs Hx Hr) as Hn.
  eapply knows_rejects; [by eapply runs_wf|exact E'|]. rewrite Ec', Ei', <- Ec, <- Ei. eapply replay_knows; [exact Hrun|done|done| |exact E].
  apply list_elem_of_In, List.filter_In. split; [by apply list_elem_of_In|]. apply negb_true_iff. cbn [fst]. replace (id m) with (e_op e); [exact (transitivity Hn Ho)|].
  revert E. unfold FromMsg. destruct (write_request m) as [w0|]; [|done]. destruct (IsNil _); [done|]. by intros [= _ <-].
Qed.

(** Requests 5 and 6 are replicated; the log also has an older request, which
    expires, and a message without a request. *)
Definition restart_before : list event :=
  [Registered (sample_round 1 3 3 (OpId.mk 1 1)) 1 1; Finished (sample_msg 3 3 (OpId.mk 1 1)) OK 1;
   Registered (sample_round 2 5 3 (OpId.mk 1 2)) 500 500; Finished (sample_msg 5 3 (OpId.mk 1 2)) OK 1;
   Registered (sample_round 3 6 3 (OpId.mk 1 4)) 501 501; Finished (sample_msg 6 3 (OpId.mk 1 4)) OK 1].
Definition restart_log : list (ReplicateMsg * Z) :=
  [(sample_msg 3 3 (OpId.mk 1 1), 1); (sample_msg 5 3 (OpId.mk 1 2), 500); ({| id := OpId.mk 1 3; write_request := None |}, 500); (sample_msg 6 3 (OpId.mk 1 4), 501)].

Lemma restarted_replica_rejects_witness :
  let log := log_from (CleanExpiredReplicatedAndGetMinOpId 120 600 (after restart_before ∅)).1 restart_log in
  length log = 3%nat ∧ rejection (sample_round 4 6 3 (OpId.mk 2 5)) (Register (sample_round 4 6 3 (OpId.mk 2 5)) 0 710 (after (replay log) ∅)).1.
Proof.
  split; [vm_compute; reflexivity|].
  eapply (restarted_replica_rejects 30 120 restart_before (after restart_before ∅) 600 (1, 1) _ (mk_entry 6 (OpId.mk 1 4) 501) restart_log (sample_msg 6 3 (OpId.mk 1 4)) 501).
  - apply run_runs. vm_compute. reflexivity.
  - vm_compute. reflexivity.
  - eexists. split; [vm_compute; left|]. vm_compute. split_and!; congruence.
  - apply list_elem_of_In. vm_compute. tauto.
  - reflexivity.
  - reflexivity.
  - reflexivity.
  - apply run_runs. vm_compute. reflexivity.
  - reflexivity.
  - reflexivity.
  - reflexivity.
Defined.

End Retries.
