(* ===== verification/ClientRequests.v ===== *)
(** * Ids of the requests of a client

    Models the numbering of write requests in client/client.cc
    ([YBClient::NextRequestIdAndMinRunningRequestId], [RequestFinished],
    [MaybeUpdateMinRunningRequestId]) and client/meta_cache.cc
    ([MaybeUpdateClientRequests]), and composes it with the record the replica
    keeps ([RetryableRequests]) over a network that delays, reorders and repeats
    messages.  A [std::set] is its elements in order; a tablet id is a byte
    string. *)

From stdpp Require Import sorting.
From S2P Require Import Prelude RaftConfig RetryableRequests Retries.

Module ClientRequests.
Import RetryableRequests Retries.


Record TabletRequests := mk_requests { request_id_seq : Z; running_requests : list Z }.

Definition new_requests : TabletRequests := mk_requests 0 [].


Abbreviation requests := (gmap bytes TabletRequests).
Definition requests_of (cs : requests) (tablet_id : bytes) : TabletRequests := default new_requests (cs !! tablet_id).





(** ** A client and a replica *)




Section World.
Context (range_time_limit timeout : Z) (c : ClientId).





















Lemma requests_of_insert cs t x t' : requests_of (<[t := x]> cs) t' = if decide (t' = t) then x else requests_of cs t'.
Proof. unfold requests_of. case_decide; [subst; by rewrite lookup_insert_eq|by rewrite lookup_insert_ne]. Qed.














End World.






End ClientRequests.
