(* ===== verification/PeerQueue.v ===== *)
(** * The queue of a leader

    Models the state of consensus/consensus_queue.cc ([PeerMessageQueue]): what a
    leader knows of its peers, the watermarks it computes from that, and the
    changes of the state.  Methods hold [queue_lock_], so they are functions of
    the state; the log cache is an argument where it is asked, and the pointer to
    the local peer is its entry in the map.  [std::nth_element] is a class with
    its documented contract. *)

From stdpp Require Import sorting.
From S2P Require Import Prelude HybridTime RaftConfig.

Module PeerQueue.
Import QuorumUtil.
#[local] Existing Instance OpId.t_eq_dec.

(** ** Selection *)

(** The element that would be at a position of the sorted range. *)
Class NthElement := nth_element : ∀ {X : Type}, (X → X → bool) → list X → nat → option X.

(** What makes a comparison valid: a strict weak order. *)
Record weak_order {X} (lt : X → X → bool) : Prop := {
  wo_asym a b : lt a b = true → lt b a = false;
  wo_cotrans a b c : lt a b = false → lt b c = false → lt a c = false;
}.

Class NthElementSpec (N : NthElement) := {
  nth_spec X (lt : X → X → bool) l n : weak_order lt → (n < length l)%nat →
    ∃ l', l' ≡ₚ l ∧ StronglySorted (λ a b, lt b a = false) l' ∧ nth_element lt l n = l' !! n;
}.

(** ** Peers *)

(** A value sent to a follower, and the one it is known to have. *)
Record FollowerWatermark := Follower { initial : Z; last_sent : Z; last_acked : Z }.
Definition NewWatermark (v : Z) : FollowerWatermark := Follower v v v.
Definition ResetWatermark (w : FollowerWatermark) : FollowerWatermark := Follower (initial w) (initial w) (initial w).
Definition OnReplyFromFollower (w : FollowerWatermark) : FollowerWatermark := Follower (initial w) (last_sent w) (last_sent w).
Definition SendWatermark (w : FollowerWatermark) (v : Z) : FollowerWatermark := Follower (initial w) v (last_acked w).

Definition kInvalidOpIdIndex : Z := -1.

Record TrackedPeer := Tracked {
  uuid : bytes;
  is_new : bool;
  next_index : Z;
  last_num_messages_sent : Z;
  current_retransmissions : Z;
  last_received : OpId.t;
  last_known_committed_idx : Z;
  last_applied : OpId.t;
  is_last_exchange_successful : bool;
  last_successful_communication_time : Z;
  leader_lease_expiration : FollowerWatermark;
  leader_ht_lease_expiration : FollowerWatermark;
  needs_remote_bootstrap : bool;
  peer_member_type : MemberType;
  num_sst_files : Z;
  last_seen_term : Z;
}.

(** [CoarseTimePoint()], [::min()] and [::max()]. *)
Definition kCoarseInitial : Z := 0.
Definition kCoarseMin : Z := - 2 ^ 63.
Definition kCoarseMax : Z := 2 ^ 63 - 1.

Definition NewPeer (u : bytes) (now : Z) : TrackedPeer :=
  Tracked u true kInvalidOpIdIndex (-1) (-1) OpId.Min (OpId.index OpId.Min) OpId.Min false now
    (NewWatermark kCoarseInitial) (NewWatermark (HybridTime.GetPhysicalValueMicros HybridTime.kMin)) false UNKNOWN_MEMBER_TYPE 0 0.

Definition set_next_index (p : TrackedPeer) (i : Z) : TrackedPeer :=
  Tracked (uuid p) (is_new p) i (last_num_messages_sent p) (current_retransmissions p) (last_received p) (last_known_committed_idx p) (last_applied p)
    (is_last_exchange_successful p) (last_successful_communication_time p) (leader_lease_expiration p) (leader_ht_lease_expiration p)
    (needs_remote_bootstrap p) (peer_member_type p) (num_sst_files p) (last_seen_term p).

Definition set_received (p : TrackedPeer) (op : OpId.t) : TrackedPeer :=
  Tracked (uuid p) (is_new p) (OpId.index op + 1) (last_num_messages_sent p) (current_retransmissions p) op (last_known_committed_idx p) (last_applied p)
    (is_last_exchange_successful p) (last_successful_communication_time p) (leader_lease_expiration p) (leader_ht_lease_expiration p)
    (needs_remote_bootstrap p) (peer_member_type p) (num_sst_files p) (last_seen_term p).

Definition set_committed (p : TrackedPeer) (committed : Z) (applied : OpId.t) : TrackedPeer :=
  Tracked (uuid p) (is_new p) (next_index p) (last_num_messages_sent p) (current_retransmissions p) (last_received p) committed applied
    (is_last_exchange_successful p) (last_successful_communication_time p) (leader_lease_expiration p) (leader_ht_lease_expiration p)
    (needs_remote_bootstrap p) (peer_member_type p) (num_sst_files p) (last_seen_term p).

Definition set_exchange (p : TrackedPeer) (ok : bool) : TrackedPeer :=
  Tracked (uuid p) (is_new p) (next_index p) (last_num_messages_sent p) (current_retransmissions p) (last_received p) (last_known_committed_idx p) (last_applied p)
    ok (last_successful_communication_time p) (leader_lease_expiration p) (leader_ht_lease_expiration p)
    (needs_remote_bootstrap p) (peer_member_type p) (num_sst_files p) (last_seen_term p).

(** The peer answered: it is known, and the request is no longer outstanding. *)
Definition set_answered (p : TrackedPeer) (member : MemberType) (now : Z) : TrackedPeer :=
  Tracked (uuid p) false (next_index p) (-1) (-1) (last_received p) (last_known_committed_idx p) (last_applied p)
    (is_last_exchange_successful p) now (leader_lease_expiration p) (leader_ht_lease_expiration p)
    (needs_remote_bootstrap p) member (num_sst_files p) (last_seen_term p).

Definition ResetLastRequest (p : TrackedPeer) : TrackedPeer :=
  Tracked (uuid p) (is_new p) (next_index p) (-1) (-1) (last_received p) (last_known_committed_idx p) (last_applied p)
    (is_last_exchange_successful p) (last_successful_communication_time p) (leader_lease_expiration p) (leader_ht_lease_expiration p)
    (needs_remote_bootstrap p) (peer_member_type p) (num_sst_files p) (last_seen_term p).

Definition set_bootstrap (p : TrackedPeer) (needs : bool) (now : Z) : TrackedPeer :=
  Tracked (uuid p) (is_new p) (next_index p) (last_num_messages_sent p) (current_retransmissions p) (last_received p) (last_known_committed_idx p) (last_applied p)
    (is_last_exchange_successful p) now (leader_lease_expiration p) (leader_ht_lease_expiration p)
    needs (peer_member_type p) (num_sst_files p) (last_seen_term p).

Definition set_files (p : TrackedPeer) (n : Z) : TrackedPeer :=
  Tracked (uuid p) (is_new p) (next_index p) (last_num_messages_sent p) (current_retransmissions p) (last_received p) (last_known_committed_idx p) (last_applied p)
    (is_last_exchange_successful p) (last_successful_communication_time p) (leader_lease_expiration p) (leader_ht_lease_expiration p)
    (needs_remote_bootstrap p) (peer_member_type p) n (last_seen_term p).

Definition set_seen_term (p : TrackedPeer) (term : Z) : TrackedPeer :=
  Tracked (uuid p) (is_new p) (next_index p) (last_num_messages_sent p) (current_retransmissions p) (last_received p) (last_known_committed_idx p) (last_applied p)
    (is_last_exchange_successful p) (last_successful_communication_time p) (leader_lease_expiration p) (leader_ht_lease_expiration p)
    (needs_remote_bootstrap p) (peer_member_type p) (num_sst_files p) term.

Definition set_leases (p : TrackedPeer) (l h : FollowerWatermark) (retransmissions now : Z) : TrackedPeer :=
  Tracked (uuid p) (is_new p) (next_index p) (last_num_messages_sent p) retransmissions (last_received p) (last_known_committed_idx p) (last_applied p)
    (is_last_exchange_successful p) now l h (needs_remote_bootstrap p) (peer_member_type p) (num_sst_files p) (last_seen_term p).

Definition set_sent (p : TrackedPeer) (n : Z) : TrackedPeer :=
  Tracked (uuid p) (is_new p) (next_index p) n (current_retransmissions p) (last_received p) (last_known_committed_idx p) (last_applied p)
    (is_last_exchange_successful p) (last_successful_communication_time p) (leader_lease_expiration p) (leader_ht_lease_expiration p)
    (needs_remote_bootstrap p) (peer_member_type p) (num_sst_files p) (last_seen_term p).

(** ** The queue *)

Inductive Mode := LEADER_MODE | NON_LEADER_MODE.
Inductive QueuePhase := kQueueConstructed | kQueueOpen | kQueueClosed.
#[export] Instance Mode_eq_dec : EqDecision Mode.
Proof. solve_decision. Defined.
#[export] Instance QueuePhase_eq_dec : EqDecision QueuePhase.
Proof. solve_decision. Defined.

Definition kUninitializedMajoritySize : Z := -1.

Record QueueState := QState {
  all_replicated_op_id : OpId.t;
  all_nonlagging_replicated_op_id : OpId.t;
  all_applied_op_id : OpId.t;
  majority_replicated_op_id : OpId.t;
  committed_op_id : OpId.t;
  last_applied_op_id : OpId.t;
  last_appended : OpId.t;
  current_term : Z;
  majority_size_ : Z;
  phase : QueuePhase;
  mode : Mode;
  active_config : option RaftConfigPB;
}.

Definition new_state : QueueState :=
  QState OpId.Min OpId.Min OpId.Min OpId.Min OpId.Min OpId.Min OpId.Min 0 kUninitializedMajoritySize kQueueConstructed NON_LEADER_MODE None.

Record queue := Queue { local_peer_uuid_ : bytes; peers_map_ : gmap bytes TrackedPeer; queue_state_ : QueueState }.

Definition set_state (q : queue) (s : QueueState) : queue := Queue (local_peer_uuid_ q) (peers_map_ q) s.
Definition set_peers (q : queue) (m : gmap bytes TrackedPeer) : queue := Queue (local_peer_uuid_ q) m (queue_state_ q).
Definition put_peer (q : queue) (u : bytes) (p : TrackedPeer) : queue := set_peers q (<[u := p]> (peers_map_ q)).

Definition with_last_appended (s : QueueState) (op : OpId.t) (term : Z) (ph : QueuePhase) : QueueState :=
  QState (all_replicated_op_id s) (all_nonlagging_replicated_op_id s) (all_applied_op_id s) (majority_replicated_op_id s) (committed_op_id s)
    (last_applied_op_id s) op term (majority_size_ s) ph (mode s) (active_config s).
Definition with_majority (s : QueueState) (op : OpId.t) : QueueState :=
  QState (all_replicated_op_id s) (all_nonlagging_replicated_op_id s) (all_applied_op_id s) op (committed_op_id s)
    (last_applied_op_id s) (last_appended s) (current_term s) (majority_size_ s) (phase s) (mode s) (active_config s).
Definition with_all (s : QueueState) (replicated nonlagging applied : OpId.t) : QueueState :=
  QState replicated nonlagging applied (majority_replicated_op_id s) (committed_op_id s)
    (last_applied_op_id s) (last_appended s) (current_term s) (majority_size_ s) (phase s) (mode s) (active_config s).
Definition with_committed (s : QueueState) (committed applied : OpId.t) : QueueState :=
  QState (all_replicated_op_id s) (all_nonlagging_replicated_op_id s) (all_applied_op_id s) (majority_replicated_op_id s) committed
    applied (last_appended s) (current_term s) (majority_size_ s) (phase s) (mode s) (active_config s).

Definition NewQueue (u : bytes) : queue := Queue u ∅ new_state.

(** The uuids of the configuration are inserted into a set that must not have
    them yet, then every tracked peer must be among them. *)
Definition CheckPeersInActiveConfigIfLeaderUnlocked (q : queue) : outcome () :=
  match mode (queue_state_ q) with
  | NON_LEADER_MODE => Ok ()
  | LEADER_MODE =>
      match active_config (queue_state_ q) with
      | None => UB
      | Some c =>
          let uuids := permanent_uuid <$> peers c in
          check! bool_decide (NoDup uuids) in
          check! forallb (λ e, bool_decide (e.1 ∈ uuids)) (map_to_list (peers_map_ q)) in
          Ok ()
      end
  end.

Definition TrackPeerUnlocked (u : bytes) (now : Z) (q : queue) : outcome queue :=
  check! bool_decide (u ≠ []) in
  let p := set_next_index (NewPeer u now) (OpId.index (last_appended (queue_state_ q)) + 1) in
  check! bool_decide (peers_map_ q !! u = None) in
  let q := put_peer q u p in
  let! _ := CheckPeersInActiveConfigIfLeaderUnlocked q in
  let s := queue_state_ q in
  Ok (set_state q (with_all s OpId.Min (all_nonlagging_replicated_op_id s) (all_applied_op_id s))).

Definition UntrackPeer (u : bytes) (q : queue) : queue := set_peers q (delete u (peers_map_ q)).

Definition Init (last_locally_replicated : OpId.t) (now : Z) (q : queue) : outcome queue :=
  check! bool_decide (phase (queue_state_ q) = kQueueConstructed) in
  let s := queue_state_ q in
  TrackPeerUnlocked (local_peer_uuid_ q) now (set_state q (with_last_appended s last_locally_replicated (current_term s) kQueueOpen)).

Definition reset_leases (now : Z) (p : TrackedPeer) : TrackedPeer :=
  set_leases p (ResetWatermark (leader_lease_expiration p)) (ResetWatermark (leader_ht_lease_expiration p)) (current_retransmissions p) now.

Definition SetLeaderMode (committed : OpId.t) (term : Z) (applied : OpId.t) (c : RaftConfigPB) (now : Z) (q : queue) : outcome queue :=
  let s := queue_state_ q in
  check! IsRaftConfigVoter (local_peer_uuid_ q) c in
  let q := set_state q (QState (all_replicated_op_id s) (all_nonlagging_replicated_op_id s) (all_applied_op_id s) committed committed applied
    (last_appended s) term (MajoritySize (CountVoters c)) (phase s) LEADER_MODE (Some c)) in
  let! _ := CheckPeersInActiveConfigIfLeaderUnlocked q in
  Ok (set_peers q (reset_leases now <$> peers_map_ q)).

Definition SetNonLeaderMode (q : queue) : queue :=
  let s := queue_state_ q in
  set_state q (QState (all_replicated_op_id s) (all_nonlagging_replicated_op_id s) (all_applied_op_id s) (majority_replicated_op_id s) (committed_op_id s)
    (last_applied_op_id s) (last_appended s) (current_term s) (-1) (phase s) NON_LEADER_MODE None).

Definition Close (q : queue) : queue :=
  let s := queue_state_ q in
  Queue (local_peer_uuid_ q) ∅ (with_last_appended s (last_appended s) (current_term s) kQueueClosed).

(** ** Watermarks *)

Record Policy (X : Type) := {
  NotEnoughPeersValue : X;
  InfiniteWatermarkForLocalPeer : option X;
  ExtractValue : TrackedPeer → X;
  Comparator : X → X → bool;
}.
Arguments NotEnoughPeersValue {X} _.
Arguments InfiniteWatermarkForLocalPeer {X} _.
Arguments ExtractValue {X} _ _.
Arguments Comparator {X} _ _ _.

Definition infinite_local {X} (p : Policy X) : bool := match InfiniteWatermarkForLocalPeer p with Some _ => true | None => false end.

(** The peers whose values are collected. *)
Definition counted (q : queue) (c : RaftConfigPB) (skip_local : bool) : list TrackedPeer :=
  List.filter (λ p, negb (skip_local && bool_decide (uuid p = local_peer_uuid_ q)) && IsRaftConfigVoter (uuid p) c && is_last_exchange_successful p)
    ((map_to_list (peers_map_ q)).*2).

Section Watermarks.
Context {N : NthElement}.

Definition GetWatermark {X} (policy : Policy X) (q : queue) : outcome X :=
  let num_peers_required := majority_size_ (queue_state_ q) in
  if num_peers_required =? kUninitializedMajoritySize then Ok (NotEnoughPeersValue policy)
  else
    check! 0 <=? num_peers_required in
    if Z.of_nat (size (peers_map_ q)) <? num_peers_required then Ok (NotEnoughPeersValue policy)
    else
      match (if num_peers_required =? 1 then InfiniteWatermarkForLocalPeer policy else None) with
      | Some v => Ok v
      | None =>
          match active_config (queue_state_ q) with
          | None => UB
          | Some c =>
              let watermarks := ExtractValue policy <$> counted q c (infinite_local policy) in
              let num_responsive_peers := Z.of_nat (length watermarks) + Z.b2z (infinite_local policy) in
              if num_responsive_peers <? num_peers_required then Ok (NotEnoughPeersValue policy)
              else
                let index_of_interest := num_responsive_peers - num_peers_required in
                match nth_element (Comparator policy) watermarks (Z.to_nat index_of_interest) with
                | Some v => Ok v
                | None => UB
                end
          end
      end.

Definition LeaderLeasePolicy : Policy Z := {|
  NotEnoughPeersValue := kCoarseMin;
  InfiniteWatermarkForLocalPeer := Some kCoarseMax;
  ExtractValue p := if negb (last_acked (leader_lease_expiration p) =? kCoarseInitial) then last_acked (leader_lease_expiration p) else kCoarseMin;
  Comparator := Z.ltb |}.
Definition LeaderLeaseExpirationWatermark (q : queue) : outcome Z := GetWatermark LeaderLeasePolicy q.

Definition HybridTimeLeasePolicy : Policy Z := {|
  NotEnoughPeersValue := HybridTime.GetPhysicalValueMicros HybridTime.kMin;
  InfiniteWatermarkForLocalPeer := Some (HybridTime.GetPhysicalValueMicros HybridTime.kMax);
  ExtractValue p := last_acked (leader_ht_lease_expiration p);
  Comparator := Z.ltb |}.
Definition HybridTimeLeaseExpirationWatermark (q : queue) : outcome Z := GetWatermark HybridTimeLeasePolicy q.

Definition NumSSTFilesPolicy : Policy Z := {|
  NotEnoughPeersValue := 0;
  InfiniteWatermarkForLocalPeer := None;
  ExtractValue := num_sst_files;
  Comparator a b := b <? a |}.

Definition local_peer (q : queue) : outcome TrackedPeer := match peers_map_ q !! local_peer_uuid_ q with Some p => Ok p | None => UB end.

Definition NumSSTFilesWatermark (q : queue) : outcome Z :=
  let! w := GetWatermark NumSSTFilesPolicy q in
  let! l := local_peer q in
  Ok (Z.max w (num_sst_files l)).

Definition OpIdPolicy : Policy OpId.t := {|
  NotEnoughPeersValue := OpId.Min;
  InfiniteWatermarkForLocalPeer := None;
  ExtractValue := last_received;
  Comparator a b := OpId.index a <? OpId.index b |}.
Definition OpIdWatermark (q : queue) : outcome OpId.t := GetWatermark OpIdPolicy q.

(** ** Operations all peers have *)

(** The loops over the peers, in the order of the map: [None] when they return
    early because of a peer whose last exchange failed. *)
Fixpoint least_received (new : OpId.t) (l : list TrackedPeer) : option OpId.t :=
  match l with
  | [] => Some new
  | p :: l =>
      if negb (is_last_exchange_successful p) then None
      else least_received (if OpId.index (last_received p) <? OpId.index new then last_received p else new) l
  end.

Fixpoint least_applied (new : OpId.t) (l : list TrackedPeer) : option OpId.t :=
  match l with
  | [] => Some new
  | p :: l =>
      if negb (is_last_exchange_successful p) then None
      else least_applied (if OpId.operator_lt (last_applied p) new then last_applied p else new) l
  end.

Fixpoint least_nonlagging (threshold : Z) (new : OpId.t) (l : list TrackedPeer) : OpId.t :=
  match l with
  | [] => new
  | p :: l =>
      if threshold <=? current_retransmissions p then least_nonlagging threshold new l
      else least_nonlagging threshold (if OpId.index (last_received p) <? OpId.index new then last_received p else new) l
  end.

Definition tracked (q : queue) : list TrackedPeer := (map_to_list (peers_map_ q)).*2.

(** [CHECK_NE(OpId::Max(), ...)] and the assignment. *)
Definition update_all (r : option OpId.t) (old : OpId.t) : outcome OpId.t :=
  match r with
  | None => Ok old
  | Some new => check! bool_decide (new ≠ OpId.Max) in Ok new
  end.

Definition UpdateAllReplicatedOpId (q : queue) : outcome OpId.t := update_all (least_received OpId.Max (tracked q)) (all_replicated_op_id (queue_state_ q)).
Definition UpdateAllAppliedOpId (q : queue) : outcome OpId.t := update_all (least_applied OpId.Max (tracked q)) (all_applied_op_id (queue_state_ q)).

Definition UpdateAllNonLaggingReplicatedOpId (threshold : Z) (q : queue) : OpId.t :=
  let s := queue_state_ q in
  let new := least_nonlagging threshold OpId.Max (tracked q) in
  let new := if bool_decide (new = OpId.Max) then all_replicated_op_id s else new in
  if OpId.index (all_nonlagging_replicated_op_id s) <? OpId.index new then new else all_nonlagging_replicated_op_id s.

(** ** Responses *)

Inductive ConsensusErrorPB := PRECEDING_ENTRY_DIDNT_MATCH | INVALID_TERM | OTHER_CONSENSUS_ERROR.

Record ConsensusStatusPB := {
  st_last_received : OpId.t;
  st_last_received_current_leader : OpId.t;
  st_last_committed_idx : Z;
  st_last_applied : OpId.t;
  st_error : option ConsensusErrorPB;
}.

(** [error] is whether the error is that the tablet was not found. *)
Record ConsensusResponsePB := {
  error : option bool;
  status : option ConsensusStatusPB;
  responder_term : option Z;
  response_num_sst_files : Z;
}.

Record MajorityReplicatedData := {
  op_id : OpId.t;
  majority_lease_expiration : Z;
  majority_ht_lease_expiration : Z;
  majority_num_sst_files : Z;
  peer_got_all_ops : bytes;
}.

(** What is asked of the log cache and of the change data capture. *)
Record LogCache := {
  LookupOpId : Z → outcome OpId.t;
  HasOpBeenWritten : Z → bool;
  cdc_op_id_to_evict : OpId.t;
}.

(** What a response leads to: whether there is more to send, the term and the
    majority the observers are told, the index the cache is evicted through. *)
Record Effects := { more_pending : bool; term_change : option Z; majority_change : option MajorityReplicatedData; evict_through : option Z }.
Definition no_effects (more : bool) : Effects := {| more_pending := more; term_change := None; majority_change := None; evict_through := None |}.

Definition IsOpInLog (log : LogCache) (op : OpId.t) : outcome bool :=
  match LookupOpId log (OpId.index op) with
  | Ok o => Ok (bool_decide (op = o))
  | Err NotFound | Err Incomplete => Ok false
  | Err _ => Fatal
  | Fatal => Fatal
  | UB => UB
  end.

(** Where to go on sending, from the status of the peer. *)
Definition update_received (log : LogCache) (st : ConsensusStatusPB) (p : TrackedPeer) : outcome TrackedPeer :=
  let p := set_committed p (st_last_committed_idx st) (st_last_applied st) in
  let! in_log := IsOpInLog log (st_last_received st) in
  if in_log : bool then Ok (set_received p (st_last_received st))
  else if bool_decide (st_last_received_current_leader st ≠ OpId.Min) then Ok (set_received p (st_last_received_current_leader st))
  else Ok (set_next_index p (last_known_committed_idx p + 1)).

(** The watermarks after a response, in leader mode. *)
Definition update_majority (u : bytes) (p : TrackedPeer) (q : queue) : outcome (queue * MajorityReplicatedData) :=
  let! new := OpIdWatermark q in
  let! l := local_peer q in
  let s := queue_state_ q in
  let s :=
    if bool_decide (new ≠ OpId.Min) then
      if OpId.index new =? OpId.index OpId.Max then with_majority s (last_received l) else with_majority s new
    else s in
  let q := set_state q s in
  let p := set_leases p (OnReplyFromFollower (leader_lease_expiration p)) (OnReplyFromFollower (leader_ht_lease_expiration p))
             (current_retransmissions p) (last_successful_communication_time p) in
  let q := put_peer q u p in
  let! lease := LeaderLeaseExpirationWatermark q in
  let! ht_lease := HybridTimeLeaseExpirationWatermark q in
  let! files := NumSSTFilesWatermark q in
  Ok (q, {| op_id := majority_replicated_op_id s; majority_lease_expiration := lease; majority_ht_lease_expiration := ht_lease;
            majority_num_sst_files := files; peer_got_all_ops := if bool_decide (last_received p = last_applied_op_id s) then uuid p else [] |}).

(** The end of a successful exchange. *)
Definition finish_response (log : LogCache) (lagging_threshold : Z) (u : bytes) (p : TrackedPeer) (r : ConsensusResponsePB) (q : queue) : outcome (queue * Effects) :=
  let p := set_files (set_exchange p true) (response_num_sst_files r) in
  let! p :=
    match responder_term r with
    | Some t => check! t <=? current_term (queue_state_ q) in Ok (set_seen_term p t)
    | None => Ok p
    end in
  let q := put_peer q u p in
  let more := HasOpBeenWritten log (next_index p) || (last_known_committed_idx p <? OpId.index (committed_op_id (queue_state_ q))) in
  let! (q, data) :=
    match mode (queue_state_ q) with
    | LEADER_MODE => let! (q, data) := update_majority u p q in Ok (q, Some data)
    | NON_LEADER_MODE => Ok (q, None)
    end in
  let! replicated := UpdateAllReplicatedOpId q in
  let! applied := UpdateAllAppliedOpId q in
  let q := set_state q (with_all (queue_state_ q) replicated (all_nonlagging_replicated_op_id (queue_state_ q)) applied) in
  let q :=
    if 0 <? lagging_threshold then
      set_state q (with_all (queue_state_ q) replicated (UpdateAllNonLaggingReplicatedOpId lagging_threshold q) applied)
    else q in
  let evict :=
    Z.min (OpId.index (cdc_op_id_to_evict log))
      (OpId.index (if 0 <? lagging_threshold then all_nonlagging_replicated_op_id (queue_state_ q) else all_replicated_op_id (queue_state_ q))) in
  Ok (q, {| more_pending := more; term_change := None; majority_change := data; evict_through := Some evict |}).

Definition ResponseFromPeer (log : LogCache) (lagging_threshold : Z) (now : Z) (u : bytes) (r : ConsensusResponsePB) (q : queue) : outcome (queue * Effects) :=
  match peers_map_ q !! u with
  | None => Ok (q, no_effects false)
  | Some p =>
      if bool_decide (phase (queue_state_ q) ≠ kQueueOpen) then Ok (q, no_effects false)
      else
        match error r with
        | Some not_found =>
            check! not_found : bool in
            Ok (put_peer q u (set_bootstrap p true now), no_effects true)
        | None =>
            let! member :=
              match active_config (queue_state_ q) with
              | Some c => match GetRaftConfigMember c u with Ok pb => Ok (member_type pb) | _ => Fatal end
              | None => Ok UNKNOWN_MEMBER_TYPE
              end in
            let p := set_answered p member now in
            match status r with
            | None => finish_response log lagging_threshold u p r q
            | Some st =>
                let! p := update_received log st p in
                match st_error st with
                | None => finish_response log lagging_threshold u p r q
                | Some e =>
                    let q := put_peer q u (set_exchange p false) in
                    match e with
                    | PRECEDING_ENTRY_DIDNT_MATCH => Ok (q, no_effects true)
                    | INVALID_TERM =>
                        match responder_term r with
                        | Some t => Ok (q, {| more_pending := false; term_change := Some t; majority_change := None; evict_through := None |})
                        | None => Fatal
                        end
                    | OTHER_CONSENSUS_ERROR => Fatal
                    end
                end
            end
        end
  end.

(** The local log has the operations up to [op]. *)
Definition LocalPeerAppendFinished (log : LogCache) (lagging_threshold now : Z) (num_files : Z) (op : OpId.t) (q : queue) : outcome (queue * Effects) :=
  let s := queue_state_ q in
  let q := if OpId.index (last_appended s) <? OpId.index op then set_state q (with_last_appended s op (current_term s) (phase s)) else q in
  match mode s with
  | NON_LEADER_MODE => Ok (q, {| more_pending := false; term_change := None; majority_change := None; evict_through := Some (OpId.index op) |})
  | LEADER_MODE =>
      ResponseFromPeer log lagging_threshold now (local_peer_uuid_ q)
        {| error := None;
           status := Some {| st_last_received := op; st_last_received_current_leader := op; st_last_committed_idx := OpId.index (committed_op_id s);
                             st_last_applied := last_applied_op_id s; st_error := None |};
           responder_term := None; response_num_sst_files := num_files |} q
  end.

(** The majority of the observers, when files of the local peer change. *)
Definition NumSSTFilesChanged (num_files : Z) (q : queue) : outcome (queue * option Z) :=
  match mode (queue_state_ q), peers_map_ q !! local_peer_uuid_ q with
  | LEADER_MODE, Some p =>
      let q := put_peer q (local_peer_uuid_ q) (set_files p num_files) in
      let! w := NumSSTFilesWatermark q in
      Ok (q, Some w)
  | _, _ => Ok (q, None)
  end.

End Watermarks.

(** After the observers: what became committed and applied. *)
Definition majority_change_done (new_committed applied : OpId.t) (q : queue) : outcome queue :=
  let s := queue_state_ q in
  let committed := if negb (OpId.empty new_committed) && (OpId.index (committed_op_id s) <? OpId.index new_committed) then new_committed else committed_op_id s in
  let q := set_state q (with_committed s committed (OpId.MakeAtLeast (last_applied_op_id s) applied)) in
  let! l := local_peer q in
  let q := put_peer q (local_peer_uuid_ q) (set_committed l (last_known_committed_idx l) (last_applied_op_id (queue_state_ q))) in
  let! all := UpdateAllAppliedOpId q in
  let s := queue_state_ q in
  Ok (set_state q (with_all s (all_replicated_op_id s) (all_nonlagging_replicated_op_id s) all)).

(** ** Requests *)

(** The two times the lock is held in [AppendOperations]; the log is written in between. *)
Definition append_start (last_id : OpId.t) (q : queue) : queue :=
  let s := queue_state_ q in
  if current_term s <? OpId.term last_id then set_state q (with_last_appended s (last_appended s) (OpId.term last_id) (phase s)) else q.
Definition append_end (last_id : OpId.t) (q : queue) : queue :=
  let s := queue_state_ q in set_state q (with_last_appended s last_id (current_term s) (phase s)).

Definition GetNumMessagesToSendWithBackoff (last_num_messages_sent : Z) : Z := Z.max (Z.shiftr last_num_messages_sent 1 - 1) 0.

(** The clocks and flags a request reads. *)
Record RequestContext := {
  now_ht : Z;
  coarse_now : Z;
  mono_now : Z;
  leader_lease_duration : Z;
  ht_lease_duration_micros : Z;
  clock_precision : Z;
  exponential_backoff : bool;
  considered_failed : Z;
}.

(** What is decided under the lock; [ops_to_send] is [None] when unbounded. *)
Record Prepared := {
  pr_is_new : bool;
  pr_lease : option (Z * Z);
  pr_preceding : OpId.t;
  pr_committed : OpId.t;
  pr_term : Z;
  pr_bootstrap : bool;
  previously_sent_index : Z;
  ops_to_send : option Z;
  pr_failed : bool;
}.

Definition RequestForPeer_prepare (cx : RequestContext) (u : bytes) (q : queue) : outcome (queue * Prepared) :=
  match peers_map_ q !! u, mode (queue_state_ q) with
  | Some p, LEADER_MODE =>
      let s := queue_state_ q in
      let ht_lease := HybridTime.GetPhysicalValueMicros (now_ht cx) + ht_lease_duration_micros cx in
      let retransmissions := current_retransmissions p + 1 in
      let p' :=
        if is_new p then set_leases p (ResetWatermark (leader_lease_expiration p)) (ResetWatermark (leader_ht_lease_expiration p)) retransmissions (last_successful_communication_time p)
        else set_leases p (SendWatermark (leader_lease_expiration p) (coarse_now cx + leader_lease_duration cx - clock_precision cx * 2))
               (SendWatermark (leader_ht_lease_expiration p) ht_lease) retransmissions (last_successful_communication_time p) in
      let unreachable := mono_now cx - last_successful_communication_time p in
      let voter := bool_decide (peer_member_type p = VOTER) in
      let! voters := match active_config s with Some c => Ok (CountVoters c) | None => UB end in
      Ok (put_peer q u p',
          {| pr_is_new := is_new p;
             pr_lease := if is_new p then None else Some (leader_lease_duration cx, ht_lease);
             pr_preceding := if is_new p then last_appended s else last_received p;
             pr_committed := committed_op_id s;
             pr_term := current_term s;
             pr_bootstrap := needs_remote_bootstrap p;
             previously_sent_index := next_index p - 1;
             ops_to_send := if exponential_backoff cx && (0 <=? last_num_messages_sent p) then Some (GetNumMessagesToSendWithBackoff (last_num_messages_sent p)) else None;
             pr_failed := (considered_failed cx <? unreachable) && (negb voter || (2 <? voters)) |})
  | _, _ => Err NotFound
  end.

(** What the log cache read: the operation before, the operations, and whether there are more. *)
Record ReadOpsResult := { preceding_op : OpId.t; messages : list OpId.t; have_more_messages : bool }.

Record ConsensusRequestPB := {
  rq_term : Z;
  rq_lease : option (Z * Z);
  rq_preceding : OpId.t;
  rq_committed : OpId.t;
  rq_ops : list OpId.t;
  rq_safe_time : option Z;
}.

(** The committed id is held back to what the peer is sure to have. *)
Definition held_back (preceding committed : OpId.t) (ops : list OpId.t) : OpId.t :=
  let max_allowed := default preceding (last ops) in
  if OpId.index max_allowed <? OpId.index committed then max_allowed else committed.

(** [read after_index to_index] reads the log cache, without a limit when [to_index] is 0. *)
Definition RequestForPeer_complete (read : Z → Z → outcome ReadOpsResult) (safe_time : option Z) (u : bytes) (pr : Prepared) (q : queue) : outcome (queue * ConsensusRequestPB) :=
  let request preceding ops safe := {| rq_term := pr_term pr; rq_lease := pr_lease pr; rq_preceding := preceding; rq_committed := held_back preceding (pr_committed pr) ops; rq_ops := ops; rq_safe_time := safe |} in
  if pr_bootstrap pr then Ok (q, {| rq_term := pr_term pr; rq_lease := pr_lease pr; rq_preceding := OpId.Min; rq_committed := pr_committed pr; rq_ops := []; rq_safe_time := None |})
  else if negb (pr_is_new pr) && match ops_to_send pr with Some n => 0 <? n | None => true end then
    let! res := read (previously_sent_index pr) (match ops_to_send pr with Some n => previously_sent_index pr + n | None => 0 end) in
    match peers_map_ q !! u with
    | None => Err NotFound
    | Some p =>
        Ok (put_peer q u (set_sent p (Z.of_nat (length (messages res)))),
            request (preceding_op res) (messages res) (if negb (have_more_messages res) && match ops_to_send pr with None => true | Some _ => false end then safe_time else None))
    end
  else Ok (q, request (pr_preceding pr) [] None).

Definition RequestWasNotSent (u : bytes) (q : queue) : queue :=
  match peers_map_ q !! u with
  | Some p => if bool_decide (phase (queue_state_ q) ≠ kQueueOpen) then q else put_peer q u (ResetLastRequest p)
  | None => q
  end.

Definition NotifyPeerIsResponsiveDespiteError (u : bytes) (now : Z) (q : queue) : queue :=
  match peers_map_ q !! u with
  | Some p => put_peer q u (set_bootstrap p (needs_remote_bootstrap p) now)
  | None => q
  end.

Definition GetRemoteBootstrapRequestForPeer (u : bytes) (q : queue) : outcome queue :=
  match peers_map_ q !! u, mode (queue_state_ q) with
  | Some p, LEADER_MODE =>
      if negb (needs_remote_bootstrap p) then Err IllegalState
      else Ok (put_peer q u (set_bootstrap p false (last_successful_communication_time p)))
  | _, _ => Err NotFound
  end.

(** ** Questions about peers *)

Definition PeerAcceptedOurLease (u : bytes) (q : queue) : bool :=
  match peers_map_ q !! u with Some p => negb (last_acked (leader_lease_expiration p) =? kCoarseInitial) | None => false end.

Definition CanPeerBecomeLeader (u : bytes) (q : queue) : bool :=
  match peers_map_ q !! u with Some p => negb (OpId.operator_lt (last_received p) (majority_replicated_op_id (queue_state_ q))) | None => false end.

Definition PeerLastReceivedOpId (u : bytes) (q : queue) : OpId.t :=
  match peers_map_ q !! u with Some p => last_received p | None => OpId.Min end.

(** The peers with the highest last operation, one of which is chosen. *)
Fixpoint up_to_date (local : bytes) (highest : OpId.t) (candidates : list bytes) (l : list (bytes * TrackedPeer)) : list bytes :=
  match l with
  | [] => candidates
  | (u, p) :: l =>
      if bool_decide (local = u) then up_to_date local highest candidates l
      else if OpId.operator_lt (last_received p) highest then up_to_date local highest candidates l
      else if bool_decide (highest = last_received p) then up_to_date local highest (candidates ++ [u]) l
      else up_to_date local (last_received p) [u] l
  end.
Definition GetUpToDatePeers (q : queue) : list bytes := up_to_date (local_peer_uuid_ q) OpId.Min [] (map_to_list (peers_map_ q)).

End PeerQueue.
