(* ===== verification/PeerWatermarks.v ===== *)
(** * What the leader knows of a majority

    The watermarks of [PeerQueue]: a value that is reported for a majority is one
    that a majority of the voters has, and leases and operations acknowledged by
    a majority meet every majority of votes. *)

From stdpp Require Import sorting.
From S2P Require Import Prelude HybridTime RaftConfig Election PeerQueue.

Module PeerWatermarks.
Import QuorumUtil QuorumFacts ElectionFacts PeerQueue.
#[local] Existing Instance OpId.t_eq_dec.

(** ** Selection by sorting *)

Definition not_after {X} (lt : X → X → bool) (a b : X) : Prop := lt b a = false.
#[export] Instance not_after_dec {X} (lt : X → X → bool) a b : Decision (not_after lt a b).
Proof. unfold not_after. apply _. Defined.

#[export] Instance SortNth : NthElement := λ X lt l n, merge_sort (not_after lt) l !! n.

#[export] Instance SortNthSpec : NthElementSpec SortNth.
Proof.
  split. intros X lt l n [Ha Hc] Hn. exists (merge_sort (not_after lt) l). split; [apply merge_sort_Permutation|]. split; [|done].
  assert (Ht : Transitive (not_after lt)) by (intros a b c; unfold not_after; intros H1 H2; by eapply Hc).
  assert (Htot : Total (not_after lt)) by (intros a b; unfold not_after; destruct (lt a b) eqn:E; [left; by apply Ha|by right]). apply (StronglySorted_merge_sort (not_after lt)).
Qed.

Lemma ltb_weak_order : weak_order Z.ltb.
Proof. split; intros *; rewrite ?Z.ltb_lt, ?Z.ltb_ge; lia. Qed.

Lemma gtb_weak_order : weak_order (λ a b, b <? a).
Proof. split; intros *; rewrite ?Z.ltb_lt, ?Z.ltb_ge; lia. Qed.

Lemma index_weak_order : weak_order (λ a b, OpId.index a <? OpId.index b).
Proof. split; intros *; rewrite ?Z.ltb_lt, ?Z.ltb_ge; lia. Qed.

Section Watermarks.
Context {N : NthElement} {HN : NthElementSpec N}.

(** The values from a position of the sorted range on are not below the one at it. *)
Lemma sorted_above {X} (lt : X → X → bool) l n v x :
  weak_order lt → StronglySorted (λ a b, lt b a = false) l → l !! n = Some v → x ∈ drop n l → lt x v = false.
Proof.
  intros [Ha _] Hs Hv Hx. rewrite <- (take_drop n l) in Hs. apply StronglySorted_app in Hs as (_ & _ & Hs). rewrite (drop_S l v n Hv) in *.
  apply StronglySorted_inv in Hs as [_ Hs]. rewrite Forall_forall in Hs. apply elem_of_cons in Hx as [ ->|Hx]; [|by apply Hs]. destruct (lt v v) eqn:E; [|done]. by rewrite (Ha v v E) in E.
Qed.

(** Enough of the peers have values not below the selected one. *)
Lemma selected_peers {X} (f : TrackedPeer → X) lt (l : list TrackedPeer) n v :
  weak_order lt → (n < length l)%nat → nth_element lt (f <$> l) n = Some v →
  ∃ ps, ps ⊆+ l ∧ length ps = (length l - n)%nat ∧ ∀ p, p ∈ ps → lt (f p) v = false.
Proof.
  intros Hw Hn E. destruct (nth_spec X lt (f <$> l) n Hw) as (l' & Hp & Hs & E'); [by rewrite length_fmap|]. rewrite E' in E.
  destruct (Permutation_map_inv _ _ Hp) as (ps & Eps & Hps). change (List.map f ps) with (f <$> ps) in Eps. subst l'. exists (drop n ps). split_and!.
  - rewrite Hps. apply sublist_submseteq, sublist_drop.
  - by rewrite length_drop, Hps.
  - intros p Hp'. eapply (sorted_above lt); [done..|]. rewrite <- fmap_drop. by apply list_elem_of_fmap_2.
Qed.

(** A value that enough of the peers have is not above the selected one. *)
Lemma selected_greatest {X} (f : TrackedPeer → X) lt (l : list TrackedPeer) n v v' :
  weak_order lt → (n < length l)%nat → nth_element lt (f <$> l) n = Some v →
  (length l - n ≤ length (List.filter (λ p, negb (lt (f p) v')) l))%nat → lt v v' = false.
Proof.
  intros [Ha Hc] Hn E Hlen. destruct (nth_spec X lt (f <$> l) n (Build_weak_order _ lt Ha Hc)) as (l' & Hp & Hs & E'); [by rewrite length_fmap|]. rewrite E' in E.
  destruct (lt v v') eqn:Ev; [|done]. exfalso.
  assert (Hf : length (List.filter (λ p, negb (lt (f p) v')) l) = length (List.filter (λ x, negb (lt x v')) l')).
  { transitivity (length (List.filter (λ x, negb (lt x v')) (f <$> l))).
    - clear. induction l as [|p l IH]; [done|]. rewrite fmap_cons. cbn [List.filter]. destruct (negb _); cbn [length]; by rewrite IH.
    - clear -Hp. induction Hp as [|x a b _ IH|x y a|a b c _ IH1 _ IH2]; [done| | |congruence]; cbn [List.filter]; repeat destruct (negb _); cbn [length]; congruence. }
  assert (Hll : length l' = length l) by (by rewrite Hp, length_fmap). rewrite Hf in Hlen.
  rewrite <- (take_drop (S n) l'), List.filter_app, length_app in Hlen.
  assert (Hnil : List.filter (λ x, negb (lt x v')) (take (S n) l') = []).
  { destruct (List.filter _ _) as [|x k] eqn:Ek; [done|]. exfalso. assert (Hx : In x (List.filter (λ x, negb (lt x v')) (take (S n) l'))) by (rewrite Ek; by left).
    apply List.filter_In in Hx as [Hx Hb]. apply negb_true_iff in Hb. rewrite (take_S_r l' n v E) in Hx. apply list_elem_of_In, elem_of_app in Hx.
    assert (Hvx : lt v x = false).
    { destruct Hx as [Hx| ->%list_elem_of_singleton]; [|destruct (lt v v) eqn:Evv; [|done]; by rewrite (Ha v v Evv) in Evv]. rewrite <- (take_drop n l') in Hs. apply StronglySorted_app in Hs as (Hs & _ & _). apply Hs; [done|]. rewrite (drop_S l' v n E). left. }
    rewrite (Hc v x v' Hvx Hb) in Ev. done. }
  rewrite Hnil in Hlen. cbn [length] in Hlen. assert (length (List.filter (λ x, negb (lt x v')) (drop (S n) l')) ≤ length (drop (S n) l'))%nat by apply List.filter_length_le. rewrite length_drop in *. lia.
Qed.

(** Tracked peers are stored under their uuids. *)
Definition keyed (q : queue) : Prop := ∀ u p, peers_map_ q !! u = Some p → uuid p = u.

Lemma tracked_uuids q : keyed q → NoDup (uuid <$> tracked q).
Proof.
  intros Hk. unfold tracked. rewrite <- list_fmap_compose. replace ((uuid ∘ snd) <$> map_to_list (peers_map_ q)) with (map_to_list (peers_map_ q)).*1; [apply NoDup_fst_map_to_list|].
  apply list_fmap_ext. intros i [u p] Hl%list_elem_of_lookup_2%elem_of_map_to_list. cbn. symmetry. by apply Hk.
Qed.

Lemma nodup_submseteq {X} (l l' : list X) : l ⊆+ l' → NoDup l' → NoDup l.
Proof. intros (k & ->)%submseteq_Permutation Hn. by apply NoDup_app in Hn as (? & _). Qed.

Lemma counted_sublist q c skip : counted q c skip `sublist_of` tracked q.
Proof. unfold counted, tracked. generalize ((map_to_list (peers_map_ q)).*2). intros l. induction l as [|p l IH]; [done|]. cbn [List.filter]. destruct (_ && _); [by apply sublist_skip|by apply sublist_cons]. Qed.

Lemma counted_in q c skip p :
  keyed q → p ∈ counted q c skip →
  peers_map_ q !! uuid p = Some p ∧ (skip = true → uuid p ≠ local_peer_uuid_ q) ∧ IsRaftConfigVoter (uuid p) c = true ∧ is_last_exchange_successful p = true.
Proof.
  intros Hk [Hin Hb]%list_elem_of_In%List.filter_In. apply list_elem_of_In, list_elem_of_fmap in Hin as ([u p'] & -> & Hin%elem_of_map_to_list). cbn in *.
  rewrite (Hk _ _ Hin). rewrite !andb_true_iff, negb_true_iff in Hb. destruct Hb as [[Hs Hv] He]. rewrite <- (Hk _ _ Hin). split_and!; [by rewrite (Hk _ _ Hin)| |done..]. intros ->. cbn in Hs. by rewrite bool_decide_eq_false in Hs.
Qed.

(** With the local peer, that is not counted, they are all tracked. *)
Lemma counted_size q c skip : keyed q → is_Some (peers_map_ q !! local_peer_uuid_ q) → Z.of_nat (length (counted q c skip)) + Z.b2z skip <= Z.of_nat (size (peers_map_ q)).
Proof.
  intros Hk [l Hl]. assert (Hsub : length (uuid <$> counted q c skip) = length (counted q c skip)) by apply length_fmap.
  assert (Hnd : NoDup (uuid <$> counted q c skip)) by (eapply nodup_submseteq; [|apply (tracked_uuids q Hk)]; apply fmap_submseteq, sublist_submseteq, counted_sublist).
  assert (Hin : ∀ u, u ∈ uuid <$> counted q c skip → u ∈ (map_to_list (peers_map_ q)).*1).
  { intros u (p & -> & Hp)%list_elem_of_fmap. apply counted_in in Hp as (Hp & _); [|done]. apply list_elem_of_fmap. exists (uuid p, p). split; [done|by apply elem_of_map_to_list]. }
  assert (Hs : size (peers_map_ q) = length (map_to_list (peers_map_ q)).*1) by (by rewrite length_fmap, length_map_to_list). rewrite Hs, <- Hsub. destruct skip; cbn [Z.b2z].
  - enough (length (local_peer_uuid_ q :: (uuid <$> counted q c true)) ≤ length (map_to_list (peers_map_ q)).*1)%nat by (cbn [length] in *; lia). apply submseteq_length, NoDup_submseteq.
    + constructor; [|done]. intros (p & E & Hp)%list_elem_of_fmap. apply counted_in in Hp as (_ & Hp & _); [|done]. by apply Hp.
    + intros u [->|Hu]%elem_of_cons; [|by apply Hin]. apply list_elem_of_fmap. exists (local_peer_uuid_ q, l). split; [done|by apply elem_of_map_to_list].
  - enough (length (uuid <$> counted q c false) ≤ length (map_to_list (peers_map_ q)).*1)%nat by lia. by apply submseteq_length, NoDup_submseteq.
Qed.

(** A queue that leads a configuration. *)
Record leads (q : queue) (c : RaftConfigPB) : Prop := {
  ld_config : active_config (queue_state_ q) = Some c;
  ld_ok : config_ok c;
  ld_size : majority_size_ (queue_state_ q) = MajoritySize (CountVoters c);
  ld_local : IsRaftConfigVoter (local_peer_uuid_ q) c = true;
  ld_keyed : keyed q;
}.

(** A value that [p] has reached. *)
Definition reached {X} (policy : Policy X) (q : queue) (v : X) (u : bytes) : Prop :=
  infinite_local policy = true ∧ u = local_peer_uuid_ q ∨ ∃ p, peers_map_ q !! u = Some p ∧ is_last_exchange_successful p = true ∧ Comparator policy (ExtractValue policy p) v = false.

Lemma watermark_majority {X} (policy : Policy X) q c v :
  weak_order (Comparator policy) → leads q c → GetWatermark policy q = Ok v → v = NotEnoughPeersValue policy ∨ majority_of c (reached policy q v).
Proof.
  intros Hw [L1 L2 L3 L4 L5]. unfold GetWatermark. rewrite L3. destruct (_ =? _); [intros [= <-]; by left|]. destruct (Z.leb_spec 0 (MajoritySize (CountVoters c))); [|done].
  destruct (_ <? _); [intros [= <-]; by left|]. assert (Hlocal : local_peer_uuid_ q ∈ voters c) by (by apply voter_spec).
  destruct (if _ =? 1 then _ else None) as [w|] eqn:E1.
  { intros [= <-]. right. destruct (Z.eqb_spec (MajoritySize (CountVoters c)) 1) as [E|]; [|done]. exists [local_peer_uuid_ q]. rewrite E. split_and!; [apply NoDup_singleton| |cbn; lia].
    intros u ->%list_elem_of_singleton. split; [done|]. left. split; [|done]. unfold infinite_local. by rewrite E1. }
  rewrite L1. rewrite length_fmap. set (l := counted q c (infinite_local policy)). destruct (Z.ltb_spec (Z.of_nat (length l) + Z.b2z (infinite_local policy)) (MajoritySize (CountVoters c))) as [|Hge]; [intros [= <-]; by left|].
  set (n := Z.to_nat _). destruct (nth_element _ _ n) as [w|] eqn:En; [|done]. intros [= ->]. right.
  assert (Hone : infinite_local policy = true → MajoritySize (CountVoters c) ≠ 1) by (unfold infinite_local; intros Hi E; rewrite E in E1; cbn in E1; by rewrite E1 in Hi).
  assert (Hvoters : 1 <= CountVoters c) by (rewrite count_voters by done; destruct (voters c); [by apply elem_of_nil in Hlocal|cbn; lia]).
  assert (Hmaj : 1 <= MajoritySize (CountVoters c)) by (unfold MajoritySize; Z.to_euclidean_division_equations; lia).
  assert (Hn : (n < length l)%nat) by (subst n; destruct (infinite_local policy); cbn [Z.b2z] in *; [specialize (Hone eq_refl)|]; lia).
  destruct (selected_peers (ExtractValue policy) (Comparator policy) l n v Hw Hn En) as (ps & Hsub & Hlen & Hps).
  assert (Hin : ∀ p, p ∈ ps → p ∈ l) by (intros p Hp; by eapply elem_of_submseteq).
  assert (Hnd : NoDup (uuid <$> ps)) by (eapply nodup_submseteq; [|apply (tracked_uuids q L5)]; apply fmap_submseteq; etrans; [exact Hsub|]; apply sublist_submseteq, counted_sublist).
  exists (if infinite_local policy then local_peer_uuid_ q :: (uuid <$> ps) else uuid <$> ps). split_and!.
  - destruct (infinite_local policy) eqn:Ei; [|done]. constructor; [|done]. intros (p & E & Hp%Hin)%list_elem_of_fmap. apply counted_in in Hp as (_ & Hp & _); [|done]. by apply Hp.
  - assert (Hall : ∀ u, u ∈ uuid <$> ps → u ∈ voters c ∧ reached policy q v u).
    { intros u (p & -> & Hp)%list_elem_of_fmap. destruct (counted_in q c (infinite_local policy) p L5 (Hin p Hp)) as (Hq & _ & Hv & He). split; [by apply voter_spec|]. right. exists p. split; [done|]. split; [done|by apply Hps]. }
    intros u. destruct (infinite_local policy) eqn:Ei; [|apply Hall]. intros [ ->|Hu]%elem_of_cons; [|by apply Hall]. split; [done|by left].
  - destruct (infinite_local policy); cbn [length]; rewrite length_fmap, Hlen; subst n; cbn [Z.b2z] in *; lia.
Qed.

(** A value that a majority of the peers that answer has is not above the watermark. *)
Lemma watermark_greatest {X} (policy : Policy X) q c v v' :
  weak_order (Comparator policy) → leads q c → is_Some (peers_map_ q !! local_peer_uuid_ q) → GetWatermark policy q = Ok v →
  (infinite_local policy = true → MajoritySize (CountVoters c) ≠ 1) →
  MajoritySize (CountVoters c) <=
    Z.of_nat (length (List.filter (λ p, negb (Comparator policy (ExtractValue policy p) v')) (counted q c (infinite_local policy)))) + Z.b2z (infinite_local policy) →
  Comparator policy v v' = false.
Proof.
  intros Hw [L1 L2 L3 L4 L5] Hloc E H1 Hlen. pose proof (counted_size q c (infinite_local policy) L5 Hloc) as Hsize. set (l := counted q c (infinite_local policy)) in *. pose proof (List.filter_length_le (λ p, negb (Comparator policy (ExtractValue policy p) v')) l) as Hfl.
  assert (Hvoters : 1 <= CountVoters c) by (rewrite count_voters by done; apply voter_spec in L4; [|done]; destruct (voters c); [by apply elem_of_nil in L4|cbn; lia]).
  assert (Hmaj : 1 <= MajoritySize (CountVoters c)) by (unfold MajoritySize; Z.to_euclidean_division_equations; lia).
  unfold GetWatermark in E. rewrite L3, L1 in E. fold l in E. rewrite length_fmap in E. destruct (Z.eqb_spec (MajoritySize (CountVoters c)) kUninitializedMajoritySize); [unfold kUninitializedMajoritySize in *; lia|]. destruct (Z.leb_spec 0 (MajoritySize (CountVoters c))); [|lia].
  destruct (Z.ltb_spec (Z.of_nat (size (peers_map_ q))) (MajoritySize (CountVoters c))); [lia|].
  assert (Ei : (if MajoritySize (CountVoters c) =? 1 then InfiniteWatermarkForLocalPeer policy else None) = None).
  { destruct (Z.eqb_spec (MajoritySize (CountVoters c)) 1); [|done]. unfold infinite_local in H1. destruct (InfiniteWatermarkForLocalPeer policy); [by destruct H1|done]. }
  rewrite Ei in E. destruct (Z.ltb_spec (Z.of_nat (length l) + Z.b2z (infinite_local policy)) (MajoritySize (CountVoters c))); [lia|]. destruct (nth_element _ _ _) as [w|] eqn:En; [|done]. injection E as ->.
  assert (Hb : 0 <= Z.b2z (infinite_local policy) <= 1) by (destruct (infinite_local policy); cbn; lia). assert (Hb1 : Z.b2z (infinite_local policy) = 1 → MajoritySize (CountVoters c) ≠ 1) by (destruct (infinite_local policy); [auto|done]).
  eapply selected_greatest; [done| |exact En|]; lia.
Qed.

(** ** Operations stored by a majority *)

(** The position the queue takes from a response. *)
Definition believed (log : LogCache) (r : ConsensusResponsePB) (p : TrackedPeer) : OpId.t :=
  match status r with
  | None => last_received p
  | Some st =>
      match IsOpInLog log (st_last_received st) with
      | Ok true => st_last_received st
      | _ => if bool_decide (st_last_received_current_leader st ≠ OpId.Min) then st_last_received_current_leader st else last_received p
      end
  end.

Definition counts (q : queue) (u : bytes) (p : TrackedPeer) : Prop := is_last_exchange_successful p = true ∨ u = local_peer_uuid_ q.

Definition error_free (r : ConsensusResponsePB) : Prop := ∀ st, status r = Some st → st_error st = None.

(** [stored u]: the index up to which the log of [u] agrees with the log of the
    leader.  A response without an error moves the position of the peer to an
    operation it has stored, or leaves it where it counted before. *)
Definition honest (log : LogCache) (stored : bytes → Z) (u : bytes) (r : ConsensusResponsePB) (q : queue) : Prop :=
  ∀ p, peers_map_ q !! u = Some p → error_free r ∨ u = local_peer_uuid_ q →
  OpId.index (believed log r p) <= stored u ∨ believed log r p = last_received p ∧ counts q u p.

(** Indexes are in the range of their type. *)
Definition bounded (stored : bytes → Z) : Prop := ∀ u, 0 <= stored u < 2 ^ 63.

(** What is known of the peers that count is true. *)
Definition truthful (stored : bytes → Z) (q : queue) : Prop := ∀ u p, peers_map_ q !! u = Some p → counts q u p → OpId.index (last_received p) <= stored u.

(** What the other operations leave of a queue. *)
Record similar (q q' : queue) : Prop := {
  sm_local : local_peer_uuid_ q' = local_peer_uuid_ q;
  sm_mode : mode (queue_state_ q') = mode (queue_state_ q);
  sm_config : active_config (queue_state_ q') = active_config (queue_state_ q);
  sm_size : majority_size_ (queue_state_ q') = majority_size_ (queue_state_ q);
}.

#[local] Instance similar_preorder : PreOrder similar.
Proof. split; [done|]. intros a b c [A1 A2 A3 A4] [B1 B2 B3 B4]. split; congruence. Qed.

Lemma similar_leads q q' c : similar q q' → keyed q' → leads q c → leads q' c.
Proof. intros [S1 S2 S3 S4] Hk [L1 L2 L3 L4 L5]. split; [congruence|done|congruence|congruence|done]. Qed.

Lemma put_similar q u p : similar q (put_peer q u p).
Proof. done. Qed.

Lemma put_keyed q u p : keyed q → uuid p = u → keyed (put_peer q u p).
Proof. intros Hk Hu v p' H. cbn in H. apply lookup_insert_Some in H as [[<- <-]|[_ H]]; [done|by apply Hk]. Qed.

Lemma put_truthful stored q u p : truthful stored q → (counts q u p → OpId.index (last_received p) <= stored u) → truthful stored (put_peer q u p).
Proof. intros Ht Hp v p' H. cbn in H. apply lookup_insert_Some in H as [[<- <-]|[_ H]]; [done|by apply Ht]. Qed.

Lemma reached_stored q stored v : truthful stored q → ∀ u, reached OpIdPolicy q v u → OpId.index v <= stored u.
Proof. intros Ht u [[? _]|(p & Hp & He & Hc)]; [done|]. cbn in Hc. apply Z.ltb_ge in Hc. specialize (Ht u p Hp (or_introl He)). lia. Qed.

(** The operation is stored by a majority. *)
Definition on_majority (c : RaftConfigPB) (stored : bytes → Z) (o : OpId.t) : Prop := majority_of c (λ u, OpId.index o <= stored u).

Lemma update_majority_spec stored u p q q' data c :
  update_majority u p q = Ok (q', data) → leads q c → bounded stored → truthful stored q → peers_map_ q !! u = Some p →
  similar q q' ∧ keyed q' ∧ truthful stored q' ∧ op_id data = majority_replicated_op_id (queue_state_ q') ∧
  (majority_replicated_op_id (queue_state_ q') = majority_replicated_op_id (queue_state_ q) ∨ on_majority c stored (majority_replicated_op_id (queue_state_ q'))).
Proof.
  intros E Hl Hb Ht Hp. unfold update_majority in E. destruct (OpIdWatermark q) as [new| | |] eqn:Ew; [|done..]. cbn [obind] in E.
  destruct (local_peer q) as [l| | |] eqn:El; [|done..]. cbn [obind] in E. revert E. set (s' := if bool_decide _ then _ else _). set (p' := set_leases _ _ _ _ _). intros E.
  destruct (LeaderLeaseExpirationWatermark _) as [lease| | |]; [|done..]. destruct (HybridTimeLeaseExpirationWatermark _) as [ht| | |]; [|done..]. destruct (NumSSTFilesWatermark _) as [files| | |]; [|done..].
  cbn [obind] in E. injection E as <- <-. cbn [op_id put_peer set_peers set_state queue_state_].
  assert (Hs : similar q (set_state q s')) by (subst s'; split; cbn; repeat case_match; done). pose proof (ld_keyed _ _ Hl) as Hk.
  split_and!; [by etrans; [exact Hs|]|apply put_keyed; [done|cbn; by apply Hk]|apply put_truthful; [exact Ht|intros Hc; apply (Ht u p Hp); exact Hc]|done|].
  subst s'. case_bool_decide as Hne; [|by left]. right. destruct (watermark_majority OpIdPolicy q c new index_weak_order Hl Ew) as [?|Hm]; [done|].
  destruct (Z.eqb_spec (OpId.index new) (OpId.index OpId.Max)) as [Em|_]; cbn [majority_replicated_op_id with_majority]; (eapply majority_mono; [|exact Hm]); intros v Hv%(reached_stored q stored new Ht v); [|done].
  unfold local_peer in El. destruct (peers_map_ q !! _) as [l'|] eqn:El'; [|done]. injection El as <-. specialize (Ht _ _ El' (or_intror eq_refl)). specialize (Hb (local_peer_uuid_ q)). cbn in Em. cbn. lia.
Qed.

(** Operations that do not touch the majority. *)
Definition harmless (stored : bytes → Z) (q q' : queue) : Prop :=
  similar q q' ∧ (keyed q → keyed q') ∧ (truthful stored q → truthful stored q') ∧ majority_replicated_op_id (queue_state_ q') = majority_replicated_op_id (queue_state_ q).

Lemma harmless_put stored q u p p' :
  peers_map_ q !! u = Some p → uuid p' = uuid p → (counts q u p' → OpId.index (last_received p') <= stored u ∨ last_received p' = last_received p ∧ counts q u p) → harmless stored q (put_peer q u p').
Proof.
  intros Hp Hu Hr. split_and!; [done| | |done].
  - intros Hk. apply put_keyed; [done|]. rewrite Hu. by apply Hk.
  - intros Ht. apply put_truthful; [done|]. intros Hc. destruct (Hr Hc) as [?|[-> ?]]; [done|by apply Ht].
Qed.

Lemma harmless_refl stored q : harmless stored q q.
Proof. split_and!; [reflexivity|done..]. Qed.

Lemma harmless_trans stored a b c : harmless stored a b → harmless stored b c → harmless stored a c.
Proof. intros (A1 & A2 & A3 & A4) (B1 & B2 & B3 & B4). split_and!; [by etrans|auto..|congruence]. Qed.

Lemma update_majority_similar u p q q' data : update_majority u p q = Ok (q', data) → similar q q'.
Proof.
  unfold update_majority. destruct (OpIdWatermark q); [|done..]. cbn [obind]. destruct (local_peer q); [|done..]. cbn [obind]. set (s' := if bool_decide _ then _ else _).
  destruct (LeaderLeaseExpirationWatermark _); [|done..]. destruct (HybridTimeLeaseExpirationWatermark _); [|done..]. destruct (NumSSTFilesWatermark _); [|done..]. cbn [obind]. intros [= <- <-].
  split; cbn; subst s'; repeat case_match; done.
Qed.

Lemma finish_similar log threshold u p r q q' e : finish_response log threshold u p r q = Ok (q', e) → similar q q'.
Proof.
  unfold finish_response. destruct (match responder_term r with Some t => _ | None => _ end) as [p1| | |]; [|done..]. cbn [obind]. set (q1 := put_peer q u p1).
  destruct (match mode (queue_state_ q1) with LEADER_MODE => _ | NON_LEADER_MODE => _ end) as [[q2 data]| | |] eqn:E2; [|done..]. cbn [obind].
  assert (H2 : similar q1 q2) by (destruct (mode (queue_state_ q1)); [destruct (update_majority u p1 q1) as [[q3 d3]| | |] eqn:E3; [|done..]; injection E2 as <- <-; by eapply update_majority_similar|injection E2 as <- <-; reflexivity]).
  destruct (UpdateAllReplicatedOpId q2); [|done..]. destruct (UpdateAllAppliedOpId q2); [|done..]. cbn [obind]. intros [= <- <-]. trans q1; [apply put_similar|]. trans q2; [exact H2|]. destruct (0 <? threshold); split; done.
Qed.

Lemma response_similar log threshold now u r q q' e : ResponseFromPeer log threshold now u r q = Ok (q', e) → similar q q'.
Proof.
  unfold ResponseFromPeer. destruct (peers_map_ q !! u) as [p|]; [|intros [= <- <-]; reflexivity]. destruct (bool_decide _); [intros [= <- <-]; reflexivity|].
  destruct (error r) as [[]|]; [intros [= <- <-]; apply put_similar|done|]. destruct (match active_config _ with Some c => _ | None => _ end); [|done..]. cbn [obind].
  destruct (status r) as [st|]; [|apply finish_similar]. destruct (update_received _ _ _); [|done..]. cbn [obind]. destruct (st_error st) as [[]|]; [intros [= <- <-]; apply put_similar| |done|apply finish_similar].
  destruct (responder_term r); [|done]. intros [= <- <-]. apply put_similar.
Qed.

(** The invariant of a queue: while it leads, what it holds for replicated by a
    majority is stored by one, or was committed when it became the leader. *)
Record replicating (q : queue) (stored : bytes → Z) (start : OpId.t) : Prop := {
  rp_keyed : keyed q;
  rp_bounded : bounded stored;
  rp_leader : mode (queue_state_ q) = LEADER_MODE → ∃ c, leads q c ∧ truthful stored q ∧
    (majority_replicated_op_id (queue_state_ q) = start ∨ on_majority c stored (majority_replicated_op_id (queue_state_ q)));
}.

Lemma harmless_replicating q q' stored start : harmless stored q q' → replicating q stored start → replicating q' stored start.
Proof.
  intros (Hs & Hk & Ht & Em) [R1 R2 R3]. split; [auto|done|]. rewrite (sm_mode _ _ Hs). intros H. destruct (R3 H) as (c & Hl & Htr & Hm). exists c. split_and!; [by eapply similar_leads; [exact Hs|auto|]|auto|by rewrite Em].
Qed.

Lemma update_received_spec log r st p p' : status r = Some st → update_received log st p = Ok p' → uuid p' = uuid p ∧ last_received p' = believed log r p.
Proof.
  intros Hr. unfold update_received, believed. rewrite Hr. destruct (IsOpInLog _ _) as [b| | |]; [|done..]. cbn [obind]. destruct b; [by intros [= <-]|]. case_bool_decide; by intros [= <-].
Qed.

Lemma finish_replicating log threshold stored start u p0 p r q q' e :
  finish_response log threshold u p r q = Ok (q', e) → peers_map_ q !! u = Some p0 → uuid p = uuid p0 →
  (OpId.index (last_received p) <= stored u ∨ last_received p = last_received p0 ∧ counts q u p0) → replicating q stored start →
  replicating q' stored start ∧ (∀ data, majority_change e = Some data → op_id data = majority_replicated_op_id (queue_state_ q')).
Proof.
  intros E Hp Hu Hr HR. unfold finish_response in E. revert E. set (pa := set_files _ _).
  destruct (match responder_term r with Some t => _ | None => _ end) as [p1| | |] eqn:E1; [|done..]. cbn [obind].
  assert (Hp1 : uuid p1 = uuid p0 ∧ last_received p1 = last_received p) by (destruct (responder_term r); [destruct (_ <=? _); [|done]|]; injection E1 as <-; done). destruct Hp1 as [Hu1 Hr1].
  assert (HR1 : replicating (put_peer q u p1) stored start) by (eapply harmless_replicating; [|exact HR]; eapply harmless_put; [done|done|intros _; by rewrite Hr1]).
  set (q1 := put_peer q u p1) in *. set (more := _ || _). destruct (match mode (queue_state_ q1) with LEADER_MODE => _ | NON_LEADER_MODE => _ end) as [[q2 data]| | |] eqn:E2; [|done..]. cbn [obind].
  assert (H2 : replicating q2 stored start ∧ (∀ d, data = Some d → op_id d = majority_replicated_op_id (queue_state_ q2))).
  { destruct (mode (queue_state_ q1)) eqn:Em; [|injection E2 as <- <-; by split]. destruct (update_majority u p1 q1) as [[q3 d3]| | |] eqn:E3; [|done..]. cbn [obind] in E2. injection E2 as <- <-.
    destruct (rp_leader _ _ _ HR1 Em) as (c & Hl & Ht & Hm). destruct (update_majority_spec stored u p1 q1 q3 d3 c E3 Hl (rp_bounded _ _ _ HR1) Ht) as (S1 & S2 & S3 & S4 & S5); [apply lookup_insert_eq|].
    split; [|by intros d [= <-]]. split; [done|apply HR1|]. intros _. exists c. split_and!; [by eapply similar_leads|done|]. destruct S5 as [ ->|?]; [done|by right]. }
  destruct H2 as [HR2 Hd]. destruct (UpdateAllReplicatedOpId q2) as [a1| | |]; [|done..]. destruct (UpdateAllAppliedOpId q2) as [a2| | |]; [|done..]. cbn [obind]. intros [= <- <-].
  split; [|intros d Hd'; cbn in Hd'; specialize (Hd d Hd'); by destruct (0 <? threshold)].
  eapply harmless_replicating; [|exact HR2]. destruct (0 <? threshold); (split_and!; [split; done|done..]).
Qed.

Lemma response_replicating log threshold now stored start u r q q' e :
  ResponseFromPeer log threshold now u r q = Ok (q', e) → honest log stored u r q → replicating q stored start →
  replicating q' stored start ∧ (∀ data, majority_change e = Some data → op_id data = majority_replicated_op_id (queue_state_ q')).
Proof.
  intros E Hh HR. unfold ResponseFromPeer in E. destruct (peers_map_ q !! u) as [p|] eqn:Hp; [|injection E as <- <-; by split]. destruct (bool_decide _); [injection E as <- <-; by split|].
  destruct (error r) as [nf|]; [destruct nf; [|done]; injection E as <- <-; split; [|done]; eapply harmless_replicating; [|exact HR]; eapply harmless_put; [done|done|by intros ?; right; split]|].
  destruct (match active_config _ with Some c => _ | None => _ end) as [member| | |]; [|done..]. cbn [obind] in E. specialize (Hh p Hp).
  assert (Hb : believed log r (set_answered p member now) = believed log r p) by (unfold believed; by destruct (status r)).
  destruct (status r) as [st|] eqn:Est; [|eapply finish_replicating; [exact E|done|done| |done]; unfold believed in Hh; rewrite Est in Hh; apply Hh; left; intros st; by rewrite Est].
  destruct (update_received log st (set_answered p member now)) as [p1| | |] eqn:E1; [|done..]. cbn [obind] in E. apply (update_received_spec _ r) in E1 as [Hu Hr]; [|done]. cbn in Hu. rewrite Hb in Hr.
  destruct (st_error st) as [er|] eqn:Eer; [|eapply finish_replicating; [exact E|done|done| |done]; rewrite Hr; apply Hh; left; intros st'; rewrite Est; by intros [= <-]].
  assert (HR1 : replicating (put_peer q u (set_exchange p1 false)) stored start).
  { eapply harmless_replicating; [|exact HR]. eapply harmless_put; [done|done|]. intros [?|Hu']; [done|]. change (last_received (set_exchange p1 false)) with (last_received p1). rewrite Hr. apply Hh. by right. }
  destruct er; [injection E as <- <-; by split|destruct (responder_term r); [|done]; injection E as <- <-; by split|done].
Qed.

(** ** Runs *)

(** Queues with what the peers have stored and the operation committed when the
    present leadership began.  A queue becomes that of a leader when what it knows
    of its peers is true. *)
Inductive reach : queue → (bytes → Z) → OpId.t → Prop :=
  | r_new u stored start : bounded stored → reach (NewQueue u) stored start
  | r_stored q stored start stored' : reach q stored start → bounded stored' → (∀ u, stored u <= stored' u) → reach q stored' start
  | r_init q stored start op now q' : reach q stored start → Init op now q = Ok q' → reach q' stored start
  | r_track q stored start u now q' : reach q stored start → TrackPeerUnlocked u now q = Ok q' → reach q' stored start
  | r_untrack q stored start u : reach q stored start → reach (UntrackPeer u q) stored start
  | r_close q stored start : reach q stored start → reach (Close q) stored start
  | r_leader q stored start committed term applied c now q' stored' : reach q stored start → SetLeaderMode committed term applied c now q = Ok q' →
      config_ok c → bounded stored' → truthful stored' q → reach q' stored' committed
  | r_follower q stored start stored' : reach q stored start → bounded stored' → reach (SetNonLeaderMode q) stored' start
  | r_response q stored start log threshold now u r q' e : reach q stored start → honest log stored u r q →
      ResponseFromPeer log threshold now u r q = Ok (q', e) → reach q' stored start
  | r_local q stored start log threshold now files op q' e : reach q stored start → OpId.index op <= stored (local_peer_uuid_ q) →
      LocalPeerAppendFinished log threshold now files op q = Ok (q', e) → reach q' stored start
  | r_files q stored start files q' w : reach q stored start → NumSSTFilesChanged files q = Ok (q', w) → reach q' stored start
  | r_done q stored start committed applied q' : reach q stored start → majority_change_done committed applied q = Ok q' → reach q' stored start
  | r_append_start q stored start op : reach q stored start → reach (append_start op q) stored start
  | r_append_end q stored start op : reach q stored start → reach (append_end op q) stored start
  | r_prepare q stored start cx u q' pr : reach q stored start → RequestForPeer_prepare cx u q = Ok (q', pr) → reach q' stored start
  | r_complete q stored start read safe u pr q' rq : reach q stored start → RequestForPeer_complete read safe u pr q = Ok (q', rq) → reach q' stored start
  | r_not_sent q stored start u : reach q stored start → reach (RequestWasNotSent u q) stored start
  | r_responsive q stored start u now : reach q stored start → reach (NotifyPeerIsResponsiveDespiteError u now q) stored start
  | r_bootstrap q stored start u q' : reach q stored start → GetRemoteBootstrapRequestForPeer u q = Ok q' → reach q' stored start.

Lemma track_harmless stored u now q q' : bounded stored → TrackPeerUnlocked u now q = Ok q' → harmless stored q q'.
Proof.
  intros Hb. unfold TrackPeerUnlocked. destruct (bool_decide (u ≠ [])); [|done]. destruct (bool_decide _); [|done]. destruct (CheckPeersInActiveConfigIfLeaderUnlocked _); [|done..]. cbn [obind]. intros [= <-].
  split_and!; [split; done| | |done].
  - intros Hk. by apply put_keyed.
  - intros Ht. apply (put_truthful stored q u); [done|]. intros _. cbn. apply Hb.
Qed.

Lemma local_replicating log threshold now files stored start op q q' e :
  LocalPeerAppendFinished log threshold now files op q = Ok (q', e) → OpId.index op <= stored (local_peer_uuid_ q) → replicating q stored start →
  replicating q' stored start ∧ (∀ data, majority_change e = Some data → op_id data = majority_replicated_op_id (queue_state_ q')).
Proof.
  intros E Hop HR. unfold LocalPeerAppendFinished in E. revert E. set (q1 := if _ <? _ then _ else q).
  assert (H1 : harmless stored q q1) by (subst q1; destruct (_ <? _); split_and!; done). assert (El : local_peer_uuid_ q1 = local_peer_uuid_ q) by (subst q1; by destruct (_ <? _)).
  assert (HR1 : replicating q1 stored start) by (by eapply harmless_replicating). destruct (mode (queue_state_ q)); [|intros [= <- <-]; by split].
  intros E. rewrite El in E. eapply response_replicating; [exact E| |done]. intros p Hp _. unfold believed, counts. cbn [status st_last_received st_last_received_current_leader]. rewrite El.
  destruct (IsOpInLog _ _) as [[]| | |]; [by left|..]; (case_bool_decide; [by left|right; split; [done|by right]]).
Qed.

Lemma leader_replicating committed term applied c now q q' stored :
  SetLeaderMode committed term applied c now q = Ok q' → config_ok c → bounded stored → truthful stored q → keyed q → replicating q' stored committed.
Proof.
  unfold SetLeaderMode. destruct (IsRaftConfigVoter _ c) eqn:Ev; [|done]. destruct (CheckPeersInActiveConfigIfLeaderUnlocked _); [|done..]. cbn [obind]. intros [= <-] Hc Hb Ht Hk.
  assert (Hk' : keyed (set_peers q (reset_leases now <$> peers_map_ q))) by (intros u p; cbn; rewrite lookup_fmap, fmap_Some; intros (p0 & Hp & ->); cbn; by apply Hk).
  split; [exact Hk'|done|]. intros _. exists c. split_and!; [split; done| |by left]. intros u p. cbn. rewrite lookup_fmap, fmap_Some. intros (p0 & Hp & ->) Hcn. cbn. by apply (Ht u p0 Hp).
Qed.

Lemma files_harmless stored files q q' w : NumSSTFilesChanged files q = Ok (q', w) → harmless stored q q'.
Proof.
  unfold NumSSTFilesChanged. destruct (mode _); [|intros [= <- <-]; apply harmless_refl]. destruct (peers_map_ q !! _) as [p|] eqn:Hp; [|intros [= <- <-]; apply harmless_refl].
  destruct (NumSSTFilesWatermark _); [|done..]. cbn [obind]. intros [= <- <-]. eapply harmless_put; [done|done|by intros ?; right; split].
Qed.

Lemma done_harmless stored committed applied q q' : majority_change_done committed applied q = Ok q' → harmless stored q q'.
Proof.
  unfold majority_change_done. set (q1 := set_state q _). destruct (local_peer q1) as [l| | |] eqn:El; [|done..]. cbn [obind]. destruct (UpdateAllAppliedOpId _); [|done..]. cbn [obind]. set (l1 := set_committed l _ _). intros [= <-].
  unfold local_peer in El. cbn in El. destruct (peers_map_ q !! _) as [l'|] eqn:Hl; [|done]. injection El as ->.
  eapply (harmless_trans _ _ q1); [by split_and!|]. eapply (harmless_trans _ _ (put_peer q1 (local_peer_uuid_ q1) l1)); [eapply harmless_put; [exact Hl|done|by intros ?; right; split]|]. by split_and!.
Qed.

Lemma prepare_harmless stored cx u q q' pr : RequestForPeer_prepare cx u q = Ok (q', pr) → harmless stored q q'.
Proof.
  unfold RequestForPeer_prepare. destruct (peers_map_ q !! u) as [p|] eqn:Hp; [|done]. destruct (mode _); [|done]. destruct (active_config _); [|done]. cbn [obind]. intros [= <- _].
  eapply harmless_put; [done|by destruct (is_new p)|intros ?; right; split; by destruct (is_new p)].
Qed.

Lemma complete_harmless stored read safe u pr q q' rq : RequestForPeer_complete read safe u pr q = Ok (q', rq) → harmless stored q q'.
Proof.
  unfold RequestForPeer_complete. destruct (pr_bootstrap pr); [intros [= <- _]; apply harmless_refl|]. destruct (_ && _); [|intros [= <- _]; apply harmless_refl].
  destruct (read _ _); [|done..]. cbn [obind]. destruct (peers_map_ q !! u) as [p|] eqn:Hp; [|done]. intros [= <- _]. eapply harmless_put; [done|done|by intros ?; right; split].
Qed.

Lemma reach_replicating q stored start : reach q stored start → replicating q stored start.
Proof.
  induction 1 as [u stored start Hb|q stored start stored' _ IH Hb Hle|q stored start op now q' _ IH E|q stored start u now q' _ IH E|q stored start u _ IH|q stored start _ IH|q stored start committed term applied c now q' stored' _ IH E Hc Hb Ht|q stored start stored' _ IH Hb|q stored start log threshold now u r q' e _ IH Hh E|q stored start log threshold now files op q' e _ IH Hop E|q stored start files q' w _ IH E|q stored start committed applied q' _ IH E|q stored start op _ IH|q stored start op _ IH|q stored start cx u q' pr _ IH E|q stored start read safe u pr q' rq _ IH E|q stored start u _ IH|q stored start u now _ IH|q stored start u q' _ IH E].
  - split; [by intros v p|done|done].
  - destruct IH as [R1 R2 R3]. split; [done|done|]. intros Hm. destruct (R3 Hm) as (c & Hl & Ht & Hmaj). exists c. split_and!; [done| |].
    + intros u p Hp Hcn. specialize (Ht u p Hp Hcn). specialize (Hle u). lia.
    + destruct Hmaj as [?|Hmaj]; [by left|right]. eapply majority_mono; [|exact Hmaj]. cbn. intros u Hu. specialize (Hle u). lia.
  - unfold Init in E. destruct (bool_decide _); [|done]. eapply harmless_replicating; [eapply (track_harmless stored); [apply IH|exact E]|]. eapply harmless_replicating; [|exact IH]. by split_and!.
  - eapply harmless_replicating; [eapply (track_harmless stored); [apply IH|exact E]|done].
  - eapply harmless_replicating; [|exact IH]. split_and!; [done| | |done]; [intros Hk v p|intros Ht v p]; cbn; rewrite lookup_delete_Some; intros [_ Hp]; [by apply Hk|by apply Ht].
  - eapply harmless_replicating; [|exact IH]. by split_and!.
  - by eapply leader_replicating; [..|apply IH].
  - split; [apply IH|done|done].
  - by eapply response_replicating.
  - by eapply local_replicating.
  - eapply harmless_replicating; [by eapply files_harmless|done].
  - eapply harmless_replicating; [by eapply done_harmless|done].
  - eapply harmless_replicating; [|exact IH]. unfold append_start. destruct (_ <? _); by split_and!.
  - eapply harmless_replicating; [|exact IH]. by split_and!.
  - eapply harmless_replicating; [by eapply prepare_harmless|done].
  - eapply harmless_replicating; [by eapply complete_harmless|done].
  - eapply harmless_replicating; [|exact IH]. unfold RequestWasNotSent. destruct (peers_map_ q !! u) as [p|] eqn:Hp; [|by split_and!]. destruct (bool_decide _); [by split_and!|]. eapply harmless_put; [done|done|by intros ?; right; split].
  - eapply harmless_replicating; [|exact IH]. unfold NotifyPeerIsResponsiveDespiteError. destruct (peers_map_ q !! u) as [p|] eqn:Hp; [|by split_and!]. eapply harmless_put; [done|done|by intros ?; right; split].
  - eapply harmless_replicating; [|exact IH]. unfold GetRemoteBootstrapRequestForPeer in E. destruct (peers_map_ q !! u) as [p|] eqn:Hp; [|done]. destruct (mode _); [|done]. destruct (negb _); [done|]. injection E as <-. eapply harmless_put; [done|done|by intros ?; right; split].
Qed.

End Watermarks.

(** ** A run *)

Definition sample_peer (u : Z) : RaftPeerPB := Peer (Some [u]) (Some VOTER) [{| host := [u]; port := 1 |}] [].
Definition sample_config : RaftConfigPB := Config (Some 1) [sample_peer 1; sample_peer 2; sample_peer 3].

Lemma sample_config_ok : config_ok sample_config.
Proof. apply (verify_config_spec sample_config COMMITTED_QUORUM). vm_compute. reflexivity. Qed.

(** A log whose operations have the given terms, from index 7 on. *)
Definition sample_log (terms : list Z) : LogCache := {|
  LookupOpId i := match (if i <? 7 then None else terms !! Z.to_nat (i - 7)) with Some t => Ok (OpId.mk t i) | None => Err NotFound end;
  HasOpBeenWritten i := i <? 7 + Z.of_nat (length terms);
  cdc_op_id_to_evict := OpId.Max |}.

Definition got {X} (d : X) (o : outcome X) : X := match o with Ok x => x | _ => d end.

Definition sample_response (op : OpId.t) (term : Z) : ConsensusResponsePB := {|
  error := None;
  status := Some {| st_last_received := op; st_last_received_current_leader := op; st_last_committed_idx := 7; st_last_applied := OpId.mk 1 7; st_error := None |};
  responder_term := Some term; response_num_sst_files := 0 |}.

(** Voter 1 leads term 1 with operation 7 committed, and appends operation 8. *)
Definition run1 : queue := got (NewQueue [1]) (Init (OpId.mk 1 7) 0 (NewQueue [1])).
Definition run2 : queue := got run1 (SetLeaderMode (OpId.mk 1 7) 1 (OpId.mk 1 7) sample_config 0 run1).
Definition run3 : queue := got run2 (TrackPeerUnlocked [2] 0 run2).
Definition run4 : queue := (got (run3, no_effects false) (LocalPeerAppendFinished (sample_log [1; 1]) 0 0 0 (OpId.mk 1 8) run3)).1.
(** Voter 2 has it too. *)
Definition run5 : outcome (queue * Effects) := ResponseFromPeer (sample_log [1; 1]) 0 1 [2] (sample_response (OpId.mk 1 8) 1) run4.
Definition run5_queue : queue := (got (run4, no_effects false) run5).1.

(** The next request to voter 2 has a lease, which it acknowledges. *)
Definition sample_context : RequestContext := {|
  now_ht := 0; coarse_now := 1000; mono_now := 2; leader_lease_duration := 2000; ht_lease_duration_micros := 2000; clock_precision := 1; exponential_backoff := true; considered_failed := 900 |}.
Definition run6 : queue := (got (run5_queue, {| pr_is_new := true; pr_lease := None; pr_preceding := OpId.Min; pr_committed := OpId.Min; pr_term := 0; pr_bootstrap := false; previously_sent_index := 0; ops_to_send := None; pr_failed := false |})
  (RequestForPeer_prepare sample_context [2] run5_queue)).1.
Definition run7 : queue := (got (run6, no_effects false) (ResponseFromPeer (sample_log [1; 1]) 0 3 [2] (sample_response (OpId.mk 1 8) 1) run6)).1.

Definition sample_stored (u : bytes) : Z := if bool_decide (u = [1] ∨ u = [2]) then 8 else 0.

Lemma sample_bounded : bounded sample_stored.
Proof. intros u. unfold sample_stored. case_bool_decide; lia. Qed.

Lemma run4_reach : reach run4 sample_stored (OpId.mk 1 7).
Proof.
  eapply (r_local run3 _ _ (sample_log [1; 1]) 0 0 0 (OpId.mk 1 8)); [|vm_compute; congruence|vm_compute; reflexivity].
  eapply (r_track run2 _ _ [2] 0); [|vm_compute; reflexivity].
  eapply (r_leader run1 sample_stored (OpId.mk 1 7) (OpId.mk 1 7) 1 (OpId.mk 1 7) sample_config 0); [|vm_compute; reflexivity|apply sample_config_ok|apply sample_bounded|].
  - eapply (r_init (NewQueue [1]) _ _ (OpId.mk 1 7) 0); [apply r_new, sample_bounded|vm_compute; reflexivity].
  - intros u p H _. assert (Hr : last_received p = OpId.Min); [|rewrite Hr; apply sample_bounded]. apply elem_of_map_to_list in H. revert H. vm_compute. intros H. apply list_elem_of_In in H. destruct H as [[= <- <-]|[]]. done.
Qed.

(** ** Properties *)

(** A watermark is the greatest value that a majority has: unless it is the
    value for too few peers, a majority of the voters has reached it (the local
    one counts without being asked for leases), and no value that as many of the
    peers that answer have reached is above it.  This holds for the watermarks of
    operations, of both leases and of files alike. *)
Theorem watermark_of_majority {N : NthElement} {HN : NthElementSpec N} {X} (policy : Policy X) q c v :
  weak_order (Comparator policy) → leads q c → GetWatermark policy q = Ok v →
  (v = NotEnoughPeersValue policy ∨ majority_of c (reached policy q v)) ∧
  (∀ v', is_Some (peers_map_ q !! local_peer_uuid_ q) → (infinite_local policy = true → MajoritySize (CountVoters c) ≠ 1) →
     MajoritySize (CountVoters c) <=
       Z.of_nat (length (List.filter (λ p, negb (Comparator policy (ExtractValue policy p) v')) (counted q c (infinite_local policy)))) + Z.b2z (infinite_local policy) →
     Comparator policy v v' = false).
Proof. intros Hw Hl E. split; [by apply watermark_majority|]. intros v' ? ? ?. by eapply watermark_greatest. Qed.

(** C6: Every operation the leader reports as replicated by a majority, on a
    response of a peer or of its own log, is stored by a majority of the voters,
    or was committed when its leadership began; provided that responses without
    an error and what the queue knew of its peers when the leadership began are
    true of their logs. *)
Theorem majority_replicated_stored {N : NthElement} {HN : NthElementSpec N} q stored start log threshold now u r q' e data c :
  reach q stored start → mode (queue_state_ q) = LEADER_MODE → active_config (queue_state_ q) = Some c → honest log stored u r q →
  ResponseFromPeer log threshold now u r q = Ok (q', e) → majority_change e = Some data →
  op_id data = start ∨ on_majority c stored (op_id data).
Proof.
  intros Hq Hm Hc Hh E Hd. apply reach_replicating in Hq as HR. destruct (response_replicating _ _ _ _ _ _ _ _ _ _ E Hh HR) as [HR' Hdata]. rewrite (Hdata data Hd). clear HR Hdata.
  assert (Hs : mode (queue_state_ q') = LEADER_MODE ∧ active_config (queue_state_ q') = Some c) by (destruct (response_similar _ _ _ _ _ _ _ _ E) as [_ Sm Sc _]; by rewrite Sm, Sc).
  destruct Hs as [Hm' Hc']. destruct (rp_leader _ _ _ HR' Hm') as (c' & Hl & _ & Hmaj). rewrite (ld_config _ _ Hl) in Hc'. injection Hc' as ->. done.
Qed.

(** C20: A lease reported for a majority meets every majority of votes: among the
    voters of any won election there is the leader itself or one that has
    acknowledged a lease at least as long. *)
Theorem lease_meets_votes {N : NthElement} {HN : NthElementSpec N} q stored start c w votes :
  reach q stored start → mode (queue_state_ q) = LEADER_MODE → active_config (queue_state_ q) = Some c →
  LeaderLeaseExpirationWatermark q = Ok w → kCoarseMin < w → majority_of c votes →
  ∃ u, votes u ∧ (u = local_peer_uuid_ q ∨ ∃ p, peers_map_ q !! u = Some p ∧ w <= last_acked (leader_lease_expiration p)).
Proof.
  intros Hq Hm Hc E Hw (s & Hs1 & Hs2 & Hs3). apply reach_replicating in Hq as HR. destruct (rp_leader _ _ _ HR Hm) as (c' & Hl & _ & _). rewrite (ld_config _ _ Hl) in Hc. injection Hc as ->.
  destruct (watermark_majority LeaderLeasePolicy q c w ltb_weak_order Hl E) as [->|(t & Ht1 & Ht2 & Ht3)]; [cbn in Hw; lia|].
  destruct (majorities_intersect c s t (ld_ok _ _ Hl) Hs1 Ht1) as (u & Hu & Hu'); [intros u Hu; by apply Hs2|intros u Hu; by apply Ht2|done|done|]. exists u. split; [by apply Hs2|].
  destruct (Ht2 u Hu') as [_ [[_ ->]|(p & Hp & _ & Hle)]]; [by left|right]. exists p. split; [done|]. cbn in Hle. apply Z.ltb_ge in Hle. destruct (Z.eqb_spec (last_acked (leader_lease_expiration p)) kCoarseInitial); cbn [negb] in Hle; [lia|done].
Qed.

Lemma watermark_of_majority_witness :
  OpIdWatermark run5_queue = Ok (OpId.mk 1 8) ∧ majority_of sample_config (reached OpIdPolicy run5_queue (OpId.mk 1 8)).
Proof.
  split; [vm_compute; reflexivity|]. destruct (watermark_of_majority OpIdPolicy run5_queue sample_config (OpId.mk 1 8)) as [[H|H] _]; [apply index_weak_order| |vm_compute; reflexivity|done|exact H].
  destruct (rp_leader run5_queue sample_stored (OpId.mk 1 7)) as (c & Hl & _); [|reflexivity|].
  - eapply reach_replicating, (r_response run4 _ _ (sample_log [1; 1]) 0 1 [2] (sample_response (OpId.mk 1 8) 1)); [apply run4_reach|intros p _ _; left; vm_compute; congruence|vm_compute; reflexivity].
  - pose proof (ld_config _ _ Hl) as E. vm_compute in E. injection E as <-. exact Hl.
Defined.

Lemma majority_replicated_stored_witness : on_majority sample_config sample_stored (OpId.mk 1 8).
Proof.
  destruct (majority_replicated_stored run4 sample_stored (OpId.mk 1 7) (sample_log [1; 1]) 0 1 [2] (sample_response (OpId.mk 1 8) 1) run5_queue
    (got (run4, no_effects false) run5).2 {| op_id := OpId.mk 1 8; majority_lease_expiration := kCoarseMin; majority_ht_lease_expiration := 0; majority_num_sst_files := 0; peer_got_all_ops := [] |} sample_config) as [H|H].
  - apply run4_reach.
  - reflexivity.
  - reflexivity.
  - intros p _ _. left. vm_compute. congruence.
  - vm_compute. reflexivity.
  - vm_compute. reflexivity.
  - discriminate H.
  - exact H.
Defined.

Lemma lease_meets_votes_witness :
  LeaderLeaseExpirationWatermark run7 = Ok 2998 ∧
  ∃ u, (u = [2] ∨ u = [3]) ∧ (u = [1] ∨ ∃ p, peers_map_ run7 !! u = Some p ∧ 2998 <= last_acked (leader_lease_expiration p)).
Proof.
  split; [vm_compute; reflexivity|]. apply (lease_meets_votes run7 sample_stored (OpId.mk 1 7) sample_config 2998 (λ u, u = [2] ∨ u = [3])).
  - eapply (r_response run6 _ _ (sample_log [1; 1]) 0 3 [2] (sample_response (OpId.mk 1 8) 1)); [|intros p _ _; left; vm_compute; congruence|vm_compute; reflexivity].
    eapply (r_prepare run5_queue _ _ sample_context [2]); [|vm_compute; reflexivity].
    eapply (r_response run4 _ _ (sample_log [1; 1]) 0 1 [2] (sample_response (OpId.mk 1 8) 1)); [apply run4_reach|intros p _ _; left; vm_compute; congruence|vm_compute; reflexivity].
  - reflexivity.
  - reflexivity.
  - vm_compute. reflexivity.
  - reflexivity.
  - exists [[2]; [3]]. split; [|split; [|vm_compute; congruence]].
    + apply (bool_decide_unpack _). vm_compute. exact I.
    + intros u Hu. apply list_elem_of_In in Hu. destruct Hu as [<-|[<-|[]]]; (split; [apply (bool_decide_unpack _); vm_compute; exact I|tauto]).
Defined.

(** Voter 1 leads term 1 and appends operations up to 10 there; follows in term 2,
    whose leader overwrites its log from 8 on, with operation 8 only; then leads
    term 3 and sends operation 9, which voter 2 has stored while its own log has
    not written it yet. *)
Definition stale1 : queue := (got (run2, no_effects false) (LocalPeerAppendFinished (sample_log [1; 1; 1; 1]) 0 0 0 (OpId.mk 1 10) run2)).1.
Definition stale2 : queue := (got (stale1, no_effects false) (LocalPeerAppendFinished (sample_log [1; 2]) 0 0 0 (OpId.mk 2 8) (append_end (OpId.mk 2 8) (append_start (OpId.mk 2 8) (SetNonLeaderMode stale1))))).1.
Definition stale3 : queue := got stale2 (SetLeaderMode (OpId.mk 1 7) 3 (OpId.mk 1 7) sample_config 0 stale2).
Definition stale4 : queue := append_end (OpId.mk 3 9) (append_start (OpId.mk 3 9) (got stale3 (TrackPeerUnlocked [2] 0 stale3))).
Definition stale_stored (u : bytes) : Z := if bool_decide (u = [2]) then 9 else if bool_decide (u = [1]) then 8 else 0.

(** What happens to the queue of a replica that follows. *)
Inductive follows_from (q : queue) : queue → Prop :=
  | follow_start : follows_from q (SetNonLeaderMode q)
  | follow_append q' o : follows_from q q' → follows_from q (append_end o (append_start o q'))
  | follow_written q' log threshold now files o q'' e : follows_from q q' → LocalPeerAppendFinished log threshold now files o q' = Ok (q'', e) → follows_from q q''
  | follow_untrack q' u : follows_from q q' → u ≠ local_peer_uuid_ q → follows_from q (UntrackPeer u q').

Lemma follows_keeps q q' :
  follows_from q q' →
  local_peer_uuid_ q' = local_peer_uuid_ q ∧ mode (queue_state_ q') = NON_LEADER_MODE ∧ peers_map_ q' !! local_peer_uuid_ q = peers_map_ q !! local_peer_uuid_ q.
Proof.
  induction 1 as [|q' o _ (H1 & H2 & H3)|q' log threshold now files o q'' e _ (H1 & H2 & H3) E|q' u _ (H1 & H2 & H3) Hu]; [done|..].
  - unfold append_end, append_start. by case_match.
  - unfold LocalPeerAppendFinished in E. rewrite H2 in E. injection E as <- _. by case_match.
  - split_and!; [done..|]. cbn [UntrackPeer peers_map_ set_peers]. by rewrite lookup_delete_ne.
Qed.

(** C37: The position of the local peer is neither updated while a replica follows
    nor reset when it becomes the leader: whatever its log has written or replaced
    in between, the queue of the new leader counts the local log with the last
    operation it finished when it led before.  That operation can have been
    overwritten since; then the queue can report an operation as replicated by a
    majority that one voter of three has stored. *)
Theorem stale_local_position :
  (∀ q p q' committed term applied c now q'',
     peers_map_ q !! local_peer_uuid_ q = Some p → follows_from q q' → SetLeaderMode committed term applied c now q' = Ok q'' →
     ∃ p', peers_map_ q'' !! local_peer_uuid_ q'' = Some p' ∧ last_received p' = last_received p ∧
       is_last_exchange_successful p' = is_last_exchange_successful p ∧ last_appended (queue_state_ q'') = last_appended (queue_state_ q')) ∧
  ∃ q e data, ResponseFromPeer (sample_log [1; 2; 3]) 0 1 [2] (sample_response (OpId.mk 3 9) 3) stale4 = Ok (q, e) ∧
    majority_change e = Some data ∧ op_id data = OpId.mk 3 9 ∧ honest (sample_log [1; 2; 3]) stale_stored [2] (sample_response (OpId.mk 3 9) 3) stale4 ∧
    last_received <$> peers_map_ stale4 !! [1] = Some (OpId.mk 1 10) ∧ IsOpInLog (sample_log [1; 2; 3]) (OpId.mk 1 10) = Ok false ∧
    ¬ on_majority sample_config stale_stored (op_id data).
Proof.
  split.
  - intros q p q' committed term applied c now q'' Hp Hf E. destruct (follows_keeps q q' Hf) as (H1 & _ & H3). rewrite Hp in H3.
    unfold SetLeaderMode in E. destruct (IsRaftConfigVoter _ _); [|done]. cbn [obind] in E. destruct (CheckPeersInActiveConfigIfLeaderUnlocked _) as [|?| |]; [|done..]. cbn [obind] in E.
    injection E as <-. exists (reset_leases now p). cbn [set_peers peers_map_ local_peer_uuid_ set_state queue_state_ last_appended]. split; [|done]. by rewrite lookup_fmap, H1, H3.
  - do 3 eexists. split; [vm_compute; reflexivity|]. split; [reflexivity|]. split; [reflexivity|]. split; [intros p _ _; left; vm_compute; congruence|]. split; [vm_compute; reflexivity|]. split; [vm_compute; reflexivity|].
    intros (s & Hn & Hs & Hl). assert (Hsub : s ⊆ [[2]]). { intros u Hu. destruct (Hs u Hu) as [_ H]. unfold stale_stored in H. apply list_elem_of_singleton. case_bool_decide as E; [done|]. case_bool_decide; vm_compute in H; congruence. }
    assert (length s ≤ 1)%nat by (apply (submseteq_length s [[2]]), NoDup_submseteq; done). assert (E : MajoritySize (CountVoters sample_config) = 2) by (vm_compute; reflexivity). lia.
Qed.

Lemma stale_local_position_witness :
  ∃ p, peers_map_ stale3 !! [1] = Some p ∧ last_received p = OpId.mk 1 10 ∧ last_appended (queue_state_ stale3) = OpId.mk 2 8.
Proof.
  assert (Hf : follows_from stale1 stale2).
  { eapply (follow_written stale1 (append_end (OpId.mk 2 8) (append_start (OpId.mk 2 8) (SetNonLeaderMode stale1))) (sample_log [1; 2]) 0 0 0 (OpId.mk 2 8)).
    - apply follow_append, follow_start.
    - vm_compute. reflexivity. }
  destruct (peers_map_ stale1 !! local_peer_uuid_ stale1) as [p|] eqn:Ep; [|vm_compute in Ep; discriminate].
  destruct (proj1 stale_local_position stale1 p stale2 (OpId.mk 1 7) 3 (OpId.mk 1 7) sample_config 0 stale3 Ep Hf) as (p' & H1 & H2 & _ & H4); [vm_compute; reflexivity|].
  exists p'. split; [exact H1|]. split; [rewrite H2; vm_compute in Ep; injection Ep as <-; reflexivity|]. rewrite H4. vm_compute. reflexivity.
Defined.

End PeerWatermarks.
