(* ===== verification/PendingOperations.v ===== *)
(** * Pending operations of a replica

    Models the operations of consensus/replica_state.cc that add, commit and abort
    the rounds of the log, and [AppendNewRoundsToQueueUnlocked] of
    consensus/raft_consensus.cc, with the record of [RetryableRequests] they keep.
    Methods hold the lock of the replica.  What is outside of this state is in
    [Env]: the clock, the lease check, the configuration, the log. *)

From S2P Require Import Prelude RaftConfig RetryableRequests.

Module PendingOperations.
Import RetryableRequests.
#[local] Existing Instance OpId.t_eq_dec.

Inductive OperationType :=
  | UNKNOWN_OP | NO_OP | WRITE_OP | CHANGE_METADATA_OP | CHANGE_CONFIG_OP | UPDATE_TRANSACTION_OP
  | SNAPSHOT_OP | TRUNCATE_OP | HISTORY_CUTOFF_OP | SPLIT_OP.
#[export] Instance OperationType_eq_dec : EqDecision OperationType.
Proof. solve_decision. Defined.

Record Operation := Op { op_type : OperationType; op_round : Round }.

Definition op_id (o : Operation) : OpId.t := id (replicate_msg (op_round o)).

(** The round with its place in the log. *)
Definition with_id (o : Operation) (i : OpId.t) : Operation :=
  let r := op_round o in
  Op (op_type o) {| round_number := round_number r; bound_term := bound_term r; replicate_msg := {| id := i; write_request := write_request (replicate_msg r) |} |}.

Inductive ReplicaPhase := kInitialized | kRunning | kShuttingDown | kShutDown.
#[export] Instance ReplicaPhase_eq_dec : EqDecision ReplicaPhase.
Proof. solve_decision. Defined.

Record replica := Replica {
  phase : ReplicaPhase;
  current_term : Z;
  pending_operations_ : list Operation;
  last_committed_op_id_ : OpId.t;
  last_received_op_id_ : OpId.t;
  last_received_op_id_current_leader_ : OpId.t;
  next_index_ : Z;
  split_op_id : OpId.t;
  requests : state;
}.

(** The environment of a call. *)
Record Env := {
  range_limit : Z;
  clock_now : Z;
  leader_term : Z;
  lease_refused : Operation → bool;
  mark_pending_config : Operation → outcome ();
  apply_config_change : Operation → outcome ();
  split_of_this_tablet : Operation → bool;
  should_apply_write : Operation → bool;
  safe_op_id_waiter : option (OpId.t → OpId.t);
}.

Definition set_pending (R : replica) (l : list Operation) (rr : state) : replica :=
  Replica (phase R) (current_term R) l (last_committed_op_id_ R) (last_received_op_id_ R) (last_received_op_id_current_leader_ R) (next_index_ R) (split_op_id R) rr.
Definition set_committed (R : replica) (o : OpId.t) : replica :=
  Replica (phase R) (current_term R) (pending_operations_ R) o (last_received_op_id_ R) (last_received_op_id_current_leader_ R) (next_index_ R) (split_op_id R) (requests R).
Definition set_received (R : replica) (received current : OpId.t) (next : Z) : replica :=
  Replica (phase R) (current_term R) (pending_operations_ R) (last_committed_op_id_ R) received current next (split_op_id R) (requests R).
Definition set_split (R : replica) (o : OpId.t) : replica :=
  Replica (phase R) (current_term R) (pending_operations_ R) (last_committed_op_id_ R) (last_received_op_id_ R) (last_received_op_id_current_leader_ R) (next_index_ R) o (requests R).

(** A new term, once the metadata is written. *)
Definition set_current_term (R : replica) (t : Z) : replica :=
  Replica (phase R) t (pending_operations_ R) (last_committed_op_id_ R) (last_received_op_id_ R) OpId.Min (next_index_ R) (split_op_id R) (requests R).

(** ** Completing a round *)

(** The round and the rounds that waited for it are told, in this order. *)
Definition NotifyReplicationFinishedUnlocked (env : Env) (o : Operation) (status : Status) (term : Z) (rr : state) : list Notification * state :=
  let r := ReplicationFinished (range_limit env) (replicate_msg (op_round o)) status term rr in
  ((op_round o, status, term) :: r.1, r.2).

Fixpoint notify_all (env : Env) (l : list Operation) (status : Status) (term : Z) (rr : state) : list Notification * state :=
  match l with
  | [] => ([], rr)
  | o :: l =>
      let r := NotifyReplicationFinishedUnlocked env o status term rr in
      let r' := notify_all env l status term r.2 in
      (r.1 ++ r'.1, r'.2)
  end.

(** The code of [STATUS(Aborted)]. *)
Definition kAborted : Z := 11.

(** ** Adding an operation *)

Definition CheckPendingOperationsHead (R : replica) : bool :=
  match pending_operations_ R with
  | [] => true
  | o :: _ => OpId.empty (last_committed_op_id_ R) || (OpId.index (op_id o) =? OpId.index (last_committed_op_id_ R) + 1)
  end.

Definition ShouldAllowOpAfterSplitTablet (t : OperationType) : bool := match t with NO_OP => true | _ => false end.

Inductive AddResult := Added | BeforeSplit | NotRunning | AfterSplit | NoLease | ConfigChangePending | DuplicateRequest | WrongTablet.
#[export] Instance AddResult_eq_dec : EqDecision AddResult.
Proof. solve_decision. Defined.

Definition push_pending (o : Operation) (rr : state) (notes : list Notification) (R : replica) : outcome (AddResult * list Notification * replica) :=
  let R := set_pending R (pending_operations_ R ++ [o]) rr in
  check! CheckPendingOperationsHead R in
  Ok (Added, notes, R).

Definition AddPendingOperation (env : Env) (o : Operation) (R : replica) : outcome (AddResult * list Notification * replica) :=
  if negb (OpId.operator_lt (split_op_id R) (op_id o)) then Ok (BeforeSplit, [], R)
  else if negb (bool_decide (phase R = kRunning)) && negb (bool_decide (op_type o = NO_OP)) then Ok (NotRunning, [], R)
  else if negb (OpId.empty (split_op_id R)) && negb (ShouldAllowOpAfterSplitTablet (op_type o)) then Ok (AfterSplit, [], R)
  else if lease_refused env o then Ok (NoLease, [], R)
  else
    match op_type o with
    | CHANGE_CONFIG_OP =>
        match mark_pending_config env o with
        | Ok _ => push_pending o (requests R) [] R
        | Err _ => Ok (ConfigChangePending, [], R)
        | Fatal => Fatal
        | UB => UB
        end
    | WRITE_OP =>
        let r := Register (op_round o) 0 (clock_now env) (requests R) in
        if r.1.1 then push_pending o r.2 r.1.2 R
        else Ok (DuplicateRequest, r.1.2, set_pending R (pending_operations_ R) r.2)
    | SPLIT_OP =>
        if split_of_this_tablet env o then push_pending o (requests R) [] (set_split R (op_id o)) else Ok (WrongTablet, [], R)
    | _ => push_pending o (requests R) [] R
    end.

Definition NewIdUnlocked (R : replica) : OpId.t * replica :=
  (OpId.mk (current_term R) (next_index_ R), set_received R (last_received_op_id_ R) (last_received_op_id_current_leader_ R) (next_index_ R + 1)).

Definition CancelPendingOperation (i : OpId.t) (should_exist : bool) (R : replica) : outcome replica :=
  check! current_term R =? OpId.term i in
  check! next_index_ R =? OpId.index i + 1 in
  let R := if bool_decide (i = split_op_id R) then set_split R OpId.Min else R in
  let R := set_received R (OpId.mk (OpId.term i) (OpId.index i - 1)) (last_received_op_id_current_leader_ R) (OpId.index i) in
  if should_exist then
    match pending_operations_ R with
    | [] => UB
    | l => Ok (set_pending R (removelast l) (requests R))
    end
  else Ok R.

Definition UpdateLastReceivedOpIdUnlocked (i : OpId.t) (R : replica) : replica := set_received R i i (OpId.index i + 1).

(** ** Appending rounds of a leader *)

(** Ids are released in the reverse order, the last operation first. *)
Fixpoint rollback (added : list Operation) (R : replica) : outcome replica :=
  match added with
  | [] => Ok R
  | o :: l => let! R := CancelPendingOperation (op_id o) true R in rollback l R
  end.

(** The loop: the operations added, the last first, or why it stopped. *)
Fixpoint add_rounds (env : Env) (rounds added : list Operation) (R : replica) : outcome (AddResult * list Operation * list Notification * replica) :=
  match rounds with
  | [] => Ok (Added, added, [], R)
  | o :: rest =>
      let (i, R) := NewIdUnlocked R in
      let o := with_id o i in
      let! (res, notes, R) := AddPendingOperation env o R in
      match res with
      | Added =>
          let! (res, added, notes', R) := add_rounds env rest (o :: added) R in
          Ok (res, added, notes ++ notes', R)
      | DuplicateRequest =>
          let! R := CancelPendingOperation i false R in
          let! (res, added, notes', R) := add_rounds env rest added R in
          Ok (res, added, notes ++ notes', R)
      | e =>
          let! R := CancelPendingOperation i false R in
          let! R := rollback added R in
          Ok (e, [], notes, R)
      end
  end.

Inductive AppendStatus := AppendOk | ServiceUnavailable | AppendFailed.
Inductive AppendResult := Appended | NotAdded (e : AddResult) | NotAppended (s : AppendStatus).

(** [append] is the answer of the queue. *)
Definition AppendNewRoundsToQueueUnlocked (env : Env) (append : list Operation → AppendStatus) (rounds : list Operation) (R : replica)
    : outcome (AppendResult * list Notification * replica) :=
  let! (res, added, notes, R) := add_rounds env rounds [] R in
  match res with
  | Added =>
      match added with
      | [] => Ok (Appended, notes, R)
      | last :: _ =>
          match append (rev added) with
          | AppendOk => Ok (Appended, notes, UpdateLastReceivedOpIdUnlocked (op_id last) R)
          | ServiceUnavailable => let! R := rollback added R in Ok (NotAppended ServiceUnavailable, notes, R)
          | AppendFailed => Ok (NotAppended AppendFailed, notes, R)
          end
      end
  | e => Ok (NotAdded e, notes, R)
  end.

(** ** Committing *)

Definition CheckOpInSequence (previous current : OpId.t) : bool :=
  (OpId.term previous <=? OpId.term current) && (OpId.index current =? OpId.index previous + 1).

Definition SetLastCommittedIndexUnlocked (o : OpId.t) (R : replica) : outcome replica :=
  check! OpId.index o <=? OpId.index (last_received_op_id_ R) in
  let R := set_committed R o in
  check! CheckPendingOperationsHead R in
  Ok R.

(** The progress of the loop: the last operation committed, what is left, and
    whether it stopped with an error. *)
Record Applied := MkApplied { ap_prev : OpId.t; ap_left : list Operation; ap_requests : state; ap_notes : list Notification; ap_ok : bool }.

(** Whether the loop goes on with an operation that is not a write, and how far it may go without asking. *)
Definition safe_to_apply (env : Env) (max_allowed cur : OpId.t) : outcome (bool * OpId.t) :=
  if (OpId.index max_allowed <? OpId.index cur) || (OpId.term max_allowed <? OpId.term cur) then
    match safe_op_id_waiter env with
    | None => UB
    | Some wait =>
        let m := wait cur in
        Ok (negb ((OpId.index m <? OpId.index cur) || (OpId.term m <? OpId.term cur)), m)
    end
  else Ok (true, max_allowed).

Fixpoint apply_loop (env : Env) (committed : OpId.t) (could_stop : bool) (prev max_allowed : OpId.t) (l : list Operation) (rr : state) : outcome Applied :=
  match l with
  | [] => Ok (MkApplied prev [] rr [] true)
  | o :: rest =>
      let cur := op_id o in
      check! OpId.empty prev || CheckOpInSequence prev cur in
      if OpId.index committed <? OpId.index cur then Ok (MkApplied prev l rr [] true)
      else if bool_decide (op_type o = WRITE_OP) && could_stop && negb (should_apply_write env o) then Ok (MkApplied prev l rr [] true)
      else
        let! (go, max_allowed) := if bool_decide (op_type o = WRITE_OP) then Ok (true, max_allowed) else safe_to_apply env max_allowed cur in
        if negb go then Ok (MkApplied prev l rr [] false)
        else
          let! _ := if bool_decide (op_type o = CHANGE_CONFIG_OP) then apply_config_change env o else Ok () in
          let n := NotifyReplicationFinishedUnlocked env o OK (leader_term env) rr in
          let! a := apply_loop env committed could_stop cur max_allowed rest n.2 in
          Ok (MkApplied (ap_prev a) (ap_left a) (ap_requests a) (n.1 ++ ap_notes a) (ap_ok a))
  end.

Definition ApplyPendingOperationsUnlocked (env : Env) (committed : OpId.t) (could_stop : bool) (R : replica) : outcome (bool * list Notification * replica) :=
  let max_allowed := match safe_op_id_waiter env with None => OpId.mk 0 (2 ^ 63 - 1) | Some _ => OpId.Min end in
  let! a := apply_loop env committed could_stop (last_committed_op_id_ R) max_allowed (pending_operations_ R) (requests R) in
  let! R := SetLastCommittedIndexUnlocked (ap_prev a) (set_pending R (ap_left a) (ap_requests a)) in
  Ok (ap_ok a, ap_notes a, R).

Inductive AdvanceResult := Changed (b : bool) | NoPendingEntries | ApplyFailed.

Definition AdvanceCommittedOpIdUnlocked (env : Env) (committed : OpId.t) (could_stop : bool) (R : replica) : outcome (AdvanceResult * list Notification * replica) :=
  if OpId.index committed <=? OpId.index (last_committed_op_id_ R) then Ok (Changed false, [], R)
  else
    match pending_operations_ R with
    | [] => Ok (NoPendingEntries, [], R)
    | _ =>
        check! CheckPendingOperationsHead R in
        let! (ok, notes, R') := ApplyPendingOperationsUnlocked env committed could_stop R in
        Ok (if ok : bool then Changed (negb (OpId.index (last_committed_op_id_ R') =? OpId.index (last_committed_op_id_ R))) else ApplyFailed, notes, R')
    end.

(** [None] when the replica is not running. *)
Definition UpdateMajorityReplicatedUnlocked (env : Env) (majority_replicated : OpId.t) (R : replica) : outcome (option AdvanceResult * list Notification * replica) :=
  if negb (bool_decide (phase R = kRunning)) then Ok (None, [], R)
  else if (OpId.term (last_committed_op_id_ R) =? current_term R) || (OpId.term majority_replicated =? current_term R) then
    let! (res, notes, R) := AdvanceCommittedOpIdUnlocked env majority_replicated false R in
    Ok (Some res, notes, R)
  else Ok (Some (Changed false), [], R).

Definition InitCommittedOpIdUnlocked (env : Env) (committed : OpId.t) (R : replica) : outcome (bool * list Notification * replica) :=
  if negb (OpId.empty (last_committed_op_id_ R)) then Ok (false, [], R)
  else
    let! (ok, notes, R) :=
      match pending_operations_ R with
      | o :: _ => if OpId.index (op_id o) <=? OpId.index committed then ApplyPendingOperationsUnlocked env committed false R else Ok (true, [], R)
      | [] => Ok (true, [], R)
      end in
    if negb ok then Ok (false, notes, R)
    else let! R := SetLastCommittedIndexUnlocked committed R in Ok (true, notes, R).

(** ** Aborting *)

(** The number of operations up to the one with an index. *)
Definition FindPendingOperation (index : Z) (l : list Operation) : option nat :=
  match l with
  | [] => None
  | o :: _ =>
      let offset := u64 (index - OpId.index (op_id o)) in
      if Z.of_nat (length l) <=? offset then None else Some (Z.to_nat offset)
  end.

Definition AbortOpsAfterUnlocked (env : Env) (new_preceding_idx : Z) (R : replica) : outcome (list Notification * replica) :=
  let l := pending_operations_ R in
  let! (keep, new_preceding) :=
    match FindPendingOperation new_preceding_idx l with
    | Some n => match l !! n with Some o => Ok (S n, op_id o) | None => UB end
    | None =>
        check! new_preceding_idx =? OpId.index (last_committed_op_id_ R) in
        Ok (match l with o :: _ => if new_preceding_idx <? OpId.index (op_id o) then 0%nat else length l | [] => 0%nat end, last_committed_op_id_ R)
    end in
  let n := notify_all env (drop keep l) (Failed kAborted) OpId.kUnknownTerm (requests R) in
  let R := set_pending (set_received R new_preceding new_preceding (OpId.index new_preceding + 1)) (take keep l) n.2 in
  check! CheckPendingOperationsHead R in
  Ok (n.1, R).

(** At shutdown; the operations stay in the list. *)
Definition CancelPendingOperations (env : Env) (R : replica) : option (list Notification * replica) :=
  if negb (bool_decide (phase R = kShuttingDown)) then None
  else
    let n := notify_all env (pending_operations_ R) (Failed kAborted) OpId.kUnknownTerm (requests R) in
    Some (n.1, set_pending R (pending_operations_ R) n.2).

End PendingOperations.
