(* ===== verification/PendingRuns.v ===== *)
(** * Commits, aborts and retried requests

    Runs of a replica of [PendingOperations]: operations are committed in the
    order of the log, and the record of the requests of clients follows the rounds
    that are in flight. *)

From S2P Require Import Prelude RaftConfig RetryableRequests Retries PendingOperations.

Module PendingRuns.
Import RetryableRequests Retries PendingOperations.
#[local] Existing Instance OpId.t_eq_dec.

Definition data_of (o : Operation) : option (WriteRequest * OpId.t) := FromMsg (replicate_msg (op_round o)).

Lemma data_op o w op : data_of o = Some (w, op) → op = op_id o.
Proof. unfold data_of, FromMsg, op_id. destruct (write_request _) as [w0|]; [|done]. destruct (IsNil _); [done|]. by intros [= _ <-]. Qed.

(** Operations that were taken back: their batch was not appended. *)
Abbreviation taken := (Operation → Prop).

(** The record of requests knows exactly the rounds of [P], and some of [gone], as
    running, and its ranges name operations up to [b]. *)
Record linked (gone : taken) (rr : state) (P : list Operation) (b : Z) : Prop := {
  lk_wf : wf_state rr;
  lk_nodup : NoDup (op_id <$> P);
  lk_pending o w op : o ∈ P → data_of o = Some (w, op) → ∃ q, find_running (request_id w) (running (client_of rr (client_id w))) = Some q ∧ run_op q = op;
  lk_running c q : q ∈ running (client_of rr c) → ∃ o w, (o ∈ P ∨ gone o) ∧ data_of o = Some (w, run_op q) ∧ client_id w = c ∧ request_id w = run_id q;
  lk_ranges c r : r ∈ replicated (client_of rr c) → OpId.index (min_op_id r) <= b;
}.

(** ** The log of a replica *)

(** Operations that follow each other, and [prev]. *)
Fixpoint chain (prev : OpId.t) (l : list Operation) : Prop :=
  match l with [] => True | o :: l => CheckOpInSequence prev (op_id o) = true ∧ chain (op_id o) l end.

Fixpoint end_id (prev : OpId.t) (l : list Operation) : OpId.t := match l with [] => prev | o :: l => end_id (op_id o) l end.

Lemma in_sequence a b : CheckOpInSequence a b = true ↔ OpId.term a <= OpId.term b ∧ OpId.index b = OpId.index a + 1.
Proof. unfold CheckOpInSequence. by rewrite andb_true_iff, Z.leb_le, Z.eqb_eq. Qed.

Lemma chain_app prev a b : chain prev (a ++ b) ↔ chain prev a ∧ chain (end_id prev a) b.
Proof. revert prev. induction a as [|o a IH]; intros prev; cbn [app chain end_id]; [tauto|]. rewrite IH. tauto. Qed.

Lemma end_id_app prev a b : end_id prev (a ++ b) = end_id (end_id prev a) b.
Proof. revert prev. induction a as [|o a IH]; intros prev; [done|]. apply IH. Qed.

Lemma chain_length prev l : chain prev l → OpId.index (end_id prev l) = OpId.index prev + Z.of_nat (length l).
Proof. revert prev. induction l as [|o l IH]; intros prev; cbn [chain end_id length]; [lia|]. intros [H%in_sequence Hc]. rewrite (IH _ Hc). lia. Qed.

Lemma chain_term prev l : chain prev l → OpId.term prev <= OpId.term (end_id prev l).
Proof. revert prev. induction l as [|o l IH]; intros prev; cbn [chain end_id]; [lia|]. intros [H%in_sequence Hc]. specialize (IH _ Hc). lia. Qed.

Lemma chain_bounds prev l o : chain prev l → o ∈ l → OpId.index prev < OpId.index (op_id o) <= OpId.index (end_id prev l).
Proof.
  revert prev. induction l as [|x l IH]; intros prev; cbn [chain end_id]; [by intros _ []%elem_of_nil|]. intros [H%in_sequence Hc] [->|Ho]%elem_of_cons; [rewrite (chain_length _ _ Hc); lia|]. specialize (IH _ Hc Ho). lia.
Qed.

Lemma chain_nth prev l n o : chain prev l → l !! n = Some o → OpId.index (op_id o) = OpId.index prev + 1 + Z.of_nat n.
Proof.
  intros Hc Hn. apply take_drop_middle in Hn as Hl. rewrite <- Hl in Hc. apply chain_app in Hc as [Ha [[_ Hi]%in_sequence _]]. rewrite Hi, (chain_length _ _ Ha). apply lookup_lt_Some in Hn. rewrite length_take. lia.
Qed.

Lemma chain_new prev l i : chain prev l → OpId.index (end_id prev l) < OpId.index i → i ∉ op_id <$> l.
Proof. intros Hc Hi (o & -> & Ho)%list_elem_of_fmap. pose proof (chain_bounds prev l o Hc Ho). lia. Qed.

(** ** The record of requests and the log *)

Section Link.
Context (range_time_limit timeout : Z) (gone : taken).
Abbreviation linked := (linked gone).

Lemma linked_mono rr P b b' : linked rr P b → b <= b' → linked rr P b'.
Proof. intros [L1 L2 L3 L4 L5] Hb. split; [done..|]. intros c r Hr. specialize (L5 c r Hr). lia. Qed.

Lemma finished_allowed rr P b o status term : linked rr P b → o ∈ P → allowed (Finished (replicate_msg (op_round o)) status term) rr.
Proof.
  intros L Ho. cbn [allowed]. destruct (FromMsg _) as [[w op]|] eqn:E; [|done]. destruct (lk_pending _ _ _ _ L o w op Ho E) as (q & Hq & Ho'). by rewrite Hq.
Qed.

(** Two pending operations for the same request are the same. *)
Lemma linked_unique rr P b o o' w w' op op' :
  linked rr P b → o ∈ P → o' ∈ P → data_of o = Some (w, op) → data_of o' = Some (w', op') → client_id w' = client_id w → request_id w' = request_id w → op_id o = op_id o'.
Proof.
  intros L Ho Ho' E E' Ec Ei. destruct (lk_pending _ _ _ _ L o w op Ho E) as (q & Hq & Hop). destruct (lk_pending _ _ _ _ L o' w' op' Ho' E') as (q' & Hq' & Hop').
  rewrite Ec, Ei, Hq in Hq'. injection Hq' as <-. apply data_op in E, E'. congruence.
Qed.

Lemma find_erase i j l : i ≠ j → find_running i (erase_running j l) = find_running i l.
Proof.
  intros Hij. induction l as [|q l IH]; [done|]. unfold erase_running, find_running in *. cbn [List.filter List.find]. destruct (Z.eqb_spec (run_id q) j) as [E|E]; cbn [negb List.find].
  - destruct (Z.eqb_spec (run_id q) i); [congruence|done].
  - by destruct (run_id q =? i).
Qed.

(** The end of a round takes it out of the record. *)
Lemma finished_linked rr A o B b status term :
  linked rr (A ++ o :: B) b →
  linked (ReplicationFinished range_time_limit (replicate_msg (op_round o)) status term rr).2 (A ++ B) (if ok status then Z.max b (OpId.index (op_id o)) else b).
Proof.
  intros L. assert (Ho : o ∈ A ++ o :: B) by set_solver. pose proof (finished_allowed rr _ b o status term L Ho) as Ha.
  assert (Hsub : ∀ x, x ∈ A ++ B → x ∈ A ++ o :: B) by (intros x; rewrite !elem_of_app, elem_of_cons; tauto).
  assert (Hnd : NoDup (op_id <$> A ++ B) ∧ ∀ x, x ∈ A ++ B → op_id x ≠ op_id o).
  { pose proof (lk_nodup _ _ _ _ L) as Hn. rewrite fmap_app, fmap_cons, <- Permutation_middle, NoDup_cons, <- fmap_app in Hn. destruct Hn as [Hn1 Hn2]. split; [done|]. intros x Hx E. apply Hn1. rewrite <- E. by apply list_elem_of_fmap_2. }
  destruct Hnd as [Hnd Hne]. pose proof (finished_wf range_time_limit _ _ _ rr (lk_wf _ _ _ _ L) Ha) as Hwf. destruct L as [L1 L2 L3 L4 L5].
  destruct (data_of o) as [[w op]|] eqn:E; fold (data_of o) in *.
  2: { unfold ReplicationFinished. unfold data_of in E. rewrite E. cbn [snd]. split; [done|done| | |].
    - intros x w op Hx. apply L3. by apply Hsub.
    - intros c q Hq. destruct (L4 c q Hq) as (x & w & [Hx|Hx] & Ex & Hc & Hi); exists x, w; (split; [|done]); [left|by right]. rewrite elem_of_app, elem_of_cons in Hx. rewrite elem_of_app. destruct Hx as [?|[->|?]]; [by left| |by right]. unfold data_of in Ex. congruence.
    - intros c r Hr. specialize (L5 c r Hr). destruct (ok status); lia. }
  destruct (L3 o w op Ho E) as (q & Hq & Hop). pose proof (data_op _ _ _ E) as Eop. rewrite Eop in Hop, E. clear op Eop. revert Hwf. unfold ReplicationFinished. unfold data_of in E. rewrite E, Hq.
  set (x := client_of rr (client_id w)) in *. set (x1 := set_running x (erase_running (request_id w) (running x))).
  assert (Hx : ∀ x2, running x2 = erase_running (request_id w) (running x) → (∀ r, r ∈ replicated x2 → OpId.index (min_op_id r) <= (if ok status then Z.max b (OpId.index (op_id o)) else b)) →
    wf_state (<[client_id w := x2]> rr) → linked (<[client_id w := x2]> rr) (A ++ B) (if ok status then Z.max b (OpId.index (op_id o)) else b)).
  { intros x2 Er Hr Hwf. split; [done|done| | |].
    - intros y wy opy Hy Ey. rewrite client_of_insert. case_decide as Ec; [|by apply (L3 y); [apply Hsub|]]. rewrite Er. rewrite find_erase; [unfold x; rewrite <- Ec; apply (L3 y); [by apply Hsub|done]|].
      intros Ei. destruct (Hne y Hy). symmetry. eapply (linked_unique rr (A ++ o :: B) b o y w wy); [by split|done|by apply Hsub|exact E|exact Ey|done|done].
    - intros c q'. rewrite client_of_insert. case_decide as Ec; intros Hq'; [|destruct (L4 c q' Hq') as (y & wy & [Hy|Hy] & Ey & Hc & Hi); [|by exists y, wy; split; [right|]]].
      + rewrite Er in Hq'. apply elem_of_erase in Hq' as [Hq' Hd]. subst c. destruct (L4 (client_id w) q' Hq') as (y & wy & [Hy|Hy] & Ey & Hc & Hi); exists y, wy; (split; [|done]); [left|by right]. rewrite elem_of_app, elem_of_cons in Hy. rewrite elem_of_app. destruct Hy as [?|[->|?]]; [by left| |by right]. unfold data_of in Ey. rewrite E in Ey. injection Ey as <- _. congruence.
      + exists y, wy. split; [left|done]. rewrite elem_of_app, elem_of_cons in Hy. rewrite elem_of_app. destruct Hy as [?|[->|?]]; [by left| |by right]. unfold data_of in Ey. rewrite E in Ey. injection Ey as <- _. congruence.
    - intros c r. rewrite client_of_insert. case_decide; [by apply Hr|]. intros H'. specialize (L5 c r H'). destruct (ok status); lia. }
  destruct (ok status) eqn:Eok; cbn [snd]; intros Hwf; (apply Hx; [done| |done]); cbn [replicated set_replicated]; [|intros r Hr; by apply (L5 (client_id w))].
  apply find_running_Some in Hq as [Hin Hid]. pose proof (wc_apart _ (L1 (client_id w)) q Hin) as [Hc Ho']. rewrite Hid in Hc. rewrite Hop in Ho'.
  intros r Hr. destruct (AddReplicated_added range_time_limit (op_id o) (request_id w) (run_time q) (replicated x)) as [_ _ _ _ A5]; [apply L1|done|done|].
  destruct (A5 (min_op_id r)) as [->|Hin']; [by apply list_elem_of_fmap_2|lia|]. apply list_elem_of_fmap in Hin' as (r' & -> & Hr'). specialize (L5 (client_id w) r' Hr'). lia.
Qed.

Lemma register_allowed rr P b o et now : linked rr P b → b < OpId.index (op_id o) → allowed (Registered (op_round o) et now) rr.
Proof.
  intros L Hb. cbn [allowed]. destruct (FromMsg _) as [[w op]|] eqn:E; [|done]. rewrite (data_op _ _ _ E).
  intros (r & Er & Hr)%list_elem_of_fmap. pose proof (lk_ranges _ _ _ _ L _ r Hr). rewrite <- Er in *. lia.
Qed.

(** A change of a client that keeps the ids and places of its running requests. *)
Lemma linked_client rr P b k x :
  linked rr P b → wf_state (<[k := x]> rr) → (∀ i, (run_op <$> find_running i (running x)) = run_op <$> find_running i (running (client_of rr k))) →
  (∀ q, q ∈ running x → ∃ q', q' ∈ running (client_of rr k) ∧ run_id q' = run_id q ∧ run_op q' = run_op q) →
  (∀ r, r ∈ replicated x → OpId.index (min_op_id r) <= b) → linked (<[k := x]> rr) P b.
Proof.
  intros [L1 L2 L3 L4 L5] Hwf Hf Hq Hr. split; [done|done| | |].
  - intros o w op Ho E. rewrite client_of_insert. case_decide as Ec; [|by eapply L3]. destruct (L3 o w op Ho E) as (q & Hq1 & Hq2). rewrite Ec in Hq1. specialize (Hf (request_id w)). rewrite Hq1 in Hf. cbn in Hf.
    destruct (find_running _ (running x)) as [q'|]; [|done]. injection Hf as Hf. exists q'. split; [done|congruence].
  - intros c q. rewrite client_of_insert. case_decide as Ec; [|apply L4]. subst c. intros (q' & Hq' & Ei & Eo)%Hq. destruct (L4 k q' Hq') as (o & w & Ho & E & Hc & Hi). exists o, w. rewrite <- Eo, <- Ei. done.
  - intros c r. rewrite client_of_insert. case_decide; [apply Hr|apply L5].
Qed.

Lemma find_duplicate i j round l : (run_op <$> find_running i (add_duplicate j round l)) = run_op <$> find_running i l.
Proof. induction l as [|q l IH]; [done|]. unfold add_duplicate, find_running in *. rewrite fmap_cons. cbn [List.find]. destruct (run_id q =? j); cbn [run_id]; by destruct (run_id q =? i). Qed.

Lemma in_duplicate j round l q : q ∈ add_duplicate j round l → ∃ q', q' ∈ l ∧ run_id q' = run_id q ∧ run_op q' = run_op q.
Proof. unfold add_duplicate. intros (q' & -> & Hq)%list_elem_of_fmap. exists q'. by destruct (run_id q' =? j). Qed.

(** A new round: accepted, it is running; refused, it is not. *)
Lemma register_linked rr P b o et now :
  linked rr P b → op_id o ∉ op_id <$> P → b < OpId.index (op_id o) →
  linked (Register (op_round o) et now rr).2 (if (Register (op_round o) et now rr).1.1 then P ++ [o] else P) b.
Proof.
  intros L Hn Hb. pose proof (register_wf _ et now rr (lk_wf _ _ _ _ L) (register_allowed rr P b o et now L Hb)) as Hwf. revert Hwf.
  assert (Hnd : NoDup (op_id <$> P ++ [o])) by (rewrite fmap_app; apply NoDup_app; split_and!; [apply L|cbn; intros x Hx ->%list_elem_of_singleton; done|apply NoDup_singleton]).
  unfold Register. fold (data_of o). destruct (data_of o) as [[w op]|] eqn:E; cbn [fst snd].
  2: { intros _. destruct L as [L1 L2 L3 L4 L5]. split; [done|done| | |done].
    - intros y wy opy [Hy| ->%list_elem_of_singleton]%elem_of_app Ey; [by eapply L3|congruence].
    - intros c q Hq. destruct (L4 c q Hq) as (y & wy & Hy & ?). exists y, wy. split; [rewrite elem_of_app; tauto|done]. }
  destruct (Cleanup_same (min_running_id w) (client_of rr (client_id w))) as [Er _].
  assert (Hr : ∀ r, r ∈ replicated (CleanupReplicatedRequests (min_running_id w) (client_of rr (client_id w))) → OpId.index (min_op_id r) <= b).
  { intros r Hr. destruct (Cleanup_trimmed (min_running_id w) _ (wc_ranges _ (lk_wf _ _ _ _ L (client_id w)))) as [[Ec _]|([_ _ _ T4] & _)]; [rewrite Ec in Hr; by eapply lk_ranges|].
    assert (Ho : min_op_id r ∈ min_op_id <$> replicated (client_of rr (client_id w))) by (apply T4; by apply list_elem_of_fmap_2). apply list_elem_of_fmap in Ho as (r' & -> & Hr'). by eapply lk_ranges. }
  set (x := CleanupReplicatedRequests _ _) in *. clearbody x.
  destruct (_ <? _); [|destruct (is_replicated _ _)]; cbn [fst snd]; [intros Hwf; apply linked_client; [done|done|by rewrite Er|rewrite Er; eauto|done]..|].
  unfold blocking. destruct (find_running _ _) as [q|] eqn:Ef; [|destruct (List.find _ _) as [q|] eqn:Ef']; cbn [fst snd]; intros Hwf.
  1,2: apply linked_client; [done|done|intros i; cbn [running set_running]; by rewrite find_duplicate, Er|cbn [running set_running]; rewrite Er; apply in_duplicate|done].
  pose proof (data_op _ _ _ E) as Eop. apply find_running_None in Ef. rewrite Er in *. destruct L as [L1 L2 L3 L4 L5]. split; [done|done| | |].
  - intros y wy opy [Hy| ->%list_elem_of_singleton]%elem_of_app Ey; rewrite client_of_insert; case_decide as Ec.
    + destruct (L3 y wy opy Hy Ey) as (q & Hq & Hop). exists q. split; [|done]. rewrite Ec in Hq. cbn [running set_running]. unfold find_running in *. cbn [List.find run_id]. destruct (Z.eqb_spec (request_id w) (request_id wy)) as [Ei|]; [|done].
      destruct Ef. apply find_some in Hq as [Hq Hi%Z.eqb_eq]. rewrite Ei, <- Hi. apply list_elem_of_fmap_2. by apply list_elem_of_In.
    + by apply (L3 y wy opy).
    + rewrite E in Ey. injection Ey as <- <-. eexists. split; [cbn; rewrite Z.eqb_refl; done|done].
    + rewrite E in Ey. injection Ey as <- <-. done.
  - intros c q. rewrite client_of_insert. case_decide as Ec; [|intros Hq; destruct (L4 c q Hq) as (y & wy & Hy & ?); exists y, wy; split; [rewrite elem_of_app; tauto|done]].
    cbn [running set_running]. intros [->|Hq]%elem_of_cons; [exists o, w; split; [left; apply elem_of_app; right; by apply list_elem_of_singleton|done]|]. subst c. destruct (L4 _ q Hq) as (y & wy & Hy & ?). exists y, wy. split; [rewrite elem_of_app; tauto|done].
  - intros c r. rewrite client_of_insert. case_decide; [apply Hr|apply L5].
Qed.

Lemma cleaned_linked rr P b now : linked rr P b → linked (CleanExpiredReplicatedAndGetMinOpId timeout now rr).2 P b.
Proof.
  intros L. pose proof (event_wf range_time_limit timeout (Cleaned now) rr (lk_wf _ _ _ _ L) I) as Hwf. cbn [run_event snd] in Hwf.
  assert (Hx : ∀ c, running (client_of (CleanExpiredReplicatedAndGetMinOpId timeout now rr).2 c) = running (client_of rr c) ∧
    ∀ r, r ∈ replicated (client_of (CleanExpiredReplicatedAndGetMinOpId timeout now rr).2 c) → r ∈ replicated (client_of rr c)).
  { intros c. pose proof (lk_wf _ _ _ _ L c) as Hw. unfold client_of in *. rewrite cleaned_lookup. destruct (rr !! c) as [x|]; [|done]. cbn [mbind option_bind from_option Datatypes.id] in *.
    pose proof (clean_keeps timeout now x Hw) as Hk. assert (Hr : ∀ x', (clean_client timeout now x).2 = Some x' → ∀ r, r ∈ replicated x' → r ∈ replicated x).
    { unfold clean_client. destruct (clean_ranges_spec (now - timeout) _ (wc_ranges _ Hw)) as (_ & C2 & _). destruct (clean_ranges _ _) as [res l]. cbn [fst snd] in *. intros x'. repeat case_match; intros [= <-] r Hr; by apply C2. }
    destruct (clean_client timeout now x).2 as [x'|]; cbn [from_option Datatypes.id]; [split; [by destruct Hk as (_ & _ & -> & _)|by apply Hr]|]. destruct Hk as (_ & _ & -> & _). split; [done|]. intros r Hr'. by apply elem_of_nil in Hr'. }
  destruct L as [L1 L2 L3 L4 L5]. split; [done|done| | |].
  - intros o w op Ho E. destruct (Hx (client_id w)) as [-> _]. by eapply L3.
  - intros c q. destruct (Hx c) as [-> _]. apply L4.
  - intros c r Hr. apply (L5 c). by apply Hx.
Qed.

(** ** Moves of the record *)

Lemma runs_app s l s' l' s'' : runs range_time_limit timeout s l s' → runs range_time_limit timeout s' l' s'' → runs range_time_limit timeout s (l ++ l') s''.
Proof. induction 1; [done|]. intros. cbn [app]. constructor; [done|auto]. Qed.

Lemma runs_one s e : allowed e s → runs range_time_limit timeout s [e] (run_event range_time_limit timeout e s).2.
Proof. intros. constructor; [done|constructor]. Qed.

(** The record moves from [rr] to [rr'] by allowed steps. *)
Definition moves (rr rr' : state) : Prop := ∃ l, runs range_time_limit timeout rr l rr'.

#[export] Instance moves_preorder : PreOrder moves.
Proof. split; [intros s; exists []; constructor|]. intros a b c [l H] [l' H']. exists (l ++ l'). by eapply runs_app. Qed.

(** The rounds that are told that they succeeded. *)
Definition successes (notes : list Notification) : list Round := omap (λ n, match n.1.2 with OK => Some n.1.1 | _ => None end) notes.

Lemma successes_app a b : successes (a ++ b) = successes a ++ successes b.
Proof. apply omap_app. Qed.

Lemma successes_none notes : (∀ n, n ∈ notes → n.1.2 ≠ OK) → successes notes = [].
Proof.
  induction notes as [|n notes IH]; [done|]. intros H. unfold successes. cbn [omap list_omap]. pose proof (H n ltac:(by left)) as Hn. destruct (n.1.2); [done|..]; apply IH; intros m Hm; apply H; by right.
Qed.

Section Commit.
Context (env : Env).
Hypothesis Hlim : range_limit env = range_time_limit.

Lemma notify_linked rr A o B b status term :
  linked rr (A ++ o :: B) b →
  let r := NotifyReplicationFinishedUnlocked env o status term rr in
  linked r.2 (A ++ B) (if ok status then Z.max b (OpId.index (op_id o)) else b) ∧ moves rr r.2 ∧ successes r.1 = if ok status then [op_round o] else [].
Proof.
  intros L. cbn [NotifyReplicationFinishedUnlocked fst snd]. rewrite Hlim. assert (Ho : o ∈ A ++ o :: B) by set_solver. pose proof (finished_allowed rr _ b o status term L Ho) as Ha. split_and!.
  - by apply finished_linked.
  - exists [Finished (replicate_msg (op_round o)) status term]. by apply (runs_one rr (Finished _ status term)).
  - assert (Hn : successes (ReplicationFinished range_time_limit (replicate_msg (op_round o)) status term rr).1 = []).
    { apply successes_none. intros n Hn. by eapply (notes_not_ok range_time_limit timeout (Finished (replicate_msg (op_round o)) status term) rr). }
    unfold successes in *. destruct status; cbn [omap list_omap fst snd ok]; by rewrite Hn.
Qed.

(** Whatever the environment answers, a prefix of the pending operations is done. *)
Lemma apply_loop_prefix committed could_stop prev max_allowed l rr a :
  chain prev l → linked rr l (OpId.index prev) → apply_loop env committed could_stop prev max_allowed l rr = Ok a →
  ∃ done, l = done ++ ap_left a ∧ ap_prev a = end_id prev done ∧ linked (ap_requests a) (ap_left a) (OpId.index (ap_prev a)) ∧ moves rr (ap_requests a).
Proof.
  revert prev max_allowed rr a. induction l as [|o l IH]; intros prev max_allowed rr a Hc L; cbn [apply_loop].
  { intros [= <-]. exists []. split_and!; [done..|reflexivity]. }
  destruct Hc as [Hs Hc]. rewrite Hs, orb_true_r. apply in_sequence in Hs. assert (Hnone : ∀ ok, ∃ done, o :: l = done ++ ap_left (MkApplied prev (o :: l) rr [] ok) ∧ prev = end_id prev done ∧ linked rr (o :: l) (OpId.index prev) ∧ moves rr rr) by (intros ?; exists []; split_and!; [done..|reflexivity]).
  destruct (_ <? _); [intros [= <-]; apply Hnone|]. destruct (_ && _); [intros [= <-]; apply Hnone|]. destruct (if bool_decide _ then _ else _) as [[go m]| | |]; [|done..]. cbn [obind]. destruct (negb go); [intros [= <-]; apply Hnone|].
  destruct (if bool_decide (op_type o = CHANGE_CONFIG_OP) then _ else _); [|done..]. cbn [obind]. destruct (notify_linked rr [] o l (OpId.index prev) OK (leader_term env) L) as (L' & M & _). set (n := NotifyReplicationFinishedUnlocked _ _ _ _ _) in *.
  destruct (apply_loop env committed could_stop (op_id o) m l n.2) as [a'| | |] eqn:E; [|done..]. cbn [obind]. intros [= <-]. cbn [ap_prev ap_left ap_requests].
  destruct (IH (op_id o) m n.2 a' Hc) as (done & El & Ep & Ll & Mv); [eapply linked_mono; [exact L'|cbn; lia]|exact E|]. exists (o :: done). split_and!; [by rewrite El at 1|done|done|by etrans].
Qed.

(** Notifying a suffix of the pending operations that they are aborted. *)
Lemma notify_all_linked A B rr b term : linked rr (A ++ B) b → let r := notify_all env B (Failed kAborted) term rr in linked r.2 A b ∧ moves rr r.2 ∧ successes r.1 = [].
Proof.
  revert rr. induction B as [|o B IH]; intros rr L; cbn [notify_all fst snd]; [rewrite app_nil_r in L; split_and!; [done|reflexivity|done]|].
  destruct (notify_linked rr A o B b (Failed kAborted) term L) as (L' & M & S). cbn [ok] in *. destruct (IH _ L') as (L2 & M2 & S2). split_and!; [done|by etrans|]. by rewrite successes_app, S, S2.
Qed.

Hypothesis Hcfg : ∀ o, apply_config_change env o = Ok ().
Hypothesis Hwait : ∃ wait, safe_op_id_waiter env = Some wait ∧ ∀ i, OpId.index i <= OpId.index (wait i) ∧ OpId.term i <= OpId.term (wait i).

Lemma safe_to_apply_ok max_allowed cur : ∃ m, safe_to_apply env max_allowed cur = Ok (true, m).
Proof.
  destruct Hwait as (wait & E & Hw). unfold safe_to_apply. destruct (_ || _); [|eauto]. rewrite E. destruct (Hw cur). exists (wait cur).
  destruct (Z.ltb_spec (OpId.index (wait cur)) (OpId.index cur)); [lia|]. destruct (Z.ltb_spec (OpId.term (wait cur)) (OpId.term cur)); [lia|]. done.
Qed.

(** The loop commits operations from the front, in order, up to the given index. *)
Lemma apply_loop_spec committed could_stop prev max_allowed l rr :
  chain prev l → linked rr l (OpId.index prev) →
  ∃ done left rr' notes, apply_loop env committed could_stop prev max_allowed l rr = Ok (MkApplied (end_id prev done) left rr' notes true) ∧
  l = done ++ left ∧ linked rr' left (OpId.index (end_id prev done)) ∧ moves rr rr' ∧ successes notes = op_round <$> done ∧
  (∀ o, o ∈ done → OpId.index (op_id o) <= OpId.index committed) ∧ (could_stop = false → ∀ o, o ∈ left → OpId.index committed < OpId.index (op_id o)).
Proof.
  revert prev max_allowed rr. induction l as [|o l IH]; intros prev max_allowed rr Hc L; cbn [apply_loop].
  { exists [], [], rr, []. split_and!; [done|done|done|reflexivity|done|by intros x Hx%elem_of_nil|by intros _ x Hx%elem_of_nil]. }
  destruct Hc as [Hs Hc]. rewrite Hs, orb_true_r. apply in_sequence in Hs.
  destruct (Z.ltb_spec (OpId.index committed) (OpId.index (op_id o))) as [Hlt|Hle].
  { exists [], (o :: l), rr, []. split_and!; [done|done|done|reflexivity|done|by intros x Hx%elem_of_nil|]. intros _ x [->|Hx]%elem_of_cons; [done|]. pose proof (chain_bounds _ _ _ Hc Hx). lia. }
  destruct (bool_decide (op_type o = WRITE_OP) && could_stop && negb (should_apply_write env o)) eqn:Est.
  { exists [], (o :: l), rr, []. split_and!; [done|done|done|reflexivity|done|by intros x Hx%elem_of_nil|]. intros ->. by rewrite andb_false_r in Est. }
  assert (Hgo : ∃ m, (if bool_decide (op_type o = WRITE_OP) then Ok (true, max_allowed) else safe_to_apply env max_allowed (op_id o)) = Ok (true, m)) by (destruct (bool_decide _); [eauto|apply safe_to_apply_ok]).
  destruct Hgo as [m ->]. cbn [obind negb]. rewrite Hcfg. replace (if bool_decide (op_type o = CHANGE_CONFIG_OP) then Ok () else Ok ()) with (Ok ()) by (by destruct (bool_decide (op_type o = CHANGE_CONFIG_OP))). cbn [obind].
  destruct (notify_linked rr [] o l (OpId.index prev) OK (leader_term env) L) as (L' & M & S). set (n := NotifyReplicationFinishedUnlocked _ _ _ _ _) in *.
  destruct (IH (op_id o) m n.2 Hc) as (done & left & rr' & notes & E & El & Ll & Mv & Su & Hd & Hl); [eapply linked_mono; [exact L'|cbn; lia]|].
  exists (o :: done), left, rr', (n.1 ++ notes). rewrite E. cbn [obind ap_prev ap_left ap_requests ap_notes ap_ok end_id]. split_and!; [done|by rewrite El|done|by etrans|by rewrite successes_app, S, Su| |done].
  intros x [->|Hx]%elem_of_cons; [done|by apply Hd].
Qed.

End Commit.

(** ** Runs of a replica *)

(** Only writes carry requests. *)
Definition typed (o : Operation) : Prop := data_of o ≠ None → op_type o = WRITE_OP.

Record replica_ok (R : replica) : Prop := {
  ro_chain : chain (last_committed_op_id_ R) (pending_operations_ R);
  ro_received : OpId.index (last_received_op_id_ R) = OpId.index (end_id (last_committed_op_id_ R) (pending_operations_ R));
  ro_next : next_index_ R = OpId.index (last_received_op_id_ R) + 1;
  ro_term : OpId.term (end_id (last_committed_op_id_ R) (pending_operations_ R)) <= current_term R;
  ro_linked : linked (requests R) (pending_operations_ R) (OpId.index (last_committed_op_id_ R));
}.

Lemma chain_head R : chain (last_committed_op_id_ R) (pending_operations_ R) → CheckPendingOperationsHead R = true.
Proof. unfold CheckPendingOperationsHead. destruct (pending_operations_ R) as [|o l]; [done|]. intros [[_ H]%in_sequence _]. apply orb_true_iff. right. lia. Qed.

Lemma commit_ok env committed could_stop R ok notes R' :
  range_limit env = range_time_limit → replica_ok R → ApplyPendingOperationsUnlocked env committed could_stop R = Ok (ok, notes, R') → replica_ok R' ∧ moves (requests R) (requests R').
Proof.
  intros Hlim [R1 R2 R3 R5 R4]. unfold ApplyPendingOperationsUnlocked. destruct (apply_loop _ _ _ _ _ _ _) as [a| | |] eqn:E; [|done..]. cbn [obind].
  destruct (apply_loop_prefix env Hlim _ _ _ _ _ _ _ R1 R4 E) as (done & El & Ep & L & M). unfold SetLastCommittedIndexUnlocked. destruct (_ <=? _); [|done]. destruct (CheckPendingOperationsHead _); [|done]. cbn [obind]. intros [= <- <- <-].
  rewrite El in R1, R2, R5. apply chain_app in R1 as [_ R1]. rewrite end_id_app in R2, R5. rewrite <- Ep in *. split; [|exact M]. by split.
Qed.

Lemma abort_ok env idx R notes R' :
  range_limit env = range_time_limit → replica_ok R → AbortOpsAfterUnlocked env idx R = Ok (notes, R') → replica_ok R' ∧ moves (requests R) (requests R').
Proof.
  intros Hlim [R1 R2 R3 R5 R4]. unfold AbortOpsAfterUnlocked. set (l := pending_operations_ R) in *.
  destruct (match FindPendingOperation idx l with Some n => _ | None => _ end) as [[keep pre]| | |] eqn:E; [|done..]. cbn [obind]. destruct (CheckPendingOperationsHead _); [|done]. intros [= <- <-].
  destruct (notify_all_linked env Hlim (take keep l) (drop keep l) (requests R) (OpId.index (last_committed_op_id_ R)) OpId.kUnknownTerm) as (L & M & _); [by rewrite take_drop|].
  rewrite <- (take_drop keep l) in R1, R5. rewrite end_id_app in R5. apply chain_app in R1 as [R1 R6%chain_term].
  assert (Hpre : end_id (last_committed_op_id_ R) (take keep l) = pre).
  { destruct (FindPendingOperation idx l) as [n|]; [destruct (l !! n) as [o|] eqn:En; [|done]; injection E as <- <-; rewrite (take_S_r l n o En), end_id_app; done|].
    destruct (_ =? _) eqn:Eidx; [|done]. injection E as <- <-. destruct l as [|o l']; [done|]. destruct (Z.ltb_spec idx (OpId.index (op_id o))) as [|Hge]; [done|]. apply Z.eqb_eq in Eidx. rewrite take_ge in R1 by done. destruct R1 as [[_ Hi]%in_sequence _]. lia. }
  split; [|exact M]. split; cbn; [done|by rewrite Hpre|done|lia|done].
Qed.

Lemma untouched_linked rr P b o : linked rr P b → op_id o ∉ op_id <$> P → b < OpId.index (op_id o) → data_of o = None → linked rr (P ++ [o]) b.
Proof. intros L Hn Hb E. pose proof (register_linked rr P b o 0 0 L Hn Hb) as H. unfold Register in H. fold (data_of o) in H. rewrite E in H. exact H. Qed.

(** What adding an operation changes. *)
Record adds (o : Operation) (res : AddResult) (R R' : replica) : Prop := {
  ad_committed : last_committed_op_id_ R' = last_committed_op_id_ R;
  ad_received : last_received_op_id_ R' = last_received_op_id_ R;
  ad_next : next_index_ R' = next_index_ R;
  ad_term : current_term R' = current_term R;
  ad_pending : pending_operations_ R' = if bool_decide (res = Added) then pending_operations_ R ++ [o] else pending_operations_ R;
  ad_linked : linked (requests R') (pending_operations_ R') (OpId.index (last_committed_op_id_ R));
  ad_moves : moves (requests R) (requests R');
}.

Lemma push_adds o rr n R0 R res notes R' :
  push_pending o rr n R0 = Ok (res, notes, R') → R0 = R ∨ R0 = set_split R (op_id o) →
  linked rr (pending_operations_ R ++ [o]) (OpId.index (last_committed_op_id_ R)) → moves (requests R) rr → adds o res R R'.
Proof.
  intros E H0 L M. unfold push_pending in E. destruct (CheckPendingOperationsHead _); [|done]. injection E as <- _ <-. destruct H0 as [->| ->]; split; done.
Qed.

Lemma refused_adds o res R : res ≠ Added → linked (requests R) (pending_operations_ R) (OpId.index (last_committed_op_id_ R)) → adds o res R R.
Proof. intros Hne L. split; [done..|by rewrite bool_decide_false|done|reflexivity]. Qed.

(** Adding the operation that follows the last one. *)
Lemma add_operation_ok env o R res notes R' :
  chain (last_committed_op_id_ R) (pending_operations_ R) → linked (requests R) (pending_operations_ R) (OpId.index (last_committed_op_id_ R)) →
  typed o → OpId.index (op_id o) = OpId.index (end_id (last_committed_op_id_ R) (pending_operations_ R)) + 1 → AddPendingOperation env o R = Ok (res, notes, R') → adds o res R R'.
Proof.
  intros Hc L Ht Hi. pose proof (chain_new _ _ (op_id o) Hc ltac:(lia)) as Hn. pose proof (chain_length _ _ Hc) as Hlen. assert (Hb : OpId.index (last_committed_op_id_ R) < OpId.index (op_id o)) by lia.
  assert (Hnone : op_type o ≠ WRITE_OP → linked (requests R) (pending_operations_ R ++ [o]) (OpId.index (last_committed_op_id_ R))).
  { intros Hne. apply untouched_linked; [done..|]. destruct (data_of o) eqn:E; [|done]. destruct Hne. apply Ht. by rewrite E. }
  unfold AddPendingOperation. destruct (negb _); [intros [= <- _ <-]; by apply refused_adds|]. destruct (_ && _); [intros [= <- _ <-]; by apply refused_adds|].
  destruct (_ && _); [intros [= <- _ <-]; by apply refused_adds|]. destruct (lease_refused env o); [intros [= <- _ <-]; by apply refused_adds|].
  assert (Hplain : op_type o ≠ WRITE_OP → push_pending o (requests R) [] R = Ok (res, notes, R') → adds o res R R') by (intros Hne E; eapply push_adds; [exact E|by left|by apply Hnone|reflexivity]).
  destruct (op_type o) eqn:Et; try (apply Hplain; done).
  - pose proof (register_linked (requests R) _ _ o 0 (clock_now env) L Hn Hb) as Lr. pose proof (register_allowed (requests R) _ _ o 0 (clock_now env) L Hb) as Ha.
    assert (M : moves (requests R) (Register (op_round o) 0 (clock_now env) (requests R)).2) by (exists [Registered (op_round o) 0 (clock_now env)]; by apply (runs_one _ (Registered _ 0 (clock_now env)))).
    destruct (Register _ _ _ _) as [[acc n] rr]. cbn [fst snd] in *. destruct acc; [intros E; eapply push_adds; [exact E|by left|done|done]|]. intros [= <- _ <-]. split; done.
  - destruct (mark_pending_config env o); [by apply Hplain|intros [= <- _ <-]; by apply refused_adds|done..].
  - destruct (split_of_this_tablet env o); [|intros [= <- _ <-]; by apply refused_adds]. intros E. eapply push_adds; [exact E|by right|by apply Hnone|reflexivity].
Qed.

Lemma follow_ok env o R res notes R' :
  replica_ok R → typed o → CheckOpInSequence (end_id (last_committed_op_id_ R) (pending_operations_ R)) (op_id o) = true → OpId.term (op_id o) <= current_term R →
  AddPendingOperation env o R = Ok (res, notes, R') →
  replica_ok (if bool_decide (res = Added) then UpdateLastReceivedOpIdUnlocked (op_id o) R' else R') ∧ moves (requests R) (requests R').
Proof.
  intros [R1 R2 R3 R5 R4] Ht Hs Hterm E. assert (Hs' := Hs). apply in_sequence in Hs as [_ Hi]. destruct (add_operation_ok env o R res notes R' R1 R4 Ht Hi E) as [A1 A2 A3 A4 A5 A6 A7].
  split; [|by destruct (bool_decide _)]. rewrite <- A1 in *. case_bool_decide; split; cbn; rewrite ?A5, ?end_id_app; cbn [end_id]; try done; try congruence; try lia.
  by apply chain_app.
Qed.

Lemma advance_ok env committed could_stop R res notes R' :
  range_limit env = range_time_limit → replica_ok R → AdvanceCommittedOpIdUnlocked env committed could_stop R = Ok (res, notes, R') → replica_ok R' ∧ moves (requests R) (requests R').
Proof.
  intros Hlim HR. unfold AdvanceCommittedOpIdUnlocked. destruct (_ <=? _); [intros [= _ _ <-]; split; [done|reflexivity]|]. destruct (pending_operations_ R); [intros [= _ _ <-]; split; [done|reflexivity]|].
  destruct (CheckPendingOperationsHead R); [|done]. destruct (ApplyPendingOperationsUnlocked _ _ _ _) as [[[ok n] R2]| | |] eqn:E; [|done..]. cbn [obind]. intros [= _ _ <-]. by eapply commit_ok.
Qed.

Lemma majority_ok env majority R res notes R' :
  range_limit env = range_time_limit → replica_ok R → UpdateMajorityReplicatedUnlocked env majority R = Ok (res, notes, R') → replica_ok R' ∧ moves (requests R) (requests R').
Proof.
  intros Hlim HR. unfold UpdateMajorityReplicatedUnlocked. destruct (negb _); [intros [= _ _ <-]; split; [done|reflexivity]|]. destruct (_ || _); [|intros [= _ _ <-]; split; [done|reflexivity]].
  destruct (AdvanceCommittedOpIdUnlocked _ _ _ _) as [[[r n] R2]| | |] eqn:E; [|done..]. cbn [obind]. intros [= _ _ <-]. by eapply advance_ok.
Qed.

Definition set_phase (R : replica) (p : ReplicaPhase) : replica :=
  Replica p (current_term R) (pending_operations_ R) (last_committed_op_id_ R) (last_received_op_id_ R) (last_received_op_id_current_leader_ R) (next_index_ R) (split_op_id R) (requests R).

End Link.

Section Runs.
Context (range_time_limit timeout : Z).
Abbreviation moves := (moves range_time_limit timeout).

(** An operation that is taken back stays in the record of requests. *)
Lemma linked_taken (gone : taken) rr P o b : gone o → linked gone rr (P ++ [o]) b → linked gone rr P b.
Proof.
  intros Hg [L1 L2 L3 L4 L5]. split; [done| | | |done].
  - rewrite fmap_app in L2. by apply NoDup_app in L2 as [? _].
  - intros x w op Hx. apply L3. apply elem_of_app. by left.
  - intros c q Hq. destruct (L4 c q Hq) as (x & w & Hx & Hr). exists x, w. split; [|done]. rewrite elem_of_app, list_elem_of_singleton in Hx. destruct Hx as [[?| ->]|?]; [by left|by right..].
Qed.

Lemma linked_more (gone gone' : taken) rr P b : (∀ o, gone o → gone' o) → linked gone rr P b → linked gone' rr P b.
Proof. intros Hg [L1 L2 L3 L4 L5]. split; [done..| |done]. intros c q Hq. destruct (L4 c q Hq) as (x & w & Hx & Hr). exists x, w. split; [|done]. destruct Hx; [by left|right; auto]. Qed.

Lemma replica_more (gone gone' : taken) R : (∀ o, gone o → gone' o) → replica_ok gone R → replica_ok gone' R.
Proof. intros Hg [R1 R2 R3 R4 R5]. split; [done..|]. by eapply linked_more. Qed.

(** While a leader adds the operations of a batch after those of [P]; the last
    one added is the first of [added]. *)
Record adding (gone : taken) (P : list Operation) (added : list Operation) (R : replica) : Prop := {
  ag_pending : pending_operations_ R = P ++ rev added;
  ag_chain : chain (last_committed_op_id_ R) (pending_operations_ R);
  ag_next : next_index_ R = OpId.index (end_id (last_committed_op_id_ R) (pending_operations_ R)) + 1;
  ag_term : OpId.term (end_id (last_committed_op_id_ R) (pending_operations_ R)) <= current_term R;
  ag_linked : linked gone (requests R) (pending_operations_ R) (OpId.index (last_committed_op_id_ R));
  ag_last : added = [] → OpId.index (last_received_op_id_ R) = OpId.index (end_id (last_committed_op_id_ R) (pending_operations_ R));
}.

Lemma adding_done gone P R : adding gone P [] R → replica_ok gone R.
Proof. intros [G1 G3 G4 G5 G6 G7]. specialize (G7 eq_refl). split; [done|done|lia|done|done]. Qed.

Lemma adding_last gone P o added R : adding gone P (o :: added) R → op_id o = end_id (last_committed_op_id_ R) (pending_operations_ R).
Proof. intros [G1 _ _ _ _ _]. rewrite G1. cbn [rev]. by rewrite app_assoc, end_id_app. Qed.

Lemma adding_more (gone gone' : taken) P added R : (∀ o, gone o → gone' o) → adding gone P added R → adding gone' P added R.
Proof. intros Hg [G1 G3 G4 G5 G6 G7]. split; [done..| |done]. by eapply linked_more. Qed.

(** Taking back what was not added only releases its id. *)
Lemma cancel_id gone P added i R R' :
  CancelPendingOperation i false R = Ok R' → OpId.index i = next_index_ R - 1 →
  (∀ R0, next_index_ R0 = next_index_ R - 1 → OpId.index (last_received_op_id_ R0) = next_index_ R - 2 →
    pending_operations_ R0 = pending_operations_ R → last_committed_op_id_ R0 = last_committed_op_id_ R → current_term R0 = current_term R → requests R0 = requests R → adding gone P added R0) →
  adding gone P added R' ∧ requests R' = requests R.
Proof.
  intros E Hi H. unfold CancelPendingOperation in E. destruct (_ =? _); [|done]. destruct (_ =? _); [|done]. injection E as <-.
  split; [apply H|]; destruct (bool_decide _); cbn; done || lia.
Qed.

Lemma pop_last l o R rr : match l ++ [o] with [] => UB | l' => Ok (set_pending R (removelast l') rr) end = Ok (set_pending R l rr).
Proof. destruct (l ++ [o]) eqn:E; [by destruct l|]. by rewrite <- E, removelast_last. Qed.

Lemma cancel_last (gone : taken) P o added R R' : gone o → adding gone P (o :: added) R → CancelPendingOperation (op_id o) true R = Ok R' → adding gone P added R' ∧ requests R' = requests R.
Proof.
  intros Go Hg E. pose proof (adding_last _ _ _ _ _ Hg) as Hl. destruct Hg as [G1 G3 G4 G5 G6 G7]. cbn [rev] in G1. rewrite app_assoc in G1.
  unfold CancelPendingOperation in E. destruct (_ =? _); [|done]. destruct (_ =? _); [|done].
  assert (HR : pending_operations_ R' = P ++ rev added ∧ next_index_ R' = OpId.index (op_id o) ∧ OpId.index (last_received_op_id_ R') = OpId.index (op_id o) - 1 ∧
    last_committed_op_id_ R' = last_committed_op_id_ R ∧ current_term R' = current_term R ∧ requests R' = requests R).
  { assert (Hr : ∀ R0, pending_operations_ R0 = pending_operations_ R → match pending_operations_ R0 with [] => UB | l => Ok (set_pending R0 (removelast l) (requests R0)) end = Ok R' → R' = set_pending R0 (P ++ rev added) (requests R0)).
    { intros R0 E0. rewrite E0, G1, pop_last. by intros [= <-]. }
    apply Hr in E; [|by destruct (bool_decide _)]. rewrite E. by destruct (bool_decide _). }
  destruct HR as (E1 & E2 & E3 & E4 & E5 & E6). rewrite G1 in G3, G5, G6. apply chain_app in G3 as [C1 [C2%in_sequence _]]. rewrite end_id_app in G5. cbn [end_id] in G5.
  split; [|done]. split; rewrite ?E1, ?E4; [done|done|lia|rewrite E5; lia|rewrite E6; by eapply linked_taken|intros _; lia].
Qed.

Lemma rollback_ok (gone : taken) P added R R' : Forall gone added → adding gone P added R → rollback added R = Ok R' → replica_ok gone R' ∧ requests R' = requests R.
Proof.
  revert R. induction added as [|o added IH]; intros R Hf Hg; cbn [rollback]; [intros [= <-]; split; [by eapply adding_done|done]|]. apply Forall_cons in Hf as [Ho Hf].
  destruct (CancelPendingOperation (op_id o) true R) as [R1| | |] eqn:E; [|done..]. cbn [obind]. destruct (cancel_last _ _ _ _ _ _ Ho Hg E) as [H1 H2]. intros H. destruct (IH R1 Hf H1 H) as [? ->]. done.
Qed.

(** The loop over a batch whose operations are in [gone'], should they be taken back. *)
Lemma add_rounds_ok (gone gone' : taken) P env rounds added R res added' notes R' :
  (∀ o, gone o → gone' o) → Forall typed rounds → (∀ o i, o ∈ rounds → gone' (with_id o i)) → Forall gone' added → adding gone P added R →
  add_rounds env rounds added R = Ok (res, added', notes, R') →
  (if bool_decide (res = Added) then adding gone P added' R' ∧ Forall gone' added' else replica_ok gone' R') ∧ moves (requests R) (requests R').
Proof.
  intros Hsub. revert added R notes. induction rounds as [|o rounds IH]; intros added R notes Ht Hb Hf Hg; cbn [add_rounds]; [intros [= <- <- _ <-]; rewrite bool_decide_true by done; split; [done|reflexivity]|]. apply Forall_cons in Ht as [Ho Ht].
  cbn [NewIdUnlocked]. set (i := OpId.mk (current_term R) (next_index_ R)). set (R1 := set_received _ _ _ _). set (o' := with_id o i). pose proof Hg as [G1 G3 G4 G5 G6 G7].
  assert (Hty : typed o'). { intros Hd. apply Ho. unfold data_of, FromMsg in *. cbn in Hd. destruct (write_request _); [|done]. by destruct (IsNil _). }
  assert (Hb' : ∀ o0 i0, o0 ∈ rounds → gone' (with_id o0 i0)) by (intros o0 i0 H0; apply Hb; by right).
  destruct (AddPendingOperation env o' R1) as [[[res1 n] R2]| | |] eqn:E; [|done..]. cbn [obind]. destruct (add_operation_ok range_time_limit timeout gone env o' R1 res1 n R2 G3 G6 Hty) as [A1 A2 A3 A4 A5 A6 A7]; [exact G4|exact E|].
  assert (Hcancel : res1 ≠ Added → ∀ R3, CancelPendingOperation i false R2 = Ok R3 → adding gone P added R3 ∧ requests R3 = requests R2).
  { intros Hne R3 Ec. rewrite bool_decide_false in A5 by done. eapply cancel_id; [exact Ec|rewrite A3; cbn; lia|]. rewrite A3. intros R0 B1 B2 B3 B4 B5 B6. cbn in A1, A4, A5, B1, B2.
    split; rewrite ?B3, ?B4, ?B5, ?B6, ?A1, ?A4, ?A5; [done|done|lia|done| |intros _; lia]. rewrite A5 in A6. exact A6. }
  destruct (decide (res1 = Added)) as [->|Hne]; [|destruct (decide (res1 = DuplicateRequest)) as [->|Hnd]].
  - destruct (add_rounds env rounds (o' :: added) R2) as [[[[res3 added3] n3] R3]| | |] eqn:E3; [|done..]. cbn [obind]. intros [= <- <- _ <-]. rewrite bool_decide_true in A5 by done.
    destruct (IH (o' :: added) R2 n3 Ht Hb') as [H1 H2]; [constructor; [apply Hb; by left|done]| |exact E3|split; [exact H1|by etrans]]. assert (Hend : end_id (last_committed_op_id_ R2) (pending_operations_ R2) = i) by (by rewrite A5, end_id_app).
    split; rewrite ?Hend; [rewrite A5; cbn [rev]; cbn; by rewrite G1, app_assoc|rewrite A1, A5; apply chain_app; split; [exact G3|]; split; [|done]; apply in_sequence; cbn; lia|rewrite A3; cbn; lia|rewrite A4; cbn; lia|by rewrite A1|done].
  - destruct (CancelPendingOperation i false R2) as [R3| | |] eqn:Ec; [|done..]. cbn [obind]. destruct (Hcancel Hne R3 eq_refl) as [H3 Er]. destruct (add_rounds env rounds added R3) as [[[[res4 added4] n4] R4]| | |] eqn:E4; [|done..].
    cbn [obind]. intros [= <- <- _ <-]. destruct (IH added R3 n4 Ht Hb' Hf H3 E4) as [H1 H2]. split; [exact H1|]. etrans; [exact A7|]. by rewrite <- Er.
  - intros H. assert (Hs : (let! R3 := CancelPendingOperation i false R2 in let! R4 := rollback added R3 in Ok (res1, @nil Operation, n, R4)) = Ok (res, added', notes, R')) by (by destruct res1). clear H.
    destruct (CancelPendingOperation i false R2) as [R3| | |] eqn:Ec; [|done..]. cbn [obind] in Hs. destruct (Hcancel Hne R3 eq_refl) as [H3 Er]. destruct (rollback added R3) as [R4| | |] eqn:E4; [|done..]. cbn [obind] in Hs. injection Hs as <- _ _ <-.
    rewrite bool_decide_false by done. destruct (rollback_ok gone' P added R3 R4 Hf (adding_more _ _ _ _ _ Hsub H3) E4) as [H4 ->]. rewrite Er. done.
Qed.

(** The operations of a batch, with any id. *)
Definition batch (rounds : list Operation) : taken := λ o, ∃ o0 i, o0 ∈ rounds ∧ o = with_id o0 i.

Definition failed (r : AppendResult) : bool := match r with Appended => false | _ => true end.

Lemma append_ok gone env append rounds R r notes R' :
  replica_ok gone R → Forall typed rounds → AppendNewRoundsToQueueUnlocked env append rounds R = Ok (r, notes, R') → r ≠ NotAppended AppendFailed →
  replica_ok (λ o, gone o ∨ failed r = true ∧ batch rounds o) R' ∧ moves (requests R) (requests R').
Proof.
  intros [R1 R2 R3 R5 R4] Ht E Hr. set (gone' := λ o, gone o ∨ batch rounds o). revert E.
  unfold AppendNewRoundsToQueueUnlocked. destruct (add_rounds env rounds [] R) as [[[[res added] n] R1']| | |] eqn:E; [|done..]. cbn [obind].
  destruct (add_rounds_ok gone gone' (pending_operations_ R) env rounds [] R res added n R1') as [Hg M]; [by left|done|intros o i Ho; right; by exists o, i|constructor|split; [by rewrite app_nil_r|done|lia|done|done|done]|exact E|].
  assert (Hfail : ∀ R0, replica_ok gone' R0 → replica_ok (λ o, gone o ∨ true = true ∧ batch rounds o) R0) by (intros R0; apply replica_more; intros o [?|?]; [by left|by right]).
  assert (Hdone : ∀ R0, replica_ok gone R0 → replica_ok (λ o, gone o ∨ false = true ∧ batch rounds o) R0) by (intros R0; apply replica_more; by left).
  case_bool_decide as Er; [subst res; destruct Hg as [Hg Hf]|intros H; destruct res; [done|injection H as <- _ <-; by split; [apply Hfail|]..]].
  destruct added as [|last added]; [intros [= <- _ <-]; split; [apply Hdone; by eapply adding_done|done]|]. pose proof (adding_last _ _ _ _ _ Hg) as Hl. destruct (append _).
  - intros [= <- _ <-]. split; [|done]. apply Hdone. destruct Hg as [G1 G3 G4 G5 G6 G7]. split; cbn; [done|by rewrite Hl|done..].
  - destruct (rollback _ _) as [R2'| | |] eqn:Eb; [|done..]. cbn [obind]. intros [= <- _ <-]. destruct (rollback_ok gone' _ _ _ _ Hf (adding_more gone gone' _ _ _ ltac:(by left) Hg) Eb) as [? ->]. split; [by apply Hfail|done].
  - by intros [= <- _ _].
Qed.

(** The runs of a replica from the end of its bootstrap until the shutdown, and
    the operations of the batches that were not appended since.  An error of the
    queue other than that it is full is left out: the source does not handle it. *)
Inductive preach : taken → replica → Prop :=
  | p_start p t i rr : moves ∅ rr → linked (λ _, False) rr [] (OpId.index i) → OpId.term i <= t → preach (λ _, False) (Replica p t [] i i i (OpId.index i + 1) OpId.Min rr)
  | p_append gone env append rounds R r notes R' :
      preach gone R → Forall typed rounds → AppendNewRoundsToQueueUnlocked env append rounds R = Ok (r, notes, R') → r ≠ NotAppended AppendFailed →
      preach (λ o, gone o ∨ failed r = true ∧ batch rounds o) R'
  | p_follow gone env o R res notes R' :
      preach gone R → typed o → CheckOpInSequence (end_id (last_committed_op_id_ R) (pending_operations_ R)) (op_id o) = true → OpId.term (op_id o) <= current_term R →
      AddPendingOperation env o R = Ok (res, notes, R') → preach gone (if bool_decide (res = Added) then UpdateLastReceivedOpIdUnlocked (op_id o) R' else R')
  | p_advance gone env committed could_stop R res notes R' :
      preach gone R → range_limit env = range_time_limit → AdvanceCommittedOpIdUnlocked env committed could_stop R = Ok (res, notes, R') → preach gone R'
  | p_majority gone env majority R res notes R' :
      preach gone R → range_limit env = range_time_limit → UpdateMajorityReplicatedUnlocked env majority R = Ok (res, notes, R') → preach gone R'
  | p_abort gone env idx R notes R' : preach gone R → range_limit env = range_time_limit → AbortOpsAfterUnlocked env idx R = Ok (notes, R') → preach gone R'
  | p_clean gone now R : preach gone R → preach gone (set_pending R (pending_operations_ R) (CleanExpiredReplicatedAndGetMinOpId timeout now (requests R)).2)
  | p_term gone t R : preach gone R → current_term R < t → preach gone (set_current_term R t)
  | p_phase gone p R : preach gone R → preach gone (set_phase R p).

Lemma preach_ok gone R : preach gone R → replica_ok gone R ∧ moves ∅ (requests R).
Proof.
  induction 1 as [p t i rr M L Ht|gone env append rounds R r notes R' _ [HR M] Ht E Hr|gone env o R res notes R' _ [HR M] Ht Hs Hterm E|gone env committed could_stop R res notes R' _ [HR M] Hlim E
    |gone env majority R res notes R' _ [HR M] Hlim E|gone env idx R notes R' _ [HR M] Hlim E|gone now R _ [HR M]|gone t R _ [HR M] Ht|gone p R _ [HR M]].
  - split; [|done]. by split.
  - destruct (append_ok gone env append rounds R r notes R' HR Ht E Hr). split; [done|by etrans].
  - destruct (follow_ok range_time_limit timeout gone env o R res notes R' HR Ht Hs Hterm E). split; [done|]. etrans; [exact M|]. by destruct (bool_decide _).
  - destruct (advance_ok range_time_limit timeout gone env committed could_stop R res notes R' Hlim HR E). split; [done|by etrans].
  - destruct (majority_ok range_time_limit timeout gone env majority R res notes R' Hlim HR E). split; [done|by etrans].
  - destruct (abort_ok range_time_limit timeout gone env idx R notes R' Hlim HR E). split; [done|by etrans].
  - destruct HR as [R1 R2 R3 R5 R4]. split; [split; [done..|]; by apply (cleaned_linked range_time_limit)|]. etrans; [exact M|]. exists [Cleaned now]. by apply (runs_one range_time_limit timeout (requests R) (Cleaned now)).
  - destruct HR as [R1 R2 R3 R5 R4]. split; [|done]. split; [done..|cbn; lia|done].
  - destruct HR as [R1 R2 R3 R5 R4]. split; [|done]. by split.
Qed.

End Runs.

(** C11: In every run of a replica, with appends that are refused or find the queue full, its record of requests is the result of events that are allowed.  Every request of a pending operation is in flight, registered with the place of the operation in the log; and a request in flight is that of a pending operation, or of a batch that was taken back.  So while no batch is taken back, the requests in flight are exactly those of the pending operations. *)
Theorem requests_follow_pending range_time_limit timeout gone R :
  preach range_time_limit timeout gone R →
  (∃ l, runs range_time_limit timeout ∅ l (requests R)) ∧
  (∀ o w op, o ∈ pending_operations_ R → data_of o = Some (w, op) →
    ∃ q, find_running (request_id w) (running (client_of (requests R) (client_id w))) = Some q ∧ run_op q = op_id o) ∧
  (∀ c q, q ∈ running (client_of (requests R) c) →
    ∃ o w, (o ∈ pending_operations_ R ∨ gone o) ∧ data_of o = Some (w, run_op q) ∧ client_id w = c ∧ request_id w = run_id q).
Proof.
  intros [[_ _ _ _ L] M]%preach_ok. split_and!; [exact M| |apply L]. intros o w op Ho E. destruct (lk_pending _ _ _ _ L o w op Ho E) as (q & Hq & Hop). exists q. split; [done|]. by rewrite Hop, (data_op _ _ _ E).
Qed.

(** The operations that are committed when the index advances. *)
Lemma advance_commits env wait committed could_stop gone R :
  replica_ok gone R → (∀ o, apply_config_change env o = Ok ()) →
  safe_op_id_waiter env = Some wait → (∀ i, OpId.index i <= OpId.index (wait i) ∧ OpId.term i <= OpId.term (wait i)) →
  OpId.index (last_committed_op_id_ R) < OpId.index committed →
  ∃ done res notes R', AdvanceCommittedOpIdUnlocked env committed could_stop R = Ok (res, notes, R') ∧ (pending_operations_ R ≠ [] → ∃ b, res = Changed b) ∧
    pending_operations_ R = done ++ pending_operations_ R' ∧ last_committed_op_id_ R' = end_id (last_committed_op_id_ R) done ∧
    successes notes = op_round <$> done ∧
    (∀ n o, done !! n = Some o → OpId.index (op_id o) = OpId.index (last_committed_op_id_ R) + 1 + Z.of_nat n) ∧
    (∀ o, o ∈ done → OpId.index (op_id o) <= OpId.index committed) ∧
    (could_stop = false → ∀ o, o ∈ pending_operations_ R' → OpId.index committed < OpId.index (op_id o)).
Proof.
  intros [R1 R2 R3 R5 R4] Hcfg Hw Hw2 Hlt. unfold AdvanceCommittedOpIdUnlocked. destruct (Z.leb_spec (OpId.index committed) (OpId.index (last_committed_op_id_ R))); [lia|].
  destruct (pending_operations_ R) as [|o0 l0] eqn:El; [exists [], NoPendingEntries, [], R; rewrite El; split_and!; [done|by intros []|done..|by intros x Hx%elem_of_nil|by intros _ x Hx%elem_of_nil]|]. rewrite <- El in *. rewrite (chain_head R R1). unfold ApplyPendingOperationsUnlocked. rewrite Hw.
  destruct (apply_loop_spec (range_limit env) 0 gone env eq_refl Hcfg (ex_intro _ wait (conj Hw Hw2)) committed could_stop _ OpId.Min _ _ R1 R4) as (done & left & rr' & notes & E & Ed & L & _ & Su & Hd & Hl).
  rewrite E. cbn [obind ap_prev ap_left ap_requests ap_notes ap_ok]. rewrite Ed in R1, R2. apply chain_app in R1 as [C1 C2]. rewrite end_id_app in R2. pose proof (chain_length _ _ C2) as Hlen.
  unfold SetLastCommittedIndexUnlocked. cbn [last_received_op_id_ set_pending]. destruct (Z.leb_spec (OpId.index (end_id (last_committed_op_id_ R) done)) (OpId.index (last_received_op_id_ R))); [|lia].
  rewrite chain_head by exact C2. cbn [obind]. eexists done, _, notes, _. split_and!; [reflexivity|by intros _; eexists|exact Ed|done|done| |done|done]. intros n o Hn. by apply (chain_nth _ done).
Qed.

(** C10: When the index of the operations stored by a majority advances, a replica
    whose configuration changes can be applied commits a prefix of its pending
    operations, in the order of the log, without a gap.  Exactly these rounds are
    told that they succeeded, each once; they are all of those up to the index if
    the replica may not stop in between. *)
Theorem committed_in_order range_time_limit timeout gone env wait committed could_stop R :
  preach range_time_limit timeout gone R → (∀ o, apply_config_change env o = Ok ()) →
  safe_op_id_waiter env = Some wait → (∀ i, OpId.index i <= OpId.index (wait i) ∧ OpId.term i <= OpId.term (wait i)) →
  OpId.index (last_committed_op_id_ R) < OpId.index committed →
  ∃ done res notes R', AdvanceCommittedOpIdUnlocked env committed could_stop R = Ok (res, notes, R') ∧
    pending_operations_ R = done ++ pending_operations_ R' ∧ last_committed_op_id_ R' = end_id (last_committed_op_id_ R) done ∧
    successes notes = op_round <$> done ∧
    (∀ n o, done !! n = Some o → OpId.index (op_id o) = OpId.index (last_committed_op_id_ R) + 1 + Z.of_nat n) ∧
    (∀ o, o ∈ done → OpId.index (op_id o) <= OpId.index committed) ∧
    (could_stop = false → ∀ o, o ∈ pending_operations_ R' → OpId.index committed < OpId.index (op_id o)).
Proof. intros [HR _]%preach_ok Hcfg Hw Hw2 Hlt. destruct (advance_commits env wait committed could_stop gone R HR Hcfg Hw Hw2 Hlt) as (done & res & notes & R' & H1 & _ & H2). by exists done, res, notes, R'. Qed.

Lemma linked_nil gone b : linked gone ∅ [] b.
Proof. split; [intros k; apply wf_no_requests|constructor|by intros o w op Ho%elem_of_nil|by intros c q Hq%elem_of_nil|by intros c r Hr%elem_of_nil]. Qed.

Definition sample_env : Env :=
  {| range_limit := 30; clock_now := 100; leader_term := 1; lease_refused _ := false; mark_pending_config _ := Ok (); apply_config_change _ := Ok ();
     split_of_this_tablet _ := true; should_apply_write _ := true; safe_op_id_waiter := Some (λ i, i) |}.
Definition sample_write (n i : Z) : Operation := Op WRITE_OP (sample_round n i 5 OpId.Min).
Definition sample_rounds : list Operation := [Op NO_OP {| round_number := 0; bound_term := 1; replicate_msg := {| id := OpId.Min; write_request := None |} |}; sample_write 1 5; sample_write 2 6; sample_write 3 5].
Definition sample_start : replica := Replica kRunning 1 [] OpId.Min OpId.Min OpId.Min 1 OpId.Min ∅.
Definition replica_of {A} (d : replica) (o : outcome (A * list Notification * replica)) : replica := match o with Ok r => r.2 | _ => d end.
(** The queue is full for the first batch, and takes the second. *)
Definition sample_refused : replica := replica_of sample_start (AppendNewRoundsToQueueUnlocked sample_env (λ _, ServiceUnavailable) [sample_write 4 7] sample_start).
Definition sample_appended : replica := replica_of sample_refused (AppendNewRoundsToQueueUnlocked sample_env (λ _, AppendOk) sample_rounds sample_refused).
Definition sample_gone : taken := λ o, (False ∨ true = true ∧ batch [sample_write 4 7] o) ∨ false = true ∧ batch sample_rounds o.

Lemma sample_preach : preach 30 120 sample_gone sample_appended.
Proof.
  apply (p_append 30 120 (λ o, False ∨ true = true ∧ batch [sample_write 4 7] o) sample_env (λ _, AppendOk) sample_rounds sample_refused Appended [] sample_appended); [|repeat constructor; by intros H|vm_compute; reflexivity|done].
  apply (p_append 30 120 (λ _, False) sample_env (λ _, ServiceUnavailable) [sample_write 4 7] sample_start (NotAppended ServiceUnavailable) [] sample_refused); [|repeat constructor; by intros H|vm_compute; reflexivity|done].
  apply p_start; [exists []; constructor|apply linked_nil|done].
Qed.

Lemma requests_follow_pending_witness :
  length (pending_operations_ sample_appended) = 3%nat ∧ length (running (client_of (requests sample_appended) (1, 1))) = 3%nat ∧
  ∃ l, runs 30 120 ∅ l (requests sample_appended).
Proof. split; [vm_compute; reflexivity|]. split; [vm_compute; reflexivity|]. apply (requests_follow_pending 30 120 sample_gone sample_appended sample_preach). Defined.

Lemma committed_in_order_witness :
  ∃ done res notes R', AdvanceCommittedOpIdUnlocked sample_env (OpId.mk 1 2) false sample_appended = Ok (res, notes, R') ∧ pending_operations_ sample_appended = done ++ pending_operations_ R' ∧ successes notes = op_round <$> done.
Proof.
  destruct (committed_in_order 30 120 sample_gone sample_env (λ i, i) (OpId.mk 1 2) false sample_appended) as (done & res & notes & R' & E & H1 & _ & H2 & _).
  - exact sample_preach.
  - reflexivity.
  - reflexivity.
  - intros i. split; reflexivity.
  - vm_compute. reflexivity.
  - exists done, res, notes, R'. exact (conj E (conj H1 H2)).
Defined.

(** A request that [Register] accepted is a duplicate the next time. *)
Lemma accepted_then_waits round entry_time now s w op round' entry_time' now' op' :
  FromMsg (replicate_msg round) = Some (w, op) → (Register round entry_time now s).1.1 = true → FromMsg (replicate_msg round') = Some (w, op') →
  (Register round' entry_time' now' (Register round entry_time now s).2).1 = (false, []).
Proof.
  intros E Ha E'. unfold Register in *. rewrite E in *. rewrite E'. set (c := CleanupReplicatedRequests (min_running_id w) (client_of s (client_id w))) in *.
  destruct (request_id w <? min_running_request_id c) eqn:E1; [done|]. destruct (is_replicated (request_id w) (replicated c)) eqn:E2; [done|]. destruct (blocking _ _ _); [done|]. cbn [fst snd].
  rewrite client_of_insert, decide_True by done. set (c1 := set_running _ _). assert (Hc : CleanupReplicatedRequests (min_running_id w) c1 = c1).
  { unfold CleanupReplicatedRequests at 1. destruct (Z.ltb_spec (min_running_request_id c1) (min_running_id w)) as [Hlt|]; [|done]. exfalso. cbn in Hlt. unfold c, CleanupReplicatedRequests in Hlt. destruct (Z.ltb_spec (min_running_request_id (client_of s (client_id w))) (min_running_id w)); cbn in Hlt; lia. }
  rewrite Hc. cbn [c1 set_running replicated min_running_request_id running]. rewrite E1, E2. unfold blocking, find_running. cbn [List.find run_id]. by rewrite Z.eqb_refl.
Qed.

Lemma add_write_ok env o R notes R' :
  op_type o = WRITE_OP → AddPendingOperation env o R = Ok (Added, notes, R') →
  (Register (op_round o) 0 (clock_now env) (requests R)).1.1 = true ∧ requests R' = (Register (op_round o) 0 (clock_now env) (requests R)).2 ∧
  pending_operations_ R' = pending_operations_ R ++ [o] ∧ next_index_ R' = next_index_ R.
Proof.
  intros Et. unfold AddPendingOperation. rewrite Et. do 4 (destruct (_ : bool) in |- *; [done|]). destruct (Register _ _ _ _) as [[[] n] rr]; [|done]. cbn [fst snd]. unfold push_pending. destruct (CheckPendingOperationsHead _); [|done]. by intros [= _ <-].
Qed.

(** C38: When the queue of the leader is full, the operations of the batch are taken
    back, and the write fails.  But its request stays registered as running: a
    retry of the client is taken for a duplicate of a round that is not in the log,
    so it is neither replicated nor answered. *)
Theorem full_queue_strands_request env o w op R notes R' round entry_time now op' :
  op_type o = WRITE_OP → data_of (with_id o (OpId.mk (current_term R) (next_index_ R))) = Some (w, op) →
  AppendNewRoundsToQueueUnlocked env (λ _, ServiceUnavailable) [o] R = Ok (NotAppended ServiceUnavailable, notes, R') →
  FromMsg (replicate_msg round) = Some (w, op') →
  pending_operations_ R' = pending_operations_ R ∧ next_index_ R' = next_index_ R ∧ (Register round entry_time now (requests R')).1 = (false, []).
Proof.
  intros Et E. set (i := OpId.mk _ _) in *. unfold AppendNewRoundsToQueueUnlocked. cbn [add_rounds NewIdUnlocked]. fold i. set (R1 := set_received _ _ _ _). set (o' := with_id o i) in *.
  destruct (AddPendingOperation env o' R1) as [[[res n] R2]| | |] eqn:Ea; [|done..]. cbn [obind]. destruct res; try (destruct (CancelPendingOperation i false R2); done). cbn [obind rollback].
  destruct (add_write_ok env o' R1 n R2 Et Ea) as (Hr & Hq & Hp & Hn). rewrite app_nil_r. unfold CancelPendingOperation. destruct (_ =? _); [|done]. destruct (_ =? _); [|done]. cbn [obind].
  intros H E'. assert (HR : pending_operations_ R' = removelast (pending_operations_ R2) ∧ next_index_ R' = OpId.index i ∧ requests R' = requests R2).
  { revert H. destruct (bool_decide _); cbn [pending_operations_ set_received set_split obind]; rewrite Hp; destruct (pending_operations_ R1 ++ [o']) eqn:Epp; try (by destruct (pending_operations_ R1)); intros [= _ <-]; done. }
  destruct HR as (-> & -> & ->). rewrite Hp, removelast_last, Hq. split_and!; [done..|]. by eapply accepted_then_waits.
Qed.

Lemma full_queue_strands_request_witness :
  (Register (sample_round 7 5 5 (OpId.mk 1 1)) 0 200 (requests (replica_of sample_start (AppendNewRoundsToQueueUnlocked sample_env (λ _, ServiceUnavailable) [sample_write 1 5] sample_start)))).1 = (false, []).
Proof.
  eapply (full_queue_strands_request sample_env (sample_write 1 5) _ _ sample_start []); [reflexivity..|vm_compute; reflexivity|reflexivity].
Defined.

(** C39: A replica that aborts the split of its tablet, because a new leader
    overwrites it, keeps the split as its last one: afterwards it refuses every
    operation but the empty ones of new leaders, although the tablet is not split. *)
Theorem aborted_split_refuses env idx R notes R' split env' o :
  AbortOpsAfterUnlocked env idx R = Ok (notes, R') → OpId.empty (split_op_id R) = false →
  split ∈ pending_operations_ R → op_type split = SPLIT_OP → op_id split = split_op_id R → split ∉ pending_operations_ R' →
  op_type o ≠ NO_OP → ∃ e, e ≠ Added ∧ AddPendingOperation env' o R' = Ok (e, [], R').
Proof.
  intros E Hs _ _ _ _ Ho. assert (Hk : split_op_id R' = split_op_id R).
  { unfold AbortOpsAfterUnlocked in E. destruct (match FindPendingOperation idx _ with Some _ => _ | None => _ end) as [[keep pre]| | |]; [|done..]. cbn [obind] in E. destruct (CheckPendingOperationsHead _); [|done]. by injection E as _ <-. }
  unfold AddPendingOperation. rewrite Hk, Hs. destruct (negb (OpId.operator_lt _ _)); [by exists BeforeSplit|]. destruct (_ && negb (bool_decide (op_type o = NO_OP))); [by exists NotRunning|].
  destruct (op_type o); try done; by exists AfterSplit.
Qed.

Definition sample_split : Operation := with_id (Op SPLIT_OP (op_round (default (sample_write 0 0) (head sample_rounds)))) (OpId.mk 1 1).
Definition split_added : replica := UpdateLastReceivedOpIdUnlocked (OpId.mk 1 1) (replica_of sample_start (AddPendingOperation sample_env sample_split sample_start)).
Definition split_aborted : replica := match AbortOpsAfterUnlocked sample_env 0 split_added with Ok r => r.2 | _ => split_added end.

Lemma aborted_split_refuses_witness : ∃ e, e ≠ Added ∧ AddPendingOperation sample_env (with_id (sample_write 1 5) (OpId.mk 2 1)) split_aborted = Ok (e, [], split_aborted).
Proof.
  eapply (aborted_split_refuses sample_env 0 split_added _ split_aborted sample_split); [vm_compute; reflexivity|reflexivity|by apply list_elem_of_singleton|reflexivity|reflexivity|by apply not_elem_of_nil|done].
Defined.

End PendingRuns.
