(* ===== verification/Followers.v ===== *)
(** * Updates of a follower

    Models how a follower takes the operations of its leader: [UpdateReplica] of
    consensus/raft_consensus.cc and the methods it calls, on the state of
    [PendingOperations].  The write of a new term to the metadata file, the start
    of an operation by the tablet and the log are in [UpdateEnv]. *)

From S2P Require Import Prelude RaftConfig RetryableRequests PendingOperations PeerQueue.

Module Followers.
Import RetryableRequests PendingOperations.
#[local] Existing Instance OpId.t_eq_dec.

Record ConsensusRequestPB := {
  caller_uuid : bytes;
  caller_term : Z;
  preceding_id : OpId.t;
  ops : list Operation;
  committed_op_id : OpId.t;
}.

Record LeaderRequest := { preceding_op_id : OpId.t; messages : list Operation }.

(** [leader_uuid] is empty when no leader is known. *)
Record follower := Follower { rep : replica; leader_uuid : bytes; pending_election_op_id : option OpId.t }.

Record UpdateEnv := {
  base : Env;
  term_written : bool;
  start_operation : Operation → bool;
  last_synced_reset : bool;
  append_operations : list Operation → OpId.t → bool;
  num_sst_files : Z;
}.

Definition set_rep (N : follower) (R : replica) : follower := Follower R (leader_uuid N) (pending_election_op_id N).

Definition GetPendingOpByIndexOrNullUnlocked (index : Z) (R : replica) : option Operation :=
  match FindPendingOperation index (pending_operations_ R) with
  | Some n => pending_operations_ R !! n
  | None => None
  end.

(** Whether the operation is in the log, and whether there is one of another term in its place. *)
Definition IsOpCommittedOrPending (o : OpId.t) (R : replica) : outcome (bool * bool) :=
  if OpId.index o <=? OpId.index (last_committed_op_id_ R) then Ok (true, false)
  else if OpId.index (last_received_op_id_ R) <? OpId.index o then Ok (false, false)
  else
    match GetPendingOpByIndexOrNullUnlocked (OpId.index o) R with
    | None => Fatal
    | Some round => if negb (OpId.term (op_id round) =? OpId.term o) then Ok (false, true) else Ok (true, false)
    end.

(** ** Checking a request *)

(** [None] when an operation below the last one received is not found. *)
Fixpoint dedup_loop (R : replica) (dedup_up_to_index : Z) (preceding : OpId.t) (l : list Operation) : option LeaderRequest :=
  let keep o up_to rest :=
    match dedup_loop R up_to preceding rest with
    | Some d => Some {| preceding_op_id := preceding_op_id d; messages := o :: messages d |}
    | None => None
    end in
  match l with
  | [] => Some {| preceding_op_id := preceding; messages := [] |}
  | o :: rest =>
      let i := OpId.index (op_id o) in
      if i <=? OpId.index (last_committed_op_id_ R) then dedup_loop R dedup_up_to_index (op_id o) rest
      else if i <=? dedup_up_to_index then
        match GetPendingOpByIndexOrNullUnlocked i R with
        | None => None
        | Some round => if bool_decide (op_id round = op_id o) then dedup_loop R dedup_up_to_index (op_id o) rest else keep o i rest
        end
      else keep o dedup_up_to_index rest
  end.

Definition DeduplicateLeaderRequestUnlocked (req : ConsensusRequestPB) (R : replica) : option LeaderRequest :=
  dedup_loop R (OpId.index (last_received_op_id_ R)) (preceding_id req) (ops req).

Fixpoint CheckLeaderRequestOpIdSequence (prev : OpId.t) (l : list Operation) : bool :=
  match l with
  | [] => true
  | o :: rest => if CheckOpInSequence prev (op_id o) then CheckLeaderRequestOpIdSequence (op_id o) rest else false
  end.

Inductive ErrorCode := INVALID_TERM | PRECEDING_ENTRY_DIDNT_MATCH | CANNOT_PREPARE.

(** The answer is an error of the response, or the status of a failure. *)
Inductive Checked (A : Type) := Proceed (a : A) | Refuse (e : ErrorCode) | Fail.
Arguments Proceed {A} _.
Arguments Refuse {A} _.
Arguments Fail {A}.

(** [HandleTermAdvanceUnlocked] of a follower: when the metadata cannot be written,
    the term is changed in memory only. *)
Definition HandleLeaderRequestTermUnlocked (env : UpdateEnv) (caller_term : Z) (N : follower) : Checked () * follower :=
  let R := rep N in
  if caller_term =? current_term R then (Proceed (), N)
  else if caller_term <? current_term R then (Refuse INVALID_TERM, N)
  else if term_written env then (Proceed (), Follower (set_current_term R caller_term) [] (pending_election_op_id N))
  else
    (Fail, set_rep N (Replica (phase R) caller_term (pending_operations_ R) (last_committed_op_id_ R) (last_received_op_id_ R)
                        (last_received_op_id_current_leader_ R) (next_index_ R) (split_op_id R) (requests R))).

Definition EnforceLogMatchingPropertyMatchesUnlocked (env : UpdateEnv) (d : LeaderRequest) (R : replica) : outcome (bool * list Notification * replica) :=
  let! (found, term_mismatch) := IsOpCommittedOrPending (preceding_op_id d) R in
  if found : bool then Ok (true, [], R)
  else if term_mismatch : bool then
    let! (notes, R) := AbortOpsAfterUnlocked (base env) (OpId.index (preceding_op_id d) - 1) R in
    Ok (false, notes, R)
  else Ok (false, [], R).

(** The operations that are replaced by the first message are aborted; not when it is in the log. *)
Definition abort_replaced (env : UpdateEnv) (d : LeaderRequest) (R : replica) : outcome (bool * list Notification * replica) :=
  match messages d with
  | [] => Ok (true, [], R)
  | o :: _ =>
      let! (found, term_mismatch) := IsOpCommittedOrPending (op_id o) R in
      if found : bool then Ok (false, [], R)
      else if term_mismatch : bool then
        let! (notes, R) := AbortOpsAfterUnlocked (base env) (OpId.index (preceding_op_id d)) R in
        Ok (last_synced_reset env, notes, R)
      else Ok (true, [], R)
  end.

Definition CheckLeaderRequestUnlocked (env : UpdateEnv) (req : ConsensusRequestPB) (N : follower) : outcome (Checked LeaderRequest * list Notification * follower) :=
  match DeduplicateLeaderRequestUnlocked req (rep N) with
  | None => Ok (Fail, [], N)
  | Some d =>
      if negb (CheckLeaderRequestOpIdSequence (preceding_op_id d) (messages d)) then Ok (Fail, [], N)
      else
        match HandleLeaderRequestTermUnlocked env (caller_term req) N with
        | (Refuse e, N) => Ok (Refuse e, [], N)
        | (Fail, N) => Ok (Fail, [], N)
        | (Proceed _, N) =>
            let! (matches, notes, R) := EnforceLogMatchingPropertyMatchesUnlocked env d (rep N) in
            if negb matches then Ok (Refuse PRECEDING_ENTRY_DIDNT_MATCH, notes, set_rep N R)
            else
              let! (ok, notes', R) := abort_replaced env d R in
              if negb ok then Ok (Fail, notes ++ notes', set_rep N R)
              else
                check! bool_decide (leader_uuid N = [] ∨ leader_uuid N = caller_uuid req) in
                let N := Follower R (if bool_decide (leader_uuid N = []) then caller_uuid req else leader_uuid N) (pending_election_op_id N) in
                Ok (Proceed d, notes ++ notes', N)
        end
  end.

(** ** The steps of an update *)

Definition GetLastPendingOperationOpIdUnlocked (R : replica) : OpId.t :=
  match last (pending_operations_ R) with Some o => op_id o | None => OpId.Min end.

Definition ok_result (r : AdvanceResult) : bool := match r with Changed _ => true | _ => false end.

Definition EarlyCommitUnlocked (env : UpdateEnv) (req : ConsensusRequestPB) (d : LeaderRequest) (R : replica) : outcome (AdvanceResult * list Notification * replica) :=
  let early := GetLastPendingOperationOpIdUnlocked R in
  let early := if OpId.index (preceding_op_id d) <? OpId.index early then preceding_op_id d else early in
  let early := if OpId.index (committed_op_id req) <? OpId.index early then committed_op_id req else early in
  AdvanceCommittedOpIdUnlocked (base env) early true R.

Definition IsConsensusOnlyOperation (t : OperationType) : bool := match t with NO_OP | CHANGE_CONFIG_OP => true | _ => false end.

Definition StartReplicaOperationUnlocked (env : UpdateEnv) (o : Operation) (R : replica) : outcome (bool * list Notification * replica) :=
  if negb (IsConsensusOnlyOperation (op_type o)) && negb (start_operation env o) then Ok (false, [], R)
  else
    let! (res, notes, R) := AddPendingOperation (base env) o R in
    Ok (bool_decide (res = Added), notes, R).

(** The messages that are prepared, the first ones. *)
Fixpoint prepare_loop (env : UpdateEnv) (l : list Operation) (R : replica) : outcome (list Operation * list Notification * replica) :=
  match l with
  | [] => Ok ([], [], R)
  | o :: rest =>
      let! (ok, notes, R) := StartReplicaOperationUnlocked env o R in
      if ok : bool then
        let! (prepared, notes', R) := prepare_loop env rest R in
        Ok (o :: prepared, notes ++ notes', R)
      else Ok ([], notes, R)
  end.

(** [None] when not one message was prepared; otherwise the request that is left
    and the operation committed with it. *)
Definition EnqueuePreparesUnlocked (env : UpdateEnv) (req : ConsensusRequestPB) (d : LeaderRequest) (R : replica)
    : outcome (option (LeaderRequest * OpId.t) * list Notification * replica) :=
  let! (prepared, notes, R) := prepare_loop env (messages d) R in
  if bool_decide (messages d ≠ [] ∧ prepared = []) then Ok (None, notes, R)
  else
    let committed :=
      match last prepared with
      | Some o => if OpId.operator_lt (op_id o) (committed_op_id req) then op_id o else committed_op_id req
      | None => committed_op_id req
      end in
    Ok (Some ({| preceding_op_id := preceding_op_id d; messages := prepared |}, committed), notes, R).

(** What is given to the log, and the last operation from the leader. *)
Definition EnqueueWritesUnlocked (env : UpdateEnv) (d : LeaderRequest) (committed : OpId.t) (write_empty : bool) : outcome OpId.t :=
  check! negb (bool_decide (messages d ≠ []) || write_empty) || append_operations env (messages d) committed in
  Ok (match last (messages d) with Some o => op_id o | None => preceding_op_id d end).

Definition MarkOperationsAsCommittedUnlocked (env : UpdateEnv) (req : ConsensusRequestPB) (d : LeaderRequest) (last_from_leader : OpId.t) (R : replica)
    : outcome (bool * list Notification * replica) :=
  let apply_up_to := if OpId.index last_from_leader <? OpId.index (committed_op_id req) then last_from_leader else committed_op_id req in
  let commit R :=
    let! (res, notes, R) := AdvanceCommittedOpIdUnlocked (base env) apply_up_to true R in
    Ok (ok_result res, notes, R) in
  match last (messages d) with
  | Some o => commit (UpdateLastReceivedOpIdUnlocked (op_id o) R)
  | None => if OpId.index (last_received_op_id_ R) <? OpId.index (preceding_op_id d) then Ok (false, [], R) else commit R
  end.

Definition FillConsensusResponseOKUnlocked (env : UpdateEnv) (error : option ErrorCode) (R : replica) : PeerQueue.ConsensusResponsePB :=
  {| PeerQueue.error := None;
     PeerQueue.status := Some {|
       PeerQueue.st_last_received := last_received_op_id_ R;
       PeerQueue.st_last_received_current_leader := last_received_op_id_current_leader_ R;
       PeerQueue.st_last_committed_idx := OpId.index (last_committed_op_id_ R);
       PeerQueue.st_last_applied := last_committed_op_id_ R;
       PeerQueue.st_error :=
         match error with
         | None => None
         | Some INVALID_TERM => Some PeerQueue.INVALID_TERM
         | Some PRECEDING_ENTRY_DIDNT_MATCH => Some PeerQueue.PRECEDING_ENTRY_DIDNT_MATCH
         | Some CANNOT_PREPARE => Some PeerQueue.OTHER_CONSENSUS_ERROR
         end |};
     PeerQueue.responder_term := Some (current_term R);
     PeerQueue.response_num_sst_files := num_sst_files env |}.

Record UpdateReplicaResult := { wait_for_op_id : OpId.t; result_term : Z; start_election : bool }.
Definition no_result : UpdateReplicaResult := {| wait_for_op_id := OpId.Min; result_term := OpId.kUnknownTerm; start_election := false |}.

(** [None]: the update failed with a status. *)
Definition UpdateReplica (env : UpdateEnv) (req : ConsensusRequestPB) (N : follower)
    : outcome (option (PeerQueue.ConsensusResponsePB * UpdateReplicaResult) * list Notification * follower) :=
  if negb (bool_decide (phase (rep N) = kRunning)) then Ok (None, [], N)
  else
    let prev_committed_op_id := last_committed_op_id_ (rep N) in
    let! (checked, notes, N) := CheckLeaderRequestUnlocked env req N in
    match checked with
    | Fail => Ok (None, notes, N)
    | Refuse e => Ok (Some (FillConsensusResponseOKUnlocked env (Some e) (rep N), no_result), notes, N)
    | Proceed d =>
        let! (res, notes1, R) := EarlyCommitUnlocked env req d (rep N) in
        if negb (ok_result res) then Ok (None, notes ++ notes1, set_rep N R)
        else
          let! (prepared, notes2, R) := EnqueuePreparesUnlocked env req d R in
          match prepared with
          | None => Ok (Some (FillConsensusResponseOKUnlocked env (Some CANNOT_PREPARE) R, no_result), notes ++ notes1 ++ notes2, set_rep N R)
          | Some (d, committed) =>
              let committed := if OpId.index committed <? OpId.index prev_committed_op_id then prev_committed_op_id else committed in
              let! last_from_leader := EnqueueWritesUnlocked env d committed (bool_decide (prev_committed_op_id ≠ committed)) in
              let! (ok, notes3, R) := MarkOperationsAsCommittedUnlocked env req d last_from_leader R in
              let notes := notes ++ notes1 ++ notes2 ++ notes3 in
              if negb ok then Ok (None, notes, set_rep N R)
              else
                Ok (Some (FillConsensusResponseOKUnlocked env None R,
                     {| wait_for_op_id := if bool_decide (messages d ≠ []) then last_received_op_id_ R else OpId.Min;
                        result_term := current_term R;
                        start_election := match pending_election_op_id N with Some o => OpId.index o <=? OpId.index (last_committed_op_id_ R) | None => false end |}),
                   notes, set_rep N R)
          end
    end.

End Followers.
