(* ===== verification/FollowerRuns.v ===== *)
(** * A follower takes over the log of its leader

    Runs of [Followers]: under requests of one leader, lost, repeated and in any
    order, a follower does not crash, what it commits is a prefix of the log of
    the leader, and what it reports without an error is in both logs. *)

From S2P Require Import Prelude RaftConfig RetryableRequests Retries PendingOperations PendingRuns PeerQueue PeerWatermarks Followers.

Module FollowerRuns.
Import RetryableRequests Retries PendingOperations PendingRuns Followers.
#[local] Existing Instance OpId.t_eq_dec.

(** ** Logs *)

(** [H] is what was committed and applied: the log of a replica is [H] followed
    by its pending operations. *)
Definition log_of (H : list Operation) (R : replica) : list Operation := H ++ pending_operations_ R.

(** Logs that have the same operation id at a place are the same up to there. *)
Definition matching (F L : list Operation) : Prop := ∀ n a b, F !! n = Some a → L !! n = Some b → op_id a = op_id b → take (S n) F = take (S n) L.

Definition agreed (F L : list Operation) (n : nat) : Prop := (n ≤ length F)%nat ∧ (n ≤ length L)%nat ∧ take n F = take n L.

Record log_ok (L : list Operation) : Prop := {
  lo_chain : chain OpId.Min L;
  lo_typed : Forall typed L;
  lo_size : Z.of_nat (length L) < 2 ^ 63;
}.

Section Followers.
(** Operations that were taken back when the replica was a leader. *)
Context (gone : taken).
Abbreviation replica_ok := (replica_ok gone).
Abbreviation linked := (linked gone).

Record follows (H : list Operation) (R : replica) (L : list Operation) : Prop := {
  fo_ok : replica_ok R;
  fo_chain : chain OpId.Min H;
  fo_end : end_id OpId.Min H = last_committed_op_id_ R;
  fo_received : last_received_op_id_ R = end_id OpId.Min (log_of H R);
  fo_prefix : H `prefix_of` L;
  fo_match : matching (log_of H R) L;
  fo_size : Z.of_nat (length (log_of H R)) < 2 ^ 63;
}.

Lemma matching_take F L i : matching F L → matching (take i F) L.
Proof. intros Hm n a b Ha Hb E. apply lookup_take_Some in Ha as [Ha Hn]. rewrite take_take, Nat.min_l by lia. by eapply Hm. Qed.

Lemma matching_self L q : matching (take q L) L.
Proof. intros n a b Ha Hb _. apply lookup_take_Some in Ha as [Ha Hn]. rewrite take_take, Nat.min_l by lia. done. Qed.

Lemma agreed_mono F L n m : agreed F L n → (m ≤ n)%nat → agreed F L m.
Proof. intros (H1 & H2 & H3) Hm. split_and!; [lia..|]. apply (f_equal (take m)) in H3. by rewrite !take_take, Nat.min_l in H3 by lia. Qed.

Lemma log_nth F n o : chain OpId.Min F → F !! n = Some o → OpId.index (op_id o) = Z.of_nat n + 1.
Proof. intros Hc Hn. rewrite (chain_nth _ _ _ _ Hc Hn). cbn. lia. Qed.

Lemma end_take F n : chain OpId.Min F → (n ≤ length F)%nat → OpId.index (end_id OpId.Min (take n F)) = Z.of_nat n.
Proof. intros Hc Hn. rewrite <- (take_drop n F) in Hc. apply chain_app in Hc as [Hc _]. rewrite (chain_length _ _ Hc), length_take. cbn. lia. Qed.

Lemma end_take_S F n o : F !! n = Some o → end_id OpId.Min (take (S n) F) = op_id o.
Proof. intros Hn. by rewrite (take_S_r _ _ _ Hn), end_id_app. Qed.

(** ** The log of a follower *)

Section Follow.
Context (H : list Operation) (R : replica) (L : list Operation).
Hypothesis Hf : follows H R L.
Let F := log_of H R.

Lemma full_chain : chain OpId.Min F.
Proof. apply chain_app. split; [apply Hf|]. rewrite (fo_end _ _ _ Hf). apply (fo_ok _ _ _ Hf). Qed.

Lemma committed_index : OpId.index (last_committed_op_id_ R) = Z.of_nat (length H).
Proof. rewrite <- (fo_end _ _ _ Hf), (chain_length _ _ (fo_chain _ _ _ Hf)). cbn. lia. Qed.

Lemma received_index : OpId.index (last_received_op_id_ R) = Z.of_nat (length F).
Proof. rewrite (fo_received _ _ _ Hf). fold F. rewrite (chain_length _ _ full_chain). cbn. lia. Qed.

Lemma find_pending i : (length H < i ≤ length F)%nat → FindPendingOperation (Z.of_nat i) (pending_operations_ R) = Some (i - length H - 1)%nat.
Proof.
  intros Hi. unfold FindPendingOperation. pose proof (fo_size _ _ _ Hf) as Hs. unfold F, log_of in *. rewrite length_app in *. pose proof committed_index as Hci.
  destruct (pending_operations_ R) as [|o l] eqn:El; [cbn in *; lia|]. rewrite <- El in *. pose proof (ro_chain _ _ (fo_ok _ _ _ Hf)) as Hc. rewrite El in Hc. destruct Hc as [[_ Ho]%in_sequence _].
  assert (Hu : u64 (Z.of_nat i - OpId.index (op_id o)) = Z.of_nat i - Z.of_nat (length H) - 1) by (unfold u64; rewrite Z.mod_small; lia). rewrite Hu.
  destruct (Z.leb_spec (Z.of_nat (length (pending_operations_ R))) (Z.of_nat i - Z.of_nat (length H) - 1)); [lia|]. f_equal. lia.
Qed.

Lemma pending_found i : (length H < i ≤ length F)%nat → GetPendingOpByIndexOrNullUnlocked (Z.of_nat i) R = F !! (i - 1)%nat.
Proof. intros Hi. unfold GetPendingOpByIndexOrNullUnlocked. rewrite find_pending by done. unfold F, log_of. rewrite lookup_app_r by lia. f_equal. lia. Qed.

Lemma is_op_spec o i : OpId.index o = Z.of_nat i →
  IsOpCommittedOrPending o R =
  if decide (i ≤ length H)%nat then Ok (true, false)
  else match F !! (i - 1)%nat with Some x => if OpId.term (op_id x) =? OpId.term o then Ok (true, false) else Ok (false, true) | None => Ok (false, false) end.
Proof.
  intros Ho. unfold IsOpCommittedOrPending. rewrite Ho, committed_index, received_index. case_decide; [destruct (Z.leb_spec (Z.of_nat i) (Z.of_nat (length H))); [done|lia]|].
  destruct (Z.leb_spec (Z.of_nat i) (Z.of_nat (length H))); [lia|]. destruct (Z.ltb_spec (Z.of_nat (length F)) (Z.of_nat i)); [by rewrite lookup_ge_None_2 by lia|].
  rewrite pending_found by lia. destruct (lookup_lt_is_Some_2 F (i - 1)) as [x Hx]; [lia|]. rewrite Hx. by destruct (_ =? _).
Qed.

(** The log and the leader agree up to a place where the ids do. *)
Lemma same_id_agreed n o : (n ≤ length L)%nat → L !! (n - 1)%nat = Some o → (n ≤ length H)%nat ∨ (∃ x, F !! (n - 1)%nat = Some x ∧ op_id x = op_id o) → agreed F L n.
Proof.
  intros Hn Ho [Hh|(x & Hx & E)].
  - destruct (fo_prefix _ _ _ Hf) as [k ->]. unfold F, log_of. split_and!; [rewrite length_app; lia|done|]. rewrite !take_app_le by done. done.
  - destruct n as [|n]; [by split_and!; [lia..|]|]. cbn in *. rewrite Nat.sub_0_r in *. apply lookup_lt_Some in Hx as ?. split_and!; [lia..|]. by eapply (fo_match _ _ _ Hf).
Qed.

Lemma find_before : FindPendingOperation (Z.of_nat (length H)) (pending_operations_ R) = None.
Proof.
  unfold FindPendingOperation. destruct (pending_operations_ R) as [|o l] eqn:El; [done|]. rewrite <- El. pose proof (ro_chain _ _ (fo_ok _ _ _ Hf)) as Hc. rewrite El in Hc. destruct Hc as [[_ Ho]%in_sequence _]. pose proof committed_index.
  assert (Hu : u64 (Z.of_nat (length H) - OpId.index (op_id o)) = 2 ^ 64 - 1) by (replace (Z.of_nat (length H) - OpId.index (op_id o)) with (-1) by lia; done).
  rewrite Hu. pose proof (fo_size _ _ _ Hf) as Hs. unfold log_of in Hs. rewrite length_app in Hs. destruct (Z.leb_spec (Z.of_nat (length (pending_operations_ R))) (2 ^ 64 - 1)); [done|lia].
Qed.

(** Aborting the operations after a place cuts the log there. *)
Lemma abort_follows env i : (length H ≤ i ≤ length F)%nat →
  ∃ notes R', AbortOpsAfterUnlocked env (Z.of_nat i) R = Ok (notes, R') ∧ follows H R' L ∧ log_of H R' = take i F ∧ current_term R' = current_term R ∧ phase R' = phase R.
Proof.
  intros Hi. assert (Hkeep : take i F = H ++ take (i - length H) (pending_operations_ R)) by (unfold F, log_of; rewrite take_app_ge by lia; done).
  assert (Hpre : ∃ pre, (match FindPendingOperation (Z.of_nat i) (pending_operations_ R) with
    | Some n => match pending_operations_ R !! n with Some o => Ok (S n, op_id o) | None => UB end
    | None => check! Z.of_nat i =? OpId.index (last_committed_op_id_ R) in
        Ok (match pending_operations_ R with o :: _ => if Z.of_nat i <? OpId.index (op_id o) then 0%nat else length (pending_operations_ R) | [] => 0%nat end, last_committed_op_id_ R) end)
    = Ok ((i - length H)%nat, pre) ∧ pre = end_id OpId.Min (take i F)).
  { destruct (decide (i = length H)) as [->|Hne].
    - rewrite find_before, committed_index, Z.eqb_refl, Nat.sub_diag. eexists. split; [|by rewrite Hkeep, Nat.sub_diag, take_0, app_nil_r, (fo_end _ _ _ Hf)].
      destruct (pending_operations_ R) as [|o l] eqn:El; [done|]. pose proof (ro_chain _ _ (fo_ok _ _ _ Hf)) as Hc. rewrite El in Hc. destruct Hc as [[_ Ho]%in_sequence _]. pose proof committed_index. destruct (Z.ltb_spec (Z.of_nat (length H)) (OpId.index (op_id o))); [done|lia].
    - rewrite find_pending by lia. unfold F, log_of in Hi. rewrite length_app in Hi. destruct (lookup_lt_is_Some_2 (pending_operations_ R) (i - length H - 1)) as [o Ho]; [lia|]. rewrite Ho. exists (op_id o). split; [do 2 f_equal; lia|].
      rewrite Hkeep, end_id_app. replace (i - length H)%nat with (S (i - length H - 1)) by lia. by rewrite (take_S_r _ _ _ Ho), end_id_app. }
  destruct Hpre as (pre & Epre & Hpre). pose proof (abort_ok (range_limit env) 0 gone env (Z.of_nat i) R) as Hab. unfold AbortOpsAfterUnlocked in *. rewrite Epre in *. cbn [obind] in *. set (n := notify_all _ _ _ _ _) in *.
  rewrite chain_head in * by (cbn; pose proof (ro_chain _ _ (fo_ok _ _ _ Hf)) as Hc; rewrite <- (take_drop (i - length H) (pending_operations_ R)) in Hc; by apply chain_app in Hc as [Hc _]).
  eexists _, _. split; [reflexivity|]. destruct (Hab _ _ eq_refl (fo_ok _ _ _ Hf) eq_refl) as [Hok _]. split; [|by rewrite Hkeep].
  assert (El : log_of H (set_pending (set_received R pre pre (OpId.index pre + 1)) (take (i - length H) (pending_operations_ R)) n.2) = take i F) by (by rewrite Hkeep).
  split; [done|apply Hf|apply Hf|by rewrite El|apply Hf|rewrite El; apply matching_take, Hf|rewrite El, length_take; pose proof (fo_size _ _ _ Hf) as Hs; fold F in Hs; lia].
Qed.

Lemma dedup_rest up_to prec l :
  Forall (λ o, OpId.index (last_committed_op_id_ R) < OpId.index (op_id o) ∧ up_to < OpId.index (op_id o)) l → dedup_loop R up_to prec l = Some {| preceding_op_id := prec; messages := l |}.
Proof.
  induction 1 as [|o l [Hc Hu] _ IH]; [done|]. cbn [dedup_loop]. destruct (Z.leb_spec (OpId.index (op_id o)) (OpId.index (last_committed_op_id_ R))); [lia|]. destruct (Z.leb_spec (OpId.index (op_id o)) up_to); [lia|]. by rewrite IH.
Qed.

Lemma segment_above m n k : chain OpId.Min L → k <= Z.of_nat n → Forall (λ o, k < OpId.index (op_id o)) (take m (drop n L)).
Proof.
  intros Hc Hk. apply Forall_lookup_2. intros i o Ho. apply lookup_take_Some in Ho as [Ho _]. rewrite lookup_drop in Ho. rewrite (log_nth _ _ _ Hc Ho). lia.
Qed.

(** A part of the log of the leader without what the follower has; what is left
    begins after the committed operations, where the logs differ. *)
Lemma dedup_spec m n : chain OpId.Min L → (n + m ≤ length L)%nat →
  ∃ j, (j ≤ m)%nat ∧ dedup_loop R (OpId.index (last_received_op_id_ R)) (end_id OpId.Min (take n L)) (take m (drop n L)) =
    Some {| preceding_op_id := end_id OpId.Min (take (n + j) L); messages := take (m - j) (drop (n + j) L) |} ∧
    ((j < m)%nat → (length H ≤ n + j)%nat ∧ ∀ x o, F !! (n + j)%nat = Some x → L !! (n + j)%nat = Some o → op_id x ≠ op_id o).
Proof.
  intros Hc. revert n. induction m as [|m IH]; intros n Hn; [exists 0%nat; rewrite Nat.add_0_r; split_and!; [lia|done|lia]|].
  destruct (lookup_lt_is_Some_2 L n) as [o Ho]; [lia|]. pose proof (log_nth _ _ _ Hc Ho) as Hi. assert (Hcons : take (S m) (drop n L) = o :: take m (drop (S n) L)) by (by rewrite (drop_S _ _ _ Ho)).
  assert (Hskip : ∃ j, (j ≤ S m)%nat ∧ dedup_loop R (OpId.index (last_received_op_id_ R)) (op_id o) (take m (drop (S n) L)) =
    Some {| preceding_op_id := end_id OpId.Min (take (n + j) L); messages := take (S m - j) (drop (n + j) L) |} ∧
    ((j < S m)%nat → (length H ≤ n + j)%nat ∧ ∀ x o, F !! (n + j)%nat = Some x → L !! (n + j)%nat = Some o → op_id x ≠ op_id o)).
  { destruct (IH (S n)) as (j & Hj & E & Hd); [lia|]. exists (S j). rewrite <- (end_take_S _ _ _ Ho). replace (n + S j)%nat with (S n + j)%nat by lia. split_and!; [lia|exact E|intros ?; apply Hd; lia]. }
  rewrite Hcons. cbn [dedup_loop]. rewrite committed_index, received_index in *. rewrite Hi. destruct (Z.leb_spec (Z.of_nat n + 1) (Z.of_nat (length H))); [exact Hskip|].
  assert (Hkeep : ∀ up_to, up_to <= Z.of_nat n + 1 → (∀ x, F !! n = Some x → op_id x ≠ op_id o) → ∃ j, (j ≤ S m)%nat ∧ match dedup_loop R up_to (end_id OpId.Min (take n L)) (take m (drop (S n) L)) with
      | Some d => Some {| preceding_op_id := preceding_op_id d; messages := o :: messages d |} | None => None end =
    Some {| preceding_op_id := end_id OpId.Min (take (n + j) L); messages := take (S m - j) (drop (n + j) L) |} ∧
    ((j < S m)%nat → (length H ≤ n + j)%nat ∧ ∀ x o, F !! (n + j)%nat = Some x → L !! (n + j)%nat = Some o → op_id x ≠ op_id o)).
  { intros up_to Hu Hne. exists 0%nat. rewrite Nat.add_0_r, Nat.sub_0_r. rewrite dedup_rest; [|eapply Forall_impl; [apply (segment_above m (S n) (Z.of_nat n + 1) Hc); lia|]; intros y Hy; cbv beta in *; rewrite committed_index; lia]. split_and!; [lia|by rewrite Hcons|]. intros _. split; [lia|]. intros x y Hx Hy. rewrite Ho in Hy. injection Hy as <-. by apply Hne. }
  destruct (Z.leb_spec (Z.of_nat n + 1) (Z.of_nat (length F))) as [Hle|Hgt]; [|apply Hkeep; [lia|intros x Hx%lookup_lt_Some; lia]].
  replace (Z.of_nat n + 1) with (Z.of_nat (S n)) by lia. rewrite pending_found by lia. cbn. rewrite Nat.sub_0_r. destruct (lookup_lt_is_Some_2 F n) as [x Hx]; [lia|]. rewrite Hx.
  case_bool_decide; [exact Hskip|]. apply Hkeep; [lia|]. intros y Hy. rewrite Hx in Hy. by injection Hy as <-.
Qed.

End Follow.

(** ** The steps of an update *)

Record env_ok (env : Env) : Prop := {
  eo_mark o : mark_pending_config env o = Ok () ∨ ∃ c, mark_pending_config env o = Err c;
  eo_config o : apply_config_change env o = Ok ();
  eo_wait : ∃ wait, safe_op_id_waiter env = Some wait ∧ ∀ i, OpId.index i <= OpId.index (wait i) ∧ OpId.term i <= OpId.term (wait i);
}.

(** What commits do not change. *)
Definition keeps (R R' : replica) : Prop :=
  last_received_op_id_ R' = last_received_op_id_ R ∧ last_received_op_id_current_leader_ R' = last_received_op_id_current_leader_ R ∧
  current_term R' = current_term R ∧ phase R' = phase R ∧ next_index_ R' = next_index_ R.

Lemma advance_keeps env committed could_stop R res notes R' : AdvanceCommittedOpIdUnlocked env committed could_stop R = Ok (res, notes, R') → keeps R R'.
Proof.
  unfold AdvanceCommittedOpIdUnlocked. destruct (_ <=? _); [by intros [= _ _ <-]|]. destruct (pending_operations_ R); [by intros [= _ _ <-]|]. destruct (CheckPendingOperationsHead R); [|done].
  unfold ApplyPendingOperationsUnlocked, SetLastCommittedIndexUnlocked. destruct (apply_loop _ _ _ _ _ _ _); [|done..]. cbn [obind]. destruct (_ <=? _); [|done]. destruct (CheckPendingOperationsHead _); [|done]. cbn [obind]. by intros [= _ _ <-].
Qed.

Lemma keeps_trans R1 R2 R3 : keeps R1 R2 → keeps R2 R3 → keeps R1 R3.
Proof. intros (K1 & K2 & K3 & K4 & K5) (J1 & J2 & J3 & J4 & J5). unfold keeps. by rewrite J1, J2, J3, J4, J5. Qed.

Lemma prefix_of_take (F : list Operation) n : take n F `prefix_of` F.
Proof. exists (drop n F). by rewrite take_drop. Qed.

(** Commits move the border between the history and the pending operations, as far as both logs agree. *)
Lemma advance_follows env committed H R L n :
  env_ok env → follows H R L → agreed (log_of H R) L n → OpId.index committed <= Z.of_nat n →
  ∃ res notes R' H', AdvanceCommittedOpIdUnlocked env committed true R = Ok (res, notes, R') ∧ ok_result res = true ∧ keeps R R' ∧
    follows H' R' L ∧ log_of H' R' = log_of H R ∧ H `prefix_of` H' ∧ Z.of_nat (length H') <= Z.max (Z.of_nat (length H)) (OpId.index committed).
Proof.
  intros [_ Hcfg (wait & Hw & Hw2)] Hf (Hn1 & Hn2 & Hn3) Hcm. pose proof (committed_index _ _ _ Hf) as Hci. destruct (Z.le_gt_cases (OpId.index committed) (Z.of_nat (length H))) as [Hle|Hgt].
  { exists (Changed false), [], R, H. unfold AdvanceCommittedOpIdUnlocked. destruct (Z.leb_spec (OpId.index committed) (OpId.index (last_committed_op_id_ R))); [|lia]. split_and!; [done..|lia]. }
  destruct (advance_commits env wait committed true gone R (fo_ok _ _ _ Hf) Hcfg Hw Hw2) as (done & res & notes & R' & E & Hres & Hp & Hc & _ & Hidx & Hd & _); [lia|].
  assert (Hpe : pending_operations_ R ≠ []) by (intros Hnil; unfold log_of in Hn1; rewrite Hnil, app_nil_r in Hn1; lia). destruct (Hres Hpe) as [b ->].
  pose proof (advance_keeps _ _ _ _ _ _ _ E) as Hk. destruct (advance_ok (range_limit env) 0 gone env committed true R _ _ R' eq_refl (fo_ok _ _ _ Hf) E) as [Hok _].
  assert (Hlog : log_of (H ++ done) R' = log_of H R) by (unfold log_of; by rewrite Hp, app_assoc). assert (Hch : chain OpId.Min (log_of H R)) by (by apply (full_chain _ _ L)).
  assert (Hlen : Z.of_nat (length (H ++ done)) <= OpId.index committed).
  { rewrite length_app. destruct (last done) as [o|] eqn:El; [|apply last_None in El as ->; cbn; lia]. pose proof El as Hin. rewrite last_lookup in El. specialize (Hidx _ _ El). specialize (Hd o (list_elem_of_lookup_2 _ _ _ El)). apply lookup_lt_Some in El. lia. }
  exists (Changed b), notes, R', (H ++ done). split_and!; [done|done|done| |done|by eexists|lia]. split; [done| | | | |by rewrite Hlog; apply Hf|by rewrite Hlog; apply Hf].
  - unfold log_of in Hch. rewrite Hp, app_assoc in Hch. by apply chain_app in Hch as [Hch _].
  - by rewrite end_id_app, Hc, (fo_end _ _ _ Hf).
  - destruct Hk as [-> _]. rewrite Hlog. apply Hf.
  - replace (H ++ done) with (take (length (H ++ done)) L); [apply prefix_of_take|]. rewrite <- Hlog in *. destruct (agreed_mono _ _ n (length (H ++ done)) (conj Hn1 (conj Hn2 Hn3))) as (_ & _ & <-); [lia|]. unfold log_of. by rewrite take_app_length.
Qed.

Lemma push_total o rr notes R : chain (last_committed_op_id_ R) (pending_operations_ R ++ [o]) → ∃ r, push_pending o rr notes R = Ok r ∧ keeps R r.2.
Proof. intros Hc. unfold push_pending. rewrite chain_head by done. by eexists. Qed.

Lemma add_total env o R : env_ok env → chain (last_committed_op_id_ R) (pending_operations_ R ++ [o]) → ∃ r, AddPendingOperation env o R = Ok r ∧ keeps R r.2.
Proof.
  intros He Hc. unfold AddPendingOperation. do 4 (destruct (_ : bool) in |- *; [by eexists|]).
  destruct (op_type o); try (by apply push_total).
  - destruct (Register _ _ _ _) as [[[] n] rr]; [by apply push_total|by eexists].
  - destruct (eo_mark _ He o) as [->|[c ->]]; [by apply push_total|by eexists].
  - destruct (split_of_this_tablet env o); [|by eexists]. destruct (push_total o (requests R) [] (set_split R (op_id o)) Hc) as (r & Hr & Hk). by exists r.
Qed.

(** While messages are added, the last operation received lags behind. *)
Record preparing (H : list Operation) (R : replica) (L : list Operation) (n : nat) : Prop := {
  pg_end : end_id OpId.Min H = last_committed_op_id_ R;
  pg_log : log_of H R = take n L;
  pg_linked : linked (requests R) (pending_operations_ R) (OpId.index (last_committed_op_id_ R));
}.

Lemma preparing_chain H R L n : chain OpId.Min L → preparing H R L n → chain OpId.Min H ∧ chain (last_committed_op_id_ R) (pending_operations_ R).
Proof. intros Hc [G1 G2 _]. rewrite <- (take_drop n L), <- G2 in Hc. apply chain_app in Hc as [Hc _]. apply chain_app in Hc as [Hc Hc']. by rewrite G1 in Hc'. Qed.

Lemma prepare_spec env k H R L n :
  env_ok (base env) → log_ok L → preparing H R L n → (n + k ≤ length L)%nat →
  ∃ p notes R', prepare_loop env (take k (drop n L)) R = Ok (take p (take k (drop n L)), notes, R') ∧ (p ≤ k)%nat ∧ preparing H R' L (n + p) ∧ keeps R R'.
Proof.
  intros He HL. revert R n. induction k as [|k IH]; intros R n Hg Hn; [exists 0%nat, [], R; rewrite Nat.add_0_r; by split_and!|].
  destruct (lookup_lt_is_Some_2 L n) as [o Ho]; [lia|]. assert (Hcons : take (S k) (drop n L) = o :: take k (drop (S n) L)) by (by rewrite (drop_S _ _ _ Ho)). rewrite Hcons. cbn [prepare_loop].
  assert (Hstop : ∀ (notes : list Notification) R', preparing H R' L n → keeps R R' → ∃ p notes' R'', Ok ([] : list Operation, notes, R') = Ok (take p (o :: take k (drop (S n) L)), notes', R'') ∧ (p ≤ S k)%nat ∧ preparing H R'' L (n + p) ∧ keeps R R'') by (intros notes R' Hg' Hk; exists 0%nat, notes, R'; rewrite Nat.add_0_r; split_and!; [done|lia|done..]).
  unfold StartReplicaOperationUnlocked. destruct (_ && _); cbn [obind]; [by apply Hstop|]. destruct (preparing_chain _ _ _ _ (lo_chain _ HL) Hg) as [HcH HcP]. pose proof Hg as [G1 G2 G3].
  assert (Hlen : (length H + length (pending_operations_ R) = n)%nat) by (apply (f_equal length) in G2; unfold log_of in G2; rewrite length_app, length_take in G2; lia).
  assert (Hend : end_id (last_committed_op_id_ R) (pending_operations_ R) = end_id OpId.Min (take n L)) by (by rewrite <- G2, <- G1; unfold log_of; rewrite end_id_app).
  assert (HS : take (S n) L = H ++ pending_operations_ R ++ [o]) by (rewrite (take_S_r _ _ _ Ho), <- G2; unfold log_of; by rewrite app_assoc).
  assert (Hc1 : chain (last_committed_op_id_ R) (pending_operations_ R ++ [o])) by (pose proof (lo_chain _ HL) as Hc; rewrite <- (take_drop (S n) L), HS in Hc; apply chain_app in Hc as [Hc _]; apply chain_app in Hc as [_ Hc]; by rewrite G1 in Hc).
  destruct (add_total (base env) o R He Hc1) as ([[res notes] R1] & Ea & Hk). cbn in Hk. rewrite Ea. cbn [obind].
  destruct (add_operation_ok (range_limit (base env)) 0 gone (base env) o R res notes R1 HcP G3) as [A1 A2 A3 A4 A5 A6 _]; [by eapply Forall_lookup_1; [apply HL|]|rewrite Hend, (end_take _ _ (lo_chain _ HL)), (log_nth _ _ _ (lo_chain _ HL) Ho); [done|lia]|exact Ea|].
  case_bool_decide as Hres; [|apply Hstop; [|done]; split; [by rewrite A1|unfold log_of; by rewrite A5|by rewrite A1]].
  destruct (IH R1 (S n)) as (p & notes' & R2 & E & Hp & Hg2 & Hk2); [split; [by rewrite A1|unfold log_of; by rewrite A5, HS|by rewrite A1]|lia|]. rewrite E. cbn [obind].
  exists (S p), (notes ++ notes'), R2. split_and!; [done|lia|by replace (n + S p)%nat with (S n + p)%nat by lia|]. by eapply keeps_trans.
Qed.

(** ** Requests of a leader *)

(** The request has [m] operations of the log [L] after the first [n]; [k] are committed. *)
Record sent (L : list Operation) (req : ConsensusRequestPB) (n m k : nat) : Prop := {
  sn_range : (n + m ≤ length L)%nat;
  sn_preceding : preceding_id req = end_id OpId.Min (take n L);
  sn_ops : ops req = take m (drop n L);
  sn_committed : committed_op_id req = end_id OpId.Min (take k L);
  sn_known : (k ≤ length L)%nat;
  sn_term : Forall (λ o, OpId.term (op_id o) <= caller_term req) L;
  sn_caller : 0 <= caller_term req;
}.

Record update_ok (env : UpdateEnv) : Prop := {
  uo_base : env_ok (base env);
  uo_term : term_written env = true;
  uo_log l c : append_operations env l c = true;
}.

(** No other leader is known in the term of the request. *)
Definition leader_ok (req : ConsensusRequestPB) (N : follower) : Prop :=
  current_term (rep N) = caller_term req → leader_uuid N = [] ∨ leader_uuid N = caller_uuid req.

Lemma term_follows H R L t : follows H R L → current_term R <= t → follows H (set_current_term R t) L.
Proof. intros [[R1 R2 R3 R4 R5] F2 F3 F4 F5 F6 F7] Ht. split; [split; [done..|cbn; lia|done]|done..]. Qed.

Lemma sequence_chain prev l : chain prev l → CheckLeaderRequestOpIdSequence prev l = true.
Proof. revert prev. induction l as [|o l IH]; intros prev; [done|]. cbn. intros [-> Hc]. by apply IH. Qed.

Lemma segment_chain L n k : chain OpId.Min L → chain (end_id OpId.Min (take n L)) (take k (drop n L)).
Proof. intros Hc. rewrite <- (take_drop n L) in Hc. apply chain_app in Hc as [_ Hc]. rewrite <- (take_drop k (drop n L)) in Hc. by apply chain_app in Hc as [Hc _]. Qed.

(** What the check leaves of a replica: without new messages its log is as it was. *)
Definition checked_ok (H : list Operation) (L : list Operation) (R0 R : replica) (d : LeaderRequest) (n m : nat) : Prop :=
  ∃ j, (j ≤ m)%nat ∧ d = {| preceding_op_id := end_id OpId.Min (take (n + j) L); messages := take (m - j) (drop (n + j) L) |} ∧ agreed (log_of H R) L (n + j) ∧
    (messages d ≠ [] → log_of H R = take (n + j) L) ∧
    (messages d = [] → last_received_op_id_current_leader_ R = last_received_op_id_current_leader_ R0 ∧ log_of H R = log_of H R0).

(** The preceding operation is in both logs, or the follower cuts its log and answers that it does not match. *)
Lemma enforce_spec env H R L n :
  log_ok L → follows H R L → (n ≤ length L)%nat → ∀ msgs,
  ∃ matches notes R', EnforceLogMatchingPropertyMatchesUnlocked env {| preceding_op_id := end_id OpId.Min (take n L); messages := msgs |} R = Ok (matches, notes, R') ∧
    follows H R' L ∧ current_term R' = current_term R ∧ phase R' = phase R ∧ if matches : bool then R' = R ∧ agreed (log_of H R) L n else True.
Proof.
  intros HL Hf Hn msgs. unfold EnforceLogMatchingPropertyMatchesUnlocked. cbn [preceding_op_id]. pose proof (end_take _ _ (lo_chain _ HL) Hn) as Hi. rewrite (is_op_spec _ _ _ Hf _ n Hi). case_decide as Hh.
  { exists true, [], R. cbn [obind]. split_and!; [done..|]. destruct (fo_prefix _ _ _ Hf) as [q ->]. unfold log_of. split_and!; [rewrite length_app; lia|done|]. by rewrite !take_app_le by done. }
  destruct (log_of H R !! (n - 1)%nat) as [x|] eqn:Hx; [|exists false, [], R; by split_and!]. destruct n as [|n]; [lia|]. destruct (lookup_lt_is_Some_2 L n) as [o Ho]; [lia|]. rewrite (end_take_S _ _ _ Ho) in *. cbn in Hx. rewrite Nat.sub_0_r in Hx.
  destruct (Z.eqb_spec (OpId.term (op_id x)) (OpId.term (op_id o))) as [Et|Et]; cbn [obind].
  - exists true, [], R. split_and!; [done..|]. apply (same_id_agreed _ _ _ Hf _ o); [done|cbn; by rewrite Nat.sub_0_r|]. right. exists x. cbn. rewrite Nat.sub_0_r. split; [done|].
    pose proof (log_nth _ _ _ (full_chain _ _ _ Hf) Hx). pose proof (log_nth _ _ _ (lo_chain _ HL) Ho). destruct (op_id x), (op_id o). cbn in *. f_equal; lia.
  - rewrite Hi. replace (Z.of_nat (S n) - 1) with (Z.of_nat n) by lia. apply lookup_lt_Some in Hx. destruct (abort_follows _ _ _ Hf (base env) n) as (notes & R' & E & Hf' & _ & Ht & Hp); [lia|]. rewrite E. cbn [obind]. by exists false, notes, R'.
Qed.

Lemma agreed_take L n : (n ≤ length L)%nat → agreed (take n L) L n.
Proof. intros Hn. split_and!; [rewrite length_take; lia|done|by rewrite take_take, Nat.min_id]. Qed.

(** Operations in the way of the first message are aborted. *)
Lemma replaced_spec env H R L n k :
  log_ok L → follows H R L → (n + k ≤ length L)%nat → agreed (log_of H R) L n →
  ((0 < k)%nat → (length H ≤ n)%nat ∧ ∀ x o, log_of H R !! n = Some x → L !! n = Some o → op_id x ≠ op_id o) →
  ∃ ok notes R', abort_replaced env {| preceding_op_id := end_id OpId.Min (take n L); messages := take k (drop n L) |} R = Ok (ok, notes, R') ∧
    follows H R' L ∧ current_term R' = current_term R ∧ phase R' = phase R ∧ agreed (log_of H R') L n ∧
    (take k (drop n L) ≠ [] → log_of H R' = take n L) ∧ (take k (drop n L) = [] → R' = R).
Proof.
  intros HL Hf Hn Ha Hd. unfold abort_replaced. cbn [messages preceding_op_id]. destruct k as [|k]; [cbn; exists true, [], R; by split_and!|]. destruct (lookup_lt_is_Some_2 L n) as [o Ho]; [lia|]. rewrite (drop_S _ _ _ Ho). cbn [take].
  destruct Hd as [Hh Hd]; [lia|]. pose proof (log_nth _ _ _ (lo_chain _ HL) Ho) as Hi. rewrite (is_op_spec _ _ _ Hf _ (S n)) by lia. rewrite decide_False by lia. replace (S n - 1)%nat with n by lia. destruct Ha as (Ha1 & Ha2 & Ha3).
  destruct (log_of H R !! n) as [x|] eqn:Hx.
  - specialize (Hd x o eq_refl Ho). pose proof (log_nth _ _ _ (full_chain _ _ _ Hf) Hx). destruct (Z.eqb_spec (OpId.term (op_id x)) (OpId.term (op_id o))) as [Et|Et]; [destruct Hd; destruct (op_id x), (op_id o); cbn in *; f_equal; lia|]. cbn [obind].
    rewrite (end_take _ _ (lo_chain _ HL)) by lia. destruct (abort_follows _ _ _ Hf (base env) n) as (notes & R' & E & Hf' & El & Ht & Hp); [lia|]. rewrite E. cbn [obind]. rewrite Ha3 in El.
    exists (last_synced_reset env), notes, R'. rewrite El. split; [done|]. do 3 (split; [done|]). split; [apply agreed_take; lia|]. by split.
  - cbn [obind]. exists true, [], R. assert (El : log_of H R = take n L) by (apply lookup_ge_None in Hx; rewrite <- Ha3, take_ge by lia; done). rewrite El. split; [done|]. do 3 (split; [done|]). split; [apply agreed_take; lia|]. by split.
Qed.

(** The check after the terms are compared. *)
Lemma check_log_spec env req H N L n k :
  log_ok L → follows H (rep N) L → (n + k ≤ length L)%nat → leader_uuid N = [] ∨ leader_uuid N = caller_uuid req →
  ((0 < k)%nat → (length H ≤ n)%nat ∧ ∀ x o, log_of H (rep N) !! n = Some x → L !! n = Some o → op_id x ≠ op_id o) →
  let d := {| preceding_op_id := end_id OpId.Min (take n L); messages := take k (drop n L) |} in
  ∃ c notes N', (let! (matches, notes, R) := EnforceLogMatchingPropertyMatchesUnlocked env d (rep N) in
      if negb matches then Ok (Refuse PRECEDING_ENTRY_DIDNT_MATCH, notes, set_rep N R)
      else
        let! (ok, notes', R) := abort_replaced env d R in
        if negb ok then Ok (Fail, notes ++ notes', set_rep N R)
        else
          check! bool_decide (leader_uuid N = [] ∨ leader_uuid N = caller_uuid req) in
          let N := Follower R (if bool_decide (leader_uuid N = []) then caller_uuid req else leader_uuid N) (pending_election_op_id N) in
          Ok (Proceed d, notes ++ notes', N)) = Ok (c, notes, N') ∧
    follows H (rep N') L ∧ phase (rep N') = phase (rep N) ∧ (leader_uuid N' = [] ∨ leader_uuid N' = caller_uuid req) ∧ current_term (rep N') = current_term (rep N) ∧
    match c with
    | Proceed d' => d' = d ∧ agreed (log_of H (rep N')) L n ∧ (messages d ≠ [] → log_of H (rep N') = take n L) ∧ (messages d = [] → rep N' = rep N)
    | Refuse _ | Fail => True
    end.
Proof.
  intros HL Hf Hn Hl Hd d. destruct (enforce_spec env H (rep N) L n HL Hf ltac:(lia) (take k (drop n L))) as (matches & notes & R1 & E1 & Hf1 & Ht1 & Hp1 & Hm). fold d in E1. rewrite E1. cbn [obind].
  destruct matches; cbn [negb]; [|exists (Refuse PRECEDING_ENTRY_DIDNT_MATCH), notes, (set_rep N R1); by split_and!]. destruct Hm as [-> Ha].
  destruct (replaced_spec env H (rep N) L n k HL Hf Hn Ha Hd) as (ok & notes' & R2 & E2 & Hf2 & Ht2 & Hp2 & Ha2 & Hm1 & Hm2). fold d in E2. rewrite E2. cbn [obind].
  destruct ok; cbn [negb]; [|exists Fail, (notes ++ notes'), (set_rep N R2); by split_and!]. rewrite (bool_decide_true _ Hl). eexists (Proceed d), _, _. split; [reflexivity|]. cbn [rep leader_uuid].
  split; [done|]. split; [done|]. split; [right; case_bool_decide; [done|by destruct Hl]|]. split; [done|]. split; [done|]. split; [done|]. by split.
Qed.

Lemma check_spec env req H N L n m k :
  update_ok env → log_ok L → sent L req n m k → follows H (rep N) L → leader_ok req N →
  ∃ c notes N', CheckLeaderRequestUnlocked env req N = Ok (c, notes, N') ∧ follows H (rep N') L ∧ phase (rep N') = phase (rep N) ∧ leader_ok req N' ∧ current_term (rep N) <= current_term (rep N') ∧
    match c with
    | Proceed d => ∃ R0, (R0 = rep N ∧ caller_term req = current_term (rep N) ∨ R0 = set_current_term (rep N) (caller_term req)) ∧ checked_ok H L R0 (rep N') d n m ∧ current_term (rep N') = caller_term req
    | Refuse _ | Fail => True
    end.
Proof.
  intros [He Htw Hlog] HL [S1 S2 S3 S4 S5 S6 S7] Hf Hl. unfold CheckLeaderRequestUnlocked, DeduplicateLeaderRequestUnlocked. rewrite S2, S3.
  destruct (dedup_spec _ _ _ Hf m n (lo_chain _ HL) S1) as (j & Hj & E & Hd). rewrite E. cbn [preceding_op_id messages]. rewrite sequence_chain by (apply segment_chain, HL). cbn [negb].
  unfold HandleLeaderRequestTermUnlocked. rewrite Htw. destruct (Z.eqb_spec (caller_term req) (current_term (rep N))) as [Et|Et].
  - destruct (check_log_spec env req H N L (n + j) (m - j)) as (c & notes & N' & E' & F1 & F2 & F3 & F4 & F5); [done..|lia|by apply Hl|intros ?; apply Hd; lia|]. exists c, notes, N'. split; [exact E'|]. split_and!; [done|done|by intros _|lia|].
    destruct c as [d| |]; [|done..]. exists (rep N). destruct F5 as (-> & F5 & F6 & F7). split_and!; [by left; split| |lia]. exists j. split_and!; [done|done|done..|]. intros Hm. by rewrite F7.
  - destruct (Z.ltb_spec (caller_term req) (current_term (rep N))); [by exists (Refuse INVALID_TERM), [], N|]. set (N1 := Follower _ _ _).
    destruct (check_log_spec env req H N1 L (n + j) (m - j)) as (c & notes & N' & E' & F1 & F2 & F3 & F4 & F5); [done|apply term_follows; [done|lia]|lia|by left|intros ?; apply Hd; lia|]. exists c, notes, N'. split; [exact E'|]. split_and!; [done|done|by intros _|rewrite F4; cbn; lia|].
    destruct c as [d| |]; [|done..]. eexists. destruct F5 as (-> & F5 & F6 & F7). split_and!; [by right| |by rewrite F4]. exists j. split; [done|]. split; [done|]. split; [done|]. split; [done|]. intros Hm. by rewrite F7.
Qed.

(** ** An update *)

Lemma last_term L req n m k : sent L req n m k → ∀ i, OpId.term (end_id OpId.Min (take i L)) <= caller_term req.
Proof.
  intros [_ _ _ _ _ Ht H0] i. destruct (last (take i L)) as [o|] eqn:El.
  - apply last_Some in El as [l' El]. rewrite El, end_id_app. cbn. assert (Ho : o ∈ L) by (eapply elem_of_prefix; [|apply (prefix_of_take L i)]; rewrite El; set_solver). rewrite List.Forall_forall in Ht. apply Ht. by apply list_elem_of_In.
  - apply last_None in El as ->. cbn. lia.
Qed.

Lemma preparing_follows H R L n :
  log_ok L → (n ≤ length L)%nat → preparing H R L n → last_received_op_id_ R = end_id OpId.Min (take n L) → next_index_ R = OpId.index (last_received_op_id_ R) + 1 →
  OpId.term (end_id OpId.Min (take n L)) <= current_term R → follows H R L.
Proof.
  intros HL Hn Hg Hr Hi Ht. destruct (preparing_chain _ _ _ _ (lo_chain _ HL) Hg) as [C1 C2]. destruct Hg as [G1 G2 G3].
  assert (Hend : end_id (last_committed_op_id_ R) (pending_operations_ R) = end_id OpId.Min (take n L)) by (by rewrite <- G2, <- G1; unfold log_of; rewrite end_id_app).
  split; [split; [done|by rewrite Hr, Hend|done|by rewrite Hend|done]|done|done|by rewrite G2| |rewrite G2; apply matching_self|rewrite G2, length_take; pose proof (lo_size _ HL); lia].
  etrans; [|apply (prefix_of_take L n)]. rewrite <- G2. by eexists.
Qed.

Lemma early_spec env req H R L n m k n' msgs :
  env_ok (base env) → log_ok L → sent L req n m k → follows H R L → agreed (log_of H R) L n' →
  ∃ res notes R' H', EarlyCommitUnlocked env req {| preceding_op_id := end_id OpId.Min (take n' L); messages := msgs |} R = Ok (res, notes, R') ∧ ok_result res = true ∧ keeps R R' ∧
    follows H' R' L ∧ log_of H' R' = log_of H R ∧ H `prefix_of` H' ∧ Z.of_nat (length H') <= Z.max (Z.of_nat (length H)) (Z.of_nat k).
Proof.
  intros He HL Hs Hf Ha. unfold EarlyCommitUnlocked. cbn [preceding_op_id]. set (e1 := GetLastPendingOperationOpIdUnlocked R). set (e2 := if _ <? OpId.index e1 then _ else e1). set (e3 := if _ <? OpId.index e2 then _ else _).
  pose proof Ha as (_ & Hn & _). pose proof (end_take _ _ (lo_chain _ HL) Hn) as Hi. pose proof (end_take _ _ (lo_chain _ HL) (sn_known _ _ _ _ _ Hs)) as Hk. rewrite <- (sn_committed _ _ _ _ _ Hs) in Hk.
  assert (H2 : OpId.index e2 <= Z.of_nat n') by (subst e2; destruct (Z.ltb_spec (OpId.index (end_id OpId.Min (take n' L))) (OpId.index e1)); lia).
  assert (H3 : OpId.index e3 <= Z.of_nat n' ∧ OpId.index e3 <= Z.of_nat k) by (subst e3; destruct (Z.ltb_spec (OpId.index (committed_op_id req)) (OpId.index e2)); lia).
  destruct (advance_follows (base env) e3 H R L n' He Hf Ha) as (res & notes & R' & H' & E & Hres & K & Hf' & El & Hp & Hl); [lia|]. exists res, notes, R', H'. do 6 (split; [done|]). lia.
Qed.

(** Committing at the end of an update, up to the place the logs agree to. *)
Lemma mark_spec env req H R L n m k n2 d :
  env_ok (base env) → log_ok L → sent L req n m k → (n2 ≤ length L)%nat →
  let lfl := end_id OpId.Min (take n2 L) in
  match last (messages d) with
  | Some o => op_id o = lfl ∧ follows H (UpdateLastReceivedOpIdUnlocked lfl R) L ∧ log_of H R = take n2 L
  | None => preceding_op_id d = lfl ∧ follows H R L ∧ agreed (log_of H R) L n2
  end →
  ∃ notes R' H', MarkOperationsAsCommittedUnlocked env req d lfl R = Ok (true, notes, R') ∧ follows H' R' L ∧ log_of H' R' = log_of H R ∧ H `prefix_of` H' ∧
    Z.of_nat (length H') <= Z.max (Z.of_nat (length H)) (Z.of_nat k) ∧ keeps (match last (messages d) with Some _ => UpdateLastReceivedOpIdUnlocked lfl R | None => R end) R'.
Proof.
  intros He HL Hs Hn lfl Hm. unfold MarkOperationsAsCommittedUnlocked. set (a := if _ <? _ then _ else _). pose proof (end_take _ _ (lo_chain _ HL) Hn) as Hi. fold lfl in Hi. pose proof (end_take _ _ (lo_chain _ HL) (sn_known _ _ _ _ _ Hs)) as Hk. rewrite <- (sn_committed _ _ _ _ _ Hs) in Hk.
  assert (Ha : OpId.index a <= Z.of_nat n2 ∧ OpId.index a <= Z.of_nat k) by (subst a; destruct (Z.ltb_spec (OpId.index lfl) (OpId.index (committed_op_id req))); lia).
  assert (Hgo : ∀ R1, follows H R1 L → agreed (log_of H R1) L n2 → ∃ notes R' H', (let! (res, notes, R) := AdvanceCommittedOpIdUnlocked (base env) a true R1 in Ok (ok_result res, notes, R)) = Ok (true, notes, R') ∧
    follows H' R' L ∧ log_of H' R' = log_of H R1 ∧ H `prefix_of` H' ∧ Z.of_nat (length H') <= Z.max (Z.of_nat (length H)) (Z.of_nat k) ∧ keeps R1 R').
  { intros R1 Hf Hag. destruct (advance_follows (base env) a H R1 L n2 He Hf Hag) as (res & notes & R' & H' & E & Hres & K & Hf' & El & Hp & Hl); [lia|]. rewrite E. cbn [obind]. rewrite Hres. exists notes, R', H'. do 4 (split; [done|]). split; [lia|done]. }
  destruct (last (messages d)) as [o|].
  - destruct Hm as (-> & Hf & El). apply (Hgo (UpdateLastReceivedOpIdUnlocked lfl R)); [done|]. change (log_of H (UpdateLastReceivedOpIdUnlocked lfl R)) with (log_of H R). rewrite El. by apply agreed_take.
  - destruct Hm as (-> & Hf & Hag). rewrite (received_index _ _ _ Hf), Hi. destruct Hag as (Hag1 & Hag). destruct (Z.ltb_spec (Z.of_nat (length (log_of H R))) (Z.of_nat n2)); [lia|]. by apply Hgo.
Qed.

(** The last operation that a follower has noted for the leader is before the
    place [n], or both logs have it. *)
Definition noted (H L : list Operation) (R : replica) (n : nat) : Prop :=
  OpId.index (last_received_op_id_current_leader_ R) <= Z.of_nat n ∨ ∃ q, agreed (log_of H R) L q ∧ OpId.index (last_received_op_id_current_leader_ R) <= Z.of_nat q.

(** What a response without an error says: the logs agree up to the operation
    before the messages, and up to the last one noted for this leader. *)
Definition reports (H H' : list Operation) (L : list Operation) (R R' : replica) (t : Z) (n : nat) (r : PeerQueue.ConsensusResponsePB) : Prop :=
  ∃ st, PeerQueue.status r = Some st ∧ PeerQueue.st_last_received st = last_received_op_id_ R' ∧ PeerQueue.st_last_received_current_leader st = last_received_op_id_current_leader_ R' ∧
    PeerQueue.st_last_committed_idx st = Z.of_nat (length H') ∧
    (PeerQueue.st_error st = None → ∃ q, (n ≤ q)%nat ∧ agreed (log_of H' R') L q ∧
      ((t = current_term R → noted H L R n) → noted H' L R' q)).

Lemma fill_reports env e H H' L R R' t n : follows H' R' L →
  (e = None → ∃ q, (n ≤ q)%nat ∧ agreed (log_of H' R') L q ∧ ((t = current_term R → noted H L R n) → noted H' L R' q)) →
  reports H H' L R R' t n (FillConsensusResponseOKUnlocked env e R').
Proof. intros Hf Hq. eexists. split; [reflexivity|]. cbn. split_and!; [done|done|apply (committed_index _ _ _ Hf)|]. destruct e as [[]|]; [done..|]. by intros _; apply Hq. Qed.

(** The state in which operations are marked as committed. *)
Definition enqueued (H L : list Operation) (R : replica) (d : LeaderRequest) (n2 : nat) : Prop :=
  match last (messages d) with
  | Some o => op_id o = end_id OpId.Min (take n2 L) ∧ follows H (UpdateLastReceivedOpIdUnlocked (end_id OpId.Min (take n2 L)) R) L ∧ log_of H R = take n2 L
  | None => preceding_op_id d = end_id OpId.Min (take n2 L) ∧ follows H R L ∧ agreed (log_of H R) L n2
  end.

Lemma enqueue_spec env req H R L n m k n' k' :
  env_ok (base env) → log_ok L → sent L req n m k → follows H R L → (n' + k' ≤ length L)%nat → agreed (log_of H R) L n' → current_term R = caller_term req →
  let d := {| preceding_op_id := end_id OpId.Min (take n' L); messages := take k' (drop n' L) |} in
  (messages d ≠ [] → log_of H R = take n' L) →
  ∃ prepared notes R', EnqueuePreparesUnlocked env req d R = Ok (prepared, notes, R') ∧ keeps R R' ∧
    match prepared with
    | None => follows H R' L
    | Some (d', c) => ∃ n2, (n' ≤ n2 ≤ length L)%nat ∧ enqueued H L R' d' n2 ∧ (messages d' = [] → messages d = [] ∧ R' = R)
    end.
Proof.
  intros He HL Hs Hf Hn Ha Ht d Hm. unfold EnqueuePreparesUnlocked. destruct (decide (messages d = [])) as [Hnil|Hne].
  { rewrite Hnil. cbn [prepare_loop obind]. rewrite bool_decide_false by (by intros [[] _]). cbn [last]. eexists (Some _), [], R. split; [reflexivity|]. split; [done|]. exists n'. split; [lia|]. split; [by split|done]. }
  assert (Hg : preparing H R L n') by (split; [apply Hf|by apply Hm|apply (fo_ok _ _ _ Hf)]).
  destruct (prepare_spec env k' H R L n' He HL Hg Hn) as (p & notes & R' & E & Hp & Hg' & Hk). cbn [messages d] in *. rewrite E. cbn [obind].
  assert (Hback : p = 0%nat → follows H R' L).
  { intros ->. rewrite Nat.add_0_r in Hg'. destruct Hk as (K1 & _ & K3 & _ & K5). apply (preparing_follows _ _ _ n'); [done|lia|done|rewrite K1, (fo_received _ _ _ Hf); by rewrite Hm|rewrite K5, K1; apply (fo_ok _ _ _ Hf)|rewrite K3, Ht; by eapply last_term]. }
  case_bool_decide as Hp0.
  { destruct Hp0 as [_ Hp0]. exists None, notes, R'. split; [done|]. split; [done|]. apply Hback. destruct p; [done|]. exfalso. by destruct (take k' (drop n' L)). }
  eexists (Some _), notes, R'. split; [reflexivity|]. split; [done|]. exists (n' + p)%nat. split; [lia|]. split; [|intros Hd; cbn in Hd; destruct Hp0; by split]. unfold enqueued. cbn [messages preceding_op_id].
  destruct (last (take p (take k' (drop n' L)))) as [o|] eqn:El; [|destruct Hp0; split; [done|by apply last_None]]. rewrite take_take, Nat.min_l in El by lia.
  assert (Ho : op_id o = end_id OpId.Min (take (n' + p) L)) by (rewrite <- take_take_drop, end_id_app; apply last_Some in El as [l' ->]; by rewrite end_id_app).
  split; [done|]. split; [|apply Hg']. destruct Hk as (_ & _ & K3 & _ & _). apply (preparing_follows _ _ _ (n' + p)); [done|lia|by split; apply Hg'|done|done|cbn; rewrite K3, Ht; by eapply last_term].
Qed.

(** What an update leaves of a follower: its history grows up to what the leader
    has committed, and its answer is true. *)
Definition updated (H L : list Operation) (N : follower) (req : ConsensusRequestPB) (n k : nat) (res : option (PeerQueue.ConsensusResponsePB * UpdateReplicaResult)) (N' : follower) : Prop :=
  ∃ H', follows H' (rep N') L ∧ H `prefix_of` H' ∧ Z.of_nat (length H') <= Z.max (Z.of_nat (length H)) (Z.of_nat k) ∧ leader_ok req N' ∧ current_term (rep N) <= current_term (rep N') ∧
    match res with Some (r, _) => reports H H' L (rep N) (rep N') (caller_term req) n r | None => True end.

Lemma enqueue_writes_spec env H L R d n2 c b : (∀ l c, append_operations env l c = true) → enqueued H L R d n2 → EnqueueWritesUnlocked env d c b = Ok (end_id OpId.Min (take n2 L)).
Proof. intros Hl He. unfold EnqueueWritesUnlocked. rewrite Hl, orb_true_r. unfold enqueued in He. destruct (last (messages d)); destruct He as [-> _]; done. Qed.

Lemma update_spec env req H N L n m k :
  update_ok env → log_ok L → sent L req n m k → follows H (rep N) L → leader_ok req N →
  ∃ res notes N', UpdateReplica env req N = Ok (res, notes, N') ∧ updated H L N req n k res N'.
Proof.
  intros Hu HL Hs Hf Hl. unfold UpdateReplica. destruct (negb _); [exists None, [], N; split; [done|]; exists H; split_and!; [done..|lia|done|lia|done]|].
  destruct (check_spec env req H N L n m k Hu HL Hs Hf Hl) as (c & notes & N1 & E1 & Hf1 & Hp1 & Hl1 & Ht1 & Hc). rewrite E1. cbn [obind]. destruct c as [d|e|].
  2: { eexists (Some _), notes, N1. split; [reflexivity|]. exists H. split_and!; [done..|lia|done|lia|]. by apply fill_reports. }
  2: { exists None, notes, N1. split; [done|]. exists H. split_and!; [done..|lia|done|lia|done]. }
  destruct Hc as (R0 & HR0 & (j & Hj & -> & Ha & Hm1 & Hm2) & Hct). cbn [messages] in *. destruct Hu as [He _ Hlog].
  destruct (early_spec env req H (rep N1) L n m k (n + j) (take (m - j) (drop (n + j) L)) He HL Hs Hf1 Ha) as (res2 & notes2 & R2 & H2 & E2 & Hres2 & K2 & Hf2 & El2 & Hp2 & Hb2). rewrite E2. cbn [obind]. rewrite Hres2. cbn [negb].
  pose proof (sn_range _ _ _ _ _ Hs) as Hr. rewrite <- El2 in Ha, Hm1. destruct (enqueue_spec env req H2 R2 L n m k (n + j) (m - j) He HL Hs Hf2) as (pr & notes3 & R3 & E3 & K3 & H3); [lia|done|destruct K2 as (_ & _ & -> & _); done|done|]. rewrite E3. cbn [obind].
  assert (K23 : keeps (rep N1) R3) by (by eapply keeps_trans). assert (Hl3 : ∀ R', current_term R' = current_term R3 → leader_ok req (set_rep N1 R')) by (intros R' ER'; unfold leader_ok; cbn; destruct K23 as (_ & _ & K & _); rewrite ER', K; exact Hl1).
  assert (Ht3 : current_term (rep N) <= current_term R3) by (destruct K23 as (_ & _ & -> & _); done).
  destruct pr as [[d3 c3]|]; [|eexists (Some _), _, _; split; [reflexivity|]; exists H2; split_and!; [done..|by apply Hl3|done|]; by apply fill_reports].
  destruct H3 as (n2 & Hn2 & Hq & Hnil). rewrite (enqueue_writes_spec env H2 L R3 d3 n2 _ _ Hlog Hq). cbn [obind].
  destruct (mark_spec env req H2 R3 L n m k n2 d3 He HL Hs) as (notes4 & R4 & H4 & E4 & Hf4 & El4 & Hp4 & Hb4 & K4); [lia|exact Hq|]. rewrite E4. cbn [obind negb].
  eexists (Some _), _, _. split; [reflexivity|]. exists H4. cbn [rep set_rep]. assert (Ht4 : current_term R4 = current_term R3) by (destruct K4 as (_ & _ & -> & _); by destruct (last _)).
  split_and!; [done|by etrans|lia|by apply Hl3|by rewrite Ht4|]. apply fill_reports; [done|]. intros _. exists n2. split; [lia|]. unfold noted. rewrite El4. destruct K4 as (_ & Kc & _). rewrite Kc. unfold enqueued in Hq. destruct (last (messages d3)) as [o|] eqn:Elast.
  - destruct Hq as (_ & _ & ->). split; [apply agreed_take; lia|]. intros _. left. cbn. rewrite (end_take _ _ (lo_chain _ HL)); lia.
  - destruct Hq as (_ & _ & Hag). split; [done|]. apply last_None in Elast. destruct K23 as (_ & -> & _). destruct (Hnil Elast) as [Hd ->]. destruct (Hm2 Hd) as [Hm3 Hm4]. rewrite El2, Hm3, Hm4.
    destruct HR0 as [[-> Et]| ->]; [|left; cbn; lia]. intros Hcl. destruct (Hcl Et) as [?|?]; [left; lia|by right].
Qed.

(** ** Properties *)

(** The updates in the order in which they arrive. *)
Fixpoint run_updates (l : list (UpdateEnv * ConsensusRequestPB)) (N : follower) : outcome follower :=
  match l with
  | [] => Ok N
  | (env, req) :: l => let! (_, _, N) := UpdateReplica env req N in run_updates l N
  end.

(** C8: A follower that gets requests of one leader, each with any part of its log,
    in any order, repeated or lost, does not crash.  What it has committed only
    grows and stays a prefix of the log of the leader, and its log keeps the log
    matching property: where it has the same operation id as the leader, it has the
    same operations up to there. *)
Theorem follower_follows_leader u t L l H N :
  log_ok L → follows H (rep N) L → (current_term (rep N) = t → leader_uuid N = [] ∨ leader_uuid N = u) →
  Forall (λ p, update_ok p.1 ∧ caller_uuid p.2 = u ∧ caller_term p.2 = t ∧ ∃ n m k, sent L p.2 n m k) l →
  ∃ N' H', run_updates l N = Ok N' ∧ H `prefix_of` H' ∧ H' `prefix_of` L ∧ end_id OpId.Min H' = last_committed_op_id_ (rep N') ∧
    matching (H' ++ pending_operations_ (rep N')) L.
Proof.
  intros HL Hf Hl Hall. revert H N Hf Hl. induction Hall as [|[env req] l (Hu & Eu & Et & n & m & k & Hs) _ IH]; intros H N Hf Hl.
  { exists N, H. split_and!; [done|done|apply Hf..]. }
  cbn [fst snd] in *. destruct (update_spec env req H N L n m k Hu HL Hs Hf) as (res & notes & N1 & E & H1 & Hf1 & Hp1 & _ & Hl1 & _); [unfold leader_ok; by rewrite Eu, Et|].
  cbn [run_updates]. rewrite E. cbn [obind]. destruct (IH H1 N1 Hf1) as (N' & H' & E' & Hp & R); [unfold leader_ok in Hl1; by rewrite Eu, Et in Hl1|]. exists N', H'. split; [done|]. split; [by etrans|done].
Qed.

(** The cache of the leader knows its log. *)
Definition tells (log : PeerQueue.LogCache) (L : list Operation) : Prop :=
  ∀ i o, PeerQueue.LookupOpId log i = Ok o → 0 < i → ∃ x, L !! Z.to_nat (i - 1) = Some x ∧ op_id x = o.

Lemma last_agreed H R L log : follows H R L → tells log L → PeerQueue.IsOpInLog log (last_received_op_id_ R) = Ok true → agreed (log_of H R) L (length (log_of H R)).
Proof.
  intros Hf Ht Hin. pose proof (received_index _ _ _ Hf) as Hi. set (F := log_of H R) in *. destruct (last F) as [y|] eqn:El; [|apply last_None in El as ->; split_and!; cbn; lia || done]. pose proof El as El2. rewrite last_lookup in El. apply last_Some in El2 as [F' EF].
  assert (Hy : op_id y = last_received_op_id_ R) by (rewrite (fo_received _ _ _ Hf); fold F; by rewrite EF, end_id_app). assert (Hpos : (0 < length F)%nat) by (rewrite EF, length_app; cbn; lia).
  unfold PeerQueue.IsOpInLog in Hin. destruct (PeerQueue.LookupOpId log (OpId.index (last_received_op_id_ R))) as [o|c| |] eqn:Elk; [|destruct c; done|done..]. injection Hin as Hin%bool_decide_eq_true.
  destruct (Ht _ _ Elk) as (x & Hx & Ex); [lia|]. rewrite Hi in Hx. replace (Z.to_nat (Z.of_nat (length F) - 1)) with (pred (length F)) in Hx by lia. apply lookup_lt_Some in Hx as Hlx.
  split_and!; [lia|lia|]. replace (length F) with (S (pred (length F))) by lia. eapply (fo_match _ _ _ Hf); [exact El|exact Hx|congruence].
Qed.

(** C9: What a follower answers to a request is true, so that the leader may count on it: a response without an error moves its position in the queue of the leader to an operation up to which both logs agree, or leaves it where it was.  This holds when the last operation the follower has noted for its leader is one that both logs have, or the request does not begin before it: after a mismatch it notes an operation of its own, and a request from before that arrives later would be answered with it. *)
Theorem follower_answers_honest env req H N L n m k log :
  update_ok env → log_ok L → sent L req n m k → follows H (rep N) L → leader_ok req N → tells log L →
  (caller_term req = current_term (rep N) → noted H L (rep N) n) →
  ∃ res notes N' H', UpdateReplica env req N = Ok (res, notes, N') ∧ follows H' (rep N') L ∧
    ∀ r result stored u q, res = Some (r, result) → (∀ i, agreed (log_of H' (rep N')) L i → Z.of_nat i <= stored u) → u ≠ PeerQueue.local_peer_uuid_ q →
      (∀ p, PeerQueue.peers_map_ q !! u = Some p → PeerWatermarks.counts q u p ∨ OpId.index (PeerQueue.last_received p) <= stored u) →
      PeerWatermarks.honest log stored u r q.
Proof.
  intros Hu HL Hs Hf Hl Ht Hcur. destruct (update_spec env req H N L n m k Hu HL Hs Hf Hl) as (res & notes & N' & E & H' & Hf' & _ & _ & _ & _ & Hrep). exists res, notes, N', H'. split; [done|]. split; [done|].
  intros r result stored u q -> Hst Hlocal Hpeer p Hp Hfree. destruct Hfree as [Hfree|]; [|done]. destruct Hrep as (st & Est & E1 & E2 & _ & Hq). destruct (Hq (Hfree st Est)) as (i & Hi & Hag & Hcl). unfold PeerWatermarks.believed. rewrite Est, E1, E2.
  assert (Hsti : OpId.index (last_received_op_id_current_leader_ (rep N')) <= stored u) by (pose proof (Hst i Hag); destruct (Hcl Hcur) as [?|(j & Hj & ?)]; [lia|pose proof (Hst j Hj); lia]). specialize (Hpeer p Hp).
  destruct (PeerQueue.IsOpInLog log (last_received_op_id_ (rep N'))) as [[]| | |] eqn:Ein; [left; rewrite (received_index _ _ _ Hf'); apply Hst; by eapply last_agreed|..]; (case_bool_decide; [left; lia|]; destruct Hpeer; [by right|by left]).
Qed.

End Followers.

(** A leader of term 3 and a follower whose second operation is left from term 2. *)
Definition first_op : Operation := Op NO_OP {| round_number := 1; bound_term := 1; replicate_msg := {| id := OpId.mk 1 1; write_request := None |} |}.
Definition stale_op : Operation := Op WRITE_OP (sample_round 9 7 5 (OpId.mk 2 2)).
Definition leader_log : list Operation := [first_op; Op WRITE_OP (sample_round 2 5 5 (OpId.mk 3 2)); Op WRITE_OP (sample_round 3 6 5 (OpId.mk 3 3))].
Definition follower0 : replica := set_current_term sample_start 2.
Definition follower1 : replica := UpdateLastReceivedOpIdUnlocked (OpId.mk 1 1) (replica_of follower0 (AddPendingOperation sample_env first_op follower0)).
Definition follower2 : replica := UpdateLastReceivedOpIdUnlocked (OpId.mk 2 2) (replica_of follower1 (AddPendingOperation sample_env stale_op follower1)).
Definition sample_follower : follower := Follower follower2 [2] None.
Definition sample_update : UpdateEnv := {| base := sample_env; term_written := true; start_operation _ := true; last_synced_reset := true; append_operations _ _ := true; num_sst_files := 0 |}.
Definition part (n m k : nat) : ConsensusRequestPB :=
  {| caller_uuid := [1]; caller_term := 3; preceding_id := end_id OpId.Min (take n leader_log); ops := take m (drop n leader_log); committed_op_id := end_id OpId.Min (take k leader_log) |}.

Lemma leader_log_ok : log_ok leader_log.
Proof. split; [split_and!; done|repeat (apply List.Forall_cons; [by intros ?|]); apply List.Forall_nil|done]. Qed.

Lemma sample_update_ok : update_ok sample_update.
Proof. split; [split; [by left|done|exists (λ i, i); done]|done|done]. Qed.

Lemma part_sent n m k : (n + m ≤ 3)%nat → (k ≤ 3)%nat → sent leader_log (part n m k) n m k.
Proof. intros. split; [done..|cbn; repeat (apply List.Forall_cons; [cbn; lia|]); apply List.Forall_nil|cbn; lia]. Qed.

Definition none_taken : taken := λ _, False.

Lemma follower2_ok : replica_ok none_taken follower2.
Proof.
  apply (preach_ok 30 120). apply (p_follow 30 120 none_taken sample_env stale_op follower1 Added [] (replica_of follower1 (AddPendingOperation sample_env stale_op follower1))); [|by intros ?|vm_compute; reflexivity|vm_compute; congruence|vm_compute; reflexivity].
  apply (p_follow 30 120 none_taken sample_env first_op follower0 Added [] (replica_of follower0 (AddPendingOperation sample_env first_op follower0))); [|by intros ?|vm_compute; reflexivity|vm_compute; congruence|vm_compute; reflexivity].
  apply p_term; [|done]. apply p_start; [exists []; constructor|apply linked_nil|done].
Qed.

Lemma sample_follows : follows none_taken [] follower2 leader_log.
Proof.
  split; [apply follower2_ok|done|vm_compute; reflexivity|vm_compute; reflexivity|apply prefix_nil| |vm_compute; reflexivity].
  intros [|[|n]] a b; vm_compute; intros [= <-] [= <-]; congruence.
Qed.

Lemma follower_follows_leader_witness :
  ∃ N' H', run_updates [(sample_update, part 2 1 1); (sample_update, part 1 2 2); (sample_update, part 1 1 1)] sample_follower = Ok N' ∧ H' `prefix_of` leader_log ∧ end_id OpId.Min H' = last_committed_op_id_ (rep N').
Proof.
  destruct (follower_follows_leader none_taken [1] 3 leader_log [(sample_update, part 2 1 1); (sample_update, part 1 2 2); (sample_update, part 1 1 1)] [] sample_follower) as (N' & H' & E & _ & Hp & Hc & _).
  - apply leader_log_ok.
  - apply sample_follows.
  - vm_compute. congruence.
  - repeat (apply List.Forall_cons; [split; [apply sample_update_ok|split; [done|split; [done|eexists _, _, _; apply part_sent; lia]]]|]). apply List.Forall_nil.
  - exists N', H'. exact (conj E (conj Hp Hc)).
Defined.

Definition sample_cache : PeerQueue.LogCache := {|
  PeerQueue.LookupOpId i := match (if i <=? 0 then None else leader_log !! Z.to_nat (i - 1)) with Some o => Ok (op_id o) | None => Err NotFound end;
  PeerQueue.HasOpBeenWritten i := i <=? 3;
  PeerQueue.cdc_op_id_to_evict := OpId.Max |}.

Lemma sample_tells : tells sample_cache leader_log.
Proof. intros i o. cbn. destruct (Z.leb_spec i 0); [lia|]. destruct (leader_log !! _) as [x|]; [|done]. intros [= <-] _. by exists x. Qed.

Lemma follower_answers_honest_witness :
  ∃ res notes N' H', UpdateReplica sample_update (part 1 2 2) sample_follower = Ok (res, notes, N') ∧ follows none_taken H' (rep N') leader_log.
Proof.
  destruct (follower_answers_honest none_taken sample_update (part 1 2 2) [] sample_follower leader_log 1 2 2 sample_cache) as (res & notes & N' & H' & E & Hf & _).
  - apply sample_update_ok.
  - apply leader_log_ok.
  - apply part_sent; lia.
  - apply sample_follows.
  - vm_compute. congruence.
  - apply sample_tells.
  - vm_compute. congruence.
  - exists res, notes, N', H'. exact (conj E Hf).
Defined.

End FollowerRuns.
