(* ===== verification/Leases.v ===== *)
(** * Leader leases

    Models the leases in consensus/replica_state.cc and their use in
    [UpdateMajorityReplicated] of consensus/raft_consensus.cc, on the replicas of
    [RaftElection], and a protocol of leases between replicas: requests with a
    lease, acknowledgements, votes that carry what is left of the lease of the old
    leader.  The clocks run at the same rate with any offsets and are coarse, as
    [CoarseMonoClock] is: they move in steps of [g], which divides a millisecond,
    and not at the same time. *)

From S2P Require Import Prelude RaftConfig Election RaftElection.

Module Leases.
Import QuorumUtil QuorumFacts ConsensusMetadata VoteCounter LeaderElection ElectionFacts Replica.
Open Scope replica_scope.

(** ** The lease of a leader *)

Inductive LeaderLeaseStatus := NO_MAJORITY_REPLICATED_LEASE | OLD_LEADER_MAY_HAVE_LEASE | HAS_LEASE.
#[export] Instance LeaderLeaseStatus_eq_dec : EqDecision LeaderLeaseStatus.
Proof. solve_decision. Defined.

(** [CoarseTimePoint()]. *)
Definition kCoarseZero : Z := 0.

Definition MajorityReplicatedLeaderLeaseExpired (now : Z) : M bool :=
  do! n <- get;
  ret ((majority_replicated_lease_expiration_ n =? kCoarseZero) || (majority_replicated_lease_expiration_ n <=? now)).

(** [GetLeaseStatusUnlocked] of a policy that is enabled. *)
Definition GetLeaseStatusUnlocked (old_expired majority_expired : M bool) : M LeaderLeaseStatus :=
  do! config <- GetActiveConfigUnlocked;
  if Z.of_nat (length (peers config)) =? 1 then ret HAS_LEASE
  else
    do! old <- old_expired;
    if negb old then ret OLD_LEADER_MAY_HAVE_LEASE
    else
      do! own <- majority_expired;
      ret (if own : bool then NO_MAJORITY_REPLICATED_LEASE else HAS_LEASE).

(** [now] is the reading of the clock in the call. *)
Definition GetLeaderLeaseStatusUnlocked (now : Z) : M LeaderLeaseStatus :=
  GetLeaseStatusUnlocked
    (do! remaining <- RemainingOldLeaderLeaseDuration now; ret (match remaining with Some _ => false | None => true end))
    (MajorityReplicatedLeaderLeaseExpired now).

Definition MajorityReplicatedHybridTimeLeaseExpiredAt (micros : Z) : M bool :=
  do! n <- get; ret (majority_replicated_ht_lease_expiration_ n <=? micros).

(** [ht_lease_duration_ms] is a flag; without it every time is covered. *)
Definition GetHybridTimeLeaseStatusAtUnlocked (ht_lease_duration_ms micros : Z) : M LeaderLeaseStatus :=
  if ht_lease_duration_ms =? 0 then ret HAS_LEASE
  else
    GetLeaseStatusUnlocked
      (do! n <- get; ret (Lease.expiration (old_leader_ht_lease_ n) <? micros))
      (MajorityReplicatedHybridTimeLeaseExpiredAt micros).

Definition SetMajorityReplicatedLeaseExpirationUnlocked (lease ht_lease : Z) (reset_old reset_old_ht : bool) : M () :=
  modify (λ n,
    set_leases n (if reset_old then Lease.none Lease.kCoarseNone else old_leader_lease_ n)
      (if reset_old_ht then Lease.none Lease.kMicrosNone else old_leader_ht_lease_ n) lease ht_lease).

(** The leases of [UpdateMajorityReplicated]; [accepted] is [PeerAcceptedOurLease]. *)
Definition UpdateMajorityReplicated_leases (enable_lease_revocation : bool) (accepted : bytes → bool) (lease ht_lease : Z) : M () :=
  do! n <- get;
  let revoked l := enable_lease_revocation && bool_decide (Lease.holder_uuid l ≠ []) && accepted (Lease.holder_uuid l) in
  SetMajorityReplicatedLeaseExpirationUnlocked lease ht_lease (revoked (old_leader_lease_ n)) (revoked (old_leader_ht_lease_ n)).

(** ** The protocol *)

Definition node_after {A} (m : M A) (n : node) : node := (m ([], n)).2.2.

(** [granted_to] the leases acknowledged to this leader, [supporters] the votes
    its election has counted. *)
Record peer := Peer_ {
  p_term : Z;
  p_leads : bool;
  p_node : node;
  p_election : LeaderElection.t;
  supporters : list bytes;
  granted_to : gmap bytes (Z * Z);
}.

(** A request for a lease until [e] on the clock of the leader, with its duration
    in milliseconds; the same lease granted; a vote with its time. *)
Inductive message :=
  | Request (leader voter : bytes) (term e duration_ms ht : Z)
  | Granted (leader voter : bytes) (term e ht : Z)
  | Voted (candidate voter : bytes) (term time : Z) (r : VoteResponsePB).

Record state := State { time : Z; peer_of : bytes → peer; messages : list message }.

Definition put (s : state) (u : bytes) (p : peer) (l : list message) : state :=
  State (time s) (λ v, if decide (v = u) then p else peer_of s v) (l ++ messages s).

(** A peer that follows. *)
Definition follow (p : peer) (t : Z) (n : node) : peer := Peer_ t false n (p_election p) [] ∅.

Section Protocol.
Context (cfg : RaftConfigPB) (g : Z) (off phase : bytes → Z) (revocation : bool).

(** The clock of a replica. *)
Definition reading (T : Z) (u : bytes) : Z := off u + g * ((T + phase u) / g).
Definition clock (s : state) (u : bytes) : Z := reading (time s) u.

(** A lease that ends at a reading of the clock. *)
Definition aligned (u : bytes) (l : Lease.t) : Prop := Lease.expiration l = Lease.kCoarseNone ∨ (g | Lease.expiration l - off u).

Definition tick (s : state) (T : Z) : state := State T (peer_of s) (messages s).

(** [2 * kCoarseClockPrecision]. *)
Definition kLeaseMargin : Z := 2 * kNanosPerMilli.

(** A leader asks for a lease, with a request of its queue. *)
Definition send (s : state) (u v : bytes) (ms ht : Z) : state :=
  put s u (peer_of s u) [Request u v (p_term (peer_of s u)) (clock s u + ms * kNanosPerMilli - kLeaseMargin) ms ht].

(** A replica accepts the request and learns the lease of its leader. *)
Definition grant (s : state) (u v : bytes) (t e ms ht : Z) : state :=
  put s v (follow (peer_of s v) t (node_after (UpdateOldLeaderLeaseExpirationOnNonLeaderUnlocked (Lease.mk u (clock s v + ms * kNanosPerMilli)) (Lease.mk u ht)) (p_node (peer_of s v)))) [Granted u v t e ht].

(** The queue of the leader gets the response. *)
Definition acknowledged (s : state) (u v : bytes) (e ht : Z) : state :=
  let p := peer_of s u in
  put s u (Peer_ (p_term p) true (p_node p) (p_election p) (supporters p) (<[v := (e, ht)]> (granted_to p))) [].

(** The leader is told the leases of a majority. *)
Definition majority (s : state) (u : bytes) (w ht : Z) : state :=
  let p := peer_of s u in
  put s u (Peer_ (p_term p) true (node_after (UpdateMajorityReplicated_leases revocation (λ v, bool_decide (is_Some (granted_to p !! v))) w ht) (p_node p))
             (p_election p) (supporters p) (granted_to p)) [].

Definition status (s : state) (u : bytes) : state :=
  let p := peer_of s u in
  put s u (Peer_ (p_term p) (p_leads p) (node_after (GetLeaderLeaseStatusUnlocked (clock s u)) (p_node p)) (p_election p) (supporters p) (granted_to p)) [].

Definition campaign (s : state) (u : bytes) (t : Z) (e : LeaderElection.t) : state := put s u (Peer_ t false (p_node (peer_of s u)) e [] ∅) [].

(** A vote, with what is left of the lease of the old leader as in [RequestVote]. *)
Definition vote (s : state) (c v : bytes) (t : Z) (request : VoteRequestPB) : state :=
  let n := p_node (peer_of s v) in
  let n' := node_after (RemainingOldLeaderLeaseDuration (clock s v)) n in
  let remaining := match (RemainingOldLeaderLeaseDuration (clock s v) ([], n)).1 with Ok r => r | _ => None end in
  put s v (follow (peer_of s v) t n')
    [Voted c v t (time s) (with_leases (FillVoteResponseVoteGranted request v) remaining (Lease.holder_uuid (old_leader_lease_ n')) (old_leader_ht_lease_ n'))].

Definition collect (s : state) (c v : bytes) (r : VoteResponsePB) : state :=
  let p := peer_of s c in
  put s c (Peer_ (p_term p) false (p_node p) (HandleVoteGrantedUnlocked (p_election p) v (clock s c) r) (v :: supporters p) (granted_to p)) [].

(** The candidate leads, with the leases of its voters as in [DoElectionCallback]. *)
Definition win (s : state) (c : bytes) : state :=
  let p := peer_of s c in
  let r := result_ (p_election p) in
  put s c (Peer_ (p_term p) true (node_after (UpdateOldLeaderLeaseExpirationOnNonLeaderUnlocked (old_leader_lease r) (old_leader_ht_lease r)) (p_node p))
             (p_election p) (supporters p) ∅) [].

Inductive step (s : state) : state → Prop :=
  | s_tick T : time s <= T → step s (tick s T)
  | s_send u v ms ht : p_leads (peer_of s u) = true → step s (send s u v ms ht)
  | s_grant u v t e ms ht : Request u v t e ms ht ∈ messages s → v ≠ u → p_term (peer_of s v) <= t → step s (grant s u v t e ms ht)
  | s_acknowledged u v e ht : Granted u v (p_term (peer_of s u)) e ht ∈ messages s → p_leads (peer_of s u) = true → step s (acknowledged s u v e ht)
  | s_majority u w ht : p_leads (peer_of s u) = true →
      majority_of cfg (λ v, v = u ∨ ∃ x, granted_to (peer_of s u) !! v = Some x ∧ w <= x.1) →
      majority_of cfg (λ v, v = u ∨ ∃ x, granted_to (peer_of s u) !! v = Some x ∧ ht <= x.2) → step s (majority s u w ht)
  | s_status u : step s (status s u)
  | s_campaign u t e : p_term (peer_of s u) < t → old_leader_lease (result_ e) = Lease.none Lease.kCoarseNone → old_leader_ht_lease (result_ e) = Lease.none Lease.kMicrosNone → step s (campaign s u t e)
  | s_vote c v t request : v ≠ c → p_term (peer_of s v) < t ∨ p_term (peer_of s v) = t ∧ p_leads (peer_of s v) = false → step s (vote s c v t request)
  | s_collect c v at_ r : Voted c v (p_term (peer_of s c)) at_ r ∈ messages s → p_leads (peer_of s c) = false → step s (collect s c v r)
  | s_win c : p_leads (peer_of s c) = false → majority_of cfg (λ v, v = c ∨ v ∈ supporters (peer_of s c)) → step s (win s c)
  | s_step_down u t : p_term (peer_of s u) <= t → step s (put s u (follow (peer_of s u) t (p_node (peer_of s u))) []).

Definition initial (s : state) : Prop :=
  messages s = [] ∧ (∀ u, Lease.kCoarseNone + g <= clock s u) ∧
  ∀ u, p_leads (peer_of s u) = false ∧ supporters (peer_of s u) = [] ∧ aligned u (old_leader_lease_ (p_node (peer_of s u))) ∧
    aligned u (old_leader_lease (result_ (p_election (peer_of s u)))) ∧ 0 <= Lease.expiration (old_leader_ht_lease (result_ (p_election (peer_of s u)))).

Inductive reach (s0 : state) : state → Prop :=
  | r_refl : initial s0 → reach s0 s0
  | r_step s s' : reach s0 s → step s s' → reach s0 s'.

End Protocol.

(** ** The invariant *)

Section Invariant.
Context (cfg : RaftConfigPB) (g : Z) (off phase : bytes → Z) (Hpos : 0 < g) (Hms : (g | kNanosPerMilli)).

(** The time when a clock without steps would show [x]. *)
Definition exact (u : bytes) (x : Z) : Z := x - off u - phase u.

(** A lease until [E] is over at [T] or covered by one until [x], with [k] to spare. *)
Definition covered (k x E T : Z) : Prop := E + k < x ∨ E + k < T.

(** The time when the clock is past a lease. *)
Definition old_until (u : bytes) (l : Lease.t) : Z := exact u (Lease.expiration l) + g.

(** The leases of old leaders that an election or a leader waits for. *)
Definition known_lease (p : peer) : Lease.t := if p_leads p then old_leader_lease_ (p_node p) else old_leader_lease (result_ (p_election p)).
Definition known_ht_lease (p : peer) : Lease.t := if p_leads p then old_leader_ht_lease_ (p_node p) else old_leader_ht_lease (result_ (p_election p)).

Record peer_ok (T : Z) (l : list message) (u : bytes) (p : peer) : Prop := {
  po_granted w t e h : Granted w u t e h ∈ l → t <= p_term p ∧ covered kLeaseMargin (old_until u (old_leader_lease_ (p_node p))) (exact w e) T ∧ h <= Lease.expiration (old_leader_ht_lease_ (p_node p));
  po_voted c t a r : Voted c u t a r ∈ l → t <= p_term p;
  po_supporters v : v ∈ supporters p → ∃ a r, Voted u v (p_term p) a r ∈ l;
  po_bound v w t e h : v ∈ supporters p → Granted w v t e h ∈ l → t < p_term p →
    covered kNanosPerMilli (old_until u (known_lease p)) (exact w e) T ∧ h <= Lease.expiration (known_ht_lease p);
  po_result : 0 <= Lease.expiration (old_leader_ht_lease (result_ (p_election p)));
  po_granted_to v x : p_leads p = true → granted_to p !! v = Some x → Granted u v (p_term p) x.1 x.2 ∈ l;
  po_own : p_leads p = true → majority_replicated_lease_expiration_ (p_node p) = Lease.kCoarseNone ∨
    majority_of cfg (λ v, v = u ∨ ∃ e h, Granted u v (p_term p) e h ∈ l ∧ majority_replicated_lease_expiration_ (p_node p) <= e);
  po_own_ht : p_leads p = true → majority_replicated_ht_lease_expiration_ (p_node p) = Lease.kMicrosNone ∨
    majority_of cfg (λ v, v = u ∨ ∃ e h, Granted u v (p_term p) e h ∈ l ∧ majority_replicated_ht_lease_expiration_ (p_node p) <= h);
  po_won : p_leads p = true → majority_of cfg (λ v, v = u ∨ v ∈ supporters p);
  po_aligned : aligned g off u (old_leader_lease_ (p_node p)) ∧ aligned g off u (old_leader_lease (result_ (p_election p)));
}.

(** What a vote says about a lease granted before it. *)
Definition vote_tells (r : VoteResponsePB) (a E h : Z) : Prop :=
  match remaining_leader_lease_duration_ms r with Some ms => E + kNanosPerMilli < a + ms * kNanosPerMilli | None => E + kNanosPerMilli < a end ∧
  match leader_ht_lease_expiration r with Some x => h <= x | None => h <= 0 end.

Record messages_ok (T : Z) (l : list message) : Prop := {
  mo_clock u : Lease.kCoarseNone + g <= reading g off phase T u;
  mo_request w v t e ms h : Request w v t e ms h ∈ l → exact w e + kLeaseMargin <= T + ms * kNanosPerMilli;
  mo_voted c v t a r : Voted c v t a r ∈ l → a <= T ∧ ∀ w t0 e h, Granted w v t0 e h ∈ l → t0 < t → vote_tells r a (exact w e) h;
}.

Definition inv (s : state) : Prop := messages_ok (time s) (messages s) ∧ ∀ u, peer_ok (time s) (messages s) u (peer_of s u).

Lemma reading_exact T u : exact u (reading g off phase T u) <= T < exact u (reading g off phase T u) + g.
Proof. unfold exact, reading. pose proof (Z.div_mod (T + phase u) g). pose proof (Z.mod_pos_bound (T + phase u) g). lia. Qed.

Lemma reading_aligned T u : (g | reading g off phase T u - off u).
Proof. unfold reading. exists ((T + phase u) / g). lia. Qed.

Lemma reading_later T T' u : T <= T' → reading g off phase T u <= reading g off phase T' u.
Proof. intros HT. unfold reading. assert ((T + phase u) / g <= (T' + phase u) / g) by (apply Z.div_le_mono; lia). nia. Qed.

Lemma next_multiple x y : (g | x) → (g | y) → x < y → x + g <= y.
Proof. intros [a ->] [b ->] H%Z.mul_lt_mono_pos_r; [nia|done]. Qed.

Lemma milli_aligned ms : (g | ms * kNanosPerMilli).
Proof. by apply Z.divide_mul_r. Qed.

Lemma aligned_later T u ms h : aligned g off u (Lease.mk h (reading g off phase T u + ms * kNanosPerMilli)).
Proof. right. cbn. replace (_ - _) with (reading g off phase T u - off u + ms * kNanosPerMilli) by lia. apply Z.divide_add_r; [apply reading_aligned|apply milli_aligned]. Qed.

Lemma aligned_update u l l' : aligned g off u l → aligned g off u l' → aligned g off u (Lease.TryUpdate l l').
Proof. unfold Lease.TryUpdate. by destruct (_ <? _). Qed.

(** A lease that the clock has passed. *)
Lemma aligned_over T u l : Lease.kCoarseNone + g <= reading g off phase T u → aligned g off u l → Lease.expiration l = Lease.kCoarseNone ∨ Lease.expiration l < reading g off phase T u → old_until u l <= T.
Proof.
  intros Hc Ha Ho. pose proof (reading_exact T u) as Hr. unfold old_until, exact in *. destruct Ha as [->|Ha]; [lia|]. destruct Ho as [->|Ho]; [lia|].
  pose proof (next_multiple (Lease.expiration l - off u) (reading g off phase T u - off u) Ha (reading_aligned T u)). lia.
Qed.

Lemma covered_later k x E T T' : covered k x E T → T <= T' → covered k x E T'.
Proof. unfold covered. lia. Qed.

Lemma peer_ok_later T T' l u p : peer_ok T l u p → T <= T' → peer_ok T' l u p.
Proof.
  intros [O1 O2 O3 O4 O5 O6 O7 O8 O9 O10] HT. split; [|done|done| |done..].
  - intros w t e h Hg. destruct (O1 w t e h Hg) as (? & ? & ?). split_and!; [done|by eapply covered_later|done].
  - intros v w t e h Hv Hg Ht. destruct (O4 v w t e h Hv Hg Ht). split; [by eapply covered_later|done].
Qed.

(** Messages of others do not change what is known of a peer. *)
Lemma peer_ok_more T l u p new :
  peer_ok T l u p → (∀ c t a r, Voted c u t a r ∉ new) → (∀ w v t e h, Granted w v t e h ∈ new → v ≠ u ∧ (v ∈ supporters p → p_term p <= t)) → peer_ok T (new ++ l) u p.
Proof.
  intros [O1 O2 O3 O4 O5 O6 O7 O8 O9 O10] Hv Hg. assert (Hmaj : ∀ (P Q : bytes → Prop), (∀ v, P v → Q v) → majority_of cfg P → majority_of cfg Q) by (intros P Q HPQ; by apply majority_mono).
  split; [| | | |done| | | |done..].
  - intros w t e h [Hn|Ho]%elem_of_app; [by destruct (Hg w u t e h Hn)|by apply (O1 w t e h)].
  - intros c t a r [Hn|Ho]%elem_of_app; [by destruct (Hv c t a r)|by eapply O2].
  - intros v Hs. destruct (O3 v Hs) as (a & r & ?). exists a, r. apply elem_of_app. by right.
  - intros v w t e h Hs [Hn|Ho]%elem_of_app Ht; [destruct (Hg w v t e h Hn) as [_ Hle]; specialize (Hle Hs); lia|by eapply O4].
  - intros v x Hl Hx. apply elem_of_app. right. by apply O6.
  - intros Hl. destruct (O7 Hl) as [?|Hm]; [by left|right]. eapply Hmaj; [|exact Hm]. cbn. intros v [->|(e & h & Hin & ?)]; [by left|right]. exists e, h. split; [apply elem_of_app; by right|done].
  - intros Hl. destruct (O8 Hl) as [?|Hm]; [by left|right]. eapply Hmaj; [|exact Hm]. cbn. intros v [->|(e & h & Hin & ?)]; [by left|right]. exists e, h. split; [apply elem_of_app; by right|done].
Qed.

Lemma inv_put s u p new :
  inv s → messages_ok (time s) (new ++ messages s) → peer_ok (time s) (new ++ messages s) u p →
  (∀ c v t a r, Voted c v t a r ∈ new → v = u) → (∀ w v t e h, Granted w v t e h ∈ new → v = u ∧ p_term (peer_of s u) <= t) → inv (put s u p new).
Proof.
  intros [Hm Hp] Hm' Hp' Hv Hg. split; [done|]. intros v. cbn. case_decide as Ev; [by subst|]. apply peer_ok_more; [apply Hp|intros c t a r Hin; by apply Hv in Hin|]. intros w v' t e h Hin. destruct (Hg _ _ _ _ _ Hin) as [-> Ht]. split; [done|].
  intros Hs. destruct (po_supporters _ _ _ _ (Hp v) u Hs) as (a & r & Hvo). pose proof (po_voted _ _ _ _ (Hp u) _ _ _ _ Hvo). lia.
Qed.

(** ** Steps keep the invariant *)

Lemma try_update_le l r : Lease.expiration l <= Lease.expiration (Lease.TryUpdate l r) ∧ Lease.expiration r <= Lease.expiration (Lease.TryUpdate l r).
Proof. unfold Lease.TryUpdate. destruct (Z.ltb_spec (Lease.expiration l) (Lease.expiration r)); lia. Qed.

(** A lease that is extended, or dropped when it is over. *)
Definition extends (u : bytes) (T : Z) (l l' : Lease.t) : Prop := Lease.expiration l <= Lease.expiration l' ∨ old_until u l <= T.

Lemma covered_extends k u T l l' E : covered k (old_until u l) E T → extends u T l l' → covered k (old_until u l') E T.
Proof. unfold covered, extends, old_until, exact. lia. Qed.

(** What is left of the lease of the old leader, and the replica after the call. *)
Lemma remaining_spec now n :
  let n' := node_after (RemainingOldLeaderLeaseDuration now) n in
  let l := old_leader_lease_ n in
  (RemainingOldLeaderLeaseDuration now ([], n)).1 = Ok (if bool_decide (Lease.expiration l ≠ Lease.kCoarseNone ∧ now <= Lease.expiration l) then Some (Lease.expiration l - now) else None) ∧
  (old_leader_lease_ n' = l ∨ Lease.expiration l < now ∧ old_leader_lease_ n' = Lease.none Lease.kCoarseNone) ∧ old_leader_ht_lease_ n' = old_leader_ht_lease_ n ∧
  majority_replicated_lease_expiration_ n' = majority_replicated_lease_expiration_ n ∧ majority_replicated_ht_lease_expiration_ n' = majority_replicated_ht_lease_expiration_ n.
Proof.
  unfold node_after, RemainingOldLeaderLeaseDuration, bind, get, Lease.has_value. cbn. destruct (Z.eqb_spec (Lease.expiration (old_leader_lease_ n)) Lease.kCoarseNone); cbn.
  - rewrite bool_decide_false by tauto. split_and!; [done|by left|done..].
  - destruct (Z.ltb_spec (Lease.expiration (old_leader_lease_ n)) now); cbn; [rewrite bool_decide_false by lia; split_and!; [done|by right|done..]|rewrite bool_decide_true by done; split_and!; [done|by left|done..]].
Qed.

(** A peer with the same role whose known leases are extended. *)
Lemma peer_ok_extends T l u p n' :
  peer_ok T l u p → extends u T (old_leader_lease_ (p_node p)) (old_leader_lease_ n') → aligned g off u (old_leader_lease_ n') → Lease.expiration (old_leader_ht_lease_ (p_node p)) <= Lease.expiration (old_leader_ht_lease_ n') →
  majority_replicated_lease_expiration_ n' = majority_replicated_lease_expiration_ (p_node p) → majority_replicated_ht_lease_expiration_ n' = majority_replicated_ht_lease_expiration_ (p_node p) →
  peer_ok T l u (Peer_ (p_term p) (p_leads p) n' (p_election p) (supporters p) (granted_to p)).
Proof.
  intros [O1 O2 O3 O4 O5 O6 O7 O8 O9 O10] He Ha Hh E1 E2. split; cbn; try done; rewrite ?E1, ?E2; try done; try (by split; [|apply O10]).
  - intros w t e h Hg. destruct (O1 w t e h Hg) as (? & ? & ?). split_and!; [done|by eapply covered_extends|lia].
  - intros v w t e h Hv Hg Ht. destruct (O4 v w t e h Hv Hg Ht) as [B1 B2]. unfold known_lease, known_ht_lease in *. cbn. destruct (p_leads p); [|done]. split; [by eapply covered_extends|lia].
Qed.

(** A peer that follows, with a term that is not less. *)
Lemma peer_ok_follow T l u p t n' :
  peer_ok T l u p → p_term p <= t → extends u T (old_leader_lease_ (p_node p)) (old_leader_lease_ n') → aligned g off u (old_leader_lease_ n') → Lease.expiration (old_leader_ht_lease_ (p_node p)) <= Lease.expiration (old_leader_ht_lease_ n') →
  peer_ok T l u (follow p t n').
Proof.
  intros [O1 O2 O3 O4 O5 O6 O7 O8 O9 O10] Ht He Ha Hh. split; cbn; try done; try (by split; [|apply O10]).
  - intros w t0 e h Hg. destruct (O1 w t0 e h Hg) as (? & ? & ?). split_and!; [lia|by eapply covered_extends|lia].
  - intros c t0 a r Hv. specialize (O2 _ _ _ _ Hv). lia.
  - intros v Hv. by apply elem_of_nil in Hv.
  - intros v w t0 e h Hv. by apply elem_of_nil in Hv.
Qed.

Lemma inv_tick s T : inv s → time s <= T → inv (State T (peer_of s) (messages s)).
Proof.
  intros [[M1 M2 M3] Hp] HT. split; [|intros u; by eapply peer_ok_later]. split; cbn.
  - intros u. specialize (M1 u). pose proof (reading_later (time s) T u HT). lia.
  - intros w v t e d h Hr. specialize (M2 _ _ _ _ _ _ Hr). lia.
  - intros c v t a r Hv. destruct (M3 _ _ _ _ _ Hv). split; [lia|done].
Qed.

Lemma inv_quiet s u p : inv s → peer_ok (time s) (messages s) u p → inv (put s u p []).
Proof. intros Hi Hp. apply inv_put; [done|apply Hi|done|by intros c v t a r Hv%elem_of_nil|by intros w v t e h Hg%elem_of_nil]. Qed.

Lemma lease_send s u v t e d ht : inv s → exact u e + kLeaseMargin <= time s + d * kNanosPerMilli → inv (put s u (peer_of s u) [Request u v t e d ht]).
Proof.
  intros [[M1 M2 M3] Hp] He. apply inv_put; [by split| |apply peer_ok_more; [apply Hp|..]|..].
  2-5: intros * Hin%list_elem_of_singleton; done.
  split; [done|intros * [Hin|Hin]%elem_of_cons; [injection Hin as -> -> -> -> -> ->; lia|by eapply M2]|].
  intros c v' t' a r [Hin|Hin]%elem_of_cons; [done|]. destruct (M3 _ _ _ _ _ Hin) as [? Hv]. split; [done|]. intros w t0 e0 h [Hin'|Hin']%elem_of_cons; [done|by apply Hv].
Qed.

Lemma inv_grant s u v t e d ht :
  inv s → Request u v t e d ht ∈ messages s → p_term (peer_of s v) <= t →
  inv (put s v (follow (peer_of s v) t (node_after (UpdateOldLeaderLeaseExpirationOnNonLeaderUnlocked (Lease.mk u (clock g off phase s v + d * kNanosPerMilli)) (Lease.mk u ht)) (p_node (peer_of s v)))) [Granted u v t e ht]).
Proof.
  intros Hi Hr Ht. pose proof Hi as [[M1 M2 M3] Hp]. pose proof (M2 _ _ _ _ _ _ Hr) as He. set (n := p_node (peer_of s v)). set (l := Lease.mk u (clock g off phase s v + d * kNanosPerMilli)). destruct (try_update_le (old_leader_lease_ n) l) as [L1 L2]. destruct (try_update_le (old_leader_ht_lease_ n) (Lease.mk u ht)) as [H1 H2].
  assert (Hpv : peer_ok (time s) (messages s) v (follow (peer_of s v) t (node_after (UpdateOldLeaderLeaseExpirationOnNonLeaderUnlocked l (Lease.mk u ht)) n))) by (apply peer_ok_follow; [apply Hp|done|by left|apply aligned_update; [apply Hp|apply aligned_later]|done]).
  apply inv_put; [done| | |by intros * Hin%list_elem_of_singleton|intros w v' t' e' h' [= -> -> -> -> ->]%list_elem_of_singleton; done].
  - split; [done|intros * [Hin|Hin]%elem_of_cons; [done|by eapply M2]|]. intros c v' t' a r [Hin|Hin]%elem_of_cons; [done|]. destruct (M3 _ _ _ _ _ Hin) as [? Hv]. split; [done|].
    intros w t0 e0 h [Hg|Hg]%elem_of_cons Ht0; [|by apply Hv with t0]. injection Hg as -> -> -> -> ->. pose proof (po_voted _ _ _ _ (Hp v) _ _ _ _ Hin). lia.
  - destruct Hpv as [O1 O2 O3 O4 O5 O6 O7 O8 O9 O10]. split; try done.
    + intros w t' e' h' [Hg|Hg]%elem_of_cons; [|by apply (O1 w t' e' h')]. injection Hg as -> -> -> ->. split_and!; [done| |exact H2]. left. unfold old_until, exact in *. cbn in L2 |- *. unfold clock in *. fold n l. pose proof (reading_exact (time s) v). unfold exact in *. lia.
    + intros c t' a r [Hv|Hv]%elem_of_cons; [done|by eapply O2].
    + intros x Hx. by apply elem_of_nil in Hx.
    + intros x w t' e' h' Hx. by apply elem_of_nil in Hx.
Qed.

(** Milliseconds that are cut off a duration between two readings. *)
Lemma milli_cut x : (g | x) → 0 <= x → 0 <= x ÷ kNanosPerMilli ∧ x + g <= (x ÷ kNanosPerMilli) * kNanosPerMilli + kNanosPerMilli.
Proof.
  intros Hx H0. rewrite Z.quot_div_nonneg by (unfold kNanosPerMilli; lia). assert (Hk : 0 < kNanosPerMilli) by (unfold kNanosPerMilli; lia). pose proof (Z.div_mod x kNanosPerMilli). pose proof (Z.mod_pos_bound x kNanosPerMilli Hk). split; [by apply Z.div_pos; lia|].
  pose proof (milli_aligned (x / kNanosPerMilli)). pose proof (next_multiple (x - x / kNanosPerMilli * kNanosPerMilli) kNanosPerMilli) as Hn. lapply Hn; [|by apply Z.divide_sub_r]. intros Hn'. specialize (Hn' Hms). lia.
Qed.

Lemma vote_tells_lease n v T request E h :
  Lease.kCoarseNone + g <= reading g off phase T v → aligned g off v (old_leader_lease_ n) →
  covered kLeaseMargin (old_until v (old_leader_lease_ n)) E T → h <= Lease.expiration (old_leader_ht_lease_ n) →
  let n' := node_after (RemainingOldLeaderLeaseDuration (reading g off phase T v)) n in
  let remaining := match (RemainingOldLeaderLeaseDuration (reading g off phase T v) ([], n)).1 with Ok r => r | _ => None end in
  vote_tells (with_leases (FillVoteResponseVoteGranted request v) remaining (Lease.holder_uuid (old_leader_lease_ n')) (old_leader_ht_lease_ n')) T E h.
Proof.
  intros Hclock Ha Hc Hh n'. destruct (remaining_spec (reading g off phase T v) n) as (-> & _ & Eh & _). fold n' in Eh. rewrite Eh. cbn zeta. unfold vote_tells, with_leases. cbn. split.
  - pose proof (aligned_over T v (old_leader_lease_ n) Hclock Ha) as Hover. pose proof (reading_exact T v) as Hr. unfold covered, old_until, exact, kLeaseMargin in *. case_bool_decide as Hb.
    + destruct Ha as [?|Ha]; [tauto|]. destruct (milli_cut (Lease.expiration (old_leader_lease_ n) - reading g off phase T v)) as [Hq1 Hq2]; [|lia|lia].
      replace (_ - _) with (Lease.expiration (old_leader_lease_ n) - off v - (reading g off phase T v - off v)) by lia. apply Z.divide_sub_r; [done|apply reading_aligned].
    + destruct (decide (Lease.expiration (old_leader_lease_ n) = Lease.kCoarseNone)); unfold kNanosPerMilli in *; lia.
  - unfold Lease.has_value, Lease.kMicrosNone in *. destruct (Z.eqb_spec (Lease.expiration (old_leader_ht_lease_ n)) 0); cbn; lia.
Qed.

Lemma remaining_extends T u n :
  Lease.kCoarseNone + g <= reading g off phase T u → aligned g off u (old_leader_lease_ n) →
  let n' := node_after (RemainingOldLeaderLeaseDuration (reading g off phase T u)) n in
  extends u T (old_leader_lease_ n) (old_leader_lease_ n') ∧ aligned g off u (old_leader_lease_ n').
Proof.
  intros Hc Ha n'. destruct (remaining_spec (reading g off phase T u) n) as (_ & [E|[H E]] & _); fold n' in E; rewrite E; unfold extends; [split; [by left|done]|].
  split; [right; by apply aligned_over; [..|right]|by left].
Qed.

Lemma lease_vote s c v t request :
  inv s → p_term (peer_of s v) <= t →
  let n := p_node (peer_of s v) in
  let n' := node_after (RemainingOldLeaderLeaseDuration (clock g off phase s v)) n in
  let remaining := match (RemainingOldLeaderLeaseDuration (clock g off phase s v) ([], n)).1 with Ok r => r | _ => None end in
  inv (put s v (follow (peer_of s v) t n')
    [Voted c v t (time s) (with_leases (FillVoteResponseVoteGranted request v) remaining (Lease.holder_uuid (old_leader_lease_ n')) (old_leader_ht_lease_ n'))]).
Proof.
  intros Hi Ht n n' remaining. pose proof Hi as [[M1 M2 M3] Hp]. set (r := with_leases _ _ _ _).
  assert (Hpv : peer_ok (time s) (messages s) v (follow (peer_of s v) t n')) by (apply peer_ok_follow; [apply Hp|done|by apply remaining_extends; [apply M1|apply Hp]..|destruct (remaining_spec (clock g off phase s v) n) as (_ & _ & Eh & _); fold n' in Eh; by rewrite Eh]).
  apply inv_put; [done| | |intros c' v' t' a r' [= -> -> -> -> ->]%list_elem_of_singleton; done|by intros * Hin%list_elem_of_singleton].
  - split; [done|intros * [Hin|Hin]%elem_of_cons; [done|by eapply M2]|]. intros c' v' t' a r' [Hin|Hin]%elem_of_cons.
    + injection Hin as -> -> -> -> ->. split; [done|]. intros w t0 e0 h [Hg|Hg]%elem_of_cons Ht0; [done|]. destruct (po_granted _ _ _ _ (Hp v) w t0 e0 h Hg) as (_ & Hc & Hh). apply vote_tells_lease; [apply M1|apply Hp|done..].
    + destruct (M3 _ _ _ _ _ Hin) as [? Hv]. split; [done|]. intros w t0 e0 h [Hg|Hg]%elem_of_cons Ht0; [done|by apply Hv with t0].
  - destruct Hpv as [O1 O2 O3 O4 O5 O6 O7 O8 O9 O10]. split; try done.
    + intros w t' e' h' [Hg|Hg]%elem_of_cons; [done|by apply (O1 w t' e' h')].
    + intros c' t' a r' [Hv|Hv]%elem_of_cons; [injection Hv as -> -> -> ->; done|by eapply O2].
    + intros x Hx. by apply elem_of_nil in Hx.
    + intros x w t' e' h' Hx. by apply elem_of_nil in Hx.
Qed.

(** A vote extends the leases an election knows of. *)
Lemma handle_vote_spec e v now r :
  let e' := HandleVoteGrantedUnlocked e v now r in
  Lease.expiration (old_leader_lease (result_ e)) <= Lease.expiration (old_leader_lease (result_ e')) ∧
  Lease.expiration (old_leader_ht_lease (result_ e)) <= Lease.expiration (old_leader_ht_lease (result_ e')) ∧
  (∀ ms, remaining_leader_lease_duration_ms r = Some ms → now + ms * kNanosPerMilli <= Lease.expiration (old_leader_lease (result_ e'))) ∧
  (∀ x, leader_ht_lease_expiration r = Some x → x <= Lease.expiration (old_leader_ht_lease (result_ e'))) ∧
  (old_leader_lease (result_ e') = old_leader_lease (result_ e) ∨
   ∃ h ms, old_leader_lease (result_ e') = Lease.TryUpdate (old_leader_lease (result_ e)) (Lease.mk h (now + ms * kNanosPerMilli))).
Proof.
  cbn. split_and!.
  - destruct (remaining_leader_lease_duration_ms r) as [ms|]; [apply try_update_le|done].
  - destruct (leader_ht_lease_expiration r) as [x|]; [apply try_update_le|done].
  - intros ms ->. apply (try_update_le (old_leader_lease (result_ e)) (Lease.mk (leader_lease_uuid r) (now + ms * kNanosPerMilli))).
  - intros x ->. apply (try_update_le (old_leader_ht_lease (result_ e)) (Lease.mk (leader_ht_lease_uuid r) x)).
  - destruct (remaining_leader_lease_duration_ms r) as [ms|]; [right; by exists (leader_lease_uuid r), ms|by left].
Qed.

Lemma inv_collect s c v a r :
  inv s → Voted c v (p_term (peer_of s c)) a r ∈ messages s → p_leads (peer_of s c) = false →
  inv (put s c (let p := peer_of s c in Peer_ (p_term p) false (p_node p) (HandleVoteGrantedUnlocked (p_election p) v (clock g off phase s c) r) (v :: supporters p) (granted_to p)) []).
Proof.
  intros Hi Hv Hl. apply inv_quiet; [done|]. destruct Hi as [[M1 M2 M3] Hp]. destruct (M3 _ _ _ _ _ Hv) as [Ha Htell]. set (p := peer_of s c) in *. cbn zeta. set (e' := HandleVoteGrantedUnlocked _ _ _ _).
  pose proof (handle_vote_spec (p_election p) v (clock g off phase s c) r) as Hres. fold e' in Hres.
  destruct Hres as (E1 & E2 & E3 & E4 & E5). clearbody e'. destruct (Hp c) as [O1 O2 O3 O4 O5 O6 O7 O8 O9 O10]. fold p in O1, O2, O3, O4, O5, O10. split; cbn; try done; [| |lia|].
  - intros x [->|Hx]%elem_of_cons; [by exists a, r|by apply O3].
  - intros x w t e h Hx Hg Ht. unfold known_lease, known_ht_lease in *. cbn. fold p in Hl. rewrite Hl in O4. apply elem_of_cons in Hx as [->|Hx].
    + destruct (Htell w t e h Hg Ht) as [T1 T2]. pose proof (reading_exact (time s) c) as Hr. unfold covered, old_until, exact, clock, vote_tells, kNanosPerMilli in *. destruct (remaining_leader_lease_duration_ms r) as [ms|]; destruct (leader_ht_lease_expiration r) as [x|]; (split; [try specialize (E3 ms eq_refl); lia|try specialize (E4 x eq_refl); lia]).
    + destruct (O4 x w t e h Hx Hg Ht) as [B1 B2]. split; [|lia]. eapply covered_extends; [exact B1|by left].
  - destruct O10 as [A1 A2]. split; [done|]. destruct E5 as [->|(h & ms & ->)]; [done|]. apply aligned_update; [done|apply aligned_later].
Qed.

Lemma inv_win s c :
  inv s → p_leads (peer_of s c) = false → majority_of cfg (λ v, v = c ∨ v ∈ supporters (peer_of s c)) →
  inv (put s c (let p := peer_of s c in let r := result_ (p_election p) in
    Peer_ (p_term p) true (node_after (UpdateOldLeaderLeaseExpirationOnNonLeaderUnlocked (old_leader_lease r) (old_leader_ht_lease r)) (p_node p)) (p_election p) (supporters p) ∅) []).
Proof.
  intros Hi Hl Hm. apply inv_quiet; [done|]. destruct Hi as [_ Hp]. destruct (Hp c) as [O1 O2 O3 O4 O5 O6 O7 O8 O9 O10]. set (p := peer_of s c) in *. cbn zeta.
  destruct (try_update_le (old_leader_lease_ (p_node p)) (old_leader_lease (result_ (p_election p)))) as [L1 L2]. destruct (try_update_le (old_leader_ht_lease_ (p_node p)) (old_leader_ht_lease (result_ (p_election p)))) as [H1 H2].
  split; cbn; try done; try (by left).
  - intros w t e h Hg. destruct (O1 w t e h Hg) as (? & ? & ?). split_and!; [done|eapply covered_extends; [done|by left]|lia].
  - intros v w t e h Hv Hg Ht. destruct (O4 v w t e h Hv Hg Ht) as [B1 B2]. unfold known_lease, known_ht_lease in *. rewrite Hl in B1, B2. cbn. split; [eapply covered_extends; [exact B1|by left]|lia].
  - destruct O10 as [A1 A2]. split; [by apply aligned_update|done].
Qed.

Lemma inv_granted s u v e ht :
  inv s → Granted u v (p_term (peer_of s u)) e ht ∈ messages s → p_leads (peer_of s u) = true →
  inv (put s u (let p := peer_of s u in Peer_ (p_term p) true (p_node p) (p_election p) (supporters p) (<[v := (e, ht)]> (granted_to p))) []).
Proof.
  intros Hi Hg Hl. apply inv_quiet; [done|]. destruct Hi as [_ Hp]. destruct (Hp u) as [O1 O2 O3 O4 O5 O6 O7 O8 O9 O10]. cbn zeta. set (p := peer_of s u) in *. split; cbn; try done; try (by intros _; auto).
  - intros x w t e' h Hx Hg' Ht. destruct (O4 x w t e' h Hx Hg' Ht) as [B1 B2]. unfold known_lease, known_ht_lease in *. by rewrite Hl in B1, B2.
  - intros x y _ [[<- <-]|[_ Hx]]%lookup_insert_Some; [done|by apply O6].
Qed.

Lemma inv_majority s u w ht :
  inv s → p_leads (peer_of s u) = true →
  majority_of cfg (λ v, v = u ∨ ∃ x, granted_to (peer_of s u) !! v = Some x ∧ w <= x.1) → majority_of cfg (λ v, v = u ∨ ∃ x, granted_to (peer_of s u) !! v = Some x ∧ ht <= x.2) →
  inv (put s u (let p := peer_of s u in
    Peer_ (p_term p) true (node_after (UpdateMajorityReplicated_leases false (λ v, bool_decide (is_Some (granted_to p !! v))) w ht) (p_node p)) (p_election p) (supporters p) (granted_to p)) []).
Proof.
  intros Hi Hl Hm Hm2. apply inv_quiet; [done|]. destruct Hi as [_ Hp]. destruct (Hp u) as [O1 O2 O3 O4 O5 O6 O7 O8 O9 O10]. cbn zeta. set (p := peer_of s u) in *. split; cbn; try done; try (by intros _; auto).
  - intros x w' t e' h Hx Hg' Ht. destruct (O4 x w' t e' h Hx Hg' Ht) as [B1 B2]. unfold known_lease, known_ht_lease in *. by rewrite Hl in B1, B2.
  - intros v x _ Hx. by apply O6.
  - intros _. right. eapply majority_mono; [|exact Hm]. cbn. intros v [->|(x & Hx & ?)]; [by left|right]. exists x.1, x.2. split; [by apply O6|done].
  - intros _. right. eapply majority_mono; [|exact Hm2]. cbn. intros v [->|(x & Hx & ?)]; [by left|right]. exists x.1, x.2. split; [by apply O6|done].
Qed.

Lemma status_node now n :
  node_after (GetLeaderLeaseStatusUnlocked now) n = n ∨ node_after (GetLeaderLeaseStatusUnlocked now) n = node_after (RemainingOldLeaderLeaseDuration now) n.
Proof.
  unfold node_after, GetLeaderLeaseStatusUnlocked, GetLeaseStatusUnlocked, GetActiveConfigUnlocked, MajorityReplicatedLeaderLeaseExpired, RemainingOldLeaderLeaseDuration, bind, get. cbn. destruct (_ =? 1); [by left|right].
  destruct (Lease.has_value _ _); [destruct (_ <? now)|]; done.
Qed.

Lemma inv_status s u : inv s → inv (status g off phase s u).
Proof.
  intros Hi. apply inv_quiet; [done|]. destruct Hi as [Hm Hp]. pose proof (po_aligned _ _ _ _ (Hp u)) as [Ha _]. destruct (remaining_extends (time s) u (p_node (peer_of s u)) (mo_clock _ _ Hm u) Ha) as [He Ha'].
  destruct (remaining_spec (clock g off phase s u) (p_node (peer_of s u))) as (_ & _ & E1 & E2 & E3).
  apply peer_ok_extends; [apply Hp|..]; destruct (status_node (clock g off phase s u) (p_node (peer_of s u))) as [->| ->]; try done; try (by left); by rewrite ?E1, ?E2, ?E3.
Qed.

Lemma inv_campaign s u t e : inv s → p_term (peer_of s u) < t → old_leader_lease (result_ e) = Lease.none Lease.kCoarseNone → old_leader_ht_lease (result_ e) = Lease.none Lease.kMicrosNone → inv (campaign s u t e).
Proof.
  intros Hi Ht He Hh. apply inv_quiet; [done|]. destruct Hi as [_ Hp]. destruct (Hp u) as [_ _ _ _ _ _ _ _ _ [Ha _]]. destruct (peer_ok_follow (time s) (messages s) u (peer_of s u) t (p_node (peer_of s u)) (Hp u)) as [O1 O2 O3 O4 O5 O6 O7 O8 O9 O10]; [lia|by left|done|done|].
  split; cbn; try done; [|by rewrite Hh|split; [done|rewrite He; by left]]. by intros v w t' e' h Hv%elem_of_nil.
Qed.

Lemma lease_step s s' : inv s → step cfg g off phase false s s' → inv s'.
Proof.
  intros Hi. destruct 1 as [T HT|u v d ht Hl|u v t e d ht Hr _ Ht|u v e ht Hg Hl|u w ht Hl Hm Hm2|u|u t e Ht He Hh|c v t request _ Ht|c v a r Hv Hl|c Hl Hm|u t Ht].
  - by apply inv_tick.
  - apply lease_send; [done|]. pose proof (reading_exact (time s) u). unfold clock, exact, kLeaseMargin in *. lia.
  - by apply inv_grant.
  - by apply inv_granted.
  - by apply inv_majority.
  - by apply inv_status.
  - by apply inv_campaign.
  - apply lease_vote; [done|]. lia.
  - by eapply inv_collect.
  - by apply inv_win.
  - apply inv_quiet; [done|]. apply peer_ok_follow; [apply Hi|done|by left|apply Hi|done].
Qed.

Lemma reach_inv s0 s : reach cfg g off phase false s0 s → inv s.
Proof.
  induction 1 as [(Hm & Hc & Hp)|s s' _ IH Hs]; [|by eapply lease_step]. split.
  - rewrite Hm. split; [done|intros *; by rewrite elem_of_nil..].
  - intros u. destruct (Hp u) as (Hl & Hs & Ha & Ha' & Hr). rewrite Hm. split; rewrite ?Hl, ?Hs; try done; intros *; by rewrite elem_of_nil.
Qed.

(** ** Leases and later leaders *)

(** The replicas of a configuration with more than one peer. *)
Definition replicated (n : node) : Prop := length (peers (active_config (cmeta_ n))) ≠ 1%nat.

Lemma has_lease_spec now n :
  replicated n → (GetLeaderLeaseStatusUnlocked now ([], n)).1 = Ok HAS_LEASE ↔
  (Lease.expiration (old_leader_lease_ n) = Lease.kCoarseNone ∨ Lease.expiration (old_leader_lease_ n) < now) ∧
  majority_replicated_lease_expiration_ n ≠ kCoarseZero ∧ now < majority_replicated_lease_expiration_ n.
Proof.
  unfold replicated, GetLeaderLeaseStatusUnlocked, GetLeaseStatusUnlocked, GetActiveConfigUnlocked, MajorityReplicatedLeaderLeaseExpired, bind, get. cbn -[RemainingOldLeaderLeaseDuration]. intros Hn.
  destruct (Z.eqb_spec (Z.of_nat (length (peers (active_config (cmeta_ n))))) 1); [lia|]. destruct (remaining_spec now n) as (E & _ & _ & El & _). unfold node_after in El. destruct (RemainingOldLeaderLeaseDuration now ([], n)) as [o w]. cbn in E, El. subst o.
  case_bool_decide; cbn; [split; [congruence|lia]|]. rewrite El.
  destruct (Z.eqb_spec (majority_replicated_lease_expiration_ n) kCoarseZero), (Z.leb_spec (majority_replicated_lease_expiration_ n) now); cbn; split; first [congruence|lia|intros _; split; lia].
Qed.

Lemma has_ht_lease_spec d micros n :
  replicated n → d ≠ 0 → (GetHybridTimeLeaseStatusAtUnlocked d micros ([], n)).1 = Ok HAS_LEASE ↔
  Lease.expiration (old_leader_ht_lease_ n) < micros < majority_replicated_ht_lease_expiration_ n.
Proof.
  unfold replicated, GetHybridTimeLeaseStatusAtUnlocked, GetLeaseStatusUnlocked, GetActiveConfigUnlocked, MajorityReplicatedHybridTimeLeaseExpiredAt, bind, get. intros Hn Hd. destruct (Z.eqb_spec d 0); [done|]. cbn.
  destruct (Z.eqb_spec (Z.of_nat (length (peers (active_config (cmeta_ n))))) 1); [lia|]. cbn.
  destruct (Z.ltb_spec (Lease.expiration (old_leader_ht_lease_ n)) micros); cbn; [|split; [done|lia]].
  destruct (Z.leb_spec (majority_replicated_ht_lease_expiration_ n) micros); split; first [done|lia].
Qed.

(** A replica that granted a lease to the leader of a term and then counts in the
    majority of the leader of a later one. *)
Lemma granted_known s u c v e h :
  inv s → p_leads (peer_of s c) = true → p_term (peer_of s u) < p_term (peer_of s c) → Granted u v (p_term (peer_of s u)) e h ∈ messages s →
  v = c ∨ v ∈ supporters (peer_of s c) →
  covered kNanosPerMilli (old_until c (old_leader_lease_ (p_node (peer_of s c)))) (exact u e) (time s) ∧ h <= Lease.expiration (old_leader_ht_lease_ (p_node (peer_of s c))).
Proof.
  intros [_ Hp] Hl Ht Hg [->|Hv].
  - destruct (po_granted _ _ _ _ (Hp c) _ _ _ _ Hg) as (_ & Hc & Hh). split; [|done]. unfold covered, kLeaseMargin, kNanosPerMilli in *. lia.
  - pose proof (po_bound _ _ _ _ (Hp c) v u _ e h Hv Hg Ht) as H. unfold known_lease, known_ht_lease in H. by rewrite Hl in H.
Qed.

(** The leader of a later term has the vote of one that granted the lease. *)
Lemma later_leader_meets s u c (G : bytes → Prop) :
  config_ok cfg → inv s → p_leads (peer_of s c) = true → p_term (peer_of s u) < p_term (peer_of s c) → majority_of cfg (λ v, v = u ∨ G v) →
  ∃ v, G v ∧ (v = c ∨ v ∈ supporters (peer_of s c)).
Proof.
  intros Hok [_ Hp] Hl Ht (l & Hn & Hin & Hs). destruct (po_won _ _ _ _ (Hp c) Hl) as (l' & Hn' & Hin' & Hs').
  destruct (majorities_intersect cfg l l' Hok Hn Hn' (λ v H, proj1 (Hin v H)) (λ v H, proj1 (Hin' v H)) Hs Hs') as (v & H1 & H2). exists v. destruct (Hin' v H2) as [_ H'], (Hin v H1) as [_ [->|HG]]; [|by split].
  destruct H' as [->|H']; [lia|]. destruct (po_supporters _ _ _ _ (Hp c) u H') as (a & r & Hv). pose proof (po_voted _ _ _ _ (Hp u) _ _ _ _ Hv). lia.
Qed.

End Invariant.

(** ** Sample runs

    Voters 1, 2 and 3. 1 leads in term 1 with a lease of two seconds that 2 grants.
    3 leads in term 2 with the vote of 2, [T] after that, and gets a lease of 2. *)

Import RaftConfigProperties RaftElectionProperties.

Definition zero : bytes → Z := λ _, 0.
Definition sample_start_state : state := State 0 (λ u, Peer_ 0 false (sample_up u) sample_election0 [] ∅) [].
Definition lease_of (T : Z) : Z := T + 2000 * kNanosPerMilli - kLeaseMargin.
Abbreviation sample_clock := (clock kNanosPerMilli zero zero).
Abbreviation sample_run := (reach sample_config kNanosPerMilli zero zero).

(** [c] wins the vote of [v] for term [t]; it asks [v] for a lease, with hybrid
    time [ht], which [v] grants; [c] hears of it. *)
Definition wins (c v : bytes) (t : Z) (s : state) : state :=
  let s := vote kNanosPerMilli zero zero (campaign s c t sample_election0) c v t sample_vote_request in
  win (collect kNanosPerMilli zero zero s c v (match messages s with Voted _ _ _ _ r :: _ => r | _ => sample_answer end)) c.
Definition asks (c v : bytes) (ht : Z) (s : state) : state :=
  grant kNanosPerMilli zero zero (send kNanosPerMilli zero zero s c v 2000 ht) c v (p_term (peer_of s c)) (lease_of (sample_clock s c)) 2000 ht.
Definition hears (revocation : bool) (c v : bytes) (e ht : Z) (s : state) : state :=
  majority revocation (acknowledged s c v e ht) c e ht.

Definition first_lease (revocation : bool) : state := hears revocation [1] [2] (lease_of 0) 2000000 (asks [1] [2] 2000000 (wins [1] [2] 1 sample_start_state)).
Definition second_leader (revocation : bool) (T : Z) : state := asks [3] [2] 4000000 (wins [3] [2] 2 (tick (first_lease revocation) T)).
Definition second_lease (T : Z) : state := tick (hears false [3] [2] (lease_of (1500 * kNanosPerMilli)) 4000000 (second_leader false (1500 * kNanosPerMilli))) T.

(** 2 then leads in term 3 with the vote of 3, and gets its lease from 3. *)
Definition third_leader : state := asks [2] [3] 6000000 (wins [2] [3] 3 (tick (second_leader true (1500 * kNanosPerMilli)) (1600 * kNanosPerMilli))).
Definition third_granted : state := acknowledged third_leader [2] [3] (lease_of (1600 * kNanosPerMilli)) 6000000.

Lemma pair_majority (G : bytes → Prop) (u v : bytes) :
  u ≠ v → u ∈ voters sample_config → v ∈ voters sample_config → G u → G v → majority_of sample_config G.
Proof.
  intros Huv Hu Hv Gu Gv. exists [u; v]. split; [|split].
  - apply NoDup_cons. split; [by intros ?%list_elem_of_singleton|apply NoDup_singleton].
  - intros x [->|[->|[]%elem_of_nil]%elem_of_cons]%elem_of_cons; done.
  - vm_compute. congruence.
Qed.

(** Which peer [put] has changed. *)
Ltac look := repeat (cbn; first [rewrite decide_True by done | rewrite decide_False by congruence]); cbn.

Section Runs.
Context (revocation : bool).
Abbreviation run := (sample_run revocation sample_start_state).

Lemma wins_reach c v t s :
  run s → c ≠ v → c ∈ voters sample_config → v ∈ voters sample_config → p_term (peer_of s c) < t → p_term (peer_of s v) < t → run (wins c v t s).
Proof.
  intros Hr Hcv Hc Hv Ht Ht'. unfold wins.
  assert (H1 : run (campaign s c t sample_election0)) by (by eapply r_step, s_campaign).
  assert (H2 : run (vote kNanosPerMilli zero zero (campaign s c t sample_election0) c v t sample_vote_request)).
  { eapply r_step; [exact H1|]. apply s_vote; [done|left]. by look. }
  set (r := match messages _ with Voted _ _ _ _ r :: _ => r | _ => _ end).
  assert (H3 : run (collect kNanosPerMilli zero zero (vote kNanosPerMilli zero zero (campaign s c t sample_election0) c v t sample_vote_request) c v r)).
  { eapply r_step; [exact H2|]. apply (s_collect _ _ _ _ _ _ c v (time s)); look; [left|done]. }
  eapply r_step; [exact H3|]. apply s_win; [by look|]. apply (pair_majority _ c v); [done..|by left|right]. look. left.
Qed.

Lemma asks_reach c v ht s : run s → c ≠ v → p_leads (peer_of s c) = true → p_term (peer_of s v) <= p_term (peer_of s c) → run (asks c v ht s).
Proof.
  intros Hr Hcv Hl Ht. eapply r_step; [by eapply r_step, s_send|]. apply s_grant; [|done|].
  - cbn. left.
  - by look.
Qed.

Lemma hears_reach c v e ht s :
  run s → c ≠ v → c ∈ voters sample_config → v ∈ voters sample_config → p_leads (peer_of s c) = true → Granted c v (p_term (peer_of s c)) e ht ∈ messages s → run (hears revocation c v e ht s).
Proof.
  intros Hr Hcv Hc Hv Hl Hg. eapply r_step; [by eapply r_step, s_acknowledged|].
  apply s_majority; look; [done|..]; apply (pair_majority _ c v); try done; try (by left); right; exists (e, ht); rewrite lookup_insert_eq; split; done.
Qed.

Lemma sample_voters (u : bytes) : u = [1] ∨ u = [2] ∨ u = [3] → u ∈ voters sample_config.
Proof. change (voters sample_config) with ([[1]; [2]; [3]] : list bytes). intros [->|[->| ->]]; apply (bool_decide_unpack _); vm_compute; done. Qed.

Lemma tick_reach s T : run s → time s <= T → run (tick s T).
Proof. intros Hr HT. eapply r_step; [exact Hr|by apply s_tick]. Qed.

Lemma sample_start_reach : run sample_start_state.
Proof. apply r_refl. split; [done|]. split; [by intros u|]. intros u. split; [done|]. split; [done|]. split; [by left|]. split; [by left|done]. Qed.

Lemma first_reach : run (first_lease revocation).
Proof.
  apply hears_reach; [|done|apply sample_voters; tauto..|reflexivity|vm_compute; left]. apply asks_reach; [|done|reflexivity|vm_compute; congruence].
  apply wins_reach; [apply sample_start_reach|done|apply sample_voters; tauto..|reflexivity|reflexivity].
Qed.

Lemma second_reach T : 0 <= T → run (second_leader revocation T).
Proof.
  intros HT. apply asks_reach; [|done|reflexivity|vm_compute; congruence].
  apply wins_reach; [apply tick_reach; [apply first_reach|done]|done|apply sample_voters; tauto..|reflexivity|reflexivity].
Qed.

End Runs.

Lemma second_lease_reach T : 1500 * kNanosPerMilli <= T → sample_run false sample_start_state (second_lease T).
Proof. intros HT. apply tick_reach; [|done]. apply hears_reach; [by apply second_reach|done|apply sample_voters; tauto..|reflexivity|vm_compute; left]. Qed.

Lemma third_granted_reach : sample_run true sample_start_state third_granted.
Proof.
  eapply r_step; [|apply s_acknowledged; [vm_compute; left|reflexivity]]. apply asks_reach; [|done|reflexivity|vm_compute; congruence].
  apply wins_reach; [apply tick_reach; [by apply second_reach|by vm_compute]|done|apply sample_voters; tauto..|reflexivity|reflexivity].
Qed.

Lemma sample_ok : config_ok sample_config.
Proof. apply (verify_config_spec sample_config COMMITTED_QUORUM). vm_compute. reflexivity. Qed.

(** ** Properties *)

(** C7: Two leaders never report a lease at the same time, nor for the same hybrid time: while one reports a lease, the lease of any leader of an earlier term that has not stepped down is over on its own clock. Clocks have any offsets, run at the same rate and move in steps of at most a millisecond, messages arrive late or never, and leases are not revoked. *)
Theorem leases_exclusive cfg g off phase s0 s u c :
  0 < g → (g | kNanosPerMilli) → config_ok cfg → reach cfg g off phase false s0 s → p_leads (peer_of s u) = true → p_leads (peer_of s c) = true →
  p_term (peer_of s u) < p_term (peer_of s c) → replicated (p_node (peer_of s u)) → replicated (p_node (peer_of s c)) →
  ((GetLeaderLeaseStatusUnlocked (clock g off phase s c) ([], p_node (peer_of s c))).1 = Ok HAS_LEASE →
    majority_replicated_lease_expiration_ (p_node (peer_of s u)) < clock g off phase s u ∧
    (GetLeaderLeaseStatusUnlocked (clock g off phase s u) ([], p_node (peer_of s u))).1 ≠ Ok HAS_LEASE) ∧
  ∀ d micros, d ≠ 0 → 0 <= micros → (GetHybridTimeLeaseStatusAtUnlocked d micros ([], p_node (peer_of s c))).1 = Ok HAS_LEASE →
    (GetHybridTimeLeaseStatusAtUnlocked d micros ([], p_node (peer_of s u))).1 ≠ Ok HAS_LEASE.
Proof.
  intros Hpos Hms Hok Hr%reach_inv Hlu Hlc Ht Hu Hc; [|done..]. pose proof Hr as [Hm Hp]. split.
  - intros [Hs _]%has_lease_spec; [|done]. rewrite has_lease_spec by done. assert (Hover : majority_replicated_lease_expiration_ (p_node (peer_of s u)) < clock g off phase s u); [|split; [done|lia]].
    pose proof (mo_clock _ _ _ _ _ Hm u) as Hcu. destruct (po_own _ _ _ _ _ _ _ _ (Hp u) Hlu) as [->|Hmaj]; [unfold clock; lia|].
    eapply later_leader_meets in Hmaj as (v & (e & h & Hg & He) & Hv); [|done..]. destruct (granted_known _ _ _ _ _ _ _ _ _ _ Hr Hlc Ht Hg Hv) as [Hcov _].
    pose proof (aligned_over g off phase Hpos (time s) c _ (mo_clock _ _ _ _ _ Hm c) (proj1 (po_aligned _ _ _ _ _ _ _ _ (Hp c))) Hs). pose proof (reading_exact g off phase Hpos (time s) u).
    assert (g <= kNanosPerMilli) by (apply Z.divide_pos_le; [unfold kNanosPerMilli; lia|done]). unfold covered, exact, clock in *. lia.
  - intros d micros Hd Hz. rewrite !has_ht_lease_spec by done. intros [Hs _] [_ Hown].
    destruct (po_own_ht _ _ _ _ _ _ _ _ (Hp u) Hlu) as [E|Hmaj]; [unfold Lease.kMicrosNone in E; lia|].
    eapply later_leader_meets in Hmaj as (v & (e & h & Hg & He) & Hv); [|done..]. destruct (granted_known _ _ _ _ _ _ _ _ _ _ Hr Hlc Ht Hg Hv) as [_ Hcov]. lia.
Qed.

Lemma leases_exclusive_witness :
  let s := second_lease (2100 * kNanosPerMilli) in
  (GetLeaderLeaseStatusUnlocked (sample_clock s [3]) ([], p_node (peer_of s [3]))).1 = Ok HAS_LEASE ∧
  majority_replicated_lease_expiration_ (p_node (peer_of s [1])) < sample_clock s [1] ∧
  (GetHybridTimeLeaseStatusAtUnlocked 2000 3000000 ([], p_node (peer_of s [1]))).1 ≠ Ok HAS_LEASE.
Proof.
  cbn zeta. assert (Hs : (GetLeaderLeaseStatusUnlocked (sample_clock (second_lease (2100 * kNanosPerMilli)) [3]) ([], p_node (peer_of (second_lease (2100 * kNanosPerMilli)) [3]))).1 = Ok HAS_LEASE) by (vm_compute; reflexivity).
  destruct (leases_exclusive sample_config kNanosPerMilli zero zero sample_start_state (second_lease (2100 * kNanosPerMilli)) [1] [3]) as [H1 H2].
  - reflexivity.
  - reflexivity.
  - apply sample_ok.
  - apply second_lease_reach. by vm_compute.
  - reflexivity.
  - reflexivity.
  - vm_compute. reflexivity.
  - vm_compute. congruence.
  - vm_compute. congruence.
  - exact (conj Hs (conj (proj1 (H1 Hs)) (H2 2000 3000000 ltac:(done) ltac:(done) eq_refl))).
Defined.

(** C40: Revocation, which is on by default, forgets leases. A leader remembers one lease of old leaders, the one that ends last; when the holder of that lease has accepted the lease of the leader, and a majority has granted it, the leader reports a lease, although another leader of before reports its own. *)
Theorem revocation_forgets_leases cfg g off phase s0 s u c w ht :
  reach cfg g off phase true s0 s → p_leads (peer_of s u) = true → p_leads (peer_of s c) = true → u ≠ c → replicated (p_node (peer_of s c)) →
  (GetLeaderLeaseStatusUnlocked (clock g off phase s u) ([], p_node (peer_of s u))).1 = Ok HAS_LEASE →
  let holder := Lease.holder_uuid (old_leader_lease_ (p_node (peer_of s c))) in holder ≠ [] → is_Some (granted_to (peer_of s c) !! holder) →
  majority_of cfg (λ v, v = c ∨ ∃ x, granted_to (peer_of s c) !! v = Some x ∧ w <= x.1) →
  majority_of cfg (λ v, v = c ∨ ∃ x, granted_to (peer_of s c) !! v = Some x ∧ ht <= x.2) →
  w ≠ kCoarseZero → clock g off phase s c < w →
  let s' := majority true s c w ht in
  reach cfg g off phase true s0 s' ∧
  (GetLeaderLeaseStatusUnlocked (clock g off phase s' c) ([], p_node (peer_of s' c))).1 = Ok HAS_LEASE ∧
  (GetLeaderLeaseStatusUnlocked (clock g off phase s' u) ([], p_node (peer_of s' u))).1 = Ok HAS_LEASE.
Proof.
  intros Hr Hlu Hlc Huc Hrep Hu holder Hh Hg Hm Hm2 H0 Hw s'. split; [by eapply r_step, s_majority|]. assert (Eu : peer_of s' u = peer_of s u) by (cbn; by rewrite decide_False). split; [|by rewrite Eu].
  assert (Ec : p_node (peer_of s' c) = set_leases (p_node (peer_of s c)) (Lease.none Lease.kCoarseNone) (old_leader_ht_lease_ (p_node (peer_of s' c))) w ht).
  { look. fold holder. by rewrite !(bool_decide_true _ Hh), (bool_decide_true _ Hg). }
  rewrite Ec. apply has_lease_spec; [done|]. split; [by left|done].
Qed.

Lemma revocation_forgets_leases_witness :
  let s := majority true third_granted [2] (lease_of (1600 * kNanosPerMilli)) 6000000 in
  (GetLeaderLeaseStatusUnlocked (sample_clock s [2]) ([], p_node (peer_of s [2]))).1 = Ok HAS_LEASE ∧
  (GetLeaderLeaseStatusUnlocked (sample_clock s [1]) ([], p_node (peer_of s [1]))).1 = Ok HAS_LEASE.
Proof.
  apply (revocation_forgets_leases sample_config kNanosPerMilli zero zero sample_start_state third_granted [1] [2] (lease_of (1600 * kNanosPerMilli)) 6000000).
  - apply third_granted_reach.
  - reflexivity.
  - reflexivity.
  - done.
  - vm_compute. congruence.
  - vm_compute. reflexivity.
  - vm_compute. congruence.
  - vm_compute. by eexists.
  - apply (pair_majority _ [2] [3]); [done|apply sample_voters; tauto..|by left|right]. eexists. split; [vm_compute; reflexivity|by vm_compute].
  - apply (pair_majority _ [2] [3]); [done|apply sample_voters; tauto..|by left|right]. eexists. split; [vm_compute; reflexivity|by vm_compute].
  - by vm_compute.
  - by vm_compute.
Defined.

End Leases.
